(* ===== verification/_CoqProject ===== *)
-Q . S2P
Prelude.v
DlIntern.v
DlSyntax.v
DlLex.v
DlParse.v
DlParseSpec.v
DlSafe.v
DlStrata.v
DlRelation.v
DlEngine.v
DlJoin.v
DlSemantics.v
DlJoinSpec.v
DlAggSpec.v
DlCone.v
DlBottomUp.v
DlBottomUpSpec.v
DlComponentSpec.v
DlTopDown.v
DlQuery.v
DlLoadSpec.v
DlFactsSpec.v
DlQuerySpec.v
DlBoundary.v
VgValue.v
VgValueSpec.v
Jobs.v
JobsSpec.v
JobsLive.v
GoStrings.v
Reach.v
Budget.v
GrModel.v
GrTraverse.v
GrTraverseSpec.v
GrNoise.v
GrVerdict.v
GrResolve.v
GrFlows.v
GrPath.v
GrFlowsSpec.v
GrSeam.v
GrSeamSpec.v
DeadCode.v
DeadCodeSpec.v
Impact.v
ImpactSpec.v
GitDiff.v
Group.v
GrFiles.v
GrFilesSpec.v
BudgetCut.v
Trace.v
TraceSpec.v
ImpactRollup.v
ImpactDiff.v
ImpactDiffSpec.v
Regex.v
CtNormalize.v
CtNormalizeSpec.v
CtEngine.v
CtEngineSpec.v
CtLinkSpec.v
CtReport.v
Evidence.v
EvidenceSpec.v
VgSpec.v
VgSyntax.v
VgEngine.v
VgEngineSpec.v
EvReport.v
LkIndex.v
GrExplore.v
LkRoutes.v
CtEnrich.v
LkData.v
LkBroker.v
LkFiles.v
LkRuby.v
LkDom.v
