(* ===== verification/Prelude.v ===== *)
(** * polyflow: a verification development

    polyflow (a Go program, src/internal/) reads the services of a workspace,
    extracts a graph of code entities and their relations, links the services
    over the channels they talk on, and answers questions about the graph:
    what a change breaks, how a request flows, what is dead, how far an answer
    can be trusted.  This library models the parts of it that decide those
    answers and proves what each of them promises.  The definitions are
    translated from the source and are executable; the theorems are about
    them.

    ** The parts and how they meet

    - The datalog engine (internal/datalog) derives facts from rule files:
      [DlIntern] symbols, [DlSyntax] [DlLex] [DlParse] the rule language,
      [DlSafe] range restriction, [DlStrata] stratification, [DlRelation]
      stored tuples, [DlEngine] the engine's state and its loading, [DlJoin]
      the evaluation of a rule over an abstract body source, [DlCone] the order
      of evaluation, [DlBottomUp] and [DlTopDown] the two modes, [DlQuery] the
      query surface.  [DlSemantics] is the specification: the perfect model of
      a stratified program.  [DlJoinSpec] states the interface [SourceOk] a
      body source must meet; the joins are proved against it once and
      [DlBottomUpSpec] discharges it for the materialized source.
      [DlComponentSpec], [DlLoadSpec], [DlFactsSpec] and [DlQuerySpec] carry
      the proof from one rule to a whole query.  [DlBoundary] runs the engine
      on the inputs where it departs from what its comments say.
    - The value lattice (internal/valuegraph/value.go) is [VgValue]: the
      strings an expression can take, with its laws in [VgValueSpec].
    - The graph (internal/graph): [GrModel] nodes, edges and the adjacency
      index all queries run on; [GrTraverse] walks with a policy; [GrNoise]
      what is plumbing; [GrVerdict] trust in an answer; [GrResolve] finding the
      node a query names; [GrFlows] and [GrPath] flows and shortest paths;
      [GrSeam] the two sides of a channel; [GrFiles] the graph by file;
      [GrExplore] the neighbours of a node, the files related to a file, the
      channels between services, why an edge is there, the trend of the ledger.
    - Queries over the graph: [Impact], [ImpactRollup], [ImpactDiff]
      (internal/impact) the blast radius of nodes, files and diffs; [GitDiff]
      (internal/gitdiff) the diffs they start from; [DeadCode]
      (internal/deadcode) what nothing reaches; [Trace] and [BudgetCut]
      (internal/trace) the chains of a flow; [Budget] (internal/budget) fitting
      an answer to a number of tokens.
    - Linking (internal/contract): [Regex] the regular expressions it uses,
      [CtNormalize] the normalization of channel keys and the matching of
      paths, [CtEngine] the engine that joins producers to consumers,
      [CtReport] the reports on its edges, [CtEnrich] what is done to the nodes
      before: calls through aliases and wrappers get the address they stand
      for, routes of router groups their full path.
    - Evidence fusion (internal/evidence): [Evidence] confirms the linked edges
      by what contracts, configuration and the runtime report.
    - Reports (internal/evidence): [EvReport] counts the fused edges by kind
      and standing, proposes fixtures for the gaps and promotes them.
    - Value resolution (internal/valuegraph): [VgSpec] the binding specs,
      [VgSyntax] the accessors of tree-sitter nodes, a class with laws (a
      concrete arena is an instance in [VgEngineSpec]), [VgEngine] the engine
      that evaluates an expression through bindings, call sites and the two
      crossings, with its memo and its budgets.
    - Linker passes over the graph (internal/linker): [LkIndex] paths and the
      indexes the passes share; [LkRoutes] routes, registrations, message
      handlers; [LkData] datastores, tables, tests, signals; [LkBroker]
      declared broker hints; [LkFiles] containment, file nodes, components,
      retraction from the ledger; [LkRuby] mixins, overrides, sole definers;
      [LkDom] contracts, folding and pruning of selectors, shapes.
    - Jobs (internal/jobs, internal/ops/store.go): [Jobs] is a transition
      system whose events are the critical sections of the manager and of its
      goroutines, so that a run is an arbitrary interleaving.
    - Shared: this file (Go's outcomes as [result], the state and error monad
      [ST], lists and strings, the loops [map[k]++]), [GoStrings] (strings,
      strconv, fmt), [Reach] (the worklist closure) and [Group] (maps rolled
      up by a key).

    Where a component has a file [XSpec], it holds the theorems about [X];
    the other files end with their theorems.  Records, constructors and
    functions keep the names of the source, with a prefix where two Go types
    share a field name ([n_] for nodes, [ed_] for edges, [u_] for unresolved
    references, and so on).

    ** What the theorems show

    - Datalog: running a rule file over supplied facts answers each goal with
      exactly its content in the perfect model of the parsed rules over those
      facts, sorted and without repetition, or fails for a stated reason; the
      answer does not depend on the stratification chosen; stratification accepts exactly the stratifiable rule sets; the
      safety check is the declarative one; the parser reads back what a rule
      prints to and always returns; stored relations refine duplicate-free
      lists; symbols read back.
    - Graph and impact: walks end, report each node once, at its distance and
      along a walk of that length; the k flow paths are the first k in the
      code's order, as far as its limit on explored paths allows; a seam names
      every participant with a longest chain of at most 200 edges; blast radii
      are exact, also when merged from several roots, rolled up by file or
      seeded by a diff, whose spans are on exactly the nodes they touch or
      reported with a reason; dead code is exactly what the declarative
      predicates call dead.
    - Answers under a budget: the search finds the largest prefix that fits,
      and a trace or a rollup that leaves something out says so.
    - Linking: every edge is justified by a rule and a meeting of keys, at the
      producer's own key or the one the rules make of it, every producer node's
      call site is accounted for, a lookup is the first tier anything meets, a
      fan-out keeps an edge for each consumer of that tier and, when ambiguous,
      never more than partial confidence, the memo changes nothing, all spellings of a route template normalize alike, and
      a path matches a pattern exactly when it fills in its wildcards.
    - Evidence: an edge is verified exactly when two independent witnesses
      agree on it; what no static edge explains becomes a gap that loses no
      source; the stamp written in advance is the one fusion would compute.
    - Value resolution: every query, whatever the memo holds, is answered
      within its budget of files by a value in normal form whose unions are no
      wider than the options allow; what one call marks does not leak into the
      next.
    - Linker: a route reaches the one function its reference selects; every
      statement that names a table is joined to it or is in the ledger; a node
      meets a declared exchange only on evidence, never claiming more than the
      evidence says; a Ruby call reaches exactly the definitions of the nearest
      ancestors that have any; folding selectors loses no fact.
    - Enrichment: no call through an alias or a wrapper is lost or made up; the
      routes of a router group get the prefix of its chain and every other node
      is left as it is, field by field; a second run changes nothing.
    - Exploration: the related files and the neighbours of a node are exactly
      those within the depth, with their distances and counts; the channels
      between two services account for every flow edge that crosses the pair.
    - Jobs: at most one job of a kind runs, whatever the interleaving; a
      finished job's row never changes; along every fair run in which its work
      returns a started job ends, once.

    ** Fuel, bounds and widths

    Recursion that is not structural takes a number of steps computed from its
    input, and a theorem says that it is enough: one step a byte for the lexer
    and one a token for the parser ([parseRules_total]); one step a node for
    traversals, closures and Tarjan's algorithm (each step marks a node); one a
    candidate for the binary search of a budget; (MaxDepth + 1 - depth) times two
    more than the largest file, plus the size of the node, for a query of the
    value engine.  The walks over Ruby ancestors stop where the code stops, at
    13 levels.  The rounds of a datalog
    component are bounded as in the code, by MaxTuples and MaxRounds, which are
    fields of the engine; hitting them is an error the theorems mention.  The
    limits of the code are its own: 20000 paths explored by a path search, 200
    hops of a seam's chain, the display caps of a trace.  Integers that reach
    their width in the code are kept at it (64-bit token counts, 32-bit
    symbols); line numbers and counts of list elements are not.

    ** Parameters

    What the source gets from outside is a parameter of the definitions that
    use it: the order in which Go iterates over a map (an arbitrary permutation
    wherever the order can be observed), the length of a JSON encoding, JSON
    decoding of metadata, git and path cleaning, full-text search, reads of
    source files, the syntax trees of tree-sitter, the working directory, the
    clock and the outcome of a job's work.

    ** Not modelled

    The language parsers, the linker's passes that parse files again (those
    over the graph are modelled), pattern matching and the emitters of facts
    (tree-sitter queries and their captures), SQL and
    the stores, servers, the command line, plugins, embeddings and
    configuration loading: glue around code that is not in the repository.
    Top-down datalog evaluation is modelled and run on examples, its
    equivalence with the perfect model is not proved.  Error values are
    constructors that carry what the message names; the wording is left out.
    [sort.Slice] is a stable sort here, one of the orders Go may return.
    Lower-casing is ASCII. *)
From Stdlib Require Export Ascii Lia.
From Stdlib Require String.
From stdpp Require Export sorting numbers gmap sets strings list prelude.

(** * Go strings: byte sequences *)

Abbreviation str_bytes := Stdlib.Strings.String.list_ascii_of_string.
Abbreviation bytes_str := Stdlib.Strings.String.string_of_list_ascii.
Abbreviation str_eqb := Stdlib.Strings.String.eqb.
Abbreviation str_len := Stdlib.Strings.String.length.

Lemma str_len_app (a b : string) : str_len (a +:+ b) = str_len a + str_len b.
Proof.
  induction a as [|c a IH]; [done|].
  change (S (str_len (a +:+ b)) = S (str_len a + str_len b)). by rewrite IH.
Qed.

Lemma str_app_assoc (a b c : string) : (a +:+ b) +:+ c = a +:+ (b +:+ c).
Proof.
  induction a as [|x a IH]; [done|].
  change (String x ((a +:+ b) +:+ c) = String x (a +:+ (b +:+ c))). by rewrite IH.
Qed.

Lemma str_app_nil (s : string) : s +:+ "" = s.
Proof. induction s as [|c s IH]; [done|]. change (String c (s +:+ "") = String c s). by rewrite IH. Qed.

(** * Outcomes of fallible code *)

(** A Go function returning [(T, error)]: the value, or the error. *)
Inductive result (E A : Type) : Type :=
| Ok (a : A)
| Err (e : E).
Arguments Ok {E A} a.
Arguments Err {E A} e.

#[global] Instance result_ret {E} : MRet (result E) := fun A a => Ok a.
#[global] Instance result_bind {E} : MBind (result E) := fun A B k m =>
  match m with Ok a => k a | Err e => Err e end.
#[global] Instance result_map {E} : FMap (result E) := fun A B f m =>
  match m with Ok a => Ok (f a) | Err e => Err e end.

Definition is_Ok {E A} (r : result E A) : Prop := exists a, r = Ok a.

(** Early return of an error when a test fails. *)
Definition ensure {E} (b : bool) (e : E) : result E unit :=
  if b then Ok tt else Err e.

(** * Stateful fallible code *)

(** A method that mutates its receiver and returns [(T, error)].  The state
    after the call is kept on the error path too: Go does not roll back. *)
Definition ST (S E A : Type) : Type := S -> S * result E A.

#[global] Instance ST_ret {S E} : MRet (ST S E) := fun A a s => (s, Ok a).
#[global] Instance ST_bind {S E} : MBind (ST S E) := fun A B k m s =>
  match m s with
  | (s', Ok a) => k a s'
  | (s', Err e) => (s', Err e)
  end.

Definition get_st {S E} : ST S E S := fun s => (s, Ok s).
Definition put_st {S E} (s : S) : ST S E unit := fun _ => (s, Ok tt).
Definition modify_st {S E} (f : S -> S) : ST S E unit := fun s => (f s, Ok tt).
Definition throw {S E A} (e : E) : ST S E A := fun s => (s, Err e).
Definition lift_result {S E A} (r : result E A) : ST S E A := fun s => (s, r).

(** [for _, x := range xs { body }], stopping at the first error. *)
Fixpoint for_each {S E A} (xs : list A) (body : A -> ST S E unit) : ST S E unit :=
  match xs with
  | [] => mret tt
  | x :: xs' => body x ≫= fun _ => for_each xs' body
  end.

(** The same loop in the error monad. *)
Fixpoint for_result {E A} (xs : list A) (body : A -> result E unit) : result E unit :=
  match xs with
  | [] => Ok tt
  | x :: xs' => body x ≫= fun _ => for_result xs' body
  end.

(** * Automation *)

(** Split the hypotheses of the shape produced by the monads. *)
Ltac inv_result :=
  repeat match goal with
  | H : Ok _ = Ok _ |- _ => injection H; clear H; intros; subst
  | H : Err _ = Err _ |- _ => injection H; clear H; intros; subst
  | H : Ok _ = Err _ |- _ => discriminate H
  | H : Err _ = Ok _ |- _ => discriminate H
  | H : (_, _) = (_, _) |- _ => injection H; clear H; intros; subst
  end.

Lemma result_bind_ok {E A B} (m : result E A) (k : A -> result E B) b :
  (m ≫= k) = Ok b <-> exists a, m = Ok a /\ k a = Ok b.
Proof. destruct m; cbn; naive_solver. Qed.

Lemma ensure_ok {E} b (e : E) u : ensure b e = Ok u <-> b = true.
Proof. destruct b, u; cbn; naive_solver. Qed.

Lemma for_result_ok {E A} (xs : list A) (body : A -> result E unit) u :
  for_result xs body = Ok u <-> Forall (fun x => body x = Ok tt) xs.
Proof.
  destruct u. induction xs as [|x xs IH]; cbn [for_result].
  - split; [constructor|done].
  - rewrite result_bind_ok, Forall_cons, <- IH.
    split; [intros ([] & ? & ?); done|intros []; by exists tt].
Qed.

Lemma ST_bind_ok {S E A B} (m : ST S E A) (k : A -> ST S E B) s s' b :
  (m ≫= k) s = (s', Ok b) <->
  exists s1 a, m s = (s1, Ok a) /\ k a s1 = (s', Ok b).
Proof.
  unfold mbind, ST_bind. destruct (m s) as [s1 [a|e]]; split.
  - by exists s1, a.
  - intros (? & ? & ? & ?). by simplify_eq.
  - done.
  - intros (? & ? & ? & ?). by simplify_eq.
Qed.

(** * Reasoning about stateful code *)

(** [wp bad m Q s]: run from [s], [m] either returns with [Q] of the value and
    the state, or fails with an error for which [bad] holds. *)
Definition wp {S E A} (bad : E -> Prop) (m : ST S E A) (Q : A -> S -> Prop) (s : S) : Prop :=
  match m s with
  | (s', Ok a) => Q a s'
  | (_, Err e) => bad e
  end.

Section wp.
Context {S E : Type} (bad : E -> Prop).
Implicit Types s : S.

Lemma wp_ret {A} (a : A) (Q : A -> S -> Prop) s : Q a s -> wp bad (mret a) Q s.
Proof. done. Qed.

Lemma wp_bind {A B} (m : ST S E A) (k : A -> ST S E B) Q s :
  wp bad m (fun a => wp bad (k a) Q) s -> wp bad (m ≫= k) Q s.
Proof. unfold wp, mbind, ST_bind. by destruct (m s) as [s' [a|e]]. Qed.

Lemma wp_bind_inv {A B} (m : ST S E A) (k : A -> ST S E B) Q s :
  wp bad (m ≫= k) Q s -> wp bad m (fun a => wp bad (k a) Q) s.
Proof. unfold wp, mbind, ST_bind. by destruct (m s) as [s' [a|e]]. Qed.

Lemma wp_mono {A} (m : ST S E A) (Q1 Q2 : A -> S -> Prop) s :
  (forall a s', Q1 a s' -> Q2 a s') -> wp bad m Q1 s -> wp bad m Q2 s.
Proof. unfold wp. intros H. destruct (m s) as [s' [a|e]]; [apply H|done]. Qed.

Lemma wp_throw {A} e (Q : A -> S -> Prop) s : bad e -> wp bad (throw e) Q s.
Proof. done. Qed.

Lemma wp_lift {A} (r : result E A) (Q : A -> S -> Prop) s :
  (forall a, r = Ok a -> Q a s) -> (forall e, r = Err e -> bad e) -> wp bad (lift_result r) Q s.
Proof. unfold wp, lift_result. destruct r; auto. Qed.

Lemma wp_ok {A} (m : ST S E A) Q s s' a : m s = (s', Ok a) -> wp bad m Q s -> Q a s'.
Proof. unfold wp. by intros ->. Qed.

Lemma wp_err {A} (m : ST S E A) Q s s' e : m s = (s', Err e) -> wp bad m Q s -> bad e.
Proof. unfold wp. by intros ->. Qed.

(** Loops: an invariant over the elements done so far. *)
Lemma wp_for_each {A} (xs : list A) (body : A -> ST S E unit) (I : list A -> S -> Prop) s :
  I [] s ->
  (forall pre x post s, xs = pre ++ x :: post -> I pre s ->
     wp bad (body x) (fun _ => I (pre ++ [x])) s) ->
  wp bad (for_each xs body) (fun _ => I xs) s.
Proof.
  intros H0 Hstep.
  enough (H : forall ys pre s, xs = pre ++ ys -> I pre s ->
    wp bad (for_each ys body) (fun _ => I xs) s) by by apply (H xs []).
  induction ys as [|y ys IH]; intros pre s1 Hxs Hi; cbn [for_each].
  - apply wp_ret. rewrite app_nil_r in Hxs. by subst.
  - apply wp_bind. eapply wp_mono; [|by eapply Hstep].
    intros [] s2 H2. apply (IH (pre ++ [y])); [by rewrite <- app_assoc|done].
Qed.

End wp.

(** * Machine words *)

Definition u64 (n : N) : N := (n mod 2 ^ 64)%N.
Definition u32 (n : N) : N := (n mod 2 ^ 32)%N.

Lemma u64_small n : (n < 2 ^ 64)%N -> u64 n = n.
Proof. apply N.mod_small. Qed.

Lemma N_land_shiftl_small a b k : (b < 2 ^ k)%N -> N.land (N.shiftl a k) b = 0%N.
Proof.
  intros Hb. apply N.bits_inj_iff. intros i. rewrite N.land_spec, N.bits_0.
  destruct (N.lt_ge_cases i k) as [Hi|Hi].
  - by rewrite N.shiftl_spec_low.
  - destruct (N.eq_dec b 0%N) as [->|Hne]; [by rewrite N.bits_0, andb_false_r|].
    rewrite (N.bits_above_log2 b), andb_false_r; [done|].
    apply N.log2_lt_pow2; [lia|].
    eapply N.lt_le_trans; [exact Hb|]. by apply N.pow_le_mono_r.
Qed.

(** Packing a value above [k] low bits is addition. *)
Lemma N_lor_shiftl a b k :
  (b < 2 ^ k)%N -> N.lor (N.shiftl a k) b = (a * 2 ^ k + b)%N.
Proof.
  intros Hb. pose proof (N_land_shiftl_small a b k Hb) as Hland.
  rewrite <- N.lxor_lor by done. rewrite <- N.add_nocarry_lxor by done.
  by rewrite N.shiftl_mul_pow2.
Qed.

(** * Lists *)

Lemma StronglySorted_impl_elem {A} (R1 R2 : relation A) (l : list A) :
  (forall x y, x ∈ l -> y ∈ l -> R1 x y -> R2 x y) -> StronglySorted R1 l -> StronglySorted R2 l.
Proof.
  induction l as [|x l IH]; intros H Hs; [constructor|].
  apply StronglySorted_cons in Hs as [Hx Hs]. apply StronglySorted_cons. split.
  - rewrite Forall_forall in *. intros y Hy. apply H; [by left|by right|by apply Hx].
  - apply IH; [|done]. intros. apply H; [by right..|done].
Qed.

Lemma size_list_to_set_le (l : list string) : size (list_to_set l : gset string) <= length l.
Proof.
  induction l as [|x l IH]; [done|]. cbn [list_to_set foldr length]. rewrite size_union_alt, size_singleton.
  assert (size (list_to_set l ∖ {[x]} : gset string) <= size (list_to_set l : gset string)); [|cbn in *; lia].
  apply subseteq_size, subseteq_difference_l. done.
Qed.

(** ** Boolean list operations *)

Lemma filter_none {A} (p : A -> bool) (l : list A) : (forall x, p x = false) -> List.filter p l = [].
Proof. intros H. induction l as [|x l IH]; cbn; [done|]. by rewrite H. Qed.

Lemma str_eqb_decide (a b : string) : str_eqb a b = bool_decide (b = a).
Proof.
  case_bool_decide as E; [subst; apply Stdlib.Strings.String.eqb_refl|].
  by apply Stdlib.Strings.String.eqb_neq; intros ->.
Qed.

Lemma elem_of_bfilter {A} (p : A -> bool) l x : x ∈ List.filter p l <-> x ∈ l /\ p x = true.
Proof. by rewrite !list_elem_of_In, filter_In. Qed.

Lemma existsb_elem {A} (p : A -> bool) l : existsb p l = true <-> exists x, x ∈ l /\ p x = true.
Proof. rewrite existsb_exists. by setoid_rewrite list_elem_of_In. Qed.

Lemma not_existsb {A} (p : A -> bool) l : negb (existsb p l) = true <-> forall x, x ∈ l -> p x = false.
Proof.
  rewrite negb_true_iff, <- not_true_iff_false, existsb_elem. split.
  - intros H x Hx. apply not_true_iff_false. intros Hp. apply H. by exists x.
  - intros H (x & Hx & Hp). by rewrite H in Hp.
Qed.

Create HintDb polyflow.

(** * Sorting *)

(** [sort.Strings] *)
Definition sort_strings (l : list string) : list string := merge_sort String.le l.

(** Go's [<] on strings: bytewise. *)
Definition str_ltb (a b : string) : bool :=
  match Stdlib.Strings.String.compare a b with Lt => true | _ => false end.

(** [a] may stand before [b]. *)
Definition may_precede {A} (less : A -> A -> bool) (a b : A) : Prop := less b a = false.
#[export] Instance may_precede_dec {A} (less : A -> A -> bool) : RelDecision (may_precede less).
Proof. intros a b. unfold may_precede. apply _. Defined.

Fixpoint insert_by {A} (less : A -> A -> bool) (x : A) (l : list A) : list A :=
  match l with
  | [] => [x]
  | y :: l' => if less y x then y :: insert_by less x l' else x :: l
  end.

(** [sort.Slice] and [sort.SliceStable]: the elements in an order [less]
    allows; among elements [less] does not separate, the order they came in
    (which [sort.Slice] only keeps for slices of up to twelve elements). *)
Definition sort_slice {A} (less : A -> A -> bool) (l : list A) : list A := foldr (insert_by less) [] l.

(** [if a.f != b.f { return a.f < b.f }; return next] *)
Definition less_by {A K} `{EqDecision K} (f : A -> K) (lt : K -> K -> bool)
    (next : A -> A -> bool) (a b : A) : bool :=
  if decide (f a = f b) then next a b else lt (f a) (f b).

(** What a comparison must be for sorting to make sense of it. *)
Class WeakLess {A} (less : A -> A -> bool) : Prop := {
  less_asym a b : less a b = true -> less b a = false;
  less_negtrans a b c : less a b = false -> less b c = false -> less a c = false
}.

(** Distinct keys are ordered. *)
Class TotalLess {A} (less : A -> A -> bool) : Prop := {
  total_weak :: WeakLess less;
  less_total a b : less a b = false -> less b a = false -> a = b
}.

#[export] Instance str_ltb_total : TotalLess str_ltb.
Proof.
  assert (Hle : forall a b, str_ltb b a = false <-> String.le a b).
  { intros a b. unfold str_ltb, String.le, Stdlib.Strings.String.leb.
    rewrite (Stdlib.Strings.String.compare_antisym a b).
    destruct (Stdlib.Strings.String.compare b a); cbn; split; done. }
  split; [split|].
  - intros a b H. destruct (str_ltb b a) eqn:E; [|done]. exfalso. revert H E. unfold str_ltb.
    rewrite (Stdlib.Strings.String.compare_antisym a b).
    by destruct (Stdlib.Strings.String.compare b a).
  - intros a b c. rewrite !Hle. intros H1 H2. by etrans.
  - intros a b. rewrite !Hle. intros H1 H2. by apply (anti_symm String.le).
Qed.

Lemma str_ltb_irrefl s : str_ltb s s = false.
Proof. destruct (str_ltb s s) eqn:E; [|done]. by rewrite <- E, (@less_asym _ str_ltb (@total_weak _ _ str_ltb_total) s s). Qed.

#[export] Instance less_by_weak {A K} `{EqDecision K} (f : A -> K) lt next
  `{!TotalLess lt, !WeakLess next} : WeakLess (less_by f lt next).
Proof.
  unfold less_by. split.
  - intros a b. destruct (decide (f a = f b)), (decide (f b = f a)); try congruence; apply less_asym.
  - intros a b c.
    destruct (decide (f a = f b)) as [E1|E1], (decide (f b = f c)) as [E2|E2],
      (decide (f a = f c)) as [E3|E3]; try congruence.
    + apply less_negtrans.
    + intros H1 H2. rewrite E3 in H1. destruct E2. by apply (less_total (less:=lt)).
    + apply less_negtrans.
Qed.

#[export] Instance key_less_weak {A K} (f : A -> K) lt `{!WeakLess lt} : WeakLess (fun a b => lt (f a) (f b)).
Proof. split; intros; [by apply less_asym|by eapply less_negtrans]. Qed.

#[export] Instance ltb_total : TotalLess Nat.ltb.
Proof. split; [split|]; intros *; rewrite ?Nat.ltb_lt, ?Nat.ltb_ge; lia. Qed.

#[export] Instance Zltb_total : TotalLess Z.ltb.
Proof. split; [split|]; intros *; rewrite ?Z.ltb_lt, ?Z.ltb_ge; lia. Qed.

Section sort_slice.
Context {A : Type} (less : A -> A -> bool).

Lemma insert_by_perm x l : insert_by less x l ≡ₚ x :: l.
Proof. induction l as [|y l IH]; cbn; [done|]. destruct (less y x); [|done]. rewrite IH. apply Permutation_swap. Qed.

Lemma sort_slice_perm l : sort_slice less l ≡ₚ l.
Proof. induction l as [|x l IH]; cbn; [done|]. by rewrite insert_by_perm, IH. Qed.

Lemma elem_of_sort_slice x l : x ∈ sort_slice less l <-> x ∈ l.
Proof. by rewrite sort_slice_perm. Qed.

(** Elements [less] does not separate keep their order. *)
Lemma sort_slice_stable (p : A -> bool) l : (forall x y, p x = true -> p y = true -> less x y = false) ->
  List.filter p (sort_slice less l) = List.filter p l.
Proof.
  intros Hp. assert (Hi : forall x l, List.filter p (insert_by less x l) = List.filter p (x :: l)).
  { intros x l0. induction l0 as [|y l0 IH]; [done|]. cbn [insert_by]. destruct (less y x) eqn:E; [|done].
    cbn [List.filter] in *. rewrite IH. destruct (p x) eqn:Ex, (p y) eqn:Ey; try done. by rewrite Hp in E. }
  induction l as [|x l IH]; [done|]. cbn [sort_slice foldr]. rewrite Hi. cbn. unfold sort_slice in IH. by rewrite IH.
Qed.

Context `{!WeakLess less}.

#[local] Instance less_trans_rel : Transitive (may_precede less).
Proof. intros a b c H1 H2. exact (less_negtrans c b a H2 H1). Qed.

Lemma insert_by_sorted x l : StronglySorted (may_precede less) l -> StronglySorted (may_precede less) (insert_by less x l).
Proof.
  induction 1 as [|y l H IH Hy]; cbn; [by repeat constructor|]. destruct (less y x) eqn:E.
  - constructor; [done|]. rewrite insert_by_perm. constructor; [by apply less_asym|done].
  - constructor; [by constructor|]. constructor; [done|].
    eapply Forall_impl; [done|]. cbn. intros z Hz. by etrans.
Qed.

Lemma sort_slice_sorted l : StronglySorted (may_precede less) (sort_slice less l).
Proof. induction l as [|x l IH]; cbn; [constructor|by apply insert_by_sorted]. Qed.

(** Sorting forgets the order the elements came in, unless [less] leaves
    distinct elements unseparated. *)
Lemma sort_slice_order_independent l1 l2 :
  l1 ≡ₚ l2 -> (forall x y, x ∈ l1 -> y ∈ l1 -> less x y = false -> less y x = false -> x = y) ->
  sort_slice less l1 = sort_slice less l2.
Proof.
  intros Hp Hanti. apply (StronglySorted_unique_strong (may_precede less));
    [|apply sort_slice_sorted..|by rewrite !sort_slice_perm].
  intros x y. rewrite !elem_of_sort_slice, <- Hp. intros Hx Hy H1 H2. by apply Hanti.
Qed.
End sort_slice.

Lemma sort_strings_order_independent l1 l2 : l1 ≡ₚ l2 -> sort_strings l1 = sort_strings l2.
Proof.
  intros Hp. unfold sort_strings. apply (StronglySorted_unique String.le);
    [apply (StronglySorted_merge_sort String.le)..|].
  by rewrite !merge_sort_Permutation.
Qed.

Lemma elem_of_sort_strings x l : x ∈ sort_strings l <-> x ∈ l.
Proof. unfold sort_strings. by rewrite merge_sort_Permutation. Qed.

(** * Counters *)

(** [m[k]++] *)
Definition count_key (m : gmap string Z) (k : string) : gmap string Z := <[k := default 0 (m !! k) + 1]>%Z m.
Definition tally (keys : list string) : gmap string Z := fold_left count_key keys ∅.

Definition occurrences (k : string) (keys : list string) : nat := length (List.filter (str_eqb k) keys).

Lemma occurrences_pos k keys : 0 < occurrences k keys <-> k ∈ keys.
Proof.
  unfold occurrences. induction keys as [|k' keys IH]; cbn; [rewrite elem_of_nil; lia|].
  rewrite elem_of_cons. destruct (str_eqb k k') eqn:E; cbn.
  - apply String.eqb_eq in E as ->. split; [by left|lia].
  - apply String.eqb_neq in E. rewrite IH. naive_solver.
Qed.

(** A counter holds how often its key came, and no key that never came. *)
Lemma tally_lookup keys k :
  tally keys !! k = if occurrences k keys =? 0 then None else Some (Z.of_nat (occurrences k keys)).
Proof.
  unfold tally. induction keys as [|k' keys IH] using rev_ind; [done|].
  rewrite fold_left_app. cbn [fold_left]. unfold count_key at 1.
  assert (Ho : occurrences k (keys ++ [k']) = occurrences k keys + if str_eqb k k' then 1 else 0).
  { unfold occurrences. rewrite List.filter_app, length_app. cbn. by destruct (str_eqb k k'). }
  rewrite Ho. destruct (str_eqb k k') eqn:E.
  - apply String.eqb_eq in E as <-. rewrite lookup_insert_eq, IH.
    replace (default 0%Z (if occurrences k keys =? 0 then None else Some (Z.of_nat (occurrences k keys))))
      with (Z.of_nat (occurrences k keys)).
    { rewrite (proj2 (Nat.eqb_neq (occurrences k keys + 1) 0)) by lia. f_equal. lia. }
    destruct (occurrences k keys =? 0) eqn:E0; [apply Nat.eqb_eq in E0; by rewrite E0|done].
  - apply String.eqb_neq in E. rewrite lookup_insert_ne by done. by rewrite IH, Nat.add_0_r.
Qed.

Lemma tally_perm keys keys' : keys ≡ₚ keys' -> tally keys = tally keys'.
Proof.
  intros Hp. apply map_eq. intros k. rewrite !tally_lookup. unfold occurrences.
  enough (H : length (List.filter (str_eqb k) keys) = length (List.filter (str_eqb k) keys')) by by rewrite H.
  induction Hp; cbn; repeat case_match; cbn; congruence.
Qed.

(** * Loops *)

(** An invariant of a loop over a list. *)
Lemma fold_left_inv {A B} (P : A -> Prop) (f : A -> B -> A) (l : list B) a :
  P a -> (forall a x, x ∈ l -> P a -> P (f a x)) -> P (fold_left f l a).
Proof.
  revert a. induction l as [|x l IH]; intros a Ha Hf; [done|].
  cbn. apply IH; [apply Hf; [left|done]|]. intros b y Hy. apply Hf. by right.
Qed.
