(* ===== verification/DlIntern.v ===== *)
(** The symbol table of the datalog engine (internal/datalog/engine.go and
    builtin.go): interning of strings to 32-bit symbols, the reserved range of
    integer symbols, and the packed tuple keys. *)
From S2P Require Import Prelude.

Local Open Scope N_scope.

(** ** Decimal numerals: what strconv.ParseUint and FormatUint do in base 10 *)

Definition digit_val (c : ascii) : N := N_of_ascii c - 48.

Definition is_dec_digit (c : ascii) : bool :=
  (48 <=? N_of_ascii c) && (N_of_ascii c <=? 57).

Definition parse_uint (cs : list ascii) : N :=
  fold_left (fun acc c => acc * 10 + digit_val c) cs 0.

Definition digit_char (d : N) : ascii := ascii_of_N (48 + d).

(** Digits of [n], most significant first, in front of [acc].  A 64-bit value
    has at most twenty decimal digits. *)
Fixpoint format_digits (fuel : nat) (n : N) (acc : list ascii) : list ascii :=
  match fuel with
  | O => acc
  | S fuel' =>
      let acc' := digit_char (n mod 10) :: acc in
      if n <? 10 then acc' else format_digits fuel' (n / 10) acc'
  end.

Definition format_uint (n : N) : string :=
  bytes_str (format_digits 20 n []).

Arguments format_uint : simpl never.

(** ** Integer symbols *)

Definition intSymFlag : N := N.shiftl 1 31.

(** parseIntSym: the value of a non-negative decimal below 2^31. *)
Definition parseIntSym (s : string) : option N :=
  if str_eqb s "" || (10 <? str_len s)%nat then None
  else if forallb is_dec_digit (str_bytes s) then
    let n := parse_uint (str_bytes s) in
    if N.shiftl 1 31 <=? n then None else Some n
  else None.

(** decodeIntSym *)
Definition decodeIntSym (id : N) : option N :=
  if negb (N.land id intSymFlag =? 0) then Some (N.ldiff id intSymFlag) else None.

(** ** The interner *)

Record interner : Type := mkInterner {
  ids : gmap string N;
  strs : list string
}.

Definition newInterner : interner := mkInterner ∅ [].

(** interner.id, with the symbol table after the call; [uint32(len(in.strs))]
    wraps at 2^32. *)
Definition interner_id (in_ : interner) (s : string) : N * interner :=
  match parseIntSym s with
  | Some n => (N.lor intSymFlag n, in_)
  | None =>
      match ids in_ !! s with
      | Some v => (v, in_)
      | None =>
          let v := N.of_nat (length (strs in_)) mod 2 ^ 32 in
          (v, mkInterner (<[s := v]> (ids in_)) (strs in_ ++ [s]))
      end
  end.

(** interner.sym; nothing stands for the index-out-of-range panic of
    [in.strs[id]]. *)
Definition sym_checked (in_ : interner) (i : N) : option string :=
  if negb (N.land i intSymFlag =? 0) then Some (format_uint (N.ldiff i intSymFlag))
  else strs in_ !! N.to_nat i.

(** The same on a symbol of the table, where there is no panic. *)
Definition interner_sym (in_ : interner) (i : N) : string := default "" (sym_checked in_ i).

(** A public tuple and a tuple as the engine stores it. *)
Abbreviation Tuple := (list string).
Abbreviation itup := (list N).

(** interner.intern *)
Fixpoint intern (in_ : interner) (t : Tuple) : itup * interner :=
  match t with
  | [] => ([], in_)
  | s :: t' =>
      let '(v, in1) := interner_id in_ s in
      let '(vs, in2) := intern in1 t' in
      (v :: vs, in2)
  end.

(** interner.reveal *)
Definition reveal (in_ : interner) (t : itup) : Tuple := map (interner_sym in_) t.

(** ** Packed tuple keys *)

(** tkey: two symbols per 64-bit word, the tail as little-endian bytes. *)
Record tkey : Type := mkTkey { lo : N; hi : N; ext : list N }.

#[global] Instance tkey_eq_dec : EqDecision tkey.
Proof. solve_decision. Defined.

#[global] Program Instance tkey_countable : Countable tkey :=
  inj_countable' (fun k => (lo k, hi k, ext k))
                 (fun '(a, b, c) => mkTkey a b c) _.
Next Obligation. by intros []. Qed.

(** binary.LittleEndian.PutUint32 *)
Definition put_uint32 (n : N) : list N :=
  [n mod 256; N.shiftr n 8 mod 256; N.shiftr n 16 mod 256; N.shiftr n 24 mod 256].

(** One iteration of the loop of interner.key. *)
Definition key_step (k : tkey) (i : nat) (s : N) : tkey :=
  match i with
  | 0%nat => mkTkey (N.lor (lo k) (u64 (N.shiftl s 32))) (hi k) (ext k)
  | 1%nat => mkTkey (N.lor (lo k) s) (hi k) (ext k)
  | 2%nat => mkTkey (lo k) (N.lor (hi k) (u64 (N.shiftl s 32))) (ext k)
  | 3%nat => mkTkey (lo k) (N.lor (hi k) s) (ext k)
  | _ => mkTkey (lo k) (hi k) (ext k ++ put_uint32 s)
  end.

Fixpoint key_from (k : tkey) (i : nat) (t : itup) : tkey :=
  match t with
  | [] => k
  | s :: t' => key_from (key_step k i s) (S i) t'
  end.

(** interner.key *)
Definition interner_key (t : itup) : tkey := key_from (mkTkey 0 0 []) 0 t.

(** ** The symbol table invariant *)

(** Every index of the table is its own string's id, integers stay out of the
    table, and the ids fit below the integer range. *)
Record intern_wf (in_ : interner) : Prop := {
  iw_ids : forall s v, ids in_ !! s = Some v -> strs in_ !! N.to_nat v = Some s;
  iw_strs : forall i s, strs in_ !! i = Some s ->
    ids in_ !! s = Some (N.of_nat i) /\ parseIntSym s = None;
  iw_len : N.of_nat (length (strs in_)) <= 2 ^ 31
}.

(** Room for one more string symbol. *)
Definition intern_room (in_ : interner) : Prop := N.of_nat (length (strs in_)) < 2 ^ 31.

(** A symbol the table gives a meaning to. *)
Definition sym_valid (in_ : interner) (v : N) : Prop :=
  (exists n, n < 2 ^ 31 /\ v = N.lor intSymFlag n) \/ (N.to_nat v < length (strs in_))%nat.

(** The table only grows. *)
Definition intern_le (a b : interner) : Prop := exists l, strs b = strs a ++ l.

(** What a string reads back as: integer symbols lose leading zeros. *)
Definition canon (s : string) : string :=
  match parseIntSym s with Some n => format_uint n | None => s end.

Lemma intern_le_refl a : intern_le a a.
Proof. exists []. by rewrite app_nil_r. Qed.

Lemma intern_le_trans a b c : intern_le a b -> intern_le b c -> intern_le a c.
Proof. intros [l1 H1] [l2 H2]. exists (l1 ++ l2). by rewrite H2, H1, app_assoc. Qed.

#[export] Hint Resolve intern_le_refl intern_le_trans : polyflow.

(** *** Decimal round trip *)

Lemma digit_val_char d : d < 10 -> digit_val (digit_char d) = d.
Proof.
  intros Hd. unfold digit_val, digit_char. rewrite N_ascii_embedding; lia.
Qed.

Lemma is_dec_digit_char d : d < 10 -> is_dec_digit (digit_char d) = true.
Proof.
  intros Hd. unfold is_dec_digit, digit_char. rewrite N_ascii_embedding by lia.
  apply andb_true_iff. rewrite !N.leb_le. lia.
Qed.

Lemma parse_format_digits fuel n acc a :
  n < 10 ^ N.of_nat fuel -> (0 < fuel)%nat ->
  exists k, fold_left (fun acc c => acc * 10 + digit_val c) (format_digits fuel n acc) a
    = fold_left (fun acc c => acc * 10 + digit_val c) acc (a * 10 ^ k + n).
Proof.
  revert n acc a. induction fuel as [|fuel IH]; intros n acc a Hn Hf; [lia|].
  cbn [format_digits]. destruct (N.ltb_spec n 10) as [Hlt|Hge].
  - exists 1. cbn [fold_left]. rewrite digit_val_char by (apply N.mod_lt; lia).
    rewrite N.mod_small by done. f_equal; lia.
  - assert (0 < fuel)%nat as Hf'.
    { destruct fuel; [|lia]. cbn in Hn. lia. }
    destruct (IH (n / 10) (digit_char (n mod 10) :: acc) a) as [k Hk]; [|done|].
    { apply N.Div0.div_lt_upper_bound.
      rewrite Nat2N.inj_succ, N.pow_succ_r' in Hn. lia. }
    exists (N.succ k). rewrite Hk. cbn [fold_left].
    rewrite digit_val_char by (apply N.mod_lt; lia). f_equal.
    rewrite N.pow_succ_r'. pose proof (N.div_mod n 10). lia.
Qed.

Lemma parse_format n : n < 10 ^ 20 -> parse_uint (format_digits 20 n []) = n.
Proof.
  intros Hn. unfold parse_uint.
  destruct (parse_format_digits 20 n [] 0) as [k Hk]; [done|lia|].
  rewrite Hk. cbn [fold_left]. lia.
Qed.

Lemma format_digits_all fuel n acc :
  forallb is_dec_digit acc = true -> forallb is_dec_digit (format_digits fuel n acc) = true.
Proof.
  revert n acc. induction fuel as [|fuel IH]; intros n acc Hacc; [done|].
  cbn [format_digits].
  assert (forallb is_dec_digit (digit_char (n mod 10) :: acc) = true) as H.
  { cbn. rewrite is_dec_digit_char by (apply N.mod_lt; lia). done. }
  destruct (n <? 10); [done|by apply IH].
Qed.

Lemma format_digits_length fuel n acc d :
  n < 10 ^ N.of_nat d -> (0 < d)%nat ->
  (length (format_digits fuel n acc) <= d + length acc)%nat.
Proof.
  revert n acc d. induction fuel as [|fuel IH]; intros n acc d Hn Hd; cbn; [lia|].
  destruct (N.ltb_spec n 10) as [Hlt|Hge]; cbn; [lia|].
  destruct d as [|[|d]]; [lia|cbn in Hn; lia|].
  specialize (IH (n / 10) (digit_char (n mod 10) :: acc) (S d)). cbn in IH.
  enough (n / 10 < 10 ^ N.of_nat (S d)) as Hlt by (specialize (IH Hlt); lia).
  apply N.Div0.div_lt_upper_bound.
  rewrite (Nat2N.inj_succ (S d)), N.pow_succ_r' in Hn. lia.
Qed.

Lemma format_digits_ne fuel n acc : (0 < fuel)%nat -> format_digits fuel n acc <> [].
Proof.
  revert n acc. induction fuel as [|fuel IH]; intros n acc Hf; [lia|].
  cbn [format_digits]. destruct (n <? 10); [done|].
  destruct fuel; [done|]. apply IH. lia.
Qed.

Lemma str_len_bytes cs : str_len (bytes_str cs) = length cs.
Proof. induction cs as [|c cs IH]; cbn; [done|by rewrite IH]. Qed.

Lemma str_bytes_bytes_str cs : str_bytes (bytes_str cs) = cs.
Proof. apply Stdlib.Strings.String.list_ascii_of_string_of_list_ascii. Qed.

Lemma bytes_str_str_bytes s : bytes_str (str_bytes s) = s.
Proof. apply Stdlib.Strings.String.string_of_list_ascii_of_string. Qed.

Lemma parseIntSym_lt s n : parseIntSym s = Some n -> n < 2 ^ 31.
Proof.
  unfold parseIntSym. intros H.
  repeat case_match; simplify_eq. by apply N.leb_gt.
Qed.

(** FormatUint then parseIntSym is the identity on the integer range. *)
Lemma parseIntSym_format n : n < 2 ^ 31 -> parseIntSym (format_uint n) = Some n.
Proof.
  intros Hn. unfold parseIntSym, format_uint.
  assert (n < 10 ^ 20) as Hn20 by (eapply N.lt_trans; [exact Hn|reflexivity]).
  assert (n < 10 ^ N.of_nat 10) as Hn10 by (eapply N.lt_trans; [exact Hn|reflexivity]).
  pose proof (format_digits_ne 20 n [] ltac:(lia)) as Hne.
  pose proof (format_digits_length 20 n [] 10 Hn10 ltac:(lia)) as Hlen. cbn [length] in Hlen.
  rewrite str_len_bytes, str_bytes_bytes_str.
  rewrite format_digits_all by done. rewrite parse_format by done.
  destruct (str_eqb (bytes_str (format_digits 20 n [])) "") eqn:He.
  - apply Stdlib.Strings.String.eqb_eq in He.
    destruct (format_digits 20 n []); [done|discriminate].
  - destruct (Nat.ltb_spec 10 (length (format_digits 20 n []))); [lia|]. cbn [orb].
    destruct (N.leb_spec (N.shiftl 1 31) n) as [Hle|]; [|done].
    change (N.shiftl 1 31) with (2 ^ 31) in Hle. lia.
Qed.

Lemma format_uint_inj n m : n < 2 ^ 31 -> m < 2 ^ 31 -> format_uint n = format_uint m -> n = m.
Proof.
  intros Hn Hm He. apply parseIntSym_format in Hn, Hm. congruence.
Qed.

(** *** Integer symbols *)

Lemma intsym_add n : n < 2 ^ 31 -> N.lor intSymFlag n = 2 ^ 31 + n.
Proof. intros Hn. unfold intSymFlag. by rewrite N_lor_shiftl. Qed.

Lemma intsym_land n : n < 2 ^ 31 -> N.land (N.lor intSymFlag n) intSymFlag = intSymFlag.
Proof.
  intros _. rewrite N.land_comm. apply N.bits_inj_iff. intros i.
  rewrite N.land_spec, N.lor_spec. by destruct (N.testbit intSymFlag i).
Qed.

Lemma intsym_ldiff n : n < 2 ^ 31 -> N.ldiff (N.lor intSymFlag n) intSymFlag = n.
Proof.
  intros Hn. apply N.bits_inj_iff. intros i.
  rewrite N.ldiff_spec, N.lor_spec.
  assert (N.land n intSymFlag = 0) as Hl.
  { rewrite N.land_comm. by apply N_land_shiftl_small. }
  assert (N.testbit (N.land n intSymFlag) i = false) as Hb by (rewrite Hl; apply N.bits_0).
  rewrite N.land_spec in Hb.
  by destruct (N.testbit intSymFlag i), (N.testbit n i).
Qed.

Lemma strsym_land v : v < 2 ^ 31 -> N.land v intSymFlag = 0.
Proof. intros Hv. rewrite N.land_comm. by apply N_land_shiftl_small. Qed.

Lemma decodeIntSym_int n : n < 2 ^ 31 -> decodeIntSym (N.lor intSymFlag n) = Some n.
Proof. intros Hn. unfold decodeIntSym. by rewrite intsym_land, intsym_ldiff. Qed.

Lemma decodeIntSym_str v : v < 2 ^ 31 -> decodeIntSym v = None.
Proof. intros Hv. unfold decodeIntSym. by rewrite strsym_land. Qed.

Lemma interner_sym_int in_ n : n < 2 ^ 31 ->
  interner_sym in_ (N.lor intSymFlag n) = format_uint n.
Proof. intros Hn. unfold interner_sym, sym_checked. by rewrite intsym_land, intsym_ldiff. Qed.

Lemma interner_sym_str in_ v : v < 2 ^ 31 ->
  interner_sym in_ v = default "" (strs in_ !! N.to_nat v).
Proof. intros Hv. unfold interner_sym, sym_checked. by rewrite strsym_land. Qed.

(** *** interner.id keeps the invariant and gives the string's own symbol *)

Lemma newInterner_wf : intern_wf newInterner.
Proof. split; cbn; [set_solver|intros i s; by rewrite lookup_nil|done]. Qed.

Lemma interner_id_hit in_ s v : ids in_ !! s = Some v -> parseIntSym s = None ->
  interner_id in_ s = (v, in_).
Proof. intros Hv Hp. unfold interner_id. by rewrite Hp, Hv. Qed.

Lemma intern_add_wf in_ s :
  intern_wf in_ -> intern_room in_ -> parseIntSym s = None -> ids in_ !! s = None ->
  intern_wf (mkInterner (<[s := N.of_nat (length (strs in_))]> (ids in_)) (strs in_ ++ [s])).
Proof.
  intros [Hids Hstrs Hlen] Hroom Hp Hnew. split; cbn.
  - intros s' v. rewrite lookup_insert. case_decide as Hs.
    + intros [= <-]. subst. by rewrite Nat2N.id, list_lookup_middle.
    + intros Hv. apply Hids in Hv. by apply lookup_app_l_Some.
  - intros i s' Hi. apply lookup_app_Some in Hi as [Hi|[Hge Hi]].
    + destruct (Hstrs _ _ Hi) as [Hv Hp']. split; [|done].
      rewrite lookup_insert_ne; [done|]. intros ->. congruence.
    + apply list_lookup_singleton_Some in Hi as [Hi ->].
      rewrite lookup_insert_eq. split; [f_equal; lia|done].
  - rewrite length_app. cbn. unfold intern_room in Hroom. lia.
Qed.

(** The table has not outgrown the symbols below the integer flag. *)
Definition intern_fits (in_ : interner) : Prop := N.of_nat (length (strs in_)) <= 2 ^ 31.

Lemma intern_fits_le a b : intern_le a b -> intern_fits b -> intern_fits a.
Proof. unfold intern_fits. intros [l ->]. rewrite length_app. lia. Qed.

Lemma interner_id_grows in_ s v in1 : interner_id in_ s = (v, in1) -> intern_le in_ in1.
Proof.
  unfold interner_id. destruct (parseIntSym s); [|destruct (ids in_ !! s)]; intros [= <- <-];
    [apply intern_le_refl..|by exists [s]].
Qed.

Lemma interner_id_spec in_ s v in1 :
  intern_wf in_ -> intern_fits in1 -> interner_id in_ s = (v, in1) ->
  intern_wf in1 /\ intern_le in_ in1 /\ sym_valid in1 v /\ interner_sym in1 v = canon s.
Proof.
  intros Hwf. unfold interner_id, canon.
  destruct (parseIntSym s) as [n|] eqn:Hp.
  - intros _ [= <- <-]. pose proof (parseIntSym_lt _ _ Hp) as Hn.
    split_and!; [done|eauto with polyflow|left; eauto|by apply interner_sym_int].
  - destruct (ids in_ !! s) as [w|] eqn:Hw; intros Hroom [= <- <-].
    + pose proof (iw_ids _ Hwf _ _ Hw) as Hs.
      pose proof (lookup_lt_Some _ _ _ Hs) as Hlt. pose proof (iw_len _ Hwf).
      split_and!; [done|eauto with polyflow|by right|].
      rewrite interner_sym_str by lia. by rewrite Hs.
    + unfold intern_fits in Hroom. cbn in Hroom. rewrite length_app in Hroom. cbn in Hroom.
      rewrite N.mod_small by lia. split_and!.
      * apply intern_add_wf; [done|unfold intern_room; lia|done|done].
      * by exists [s].
      * right. cbn. rewrite length_app, Nat2N.id. cbn. lia.
      * rewrite interner_sym_str by lia. cbn. by rewrite Nat2N.id, list_lookup_middle.
Qed.

Lemma sym_valid_le a b v : intern_le a b -> sym_valid a v -> sym_valid b v.
Proof.
  intros [l Hl] [Hi|Hv]; [by left|right]. rewrite Hl, length_app. lia.
Qed.

Lemma interner_sym_le a b v :
  intern_wf a -> intern_le a b -> sym_valid a v -> interner_sym b v = interner_sym a v.
Proof.
  intros Hwf [l Hl] [(n & Hn & ->)|Hv].
  - by rewrite !interner_sym_int.
  - pose proof (iw_len _ Hwf). rewrite !interner_sym_str by lia.
    by rewrite Hl, lookup_app_l by lia.
Qed.

(** Two symbols of one table that read back alike are the same symbol. *)
Lemma interner_sym_inj in_ v w :
  intern_wf in_ -> sym_valid in_ v -> sym_valid in_ w ->
  interner_sym in_ v = interner_sym in_ w -> v = w.
Proof.
  intros Hwf Hv Hw He. pose proof (iw_len _ Hwf) as Hlen.
  assert (forall n u, n < 2 ^ 31 -> (N.to_nat u < length (strs in_))%nat ->
    format_uint n <> interner_sym in_ u) as Hmix.
  { intros n u Hn Hu Heq. rewrite interner_sym_str in Heq by lia.
    destruct (lookup_lt_is_Some_2 _ _ Hu) as [s Hs]. rewrite Hs in Heq. cbn in Heq.
    apply (iw_strs _ Hwf) in Hs as [_ Hp]. rewrite <- Heq in Hp.
    by rewrite parseIntSym_format in Hp. }
  destruct Hv as [(n & Hn & ->)|Hv], Hw as [(m & Hm & ->)|Hw];
    rewrite ?interner_sym_int in He by done.
  - apply format_uint_inj in He; congruence.
  - by eapply Hmix in He.
  - symmetry in He. by eapply Hmix in He.
  - rewrite !interner_sym_str in He by lia.
    destruct (lookup_lt_is_Some_2 _ _ Hv) as [s Hs], (lookup_lt_is_Some_2 _ _ Hw) as [s' Hs'].
    rewrite Hs, Hs' in He. cbn in He. subst s'.
    apply (iw_strs _ Hwf) in Hs as [Hs _], Hs' as [Hs' _].
    rewrite Hs in Hs'. injection Hs' as Hs'. lia.
Qed.

Definition itup_valid (in_ : interner) (t : itup) : Prop := Forall (sym_valid in_) t.

Lemma intern_grows in_ t it in1 : intern in_ t = (it, in1) -> intern_le in_ in1.
Proof.
  revert in_ it in1. induction t as [|s t IH]; intros in_ it in1; cbn [intern].
  - intros [= <- <-]. apply intern_le_refl.
  - destruct (interner_id in_ s) as [v in0] eqn:E, (intern in0 t) as [vs in2] eqn:E2.
    intros [= <- <-]. eapply intern_le_trans; [by eapply interner_id_grows|by eapply IH].
Qed.

Lemma intern_spec in_ t it in1 :
  intern_wf in_ -> intern_fits in1 -> intern in_ t = (it, in1) ->
  intern_wf in1 /\ intern_le in_ in1 /\ itup_valid in1 it /\
  reveal in1 it = map canon t /\ length it = length t.
Proof.
  revert in_ it in1. induction t as [|s t IH]; intros in_ it in1 Hwf Hfit.
  - intros [= <- <-]. split_and!; [done|eauto with polyflow|constructor|done|done].
  - cbn [intern length] in *. destruct (interner_id in_ s) as [v in2] eqn:Hid.
    destruct (intern in2 t) as [vs in3] eqn:Ht. intros [= <- <-].
    destruct (interner_id_spec in_ s v in2 Hwf) as (Hwf2 & Hle & Hv & Hs);
      [by eapply intern_fits_le; [eapply intern_grows|]|done|].
    destruct (IH in2 vs in3 Hwf2) as (Hwf3 & Hle3 & Hvs & Hr & Hl); [done|done|].
    split_and!; [done|eauto with polyflow| | |by cbn; rewrite Hl].
    + constructor; [by eapply sym_valid_le|done].
    + cbn. unfold reveal in Hr. rewrite Hr. f_equal. by rewrite (interner_sym_le in2 in3).
Qed.

Lemma reveal_inj in_ t1 t2 :
  intern_wf in_ -> itup_valid in_ t1 -> itup_valid in_ t2 ->
  reveal in_ t1 = reveal in_ t2 -> t1 = t2.
Proof.
  intros Hwf. revert t2. induction t1 as [|v t1 IH]; intros [|w t2] H1 H2 He; try done.
  cbn in He. injection He as He1 He2.
  apply Forall_cons in H1 as [], H2 as []. f_equal; [by eapply interner_sym_inj|by apply IH].
Qed.

Lemma sym_valid_u32 in_ v : intern_wf in_ -> sym_valid in_ v -> v < 2 ^ 32.
Proof.
  intros Hwf [(n & Hn & ->)|Hv].
  - rewrite intsym_add by done. change (2 ^ 32) with (2 ^ 31 + 2 ^ 31). lia.
  - pose proof (iw_len _ Hwf). change (2 ^ 32) with (2 ^ 31 + 2 ^ 31). lia.
Qed.

Lemma itup_valid_u32 in_ t : intern_wf in_ -> itup_valid in_ t -> Forall (fun v => v < 2 ^ 32) t.
Proof. intros Hwf Ht. eapply Forall_impl; [exact Ht|]. intros. by eapply sym_valid_u32. Qed.

(** *** Packed keys are injective on tuples of one arity *)

Lemma put_uint32_inj a b : a < 2 ^ 32 -> b < 2 ^ 32 -> put_uint32 a = put_uint32 b -> a = b.
Proof.
  intros Ha Hb. unfold put_uint32. intros [= H0 H1 H2 H3].
  rewrite !N.shiftr_div_pow2 in *.
  assert (forall x, x < 2 ^ 32 ->
    x = x mod 256 + 256 * ((x / 2 ^ 8) mod 256) + 65536 * ((x / 2 ^ 16) mod 256)
        + 16777216 * ((x / 2 ^ 24) mod 256)) as Hdec.
  { intros x Hx. change (2 ^ 8) with 256. change (2 ^ 16) with (256 * 256).
    change (2 ^ 24) with (256 * 256 * 256). rewrite <- !N.Div0.div_div.
    pose proof (N.div_mod x 256). pose proof (N.div_mod (x / 256) 256).
    pose proof (N.div_mod (x / 256 / 256) 256).
    assert (x / 256 / 256 / 256 < 256).
    { rewrite !N.Div0.div_div. apply N.Div0.div_lt_upper_bound. exact Hx. }
    rewrite (N.mod_small (x / 256 / 256 / 256)) by done. lia. }
  rewrite (Hdec a), (Hdec b) by done. by rewrite H0, H1, H2, H3.
Qed.

Lemma put_uint32_concat_inj t1 t2 :
  Forall (fun v => v < 2 ^ 32) t1 -> Forall (fun v => v < 2 ^ 32) t2 ->
  concat (map put_uint32 t1) = concat (map put_uint32 t2) -> t1 = t2.
Proof.
  revert t2. induction t1 as [|a t1 IH]; intros [|b t2] H1 H2 He; try done.
  apply Forall_cons in H1 as [], H2 as []. cbn [map concat] in He.
  apply app_inj_1 in He as [Ha Ht]; [|done]. f_equal; [by apply put_uint32_inj|by apply IH].
Qed.

Lemma key_from_tail k i t : (4 <= i)%nat ->
  key_from k i t = mkTkey (lo k) (hi k) (ext k ++ concat (map put_uint32 t)).
Proof.
  revert k i. induction t as [|s t IH]; intros k i Hi; cbn [key_from map concat].
  - rewrite app_nil_r. by destruct k.
  - do 4 (destruct i as [|i]; [lia|]). cbn [key_step]. rewrite IH by lia. cbn.
    by rewrite <- app_assoc.
Qed.

Lemma pack_inj a b c d : a < 2 ^ 32 -> b < 2 ^ 32 -> c < 2 ^ 32 -> d < 2 ^ 32 ->
  N.lor (u64 (N.shiftl a 32)) b = N.lor (u64 (N.shiftl c 32)) d -> a = c /\ b = d.
Proof.
  intros Ha Hb Hc Hd.
  assert (forall x, x < 2 ^ 32 -> u64 (N.shiftl x 32) = N.shiftl x 32) as Hsmall.
  { intros x Hx. apply u64_small. rewrite N.shiftl_mul_pow2.
    change (2 ^ 64) with (2 ^ 32 * 2 ^ 32). nia. }
  rewrite !Hsmall, !N_lor_shiftl by done. nia.
Qed.

Lemma pack0_inj a c : a < 2 ^ 32 -> c < 2 ^ 32 ->
  u64 (N.shiftl a 32) = u64 (N.shiftl c 32) -> a = c.
Proof.
  intros Ha Hc He. apply (pack_inj a 0 c 0); [done..|]. by rewrite He.
Qed.

Lemma interner_key_inj t1 t2 :
  length t1 = length t2 -> Forall (fun v => v < 2 ^ 32) t1 -> Forall (fun v => v < 2 ^ 32) t2 ->
  interner_key t1 = interner_key t2 -> t1 = t2.
Proof.
  intros Hl H1 H2. unfold interner_key.
  destruct t1 as [|a1 [|b1 [|c1 [|d1 r1]]]], t2 as [|a2 [|b2 [|c2 [|d2 r2]]]];
    try discriminate Hl; [done|..];
    repeat match goal with H : Forall _ (_ :: _) |- _ => apply Forall_cons in H as [??] end;
    cbn [key_from key_step lo hi ext app].
  - intros [= He]. f_equal. by apply pack0_inj.
  - intros [= He]. apply pack_inj in He as [-> ->]; done.
  - intros [= He1 He2]. apply pack_inj in He1 as [-> ->]; [|done..].
    apply pack0_inj in He2 as ->; done.
  - rewrite !key_from_tail by lia. cbn. intros [= He1 He2 He3].
    apply pack_inj in He1 as [-> ->], He2 as [-> ->]; [|done..].
    apply put_uint32_concat_inj in He3 as ->; done.
Qed.

Lemma itup_valid_le a b t : intern_le a b -> itup_valid a t -> itup_valid b t.
Proof. intros Hle Ht. eapply Forall_impl; [exact Ht|]. intros. by eapply sym_valid_le. Qed.

Lemma reveal_le a b t :
  intern_wf a -> intern_le a b -> itup_valid a t -> reveal b t = reveal a t.
Proof.
  intros Hw Hle Hv. apply map_ext_Forall. eapply Forall_impl; [exact Hv|].
  intros v ?. by apply interner_sym_le.
Qed.

(** ** Properties *)

(** C10: interning then revealing a tuple gives back each string in canonical
    form (itself, but for an integer spelt with leading zeros), the table stays
    well formed, later interning never changes what was interned, and two
    interned tuples are equal exactly when their canonical strings are. *)
Theorem intern_reveal_roundtrip in_ t it in1 t' it' in2 :
  intern_wf in_ -> intern_fits in2 ->
  intern in_ t = (it, in1) -> intern in1 t' = (it', in2) ->
  intern_wf in2 /\ reveal in1 it = map canon t /\ reveal in2 it = map canon t /\
  reveal in2 it' = map canon t' /\ (it = it' <-> map canon t = map canon t').
Proof.
  intros Hw Hfit H1 H2.
  assert (Hfit1 : intern_fits in1) by (eapply intern_fits_le; [by eapply intern_grows|done]).
  destruct (intern_spec in_ t it in1 Hw Hfit1 H1) as (Hw1 & Hle1 & Hv1 & Hr1 & Hn1).
  destruct (intern_spec in1 t' it' in2 Hw1 Hfit H2) as (Hw2 & Hle2 & Hv2 & Hr2 & Hn2).
  assert (Hr12 : reveal in2 it = map canon t) by (rewrite <- Hr1; by apply reveal_le).
  split_and!; try done. split; [intros ->; congruence|].
  intros Hc. apply (reveal_inj in2); [done| |done|congruence].
  by apply (itup_valid_le in1).
Qed.

Lemma intern_reveal_roundtrip_witness :
  let '(it, in1) := intern newInterner ["a"; "007"] in
  let '(it', in2) := intern in1 ["a"; "7"] in
  reveal in2 it = ["a"; "7"] /\ it = it'.
Proof.
  destruct (intern newInterner ["a"; "007"]) as [it in1] eqn:E1.
  destruct (intern in1 ["a"; "7"]) as [it' in2] eqn:E2.
  assert (Hfit : intern_fits in2).
  { vm_compute in E1. injection E1 as <- <-. vm_compute in E2. injection E2 as <- <-.
    vm_compute. discriminate. }
  destruct (intern_reveal_roundtrip newInterner ["a"; "007"] it in1 ["a"; "7"] it' in2
              newInterner_wf Hfit E1 E2) as (_ & _ & Hr & _ & Heq).
  split; [exact Hr|]. apply Heq. vm_compute. reflexivity.
Defined.

(** The packed key of a tuple identifies it among the tuples of its
    length: two symbols per 64-bit word, four in the words and the rest in the
    tail, with no two tuples of 32-bit symbols sharing a key. *)
Theorem interner_key_injective t1 t2 :
  length t1 = length t2 -> Forall (fun v => v < 2 ^ 32) t1 -> Forall (fun v => v < 2 ^ 32) t2 ->
  interner_key t1 = interner_key t2 <-> t1 = t2.
Proof. intros. split; [by apply interner_key_inj|congruence]. Qed.

Lemma interner_key_injective_witness :
  interner_key [1; 2; 3; 4; 5] = interner_key [1; 2; 3; 4; 5] <-> [1; 2; 3; 4; 5] = [1; 2; 3; 4; 5].
Proof.
  apply (interner_key_injective [1; 2; 3; 4; 5] [1; 2; 3; 4; 5]); [reflexivity| |];
    repeat constructor.
Defined.
