(* ===== verification/DlSyntax.v ===== *)
(** Abstract syntax of rule files (internal/datalog/parse.go): terms,
    literals, aggregates and rules, the tokens of the lexer, and the errors of
    the whole package, one constructor per error the code reports.  A
    constructor carries the line and the offending names; the wording of the
    message and its file prefix are left out. *)
From S2P Require Import Prelude.

(** A term: a variable or a constant.  [Var] is the dense slot of a variable,
    [Sym] the interned id of a constant. *)
Record Term : Type := mkTerm {
  IsVar : bool;
  Name : string;
  Var : nat;
  Sym : N
}.

Record Literal : Type := mkLiteral {
  Rel : string;
  Args : list Term;
  Neg : bool
}.

Record AggSpec : Type := mkAggSpec {
  Fn : string;
  OutVar : string;
  InVar : string;
  outSlot : nat;
  inSlot : nat
}.

(** The evaluation caches of a rule ([pat], [patBusy], [plan]) hold no
    information of their own and are recomputed where they are read. *)
Record Rule : Type := mkRule {
  Head : Literal;
  Body : list Literal;
  RName : string;
  File : string;
  Line : nat;
  NVars : nat;
  Agg : option AggSpec
}.

#[global] Instance Term_eq_dec : EqDecision Term.
Proof. solve_decision. Defined.
#[global] Instance Literal_eq_dec : EqDecision Literal.
Proof. solve_decision. Defined.
#[global] Instance AggSpec_eq_dec : EqDecision AggSpec.
Proof. solve_decision. Defined.
#[global] Instance Rule_eq_dec : EqDecision Rule.
Proof. solve_decision. Defined.

(** Literal.arity *)
Definition arity (l : Literal) : nat := length (Args l).

(** ** Names with a built-in meaning *)

Definition builtinArity : gmap string nat :=
  list_to_map [("lt", 2); ("le", 2); ("ne", 2); ("contains", 2); ("prefix", 2)].

Definition isBuiltin (rel : string) : bool :=
  match builtinArity !! rel with Some _ => true | None => false end.

Definition aggFns : list string := ["min"; "max"; "count"].

Definition isAggName (s : string) : bool := bool_decide (s ∈ aggFns).

(** ** Tokens *)

Inductive tkind : Type := TIdent | TString | TInt | TPunct | TEof.

#[global] Instance tkind_eq_dec : EqDecision tkind.
Proof. solve_decision. Defined.

Record token : Type := mkToken { kind : tkind; text : string; line : nat }.

#[global] Instance token_eq_dec : EqDecision token.
Proof. solve_decision. Defined.

(** ** Errors *)

Inductive DlError : Type :=
(* lex *)
| EUnterminated (line : nat)
| EStrayColon (line : nat)
| EUnexpectedChar (line : nat) (c : ascii)
(* parser *)
| ENotBodyOnly (line : nat)
| EExpectedRel (line : nat) (text : string)
| ERelLower (line : nat) (text : string)
| EExpectedParen (line : nat) (rel : string)
| EExpectedArg (line : nat) (text : string)
| EExpectedArgSep (line : nat) (rel : string)
| EExpectedNeck (line : nat) (rel : string)
| EExpectedBodySep (line : nat) (rel : string)
(* extractAgg *)
| EAggNegated (line : nat) (rel : string)
| EAggArgs (line : nat) (rel : string)
| EAggTwice (line : nat)
| EAggOutHead (line : nat) (v : string)
| EAggInHead (line : nat) (v : string)
| EAggInUnbound (line : nat) (v : string)
(* checkSafe *)
| EHeadBuiltin (line : nat) (rel : string)
| EBuiltinNegated (line : nat) (rel : string)
| EBuiltinArity (line : nat) (rel : string) (got : nat)
| EBuiltinUnbound (line : nat) (rel v : string)
| EFactVar (line : nat) (v : string)
| EHeadAnon (line : nat) (v : string)
| EHeadUnbound (line : nat) (v : string)
| ENegUnbound (line : nat) (rel v : string)
(* stratify *)
| ENotStratified (cycle : list string)
(* Assert, LoadRules, Query *)
| EEmptyRelName
| EAssertArity (rel : string) (want : Z) (got : nat)
| EMaxTuples (rel : string)
| ETooManyVars (line : nat) (n : nat)
| EArityDisagree (line : nat) (rel : string) (here elsewhere : nat)
| EMissing (names : list string)
| ENoRules (goal : string)
| EPatternArity (goal : string) (want : Z) (got : nat)
| EUnknownRelation (rel : string)
(* evaluation *)
| ENoFixpoint (rel : string)
| ENegIncomplete (rel : string)
| EBuiltinNonInt (rel a b : string)
| EOperandUnbound (line : nat) (rel : string)
| EHeadVarUnbound (line : nat) (v : string)
| EAggHeadUnbound (line : nat) (v : string)
| EAggInputUnbound (line : nat) (v : string)
| EAggNonInt (rule : string) (v : string)
| ENotDerivable (goal : string) (t : list string)
(* outcomes the Go code has no error value for *)
| EPanic (what : string)
| EOutOfFuel.
