(* ===== verification/DlLex.v ===== *)
(** The tokenizer of rule files: lex of internal/datalog/parse.go. *)
From S2P Require Import Prelude DlSyntax.

(** ** Character classes: unicode.IsLetter, IsDigit, IsUpper and IsLower on a
    rune made from one byte, that is on Latin-1 *)

Definition in_range (a b : nat) (c : ascii) : bool :=
  (a <=? nat_of_ascii c) && (nat_of_ascii c <=? b).

Definition unicode_IsUpper (c : ascii) : bool :=
  in_range 65 90 c || in_range 192 214 c || in_range 216 222 c.

Definition unicode_IsLower (c : ascii) : bool :=
  in_range 97 122 c || in_range 181 181 c || in_range 223 246 c || in_range 248 255 c.

Definition unicode_IsLetter (c : ascii) : bool :=
  unicode_IsUpper c || unicode_IsLower c || in_range 170 170 c || in_range 186 186 c.

Definition unicode_IsDigit (c : ascii) : bool := in_range 48 57 c.

Definition isIdentStart (c : ascii) : bool := unicode_IsLetter c || Ascii.eqb c "_".

Definition isIdentRune (c : ascii) : bool :=
  unicode_IsLetter c || unicode_IsDigit c || Ascii.eqb c "_".

(** ** Characters with a meaning *)

Definition ch_newline : ascii := "010".
Definition ch_quote : ascii := "034".
Definition ch_backslash : ascii := "092".

Definition is_space (c : ascii) : bool :=
  Ascii.eqb c " " || Ascii.eqb c "009" || Ascii.eqb c "013".

Definition is_punct (c : ascii) : bool :=
  Ascii.eqb c "(" || Ascii.eqb c ")" || Ascii.eqb c "," || Ascii.eqb c ".".

(** ** The inner loops *)

(** [for i < len(src) && src[i] != '\n' { i++ }] *)
Fixpoint skip_comment (cs : list ascii) : list ascii :=
  match cs with
  | [] => []
  | c :: cs' => if Ascii.eqb c ch_newline then cs else skip_comment cs'
  end.

(** The body of a string after its opening quote: its text and what follows
    the closing quote, or nothing when the quote never closes. *)
Fixpoint lex_string (cs : list ascii) : option (list ascii * list ascii) :=
  match cs with
  | [] => None
  | c :: cs' =>
      if Ascii.eqb c ch_quote then Some ([], cs')
      else if Ascii.eqb c ch_backslash then
        match cs' with
        | [] => None
        | d :: cs'' => '(s, rest) ← lex_string cs''; Some (d :: s, rest)
        end
      else '(s, rest) ← lex_string cs'; Some (c :: s, rest)
  end.

(** The longest prefix whose bytes satisfy [p], and the rest. *)
Fixpoint span (p : ascii -> bool) (cs : list ascii) : list ascii * list ascii :=
  match cs with
  | [] => ([], [])
  | c :: cs' =>
      if p c then let '(a, b) := span p cs' in (c :: a, b) else ([], cs)
  end.

(** ** lex *)

(** One pass of the loop per unit of fuel; every pass consumes a byte. *)
Fixpoint lex_loop (fuel : nat) (ln : nat) (cs : list ascii) : result DlError (list token) :=
  match fuel with
  | O => Err EOutOfFuel
  | S fuel' =>
      match cs with
      | [] => Ok []
      | c :: cs' =>
          if Ascii.eqb c ch_newline then lex_loop fuel' (S ln) cs'
          else if is_space c then lex_loop fuel' ln cs'
          else if Ascii.eqb c "%" then lex_loop fuel' ln (skip_comment cs)
          else if Ascii.eqb c ch_quote then
            match lex_string cs' with
            | None => Err (EUnterminated ln)
            | Some (s, rest) =>
                toks ← lex_loop fuel' ln rest;
                Ok (mkToken TString (bytes_str s) ln :: toks)
            end
          else if is_punct c then
            toks ← lex_loop fuel' ln cs';
            Ok (mkToken TPunct (bytes_str [c]) ln :: toks)
          else if Ascii.eqb c ":" then
            match cs' with
            | d :: rest =>
                if Ascii.eqb d "-" then
                  toks ← lex_loop fuel' ln rest;
                  Ok (mkToken TPunct ":-" ln :: toks)
                else Err (EStrayColon ln)
            | [] => Err (EStrayColon ln)
            end
          else if unicode_IsDigit c then
            let '(s, rest) := span unicode_IsDigit cs in
            toks ← lex_loop fuel' ln rest;
            Ok (mkToken TInt (bytes_str s) ln :: toks)
          else if isIdentStart c then
            let '(s, rest) := span isIdentRune cs in
            toks ← lex_loop fuel' ln rest;
            Ok (mkToken TIdent (bytes_str s) ln :: toks)
          else Err (EUnexpectedChar ln c)
      end
  end.

Definition lex (src : list ascii) : result DlError (list token) :=
  lex_loop (S (length src)) 1 src.
