(* ===== verification/DlParse.v ===== *)
(** The parser of rule files (internal/datalog/parse.go): literals, rules,
    extraction of the aggregate literal, numbering of variables. *)
From S2P Require Import Prelude DlIntern DlSyntax DlLex.

(** ** Parser state: the tokens from [p.pos] on, and the anonymous counter *)

Record parser : Type := mkParser { toks : list token; anon : nat }.

Definition P (A : Type) : Type := ST parser DlError A.

Definition eof_token : token := mkToken TEof "" 0.

(** parser.peek *)
Definition peek : P token := fun p =>
  (p, Ok (match toks p with t :: _ => t | [] => eof_token end)).

(** [p.pos++] *)
Definition advance : P unit := modify_st (fun p => mkParser (tail (toks p)) (anon p)).

Definition is_tok (k : tkind) (s : string) (t : token) : bool :=
  bool_decide (kind t = k) && str_eqb (text t) s.

(** The first byte of an identifier's text; identifiers are not empty. *)
Definition first_char (s : string) : ascii :=
  match str_bytes s with c :: _ => c | [] => "000"%char end.

(** [fmt.Sprintf("_%d", p.anon)] *)
Definition anon_name (n : nat) : string := "_" +:+ format_uint (N.of_nat n).

Definition var_term (name : string) : Term := mkTerm true name 0 0.
Definition const_term (name : string) : Term := mkTerm false name 0 0.

(** The argument read from one token. *)
Definition arg_term : P Term :=
  a ← peek;
  if bool_decide (kind a = TString) || bool_decide (kind a = TInt) then
    _ ← advance; mret (const_term (text a))
  else if bool_decide (kind a = TIdent) then
    if str_eqb (text a) "_" then
      _ ← modify_st (fun p => mkParser (toks p) (S (anon p)));
      p ← get_st;
      _ ← advance; mret (var_term (anon_name (anon p)))
    else if unicode_IsUpper (first_char (text a)) || Ascii.eqb (first_char (text a)) "_" then
      _ ← advance; mret (var_term (text a))
    else
      _ ← advance; mret (const_term (text a))
  else throw (EExpectedArg (line a) (text a)).

(** The argument list after '(', up to and including ')'. *)
Fixpoint parse_args (fuel : nat) (rel : string) : P (list Term) :=
  match fuel with
  | O => throw EOutOfFuel
  | S fuel' =>
      a ← arg_term;
      nt ← peek;
      if is_tok TPunct "," nt then
        _ ← advance;
        rest ← parse_args fuel' rel;
        mret (a :: rest)
      else if is_tok TPunct ")" nt then
        _ ← advance; mret [a]
      else throw (EExpectedArgSep (line nt) rel)
  end.

(** parser.literal *)
Definition parse_literal (fuel : nat) (allowNeg : bool) : P Literal :=
  t0 ← peek;
  neg ← (if is_tok TIdent "not" t0 then
           if negb allowNeg then throw (ENotBodyOnly (line t0))
           else _ ← advance; mret true
         else mret false);
  t ← peek;
  if negb (bool_decide (kind t = TIdent)) then throw (EExpectedRel (line t) (text t))
  else if negb (unicode_IsLower (first_char (text t))) then throw (ERelLower (line t) (text t))
  else
    _ ← advance;
    nt ← peek;
    if negb (is_tok TPunct "(" nt) then throw (EExpectedParen (line t) (text t))
    else
      _ ← advance;
      args ← parse_args fuel (text t);
      mret (mkLiteral (text t) args neg).

(** The body of a rule after ':-', up to and including '.'. *)
Fixpoint parse_body (fuel : nat) (ln : nat) (head : string) : P (list Literal) :=
  match fuel with
  | O => throw EOutOfFuel
  | S fuel' =>
      lit ← parse_literal fuel true;
      t ← peek;
      if is_tok TPunct "," t then
        _ ← advance;
        rest ← parse_body fuel' ln head;
        mret (lit :: rest)
      else if is_tok TPunct "." t then
        _ ← advance; mret [lit]
      else throw (EExpectedBodySep ln head)
  end.

(** parser.rule, with the rule's file name *)
Definition parse_rule (fuel : nat) (rulefile file : string) : P Rule :=
  _ ← modify_st (fun p => mkParser (toks p) 0);
  t0 ← peek;
  let ln := line t0 in
  head ← parse_literal fuel false;
  let r := fun body =>
    mkRule head body (rulefile +:+ "/" +:+ Rel head) file ln 0 None in
  t ← peek;
  if is_tok TPunct "." t then _ ← advance; mret (r [])
  else if is_tok TPunct ":-" t then
    _ ← advance;
    body ← parse_body fuel ln (Rel head);
    mret (r body)
  else throw (EExpectedNeck ln (Rel head)).

(** ** extractAgg *)

Definition is_var_named (v : string) (a : Term) : bool := IsVar a && str_eqb (Name a) v.

(** The aggregate of a body and the literals that remain. *)
Fixpoint extract_loop (ln : nat) (body : list Literal) (agg : option AggSpec)
    : result DlError (list Literal * option AggSpec) :=
  match body with
  | [] => Ok ([], agg)
  | l :: body' =>
      if negb (isAggName (Rel l)) then
        '(kept, a) ← extract_loop ln body' agg; Ok (l :: kept, a)
      else if Neg l then Err (EAggNegated ln (Rel l))
      else match Args l with
        | [o; i] =>
            if negb (IsVar o) || negb (IsVar i) then Err (EAggArgs ln (Rel l))
            else match agg with
              | Some _ => Err (EAggTwice ln)
              | None => extract_loop ln body' (Some (mkAggSpec (Rel l) (Name o) (Name i) 0 0))
              end
        | _ => Err (EAggArgs ln (Rel l))
        end
  end.

Definition set_body_agg (r : Rule) (body : list Literal) (a : option AggSpec) : Rule :=
  mkRule (Head r) body (RName r) (File r) (Line r) (NVars r) a.

Definition extractAgg (r : Rule) : result DlError Rule :=
  '(kept, agg) ← extract_loop (Line r) (Body r) (Agg r);
  let r' := set_body_agg r kept agg in
  match agg with
  | None => Ok r'
  | Some a =>
      _ ← ensure (existsb (is_var_named (OutVar a)) (Args (Head r)))
                 (EAggOutHead (Line r) (OutVar a));
      _ ← ensure (negb (existsb (is_var_named (InVar a)) (Args (Head r))))
                 (EAggInHead (Line r) (InVar a));
      _ ← ensure (existsb (fun l => negb (Neg l) && existsb (is_var_named (InVar a)) (Args l)) kept)
                 (EAggInUnbound (Line r) (InVar a));
      Ok r'
  end.

(** ** resolveAggSlots: the last matching occurrence wins *)

Definition last_slot (v : string) (ts : list Term) (d : nat) : nat :=
  fold_left (fun acc a => if is_var_named v a then Var a else acc) ts d.

Definition resolveAggSlots (r : Rule) : Rule :=
  match Agg r with
  | None => r
  | Some a =>
      set_body_agg r (Body r)
        (Some (mkAggSpec (Fn a) (OutVar a) (InVar a)
          (last_slot (OutVar a) (Args (Head r)) (outSlot a))
          (last_slot (InVar a) (concat (map Args (Body r))) (inSlot a))))
  end.

(** ** assignVars *)

Fixpoint number (ids : gmap string nat) (args : list Term) : gmap string nat * list Term :=
  match args with
  | [] => (ids, [])
  | a :: args' =>
      if negb (IsVar a) then
        let '(ids', rest) := number ids args' in (ids', a :: rest)
      else
        let v := match ids !! Name a with Some v => v | None => size ids end in
        let ids1 := match ids !! Name a with Some _ => ids | None => <[Name a := v]> ids end in
        let '(ids', rest) := number ids1 args' in
        (ids', mkTerm (IsVar a) (Name a) v (Sym a) :: rest)
  end.

Definition number_lit (ids : gmap string nat) (l : Literal) : gmap string nat * Literal :=
  let '(ids', args) := number ids (Args l) in (ids', mkLiteral (Rel l) args (Neg l)).

Fixpoint number_lits (ids : gmap string nat) (ls : list Literal)
    : gmap string nat * list Literal :=
  match ls with
  | [] => (ids, [])
  | l :: ls' =>
      let '(ids1, l') := number_lit ids l in
      let '(ids2, rest) := number_lits ids1 ls' in
      (ids2, l' :: rest)
  end.

Definition assignVars (r : Rule) : Rule :=
  let '(ids1, head) := number_lit ∅ (Head r) in
  let '(ids2, body) := number_lits ids1 (Body r) in
  mkRule head body (RName r) (File r) (Line r) (size ids2) (Agg r).

(** ** parseRules *)

(** [strings.TrimSuffix(file, ".dl")], then the part after the last '/' or '\'. *)
Definition trim_dl (cs : list ascii) : list ascii :=
  match rev cs with
  | c1 :: c2 :: c3 :: rest =>
      if Ascii.eqb c1 "l" && Ascii.eqb c2 "d" && Ascii.eqb c3 "." then rev rest else cs
  | _ => cs
  end.

Definition is_path_sep (c : ascii) : bool := Ascii.eqb c "/" || Ascii.eqb c ch_backslash.

Definition base_name (file : string) : string :=
  bytes_str (rev (fst (span (fun c => negb (is_path_sep c)) (rev (trim_dl (str_bytes file)))))).

(** What parseRules does with one parsed rule. *)
Definition finish_rule (r : Rule) : result DlError Rule :=
  r1 ← extractAgg r; Ok (resolveAggSlots (assignVars r1)).

Fixpoint parse_rules_loop (fuel : nat) (base file : string) : P (list Rule) :=
  match fuel with
  | O => throw EOutOfFuel
  | S fuel' =>
      p ← get_st;
      match toks p with
      | [] => mret []
      | _ :: _ =>
          r ← parse_rule fuel base file;
          r' ← lift_result (finish_rule r);
          rest ← parse_rules_loop fuel' base file;
          mret (r' :: rest)
      end
  end.

Definition parseRules (src : list ascii) (file : string) : result DlError (list Rule) :=
  ts ← lex src;
  snd (parse_rules_loop (S (length ts)) (base_name file) file (mkParser ts 0)).
