(* ===== verification/DlParseSpec.v ===== *)
(** The lexer and the parser: they always return (their fuel is enough for any
    input), and they read back exactly what a rule prints to. *)
From S2P Require Import Prelude DlIntern DlSyntax DlLex DlParse.

(** ** The lexer returns *)

Lemma span_app p cs a b : span p cs = (a, b) -> cs = a ++ b.
Proof.
  revert a b. induction cs as [|c cs IH]; intros a b; cbn [span]; [by intros [= <- <-]|].
  destruct (p c); [|by intros [= <- <-]]. destruct (span p cs) as [a' b'] eqn:E. intros [= <- <-].
  cbn. f_equal. by apply IH.
Qed.

Lemma span_shorter p c cs a b : span p (c :: cs) = (a, b) -> p c = true -> length b <= length cs.
Proof.
  cbn [span]. intros H Hp. rewrite Hp in H. destruct (span p cs) as [a' b'] eqn:E.
  injection H as <- <-. apply span_app in E as ->. rewrite length_app. lia.
Qed.

Lemma skip_comment_shorter cs : length (skip_comment cs) <= length cs.
Proof. induction cs as [|c cs IH]; cbn; [done|]. destruct (Ascii.eqb c ch_newline); cbn; lia. Qed.

Lemma lex_string_shorter cs : forall s rest, lex_string cs = Some (s, rest) -> length rest < length cs.
Proof.
  induction cs as [cs IH] using (induction_ltof1 _ (@length ascii)); unfold ltof in IH.
  destruct cs as [|c cs]; intros s rest H; cbn [lex_string] in H; [done|].
  destruct (Ascii.eqb c ch_quote); [injection H as <- <-; cbn; lia|].
  destruct (Ascii.eqb c ch_backslash).
  - destruct cs as [|d cs]; [done|]. destruct (lex_string cs) as [[s' r']|] eqn:E; [|done].
    cbn in H. injection H as <- <-. apply IH in E; cbn in *; lia.
  - destruct (lex_string cs) as [[s' r']|] eqn:E; [|done].
    cbn in H. injection H as <- <-. apply IH in E; cbn in *; lia.
Qed.

Definition not_fuel {A} (r : result DlError A) : Prop := r <> Err EOutOfFuel.

Lemma not_fuel_bind {A B} (m : result DlError A) (k : A -> result DlError B) :
  not_fuel m -> (forall a, not_fuel (k a)) -> not_fuel (m ≫= k).
Proof. destruct m; cbn; [auto|]. unfold not_fuel. congruence. Qed.

Lemma lex_loop_returns fuel : forall ln cs, length cs < fuel -> not_fuel (lex_loop fuel ln cs).
Proof.
  induction fuel as [|fuel IH]; intros ln cs Hl; [lia|]. cbn [lex_loop].
  destruct cs as [|c cs]; [done|]. cbn in Hl.
  destruct (Ascii.eqb c ch_newline); [apply IH; lia|].
  destruct (is_space c); [apply IH; lia|].
  destruct (Ascii.eqb c "%") eqn:Ep.
  { apply IH. cbn [skip_comment]. destruct (Ascii.eqb_spec c ch_newline) as [->|]; [done|].
    pose proof (skip_comment_shorter cs). lia. }
  destruct (Ascii.eqb c ch_quote).
  { destruct (lex_string cs) as [[s rest]|] eqn:E; [|done].
    apply lex_string_shorter in E. apply not_fuel_bind; [apply IH; lia|done]. }
  destruct (is_punct c); [apply not_fuel_bind; [apply IH; lia|done]|].
  destruct (Ascii.eqb c ":").
  { destruct cs as [|d cs]; [done|]. destruct (Ascii.eqb d "-"); [|done].
    cbn in Hl. apply not_fuel_bind; [apply IH; lia|done]. }
  destruct (unicode_IsDigit c) eqn:Ed.
  { destruct (span unicode_IsDigit (c :: cs)) as [s rest] eqn:E.
    apply span_shorter in E; [|done]. apply not_fuel_bind; [apply IH; lia|done]. }
  destruct (isIdentStart c) eqn:Ei; [|done].
  destruct (span isIdentRune (c :: cs)) as [s rest] eqn:E.
  apply span_shorter in E.
  - apply not_fuel_bind; [apply IH; lia|done].
  - unfold isIdentStart in Ei. unfold isIdentRune. apply orb_true_iff in Ei as [-> | ->]; [done|].
    by rewrite orb_true_r.
Qed.

(** ** The parser returns *)

Definition fuel_free (e : DlError) : Prop := e <> EOutOfFuel.

(** [m] run on [p] returns having consumed at least [n] tokens. *)
Definition eats {A} (n : nat) (m : P A) (p : parser) : Prop :=
  wp fuel_free m (fun _ p' => length (toks p') + n <= length (toks p)) p.

Lemma eats_bind {A B} n k (m : P A) (f : A -> P B) p :
  eats n m p -> (forall a p', length (toks p') + n <= length (toks p) -> eats k (f a) p') ->
  eats (n + k) (m ≫= f) p.
Proof.
  intros Hm Hf. apply wp_bind. eapply wp_mono; [|exact Hm]. intros a p' Hp. cbn in Hp.
  eapply wp_mono; [|by apply Hf]. cbn. intros. lia.
Qed.

Lemma eats_weaken {A} n k (m : P A) p : k <= n -> eats n m p -> eats k m p.
Proof. intros Hk. apply wp_mono. cbn. intros. lia. Qed.

Lemma eats_advance p : toks p <> [] -> eats 1 advance p.
Proof. unfold eats, wp, advance. cbn. destruct (toks p); cbn; [done|lia]. Qed.

(** Looking at a token that is not the end of file. *)
Lemma eats_peek {B} n (f : token -> P B) p :
  (forall t, (kind t <> TEof -> toks p <> []) -> eats n (f t) p) -> eats n (peek ≫= f) p.
Proof.
  intros H. apply wp_bind. unfold wp, peek. apply (H _). destruct (toks p); [done|by cbn].
Qed.

Lemma eats_throw {A} n (e : DlError) p : fuel_free e -> eats n (@throw _ _ A e) p.
Proof. done. Qed.

Lemma eats_ret {A} (a : A) p : eats 0 (mret a) p.
Proof. unfold eats, wp. cbn. lia. Qed.

Lemma is_tok_kind k s t : is_tok k s t = true -> kind t = k.
Proof. unfold is_tok. intros [H _]%andb_true_iff. by apply bool_decide_eq_true in H. Qed.

Lemma arg_term_eats p : eats 1 arg_term p.
Proof.
  destruct p as [[|t ts] n]; [vm_compute; discriminate|].
  unfold eats, wp, arg_term, mbind, ST_bind, peek. cbn [toks].
  destruct (bool_decide (kind t = TString)), (bool_decide (kind t = TInt)); cbn; try lia.
  destruct (bool_decide (kind t = TIdent)); cbn; [|done].
  destruct (str_eqb (text t) "_"); cbn; try lia. destruct (_ || _); cbn; lia.
Qed.

Lemma parse_args_eats fuel rel : forall p, length (toks p) < fuel -> eats 1 (parse_args fuel rel) p.
Proof.
  induction fuel as [|fuel IH]; intros p Hl; [lia|]. cbn [parse_args].
  apply (eats_bind 1 0); [apply arg_term_eats|]. intros a p1 H1. apply eats_peek. intros t Ht.
  destruct (is_tok TPunct "," t) eqn:E1.
  - apply is_tok_kind in E1. apply (eats_weaken (1 + 0)); [lia|].
    apply eats_bind; [apply eats_advance, Ht; congruence|]. intros _ p2 H2.
    apply (eats_weaken (1 + 0)); [lia|]. apply eats_bind; [apply IH; lia|]. intros. apply eats_ret.
  - destruct (is_tok TPunct ")" t) eqn:E2; [|by apply eats_throw].
    apply is_tok_kind in E2. apply (eats_weaken (1 + 0)); [lia|].
    apply eats_bind; [apply eats_advance, Ht; congruence|]. intros. apply eats_ret.
Qed.

Lemma parse_literal_eats fuel neg p : length (toks p) < fuel -> eats 1 (parse_literal fuel neg) p.
Proof.
  intros Hl. unfold parse_literal. apply eats_peek. intros t0 Ht0.
  apply (eats_bind 0 1).
  { destruct (is_tok TIdent "not" t0) eqn:E; [|apply eats_ret]. apply is_tok_kind in E.
    destruct (negb neg); [by apply eats_throw|]. apply (eats_weaken (1 + 0)); [lia|].
    apply eats_bind; [apply eats_advance, Ht0; congruence|]. intros. apply eats_ret. }
  intros b p1 H1. apply eats_peek. intros t Ht.
  destruct (bool_decide (kind t = TIdent)) eqn:E; [|by apply eats_throw]. apply bool_decide_eq_true in E.
  cbn [negb]. destruct (negb (unicode_IsLower _)); [by apply eats_throw|].
  apply (eats_bind 1 0); [apply eats_advance, Ht; congruence|]. intros _ p2 H2.
  apply eats_peek. intros nt Hnt. destruct (is_tok TPunct "(" nt) eqn:E3; [|by apply eats_throw].
  apply is_tok_kind in E3. cbn [negb]. apply (eats_weaken (1 + 0)); [lia|].
  apply eats_bind; [apply eats_advance, Hnt; congruence|]. intros _ p3 H3.
  apply (eats_weaken (1 + 0)); [lia|]. apply eats_bind; [apply parse_args_eats; lia|]. intros. apply eats_ret.
Qed.

Lemma parse_body_eats fuel ln h : forall p, length (toks p) < fuel -> eats 1 (parse_body fuel ln h) p.
Proof.
  induction fuel as [|fuel IH]; intros p Hl; [lia|]. cbn [parse_body].
  apply (eats_bind 1 0); [by apply parse_literal_eats|]. intros l p1 H1. apply eats_peek. intros t Ht.
  destruct (is_tok TPunct "," t) eqn:E1.
  - apply is_tok_kind in E1. apply (eats_weaken (1 + 0)); [lia|].
    apply eats_bind; [apply eats_advance, Ht; congruence|]. intros _ p2 H2.
    apply (eats_weaken (1 + 0)); [lia|]. apply eats_bind; [apply IH; lia|]. intros. apply eats_ret.
  - destruct (is_tok TPunct "." t) eqn:E2; [|by apply eats_throw].
    apply is_tok_kind in E2. apply (eats_weaken (1 + 0)); [lia|].
    apply eats_bind; [apply eats_advance, Ht; congruence|]. intros. apply eats_ret.
Qed.

Lemma parse_rule_eats fuel base file p : length (toks p) < fuel -> eats 1 (parse_rule fuel base file) p.
Proof.
  intros Hl. unfold parse_rule. apply (eats_bind 0 1); [unfold eats, wp; cbn; lia|]. intros _ p0 H0.
  apply eats_peek. intros t0 _. apply (eats_bind 1 0); [apply parse_literal_eats; lia|]. intros h p1 H1.
  apply eats_peek. intros t Ht. destruct (is_tok TPunct "." t) eqn:E1.
  - apply is_tok_kind in E1. apply (eats_weaken (1 + 0)); [lia|].
    apply eats_bind; [apply eats_advance, Ht; congruence|]. intros. apply eats_ret.
  - destruct (is_tok TPunct ":-" t) eqn:E2; [|by apply eats_throw].
    apply is_tok_kind in E2. apply (eats_weaken (1 + 0)); [lia|].
    apply eats_bind; [apply eats_advance, Ht; congruence|]. intros _ p2 H2.
    apply (eats_weaken (1 + 0)); [lia|]. apply eats_bind; [apply parse_body_eats; lia|].
    intros. apply eats_ret.
Qed.

Lemma finish_rule_returns r : not_fuel (finish_rule r).
Proof.
  unfold finish_rule. apply not_fuel_bind; [|done]. unfold extractAgg. apply not_fuel_bind.
  - generalize (Agg r) as a. induction (Body r) as [|l body IH]; intros a; cbn [extract_loop]; [done|].
    destruct (negb _); [apply not_fuel_bind; [apply IH|by intros []]|].
    destruct (Neg l); [done|]. destruct (Args l) as [|o [|i []]]; try done.
    destruct (_ || _); [done|]. destruct a; [done|apply IH].
  - intros [kept [a|]]; [|done]. repeat (apply not_fuel_bind; [by destruct (existsb _ _)|intros _]). done.
Qed.

Lemma parse_rules_loop_returns fuel base file : forall p, length (toks p) < fuel ->
  eats 0 (parse_rules_loop fuel base file) p.
Proof.
  induction fuel as [|fuel IH]; intros p Hl; [lia|]. cbn [parse_rules_loop].
  apply (eats_bind 0 0); [unfold eats, wp; cbn; lia|]. intros p0 p' Hp.
  destruct (toks p0); [apply eats_ret|]. apply (eats_weaken (1 + 0)); [lia|].
  apply (eats_bind 1 0); [apply parse_rule_eats; lia|]. intros r p1 H1.
  apply (eats_bind 0 0).
  { apply wp_lift; [intros; lia|]. intros e He. pose proof (finish_rule_returns r) as Hf.
    unfold not_fuel in Hf. congruence. }
  intros r' p2 H2. apply (eats_bind 0 0); [apply IH; lia|]. intros. apply eats_ret.
Qed.

Lemma parseRules_returns src file : not_fuel (parseRules src file).
Proof.
  unfold parseRules. apply not_fuel_bind; [apply lex_loop_returns; lia|]. intros ts.
  pose proof (parse_rules_loop_returns (S (length ts)) (base_name file) file (mkParser ts 0)
    ltac:(cbn; lia)) as H.
  unfold eats, wp in H. destruct (parse_rules_loop _ _ _ _) as [p' [rs|e]]; [done|].
  unfold not_fuel. cbn. congruence.
Qed.

(** ** Printing *)

(** A string constant between quotes. *)
Definition esc (c : ascii) : list ascii :=
  if Ascii.eqb c ch_quote || Ascii.eqb c ch_backslash then [ch_backslash; c] else [c].
Definition print_const (s : string) : list ascii :=
  ch_quote :: concat (map esc (str_bytes s)) ++ [ch_quote].

Definition print_term (t : Term) : list ascii :=
  if IsVar t then str_bytes (Name t) else print_const (Name t).

Fixpoint print_args (ts : list Term) : list ascii :=
  match ts with
  | [] => []
  | [t] => print_term t
  | t :: ts' => print_term t ++ [","%char; " "%char] ++ print_args ts'
  end.

Definition print_literal (l : Literal) : list ascii :=
  (if Neg l then str_bytes "not " else []) ++
  str_bytes (Rel l) ++ ["("%char] ++ print_args (Args l) ++ [")"%char].

Fixpoint print_body (ls : list Literal) : list ascii :=
  match ls with
  | [] => []
  | [l] => print_literal l
  | l :: ls' => print_literal l ++ [","%char; " "%char] ++ print_body ls'
  end.

Definition print_rule (r : Rule) : list ascii :=
  print_literal (Head r) ++
  match Body r with [] => [] | _ => str_bytes " :- " ++ print_body (Body r) end ++
  ["."%char; ch_newline].

Definition print_rules (rs : list Rule) : list ascii := concat (map print_rule rs).

(** ** What can be printed *)

Definition ident_ok (s : string) : bool :=
  match str_bytes s with c :: cs => isIdentStart c && forallb isIdentRune cs | [] => false end.

Definition var_ok (s : string) : bool :=
  ident_ok s && negb (str_eqb s "_") &&
  (unicode_IsUpper (first_char s) || Ascii.eqb (first_char s) "_").

Definition term_ok (t : Term) : bool :=
  (if IsVar t then var_ok (Name t) else true) && (Var t =? 0) && (Sym t =? 0)%N.

Definition rel_ok (s : string) : bool :=
  ident_ok s && unicode_IsLower (first_char s) && negb (str_eqb s "not").

Definition literal_ok (l : Literal) : bool :=
  rel_ok (Rel l) && negb (length (Args l) =? 0) && forallb term_ok (Args l).

Definition rule_src_ok (r : Rule) : bool :=
  literal_ok (Head r) && negb (Neg (Head r)) && forallb literal_ok (Body r).

(** ** Lexing what was printed *)

(** [cs] lexes to [ts] from line [ln], given any sufficient fuel. *)
Definition lexes (ln : nat) (cs : list ascii) (ts : list token) : Prop :=
  forall fuel, length cs < fuel -> lex_loop fuel ln cs = Ok ts.

Lemma lexes_nil ln : lexes ln [] [].
Proof. intros [|fuel] H; [cbn in H; lia|done]. Qed.

Lemma lexes_newline ln cs ts : lexes (S ln) cs ts -> lexes ln (ch_newline :: cs) ts.
Proof. intros H [|fuel] Hl; cbn in Hl; [lia|]. apply H. lia. Qed.

Lemma lexes_space ln cs ts : lexes ln cs ts -> lexes ln (" "%char :: cs) ts.
Proof. intros H [|fuel] Hl; cbn in Hl; [lia|]. apply H. lia. Qed.

Lemma lexes_punct ln c cs ts : is_punct c = true -> lexes ln cs ts ->
  lexes ln (c :: cs) (mkToken TPunct (bytes_str [c]) ln :: ts).
Proof.
  intros Hc H [|fuel] Hl; cbn in Hl; [lia|]. unfold is_punct in Hc.
  repeat (apply orb_true_iff in Hc as [Hc|Hc]); apply Ascii.eqb_eq in Hc as ->;
    (etrans; [|exact (f_equal (fun r => r ≫= fun ts => Ok (mkToken TPunct _ ln :: ts)) (H fuel ltac:(lia)))]);
    done.
Qed.

Lemma lexes_neck ln cs ts : lexes ln cs ts ->
  lexes ln (":"%char :: "-"%char :: cs) (mkToken TPunct ":-" ln :: ts).
Proof. intros H [|fuel] Hl; cbn in Hl; [lia|]. 
  etrans; [|exact (f_equal (fun r => r ≫= fun ts => Ok (mkToken TPunct ":-" ln :: ts)) (H fuel ltac:(lia)))].
  done.
Qed.

Lemma lex_string_esc s rest : lex_string (concat (map esc s) ++ ch_quote :: rest) = Some (s, rest).
Proof.
  induction s as [|c s IH]; [done|]. cbn [map concat]. unfold esc at 1.
  destruct (Ascii.eqb_spec c ch_quote) as [->|Hq]; [cbn [orb app lex_string]; cbn; by rewrite IH|].
  destruct (Ascii.eqb_spec c ch_backslash) as [->|Hb]; [cbn [orb app lex_string]; cbn; by rewrite IH|].
  cbn [orb app lex_string]. apply Ascii.eqb_neq in Hq, Hb. rewrite Hq, Hb, IH. done.
Qed.

Lemma lexes_const ln s cs ts : lexes ln cs ts ->
  lexes ln (print_const s ++ cs) (mkToken TString s ln :: ts).
Proof.
  intros H [|fuel] Hl; [lia|]. unfold print_const in *. cbn [app]. rewrite <- app_assoc in *.
  change ([ch_quote] ++ cs) with (ch_quote :: cs) in *.
  cbn [app] in Hl. rewrite <- app_assoc in Hl.
  assert (E : lex_string (concat (map esc (str_bytes s)) ++ ch_quote :: cs) = Some (str_bytes s, cs))
    by apply lex_string_esc.
  cbn [lex_loop]. cbn. rewrite E. apply lex_string_shorter in E. cbn in Hl.
  rewrite H by (rewrite length_app in *; cbn in *; lia). cbn.
  by rewrite Stdlib.Strings.String.string_of_list_ascii_of_string.
Qed.

(** Bytes an identifier may not be followed by. *)
Definition stops (cs : list ascii) : Prop := match cs with c :: _ => isIdentRune c = false | [] => True end.

Lemma span_stops s cs : forallb isIdentRune s = true -> stops cs -> span isIdentRune (s ++ cs) = (s, cs).
Proof.
  induction s as [|c s IH]; intros Hs Hc; cbn [app span].
  - destruct cs as [|d cs]; [done|]. cbn in Hc |- *. by rewrite Hc.
  - cbn in Hs. apply andb_true_iff in Hs as [-> Hs]. by rewrite IH.
Qed.

Lemma ident_start_rune c : isIdentStart c = true -> isIdentRune c = true.
Proof.
  unfold isIdentStart, isIdentRune. intros [-> | ->]%orb_true_iff; [done|]. by rewrite orb_true_r.
Qed.

(** A start of identifier is none of the other classes. *)
Lemma ident_start_other c : isIdentStart c = true ->
  Ascii.eqb c ch_newline = false /\ is_space c = false /\ Ascii.eqb c "%" = false /\
  Ascii.eqb c ch_quote = false /\ is_punct c = false /\ Ascii.eqb c ":" = false /\ unicode_IsDigit c = false.
Proof.
  intros H. destruct c as [[] [] [] [] [] [] [] []]; vm_compute in H; try discriminate H; vm_compute; done.
Qed.

Lemma lexes_ident ln s cs ts : ident_ok s = true -> stops cs -> lexes ln cs ts ->
  lexes ln (str_bytes s ++ cs) (mkToken TIdent s ln :: ts).
Proof.
  intros Hs Hc H [|fuel] Hl; [lia|]. unfold ident_ok in Hs.
  destruct (str_bytes s) as [|c s'] eqn:Es; [done|]. apply andb_true_iff in Hs as [H1 H2].
  destruct (ident_start_other c H1) as (E1 & E2 & E3 & E4 & E5 & E6 & E7).
  cbn [app lex_loop]. rewrite E1, E2, E3, E4, E5, E6, E7, H1.
  change (c :: s' ++ cs) with ((c :: s') ++ cs). rewrite span_stops; [| |done].
  - cbn in Hl. rewrite length_app in Hl. rewrite H by lia. cbn.
    rewrite <- (Stdlib.Strings.String.string_of_list_ascii_of_string s), Es. done.
  - cbn. by rewrite ident_start_rune.
Qed.

(** The tokens of what was printed. *)
Definition punct (s : string) (ln : nat) : token := mkToken TPunct s ln.
Definition tok_term (ln : nat) (t : Term) : token :=
  mkToken (if IsVar t then TIdent else TString) (Name t) ln.

Fixpoint tok_args (ln : nat) (ts : list Term) : list token :=
  match ts with
  | [] => []
  | [t] => [tok_term ln t]
  | t :: ts' => tok_term ln t :: punct "," ln :: tok_args ln ts'
  end.

Definition tok_literal (ln : nat) (l : Literal) : list token :=
  (if Neg l then [mkToken TIdent "not" ln] else []) ++
  mkToken TIdent (Rel l) ln :: punct "(" ln :: tok_args ln (Args l) ++ [punct ")" ln].

Fixpoint tok_body (ln : nat) (ls : list Literal) : list token :=
  match ls with
  | [] => []
  | [l] => tok_literal ln l
  | l :: ls' => tok_literal ln l ++ punct "," ln :: tok_body ln ls'
  end.

Definition tok_rule (ln : nat) (r : Rule) : list token :=
  tok_literal ln (Head r) ++
  match Body r with [] => [] | _ => punct ":-" ln :: tok_body ln (Body r) end ++ [punct "." ln].

Fixpoint tok_rules (ln : nat) (rs : list Rule) : list token :=
  match rs with [] => [] | r :: rs' => tok_rule ln r ++ tok_rules (S ln) rs' end.

Lemma lexes_term ln t cs ts : term_ok t = true -> stops cs -> lexes ln cs ts ->
  lexes ln (print_term t ++ cs) (tok_term ln t :: ts).
Proof.
  unfold term_ok, print_term, tok_term. intros [[H1 _]%andb_true_iff _]%andb_true_iff Hc H.
  destruct (IsVar t); [|by apply lexes_const]. apply lexes_ident; try done.
  by apply andb_true_iff in H1 as [[H1 _]%andb_true_iff _].
Qed.

Lemma lexes_args ln args cs ts : forallb term_ok args = true -> stops cs -> lexes ln cs ts ->
  lexes ln (print_args args ++ cs) (tok_args ln args ++ ts).
Proof.
  intros Ha Hc H. induction args as [|t args IH]; [done|]. cbn [forallb] in Ha.
  apply andb_true_iff in Ha as [Ht Ha]. specialize (IH Ha).
  destruct args as [|u args]; [by apply lexes_term|].
  change (print_args (t :: u :: args) ++ cs)
    with ((print_term t ++ [","%char; " "%char] ++ print_args (u :: args)) ++ cs).
  rewrite <- !app_assoc. apply lexes_term; [done|done|]. cbn [app].
  apply lexes_punct; [done|]. apply lexes_space. exact IH.
Qed.

Lemma ident_ok_not : ident_ok "not" = true.
Proof. reflexivity. Qed.

Lemma lexes_literal ln l cs ts : literal_ok l = true -> lexes ln cs ts ->
  lexes ln (print_literal l ++ cs) (tok_literal ln l ++ ts).
Proof.
  unfold literal_ok, rel_ok, print_literal, tok_literal.
  intros [[[[Hr _]%andb_true_iff _]%andb_true_iff _]%andb_true_iff Ha]%andb_true_iff H.
  assert (Hrest : lexes ln (str_bytes (Rel l) ++ ["("%char] ++ (print_args (Args l) ++ [")"%char] ++ cs))
    (mkToken TIdent (Rel l) ln :: punct "(" ln :: tok_args ln (Args l) ++ punct ")" ln :: ts)).
  { apply lexes_ident; [done|done|]. apply lexes_punct; [done|]. apply lexes_args; [done|done|].
    by apply lexes_punct. }
  destruct (Neg l); rewrite <- !app_assoc; cbn [app] in *; rewrite <- ?app_assoc; [|exact Hrest].
  apply (lexes_ident ln "not"); [apply ident_ok_not|done|]. by apply lexes_space.
Qed.

Lemma lexes_body ln ls cs ts : forallb literal_ok ls = true -> lexes ln cs ts ->
  lexes ln (print_body ls ++ cs) (tok_body ln ls ++ ts).
Proof.
  intros Ha H. induction ls as [|l ls IH]; [done|]. cbn [forallb] in Ha.
  apply andb_true_iff in Ha as [Hl Ha]. specialize (IH Ha).
  destruct ls as [|k ls]; [by apply lexes_literal|].
  change (print_body (l :: k :: ls) ++ cs)
    with ((print_literal l ++ [","%char; " "%char] ++ print_body (k :: ls)) ++ cs).
  change (tok_body ln (l :: k :: ls)) with (tok_literal ln l ++ punct "," ln :: tok_body ln (k :: ls)).
  rewrite <- !app_assoc. apply lexes_literal; [done|]. cbn [app].
  apply lexes_punct; [done|]. by apply lexes_space.
Qed.

Lemma lexes_rule ln r cs ts : rule_src_ok r = true -> lexes (S ln) cs ts ->
  lexes ln (print_rule r ++ cs) (tok_rule ln r ++ ts).
Proof.
  unfold rule_src_ok, print_rule, tok_rule. intros [[Hh _]%andb_true_iff Hb]%andb_true_iff H.
  assert (Hend : lexes ln (["."%char; ch_newline] ++ cs) (punct "." ln :: ts)).
  { apply lexes_punct; [done|]. by apply lexes_newline. }
  rewrite <- !app_assoc. apply lexes_literal; [done|].
  destruct (Body r) as [|l ls]; [exact Hend|]. rewrite <- !app_assoc.
  cbn [app Stdlib.Strings.String.list_ascii_of_string]. apply lexes_space, lexes_neck, lexes_space.
  by apply lexes_body.
Qed.

Lemma lexes_rules rs : forall ln, forallb rule_src_ok rs = true ->
  lexes ln (print_rules rs) (tok_rules ln rs).
Proof.
  induction rs as [|r rs IH]; intros ln H; [apply lexes_nil|]. cbn [forallb] in H.
  apply andb_true_iff in H as [Hr Hs]. apply lexes_rule; [done|by apply IH].
Qed.

(** ** Parsing what was printed *)

(** [m], on any tokens starting with [ts], reads exactly them and returns [a]. *)
Definition reads {A} (m : P A) (ts : list token) (a : A) : Prop :=
  forall rest n, m (mkParser (ts ++ rest) n) = (mkParser rest n, Ok a).

Lemma reads_arg ln t : term_ok t = true -> reads arg_term [tok_term ln t] t.
Proof.
  unfold term_ok. intros [[H1 H2%Nat.eqb_eq]%andb_true_iff H3%N.eqb_eq]%andb_true_iff rest n.
  unfold arg_term, mbind, ST_bind, peek. cbn [app toks]. unfold tok_term.
  destruct t as [iv name v s]. cbn in *. subst v s. destruct iv; cbn.
  - unfold var_ok in H1. apply andb_true_iff in H1 as [[_ H]%andb_true_iff H1].
    apply negb_true_iff in H. rewrite H, H1. done.
  - done.
Qed.

Lemma reads_args ln args : forallb term_ok args = true -> args <> [] ->
  forall fuel rel, length args <= fuel -> reads (parse_args fuel rel) (tok_args ln args ++ [punct ")" ln]) args.
Proof.
  induction args as [|t args IH]; intros Ha Hne fuel rel Hf; [done|]. cbn [forallb] in Ha.
  apply andb_true_iff in Ha as [Ht Ha]. destruct fuel as [|fuel]; cbn in Hf; [lia|].
  intros rest n. destruct args as [|u args].
  - cbn [tok_args app parse_args]. unfold mbind at 1, ST_bind at 1.
    change (tok_term ln t :: punct ")" ln :: rest) with ([tok_term ln t] ++ punct ")" ln :: rest).
    by rewrite reads_arg.
  - change (tok_args ln (t :: u :: args)) with (tok_term ln t :: punct "," ln :: tok_args ln (u :: args)).
    cbn [parse_args]. unfold mbind at 1, ST_bind at 1. cbn [app].
    change (tok_term ln t :: ?x) with ([tok_term ln t] ++ x). rewrite reads_arg by done.
    unfold mbind, ST_bind, peek, advance, modify_st. cbn -[parse_args tok_args].
    change (is_tok TPunct "," (punct "," ln)) with true. cbn -[parse_args tok_args].
    rewrite (IH Ha ltac:(done) fuel rel ltac:(cbn in *; lia) rest n). done.
Qed.

Lemma reads_literal ln l neg : literal_ok l = true -> (Neg l = true -> neg = true) ->
  forall fuel, length (Args l) <= fuel -> reads (parse_literal fuel neg) (tok_literal ln l) l.
Proof.
  unfold literal_ok, rel_ok.
  intros [[[[Hi Hl]%andb_true_iff Hn%negb_true_iff]%andb_true_iff Hz]%andb_true_iff Ha]%andb_true_iff Hneg fuel Hf.
  assert (Hne : Args l <> []) by by destruct (Args l).
  intros rest n. unfold parse_literal, tok_literal, mbind, ST_bind, peek, advance, modify_st.
  destruct l as [rel args ng]. cbn [Rel Args Neg] in *. destruct ng.
  - rewrite (Hneg eq_refl). cbn [app toks].
    change (is_tok TIdent "not" (mkToken TIdent "not" ln)) with true. cbn -[parse_args tok_args is_tok].
    change (bool_decide (TIdent = TIdent)) with true. cbn -[parse_args tok_args is_tok].
    rewrite Hl. cbn -[parse_args tok_args is_tok].
    change (is_tok TPunct "(" (punct "(" ln)) with true. cbn -[parse_args tok_args is_tok].
    by rewrite (reads_args ln args Ha Hne fuel rel Hf rest n).
  - cbn [app toks].
    replace (is_tok TIdent "not" (mkToken TIdent rel ln)) with false
      by (unfold is_tok; cbn [kind text]; by rewrite Hn, andb_false_r).
    cbn -[parse_args tok_args is_tok].
    change (bool_decide (TIdent = TIdent)) with true. cbn -[parse_args tok_args is_tok].
    rewrite Hl. cbn -[parse_args tok_args is_tok].
    change (is_tok TPunct "(" (punct "(" ln)) with true. cbn -[parse_args tok_args is_tok].
    by rewrite (reads_args ln args Ha Hne fuel rel Hf rest n).
Qed.

Lemma tok_literal_length ln l : length (Args l) < length (tok_literal ln l).
Proof.
  assert (H : forall ts, length ts <= length (tok_args ln ts)).
  { induction ts as [|t [|u ts] IH]; cbn [tok_args length] in *; lia. }
  unfold tok_literal. rewrite length_app. cbn. rewrite length_app. cbn. specialize (H (Args l)). lia.
Qed.

Lemma reads_body ln h ls : forallb literal_ok ls = true -> ls <> [] ->
  forall fuel, length (tok_body ln ls) <= fuel ->
  reads (parse_body fuel ln h) (tok_body ln ls ++ [punct "." ln]) ls.
Proof.
  induction ls as [|l ls IH]; intros Ha Hne fuel Hf; [done|]. cbn [forallb] in Ha.
  apply andb_true_iff in Ha as [Hl Ha]. pose proof (tok_literal_length ln l) as Hlen.
  destruct fuel as [|fuel].
  { destruct ls; cbn [tok_body] in Hf; rewrite ?length_app in Hf; lia. }
  intros rest n. destruct ls as [|k ls].
  - cbn [tok_body] in *. cbn [parse_body]. unfold mbind at 1, ST_bind at 1. rewrite <- app_assoc.
    rewrite (reads_literal ln l true Hl ltac:(done) (S fuel) ltac:(lia)). done.
  - change (tok_body ln (l :: k :: ls)) with (tok_literal ln l ++ punct "," ln :: tok_body ln (k :: ls)) in *.
    rewrite length_app in Hf. cbn [length] in Hf. cbn [parse_body].
    unfold mbind at 1, ST_bind at 1. rewrite <- !app_assoc.
    rewrite (reads_literal ln l true Hl ltac:(done) (S fuel) ltac:(lia)).
    unfold mbind, ST_bind, peek, advance, modify_st. cbn [app toks].
    change (is_tok TPunct "," (punct "," ln)) with true. cbn -[parse_body tok_body].
    pose proof (IH Ha ltac:(done) fuel ltac:(lia) rest n) as E. rewrite <- app_assoc in E.
    cbn -[parse_body tok_body] in E. by rewrite E.
Qed.

(** The rule as read back at line [ln] of [file]. *)
Definition located (base file : string) (ln : nat) (r : Rule) : Rule :=
  mkRule (Head r) (Body r) (base +:+ "/" +:+ Rel (Head r)) file ln 0 None.

Lemma tok_rule_head ln r rest : exists t ts, tok_rule ln r ++ rest = t :: ts /\ line t = ln.
Proof.
  unfold tok_rule, tok_literal. destruct (Neg (Head r)); cbn; eexists _, _; split; reflexivity.
Qed.

Lemma reads_rule ln base file r : rule_src_ok r = true ->
  forall fuel rest n, length (tok_rule ln r) <= fuel ->
  parse_rule fuel base file (mkParser (tok_rule ln r ++ rest) n) =
    (mkParser rest 0, Ok (located base file ln r)).
Proof.
  unfold rule_src_ok. intros [[Hh Hn%negb_true_iff]%andb_true_iff Hb]%andb_true_iff fuel rest n Hf.
  destruct (tok_rule_head ln r rest) as (t0 & ts0 & E0 & Hline).
  unfold parse_rule. unfold mbind at 1, ST_bind at 1, modify_st. cbn [toks].
  unfold mbind at 1, ST_bind at 1, peek at 1. cbn [toks]. rewrite E0, Hline, <- E0.
  unfold tok_rule in *. rewrite !length_app in Hf. cbn in Hf.
  pose proof (tok_literal_length ln (Head r)) as Hlen.
  unfold mbind at 1, ST_bind at 1. rewrite <- !app_assoc.
  rewrite (reads_literal ln (Head r) false Hh ltac:(congruence) fuel ltac:(lia)).
  unfold mbind, ST_bind, peek, advance, modify_st, located. destruct (Body r) as [|l ls] eqn:Eb.
  - cbn [app toks]. change (is_tok TPunct "." (punct "." ln)) with true. done.
  - cbn [app toks]. change (is_tok TPunct "." (punct ":-" ln)) with false.
    change (is_tok TPunct ":-" (punct ":-" ln)) with true. cbn -[parse_body tok_body].
    cbn [length] in Hf.
    pose proof (reads_body ln (Rel (Head r)) (l :: ls) Hb ltac:(done) fuel ltac:(lia) rest 0) as E.
    rewrite <- app_assoc in E. cbn -[parse_body tok_body] in E. by rewrite E.
Qed.

(** Reading back a rule list: each rule at its own line, finished in order. *)
Fixpoint finish_rules (base file : string) (ln : nat) (rs : list Rule) : result DlError (list Rule) :=
  match rs with
  | [] => Ok []
  | r :: rs' =>
      r' ← finish_rule (located base file ln r);
      rest ← finish_rules base file (S ln) rs';
      Ok (r' :: rest)
  end.

Lemma reads_rules base file rs : forall ln fuel n, forallb rule_src_ok rs = true ->
  length (tok_rules ln rs) < fuel ->
  snd (parse_rules_loop fuel base file (mkParser (tok_rules ln rs) n)) = finish_rules base file ln rs.
Proof.
  induction rs as [|r rs IH]; intros ln fuel n H Hf; (destruct fuel as [|fuel]; [lia|]); [done|].
  cbn [forallb] in H. apply andb_true_iff in H as [Hr Hs]. cbn [tok_rules] in *.
  destruct (tok_rule_head ln r (tok_rules (S ln) rs)) as (t0 & ts0 & E0 & _).
  assert (Hlen : 0 < length (tok_rule ln r)).
  { unfold tok_rule, tok_literal. rewrite !length_app. cbn. lia. }
  assert (Estep : parse_rules_loop (S fuel) base file (mkParser (tok_rule ln r ++ tok_rules (S ln) rs) n) =
    (r ← parse_rule (S fuel) base file;
     r' ← lift_result (finish_rule r);
     rest ← parse_rules_loop fuel base file;
     mret (r' :: rest)) (mkParser (tok_rule ln r ++ tok_rules (S ln) rs) n)) by by rewrite E0.
  rewrite Estep, length_app in *. unfold mbind at 1, ST_bind at 1.
  rewrite (reads_rule ln base file r Hr) by lia. unfold mbind at 1, ST_bind at 1, lift_result. cbn [finish_rules].
  destruct (finish_rule (located base file ln r)) as [r'|e]; [|done].
  unfold mbind at 1, ST_bind at 1. cbn.
  specialize (IH (S ln) fuel 0 Hs ltac:(lia)).
  destruct (parse_rules_loop fuel base file (mkParser (tok_rules (S ln) rs) 0)) as [p' [rest|e]];
    cbn in IH |- *; by rewrite <- IH.
Qed.

(** ** Properties *)

(** C7: parsing always returns: the lexer and the parser consume input at
    every step, so their fuel never runs out, whatever the bytes. *)
Theorem parseRules_total src file : parseRules src file <> Err EOutOfFuel.
Proof. apply parseRules_returns. Qed.

(** C6: what a rule file prints to is read back: parsing the printed form of
    any rules with well-formed names returns those rules, each numbered,
    resolved and located at its own line, or the error their aggregate
    literals deserve. *)
Theorem parse_print_roundtrip rs file : forallb rule_src_ok rs = true ->
  parseRules (print_rules rs) file = finish_rules (base_name file) file 1 rs.
Proof.
  intros H. unfold parseRules, lex.
  pose proof (lexes_rules rs 1 H (S (length (print_rules rs))) ltac:(lia)) as E. rewrite E.
  unfold mbind, result_bind. apply reads_rules; [done|lia].
Qed.

(** A rule with negation, a quoted constant, a comparison and an aggregate. *)
Definition printed_demo : list Rule :=
  let x := var_term "X" in let y := var_term "Y" in let n := var_term "N" in
  [mkRule (mkLiteral "p" [x; n] false)
     [mkLiteral "q" [x; y] false; mkLiteral "r" [x; const_term "a b"] true;
      mkLiteral "lt" [y; const_term "10"] false; mkLiteral "count" [n; y] false] "" "" 0 0 None;
   mkRule (mkLiteral "q" [const_term "u"; const_term "7"] false) [] "" "" 0 0 None].

Lemma parse_print_roundtrip_witness :
  forallb rule_src_ok printed_demo = true /\
  exists rs, parseRules (print_rules printed_demo) "f.dl" = Ok rs /\ length rs = 2.
Proof.
  assert (H : forallb rule_src_ok printed_demo = true) by (vm_compute; reflexivity).
  split; [exact H|]. rewrite (parse_print_roundtrip printed_demo "f.dl" H).
  eexists. split; vm_compute; reflexivity.
Defined.
