(* ===== verification/DlSafe.v ===== *)
(** Range restriction: checkSafe of internal/datalog/parse.go, and the
    declarative reading of what it accepts. *)
From S2P Require Import Prelude DlSyntax.

(** The variable names among a list of terms. *)
Definition term_vars (ts : list Term) : list string :=
  omap (fun a => if IsVar a then Some (Name a) else None) ts.

Definition lit_vars (l : Literal) : list string := term_vars (Args l).

Definition add_names (ts : list Term) (b : gset string) : gset string :=
  list_to_set (term_vars ts) ∪ b.

(** The first loop of checkSafe: comparison literals, with the names bound by
    the positive literals before them. *)
Fixpoint check_builtins (ln : nat) (bound : gset string) (body : list Literal)
    : result DlError unit :=
  match body with
  | [] => Ok tt
  | l :: body' =>
      if isBuiltin (Rel l) then
        if Neg l then Err (EBuiltinNegated ln (Rel l))
        else if negb (arity l =? default 0 (builtinArity !! Rel l)) then
          Err (EBuiltinArity ln (Rel l) (arity l))
        else
          match filter (fun v => v ∉ bound) (lit_vars l) with
          | v :: _ => Err (EBuiltinUnbound ln (Rel l) v)
          | [] => check_builtins ln bound body'
          end
      else if Neg l then check_builtins ln bound body'
      else check_builtins ln (add_names (Args l) bound) body'
  end.

(** [pos]: the names in the positive literals. *)
Definition pos_names (body : list Literal) : gset string :=
  fold_right (fun l b => if Neg l then b else add_names (Args l) b) ∅ body.

Definition has_underscore (s : string) : bool :=
  match str_bytes s with c :: _ => Ascii.eqb c "_" | [] => false end.

Definition is_out_var (agg : option AggSpec) (v : string) : bool :=
  match agg with Some a => str_eqb v (OutVar a) | None => false end.

(** The head loop. *)
Definition check_head_term (r : Rule) (pos : gset string) (a : Term) : result DlError unit :=
  if negb (IsVar a) then Ok tt
  else if is_out_var (Agg r) (Name a) then Ok tt
  else if has_underscore (Name a) then Err (EHeadAnon (Line r) (Name a))
  else ensure (bool_decide (Name a ∈ pos)) (EHeadUnbound (Line r) (Name a)).

(** The loop over negated literals. *)
Definition check_neg_lit (r : Rule) (pos : gset string) (l : Literal) : result DlError unit :=
  if negb (Neg l) then Ok tt
  else for_result (lit_vars l) (fun v =>
    ensure (bool_decide (v ∈ pos)) (ENegUnbound (Line r) (Rel l) v)).

Definition checkSafe (r : Rule) : result DlError unit :=
  if isBuiltin (Rel (Head r)) || isAggName (Rel (Head r)) then
    Err (EHeadBuiltin (Line r) (Rel (Head r)))
  else
    _ ← check_builtins (Line r) ∅ (Body r);
    match Body r with
    | [] =>
        for_result (Args (Head r)) (fun a =>
          ensure (negb (IsVar a)) (EFactVar (Line r) (Name a)))
    | _ :: _ =>
        let pos := pos_names (Body r) in
        _ ← for_result (Args (Head r)) (check_head_term r pos);
        for_result (Body r) (check_neg_lit r pos)
    end.

(** ** The declarative reading *)

(** [v] occurs in a positive relation literal of [body]. *)
Definition bound_by (body : list Literal) (v : string) : Prop :=
  exists l, l ∈ body /\ Neg l = false /\ isBuiltin (Rel l) = false /\ v ∈ lit_vars l.

Record safe_rule (r : Rule) : Prop := {
  safe_head_name : isBuiltin (Rel (Head r)) = false /\ isAggName (Rel (Head r)) = false;
  safe_builtin : forall pre l post, Body r = pre ++ l :: post -> isBuiltin (Rel l) = true ->
    Neg l = false /\ builtinArity !! Rel l = Some (arity l) /\
    forall v, v ∈ lit_vars l -> bound_by pre v;
  safe_head : forall v, v ∈ term_vars (Args (Head r)) ->
    (Body r <> [] /\ is_out_var (Agg r) v = true) \/ (bound_by (Body r) v /\ has_underscore v = false);
  safe_neg : forall l v, l ∈ Body r -> Neg l = true -> v ∈ lit_vars l -> bound_by (Body r) v
}.

(** Every negated literal comes after the literals that bind its variables:
    the condition under which left-to-right evaluation reads it as intended. *)
Definition neg_ordered (body : list Literal) : Prop :=
  forall pre l post, body = pre ++ l :: post -> Neg l = true ->
    forall v, v ∈ lit_vars l -> bound_by pre v.

(** ** Lemmas *)

Lemma elem_of_term_vars v ts :
  v ∈ term_vars ts <-> exists a, a ∈ ts /\ IsVar a = true /\ Name a = v.
Proof.
  unfold term_vars. rewrite list_elem_of_omap. split.
  - intros (a & Ha & H). destruct (IsVar a) eqn:E; simplify_eq. eauto.
  - intros (a & Ha & E & <-). exists a. by rewrite E.
Qed.

Lemma elem_of_add_names v ts b : v ∈ add_names ts b <-> v ∈ term_vars ts \/ v ∈ b.
Proof. unfold add_names. set_solver. Qed.

Lemma bound_by_cons l body v :
  bound_by (l :: body) v <->
  (Neg l = false /\ isBuiltin (Rel l) = false /\ v ∈ lit_vars l) \/ bound_by body v.
Proof. unfold bound_by. set_solver. Qed.

Lemma bound_by_app a b v : bound_by (a ++ b) v <-> bound_by a v \/ bound_by b v.
Proof. unfold bound_by. set_solver. Qed.

Lemma not_bound_by_nil v : ~ bound_by [] v.
Proof. unfold bound_by. set_solver. Qed.

(** What one comparison literal must satisfy when [known v] holds of the names
    bound so far. *)
Definition builtin_ok (known : string -> Prop) (l : Literal) : Prop :=
  Neg l = false /\ builtinArity !! Rel l = Some (arity l) /\ forall v, v ∈ lit_vars l -> known v.

Lemma builtin_arity_known rel n : isBuiltin rel = true ->
  (n =? default 0 (builtinArity !! rel)) = true <-> builtinArity !! rel = Some n.
Proof.
  unfold isBuiltin. destruct (builtinArity !! rel); [|done]. intros _. cbn.
  rewrite Nat.eqb_eq. naive_solver.
Qed.

Lemma check_builtins_iff ln bound body :
  check_builtins ln bound body = Ok tt <->
  forall pre l post, body = pre ++ l :: post -> isBuiltin (Rel l) = true ->
    builtin_ok (fun v => v ∈ bound \/ bound_by pre v) l.
Proof.
  revert bound. induction body as [|l0 body IH]; intros bound; cbn [check_builtins].
  { split; [|done]. intros _ pre l post He. by destruct pre. }
  assert (Hcons : forall b, (forall v, v ∈ b <-> v ∈ bound \/
      (Neg l0 = false /\ isBuiltin (Rel l0) = false /\ v ∈ lit_vars l0)) ->
    (forall pre l post, l0 :: body = pre ++ l :: post -> isBuiltin (Rel l) = true ->
      builtin_ok (fun v => v ∈ bound \/ bound_by pre v) l) <->
    (isBuiltin (Rel l0) = true -> builtin_ok (fun v => v ∈ bound) l0) /\
    check_builtins ln b body = Ok tt).
  { intros b Hb. rewrite IH. split.
    - intros H. split.
      + intros Hl. destruct (H [] l0 body eq_refl Hl) as (? & ? & Hv). split_and!; [done..|].
        intros v Hv'. destruct (Hv v Hv') as [?|?%not_bound_by_nil]; done.
      + intros pre l post -> Hl. destruct (H (l0 :: pre) l post eq_refl Hl) as (? & ? & Hv).
        split_and!; [done..|]. intros v Hv'. specialize (Hv v Hv').
        rewrite bound_by_cons in Hv. rewrite Hb. tauto.
    - intros [H0 H] pre l post He Hl. destruct pre as [|l1 pre]; cbn in He; simplify_eq.
      + destruct (H0 Hl) as (? & ? & Hv). split_and!; [done..|]. intros. left. by apply Hv.
      + destruct (H pre l post eq_refl Hl) as (? & ? & Hv). split_and!; [done..|].
        intros v Hv'. specialize (Hv v Hv'). rewrite bound_by_cons. rewrite Hb in Hv. tauto. }
  destruct (isBuiltin (Rel l0)) eqn:Hbi.
  - rewrite (Hcons bound) by (intros v; naive_solver).
    unfold builtin_ok. rewrite <- builtin_arity_known by done.
    destruct (Neg l0); [naive_solver|].
    destruct (arity l0 =? default 0 (builtinArity !! Rel l0)); cbn [negb]; [|naive_solver].
    destruct (filter _ _) as [|v vs] eqn:Hf.
    + split; [intros H; split; [|done]|by intros []].
      intros _. split_and!; [done..|]. intros v Hv. destruct (decide (v ∈ bound)); [done|].
      assert (v ∈ @nil string) as Hin by (rewrite <- Hf; by apply list_elem_of_filter).
      by apply not_elem_of_nil in Hin.
    + split; [done|]. intros [H _]. destruct (H eq_refl) as (_ & _ & Hv). exfalso.
      assert (v ∈ filter (fun v => v ∉ bound) (lit_vars l0)) as Hin by (rewrite Hf; left).
      apply list_elem_of_filter in Hin as [Hn Hin]. by apply Hn, Hv.
  - destruct (Neg l0) eqn:Hn.
    + rewrite (Hcons bound); [naive_solver|]. naive_solver.
    + rewrite (Hcons (add_names (Args l0) bound)); [naive_solver|].
      intros v. rewrite elem_of_add_names. unfold lit_vars. naive_solver.
Qed.

Lemma elem_of_pos_names v body :
  v ∈ pos_names body <-> exists l, l ∈ body /\ Neg l = false /\ v ∈ lit_vars l.
Proof.
  induction body as [|l body IH]; cbn [pos_names fold_right]; [set_solver|].
  setoid_rewrite elem_of_cons. fold (pos_names body). destruct (Neg l) eqn:E.
  - rewrite IH. naive_solver congruence.
  - rewrite elem_of_add_names, IH. unfold lit_vars. naive_solver congruence.
Qed.

(** Past the comparison check, a positive occurrence is a binding one. *)
Lemma pos_names_bound_by ln body :
  check_builtins ln ∅ body = Ok tt -> forall v, v ∈ pos_names body <-> bound_by body v.
Proof.
  rewrite check_builtins_iff. intros H v. rewrite elem_of_pos_names. split.
  - intros (l & Hl & Hn & Hv). destruct (isBuiltin (Rel l)) eqn:Hb.
    + apply list_elem_of_split in Hl as (pre & post & ->).
      destruct (H pre l post eq_refl Hb) as (_ & _ & Hk).
      destruct (Hk v Hv) as [?|?]; [set_solver|]. apply bound_by_app. by left.
    + by exists l.
  - intros (l & ? & ? & ? & ?). by exists l.
Qed.

Lemma for_result_elem {E A} (xs : list A) (f : A -> result E unit) :
  for_result xs f = Ok tt <-> forall x, x ∈ xs -> f x = Ok tt.
Proof. by rewrite for_result_ok, Forall_forall. Qed.

Lemma check_head_ok r pos a : check_head_term r pos a = Ok tt <->
  (IsVar a = true -> is_out_var (Agg r) (Name a) = true \/
    (has_underscore (Name a) = false /\ Name a ∈ pos)).
Proof.
  unfold check_head_term. destruct (IsVar a); cbn; [|naive_solver].
  destruct (is_out_var (Agg r) (Name a)); [naive_solver|].
  destruct (has_underscore (Name a)); [naive_solver|].
  rewrite ensure_ok, bool_decide_eq_true. naive_solver.
Qed.

(** [checkSafe] accepts exactly the range-restricted rules. *)
Lemma checkSafe_iff r : checkSafe r = Ok tt <-> safe_rule r.
Proof.
  unfold checkSafe. destruct (_ || _) eqn:Hname.
  { split; [done|]. intros [[H1 H2] _ _ _]. by rewrite H1, H2 in Hname. }
  apply orb_false_iff in Hname. rewrite result_bind_ok. split.
  - intros ([] & Hcb & Hrest). pose proof (pos_names_bound_by _ _ Hcb) as Hpos.
    split; [done| | |].
    + intros pre l post He Hb. apply check_builtins_iff with (pre := pre) (l := l) (post := post)
        in Hcb as (? & ? & Hv); [|done..]. split_and!; [done..|].
      intros v Hv'. by destruct (Hv v Hv') as [?|?]; [set_solver|].
    + intros v (a & Ha & Hva & <-)%elem_of_term_vars. destruct (Body r) as [|l0 b0].
      * rewrite for_result_elem in Hrest. apply Hrest in Ha.
        apply ensure_ok in Ha. by rewrite Hva in Ha.
      * apply result_bind_ok in Hrest as ([] & Hh & _). rewrite for_result_elem in Hh.
        apply Hh in Ha. rewrite check_head_ok in Ha.
        destruct (Ha Hva) as [?|[? ?]]; [by left|right]. by rewrite <- Hpos.
    + intros l v Hl Hn Hv. destruct (Body r) as [|l0 b0]; [set_solver|].
      apply result_bind_ok in Hrest as ([] & _ & Hneg).
      rewrite for_result_elem in Hneg. specialize (Hneg l Hl). unfold check_neg_lit in Hneg.
      rewrite Hn in Hneg. cbn in Hneg. rewrite for_result_elem in Hneg.
      specialize (Hneg v Hv). apply ensure_ok, bool_decide_eq_true in Hneg. by apply Hpos.
  - intros [_ Hb Hh Hn]. exists tt.
    assert (Hcb : check_builtins (Line r) ∅ (Body r) = Ok tt).
    { apply check_builtins_iff. intros pre l post He Hl.
      destruct (Hb pre l post He Hl) as (? & ? & Hv). split_and!; [done..|]. intros. right. by apply Hv. }
    split; [done|]. pose proof (pos_names_bound_by _ _ Hcb) as Hpos.
    destruct (Body r) as [|l0 b0] eqn:He.
    + apply for_result_elem. intros a Ha. apply ensure_ok.
      destruct (IsVar a) eqn:Hva; [|done]. exfalso.
      destruct (Hh (Name a)) as [[? _]|[?%not_bound_by_nil _]]; [|done|done].
      apply elem_of_term_vars. eauto.
    + apply result_bind_ok. exists tt. split; apply for_result_elem.
      * intros a Ha. apply check_head_ok. intros Hva.
        destruct (Hh (Name a)) as [[_ ?]|[? ?]]; [apply elem_of_term_vars; eauto|by left|right].
        by rewrite Hpos.
      * intros l Hl. unfold check_neg_lit. destruct (Neg l) eqn:Hnl; [|done]. cbn.
        apply for_result_elem. intros v Hv. apply ensure_ok, bool_decide_eq_true, Hpos. by eapply Hn.
Qed.

(** ** Properties *)

(** C5: [checkSafe] accepts exactly the range-restricted rules: a head that
    is no builtin; every builtin unnegated, of its arity and with its variables
    bound by an earlier positive literal; every head variable (but the
    aggregate's output) named and bound by a positive literal; every variable
    of a negated literal bound by a positive literal of the body. *)
Theorem checkSafe_correct r : checkSafe r = Ok tt <-> safe_rule r.
Proof. apply checkSafe_iff. Qed.

(** A builtin's operands are bound before it is evaluated, but
    [checkSafe] does not ask the same of negation: there is an accepted rule
    whose negated literal comes before the only literal that binds its
    variable. *)
Theorem checkSafe_accepts_early_negation :
  exists r l, checkSafe r = Ok tt /\ head (Body r) = Some l /\ Neg l = true /\
    lit_vars l = ["X"] /\ ~ neg_ordered (Body r).
Proof.
  set (x := mkTerm true "X" 0 0%N).
  exists (mkRule (mkLiteral "p" [x] false)
            [mkLiteral "r" [x] true; mkLiteral "q" [x] false] "t/p" "t.dl" 1 1 None).
  exists (mkLiteral "r" [x] true). split_and!; [vm_compute; reflexivity|done..|].
  intros Hn. destruct (Hn [] _ _ eq_refl eq_refl "X") as (l & Hl & _); [left|].
  by apply not_elem_of_nil in Hl.
Qed.
