(* ===== verification/DlStrata.v ===== *)
(** Stratification (internal/datalog/strata.go): stratify and
    findNegativeCycle. *)
From S2P Require Import Prelude DlSyntax.

(** ** The dependency graph *)

Definition head_rels (rules : list Rule) : gset string :=
  list_to_set (map (fun r => Rel (Head r)) rules).

(** The reads of one rule: the relation read and whether the read is strict
    (negated, or inside an aggregate rule). *)
Definition rule_deps (heads : gset string) (r : Rule) : list (string * bool) :=
  let strict := match Agg r with Some _ => true | None => false end in
  omap (fun l => if decide (Rel l ∈ heads) then Some (Rel l, Neg l || strict) else None) (Body r).

(** [deps[h]], in rule order. *)
Definition deps_of (rules : list Rule) (h : string) : list (string * bool) :=
  concat (map (fun r => if str_eqb (Rel (Head r)) h then rule_deps (head_rels rules) r else [])
              rules).

(** The reads visited by one round: for every name, each of its reads. *)
Definition all_deps (rules : list Rule) (names : list string) : list (string * (string * bool)) :=
  concat (map (fun h => map (pair h) (deps_of rules h)) names).

(** ** Iterative stratum assignment *)

Definition stratum (strata : gmap string nat) (rel : string) : nat := default 0 (strata !! rel).

Definition want_of (strata : gmap string nat) (d : string * bool) : nat :=
  stratum strata (fst d) + (if snd d then 1 else 0).

Definition relax (st : gmap string nat * bool) (e : string * (string * bool))
    : gmap string nat * bool :=
  let '(strata, changed) := st in
  let '(h, d) := e in
  let want := want_of strata d in
  if stratum strata h <? want then (<[h := want]> strata, true) else (strata, changed).

Definition strata_round (edges : list (string * (string * bool))) (strata : gmap string nat)
    : gmap string nat * bool :=
  fold_left relax edges (strata, false).

Fixpoint strata_rounds (fuel : nat) (edges : list (string * (string * bool)))
    (strata : gmap string nat) : option (gmap string nat) :=
  match fuel with
  | O => None
  | S fuel' =>
      let '(strata', changed) := strata_round edges strata in
      if changed then strata_rounds fuel' edges strata' else Some strata'
  end.

(** ** findNegativeCycle *)

(** The reads of [rel] in rule order, as the walk follows them. *)
Definition adj_of (rules : list Rule) (rel : string) : list (string * bool) := deps_of rules rel.

Fixpoint drop_to (rel : string) (path : list string) : list string :=
  match path with
  | [] => []
  | p :: path' => if str_eqb p rel then path else drop_to rel path'
  end.

(** [walk]: [path] is the current path and, as a set, [onPath]; the first
    cycle found is returned.  The path has no repetition, so the number of
    heads bounds its depth. *)
Fixpoint walk (fuel : nat) (rules : list Rule) (path : list string) (rel : string) (sawNeg : bool)
    : option (list string) :=
  match fuel with
  | O => None
  | S fuel' =>
      if decide (rel ∈ path) then
        if sawNeg then Some (drop_to rel path ++ [rel]) else None
      else
        (fix edges (es : list (string * bool)) : option (list string) :=
           match es with
           | [] => None
           | (to, neg) :: es' =>
               match walk fuel' rules (path ++ [rel]) to (sawNeg || neg) with
               | Some c => Some c
               | None => edges es'
               end
           end) (adj_of rules rel)
  end.

Fixpoint first_some {A B} (f : A -> option B) (l : list A) : option B :=
  match l with
  | [] => None
  | x :: l' => match f x with Some y => Some y | None => first_some f l' end
  end.

Definition findNegativeCycle (rules : list Rule) : list string :=
  let froms := sort_strings (elements (head_rels rules)) in
  default froms (first_some (fun f => walk (S (S (length froms))) rules [] f false) froms).

(** ** stratify *)

Definition stratify (rules : list Rule) : result DlError (gmap string nat) :=
  let heads := head_rels rules in
  let names := sort_strings (elements heads) in
  let strata0 : gmap string nat := gset_to_gmap 0 heads in
  match strata_rounds (S (size heads)) (all_deps rules names) strata0 with
  | Some strata => Ok strata
  | None => Err (ENotStratified (findNegativeCycle rules))
  end.

(** ** What a stratification is *)

(** [s] puts every relation at least as high as what it reads, and strictly
    higher than what it reads under negation or aggregation. *)
Definition is_stratification (rules : list Rule) (s : string -> nat) : Prop :=
  forall r l, r ∈ rules -> l ∈ Body r -> Rel l ∈ head_rels rules ->
    s (Rel l) + (if Neg l || bool_decide (is_Some (Agg r)) then 1 else 0) <= s (Rel (Head r)).

(** ** Lemmas: the dependency graph *)

Definition b2n (b : bool) : nat := if b then 1 else 0.

Definition edge_ok (s : string -> nat) (e : string * (string * bool)) : Prop :=
  s (fst (snd e)) + b2n (snd (snd e)) <= s (fst e).


Lemma elem_of_head_rels rules h :
  h ∈ head_rels rules <-> exists r, r ∈ rules /\ Rel (Head r) = h.
Proof.
  unfold head_rels. rewrite elem_of_list_to_set, list_elem_of_fmap. naive_solver.
Qed.

Lemma elem_of_rule_deps heads r d neg :
  (d, neg) ∈ rule_deps heads r <->
  exists l, l ∈ Body r /\ Rel l = d /\ d ∈ heads /\
    neg = Neg l || bool_decide (is_Some (Agg r)).
Proof.
  unfold rule_deps. rewrite list_elem_of_omap.
  assert ((match Agg r with Some _ => true | None => false end) =
    bool_decide (is_Some (Agg r))) as ->.
  { destruct (Agg r); [by rewrite bool_decide_eq_true_2 by eauto|].
    by rewrite bool_decide_eq_false_2 by (intros [??]; done). }
  split.
  - intros (l & Hl & H). case_decide; naive_solver.
  - intros (l & Hl & <- & Hd & ->). exists l. split; [done|]. by rewrite decide_True.
Qed.

Lemma elem_of_deps_of rules h d neg :
  (d, neg) ∈ deps_of rules h <->
  exists r l, r ∈ rules /\ l ∈ Body r /\ Rel (Head r) = h /\ Rel l = d /\
    d ∈ head_rels rules /\ neg = Neg l || bool_decide (is_Some (Agg r)).
Proof.
  unfold deps_of. rewrite list_elem_of_In, in_concat. setoid_rewrite <- list_elem_of_In.
  setoid_rewrite list_elem_of_fmap. split.
  - intros (ds & (r & -> & Hr) & H). destruct (Stdlib.Strings.String.eqb_spec (Rel (Head r)) h);
      [|set_solver]. apply elem_of_rule_deps in H as (l & ? & ? & ? & ?).
    exists r, l. naive_solver.
  - intros (r & l & Hr & Hl & Hh & Hd & Hin & Hn). eexists. split; [by exists r|].
    rewrite Hh, Stdlib.Strings.String.eqb_refl. apply elem_of_rule_deps. by exists l.
Qed.

Lemma elem_of_all_deps rules names h d :
  (h, d) ∈ all_deps rules names <-> h ∈ names /\ d ∈ deps_of rules h.
Proof.
  unfold all_deps. rewrite list_elem_of_In, in_concat. setoid_rewrite <- list_elem_of_In.
  setoid_rewrite list_elem_of_fmap. split.
  - intros (ds & (h' & -> & Hh') & H). apply list_elem_of_fmap in H as (d' & ? & ?). naive_solver.
  - intros [Hh Hd]. eexists. split; [by exists h|]. apply list_elem_of_fmap. eauto.
Qed.

Definition strata_edges (rules : list Rule) : list (string * (string * bool)) :=
  all_deps rules (sort_strings (elements (head_rels rules))).

Lemma elem_of_strata_edges rules h d neg :
  (h, (d, neg)) ∈ strata_edges rules <->
  exists r l, r ∈ rules /\ l ∈ Body r /\ Rel (Head r) = h /\ Rel l = d /\
    d ∈ head_rels rules /\ neg = Neg l || bool_decide (is_Some (Agg r)).
Proof.
  unfold strata_edges. rewrite elem_of_all_deps, elem_of_sort_strings, elem_of_elements,
    elem_of_deps_of, elem_of_head_rels. split; [naive_solver|].
  intros (r & l & Hr & ?). split; [|by exists r, l]. exists r. naive_solver.
Qed.

Lemma strata_edges_heads rules h d neg :
  (h, (d, neg)) ∈ strata_edges rules -> h ∈ head_rels rules /\ d ∈ head_rels rules.
Proof.
  rewrite elem_of_strata_edges. intros (r & l & Hr & Hl & Hh & Hd & Hin & _).
  split; [|done]. apply elem_of_head_rels. eauto.
Qed.

Lemma is_stratification_edges rules s :
  is_stratification rules s <-> Forall (edge_ok s) (strata_edges rules).
Proof.
  rewrite Forall_forall. split.
  - intros H [h [d neg]] He. apply elem_of_strata_edges in He as (r & l & Hr & Hl & <- & <- & Hd & ->).
    by apply H.
  - intros H r l Hr Hl Hd. apply (H (Rel (Head r), (Rel l, Neg l || bool_decide (is_Some (Agg r))))).
    apply elem_of_strata_edges. by exists r, l.
Qed.

(** ** Lemmas: one round *)

Lemma stratum_insert st h n x :
  stratum (<[h := n]> st) x = if decide (h = x) then n else stratum st x.
Proof. unfold stratum. rewrite lookup_insert. by case_decide. Qed.

Lemma relax_spec st c h d neg st' c' :
  relax (st, c) (h, (d, neg)) = (st', c') ->
  (forall x, stratum st x <= stratum st' x) /\
  stratum st d + b2n neg <= stratum st' h /\
  (c' = false -> c = false /\ st' = st) /\
  (c' = true -> c = true \/ exists x, stratum st x < stratum st' x) /\
  (forall x, stratum st' x = stratum st x \/
     (x = h /\ stratum st' x = stratum st d + b2n neg)).
Proof.
  unfold relax, want_of. cbn [fst snd]. change (if neg then 1 else 0) with (b2n neg).
  destruct (Nat.ltb_spec (stratum st h) (stratum st d + b2n neg)) as [Hlt|Hge]; intros [= <- <-].
  - split_and!; try done.
    + intros x. rewrite stratum_insert. case_decide; subst; lia.
    + rewrite stratum_insert, decide_True by done. lia.
    + intros _. right. exists h. rewrite stratum_insert, decide_True by done. lia.
    + intros x. rewrite stratum_insert. case_decide; naive_solver.
  - split_and!; try done; auto.
Qed.

Lemma fold_relax_spec edges st c st' c' :
  fold_left relax edges (st, c) = (st', c') ->
  (forall x, stratum st x <= stratum st' x) /\
  (forall h d neg, (h, (d, neg)) ∈ edges -> stratum st d + b2n neg <= stratum st' h) /\
  (c' = false -> c = false /\ st' = st) /\
  (c' = true -> c = true \/ exists x, stratum st x < stratum st' x).
Proof.
  revert st c. induction edges as [|[h0 [d0 n0]] edges IH]; intros st c; cbn [fold_left].
  { intros [= <- <-]. split_and!; auto; set_solver. }
  destruct (relax (st, c) (h0, (d0, n0))) as [st1 c1] eqn:Hr. intros Hf.
  destruct (relax_spec _ _ _ _ _ _ _ Hr) as (Hm1 & Hp1 & Hc1 & Ht1 & _).
  destruct (IH _ _ Hf) as (Hm2 & Hp2 & Hc2 & Ht2). split_and!.
  - intros x. etrans; [apply Hm1|apply Hm2].
  - intros h d neg [Heq|Hin]%elem_of_cons.
    + simplify_eq. etrans; [exact Hp1|apply Hm2].
    + specialize (Hp2 _ _ _ Hin). specialize (Hm1 d). lia.
  - intros Hf'. destruct (Hc2 Hf') as [-> ->]. by destruct (Hc1 eq_refl) as [-> ->].
  - intros Ht'. destruct (Ht2 Ht') as [->|[x Hx]].
    + destruct (Ht1 eq_refl) as [?|[x Hx]]; [by left|right]. exists x. specialize (Hm2 x). lia.
    + right. exists x. specialize (Hm1 x). lia.
Qed.

(** A property every read preserves survives a round. *)
Lemma fold_relax_ind (Q : gmap string nat -> Prop) edges st c st' c' :
  (forall st c h d neg st' c', (h, (d, neg)) ∈ edges -> Q st ->
     relax (st, c) (h, (d, neg)) = (st', c') -> Q st') ->
  Q st -> fold_left relax edges (st, c) = (st', c') -> Q st'.
Proof.
  revert st c. induction edges as [|[h0 [d0 n0]] edges IH]; intros st c HQ H0; cbn [fold_left].
  { by intros [= <- <-]. }
  destruct (relax (st, c) (h0, (d0, n0))) as [st1 c1] eqn:Hr. intros Hf.
  eapply IH; [|eapply (HQ st c); [left|done|exact Hr]|exact Hf].
  intros. eapply HQ; [right|..]; done.
Qed.

Lemma strata_round_fixpoint edges st st' :
  strata_round edges st = (st', false) -> st' = st /\ Forall (edge_ok (stratum st)) edges.
Proof.
  intros H. apply fold_relax_spec in H as (_ & Hp & Hc & _).
  destruct (Hc eq_refl) as [_ ->]. split; [done|].
  apply Forall_forall. intros [h [d neg]] Hin. by apply Hp.
Qed.

(** ** Lemmas: walks in the dependency graph *)

Section walks.
Context (E : list (string * (string * bool))).

(** [pathw vs w]: the vertices [vs] are a walk whose negative reads number [w]. *)
Inductive pathw : list string -> nat -> Prop :=
| pathw_one h : pathw [h] 0
| pathw_step h d neg vs w :
    (h, (d, neg)) ∈ E -> pathw (d :: vs) w -> pathw (h :: d :: vs) (b2n neg + w).

Lemma pathw_split l1 x l2 w :
  pathw (l1 ++ x :: l2) w ->
  exists w1 w2, w = w1 + w2 /\ pathw (l1 ++ [x]) w1 /\ pathw (x :: l2) w2.
Proof.
  revert w. induction l1 as [|h l1 IH]; intros w H; cbn in *.
  - exists 0, w. split_and!; [done|constructor|done].
  - inversion H as [h' Heq|h' d neg vs w' He Hp Heq]; subst.
    { by destruct l1. }
    rewrite H0 in Hp. destruct (IH _ Hp) as (w1 & w2 & -> & H1 & H2).
    exists (b2n neg + w1), w2. split_and!; [lia| |done].
    destruct l1 as [|y l1]; cbn in *; simplify_eq; by constructor.
Qed.

Lemma pathw_join l1 x l2 w1 w2 :
  pathw (l1 ++ [x]) w1 -> pathw (x :: l2) w2 -> pathw (l1 ++ x :: l2) (w1 + w2).
Proof.
  revert w1. induction l1 as [|h l1 IH]; intros w1 H1 H2; cbn in *.
  - inversion H1; subst; done.
  - inversion H1 as [h' Heq|h' d neg vs w' He Hp Heq]; subst.
    { by destruct l1. }
    rewrite H in Hp. specialize (IH _ Hp H2).
    destruct l1 as [|y l1]; cbn in *; simplify_eq; rewrite <- Nat.add_assoc; by constructor.
Qed.

(** A stratification drops by at least the weight along a walk. *)
Lemma pathw_potential s h l d w :
  Forall (edge_ok s) E -> pathw (h :: l ++ [d]) w -> s d + w <= s h.
Proof.
  rewrite Forall_forall. intros Hs. revert h w.
  induction l as [|y l IH]; intros h w H; cbn in *;
    inversion H as [|h' d' neg vs w' He Hp]; subst; apply Hs in He; unfold edge_ok in He; cbn in He.
  - inversion Hp; subst. lia.
  - specialize (IH _ _ Hp). lia.
Qed.

Lemma not_NoDup_split (l : list string) :
  ~ NoDup l -> exists l1 x l2 l3, l = l1 ++ x :: l2 ++ x :: l3.
Proof.
  induction l as [|x l IH]; intros H; [by destruct H; constructor|].
  destruct (decide (x ∈ l)) as [(l2 & l3 & ->)%list_elem_of_split|Hx].
  - by exists [], x, l2, l3.
  - destruct IH as (l1 & y & l2 & l3 & ->); [|by exists (x :: l1), y, l2, l3].
    intros Hl. apply H. by constructor.
Qed.

(** When a stratification exists cycles weigh nothing, so a walk can be cut
    down to a simple one of the same weight. *)
Lemma pathw_simple s h vs w :
  Forall (edge_ok s) E -> pathw (h :: vs) w ->
  exists vs', pathw (h :: vs') w /\ NoDup (h :: vs') /\ (h :: vs') ⊆ (h :: vs).
Proof.
  intros Hs. remember (length vs) as n eqn:Hn. revert vs Hn.
  induction n as [n IH] using lt_wf_ind. intros vs -> H.
  destruct (decide (NoDup (h :: vs))) as [|Hd]; [by exists vs|].
  apply not_NoDup_split in Hd as (l1 & x & l2 & l3 & Heq).
  rewrite Heq in H. apply pathw_split in H as (w1 & w2 & -> & H1 & H2).
  rewrite app_comm_cons in H2. apply pathw_split in H2 as (wc & w3 & -> & Hc & H3).
  assert (wc = 0) as -> by (apply (pathw_potential s) in Hc; [lia|done]).
  pose proof (pathw_join _ _ _ _ _ H1 H3) as Hj.
  assert (exists l', l1 ++ x :: l3 = h :: l') as [l' Hl'].
  { destruct l1; cbn in *; simplify_eq; eauto. }
  rewrite Hl' in Hj.
  assert (Hsub : (h :: l') ⊆ (h :: vs)) by (rewrite Heq, <- Hl'; set_solver).
  assert (length l' < length vs).
  { apply (f_equal length) in Heq, Hl'. rewrite !length_app in *. cbn in *.
    rewrite !length_app in *. cbn in *. lia. }
  destruct (IH (length l') ltac:(done) l' eq_refl Hj) as (vs' & ? & ? & ?).
  exists vs'. split_and!; [done|done|]. by etrans.
Qed.

Lemma pathw_vertices vs w (V : gset string) :
  (forall h d neg, (h, (d, neg)) ∈ E -> h ∈ V /\ d ∈ V) ->
  pathw vs w -> (exists h, vs = [h]) \/ Forall (fun v => v ∈ V) vs.
Proof.
  intros HE. induction 1 as [h|h d neg vs w He Hp IH]; [by left; exists h|right].
  destruct (HE _ _ _ He). constructor; [done|].
  destruct IH as [[h' [= -> ->]]|IH]; [by repeat constructor|done].
Qed.

End walks.

(** ** Convergence of the rounds *)

Section rounds.
Context (rules : list Rule).

Notation edges := (strata_edges rules).
Notation heads := (head_rels rules).

Definition strata_after (k : nat) : gmap string nat :=
  Nat.iter k (fun st => fst (strata_round edges st)) (gset_to_gmap 0 heads).

Lemma strata_after_S k : strata_after (S k) = fst (strata_round edges (strata_after k)).
Proof. done. Qed.

Lemma strata_after_0 : strata_after 0 = gset_to_gmap 0 heads.
Proof. done. Qed.

Opaque strata_after.

Lemma stratum_zero x : stratum (gset_to_gmap 0 heads) x = 0.
Proof. unfold stratum. rewrite lookup_gset_to_gmap. by case_guard. Qed.

Lemma strata_after_attained k x :
  exists vs, pathw edges (x :: vs) (stratum (strata_after k) x).
Proof.
  revert x. induction k as [|k IH].
  - intros x. rewrite strata_after_0, stratum_zero. exists []. constructor.
  - rewrite strata_after_S. destruct (strata_round edges (strata_after k)) as [st' c'] eqn:Hr. cbn.
    eapply (fold_relax_ind (fun st => forall x, exists vs, pathw edges (x :: vs) (stratum st x)));
      [|exact IH|exact Hr].
    intros st c h d neg st1 c1 He HQ Hrel x.
    destruct (relax_spec _ _ _ _ _ _ _ Hrel) as (_ & _ & _ & _ & Hx).
    destruct (Hx x) as [->|[-> ->]]; [apply HQ|].
    destruct (HQ d) as [vs Hvs]. exists (d :: vs). rewrite Nat.add_comm. by constructor.
Qed.

Lemma strata_after_mono k x : stratum (strata_after k) x <= stratum (strata_after (S k)) x.
Proof.
  rewrite strata_after_S. destruct (strata_round edges (strata_after k)) as [st' c'] eqn:Hr.
  by apply fold_relax_spec in Hr as (Hm & _).
Qed.

(** After [k] rounds every walk of at most [k] reads has been accounted for. *)
Lemma strata_after_walks k h vs w :
  pathw edges (h :: vs) w -> length vs <= k -> w <= stratum (strata_after k) h.
Proof.
  revert h vs w. induction k as [|k IH]; intros h vs w H Hl.
  - destruct vs; [|cbn in Hl; lia]. inversion H; subst. lia.
  - inversion H as [h' Heq|h' d neg vs' w' He Hp Heq]; subst; [lia|].
    specialize (IH _ _ _ Hp ltac:(cbn in Hl; lia)).
    rewrite strata_after_S.
    destruct (strata_round edges (strata_after k)) as [st' c'] eqn:Hr. cbn [fst].
    apply fold_relax_spec in Hr as (_ & Hs & _). specialize (Hs _ _ _ He). lia.
Qed.

Lemma strata_rounds_changed n k :
  strata_rounds n edges (strata_after k) = None ->
  forall i, i < n -> snd (strata_round edges (strata_after (k + i))) = true.
Proof.
  revert k. induction n as [|n IH]; intros k H i Hi; [lia|]. cbn [strata_rounds] in H.
  destruct (strata_round edges (strata_after k)) as [st' c'] eqn:Hr.
  destruct c'; [|done]. destruct i as [|i].
  - by rewrite Nat.add_0_r, Hr.
  - rewrite <- Nat.add_succ_comm. apply IH; [|lia]. by rewrite strata_after_S, Hr.
Qed.

Lemma strata_rounds_converge s :
  Forall (edge_ok s) edges ->
  exists st, strata_rounds (S (size heads)) edges (gset_to_gmap 0 heads) = Some st.
Proof.
  intros Hs. destruct (strata_rounds _ _ _) as [st|] eqn:Hnone; [by exists st|]. exfalso.
  rewrite <- strata_after_0 in Hnone.
  pose proof (strata_rounds_changed _ 0 Hnone (size heads) ltac:(lia)) as Hch. cbn in Hch.
  destruct (strata_round edges (strata_after (size heads))) as [st' c'] eqn:Hr.
  cbn in Hch. subst c'.
  pose proof (fold_relax_spec _ _ _ _ _ Hr) as (_ & _ & _ & Ht).
  destruct (Ht eq_refl) as [?|[x Hx]]; [done|].
  destruct (strata_after_attained (S (size heads)) x) as [vs Hvs].
  rewrite strata_after_S, Hr in Hvs. cbn [fst] in Hvs.
  destruct (pathw_simple _ s x vs _ Hs Hvs) as (vs' & Hp & Hnd & _).
  assert (length vs' <= size heads).
  { destruct (pathw_vertices edges _ _ heads (strata_edges_heads rules) Hp)
      as [[h' [= -> ->]]|Hall]; [cbn; lia|].
    assert (size (list_to_set (x :: vs') : gset string) <= size heads) as Hsz.
    { apply subseteq_size. intros v Hv. apply elem_of_list_to_set in Hv.
      rewrite Forall_forall in Hall. by apply Hall. }
    rewrite size_list_to_set in Hsz by done. cbn in Hsz. lia. }
  pose proof (strata_after_walks (size heads) _ _ _ Hp ltac:(done)). lia.
Qed.

Lemma strata_rounds_sound n st0 st :
  strata_rounds n edges st0 = Some st -> Forall (edge_ok (stratum st)) edges.
Proof.
  revert st0. induction n as [|n IH]; intros st0 H; [done|]. cbn [strata_rounds] in H.
  destruct (strata_round edges st0) as [st' []] eqn:Hr; [by eapply IH|]. simplify_eq.
  by apply strata_round_fixpoint in Hr as [-> ?].
Qed.

End rounds.

Lemma stratify_sound_aux rules st :
  stratify rules = Ok st -> is_stratification rules (stratum st).
Proof.
  unfold stratify. fold (strata_edges rules).
  destruct (strata_rounds _ _ _) as [st'|] eqn:Hr; [|done]. intros [= ->].
  apply is_stratification_edges. by eapply strata_rounds_sound.
Qed.

Lemma stratify_complete_aux rules s :
  is_stratification rules s -> exists st, stratify rules = Ok st.
Proof.
  intros H%is_stratification_edges. apply strata_rounds_converge in H as [st Hst].
  exists st. unfold stratify. fold (strata_edges rules). by rewrite Hst.
Qed.

(** ** Properties *)

(** C3: when [stratify] succeeds its strata are a stratification: a
    relation is at least as high as every derived relation its rules read, and
    strictly higher than those they negate or aggregate over. *)
Theorem stratify_sound rules st :
  stratify rules = Ok st -> is_stratification rules (stratum st).
Proof. apply stratify_sound_aux. Qed.

(** A two-stratum program used by the witnesses. *)
Definition demo_rules : list Rule :=
  let x := mkTerm true "X" 0 0%N in
  [mkRule (mkLiteral "p" [x] false)
     [mkLiteral "q" [x] false; mkLiteral "r" [x] true] "t/p" "t.dl" 1 1 None;
   mkRule (mkLiteral "r" [x] false) [mkLiteral "s" [x] false] "t/r" "t.dl" 2 1 None].

Lemma stratify_sound_witness :
  exists st, stratify demo_rules = Ok st /\ is_stratification demo_rules (stratum st).
Proof.
  destruct (stratify demo_rules) as [st|e] eqn:E; [|vm_compute in E; discriminate E].
  exists st. split; [reflexivity|]. exact (stratify_sound demo_rules st E).
Defined.

(** C4: [stratify] succeeds exactly on the stratifiable programs: its bound on
    the number of rounds never rejects a program that has a stratification, and
    an accepted one has one. *)
Theorem stratify_complete rules :
  (exists st, stratify rules = Ok st) <-> (exists s, is_stratification rules s).
Proof.
  split; [intros [st Hst]; eexists; by apply stratify_sound_aux|].
  intros [s Hs]. by eapply stratify_complete_aux.
Qed.

(** The cycle [findNegativeCycle] reports for a rejected program need not
    go through negation: there is a program for which every step of the
    reported cycle is a positive dependency. *)
Theorem findNegativeCycle_can_be_positive :
  exists rules c1 c2, stratify rules = Err (ENotStratified [c1; c2; c1]) /\
    deps_of rules c1 = [(c2, false)] /\ deps_of rules c2 = [(c1, false)].
Proof.
  set (l := fun n neg => mkLiteral n [] neg).
  exists [mkRule (l "a" false) [l "b" true] "t/a" "t.dl" 1 0 None;
          mkRule (l "b" false) [l "c" false] "t/b" "t.dl" 2 0 None;
          mkRule (l "c" false) [l "b" false] "t/c" "t.dl" 3 0 None;
          mkRule (l "z" false) [l "z" true] "t/z" "t.dl" 4 0 None], "b", "c".
  split_and!; vm_compute; reflexivity.
Qed.
