(* ===== verification/DlRelation.v ===== *)
(** Relations of the datalog engine (internal/datalog/engine.go): tuple sets
    with block storage, lazily built per-argument indexes, and call-pattern
    lookup. *)
From S2P Require Import Prelude DlIntern.

Local Open Scope nat_scope.

(** A call pattern: a symbol binds the argument, nothing leaves it free. *)
Notation binds := (list (option N)).

(** One storage block: its fixed capacity and the symbols appended so far. *)
Record chunk : Type := mkChunk { ccap : nat; cdata : list N }.

(** The index bucket maps, one per argument position. *)
Notation index := (list (gmap N (list itup))).

Record relation : Type := mkRelation {
  rname : string;
  rarity : Z;
  tuples : list itup;
  chunks : list chunk;
  seen : gset tkey;
  idx : option index
}.

Definition chunkRows : nat := 512.

(** newRelation *)
Definition newRelation (name : string) (arity : Z) : relation :=
  mkRelation name arity [] [] ∅ None.

(** The arity as a length; -1 is the arity of a relation declared empty. *)
Definition row_len (r : relation) : nat := Z.to_nat (rarity r).

(** ** Storage *)

(** The block the next row goes to: the last one, or a fresh one when it is
    full or missing. *)
Definition open_chunk (r : relation) : list chunk :=
  let w := if (rarity r <? 1)%Z then 1 else row_len r in
  let rows := length (tuples r) in
  let rows := if rows <? 64 then 64 else rows in
  let rows := if chunkRows <? rows then chunkRows else rows in
  let fresh := chunks r ++ [mkChunk (rows * w) []] in
  match last (chunks r) with
  | None => fresh
  | Some c => if ccap c <? length (cdata c) + row_len r then fresh else chunks r
  end.

(** relation.alloc: the blocks after the row is appended, and the view of it. *)
Definition alloc (r : relation) (t : itup) : list chunk * itup :=
  let cs := open_chunk r in
  match last cs with
  | None => (cs, [])
  | Some c =>
      let start := length (cdata c) in
      let data := cdata c ++ t in
      (<[pred (length cs) := mkChunk (ccap c) data]> cs, take (row_len r) (drop start data))
  end.

(** ** Indexes *)

(** relation.indexTuple, for the positions from [i] on. *)
Fixpoint index_from (ix : index) (t0 : itup) (t : itup) : index :=
  match ix, t with
  | m :: ix', v :: t' => <[v := default [] (m !! v) ++ [t0]]> m :: index_from ix' t0 t'
  | _, _ => ix
  end.

Definition indexTuple (ix : index) (t : itup) : index := index_from ix t t.

(** relation.buildIndex *)
Definition buildIndex (r : relation) : index :=
  match idx r with
  | Some ix => ix
  | None => fold_left indexTuple (tuples r) (replicate (row_len r) ∅)
  end.

Definition set_idx (r : relation) (ix : option index) : relation :=
  mkRelation (rname r) (rarity r) (tuples r) (chunks r) (seen r) ix.

(** ** Insertion and membership *)

(** relation.add: whether the tuple was new, and the relation after. *)
Definition add (r : relation) (t : itup) : bool * relation :=
  let k := interner_key t in
  if decide (k ∈ seen r) then (false, r)
  else
    let '(cs, stored) := alloc r t in
    (true, mkRelation (rname r) (rarity r) (tuples r ++ [stored]) cs ({[k]} ∪ seen r)
             (match idx r with Some ix => Some (indexTuple ix stored) | None => None end)).

(** relation.has *)
Definition has (r : relation) (t : itup) : bool := bool_decide (interner_key t ∈ seen r).

(** ** Lookup by call pattern *)

(** matches: every bound position of the pattern agrees.  Reading past the
    tuple is a panic; the engine only pairs patterns and tuples of one
    relation. *)
Fixpoint matches (t : itup) (b : binds) : bool :=
  match b with
  | [] => true
  | None :: b' => matches (tail t) b'
  | Some v :: b' =>
      match t with
      | [] => false
      | x :: t' => if (x =? v)%N then matches t' b' else false
      end
  end.

(** The loop of selectCands: [best] is the smallest bucket so far. *)
Fixpoint select_loop (r : relation) (i : nat) (b : binds) (best : option (list itup))
    : option (list itup) * relation :=
  match b with
  | [] => (best, r)
  | None :: b' => select_loop r (S i) b' best
  | Some v :: b' =>
      let ix := buildIndex r in
      let bucket := default [] (default ∅ (ix !! i) !! v) in
      let best' := match best with
        | None => bucket
        | Some c => if length bucket <? length c then bucket else c
        end in
      select_loop (set_idx r (Some ix)) (S i) b' (Some best')
  end.

(** relation.selectCands: the candidates to scan, and the relation with the
    index the lookup may have built. *)
Definition selectCands (r : relation) (b : binds) : list itup * relation :=
  match select_loop r 0 b None with
  | (None, r') => (tuples r, r')
  | (Some c, r') => (c, r')
  end.

(** relation.exists *)
Definition rel_exists (r : relation) (b : binds) : bool * relation :=
  let '(cs, r') := selectCands r b in (existsb (fun t => matches t b) cs, r').

(** relation.match, and the tuples relation.each hands to its callback. *)
Definition rel_match (r : relation) (b : binds) : list itup * relation :=
  let '(cs, r') := selectCands r b in (List.filter (fun t => matches t b) cs, r').

(** ** The representation invariant *)

Definition bucket_of (ix : index) (i : nat) (v : N) : list itup :=
  default [] (default ∅ (ix !! i) !! v).

Definition at_pos (i : nat) (v : N) (t : itup) : bool := bool_decide (t !! i = Some v).

Definition index_ok (n : nat) (ts : list itup) (ix : index) : Prop :=
  length ix = n /\ forall i v, bucket_of ix i v = List.filter (at_pos i v) ts.

Definition tuple_ok (n : nat) (t : itup) : Prop :=
  length t = n /\ Forall (fun v => v < 2 ^ 32)%N t.

Record rel_wf (r : relation) : Prop := {
  rw_rows : Forall (tuple_ok (row_len r)) (tuples r);
  rw_nodup : NoDup (tuples r);
  rw_seen : forall k, k ∈ seen r <-> k ∈ map interner_key (tuples r);
  rw_idx : forall ix, idx r = Some ix -> index_ok (row_len r) (tuples r) ix;
  rw_store : concat (map cdata (chunks r)) = concat (tuples r)
}.

(** ** Lemmas: storage *)

Lemma open_chunk_data r : concat (map cdata (open_chunk r)) = concat (map cdata (chunks r)).
Proof.
  unfold open_chunk. destruct (last (chunks r)); [case_match; [|done]|];
    by rewrite map_app, concat_app, app_nil_r.
Qed.

Lemma open_chunk_last r : exists c cs, open_chunk r = cs ++ [c].
Proof.
  unfold open_chunk. destruct (last (chunks r)) as [c|] eqn:Hl; [case_match|]; [eauto| |eauto].
  apply last_Some in Hl as [l ->]. eauto.
Qed.

Lemma alloc_spec r t cs stored :
  length t = row_len r -> alloc r t = (cs, stored) ->
  stored = t /\ concat (map cdata cs) = concat (map cdata (chunks r)) ++ t.
Proof.
  intros Hl. unfold alloc. destruct (open_chunk_last r) as (c & cs0 & Ho).
  rewrite <- (open_chunk_data r), Ho, last_snoc. intros [= <- <-]. split.
  - rewrite drop_app_length. rewrite <- Hl. apply firstn_all.
  - rewrite length_app. cbn. rewrite Nat.add_1_r. cbn.
    rewrite insert_app_r_alt by lia. rewrite Nat.sub_diag. cbn.
    rewrite !map_app, !concat_app. cbn. by rewrite !app_nil_r, app_assoc.
Qed.

(** ** Lemmas: indexes *)

Lemma bucket_of_nil i v : bucket_of [] i v = [].
Proof. by destruct i. Qed.

Lemma bucket_of_cons_0 m ix v : bucket_of (m :: ix) 0 v = default [] (m !! v).
Proof. done. Qed.

Lemma bucket_of_cons_S m ix i v : bucket_of (m :: ix) (S i) v = bucket_of ix i v.
Proof. done. Qed.

Lemma at_pos_nil i v : at_pos i v [] = false.
Proof. by apply bool_decide_eq_false_2. Qed.

Lemma index_from_length ix t0 t : length (index_from ix t0 t) = length ix.
Proof.
  revert t. induction ix as [|m ix IH]; intros [|v t]; cbn; [done..|by rewrite IH].
Qed.

Lemma index_from_bucket ix t0 t i v :
  length ix = length t ->
  bucket_of (index_from ix t0 t) i v = bucket_of ix i v ++ (if at_pos i v t then [t0] else []).
Proof.
  revert t i. induction ix as [|m ix IH]; intros [|w t] i Hl; try discriminate Hl.
  - by rewrite at_pos_nil, app_nil_r.
  - cbn [index_from]. destruct i as [|i].
    + rewrite !bucket_of_cons_0. unfold at_pos. cbn. rewrite lookup_insert. case_decide as H.
      * subst. by rewrite bool_decide_eq_true_2.
      * rewrite bool_decide_eq_false_2 by congruence. by rewrite app_nil_r.
    + rewrite !bucket_of_cons_S, IH by (cbn in Hl; lia). done.
Qed.

Lemma indexTuple_ok n ts ix t :
  index_ok n ts ix -> length t = n -> index_ok n (ts ++ [t]) (indexTuple ix t).
Proof.
  intros [Hl Hb] Ht. unfold indexTuple. split.
  - by rewrite index_from_length.
  - intros i v. rewrite index_from_bucket by congruence. rewrite Hb, List.filter_app. cbn.
    by destruct (at_pos i v t).
Qed.

Lemma index_ok_nil n : index_ok n [] (replicate n (∅ : gmap N (list itup))).
Proof.
  split; [apply length_replicate|]. intros i v. unfold bucket_of.
  destruct (replicate n (∅ : gmap N (list itup)) !! i) as [m|] eqn:Hm; [|done].
  apply lookup_replicate in Hm as [-> _]. done.
Qed.

Lemma fold_indexTuple_ok n ts ts0 ix :
  index_ok n ts0 ix -> Forall (fun t => length t = n) ts ->
  index_ok n (ts0 ++ ts) (fold_left indexTuple ts ix).
Proof.
  revert ts0 ix. induction ts as [|t ts IH]; intros ts0 ix Hix Hts.
  - by rewrite app_nil_r.
  - apply Forall_cons in Hts as [Ht Hts]. cbn.
    replace (ts0 ++ t :: ts) with ((ts0 ++ [t]) ++ ts) by by rewrite <- app_assoc.
    apply IH; [by apply indexTuple_ok|done].
Qed.

(** What lookups need of a relation: rows of its arity and a faithful index.
    A delta relation has it without owning a key set or a store. *)
Record view_wf (r : relation) : Prop := {
  vw_rows : Forall (fun t => length t = row_len r) (tuples r);
  vw_idx : forall ix, idx r = Some ix -> index_ok (row_len r) (tuples r) ix
}.

Lemma rel_wf_view r : rel_wf r -> view_wf r.
Proof.
  intros Hwf. split; [|apply Hwf]. eapply Forall_impl; [apply Hwf|]. by intros t [].
Qed.

Lemma buildIndex_ok r : view_wf r -> index_ok (row_len r) (tuples r) (buildIndex r).
Proof.
  intros Hwf. unfold buildIndex. destruct (idx r) as [ix|] eqn:Hi; [by apply Hwf|].
  apply (fold_indexTuple_ok _ _ []); [apply index_ok_nil|apply Hwf].
Qed.

Lemma set_idx_wf r ix :
  view_wf r -> index_ok (row_len r) (tuples r) ix -> view_wf (set_idx r (Some ix)).
Proof. intros [] Hix. split; cbn; try done. by intros ? [= <-]. Qed.

(** ** Lemmas: insertion *)

Lemma newRelation_wf name n : rel_wf (newRelation name n).
Proof. split; cbn; [constructor|constructor|set_solver|done|done]. Qed.

Lemma key_in_tuples r t :
  rel_wf r -> tuple_ok (row_len r) t ->
  interner_key t ∈ map interner_key (tuples r) <-> t ∈ tuples r.
Proof.
  intros Hwf [Hl Hs]. rewrite list_elem_of_fmap. split; [|by eauto].
  intros (t' & Hk & Ht'). pose proof (rw_rows _ Hwf) as Hr. rewrite Forall_forall in Hr.
  destruct (Hr _ Ht') as [Hl' Hs']. apply interner_key_inj in Hk as ->; congruence.
Qed.

Lemma has_spec r t : rel_wf r -> tuple_ok (row_len r) t -> has r t = true <-> t ∈ tuples r.
Proof.
  intros Hwf Ht. unfold has. rewrite bool_decide_eq_true, (rw_seen _ Hwf). by apply key_in_tuples.
Qed.

(** [add] is set insertion: it keeps the invariant, reports whether the tuple
    was new, and appends it at the end exactly then. *)
Lemma add_spec r t b r' :
  rel_wf r -> tuple_ok (row_len r) t -> add r t = (b, r') ->
  rel_wf r' /\ rname r' = rname r /\ rarity r' = rarity r /\
  (b = true <-> t ∉ tuples r) /\
  tuples r' = if b then tuples r ++ [t] else tuples r.
Proof.
  intros Hwf Ht. pose proof (key_in_tuples r t Hwf Ht) as Hk.
  unfold add. case_decide as Hs; rewrite (rw_seen _ Hwf), Hk in Hs.
  - intros [= <- <-]. split_and!; done.
  - destruct (alloc r t) as [cs stored] eqn:Ha.
    apply alloc_spec in Ha as [-> Hd]; [|apply Ht]. intros [= <- <-]. cbn.
    split_and!; try done. destruct Hwf as [Hrows Hnd Hseen Hidx Hstore]. split; cbn.
    + apply Forall_app. split; [done|]. by constructor.
    + apply NoDup_app. split_and!; [done| |by apply NoDup_singleton].
      intros x Hx ->%list_elem_of_singleton. done.
    + intros k. rewrite map_app. cbn. rewrite elem_of_union, elem_of_app, Hseen. set_solver.
    + intros ix. destruct (idx r) as [ix0|] eqn:Hi; [|done]. intros [= <-].
      apply indexTuple_ok; [by apply Hidx|apply Ht].
    + rewrite Hd, Hstore, concat_app. cbn. by rewrite app_nil_r.
Qed.

(** ** Lemmas: lookup *)

Lemma tail_lookup {A} (l : list A) i : tail l !! i = l !! S i.
Proof. by destruct l; rewrite ?lookup_nil. Qed.

Lemma drop_cons_S {A} (x : A) l i l0 : x :: l = drop i l0 -> l = drop (S i) l0.
Proof.
  revert i. induction l0 as [|y l0 IH]; intros [|i] H; cbn in *; try discriminate H.
  - by injection H.
  - by apply IH.
Qed.

Lemma matches_iff t b :
  matches t b = true <-> forall i v, b !! i = Some (Some v) -> t !! i = Some v.
Proof.
  revert t. induction b as [|[v|] b IH]; intros t; cbn.
  - split; [intros _ i v Hi; by rewrite lookup_nil in Hi|done].
  - destruct t as [|x t].
    { split; [done|]. intros H. by specialize (H 0 v eq_refl). }
    destruct (N.eqb_spec x v) as [->|Hne].
    + rewrite IH. split.
      * intros H [|i] w Hi; cbn in *; [congruence|by apply H].
      * intros H i w Hi. by apply (H (S i)).
    + split; [done|]. intros H. specialize (H 0 v eq_refl). cbn in H. congruence.
  - rewrite IH. split.
    + intros H [|i] w Hi; cbn in Hi; [done|]. rewrite <- tail_lookup. by apply H.
    + intros H i w Hi. rewrite tail_lookup. by apply (H (S i)).
Qed.

Lemma filter_matches_at_pos b i v ts :
  b !! i = Some (Some v) ->
  List.filter (fun t => matches t b) (List.filter (at_pos i v) ts) =
  List.filter (fun t => matches t b) ts.
Proof.
  intros Hb. induction ts as [|t ts IH]; cbn; [done|].
  destruct (at_pos i v t) eqn:Ha; cbn.
  - by rewrite IH.
  - destruct (matches t b) eqn:Hm; [|done].
    rewrite matches_iff in Hm. apply Hm in Hb. unfold at_pos in Ha.
    rewrite bool_decide_eq_false in Ha. done.
Qed.

(** What a lookup may do to the relation: build its index, nothing else. *)
Definition same_rel (r r' : relation) : Prop :=
  rname r' = rname r /\ rarity r' = rarity r /\ tuples r' = tuples r /\
  chunks r' = chunks r /\ seen r' = seen r.

Lemma same_rel_refl r : same_rel r r.
Proof. by split_and!. Qed.

Lemma same_rel_trans a b c : same_rel a b -> same_rel b c -> same_rel a c.
Proof. unfold same_rel. intuition congruence. Qed.

Lemma same_rel_tuples r r' : same_rel r r' -> tuples r' = tuples r.
Proof. by intros (_ & _ & ? & _). Qed.

#[export] Hint Resolve same_rel_refl same_rel_trans : polyflow.

(** A candidate list is good for a pattern when filtering it gives what
    filtering the whole relation gives. *)
Definition cands_ok (r : relation) (b : binds) (cs : list itup) : Prop :=
  cs ⊆ tuples r /\
  List.filter (fun t => matches t b) cs = List.filter (fun t => matches t b) (tuples r).

Lemma select_loop_spec r0 b0 r i b best res r' :
  view_wf r -> same_rel r0 r -> b = drop i b0 ->
  (forall c, best = Some c -> cands_ok r0 b0 c) ->
  select_loop r i b best = (res, r') ->
  view_wf r' /\ same_rel r0 r' /\ (forall c, res = Some c -> cands_ok r0 b0 c).
Proof.
  revert r i best. induction b as [|[v|] b IH]; intros r i best Hwf Hs Hb Hbest; cbn [select_loop].
  - by intros [= <- <-].
  - intros Hsel. eapply IH; [| | | |exact Hsel].
    + apply set_idx_wf; [done|by apply buildIndex_ok].
    + eapply same_rel_trans; [exact Hs|]. by split_and!.
    + by eapply drop_cons_S.
    + assert (Hcand : cands_ok r0 b0 (bucket_of (buildIndex r) i v)).
      { destruct (buildIndex_ok r Hwf) as [_ ->]. rewrite (same_rel_tuples _ _ Hs).
        assert (b0 !! i = Some (Some v)) as Hi.
        { rewrite <- (Nat.add_0_r i), <- lookup_drop, <- Hb. done. }
        split; [|by apply filter_matches_at_pos].
        intros x Hx. apply list_elem_of_In, List.filter_In in Hx as [Hx _].
        by apply list_elem_of_In. }
      unfold bucket_of in Hcand. intros c [= <-]. destruct best as [c0|]; [|done].
      case_match; [done|by apply Hbest].
  - intros Hsel. eapply IH; [done|done| |done|exact Hsel].
    by eapply drop_cons_S.
Qed.

(** Scanning the candidates of a pattern finds what a full scan finds. *)
Lemma view_select_spec r b cs r' :
  view_wf r -> selectCands r b = (cs, r') ->
  view_wf r' /\ same_rel r r' /\ cands_ok r b cs.
Proof.
  intros Hwf. unfold selectCands. destruct (select_loop r 0 b None) as [res r1] eqn:Hsel.
  eapply (select_loop_spec r b) in Hsel as (Hwf1 & Hs & Hc);
    [|done|apply same_rel_refl|by rewrite drop_0|done].
  destruct res as [c|]; intros [= <- <-].
  - split_and!; [done|done|by apply Hc].
  - split; [done|]. split; [done|]. by split.
Qed.

Lemma same_rel_wf r r' : rel_wf r -> view_wf r' -> same_rel r r' -> rel_wf r'.
Proof.
  intros Hwf Hv (Hn & Ha & Ht & Hc & Hse). destruct Hwf as [W1 W2 W3 W4 W5].
  assert (row_len r' = row_len r) as Hl by (unfold row_len; congruence).
  split; rewrite ?Ht, ?Hl, ?Hse, ?Hc; try done. rewrite <- Ht, <- Hl. apply Hv.
Qed.

Lemma selectCands_spec r b cs r' :
  rel_wf r -> selectCands r b = (cs, r') ->
  rel_wf r' /\ same_rel r r' /\ cands_ok r b cs.
Proof.
  intros Hwf Hs. destruct (view_select_spec _ _ _ _ (rel_wf_view _ Hwf) Hs) as (Hv & Hsame & Hc).
  split_and!; [by eapply same_rel_wf|done|done].
Qed.

Lemma rel_match_spec r b ts r' :
  rel_wf r -> rel_match r b = (ts, r') ->
  rel_wf r' /\ same_rel r r' /\ ts = List.filter (fun t => matches t b) (tuples r).
Proof.
  intros Hwf. unfold rel_match. destruct (selectCands r b) as [cs r1] eqn:Hs.
  apply selectCands_spec in Hs as (? & ? & [_ ?]); [|done]. by intros [= <- <-].
Qed.

Lemma existsb_filter {A} (f : A -> bool) l : existsb f l = negb (bool_decide (List.filter f l = [])).
Proof.
  induction l as [|x l IH]; cbn; [done|]. destruct (f x); cbn; [done|exact IH].
Qed.

Lemma rel_exists_spec r b res r' :
  rel_wf r -> rel_exists r b = (res, r') ->
  rel_wf r' /\ same_rel r r' /\
  (res = true <-> exists t, t ∈ tuples r /\ matches t b = true).
Proof.
  intros Hwf. unfold rel_exists. destruct (selectCands r b) as [cs r1] eqn:Hs.
  apply selectCands_spec in Hs as (? & ? & [_ Hf]); [|done]. intros [= <- <-].
  split_and!; [done..|].
  assert (existsb (fun t => matches t b) cs = existsb (fun t => matches t b) (tuples r)) as ->.
  { rewrite !existsb_filter, Hf. done. }
  rewrite existsb_exists. setoid_rewrite list_elem_of_In. done.
Qed.


(** ** Properties *)

(** The observable operations of a relation, and their outcomes. *)
Inductive rel_op : Type :=
| OpAdd (t : itup)
| OpHas (t : itup)
| OpExists (b : binds)
| OpMatch (b : binds).

Inductive rel_out : Type :=
| OutBool (b : bool)
| OutTuples (ts : list itup).

Definition rel_step (r : relation) (o : rel_op) : rel_out * relation :=
  match o with
  | OpAdd t => let '(b, r') := add r t in (OutBool b, r')
  | OpHas t => (OutBool (has r t), r)
  | OpExists b => let '(x, r') := rel_exists r b in (OutBool x, r')
  | OpMatch b => let '(ts, r') := rel_match r b in (OutTuples ts, r')
  end.

(** The specification: a list of distinct tuples in insertion order. *)
Definition spec_step (ts : list itup) (o : rel_op) : rel_out * list itup :=
  match o with
  | OpAdd t => if decide (t ∈ ts) then (OutBool false, ts) else (OutBool true, ts ++ [t])
  | OpHas t => (OutBool (bool_decide (t ∈ ts)), ts)
  | OpExists b => (OutBool (existsb (fun t => matches t b) ts), ts)
  | OpMatch b => (OutTuples (List.filter (fun t => matches t b) ts), ts)
  end.

Fixpoint run_ops {S} (step : S -> rel_op -> rel_out * S) (s : S) (os : list rel_op)
    : list rel_out * S :=
  match os with
  | [] => ([], s)
  | o :: os' =>
      let '(x, s1) := step s o in
      let '(xs, s2) := run_ops step s1 os' in (x :: xs, s2)
  end.

Definition op_ok (n : nat) (o : rel_op) : Prop :=
  match o with OpAdd t | OpHas t => tuple_ok n t | _ => True end.

Lemma rel_step_spec r o :
  rel_wf r -> op_ok (row_len r) o ->
  let '(x, r') := rel_step r o in
  rel_wf r' /\ row_len r' = row_len r /\ spec_step (tuples r) o = (x, tuples r').
Proof.
  intros Hw Ho. destruct o as [t|t|b|b]; cbn [rel_step spec_step op_ok] in *.
  - destruct (add r t) as [b r'] eqn:E.
    destruct (add_spec _ _ _ _ Hw Ho E) as (Hw' & _ & Ha & Hb & Ht).
    split_and!; [done|unfold row_len; congruence|].
    destruct (decide (t ∈ tuples r)) as [Hin|Hin]; destruct b; rewrite Ht; try done; exfalso;
      [by apply Hb|by apply Hb in Hin].
  - split_and!; [done|done|]. do 2 f_equal. unfold has.
    pose proof (has_spec _ _ Hw Ho) as Hs. unfold has in Hs.
    rewrite bool_decide_eq_true in Hs. by apply bool_decide_ext.
  - destruct (rel_exists r b) as [x r'] eqn:E.
    destruct (rel_exists_spec _ _ _ _ Hw E) as (Hw' & Hs & Hx).
    pose proof (same_rel_tuples _ _ Hs) as Ht. destruct Hs as (_ & Ha & _).
    split_and!; [done|unfold row_len; congruence|]. rewrite Ht. do 2 f_equal.
    apply eq_bool_prop_intro. rewrite !Is_true_true, Hx, existsb_exists.
    by setoid_rewrite list_elem_of_In.
  - destruct (rel_match r b) as [ts r'] eqn:E.
    destruct (rel_match_spec _ _ _ _ Hw E) as (Hw' & Hs & ->).
    pose proof (same_rel_tuples _ _ Hs) as Ht. destruct Hs as (_ & Ha & _).
    split_and!; [done|unfold row_len; congruence|]. by rewrite Ht.
Qed.

Lemma run_ops_spec os r :
  rel_wf r -> Forall (op_ok (row_len r)) os ->
  let '(xs, r') := run_ops rel_step r os in
  rel_wf r' /\ run_ops spec_step (tuples r) os = (xs, tuples r').
Proof.
  revert r. induction os as [|o os IH]; intros r Hw Hos; [done|].
  apply Forall_cons in Hos as [Ho Hos]. cbn [run_ops].
  pose proof (rel_step_spec r o Hw Ho) as Hstep. destruct (rel_step r o) as [x r1].
  destruct Hstep as (Hw1 & Hn1 & ->). rewrite <- Hn1 in Hos.
  specialize (IH r1 Hw1 Hos). destruct (run_ops rel_step r1 os) as [xs r2].
  destruct IH as [Hw2 ->]. done.
Qed.

(** C9: a relation (packed keys, chunked tuple storage, lazily built and then
    maintained per-column indexes) behaves on every sequence of operations as
    the list of its distinct tuples in insertion order: [add] reports whether
    the tuple was new, membership and pattern lookups see exactly the tuples
    added so far, and [match] returns them in insertion order. *)
Theorem relation_refines_list name (arity : Z) os :
  Forall (op_ok (Z.to_nat arity)) os ->
  let '(xs, r) := run_ops rel_step (newRelation name arity) os in
  run_ops spec_step [] os = (xs, tuples r) /\
  NoDup (tuples r) /\ concat (map cdata (chunks r)) = concat (tuples r).
Proof.
  intros Hos. pose proof (run_ops_spec os _ (newRelation_wf name arity) Hos) as H.
  destruct (run_ops rel_step (newRelation name arity) os) as [xs r].
  destruct H as [Hw H]. split; [exact H|]. split; apply Hw.
Qed.

Definition demo_ops : list rel_op :=
  [OpAdd [1; 2]; OpMatch [None; Some 2]; OpAdd [3; 2]; OpAdd [1; 2]; OpMatch [None; Some 2];
   OpExists [Some 3; Some 1]]%N.

Lemma relation_refines_list_witness :
  fst (run_ops rel_step (newRelation "r" 2) demo_ops)
  = [OutBool true; OutTuples [[1; 2]]; OutBool true; OutBool false;
     OutTuples [[1; 2]; [3; 2]]; OutBool false]%N.
Proof.
  assert (Hok : Forall (op_ok 2) demo_ops) by (repeat constructor).
  pose proof (relation_refines_list "r" 2 demo_ops Hok) as H.
  destruct (run_ops rel_step (newRelation "r" 2) demo_ops) as [xs r].
  destruct H as [H _]. injection H. intros _ <-. reflexivity.
Defined.
