(* ===== verification/DlEngine.v ===== *)
(** The engine's state and its loading operations
    (internal/datalog/engine.go): subgoal keys, memo tables, New, Assert,
    LoadRules, Relations and reset. *)
From S2P Require Import Prelude DlIntern DlSyntax DlLex DlParse DlSafe DlStrata DlRelation.

(** ** Options *)

Record Options : Type := mkOptions {
  DemandDriven : bool;
  MaxTuples : Z;
  MaxRounds : Z;
  OptProvenance : bool
}.

(** Options.withDefaults *)
Definition withDefaults (o : Options) : Options :=
  mkOptions (DemandDriven o)
    (if (MaxTuples o =? 0)%Z then 5000000%Z else MaxTuples o)
    (if (MaxRounds o =? 0)%Z then 200%Z else MaxRounds o)
    (OptProvenance o).

(** ** Subgoal keys *)

Record sgKey : Type := mkSgKey {
  sg_rel : string;
  sg_lo : N;
  sg_hi : N;
  sg_mask : N;
  sg_ext : list N
}.

#[global] Instance sgKey_eq_dec : EqDecision sgKey.
Proof. solve_decision. Defined.

#[global] Program Instance sgKey_countable : Countable sgKey :=
  inj_countable' (fun k => (sg_rel k, sg_lo k, sg_hi k, sg_mask k, sg_ext k))
                 (fun '(a, b, c, d, e) => mkSgKey a b c d e) _.
Next Obligation. by intros []. Qed.

(** One iteration of the loop of Engine.subgoalKey. *)
Definition sg_step (k : sgKey) (i : nat) (b : option N) : sgKey :=
  let id := default 0%N b in
  let bit := fun m => match b with Some _ => N.lor (sg_mask k) m | None => sg_mask k end in
  match i with
  | 0 => mkSgKey (sg_rel k) (N.lor (sg_lo k) (u64 (N.shiftl id 32))) (sg_hi k) (bit 1%N) (sg_ext k)
  | 1 => mkSgKey (sg_rel k) (N.lor (sg_lo k) id) (sg_hi k) (bit 2%N) (sg_ext k)
  | 2 => mkSgKey (sg_rel k) (sg_lo k) (N.lor (sg_hi k) (u64 (N.shiftl id 32))) (bit 4%N) (sg_ext k)
  | 3 => mkSgKey (sg_rel k) (sg_lo k) (N.lor (sg_hi k) id) (bit 8%N) (sg_ext k)
  | _ => mkSgKey (sg_rel k) (sg_lo k) (sg_hi k) (sg_mask k)
           (sg_ext k ++ match b with
                        | Some v => 1%N :: put_uint32 v
                        | None => [0; 0; 0; 0; 0]%N
                        end)
  end.

Fixpoint sg_from (k : sgKey) (i : nat) (b : binds) : sgKey :=
  match b with
  | [] => k
  | x :: b' => sg_from (sg_step k i x) (S i) b'
  end.

(** Engine.subgoalKey *)
Definition subgoalKey (rel : string) (b : binds) : sgKey :=
  sg_from (mkSgKey rel 0 0 0 []) 0 b.

(** The all-free pattern of a relation. *)
Definition free_binds (n : nat) : binds := replicate n None.

(** ** Tables and derivations *)

Inductive tableState : Type := tableDirty | tableProducing | tableComplete.

#[global] Instance tableState_eq_dec : EqDecision tableState.
Proof. solve_decision. Defined.

Record table : Type := mkTable { trel : relation; tstate : tableState }.

Record DerivationStep : Type := mkStep {
  step_Relation : string;
  step_Tuple : Tuple;
  step_Base : bool
}.

Record Derivation : Type := mkDerivation {
  d_Rule : string;
  d_Head : Tuple;
  d_Body : list DerivationStep
}.

(** dgKey: a relation and a packed tuple. *)
Definition dgKey : Type := string * tkey.

Definition groupKey (rel : string) (t : itup) : dgKey := (rel, interner_key t).

(** ** Aggregation state *)

Record aggAcc : Type := mkAggAcc {
  agg_group : itup;
  agg_pos : option nat;
  agg_ival : N;
  agg_have : bool;
  agg_distinct : gset N;
  agg_steps : list DerivationStep
}.

Definition aggRun : Type := gmap tkey aggAcc.

(** ** The engine *)

Record Engine : Type := mkEngine {
  e_opts : Options;
  e_base : gmap string relation;
  e_rules : gmap string (list Rule);
  e_ruleOrder : list Rule;
  e_strata : option (gmap string nat);
  e_syms : interner;
  e_tables : gmap sgKey table;
  e_evalDepth : nat;
  e_grown : N;
  e_aggRel : gset string;
  e_agg : option (gmap tkey aggAcc);
  e_derivs : gmap dgKey (list Derivation);
  e_derivSet : gset (list N);
  e_fastRule : gmap dgKey string;
  e_fastRuleAmbiguous : gset dgKey;
  e_recordProv : bool;
  e_loaded : bool
}.

Definition New (o : Options) : Engine :=
  let o := if negb (DemandDriven o) && (MaxTuples o =? 0)%Z && (MaxRounds o =? 0)%Z
           then mkOptions true (MaxTuples o) (MaxRounds o) (OptProvenance o) else o in
  mkEngine (withDefaults o) ∅ ∅ [] None newInterner ∅ 0 0 ∅ None ∅ ∅ ∅ ∅ (OptProvenance o) false.

(** Field updates. *)
Definition set_base (b : gmap string relation) (e : Engine) : Engine :=
  mkEngine (e_opts e) b (e_rules e) (e_ruleOrder e) (e_strata e) (e_syms e) (e_tables e)
    (e_evalDepth e) (e_grown e) (e_aggRel e) (e_agg e) (e_derivs e) (e_derivSet e)
    (e_fastRule e) (e_fastRuleAmbiguous e) (e_recordProv e) (e_loaded e).
Definition set_syms (s : interner) (e : Engine) : Engine :=
  mkEngine (e_opts e) (e_base e) (e_rules e) (e_ruleOrder e) (e_strata e) s (e_tables e)
    (e_evalDepth e) (e_grown e) (e_aggRel e) (e_agg e) (e_derivs e) (e_derivSet e)
    (e_fastRule e) (e_fastRuleAmbiguous e) (e_recordProv e) (e_loaded e).
Definition set_tables (t : gmap sgKey table) (e : Engine) : Engine :=
  mkEngine (e_opts e) (e_base e) (e_rules e) (e_ruleOrder e) (e_strata e) (e_syms e) t
    (e_evalDepth e) (e_grown e) (e_aggRel e) (e_agg e) (e_derivs e) (e_derivSet e)
    (e_fastRule e) (e_fastRuleAmbiguous e) (e_recordProv e) (e_loaded e).
Definition set_depth (n : nat) (e : Engine) : Engine :=
  mkEngine (e_opts e) (e_base e) (e_rules e) (e_ruleOrder e) (e_strata e) (e_syms e) (e_tables e)
    n (e_grown e) (e_aggRel e) (e_agg e) (e_derivs e) (e_derivSet e)
    (e_fastRule e) (e_fastRuleAmbiguous e) (e_recordProv e) (e_loaded e).
Definition set_grown (n : N) (e : Engine) : Engine :=
  mkEngine (e_opts e) (e_base e) (e_rules e) (e_ruleOrder e) (e_strata e) (e_syms e) (e_tables e)
    (e_evalDepth e) n (e_aggRel e) (e_agg e) (e_derivs e) (e_derivSet e)
    (e_fastRule e) (e_fastRuleAmbiguous e) (e_recordProv e) (e_loaded e).
Definition set_agg (a : option (gmap tkey aggAcc)) (e : Engine) : Engine :=
  mkEngine (e_opts e) (e_base e) (e_rules e) (e_ruleOrder e) (e_strata e) (e_syms e) (e_tables e)
    (e_evalDepth e) (e_grown e) (e_aggRel e) a (e_derivs e) (e_derivSet e)
    (e_fastRule e) (e_fastRuleAmbiguous e) (e_recordProv e) (e_loaded e).
Definition set_derivs (d : gmap dgKey (list Derivation)) (ds : gset (list N)) (e : Engine) : Engine :=
  mkEngine (e_opts e) (e_base e) (e_rules e) (e_ruleOrder e) (e_strata e) (e_syms e) (e_tables e)
    (e_evalDepth e) (e_grown e) (e_aggRel e) (e_agg e) d ds
    (e_fastRule e) (e_fastRuleAmbiguous e) (e_recordProv e) (e_loaded e).
Definition set_fast (f : gmap dgKey string) (a : gset dgKey) (e : Engine) : Engine :=
  mkEngine (e_opts e) (e_base e) (e_rules e) (e_ruleOrder e) (e_strata e) (e_syms e) (e_tables e)
    (e_evalDepth e) (e_grown e) (e_aggRel e) (e_agg e) (e_derivs e) (e_derivSet e)
    f a (e_recordProv e) (e_loaded e).
Definition set_recordProv (b : bool) (e : Engine) : Engine :=
  mkEngine (e_opts e) (e_base e) (e_rules e) (e_ruleOrder e) (e_strata e) (e_syms e) (e_tables e)
    (e_evalDepth e) (e_grown e) (e_aggRel e) (e_agg e) (e_derivs e) (e_derivSet e)
    (e_fastRule e) (e_fastRuleAmbiguous e) b (e_loaded e).
Definition set_program (rs : gmap string (list Rule)) (ord : list Rule) (ar : gset string)
    (st : gmap string nat) (e : Engine) : Engine :=
  mkEngine (e_opts e) (e_base e) rs ord (Some st) (e_syms e) (e_tables e)
    (e_evalDepth e) (e_grown e) ar (e_agg e) (e_derivs e) (e_derivSet e)
    (e_fastRule e) (e_fastRuleAmbiguous e) (e_recordProv e) true.

(** Engine.reset; the cached body plans it clears are recomputed on use. *)
Definition reset (e : Engine) : Engine :=
  set_agg None (set_grown 0 (set_depth 0 (set_tables ∅ e))).

(** ** Assert *)

Definition too_many (e : Engine) (r : relation) : bool :=
  (MaxTuples (e_opts e) <? Z.of_nat (length (tuples r)))%Z.

Definition set_arity (n : Z) (r : relation) : relation :=
  mkRelation (rname r) n (tuples r) (chunks r) (seen r) (idx r).

(** The loop body of Assert: one tuple into the relation [rel]. *)
Definition assert_one (rel : string) (t : Tuple) : ST Engine DlError unit := fun e =>
  let r0 := default (newRelation rel (-1)) (e_base e !! rel) in
  let r := if (rarity r0 <? 0)%Z then set_arity (Z.of_nat (length t)) r0 else r0 in
  if negb (Z.of_nat (length t) =? rarity r)%Z then
    (set_base (<[rel := r]> (e_base e)) e, Err (EAssertArity rel (rarity r) (length t)))
  else
    let '(it, syms) := intern (e_syms e) t in
    let '(isnew, r') := add r it in
    let e' := set_base (<[rel := r']> (e_base e)) (set_syms syms e) in
    if isnew && too_many e r' then (e', Err (EMaxTuples rel)) else (e', Ok tt).

Definition Assert (rel : string) (ts : list Tuple) : ST Engine DlError unit :=
  if str_eqb rel "" then throw EEmptyRelName
  else
    _ ← modify_st (fun e =>
      match e_base e !! rel with
      | Some _ => e
      | None =>
          let n := match ts with t :: _ => Z.of_nat (length t) | [] => (-1)%Z end in
          set_base (<[rel := newRelation rel n]> (e_base e)) e
      end);
    _ ← for_each ts (assert_one rel);
    modify_st reset.

(** ** LoadRules *)

(** Agreement of the arities of every mention, in order. *)
Fixpoint check_arities (known : gmap string nat) (ls : list (nat * Literal))
    : result DlError (gmap string nat) :=
  match ls with
  | [] => Ok known
  | (ln, l) :: ls' =>
      if isBuiltin (Rel l) then check_arities known ls'
      else match known !! Rel l with
        | Some a =>
            if a =? arity l then check_arities (<[Rel l := arity l]> known) ls'
            else Err (EArityDisagree ln (Rel l) (arity l) a)
        | None => check_arities (<[Rel l := arity l]> known) ls'
        end
  end.

(** Head and body literals of a rule with the rule's line. *)
Definition rule_lits (r : Rule) : list (nat * Literal) := map (pair (Line r)) (Head r :: Body r).

Definition base_arities (b : gmap string relation) : gmap string nat :=
  omap (fun r => if (0 <=? rarity r)%Z then Some (row_len r) else None) b.

(** dedupe: adjacent duplicates of a sorted list. *)
Fixpoint dedupe (l : list string) : list string :=
  match l with
  | [] => []
  | x :: l' =>
      match l' with
      | y :: _ => if str_eqb x y then dedupe l' else x :: dedupe l'
      | [] => [x]
      end
  end.

(** The names a rule set reads that are neither asserted nor derived. *)
Definition missing_names (base : gset string) (rules : list Rule) : list string :=
  concat (map (fun r =>
    omap (fun l =>
      if bool_decide (Rel l ∈ head_rels rules) || isBuiltin (Rel l) || bool_decide (Rel l ∈ base)
      then None
      else Some (Rel l +:+ " (in " +:+ RName r +:+ " at " +:+ File r +:+ ":"
                 +:+ format_uint (N.of_nat (Line r)) +:+ ")")) (Body r)) rules).

(** The arity a relation declared empty takes from the rules. *)
Definition backfill (ar : gmap string nat) (b : gmap string relation) : gmap string relation :=
  map_imap (fun rel r =>
    Some (if (rarity r <? 0)%Z then
            match ar !! rel with Some a => set_arity (Z.of_nat a) r | None => r end
          else r)) b.

(** internLit, on one argument list. *)
Fixpoint intern_args (syms : interner) (args : list Term) : interner * list Term :=
  match args with
  | [] => (syms, [])
  | a :: args' =>
      if IsVar a then
        let '(s', rest) := intern_args syms args' in (s', a :: rest)
      else
        let '(v, s1) := interner_id syms (Name a) in
        let '(s', rest) := intern_args s1 args' in
        (s', mkTerm (IsVar a) (Name a) (Var a) v :: rest)
  end.

Definition internLit (syms : interner) (l : Literal) : interner * Literal :=
  let '(s', args) := intern_args syms (Args l) in (s', mkLiteral (Rel l) args (Neg l)).

Fixpoint intern_lits (syms : interner) (ls : list Literal) : interner * list Literal :=
  match ls with
  | [] => (syms, [])
  | l :: ls' =>
      let '(s1, l') := internLit syms l in
      let '(s2, rest) := intern_lits s1 ls' in (s2, l' :: rest)
  end.

Definition intern_rule (syms : interner) (r : Rule) : interner * Rule :=
  let '(s1, h) := internLit syms (Head r) in
  let '(s2, b) := intern_lits s1 (Body r) in
  (s2, mkRule h b (RName r) (File r) (Line r) (NVars r) (Agg r)).

Fixpoint intern_rules (syms : interner) (rs : list Rule) : interner * list Rule :=
  match rs with
  | [] => (syms, [])
  | r :: rs' =>
      let '(s1, r') := intern_rule syms r in
      let '(s2, rest) := intern_rules s1 rs' in (s2, r' :: rest)
  end.

(** The rules of each head, in file order. *)
Definition rules_by_head (rs : list Rule) : gmap string (list Rule) :=
  fold_left (fun m r => <[Rel (Head r) := default [] (m !! Rel (Head r)) ++ [r]]> m) rs ∅.

Definition agg_rels (rs : list Rule) : gset string :=
  list_to_set (omap (fun r => match Agg r with Some _ => Some (Rel (Head r)) | None => None end) rs).

(** The checks LoadRules makes on each new rule. *)
Definition check_rule (r : Rule) : result DlError unit :=
  _ ← checkSafe r;
  ensure (NVars r <=? 64) (ETooManyVars (Line r) (NVars r)).

(** The part of LoadRules that can fail: the whole rule set, its arities and
    its strata. *)
Definition check_program (e : Engine) (rules : list Rule)
    : result DlError (list Rule * gmap string nat * gmap string nat) :=
  _ ← for_result rules check_rule;
  let all := e_ruleOrder e ++ rules in
  ar ← check_arities (base_arities (e_base e)) (concat (map rule_lits all));
  strata ← stratify all;
  match missing_names (dom (e_base e)) all with
  | [] => Ok (all, ar, strata)
  | ms => Err (EMissing (dedupe (sort_strings ms)))
  end.

(** The part of LoadRules after the checks. *)
Definition install_rules (all : list Rule) (ar strata : gmap string nat) (e : Engine) : Engine :=
  let '(syms, all1) := intern_rules (e_syms e) all in
  let all2 := map resolveAggSlots all1 in
  reset (set_program (rules_by_head all2) all2 (agg_rels all2) strata
           (set_syms syms (set_base (backfill ar (e_base e)) e))).

Definition LoadRules (src : list ascii) (name : string) : ST Engine DlError unit := fun e =>
  match (rules ← parseRules src name; check_program e rules) with
  | Ok (all, ar, strata) => (install_rules all ar strata e, Ok tt)
  | Err err => (e, Err err)
  end.

(** ** Relations: every relation the engine knows, sorted by name *)

Definition Relations (e : Engine) : list (string * Z) :=
  let m : gmap string Z :=
    fold_left (fun m r => <[Rel (Head r) := Z.of_nat (arity (Head r))]> m)
              (e_ruleOrder e) (rarity <$> e_base e) in
  omap (fun n => pair n <$> m !! n) (sort_strings (elements (dom m))).

(** ** Properties of subgoal keys *)

(** The symbol and the bound bit of position [i] of a pattern. *)
Definition sg_id (b : binds) (i : nat) : N := default 0%N (mjoin (b !! i)).
Definition sg_bound (b : binds) (i : nat) : bool :=
  match b !! i with Some (Some _) => true | _ => false end.

Definition sg_pack (a b : N) : N := N.lor (u64 (N.shiftl a 32)) b.

Definition sg_mask4 (b0 b1 b2 b3 : bool) : N :=
  let m := if b0 then 1%N else 0%N in
  let m := if b1 then N.lor m 2 else m in
  let m := if b2 then N.lor m 4 else m in
  if b3 then N.lor m 8 else m.

Definition sg_enc (x : option N) : list N :=
  match x with Some v => 1%N :: put_uint32 v | None => [0; 0; 0; 0; 0]%N end.

Lemma sg_from_tail k i b : 4 <= i ->
  sg_from k i b = mkSgKey (sg_rel k) (sg_lo k) (sg_hi k) (sg_mask k)
                    (sg_ext k ++ concat (map sg_enc b)).
Proof.
  revert k i. induction b as [|x b IH]; intros k i Hi; cbn [sg_from map concat].
  - rewrite app_nil_r. by destruct k.
  - do 4 (destruct i as [|i]; [lia|]). cbn [sg_step]. rewrite IH by lia. cbn.
    by rewrite <- app_assoc.
Qed.

Lemma subgoalKey_form rel b :
  subgoalKey rel b =
  mkSgKey rel (sg_pack (sg_id b 0) (sg_id b 1)) (sg_pack (sg_id b 2) (sg_id b 3))
    (sg_mask4 (sg_bound b 0) (sg_bound b 1) (sg_bound b 2) (sg_bound b 3))
    (concat (map sg_enc (drop 4 b))).
Proof.
  unfold subgoalKey, sg_pack.
  destruct b as [|x0 [|x1 [|x2 [|x3 b]]]]; cbn [sg_from]; [done|..];
    [..|rewrite sg_from_tail by lia];
    destruct x0; try destruct x1; try destruct x2; try destruct x3;
    cbn [sg_step sg_rel sg_lo sg_hi sg_mask sg_ext]; cbn [sg_id sg_bound lookup list_lookup mjoin option_join default sg_mask4 drop map concat app];
    try rewrite !N.lor_0_r; try done.
Qed.

Lemma sg_mask4_inj a b c d a' b' c' d' :
  sg_mask4 a b c d = sg_mask4 a' b' c' d' -> a = a' /\ b = b' /\ c = c' /\ d = d'.
Proof. by destruct a, b, c, d, a', b', c', d'; cbn; intros; try discriminate. Qed.

(** Patterns over 32-bit symbols. *)
Definition binds_u32 (b : binds) : Prop := Forall (fun x => forall v, x = Some v -> (v < 2 ^ 32)%N) b.

Lemma binds_u32_id b i : binds_u32 b -> (sg_id b i < 2 ^ 32)%N.
Proof.
  intros Hb. unfold sg_id. destruct (b !! i) as [[v|]|] eqn:E; [|done..].
  exact (proj1 (Forall_lookup _ _) Hb i _ E v eq_refl).
Qed.

Lemma sg_enc_inj b b' : binds_u32 b -> binds_u32 b' ->
  concat (map sg_enc b) = concat (map sg_enc b') -> b = b'.
Proof.
  revert b'. induction b as [|x b IH]; intros [|y b'] H1 H2 He;
    try (by destruct x); try (by destruct y); [done|].
  apply Forall_cons in H1 as [Hx H1], H2 as [Hy H2]. cbn [map concat] in He.
  apply app_inj_1 in He as [Ha Ht]; [|destruct x, y; cbn; reflexivity]. f_equal; [|by apply IH].
  destruct x as [v|], y as [w|]; try discriminate Ha; [|done].
  f_equal. apply put_uint32_inj; [by apply Hx|by apply Hy|exact (f_equal tail Ha)].
Qed.

Lemma sg_pos b b' i : length b = length b' ->
  sg_id b i = sg_id b' i -> sg_bound b i = sg_bound b' i -> b !! i = b' !! i.
Proof.
  intros Hl. unfold sg_id, sg_bound.
  destruct (b !! i) as [x|] eqn:E, (b' !! i) as [y|] eqn:E'; [|..|done].
  - destruct x, y; cbn; congruence.
  - apply lookup_lt_Some in E. apply lookup_ge_None in E'. lia.
  - apply lookup_lt_Some in E'. apply lookup_ge_None in E. lia.
Qed.

(** The key of a subgoal identifies the relation and the call pattern: of
    the patterns of one length, no two over 32-bit symbols share a key, a free
    position never being taken for a bound one (so a memo table is read only by
    the call it was filled for). *)
Theorem subgoalKey_injective rel rel' b b' :
  length b = length b' -> binds_u32 b -> binds_u32 b' ->
  subgoalKey rel b = subgoalKey rel' b' <-> rel = rel' /\ b = b'.
Proof.
  intros Hl Hb Hb'. split; [|by intros [-> ->]].
  rewrite !subgoalKey_form. intros [= -> H01 H23 Hm Hx].
  apply pack_inj in H01 as [H0 H1], H23 as [H2 H3]; [|by apply binds_u32_id..].
  apply sg_mask4_inj in Hm as (M0 & M1 & M2 & M3). split; [done|].
  apply sg_enc_inj in Hx; [|by apply Forall_drop..].
  apply list_eq. intros i. destruct (decide (i < 4)) as [Hi|Hi].
  - do 4 (destruct i as [|i]; [by apply sg_pos|]). lia.
  - apply (f_equal (.!! (i - 4))) in Hx. rewrite !lookup_drop in Hx.
    by replace (4 + (i - 4)) with i in Hx by lia.
Qed.

Lemma subgoalKey_injective_witness :
  subgoalKey "p" [None; Some 0%N] <> subgoalKey "p" [Some 0%N; None].
Proof.
  intros He. apply (subgoalKey_injective "p" "p") in He as [_ He];
    [discriminate He|reflexivity|..]; repeat constructor; intros v [= <-]; reflexivity.
Defined.
