(* ===== verification/DlJoin.v ===== *)
(** Rule evaluation shared by the two evaluation modes: comparison builtins
    (builtin.go), binding frames, recording of tuples and derivations, the
    left-to-right join (solve.go), aggregation (agg.go), and the interface
    [bodySource] in which the modes differ (bottomup.go). *)
From S2P Require Import Prelude DlIntern DlSyntax DlStrata DlRelation DlEngine.

(** ** The evaluation monad: the engine and the state of the body source *)

Definition EM (X A : Type) : Type := ST (Engine * X) DlError A.

Definition getE {X} : EM X Engine := fun s => (s, Ok (fst s)).
Definition modifyE {X} (f : Engine -> Engine) : EM X unit := fun '(e, x) => ((f e, x), Ok tt).
Definition getX {X} : EM X X := fun s => (s, Ok (snd s)).
Definition modifyX {X} (f : X -> X) : EM X unit := fun '(e, x) => ((e, f x), Ok tt).

(** ** Comparison builtins *)

Fixpoint prefix_of (p s : list ascii) : bool :=
  match p, s with
  | [], _ => true
  | _ :: _, [] => false
  | c :: p', d :: s' => Ascii.eqb c d && prefix_of p' s'
  end.

(** strings.HasPrefix(s, p) and strings.Contains(s, sub) *)
Definition strings_HasPrefix (s p : string) : bool := prefix_of (str_bytes p) (str_bytes s).

Fixpoint contains_bytes (s sub : list ascii) : bool :=
  prefix_of sub s || match s with [] => false | _ :: s' => contains_bytes s' sub end.

Definition strings_Contains (s sub : string) : bool :=
  contains_bytes (str_bytes s) (str_bytes sub).

Definition evalBuiltin (rel : string) (a b : N) (in_ : interner) : result DlError bool :=
  if str_eqb rel "ne" then Ok (negb (a =? b)%N)
  else if str_eqb rel "contains" then
    Ok (strings_Contains (interner_sym in_ a) (interner_sym in_ b))
  else if str_eqb rel "prefix" then
    Ok (strings_HasPrefix (interner_sym in_ a) (interner_sym in_ b))
  else match decodeIntSym a, decodeIntSym b with
    | Some x, Some y => Ok (if str_eqb rel "lt" then (x <? y)%N else (x <=? y)%N)
    | _, _ => Err (EBuiltinNonInt rel (interner_sym in_ a) (interner_sym in_ b))
    end.

(** ** Binding frames: slot values and a 64-bit mask of the bound slots *)

Record frame : Type := mkFrame { val : list N; fset : N }.

(** [1 << uint(id)] on uint64 *)
Definition slot_bit (i : nat) : N := u64 (N.shiftl 1 (N.of_nat i)).

Definition frame_get (f : frame) (i : nat) : option N :=
  if (N.land (fset f) (slot_bit i) =? 0)%N then None else Some (nth i (val f) 0%N).

Definition frame_put (f : frame) (i : nat) (v : N) : frame :=
  mkFrame (<[i := v]> (val f)) (N.lor (fset f) (slot_bit i)).

(** [fr.set &^= added] *)
Definition frame_unset (f : frame) (added : N) : frame :=
  mkFrame (val f) (N.ldiff (fset f) added).

(** Engine.termSym *)
Definition termSym (t : Term) (f : frame) : option N :=
  if IsVar t then frame_get f (Var t) else Some (Sym t).

(** ** Body plans *)

(** The materialized relation a bottom-up literal reads: a memo table or the
    asserted facts of a name. *)
Inductive relref : Type := RTable (k : sgKey) | RBase (rel : string).

Record litPlan : Type := mkLitPlan {
  lp_rel : string;
  lp_neg : bool;
  lp_derived : bool;
  lp_base : bool;
  lp_buSrc : option relref
}.

Definition has_rules (e : Engine) (rel : string) : bool :=
  match e_rules e !! rel with Some (_ :: _) => true | _ => false end.

Definition has_base (e : Engine) (rel : string) : bool :=
  match e_base e !! rel with Some _ => true | None => false end.

(** Engine.planBody *)
Definition planBody (e : Engine) (r : Rule) : list litPlan :=
  map (fun l => mkLitPlan (Rel l) (Neg l) (has_rules e (Rel l)) (has_base e (Rel l)) None) (Body r).

(** ** bodySource: what the two evaluation modes supply *)

Record bodySource (X : Type) : Type := mkSource {
  litTuples : nat -> litPlan -> binds -> EM X (list itup);
  negated : litPlan -> binds -> EM X bool
}.
Arguments litTuples {X} _ _ _ _.
Arguments negated {X} _ _ _.

(** ** Recording *)

(** Engine.writeSym and writeSyms: interned symbols as four bytes each. *)
Definition writeSym (in_ : interner) (s : string) : list N * interner :=
  let '(v, in1) := interner_id in_ s in (put_uint32 v, in1).

Fixpoint writeSyms (in_ : interner) (t : Tuple) : list N * interner :=
  match t with
  | [] => ([], in_)
  | s :: t' =>
      let '(b, in1) := writeSym in_ s in
      let '(bs, in2) := writeSyms in1 t' in
      (b ++ bs, in2)
  end.

Fixpoint writeSteps (in_ : interner) (ds : list DerivationStep) : list N * interner :=
  match ds with
  | [] => ([], in_)
  | d :: ds' =>
      let '(b, in1) := writeSyms in_ (step_Relation d :: step_Tuple d) in
      let '(bs, in2) := writeSteps in1 ds' in
      (b ++ bs, in2)
  end.

(** Engine.derivKeyFast *)
Definition derivKeyFast (in_ : interner) (d : Derivation) : list N * interner :=
  let '(b, in1) := writeSyms in_ (d_Rule d :: d_Head d) in
  let '(bs, in2) := writeSteps in1 (d_Body d) in
  (b ++ bs, in2).

(** The derivation half of Engine.record. *)
Definition record_deriv (rel : string) (tup : itup) (d : Derivation) (e : Engine) : Engine :=
  let '(k, syms) := derivKeyFast (e_syms e) d in
  let e1 := set_syms syms e in
  if decide (k ∈ e_derivSet e1) then e1
  else
    let gk := groupKey rel tup in
    set_derivs (<[gk := default [] (e_derivs e1 !! gk) ++ [d]]> (e_derivs e1))
               ({[k]} ∪ e_derivSet e1) e1.

(** The fast-path half of Engine.record. *)
Definition record_fast (rel : string) (tup : itup) (ruleName : string) (e : Engine) : Engine :=
  let gk := groupKey rel tup in
  if decide (gk ∈ e_fastRuleAmbiguous e) then e
  else match e_fastRule e !! gk with
    | Some prev =>
        if negb (str_eqb prev ruleName)
        then set_fast (delete gk (e_fastRule e)) ({[gk]} ∪ e_fastRuleAmbiguous e) e
        else e
    | None => set_fast (<[gk := ruleName]> (e_fastRule e)) (e_fastRuleAmbiguous e) e
    end.

(** Engine.record *)
Definition record {X} (k : sgKey) (tup : itup) (d : option Derivation) (ruleName : string)
    : EM X unit := fun '(e, x) =>
  match e_tables e !! k with
  | None => ((e, x), Err (EPanic "record: no table"))
  | Some t =>
      let '(isnew, rel') := add (trel t) tup in
      let e1 := set_tables (<[k := mkTable rel' (tstate t)]> (e_tables e)) e in
      let e2 := if isnew then set_grown (e_grown e1 + 1) e1 else e1 in
      if isnew && too_many e2 rel' then ((e2, x), Err (EMaxTuples (rname rel')))
      else match d, e_recordProv e2 with
        | Some d, true => ((record_deriv (rname rel') tup d e2, x), Ok tt)
        | _, rec =>
            if negb (str_eqb ruleName "") && negb rec
            then ((record_fast (rname rel') tup ruleName e2, x), Ok tt)
            else ((e2, x), Ok tt)
        end
  end.

(** ** Aggregation *)

(** The head of an aggregate rule with its aggregate slot left zero, and the
    position of that slot. *)
Fixpoint agg_head (r : Rule) (outS : nat) (fr : frame) (k : nat) (ts : list Term)
    (pos : option nat) : result DlError (itup * option nat) :=
  match ts with
  | [] => Ok ([], pos)
  | t :: ts' =>
      if negb (IsVar t) then
        '(h, p) ← agg_head r outS fr (S k) ts' pos; Ok (Sym t :: h, p)
      else if Var t =? outS then
        '(h, p) ← agg_head r outS fr (S k) ts' (Some k); Ok (0%N :: h, p)
      else match frame_get fr (Var t) with
        | Some v => '(h, p) ← agg_head r outS fr (S k) ts' pos; Ok (v :: h, p)
        | None => Err (EAggHeadUnbound (Line r) (Name t))
        end
  end.

(** The fold of one input into its group. *)
Definition agg_fold (r : Rule) (a : AggSpec) (inv : N) (syms : interner) (recordProv : bool)
    (steps : list DerivationStep) (acc : aggAcc) : result DlError aggAcc :=
  if str_eqb (Fn a) "count" then
    Ok (mkAggAcc (agg_group acc) (agg_pos acc) (agg_ival acc) (agg_have acc)
          ({[inv]} ∪ agg_distinct acc) (agg_steps acc))
  else match decodeIntSym inv with
    | None => Err (EAggNonInt (RName r) (interner_sym syms inv))
    | Some n =>
        if negb (agg_have acc) || (str_eqb (Fn a) "min" && (n <? agg_ival acc)%N)
           || (str_eqb (Fn a) "max" && (agg_ival acc <? n)%N)
        then Ok (mkAggAcc (agg_group acc) (agg_pos acc) n true (agg_distinct acc)
                   (if recordProv then steps else agg_steps acc))
        else Ok acc
    end.

(** Engine.aggCollect *)
Definition aggCollect {X} (r : Rule) (a : AggSpec) (fr : frame) (steps : list DerivationStep)
    : EM X unit :=
  '(head, pos) ← lift_result (agg_head r (outSlot a) fr 0 (Args (Head r)) None);
  match frame_get fr (inSlot a) with
  | None => throw (EAggInputUnbound (Line r) (InVar a))
  | Some inv =>
      e ← getE;
      let accs := default ∅ (e_agg e) in
      let key := interner_key head in
      let acc := default (mkAggAcc head pos 0 false ∅ []) (accs !! key) in
      (* the group exists from here on, even when the fold fails *)
      _ ← modifyE (set_agg (Some (<[key := acc]> accs)));
      acc' ← lift_result (agg_fold r a inv (e_syms e) (e_recordProv e) steps acc);
      modifyE (set_agg (Some (<[key := acc']> accs)))
  end.

(** compareTuples *)
Fixpoint compareTuples (a b : Tuple) : comparison :=
  match a, b with
  | [], [] => Eq
  | [], _ :: _ => Lt
  | _ :: _, [] => Gt
  | x :: a', y :: b' =>
      if str_eqb x y then compareTuples a' b'
      else if Stdlib.Strings.String.ltb x y then Lt else Gt
  end.

Definition tuple_le (a b : Tuple) : Prop := compareTuples a b <> Gt.

#[global] Instance tuple_le_dec : RelDecision tuple_le.
Proof. intros a b. unfold tuple_le. solve_decision. Defined.

(** The order of the groups: the revealed group tuples. *)
Definition group_le (in_ : interner) (a b : aggAcc) : Prop :=
  tuple_le (reveal in_ (agg_group a)) (reveal in_ (agg_group b)).

#[global] Instance group_le_dec in_ : RelDecision (group_le in_).
Proof. intros a b. unfold group_le. apply _. Defined.

(** Whether revealing a group indexes past the symbol table: its aggregate
    slot holds symbol 0 whatever the table holds.  The comparison of
    [sort.Slice] reveals every group as soon as there are two. *)
Definition reveal_panics (in_ : interner) (t : itup) : bool :=
  existsb (fun v => bool_decide (sym_checked in_ v = None)) t.

Definition agg_result (a : AggSpec) (acc : aggAcc) : option N :=
  if str_eqb (Fn a) "count" then Some (N.of_nat (size (agg_distinct acc)))
  else if agg_have acc then Some (agg_ival acc) else None.

(** The row a group emits. *)
Definition agg_row (acc : aggAcc) (res : N) : option itup :=
  match agg_pos acc with
  | Some p => Some (<[p := N.lor intSymFlag (u32 res)]> (agg_group acc))
  | None => None
  end.

(** Engine.flushAgg *)
Definition flushAgg {X} (r : Rule) (a : AggSpec) (k : sgKey) : EM X unit :=
  e ← getE;
  let accs := map snd (map_to_list (default ∅ (e_agg e))) in
  if (1 <? length accs) && existsb (fun acc => reveal_panics (e_syms e) (agg_group acc)) accs
  then throw (EPanic "index out of range")
  else
    for_each (merge_sort (group_le (e_syms e)) accs) (fun acc =>
      match agg_result a acc with
      | None => mret tt
      | Some res =>
          match agg_row acc res with
          | None => throw (EPanic "index out of range")
          | Some head =>
              e ← getE;
              record k head
                (if e_recordProv e
                 then Some (mkDerivation (RName r) (reveal (e_syms e) head) (agg_steps acc))
                 else None) (RName r)
          end
      end).

(** ** The join *)

(** The head tuple under a frame. *)
Fixpoint build_head (r : Rule) (fr : frame) (ts : list Term) : result DlError itup :=
  match ts with
  | [] => Ok []
  | t :: ts' =>
      match termSym t fr with
      | Some v => h ← build_head r fr ts'; Ok (v :: h)
      | None => Err (EHeadVarUnbound (Line r) (Name t))
      end
  end.

(** The sub-call pattern of a literal under a frame. *)
Definition sub_pattern (args : list Term) (fr : frame) : binds := map (fun t => termSym t fr) args.

(** Matching one candidate against a literal: whether it matches, the slots
    it bound, and the frame. *)
Fixpoint bind_args (args : list Term) (tup : itup) (fr : frame) (added : N) : bool * N * frame :=
  match args, tup with
  | t :: args', v :: tup' =>
      if negb (IsVar t) then
        if (Sym t =? v)%N then bind_args args' tup' fr added else (false, added, fr)
      else match frame_get fr (Var t) with
        | Some w => if (w =? v)%N then bind_args args' tup' fr added else (false, added, fr)
        | None => bind_args args' tup' (frame_put fr (Var t) v) (N.lor added (slot_bit (Var t)))
        end
  | _, _ => (true, added, fr)
  end.

(** The loop over the candidate tuples of a positive literal: [kont] evaluates
    the rest of the body, and the slots a candidate bound are cleared again. *)
Fixpoint scan {X} (lit : Literal) (rec isBase : bool) (steps : list DerivationStep)
    (kont : frame -> list DerivationStep -> EM X frame) (ts : list itup) (fr : frame) : EM X frame :=
  match ts with
  | [] => mret fr
  | tup :: ts' =>
      let '(ok, added, fr1) := bind_args (Args lit) tup fr 0 in
      fr2 ← (if (ok : bool) then
               e ← getE;
               let next := if rec
                 then steps ++ [mkStep (Rel lit) (reveal (e_syms e) tup) isBase] else steps in
               kont fr1 next
             else mret fr1);
      scan lit rec isBase steps kont ts' (frame_unset fr2 added)
  end.

Section join.
Context {X : Type} (src : bodySource X) (r : Rule) (b : binds) (k : sgKey).

(** The end of the body: fold into a group, or emit the head. *)
Definition join_emit (fr : frame) (steps : list DerivationStep) : EM X unit :=
  match Agg r with
  | Some a => aggCollect r a fr steps
  | None =>
      head ← lift_result (build_head r fr (Args (Head r)));
      if negb (matches head b) then mret tt
      else
        e ← getE;
        record k head
          (if e_recordProv e
           then Some (mkDerivation (RName r) (reveal (e_syms e) head) steps) else None) (RName r)
  end.

(** Engine.join from body position [i]: [body] and [plan] are what is left.
    The frame is threaded through, as the code mutates and restores one. *)
Fixpoint join (i : nat) (body : list Literal) (plan : list litPlan) (fr : frame)
    (steps : list DerivationStep) {struct body} : EM X frame :=
  match body with
  | [] => _ ← join_emit fr steps; mret fr
  | lit :: body' =>
      let plan' := tail plan in
      if isBuiltin (Rel lit) then
        match Args lit with
        | a :: c :: _ =>
            match termSym a fr, termSym c fr with
            | Some va, Some vc =>
                e ← getE;
                pass ← lift_result (evalBuiltin (Rel lit) va vc (e_syms e));
                if negb pass then mret fr else join (S i) body' plan' fr steps
            | _, _ => throw (EOperandUnbound (Line r) (Rel lit))
            end
        | _ => throw (EPanic "index out of range")
        end
      else
        match plan with
        | [] => throw (EPanic "index out of range")
        | lp :: _ =>
            let sub := sub_pattern (Args lit) fr in
            if Neg lit then
              found ← negated src lp sub;
              if (found : bool) then mret fr else join (S i) body' plan' fr steps
            else
              let isBase := negb (lp_derived lp) && lp_base lp in
              e ← getE;
              let rec := e_recordProv e in
              ts ← litTuples src i lp sub;
              scan lit rec isBase steps (fun fr1 next => join (S i) body' plan' fr1 next) ts fr
        end
  end.

End join.

(** The frame a call pattern gives the head, or nothing when the pattern
    cannot match it. *)
Fixpoint init_frame (ts : list Term) (b : binds) (fr : frame) : option frame :=
  match ts, b with
  | t :: ts', v :: b' =>
      match v with
      | None => init_frame ts' b' fr
      | Some v =>
          if negb (IsVar t) then if (Sym t =? v)%N then init_frame ts' b' fr else None
          else match frame_get fr (Var t) with
            | Some w => if (w =? v)%N then init_frame ts' b' fr else None
            | None => init_frame ts' b' (frame_put fr (Var t) v)
            end
      end
  | _, _ => Some fr
  end.

(** Run an action, then restore the aggregate accumulator whatever happened
    ([defer]). *)
Definition with_agg {X} (acc : gmap tkey aggAcc) (m : EM X unit) : EM X unit := fun '(e, x) =>
  let saved := e_agg e in
  match m (set_agg (Some acc) e, x) with
  | ((e', x'), res) => ((set_agg saved e', x'), res)
  end.

(** Engine.evalRule *)
Definition evalRule {X} (src : bodySource X) (r : Rule) (plan : list litPlan) (b : binds)
    (k : sgKey) : EM X unit :=
  match init_frame (Args (Head r)) b (mkFrame (replicate (NVars r) 0%N) 0) with
  | None => mret tt
  | Some fr =>
      match Agg r with
      | Some a =>
          with_agg ∅ (_ ← join src r b k 0 (Body r) plan fr []; flushAgg r a k)
      | None => _ ← join src r b k 0 (Body r) plan fr []; mret tt
      end
  end.
