(* ===== verification/DlSemantics.v ===== *)
(** The declarative meaning of a rule set, independent of how it is evaluated:
    the perfect model of a stratified program, on interned tuples.  This is the
    specification both evaluation modes are proved against. *)
From S2P Require Import Prelude DlIntern DlSyntax DlStrata DlRelation DlEngine DlJoin.

(** An interpretation: which tuples a relation holds. *)
Definition Interp : Type := string -> itup -> Prop.

(** A substitution of symbols for the slots of a rule. *)
Definition subst : Type := nat -> N.

Definition inst (s : subst) (t : Term) : N := if IsVar t then s (Var t) else Sym t.

Definition inst_args (s : subst) (ts : list Term) : itup := map (inst s) ts.

(** A comparison literal holds. *)
Definition builtin_holds (syms : interner) (s : subst) (l : Literal) : Prop :=
  match inst_args s (Args l) with
  | a :: b :: _ => evalBuiltin (Rel l) a b syms = Ok true
  | _ => False
  end.

(** A body literal holds, with positive literals read in [P] and negated ones
    in [M]. *)
Definition lit_holds (syms : interner) (P M : Interp) (s : subst) (l : Literal) : Prop :=
  if isBuiltin (Rel l) then builtin_holds syms s l
  else if Neg l then ~ M (Rel l) (inst_args s (Args l))
  else P (Rel l) (inst_args s (Args l)).

Definition body_holds (syms : interner) (P M : Interp) (s : subst) (body : list Literal) : Prop :=
  Forall (lit_holds syms P M s) body.

(** ** Aggregates *)

(** Two substitutions are in one group of [r] when the head agrees outside
    the aggregate variable. *)
Definition same_group (r : Rule) (a : AggSpec) (s1 s2 : subst) : Prop :=
  forall t, t ∈ Args (Head r) -> IsVar t = true -> Var t <> outSlot a -> s1 (Var t) = s2 (Var t).

(** The aggregate of the inputs of the group of [s]. *)
Definition agg_value (syms : interner) (M : Interp) (r : Rule) (a : AggSpec) (s : subst) (n : N)
    : Prop :=
  let member := fun s' => body_holds syms M M s' (Body r) /\ same_group r a s s' in
  if str_eqb (Fn a) "count" then
    exists vs : gset N, (forall v, v ∈ vs <-> exists s', member s' /\ s' (inSlot a) = v) /\
      n = N.of_nat (size vs)
  else
    (exists s', member s' /\ decodeIntSym (s' (inSlot a)) = Some n) /\
    (forall s', member s' -> exists m, decodeIntSym (s' (inSlot a)) = Some m /\
       if str_eqb (Fn a) "min" then (n <= m)%N else (m <= n)%N).

(** The row of the group of [s]: the head with the aggregate in its slot. *)
Definition agg_tuple (r : Rule) (a : AggSpec) (s : subst) (n : N) : itup :=
  map (fun t => if IsVar t && (Var t =? outSlot a) then N.lor intSymFlag (u32 n) else inst s t)
      (Args (Head r)).

(** ** Least models *)

Section model.
Context (syms : interner) (rules : list Rule) (base : Interp) (st : string -> nat).

(** What the rules of stratum at most [n] derive, negation and aggregation
    read in [M]. *)
Inductive lfp (n : nat) (M : Interp) : string -> itup -> Prop :=
| lfp_base rel t : base rel t -> lfp n M rel t
| lfp_rule r s :
    r ∈ rules -> Agg r = None -> st (Rel (Head r)) <= n ->
    (forall l, l ∈ Body r -> isBuiltin (Rel l) = false -> Neg l = false ->
       lfp n M (Rel l) (inst_args s (Args l))) ->
    (forall l, l ∈ Body r -> isBuiltin (Rel l) = false -> Neg l = true ->
       ~ M (Rel l) (inst_args s (Args l))) ->
    (forall l, l ∈ Body r -> isBuiltin (Rel l) = true -> builtin_holds syms s l) ->
    lfp n M (Rel (Head r)) (inst_args s (Args (Head r)))
| lfp_agg r a s v :
    r ∈ rules -> Agg r = Some a -> st (Rel (Head r)) <= n ->
    body_holds syms M M s (Body r) -> agg_value syms M r a s v ->
    lfp n M (Rel (Head r)) (agg_tuple r a s v).

(** The model of the strata up to [n]. *)
Fixpoint upto (n : nat) : Interp :=
  match n with
  | O => lfp 0 base
  | S m => lfp (S m) (upto m)
  end.

(** The perfect model: every relation read at its own stratum. *)
Definition perfect : Interp := fun rel t => upto (st rel) rel t.

End model.


(** ** Facts about the model *)

Lemma body_holds_ext syms (P1 P2 M1 M2 : Interp) s body :
  (forall l t, l ∈ body -> isBuiltin (Rel l) = false ->
     (if Neg l then M1 (Rel l) t <-> M2 (Rel l) t else P1 (Rel l) t <-> P2 (Rel l) t)) ->
  body_holds syms P1 M1 s body <-> body_holds syms P2 M2 s body.
Proof.
  intros H. unfold body_holds. rewrite !Forall_forall.
  apply forall_proper. intros l. split; intros Hx Hl; specialize (Hx Hl); unfold lit_holds in *;
    destruct (isBuiltin (Rel l)) eqn:Hb; try done;
    specialize (H l (inst_args s (Args l)) Hl Hb); destruct (Neg l); tauto.
Qed.

Lemma agg_value_ext syms (M1 M2 : Interp) r a s n :
  (forall l t, l ∈ Body r -> isBuiltin (Rel l) = false -> M1 (Rel l) t <-> M2 (Rel l) t) ->
  agg_value syms M1 r a s n -> agg_value syms M2 r a s n.
Proof.
  intros H. unfold agg_value.
  assert (Hb : forall s', body_holds syms M1 M1 s' (Body r) <-> body_holds syms M2 M2 s' (Body r)).
  { intros s'. apply body_holds_ext. intros l t Hl Hb. destruct (Neg l); by apply H. }
  destruct (str_eqb (Fn a) "count").
  - intros (vs & Hvs & ->). exists vs. split; [|done]. intros v. rewrite Hvs.
    by setoid_rewrite Hb.
  - intros [(s0 & [H0 G0] & D0) Hall]. split; [exists s0; by rewrite <- Hb|].
    intros s' [Hs' G']. apply Hall. by rewrite Hb.
Qed.

(** The aggregate of a group is unique. *)
Lemma agg_value_fun syms M r a s n m :
  agg_value syms M r a s n -> agg_value syms M r a s m -> n = m.
Proof.
  unfold agg_value. destruct (str_eqb (Fn a) "count").
  - intros (vs & Hvs & ->) (ws & Hws & ->). f_equal. f_equal. apply set_eq. intros v.
    by rewrite Hvs, Hws.
  - intros [(s1 & M1 & D1) A1] [(s2 & M2 & D2) A2].
    destruct (A1 s2 M2) as (x & Hx & Hnx), (A2 s1 M1) as (y & Hy & Hmy).
    rewrite D2 in Hx. rewrite D1 in Hy. simplify_eq. destruct (str_eqb (Fn a) "min"); lia.
Qed.

(** The model depends on the facts only. *)
Lemma lfp_base_ext syms rules (b1 b2 M1 M2 : Interp) st n :
  (forall rel t, b1 rel t <-> b2 rel t) -> (forall rel t, M1 rel t <-> M2 rel t) ->
  forall rel t, lfp syms rules b1 st n M1 rel t -> lfp syms rules b2 st n M2 rel t.
Proof.
  intros Hb HM rel t H.
  induction H as [rel t H|r s Hr Ha Hn Hpos IH Hneg Hbi|r a s v Hr Ha Hn Hbody Hval].
  - by apply lfp_base, Hb.
  - apply lfp_rule; try done. intros l Hl Hbl Hneg'. rewrite <- HM. by apply Hneg.
  - apply (lfp_agg _ _ _ _ _ _ r a s v); try done.
    + eapply body_holds_ext; [|exact Hbody]. intros l t _ _. destruct (Neg l); by rewrite HM.
    + eapply agg_value_ext; [|exact Hval]. auto.
Qed.

Lemma perfect_base_ext syms rules (b1 b2 : Interp) st :
  (forall rel t, b1 rel t <-> b2 rel t) ->
  forall rel t, perfect syms rules b1 st rel t <-> perfect syms rules b2 st rel t.
Proof.
  intros Hb. assert (Hu : forall n rel t, upto syms rules b1 st n rel t <-> upto syms rules b2 st n rel t).
  { induction n as [|n IH]; intros rel t; cbn [upto]; split; apply lfp_base_ext; auto.
    - intros; by rewrite Hb.
    - intros; by rewrite Hb.
    - intros; by rewrite Hb.
    - intros; by rewrite IH. }
  intros rel t. apply Hu.
Qed.

Section facts.
Context (syms : interner) (rules : list Rule) (base : Interp) (st : string -> nat).
Hypothesis Hst : is_stratification rules st.

Local Notation LFP := (lfp syms rules base st).
Local Notation UPTO := (upto syms rules base st).
Local Notation PERF := (perfect syms rules base st).
Local Notation heads := (head_rels rules).

(** What level [n] reads under negation. *)
Definition below (n : nat) : Interp := match n with O => base | S m => UPTO m end.

Lemma upto_lfp n : UPTO n = LFP n (below n).
Proof. by destruct n. Qed.

Lemma head_in r : r ∈ rules -> Rel (Head r) ∈ heads.
Proof. intros. apply elem_of_head_rels. eauto. Qed.

Lemma lfp_not_head n M rel t : rel ∉ heads -> LFP n M rel t <-> base rel t.
Proof.
  intros Hh. split; [|apply lfp_base].
  inversion 1; subst; [done| |]; exfalso; apply Hh; by apply head_in.
Qed.

Lemma upto_not_head n rel t : rel ∉ heads -> UPTO n rel t <-> base rel t.
Proof. intros. rewrite upto_lfp. by apply lfp_not_head. Qed.

Lemma below_not_head n rel t : rel ∉ heads -> below n rel t <-> base rel t.
Proof. intros. destruct n; [done|]. by apply upto_not_head. Qed.

(** Relations at most at level [k], or not derived at all. *)
Definition low (k : nat) (rel : string) : Prop := rel ∉ heads \/ st rel <= k.

Lemma low_body r l k : r ∈ rules -> l ∈ Body r -> st (Rel (Head r)) <= k -> low k (Rel l).
Proof.
  intros Hr Hl Hk. destruct (decide (Rel l ∈ heads)) as [Hh|Hh]; [right|by left].
  specialize (Hst r l Hr Hl Hh). lia.
Qed.

(** Negated and aggregated literals are strictly below. *)
Lemma low_strict r l k : r ∈ rules -> l ∈ Body r -> st (Rel (Head r)) <= k ->
  Neg l = true \/ is_Some (Agg r) -> Rel l ∉ heads \/ st (Rel l) < k.
Proof.
  intros Hr Hl Hk Hs. destruct (decide (Rel l ∈ heads)) as [Hh|Hh]; [right|by left].
  specialize (Hst r l Hr Hl Hh).
  replace (Neg l || bool_decide (is_Some (Agg r))) with true in Hst; [lia|].
  symmetry. apply orb_true_iff. destruct Hs; [by left|right]. by apply bool_decide_eq_true.
Qed.

Lemma lfp_transfer k n1 n2 (M1 M2 : Interp) :
  k <= n2 ->
  (forall rel t, rel ∉ heads \/ st rel < k -> M1 rel t <-> M2 rel t) ->
  forall rel t, LFP n1 M1 rel t -> low k rel -> LFP n2 M2 rel t.
Proof.
  intros Hk HM rel t H.
  induction H as [rel t Hb|r s Hr Hagg Hle Hpos IH Hneg Hbi|r a s v Hr Hagg Hle Hbody Hval];
    intros Hlow.
  - by apply lfp_base.
  - destruct Hlow as [Hn|Hlow]; [by apply head_in in Hr|].
    apply lfp_rule; try done.
    + lia.
    + intros l Hl Hb Hn. apply IH; [done..|]. by eapply low_body.
    + intros l Hl Hb Hn. rewrite <- HM; [by apply Hneg|]. eapply low_strict; eauto.
  - destruct Hlow as [Hn|Hlow]; [by apply head_in in Hr|].
    assert (HM' : forall l t, l ∈ Body r -> M1 (Rel l) t <-> M2 (Rel l) t).
    { intros l t Hl. apply HM. eapply low_strict; eauto. }
    eapply lfp_agg; try done; [lia| |].
    + eapply body_holds_ext; [|exact Hbody]. intros l t Hl _. destruct (Neg l); symmetry; by apply HM'.
    + eapply agg_value_ext; [|exact Hval]. auto.
Qed.

(** All levels from a relation's own on agree on it. *)
Lemma upto_agree k n1 n2 rel t :
  k <= n1 -> k <= n2 -> low k rel -> UPTO n1 rel t -> UPTO n2 rel t.
Proof.
  revert n1 n2 rel t. induction k as [k IH] using lt_wf_ind. intros n1 n2 rel t H1 H2 Hlow.
  rewrite !upto_lfp. intros H. eapply (lfp_transfer k n1 n2); [done| |exact H|done].
  intros rel' t' [Hh|Hlt]; [by rewrite !below_not_head|].
  destruct n1 as [|n1]; [lia|]. destruct n2 as [|n2]; [lia|]. cbn [below].
  split; apply (IH (st rel')); try lia; right; lia.
Qed.

Lemma perfect_upto n rel t : low n rel -> PERF rel t <-> UPTO n rel t.
Proof.
  unfold perfect. intros [Hh|Hle]; [by rewrite !upto_not_head|].
  split; apply (upto_agree (st rel)); try lia; right; lia.
Qed.

Lemma perfect_not_head rel t : rel ∉ heads -> PERF rel t <-> base rel t.
Proof. apply upto_not_head. Qed.

Lemma perfect_base rel t : base rel t -> PERF rel t.
Proof. intros. unfold perfect. rewrite upto_lfp. by apply lfp_base. Qed.

Lemma perfect_below n rel t :
  rel ∉ heads \/ st rel < n -> PERF rel t <-> below n rel t.
Proof.
  intros [Hh|Hlt]; [rewrite below_not_head by done; by apply perfect_not_head|].
  destruct n as [|n]; [lia|]. apply perfect_upto. right. lia.
Qed.

(** The perfect model is closed under the rules. *)
Lemma perfect_rule r s :
  r ∈ rules -> Agg r = None -> body_holds syms PERF PERF s (Body r) ->
  PERF (Rel (Head r)) (inst_args s (Args (Head r))).
Proof.
  intros Hr Ha Hbody. unfold perfect. rewrite upto_lfp.
  unfold body_holds in Hbody. rewrite Forall_forall in Hbody.
  apply lfp_rule; [done|done|done|..]; intros l Hl Hb; [intros Hn..|];
    specialize (Hbody l Hl); unfold lit_holds in Hbody; rewrite Hb, ?Hn in Hbody; [| |done].
  - rewrite <- upto_lfp. apply perfect_upto; [by eapply low_body|done].
  - intros H. apply Hbody. eapply perfect_below; [|exact H]. eapply low_strict; eauto.
Qed.

Lemma perfect_agg r a s v :
  r ∈ rules -> Agg r = Some a -> body_holds syms PERF PERF s (Body r) ->
  agg_value syms PERF r a s v -> PERF (Rel (Head r)) (agg_tuple r a s v).
Proof.
  intros Hr Ha Hbody Hval. unfold perfect at 1. rewrite upto_lfp.
  assert (HM : forall l t, l ∈ Body r -> PERF (Rel l) t <-> below (st (Rel (Head r))) (Rel l) t).
  { intros l t Hl. apply perfect_below. eapply low_strict; eauto. }
  eapply lfp_agg; [done|done|done|..].
  - eapply body_holds_ext; [|exact Hbody]. intros l t Hl _. destruct (Neg l); symmetry; by apply HM.
  - eapply agg_value_ext; [|exact Hval]. auto.
Qed.

(** Minimality, one set of relations at a time: an interpretation [Q] of the
    relations of [C] that contains the facts and is closed under the rules,
    everything else being read in the perfect model, contains the perfect
    model of [C]. *)
Lemma perfect_least (C : string -> Prop) (Q : Interp) :
  (forall rel, C rel \/ ~ C rel) ->
  (forall rel t, C rel -> base rel t -> Q rel t) ->
  (forall r s, r ∈ rules -> Agg r = None -> C (Rel (Head r)) ->
     body_holds syms (fun rel t => PERF rel t /\ (C rel -> Q rel t)) PERF s (Body r) ->
     Q (Rel (Head r)) (inst_args s (Args (Head r)))) ->
  (forall r a s v, r ∈ rules -> Agg r = Some a -> C (Rel (Head r)) ->
     body_holds syms PERF PERF s (Body r) -> agg_value syms PERF r a s v ->
     Q (Rel (Head r)) (agg_tuple r a s v)) ->
  forall rel t, C rel -> PERF rel t -> Q rel t.
Proof.
  intros HC Hbase Hrule Hagg.
  assert (H : forall n rel t, LFP n (below n) rel t -> low n rel -> C rel -> Q rel t).
  { intros n rel t H.
    induction H as [rel t Hb|r s Hr Ha Hle Hpos IH Hneg Hbi|r a s v Hr Ha Hle Hbody Hval];
      intros Hlow Hc; [by apply Hbase| |].
    - apply Hrule; [done..|]. apply Forall_forall. intros l Hl. unfold lit_holds.
      destruct (isBuiltin (Rel l)) eqn:Hb; [by apply Hbi|].
      assert (Hll : low n (Rel l)) by by eapply low_body.
      destruct (Neg l) eqn:Hn.
      + intros Hp. apply (Hneg l Hl Hb Hn). eapply perfect_below; [|exact Hp].
        eapply low_strict; eauto.
      + split; [|by apply IH]. apply (perfect_upto n); [done|]. rewrite upto_lfp. by apply Hpos.
    - assert (HM : forall l t, l ∈ Body r -> PERF (Rel l) t <-> below n (Rel l) t).
      { intros l t Hl. apply perfect_below. eapply low_strict; eauto. }
      eapply Hagg; [done..| |].
      + eapply body_holds_ext; [|exact Hbody]. intros l t Hl _. destruct (Neg l); by apply HM.
      + eapply agg_value_ext; [|exact Hval]. intros. symmetry. by apply HM. }
  intros rel t Hc Hp. unfold perfect in Hp. rewrite upto_lfp in Hp.
  eapply H; [exact Hp|by right|done].
Qed.

End facts.


(** The perfect model does not depend on the stratification. *)
Section strat.
Context (syms : interner) (rules : list Rule) (base : Interp).

Local Notation PERF := (perfect syms rules base).

(** One inclusion, given agreement on the strata of [st0] below [n]. *)
Lemma perfect_incl st0 st1 st2 n :
  is_stratification rules st0 -> is_stratification rules st1 -> is_stratification rules st2 ->
  (forall rel t, st0 rel < n -> PERF st1 rel t <-> PERF st2 rel t) ->
  forall rel t, st0 rel <= n -> PERF st1 rel t -> PERF st2 rel t.
Proof.
  intros H0 H1 H2 IH.
  assert (Hlow : forall rel t, rel ∉ head_rels rules \/ st0 rel < n ->
    PERF st1 rel t <-> PERF st2 rel t).
  { intros rel t [Hh|Hlt]; [by rewrite !perfect_not_head|by apply IH]. }
  apply (perfect_least syms rules base st1 H1 (fun rel => st0 rel <= n) (PERF st2)).
  - intros rel. destruct (decide (st0 rel <= n)); [by left|by right].
  - intros rel t _. apply perfect_base.
  - intros r s Hr Ha Hc Hbody. apply perfect_rule; [done..|].
    unfold body_holds in *. rewrite Forall_forall in *. intros l Hl. specialize (Hbody l Hl).
    unfold lit_holds in *. destruct (isBuiltin (Rel l)); [done|]. destruct (Neg l) eqn:Hn.
    + rewrite <- Hlow; [done|]. eapply (low_strict rules st0); eauto.
    + destruct Hbody as [Hp Hq]. destruct (decide (Rel l ∈ head_rels rules)) as [Hh|Hh].
      * apply Hq. destruct (low_body rules st0 H0 r l n Hr Hl Hc); [done|lia].
      * rewrite <- Hlow; [done|by left].
  - intros r a s v Hr Ha Hc Hbody Hval.
    assert (HM : forall l t, l ∈ Body r -> PERF st1 (Rel l) t <-> PERF st2 (Rel l) t).
    { intros l t Hl. apply Hlow. eapply (low_strict rules st0); eauto. }
    eapply perfect_agg; [done..| |].
    + eapply body_holds_ext; [|exact Hbody]. intros l t Hl _. destruct (Neg l); symmetry; by apply HM.
    + eapply agg_value_ext; [|exact Hval]. auto.
Qed.

Lemma perfect_strat_indep st1 st2 :
  is_stratification rules st1 -> is_stratification rules st2 ->
  forall rel t, PERF st1 rel t <-> PERF st2 rel t.
Proof.
  intros H1 H2.
  enough (H : forall n rel t, st1 rel <= n -> PERF st1 rel t <-> PERF st2 rel t)
    by (intros rel t; by apply (H (st1 rel))).
  intros n. induction n as [n IH] using lt_wf_ind. intros rel t Hn.
  assert (Hlt : forall rel t, st1 rel < n -> PERF st1 rel t <-> PERF st2 rel t).
  { intros rel' t' Hl. by apply (IH (st1 rel')). }
  split; eapply (perfect_incl st1); try done. intros. symmetry. by apply Hlt.
Qed.

End strat.

(** The meaning of a program does not depend on the strata it is given:
    the perfect model over the strata [stratify] computes is the one over any
    other stratification. *)
Theorem model_independent_of_strata syms rules base strata s rel t :
  stratify rules = Ok strata -> is_stratification rules s ->
  perfect syms rules base (stratum strata) rel t <-> perfect syms rules base s rel t.
Proof. intros H Hs. apply perfect_strat_indep; [by apply stratify_sound_aux|done]. Qed.

Lemma model_independent_of_strata_witness :
  exists strata, stratify demo_rules = Ok strata /\ forall t,
    (perfect newInterner demo_rules (fun _ _ => False) (stratum strata) "a" t <->
     perfect newInterner demo_rules (fun _ _ => False) (fun rel => 5 + stratum strata rel) "a" t).
Proof.
  destruct (stratify demo_rules) as [strata|e] eqn:E; [|vm_compute in E; discriminate E].
  exists strata. split; [reflexivity|]. intros t. apply (model_independent_of_strata _ _ _ _ _ _ _ E).
  intros r l Hr Hl Hh. pose proof (stratify_sound_aux _ _ E r l Hr Hl Hh). cbn. lia.
Defined.
