(* ===== verification/DlJoinSpec.v ===== *)
(** What the join computes, whatever supplies the tuples.  The body source is
    seen through the interface [SourceOk]: an invariant of the state, a
    preorder along which states grow, and what the source answers for each
    body position.  Against it, [join] is proved to process every substitution
    that satisfies the body, to process no other, and to restore its frame. *)
From S2P Require Import Prelude DlIntern DlSyntax DlSafe DlStrata DlRelation DlEngine DlJoin.
From S2P Require Import DlSemantics.

(** ** The evaluation monad *)

Section em.
Context {X : Type} (bad : DlError -> Prop).
Implicit Types s : Engine * X.

Lemma wp_getE (Q : Engine -> Engine * X -> Prop) s : Q (fst s) s -> wp bad getE Q s.
Proof. done. Qed.

Lemma wp_getX (Q : X -> Engine * X -> Prop) s : Q (snd s) s -> wp bad getX Q s.
Proof. done. Qed.

Lemma wp_modifyE f (Q : unit -> Engine * X -> Prop) s :
  Q tt (f (fst s), snd s) -> wp bad (modifyE f) Q s.
Proof. by destruct s. Qed.

Lemma wp_modifyX f (Q : unit -> Engine * X -> Prop) s :
  Q tt (fst s, f (snd s)) -> wp bad (modifyX f) Q s.
Proof. by destruct s. Qed.

End em.

(** ** Frames as partial maps *)

Lemma slot_bit_testbit i j : i < 64 -> N.testbit (slot_bit i) (N.of_nat j) = bool_decide (i = j).
Proof.
  intros Hi. unfold slot_bit. rewrite N.shiftl_1_l, u64_small.
  - rewrite N.pow2_bits_eqb. destruct (decide (i = j)) as [->|Hne].
    + rewrite bool_decide_true by done. apply N.eqb_refl.
    + rewrite bool_decide_false by done. apply N.eqb_neq. lia.
  - apply N.pow_lt_mono_r; lia.
Qed.

Lemma land_slot_bit m i : i < 64 ->
  (N.land m (slot_bit i) =? 0)%N = negb (N.testbit m (N.of_nat i)).
Proof.
  intros Hi. destruct (N.testbit m (N.of_nat i)) eqn:E; cbn.
  - apply N.eqb_neq. intros H. apply (f_equal (fun x => N.testbit x (N.of_nat i))) in H.
    rewrite N.land_spec, E, N.bits_0, slot_bit_testbit in H by done.
    by rewrite bool_decide_true in H.
  - apply N.eqb_eq. apply N.bits_inj_iff. intros j. rewrite N.land_spec, N.bits_0.
    rewrite <- (N2Nat.id j), slot_bit_testbit by done.
    case_bool_decide as Hij; [|apply andb_false_r]. rewrite <- Hij. by rewrite E.
Qed.

Lemma frame_get_alt f i : i < 64 ->
  frame_get f i = if N.testbit (fset f) (N.of_nat i) then Some (nth i (val f) 0%N) else None.
Proof.
  intros Hi. unfold frame_get. rewrite land_slot_bit by done. by destruct (N.testbit _ _).
Qed.

Lemma frame_get_put f i v j : i < 64 -> j < 64 -> i < length (val f) ->
  frame_get (frame_put f i v) j = if decide (i = j) then Some v else frame_get f j.
Proof.
  intros Hi Hj Hl. rewrite !frame_get_alt by done. cbn [frame_put fset val].
  rewrite N.lor_spec, slot_bit_testbit by done. destruct (decide (i = j)) as [->|Hne].
  - rewrite bool_decide_true, orb_true_r by done. f_equal.
    apply nth_lookup_Some. rewrite list_lookup_insert. by case_decide; [|tauto].
  - rewrite bool_decide_false, orb_false_r by done. destruct (N.testbit _ _); [|done]. f_equal.
    rewrite !nth_lookup, list_lookup_insert_ne; done.
Qed.

Lemma frame_get_unset f m j : j < 64 ->
  frame_get (frame_unset f m) j = if N.testbit m (N.of_nat j) then None else frame_get f j.
Proof.
  intros Hj. rewrite !frame_get_alt by done. cbn [frame_unset fset val].
  rewrite N.ldiff_spec. by destruct (N.testbit m _), (N.testbit (fset f) _).
Qed.

(** A substitution agrees with the bound slots of a frame. *)
Definition agrees (f : frame) (s : subst) : Prop :=
  forall i v, i < 64 -> frame_get f i = Some v -> s i = v.

Definition bound (f : frame) (i : nat) : Prop := is_Some (frame_get f i).

(** Frames with the same bindings. *)
Definition fr_eq (f g : frame) : Prop :=
  length (val f) = length (val g) /\ forall i, i < 64 -> frame_get f i = frame_get g i.

#[global] Instance fr_eq_equiv : Equivalence fr_eq.
Proof.
  split; [by split|by intros f g [H1 H2]; split; [|intros; symmetry; auto]|].
  intros f g h [L1 H1] [L2 H2]. split; [congruence|]. intros i Hi. by rewrite H1, H2.
Qed.

#[global] Instance agrees_proper : Proper (fr_eq ==> eq ==> iff) agrees.
Proof. intros f g [_ H] s ? <-. unfold agrees. split; intros Ha i v Hi Hg; apply Ha; try done; by rewrite H || rewrite <- H. Qed.

Definition frame_subst (f : frame) : subst := fun i => default 0%N (frame_get f i).

Lemma agrees_frame_subst f : agrees f (frame_subst f).
Proof. intros i v _ H. unfold frame_subst. by rewrite H. Qed.

(** A frame has a slot for every variable of the rule. *)
Definition frame_ok (n : nat) (f : frame) : Prop := length (val f) = n /\ n <= 64.

Lemma fr_eq_ok n f g : fr_eq f g -> frame_ok n f -> frame_ok n g.
Proof. intros [Hl _] [H1 H2]. split; [congruence|done]. Qed.

Definition slots_ok (n : nat) (ts : list Term) : Prop :=
  forall t, t ∈ ts -> IsVar t = true -> Var t < n.

Lemma termSym_agrees n t f s v :
  frame_ok n f -> (IsVar t = true -> Var t < n) -> agrees f s -> termSym t f = Some v ->
  inst s t = v.
Proof.
  intros [_ Hn] Ht Ha. unfold termSym, inst. destruct (IsVar t); [|congruence].
  intros Hg. apply Ha; [|done]. specialize (Ht eq_refl). lia.
Qed.

(** ** Binding the arguments of a literal *)

(** How binding changes the frame and the mask of added slots. *)
Definition bind_step (a a' : N) (f f' : frame) : Prop :=
  length (val f') = length (val f) /\
  forall i, i < 64 ->
    (N.testbit a' (N.of_nat i) = N.testbit a (N.of_nat i) /\ frame_get f' i = frame_get f i) \/
    (frame_get f i = None /\ N.testbit a' (N.of_nat i) = true /\ bound f' i).

Lemma bind_step_refl a f : bind_step a a f f.
Proof. split; [done|]. intros. by left. Qed.

Lemma bind_step_trans a1 a2 a3 f1 f2 f3 :
  bind_step a1 a2 f1 f2 -> bind_step a2 a3 f2 f3 -> bind_step a1 a3 f1 f3.
Proof.
  intros [L1 H1] [L2 H2]. split; [congruence|]. intros i Hi.
  destruct (H1 i Hi) as [[A1 G1]|(G1 & A1 & B1)], (H2 i Hi) as [[A2 G2]|(G2 & A2 & B2)].
  - left. split; congruence.
  - right. split_and!; [congruence|done|done].
  - right. split_and!; [done|congruence|]. unfold bound. by rewrite G2.
  - destruct B1 as [v Hv]. congruence.
Qed.

Lemma bind_step_put a f i v : i < 64 -> i < length (val f) -> frame_get f i = None ->
  bind_step a (N.lor a (slot_bit i)) f (frame_put f i v).
Proof.
  intros Hi Hl Hg. split; [apply length_insert|]. intros j Hj.
  unfold bound. rewrite !frame_get_put by done. rewrite N.lor_spec, slot_bit_testbit by done.
  destruct (decide (i = j)) as [->|Hne].
  - right. rewrite bool_decide_true by done. split_and!; [done|apply orb_true_r|done].
  - left. rewrite bool_decide_false by done. by rewrite orb_false_r.
Qed.

(** Clearing the added slots restores the frame. *)
Lemma bind_step_unset a f f1 f2 :
  bind_step 0 a f f1 -> fr_eq f1 f2 -> fr_eq (frame_unset f2 a) f.
Proof.
  intros [L H] [L2 H2]. split; [cbn; congruence|]. intros i Hi. rewrite frame_get_unset by done.
  destruct (H i Hi) as [[-> G]|(G & -> & _)]; [|done]. rewrite N.bits_0. rewrite <- H2; done.
Qed.

Lemma bind_step_bound a a' f f' i : i < 64 -> bind_step a a' f f' -> bound f i -> bound f' i.
Proof.
  intros Hi [_ H] Hb. destruct (H i Hi) as [[_ G]|(_ & _ & Hb')]; [|done].
  unfold bound. by rewrite G.
Qed.

Lemma agrees_put n f i v s : frame_ok n f -> i < n -> frame_get f i = None ->
  agrees (frame_put f i v) s <-> agrees f s /\ s i = v.
Proof.
  intros [Hl Hn] Hi Hg. unfold agrees. split.
  - intros Ha. split.
    + intros j w Hj Hw. apply Ha; [done|]. rewrite frame_get_put by lia.
      case_decide; [congruence|done].
    + apply Ha; [lia|]. rewrite frame_get_put by lia. by case_decide.
  - intros [Ha Hx] j w Hj. rewrite frame_get_put by lia. case_decide as Hc; [|by apply Ha].
    subst. congruence.
Qed.

Definition bind_post (args : list Term) (tup : itup) (f f' : frame) (a a' : N) (ok : bool) : Prop :=
  bind_step a a' f f' /\
  (ok = true -> (forall s, agrees f' s <-> agrees f s /\ inst_args s args = tup) /\
     forall t, t ∈ args -> IsVar t = true -> bound f' (Var t)) /\
  (ok = false -> forall s, agrees f s -> inst_args s args <> tup).

(** One argument, then the others. *)
Lemma bind_post_cons t v args tup f f1 f' a a1 a' ok :
  bind_step a a1 f f1 ->
  (forall s, agrees f1 s <-> agrees f s /\ inst s t = v) ->
  (IsVar t = true -> Var t < 64 /\ bound f1 (Var t)) ->
  bind_post args tup f1 f' a1 a' ok -> bind_post (t :: args) (v :: tup) f f' a a' ok.
Proof.
  intros Hs1 Hagr Hbt (Hb & Hok & Hno). unfold inst_args. split_and!.
  - by eapply bind_step_trans.
  - intros Ht. destruct (Hok Ht) as [Ha Hbd]. split.
    + intros s. rewrite Ha, Hagr. cbn [inst_args map]. split.
      * intros [[H1 H2] H3]. split; [done|by f_equal].
      * intros [H1 [= H2 H3]]. done.
    + intros t' [->|Ht']%elem_of_cons Hv; [|by apply Hbd].
      destruct (Hbt Hv) as [H64 Hbnd]. by eapply bind_step_bound.
  - intros Hf s Ha [= H1 H2]. by apply (Hno Hf s); [apply Hagr|].
Qed.

Lemma bind_post_fail t v args tup f a :
  (forall s, agrees f s -> inst s t <> v) -> bind_post (t :: args) (v :: tup) f f a a false.
Proof.
  intros H. split_and!; [apply bind_step_refl|done|]. intros _ s Ha [= H1 _]. by apply (H s).
Qed.

Lemma bind_args_spec n args : forall tup f a ok a' f',
  slots_ok n args -> frame_ok n f -> length tup = length args ->
  bind_args args tup f a = (ok, a', f') -> bind_post args tup f f' a a' ok.
Proof.
  induction args as [|t args IH]; intros [|v tup] f a ok a' f' Hs Hf Hl He; try done.
  { cbn in He. simplify_eq. split_and!; [apply bind_step_refl| |done].
    intros _. split; [intros; cbn; tauto|]. intros t Ht. by apply not_elem_of_nil in Ht. }
  assert (Hs' : slots_ok n args) by (intros t' Ht'; apply Hs; by right).
  assert (Hl' : length tup = length args) by (cbn in Hl; lia).
  cbn [bind_args] in He. destruct (IsVar t) eqn:Hv; cbn [negb] in He.
  - pose proof (Hs t ltac:(left) Hv) as Hslot. pose proof Hf as [Hlen Hn].
    destruct (frame_get f (Var t)) as [w|] eqn:Hg.
    + assert (Hw : forall s, agrees f s -> inst s t = w).
      { intros s Ha. unfold inst. rewrite Hv. apply Ha; [lia|done]. }
      destruct (N.eqb_spec w v) as [->|Hne]; simplify_eq.
      * eapply bind_post_cons; [apply bind_step_refl| | |by eapply IH].
        -- intros s. split; [|tauto]. intros Ha. auto.
        -- intros _. split; [lia|by eexists].
      * apply bind_post_fail. intros s Ha. by rewrite (Hw s Ha).
    + eapply bind_post_cons; [apply (bind_step_put a f (Var t) v); [lia|lia|done]| | |].
      * intros s. unfold inst. rewrite Hv. by eapply agrees_put.
      * intros _. split; [lia|]. eexists. rewrite frame_get_put by lia. by case_decide.
      * eapply IH; [done| |done|done]. split; [|done]. cbn. by rewrite length_insert.
  - assert (Hw : forall s, inst s t = Sym t) by (intros s; unfold inst; by rewrite Hv).
    destruct (N.eqb_spec (Sym t) v) as [<-|Hne]; simplify_eq.
    + eapply bind_post_cons; [apply bind_step_refl| | |by eapply IH]; [intros s|intros ?; congruence].
      rewrite Hw. tauto.
    + apply bind_post_fail. intros s _. by rewrite Hw.
Qed.

(** ** Call patterns *)

Lemma matches_sub n args f s :
  frame_ok n f -> slots_ok n args -> agrees f s ->
  matches (inst_args s args) (sub_pattern args f) = true.
Proof.
  intros Hf Hs Ha. apply matches_iff. intros i v. unfold sub_pattern, inst_args.
  rewrite !list_lookup_fmap. destruct (args !! i) as [t|] eqn:Ht; [|done]. cbn.
  intros [= Hv]. f_equal. eapply termSym_agrees; eauto. intros. apply Hs; [|done].
  by eapply list_elem_of_lookup_2.
Qed.

Lemma sub_pattern_bound n args f s :
  frame_ok n f -> slots_ok n args -> agrees f s ->
  (forall t, t ∈ args -> IsVar t = true -> bound f (Var t)) ->
  sub_pattern args f = map Some (inst_args s args).
Proof.
  intros Hf Hs Ha Hb. unfold sub_pattern, inst_args. rewrite map_map.
  apply map_ext_in. intros t Ht%list_elem_of_In.
  assert (is_Some (termSym t f)) as [v Hv].
  { unfold termSym. destruct (IsVar t) eqn:Hv; [by apply Hb|done]. }
  rewrite Hv. f_equal. symmetry. eapply termSym_agrees; eauto.
Qed.

Lemma matches_full t u : length t = length u -> matches t (map Some u) = true <-> t = u.
Proof.
  intros Hl. rewrite matches_iff. split; [|intros -> i v; rewrite list_lookup_fmap; by destruct (u !! i); intros; simplify_eq/=].
  intros H. apply list_eq. intros i. destruct (u !! i) as [v|] eqn:Hu.
  - apply H. by rewrite list_lookup_fmap, Hu.
  - apply lookup_ge_None. apply lookup_ge_None in Hu. lia.
Qed.

(** ** Rules a join can run *)

(** Slot [i] is bound by a positive literal of [pre]. *)
Definition slot_bound (pre : list Literal) (i : nat) : Prop :=
  exists l t, l ∈ pre /\ Neg l = false /\ isBuiltin (Rel l) = false /\ t ∈ Args l /\
    IsVar t = true /\ Var t = i.

Record ordered_rule (r : Rule) : Prop := {
  or_nvars : NVars r <= 64;
  or_head : slots_ok (NVars r) (Args (Head r));
  or_body : forall l, l ∈ Body r -> slots_ok (NVars r) (Args l);
  or_builtin : forall pre l post, Body r = pre ++ l :: post -> isBuiltin (Rel l) = true ->
    length (Args l) = 2 /\ forall t, t ∈ Args l -> IsVar t = true -> slot_bound pre (Var t);
  or_neg : forall pre l post, Body r = pre ++ l :: post -> isBuiltin (Rel l) = false ->
    Neg l = true -> forall t, t ∈ Args l -> IsVar t = true -> slot_bound pre (Var t)
}.

Lemma slot_bound_app a b i : slot_bound a i -> slot_bound (a ++ b) i.
Proof. intros (l & t & Hl & H). exists l, t. split; [apply elem_of_app; by left|done]. Qed.

Lemma slot_bound_snoc pre l i :
  slot_bound (pre ++ [l]) i ->
  slot_bound pre i \/ (Neg l = false /\ isBuiltin (Rel l) = false /\
    exists t, t ∈ Args l /\ IsVar t = true /\ Var t = i).
Proof.
  intros (l' & t & Hl & Hn & Hb & H). apply elem_of_app in Hl as [Hl|Hl].
  - left. by exists l', t.
  - apply list_elem_of_singleton in Hl as ->. right. split_and!; [done..|]. by exists t.
Qed.

(** ** The interface of a body source *)

(** [J] is the invariant of the states, [Rg] how they grow; position [i] of the
    body reads at least [ct s i], only tuples of [U], and negation is decided
    by [NM].  [bad] are the errors evaluation may end with. *)
Class SourceOk {X : Type} (src : bodySource X) (bad : DlError -> Prop) (r : Rule)
    (plan : list litPlan) (syms : interner) (U NM : Interp) (J : Engine * X -> Prop)
    (Rg : Engine * X -> Engine * X -> Prop) (ct : Engine * X -> nat -> itup -> Prop) : Prop := {
  so_pre :: PreOrder Rg;
  so_plan : length plan = length (Body r);
  so_syms : forall s, J s -> e_syms (fst s) = syms /\ e_recordProv (fst s) = false;
  so_mono : forall s s' i t, Rg s s' -> ct s i t -> ct s' i t;
  so_builtin : forall l a b e, l ∈ Body r -> isBuiltin (Rel l) = true ->
    evalBuiltin (Rel l) a b syms = Err e -> bad e;
  so_pos : forall i l lp sub s, Body r !! i = Some l -> isBuiltin (Rel l) = false ->
    Neg l = false -> plan !! i = Some lp -> length sub = length (Args l) -> J s ->
    wp bad (litTuples src i lp sub) (fun ts s' => J s' /\ Rg s s' /\
      (forall t, t ∈ ts -> U (Rel l) t /\ length t = length (Args l)) /\
      (forall t, ct s i t -> matches t sub = true -> t ∈ ts)) s;
  so_neg : forall i l lp t s, Body r !! i = Some l -> isBuiltin (Rel l) = false ->
    Neg l = true -> plan !! i = Some lp -> length t = length (Args l) -> J s ->
    wp bad (negated src lp (map Some t)) (fun found s' => J s' /\ Rg s s' /\
      (found = true <-> NM (Rel l) t)) s
}.

(** ** The join *)

Lemma tail_drop {A} (l : list A) n : tail (drop n l) = drop (S n) l.
Proof. revert l. induction n as [|n IH]; intros [|x l]; try done. apply IH. Qed.

Section join_spec.
Context {X : Type} (src : bodySource X) (bad : DlError -> Prop) (r : Rule) (plan : list litPlan)
  (syms : interner) (U NM : Interp) (J : Engine * X -> Prop)
  (Rg : Engine * X -> Engine * X -> Prop) (ct : Engine * X -> nat -> itup -> Prop).
Context `{HS : !SourceOk src bad r plan syms U NM J Rg ct}.
Context (b : binds) (k : sgKey) (Hr : ordered_rule r).

(** [D s σ]: the substitution σ has been processed in state [s]. *)
Context (D : Engine * X -> subst -> Prop).
Hypothesis D_mono : forall s s' sg, Rg s s' -> D s sg -> D s' sg.
Hypothesis emit_ok : forall fr steps s, J s -> frame_ok (NVars r) fr ->
  (forall i, slot_bound (Body r) i -> bound fr i) ->
  (forall sg, agrees fr sg -> body_holds syms U NM sg (Body r)) ->
  wp bad (join_emit r b k fr steps) (fun _ s' => J s' /\ Rg s s' /\
    forall sg, agrees fr sg -> D s' sg) s.

(** The literals from position [i] on are satisfied by what [s] holds. *)
Definition lit_low (s : Engine * X) (i : nat) (sg : subst) (l : Literal) : Prop :=
  if isBuiltin (Rel l) then builtin_holds syms sg l
  else if Neg l then ~ NM (Rel l) (inst_args sg (Args l))
  else ct s i (inst_args sg (Args l)).

Definition lits_low (s : Engine * X) (i : nat) (body : list Literal) (sg : subst) : Prop :=
  forall j l, body !! j = Some l -> lit_low s (i + j) sg l.

Lemma lits_low_cons s i l body sg :
  lits_low s i (l :: body) sg <-> lit_low s i sg l /\ lits_low s (S i) body sg.
Proof.
  unfold lits_low. split.
  - intros H. split; [by specialize (H 0 l eq_refl); rewrite Nat.add_0_r in H|].
    intros j l' Hj. specialize (H (S j) l' Hj). by rewrite Nat.add_succ_r in H.
  - intros [H1 H2] [|j] l' Hj; [simplify_eq/=; by rewrite Nat.add_0_r|].
    rewrite Nat.add_succ_r. by apply H2.
Qed.

Lemma lits_low_mono s s' i body sg : Rg s s' -> lits_low s i body sg -> lits_low s' i body sg.
Proof.
  intros HR H j l Hj. specialize (H j l Hj). unfold lit_low in *.
  destruct (isBuiltin (Rel l)); [done|]. destruct (Neg l); [done|]. by eapply so_mono.
Qed.

(** What running the rest of the body from [fr] achieves. *)
Definition join_post (i : nat) (body : list Literal) (fr : frame) (s : Engine * X)
    (fr' : frame) (s' : Engine * X) : Prop :=
  J s' /\ Rg s s' /\ fr_eq fr fr' /\
  forall sg, agrees fr sg -> lits_low s i body sg -> D s' sg.

Definition join_pre (pre : list Literal) (fr : frame) (s : Engine * X) : Prop :=
  J s /\ frame_ok (NVars r) fr /\ (forall i, slot_bound pre i -> bound fr i) /\
  (forall sg, agrees fr sg -> body_holds syms U NM sg pre).

Definition join_goal (pre body : list Literal) : Prop :=
  Body r = pre ++ body -> forall fr steps s, join_pre pre fr s ->
  wp bad (join src r b k (length pre) body (drop (length pre) plan) fr steps)
    (join_post (length pre) body fr s) s.

Lemma body_holds_snoc sg pre l :
  body_holds syms U NM sg (pre ++ [l]) <-> body_holds syms U NM sg pre /\ lit_holds syms U NM sg l.
Proof. unfold body_holds. by rewrite Forall_app, Forall_singleton. Qed.

Lemma join_nil pre : join_goal pre [].
Proof.
  intros Hb fr steps s (HJ & Hf & Hbd & Hup). rewrite app_nil_r in Hb.
  cbn [join]. apply wp_bind. eapply wp_mono; [|apply emit_ok; rewrite ?Hb; done].
  intros [] s' (HJ' & HR & HD). apply wp_ret. split_and!; [done|done|done|]. intros. by apply HD.
Qed.

(** The literal passes without binding anything: the rest runs from the same frame. *)
Lemma join_next pre l body fr steps s s1 :
  Body r = pre ++ l :: body -> join_goal (pre ++ [l]) body ->
  join_pre pre fr s -> J s1 -> Rg s s1 ->
  (isBuiltin (Rel l) = true \/ Neg l = true) ->
  (forall sg, agrees fr sg -> lit_holds syms U NM sg l) ->
  wp bad (join src r b k (S (length pre)) body (tail (drop (length pre) plan)) fr steps)
    (join_post (length pre) (l :: body) fr s) s1.
Proof.
  intros Hb IH (HJ & Hf & Hbd & Hup) HJ1 HR1 Hl Hlit.
  assert (Hb' : Body r = (pre ++ [l]) ++ body) by by rewrite <- app_assoc.
  specialize (IH Hb' fr steps s1). rewrite length_app in IH. cbn [length] in IH.
  rewrite Nat.add_1_r in IH. rewrite tail_drop.
  eapply wp_mono; [|apply IH].
  - intros fr' s' (HJ' & HR & He & HD). split_and!; [done|by etrans|done|].
    intros sg Ha [_ Hlow]%lits_low_cons. apply HD; [done|]. by eapply lits_low_mono.
  - split_and!; [done|done| |].
    + intros i [Hi|(Hn & Hbu & _)]%slot_bound_snoc; [by apply Hbd|]. destruct Hl; congruence.
    + intros sg Ha. apply body_holds_snoc. auto.
Qed.

(** The literal fails: nothing is left to process. *)
Lemma join_stop pre l body fr s s1 :
  join_pre pre fr s -> J s1 -> Rg s s1 ->
  (forall i sg, agrees fr sg -> ~ lit_low s i sg l) ->
  join_post (length pre) (l :: body) fr s fr s1.
Proof.
  intros _ HJ1 HR1 Hno. split_and!; [done|done|done|].
  intros sg Ha [Hl _]%lits_low_cons. by apply Hno in Hl.
Qed.

Lemma join_builtin pre l body :
  isBuiltin (Rel l) = true -> join_goal (pre ++ [l]) body -> join_goal pre (l :: body).
Proof.
  intros Hbu IH Hb fr steps s Hpre. pose proof Hpre as (HJ & Hf & Hbd & Hup).
  destruct (or_builtin r Hr _ _ _ Hb Hbu) as [Hlen Hvars].
  assert (Hin : l ∈ Body r) by (rewrite Hb; set_solver).
  cbn [join]. rewrite Hbu. destruct (Args l) as [|a [|c [|? ?]]] eqn:Hargs; try done.
  assert (Hop : forall t, t ∈ Args l -> exists v, termSym t fr = Some v /\
    forall sg, agrees fr sg -> inst sg t = v).
  { intros t Ht. rewrite Hargs in Ht.
    assert (is_Some (termSym t fr)) as [v Hv].
    { unfold termSym. destruct (IsVar t) eqn:Hv; [|done]. apply Hbd, Hvars; done. }
    exists v. split; [done|]. intros sg Ha. eapply (termSym_agrees (NVars r)); eauto.
    intros. apply (or_body r Hr l Hin); [by rewrite Hargs|done]. }
  rewrite Hargs in Hop.
  destruct (Hop a ltac:(set_solver)) as (va & -> & Ha), (Hop c ltac:(set_solver)) as (vc & -> & Hc).
  apply wp_bind. unfold getE. cbn. rewrite (proj1 (so_syms s HJ)). apply wp_bind, wp_lift.
  - intros pass Hpass.
    assert (Hsem : forall sg, agrees fr sg -> builtin_holds syms sg l <-> pass = true).
    { intros sg Hs. unfold builtin_holds. rewrite Hargs. cbn. rewrite (Ha sg Hs), (Hc sg Hs), Hpass.
      split; congruence. }
    destruct pass; cbn [negb].
    + apply join_next; try done; [by left|].
      intros sg Hs. unfold lit_holds. rewrite Hbu. by apply Hsem.
    + apply wp_ret. apply join_stop; try done.
      intros i sg Hs. unfold lit_low. rewrite Hbu. intros H. by apply Hsem in H.
  - intros e He. by eapply so_builtin.
Qed.

Lemma plan_at i l : Body r !! i = Some l -> exists lp, plan !! i = Some lp.
Proof.
  intros H. apply lookup_lt_Some in H. rewrite <- so_plan in H.
  by apply lookup_lt_is_Some_2 in H.
Qed.

Lemma drop_at i lp : plan !! i = Some lp -> drop i plan = lp :: tail (drop i plan).
Proof. intros H. by rewrite (drop_S _ _ _ H). Qed.

Lemma join_neg pre l body :
  isBuiltin (Rel l) = false -> Neg l = true -> join_goal (pre ++ [l]) body ->
  join_goal pre (l :: body).
Proof.
  intros Hbu Hn IH Hb fr steps s Hpre. pose proof Hpre as (HJ & Hf & Hbd & Hup).
  assert (Hi : Body r !! length pre = Some l) by (rewrite Hb; by apply list_lookup_middle).
  assert (Hin : l ∈ Body r) by (rewrite Hb; set_solver).
  destruct (plan_at _ _ Hi) as [lp Hlp]. rewrite (drop_at _ _ Hlp).
  cbn [join]. rewrite Hbu, Hn.
  set (sg0 := frame_subst fr).
  assert (Hsub : forall sg, agrees fr sg ->
    sub_pattern (Args l) fr = map Some (inst_args sg (Args l))).
  { intros sg Ha. eapply sub_pattern_bound; [done|by apply (or_body r Hr)|done|].
    intros t Ht Hv. apply Hbd. by eapply or_neg. }
  assert (Hsame : forall sg, agrees fr sg -> inst_args sg (Args l) = inst_args sg0 (Args l)).
  { intros sg Ha. apply (inj (map (Some (A:=N)))). rewrite <- (Hsub sg Ha).
    apply Hsub, agrees_frame_subst. }
  rewrite (Hsub sg0) by apply agrees_frame_subst. apply wp_bind.
  eapply wp_mono; [|eapply so_neg; try done; apply length_map].
  intros found s1 (HJ1 & HR1 & Hfound). destruct found.
  - apply wp_ret. apply join_stop; try done.
    intros i sg Ha. unfold lit_low. rewrite Hbu, Hn, (Hsame sg Ha). intros H. by apply H, Hfound.
  - rewrite <- (drop_at _ _ Hlp). apply join_next; try done; [by right|].
    intros sg Ha. unfold lit_holds. rewrite Hbu, Hn, (Hsame sg Ha). intros H. by apply Hfound in H.
Qed.

(** The scan of the candidates of a positive literal. *)
Definition scan_post (i : nat) (l : Literal) (body : list Literal) (ts : list itup) (fr : frame)
    (s : Engine * X) (fr' : frame) (s' : Engine * X) : Prop :=
  J s' /\ Rg s s' /\ fr_eq fr fr' /\
  forall sg, agrees fr sg -> inst_args sg (Args l) ∈ ts -> lits_low s (S i) body sg -> D s' sg.

Lemma scan_spec pre l body isBase steps ts : forall fr s,
  Body r = pre ++ l :: body -> isBuiltin (Rel l) = false -> Neg l = false ->
  join_goal (pre ++ [l]) body -> join_pre pre fr s ->
  (forall t, t ∈ ts -> U (Rel l) t /\ length t = length (Args l)) ->
  wp bad (scan l false isBase steps
            (fun fr1 next => join src r b k (S (length pre)) body (drop (S (length pre)) plan) fr1 next)
            ts fr)
    (scan_post (length pre) l body ts fr s) s.
Proof.
  induction ts as [|t ts IHts]; intros fr s Hb Hbu Hn IH Hpre Hts.
  { apply wp_ret. destruct Hpre as (HJ & _). split_and!; [done|done|done|].
    intros sg _ Hin. by apply not_elem_of_nil in Hin. }
  pose proof Hpre as (HJ & Hf & Hbd & Hup).
  destruct (Hts t ltac:(left)) as [HU Hlen].
  cbn [scan]. destruct (bind_args (Args l) t fr 0) as [[ok added] fr1] eqn:Hbind.
  assert (Hslots : slots_ok (NVars r) (Args l)) by (apply (or_body r Hr); rewrite Hb; set_solver).
  destruct (bind_args_spec _ _ _ _ _ _ _ _ Hslots Hf Hlen Hbind) as (Hstep & Hok & Hno).
  assert (Hb' : Body r = (pre ++ [l]) ++ body) by by rewrite <- app_assoc.
  apply wp_bind.
  eapply (wp_mono _ _ (fun fr2 s2 => J s2 /\ Rg s s2 /\ fr_eq fr1 fr2 /\
    forall sg, agrees fr sg -> inst_args sg (Args l) = t -> lits_low s (S (length pre)) body sg ->
      D s2 sg)).
  - intros fr2 s2 (HJ2 & HR2 & He2 & HD2).
    pose proof (bind_step_unset _ _ _ _ Hstep He2) as He.
    eapply wp_mono; [|apply IHts; try done].
    + intros fr3 s3 (HJ3 & HR3 & He3 & HD3). split_and!; [done|by etrans|by etrans; [|exact He3]|].
      intros sg Ha [<-|Hin]%elem_of_cons Hlow; [by eapply D_mono; [exact HR3|apply HD2]|].
      apply HD3; [by rewrite He|done|by eapply lits_low_mono].
    + split_and!; [done|by eapply fr_eq_ok| |].
      * intros i Hi. destruct (decide (i < 64)) as [H64|H64].
        -- unfold bound. rewrite (proj2 He i H64). by apply Hbd.
        -- exfalso. apply H64. destruct Hi as (l' & t' & Hl' & _ & _ & Ht' & Hv' & <-).
           pose proof (or_nvars r Hr). enough (Var t' < NVars r) by lia.
           apply (or_body r Hr l'); [|done|done]. rewrite Hb. set_solver.
      * intros sg Ha. apply Hup. by rewrite <- He.
    + intros t' Ht'. apply Hts. by right.
  - destruct ok.
    + destruct (Hok eq_refl) as [Hagr Hbnd].
      apply wp_bind. unfold getE. cbn. specialize (IH Hb' fr1 steps s).
      rewrite length_app in IH. cbn [length] in IH. rewrite Nat.add_1_r in IH.
      eapply wp_mono; [|apply IH].
      * intros fr2 s2 (HJ2 & HR2 & He2 & HD2). split_and!; [done..|].
        intros sg Ha Ht Hlow. apply HD2; [by apply Hagr|done].
      * split_and!; [done| | |].
        -- destruct Hf, Hstep. split; [congruence|done].
        -- intros i [Hi|(_ & _ & t' & Ht' & Hv' & <-)]%slot_bound_snoc; [|by apply Hbnd].
           specialize (Hbd i Hi). destruct (decide (i < 64)) as [H64|H64];
             [by eapply bind_step_bound|].
           exfalso. apply H64. destruct Hi as (l' & t' & Hl' & _ & _ & Ht' & Hv' & <-).
           pose proof (or_nvars r Hr). enough (Var t' < NVars r) by lia.
           apply (or_body r Hr l'); [|done|done]. rewrite Hb. set_solver.
        -- intros sg [Ha Ht]%Hagr. apply body_holds_snoc. split; [by apply Hup|].
           unfold lit_holds. rewrite Hbu, Hn, Ht. done.
    + apply wp_ret. split_and!; [done|done|done|].
      intros sg Ha Ht. exfalso. by apply (Hno eq_refl sg).
Qed.

Lemma join_pos pre l body :
  isBuiltin (Rel l) = false -> Neg l = false -> join_goal (pre ++ [l]) body ->
  join_goal pre (l :: body).
Proof.
  intros Hbu Hn IH Hb fr steps s Hpre. pose proof Hpre as (HJ & Hf & Hbd & Hup).
  assert (Hi : Body r !! length pre = Some l) by (rewrite Hb; by apply list_lookup_middle).
  destruct (plan_at _ _ Hi) as [lp Hlp]. rewrite (drop_at _ _ Hlp).
  cbn [join]. rewrite Hbu, Hn. apply wp_bind. unfold getE. cbn.
  apply wp_bind. eapply wp_mono; [|eapply so_pos; try done; apply length_map].
  intros ts s1 (HJ1 & HR1 & Hts & Hct).
  rewrite (proj2 (so_syms s HJ)), tail_drop.
  eapply wp_mono; [|apply scan_spec; done].
  intros fr' s' (HJ' & HR' & He & HD). split_and!; [done|by etrans|done|].
  intros sg Ha [Hl Hlow]%lits_low_cons. apply HD; [done| |by eapply lits_low_mono].
  unfold lit_low in Hl. rewrite Hbu, Hn in Hl. apply Hct; [done|].
  eapply matches_sub; [done| |done]. apply (or_body r Hr). rewrite Hb. set_solver.
Qed.

Lemma join_all body : forall pre, join_goal pre body.
Proof.
  induction body as [|l body IH]; intros pre; [apply join_nil|].
  destruct (isBuiltin (Rel l)) eqn:Hbu; [by apply join_builtin|].
  destruct (Neg l) eqn:Hn; [by apply join_neg|by apply join_pos].
Qed.

(** The join from the start of the body, with nothing bound. *)
Lemma join_spec fr steps s :
  J s -> frame_ok (NVars r) fr -> (forall i, i < 64 -> frame_get fr i = None) ->
  wp bad (join src r b k 0 (Body r) plan fr steps) (fun _ s' => J s' /\ Rg s s' /\
    forall sg, lits_low s 0 (Body r) sg -> D s' sg) s.
Proof.
  intros HJ Hf Hnone. eapply wp_mono; [|apply (join_all (Body r) [])]; [|done|].
  - intros fr' s' (HJ' & HR' & _ & HD). split_and!; [done|done|].
    intros sg. apply HD. intros i v Hi. by rewrite Hnone.
  - split_and!; [done|done| |].
    + intros i (l & t & Hl & _). by apply not_elem_of_nil in Hl.
    + intros sg _. constructor.
Qed.

End join_spec.
