(* ===== verification/DlAggSpec.v ===== *)
(** Aggregation: what the fold of agg.go keeps of the inputs of a group, and
    how it relates to the aggregate of the model. *)
From S2P Require Import Prelude DlIntern DlSyntax DlSafe DlStrata DlRelation DlEngine DlJoin.
From S2P Require Import DlSemantics DlJoinSpec.

(** ** The head of a group *)

(** A head term is the aggregate's output. *)
Definition is_out (outS : nat) (t : Term) : bool := IsVar t && (Var t =? outS).

(** The head under a substitution, with a zero in the aggregate's slot. *)
Definition group_row (outS : nat) (sg : subst) (ts : list Term) : itup :=
  map (fun t => if is_out outS t then 0%N else inst sg t) ts.

Definition group_of (r : Rule) (a : AggSpec) (sg : subst) : itup :=
  group_row (outSlot a) sg (Args (Head r)).

(** The last position of the aggregate's slot. *)
Fixpoint last_out (outS : nat) (ts : list Term) (k : nat) (pos : option nat) : option nat :=
  match ts with
  | [] => pos
  | t :: ts' => last_out outS ts' (S k) (if is_out outS t then Some k else pos)
  end.

Lemma agg_head_spec r outS n fr sg ts k pos :
  frame_ok n fr -> agrees fr sg -> slots_ok n ts ->
  (forall t, t ∈ ts -> IsVar t = true -> Var t <> outS -> bound fr (Var t)) ->
  agg_head r outS fr k ts pos = Ok (group_row outS sg ts, last_out outS ts k pos).
Proof.
  intros [Hl Hn] Ha. revert k pos. induction ts as [|t ts IH]; intros k pos Hs Hb; [done|].
  assert (Hs' : slots_ok n ts) by (intros u Hu; apply Hs; by right).
  assert (Hb' : forall u, u ∈ ts -> IsVar u = true -> Var u <> outS -> bound fr (Var u))
    by (intros u Hu; apply Hb; by right).
  cbn [agg_head last_out]. unfold group_row. cbn [map]. fold (group_row outS sg ts).
  unfold is_out at 1 2, inst. destruct (IsVar t) eqn:Hv; cbn [negb andb].
  - destruct (Nat.eqb_spec (Var t) outS) as [Ho|Ho]; [by rewrite IH|].
    destruct (Hb t ltac:(left) Hv Ho) as [v Hg]. rewrite Hg, IH by done. cbn. do 3 f_equal.
    symmetry. apply Ha; [|done]. specialize (Hs t ltac:(left) Hv). lia.
  - by rewrite IH.
Qed.

Lemma last_out_none outS ts k pos :
  (forall t, t ∈ ts -> is_out outS t = false) -> last_out outS ts k pos = pos.
Proof.
  revert k pos. induction ts as [|t ts IH]; intros k pos H; [done|]. cbn [last_out].
  rewrite IH by (intros u Hu; apply H; by right). by rewrite H by left.
Qed.

Lemma last_out_unique outS ts k pos p t :
  ts !! p = Some t -> is_out outS t = true ->
  (forall q u, ts !! q = Some u -> is_out outS u = true -> q = p) ->
  last_out outS ts k pos = Some (k + p).
Proof.
  revert k pos p. induction ts as [|u ts IH]; intros k pos [|p] Hp Ht Hu; try done; cbn [last_out].
  - simplify_eq/=. rewrite Ht, Nat.add_0_r. apply last_out_none. intros w [q Hq]%list_elem_of_lookup.
    destruct (is_out outS w) eqn:Hw; [|done]. by specialize (Hu (S q) w Hq Hw).
  - rewrite <- Nat.add_succ_comm. apply IH; [done|done|]. intros q w Hq Hw.
    specialize (Hu (S q) w Hq Hw). lia.
Qed.

(** ** The fold *)

(** [v] is accounted for in an accumulator. *)
Definition covers (a : AggSpec) (acc : aggAcc) (v : N) : Prop :=
  if str_eqb (Fn a) "count" then v ∈ agg_distinct acc
  else agg_have acc = true /\ exists m, decodeIntSym v = Some m /\
    if str_eqb (Fn a) "min" then (agg_ival acc <= m)%N else (m <= agg_ival acc)%N.

(** Everything in an accumulator comes from the inputs [S]. *)
Definition acc_from (a : AggSpec) (acc : aggAcc) (S : N -> Prop) : Prop :=
  if str_eqb (Fn a) "count" then forall v, v ∈ agg_distinct acc -> S v
  else agg_have acc = true -> exists v, S v /\ decodeIntSym v = Some (agg_ival acc).

Lemma agg_fold_spec r a inv syms steps acc acc' (S : N -> Prop) :
  isAggName (Fn a) = true -> acc_from a acc S -> S inv ->
  agg_fold r a inv syms false steps acc = Ok acc' ->
  agg_group acc' = agg_group acc /\ agg_pos acc' = agg_pos acc /\
  acc_from a acc' S /\ covers a acc' inv /\ (forall v, covers a acc v -> covers a acc' v).
Proof.
  intros Hfn Hfrom HS. unfold agg_fold, acc_from, covers in *.
  destruct (str_eqb (Fn a) "count") eqn:Hc.
  - intros [= <-]. cbn. split_and!; [done|done| |set_solver|set_solver].
    intros v [->%elem_of_singleton|Hv]%elem_of_union; [done|by apply Hfrom].
  - destruct (decodeIntSym inv) as [n|] eqn:Hd; [|done].
    assert (Hmm : str_eqb (Fn a) "max" = negb (str_eqb (Fn a) "min")).
    { unfold isAggName in Hfn. apply bool_decide_eq_true in Hfn. unfold aggFns in Hfn.
      rewrite !elem_of_cons, elem_of_nil in Hfn.
      destruct Hfn as [H|[H|[H|[]]]]; rewrite H in *; done. }
    destruct (_ || _) eqn:Htest; intros [= <-]; cbn.
    + refine (conj eq_refl (conj eq_refl (conj _ (conj _ _)))); [by eauto| |].
      * split; [done|]. exists n. split; [done|]. by destruct (str_eqb (Fn a) "min").
      * intros v [Hh (m & Hm & Hle)]. split; [done|]. exists m. split; [done|].
        rewrite Hh, Hmm in Htest. destruct (str_eqb (Fn a) "min"); cbn in Htest;
          apply N.ltb_lt in Htest || (rewrite orb_false_r in Htest; apply N.ltb_lt in Htest); lia.
    + refine (conj eq_refl (conj eq_refl (conj Hfrom (conj _ (fun _ H => H))))).
      rewrite Hmm in Htest. destruct (agg_have acc); [|done]. split; [done|]. exists n. split; [done|].
      destruct (str_eqb (Fn a) "min"); cbn in Htest;
        apply N.ltb_ge in Htest || (rewrite orb_false_r in Htest; apply N.ltb_ge in Htest); lia.
Qed.

Lemma agg_fold_err r a inv syms rec steps acc e :
  agg_fold r a inv syms rec steps acc = Err e ->
  str_eqb (Fn a) "count" = false /\ decodeIntSym inv = None /\
  e = EAggNonInt (RName r) (interner_sym syms inv).
Proof.
  unfold agg_fold. destruct (str_eqb (Fn a) "count"); [done|].
  destruct (decodeIntSym inv) as [n|]; [by destruct (_ || _)|]. by intros [= <-].
Qed.

Lemma covers_have a acc v : str_eqb (Fn a) "count" = false -> covers a acc v -> agg_have acc = true.
Proof. intros Hc. unfold covers. rewrite Hc. by intros []. Qed.

(** ** Groups *)

Lemma same_group_iff r a s1 s2 :
  same_group r a s1 s2 <-> group_of r a s1 = group_of r a s2.
Proof.
  unfold same_group, group_of, group_row. split.
  - intros H. apply map_ext_in. intros t Ht%list_elem_of_In. unfold is_out, inst.
    destruct (IsVar t) eqn:Hv; [|done]. cbn. destruct (Nat.eqb_spec (Var t) (outSlot a)); [done|].
    by apply H.
  - intros H t Ht Hv Ho. apply list_elem_of_lookup in Ht as [i Hi].
    apply (f_equal (.!! i)) in H. rewrite !list_lookup_fmap, Hi in H. cbn in H.
    unfold is_out, inst in H. rewrite Hv in H. cbn in H.
    destruct (Nat.eqb_spec (Var t) (outSlot a)); [done|]. by injection H.
Qed.

Lemma agg_value_group syms M r a s1 s2 n :
  same_group r a s1 s2 -> agg_value syms M r a s1 n -> agg_value syms M r a s2 n.
Proof.
  rewrite same_group_iff. intros H. unfold agg_value.
  assert (Hg : forall s', same_group r a s1 s' <-> same_group r a s2 s')
    by (intros s'; by rewrite !same_group_iff, H).
  destruct (str_eqb (Fn a) "count").
  - intros (vs & Hvs & ->). exists vs. split; [|done]. intros v. rewrite Hvs. by setoid_rewrite Hg.
  - intros [(s0 & [B0 G0] & D0) Hall]. split; [exists s0; by rewrite <- Hg|].
    intros s' [Bs' G']. apply Hall. by rewrite Hg.
Qed.

(** The accumulator of a group to which every input was folded holds the
    aggregate of the model. *)
Lemma agg_result_value syms M r a acc sg :
  acc_from a acc (fun v => exists s', body_holds syms M M s' (Body r) /\
    group_of r a s' = agg_group acc /\ s' (inSlot a) = v) ->
  agg_group acc = group_of r a sg ->
  body_holds syms M M sg (Body r) ->
  (forall s', body_holds syms M M s' (Body r) -> group_of r a s' = agg_group acc ->
     covers a acc (s' (inSlot a))) ->
  exists n, agg_result a acc = Some n /\ agg_value syms M r a sg n.
Proof.
  intros Hfrom Hg Hsg Hcov. unfold agg_result, agg_value, acc_from in *.
  destruct (str_eqb (Fn a) "count") eqn:Hc.
  - eexists. split; [done|]. exists (agg_distinct acc). split; [|done]. intros v. split.
    + intros (s' & Hb & Hg' & Hv)%Hfrom. exists s'. rewrite same_group_iff. split; [|done].
      split; [done|congruence].
    + intros (s' & [Hb Hgr] & <-). rewrite same_group_iff in Hgr.
      specialize (Hcov s' Hb ltac:(congruence)). unfold covers in Hcov. by rewrite Hc in Hcov.
  - assert (Hh : agg_have acc = true) by (eapply covers_have; [done|by apply Hcov]).
    rewrite Hh. eexists. split; [done|]. split.
    + destruct (Hfrom Hh) as (v & (s' & Hb & Hg' & <-) & Hd). exists s'.
      rewrite same_group_iff. split; [|done]. split; [done|congruence].
    + intros s' [Hb Hgr]. rewrite same_group_iff in Hgr.
      specialize (Hcov s' Hb ltac:(congruence)). unfold covers in Hcov. rewrite Hc in Hcov.
      destruct Hcov as (_ & m & Hm & Hle). by exists m.
Qed.

(** The row a group emits is the row of the model. *)
Lemma agg_row_tuple r a acc sg n p t :
  agg_group acc = group_of r a sg -> agg_pos acc = Some p ->
  Args (Head r) !! p = Some t -> is_out (outSlot a) t = true ->
  (forall q u, Args (Head r) !! q = Some u -> is_out (outSlot a) u = true -> q = p) ->
  agg_row acc n = Some (agg_tuple r a sg n).
Proof.
  intros Hg Hp Ht Ho Hu. unfold agg_row, agg_tuple. rewrite Hp, Hg. f_equal.
  apply list_eq. intros i. unfold group_of, group_row. destruct (decide (i = p)) as [->|Hne].
  - rewrite list_lookup_insert_eq.
    + rewrite list_lookup_fmap, Ht. cbn. unfold is_out in Ho. by rewrite Ho.
    + rewrite length_fmap. by eapply lookup_lt_Some.
  - rewrite list_lookup_insert_ne by done. rewrite !list_lookup_fmap.
    destruct (Args (Head r) !! i) as [u|] eqn:Hi; [|done]. cbn. f_equal.
    fold (is_out (outSlot a) u). destruct (is_out (outSlot a) u) eqn:Hou; [|done].
    by specialize (Hu i u Hi Hou).
Qed.

Lemma agg_tuple_group r a s1 s2 n :
  group_of r a s1 = group_of r a s2 -> agg_tuple r a s1 n = agg_tuple r a s2 n.
Proof.
  rewrite <- same_group_iff. intros H. apply map_ext_in. intros t Ht%list_elem_of_In.
  unfold inst. destruct (IsVar t) eqn:Hv; [|done]. cbn.
  destruct (Nat.eqb_spec (Var t) (outSlot a)); [done|]. by apply H.
Qed.
