(* ===== verification/DlCone.v ===== *)
(** The evaluation order of bottom-up solving (Engine.cone of
    internal/datalog/bottomup.go): the relations a goal depends on, grouped
    into strongly connected components by Tarjan's algorithm, dependencies
    first. *)
From S2P Require Import Prelude DlSyntax DlStrata DlRelation DlEngine DlJoin.

(** ** Collecting the dependency graph *)

(** [seen], [nodes] and [adj] of the closure [collect]. *)
Record cstate : Type := mkC {
  c_seen : gset string;
  c_nodes : list string;
  c_adj : gmap string (list string)
}.

(** The derived relations read by the rules of [rel], in rule order. *)
Definition derived_reads (rules : gmap string (list Rule)) (rel : string) : list string :=
  concat (map (fun r =>
    omap (fun l => match rules !! Rel l with Some (_ :: _) => Some (Rel l) | _ => None end) (Body r))
    (default [] (rules !! rel))).

(** [collect]: a relation already seen, or with no rules, is skipped.  Depth
    is bounded by the number of rule heads. *)
Fixpoint collect (fuel : nat) (rules : gmap string (list Rule)) (rel : string) (st : cstate)
    : cstate :=
  match fuel with
  | O => st
  | S fuel' =>
      match rules !! rel with
      | Some (_ :: _) =>
          if decide (rel ∈ c_seen st) then st
          else
            let st1 := mkC ({[rel]} ∪ c_seen st) (c_nodes st ++ [rel]) (c_adj st) in
            fold_left (fun st d =>
                let st' := mkC (c_seen st) (c_nodes st)
                  (<[rel := default [] (c_adj st !! rel) ++ [d]]> (c_adj st)) in
                collect fuel' rules d st')
              (derived_reads rules rel) st1
      | _ => st
      end
  end.

(** ** Tarjan *)

Record tstate_ : Type := mkT {
  t_index : gmap string nat;
  t_low : gmap string nat;
  t_onStack : gset string;
  t_stack : list string;
  t_next : nat;
  t_out : list (list string)
}.

Definition t_idx (st : tstate_) (v : string) : nat := default 0 (t_index st !! v).
Definition t_lo (st : tstate_) (v : string) : nat := default 0 (t_low st !! v).

Definition set_low (v : string) (n : nat) (st : tstate_) : tstate_ :=
  mkT (t_index st) (<[v := n]> (t_low st)) (t_onStack st) (t_stack st) (t_next st) (t_out st).

(** [index[v], low[v] = next, next; next++], and the push. *)
Definition t_enter (v : string) (st : tstate_) : tstate_ :=
  mkT (<[v := t_next st]> (t_index st)) (<[v := t_next st]> (t_low st))
    ({[v]} ∪ t_onStack st) (v :: t_stack st) (S (t_next st)) (t_out st).

(** Popping down to [v]: the popped relations, [v] last, and the rest. *)
Fixpoint pop_to (v : string) (stack : list string) : list string * list string :=
  match stack with
  | [] => ([], [])
  | w :: rest =>
      if str_eqb w v then ([w], rest)
      else let '(c, s) := pop_to v rest in (w :: c, s)
  end.

(** The pop loop and the emission of the sorted component. *)
Definition t_emit (v : string) (st : tstate_) : tstate_ :=
  let '(comp, rest) := pop_to v (t_stack st) in
  mkT (t_index st) (t_low st) (t_onStack st ∖ list_to_set comp) rest (t_next st)
    (t_out st ++ [sort_strings comp]).

(** One step of the successor loop of [strong v]. *)
Definition t_succ (strong : string -> tstate_ -> tstate_) (v w : string) (st : tstate_) : tstate_ :=
  match t_index st !! w with
  | None =>
      let st1 := strong w st in
      if t_lo st1 w <? t_lo st1 v then set_low v (t_lo st1 w) st1 else st1
  | Some i =>
      if bool_decide (w ∈ t_onStack st) && (i <? t_lo st v) then set_low v i st else st
  end.

Fixpoint strong (fuel : nat) (adj : string -> list string) (v : string) (st : tstate_) : tstate_ :=
  match fuel with
  | O => st
  | S fuel' =>
      let st1 := fold_left (fun st w => t_succ (strong fuel' adj) v w st) (adj v) (t_enter v st) in
      if negb (t_lo st1 v =? t_idx st1 v) then st1 else t_emit v st1
  end.

Definition t_init : tstate_ := mkT ∅ ∅ ∅ [] 0 [].

(** The loop over the nodes. *)
Definition tarjan (adj : string -> list string) (nodes : list string) : list (list string) :=
  t_out (fold_left (fun st n =>
    match t_index st !! n with
    | Some _ => st
    | None => strong (S (length nodes)) adj n st
    end) nodes t_init).

(** ** cone *)

Definition sorted_adj (adj : gmap string (list string)) (n : string) : list string :=
  dedupe (sort_strings (default [] (adj !! n))).

Definition cone (rules : gmap string (list Rule)) (goal : string) : list (list string) :=
  let st := collect (S (size rules)) rules goal (mkC ∅ [] ∅) in
  tarjan (sorted_adj (c_adj st)) (sort_strings (c_nodes st)).

(** ** Correctness of the component order *)

(** What evaluation needs of a component order for the graph [adj]. *)
Record components_ok (adj : string -> list string) (nodes : list string)
    (comps : list (list string)) : Prop := {
  co_cover : forall v, v ∈ concat comps <-> v ∈ nodes;
  co_nodup : NoDup (concat comps);
  co_deps : forall k comp v w, comps !! k = Some comp -> v ∈ comp -> w ∈ adj v ->
    w ∈ concat (take (S k) comps);
  co_scc : forall comp a b, comp ∈ comps -> a ∈ comp -> b ∈ comp ->
    rtc (fun v w => w ∈ adj v) a b
}.

Section tarjan.
Context (adj : string -> list string) (nodes : list string).
Context (Hclosed : forall v w, v ∈ nodes -> w ∈ adj v -> w ∈ nodes).

Local Notation edge := (fun v w : string => w ∈ adj v).
Local Notation reach := (rtc edge).

Definition visited (st : tstate_) (v : string) : Prop := is_Some (t_index st !! v).

(** The invariant of the search, with [G] the relations whose call is open. *)
Record tinv (G : list string) (st : tstate_) : Prop := {
  ti_vis : forall v, visited st v <-> v ∈ t_stack st \/ v ∈ concat (t_out st);
  ti_nodup : NoDup (t_stack st ++ concat (t_out st));
  ti_on : forall v, v ∈ t_onStack st <-> v ∈ t_stack st;
  ti_sorted : StronglySorted (fun a b => t_idx st b < t_idx st a) (t_stack st);
  ti_lt : forall v, v ∈ t_stack st -> t_idx st v < t_next st;
  ti_out : forall k comp v w, t_out st !! k = Some comp -> v ∈ comp -> w ∈ adj v ->
    w ∈ concat (take (S k) (t_out st));
  ti_scc : forall comp a b, comp ∈ t_out st -> a ∈ comp -> b ∈ comp -> reach a b;
  ti_gray : forall g, g ∈ G -> g ∈ t_stack st;
  ti_black : forall x w, x ∈ t_stack st -> x ∉ G -> w ∈ adj x -> visited st w;
  ti_up : forall x, x ∈ t_stack st -> exists g, g ∈ G /\ t_idx st g <= t_idx st x /\ reach x g;
  ti_down : forall g x, g ∈ G -> x ∈ t_stack st -> t_idx st g <= t_idx st x -> reach g x;
  ti_nodes : forall v, visited st v -> v ∈ nodes
}.

(** What a state reached from [st] keeps of it. *)
Record text (st st' : tstate_) : Prop := {
  te_idx : forall u, visited st u -> t_index st' !! u = t_index st !! u;
  te_out : exists o, t_out st' = t_out st ++ o;
  te_next : t_next st <= t_next st'
}.

Lemma text_refl st : text st st.
Proof. split; [done|exists []; by rewrite app_nil_r|lia]. Qed.

Lemma text_vis st st' u : text st st' -> visited st u -> visited st' u.
Proof. intros He Hu. unfold visited. by rewrite (te_idx _ _ He). Qed.

Lemma text_tidx st st' u : text st st' -> visited st u -> t_idx st' u = t_idx st u.
Proof. intros He Hu. unfold t_idx. by rewrite (te_idx _ _ He). Qed.

Lemma text_trans a b c : text a b -> text b c -> text a c.
Proof.
  intros H1 H2. split.
  - intros u Hu. rewrite (te_idx _ _ H2) by (by eapply text_vis). by apply (te_idx _ _ H1).
  - destruct (te_out _ _ H1) as [o1 E1], (te_out _ _ H2) as [o2 E2].
    exists (o1 ++ o2). by rewrite E2, E1, app_assoc.
  - pose proof (te_next _ _ H1). pose proof (te_next _ _ H2). lia.
Qed.

Lemma stack_visited G st v : tinv G st -> v ∈ t_stack st -> visited st v.
Proof. intros Hi Hv. apply (ti_vis _ _ Hi). by left. Qed.

(** Along [s ++ v :: rest] the index falls. *)
Lemma stack_split_idx G st s v rest :
  tinv G st -> t_stack st = s ++ v :: rest ->
  (forall x, x ∈ s -> t_idx st v < t_idx st x) /\ (forall x, x ∈ rest -> t_idx st x < t_idx st v).
Proof.
  intros Hi Hs. pose proof (ti_sorted _ _ Hi) as H. rewrite Hs in H.
  apply StronglySorted_app in H as (Hall & _ & H). apply StronglySorted_cons in H as [Hf _].
  split.
  - intros x Hx. apply (Hall x v Hx). left.
  - intros x Hx. rewrite Forall_forall in Hf. by apply Hf.
Qed.

Lemma stack_disjoint G st s rest :
  tinv G st -> t_stack st = s ++ rest -> forall x, x ∈ s -> x ∉ rest /\ x ∉ concat (t_out st).
Proof.
  intros Hi Hs x Hx. pose proof (ti_nodup _ _ Hi) as H. rewrite Hs, <- app_assoc in H.
  apply NoDup_app in H as (_ & Hd & _). specialize (Hd x Hx). set_solver.
Qed.

(** *** Entering a relation *)

Lemma t_enter_spec G st v :
  tinv G st -> ~ visited st v -> v ∈ nodes -> (forall g, g ∈ G -> reach g v) ->
  tinv (v :: G) (t_enter v st) /\ text st (t_enter v st) /\
  t_idx (t_enter v st) v = t_next st /\ t_lo (t_enter v st) v = t_next st /\
  (forall u, visited st u -> t_lo (t_enter v st) u = t_lo st u).
Proof.
  intros Hi Hv Hn Hg.
  assert (Hidx : forall u, visited st u -> t_idx (t_enter v st) u = t_idx st u).
  { intros u Hu. unfold t_idx. cbn. rewrite lookup_insert_ne; [done|]. by intros ->. }
  assert (Hidxv : t_idx (t_enter v st) v = t_next st).
  { unfold t_idx. cbn. by rewrite lookup_insert_eq. }
  assert (Hvis : forall u, visited (t_enter v st) u <-> u = v \/ visited st u).
  { intros u. unfold visited. cbn. rewrite lookup_insert.
    case_decide; naive_solver. }
  assert (Hext : text st (t_enter v st)).
  { split; cbn; [|exists []; by rewrite app_nil_r|lia].
    intros u Hu. rewrite lookup_insert_ne; [done|]. by intros ->. }
  split_and!; [|done|done| |].
  - split.
    + intros u. rewrite Hvis, (ti_vis _ _ Hi). cbn. rewrite elem_of_cons. tauto.
    + cbn. constructor; [|apply Hi]. intros H%elem_of_app. by apply Hv, (ti_vis _ _ Hi).
    + intros u. cbn. pose proof (ti_on _ _ Hi u). set_solver.
    + cbn. apply StronglySorted_cons. split.
      * apply Forall_forall. intros x Hx. rewrite Hidxv, Hidx by (by eapply stack_visited).
        by apply (ti_lt _ _ Hi).
      * eapply StronglySorted_impl_elem; [|apply (ti_sorted _ _ Hi)].
        intros x y Hx Hy Hxy. by rewrite !Hidx by (by eapply stack_visited).
    + intros u. cbn [t_enter t_stack t_next]. intros [->|Hu]%elem_of_cons.
      * rewrite Hidxv. lia.
      * rewrite Hidx by (by eapply stack_visited). pose proof (ti_lt _ _ Hi _ Hu). lia.
    + cbn. apply Hi.
    + cbn. apply Hi.
    + intros g. cbn. intros [->|Hg']%elem_of_cons; [left|right; by apply (ti_gray _ _ Hi)].
    + intros x w. cbn. intros [->|Hx]%elem_of_cons Hnx Hw; [set_solver|].
      apply Hvis. right. eapply (ti_black _ _ Hi); [done|set_solver|done].
    + intros x. cbn [t_enter t_stack]. intros [->|Hx]%elem_of_cons.
      * exists v. split_and!; [left|lia|done].
      * destruct (ti_up _ _ Hi x Hx) as (g & Hg' & Hle & Hr). exists g.
        rewrite !Hidx; [split_and!; [by right|done|done]| |].
        all: eapply stack_visited; [done|]; try done. by apply (ti_gray _ _ Hi).
    + intros g x. cbn [t_enter t_stack].
      intros [->|Hg']%elem_of_cons [->|Hx]%elem_of_cons; [done| | |].
      * rewrite Hidxv, Hidx by (by eapply stack_visited).
        pose proof (ti_lt _ _ Hi _ Hx). lia.
      * intros _. by apply Hg.
      * rewrite !Hidx; [by apply (ti_down _ _ Hi)| |]; eapply stack_visited; try done.
        by apply (ti_gray _ _ Hi).
    + intros u [->|Hu]%Hvis; [done|by apply (ti_nodes _ _ Hi)].
  - unfold t_lo. cbn. by rewrite lookup_insert_eq.
  - intros u Hu. unfold t_lo. cbn. rewrite lookup_insert_ne; [done|]. by intros ->.
Qed.

Lemma set_low_inv G st v n : tinv G st -> tinv G (set_low v n st).
Proof. intros []. split; done. Qed.

Lemma t_lo_set_low v n st u : t_lo (set_low v n st) u = if decide (v = u) then n else t_lo st u.
Proof. unfold t_lo. cbn. rewrite lookup_insert. by case_decide. Qed.

(** *** The successor loop *)

(** What a finished call [strong v] guarantees, from [st] to [st']. *)
Record strong_post (G : list string) (v : string) (st st' : tstate_) : Prop := {
  sp_inv : tinv G st';
  sp_ext : text st st';
  sp_v : visited st' v;
  sp_lo : forall u, visited st u -> t_lo st' u = t_lo st u;
  sp_stack : exists s, t_stack st' = s ++ t_stack st /\ (forall x, x ∈ s -> ~ visited st x) /\
    (forall x w, x ∈ s -> w ∈ adj x -> w ∈ t_stack st -> t_lo st' v <= t_idx st w) /\
    ((v ∉ s /\ t_next st <= t_lo st' v) \/
     (exists y, y ∈ t_stack st /\ t_idx st y = t_lo st' v /\ reach v y))
}.

(** The loop invariant: [st0] the state before the call of [v], [st1] after
    entering it, [done] the successors already handled. *)
Record loop_inv (G : list string) (v : string) (st0 : tstate_) (done_ : list string)
    (st : tstate_) : Prop := {
  li_inv : tinv (v :: G) st;
  li_ext : text (t_enter v st0) st;
  li_lo : forall u, visited st0 u -> t_lo st u = t_lo st0 u;
  li_v : t_idx st v = t_next st0;
  li_low_le : t_lo st v <= t_next st0;
  li_low : t_lo st v = t_next st0 \/
    (exists y, y ∈ t_stack st0 /\ t_idx st0 y = t_lo st v /\ reach v y);
  li_done : forall w, w ∈ done_ -> visited st w /\ (w ∈ t_stack st0 -> t_lo st v <= t_idx st0 w);
  li_stack : exists s, t_stack st = s ++ v :: t_stack st0 /\
    (forall x, x ∈ s -> ~ visited st0 x /\ x <> v) /\
    (forall x w, x ∈ s -> w ∈ adj x -> w ∈ t_stack st0 -> t_lo st v <= t_idx st0 w)
}.

Lemma loop_enter G v st0 :
  tinv G st0 -> ~ visited st0 v -> v ∈ nodes -> (forall g, g ∈ G -> reach g v) ->
  loop_inv G v st0 [] (t_enter v st0).
Proof.
  intros Hi Hv Hn Hg. destruct (t_enter_spec G st0 v Hi Hv Hn Hg) as (Hi1 & He & Hx & Hl & Hlo).
  split; [done|apply text_refl|done|done|lia|by left|set_solver|].
  exists []. split_and!; [done|set_solver|set_solver].
Qed.

Lemma visited_enter v st u : visited (t_enter v st) u <-> u = v \/ visited st u.
Proof. unfold visited. cbn. rewrite lookup_insert. case_decide; naive_solver. Qed.

Lemma text_enter v st : ~ visited st v -> text st (t_enter v st).
Proof.
  intros Hv. split; cbn; [|exists []; by rewrite app_nil_r|lia].
  intros u Hu. rewrite lookup_insert_ne; [done|]. by intros ->.
Qed.

(** Lowering [low[v]] to the index of an older relation [v] reaches. *)
Lemma loop_set_low G v st0 done_ st n :
  loop_inv G v st0 done_ st -> n < t_lo st v ->
  (exists y, y ∈ t_stack st0 /\ t_idx st0 y = n /\ reach v y) -> ~ visited st0 v ->
  loop_inv G v st0 done_ (set_low v n st).
Proof.
  intros [Hi He Hlo Hv Hle Hl Hd (s & Hs & Hns & Hb)] Hn Hy Hnv.
  assert (Hlv : t_lo (set_low v n st) v = n).
  { rewrite t_lo_set_low. by rewrite decide_True. }
  split.
  - by apply set_low_inv.
  - destruct He. by split.
  - intros u Hu. rewrite t_lo_set_low, decide_False; [by apply Hlo|]. by intros ->.
  - done.
  - rewrite Hlv. lia.
  - rewrite Hlv. by right.
  - intros w Hw. destruct (Hd w Hw) as [? Hb']. split; [done|]. intros Hw'.
    rewrite Hlv. specialize (Hb' Hw'). lia.
  - exists s. split_and!; [done|done|]. intros x w Hx Hw Hw'. rewrite Hlv.
    specialize (Hb x w Hx Hw Hw'). lia.
Qed.

Lemma loop_old G v st0 done_ st u :
  loop_inv G v st0 done_ st -> ~ visited st0 v -> visited st0 u ->
  visited st u /\ t_idx st u = t_idx st0 u.
Proof.
  intros Hl Hv Hu. pose proof (text_trans _ _ _ (text_enter v st0 Hv) (li_ext _ _ _ _ _ Hl)) as He.
  split; [by eapply text_vis|by apply text_tidx].
Qed.

(** Handling one more successor that is visited already. *)
Lemma loop_done G v st0 done_ st w :
  loop_inv G v st0 done_ st -> visited st w ->
  (w ∈ t_stack st0 -> t_lo st v <= t_idx st0 w) ->
  loop_inv G v st0 (done_ ++ [w]) st.
Proof.
  intros [Hi He Hlo Hv Hle Hl Hd Hs] Hw Hb. split; try done.
  intros u [Hu|Hu%list_elem_of_singleton]%elem_of_app; [by apply Hd|by subst].
Qed.

(** A successor already visited. *)
Lemma loop_step_seen G v st0 done_ st w i :
  tinv G st0 -> loop_inv G v st0 done_ st -> ~ visited st0 v -> w ∈ adj v ->
  t_index st !! w = Some i ->
  loop_inv G v st0 (done_ ++ [w])
    (if bool_decide (w ∈ t_onStack st) && (i <? t_lo st v) then set_low v i st else st).
Proof.
  intros Hi0 Hl Hv Hw Hi. pose proof (li_inv _ _ _ _ _ Hl) as Hi1.
  assert (Hvw : visited st w) by by exists i.
  assert (Hiw : t_idx st w = i) by (unfold t_idx; by rewrite Hi).
  destruct (li_stack _ _ _ _ _ Hl) as (s & Hs & Hns & Hb).
  destruct (stack_split_idx _ _ _ _ _ Hi1 Hs) as [Habove _].
  destruct (_ && _) eqn:Hc.
  - apply andb_true_iff in Hc as [Hon%bool_decide_eq_true Hlt%Nat.ltb_lt].
    apply (ti_on _ _ Hi1) in Hon. rewrite Hs, elem_of_app, elem_of_cons in Hon.
    pose proof (li_low_le _ _ _ _ _ Hl) as Hle. rewrite <- (li_v _ _ _ _ _ Hl) in Hle.
    destruct Hon as [Hon|[ -> | Hon]].
    + specialize (Habove _ Hon). lia.
    + lia.
    + assert (Hvw0 : visited st0 w) by (by eapply stack_visited).
      destruct (loop_old _ _ _ _ _ w Hl Hv Hvw0) as [_ Hidx].
      apply loop_done; [|done|].
      * apply loop_set_low; [done..| |done]. exists w. split_and!; [done|lia|by apply rtc_once].
      * intros _. rewrite t_lo_set_low, decide_True by done. lia.
  - apply loop_done; [done|done|]. intros Hw0.
    assert (Hvw0 : visited st0 w) by (by eapply stack_visited).
    destruct (loop_old _ _ _ _ _ w Hl Hv Hvw0) as [_ Hidx].
    apply andb_false_iff in Hc as [Hc%bool_decide_eq_false|Hc%Nat.ltb_ge]; [|lia].
    exfalso. apply Hc, (ti_on _ _ Hi1). rewrite Hs. set_solver.
Qed.

(** A successor searched by a recursive call. *)
Lemma loop_step_new G v st0 done_ st w st1 :
  tinv G st0 -> loop_inv G v st0 done_ st -> ~ visited st0 v -> w ∈ adj v ->
  ~ visited st w -> strong_post (v :: G) w st st1 ->
  loop_inv G v st0 (done_ ++ [w])
    (if t_lo st1 w <? t_lo st1 v then set_low v (t_lo st1 w) st1 else st1).
Proof.
  intros Hi0 Hl Hv Hw Hnw [Hi1 He1 Hv1 Hlo1 (s1 & Hs1 & Hn1 & Hb1 & Hcase)].
  pose proof (li_inv _ _ _ _ _ Hl) as Hi.
  destruct (li_stack _ _ _ _ _ Hl) as (s & Hs & Hns & Hb).
  destruct (stack_split_idx _ _ _ _ _ Hi Hs) as [Habove _].
  assert (Hvv : visited st v) by (eapply stack_visited; [done|]; rewrite Hs; set_solver).
  assert (Hvst0 : forall u, u ∈ t_stack st0 -> visited st0 u) by (intros; by eapply stack_visited).
  pose proof (li_v _ _ _ _ _ Hl) as Hidv. pose proof (li_low_le _ _ _ _ _ Hl) as Hle.
  pose proof (Hlo1 v Hvv) as Hlov.
  assert (Hnw0 : ~ visited st0 w).
  { intros H. by destruct (loop_old _ _ _ _ _ w Hl Hv H) as [? _]. }
  (* the state after the call, with an unchanged low[v], restricted to bounds below it *)
  assert (Hgen : forall n st2, n <= t_lo st1 v -> n <= t_lo st1 w \/ s1 = [] ->
    t_lo st2 v = n -> (forall u, u <> v -> t_lo st2 u = t_lo st1 u) ->
    t_stack st2 = t_stack st1 -> tinv (v :: G) st2 -> text st1 st2 ->
    (n = t_next st0 \/ exists y, y ∈ t_stack st0 /\ t_idx st0 y = n /\ reach v y) ->
    loop_inv G v st0 (done_ ++ [w]) st2).
  { intros n st2 Hn1' Hn2' Hn Hlo2 Hstk Hi2 He2 Hlow.
    assert (He : text st st2) by (by eapply text_trans).
    split.
    - done.
    - eapply text_trans; [by apply Hl|done].
    - intros u Hu. destruct (loop_old _ _ _ _ _ u Hl Hv Hu) as [Hu' _].
      rewrite Hlo2 by (by intros ->). rewrite Hlo1 by done. by apply (li_lo _ _ _ _ _ Hl).
    - by rewrite (text_tidx _ _ _ He).
    - rewrite Hn. lia.
    - by rewrite Hn.
    - rewrite Hn. intros u [Hu|Hu%list_elem_of_singleton]%elem_of_app.
      + destruct (li_done _ _ _ _ _ Hl u Hu) as [Hu1 Hu2]. split; [by eapply text_vis|].
        intros Hu3. specialize (Hu2 Hu3). lia.
      + subst u. split; [by apply (text_vis _ _ _ He2)|]. intros H. by apply Hvst0 in H.
    - exists (s1 ++ s). rewrite Hstk, Hs1, Hs, <- app_assoc. split_and!; [done| |].
      + intros x [Hx|Hx]%elem_of_app; [|by apply Hns]. split.
        * intros H. apply (Hn1 x Hx). by destruct (loop_old _ _ _ _ _ x Hl Hv H).
        * intros ->. by apply (Hn1 v Hx).
      + rewrite Hn. intros x u [Hx|Hx]%elem_of_app Hu Hu0.
        * assert (u ∈ t_stack st) as Hust by (rewrite Hs; set_solver).
          specialize (Hb1 x u Hx Hu Hust).
          destruct (loop_old _ _ _ _ _ u Hl Hv (Hvst0 _ Hu0)) as [_ Heq].
          destruct Hn2' as [?| ->]; [lia|set_solver].
        * specialize (Hb x u Hx Hu Hu0). lia. }
  assert (Hlow0 : t_lo st1 v = t_next st0 \/
    exists y, y ∈ t_stack st0 /\ t_idx st0 y = t_lo st1 v /\ reach v y).
  { rewrite Hlov. by apply (li_low _ _ _ _ _ Hl). }
  destruct (Nat.ltb_spec (t_lo st1 w) (t_lo st1 v)) as [Hlt|Hge].
  - eapply (Hgen (t_lo st1 w)); [lia|by left|by rewrite t_lo_set_low, decide_True| |done| | |].
    + intros u Hu. by rewrite t_lo_set_low, decide_False.
    + by apply set_low_inv.
    + split; [done|exists []; by rewrite app_nil_r|cbn; lia].
    + right. destruct Hcase as [[_ Hnx]|(y & Hy & Hyi & Hr)].
      { pose proof (ti_lt _ _ Hi v) as Hvn. rewrite Hs in Hvn.
        specialize (Hvn ltac:(set_solver)). lia. }
      rewrite Hs, elem_of_app, elem_of_cons in Hy. destruct Hy as [Hy|[ -> | Hy]].
      * specialize (Habove _ Hy). lia.
      * lia.
      * exists y. destruct (loop_old _ _ _ _ _ y Hl Hv (Hvst0 _ Hy)) as [_ Heq].
        split_and!; [done|lia|]. by eapply rtc_l.
  - eapply (Hgen (t_lo st1 v)); try done; [lia|apply text_refl].
Qed.

(** *** The end of a call *)

(** [v] reached an older relation: it stays on the stack. *)
Lemma finish_keep G v st0 st :
  tinv G st0 -> ~ visited st0 v -> loop_inv G v st0 (adj v) st -> t_lo st v <> t_next st0 ->
  strong_post G v st0 st.
Proof.
  intros Hi0 Hv Hl Hne. pose proof (li_inv _ _ _ _ _ Hl) as Hi.
  destruct (li_stack _ _ _ _ _ Hl) as (s & Hs & Hns & Hb).
  destruct (stack_split_idx _ _ _ _ _ Hi Hs) as [Habove Hbelow].
  pose proof (li_v _ _ _ _ _ Hl) as Hidv.
  destruct (li_low _ _ _ _ _ Hl) as [?|(y & Hy & Hyi & Hry)]; [done|].
  assert (Hold : forall u, visited st0 u -> visited st u /\ t_idx st u = t_idx st0 u)
    by (intros; by eapply loop_old).
  assert (Hyv : visited st0 y) by (by eapply stack_visited).
  assert (HyS : y ∈ t_stack st) by (rewrite Hs; set_solver).
  split.
  - split; try apply Hi.
    + intros g Hg. apply (ti_gray _ _ Hi). by right.
    + intros x w Hx Hnx Hw. destruct (decide (x = v)) as [->|Hxv].
      * by destruct (li_done _ _ _ _ _ Hl w Hw).
      * eapply (ti_black _ _ Hi); [done| |done]. rewrite elem_of_cons. tauto.
    + intros x Hx. destruct (ti_up _ _ Hi x Hx) as (g & Hg & Hle & Hr).
      apply elem_of_cons in Hg as [->|Hg]; [|by exists g].
      destruct (ti_up _ _ Hi y HyS) as (g2 & Hg2 & Hle2 & Hr2).
      destruct (Hold _ Hyv) as [_ Hyi']. pose proof (Hbelow y Hy).
      apply elem_of_cons in Hg2 as [->|Hg2]; [lia|].
      exists g2. split_and!; [done|lia|]. etrans; [exact Hr|]. by etrans.
    + intros g x Hg. apply (ti_down _ _ Hi). by right.
  - eapply text_trans; [by apply text_enter|by apply Hl].
  - eapply stack_visited; [done|]. rewrite Hs. set_solver.
  - apply Hl.
  - exists (s ++ [v]). rewrite Hs, <- app_assoc. split_and!; [done| | |].
    + intros x [Hx|Hx%list_elem_of_singleton]%elem_of_app; [by apply Hns|by subst].
    + intros x w [Hx|Hx%list_elem_of_singleton]%elem_of_app Hw Hw0; [by eapply Hb|subst].
      by apply (li_done _ _ _ _ _ Hl w Hw).
    + right. by exists y.
Qed.

Lemma pop_to_split v s rest : v ∉ s -> pop_to v (s ++ v :: rest) = (s ++ [v], rest).
Proof.
  induction s as [|w s IH]; intros Hv; cbn.
  - by rewrite Stdlib.Strings.String.eqb_refl.
  - destruct (Stdlib.Strings.String.eqb_spec w v) as [->|]; [set_solver|].
    rewrite IH by set_solver. done.
Qed.

Lemma take_S_snoc {A} (o : list A) (c : A) k :
  k < length o -> take (S k) (o ++ [c]) = take (S k) o.
Proof. intros. by rewrite take_app_le by lia. Qed.

(** The component [s ++ [v]] is closed, up to what is emitted already. *)
Lemma comp_closed G v st0 st s :
  tinv G st0 -> ~ visited st0 v -> loop_inv G v st0 (adj v) st -> t_lo st v = t_next st0 ->
  t_stack st = s ++ v :: t_stack st0 ->
  (forall x w, x ∈ s ++ [v] -> w ∈ adj x -> w ∈ s ++ [v] \/ w ∈ concat (t_out st)).
Proof.
  intros Hi0 Hv Hl Hlo Hs. pose proof (li_inv _ _ _ _ _ Hl) as Hi.
  destruct (li_stack _ _ _ _ _ Hl) as (s' & Hs' & Hns & Hb).
  assert (s' = s) as -> by (rewrite Hs in Hs'; by apply app_inv_tail in Hs').
  destruct (stack_split_idx _ _ _ _ _ Hi Hs) as [Habove Hbelow].
  pose proof (li_v _ _ _ _ _ Hl) as Hidv.
  assert (Hlow : forall w, w ∈ t_stack st0 -> t_lo st v <= t_idx st0 w -> False).
  { intros w Hw Hle. specialize (Hbelow w Hw).
    destruct (loop_old _ _ _ _ _ w Hl Hv ltac:(by eapply stack_visited)) as [_ Heq]. lia. }
  intros x w Hx Hw.
  assert (Hvw : visited st w /\ (w ∈ t_stack st0 -> False)).
  { apply elem_of_app in Hx as [Hx|Hx%list_elem_of_singleton].
    - split; [|intros Hw0; eapply Hlow; [done|by eapply Hb]].
      destruct (Hns x Hx) as [Hnx Hnv]. eapply (ti_black _ _ Hi); [|  |done].
      + rewrite Hs. set_solver.
      + intros [->|Hg]%elem_of_cons; [done|].
        apply Hnx. eapply stack_visited; [done|]. by apply (ti_gray _ _ Hi0).
    - subst x. destruct (li_done _ _ _ _ _ Hl w Hw) as [? Hd]. split; [done|].
      intros Hw0. eapply Hlow; [done|by apply Hd]. }
  destruct Hvw as [Hvw Hn]. apply (ti_vis _ _ Hi) in Hvw as [Hst|]; [left|by right].
  rewrite Hs in Hst. set_solver.
Qed.

Lemma comp_reach G v st0 st s :
  tinv G st0 -> ~ visited st0 v -> loop_inv G v st0 (adj v) st -> t_lo st v = t_next st0 ->
  t_stack st = s ++ v :: t_stack st0 ->
  forall a b, a ∈ s ++ [v] -> b ∈ s ++ [v] -> reach a b.
Proof.
  intros Hi0 Hv Hl Hlo Hs. pose proof (li_inv _ _ _ _ _ Hl) as Hi.
  pose proof (comp_closed _ _ _ _ _ Hi0 Hv Hl Hlo Hs) as Hcl.
  destruct (stack_split_idx _ _ _ _ _ Hi Hs) as [Habove Hbelow].
  assert (Hs2 : t_stack st = (s ++ [v]) ++ t_stack st0) by (by rewrite Hs, <- app_assoc).
  assert (Hstay : forall x g, reach x g -> x ∈ s ++ [v] \/ x ∈ concat (t_out st) ->
    g ∈ s ++ [v] \/ g ∈ concat (t_out st)).
  { intros x g Hr. induction Hr as [|x y z Hxy _ IH]; [done|]. intros Hx. apply IH.
    destruct Hx as [Hx|Hx]; [by eapply Hcl|]. right.
    apply list_elem_of_In, in_concat in Hx as (comp & Hc & Hx).
    apply list_elem_of_In in Hc, Hx. apply list_elem_of_lookup in Hc as [k Hk].
    pose proof (ti_out _ _ Hi _ _ _ _ Hk Hx Hxy) as Hin.
    apply list_elem_of_In, in_concat in Hin as (c' & Hc' & Hy).
    apply list_elem_of_In, in_concat. exists c'. split; [|done].
    apply list_elem_of_In, elem_of_take in Hc' as (i & Hi' & _).
    apply list_elem_of_In, list_elem_of_lookup. eauto. }
  assert (Hin : forall x, x ∈ s ++ [v] -> reach x v /\ reach v x).
  { intros x Hx. assert (HxS : x ∈ t_stack st) by (rewrite Hs2; set_solver).
    split.
    - destruct (ti_up _ _ Hi x HxS) as (g & Hg & _ & Hr).
      apply elem_of_cons in Hg as [->|Hg]; [done|]. exfalso.
      pose proof (ti_gray _ _ Hi0 _ Hg) as Hg0.
      assert (HgS : g ∈ t_stack st) by (rewrite Hs2; set_solver).
      destruct (Hstay x g Hr (or_introl Hx)) as [Hc|Hc].
      + by destruct (stack_disjoint _ _ _ _ Hi Hs2 g Hc).
      + by destruct (stack_disjoint _ _ _ [] Hi (eq_sym (app_nil_r _)) g HgS).
    - apply (ti_down _ _ Hi); [by left|done|].
      apply elem_of_app in Hx as [Hx|Hx%list_elem_of_singleton]; [|by subst].
      specialize (Habove x Hx). lia. }
  intros a b Ha Hb. etrans; [by apply Hin|by apply Hin].
Qed.

(** [v] is the root of its component: the component is popped and emitted. *)
Lemma finish_emit G v st0 st :
  tinv G st0 -> ~ visited st0 v -> loop_inv G v st0 (adj v) st -> t_lo st v = t_next st0 ->
  strong_post G v st0 (t_emit v st).
Proof.
  intros Hi0 Hv Hl Hlo. pose proof (li_inv _ _ _ _ _ Hl) as Hi.
  destruct (li_stack _ _ _ _ _ Hl) as (s & Hs & Hns & Hb).
  pose proof (comp_closed _ _ _ _ _ Hi0 Hv Hl Hlo Hs) as Hcl.
  pose proof (comp_reach _ _ _ _ _ Hi0 Hv Hl Hlo Hs) as Hreach.
  destruct (stack_split_idx _ _ _ _ _ Hi Hs) as [Habove Hbelow].
  assert (Hvs : v ∉ s) by (intros H; by destruct (Hns v H)).
  assert (Hemit : t_emit v st = mkT (t_index st) (t_low st) (t_onStack st ∖ list_to_set (s ++ [v]))
    (t_stack st0) (t_next st) (t_out st ++ [sort_strings (s ++ [v])])).
  { unfold t_emit. by rewrite Hs, pop_to_split. }
  assert (Hs2 : t_stack st = (s ++ [v]) ++ t_stack st0) by (by rewrite Hs, <- app_assoc).
  assert (Hconcat : forall u, u ∈ concat (t_out (t_emit v st)) <->
    u ∈ concat (t_out st) \/ u ∈ s ++ [v]).
  { intros u. rewrite Hemit. cbn [t_out]. rewrite concat_app, elem_of_app. cbn.
    by rewrite app_nil_r, elem_of_sort_strings. }
  assert (Hvis : forall u, visited (t_emit v st) u <-> visited st u) by (by rewrite Hemit).
  assert (Hidx : forall u, t_idx (t_emit v st) u = t_idx st u) by (by rewrite Hemit).
  assert (Hstk : t_stack (t_emit v st) = t_stack st0) by (by rewrite Hemit).
  assert (HG : forall g, g ∈ G -> g ∈ t_stack st0) by apply (ti_gray _ _ Hi0).
  assert (Hbelow' : forall u, u ∈ t_stack st0 -> u ∈ t_stack st) by (rewrite Hs; set_solver).
  split.
  - split; rewrite ?Hstk.
    + intros u. rewrite Hvis, (ti_vis _ _ Hi), Hs2, elem_of_app, Hconcat. tauto.
    + assert (t_stack st0 ++ concat (t_out (t_emit v st)) ≡ₚ t_stack st ++ concat (t_out st)) as ->;
        [|apply (ti_nodup _ _ Hi)].
      rewrite Hs2, Hemit. cbn [t_out]. rewrite concat_app. cbn. rewrite app_nil_r.
      unfold sort_strings. rewrite merge_sort_Permutation. solve_Permutation.
    + intros u. rewrite Hemit. cbn [t_onStack].
      rewrite elem_of_difference, (ti_on _ _ Hi), Hs2, elem_of_app, elem_of_list_to_set.
      split; [tauto|]. intros Hu. split; [by right|]. intros Hu'.
      by destruct (stack_disjoint _ _ _ _ Hi Hs2 u Hu').
    + pose proof (ti_sorted _ _ Hi) as H. rewrite Hs2 in H. apply StronglySorted_app in H as (_ & _ & H).
      eapply StronglySorted_impl_elem; [|exact H]. intros x y _ _. by rewrite !Hidx.
    + intros u Hu. rewrite Hidx, Hemit. by apply (ti_lt _ _ Hi), Hbelow'.
    + intros k comp x w Hk Hx Hw. rewrite Hemit in *. cbn [t_out] in *.
      apply lookup_app_Some in Hk as [Hk|[Hge Hk]].
      * rewrite take_S_snoc by (by eapply lookup_lt_Some). by eapply (ti_out _ _ Hi).
      * apply list_lookup_singleton_Some in Hk as [Hk <-].
        rewrite take_ge by (rewrite length_app; cbn; lia).
        rewrite concat_app, elem_of_app. cbn. rewrite app_nil_r, elem_of_sort_strings.
        rewrite elem_of_sort_strings in Hx. destruct (Hcl x w Hx Hw); tauto.
    + intros comp a b. rewrite Hemit. cbn [t_out].
      intros [Hc|Hc%list_elem_of_singleton]%elem_of_app Ha Hb'; [by eapply (ti_scc _ _ Hi)|].
      subst comp. rewrite elem_of_sort_strings in Ha, Hb'. by apply Hreach.
    + done.
    + intros x w Hx Hnx Hw. rewrite Hvis. eapply (ti_black _ _ Hi); [by apply Hbelow'| |done].
      intros [->|?]%elem_of_cons; [|done]. apply Hv. by eapply stack_visited.
    + intros x Hx. rewrite Hidx. destruct (ti_up _ _ Hi x (Hbelow' _ Hx)) as (g & Hg & Hle & Hr).
      exists g. rewrite Hidx. split_and!; [|done|done].
      apply elem_of_cons in Hg as [->|Hg]; [|done]. specialize (Hbelow x Hx). lia.
    + intros g x Hg Hx. rewrite !Hidx. apply (ti_down _ _ Hi); [by right|by apply Hbelow'].
    + intros u Hu. by apply (ti_nodes _ _ Hi), Hvis.
  - eapply text_trans; [by apply text_enter|]. eapply text_trans; [by apply Hl|].
    rewrite Hemit. split; [done|by eexists|done].
  - apply Hvis. eapply stack_visited; [done|]. rewrite Hs. set_solver.
  - intros u Hu. rewrite Hemit. by apply (li_lo _ _ _ _ _ Hl).
  - exists []. rewrite Hstk. split_and!; [done|set_solver|set_solver|]. left. split; [set_solver|].
    rewrite Hemit. unfold t_lo in *. cbn. lia.
Qed.

(** *** The recursion *)

Definition unvis (st : tstate_) : nat :=
  length (filter (fun n => t_index st !! n = None) nodes).

Lemma filter_length_le {A} (P Q : A -> Prop) `{!forall x, Decision (P x), !forall x, Decision (Q x)}
    (l : list A) :
  (forall x, x ∈ l -> P x -> Q x) -> length (filter P l) <= length (filter Q l).
Proof.
  induction l as [|x l IH]; intros Himp; [done|]. rewrite !filter_cons.
  specialize (IH ltac:(intros; apply Himp; [by right|done])).
  destruct (decide (P x)), (decide (Q x)); cbn; try lia.
  exfalso. apply n, Himp; [by left|done].
Qed.

Lemma filter_length_lt {A} (P Q : A -> Prop) `{!forall x, Decision (P x), !forall x, Decision (Q x)}
    (l : list A) y :
  (forall x, x ∈ l -> P x -> Q x) -> y ∈ l -> Q y -> ~ P y ->
  length (filter P l) < length (filter Q l).
Proof.
  intros Himp Hy Hq Hp. apply list_elem_of_split in Hy as (l1 & l2 & ->).
  rewrite !filter_app, !length_app, !filter_cons, decide_False, decide_True by done. cbn.
  assert (length (filter P l1) <= length (filter Q l1)).
  { apply filter_length_le. intros. apply Himp; [set_solver|done]. }
  assert (length (filter P l2) <= length (filter Q l2)).
  { apply filter_length_le. intros. apply Himp; [set_solver|done]. }
  lia.
Qed.

Lemma not_visited_None st v : ~ visited st v <-> t_index st !! v = None.
Proof. unfold visited. by rewrite eq_None_not_Some. Qed.

Lemma unvis_ext st st' : text st st' -> unvis st' <= unvis st.
Proof.
  intros He. apply filter_length_le. intros x _ Hx.
  destruct (t_index st !! x) eqn:E; [|done].
  rewrite (te_idx _ _ He) in Hx; [congruence|by eexists].
Qed.

Lemma unvis_enter st v : ~ visited st v -> v ∈ nodes -> unvis (t_enter v st) < unvis st.
Proof.
  intros Hv Hn. apply (filter_length_lt _ _ _ v); [|done|by apply not_visited_None|].
  - intros x _. cbn. rewrite lookup_insert. by case_decide.
  - cbn. by rewrite lookup_insert_eq.
Qed.

Lemma loop_fold fuel G v st0 l1 l2 st :
  (forall G' w st', tinv G' st' -> ~ visited st' w -> w ∈ nodes ->
     (forall g, g ∈ G' -> reach g w) -> unvis st' < fuel -> strong_post G' w st' (strong fuel adj w st')) ->
  tinv G st0 -> ~ visited st0 v -> v ∈ nodes -> (forall g, g ∈ G -> reach g v) ->
  unvis st < fuel -> adj v = l1 ++ l2 -> loop_inv G v st0 l1 st ->
  loop_inv G v st0 (adj v)
    (fold_left (fun st w => t_succ (strong fuel adj) v w st) l2 st).
Proof.
  intros IH Hi0 Hv Hn Hg. revert l1 st. induction l2 as [|w l2 IHl]; intros l1 st Hf Ha Hl; cbn.
  { by rewrite Ha, app_nil_r. }
  assert (Hw : w ∈ adj v) by (rewrite Ha; set_solver).
  assert (Hstep : loop_inv G v st0 (l1 ++ [w]) (t_succ (strong fuel adj) v w st) /\
    unvis (t_succ (strong fuel adj) v w st) < fuel).
  { unfold t_succ. destruct (t_index st !! w) as [i|] eqn:Hiw.
    - split; [by apply loop_step_seen|]. by case_match.
    - apply not_visited_None in Hiw.
      assert (Hsp : strong_post (v :: G) w st (strong fuel adj w st)).
      { apply IH; [by apply Hl|done|by eapply Hclosed| |done].
        intros g [->|Hg']%elem_of_cons; [by apply rtc_once|].
        eapply rtc_r; [by apply Hg|done]. }
      split; [by eapply loop_step_new|].
      pose proof (unvis_ext _ _ (sp_ext _ _ _ _ Hsp)).
      case_match; [|lia]. unfold unvis in *. cbn. lia. }
  apply (IHl (l1 ++ [w])); [by apply Hstep|by rewrite <- app_assoc|by apply Hstep].
Qed.

Lemma strong_spec fuel G v st :
  tinv G st -> ~ visited st v -> v ∈ nodes -> (forall g, g ∈ G -> reach g v) ->
  unvis st < fuel -> strong_post G v st (strong fuel adj v st).
Proof.
  revert G v st. induction fuel as [|fuel IH]; intros G v st Hi Hv Hn Hg Hf; [lia|].
  cbn [strong].
  pose proof (unvis_enter st v Hv Hn) as Hlt.
  assert (Hl : loop_inv G v st (adj v)
    (fold_left (fun st w => t_succ (strong fuel adj) v w st) (adj v) (t_enter v st))).
  { eapply (loop_fold _ _ _ _ []); [exact IH|done..|lia|done|by apply loop_enter]. }
  set (st1 := fold_left _ _ _) in *. pose proof (li_v _ _ _ _ _ Hl) as Hidv.
  destruct (Nat.eqb_spec (t_lo st1 v) (t_idx st1 v)) as [He|Hne]; cbn [negb].
  - apply finish_emit; [done..|congruence].
  - apply finish_keep; [done..|congruence].
Qed.

Lemma t_init_inv : tinv [] t_init.
Proof.
  assert (Hv : forall u, ~ visited t_init u) by (intros u; unfold visited; by intros [? ?]).
  split; cbn.
  - intros v. split; [by intros ?%Hv|set_solver].
  - constructor.
  - set_solver.
  - constructor.
  - set_solver.
  - by intros ? ? ? ? [=].
  - set_solver.
  - set_solver.
  - set_solver.
  - set_solver.
  - set_solver.
  - by intros v ?%Hv.
Qed.

Lemma tarjan_loop l st :
  l ⊆ nodes -> tinv [] st ->
  let st' := fold_left (fun st n =>
    match t_index st !! n with
    | Some _ => st
    | None => strong (S (length nodes)) adj n st
    end) l st in
  tinv [] st' /\ text st st' /\ forall v, v ∈ l -> visited st' v.
Proof.
  revert st. induction l as [|n l IH]; intros st Hl Hi; cbn.
  { split_and!; [done|apply text_refl|set_solver]. }
  set (st1 := match t_index st !! n with Some _ => _ | None => _ end).
  assert (H1 : tinv [] st1 /\ text st st1 /\ visited st1 n).
  { unfold st1. destruct (t_index st !! n) as [i|] eqn:Hn.
    - split_and!; [done|apply text_refl|by exists i].
    - assert (Hsp : strong_post [] n st (strong (S (length nodes)) adj n st)).
      { apply strong_spec; [done|by apply not_visited_None|set_solver|set_solver|].
        unfold unvis. pose proof (length_filter (fun n => t_index st !! n = None) nodes). lia. }
      split_and!; [apply (sp_inv _ _ _ _ Hsp)|apply (sp_ext _ _ _ _ Hsp)|apply (sp_v _ _ _ _ Hsp)]. }
  destruct H1 as (Hi1 & He1 & Hv1).
  destruct (IH st1) as (Hi2 & He2 & Hv2); [set_solver|done|].
  split_and!; [done|by eapply text_trans|].
  intros v [->|Hv]%elem_of_cons; [by eapply text_vis|by apply Hv2].
Qed.

Lemma tarjan_components : components_ok adj nodes (tarjan adj nodes).
Proof.
  destruct (tarjan_loop nodes t_init ltac:(done) t_init_inv) as (Hi & _ & Hv).
  unfold tarjan. set (st := fold_left _ _ _) in *. cbn zeta in Hi, Hv.
  assert (Hs : t_stack st = []).
  { destruct (t_stack st) as [|x s] eqn:E; [done|].
    destruct (ti_up _ _ Hi x) as (g & Hg & _); [rewrite E; left|]. by apply not_elem_of_nil in Hg. }
  split.
  - intros v. split; [|intros H; apply Hv, (ti_vis _ _ Hi) in H as [H|H]; [|done]].
    + intros H. apply (ti_nodes _ _ Hi), (ti_vis _ _ Hi). by right.
    + rewrite Hs in H. by apply not_elem_of_nil in H.
  - pose proof (ti_nodup _ _ Hi) as H. by rewrite Hs in H.
  - apply (ti_out _ _ Hi).
  - apply (ti_scc _ _ Hi).
Qed.

End tarjan.

(** ** Correctness of the collection and of cone *)

Lemma elem_of_dedupe x l : x ∈ dedupe l <-> x ∈ l.
Proof.
  induction l as [|y [|z l] IH]; [done|done|]. cbn [dedupe] in *.
  destruct (Stdlib.Strings.String.eqb_spec y z) as [->|Hne].
  - rewrite IH, !elem_of_cons. tauto.
  - rewrite !elem_of_cons, IH, elem_of_cons. tauto.
Qed.

Section collect.
Context (rules : gmap string (list Rule)).

Definition derived (rel : string) : Prop := exists r rs, rules !! rel = Some (r :: rs).

Local Notation reads := (derived_reads rules).

Lemma derived_reads_derived v w : w ∈ reads v -> derived w.
Proof.
  unfold derived_reads. rewrite list_elem_of_In, in_concat.
  intros (ds & Hds & Hw). apply in_map_iff in Hds as (r & <- & _).
  apply list_elem_of_In, list_elem_of_omap in Hw as (l & _ & Hl).
  destruct (rules !! Rel l) as [[|r' rs]|] eqn:E; simplify_eq. by exists r', rs.
Qed.

Definition c_reads (st : cstate) (x : string) : list string := default [] (c_adj st !! x).

(** From [st] to [st']: what was seen is untouched, what is new is complete. *)
Record cpost (st st' : cstate) : Prop := {
  cp_seen : c_seen st ⊆ c_seen st';
  cp_old : forall x, x ∈ c_seen st -> c_reads st' x = c_reads st x;
  cp_new : forall x, x ∈ c_seen st' -> x ∉ c_seen st ->
    c_reads st' x = reads x /\ forall w, w ∈ reads x -> w ∈ c_seen st'
}.

Record cinv (st : cstate) : Prop := {
  ci_nodes : forall x, x ∈ c_nodes st <-> x ∈ c_seen st;
  ci_derived : forall x, x ∈ c_seen st -> derived x;
  ci_unseen : forall x, x ∉ c_seen st -> c_reads st x = []
}.

Lemma cpost_refl st : cpost st st.
Proof. split; [done|done|set_solver]. Qed.

Lemma cpost_trans a b c : cpost a b -> cpost b c -> cpost a c.
Proof.
  intros H1 H2. split.
  - by etrans; [apply H1|apply H2].
  - intros x Hx. rewrite (cp_old _ _ H2); [by apply (cp_old _ _ H1)|by apply (cp_seen _ _ H1)].
  - intros x Hx Hn. destruct (decide (x ∈ c_seen b)) as [Hb|Hb].
    + destruct (cp_new _ _ H1 x Hb Hn) as [He Hw]. rewrite (cp_old _ _ H2) by done.
      split; [done|]. intros w Hw'. by apply (cp_seen _ _ H2), Hw.
    + by apply (cp_new _ _ H2).
Qed.

Definition c_left (st : cstate) : nat := size (dom rules ∖ c_seen st).

(** The body of the loop of one relation [rel], over the reads left. *)
Lemma collect_loop fuel rel l1 l2 st :
  (forall d st, derived d -> cinv st -> c_left st < fuel ->
     cinv (collect fuel rules d st) /\ cpost st (collect fuel rules d st) /\
     d ∈ c_seen (collect fuel rules d st)) ->
  reads rel = l1 ++ l2 -> cinv st -> c_left st < fuel -> rel ∈ c_seen st -> c_reads st rel = l1 ->
  let st' := fold_left (fun st d =>
      let st' := mkC (c_seen st) (c_nodes st)
        (<[rel := default [] (c_adj st !! rel) ++ [d]]> (c_adj st)) in
      collect fuel rules d st') l2 st in
  cinv st' /\ c_seen st ⊆ c_seen st' /\ c_reads st' rel = reads rel /\
  (forall x, x ∈ c_seen st -> x <> rel -> c_reads st' x = c_reads st x) /\
  (forall x, x ∈ c_seen st' -> x ∉ c_seen st ->
     c_reads st' x = reads x /\ forall w, w ∈ reads x -> w ∈ c_seen st') /\
  (forall w, w ∈ l2 -> w ∈ c_seen st').
Proof.
  intros IH. revert l1 st. induction l2 as [|d l2 IHl]; intros l1 st Hr Hi Hf Hrel Hl1; cbn zeta.
  { cbn. rewrite Hl1, Hr, app_nil_r. split_and!; try done; set_solver. }
  cbn [fold_left]. set (sta := mkC _ _ _).
  assert (Hra : forall x, x <> rel -> c_reads sta x = c_reads st x).
  { intros x Hx. unfold c_reads, sta. cbn. by rewrite lookup_insert_ne. }
  assert (Hia : cinv sta).
  { destruct Hi as [H1 H2 H3]. split; [done|done|]. intros x Hx.
    rewrite Hra; [by apply H3|]. by intros ->. }
  assert (Hd : derived d) by (apply (derived_reads_derived rel); rewrite Hr; set_solver).
  destruct (IH d sta Hd Hia Hf) as (Hib & Hpb & Hdb).
  set (stb := collect fuel rules d sta) in *.
  assert (Hsub : c_seen st ⊆ c_seen stb) by apply (cp_seen _ _ Hpb).
  destruct (IHl (l1 ++ [d]) stb) as (Hi' & Hs' & Hr' & Hold & Hnew & Hl2).
  - by rewrite <- app_assoc.
  - done.
  - unfold c_left in *. eapply Nat.le_lt_trans; [|exact Hf]. apply subseteq_size. set_solver.
  - by apply Hsub.
  - rewrite (cp_old _ _ Hpb) by done. unfold c_reads, sta. cbn. rewrite lookup_insert_eq. cbn.
    by rewrite <- Hl1.
  - split_and!; [done|by etrans|done| | |].
    + intros x Hx Hne. rewrite Hold by (by auto). rewrite (cp_old _ _ Hpb) by done. by apply Hra.
    + intros x Hx Hn. destruct (decide (x ∈ c_seen stb)) as [Hb|Hb]; [|by apply Hnew].
      destruct (cp_new _ _ Hpb x Hb Hn) as [He Hw].
      rewrite Hold; [|done|by intros ->]. split; [done|]. intros w Hw'. by apply Hs', Hw.
    + intros w [->|Hw]%elem_of_cons; [by apply Hs'|by apply Hl2].
Qed.

Lemma collect_spec fuel d st :
  derived d -> cinv st -> c_left st < fuel ->
  cinv (collect fuel rules d st) /\ cpost st (collect fuel rules d st) /\
  d ∈ c_seen (collect fuel rules d st).
Proof.
  revert d st. induction fuel as [|fuel IH]; intros rel st Hd Hi Hf; [lia|].
  cbn [collect]. destruct Hd as (r & rs & Hrs). rewrite Hrs.
  case_decide as Hseen.
  { split_and!; [done|apply cpost_refl|done]. }
  set (st1 := mkC _ _ _).
  assert (Hi1 : cinv st1).
  { destruct Hi as [H1 H2 H3]. split; unfold st1; cbn.
    - intros x. rewrite elem_of_app, H1. set_solver.
    - intros x [->%elem_of_singleton|Hx]%elem_of_union; [by exists r, rs|by apply H2].
    - intros x Hx. unfold c_reads. cbn. apply H3. set_solver. }
  assert (Hf1 : c_left st1 < fuel).
  { unfold c_left in *. cbn. assert (dom rules ∖ ({[rel]} ∪ c_seen st) ⊂ dom rules ∖ c_seen st) as Hlt.
    { split; [set_solver|]. intros H. assert (rel ∈ dom rules) by (by apply elem_of_dom_2 in Hrs). set_solver. }
    apply subset_size in Hlt. lia. }
  destruct (collect_loop fuel rel [] (reads rel) st1 IH eq_refl Hi1 Hf1)
    as (Hi' & Hs' & Hr' & Hold & Hnew & Hl2).
  - unfold st1. cbn. set_solver.
  - unfold st1, c_reads. cbn. by apply (ci_unseen _ Hi).
  - set (st' := fold_left _ _ _) in *. cbn zeta in *. split_and!; [done| |].
    + split.
      * unfold st1 in Hs'. cbn in Hs'. set_solver.
      * intros x Hx. rewrite Hold; [done| |by intros ->]. unfold st1. cbn. set_solver.
      * intros x Hx Hn. destruct (decide (x = rel)) as [->|Hne]; [by split|].
        apply Hnew; [done|]. unfold st1. cbn. set_solver.
    + apply Hs'. unfold st1. cbn. set_solver.
Qed.

(** The specification of the evaluation order of a goal. *)
Record cone_ok (goal : string) (comps : list (list string)) : Prop := {
  cn_goal : goal ∈ concat comps;
  cn_derived : forall v, v ∈ concat comps -> derived v;
  cn_nodup : NoDup (concat comps);
  cn_deps : forall k comp v w, comps !! k = Some comp -> v ∈ comp -> w ∈ reads v ->
    w ∈ concat (take (S k) comps);
  cn_scc : forall comp a b, comp ∈ comps -> a ∈ comp -> b ∈ comp ->
    rtc (fun v w => w ∈ reads v) a b
}.

Lemma cone_correct goal : derived goal -> cone_ok goal (cone rules goal).
Proof.
  intros Hg.
  assert (Hi0 : cinv (mkC ∅ [] ∅)).
  { split; cbn; [set_solver|set_solver|]. intros x _. unfold c_reads. cbn. by rewrite lookup_empty. }
  destruct (collect_spec (S (size rules)) goal (mkC ∅ [] ∅) Hg Hi0) as (Hi & Hp & Hgs).
  { unfold c_left. cbn. rewrite difference_empty_L, size_dom. lia. }
  unfold cone. set (st := collect _ _ _ _) in *.
  assert (Hnew : forall x, x ∈ c_seen st ->
    c_reads st x = reads x /\ forall w, w ∈ reads x -> w ∈ c_seen st).
  { intros x Hx. apply (cp_new _ _ Hp); [done|set_solver]. }
  assert (Hadj : forall x w, x ∈ c_seen st -> w ∈ sorted_adj (c_adj st) x <-> w ∈ reads x).
  { intros x w Hx. unfold sorted_adj. rewrite elem_of_dedupe, elem_of_sort_strings.
    destruct (Hnew x Hx) as [<- _]. done. }
  assert (Hnodes : forall x, x ∈ sort_strings (c_nodes st) <-> x ∈ c_seen st).
  { intros x. by rewrite elem_of_sort_strings, (ci_nodes _ Hi). }
  destruct (tarjan_components (sorted_adj (c_adj st)) (sort_strings (c_nodes st)))
    as [Hcov Hnd Hdeps Hscc].
  { intros v w Hv Hw. rewrite Hnodes in *. apply Hadj in Hw; [|done]. by apply (Hnew v). }
  set (comps := tarjan _ _) in *.
  assert (Hseen : forall k comp v, comps !! k = Some comp -> v ∈ comp -> v ∈ c_seen st).
  { intros k comp v Hk Hv. apply Hnodes, Hcov. apply list_elem_of_In, in_concat.
    exists comp. split; apply list_elem_of_In; [|done]. apply list_elem_of_lookup. eauto. }
  split.
  - by apply Hcov, Hnodes.
  - intros v Hv%Hcov%Hnodes. by apply (ci_derived _ Hi).
  - done.
  - intros k comp v w Hk Hv Hw. eapply Hdeps; [done..|]. apply Hadj; [by eapply Hseen|done].
  - intros comp a b Hc Ha Hb. specialize (Hscc comp a b Hc Ha Hb).
    apply list_elem_of_lookup in Hc as [k Hk].
    assert (Has : a ∈ c_seen st) by (by eapply Hseen). clear Ha Hb Hk.
    induction Hscc as [a|a x b Hax _ IH]; [done|].
    apply Hadj in Hax; [|done]. eapply rtc_l; [exact Hax|]. apply IH. by apply (Hnew a).
Qed.

End collect.

(** The evaluation order of a goal lists the derived relations its rules
    reach, each in exactly one component; every relation a component reads is
    in that component or an earlier one, and two relations share a component
    only when each is reachable from the other. *)
Theorem cone_order rules goal : derived rules goal ->
  goal ∈ concat (cone rules goal) /\ NoDup (concat (cone rules goal)) /\
  (forall v, v ∈ concat (cone rules goal) -> derived rules v) /\
  (forall k comp v w, cone rules goal !! k = Some comp -> v ∈ comp -> w ∈ derived_reads rules v ->
     w ∈ concat (take (S k) (cone rules goal))) /\
  (forall comp a b, comp ∈ cone rules goal -> a ∈ comp -> b ∈ comp ->
     rtc (fun v w => w ∈ derived_reads rules v) a b).
Proof. intros H. by destruct (cone_correct rules goal H). Qed.

(** Two mutually recursive relations over a third. *)
Definition cone_demo : gmap string (list Rule) :=
  let lit r := mkLiteral r [mkTerm true "X" 0 0%N] false in
  let rule h bs := mkRule (lit h) (map lit bs) "n" "f" 1 1 None in
  list_to_map [("a", [rule "a" ["b"; "c"]]); ("b", [rule "b" ["a"]]); ("c", [rule "c" ["e"]])].

Lemma cone_order_witness :
  cone cone_demo "a" = [["c"]; ["a"; "b"]] /\ NoDup (concat (cone cone_demo "a")).
Proof.
  assert (H : derived cone_demo "a") by (eexists _, _; vm_compute; reflexivity).
  split; [vm_compute; reflexivity|]. apply (cone_order cone_demo "a" H).
Defined.
