(* ===== verification/DlBottomUp.v ===== *)
(** Bottom-up evaluation (internal/datalog/bottomup.go): the materialized body
    source, one component to fixpoint with semi-naive deltas, and the whole
    dependency cone of a goal. *)
From S2P Require Import Prelude DlIntern DlSyntax DlStrata DlRelation DlEngine DlJoin DlCone.

(** ** bottomUp, the body source over materialized relations *)

Record bottomUp : Type := mkBottomUp {
  bu_full : gmap string sgKey;
  bu_complete : gset string;
  bu_delta : gmap string relation;
  bu_pos : option nat
}.

Definition BU (A : Type) : Type := EM bottomUp A.

Definition set_delta (d : gmap string relation) (p : option nat) (b : bottomUp) : bottomUp :=
  mkBottomUp (bu_full b) (bu_complete b) d p.
Definition add_full (rel : string) (k : sgKey) (b : bottomUp) : bottomUp :=
  mkBottomUp (<[rel := k]> (bu_full b)) (bu_complete b) (bu_delta b) (bu_pos b).
Definition add_complete (rel : string) (b : bottomUp) : bottomUp :=
  mkBottomUp (bu_full b) ({[rel]} ∪ bu_complete b) (bu_delta b) (bu_pos b).

(** Reading a relation through its pointer, and writing back the index the
    read may have built. *)
Definition ref_get (e : Engine) (ref : relref) : option relation :=
  match ref with
  | RTable k => trel <$> e_tables e !! k
  | RBase rel => e_base e !! rel
  end.

Definition ref_set (ref : relref) (r : relation) (e : Engine) : Engine :=
  match ref with
  | RTable k =>
      match e_tables e !! k with
      | Some t => set_tables (<[k := mkTable r (tstate t)]> (e_tables e)) e
      | None => e
      end
  | RBase rel => set_base (<[rel := r]> (e_base e)) e
  end.

(** Engine.base[rel] or a materialized relation, as a reference. *)
Definition bu_source (e : Engine) (b : bottomUp) (rel : string) : option relref :=
  match bu_full b !! rel with
  | Some k => Some (RTable k)
  | None => if has_base e rel then Some (RBase rel) else None
  end.

Definition select_ref {X} (ref : relref) (b : binds) : EM X (list itup) := fun '(e, x) =>
  match ref_get e ref with
  | None => ((e, x), Err (EPanic "dangling relation"))
  | Some r => let '(cs, r') := selectCands r b in ((ref_set ref r' e, x), Ok cs)
  end.

Definition exists_ref {X} (ref : relref) (b : binds) : EM X bool := fun '(e, x) =>
  match ref_get e ref with
  | None => ((e, x), Ok false)
  | Some r => let '(f, r') := rel_exists r b in ((ref_set ref r' e, x), Ok f)
  end.

(** bottomUp.litTuples *)
Definition bu_litTuples (pos : nat) (lp : litPlan) (b : binds) : BU (list itup) :=
  e ← getE; s ← getX;
  match (match lp_buSrc lp with Some ref => Some ref | None => bu_source e s (lp_rel lp) end) with
  | None => throw (EUnknownRelation (lp_rel lp))
  | Some ref =>
      if bool_decide (bu_pos s = Some pos) then
        match bu_delta s !! lp_rel lp with
        | None => mret []
        | Some d =>
            let '(cs, d') := selectCands d b in
            _ ← modifyX (set_delta (<[lp_rel lp := d']> (bu_delta s)) (bu_pos s));
            mret cs
        end
      else select_ref ref b
  end.

(** bottomUp.negated *)
Definition bu_negated (lp : litPlan) (b : binds) : BU bool :=
  s ← getX;
  if negb (lp_derived lp) then
    if lp_base lp then exists_ref (RBase (lp_rel lp)) b else throw (EUnknownRelation (lp_rel lp))
  else if bool_decide (lp_rel lp ∉ bu_complete s) then throw (ENegIncomplete (lp_rel lp))
  else match bu_full s !! lp_rel lp with
    | Some k => exists_ref (RTable k) b
    | None => mret false
    end.

Definition bu_src : bodySource bottomUp := mkSource _ bu_litTuples bu_negated.

(** ** Tables *)

(** Engine.arityOf *)
Definition arityOf (e : Engine) (goal : string) : result DlError Z :=
  match e_rules e !! goal with
  | Some (r :: _) => Ok (Z.of_nat (arity (Head r)))
  | _ => match e_base e !! goal with
         | Some r => Ok (rarity r)
         | None => Err (EUnknownRelation goal)
         end
  end.

(** Engine.freeTable: the key of the all-free table, created if needed. *)
Definition freeTable {X} (rel : string) (n : nat) : EM X sgKey := fun '(e, x) =>
  let k := subgoalKey rel (free_binds n) in
  match e_tables e !! k with
  | Some _ => ((e, x), Ok k)
  | None =>
      ((set_tables (<[k := mkTable (newRelation rel (Z.of_nat n)) tableDirty]> (e_tables e)) e, x),
       Ok k)
  end.

Definition set_state {X} (k : sgKey) (s : tableState) : EM X unit :=
  modifyE (fun e => match e_tables e !! k with
    | Some t => set_tables (<[k := mkTable (trel t) s]> (e_tables e)) e
    | None => e
    end).

Definition table_state (e : Engine) (k : sgKey) : tableState :=
  match e_tables e !! k with Some t => tstate t | None => tableDirty end.

Definition table_tuples (e : Engine) (k : sgKey) : list itup :=
  match e_tables e !! k with Some t => tuples (trel t) | None => [] end.

(** deltaRelation: the tuples gained since index [from]. *)
Definition deltaRelation (r : relation) (from : nat) : option relation :=
  if length (tuples r) <=? from then None
  else Some (mkRelation (rname r) (rarity r) (drop from (tuples r)) [] ∅ None).

(** ** One component *)

(** The first loop of evalComponent: full relations, and the relations still
    to be computed with their tables. *)
Fixpoint comp_tables (rels : list string) : BU (list (string * sgKey)) :=
  match rels with
  | [] => mret []
  | rel :: rels' =>
      e ← getE;
      a ← lift_result (arityOf e rel);
      k ← freeTable rel (Z.to_nat a);
      _ ← modifyX (add_full rel k);
      e ← getE;
      if decide (table_state e k = tableComplete) then
        _ ← modifyX (add_complete rel);
        comp_tables rels'
      else
        rest ← comp_tables rels';
        mret ((rel, k) :: rest)
  end.

(** Seeding a table with the asserted facts of its name. *)
Definition comp_seed (rk : string * sgKey) : BU unit :=
  let '(rel, k) := rk in
  _ ← set_state k tableProducing;
  e ← getE;
  match e_base e !! rel with
  | Some br => for_each (tuples br) (fun t => record k t None "")
  | None => mret tt
  end.

(** The body positions of a rule that read the component itself. *)
Definition rec_positions (inComp : list string) (body : list Literal) : list nat :=
  omap (fun '(i, l) => if negb (Neg l) && bool_decide (Rel l ∈ inComp) then Some i else None)
       (imap pair body).

(** The rules that produce the pending relations, in file order, each with
    the table it fills and its recursive positions. *)
Definition comp_work (e : Engine) (rels : list string) (pending : list (string * sgKey))
    : list (Rule * sgKey * list nat) :=
  omap (fun r =>
    match list_find (fun rk => rk.1 = Rel (Head r)) pending with
    | Some (_, (_, k)) => Some (r, k, rec_positions rels (Body r))
    | None => None
    end) (e_ruleOrder e).

(** The plan of a rule, primed with the relations to read. *)
Definition primePlan (e : Engine) (b : bottomUp) (r : Rule) : list litPlan :=
  map (fun lp =>
    mkLitPlan (lp_rel lp) (lp_neg lp) (lp_derived lp) (lp_base lp)
      (match (if lp_derived lp then bu_full b !! lp_rel lp else None) with
       | Some k => Some (RTable k)
       | None => if lp_base lp then Some (RBase (lp_rel lp)) else None
       end)) (planBody e r).

(** One firing of a rule with the delta at position [p]. *)
Definition fire (p : option nat) (w : Rule * sgKey * list nat) : BU unit :=
  let '(r, k, _) := w in
  e ← getE; s ← getX;
  _ ← modifyX (fun s => set_delta (bu_delta s) p s);
  evalRule bu_src r (primePlan e s r) (free_binds (arity (Head r))) k.

(** The deltas of one round, and the marks after it. *)
Definition round_deltas (e : Engine) (pending : list (string * sgKey)) (mark : gmap string nat)
    : gmap string relation * gmap string nat :=
  fold_left (fun '(ds, m) '(rel, k) =>
    match e_tables e !! k with
    | None => (ds, m)
    | Some t =>
        let ds' := match deltaRelation (trel t) (default 0 (mark !! rel)) with
                   | Some d => <[rel := d]> ds
                   | None => ds
                   end in
        (ds', <[rel := length (tuples (trel t))]> m)
    end) pending (∅, mark).

(** The semi-naive rounds, [round] counting from 1.  The round bound makes
    every run finite; the fuel is never used up ([comp_rounds_fuel]). *)
Fixpoint comp_rounds (fuel : nat) (round : Z) (pending : list (string * sgKey))
    (work : list (Rule * sgKey * list nat)) (mark : gmap string nat) : BU unit :=
  match fuel with
  | O => throw EOutOfFuel
  | S fuel' =>
      e ← getE;
      let '(deltas, mark') := round_deltas e pending mark in
      if decide (deltas = ∅) then mret tt
      else if (MaxRounds (e_opts e) <? round)%Z then
        throw (ENoFixpoint (match pending with (rel, _) :: _ => rel | [] => "" end))
      else
        _ ← modifyX (set_delta deltas None);
        _ ← for_each work (fun w => for_each (snd w) (fun p => fire (Some p) w));
        _ ← modifyX (set_delta ∅ None);
        comp_rounds fuel' (round + 1) pending work mark'
  end.

(** completeComponent *)
Definition completeComponent (pending : list (string * sgKey)) : BU unit :=
  for_each pending (fun '(rel, k) =>
    _ ← set_state k tableComplete; modifyX (add_complete rel)).

(** Engine.evalComponent; the capacity hints ([reserve]) do not change any
    content and are left out. *)
Definition evalComponent (rels : list string) : BU unit :=
  pending ← comp_tables rels;
  match pending with
  | [] => mret tt
  | _ :: _ =>
      _ ← for_each pending comp_seed;
      e ← getE;
      let work := comp_work e rels pending in
      let recursive := existsb (fun w => negb (bool_decide (snd w = []))) work in
      _ ← for_each work (fire None);
      if negb recursive then completeComponent pending
      else
        e ← getE;
        _ ← comp_rounds (S (S (Z.to_nat (MaxRounds (e_opts e))))) 1 pending work ∅;
        completeComponent pending
  end.

(** Running with a fresh body source of another kind. *)
Definition with_source {X Y A} (y : Y) (m : EM Y A) : EM X A := fun '(e, x) =>
  match m (e, y) with ((e', _), res) => ((e', x), res) end.

(** Engine.solveBottomUp *)
Definition solveBottomUp {X} (goal : string) : EM X (list itup) :=
  with_source (mkBottomUp ∅ ∅ ∅ None) (
    e ← getE;
    _ ← for_each (cone (e_rules e) goal) evalComponent;
    e ← getE;
    a ← lift_result (arityOf e goal);
    k ← freeTable goal (Z.to_nat a);
    e ← getE;
    mret (table_tuples e k)).
