(* ===== verification/DlBottomUpSpec.v ===== *)
(** Bottom-up evaluation is correct: one firing of a rule, one component to
    its fixpoint, and the whole cone of a goal are proved against the perfect
    model, through the interface of DlJoinSpec. *)
From S2P Require Import Prelude DlIntern DlSyntax DlSafe DlStrata DlRelation DlEngine DlJoin.
From S2P Require Import DlSemantics DlJoinSpec DlAggSpec DlCone DlBottomUp.

(** ** The rules of each head *)

Lemma rules_by_head_from rs (m : gmap string (list Rule)) h :
  default [] (fold_left (fun m r => <[Rel (Head r) := default [] (m !! Rel (Head r)) ++ [r]]> m) rs m !! h)
  = default [] (m !! h) ++ List.filter (fun r => str_eqb (Rel (Head r)) h) rs.
Proof.
  revert m. induction rs as [|r rs IH]; intros m; cbn [fold_left List.filter]; [by rewrite app_nil_r|].
  rewrite IH. destruct (Stdlib.Strings.String.eqb_spec (Rel (Head r)) h) as [<-|Hne].
  - rewrite lookup_insert_eq. cbn. by rewrite <- app_assoc.
  - by rewrite lookup_insert_ne.
Qed.

Lemma rules_by_head_lookup rs h :
  default [] (rules_by_head rs !! h) = List.filter (fun r => str_eqb (Rel (Head r)) h) rs.
Proof. unfold rules_by_head. by rewrite rules_by_head_from, lookup_empty. Qed.

Lemma elem_of_rules_by_head rs h r :
  r ∈ default [] (rules_by_head rs !! h) <-> r ∈ rs /\ Rel (Head r) = h.
Proof.
  rewrite rules_by_head_lookup, !list_elem_of_In, List.filter_In.
  by rewrite Stdlib.Strings.String.eqb_eq.
Qed.

Lemma has_rules_heads e rs rel :
  e_rules e = rules_by_head rs -> has_rules e rel = bool_decide (rel ∈ head_rels rs).
Proof.
  intros He. unfold has_rules. rewrite He.
  assert (Hiff : rel ∈ head_rels rs <-> default [] (rules_by_head rs !! rel) <> []).
  { rewrite elem_of_head_rels. split.
    - intros (r & Hr & Hh) Hn. assert (Hin : r ∈ default [] (rules_by_head rs !! rel))
        by by apply elem_of_rules_by_head. rewrite Hn in Hin. by apply not_elem_of_nil in Hin.
    - intros Hn. destruct (default [] (rules_by_head rs !! rel)) as [|r l] eqn:E; [done|].
      exists r. apply elem_of_rules_by_head. rewrite E. left. }
  destruct (rules_by_head rs !! rel) as [[|r l]|] eqn:E; cbn in Hiff; symmetry.
  - apply bool_decide_eq_false. tauto.
  - apply bool_decide_eq_true. by apply Hiff.
  - apply bool_decide_eq_false. tauto.
Qed.

(** ** Well-formed programs *)

(** The asserted facts as an interpretation. *)
Definition base_of (b : gmap string relation) : Interp := fun rel t =>
  exists r, b !! rel = Some r /\ t ∈ tuples r.

(** What an aggregate rule needs: the grouped input and the rest of the head
    are bound, and the output slot occurs exactly once in the head. *)
Definition agg_ok (r : Rule) (a : AggSpec) : Prop :=
  isAggName (Fn a) = true /\ slot_bound (Body r) (inSlot a) /\
  (forall t, t ∈ Args (Head r) -> IsVar t = true -> Var t <> outSlot a -> slot_bound (Body r) (Var t)) /\
  exists p t, Args (Head r) !! p = Some t /\ is_out (outSlot a) t = true /\
    forall q u, Args (Head r) !! q = Some u -> is_out (outSlot a) u = true -> q = p.

(** What loading establishes of the rules, and of the arity [ar] of every
    relation. *)
Record prog_ok (rules : list Rule) (base0 : gmap string relation) (syms : interner)
    (st ar : string -> nat) : Prop := {
  po_syms : intern_wf syms;
  po_strat : is_stratification rules st;
  po_ordered : forall r, r ∈ rules -> ordered_rule r;
  po_head_rel : forall r, r ∈ rules -> isBuiltin (Rel (Head r)) = false;
  po_head : forall r, r ∈ rules -> Agg r = None ->
    forall t, t ∈ Args (Head r) -> IsVar t = true -> slot_bound (Body r) (Var t);
  po_agg : forall r a, r ∈ rules -> Agg r = Some a -> agg_ok r a;
  po_sym : forall r t, r ∈ rules -> t ∈ Args (Head r) -> IsVar t = false -> sym_valid syms (Sym t);
  po_head_arity : forall r, r ∈ rules -> length (Args (Head r)) = ar (Rel (Head r));
  po_body_arity : forall r l, r ∈ rules -> l ∈ Body r -> isBuiltin (Rel l) = false ->
    length (Args l) = ar (Rel l);
  po_known : forall r l, r ∈ rules -> l ∈ Body r -> isBuiltin (Rel l) = false ->
    Rel l ∈ head_rels rules \/ is_Some (base0 !! Rel l);
  po_base : forall rel r, base0 !! rel = Some r -> rel_wf r /\ row_len r = ar rel /\
    Forall (itup_valid syms) (tuples r)
}.

(** The free table of a relation. *)
Definition fkey (ar : string -> nat) (rel : string) : sgKey := subgoalKey rel (free_binds (ar rel)).

Lemma sg_from_rel k i b : sg_rel (sg_from k i b) = sg_rel k.
Proof.
  revert k i. induction b as [|x b IH]; intros k i; [done|]. cbn [sg_from]. rewrite IH.
  by destruct i as [|[|[|[|i]]]].
Qed.

#[global] Instance fkey_inj ar : Inj (=) (=) (fkey ar).
Proof.
  intros a b H. apply (f_equal sg_rel) in H. unfold fkey, subgoalKey in H.
  by rewrite !sg_from_rel in H.
Qed.

(** What bottom-up evaluation may assume: a well-formed program, and which
    errors it may end with.  [bad] must hold of an error only where the code
    really can report it: a relation of the model larger than MaxTuples, a
    component of the model with more than MaxRounds tuples, a comparison or a
    min/max over something that is no integer, an aggregate before any string
    was interned. *)
Class EvalOk (rules : list Rule) (base0 : gmap string relation) (syms : interner) (opts : Options)
    (st ar : string -> nat) (bad : DlError -> Prop) : Prop := {
  Hprog : prog_ok rules base0 syms st ar;
  bad_max : forall rel l, NoDup l ->
    (forall t, t ∈ l -> perfect syms rules (base_of base0) st rel t) ->
    (MaxTuples opts < Z.of_nat (length l))%Z -> bad (EMaxTuples rel);
  bad_rounds : forall rel l, NoDup l ->
    (forall x, x ∈ l -> perfect syms rules (base_of base0) st (fst x) (snd x)) ->
    (MaxRounds opts < Z.of_nat (length l))%Z -> bad (ENoFixpoint rel);
  bad_builtin : forall r l a b e, r ∈ rules -> l ∈ Body r -> isBuiltin (Rel l) = true ->
    evalBuiltin (Rel l) a b syms = Err e -> bad e;
  bad_agg : forall r a sg x y, r ∈ rules -> Agg r = Some a ->
    body_holds syms (perfect syms rules (base_of base0) st) (perfect syms rules (base_of base0) st)
      sg (Body r) ->
    str_eqb (Fn a) "count" = false -> decodeIntSym (sg (inSlot a)) = None -> bad (EAggNonInt x y);
  bad_panic : forall r a, r ∈ rules -> Agg r = Some a -> strs syms = [] ->
    bad (EPanic "index out of range")
}.

(** ** The engine during bottom-up evaluation *)

Section spec.
Context (rules : list Rule) (base0 : gmap string relation) (syms : interner) (opts : Options)
  (st ar : string -> nat) (bad : DlError -> Prop).
Context `{HC : !EvalOk rules base0 syms opts st ar bad}.

Local Notation P := (perfect syms rules (base_of base0) st).
Local Notation heads := (head_rels rules).
Local Notation key := (fkey ar).

(** The free table of a derived relation holds part of the model, all of it
    once complete. *)
Record tab_ok (rel : string) (t : table) : Prop := {
  tk_wf : rel_wf (trel t);
  tk_name : rname (trel t) = rel;
  tk_arity : rarity (trel t) = Z.of_nat (ar rel);
  tk_sound : forall tup, tup ∈ tuples (trel t) -> P rel tup;
  tk_complete : tstate t = tableComplete -> forall tup, P rel tup -> tup ∈ tuples (trel t)
}.

Record eng_ok (e : Engine) : Prop := {
  eo_opts : e_opts e = opts;
  eo_rules : e_rules e = rules_by_head rules;
  eo_order : e_ruleOrder e = rules;
  eo_syms : e_syms e = syms;
  eo_prov : e_recordProv e = false;
  eo_base : forall rel r0, base0 !! rel = Some r0 ->
    exists r, e_base e !! rel = Some r /\ rel_wf r /\ same_rel r0 r;
  eo_dom : forall rel, is_Some (e_base e !! rel) -> is_Some (base0 !! rel);
  eo_tab : forall rel t, rel ∈ heads -> e_tables e !! key rel = Some t -> tab_ok rel t;
  eo_loaded : e_loaded e = true;
  eo_strata : e_strata e <> None
}.

Definition tab (e : Engine) (rel : string) : list itup := table_tuples e (key rel).

(** The tables grow, nothing else changes that evaluation reads. *)
Record grows (e e' : Engine) : Prop := {
  gr_tuples : forall k, table_tuples e k `prefix_of` table_tuples e' k;
  gr_state : forall k, tstate <$> e_tables e' !! k = tstate <$> e_tables e !! k
}.

#[global] Instance grows_preorder : PreOrder grows.
Proof.
  split; [intros e; split; intros k; reflexivity|]. intros a b c [H1 S1] [H2 S2].
  split; intros k; [etrans; [apply H1|apply H2]|by rewrite S2].
Qed.

Lemma grows_tab e e' rel t : grows e e' -> t ∈ tab e rel -> t ∈ tab e' rel.
Proof. intros [H _] Ht. destruct (H (key rel)) as [l Hl]. unfold tab. rewrite Hl. apply elem_of_app. by left. Qed.

(** An update of anything but the tables, the base and the program. *)
Lemma eng_ok_same e e' :
  e_opts e' = e_opts e -> e_rules e' = e_rules e -> e_ruleOrder e' = e_ruleOrder e ->
  e_syms e' = e_syms e -> e_recordProv e' = e_recordProv e -> e_base e' = e_base e ->
  e_tables e' = e_tables e -> e_loaded e' = e_loaded e -> e_strata e' = e_strata e ->
  eng_ok e -> eng_ok e'.
Proof.
  intros H1 H2 H3 H4 H5 H6 H7 H8 H9 [].
  split; rewrite ?H1, ?H2, ?H3, ?H4, ?H5, ?H6, ?H7, ?H8, ?H9; done.
Qed.

Lemma grows_same e e' : e_tables e' = e_tables e -> grows e e'.
Proof. intros H. split; intros k; [unfold table_tuples|]; rewrite H; reflexivity. Qed.

Lemma eng_ok_tables e ts :
  eng_ok e -> (forall rel t, rel ∈ heads -> ts !! key rel = Some t -> tab_ok rel t) ->
  eng_ok (set_tables ts e).
Proof. intros [] H. split; try done. Qed.

Lemma eng_ok_insert e rel t :
  eng_ok e -> tab_ok rel t -> eng_ok (set_tables (<[key rel := t]> (e_tables e)) e).
Proof.
  intros He Ht. apply eng_ok_tables; [done|]. intros rel' t' Hh.
  destruct (decide (rel' = rel)) as [->|Hne].
  - rewrite lookup_insert_eq. by intros [= <-].
  - rewrite lookup_insert_ne by (intros H; by apply (inj _) in H). by apply He.
Qed.

Lemma grows_insert e k t t' :
  e_tables e !! k = Some t -> tuples (trel t) `prefix_of` tuples (trel t') -> tstate t' = tstate t ->
  grows e (set_tables (<[k := t']> (e_tables e)) e).
Proof.
  intros Hk Hp Hs. split; intros k'; unfold table_tuples; cbn;
    (destruct (decide (k' = k)) as [->|Hne];
     [rewrite Hk, lookup_insert_eq; cbn; by rewrite ?Hs|
      by rewrite lookup_insert_ne]).
Qed.

(** A complete table is the model's relation. *)
Lemma complete_tab e rel t :
  eng_ok e -> rel ∈ heads -> tstate <$> e_tables e !! key rel = Some tableComplete ->
  t ∈ tab e rel <-> P rel t.
Proof.
  intros He Hh Hst. unfold tab, table_tuples.
  destruct (e_tables e !! key rel) as [tb|] eqn:Htb; [|done]. cbn in Hst.
  destruct (eo_tab e He _ _ Hh Htb) as [_ _ _ S C]. split; [apply S|]. apply C. congruence.
Qed.

(** The base relations as the engine holds them. *)
Lemma base_ref e rel : eng_ok e -> is_Some (base0 !! rel) ->
  exists r, e_base e !! rel = Some r /\ rel_wf r /\ row_len r = ar rel /\
    forall t, t ∈ tuples r <-> base_of base0 rel t.
Proof.
  intros He [r0 H0]. destruct (eo_base e He _ _ H0) as (r & Hr & Hw & Hs). exists r.
  split_and!; [done|done| |].
  - destruct (po_base _ _ _ _ _ Hprog _ _ H0) as (_ & Hl & _). destruct Hs as (_ & Ha & _).
    unfold row_len in *. congruence.
  - intros t. rewrite (same_rel_tuples _ _ Hs). split; [by exists r0|].
    intros (r' & Hr' & Ht). congruence.
Qed.

Lemma has_base_iff e rel : eng_ok e -> has_base e rel = true <-> is_Some (base0 !! rel).
Proof.
  intros He. unfold has_base. split.
  - intros H. apply (eo_dom e He). by destruct (e_base e !! rel).
  - intros H. destruct (base_ref e rel He H) as (r & -> & _). done.
Qed.

(** ** Rows of the model *)

Lemma perfect_arity rel t : P rel t -> length t = ar rel.
Proof.
  intros HP.
  apply (perfect_least syms rules (base_of base0) st (po_strat _ _ _ _ _ Hprog) (fun _ => True)
           (fun rel t => length t = ar rel)); [by left| | | |done|exact HP].
  - intros rel' u _ (r & Hr & Hu). destruct (po_base _ _ _ _ _ Hprog _ _ Hr) as (Hw & <- & _).
    pose proof (rw_rows _ Hw) as Hrows. rewrite Forall_forall in Hrows. by apply Hrows.
  - intros r sg Hr _ _ _. unfold inst_args. rewrite length_map. by apply (po_head_arity _ _ _ _ _ Hprog).
  - intros r a sg v Hr _ _ _ _. unfold agg_tuple. rewrite length_map. by apply (po_head_arity _ _ _ _ _ Hprog).
Qed.

Lemma inst_bound r sg t :
  (forall l, l ∈ Body r -> isBuiltin (Rel l) = false -> Neg l = false ->
    itup_valid syms (inst_args sg (Args l))) ->
  IsVar t = true -> slot_bound (Body r) (Var t) -> sym_valid syms (sg (Var t)).
Proof.
  intros Hbody Hv (l & t' & Hl & Hn & Hb & Ht' & Hv' & <-).
  specialize (Hbody l Hl Hb Hn). unfold itup_valid in Hbody. rewrite Forall_forall in Hbody.
  apply Hbody. replace (sg (Var t')) with (inst sg t') by (unfold inst; by rewrite Hv').
  by apply list_elem_of_fmap_2.
Qed.

(** An aggregate's symbol is an integer's whatever the width of its value. *)
Lemma intsym_valid n : sym_valid syms (N.lor intSymFlag (u32 n)).
Proof.
  left. exists (u32 n mod 2 ^ 31)%N. split; [by apply N.mod_lt|].
  apply N.bits_inj_iff. intros i. rewrite !N.lor_spec. unfold intSymFlag.
  rewrite N.shiftl_1_l, N.pow2_bits_eqb. destruct (N.eqb_spec 31 i) as [<-|Hne]; [done|]. cbn [orb].
  destruct (N.lt_ge_cases i 31) as [Hlt|Hge]; [by rewrite N.mod_pow2_bits_low|].
  rewrite N.mod_pow2_bits_high by done. unfold u32. apply N.mod_pow2_bits_high. lia.
Qed.

Lemma base_valid rel t : base_of base0 rel t -> itup_valid syms t.
Proof.
  intros (r & Hr & Hu). destruct (po_base _ _ _ _ _ Hprog _ _ Hr) as (_ & _ & Hv).
  rewrite Forall_forall in Hv. by apply Hv.
Qed.

Lemma row_valid (f : Term -> N) ts :
  (forall t, t ∈ ts -> sym_valid syms (f t)) -> itup_valid syms (map f ts).
Proof.
  intros Hf. apply Forall_forall. intros v (u & -> & Hu)%list_elem_of_fmap. by apply Hf.
Qed.

(** Every symbol of the model is in the table of the engine. *)
Lemma perfect_valid rel t : P rel t -> itup_valid syms t.
Proof.
  assert (H : forall n rel t, st rel <= n -> P rel t -> itup_valid syms t); [|by apply (H (st rel))].
  clear rel t. intros n. induction n as [n IH] using lt_wf_ind.
  pose proof (po_strat _ _ _ _ _ Hprog) as Hstr.
  assert (Hnh : forall rel t, rel ∉ heads -> P rel t -> itup_valid syms t).
  { intros rel t Hh Hp. by apply (base_valid rel), (perfect_not_head syms rules _ st). }
  apply (perfect_least syms rules (base_of base0) st Hstr (fun rel => st rel <= n)
           (fun rel t => itup_valid syms t)).
  - intros rel. destruct (decide (st rel <= n)); [by left|by right].
  - intros rel t _. apply base_valid.
  - intros r sg Hr Ha Hc Hbody. apply row_valid. intros u Hu. unfold inst.
    destruct (IsVar u) eqn:Hv; [|by apply (po_sym _ _ _ _ _ Hprog r)].
    eapply inst_bound; [|done|by apply (po_head _ _ _ _ _ Hprog)]. intros l Hl Hb Hn.
    unfold body_holds in Hbody. rewrite Forall_forall in Hbody. specialize (Hbody l Hl).
    unfold lit_holds in Hbody. rewrite Hb, Hn in Hbody. destruct Hbody as [Hp Hq].
    destruct (low_body rules st Hstr r l n Hr Hl Hc) as [Hh|Hle]; [by eapply Hnh|by apply Hq].
  - intros r a sg v Hr Ha Hc Hbody _. apply row_valid. intros u Hu. unfold inst.
    destruct (po_agg _ _ _ _ _ Hprog r a Hr Ha) as (_ & _ & Hrest & _).
    destruct (IsVar u) eqn:Hv; [|by apply (po_sym _ _ _ _ _ Hprog r)]. cbn [andb].
    destruct (Nat.eqb_spec (Var u) (outSlot a)) as [_|Hne]; [apply intsym_valid|].
    eapply inst_bound; [|done|by apply Hrest]. intros l Hl Hb Hn.
    unfold body_holds in Hbody. rewrite Forall_forall in Hbody. specialize (Hbody l Hl).
    unfold lit_holds in Hbody. rewrite Hb, Hn in Hbody.
    destruct (low_strict rules st Hstr r l n Hr Hl Hc) as [Hh|Hlt]; [right; by rewrite Ha|by eapply Hnh|].
    by eapply (IH (st (Rel l)) Hlt).
Qed.

Lemma perfect_tuple_ok rel t : P rel t -> tuple_ok (ar rel) t.
Proof.
  intros HP. split; [by apply perfect_arity|].
  eapply itup_valid_u32; [by apply (po_syms _ _ _ _ _ Hprog)|by eapply perfect_valid].
Qed.

(** ** Reading a relation *)

(** A relation bottom-up evaluation may read: the table of a derived relation
    or the facts asserted for a name. *)
Definition ref_ok (e : Engine) (rel : string) (ref : relref) : Prop :=
  (ref = RTable (key rel) /\ rel ∈ heads /\ is_Some (e_tables e !! key rel)) \/
  (ref = RBase rel /\ is_Some (base0 !! rel)).

Definition ref_holds (e : Engine) (rel : string) (ref : relref) (t : itup) : Prop :=
  match ref with RTable _ => t ∈ tab e rel | RBase _ => base_of base0 rel t end.

(** A read changes no content. *)
Definition quiet (e e' : Engine) : Prop := grows e e' /\ e_agg e' = e_agg e.

#[global] Instance quiet_preorder : PreOrder quiet.
Proof.
  split; [by intros e|]. intros a b c [H1 A1] [H2 A2]. split; [by etrans|congruence].
Qed.

Lemma tab_ok_read rel t r' :
  tab_ok rel t -> rel_wf r' -> same_rel (trel t) r' -> tab_ok rel (mkTable r' (tstate t)).
Proof.
  intros [W N A S C] Hw (Hn & Ha & Ht & _).
  split; cbn; rewrite ?Hn, ?Ha, ?Ht; done.
Qed.

Lemma ref_set_ok e rel ref r r' :
  eng_ok e -> ref_ok e rel ref -> ref_get e ref = Some r -> rel_wf r' -> same_rel r r' ->
  eng_ok (ref_set ref r' e) /\ quiet e (ref_set ref r' e).
Proof.
  intros He [(-> & Hh & Ht)|(-> & Hb)] Hg Hw Hs; cbn [ref_get ref_set] in *.
  - destruct Ht as [t Ht]. rewrite Ht in *. cbn in Hg. simplify_eq.
    pose proof (eo_tab e He _ _ Hh Ht) as Htab. split; [|split; [|done]].
    + by apply eng_ok_insert, tab_ok_read.
    + eapply grows_insert; [done| |done]. cbn. by rewrite (same_rel_tuples _ _ Hs).
  - split; [|split; [by apply grows_same|done]]. destruct He as [H1 H2 H3 H4 H5 H6 H7 H8 H9 H10].
    split; try done; cbn.
    + intros rel' r0 H0. destruct (decide (rel' = rel)) as [->|Hne].
      * rewrite lookup_insert_eq. exists r'. split_and!; [done|done|].
        destruct (H6 _ _ H0) as (r1 & Hr1 & _ & Hs1). simplify_eq. by eapply same_rel_trans.
      * rewrite lookup_insert_ne by done. by apply H6.
    + intros rel' Hr'. destruct (decide (rel' = rel)) as [->|Hne]; [done|].
      rewrite lookup_insert_ne in Hr' by done. by apply H7.
Qed.

Lemma ref_get_ok e rel ref : eng_ok e -> ref_ok e rel ref ->
  exists r, ref_get e ref = Some r /\ rel_wf r /\ row_len r = ar rel /\
    (forall t, t ∈ tuples r <-> ref_holds e rel ref t).
Proof.
  intros He [(-> & Hh & [t Ht])|(-> & Hb)]; cbn [ref_get ref_holds].
  - rewrite Ht. cbn. exists (trel t). destruct (eo_tab e He _ _ Hh Ht) as [W _ A _ _].
    split_and!; [done|done|unfold row_len; lia|]. unfold tab, table_tuples. by rewrite Ht.
  - by apply base_ref.
Qed.

Lemma ref_holds_model e rel ref t : eng_ok e -> ref_ok e rel ref -> ref_holds e rel ref t ->
  P rel t /\ tuple_ok (ar rel) t.
Proof.
  intros He Hr Ht. destruct (ref_get_ok e rel ref He Hr) as (r & Hg & Hw & Hl & Hiff).
  assert (Hin : t ∈ tuples r) by by apply Hiff. split.
  - destruct Hr as [(-> & Hh & [tb Htb])|(-> & Hb)]; cbn in Ht, Hg.
    + rewrite Htb in Hg. cbn in Hg. simplify_eq. by apply (eo_tab e He _ _ Hh Htb).
    + by apply perfect_base.
  - rewrite <- Hl. pose proof (rw_rows _ Hw) as Hrows. rewrite Forall_forall in Hrows. by apply Hrows.
Qed.

Lemma select_ref_spec {X} e (x : X) rel ref b :
  eng_ok e -> ref_ok e rel ref ->
  wp bad (select_ref ref b) (fun ts s' => snd s' = x /\ eng_ok (fst s') /\ quiet e (fst s') /\
    (forall t, t ∈ ts -> ref_holds e rel ref t) /\
    (forall t, ref_holds e rel ref t -> matches t b = true -> t ∈ ts)) (e, x).
Proof.
  intros He Hr. destruct (ref_get_ok e rel ref He Hr) as (r & Hg & Hw & Hl & Hiff).
  unfold wp, select_ref. rewrite Hg. destruct (selectCands r b) as [cs r'] eqn:Hs.
  destruct (selectCands_spec _ _ _ _ Hw Hs) as (Hw' & Hsame & Hsub & Hfil).
  destruct (ref_set_ok _ _ _ _ _ He Hr Hg Hw' Hsame) as [He' Hq].
  split_and!; [done|done|done| |].
  - intros t Ht. by apply Hiff, Hsub.
  - intros t Ht%Hiff Hm.
    assert (Hf : t ∈ List.filter (fun t => matches t b) (tuples r))
      by (apply list_elem_of_In, List.filter_In; split; [by apply list_elem_of_In|done]).
    rewrite <- Hfil in Hf. apply list_elem_of_In, List.filter_In in Hf as [Hf _].
    by apply list_elem_of_In.
Qed.

Lemma exists_ref_spec {X} e (x : X) rel ref t :
  eng_ok e -> ref_ok e rel ref -> length t = ar rel ->
  wp bad (exists_ref ref (map Some t)) (fun f s' => snd s' = x /\ eng_ok (fst s') /\
    quiet e (fst s') /\ (f = true <-> ref_holds e rel ref t)) (e, x).
Proof.
  intros He Hr Hlen. destruct (ref_get_ok e rel ref He Hr) as (r & Hg & Hw & Hl & Hiff).
  unfold wp, exists_ref. rewrite Hg. destruct (rel_exists r (map Some t)) as [f r'] eqn:Hs.
  destruct (rel_exists_spec _ _ _ _ Hw Hs) as (Hw' & Hsame & Hf).
  destruct (ref_set_ok _ _ _ _ _ He Hr Hg Hw' Hsame) as [He' Hq].
  split_and!; [done|done|done|]. rewrite Hf, <- Hiff. split.
  - intros (u & Hu & Hm). apply matches_full in Hm as ->; [done|].
    pose proof (rw_rows _ Hw) as Hrows. rewrite Forall_forall in Hrows.
    destruct (Hrows _ Hu). congruence.
  - intros Ht. exists t. split; [done|]. by apply matches_full.
Qed.

(** ** Recording a tuple *)


Lemma record_spec {X} e (x : X) rel tup d name :
  eng_ok e -> rel ∈ heads -> is_Some (e_tables e !! key rel) -> P rel tup -> tuple_ok (ar rel) tup ->
  wp bad (record (key rel) tup d name) (fun _ s' => snd s' = x /\ eng_ok (fst s') /\
    quiet e (fst s') /\ tup ∈ tab (fst s') rel) (e, x).
Proof.
  intros He Hh [t Ht] HP Htup. pose proof (eo_tab e He _ _ Hh Ht) as Htab.
  unfold wp, record. rewrite Ht. destruct (add (trel t) tup) as [isnew r'] eqn:Hadd.
  assert (Hrl : row_len (trel t) = ar rel) by (unfold row_len; rewrite (tk_arity _ _ Htab); lia).
  destruct (add_spec _ _ _ _ (tk_wf _ _ Htab) ltac:(by rewrite Hrl) Hadd)
    as (Hw' & Hn' & Ha' & Hnew & Htu).
  assert (Hin : tup ∈ tuples r').
  { rewrite Htu. destruct isnew; [set_solver|]. destruct (decide (tup ∈ tuples (trel t))); [done|].
    by apply Hnew in n. }
  assert (Hpre : tuples (trel t) `prefix_of` tuples r').
  { rewrite Htu. destruct isnew; [by apply prefix_app_r|done]. }
  assert (Hsound : forall u, u ∈ tuples r' -> P rel u).
  { intros u Hu. rewrite Htu in Hu. destruct isnew; [|by apply Htab].
    apply elem_of_app in Hu as [Hu|Hu]; [by apply Htab|]. by apply list_elem_of_singleton in Hu as ->. }
  assert (Htab' : tab_ok rel (mkTable r' (tstate t))).
  { split; cbn; [done|by rewrite Hn', (tk_name _ _ Htab)|by rewrite Ha', (tk_arity _ _ Htab)|done|].
    intros Hc u Hu. destruct Hpre as [l ->]. apply elem_of_app. left. by apply (tk_complete _ _ Htab). }
  set (e1 := set_tables (<[key rel := mkTable r' (tstate t)]> (e_tables e)) e).
  assert (He1 : eng_ok e1) by by apply eng_ok_insert.
  assert (Hg1 : grows e e1) by by eapply grows_insert.
  assert (Hin1 : tup ∈ tab e1 rel).
  { unfold tab, table_tuples, e1. cbn. by rewrite lookup_insert_eq. }
  set (e2 := if isnew then set_grown (e_grown e1 + 1) e1 else e1).
  assert (Hfin : forall e3, e_opts e3 = e_opts e1 -> e_rules e3 = e_rules e1 ->
    e_ruleOrder e3 = e_ruleOrder e1 -> e_syms e3 = e_syms e1 ->
    e_recordProv e3 = e_recordProv e1 -> e_base e3 = e_base e1 -> e_tables e3 = e_tables e1 ->
    e_agg e3 = e_agg e1 -> e_loaded e3 = e_loaded e1 -> e_strata e3 = e_strata e1 -> eng_ok e3 /\ quiet e e3 /\ tup ∈ tab e3 rel).
  { intros e3 ? ? ? ? ? ? Ht3 Ha3 ? ?. split; [by eapply eng_ok_same|]. split.
    - split; [|done]. etrans; [exact Hg1|by apply grows_same].
    - unfold tab, table_tuples. rewrite Ht3. exact Hin1. }
  assert (Hprov : e_recordProv e2 = false) by (destruct isnew; apply He).
  destruct (isnew && too_many e2 r') eqn:Hmany.
  - apply andb_true_iff in Hmany as [-> Hmany]. rewrite Hn', (tk_name _ _ Htab).
    apply (bad_max rel (tuples r')); [apply Hw'|done|].
    unfold too_many in Hmany. apply Z.ltb_lt in Hmany. cbn in Hmany. by rewrite (eo_opts e He) in Hmany.
  - rewrite Hprov. cbn [negb]. rewrite andb_true_r.
    assert (He2 : eng_ok e2 /\ quiet e e2 /\ tup ∈ tab e2 rel) by (apply Hfin; by destruct isnew).
    destruct d; (destruct (negb (str_eqb name "")); [|by split; [|apply He2]]);
      (split; [done|]); apply Hfin; unfold record_fast, e2;
      destruct isnew; repeat case_match; done.
Qed.

(** ** The body source *)

Record bu_ok (e : Engine) (b : bottomUp) : Prop := {
  bo_full : forall rel k, bu_full b !! rel = Some k ->
    rel ∈ heads /\ k = key rel /\ is_Some (e_tables e !! key rel);
  bo_complete : forall rel, rel ∈ bu_complete b ->
    bu_full b !! rel = Some (key rel) /\ tstate <$> e_tables e !! key rel = Some tableComplete;
  bo_delta : forall rel d, bu_delta b !! rel = Some d ->
    view_wf d /\ row_len d = ar rel /\ forall t, t ∈ tuples d -> P rel t
}.

Lemma grows_is_Some e e' k : grows e e' -> is_Some (e_tables e !! k) -> is_Some (e_tables e' !! k).
Proof.
  intros [_ H] [t Ht]. specialize (H k). rewrite Ht in H. cbn in H.
  by destruct (e_tables e' !! k).
Qed.

Lemma bu_ok_grows e e' b : grows e e' -> bu_ok e b -> bu_ok e' b.
Proof.
  intros Hg [F C Dl]. split; [| |done].
  - intros rel k (Hh & Hk & Hs)%F. split_and!; [done|done|by eapply grows_is_Some].
  - intros rel [Hf Hs]%C. split; [done|]. by rewrite (gr_state _ _ Hg).
Qed.

(** Evaluation inside one firing changes of the source at most an index. *)
Record bu_same (b b' : bottomUp) : Prop := {
  bs_full : bu_full b' = bu_full b;
  bs_complete : bu_complete b' = bu_complete b;
  bs_pos : bu_pos b' = bu_pos b;
  bs_delta : forall rel, tuples <$> bu_delta b' !! rel = tuples <$> bu_delta b !! rel
}.

#[global] Instance bu_same_preorder : PreOrder bu_same.
Proof.
  split; [by intros b; split|]. intros a b c [F1 C1 P1 D1] [F2 C2 P2 D2].
  split; try congruence.
Qed.

(** The plan of a rule, which depends on the program alone. *)
Definition plan_of (r : Rule) : list litPlan :=
  map (fun l => mkLitPlan (Rel l) (Neg l) (bool_decide (Rel l ∈ heads))
    (bool_decide (is_Some (base0 !! Rel l)))
    (if decide (Rel l ∈ heads) then Some (RTable (key (Rel l)))
     else if decide (is_Some (base0 !! Rel l)) then Some (RBase (Rel l)) else None)) (Body r).

(** Every derived relation the rule reads is materialized, and complete where
    it is negated. *)
Definition rule_ready (b : bottomUp) (r : Rule) : Prop :=
  forall l, l ∈ Body r -> Rel l ∈ heads ->
    bu_full b !! Rel l = Some (key (Rel l)) /\ (Neg l = true -> Rel l ∈ bu_complete b).

Lemma rule_ready_same b b' r : bu_same b b' -> rule_ready b r -> rule_ready b' r.
Proof. intros [F C _ _] H l Hl Hh. rewrite F, C. by apply H. Qed.

Lemma primePlan_of e b r : eng_ok e -> rule_ready b r -> primePlan e b r = plan_of r.
Proof.
  intros He Hr. unfold primePlan, planBody, plan_of. rewrite map_map. apply map_ext_in.
  intros l Hl%list_elem_of_In. cbn [lp_rel lp_neg lp_derived lp_base].
  rewrite (has_rules_heads e rules (Rel l) (eo_rules e He)).
  assert (Hb : has_base e (Rel l) = bool_decide (is_Some (base0 !! Rel l))).
  { apply eq_bool_prop_intro. rewrite bool_decide_spec, Is_true_true. by apply has_base_iff. }
  rewrite Hb. f_equal. destruct (decide (Rel l ∈ heads)) as [Hh|Hh].
  - rewrite bool_decide_true by done. by rewrite (proj1 (Hr l Hl Hh)).
  - rewrite bool_decide_false by done.
    by destruct (decide (is_Some (base0 !! Rel l))); [rewrite bool_decide_true|rewrite bool_decide_false].
Qed.


Section fire.
Context (r : Rule) (p : option nat).
Context (K : option (gmap tkey aggAcc) -> Prop) (DA : option (gmap tkey aggAcc) -> subst -> Prop).
Hypothesis Hr : r ∈ rules.

(** The invariant of one firing: of the engine and the source, with what the
    rule's accumulator must satisfy; and how states grow within it. *)
Definition fire_inv (s : Engine * bottomUp) : Prop :=
  eng_ok (fst s) /\ bu_ok (fst s) (snd s) /\ bu_pos (snd s) = p /\ rule_ready (snd s) r /\
  is_Some (e_tables (fst s) !! key (Rel (Head r))) /\ K (e_agg (fst s)).

Definition fire_grows (s s' : Engine * bottomUp) : Prop :=
  grows (fst s) (fst s') /\ bu_same (snd s) (snd s') /\
  forall sg, DA (e_agg (fst s)) sg -> DA (e_agg (fst s')) sg.

(** What position [i] reads: the delta at the delta position, the whole
    relation elsewhere. *)
Definition fire_ct (s : Engine * bottomUp) (i : nat) (t : itup) : Prop :=
  match Body r !! i with
  | Some l =>
      if decide (p = Some i) then exists d, bu_delta (snd s) !! Rel l = Some d /\ t ∈ tuples d
      else if decide (Rel l ∈ heads) then t ∈ tab (fst s) (Rel l)
      else base_of base0 (Rel l) t
  | None => False
  end.

#[global] Instance fire_grows_preorder : PreOrder fire_grows.
Proof.
  split; [intros s; split_and!; [reflexivity|reflexivity|done]|].
  intros s1 s2 s3 (G1 & B1 & A1) (G2 & B2 & A2). split_and!; [by etrans|by etrans|auto].
Qed.

Lemma fire_step s e' b' :
  fire_inv s -> eng_ok e' -> quiet (fst s) e' -> bu_same (snd s) b' -> bu_ok e' b' ->
  fire_inv (e', b') /\ fire_grows s (e', b').
Proof.
  intros (He & Hb & Hp & Hrr & Hhd & HK) He' [Hg Ha] Hs Hb'.
  unfold fire_inv, fire_grows. cbn [fst snd]. split.
  - split_and!; [done|done|by rewrite (bs_pos _ _ Hs)|by eapply rule_ready_same|by eapply grows_is_Some|
      by rewrite Ha].
  - split_and!; [done|done|by rewrite Ha].
Qed.

Lemma plan_ref s i l lp : fire_inv s -> Body r !! i = Some l -> isBuiltin (Rel l) = false ->
  plan_of r !! i = Some lp ->
  exists ref, lp_buSrc lp = Some ref /\ ref_ok (fst s) (Rel l) ref /\ lp_rel lp = Rel l /\
    lp_derived lp = bool_decide (Rel l ∈ heads) /\
    (Rel l ∉ heads -> lp_base lp = true) /\
    forall t, ref_holds (fst s) (Rel l) ref t <->
      if decide (Rel l ∈ heads) then t ∈ tab (fst s) (Rel l) else base_of base0 (Rel l) t.
Proof.
  intros (He & Hb & _ & Hrr & _) Hi Hbu Hlp. unfold plan_of in Hlp.
  rewrite list_lookup_fmap, Hi in Hlp. cbn in Hlp. injection Hlp as <-. cbn.
  assert (Hl : l ∈ Body r) by by eapply list_elem_of_lookup_2.
  destruct (decide (Rel l ∈ heads)) as [Hh|Hh].
  - exists (RTable (key (Rel l))). split_and!; [done| |done|done|done|done].
    left. split_and!; [done|done|].
    destruct (Hrr l Hl Hh) as [Hf _]. by apply (bo_full _ _ Hb) in Hf as (_ & _ & ?).
  - destruct (po_known _ _ _ _ _ Hprog r l Hr Hl Hbu) as [?|Hbase]; [done|].
    rewrite decide_True by done. exists (RBase (Rel l)).
    split_and!; [done|by right|done|done|by rewrite bool_decide_true|done].
Qed.

Lemma fire_litTuples i l lp sub s :
  Body r !! i = Some l -> isBuiltin (Rel l) = false -> plan_of r !! i = Some lp -> fire_inv s ->
  wp bad (litTuples bu_src i lp sub) (fun ts s' => fire_inv s' /\ fire_grows s s' /\
    (forall t, t ∈ ts -> P (Rel l) t /\ length t = ar (Rel l)) /\
    (forall t, fire_ct s i t -> matches t sub = true -> t ∈ ts)) s.
Proof.
  intros Hi Hbu Hlp Hs. destruct (plan_ref s i l lp Hs Hi Hbu Hlp) as (ref & Hsrc & Href & Hrel & _ & _ & Hiff).
  pose proof Hs as (He & Hb & Hp & Hrr & Hhd & HK). cbn [litTuples bu_src]. unfold bu_litTuples.
  apply wp_bind, wp_getE, wp_bind, wp_getX. rewrite Hsrc, Hrel, Hp. unfold fire_ct. rewrite Hi.
  destruct s as [e b]. cbn [fst snd] in *.
  destruct (decide (p = Some i)) as [Hpi|Hpi].
  - rewrite bool_decide_true by done. destruct (bu_delta b !! Rel l) as [d|] eqn:Hd.
    + destruct (selectCands d sub) as [cs d'] eqn:Hsel.
      destruct (bo_delta _ _ Hb _ _ Hd) as (Hv & Hlen & Hsound).
      destruct (view_select_spec _ _ _ _ Hv Hsel) as (Hv' & Hsame & Hsub & Hfil).
      pose proof (same_rel_tuples _ _ Hsame) as Ht.
      apply wp_bind, wp_modifyX, wp_ret. cbn [fst snd].
      assert (Hbs : bu_same b (set_delta (<[Rel l := d']> (bu_delta b)) p b)).
      { split; try done. intros rel. cbn. destruct (decide (rel = Rel l)) as [->|Hne];
          [rewrite lookup_insert_eq, Hd; cbn; by rewrite Ht|
           by rewrite lookup_insert_ne]. }
      assert (Hbo : bu_ok e (set_delta (<[Rel l := d']> (bu_delta b)) p b)).
      { destruct Hb as [F C Dl]. split; [done|done|]. cbn. intros rel d0.
        destruct (decide (rel = Rel l)) as [->|Hne]; [|rewrite lookup_insert_ne by done; apply Dl].
        rewrite lookup_insert_eq. intros [= <-]. rewrite Ht.
        destruct Hsame as (_ & Ha & _). split_and!; [done| |done]. unfold row_len in *. congruence. }
      destruct (fire_step (e, b) e _ Hs He ltac:(done) Hbs Hbo) as [HJ HG].
      split_and!; [exact HJ|exact HG| |].
      * intros t Htc%Hsub. split; [by apply Hsound|].
        pose proof (vw_rows _ Hv) as Hrows. rewrite Forall_forall in Hrows.
        rewrite Hrows by done. done.
      * intros t (d0 & Hd0 & Htd) Hm. simplify_eq.
        assert (Hf : t ∈ List.filter (fun t => matches t sub) (tuples d0))
          by (apply list_elem_of_In, List.filter_In; split; [by apply list_elem_of_In|done]).
        rewrite <- Hfil in Hf. apply list_elem_of_In, List.filter_In in Hf as [Hf _].
        by apply list_elem_of_In.
    + apply wp_ret. split_and!; [done|reflexivity| |].
      * intros t Ht. by apply not_elem_of_nil in Ht.
      * by intros t (d & ? & _).
  - rewrite bool_decide_false by done.
    eapply wp_mono; [|by apply select_ref_spec].
    intros ts [e' b'] (Hx & He' & Hq & Hts & Hct). cbn [fst snd] in *. subst b'.
    destruct (fire_step (e, b) e' b Hs He' Hq ltac:(done) ltac:(eapply bu_ok_grows; [apply Hq|done]))
      as [HJ HG].
    split_and!; [exact HJ|exact HG| |].
    + intros t Ht. destruct (ref_holds_model e (Rel l) ref t He Href (Hts t Ht)) as [? []]. done.
    + intros t Ht Hm. apply Hct; [by apply Hiff|done].
Qed.

Lemma fire_negated i l lp t s :
  Body r !! i = Some l -> isBuiltin (Rel l) = false -> Neg l = true -> plan_of r !! i = Some lp ->
  length t = ar (Rel l) -> fire_inv s ->
  wp bad (negated bu_src lp (map Some t)) (fun found s' => fire_inv s' /\ fire_grows s s' /\
    (found = true <-> P (Rel l) t)) s.
Proof.
  intros Hi Hbu Hn Hlp Hlen Hs.
  destruct (plan_ref s i l lp Hs Hi Hbu Hlp) as (ref & Hsrc & Href & Hrel & Hder & Hbase & Hiff).
  pose proof Hs as (He & Hb & Hp & Hrr & Hhd & HK). cbn [negated bu_src]. unfold bu_negated.
  assert (Hl : l ∈ Body r) by by eapply list_elem_of_lookup_2.
  apply wp_bind, wp_getX. rewrite Hder, Hrel. destruct s as [e b]. cbn [fst snd] in *.
  assert (Hfin : forall ref', ref_ok e (Rel l) ref' ->
    (forall t, ref_holds e (Rel l) ref' t <-> P (Rel l) t) ->
    wp bad (exists_ref ref' (map Some t)) (fun found s' => fire_inv s' /\ fire_grows (e, b) s' /\
      (found = true <-> P (Rel l) t)) (e, b)).
  { intros ref' Href' Heq. eapply wp_mono; [|by apply exists_ref_spec].
    intros found [e' b'] (Hx & He' & Hq & Hf). cbn [fst snd] in *. subst b'.
    destruct (fire_step (e, b) e' b Hs He' Hq ltac:(done) ltac:(eapply bu_ok_grows; [apply Hq|done]))
      as [HJ HG].
    split_and!; [exact HJ|exact HG|]. by rewrite Hf, Heq. }
  destruct (decide (Rel l ∈ heads)) as [Hh|Hh].
  - rewrite bool_decide_true by done. cbn [negb].
    destruct (Hrr l Hl Hh) as [Hf Hc]. specialize (Hc Hn).
    rewrite bool_decide_false by tauto. rewrite Hf. apply Hfin.
    + left. split_and!; [done|done|]. by apply (bo_full _ _ Hb) in Hf as (_ & _ & ?).
    + intros u. apply complete_tab; [done|done|]. by apply (bo_complete _ _ Hb).
  - rewrite bool_decide_false by done. cbn [negb]. rewrite (Hbase Hh). apply Hfin.
    + destruct Href as [(_ & ? & _)|[-> ?]]; [done|by right].
    + intros u. cbn. symmetry. by apply perfect_not_head.
Qed.

(** The materialized relations are a body source for the perfect model. *)
#[local] Instance fire_source :
  SourceOk bu_src bad r (plan_of r) syms P P fire_inv fire_grows fire_ct.
Proof.
  split.
  - apply _.
  - apply length_map.
  - intros s (He & _). split; apply He.
  - intros s s' i t (Hg & Hb & _). unfold fire_ct. destruct (Body r !! i) as [l|]; [|done].
    case_decide; [|case_decide; [by apply grows_tab|done]].
    intros (d & Hd & Ht). pose proof (bs_delta _ _ Hb (Rel l)) as Hdt. rewrite Hd in Hdt.
    destruct (bu_delta (snd s') !! Rel l) as [d'|]; [|done]. cbn in Hdt. injection Hdt as Hdt.
    exists d'. by rewrite Hdt.
  - intros l a b e Hl. by apply (bad_builtin r).
  - intros i l lp sub s Hi Hbu Hn Hlp Hlen Hs.
    assert (Har : length (Args l) = ar (Rel l)).
    { apply (po_body_arity _ _ _ _ _ Hprog r); [done| |done]. by eapply list_elem_of_lookup_2. }
    rewrite Har in *. by apply fire_litTuples.
  - intros i l lp t s Hi Hbu Hn Hlp Hlen Hs.
    assert (Har : length (Args l) = ar (Rel l)).
    { apply (po_body_arity _ _ _ _ _ Hprog r); [done| |done]. by eapply list_elem_of_lookup_2. }
    eapply fire_negated; eauto. congruence.
Qed.

End fire.

(** ** Firing a rule *)

Lemma init_frame_free ts n fr : init_frame ts (free_binds n) fr = Some fr.
Proof. revert ts. induction n as [|n IH]; intros [|t ts]; [done..|]. apply IH. Qed.

Lemma matches_free n t : matches t (free_binds n) = true.
Proof.
  apply matches_iff. intros i v H. unfold free_binds in H.
  apply lookup_replicate in H as [H _]. done.
Qed.

Lemma frame_get_empty n i : i < 64 -> frame_get (mkFrame (replicate n 0%N) 0) i = None.
Proof. intros Hi. rewrite frame_get_alt by done. by rewrite N.bits_0. Qed.

Lemma build_head_spec r fr sg ts :
  frame_ok (NVars r) fr -> slots_ok (NVars r) ts -> agrees fr sg ->
  (forall t, t ∈ ts -> IsVar t = true -> bound fr (Var t)) ->
  build_head r fr ts = Ok (inst_args sg ts).
Proof.
  intros Hf Hs Ha Hb. induction ts as [|t ts IH]; [done|]. cbn [build_head].
  assert (is_Some (termSym t fr)) as [v Hv].
  { unfold termSym. destruct (IsVar t) eqn:Hv; [apply Hb; [left|done]|done]. }
  rewrite Hv, IH.
  - cbn. f_equal. unfold inst_args. cbn. f_equal. symmetry.
    eapply termSym_agrees; eauto. intros. apply Hs; [left|done].
  - intros u Hu. apply Hs. by right.
  - intros u Hu. apply Hb. by right.
Qed.

Lemma agrees_inst n fr sg1 sg2 t :
  frame_ok n fr -> (IsVar t = true -> Var t < n /\ bound fr (Var t)) ->
  agrees fr sg1 -> agrees fr sg2 -> inst sg1 t = inst sg2 t.
Proof.
  intros [_ Hn] Ht H1 H2. unfold inst. destruct (IsVar t); [|done].
  destruct (Ht eq_refl) as [Hlt [v Hv]]. rewrite (H1 _ v), (H2 _ v); [done|lia|done|lia|done].
Qed.

(** The row of a plain rule under a substitution is in its table. *)
Definition head_done (r : Rule) (s : Engine * bottomUp) (sg : subst) : Prop :=
  inst_args sg (Args (Head r)) ∈ tab (fst s) (Rel (Head r)).

Notation plain_inv r p := (fire_inv r p (fun _ => True)).
Notation plain_grows := (fire_grows (fun _ _ => False)).
Notation fire_low r p := (lits_low syms P (fire_ct r p)).

Lemma plain_emit r p b0 fr steps s :
  r ∈ rules -> Agg r = None -> b0 = free_binds (arity (Head r)) ->
  plain_inv r p s -> frame_ok (NVars r) fr ->
  (forall i, slot_bound (Body r) i -> bound fr i) ->
  (forall sg, agrees fr sg -> body_holds syms P P sg (Body r)) ->
  wp bad (join_emit r b0 (key (Rel (Head r))) fr steps) (fun _ s' =>
    plain_inv r p s' /\ plain_grows s s' /\ forall sg, agrees fr sg -> head_done r s' sg) s.
Proof.
  intros Hr Hagg -> Hs Hf Hbd Hup. pose proof (po_ordered _ _ _ _ _ Hprog r Hr) as Hord.
  set (sg0 := frame_subst fr). pose proof (agrees_frame_subst fr) as Ha0. fold sg0 in Ha0.
  assert (Hvars : forall t, t ∈ Args (Head r) -> IsVar t = true -> bound fr (Var t)).
  { intros t Ht Hv. by apply Hbd, (po_head _ _ _ _ _ Hprog r). }
  assert (Hsame : forall sg, agrees fr sg ->
    inst_args sg (Args (Head r)) = inst_args sg0 (Args (Head r))).
  { intros sg Ha. apply map_ext_in. intros t Ht%list_elem_of_In.
    eapply agrees_inst; eauto. intros Hv. split; [by apply (or_head r Hord)|by apply Hvars]. }
  assert (HP : P (Rel (Head r)) (inst_args sg0 (Args (Head r)))).
  { apply perfect_rule; [by apply (po_strat _ _ _ _ _ Hprog)|done|done|by apply Hup]. }
  unfold join_emit. rewrite Hagg.
  apply wp_bind. rewrite (build_head_spec r fr sg0); [|done|apply or_head, Hord|done|done].
  apply wp_lift; [|done]. intros h [= <-]. rewrite matches_free. cbn [negb].
  apply wp_bind, wp_getE. destruct Hs as (He & Hb & Hp & Hrr & Hhd & HK).
  destruct s as [e b]. cbn [fst snd] in *.
  eapply wp_mono; [|apply (record_spec e b (Rel (Head r))); try done;
                    [by apply elem_of_head_rels; eauto|by apply perfect_tuple_ok]].
  intros _ [e' b'] (Hx & He' & [Hg Ha'] & Hin). cbn [fst snd] in *. subst b'.
  split_and!.
  - split_and!; [done|by eapply bu_ok_grows|done|done|by eapply grows_is_Some|done].
  - split_and!; [done|reflexivity|done].
  - intros sg Ha. unfold head_done. cbn. by rewrite Hsame.
Qed.

Lemma evalRule_plain r p s :
  r ∈ rules -> Agg r = None -> plain_inv r p s ->
  wp bad (evalRule bu_src r (plan_of r) (free_binds (arity (Head r))) (key (Rel (Head r))))
    (fun _ s' => plain_inv r p s' /\ plain_grows s s' /\
       forall sg, fire_low r p s 0 (Body r) sg -> head_done r s' sg) s.
Proof.
  intros Hr Hagg Hs. unfold evalRule. rewrite init_frame_free, Hagg.
  pose proof (po_ordered _ _ _ _ _ Hprog r Hr) as Hord. apply wp_bind.
  eapply wp_mono; [|eapply (join_spec bu_src bad r (plan_of r) syms P P (plain_inv r p) plain_grows
    (fire_ct r p) (HS := fire_source r p _ _ Hr)) with (D := head_done r)]; [|done| | |done| |].
  - intros fr s' (HJ & HR & HD). apply wp_ret. done.
  - intros s1 s2 sg (Hg & _ & _) H. by eapply grows_tab.
  - intros fr steps s1 HJ Hf Hbd Hup. by apply plain_emit.
  - split; [apply length_replicate|apply Hord].
  - intros i Hi. by apply frame_get_empty.
Qed.

(** ** Firing an aggregate rule *)


Section agg_fire.
Context (r : Rule) (a : AggSpec).
Hypothesis Hr : r ∈ rules.
Hypothesis Hagg : Agg r = Some a.

Local Notation group := (group_of r a).
Local Notation member := (fun g v => exists s', body_holds syms P P s' (Body r) /\
  group s' = g /\ s' (inSlot a) = v).

(** An accumulator of the group of some substitution, holding only its inputs. *)
Definition acc_ok (k : tkey) (acc : aggAcc) : Prop :=
  exists sg, body_holds syms P P sg (Body r) /\ k = interner_key (group sg) /\
    agg_group acc = group sg /\ agg_pos acc = last_out (outSlot a) (Args (Head r)) 0 None /\
    acc_from a acc (member (group sg)).

Definition accs_ok (oa : option (gmap tkey aggAcc)) : Prop :=
  exists accs, oa = Some accs /\ forall k acc, accs !! k = Some acc -> acc_ok k acc.

(** A substitution has been folded into its group. *)
Definition folded (oa : option (gmap tkey aggAcc)) (sg : subst) : Prop :=
  exists accs acc, oa = Some accs /\ accs !! interner_key (group sg) = Some acc /\
    agg_group acc = group sg /\ covers a acc (sg (inSlot a)).

Notation agg_inv p := (fire_inv r p accs_ok).
Notation agg_grows := (fire_grows folded).

Lemma body_valid sg : body_holds syms P P sg (Body r) ->
  forall l, l ∈ Body r -> isBuiltin (Rel l) = false -> Neg l = false ->
    itup_valid syms (inst_args sg (Args l)).
Proof.
  intros Hbody l Hl Hb Hn. unfold body_holds in Hbody. rewrite Forall_forall in Hbody.
  specialize (Hbody l Hl). unfold lit_holds in Hbody. rewrite Hb, Hn in Hbody.
  by eapply perfect_valid.
Qed.

Lemma group_sym sg t : body_holds syms P P sg (Body r) -> t ∈ Args (Head r) ->
  is_out (outSlot a) t = false -> sym_valid syms (inst sg t).
Proof.
  intros Hb Ht Ho. unfold inst, is_out in *.
  destruct (po_agg _ _ _ _ _ Hprog r a Hr Hagg) as (_ & _ & Hrest & _).
  destruct (IsVar t) eqn:Hv; [|by apply (po_sym _ _ _ _ _ Hprog r)]. cbn in Ho.
  apply Nat.eqb_neq in Ho. eapply inst_bound; [by apply body_valid|done|by apply Hrest].
Qed.

Lemma group_ok sg : body_holds syms P P sg (Body r) -> tuple_ok (ar (Rel (Head r))) (group sg).
Proof.
  intros Hb. unfold group_of, group_row. split; [rewrite length_map; by apply (po_head_arity _ _ _ _ _ Hprog)|].
  apply Forall_forall. intros v (t & -> & Ht)%list_elem_of_fmap.
  destruct (is_out (outSlot a) t) eqn:Ho; [done|].
  eapply sym_valid_u32; [by apply (po_syms _ _ _ _ _ Hprog)|by apply group_sym].
Qed.

Lemma group_key_inj sg1 sg2 :
  body_holds syms P P sg1 (Body r) -> body_holds syms P P sg2 (Body r) ->
  interner_key (group sg1) = interner_key (group sg2) -> group sg1 = group sg2.
Proof.
  intros [L1 F1]%group_ok [L2 F2]%group_ok. apply interner_key_inj; [congruence|done|done].
Qed.

Lemma fold_step accs sg acc acc' :
  (forall k acc, accs !! k = Some acc -> acc_ok k acc) ->
  body_holds syms P P sg (Body r) ->
  acc = default (mkAggAcc (group sg) (last_out (outSlot a) (Args (Head r)) 0 None) 0 false ∅ [])
          (accs !! interner_key (group sg)) ->
  agg_fold r a (sg (inSlot a)) syms false [] acc = Ok acc' ->
  accs_ok (Some (<[interner_key (group sg) := acc']> accs)) /\
  folded (Some (<[interner_key (group sg) := acc']> accs)) sg /\
  forall sg', folded (Some accs) sg' -> folded (Some (<[interner_key (group sg) := acc']> accs)) sg'.
Proof.
  intros Haccs Hb Hacc Hfold.
  destruct (po_agg _ _ _ _ _ Hprog r a Hr Hagg) as (Hfn & _).
  assert (Hok : acc_ok (interner_key (group sg)) acc).
  { subst acc. destruct (accs !! interner_key (group sg)) as [acc|] eqn:E; [by apply Haccs|].
    exists sg. cbn. split_and!; [done..|]. unfold acc_from. cbn.
    destruct (str_eqb (Fn a) "count"); [set_solver|done]. }
  assert (Hgr : agg_group acc = group sg).
  { destruct Hok as (sg0 & Hb0 & Hk & Hg & _). rewrite Hg. by apply group_key_inj. }
  destruct Hok as (sg0 & Hb0 & Hk & Hg0 & Hp & Hfrom). rewrite <- Hg0, Hgr in Hfrom.
  destruct (agg_fold_spec r a _ _ _ _ _ _ Hfn Hfrom ltac:(by exists sg) Hfold)
    as (Hg' & Hp' & Hfrom' & Hcov & Hmono).
  split_and!.
  - eexists. split; [done|]. intros k c. destruct (decide (k = interner_key (group sg))) as [->|Hne].
    + rewrite lookup_insert_eq. intros [= <-]. exists sg. split_and!; [done|done|congruence|congruence|done].
    + rewrite lookup_insert_ne by done. apply Haccs.
  - eexists _, _. split; [done|]. rewrite lookup_insert_eq. split_and!; [done|congruence|done].
  - intros sg' (accs0 & c & [= <-] & Hc & Hcg & Hcc). eexists.
    destruct (decide (interner_key (group sg') = interner_key (group sg))) as [He|Hne].
    + rewrite He in *. rewrite Hc in Hacc. cbn in Hacc. subst c.
      exists acc'. split; [done|]. rewrite lookup_insert_eq. split_and!; [done|congruence|auto].
    + exists c. split; [done|]. rewrite lookup_insert_ne by done. done.
Qed.

Lemma agg_emit p b0 k fr steps s :
  agg_inv p s -> frame_ok (NVars r) fr ->
  (forall i, slot_bound (Body r) i -> bound fr i) ->
  (forall sg, agrees fr sg -> body_holds syms P P sg (Body r)) ->
  wp bad (join_emit r b0 k fr steps) (fun _ s' => agg_inv p s' /\ agg_grows s s' /\
    forall sg, agrees fr sg -> folded (e_agg (fst s')) sg) s.
Proof.
  intros Hs Hf Hbd Hup. pose proof (po_ordered _ _ _ _ _ Hprog r Hr) as Hord.
  destruct (po_agg _ _ _ _ _ Hprog r a Hr Hagg) as (Hfn & Hin & Hrest & _).
  set (sg0 := frame_subst fr). pose proof (agrees_frame_subst fr) as Ha0. fold sg0 in Ha0.
  assert (Hgroup : forall sg, agrees fr sg -> group sg = group sg0).
  { intros sg Ha. apply map_ext_in. intros t Ht%list_elem_of_In.
    destruct (is_out (outSlot a) t) eqn:Ho; [done|]. eapply agrees_inst; eauto. intros Hv.
    split; [by apply (or_head r Hord)|]. apply Hbd, Hrest; [done|done|].
    unfold is_out in Ho. rewrite Hv in Ho. by apply Nat.eqb_neq. }
  destruct (Hbd _ Hin) as [inv Hinv].
  assert (Hi64 : inSlot a < 64).
  { destruct Hin as (l & t & Hl & _ & _ & Ht & Hv & <-). pose proof (or_nvars r Hord).
    pose proof (or_body r Hord l Hl t Ht Hv). lia. }
  assert (Hinv' : forall sg, agrees fr sg -> sg (inSlot a) = inv) by (intros sg Ha; by apply Ha).
  unfold join_emit. rewrite Hagg. unfold aggCollect. apply wp_bind.
  rewrite (agg_head_spec r (outSlot a) (NVars r) fr sg0);
    [|done|done|apply or_head, Hord|intros; by apply Hbd, Hrest].
  apply wp_lift; [|done]. intros [h pos] [= <- <-]. rewrite Hinv. fold (group sg0).
  apply wp_bind, wp_getE. pose proof Hs as (He & Hb & Hp & Hrr & Hhd & HK).
  destruct s as [e b]. cbn [fst snd] in *. destruct HK as (accs & Hea & Haccs). rewrite Hea. cbn [default].
  set (acc := default (mkAggAcc (group sg0) (last_out (outSlot a) (Args (Head r)) 0 None) 0 false ∅ [])
                (accs !! interner_key (group sg0))).
  apply wp_bind, wp_modifyE. cbn [fst snd]. apply wp_bind.
  rewrite (eo_syms e He), (eo_prov e He). apply wp_lift.
  - intros acc' Hfold. apply wp_modifyE. cbn [fst snd].
    rewrite <- (Hinv' sg0 Ha0) in Hfold.
    assert (Hfold' : agg_fold r a (sg0 (inSlot a)) syms false [] acc = Ok acc').
    { revert Hfold. unfold agg_fold. by destruct (str_eqb (Fn a) "count"). }
    destruct (fold_step accs sg0 acc acc' Haccs ltac:(by apply Hup) ltac:(done) Hfold')
      as (Hok & Hdone & Hmono).
    split_and!.
    + split_and!; cbn [fst snd]; [by apply (eng_ok_same e)|by apply (bu_ok_grows e); [apply grows_same|]|done..].
    + split_and!; [by apply grows_same|reflexivity|cbn [fst snd]; rewrite Hea; exact Hmono].
    + intros sg Ha. cbn. destruct Hdone as (accs' & c & Hac & Hc & Hcg & Hcc).
      exists accs', c. rewrite (Hgroup sg Ha), (Hinv' sg Ha), <- (Hinv' sg0 Ha0). done.
  - intros err Herr. apply agg_fold_err in Herr as (Hc & Hd & ->).
    eapply (bad_agg r a sg0); try done; [by apply Hup|]. by rewrite (Hinv' sg0 Ha0).
Qed.

Lemma sym_valid_checked v : sym_valid syms v -> is_Some (sym_checked syms v).
Proof.
  intros [(n & Hn & ->)|Hv]; unfold sym_checked.
  - rewrite intsym_land by done. done.
  - destruct (N.land v intSymFlag =? 0)%N; [|done]. cbn. by apply lookup_lt_is_Some_2.
Qed.

(** Revealing a group can only fail when no string was ever interned. *)
Lemma group_panics sg : body_holds syms P P sg (Body r) ->
  reveal_panics syms (group sg) = true -> strs syms = [].
Proof.
  intros Hb (v & Hv & Hp)%existsb_exists. apply list_elem_of_In, list_elem_of_fmap in Hv as (t & -> & Ht).
  apply bool_decide_eq_true in Hp. destruct (is_out (outSlot a) t) eqn:Ho.
  - unfold sym_checked in Hp. cbn in Hp. by destruct (strs syms).
  - destruct (sym_valid_checked _ (group_sym sg t Hb Ht Ho)) as [x Hx]. congruence.
Qed.

(** Every substitution the body of the model has was folded. *)
Definition all_folded (oa : option (gmap tkey aggAcc)) : Prop :=
  forall sg, body_holds syms P P sg (Body r) -> folded oa sg.

Lemma acc_value accs k acc :
  (forall k acc, accs !! k = Some acc -> acc_ok k acc) -> all_folded (Some accs) ->
  accs !! k = Some acc ->
  exists sg n, body_holds syms P P sg (Body r) /\ k = interner_key (group sg) /\
    agg_result a acc = Some n /\ agg_value syms P r a sg n /\
    agg_row acc n = Some (agg_tuple r a sg n).
Proof.
  intros Haccs Hall Hk. destruct (Haccs k acc Hk) as (sg & Hb & -> & Hg & Hp & Hfrom).
  assert (Hcov : forall s', body_holds syms P P s' (Body r) -> group s' = agg_group acc ->
    covers a acc (s' (inSlot a))).
  { intros s' Hb' Hg'. destruct (Hall s' Hb') as (accs' & c & [= <-] & Hc & _ & Hcov).
    rewrite Hg', Hg in Hc. by simplify_eq. }
  rewrite <- Hg in Hfrom. destruct (agg_result_value syms P r a acc sg Hfrom Hg Hb Hcov) as (n & Hn & Hv).
  exists sg, n. split_and!; [done|done|done|done|].
  destruct (po_agg _ _ _ _ _ Hprog r a Hr Hagg) as (_ & _ & _ & p & t & Hpt & Hot & Huniq).
  eapply agg_row_tuple; [done| |done|done|done]. rewrite Hp.
  by rewrite (last_out_unique _ _ _ _ _ _ Hpt Hot Huniq).
Qed.

(** What a run of recordings preserves. *)
Definition rec_inv p (s s' : Engine * bottomUp) : Prop :=
  fire_inv r p (fun _ => True) s' /\ fire_grows (fun _ _ => False) s s'.

Lemma record_rec p s s1 tup d name :
  rec_inv p s s1 -> P (Rel (Head r)) tup ->
  wp bad (record (key (Rel (Head r))) tup d name)
    (fun _ s2 => rec_inv p s s2 /\ grows (fst s1) (fst s2) /\ tup ∈ tab (fst s2) (Rel (Head r))) s1.
Proof.
  intros [(He & Hb & Hp & Hrr & Hhd & _) HG] HP. destruct s1 as [e1 b1]. cbn [fst snd] in *.
  eapply wp_mono; [|apply (record_spec e1 b1 (Rel (Head r))); try done;
                    [by apply head_in|by apply perfect_tuple_ok]].
  intros _ [e2 b2] (Hx & He2 & [Hg2 Ha2] & Hin). cbn [fst snd] in *. subst b2.
  split; [|done]. split.
  - split_and!; cbn [fst snd]; [done|by eapply bu_ok_grows|done|done|by eapply grows_is_Some|done].
  - etrans; [exact HG|]. split_and!; [done|reflexivity|done].
Qed.

Lemma flushAgg_spec p s :
  agg_inv p s -> all_folded (e_agg (fst s)) ->
  wp bad (flushAgg r a (key (Rel (Head r)))) (fun _ s' => rec_inv p s s' /\
    forall sg n, body_holds syms P P sg (Body r) -> agg_value syms P r a sg n ->
      agg_tuple r a sg n ∈ tab (fst s') (Rel (Head r))) s.
Proof.
  intros Hs Hall. pose proof Hs as (He & Hb & Hp & Hrr & Hhd & accs & Hea & Haccs).
  unfold flushAgg. apply wp_bind, wp_getE. rewrite Hea, (eo_syms _ He) in *. cbn [default from_option id].
  set (l := map snd (map_to_list accs)).
  assert (Hl : forall acc, acc ∈ l <-> exists k, accs !! k = Some acc).
  { intros acc. unfold l. rewrite list_elem_of_fmap. split.
    - intros ([k c] & -> & Hin). exists k. by apply elem_of_map_to_list.
    - intros [k Hk]. exists (k, acc). split; [done|]. by apply elem_of_map_to_list. }
  destruct (_ && _) eqn:Hpanic.
  { apply wp_throw. apply andb_true_iff in Hpanic as [_ (acc & Hin & Hrp)%existsb_exists].
    apply list_elem_of_In, Hl in Hin as [k Hk]. destruct (Haccs k acc Hk) as (sg & Hbsg & _ & Hg & _).
    rewrite Hg in Hrp. eapply bad_panic; [done|done|]. by eapply group_panics. }
  eapply wp_mono; [|apply (wp_for_each bad _ _ (fun done s' => rec_inv p s s' /\
    forall k acc n sg, acc ∈ done -> accs !! k = Some acc -> k = interner_key (group sg) ->
      body_holds syms P P sg (Body r) -> agg_value syms P r a sg n ->
      agg_tuple r a sg n ∈ tab (fst s') (Rel (Head r))))].
  - intros [] s' [Hrec Hdone]. split; [done|]. intros sg n Hbsg Hv.
    destruct (Hall sg Hbsg) as (accs' & acc & [= <-] & Hk & _). eapply Hdone; [|done..].
    rewrite merge_sort_Permutation. apply Hl. by eexists.
  - split; [split; [by split_and!|split_and!; [reflexivity|reflexivity|done]]|].
    intros k acc n sg Hin. by apply not_elem_of_nil in Hin.
  - intros pre acc post s1 Hsort [Hrec Hdone].
    assert (Hin : acc ∈ l).
    { rewrite <- (merge_sort_Permutation (group_le syms)), Hsort. set_solver. }
    apply Hl in Hin as [k Hk].
    destruct (acc_value accs k acc Haccs Hall Hk) as (sg & n & Hbsg & Hkey & Hres & Hval & Hrow).
    rewrite Hres, Hrow. apply wp_bind, wp_getE.
    eapply wp_mono; [|apply record_rec; [exact Hrec|]].
    + intros _ s2 (Hrec2 & Hg2 & Hin2). split; [done|].
      intros k' acc' n' sg' Hacc' Hk' Hkey' Hb' Hv'.
      apply elem_of_app in Hacc' as [Hacc'|Heq%list_elem_of_singleton].
      * eapply grows_tab; [exact Hg2|]. by eapply Hdone.
      * subst acc'. destruct (Haccs _ _ Hk') as (sg1 & Hb1 & He1 & Hg1 & _).
        destruct (Haccs _ _ Hk) as (sg2 & Hb2 & He2 & Hg2' & _).
        assert (Hgr : group sg = group sg').
        { rewrite (group_key_inj sg sg2), (group_key_inj sg' sg1); try done; congruence. }
        assert (n = n') as <-.
        { eapply agg_value_fun; [exact Hval|]. eapply agg_value_group; [|exact Hv'].
          by apply same_group_iff. }
        by rewrite <- (agg_tuple_group r a sg sg' n).
    + apply perfect_agg; [by apply (po_strat _ _ _ _ _ Hprog)|done..].
Qed.

Lemma wp_with_agg {X} acc (m : EM X unit) Q e (x : X) :
  wp bad m (fun u s' => Q u (set_agg (e_agg e) (fst s'), snd s')) (set_agg (Some acc) e, x) ->
  wp bad (with_agg acc m) Q (e, x).
Proof. unfold wp, with_agg. by destruct (m _) as [[e' x'] [u|err]]. Qed.

Lemma set_agg_inv oa p e b :
  fire_inv r p (fun _ => True) (e, b) ->
  eng_ok (set_agg oa e) /\ bu_ok (set_agg oa e) b.
Proof.
  intros (He & Hb & _). split; [by apply (eng_ok_same e)|].
  by apply (bu_ok_grows e); [apply grows_same|].
Qed.

(** The body of a rule over complete relations reads the whole model. *)
Lemma fire_low_complete s sg :
  fire_inv r None (fun _ => True) s ->
  (forall l, l ∈ Body r -> Rel l ∈ heads -> Rel l ∈ bu_complete (snd s)) ->
  body_holds syms P P sg (Body r) -> lits_low syms P (fire_ct r None) s 0 (Body r) sg.
Proof.
  intros (He & Hb & _) Hc Hbody j l Hj. cbn [Nat.add]. unfold lit_low, fire_ct. rewrite Hj.
  assert (Hl : l ∈ Body r) by by eapply list_elem_of_lookup_2.
  unfold body_holds in Hbody. rewrite Forall_forall in Hbody. specialize (Hbody l Hl).
  unfold lit_holds in Hbody. destruct (isBuiltin (Rel l)); [done|]. destruct (Neg l); [done|].
  rewrite decide_False by done. destruct (decide (Rel l ∈ heads)) as [Hh|Hh].
  - apply complete_tab; [done|done| |done]. by apply (bo_complete _ _ Hb), Hc.
  - by apply (perfect_not_head syms rules _ st).
Qed.

Lemma evalRule_agg s :
  fire_inv r None (fun _ => True) s ->
  (forall l, l ∈ Body r -> Rel l ∈ heads -> Rel l ∈ bu_complete (snd s)) ->
  wp bad (evalRule bu_src r (plan_of r) (free_binds (arity (Head r))) (key (Rel (Head r))))
    (fun _ s' => rec_inv None s s' /\
       forall sg n, body_holds syms P P sg (Body r) -> agg_value syms P r a sg n ->
         agg_tuple r a sg n ∈ tab (fst s') (Rel (Head r))) s.
Proof.
  intros Hs Hc. pose proof Hs as (He & Hb & Hp & Hrr & Hhd & _). destruct s as [e b].
  pose proof (po_ordered _ _ _ _ _ Hprog r Hr) as Hord. cbn [fst snd] in *.
  unfold evalRule. rewrite init_frame_free, Hagg. apply wp_with_agg.
  destruct (set_agg_inv (Some ∅) None e b Hs) as [He0 Hb0].
  assert (Hs0 : agg_inv None (set_agg (Some ∅) e, b)).
  { split_and!; cbn [fst snd]; try done. exists ∅. split; [done|]. intros k acc H. by rewrite lookup_empty in H. }
  apply wp_bind.
  eapply wp_mono; [|eapply (join_spec bu_src bad r (plan_of r) syms P P (agg_inv None) agg_grows
    (fire_ct r None) (HS := fire_source r None _ _ Hr)) with (D := fun s sg => folded (e_agg (fst s)) sg)];
    [|done| | |exact Hs0| |].
  - intros fr s1 (HJ1 & (HG1 & HB1 & _) & HD1).
    assert (Hall : all_folded (e_agg (fst s1))).
    { intros sg Hbody. apply HD1. apply fire_low_complete; [|done|done].
      destruct Hs0 as (? & ? & ? & ? & ? & _). by split_and!. }
    eapply wp_mono; [|by apply flushAgg_spec].
    intros _ [e2 b2] [[HJ2 (HG2 & HB2 & _)] Hdone]. cbn [fst snd] in *. split; [|exact Hdone].
    destruct (set_agg_inv (e_agg e) None e2 b2 HJ2) as [He3 Hb3].
    destruct HJ2 as (_ & _ & Hp2 & Hrr2 & Hhd2 & _). split; [by split_and!|].
    split_and!; cbn [fst snd]; [|by etrans|done].
    etrans; [by apply (grows_same e (set_agg (Some ∅) e))|].
    etrans; [exact HG1|]. etrans; [exact HG2|]. by apply grows_same.
  - intros s1 s2 sg (_ & _ & H) H1. by apply H.
  - intros fr steps s1 HJ Hf Hbd Hup. by apply agg_emit.
  - split; [apply length_replicate|apply Hord].
  - intros i Hi. by apply frame_get_empty.
Qed.

End agg_fire.

End spec.
