(* ===== verification/DlComponentSpec.v ===== *)
(** Bottom-up evaluation of one component and of the cone of a goal: the
    semi-naive rounds reach the perfect model, every round bound is met, and
    the components come in an order in which negation and aggregation read
    finished relations only. *)
From S2P Require Import Prelude DlIntern DlSyntax DlSafe DlStrata DlRelation DlEngine DlJoin.
From S2P Require Import DlSemantics DlJoinSpec DlAggSpec DlCone DlBottomUp DlBottomUpSpec.

Section component.
Context (rules : list Rule) (base0 : gmap string relation) (syms : interner) (opts : Options)
  (st ar : string -> nat) (bad : DlError -> Prop).
Context `{HC : !EvalOk rules base0 syms opts st ar bad}.

Local Notation P := (perfect syms rules (base_of base0) st).
Local Notation heads := (head_rels rules).
Local Notation key := (fkey ar).
Local Notation tab := (tab ar).
Local Notation tab_ok := (tab_ok rules base0 syms st ar).
Local Notation eng_ok := (eng_ok rules base0 syms opts st ar).
Local Notation bu_ok := (bu_ok rules base0 syms st ar).
Local Notation rule_ready := (rule_ready rules ar).
Local Notation fire_ct := (fire_ct rules base0 ar).
Local Notation fire_inv := (fire_inv rules base0 syms opts st ar).

(** ** The rules of a component *)

(** The relations still to compute. *)
Context (pend : list string).

(** What the rules of the pending relations read: finished relations, or the
    pending ones where neither negated nor aggregated. *)
Definition work_ok (b : bottomUp) : Prop :=
  forall r l, r ∈ rules -> Rel (Head r) ∈ pend -> l ∈ Body r -> Rel l ∈ heads ->
    bu_full b !! Rel l = Some (key (Rel l)) /\
    (Rel l ∈ bu_complete b \/ (Rel l ∈ pend /\ Neg l = false /\ Agg r = None)).

Record comp_inv (s : Engine * bottomUp) : Prop := {
  ci_eng : eng_ok (fst s);
  ci_bu : bu_ok (fst s) (snd s);
  ci_work : work_ok (snd s);
  ci_heads : forall rel, rel ∈ pend -> rel ∈ heads;
  ci_tables : forall rel, rel ∈ pend -> is_Some (e_tables (fst s) !! key rel);
  ci_open : forall rel, rel ∈ pend -> rel ∉ bu_complete (snd s);
  ci_full : forall rel, rel ∈ pend -> bu_full (snd s) !! rel = Some (key rel)
}.

(** Firing rules grows tables and keeps the deltas' contents. *)
Record comp_grows (s s' : Engine * bottomUp) : Prop := {
  cg_grows : grows (fst s) (fst s');
  cg_full : bu_full (snd s') = bu_full (snd s);
  cg_complete : bu_complete (snd s') = bu_complete (snd s);
  cg_delta : forall rel, tuples <$> bu_delta (snd s') !! rel = tuples <$> bu_delta (snd s) !! rel
}.

#[local] Instance comp_grows_preorder : PreOrder comp_grows.
Proof.
  split; [intros s; split; reflexivity|]. intros a b c [G1 F1 C1 D1] [G2 F2 C2 D2].
  split; [by etrans|congruence..].
Qed.

Lemma work_ready b r : work_ok b -> r ∈ rules -> Rel (Head r) ∈ pend -> rule_ready b r.
Proof.
  intros Hw Hr Hp l Hl Hh. destruct (Hw r l Hr Hp Hl Hh) as [Hf Hc]. split; [done|].
  intros Hn. destruct Hc as [?|(_ & ? & _)]; [done|congruence].
Qed.

Lemma fire_ct_mono r p s s' i t : comp_grows s s' -> fire_ct r p s i t -> fire_ct r p s' i t.
Proof.
  intros [G _ _ Dl]. unfold DlBottomUpSpec.fire_ct. destruct (Body r !! i) as [l|]; [|done].
  case_decide; [|case_decide; [by apply grows_tab|done]].
  intros (d & Hd & Ht). specialize (Dl (Rel l)). rewrite Hd in Dl.
  destruct (bu_delta (snd s') !! Rel l) as [d'|]; [|done]. cbn in Dl. injection Dl as Dl.
  exists d'. by rewrite Dl.
Qed.

(** The body of a rule is satisfied by what a state holds, position [p]
    reading its delta. *)
Definition sat (r : Rule) (p : option nat) (s : Engine * bottomUp) (sg : subst) : Prop :=
  lits_low syms P (fire_ct r p) s 0 (Body r) sg.

Lemma sat_mono r p s s' sg : comp_grows s s' -> sat r p s sg -> sat r p s' sg.
Proof.
  intros Hg Hs j l Hj. specialize (Hs j l Hj). unfold lit_low in *.
  destruct (isBuiltin (Rel l)); [done|]. destruct (Neg l); [done|]. by eapply fire_ct_mono.
Qed.

(** ** One firing *)

Definition plain_done (r : Rule) (s : Engine * bottomUp) (sg : subst) : Prop :=
  inst_args sg (Args (Head r)) ∈ tab (fst s) (Rel (Head r)).

Definition agg_done (r : Rule) (s : Engine * bottomUp) : Prop :=
  forall a sg n, Agg r = Some a -> body_holds syms P P sg (Body r) -> agg_value syms P r a sg n ->
    agg_tuple r a sg n ∈ tab (fst s) (Rel (Head r)).

Lemma agg_done_mono r s s' : comp_grows s s' -> agg_done r s -> agg_done r s'.
Proof. intros [G _ _ _] H a sg n Ha Hb Hv. eapply grows_tab; [exact G|]. by eapply H. Qed.

Lemma plain_done_mono r s s' sg : comp_grows s s' -> plain_done r s sg -> plain_done r s' sg.
Proof. intros [G _ _ _]. by apply grows_tab. Qed.

Lemma comp_inv_grows s s' :
  comp_inv s -> eng_ok (fst s') -> bu_ok (fst s') (snd s') -> comp_grows s s' -> comp_inv s'.
Proof.
  intros [He Hb Hw Hh Ht Ho Hfl] He' Hb' [G F C Dl]. split; try done.
  - intros r l. rewrite F, C. apply Hw.
  - intros rel Hrel. by eapply grows_is_Some, Ht.
  - intros rel. rewrite C. apply Ho.
  - intros rel. rewrite F. apply Hfl.
Qed.

Lemma fire_pre r p s :
  comp_inv s -> r ∈ rules -> Rel (Head r) ∈ pend ->
  fire_inv r p (fun _ => True) (fst s, set_delta (bu_delta (snd s)) p (snd s)).
Proof.
  intros [He Hb Hw Hh Ht Ho Hfl] Hr Hp. split_and!; cbn [fst snd]; [done| |done| |by apply Ht|done].
  - destruct Hb as [F C Dl]. by split.
  - intros l Hl Hhl. by apply (work_ready _ _ Hw Hr Hp).
Qed.

Lemma fire_post r p s s' :
  comp_inv s -> fire_inv r p (fun _ => True) s' ->
  fire_grows (fun _ _ => False) (fst s, set_delta (bu_delta (snd s)) p (snd s)) s' ->
  comp_inv s' /\ comp_grows s s'.
Proof.
  intros Hs (He & Hb & _) (G & [F C _ Dl] & _). cbn [fst snd] in *.
  assert (Hg : comp_grows s s') by by split.
  split; [by eapply comp_inv_grows|done].
Qed.

Lemma fire_plain r p ps s :
  comp_inv s -> r ∈ rules -> Rel (Head r) ∈ pend -> Agg r = None ->
  wp bad (fire p (r, key (Rel (Head r)), ps)) (fun _ s' => comp_inv s' /\ comp_grows s s' /\
    forall sg, sat r p s sg -> plain_done r s' sg) s.
Proof.
  intros Hs Hr Hp Ha. unfold fire. apply wp_bind, wp_getE, wp_bind, wp_getX, wp_bind, wp_modifyX.
  rewrite (primePlan_of rules base0 syms opts st ar bad);
    [|apply Hs|by apply (work_ready _ _ (ci_work _ Hs))].
  eapply wp_mono; [|apply (evalRule_plain rules base0 syms opts st ar bad r p); [done|done|by apply fire_pre]].
  intros _ s' (HJ & HR & HD). destruct (fire_post r p s s' Hs HJ HR) as [Hi Hg].
  split_and!; [done|done|]. intros sg Hsat. by apply HD.
Qed.

Lemma fire_agg r a ps s :
  comp_inv s -> r ∈ rules -> Rel (Head r) ∈ pend -> Agg r = Some a ->
  wp bad (fire None (r, key (Rel (Head r)), ps)) (fun _ s' => comp_inv s' /\ comp_grows s s' /\
    agg_done r s') s.
Proof.
  intros Hs Hr Hp Ha. unfold fire. apply wp_bind, wp_getE, wp_bind, wp_getX, wp_bind, wp_modifyX.
  rewrite (primePlan_of rules base0 syms opts st ar bad);
    [|apply Hs|by apply (work_ready _ _ (ci_work _ Hs))].
  eapply wp_mono; [|apply (evalRule_agg rules base0 syms opts st ar bad r a Hr Ha); [by apply fire_pre|]].
  - intros _ s' ([HJ HR] & HD). destruct (fire_post r None s s' Hs HJ HR) as [Hi Hg].
    split_and!; [done|done|]. intros a' sg n Ha'. rewrite Ha in Ha'. injection Ha' as <-. apply HD.
  - intros l Hl Hh. destruct (ci_work _ Hs r l Hr Hp Hl Hh) as [_ [?|(_ & _ & ?)]]; [done|congruence].
Qed.

(** ** All the rules once *)

(** The rules of the pending relations, as [comp_work] lists them. *)
Definition work_list (comp : list string) (work : list (Rule * sgKey * list nat)) : Prop :=
  (forall w, w ∈ work -> exists r, r ∈ rules /\ Rel (Head r) ∈ pend /\
     w = (r, key (Rel (Head r)), rec_positions comp (Body r))) /\
  (forall r, r ∈ rules -> Rel (Head r) ∈ pend ->
     (r, key (Rel (Head r)), rec_positions comp (Body r)) ∈ work).

Lemma comp_work_list e comp :
  e_ruleOrder e = rules ->
  work_list comp (comp_work e comp (map (fun rel => (rel, key rel)) pend)).
Proof.
  intros He. unfold comp_work. rewrite He.
  assert (Hfind : forall r, (exists i, list_find (fun rk : string * sgKey => rk.1 = Rel (Head r))
      (map (fun rel => (rel, key rel)) pend) = Some (i, (Rel (Head r), key (Rel (Head r)))))
    <-> Rel (Head r) ∈ pend).
  { intros r. split.
    - intros [i H]. apply list_find_Some in H as (H & _ & _).
      rewrite list_lookup_fmap in H. destruct (pend !! i) as [rel|] eqn:E; [|done].
      cbn in H. simplify_eq. by eapply list_elem_of_lookup_2.
    - intros H. destruct (list_find_elem_of (fun rk : string * sgKey => rk.1 = Rel (Head r))
        (map (fun rel => (rel, key rel)) pend) (Rel (Head r), key (Rel (Head r))))
        as [[i [rel k]] Hi]; [by apply (list_elem_of_fmap_2 (fun rel => (rel, key rel)))|done|].
      exists i. rewrite Hi. apply list_find_Some in Hi as (Hi & Hn & _). cbn in Hn. subst rel.
      rewrite list_lookup_fmap in Hi. destruct (pend !! i); [|done]. cbn in Hi. by simplify_eq. }
  split.
  - intros w Hw. apply list_elem_of_omap in Hw as (r & Hr & Hw).
    destruct (list_find _ _) as [[i [rel k]]|] eqn:E; [|done]. injection Hw as <-.
    exists r. split; [done|].
    assert (Hp : Rel (Head r) ∈ pend).
    { apply list_find_Some in E as (E & Hn & _). cbn in Hn. subst rel.
      rewrite list_lookup_fmap in E. destruct (pend !! i) as [rel|] eqn:Ei; [|done].
      cbn in E. simplify_eq. by eapply list_elem_of_lookup_2. }
    split; [done|]. apply Hfind in Hp as [j Hj]. rewrite E in Hj. by simplify_eq.
  - intros r Hr Hp. apply list_elem_of_omap. exists r. split; [done|].
    apply Hfind in Hp as [i ->]. done.
Qed.

Lemma fire_all comp work s0 :
  work_list comp work -> comp_inv s0 ->
  wp bad (for_each work (fire None)) (fun _ s => comp_inv s /\ comp_grows s0 s /\
    (forall r, r ∈ rules -> Rel (Head r) ∈ pend -> agg_done r s /\
       (Agg r = None -> forall sg, sat r None s0 sg -> plain_done r s sg))) s0.
Proof.
  intros [Hin Hall] Hs0.
  eapply wp_mono; [|apply (wp_for_each bad work _ (fun done s => comp_inv s /\ comp_grows s0 s /\
    forall r k ps, (r, k, ps) ∈ done -> agg_done r s /\
       (Agg r = None -> forall sg, sat r None s0 sg -> plain_done r s sg)))].
  - intros [] s (Hs & Hg & Hd). split_and!; [done|done|]. intros r Hr Hp.
    by eapply Hd, Hall.
  - split_and!; [done|reflexivity|]. intros r k ps H. by apply not_elem_of_nil in H.
  - intros pre w post s Hw (Hs & Hg & Hd).
    destruct (Hin w ltac:(rewrite Hw; set_solver)) as (r & Hr & Hp & ->).
    assert (Hkeep : forall s', comp_grows s s' -> (agg_done r s' /\
        (Agg r = None -> forall sg, sat r None s0 sg -> plain_done r s' sg)) ->
      forall r' k ps, (r', k, ps) ∈ pre ++ [(r, key (Rel (Head r)), rec_positions comp (Body r))] ->
        agg_done r' s' /\ (Agg r' = None -> forall sg, sat r' None s0 sg -> plain_done r' s' sg)).
    { intros s' Hg' Hr' r' k ps [H|H]%elem_of_app.
      - destruct (Hd r' k ps H) as [Hagg Hpl]. split; [by eapply agg_done_mono|].
        intros Hn sg Hsat. eapply plain_done_mono; [exact Hg'|by apply Hpl].
      - apply list_elem_of_singleton in H. by simplify_eq. }
    destruct (Agg r) as [a|] eqn:Ha.
    + eapply wp_mono; [|by apply (fire_agg r a)]. intros _ s' (Hs' & Hg' & Hd').
      split_and!; [done|by etrans|]. apply Hkeep; [done|]. split; [done|congruence].
    + eapply wp_mono; [|by apply (fire_plain r None)]. intros _ s' (Hs' & Hg' & Hd').
      split_and!; [done|by etrans|]. apply Hkeep; [done|]. split.
      * intros a sg n Ha'. congruence.
      * intros _ sg Hsat. apply Hd'. by eapply sat_mono.
Qed.

(** ** The deltas of a round *)

Definition mark_of (m : gmap string nat) (rel : string) : nat := default 0 (m !! rel).

Definition keyed (rels : list string) : list (string * sgKey) := map (fun rel => (rel, key rel)) rels.

(** The tuples of a table past a mark. *)
Definition delta_of (e : Engine) (rel : string) (n : nat) : option relation :=
  t ← e_tables e !! key rel; deltaRelation (trel t) n.

Lemma delta_of_spec e rel n :
  (delta_of e rel n = None <-> length (tab e rel) <= n \/ e_tables e !! key rel = None) /\
  (forall d, delta_of e rel n = Some d ->
     tuples d = drop n (tab e rel) /\ exists t, e_tables e !! key rel = Some t /\
       rarity d = rarity (trel t) /\ idx d = None).
Proof.
  unfold delta_of, DlBottomUpSpec.tab, table_tuples, deltaRelation.
  destruct (e_tables e !! key rel) as [t|]; cbn; [|split; [tauto|done]].
  destruct (Nat.leb_spec (length (tuples (trel t))) n); (split; [split; [intros; naive_solver lia|]|]).
  - done.
  - done.
  - intros [?|?]; [lia|done].
  - intros d [= <-]. cbn. eauto.
Qed.

Lemma round_deltas_spec e m rels ds m' :
  NoDup rels -> (forall rel, rel ∈ rels -> is_Some (e_tables e !! key rel)) ->
  round_deltas e (keyed rels) m = (ds, m') ->
  (forall rel, ds !! rel = if decide (rel ∈ rels) then delta_of e rel (mark_of m rel) else None) /\
  (forall rel, m' !! rel = if decide (rel ∈ rels) then Some (length (tab e rel)) else m !! rel).
Proof.
  revert ds m'. induction rels as [|x rels IH] using rev_ind; intros ds m' Hnd Ht Hrd.
  { cbn in Hrd. injection Hrd as <- <-. split; intros rel; [by rewrite lookup_empty|done]. }
  apply NoDup_app in Hnd as (Hnd & Hx & _).
  unfold round_deltas, keyed in Hrd. rewrite map_app, fold_left_app in Hrd. cbn [map fold_left] in Hrd.
  change (fold_left _ (map _ rels) _) with (round_deltas e (keyed rels) m) in Hrd.
  destruct (round_deltas e (keyed rels) m) as [ds0 m0] eqn:E0.
  destruct (IH ds0 m0 Hnd ltac:(intros; apply Ht; set_solver) eq_refl) as [Hds Hm]. clear IH.
  assert (Hxr : x ∉ rels) by (intros H; apply (Hx x H); set_solver).
  destruct (Ht x ltac:(set_solver)) as [t Htx]. rewrite Htx in Hrd.
  assert (Htab : length (tuples (trel t)) = length (tab e x)).
  { unfold DlBottomUpSpec.tab, table_tuples. by rewrite Htx. }
  assert (Hdx : delta_of e x (mark_of m x) = deltaRelation (trel t) (mark_of m x)).
  { unfold delta_of. by rewrite Htx. }
  fold (mark_of m x) in Hrd. injection Hrd as <- <-.
  assert (Hiff : forall {A} rel (u v : A), rel <> x ->
    (if decide (rel ∈ rels ++ [x]) then u else v) = if decide (rel ∈ rels) then u else v).
  { intros A rel u v Hne. destruct (decide (rel ∈ rels)); [rewrite decide_True|rewrite decide_False]; set_solver. }
  split; intros rel; destruct (decide (rel = x)) as [->|Hne].
  - rewrite (decide_True (P := x ∈ rels ++ [x])) by set_solver. rewrite Hdx.
    destruct (deltaRelation (trel t) (mark_of m x)) eqn:Ed; [by rewrite lookup_insert_eq|].
    rewrite Hds. by rewrite decide_False.
  - rewrite Hiff, <- Hds by done.
    destruct (deltaRelation (trel t) (mark_of m x)); [by rewrite lookup_insert_ne|done].
  - rewrite lookup_insert_eq, decide_True by set_solver. by rewrite Htab.
  - rewrite lookup_insert_ne, Hm by done.
    by rewrite Hiff.
Qed.

(** ** One round *)

Context (comp : list string).
Hypothesis pend_comp : pend ⊆ comp.
Hypothesis pend_nodup : NoDup pend.
Hypothesis comp_rec : forall r l, r ∈ rules -> Rel (Head r) ∈ pend -> l ∈ Body r -> Rel l ∈ comp ->
  Neg l = false /\ Agg r = None.

Lemma elem_of_rec_positions body i :
  i ∈ rec_positions comp body <-> exists l, body !! i = Some l /\ Neg l = false /\ Rel l ∈ comp.
Proof.
  unfold rec_positions. rewrite list_elem_of_omap. split.
  - intros ([j l] & Hj & H). apply list_elem_of_lookup in Hj as [k Hk].
    rewrite list_lookup_imap in Hk. destruct (body !! k) as [l'|] eqn:Hl; [|done].
    cbn in Hk. injection Hk as -> ->.
    destruct (negb (Neg l) && bool_decide (Rel l ∈ comp)) eqn:Hc; [|done]. injection H as <-.
    apply andb_true_iff in Hc as [Hn Hc%bool_decide_eq_true]. exists l.
    split_and!; [done|by destruct (Neg l)|done].
  - intros (l & Hl & Hn & Hc). exists (i, l). split.
    + apply list_elem_of_lookup. exists i. by rewrite list_lookup_imap, Hl.
    + by rewrite Hn, bool_decide_true.
Qed.

Lemma rec_positions_plain r p :
  r ∈ rules -> Rel (Head r) ∈ pend -> p ∈ rec_positions comp (Body r) -> Agg r = None.
Proof.
  intros Hr Hp (l & Hl & _ & Hc)%elem_of_rec_positions.
  destruct (comp_rec r l Hr Hp); [by eapply list_elem_of_lookup_2|done|done].
Qed.

(** Everything the recursive positions of a rule derive from the deltas. *)
Definition round_done (r : Rule) (ps : list nat) (s1 s : Engine * bottomUp) : Prop :=
  forall p sg, p ∈ ps -> sat r (Some p) s1 sg -> plain_done r s sg.

Lemma round_done_mono r ps s1 s s' : comp_grows s s' -> round_done r ps s1 s -> round_done r ps s1 s'.
Proof. intros Hg H p sg Hp Hs. eapply plain_done_mono; [exact Hg|by eapply H]. Qed.

Lemma fire_rec r s1 s :
  r ∈ rules -> Rel (Head r) ∈ pend -> comp_inv s -> comp_grows s1 s ->
  wp bad (for_each (rec_positions comp (Body r))
            (fun p => fire (Some p) (r, key (Rel (Head r)), rec_positions comp (Body r))))
    (fun _ s' => comp_inv s' /\ comp_grows s s' /\ round_done r (rec_positions comp (Body r)) s1 s') s.
Proof.
  intros Hr Hp Hs Hg.
  eapply wp_mono; [|apply (wp_for_each bad _ _ (fun done s' => comp_inv s' /\ comp_grows s s' /\
    round_done r done s1 s'))].
  - intros [] s' H. exact H.
  - split_and!; [done|reflexivity|]. intros p sg H. by apply not_elem_of_nil in H.
  - intros pre p post s' Hps (Hs' & Hg' & Hd).
    assert (Ha : Agg r = None) by (apply (rec_positions_plain r p Hr Hp); rewrite Hps; set_solver).
    eapply wp_mono; [|by apply (fire_plain r (Some p))]. intros _ s2 (Hs2 & Hg2 & Hd2).
    split_and!; [done|by etrans|]. intros q sg [Hq|Hq]%elem_of_app Hsat.
    + eapply round_done_mono; [exact Hg2|exact Hd|done|done].
    + apply list_elem_of_singleton in Hq as ->. apply Hd2. eapply sat_mono; [|exact Hsat]. by etrans.
Qed.

Lemma fire_round work s1 :
  work_list comp work -> comp_inv s1 ->
  wp bad (for_each work (fun w => for_each (snd w) (fun p => fire (Some p) w)))
    (fun _ s => comp_inv s /\ comp_grows s1 s /\
      forall r, r ∈ rules -> Rel (Head r) ∈ pend -> round_done r (rec_positions comp (Body r)) s1 s) s1.
Proof.
  intros [Hin Hall] Hs1.
  eapply wp_mono; [|apply (wp_for_each bad work _ (fun done s => comp_inv s /\ comp_grows s1 s /\
    forall r k ps, (r, k, ps) ∈ done -> round_done r ps s1 s))].
  - intros [] s (Hs & Hg & Hd). split_and!; [done|done|]. intros r Hr Hp. by eapply Hd, Hall.
  - split_and!; [done|reflexivity|]. intros r k ps H. by apply not_elem_of_nil in H.
  - intros pre w post s Hw (Hs & Hg & Hd).
    destruct (Hin w ltac:(rewrite Hw; apply elem_of_app; right; left)) as (r & Hr & Hp & ->). cbn [snd].
    eapply wp_mono; [|by apply (fire_rec r s1 s)]. intros _ s' (Hs' & Hg' & Hd').
    split_and!; [done|by etrans|]. intros r' k ps [H|H]%elem_of_app.
    + eapply round_done_mono; [exact Hg'|by eapply Hd].
    + apply list_elem_of_singleton in H. by simplify_eq.
Qed.

(** ** The rounds *)

(** The tuples of the pending relations a substitution uses were there when
    the marks were set. *)
Definition within (m : gmap string nat) (s : Engine * bottomUp) (r : Rule) (sg : subst) : Prop :=
  forall l, l ∈ Body r -> isBuiltin (Rel l) = false -> Neg l = false -> Rel l ∈ pend ->
    inst_args sg (Args l) ∈ take (mark_of m (Rel l)) (tab (fst s) (Rel l)).

(** The rules have been applied to everything the marks cover. *)
Definition settled (m : gmap string nat) (s : Engine * bottomUp) : Prop :=
  forall r sg, r ∈ rules -> Rel (Head r) ∈ pend -> Agg r = None ->
    sat r None s sg -> within m s r sg -> plain_done r s sg.

(** What holds before each round: also the facts are in, the aggregate rules
    are done, and the marks are within the tables. *)
Record round_inv (m : gmap string nat) (s : Engine * bottomUp) : Prop := {
  ri_inv : comp_inv s;
  ri_settled : settled m s;
  ri_seeded : forall rel t, rel ∈ pend -> base_of base0 rel t -> t ∈ tab (fst s) rel;
  ri_agg : forall r, r ∈ rules -> Rel (Head r) ∈ pend -> agg_done r s;
  ri_marks : forall rel, rel ∈ pend -> mark_of m rel <= length (tab (fst s) rel)
}.

(** Without new tuples, the pending relations are the model's. *)
Lemma settled_model m s :
  round_inv m s -> (forall rel, rel ∈ pend -> length (tab (fst s) rel) <= mark_of m rel) ->
  forall rel t, rel ∈ pend -> P rel t -> t ∈ tab (fst s) rel.
Proof.
  intros [Hi Hset Hseed Hagg _] Hfull.
  apply (perfect_least syms rules (base_of base0) st (po_strat _ _ _ _ _ Hprog)
           (fun rel => rel ∈ pend) (fun rel t => t ∈ tab (fst s) rel)).
  - intros rel. destruct (decide (rel ∈ pend)); [by left|by right].
  - apply Hseed.
  - intros r sg Hr Ha Hp Hbody. apply Hset; [done|done|done| |].
    + intros j l Hj. cbn [Nat.add]. unfold lit_low, DlBottomUpSpec.fire_ct. rewrite Hj.
      assert (Hl : l ∈ Body r) by by eapply list_elem_of_lookup_2.
      unfold body_holds in Hbody. rewrite Forall_forall in Hbody. specialize (Hbody l Hl).
      unfold lit_holds in Hbody. destruct (isBuiltin (Rel l)); [done|]. destruct (Neg l); [done|].
      rewrite decide_False by done. destruct Hbody as [HP HQ].
      destruct (decide (Rel l ∈ heads)) as [Hh|Hh]; [|by apply (perfect_not_head syms rules _ st)].
      destruct (ci_work _ Hi r l Hr Hp Hl Hh) as [_ [Hc|(Hpl & _)]]; [|by apply HQ].
      eapply (complete_tab rules base0 syms opts st ar); [apply Hi|done| |done].
      by apply (bo_complete _ _ _ _ _ _ _ (ci_bu _ Hi)).
    + intros l Hl Hb Hn Hpl. rewrite take_ge by by apply Hfull.
      unfold body_holds in Hbody. rewrite Forall_forall in Hbody. specialize (Hbody l Hl).
      unfold lit_holds in Hbody. rewrite Hb, Hn in Hbody. by apply Hbody.
  - intros r a sg v Hr Ha Hp Hbody Hval. by eapply Hagg.
Qed.

Lemma set_delta_inv s ds p :
  comp_inv s ->
  (forall rel d, ds !! rel = Some d -> view_wf d /\ row_len d = ar rel /\ forall t, t ∈ tuples d -> P rel t) ->
  comp_inv (fst s, set_delta ds p (snd s)).
Proof.
  intros [He Hb Hw Hh Ht Ho Hfl] Hds. split; try done. destruct Hb as [F C _]. by split.
Qed.

Lemma deltas_ok s m ds m' :
  comp_inv s -> round_deltas (fst s) (keyed pend) m = (ds, m') ->
  forall rel d, ds !! rel = Some d -> view_wf d /\ row_len d = ar rel /\ forall t, t ∈ tuples d -> P rel t.
Proof.
  intros Hs Hrd rel d Hd.
  destruct (round_deltas_spec _ _ _ _ _ pend_nodup (ci_tables _ Hs) Hrd) as [Hds _].
  rewrite Hds in Hd. destruct (decide (rel ∈ pend)) as [Hp|]; [|done].
  destruct (delta_of_spec (fst s) rel (mark_of m rel)) as [_ Hspec].
  destruct (Hspec d Hd) as (Htup & t & Ht & Har & Hidx).
  destruct (eo_tab _ _ _ _ _ _ _ (ci_eng _ Hs) rel t (ci_heads _ Hs rel Hp) Ht) as [W N A S C].
  assert (Htab : tab (fst s) rel = tuples (trel t)).
  { unfold DlBottomUpSpec.tab, table_tuples. by rewrite Ht. }
  assert (Hrl : row_len d = ar rel) by (unfold row_len; rewrite Har, A; lia).
  rewrite Htab in Htup.
  assert (Hsub : forall u, u ∈ tuples d -> u ∈ tuples (trel t)).
  { intros u Hu. rewrite Htup in Hu. rewrite <- (take_drop (mark_of m rel) (tuples (trel t))).
    apply elem_of_app. by right. }
  split_and!; [|done|intros u Hu; by apply S, Hsub].
  split; [|by rewrite Hidx]. apply Forall_forall. intros u Hu%Hsub. rewrite Hrl.
  by apply (perfect_arity rules base0 syms opts st ar bad), S.
Qed.

Lemma take_prefix {A} (l1 l2 : list A) : l1 `prefix_of` l2 -> take (length l1) l2 = l1.
Proof. intros [l ->]. by rewrite take_app_length. Qed.

(** A substitution satisfied after a round whose pending tuples were there
    before it was satisfied before it. *)
Lemma sat_before s1 s r sg :
  comp_inv s1 -> comp_inv s -> r ∈ rules -> Rel (Head r) ∈ pend ->
  bu_complete (snd s1) = bu_complete (snd s) ->
  sat r None s sg ->
  (forall l, l ∈ Body r -> isBuiltin (Rel l) = false -> Neg l = false -> Rel l ∈ pend ->
     inst_args sg (Args l) ∈ tab (fst s1) (Rel l)) ->
  sat r None s1 sg.
Proof.
  intros H1 H Hr Hp Hcc Hsat Hin j l Hj. specialize (Hsat j l Hj). cbn [Nat.add] in *.
  unfold lit_low, DlBottomUpSpec.fire_ct in *. rewrite Hj in *.
  assert (Hl : l ∈ Body r) by by eapply list_elem_of_lookup_2.
  destruct (isBuiltin (Rel l)) eqn:Hb; [done|]. destruct (Neg l) eqn:Hn; [done|].
  rewrite decide_False in * by done. destruct (decide (Rel l ∈ heads)) as [Hh|Hh]; [|done].
  destruct (ci_work _ H1 r l Hr Hp Hl Hh) as [_ [Hc|(Hpl & _)]]; [|by apply Hin].
  eapply (complete_tab rules base0 syms opts st ar);
    [apply H1|done|by apply (bo_complete _ _ _ _ _ _ _ (ci_bu _ H1))|].
  eapply (complete_tab rules base0 syms opts st ar);
    [apply H|done| |exact Hsat]. apply (bo_complete _ _ _ _ _ _ _ (ci_bu _ H)). by rewrite <- Hcc.
Qed.

(** Before a round, a satisfied substitution is settled or uses a new tuple
    at some recursive position. *)
Lemma settled_or_new m s s1 ds m' r sg :
  round_inv m s -> round_deltas (fst s) (keyed pend) m = (ds, m') ->
  s1 = (fst s, set_delta ds None (snd s)) ->
  r ∈ rules -> Rel (Head r) ∈ pend -> Agg r = None -> sat r None s1 sg ->
  plain_done r s sg \/
  exists p, p ∈ rec_positions comp (Body r) /\ sat r (Some p) s1 sg.
Proof.
  intros [Hi Hset _ _ _] Hrd -> Hr Hp Ha Hsat.
  set (Q := fun l => isBuiltin (Rel l) = false -> Neg l = false -> Rel l ∈ pend ->
    inst_args sg (Args l) ∈ take (mark_of m (Rel l)) (tab (fst s) (Rel l))).
  destruct (decide (Forall Q (Body r))) as [HQ|HQ].
  - left. rewrite Forall_forall in HQ. by apply Hset.
  - right. apply not_Forall_Exists in HQ; [|intros l; unfold Q; apply _].
    apply Exists_exists in HQ as (l & Hl & HnQ).
    apply list_elem_of_lookup in Hl as [p Hpl]. exists p.
    destruct (isBuiltin (Rel l)) eqn:Hb; [exfalso; apply HnQ; intros ?; congruence|].
    destruct (Neg l) eqn:Hn; [exfalso; apply HnQ; intros ??; congruence|].
    destruct (decide (Rel l ∈ pend)) as [Hlp|Hlp]; [|exfalso; apply HnQ; by intros ???].
    split; [apply elem_of_rec_positions; exists l; auto|].
    intros j l' Hj. pose proof (Hsat j l' Hj) as Hlow. cbn [Nat.add] in *.
    unfold lit_low, DlBottomUpSpec.fire_ct in *. rewrite Hj in *.
    destruct (isBuiltin (Rel l')) eqn:Hb'; [done|]. destruct (Neg l') eqn:Hn'; [done|].
    rewrite decide_False in Hlow by done.
    destruct (decide (Some p = Some j)) as [[= <-]|Hne]; [|done].
    rewrite Hpl in Hj. injection Hj as <-. cbn [fst snd set_delta bu_delta] in *.
    rewrite decide_True in Hlow by by apply (ci_heads _ Hi).
    assert (Hnew : inst_args sg (Args l) ∈ drop (mark_of m (Rel l)) (tab (fst s) (Rel l))).
    { rewrite <- (take_drop (mark_of m (Rel l)) (tab (fst s) (Rel l))) in Hlow.
      apply elem_of_app in Hlow as [Hlow|Hlow]; [|done]. exfalso. apply HnQ. by intros ???. }
    destruct (round_deltas_spec _ _ _ _ _ pend_nodup (ci_tables _ Hi) Hrd) as [Hds _].
    specialize (Hds (Rel l)). rewrite decide_True in Hds by done.
    destruct (delta_of_spec (fst s) (Rel l) (mark_of m (Rel l))) as [Hnone Hsome].
    destruct (delta_of (fst s) (Rel l) (mark_of m (Rel l))) as [d|] eqn:Ed.
    + exists d. split; [done|]. destruct (Hsome d eq_refl) as [-> _]. done.
    + exfalso. destruct (proj1 Hnone eq_refl) as [Hle|Hnt].
      * rewrite drop_ge in Hnew by done. by apply not_elem_of_nil in Hnew.
      * destruct (ci_tables _ Hi _ Hlp) as [? ?]. congruence.
Qed.

(** The relations materialized and finished so far are the same. *)
Definition same_done (s s' : Engine * bottomUp) : Prop :=
  bu_full (snd s') = bu_full (snd s) /\ bu_complete (snd s') = bu_complete (snd s).

Lemma round_step m s ds m' work :
  round_inv m s -> work_list comp work -> round_deltas (fst s) (keyed pend) m = (ds, m') ->
  wp bad (_ ← modifyX (set_delta ds None);
          _ ← for_each work (fun w => for_each (snd w) (fun p => fire (Some p) w));
          modifyX (set_delta ∅ None)) (fun _ s' => round_inv m' s' /\ same_done s s') s.
Proof.
  intros Hri Hwork Hrd. pose proof Hri as [Hi Hset Hseed Hagg Hmarks].
  apply wp_bind, wp_modifyX. set (s1 := (fst s, set_delta ds None (snd s))).
  assert (Hi1 : comp_inv s1) by (apply set_delta_inv; [done|by eapply deltas_ok]).
  apply wp_bind. eapply wp_mono; [|by apply (fire_round work s1)].
  intros _ s2 (Hi2 & Hg2 & Hd2). apply wp_modifyX.
  set (s3 := (fst s2, set_delta ∅ None (snd s2))).
  assert (Hi3 : comp_inv s3) by (apply set_delta_inv; [done|intros rel d Hd; by rewrite lookup_empty in Hd]).
  destruct (round_deltas_spec _ _ _ _ _ pend_nodup (ci_tables _ Hi) Hrd) as [_ Hm'].
  assert (Hmark : forall rel, rel ∈ pend -> mark_of m' rel = length (tab (fst s) rel)).
  { intros rel Hp. unfold mark_of. rewrite Hm'. by rewrite decide_True. }
  assert (Hpre : forall rel, tab (fst s) rel `prefix_of` tab (fst s3) rel).
  { intros rel. apply (gr_tuples _ _ (cg_grows _ _ Hg2)). }
  split; [|by split; [apply (cg_full _ _ Hg2)|apply (cg_complete _ _ Hg2)]]. split.
  - done.
  - intros r sg Hr Hp Ha Hsat Hwithin.
    assert (Hsat1 : sat r None s1 sg).
    { apply (sat_before s1 s3); try done; [by rewrite <- (cg_complete _ _ Hg2)|].
      intros l Hl Hb Hn Hlp. specialize (Hwithin l Hl Hb Hn Hlp).
      by rewrite Hmark, take_prefix in Hwithin. }
    destruct (settled_or_new m s s1 ds m' r sg) as [Hdone|(p & Hpos & Hsatp)]; try done.
    + unfold plain_done in *. destruct (Hpre (Rel (Head r))) as [x ->]. apply elem_of_app. by left.
    + by apply (Hd2 r Hr Hp p sg).
  - intros rel t Hp Ht. destruct (Hpre rel) as [x ->]. apply elem_of_app. left. by apply Hseed.
  - intros r Hr Hp. by apply (agg_done_mono r s1 s2), Hagg.
  - intros rel Hp. rewrite Hmark by done. by apply prefix_length.
Qed.

(** ** The fixpoint *)

Lemma sum_list_mono {A} (f g : A -> nat) l :
  (forall x, x ∈ l -> f x <= g x) -> sum_list_with f l <= sum_list_with g l.
Proof.
  induction l as [|x l IH]; intros H; [done|]. cbn.
  pose proof (H x ltac:(left)). pose proof (IH ltac:(intros; apply H; by right)). lia.
Qed.

Lemma sum_list_strict {A} (f g : A -> nat) l x :
  (forall x, x ∈ l -> f x <= g x) -> x ∈ l -> f x < g x -> sum_list_with f l < sum_list_with g l.
Proof.
  induction l as [|y l IH]; intros H Hx Hlt; [by apply not_elem_of_nil in Hx|]. cbn.
  pose proof (H y ltac:(left)). apply elem_of_cons in Hx as [->|Hx].
  - pose proof (sum_list_mono f g l ltac:(intros; apply H; by right)). lia.
  - pose proof (IH ltac:(intros; apply H; by right) Hx Hlt). lia.
Qed.

Lemma length_concat_map {A B} (f : A -> list B) l :
  length (concat (map f l)) = sum_list_with (fun x => length (f x)) l.
Proof. induction l as [|x l IH]; [done|]. cbn. by rewrite length_app, IH. Qed.

(** Every row of the pending relations, with its relation. *)
Definition all_rows (e : Engine) : list (string * itup) :=
  concat (map (fun rel => map (pair rel) (tab e rel)) pend).

Lemma all_rows_length e :
  length (all_rows e) = sum_list_with (fun rel => length (tab e rel)) pend.
Proof.
  unfold all_rows. rewrite length_concat_map. generalize pend as l.
  induction l as [|x l IH]; [done|]. cbn. by rewrite IH, length_map.
Qed.

Lemma tab_wf s rel : comp_inv s -> rel ∈ pend ->
  NoDup (tab (fst s) rel) /\ forall t, t ∈ tab (fst s) rel -> P rel t.
Proof.
  intros Hs Hp. destruct (ci_tables _ Hs rel Hp) as [t Ht].
  unfold DlBottomUpSpec.tab, table_tuples. rewrite Ht.
  destruct (eo_tab _ _ _ _ _ _ _ (ci_eng _ Hs) rel t (ci_heads _ Hs rel Hp) Ht) as [W _ _ S _].
  split; [apply W|done].
Qed.

Lemma all_rows_spec s : comp_inv s ->
  NoDup (all_rows (fst s)) /\ forall x, x ∈ all_rows (fst s) -> P (fst x) (snd x).
Proof.
  intros Hs. unfold all_rows.
  assert (H : forall l, NoDup l -> l ⊆ pend ->
    NoDup (concat (map (fun rel => map (pair rel) (tab (fst s) rel)) l)) /\
    forall x, x ∈ concat (map (fun rel => map (pair rel) (tab (fst s) rel)) l) ->
      fst x ∈ l /\ P (fst x) (snd x)).
  { induction l as [|rel l IH]; intros Hnd Hsub; cbn.
    - split; [constructor|]. intros x Hx. by apply not_elem_of_nil in Hx.
    - apply NoDup_cons in Hnd as [Hrel Hnd].
      destruct (IH Hnd ltac:(intros y Hy; apply Hsub; by right)) as [IHn IHx].
      destruct (tab_wf s rel Hs ltac:(apply Hsub; left)) as [Hn HP]. split.
      + apply NoDup_app. split_and!; [by apply NoDup_fmap_2; [intros ?? [=]|]| |done].
        intros x (t & -> & Ht)%list_elem_of_fmap Hin. by apply IHx in Hin as [Hin _].
      + intros x [(t & -> & Ht)%list_elem_of_fmap|Hin]%elem_of_app.
        * split; [left|by apply HP].
        * destruct (IHx x Hin). split; [by right|done]. }
  destruct (H pend pend_nodup ltac:(done)) as [Hn Hx]. split; [done|]. intros x ?. by apply Hx.
Qed.

Lemma deltas_empty s m ds m' :
  comp_inv s -> round_deltas (fst s) (keyed pend) m = (ds, m') ->
  ds = ∅ <-> forall rel, rel ∈ pend -> length (tab (fst s) rel) <= mark_of m rel.
Proof.
  intros Hs Hrd. destruct (round_deltas_spec _ _ _ _ _ pend_nodup (ci_tables _ Hs) Hrd) as [Hds _].
  split.
  - intros -> rel Hp. specialize (Hds rel). rewrite lookup_empty, decide_True in Hds by done.
    destruct (delta_of_spec (fst s) rel (mark_of m rel)) as [Hnone _].
    destruct (proj1 Hnone (eq_sym Hds)) as [?|Hn]; [done|].
    destruct (ci_tables _ Hs rel Hp) as [? ?]. congruence.
  - intros Hle. apply map_eq. intros rel. rewrite Hds, lookup_empty.
    destruct (decide (rel ∈ pend)) as [Hp|]; [|done].
    apply delta_of_spec. left. by apply Hle.
Qed.

Definition marks_total (m : gmap string nat) : nat := sum_list_with (mark_of m) pend.

Lemma comp_rounds_spec work fuel : forall (rnd : Z) m s,
  work_list comp work -> round_inv m s -> 0 < fuel ->
  (MaxRounds opts - rnd + 2 <= Z.of_nat fuel)%Z -> (rnd <= 1 + Z.of_nat (marks_total m))%Z ->
  wp bad (comp_rounds fuel rnd (keyed pend) work m) (fun _ s' => comp_inv s' /\ same_done s s' /\
    forall rel t, rel ∈ pend -> P rel t -> t ∈ tab (fst s') rel) s.
Proof.
  induction fuel as [|fuel IH]; intros rnd m s Hwork Hri Hf Hfuel Hrnd; [lia|].
  pose proof (ri_inv _ _ Hri) as Hi. cbn [comp_rounds]. apply wp_bind, wp_getE.
  destruct (round_deltas (fst s) (keyed pend) m) as [ds m'] eqn:Hrd.
  pose proof (deltas_empty s m ds m' Hi Hrd) as Hempty.
  destruct (decide (ds = ∅)) as [Hds|Hds].
  { apply wp_ret. split_and!; [done|done|]. eapply settled_model; [exact Hri|by apply Hempty]. }
  destruct (round_deltas_spec _ _ _ _ _ pend_nodup (ci_tables _ Hi) Hrd) as [_ Hm'].
  assert (Hmark : forall rel, rel ∈ pend -> mark_of m' rel = length (tab (fst s) rel)).
  { intros rel Hp. unfold mark_of. rewrite Hm'. by rewrite decide_True. }
  assert (Hgrow : marks_total m < marks_total m').
  { destruct (decide (Forall (fun rel => length (tab (fst s) rel) <= mark_of m rel) pend)) as [Hall|Hall].
    - rewrite Forall_forall in Hall. by apply Hempty in Hall.
    - apply not_Forall_Exists in Hall; [|intros rel; apply _].
      apply Exists_exists in Hall as (rel & Hp & Hlt).
      apply (sum_list_strict _ _ pend rel); [|done|].
      + intros x Hx. rewrite (Hmark x Hx). by apply (ri_marks _ _ Hri).
      + rewrite (Hmark rel Hp). cbn in Hlt. lia. }
  rewrite (eo_opts _ _ _ _ _ _ _ (ci_eng _ Hi)).
  destruct (Z.ltb_spec (MaxRounds opts) rnd) as [Hmax|Hmax].
  - apply wp_throw. destruct (all_rows_spec s Hi) as [Hn HP].
    eapply (bad_rounds _ (all_rows (fst s))); [done|done|].
    rewrite all_rows_length.
    assert (Hsum : marks_total m' = sum_list_with (fun rel => length (tab (fst s) rel)) pend).
    { unfold marks_total. apply Nat.le_antisymm; apply sum_list_mono; intros x Hx; rewrite (Hmark x Hx); done. }
    rewrite <- Hsum. lia.
  - pose proof (round_step m s ds m' work Hri Hwork Hrd) as Hstep.
    apply wp_bind_inv in Hstep. apply wp_bind. eapply wp_mono; [|exact Hstep].
    clear Hstep. intros [] s1 Hstep. apply wp_bind_inv in Hstep. apply wp_bind.
    eapply wp_mono; [|exact Hstep]. clear Hstep. intros [] s2 Hstep. apply wp_bind.
    eapply wp_mono; [|exact Hstep]. clear Hstep. intros _ s3 [Hri3 [Hf3 Hc3]].
    eapply wp_mono; [|apply (IH (rnd + 1)%Z m' s3); [done|done|lia|lia|lia]].
    intros _ s4 (Hi4 & [Hf4 Hc4] & Hall). split_and!; [done|by split; congruence|done].
Qed.

(** ** Table states *)

(** The tables hold the same tuples. *)
Definition same_tabs (e e' : Engine) : Prop :=
  (forall k, table_tuples e' k = table_tuples e k) /\
  (forall k, is_Some (e_tables e !! k) -> is_Some (e_tables e' !! k)).

Lemma set_state_spec {X} e (x : X) rel s0 :
  eng_ok e -> rel ∈ heads -> is_Some (e_tables e !! key rel) ->
  (s0 = tableComplete -> forall t, P rel t -> t ∈ tab e rel) ->
  wp bad (set_state (key rel) s0) (fun _ s' => snd s' = x /\ eng_ok (fst s') /\
    same_tabs e (fst s') /\ tstate <$> e_tables (fst s') !! key rel = Some s0 /\
    (forall rel', rel' <> rel -> e_tables (fst s') !! key rel' = e_tables e !! key rel')) (e, x).
Proof.
  intros He Hh [t Ht] Hc. unfold set_state. apply wp_modifyE. cbn [fst snd]. rewrite Ht.
  assert (Htab : tab e rel = tuples (trel t)) by (unfold DlBottomUpSpec.tab, table_tuples; by rewrite Ht).
  split_and!; [done| | | |].
  - apply eng_ok_insert; [done|]. destruct (eo_tab _ _ _ _ _ _ _ He rel t Hh Ht) as [W N A S C].
    split; try done. cbn. intros Hs u Hu. rewrite <- Htab. by apply Hc.
  - split; intros k; unfold table_tuples; cbn; (destruct (decide (k = key rel)) as [->|Hne];
      [by rewrite lookup_insert_eq, ?Ht|by rewrite lookup_insert_ne]).
  - cbn. by rewrite lookup_insert_eq.
  - intros rel' Hne. cbn. rewrite lookup_insert_ne; [done|]. intros H. by apply (inj key) in H.
Qed.

Lemma same_tabs_tab e e' rel : same_tabs e e' -> tab e' rel = tab e rel.
Proof. intros [H _]. apply H. Qed.

(** ** Seeding the tables *)

Definition tabs_le (e e' : Engine) : Prop :=
  forall rel t, t ∈ tab e rel -> t ∈ tab e' rel.

Definition seeded (e : Engine) (rel : string) : Prop :=
  forall t, base_of base0 rel t -> t ∈ tab e rel.

Lemma bu_ok_state e e' b rel :
  bu_ok e b -> rel ∉ bu_complete b -> same_tabs e e' ->
  (forall rel', rel' <> rel -> e_tables e' !! key rel' = e_tables e !! key rel') -> bu_ok e' b.
Proof.
  intros [F C Dl] Hn [_ Hs] Ho. split; [| |done].
  - intros rel' k (Hh & Hk & Ht)%F. split_and!; [done|done|by apply Hs].
  - intros rel' Hc. destruct (C rel' Hc) as [Hf Hst]. split; [done|].
    rewrite Ho; [done|]. intros ->. done.
Qed.

Lemma comp_seed_spec rel s :
  comp_inv s -> rel ∈ pend ->
  wp bad (comp_seed (rel, key rel)) (fun _ s' => comp_inv s' /\ same_done s s' /\
    tabs_le (fst s) (fst s') /\ seeded (fst s') rel) s.
Proof.
  intros Hi Hp. pose proof Hi as [He Hb Hw Hh Ht Ho Hfl]. destruct s as [e b]. cbn [fst snd] in *.
  unfold comp_seed. apply wp_bind.
  eapply wp_mono; [|by apply (set_state_spec e b rel tableProducing He (Hh rel Hp) (Ht rel Hp))].
  intros _ [e1 b1] (Hx & He1 & Hs1 & _ & Ho1). cbn [fst snd] in *. subst b1.
  assert (Hi1 : comp_inv (e1, b)).
  { split; cbn [fst snd]; try done; [by eapply bu_ok_state; eauto|].
    intros rel' Hp'. by apply (proj2 Hs1), Ht. }
  apply wp_bind, wp_getE. cbn [fst].
  assert (Hrec : forall l, (forall t, t ∈ l -> base_of base0 rel t) ->
    wp bad (for_each l (fun t => record (key rel) t None "")) (fun _ s' => comp_inv s' /\
      same_done (e, b) s' /\ tabs_le e (fst s') /\ forall t, t ∈ l -> t ∈ tab (fst s') rel) (e1, b)).
  { intros l Hl.
    apply (wp_for_each bad l _ (fun done s' => comp_inv s' /\ same_done (e, b) s' /\
      tabs_le e (fst s') /\ forall t, t ∈ done -> t ∈ tab (fst s') rel)).
    - split_and!; [done|done| |intros t Hn; by apply not_elem_of_nil in Hn].
      intros rel' t. cbn. by rewrite (same_tabs_tab e e1).
    - intros pre t post [e2 b2] Hlp (Hi2 & Hsd2 & Hle2 & Hin2).
      assert (Hbt : base_of base0 rel t) by (apply Hl; rewrite Hlp; apply elem_of_app; right; left).
      assert (HPt : P rel t) by by apply perfect_base.
      eapply wp_mono; [|apply (record_spec rules base0 syms opts st ar bad e2 b2 rel t None "");
        [apply Hi2|by apply Hh|by apply (ci_tables _ Hi2)|done|by apply (perfect_tuple_ok rules base0 syms opts st ar bad)]].
      intros _ [e3 b3] (Hx & He3 & [Hg3 _] & Hin3). cbn [fst snd] in *. subst b3.
      assert (Hcg : comp_grows (e2, b2) (e3, b2)) by by split.
      split_and!.
      + eapply comp_inv_grows; [exact Hi2|done| |done]. cbn.
        eapply bu_ok_grows; [exact Hg3|apply Hi2].
      + done.
      + intros rel' u Hu. eapply grows_tab; [exact Hg3|by apply Hle2].
      + intros u [Hu|Hu]%elem_of_app; [eapply grows_tab; [exact Hg3|by apply Hin2]|].
        by apply list_elem_of_singleton in Hu as ->. }
  destruct (base0 !! rel) as [r0|] eqn:H0.
  - destruct (base_ref rules base0 syms opts st ar bad e1 rel He1 ltac:(by rewrite H0)) as (r & Hr & _ & _ & Hiff).
    rewrite Hr. eapply wp_mono; [|apply Hrec; intros t; apply Hiff].
    intros _ s' (Hi' & Hsd & Hle & Hin). split_and!; [done|done|done|].
    intros t Hbt. by apply Hin, Hiff.
  - assert (Hn : e_base e1 !! rel = None).
    { destruct (e_base e1 !! rel) eqn:E; [|done]. exfalso.
      destruct (eo_dom _ _ _ _ _ _ _ He1 rel ltac:(by rewrite E)) as [? ?]. congruence. }
    rewrite Hn. apply wp_ret. split_and!; [done|done| |].
    + intros rel' t. cbn. by rewrite (same_tabs_tab e e1).
    + intros t (r & Hr & _). congruence.
Qed.

Lemma seed_all s :
  comp_inv s ->
  wp bad (for_each (keyed pend) comp_seed) (fun _ s' => comp_inv s' /\ same_done s s' /\
    forall rel, rel ∈ pend -> seeded (fst s') rel) s.
Proof.
  intros Hi.
  eapply wp_mono; [|apply (wp_for_each bad (keyed pend) _ (fun done s' => comp_inv s' /\
    same_done s s' /\ forall rel k, (rel, k) ∈ done -> seeded (fst s') rel))].
  - intros [] s' (Hi' & Hsd & Hd). split_and!; [done|done|]. intros rel Hp.
    apply (Hd rel (key rel)). by apply (list_elem_of_fmap_2 (fun rel => (rel, key rel))).
  - split_and!; [done|done|]. intros rel k H. by apply not_elem_of_nil in H.
  - intros pre x post s1 Hx (Hi1 & [Hf1 Hc1] & Hd1).
    assert (Hin : x ∈ keyed pend) by (rewrite Hx; apply elem_of_app; right; left).
    apply list_elem_of_fmap in Hin as (rel & -> & Hp).
    eapply wp_mono; [|by apply (comp_seed_spec rel s1)].
    intros _ s2 (Hi2 & [Hf2 Hc2] & Hle & Hs2). split_and!; [done|split; congruence|].
    intros rel' k [H|H]%elem_of_app.
    + intros t Ht. by apply Hle, (Hd1 rel' k H).
    + apply list_elem_of_singleton in H. injection H as -> ->. done.
Qed.

(** ** Completing the component *)

Lemma complete_spec s :
  comp_inv s -> (forall rel t, rel ∈ pend -> P rel t -> t ∈ tab (fst s) rel) ->
  wp bad (completeComponent (keyed pend)) (fun _ s' => eng_ok (fst s') /\ bu_ok (fst s') (snd s') /\
    bu_full (snd s') = bu_full (snd s) /\
    (forall rel, rel ∈ bu_complete (snd s') <-> rel ∈ bu_complete (snd s) \/ rel ∈ pend)) s.
Proof.
  intros Hi Hall. pose proof Hi as [He Hb Hw Hh Ht Ho Hfl].
  eapply wp_mono; [|apply (wp_for_each bad (keyed pend) _ (fun done s' => eng_ok (fst s') /\
    bu_ok (fst s') (snd s') /\ bu_full (snd s') = bu_full (snd s) /\ same_tabs (fst s) (fst s') /\
    (forall rel, rel ∈ bu_complete (snd s') <-> rel ∈ bu_complete (snd s) \/ (rel, key rel) ∈ done)))].
  - intros [] s' (He' & Hb' & Hf' & _ & Hc'). split_and!; [done|done|done|]. intros rel. rewrite Hc'.
    unfold keyed. split; (intros [?|H]; [by left|right]).
    + apply list_elem_of_fmap in H as (rel' & [= -> _] & ?). done.
    + by apply (list_elem_of_fmap_2 (fun rel => (rel, key rel))).
  - split_and!; [done|done|done|by split|]. intros rel. split; [by left|].
    intros [?|H]; [done|by apply not_elem_of_nil in H].
  - intros pre x post [e1 b1] Hx (He1 & Hb1 & Hf1 & Hs1 & Hc1). cbn [fst snd] in *.
    assert (Hin : x ∈ keyed pend) by (rewrite Hx; apply elem_of_app; right; left).
    apply list_elem_of_fmap in Hin as (rel & -> & Hp).
    apply wp_bind. eapply wp_mono; [|apply (set_state_spec e1 b1 rel tableComplete He1 (Hh rel Hp));
      [by apply (proj2 Hs1), Ht|intros _ t HP; rewrite (same_tabs_tab (fst s) e1 rel Hs1); by apply Hall]].
    intros _ [e2 b2] (Hx2 & He2 & Hs2 & Hst2 & Ho2). cbn [fst snd] in *. subst b2.
    apply wp_modifyX. cbn [fst snd]. split_and!; [done| |done| |].
    + destruct Hb1 as [F C Dl]. split; [| |done]; cbn.
      * intros rel' k (Hh' & Hk & Ht')%F. split_and!; [done|done|by apply (proj2 Hs2)].
      * intros rel' Hin. destruct (decide (rel' = rel)) as [->|Hne].
        -- split; [|done]. rewrite Hf1. by apply Hfl.
        -- assert (Hc' : rel' ∈ bu_complete b1) by set_solver.
           destruct (C rel' Hc') as [Hf Hst]. split; [done|]. by rewrite Ho2.
    + destruct Hs1 as [A1 B1], Hs2 as [A2 B2]. split; intros k; [by rewrite A2, A1|].
      intros. by apply B2, B1.
    + intros rel'. cbn. rewrite elem_of_union, Hc1, elem_of_app, elem_of_singleton.
      rewrite list_elem_of_singleton. split; [|intros [?|[?|[= -> _]]]; tauto].
      intros [->|[?|?]]; tauto.
Qed.

(** ** The component, from its tables on *)

Lemma first_round work s0 s1 :
  work_list comp work -> comp_inv s0 -> comp_inv s1 -> comp_grows s0 s1 ->
  (forall rel, rel ∈ pend -> seeded (fst s0) rel) ->
  (forall r, r ∈ rules -> Rel (Head r) ∈ pend -> agg_done r s1 /\
     (Agg r = None -> forall sg, sat r None s0 sg -> plain_done r s1 sg)) ->
  round_inv ∅ s1.
Proof.
  intros _ Hi0 Hi1 Hg Hseed Hdone. split; [done| | | |].
  - intros r sg Hr Hp Ha Hsat Hwithin. apply (Hdone r Hr Hp); [done|].
    eapply (sat_before s0 s1); try done; [by rewrite (cg_complete _ _ Hg)|].
    intros l Hl Hb Hn Hlp. specialize (Hwithin l Hl Hb Hn Hlp).
    unfold mark_of in Hwithin. rewrite lookup_empty in Hwithin. by apply not_elem_of_nil in Hwithin.
  - intros rel t Hp Ht. eapply grows_tab; [apply (cg_grows _ _ Hg)|]. by apply Hseed.
  - intros r Hr Hp. by apply Hdone.
  - intros rel _. unfold mark_of. rewrite lookup_empty. cbn. lia.
Qed.

(** Without a recursive position one round is enough. *)
Lemma nonrecursive work s :
  work_list comp work -> round_inv ∅ s ->
  existsb (fun w => negb (bool_decide (snd w = []))) work = false ->
  forall rel t, rel ∈ pend -> P rel t -> t ∈ tab (fst s) rel.
Proof.
  intros [_ Hall] Hri Hrec. pose proof Hri as [Hi Hset Hseed Hagg _].
  destruct (round_deltas (fst s) (keyed pend) ∅) as [ds m'] eqn:Hrd.
  destruct (round_deltas_spec _ _ _ _ _ pend_nodup (ci_tables _ Hi) Hrd) as [_ Hm'].
  assert (Hmark : forall rel, rel ∈ pend -> mark_of m' rel = length (tab (fst s) rel)).
  { intros rel Hp. unfold mark_of. rewrite Hm'. by rewrite decide_True. }
  eapply (settled_model m'); [|intros rel Hp; by rewrite Hmark].
  split; [done| |done|done|intros rel Hp; by rewrite Hmark].
  intros r sg Hr Hp Ha Hsat _. apply Hset; [done..|].
  intros l Hl Hb Hn Hlp. exfalso.
  assert (Hw : rec_positions comp (Body r) = []).
  { specialize (Hall r Hr Hp). destruct (rec_positions comp (Body r)) as [|i ps] eqn:E; [done|].
    assert (Hx : existsb (fun w : Rule * sgKey * list nat => negb (bool_decide (snd w = []))) work = true).
    { apply existsb_exists. exists (r, key (Rel (Head r)), i :: ps).
      split; [by apply list_elem_of_In|done]. }
    rewrite Hrec in Hx. done. }
  apply list_elem_of_lookup in Hl as [i Hi'].
  assert (Hin : i ∈ rec_positions comp (Body r)) by (apply elem_of_rec_positions; exists l; auto).
  rewrite Hw in Hin. by apply not_elem_of_nil in Hin.
Qed.

Lemma eval_pending s :
  comp_inv s ->
  wp bad (_ ← for_each (keyed pend) comp_seed;
      e ← getE;
      let work := comp_work e comp (keyed pend) in
      let recursive := existsb (fun w => negb (bool_decide (snd w = []))) work in
      _ ← for_each work (fire None);
      if negb recursive then completeComponent (keyed pend)
      else
        e ← getE;
        _ ← comp_rounds (S (S (Z.to_nat (MaxRounds (e_opts e))))) 1 (keyed pend) work ∅;
        completeComponent (keyed pend))
    (fun _ s' => eng_ok (fst s') /\ bu_ok (fst s') (snd s') /\ bu_full (snd s') = bu_full (snd s) /\
      (forall rel, rel ∈ bu_complete (snd s') <-> rel ∈ bu_complete (snd s) \/ rel ∈ pend)) s.
Proof.
  intros Hi. apply wp_bind. eapply wp_mono; [|by apply seed_all].
  intros _ s0 (Hi0 & [Hf0 Hc0] & Hseed). apply wp_bind, wp_getE. cbn zeta.
  set (work := comp_work (fst s0) comp (keyed pend)).
  assert (Hwork : work_list comp work) by (apply comp_work_list; apply (ci_eng _ Hi0)).
  apply wp_bind. eapply wp_mono; [|by apply (fire_all comp work s0)].
  intros _ s1 (Hi1 & Hg1 & Hd1).
  pose proof (first_round work s0 s1 Hwork Hi0 Hi1 Hg1 Hseed Hd1) as Hri.
  destruct (existsb _ work) eqn:Hrec; cbn [negb].
  - apply wp_bind, wp_getE. apply wp_bind. rewrite (eo_opts _ _ _ _ _ _ _ (ci_eng _ Hi1)).
    eapply wp_mono; [|apply (comp_rounds_spec work _ 1 ∅ s1 Hwork Hri); [lia|lia|lia]].
    intros _ s2 (Hi2 & [Hf2 Hc2] & Hall).
    eapply wp_mono; [|by apply complete_spec].
    intros _ s3 (He3 & Hb3 & Hf3 & Hc3). split_and!; [done|done| |].
    + rewrite Hf3, Hf2, (cg_full _ _ Hg1). done.
    + intros rel. by rewrite Hc3, Hc2, (cg_complete _ _ Hg1), Hc0.
  - eapply wp_mono; [|apply complete_spec; [done|by eapply nonrecursive]].
    intros _ s3 (He3 & Hb3 & Hf3 & Hc3). split_and!; [done|done| |].
    + rewrite Hf3, (cg_full _ _ Hg1). done.
    + intros rel. by rewrite Hc3, (cg_complete _ _ Hg1), Hc0.
Qed.

End component.

(** ** The tables of a component *)

Section cone.
Context (rules : list Rule) (base0 : gmap string relation) (syms : interner) (opts : Options)
  (st ar : string -> nat) (bad : DlError -> Prop).
Context `{HC : !EvalOk rules base0 syms opts st ar bad}.

Local Notation P := (perfect syms rules (base_of base0) st).
Local Notation heads := (head_rels rules).
Local Notation key := (fkey ar).
Local Notation tab := (tab ar).
Local Notation eng_ok := (eng_ok rules base0 syms opts st ar).
Local Notation bu_ok := (bu_ok rules base0 syms st ar).

Lemma arityOf_spec e rel : eng_ok e -> rel ∈ heads -> arityOf e rel = Ok (Z.of_nat (ar rel)).
Proof.
  intros He Hh. unfold arityOf. rewrite (eo_rules _ _ _ _ _ _ _ He).
  apply elem_of_head_rels in Hh as (r & Hr & Hrel).
  assert (Hin : r ∈ default [] (rules_by_head rules !! rel)) by by apply elem_of_rules_by_head.
  destruct (rules_by_head rules !! rel) as [[|r' rs]|] eqn:E; cbn in Hin;
    [by apply not_elem_of_nil in Hin| |by apply not_elem_of_nil in Hin].
  assert (Hr' : r' ∈ rules /\ Rel (Head r') = rel).
  { apply elem_of_rules_by_head. rewrite E. left. }
  destruct Hr' as [Hr' <-]. unfold arity. by rewrite (po_head_arity _ _ _ _ _ Hprog).
Qed.

(** Creating a table changes no other one. *)
Definition tables_ext (e e' : Engine) : Prop :=
  forall k t, e_tables e !! k = Some t -> e_tables e' !! k = Some t.

Lemma bu_ok_ext e e' b : tables_ext e e' -> bu_ok e b -> bu_ok e' b.
Proof.
  intros Hx [F C Dl]. split; [| |done].
  - intros rel k (Hh & Hk & [t Ht])%F. split_and!; [done|done|]. exists t. by apply Hx.
  - intros rel [Hf Hs]%C. split; [done|]. destruct (e_tables e !! key rel) as [t|] eqn:E; [|done].
    by rewrite (Hx _ _ E).
Qed.

Lemma freeTable_spec {X} e (x : X) rel :
  eng_ok e -> rel ∈ heads ->
  wp bad (freeTable rel (ar rel)) (fun k s' => k = key rel /\ snd s' = x /\ eng_ok (fst s') /\
    tables_ext e (fst s') /\ is_Some (e_tables (fst s') !! key rel)) (e, x).
Proof.
  intros He Hh. unfold wp, freeTable. fold (key rel).
  destruct (e_tables e !! key rel) as [t|] eqn:Ht.
  - split_and!; [done|done|done|by intros k|]. cbn. by rewrite Ht.
  - split_and!; [done|done| | |].
    + apply eng_ok_insert; [done|]. split; cbn; [apply newRelation_wf|done|done| |done].
      intros tup H. by apply not_elem_of_nil in H.
    + intros k t' Hk. cbn. rewrite lookup_insert_ne; [done|]. intros <-. congruence.
    + cbn. by rewrite lookup_insert_eq.
Qed.

(** What the first loop of a component achieves for [rels]. *)
Record tables_post (rels pend : list string) (s s' : Engine * bottomUp) : Prop := {
  tp_sub : pend ⊆ rels;
  tp_nodup : NoDup pend;
  tp_eng : eng_ok (fst s');
  tp_bu : bu_ok (fst s') (snd s');
  tp_ext : tables_ext (fst s) (fst s');
  tp_full : forall rel, rel ∈ rels -> bu_full (snd s') !! rel = Some (key rel);
  tp_open : forall rel, rel ∈ pend ->
    exists t, e_tables (fst s') !! key rel = Some t /\ tstate t <> tableComplete;
  tp_cover : forall rel, rel ∈ rels -> rel ∈ pend \/ rel ∈ bu_complete (snd s');
  tp_keep : forall rel k, bu_full (snd s) !! rel = Some k -> bu_full (snd s') !! rel = Some k;
  tp_done : forall rel, rel ∈ bu_complete (snd s) -> rel ∈ bu_complete (snd s')
}.

Lemma comp_tables_spec rels : forall s,
  NoDup rels -> (forall rel, rel ∈ rels -> rel ∈ heads) -> eng_ok (fst s) -> bu_ok (fst s) (snd s) ->
  wp bad (comp_tables rels) (fun res s' => exists pend, res = keyed ar pend /\
    tables_post rels pend s s') s.
Proof.
  induction rels as [|rel rels IH]; intros s Hnd Hh He Hb; cbn [comp_tables].
  { apply wp_ret. exists []. split; [done|]. split; [done|constructor|done|done|by intros k t| | | |done|done];
      by intros ? ?%not_elem_of_nil. }
  apply NoDup_cons in Hnd as [Hrel Hnd]. destruct s as [e b]. cbn [fst snd] in *.
  assert (Hhr : rel ∈ heads) by (apply Hh; left).
  apply wp_bind, wp_getE. apply wp_bind. cbn [fst]. rewrite (arityOf_spec e rel He Hhr).
  apply wp_lift; [|done]. intros a [= <-]. rewrite Nat2Z.id.
  apply wp_bind. eapply wp_mono; [|by apply (freeTable_spec e b rel)].
  intros k [e1 b1] (-> & Hx & He1 & Hext1 & [t Ht]). cbn [fst snd] in *. subst b1.
  apply wp_bind, wp_modifyX, wp_bind, wp_getE. cbn [fst snd].
  assert (Hb1 : bu_ok e1 (add_full rel (key rel) b)).
  { pose proof (bu_ok_ext _ _ _ Hext1 Hb) as [F C Dl]. split; [| |done]; cbn.
    - intros rel' k. destruct (decide (rel' = rel)) as [->|Hne].
      + rewrite lookup_insert_eq. intros [= <-]. split_and!; [done|done|by rewrite Ht].
      + rewrite lookup_insert_ne by done. apply F.
    - intros rel' Hc. destruct (C rel' Hc) as [Hf Hs]. split; [|done].
      destruct (decide (rel' = rel)) as [->|Hne]; [by rewrite lookup_insert_eq|].
      by rewrite lookup_insert_ne. }
  assert (Hkeep1 : forall rel' k, bu_full b !! rel' = Some k ->
    bu_full (add_full rel (key rel) b) !! rel' = Some k).
  { intros rel' k Hf. cbn. destruct (decide (rel' = rel)) as [->|Hne]; [|by rewrite lookup_insert_ne].
    rewrite lookup_insert_eq. by apply (bo_full _ _ _ _ _ _ _ Hb) in Hf as (_ & -> & _). }
  unfold table_state. rewrite Ht. destruct (decide (tstate t = tableComplete)) as [Hc|Hc].
  - apply wp_bind, wp_modifyX. cbn [fst snd].
    assert (Hb2 : bu_ok e1 (add_complete rel (add_full rel (key rel) b))).
    { destruct Hb1 as [F C Dl]. split; [done| |done]. cbn. intros rel' [->%elem_of_singleton|Hin]%elem_of_union;
        [|by apply C]. split; [by rewrite lookup_insert_eq|]. rewrite Ht. cbn. by rewrite Hc. }
    eapply wp_mono; [|apply (IH (e1, add_complete rel (add_full rel (key rel) b)));
      [done|intros; apply Hh; by right|done|done]].
    intros res s' (pend & -> & [S N E B X F O V K D]). exists pend. split; [done|].
    cbn [fst snd] in *. split; try done.
    + intros x Hx. right. by apply S.
    + intros k t' Hk. by apply X, Hext1.
    + intros rel' [->|Hin]%elem_of_cons; [|by apply F]. apply K. cbn. by rewrite lookup_insert_eq.
    + intros rel' [->|Hin]%elem_of_cons; [|by apply V]. right. apply D. cbn. set_solver.
    + intros rel' k Hf. by apply K, Hkeep1.
    + intros rel' Hin. apply D. cbn. set_solver.
  - apply wp_bind. eapply wp_mono; [|apply (IH (e1, add_full rel (key rel) b));
      [done|intros; apply Hh; by right|done|done]].
    intros res s' (pend & -> & [S N E B X F O V K D]). apply wp_ret. exists (rel :: pend).
    split; [done|]. cbn [fst snd] in *. split; try done.
    + intros x [->|Hx]%elem_of_cons; [left|right; by apply S].
    + apply NoDup_cons. split; [|done]. intros Hx. by apply S in Hx.
    + intros k t' Hk. by apply X, Hext1.
    + intros rel' [->|Hin]%elem_of_cons; [|by apply F]. apply K. cbn. by rewrite lookup_insert_eq.
    + intros rel' [->|Hin]%elem_of_cons; [|by apply O]. exists t. split; [by apply X|done].
    + intros rel' [->|Hin]%elem_of_cons; [left; left|]. destruct (V rel' Hin); [left; by right|by right].
    + intros rel' k Hf. by apply K, Hkeep1.
Qed.

(** ** A whole component *)

Lemma evalComponent_spec comp s :
  NoDup comp -> (forall rel, rel ∈ comp -> rel ∈ heads) ->
  (forall a b, a ∈ comp -> b ∈ comp -> st a = st b) ->
  (forall r l, r ∈ rules -> Rel (Head r) ∈ comp -> l ∈ Body r -> Rel l ∈ heads ->
     Rel l ∈ comp \/ Rel l ∈ bu_complete (snd s)) ->
  eng_ok (fst s) -> bu_ok (fst s) (snd s) ->
  wp bad (evalComponent comp) (fun _ s' => eng_ok (fst s') /\ bu_ok (fst s') (snd s') /\
    (forall rel, rel ∈ bu_complete (snd s) \/ rel ∈ comp -> rel ∈ bu_complete (snd s'))) s.
Proof.
  intros Hnd Hh Hst Hdeps He Hb. unfold evalComponent. apply wp_bind.
  eapply wp_mono; [|by apply comp_tables_spec].
  intros res s1 (pend & -> & [S N E B X F O V K D]).
  destruct (keyed ar pend) as [|rk0 rks] eqn:Hk.
  { apply wp_ret. split_and!; [done|done|]. intros rel [Hc|Hc]; [by apply D|].
    destruct (V rel Hc) as [Hp|?]; [|done]. destruct pend; [by apply not_elem_of_nil in Hp|done]. }
  rewrite <- Hk.
  assert (Hrec : forall r l, r ∈ rules -> Rel (Head r) ∈ pend -> l ∈ Body r -> Rel l ∈ comp ->
    Neg l = false /\ Agg r = None).
  { intros r l Hr Hp Hl Hc. pose proof (po_strat _ _ _ _ _ Hprog r l Hr Hl (Hh _ Hc)) as Hle.
    rewrite (Hst (Rel l) (Rel (Head r)) Hc (S _ Hp)) in Hle.
    destruct (Neg l), (Agg r); cbn in Hle; try (split; done); lia. }
  assert (Hi : comp_inv rules base0 syms opts st ar pend s1).
  { split; try done.
    - intros r l Hr Hp Hl Hhl. destruct (Hdeps r l Hr (S _ Hp) Hl Hhl) as [Hc|Hc].
      + split; [by apply F|]. destruct (V _ Hc) as [Hpl|?]; [right|by left].
        split; [done|]. by apply Hrec.
      + apply D in Hc. split; [by apply (bo_complete _ _ _ _ _ _ _ B)|by left].
    - intros rel Hp. by apply Hh, S.
    - intros rel Hp. destruct (O rel Hp) as (t & -> & _). done.
    - intros rel Hp Hc. destruct (O rel Hp) as (t & Ht & Hn).
      apply (bo_complete _ _ _ _ _ _ _ B) in Hc as [_ Hc]. rewrite Ht in Hc. by injection Hc.
    - intros rel Hp. by apply F, S. }
  eapply wp_mono; [|apply (eval_pending rules base0 syms opts st ar bad pend comp S N Hrec s1 Hi)].
  intros _ s2 (He2 & Hb2 & _ & Hc2). split_and!; [done|done|].
  intros rel [Hc|Hc]; apply Hc2; [left; by apply D|]. destruct (V rel Hc); [by right|by left].
Qed.

(** ** The cone of a goal *)

Lemma derived_heads rel : derived (rules_by_head rules) rel <-> rel ∈ heads.
Proof.
  unfold derived. rewrite elem_of_head_rels. split.
  - intros (r & rs & H). exists r. apply elem_of_rules_by_head. rewrite H. left.
  - intros (r & Hr & Hh).
    assert (Hin : r ∈ default [] (rules_by_head rules !! rel)) by by apply elem_of_rules_by_head.
    destruct (rules_by_head rules !! rel) as [[|r' rs]|]; cbn in Hin;
      [by apply not_elem_of_nil in Hin|by eauto|by apply not_elem_of_nil in Hin].
Qed.

Lemma elem_of_derived_reads rel w :
  w ∈ derived_reads (rules_by_head rules) rel <->
  exists r l, r ∈ rules /\ Rel (Head r) = rel /\ l ∈ Body r /\ Rel l = w /\ w ∈ heads.
Proof.
  unfold derived_reads. rewrite list_elem_of_In, in_concat. split.
  - intros (ds & Hds & Hw). apply in_map_iff in Hds as (r & <- & Hr).
    apply list_elem_of_In, elem_of_rules_by_head in Hr as [Hr Hh].
    apply list_elem_of_In, list_elem_of_omap in Hw as (l & Hl & Hw).
    exists r, l. split_and!; [done|done|done| |];
      (destruct (rules_by_head rules !! Rel l) as [[|r' rs]|] eqn:E; [done| |done]);
      injection Hw as <-; [done|]. apply derived_heads. by exists r', rs.
  - intros (r & l & Hr & Hh & Hl & <- & Hd).
    exists (omap (fun l => match rules_by_head rules !! Rel l with
                           Some (_ :: _) => Some (Rel l) | _ => None end) (Body r)).
    split.
    + apply in_map_iff. exists r. split; [done|]. apply list_elem_of_In. by apply elem_of_rules_by_head.
    + apply list_elem_of_In, list_elem_of_omap. exists l. split; [done|].
      apply derived_heads in Hd as (r' & rs & ->). done.
Qed.

(** Reading never goes up in the stratification. *)
Lemma reads_stratum a b :
  rtc (fun v w => w ∈ derived_reads (rules_by_head rules) v) a b -> st b <= st a.
Proof.
  induction 1 as [|a x b Hax _ IH]; [done|].
  apply elem_of_derived_reads in Hax as (r & l & Hr & <- & Hl & <- & Hh).
  pose proof (po_strat _ _ _ _ _ Hprog r l Hr Hl Hh). lia.
Qed.

Lemma take_upto_snoc {A} (l pre post : list A) x :
  l = pre ++ x :: post -> take (S (length pre)) l = pre ++ [x].
Proof.
  intros ->. rewrite take_app_ge by lia. f_equal.
  by replace (S (length pre) - length pre) with 1 by lia.
Qed.

Lemma eval_cone e goal :
  eng_ok e -> goal ∈ heads ->
  wp bad (for_each (cone (rules_by_head rules) goal) evalComponent) (fun _ s' =>
    eng_ok (fst s') /\ bu_ok (fst s') (snd s') /\ goal ∈ bu_complete (snd s'))
    (e, mkBottomUp ∅ ∅ ∅ None).
Proof.
  intros He Hg. set (comps := cone _ _).
  pose proof (cone_correct (rules_by_head rules) goal ltac:(by apply derived_heads)) as Hcone.
  fold comps in Hcone. destruct Hcone as [Cg Cd Cn Cdep Cscc].
  assert (Hin : forall pre comp post, comps = pre ++ comp :: post ->
    comp ∈ comps /\ comps !! length pre = Some comp).
  { intros pre comp post ->. split; [apply elem_of_app; right; left|by apply list_lookup_middle]. }
  eapply wp_mono; [|apply (wp_for_each bad comps _ (fun done s' => eng_ok (fst s') /\
    bu_ok (fst s') (snd s') /\ forall rel, rel ∈ concat done -> rel ∈ bu_complete (snd s')))].
  - intros [] s' (He' & Hb' & Hd). split_and!; [done|done|]. by apply Hd.
  - split_and!; [done| |intros rel H; by apply not_elem_of_nil in H].
    split; cbn; [intros rel k H; by rewrite lookup_empty in H|set_solver|
                 intros rel d H; by rewrite lookup_empty in H].
  - intros pre comp post s' Hcs (He' & Hb' & Hd).
    destruct (Hin _ _ _ Hcs) as [Hc Hlk].
    assert (Hcomp : forall rel, rel ∈ comp -> rel ∈ heads).
    { intros rel Hr. apply derived_heads, Cd, list_elem_of_In, in_concat. exists comp.
      split; by apply list_elem_of_In. }
    assert (Hnd : NoDup comp).
    { rewrite Hcs, concat_app in Cn. apply NoDup_app in Cn as (_ & _ & Cn). cbn in Cn.
      by apply NoDup_app in Cn as (? & _ & _). }
    eapply wp_mono; [|apply (evalComponent_spec comp s' Hnd Hcomp); [| |done|done]].
    + intros _ s2 (He2 & Hb2 & Hc2). split_and!; [done|done|].
      intros rel. rewrite concat_app, elem_of_app. cbn. rewrite app_nil_r.
      intros [?|?]; apply Hc2; [left; by apply Hd|by right].
    + intros a b Ha Hb. apply Nat.le_antisymm; apply reads_stratum; by eapply Cscc.
    + intros r l Hr Hp Hl Hhl.
      assert (Hr' : Rel l ∈ concat (take (S (length pre)) comps)).
      { eapply Cdep; [exact Hlk|exact Hp|]. apply elem_of_derived_reads. by exists r, l. }
      rewrite (take_upto_snoc _ _ _ _ Hcs), concat_app in Hr'. cbn in Hr'. rewrite app_nil_r in Hr'.
      apply elem_of_app in Hr' as [?|?]; [right; by apply Hd|by left].
Qed.

(** ** solveBottomUp *)

Lemma solveBottomUp_spec {X} e (x : X) goal :
  eng_ok e -> goal ∈ heads ->
  wp bad (solveBottomUp goal) (fun ts s' => snd s' = x /\ eng_ok (fst s') /\
    NoDup ts /\ forall t, t ∈ ts <-> P goal t) (e, x).
Proof.
  intros He Hg. unfold solveBottomUp.
  assert (H : wp bad (e ← getE;
      _ ← for_each (cone (e_rules e) goal) evalComponent;
      e ← getE;
      a ← lift_result (arityOf e goal);
      k ← freeTable goal (Z.to_nat a);
      e ← getE;
      mret (table_tuples e k))
    (fun ts s' => eng_ok (fst s') /\ NoDup ts /\ forall t, t ∈ ts <-> P goal t)
    (e, mkBottomUp ∅ ∅ ∅ None)).
  { apply wp_bind, wp_getE. cbn [fst]. rewrite (eo_rules _ _ _ _ _ _ _ He).
    apply wp_bind. eapply wp_mono; [|by apply eval_cone].
    intros _ [e1 b1] (He1 & Hb1 & Hc1). cbn [fst snd] in *.
    apply wp_bind, wp_getE, wp_bind. cbn [fst]. rewrite (arityOf_spec e1 goal He1 Hg).
    apply wp_lift; [|done]. intros a [= <-]. rewrite Nat2Z.id.
    apply wp_bind. eapply wp_mono; [|by apply (freeTable_spec e1 b1 goal)].
    intros k [e2 b2] (-> & _ & He2 & Hx2 & _). cbn [fst] in *.
    apply wp_bind, wp_getE, wp_ret. cbn [fst]. split; [done|].
    destruct (bo_complete _ _ _ _ _ _ _ Hb1 goal Hc1) as [_ Hs].
    destruct (e_tables e1 !! key goal) as [t|] eqn:Ht; [|done].
    pose proof (Hx2 _ _ Ht) as Ht2. cbn in Hs. injection Hs as Hs.
    destruct (eo_tab _ _ _ _ _ _ _ He2 goal t Hg Ht2) as [W _ _ Sd C].
    unfold table_tuples. rewrite Ht2. split; [apply W|]. intros u. split; [apply Sd|by apply C]. }
  revert H. unfold wp, with_source. generalize (e, mkBottomUp ∅ ∅ ∅ None). intros s0.
  match goal with |- match ?m with _ => _ end -> _ => by destruct m as [[e' b'] [ts|err]] end.
Qed.

End cone.
