(* ===== verification/DlTopDown.v ===== *)
(** Top-down evaluation (internal/datalog/solve.go): the tabled evaluator, its
    fixpoint driver and negation, with the state a round keeps (roundState) as
    the body source's own state. *)
From S2P Require Import Prelude DlIntern DlSyntax DlStrata DlRelation DlEngine DlJoin DlBottomUp.

(** roundState.seen is the state of the body source. *)
Definition roundState : Type := gset sgKey.

Definition TD (A : Type) : Type := EM roundState A.

(** A solver of one subgoal within a round. *)
Definition Solver : Type := string -> binds -> TD (list itup).

Definition anyBound (b : binds) : bool :=
  existsb (fun x => match x with Some _ => true | None => false end) b.

(** relation.match and relation.each read the candidates once, up front. *)
Definition match_base {X} (rel : string) (b : binds) : EM X (list itup) :=
  cs ← select_ref (RBase rel) b; mret (List.filter (fun t => matches t b) cs).

(** The memo table of a subgoal, created if needed. *)
Definition ensure_table {X} (rel : string) (b : binds) : EM X sgKey := fun '(e, x) =>
  let k := subgoalKey rel b in
  match e_tables e !! k with
  | Some _ => ((e, x), Ok k)
  | None =>
      ((set_tables (<[k := mkTable (newRelation rel (Z.of_nat (length b))) tableDirty]>
          (e_tables e)) e, x), Ok k)
  end.

(** The deferred reset of [solve]: a table still producing becomes dirty. *)
Definition undirty (e : Engine) (k : sgKey) : Engine :=
  match e_tables e !! k with
  | Some t =>
      if decide (tstate t = tableProducing)
      then set_tables (<[k := mkTable (trel t) tableDirty]> (e_tables e)) e else e
  | None => e
  end.

Definition deferring {X A} (k : sgKey) (m : EM X A) : EM X A := fun s =>
  match m s with ((e, x), res) => ((undirty e k, x), res) end.

(** Marking every table of a set complete. *)
Definition mark_complete (ks : gset sgKey) (e : Engine) : Engine :=
  set_tables (map_imap (fun k t =>
    Some (if decide (k ∈ ks) then mkTable (trel t) tableComplete else t)) (e_tables e)) e.

(** ** solveComplete *)

(** One round: a fresh roundState, whose keys are returned. *)
Definition round {X} (solve : Solver) (rel : string) (b : binds)
    : EM X (list itup * roundState) := fun '(e, x) =>
  match solve rel b (e, ∅) with
  | ((e', seen), Ok out) => ((e', x), Ok (out, seen))
  | ((e', _), Err err) => ((e', x), Err err)
  end.

Fixpoint complete_rounds {X} (solve : Solver) (topLevel : bool) (n : nat) (rel : string)
    (b : binds) (touched : gset sgKey) : EM X (list itup) :=
  match n with
  | O => throw (ENoFixpoint rel)
  | S n' =>
      e0 ← getE;
      '(out, seen) ← round solve rel b;
      let touched := if topLevel then touched ∪ seen else touched in
      e ← getE;
      if (e_grown e =? e_grown e0)%N then
        _ ← (if topLevel then modifyE (mark_complete touched) else mret tt);
        mret out
      else complete_rounds solve topLevel n' rel b touched
  end.

(** Engine.solveComplete *)
Definition solveComplete {X} (solve : Solver) (rel : string) (b : binds) : EM X (list itup) :=
  fun '(e, x) =>
  let topLevel := e_evalDepth e =? 0 in
  match complete_rounds solve topLevel (Z.to_nat (MaxRounds (e_opts e))) rel b ∅
          (set_depth (S (e_evalDepth e)) e, x) with
  | ((e', x'), res) => ((set_depth (pred (e_evalDepth e')) e', x'), res)
  end.

(** ** solveNegated *)

Definition solveNegated {X} (solve : Solver) (rel : string) (b : binds) : EM X bool :=
  e ← getE;
  if negb (has_rules e rel) then
    if has_base e rel then exists_ref (RBase rel) b else throw (EUnknownRelation rel)
  else
    let free := free_binds (length b) in
    let key := subgoalKey rel free in
    if decide (tstate <$> e_tables e !! key = Some tableComplete) then exists_ref (RTable key) b
    else
      _ ← solveComplete solve rel free;
      e ← getE;
      match e_tables e !! key with
      | Some _ => _ ← set_state key tableComplete; exists_ref (RTable key) b
      | None => exists_ref (RBase rel) b
      end.

(** ** solve *)

(** The body source of the tabled evaluator. *)
Definition topDown (solve : Solver) : bodySource roundState := mkSource _
  (fun _ lp b =>
     if negb (lp_derived lp) then
       if lp_base lp then select_ref (RBase (lp_rel lp)) b else throw (EUnknownRelation (lp_rel lp))
     else solve (lp_rel lp) b)
  (fun lp b => solveNegated solve (lp_rel lp) b).

(** An aggregate relation is derived bottom-up, then filtered. *)
Definition solve_agg {X} (rel : string) (b : binds) : EM X (list itup) :=
  its ← solveBottomUp rel;
  mret (if anyBound b then List.filter (fun t => matches t b) its else its).

(** The body of [solve] for a derived relation, once its table is in
    production; [solve] is the evaluator of the nested subgoals. *)
Definition produce (solve : Solver) (rel : string) (b : binds) (key : sgKey) : TD (list itup) :=
  e ← getE;
  _ ← (if has_base e rel then
         ts ← match_base rel b;
         for_each ts (fun t => record key t None "")
       else mret tt);
  let free := free_binds (length b) in
  if negb (DemandDriven (e_opts e)) && negb (bool_decide (subgoalKey rel free = key)) then
    all ← solve rel free;
    _ ← for_each all (fun t => if matches t b then record key t None "" else mret tt);
    e ← getE;
    mret (table_tuples e key)
  else
    _ ← for_each (default [] (e_rules e !! rel)) (fun r =>
          e ← getE; evalRule (topDown solve) r (planBody e r) b key);
    e ← getE;
    mret (table_tuples e key).

(** Engine.solve; the fuel bounds the depth of nested subgoals, which the code
    bounds by the subgoals in production. *)
Fixpoint solve (fuel : nat) (rel : string) (b : binds) : TD (list itup) :=
  match fuel with
  | O => throw EOutOfFuel
  | S fuel' =>
      e ← getE;
      if decide (rel ∈ e_aggRel e) then solve_agg rel b
      else if negb (has_rules e rel) then
        if has_base e rel then match_base rel b else throw (EUnknownRelation rel)
      else
        key ← ensure_table rel b;
        e ← getE;
        rs ← getX;
        if bool_decide (table_state e key <> tableDirty) || bool_decide (key ∈ rs) then
          mret (table_tuples e key)
        else
          _ ← modifyX (fun rs => {[key]} ∪ rs);
          _ ← set_state key tableProducing;
          deferring key (produce (solve fuel') rel b key)
  end.
