(* ===== verification/DlQuery.v ===== *)
(** The query surface of the engine (internal/datalog/solve.go) and the
    per-batch program (internal/datalog/program.go). *)
From S2P Require Import Prelude DlIntern DlSyntax DlLex DlParse DlSafe DlStrata DlRelation DlEngine.
From S2P Require Import DlJoin DlCone DlBottomUp DlTopDown.

(** Operations of the engine outside any evaluation. *)
Definition QM (A : Type) : Type := EM unit A.

(** ** Readiness and call patterns *)

(** Engine.ready *)
Definition ready (e : Engine) (goal : string) (n : nat) : result DlError unit :=
  if negb (e_loaded e) && bool_decide (e_rules e = ∅) && negb (has_base e goal)
  then Err (ENoRules goal)
  else
    want ← arityOf e goal;
    if (0 <=? want)%Z && negb (Z.of_nat n =? want)%Z then Err (EPatternArity goal want n)
    else Ok tt.

(** bindsOf: an empty string leaves its argument free, another one is
    interned and binds it. *)
Fixpoint bindsOf (pattern : list string) (in_ : interner) : binds * interner :=
  match pattern with
  | [] => ([], in_)
  | s :: p' =>
      if str_eqb s "" then
        let '(bs, in2) := bindsOf p' in_ in (None :: bs, in2)
      else
        let '(v, in1) := interner_id in_ s in
        let '(bs, in2) := bindsOf p' in1 in (Some v :: bs, in2)
  end.

(** Engine.useBottomUp *)
Definition useBottomUp (e : Engine) (goal : string) (b : binds) : bool :=
  e_loaded e && bool_decide (e_strata e <> None) && has_rules e goal && negb (anyBound b).

(** sortTuples *)
Definition sortTuples (ts : list Tuple) : list Tuple := merge_sort tuple_le ts.

(** Interning at the engine's table. *)
Definition with_syms {X A} (f : interner -> A * interner) : EM X A := fun '(e, x) =>
  let '(a, s) := f (e_syms e) in ((set_syms s e, x), Ok a).

(** ** Query *)

(** Engine.QueryPattern *)
Definition QueryPattern (fuel : nat) (goal : string) (pattern : list string) : QM (list Tuple) :=
  e ← getE;
  _ ← lift_result (ready e goal (length pattern));
  b ← with_syms (bindsOf pattern);
  e ← getE;
  out ← (if useBottomUp e goal b then solveBottomUp goal
         else solveComplete (solve fuel) goal b);
  e ← getE;
  mret (sortTuples (map (reveal (e_syms e)) out)).

(** Engine.Query; [make] of a negative length panics. *)
Definition Query (fuel : nat) (goal : string) : QM (list Tuple) :=
  e ← getE;
  a ← lift_result (arityOf e goal);
  if (a <? 0)%Z then throw (EPanic "makeslice: len out of range")
  else QueryPattern fuel goal (replicate (Z.to_nat a) "").

(** ** Provenance *)

Fixpoint join_bytes (sep : list ascii) (ss : list string) : list ascii :=
  match ss with
  | [] => []
  | [s] => str_bytes s
  | s :: ss' => str_bytes s ++ sep ++ join_bytes sep ss'
  end.

(** tupleKey: strings.Join with a zero byte *)
Definition tupleKey (t : Tuple) : list ascii := join_bytes ["000"%char] t.

(** derivKey *)
Definition derivKey (d : Derivation) : string :=
  bytes_str (str_bytes (d_Rule d) ++ ["001"%char] ++ tupleKey (d_Head d) ++
    concat (map (fun s => ["002"%char] ++ str_bytes (step_Relation s) ++ ["003"%char] ++
                          tupleKey (step_Tuple s)) (d_Body d))).

Definition deriv_le (a b : Derivation) : Prop := String.le (derivKey a) (derivKey b).

#[global] Instance deriv_le_dec : RelDecision deriv_le.
Proof. intros a b. unfold deriv_le. apply _. Defined.

(** The derivations recorded for one tuple. *)
Definition derivs_of (e : Engine) (goal : string) (ti : itup) : list Derivation :=
  default [] (e_derivs e !! groupKey goal ti).

(** Running with recording on and restoring the flag whatever happened. *)
Definition recording {X A} (m : EM X A) : EM X A := fun '(e, x) =>
  let prev := e_recordProv e in
  match m (set_recordProv true e, x) with
  | ((e', x'), res) => ((set_recordProv prev e', x'), res)
  end.

(** The re-derivation Provenance asks for: a completed table of the ground
    goal is dirtied when nothing was recorded for its tuple. *)
Definition redirty (goal : string) (b : binds) (ti : itup) (e : Engine) : Engine :=
  let k := subgoalKey goal b in
  match e_tables e !! k with
  | Some t =>
      if bool_decide (tstate t = tableComplete) && bool_decide (derivs_of e goal ti = [])
      then set_tables (<[k := mkTable (trel t) tableDirty]> (e_tables e)) e else e
  | None => e
  end.

(** Engine.Provenance of an aggregate relation. *)
Definition prov_agg (goal : string) (t : Tuple) : QM (list Derivation) :=
  _ ← recording (_ ← modifyE reset; solveBottomUp goal);
  ti ← with_syms (fun s => intern s t);
  e ← getE;
  match derivs_of e goal ti with
  | [] => throw (ENotDerivable goal t)
  | ds => mret (merge_sort deriv_le ds)
  end.

(** Engine.Provenance of any other relation. *)
Definition prov_tuple (fuel : nat) (goal : string) (t : Tuple) : QM (list Derivation) :=
  b ← with_syms (bindsOf t);
  ti ← with_syms (fun s => intern s t);
  recording (
    _ ← modifyE (redirty goal b ti);
    _ ← solveComplete (solve fuel) goal b;
    e ← getE;
    match derivs_of e goal ti with
    | [] =>
        match e_base e !! goal with
        | Some r => if has r ti then mret [] else throw (ENotDerivable goal t)
        | None => throw (ENotDerivable goal t)
        end
    | ds => mret (merge_sort deriv_le ds)
    end).

(** Engine.Provenance *)
Definition Provenance (fuel : nat) (goal : string) (t : Tuple) : QM (list Derivation) :=
  e ← getE;
  _ ← lift_result (ready e goal (length t));
  if decide (goal ∈ e_aggRel e) then prov_agg goal t else prov_tuple fuel goal t.

(** Engine.RuleOf *)
Definition RuleOf (goal : string) (t : Tuple) : QM (option string) :=
  ti ← with_syms (fun s => intern s t);
  e ← getE;
  let gk := groupKey goal ti in
  if decide (gk ∈ e_fastRuleAmbiguous e) then mret None else mret (e_fastRule e !! gk).

(** ** Program *)

Record Program : Type := mkProgram {
  src : list ascii;
  pname : string;
  pbase : list string
}.

(** Program.BaseRelations *)
Definition BaseRelations (p : Program) : list string := pbase p.

(** The body relations that are neither a head nor a builtin. *)
Definition base_names (rules : list Rule) : list string :=
  sort_strings (elements (list_to_set (C := gset string)
    (concat (map (fun r =>
       omap (fun l =>
         if str_eqb (Rel l) "" || bool_decide (Rel l ∈ head_rels rules) || isBuiltin (Rel l)
         then None else Some (Rel l)) (Body r)) rules)))).

Definition Compile (s : list ascii) (name : string) : result DlError Program :=
  rules ← parseRules s name;
  _ ← for_result rules checkSafe;
  _ ← stratify rules;
  Ok (mkProgram s name (base_names rules)).

Record FactRelations : Type := mkFacts {
  rels : gmap string (list Tuple);
  Goals : list string
}.

Definition NewFactRelations (goals : list string) : FactRelations := mkFacts ∅ goals.

(** FactRelations.Declare *)
Definition Declare_ (rel : string) (f : FactRelations) : FactRelations :=
  match rels f !! rel with
  | Some _ => f
  | None => mkFacts (<[rel := []]> (rels f)) (Goals f)
  end.

(** FactRelations.Add *)
Definition Add_ (rel : string) (ts : list Tuple) (f : FactRelations) : FactRelations :=
  mkFacts (<[rel := default [] (rels f !! rel) ++ ts]> (rels f)) (Goals f).

(** The fresh engine Eval loads the facts and the rules into. *)
Definition load_facts (p : Program) (f : FactRelations) : ST Engine DlError unit :=
  _ ← for_each (sort_strings (elements (dom (rels f)))) (fun rel =>
        Assert rel (default [] (rels f !! rel)));
  LoadRules (src p) (pname p).

Fixpoint query_goals (fuel : nat) (gs : list string) (out : gmap string (list Tuple))
    : QM (gmap string (list Tuple)) :=
  match gs with
  | [] => mret out
  | g :: gs' => ts ← Query fuel g; query_goals fuel gs' (<[g := ts]> out)
  end.

(** Program.Eval: the goals' tuples, and the engine a Provenance holds. *)
Definition Eval_ (fuel : nat) (p : Program) (f : FactRelations)
    : result DlError (gmap string (list Tuple) * Engine) :=
  match load_facts p f (New (mkOptions false 0 0 false)) with
  | (_, Err err) => Err err
  | (e, Ok _) =>
      match query_goals fuel (Goals f) ∅ (e, tt) with
      | (_, Err err) => Err err
      | ((e', _), Ok out) => Ok (out, e')
      end
  end.
