(* ===== verification/DlLoadSpec.v ===== *)
(** What loading establishes: the parser numbers variables densely, one slot
    per name, [checkSafe] by names is range restriction by slots, interning
    keeps rules and facts, and an engine that has loaded its facts and rules
    satisfies what evaluation assumes (DlBottomUpSpec). *)
From S2P Require Import Prelude DlIntern DlSyntax DlLex DlParse DlSafe DlStrata DlRelation DlEngine.
From S2P Require Import DlJoin DlSemantics DlJoinSpec DlAggSpec DlCone DlBottomUp DlBottomUpSpec.

(** ** Terms up to their symbols *)

Definition erase_term (t : Term) : Term := mkTerm (IsVar t) (Name t) (Var t) 0.
Definition erase_lit (l : Literal) : Literal := mkLiteral (Rel l) (map erase_term (Args l)) (Neg l).
Definition erase_rule (r : Rule) : Rule :=
  mkRule (erase_lit (Head r)) (map erase_lit (Body r)) (RName r) (File r) (Line r) (NVars r) (Agg r).

Lemma term_vars_erase ts : term_vars (map erase_term ts) = term_vars ts.
Proof.
  unfold term_vars. induction ts as [|t ts IH]; [done|]. cbn. rewrite IH. done.
Qed.

Lemma lit_vars_erase l : lit_vars (erase_lit l) = lit_vars l.
Proof. apply term_vars_erase. Qed.

Lemma bound_by_erase body v : bound_by (map erase_lit body) v <-> bound_by body v.
Proof.
  unfold bound_by. split.
  - intros (l & Hl & Hn & Hb & Hv). apply list_elem_of_fmap in Hl as (l0 & -> & Hl).
    exists l0. by rewrite <- lit_vars_erase.
  - intros (l & Hl & Hn & Hb & Hv). exists (erase_lit l). rewrite lit_vars_erase.
    split_and!; [by apply list_elem_of_fmap_2|done..].
Qed.

Lemma map_split {A B} (f : A -> B) l pre x post :
  map f l = pre ++ x :: post ->
  exists l1 y l2, l = l1 ++ y :: l2 /\ pre = map f l1 /\ x = f y /\ post = map f l2.
Proof.
  intros H. apply map_eq_app in H as (l1 & l2 & -> & <- & H).
  destruct l2 as [|y l2]; [done|]. injection H as <- <-. by exists l1, y, l2.
Qed.

Lemma safe_rule_erase r : safe_rule (erase_rule r) <-> safe_rule r.
Proof.
  assert (Harity : forall l, arity (erase_lit l) = arity l) by (intros l; apply length_map).
  split; intros [H1 H2 H3 H4]; split; cbn [erase_rule Head Body Agg] in *.
  - done.
  - intros pre l post Hb Hbu.
    destruct (H2 (map erase_lit pre) (erase_lit l) (map erase_lit post)) as (Hn & Ha & Hv);
      [by rewrite Hb, map_app|done|].
    split_and!; [done|by rewrite <- (Harity l)|]. intros v. rewrite <- lit_vars_erase, <- bound_by_erase. apply Hv.
  - intros v. rewrite <- term_vars_erase, <- bound_by_erase. intros Hv. apply H3 in Hv as [[Hb Ho]|?]; [left|by right].
    split; [|done]. by destruct (Body r).
  - intros l v Hl Hn. rewrite <- lit_vars_erase, <- bound_by_erase. apply H4; [by apply list_elem_of_fmap_2|done].
  - done.
  - intros pre l post Hb Hbu. apply map_split in Hb as (l1 & y & l2 & Hb & -> & -> & ->).
    destruct (H2 _ _ _ Hb Hbu) as (Hn & Ha & Hv). split_and!; [done|by rewrite Harity|].
    intros v. rewrite lit_vars_erase, bound_by_erase. apply Hv.
  - intros v. change (Args (erase_lit (Head r))) with (map erase_term (Args (Head r))).
    rewrite term_vars_erase, bound_by_erase. intros Hv. apply H3 in Hv as [[Hb Ho]|?]; [left|by right].
    split; [|done]. by destruct (Body r).
  - intros l v Hl Hn. apply list_elem_of_fmap in Hl as (l0 & -> & Hl).
    rewrite lit_vars_erase, bound_by_erase. by apply H4.
Qed.

(** ** Variable slots *)

(** The terms of a rule. *)
Definition all_terms (r : Rule) : list Term := Args (Head r) ++ concat (map Args (Body r)).

Lemma elem_of_all_terms r t :
  t ∈ all_terms r <-> t ∈ Args (Head r) \/ exists l, l ∈ Body r /\ t ∈ Args l.
Proof.
  unfold all_terms. rewrite elem_of_app. apply or_iff_compat_l.
  rewrite list_elem_of_In, in_concat. split.
  - intros (ts & Hts & Ht). apply in_map_iff in Hts as (l & <- & Hl).
    exists l. by rewrite !list_elem_of_In.
  - intros (l & Hl & Ht). exists (Args l). split; [|by apply list_elem_of_In].
    apply in_map_iff. exists l. split; [done|]. by apply list_elem_of_In.
Qed.

(** A dense injective numbering of names. *)
Record ids_ok (ids : gmap string nat) : Prop := {
  io_lt : forall s i, ids !! s = Some i -> i < size ids;
  io_inj : forall s1 s2 i, ids !! s1 = Some i -> ids !! s2 = Some i -> s1 = s2
}.

Definition numbered (ids : gmap string nat) (ts : list Term) : Prop :=
  forall t, t ∈ ts -> IsVar t = true -> ids !! Name t = Some (Var t).

Lemma numbered_mono ids ids' ts : ids ⊆ ids' -> numbered ids ts -> numbered ids' ts.
Proof. intros Hs H t Ht Hv. eapply lookup_weaken; [by apply H|done]. Qed.

(** Renumbering keeps everything but the slots. *)
Definition unslot (t : Term) : Term := mkTerm (IsVar t) (Name t) 0 (Sym t).

Lemma number_spec args : forall ids ids' args',
  ids_ok ids -> number ids args = (ids', args') ->
  ids_ok ids' /\ ids ⊆ ids' /\ numbered ids' args' /\ map unslot args' = map unslot args.
Proof.
  induction args as [|a args IH]; intros ids ids' args' Hok He; cbn [number] in He.
  { injection He as <- <-. split_and!; [done|done|intros t Ht; by apply not_elem_of_nil in Ht|done]. }
  destruct (IsVar a) eqn:Hv; cbn [negb] in He.
  - set (v := match ids !! Name a with Some v => v | None => size ids end) in *.
    set (ids1 := match ids !! Name a with Some _ => ids | None => <[Name a := v]> ids end) in *.
    destruct (number ids1 args) as [ids2 rest] eqn:E. injection He as <- <-.
    assert (H1 : ids_ok ids1 /\ ids ⊆ ids1 /\ ids1 !! Name a = Some v).
    { unfold ids1, v. destruct (ids !! Name a) as [w|] eqn:Ea; [done|].
      split_and!; [|by apply insert_subseteq|by rewrite lookup_insert_eq].
      destruct Hok as [L I]. split.
      - intros s i. rewrite map_size_insert_None by done.
        destruct (decide (s = Name a)) as [->|Hne]; [rewrite lookup_insert_eq; intros [= <-]; lia|].
        rewrite lookup_insert_ne by done. intros Hs. specialize (L s i Hs). lia.
      - intros s1 s2 i. destruct (decide (s1 = Name a)) as [->|H1], (decide (s2 = Name a)) as [->|H2];
          rewrite ?lookup_insert_eq, ?lookup_insert_ne by done; intros Hs1 Hs2; simplify_eq; try done.
        + apply L in Hs2. lia.
        + apply L in Hs1. lia.
        + by eapply I. }
    destruct H1 as (Hok1 & Hs1 & Hl1). destruct (IH _ _ _ Hok1 E) as (Hok2 & Hs2 & Hn2 & Hu2).
    split_and!; [done|by etrans| |].
    + intros t [->|Ht]%elem_of_cons Hvt; [cbn; by eapply lookup_weaken|by apply Hn2].
    + cbn [map]. f_equal; [|done]. unfold unslot. cbn. by rewrite Hv.
  - destruct (number ids args) as [ids2 rest] eqn:E. injection He as <- <-.
    destruct (IH _ _ _ Hok E) as (Hok2 & Hs2 & Hn2 & Hu2). split_and!; [done|done| |cbn; by rewrite Hu2].
    intros t [->|Ht]%elem_of_cons Hvt; [congruence|by apply Hn2].
Qed.

Definition unslot_lit (l : Literal) : Literal := mkLiteral (Rel l) (map unslot (Args l)) (Neg l).

Lemma number_lits_spec ls : forall ids ids' ls',
  ids_ok ids -> number_lits ids ls = (ids', ls') ->
  ids_ok ids' /\ ids ⊆ ids' /\ (forall l, l ∈ ls' -> numbered ids' (Args l)) /\
  map unslot_lit ls' = map unslot_lit ls.
Proof.
  induction ls as [|l ls IH]; intros ids ids' ls' Hok He; cbn [number_lits] in He.
  { injection He as <- <-. split_and!; [done|done|intros l Hl; by apply not_elem_of_nil in Hl|done]. }
  unfold number_lit in He. destruct (number ids (Args l)) as [ids1 args] eqn:E1.
  destruct (number_lits ids1 ls) as [ids2 rest] eqn:E2. injection He as <- <-.
  destruct (number_spec _ _ _ _ Hok E1) as (Hok1 & Hs1 & Hn1 & Hu1).
  destruct (IH _ _ _ Hok1 E2) as (Hok2 & Hs2 & Hn2 & Hu2).
  split_and!; [done|by etrans| |].
  - intros l' [->|Hl']%elem_of_cons; [cbn; by eapply numbered_mono|by apply Hn2].
  - cbn [map]. f_equal; [|done]. unfold unslot_lit. cbn. by rewrite Hu1.
Qed.

Definition unslot_rule (r : Rule) : Rule :=
  mkRule (unslot_lit (Head r)) (map unslot_lit (Body r)) (RName r) (File r) (Line r) 0 (Agg r).

(** assignVars: the slots are dense, one per name, and nothing else changes. *)
Lemma assignVars_spec r :
  exists ids, ids_ok ids /\ size ids = NVars (assignVars r) /\
    numbered ids (all_terms (assignVars r)) /\ unslot_rule (assignVars r) = unslot_rule r.
Proof.
  unfold assignVars, number_lit. destruct (number ∅ (Args (Head r))) as [ids1 hargs] eqn:E1.
  destruct (number_lits ids1 (Body r)) as [ids2 body] eqn:E2.
  assert (Hok0 : ids_ok ∅) by (split; intros; by simplify_map_eq).
  destruct (number_spec _ _ _ _ Hok0 E1) as (Hok1 & Hs1 & Hn1 & Hu1).
  destruct (number_lits_spec _ _ _ _ Hok1 E2) as (Hok2 & Hs2 & Hn2 & Hu2).
  exists ids2. split_and!; [done|done| |].
  - intros t [Ht|(l & Hl & Ht)]%elem_of_all_terms; cbn in *; [by apply (numbered_mono ids1 ids2 hargs)|by apply (Hn2 l)].
  - unfold unslot_rule. cbn [Head Body RName File Line Agg]. f_equal; [|exact Hu2].
    unfold unslot_lit. cbn. by rewrite Hu1.
Qed.

(** ** What the parser hands on *)

(** The aggregate of a rule, by names: its output is in the head, its input is
    not, and a positive literal binds it. *)
Definition agg_names (r : Rule) : Prop :=
  forall a, Agg r = Some a ->
    isAggName (Fn a) = true /\ OutVar a ∈ term_vars (Args (Head r)) /\
    InVar a ∉ term_vars (Args (Head r)) /\
    exists l, l ∈ Body r /\ Neg l = false /\ InVar a ∈ lit_vars l.

(** A rule as the parser returns it: slots number the names, and the
    aggregate's slots are those of its variables. *)
Record parsed_ok (r : Rule) : Prop := {
  pk_ids : exists ids, ids_ok ids /\ size ids = NVars r /\ numbered ids (all_terms r) /\
    forall a, Agg r = Some a -> ids !! OutVar a = Some (outSlot a) /\ ids !! InVar a = Some (inSlot a);
  pk_agg : agg_names r
}.

Lemma existsb_var_named v ts : existsb (is_var_named v) ts = true <-> v ∈ term_vars ts.
Proof.
  rewrite existsb_exists, elem_of_term_vars. unfold is_var_named. split.
  - intros (a & Ha & Hv). apply andb_true_iff in Hv as [Hv Hn%Stdlib.Strings.String.eqb_eq].
    exists a. by rewrite list_elem_of_In.
  - intros (a & Ha & Hv & Hn). exists a. rewrite <- list_elem_of_In. split; [done|].
    rewrite Hv, Hn. apply Stdlib.Strings.String.eqb_refl.
Qed.

Lemma extract_loop_spec ln body : forall agg kept agg',
  extract_loop ln body agg = Ok (kept, agg') ->
  agg' = agg \/ (agg = None /\ exists fn o i, agg' = Some (mkAggSpec fn o i 0 0) /\ isAggName fn = true).
Proof.
  induction body as [|l body IH]; intros agg kept agg' H; cbn [extract_loop] in H.
  { injection H as <- <-. by left. }
  destruct (isAggName (Rel l)) eqn:Hag; cbn [negb] in H.
  - destruct (Neg l); [done|]. destruct (Args l) as [|o [|i [|? ?]]]; try done.
    destruct (negb (IsVar o) || negb (IsVar i)); [done|]. destruct agg as [a|]; [done|].
    apply IH in H as [->|[? _]]; [|done]. right. split; [done|].
    by eexists _, _, _.
  - apply result_bind_ok in H as ([kept0 a0] & H & Hk). injection Hk as <- <-. by eapply IH.
Qed.

Lemma extractAgg_spec r r' : Agg r = None -> extractAgg r = Ok r' ->
  agg_names r' /\ forall a, Agg r' = Some a -> outSlot a = 0 /\ inSlot a = 0.
Proof.
  intros Hn H. unfold extractAgg in H. rewrite Hn in H.
  apply result_bind_ok in H as ([kept agg] & Hl & H).
  apply extract_loop_spec in Hl as [->|(_ & fn & o & i & -> & Hfn)].
  - injection H as <-. split; [intros a; done|intros a; done].
  - apply result_bind_ok in H as (u1 & H1%ensure_ok & H).
    apply result_bind_ok in H as (u2 & H2%ensure_ok & H).
    apply result_bind_ok in H as (u3 & H3%ensure_ok & H). injection H as <-.
    apply existsb_var_named in H1. apply negb_true_iff in H2. apply existsb_exists in H3 as (l & Hin & Hl).
    apply andb_true_iff in Hl as [Hln Hl%existsb_var_named].
    split; intros a [= <-]; cbn in *; [|done]. split_and!; [done|done| |].
    + intros Hi. apply existsb_var_named in Hi. congruence.
    + exists l. rewrite list_elem_of_In. split_and!; [done|by destruct (Neg l)|done].
Qed.

Lemma last_slot_spec ids v ts d : ids_ok ids -> numbered ids ts ->
  v ∈ term_vars ts -> ids !! v = Some (last_slot v ts d).
Proof.
  intros _ Hnum. unfold last_slot. revert d. induction ts as [|t ts IH] using rev_ind; intros d Hv.
  { by apply not_elem_of_nil in Hv. }
  rewrite fold_left_app. cbn. unfold is_var_named at 1.
  destruct (IsVar t && str_eqb (Name t) v) eqn:Ht.
  - apply andb_true_iff in Ht as [Ht <-%Stdlib.Strings.String.eqb_eq].
    apply Hnum; [apply elem_of_app; right; left|done].
  - apply IH; [intros u Hu; apply Hnum; apply elem_of_app; by left|].
    apply elem_of_term_vars in Hv as (a & [Ha|Ha]%elem_of_app & Hva & Hna); [apply elem_of_term_vars; eauto|].
    apply list_elem_of_singleton in Ha as ->. rewrite Hva, Hna in Ht. cbn in Ht.
    by rewrite Stdlib.Strings.String.eqb_refl in Ht.
Qed.

Lemma term_vars_unslot ts : term_vars (map unslot ts) = term_vars ts.
Proof. unfold term_vars. induction ts as [|t ts IH]; [done|]. cbn. by rewrite IH. Qed.

Lemma agg_names_unslot r r' : unslot_rule r' = unslot_rule r -> agg_names r -> agg_names r'.
Proof.
  intros He H a Ha. injection He as _ Hh _ Hb _ _ _ Hagg. rewrite Ha in Hagg.
  destruct (H a (eq_sym Hagg)) as (Hf & Ho & Hi & l & Hl & Hn & Hv).
  assert (Hhv : term_vars (Args (Head r')) = term_vars (Args (Head r))).
  { rewrite <- (term_vars_unslot (Args (Head r'))), <- (term_vars_unslot (Args (Head r))). congruence. }
  rewrite Hhv. split_and!; [done|done|done|].
  assert (Hul : unslot_lit l ∈ map unslot_lit (Body r')) by (rewrite Hb; by apply list_elem_of_fmap_2).
  apply list_elem_of_fmap in Hul as (l' & Hll & Hl'). exists l'. injection Hll as _ Hargs Hneg.
  split_and!; [done|congruence|]. unfold lit_vars in *.
  by rewrite <- (term_vars_unslot (Args l')), <- Hargs, term_vars_unslot.
Qed.

Lemma elem_of_lit_vars_concat v body l : l ∈ body -> v ∈ lit_vars l -> v ∈ term_vars (concat (map Args body)).
Proof.
  intros Hl (a & Ha & Hva & Hna)%elem_of_term_vars. apply elem_of_term_vars. exists a.
  split_and!; [|done|done]. apply list_elem_of_In, in_concat. exists (Args l).
  split; [apply in_map_iff; exists l; by rewrite <- list_elem_of_In|by apply list_elem_of_In].
Qed.

Lemma finish_rule_ok r r' : Agg r = None -> finish_rule r = Ok r' -> parsed_ok r'.
Proof.
  intros Hn H. unfold finish_rule in H. apply result_bind_ok in H as (r1 & H1 & [= <-]).
  destruct (extractAgg_spec r r1 Hn H1) as [Hnames Hslots].
  destruct (assignVars_spec r1) as (ids & Hok & Hsz & Hnum & Hun).
  pose proof (agg_names_unslot _ _ Hun Hnames) as Hnames2. set (r2 := assignVars r1) in *.
  unfold resolveAggSlots. destruct (Agg r2) as [a|] eqn:Ha.
  - destruct (Hnames2 a Ha) as (Hf & Ho & Hi & l & Hl & Hln & Hlv). split.
    + exists ids. split_and!; [done|done|done|]. intros a' [= <-]. cbn. split.
      * apply last_slot_spec; [done| |done]. intros t Ht. apply Hnum. apply elem_of_app. by left.
      * apply last_slot_spec; [done| |by eapply elem_of_lit_vars_concat].
        intros t Ht. apply Hnum. apply elem_of_app. by right.
    + intros a' [= <-]. cbn. by split_and!; eauto.
  - split; [exists ids; split_and!; [done|done|done|by rewrite Ha]|]. intros a. by rewrite Ha.
Qed.

(** ** Parsing yields parsed rules *)

Definition any_error (e : DlError) : Prop := True.

Lemma wp_any {S E A} (m : ST S E A) (Q : A -> S -> Prop) s :
  (forall a s', m s = (s', Ok a) -> Q a s') -> wp (fun _ => True) m Q s.
Proof. unfold wp. destruct (m s) as [s' [a|e]]; auto. Qed.

Lemma parse_rule_agg fuel base file p p' r :
  parse_rule fuel base file p = (p', Ok r) -> Agg r = None.
Proof.
  unfold parse_rule. intros H.
  apply ST_bind_ok in H as (p1 & u & _ & H). apply ST_bind_ok in H as (p2 & t0 & _ & H).
  apply ST_bind_ok in H as (p3 & head & _ & H). apply ST_bind_ok in H as (p4 & t & _ & H).
  destruct (is_tok TPunct "." t); [|destruct (is_tok TPunct ":-" t)].
  - apply ST_bind_ok in H as (p5 & u' & _ & H). by injection H as _ <-.
  - apply ST_bind_ok in H as (p5 & u' & _ & H). apply ST_bind_ok in H as (p6 & body & _ & H).
    by injection H as _ <-.
  - done.
Qed.

Lemma parse_rules_loop_ok fuel base file : forall p p' rs,
  parse_rules_loop fuel base file p = (p', Ok rs) -> Forall parsed_ok rs.
Proof.
  induction fuel as [|fuel IH]; intros p p' rs H; [done|]. cbn [parse_rules_loop] in H.
  apply ST_bind_ok in H as (p1 & q & Hq & H). destruct (toks q).
  { injection H as _ <-. constructor. }
  apply ST_bind_ok in H as (p2 & r & Hr & H). apply ST_bind_ok in H as (p3 & r' & Hr' & H).
  apply ST_bind_ok in H as (p4 & rest & Hrest & H). injection H as _ <-.
  constructor; [|by eapply IH]. injection Hr' as _ Hr'. eapply finish_rule_ok; [|exact Hr'].
  by eapply parse_rule_agg.
Qed.

Lemma parseRules_ok src file rs : parseRules src file = Ok rs -> Forall parsed_ok rs.
Proof.
  unfold parseRules. intros (ts & _ & H)%result_bind_ok.
  destruct (parse_rules_loop _ _ _ _) as [p' res] eqn:E. cbn in H. subst res.
  by eapply parse_rules_loop_ok.
Qed.

(** ** From names to slots *)

(** The aggregate's output occurs once in the head. *)
Definition agg_once (r : Rule) : Prop :=
  forall a p q t u, Agg r = Some a -> Args (Head r) !! p = Some t -> Args (Head r) !! q = Some u ->
    is_var_named (OutVar a) t = true -> is_var_named (OutVar a) u = true -> p = q.

(** The two conditions evaluation needs beyond what [checkSafe] enforces. *)
Definition well_ordered (r : Rule) : Prop := neg_ordered (Body r) /\ agg_once r.

Lemma is_var_named_iff v t : is_var_named v t = true <-> IsVar t = true /\ Name t = v.
Proof.
  unfold is_var_named. rewrite andb_true_iff. by rewrite Stdlib.Strings.String.eqb_eq.
Qed.

Section slots.
Context (r : Rule).
Hypothesis Hparsed : parsed_ok r.
Hypothesis Hsafe : safe_rule r.
Hypothesis Hvars : NVars r <= 64.
Hypothesis Hord : well_ordered r.

Lemma name_slot t u : t ∈ all_terms r -> u ∈ all_terms r -> IsVar t = true -> IsVar u = true ->
  Name t = Name u <-> Var t = Var u.
Proof.
  intros Ht Hu Hvt Hvu. destruct (pk_ids _ Hparsed) as (ids & Hok & _ & Hnum & _).
  pose proof (Hnum t Ht Hvt) as H1. pose proof (Hnum u Hu Hvu) as H2. split.
  - intros E. rewrite E in H1. congruence.
  - intros E. rewrite E in H1. by eapply (io_inj _ Hok).
Qed.

Lemma slot_lt t : t ∈ all_terms r -> IsVar t = true -> Var t < NVars r.
Proof.
  intros Ht Hv. destruct (pk_ids _ Hparsed) as (ids & Hok & <- & Hnum & _).
  eapply (io_lt _ Hok). by apply Hnum.
Qed.

Lemma head_term t : t ∈ Args (Head r) -> t ∈ all_terms r.
Proof. intros H. apply elem_of_all_terms. by left. Qed.

Lemma body_term l t : l ∈ Body r -> t ∈ Args l -> t ∈ all_terms r.
Proof. intros Hl H. apply elem_of_all_terms. right. by exists l. Qed.

Lemma bound_by_slot pre t : (forall l, l ∈ pre -> l ∈ Body r) -> t ∈ all_terms r -> IsVar t = true ->
  bound_by pre (Name t) -> slot_bound pre (Var t).
Proof.
  intros Hsub Ht Hv (l & Hl & Hn & Hb & (u & Hu & Hvu & Hnu)%elem_of_term_vars).
  exists l, u. split_and!; try done. apply name_slot; try done. by eapply body_term; [apply Hsub|].
Qed.

Lemma lit_var_in l t : t ∈ Args l -> IsVar t = true -> Name t ∈ lit_vars l.
Proof. intros Ht Hv. apply elem_of_term_vars. eauto. Qed.

Lemma ordered_of_safe : ordered_rule r.
Proof.
  assert (Hpre : forall (pre : list Literal) l post, Body r = pre ++ l :: post ->
    (forall l', l' ∈ pre -> l' ∈ Body r) /\ l ∈ Body r).
  { intros pre l post ->. split; intros; apply elem_of_app; [by left|right; left]. }
  split.
  - done.
  - intros t Ht Hv. by apply slot_lt; [apply head_term|].
  - intros l Hl t Ht Hv. apply slot_lt; [by eapply body_term|done].
  - intros pre l post Hb Hbu. destruct (Hpre _ _ _ Hb) as [Hp Hl].
    destruct (safe_builtin _ Hsafe pre l post Hb Hbu) as (_ & Har & Hbound). split.
    + unfold arity in Har. unfold builtinArity in Har. apply elem_of_list_to_map_2 in Har.
      rewrite !elem_of_cons, elem_of_nil in Har. naive_solver.
    + intros t Ht Hv. apply bound_by_slot; [done|by eapply body_term|done|].
      by apply Hbound, lit_var_in.
  - intros pre l post Hb Hbu Hn t Ht Hv. destruct (Hpre _ _ _ Hb) as [Hp Hl].
    apply bound_by_slot; [done|by eapply body_term|done|].
    by eapply (proj1 Hord); [exact Hb| |by apply lit_var_in].
Qed.

Lemma head_bound t : t ∈ Args (Head r) -> IsVar t = true -> is_out_var (Agg r) (Name t) = false ->
  slot_bound (Body r) (Var t).
Proof.
  intros Ht Hv Ho. apply bound_by_slot; [done|by apply head_term|done|].
  destruct (safe_head _ Hsafe (Name t)) as [[_ ?]|[? _]];
    [apply elem_of_term_vars; eauto|congruence|done].
Qed.

Lemma agg_of_safe a : Agg r = Some a -> agg_ok r a.
Proof.
  intros Ha. destruct (pk_ids _ Hparsed) as (ids & Hok & _ & Hnum & Hslots).
  destruct (Hslots a Ha) as [Hout Hin].
  destruct (pk_agg _ Hparsed a Ha) as (Hfn & Ho & Hi & l & Hl & Hln & Hlv).
  assert (Hisout : forall t, t ∈ Args (Head r) -> is_out (outSlot a) t = is_var_named (OutVar a) t).
  { intros t Ht. unfold is_out, is_var_named. destruct (IsVar t) eqn:Hv; [|done]. cbn.
    pose proof (Hnum t (head_term t Ht) Hv) as Hnt.
    destruct (Nat.eqb_spec (Var t) (outSlot a)), (Stdlib.Strings.String.eqb_spec (Name t) (OutVar a));
      try done; exfalso; [|congruence].
    apply n. eapply (io_inj _ Hok); [exact Hnt|]. congruence. }
  split_and!; [done| | |].
  - apply elem_of_term_vars in Hlv as (t & Ht & Hvt & Hnt).
    pose proof (Hnum t (body_term l t Hl Ht) Hvt) as Htt. rewrite Hnt, Hin in Htt.
    injection Htt as ->. apply bound_by_slot; [done|by eapply body_term|done|]. rewrite Hnt.
    destruct (isBuiltin (Rel l)) eqn:Hb; [|exists l; split_and!; [done..|]; rewrite <- Hnt; by apply lit_var_in].
    apply list_elem_of_split in Hl as (pre & post & Hsplit).
    destruct (safe_builtin _ Hsafe pre l post Hsplit Hb) as (_ & _ & Hbound).
    rewrite Hsplit. apply bound_by_app. left. apply Hbound. rewrite <- Hnt. by apply lit_var_in.
  - intros t Ht Hv Hne. apply head_bound; [done|done|]. rewrite Ha. cbn.
    specialize (Hisout t Ht). unfold is_out, is_var_named in Hisout. rewrite Hv in Hisout. cbn in Hisout.
    rewrite <- Hisout. by apply Nat.eqb_neq.
  - apply elem_of_term_vars in Ho as (t & Ht & Hv & Hn).
    apply list_elem_of_lookup in Ht as [p Hp]. exists p, t.
    assert (Hout_t : forall q u, Args (Head r) !! q = Some u ->
      is_out (outSlot a) u = is_var_named (OutVar a) u).
    { intros q u Hq. apply Hisout. by eapply list_elem_of_lookup_2. }
    split_and!; [done|rewrite (Hout_t p t Hp); by apply is_var_named_iff|].
    intros q u Hq Hu. rewrite (Hout_t q u Hq) in Hu.
    eapply (proj2 Hord a q p u t Ha); try done. by apply is_var_named_iff.
Qed.

End slots.

(** ** Interning the rules *)

Definition consts_valid (syms : interner) (ts : list Term) : Prop :=
  forall t, t ∈ ts -> IsVar t = false -> sym_valid syms (Sym t).

Lemma consts_valid_le a b ts : intern_le a b -> consts_valid a ts -> consts_valid b ts.
Proof. intros Hle H t Ht Hv. eapply sym_valid_le; [exact Hle|by apply H]. Qed.

Lemma intern_args_grows args : forall s s' args', intern_args s args = (s', args') -> intern_le s s'.
Proof.
  induction args as [|a args IH]; intros s s' args' H; cbn [intern_args] in H;
    [injection H as <- <-; apply intern_le_refl|].
  destruct (IsVar a).
  - destruct (intern_args s args) as [s1 rest] eqn:E. injection H as <- <-. by eapply IH.
  - destruct (interner_id s (Name a)) as [v s1] eqn:E1, (intern_args s1 args) as [s2 rest] eqn:E2.
    injection H as <- <-. eapply intern_le_trans; [by eapply interner_id_grows|by eapply IH].
Qed.

Lemma intern_args_spec args : forall s s' args',
  intern_wf s -> intern_fits s' -> intern_args s args = (s', args') ->
  intern_wf s' /\ map erase_term args' = map erase_term args /\ consts_valid s' args'.
Proof.
  induction args as [|a args IH]; intros s s' args' Hw Hf H; cbn [intern_args] in H.
  { injection H as <- <-. split_and!; [done|done|intros t Ht; by apply not_elem_of_nil in Ht]. }
  destruct (IsVar a) eqn:Hv.
  - destruct (intern_args s args) as [s1 rest] eqn:E. injection H as <- <-.
    destruct (IH _ _ _ Hw Hf E) as (Hw1 & He & Hc). split_and!; [done|cbn; by rewrite He|].
    intros t [->|Ht]%elem_of_cons Hvt; [congruence|by apply Hc].
  - destruct (interner_id s (Name a)) as [v s1] eqn:E1, (intern_args s1 args) as [s2 rest] eqn:E2.
    injection H as <- <-. pose proof (intern_args_grows _ _ _ _ E2) as Hle.
    destruct (interner_id_spec s (Name a) v s1 Hw) as (Hw1 & _ & Hval & _);
      [by eapply intern_fits_le|done|].
    destruct (IH _ _ _ Hw1 Hf E2) as (Hw2 & He & Hc). split_and!; [done| |].
    + cbn [map]. rewrite He. f_equal. unfold erase_term. cbn. by rewrite Hv.
    + intros t [->|Ht]%elem_of_cons Hvt; [cbn; by eapply sym_valid_le|by apply Hc].
Qed.

Lemma intern_lits_grows ls : forall s s' ls', intern_lits s ls = (s', ls') -> intern_le s s'.
Proof.
  induction ls as [|l ls IH]; intros s s' ls' H; cbn [intern_lits] in H;
    [injection H as <- <-; apply intern_le_refl|].
  unfold internLit in H. destruct (intern_args s (Args l)) as [s1 args] eqn:E1.
  destruct (intern_lits s1 ls) as [s2 rest] eqn:E2. injection H as <- <-.
  eapply intern_le_trans; [by eapply intern_args_grows|by eapply IH].
Qed.

Lemma intern_lits_spec ls : forall s s' ls',
  intern_wf s -> intern_fits s' -> intern_lits s ls = (s', ls') ->
  intern_wf s' /\ map erase_lit ls' = map erase_lit ls /\ forall l, l ∈ ls' -> consts_valid s' (Args l).
Proof.
  induction ls as [|l ls IH]; intros s s' ls' Hw Hf H; cbn [intern_lits] in H.
  { injection H as <- <-. split_and!; [done|done|intros l Hl; by apply not_elem_of_nil in Hl]. }
  unfold internLit in H. destruct (intern_args s (Args l)) as [s1 args] eqn:E1.
  destruct (intern_lits s1 ls) as [s2 rest] eqn:E2. injection H as <- <-.
  pose proof (intern_lits_grows _ _ _ _ E2) as Hle.
  destruct (intern_args_spec _ _ _ _ Hw (intern_fits_le _ _ Hle Hf) E1) as (Hw1 & He1 & Hc1).
  destruct (IH _ _ _ Hw1 Hf E2) as (Hw2 & He2 & Hc2). split_and!; [done| |].
  - cbn [map]. rewrite He2. f_equal. unfold erase_lit. cbn. by rewrite He1.
  - intros l' [->|Hl']%elem_of_cons; [cbn; by eapply consts_valid_le|by apply Hc2].
Qed.

Lemma intern_rule_grows s r s' r' : intern_rule s r = (s', r') -> intern_le s s'.
Proof.
  unfold intern_rule, internLit. destruct (intern_args s (Args (Head r))) as [s1 h] eqn:E1.
  destruct (intern_lits s1 (Body r)) as [s2 b] eqn:E2. intros [= <- <-].
  eapply intern_le_trans; [by eapply intern_args_grows|by eapply intern_lits_grows].
Qed.

Lemma intern_rule_spec s r s' r' :
  intern_wf s -> intern_fits s' -> intern_rule s r = (s', r') ->
  intern_wf s' /\ erase_rule r' = erase_rule r /\ consts_valid s' (all_terms r').
Proof.
  intros Hw Hf. unfold intern_rule, internLit.
  destruct (intern_args s (Args (Head r))) as [s1 h] eqn:E1.
  destruct (intern_lits s1 (Body r)) as [s2 b] eqn:E2. intros [= <- <-].
  pose proof (intern_lits_grows _ _ _ _ E2) as Hle.
  destruct (intern_args_spec _ _ _ _ Hw (intern_fits_le _ _ Hle Hf) E1) as (Hw1 & He1 & Hc1).
  destruct (intern_lits_spec _ _ _ _ Hw1 Hf E2) as (Hw2 & He2 & Hc2).
  split_and!; [done| |].
  - unfold erase_rule. cbn [Head Body RName File Line NVars Agg]. rewrite He2. f_equal.
    unfold erase_lit. cbn. by rewrite He1.
  - intros t [Ht|(l & Hl & Ht)]%elem_of_all_terms Hv; cbn in *.
    + eapply sym_valid_le; [exact Hle|by apply Hc1].
    + by apply (Hc2 l).
Qed.

Lemma intern_rules_grows rs : forall s s' rs', intern_rules s rs = (s', rs') -> intern_le s s'.
Proof.
  induction rs as [|r rs IH]; intros s s' rs' H; cbn [intern_rules] in H;
    [injection H as <- <-; apply intern_le_refl|].
  destruct (intern_rule s r) as [s1 r1] eqn:E1, (intern_rules s1 rs) as [s2 rest] eqn:E2.
  injection H as <- <-. eapply intern_le_trans; [by eapply intern_rule_grows|by eapply IH].
Qed.

Lemma intern_rules_spec rs : forall s s' rs',
  intern_wf s -> intern_fits s' -> intern_rules s rs = (s', rs') ->
  intern_wf s' /\ map erase_rule rs' = map erase_rule rs /\
  forall r, r ∈ rs' -> consts_valid s' (all_terms r).
Proof.
  induction rs as [|r rs IH]; intros s s' rs' Hw Hf H; cbn [intern_rules] in H.
  { injection H as <- <-. split_and!; [done|done|intros r Hr; by apply not_elem_of_nil in Hr]. }
  destruct (intern_rule s r) as [s1 r1] eqn:E1, (intern_rules s1 rs) as [s2 rest] eqn:E2.
  injection H as <- <-. pose proof (intern_rules_grows _ _ _ _ E2) as Hle.
  destruct (intern_rule_spec _ _ _ _ Hw (intern_fits_le _ _ Hle Hf) E1) as (Hw1 & He1 & Hc1).
  destruct (IH _ _ _ Hw1 Hf E2) as (Hw2 & He2 & Hc2). split_and!; [done|cbn; by rewrite He1, He2|].
  intros r' [->|Hr']%elem_of_cons; [by eapply consts_valid_le|by apply Hc2].
Qed.

(** A rule over the symbols of a table: every constant is the symbol the table
    gives its text, and nothing else changes. *)
Definition lower_term (syms : interner) (t : Term) : Term :=
  if IsVar t then t else mkTerm (IsVar t) (Name t) (Var t) (fst (interner_id syms (Name t))).
Definition lower_lit (syms : interner) (l : Literal) : Literal :=
  mkLiteral (Rel l) (map (lower_term syms) (Args l)) (Neg l).
Definition lower_rule (syms : interner) (r : Rule) : Rule :=
  mkRule (lower_lit syms (Head r)) (map (lower_lit syms) (Body r)) (RName r) (File r) (Line r) (NVars r) (Agg r).

(** A string keeps its symbol as the table grows. *)
Lemma interner_id_later s a v s1 s' : intern_wf s -> intern_fits s1 -> interner_id s a = (v, s1) ->
  intern_le s1 s' -> intern_wf s' -> fst (interner_id s' a) = v.
Proof.
  intros Hw Hf H [l Hl] Hw'. pose proof (interner_id_spec s a v s1 Hw Hf H) as (Hw1 & _).
  unfold interner_id in *. destruct (parseIntSym a) as [n|] eqn:Hp; [by injection H as <- _|].
  assert (Hv : ids s1 !! a = Some v).
  { destruct (ids s !! a) as [w|] eqn:E; injection H as <- <-; [done|]. cbn. by rewrite lookup_insert_eq. }
  apply (iw_ids _ Hw1) in Hv. apply (lookup_app_l_Some _ l) in Hv. rewrite <- Hl in Hv.
  destruct (iw_strs _ Hw' _ _ Hv) as [-> _]. cbn. by rewrite N2Nat.id.
Qed.

Lemma intern_args_lower args : forall s s' args' s2,
  intern_wf s -> intern_fits s' -> intern_args s args = (s', args') -> intern_le s' s2 -> intern_wf s2 ->
  args' = map (lower_term s2) args.
Proof.
  induction args as [|a args IH]; intros s s' args' s2 Hw Hf H Hle Hw2; cbn [intern_args] in H;
    [by injection H as <- <-|]. cbn [map]. unfold lower_term at 1. destruct (IsVar a) eqn:Ha.
  - destruct (intern_args s args) as [s1 rest] eqn:E. injection H as <- <-. f_equal. exact (IH s s1 rest s2 Hw Hf E Hle Hw2).
  - destruct (interner_id s (Name a)) as [v s1] eqn:E1, (intern_args s1 args) as [s3 rest] eqn:E2.
    injection H as <- <-. pose proof (intern_args_grows _ _ _ _ E2) as Hle1.
    pose proof (intern_fits_le _ _ Hle1 Hf) as Hf1.
    destruct (interner_id_spec _ _ _ _ Hw Hf1 E1) as (Hw1 & _). f_equal; [|exact (IH s1 s3 rest s2 Hw1 Hf E2 Hle Hw2)].
    by rewrite (interner_id_later _ _ _ _ _ Hw Hf1 E1 (intern_le_trans _ _ _ Hle1 Hle) Hw2).
Qed.

Lemma intern_lits_lower ls : forall s s' ls' s2,
  intern_wf s -> intern_fits s' -> intern_lits s ls = (s', ls') -> intern_le s' s2 -> intern_wf s2 ->
  ls' = map (lower_lit s2) ls.
Proof.
  induction ls as [|l ls IH]; intros s s' ls' s2 Hw Hf H Hle Hw2; cbn [intern_lits] in H;
    [by injection H as <- <-|].
  unfold internLit in H. destruct (intern_args s (Args l)) as [s1 args] eqn:E1.
  destruct (intern_lits s1 ls) as [s3 rest] eqn:E2. injection H as <- <-.
  pose proof (intern_lits_grows _ _ _ _ E2) as Hle1. pose proof (intern_fits_le _ _ Hle1 Hf) as Hf1.
  destruct (intern_args_spec _ _ _ _ Hw Hf1 E1) as (Hw1 & _). cbn [map]. f_equal; [|exact (IH s1 s3 rest s2 Hw1 Hf E2 Hle Hw2)].
  unfold lower_lit. f_equal. eapply intern_args_lower; [exact Hw|exact Hf1|exact E1| |done].
  by eapply intern_le_trans.
Qed.

Lemma intern_rules_lower rs : forall s s' rs' s2,
  intern_wf s -> intern_fits s' -> intern_rules s rs = (s', rs') -> intern_le s' s2 -> intern_wf s2 ->
  rs' = map (lower_rule s2) rs.
Proof.
  induction rs as [|r rs IH]; intros s s' rs' s2 Hw Hf H Hle Hw2; cbn [intern_rules] in H;
    [by injection H as <- <-|].
  destruct (intern_rule s r) as [s1 r1] eqn:E1, (intern_rules s1 rs) as [s3 rest] eqn:E2.
  injection H as <- <-. pose proof (intern_rules_grows _ _ _ _ E2) as Hle1.
  pose proof (intern_fits_le _ _ Hle1 Hf) as Hf1.
  destruct (intern_rule_spec _ _ _ _ Hw Hf1 E1) as (Hw1 & _). cbn [map]. f_equal; [|exact (IH s1 s3 rest s2 Hw1 Hf E2 Hle Hw2)].
  pose proof (intern_le_trans _ _ _ Hle1 Hle) as Hle2. unfold intern_rule, internLit in E1.
  destruct (intern_args s (Args (Head r))) as [sh h] eqn:Eh.
  destruct (intern_lits sh (Body r)) as [sb b] eqn:Eb. injection E1 as <- <-.
  pose proof (intern_lits_grows _ _ _ _ Eb) as Hle3. pose proof (intern_fits_le _ _ Hle3 Hf1) as Hfh.
  destruct (intern_args_spec _ _ _ _ Hw Hfh Eh) as (Hwh & _).
  assert (Hb : b = map (lower_lit s2) (Body r)) by (apply (intern_lits_lower _ sh sb _ s2 Hwh Hf1 Eb Hle2 Hw2)).
  unfold lower_rule. rewrite <- Hb. f_equal. unfold lower_lit. f_equal.
  eapply intern_args_lower; [exact Hw|exact Hfh|exact Eh| |done]. by eapply intern_le_trans.
Qed.

(** ** Parsed rules up to symbols *)

Lemma all_terms_erase r : all_terms (erase_rule r) = map erase_term (all_terms r).
Proof.
  unfold all_terms. cbn [erase_rule Head Body]. rewrite map_app. cbn [erase_lit Args]. f_equal.
  rewrite concat_map, !map_map. done.
Qed.

Lemma erase_term_in r r' t :
  erase_rule r' = erase_rule r -> t ∈ all_terms r' ->
  exists u, u ∈ all_terms r /\ IsVar u = IsVar t /\ Name u = Name t /\ Var u = Var t.
Proof.
  intros He Ht. assert (Hin : erase_term t ∈ all_terms (erase_rule r)).
  { rewrite <- He, all_terms_erase. by apply list_elem_of_fmap_2. }
  rewrite all_terms_erase in Hin. apply list_elem_of_fmap in Hin as (u & Hu & Hin).
  exists u. injection Hu as -> -> ->. done.
Qed.

Lemma parsed_ok_erase r r' : erase_rule r' = erase_rule r -> parsed_ok r -> parsed_ok r'.
Proof.
  intros He [(ids & Hok & Hsz & Hnum & Hag) Hnames].
  assert (HA : Agg r' = Agg r) by exact (f_equal Agg He).
  assert (HN : NVars r' = NVars r) by exact (f_equal NVars He).
  assert (HH : erase_lit (Head r') = erase_lit (Head r)) by exact (f_equal Head He).
  assert (HB : map erase_lit (Body r') = map erase_lit (Body r)) by exact (f_equal Body He).
  assert (Hhv : term_vars (Args (Head r')) = term_vars (Args (Head r))).
  { rewrite <- (term_vars_erase (Args (Head r'))), <- (term_vars_erase (Args (Head r))).
    exact (f_equal (fun l => term_vars (Args l)) HH). }
  split.
  - exists ids. rewrite HA, HN. split_and!; [done|done| |done].
    intros t Ht Hv. destruct (erase_term_in _ _ t He Ht) as (u & Hu & Hvu & Hnu & Hsu).
    rewrite <- Hnu, <- Hsu. apply Hnum; [done|congruence].
  - intros a Ha. rewrite HA in Ha. destruct (Hnames a Ha) as (Hf & Ho & Hi & l & Hl & Hn & Hv).
    rewrite Hhv. split_and!; [done|done|done|].
    assert (Hin : erase_lit l ∈ map erase_lit (Body r')) by (rewrite HB; by apply list_elem_of_fmap_2).
    apply list_elem_of_fmap in Hin as (l' & Hll & Hl'). exists l'. split_and!; [done| |].
    + rewrite <- Hn. symmetry. exact (f_equal Neg Hll).
    + rewrite <- (lit_vars_erase l'), <- Hll, lit_vars_erase. done.
Qed.

(** Resolving the slots of a parsed rule again changes nothing. *)
Lemma resolve_id r : parsed_ok r -> resolveAggSlots r = r.
Proof.
  intros [(ids & Hok & _ & Hnum & Hag) Hnames]. unfold resolveAggSlots.
  destruct (Agg r) as [a|] eqn:Ha; [|done].
  destruct (Hag a eq_refl) as [Hout Hin]. destruct (Hnames a Ha) as (_ & Ho & _ & l & Hl & _ & Hv).
  assert (H1 : last_slot (OutVar a) (Args (Head r)) (outSlot a) = outSlot a).
  { pose proof (last_slot_spec ids (OutVar a) (Args (Head r)) (outSlot a) Hok) as H.
    rewrite H in Hout; [by injection Hout| |done]. intros t Ht. apply Hnum. apply elem_of_app. by left. }
  assert (H2 : last_slot (InVar a) (concat (map Args (Body r))) (inSlot a) = inSlot a).
  { pose proof (last_slot_spec ids (InVar a) (concat (map Args (Body r))) (inSlot a) Hok) as H.
    rewrite H in Hin; [by injection Hin| |by eapply elem_of_lit_vars_concat].
    intros t Ht. apply Hnum. apply elem_of_app. by right. }
  rewrite H1, H2. unfold set_body_agg. destruct r as [h b rn f ln nv ag], a. cbn in *. by rewrite Ha.
Qed.

(** ** Arities *)

Lemma check_arities_spec ls : forall known known',
  check_arities known ls = Ok known' ->
  known ⊆ known' /\ forall ln l, (ln, l) ∈ ls -> isBuiltin (Rel l) = false ->
    known' !! Rel l = Some (arity l).
Proof.
  induction ls as [|[ln l] ls IH]; intros known known' H; cbn [check_arities] in H.
  { injection H as <-. split; [done|]. intros ln l Hl. by apply not_elem_of_nil in Hl. }
  destruct (isBuiltin (Rel l)) eqn:Hb.
  - destruct (IH _ _ H) as [Hs Hl]. split; [done|].
    intros ln' l' [[= -> ->]|Hin]%elem_of_cons Hb'; [congruence|by eapply Hl].
  - assert (Hk : exists H' : check_arities (<[Rel l := arity l]> known) ls = Ok known',
      known ⊆ <[Rel l := arity l]> known).
    { destruct (known !! Rel l) as [a|] eqn:E.
      - destruct (Nat.eqb_spec a (arity l)) as [->|]; [|done]. exists H. by rewrite insert_id.
      - exists H. by apply insert_subseteq. }
    destruct Hk as [H' Hsub]. destruct (IH _ _ H') as [Hs Hl]. split; [by etrans|].
    intros ln' l' [[= -> ->]|Hin]%elem_of_cons Hb'; [|by eapply Hl].
    eapply lookup_weaken; [|exact Hs]. by rewrite lookup_insert_eq.
Qed.

(** ** Asserted facts *)

(** The fact [u] is asserted of [rel], as strings. *)
Definition asserted (e : Engine) (rel : string) (u : Tuple) : Prop :=
  exists it, base_of (e_base e) rel it /\ reveal (e_syms e) it = u.

(** A loaded rule: numbered by the parser, safe, within the slot limit. *)
Definition rule_ok (r : Rule) : Prop := parsed_ok r /\ safe_rule r /\ NVars r <= 64.

(** The engine between evaluations: its facts are stored relations of valid
    symbols, its rules have passed the loader's checks. *)
Record facts_ok (e : Engine) : Prop := {
  fo_syms : intern_wf (e_syms e);
  fo_base : forall rel r, e_base e !! rel = Some r ->
    rel_wf r /\ Forall (itup_valid (e_syms e)) (tuples r) /\
    ((rarity r < 0)%Z -> tuples r = [] /\ idx r = None);
  fo_rules : Forall rule_ok (e_ruleOrder e)
}.

(** What asserting leaves alone. *)
Definition same_conf (e e' : Engine) : Prop :=
  e_opts e' = e_opts e /\ e_recordProv e' = e_recordProv e /\ e_ruleOrder e' = e_ruleOrder e /\
  e_loaded e' = e_loaded e.

Lemma set_arity_wf n r : rel_wf r -> tuples r = [] -> idx r = None -> rel_wf (set_arity n r).
Proof.
  intros [W1 W2 W3 W4 W5] Ht Hi. split; cbn; rewrite ?Ht in *; try done; try (intros ix H; congruence).
Qed.

Lemma assert_one_grows rel t e e' : assert_one rel t e = (e', Ok tt) ->
  intern_le (e_syms e) (e_syms e').
Proof.
  unfold assert_one. set (r0 := default _ _). set (r := if (rarity r0 <? 0)%Z then _ else _).
  destruct (negb _); [done|]. destruct (intern (e_syms e) t) as [it syms] eqn:E.
  destruct (add r it) as [b r'] eqn:Ea. destruct (_ && _); [done|]. intros [= <-]. cbn.
  by eapply intern_grows.
Qed.

Lemma base_of_insert b rel r rel' it :
  base_of (<[rel := r]> b) rel' it <->
  (rel' = rel /\ it ∈ tuples r) \/ (rel' <> rel /\ base_of b rel' it).
Proof.
  unfold base_of. destruct (decide (rel' = rel)) as [->|Hne].
  - rewrite lookup_insert_eq. split.
    + intros (r' & [= <-] & H). by left.
    + intros [[_ H]|[? _]]; [by exists r|done].
  - rewrite lookup_insert_ne by done. naive_solver.
Qed.

Lemma reveal_valid_le a b l : intern_wf a -> intern_le a b -> Forall (itup_valid a) l ->
  forall it, it ∈ l -> reveal b it = reveal a it.
Proof. intros Hw Hle Hl it Hit. rewrite Forall_forall in Hl. apply reveal_le; [done|done|by apply Hl]. Qed.

(** The relation a tuple is asserted into, before the insertion. *)
Lemma assert_target e rel n :
  facts_ok e ->
  let r0 := default (newRelation rel (-1)) (e_base e !! rel) in
  let r := if (rarity r0 <? 0)%Z then set_arity n r0 else r0 in
  (0 <= n)%Z -> rarity r = n ->
  rel_wf r /\ Forall (itup_valid (e_syms e)) (tuples r) /\
  (forall it, it ∈ tuples r <-> base_of (e_base e) rel it).
Proof.
  intros He r0 r Hn Hr.
  assert (H0 : rel_wf r0 /\ Forall (itup_valid (e_syms e)) (tuples r0) /\
    ((rarity r0 < 0)%Z -> tuples r0 = [] /\ idx r0 = None) /\ forall it, it ∈ tuples r0 <-> base_of (e_base e) rel it).
  { unfold r0, base_of. destruct (e_base e !! rel) as [r1|] eqn:E; cbn.
    - destruct (fo_base _ He _ _ E) as (W & V & Z). split_and!; [done..|]. intros it.
      split; [by exists r1|]. intros (r' & [= <-] & ?). done.
    - split_and!; [apply newRelation_wf|constructor|done|]. intros it.
      split; [by intros ?%not_elem_of_nil|by intros (? & ? & _)]. }
  destruct H0 as (W & V & Z & B). unfold r.
  destruct (Z.ltb_spec (rarity r0) 0); [|done]. destruct Z as [Z I]; [done|]. split_and!; [|done|done]. by apply set_arity_wf.
Qed.

Lemma assert_one_spec rel t e e' :
  facts_ok e -> intern_fits (e_syms e') -> assert_one rel t e = (e', Ok tt) ->
  facts_ok e' /\ same_conf e e' /\
  (forall rel', is_Some (e_base e' !! rel') <-> is_Some (e_base e !! rel') \/ rel' = rel) /\
  (forall rel' u, asserted e' rel' u <-> asserted e rel' u \/ (rel' = rel /\ u = map canon t)).
Proof.
  intros He Hfit. unfold assert_one.
  pose proof (assert_target e rel (Z.of_nat (length t)) He ltac:(lia)) as Htgt. cbn zeta in Htgt.
  set (r0 := default _ _) in *. set (r := if (rarity r0 <? 0)%Z then _ else _) in *.
  destruct (Z.eqb_spec (Z.of_nat (length t)) (rarity r)) as [Har|]; [|done]. cbn [negb].
  destruct (Htgt (eq_sym Har)) as (W & V & B).
  destruct (intern (e_syms e) t) as [it syms] eqn:E. destruct (add r it) as [b r'] eqn:Ea.
  destruct (_ && _); [done|]. intros [= <-]. cbn in Hfit.
  destruct (intern_spec _ _ _ _ (fo_syms _ He) Hfit E) as (Hw & Hle & Hv & Hrv & Hlen).
  assert (Htok : tuple_ok (row_len r) it).
  { split; [unfold row_len; lia|by eapply itup_valid_u32]. }
  destruct (add_spec _ _ _ _ W Htok Ea) as (W' & Hn' & Ha' & Hb & Htu).
  assert (Hmem : forall x, x ∈ tuples r' <-> x ∈ tuples r \/ x = it).
  { intros x. rewrite Htu. destruct b; [rewrite elem_of_app, list_elem_of_singleton; done|].
    split; [by left|]. intros [?| ->]; [done|]. destruct (decide (it ∈ tuples r)) as [?|Hni]; [done|].
    by apply Hb in Hni. }
  assert (V' : Forall (itup_valid syms) (tuples r')).
  { apply Forall_forall. intros x [Hx| ->]%Hmem; [|done]. rewrite Forall_forall in V.
    eapply itup_valid_le; [done|by apply V]. }
  split_and!.
  - split; cbn; [done| |apply He]. intros rel' r1.
    destruct (decide (rel' = rel)) as [->|Hne].
    + rewrite lookup_insert_eq. intros [= <-]. split_and!; [done|done|]. intros Hneg. lia.
    + rewrite lookup_insert_ne by done. intros H1.
      destruct (fo_base _ He _ _ H1) as (W1 & V1 & Z1). split_and!; [done| |done].
      eapply Forall_impl; [exact V1|]. intros x. by apply itup_valid_le.
  - done.
  - intros rel'. cbn. destruct (decide (rel' = rel)) as [->|Hne];
      [rewrite lookup_insert_eq|rewrite lookup_insert_ne by done]; naive_solver.
  - intros rel' u. unfold asserted. cbn. setoid_rewrite base_of_insert. split.
    + intros (x & [[-> Hx]|[Hne Hx]] & <-).
      * apply Hmem in Hx as [Hx| ->]; [left|right; done]. exists x. split; [by apply B|].
        symmetry. by eapply (reveal_valid_le (e_syms e)); [apply He|done|exact V|].
      * left. exists x. split; [done|]. destruct Hx as (r1 & H1 & Hx1).
        destruct (fo_base _ He _ _ H1) as (_ & V1 & _).
        symmetry. by eapply (reveal_valid_le (e_syms e)); [apply He|done|exact V1|].
    + intros [(x & Hx & <-)|[-> ->]].
      * exists x. split.
        -- destruct (decide (rel' = rel)) as [->|Hne]; [left|by right]. split; [done|].
           apply Hmem. left. by apply B.
        -- destruct Hx as (r1 & H1 & Hx1). destruct (fo_base _ He _ _ H1) as (_ & V1 & _).
           by eapply (reveal_valid_le (e_syms e)); [apply He|done|exact V1|].
      * exists it. split; [left; split; [done|]; apply Hmem; by right|done].
Qed.

(** C8: every rule the parser returns is numbered and resolved: its variables
    carry dense slots, equal exactly for equal names and as many as counted;
    an aggregate's slots are those of its variables, its output is in the
    head, its input is not, and a positive body literal binds it. *)
Theorem parseRules_numbered src file rs r : parseRules src file = Ok rs -> r ∈ rs ->
  (exists ids, ids_ok ids /\ size ids = NVars r /\ numbered ids (all_terms r) /\
     forall a, Agg r = Some a -> ids !! OutVar a = Some (outSlot a) /\ ids !! InVar a = Some (inSlot a)) /\
  agg_names r.
Proof.
  intros H Hr. pose proof (parseRules_ok _ _ _ H) as Hall. rewrite Forall_forall in Hall.
  by destruct (Hall r Hr).
Qed.

Lemma parseRules_numbered_witness :
  exists rs r, parseRules (str_bytes "p(X, M) :- q(X, V), max(M, V).") "f.dl" = Ok rs /\ r ∈ rs /\
    NVars r = 3 /\ agg_names r.
Proof.
  destruct (parseRules (str_bytes "p(X, M) :- q(X, V), max(M, V).") "f.dl") as [[|r [|r' rs]]|e] eqn:E;
    [vm_compute in E; discriminate E| |vm_compute in E; discriminate E|vm_compute in E; discriminate E].
  exists [r], r. split; [reflexivity|]. split; [left|]. split.
  - vm_compute in E. injection E as <-. reflexivity.
  - apply (parseRules_numbered _ _ _ r E). left.
Defined.
