(* ===== verification/DlFactsSpec.v ===== *)
(** Loading: what Assert, the fact relations of a Program and LoadRules
    leave in the engine, and that an engine they accept satisfies what the
    evaluator's theorems assume. *)
From S2P Require Import Prelude DlIntern DlSyntax DlLex DlParse DlSafe DlStrata DlRelation DlEngine.
From S2P Require Import DlJoin DlSemantics DlJoinSpec DlBottomUp DlBottomUpSpec DlQuery DlLoadSpec.

(** ** Assert *)

(** What a step that only adds facts does: it keeps the configuration, grows
    the symbols, and changes the asserted relations as [D] and [A] say. *)
Record adds (D : string -> Prop) (A : string -> Tuple -> Prop) (e e' : Engine) : Prop := {
  ad_ok : facts_ok e';
  ad_conf : same_conf e e';
  ad_dom : forall rel, is_Some (e_base e' !! rel) <-> is_Some (e_base e !! rel) \/ D rel;
  ad_facts : forall rel u, asserted e' rel u <-> asserted e rel u \/ A rel u
}.

Lemma same_conf_refl e : same_conf e e.
Proof. by split_and!. Qed.

Lemma same_conf_trans a b c : same_conf a b -> same_conf b c -> same_conf a c.
Proof. unfold same_conf. intuition congruence. Qed.

Lemma adds_nil (D : string -> Prop) (A : string -> Tuple -> Prop) e :
  facts_ok e -> (forall rel, ~ D rel) -> (forall rel u, ~ A rel u) -> adds D A e e.
Proof.
  intros He HD HA. split; [done|apply same_conf_refl| |]; intros; split; try (by left);
    intros [?|?]; naive_solver.
Qed.

Lemma adds_trans (D1 D2 D : string -> Prop) (A1 A2 A : string -> Tuple -> Prop) a b c :
  adds D1 A1 a b -> adds D2 A2 b c ->
  (forall rel, D rel <-> D1 rel \/ D2 rel) -> (forall rel u, A rel u <-> A1 rel u \/ A2 rel u) ->
  adds D A a c.
Proof.
  intros [O1 C1 D1' F1] [O2 C2 D2' F2] HD HA. split; [done|by eapply same_conf_trans| |].
  - intros rel. rewrite D2', D1', HD. tauto.
  - intros rel u. rewrite F2, F1, HA. tauto.
Qed.

Lemma for_each_grows {A} (xs : list A) (body : A -> ST Engine DlError unit) :
  (forall x e e', x ∈ xs -> body x e = (e', Ok tt) -> intern_le (e_syms e) (e_syms e')) ->
  forall e e', for_each xs body e = (e', Ok tt) -> intern_le (e_syms e) (e_syms e').
Proof.
  induction xs as [|x xs IH]; intros Hb e e' H; cbn [for_each] in H.
  - injection H as <-. apply intern_le_refl.
  - apply ST_bind_ok in H as (e1 & [] & H1 & H2).
    eapply intern_le_trans; [eapply Hb; [left|exact H1]|].
    eapply IH; [|exact H2]. intros y ? ? Hy. apply Hb. by right.
Qed.

(** A loop of fact-adding steps adds the union of what the steps add. *)
Lemma for_each_adds {A} (xs : list A) (body : A -> ST Engine DlError unit) D F :
  (forall x e e', x ∈ xs -> body x e = (e', Ok tt) -> intern_le (e_syms e) (e_syms e')) ->
  (forall x e e', x ∈ xs -> facts_ok e -> intern_fits (e_syms e') -> body x e = (e', Ok tt) ->
    adds (D x) (F x) e e') ->
  forall e e', facts_ok e -> intern_fits (e_syms e') -> for_each xs body e = (e', Ok tt) ->
  adds (fun rel => exists x, x ∈ xs /\ D x rel) (fun rel u => exists x, x ∈ xs /\ F x rel u) e e'.
Proof.
  induction xs as [|x xs IH]; intros Hg Hb e e' He Hf H; cbn [for_each] in H.
  - injection H as <-. apply adds_nil; [done|..].
    + intros rel (x & Hx & _). by apply not_elem_of_nil in Hx.
    + intros rel u (x & Hx & _). by apply not_elem_of_nil in Hx.
  - apply ST_bind_ok in H as (e1 & [] & H1 & H2).
    assert (Hle : intern_le (e_syms e1) (e_syms e')).
    { eapply for_each_grows; [|exact H2]. intros y ? ? Hy. apply Hg. by right. }
    pose proof (Hb x e e1 ltac:(left) He (intern_fits_le _ _ Hle Hf) H1) as Ha.
    assert (Hr : adds (fun rel => exists y, y ∈ xs /\ D y rel) (fun rel u => exists y, y ∈ xs /\ F y rel u)
      e1 e').
    { eapply IH; [| |apply Ha|done|exact H2]; intros y ? ? Hy; [apply Hg|apply Hb]; by right. }
    eapply adds_trans; [exact Ha|exact Hr|..]; intros; setoid_rewrite elem_of_cons; naive_solver.
Qed.

Lemma assert_one_adds rel t e e' :
  facts_ok e -> intern_fits (e_syms e') -> assert_one rel t e = (e', Ok tt) ->
  adds (fun rel' => rel' = rel) (fun rel' u => rel' = rel /\ u = map canon t) e e'.
Proof. intros He Hf H. by destruct (assert_one_spec _ _ _ _ He Hf H) as (? & ? & ? & ?). Qed.

(** The first step of Assert: an unknown relation is declared. *)
Definition declare (rel : string) (n : Z) (e : Engine) : Engine :=
  match e_base e !! rel with
  | Some _ => e
  | None => set_base (<[rel := newRelation rel n]> (e_base e)) e
  end.

Lemma declare_adds rel n e :
  facts_ok e -> adds (fun rel' => rel' = rel) (fun _ _ => False) e (declare rel n e).
Proof.
  intros He. unfold declare. destruct (e_base e !! rel) as [r|] eqn:E.
  - split; [done|apply same_conf_refl| |]; intros; split; try (by left); try (by intros [?|[]]).
    intros [?| ->]; [done|by eexists].
  - split.
    + split; cbn; [apply He| |apply He]. intros rel' r.
      destruct (decide (rel' = rel)) as [->|Hne].
      * rewrite lookup_insert_eq. intros [= <-]. by split_and!; [apply newRelation_wf|constructor|].
      * rewrite lookup_insert_ne by done. apply He.
    + done.
    + intros rel'. cbn. destruct (decide (rel' = rel)) as [->|Hne];
        [rewrite lookup_insert_eq|rewrite lookup_insert_ne by done]; naive_solver.
    + intros rel' u. unfold asserted. cbn. setoid_rewrite base_of_insert.
      split; [|intros [(x & Hx & <-)|[]]].
      * intros (x & [[_ Hx]|[Hne Hx]] & Hr); [by apply not_elem_of_nil in Hx|left; by exists x].
      * exists x. split; [|done]. right. split; [|done]. intros ->.
        destruct Hx as (r & Hr & _). congruence.
Qed.

Lemma reset_adds e : facts_ok e -> adds (fun _ => False) (fun _ _ => False) e (reset e).
Proof.
  intros [H1 H2 H3]. split; [by split|by split_and!|..]; intros; cbn;
    (split; [by left|by intros [?|[]]]).
Qed.

(** What Assert of [ts] to [rel] adds. *)
Definition assert_dom (rel : string) (rel' : string) : Prop := rel' = rel.
Definition assert_facts (rel : string) (ts : list Tuple) (rel' : string) (u : Tuple) : Prop :=
  rel' = rel /\ exists t, t ∈ ts /\ u = map canon t.

Lemma Assert_run rel ts e e' : Assert rel ts e = (e', Ok tt) ->
  exists n e1, for_each ts (assert_one rel) (declare rel n e) = (e1, Ok tt) /\ e' = reset e1.
Proof.
  unfold Assert. destruct (str_eqb rel ""); [done|]. intros H.
  apply ST_bind_ok in H as (e0 & [] & [= <-] & H).
  apply ST_bind_ok in H as (e1 & [] & H1 & [= <-]). eexists _, e1. split; [|done].
  unfold declare. destruct (e_base e !! rel); exact H1.
Qed.

Lemma Assert_grows rel ts e e' : Assert rel ts e = (e', Ok tt) -> intern_le (e_syms e) (e_syms e').
Proof.
  intros (n & e1 & H & ->)%Assert_run. cbn. apply for_each_grows in H.
  - unfold declare in H. by destruct (e_base e !! rel).
  - intros x ? ? _. apply assert_one_grows.
Qed.

Lemma Assert_adds rel ts e e' :
  facts_ok e -> intern_fits (e_syms e') -> Assert rel ts e = (e', Ok tt) ->
  adds (assert_dom rel) (assert_facts rel ts) e e'.
Proof.
  intros He Hf (n & e1 & H & ->)%Assert_run. cbn in Hf.
  pose proof (declare_adds rel n e He) as Hd.
  eapply (for_each_adds ts (assert_one rel) (fun _ rel' => rel' = rel)
            (fun t rel' u => rel' = rel /\ u = map canon t)) in H; [|..|apply Hd|done].
  - pose proof (adds_trans _ _ (assert_dom rel) _ _ (assert_facts rel ts) _ _ _ Hd H) as Ha.
    eapply (adds_trans _ _ (assert_dom rel) _ _ (assert_facts rel ts)); [apply Ha|apply reset_adds, H|..].
    + unfold assert_dom. naive_solver.
    + unfold assert_facts. naive_solver.
    + naive_solver.
    + naive_solver.
  - intros x ? ? _. apply assert_one_grows.
  - intros x ? ? _. apply assert_one_adds.
Qed.

(** ** The fact relations of a program *)

Definition load_relations (f : FactRelations) : ST Engine DlError unit :=
  for_each (sort_strings (elements (dom (rels f)))) (fun rel =>
    Assert rel (default [] (rels f !! rel))).

(** The supplied facts, as the engine keeps them. *)
Definition supplied (f : FactRelations) (rel : string) (u : Tuple) : Prop :=
  exists ts t, rels f !! rel = Some ts /\ t ∈ ts /\ u = map canon t.

Lemma load_relations_adds f e e' :
  facts_ok e -> intern_fits (e_syms e') -> load_relations f e = (e', Ok tt) ->
  adds (fun rel => is_Some (rels f !! rel)) (supplied f) e e'.
Proof.
  intros He Hf H.
  assert (Hin : forall rel, rel ∈ sort_strings (elements (dom (rels f))) <-> is_Some (rels f !! rel)).
  { intros rel. by rewrite elem_of_sort_strings, elem_of_elements, elem_of_dom. }
  apply (for_each_adds _ _ assert_dom (fun rel => assert_facts rel (default [] (rels f !! rel))))
    in H as [O C Dm F]; [|intros; by eapply Assert_grows|intros; by eapply Assert_adds|done|done].
  split; [done|done| |].
  - intros rel. rewrite Dm. unfold assert_dom. setoid_rewrite Hin. naive_solver.
  - intros rel u. rewrite F. unfold assert_facts, supplied. setoid_rewrite Hin.
    apply or_iff_compat_l. split.
    + intros (x & [ts Hts] & -> & t & Ht & ->). rewrite Hts in Ht. by exists ts, t.
    + intros (ts & t & Hts & Ht & ->). exists rel. split; [done|]. split; [done|].
      exists t. by rewrite Hts.
Qed.

Lemma New_facts_ok opts : facts_ok (New opts).
Proof. split; cbn; [apply newInterner_wf|done|constructor]. Qed.

(** ** The arities a loaded program fixes *)

Definition backfill_one (ar : gmap string nat) (rel : string) (r : relation) : relation :=
  if (rarity r <? 0)%Z then
    match ar !! rel with Some a => set_arity (Z.of_nat a) r | None => r end
  else r.

Lemma backfill_lookup ar b rel : backfill ar b !! rel = backfill_one ar rel <$> b !! rel.
Proof. unfold backfill. rewrite map_lookup_imap. by destruct (b !! rel). Qed.

Lemma backfill_one_ok ar rel r syms :
  rel_wf r -> Forall (itup_valid syms) (tuples r) ->
  ((rarity r < 0)%Z -> tuples r = [] /\ idx r = None) ->
  let r' := backfill_one ar rel r in
  rel_wf r' /\ tuples r' = tuples r /\ ((rarity r' < 0)%Z -> tuples r' = [] /\ idx r' = None) /\
  ((0 <= rarity r)%Z -> r' = r) /\
  ((rarity r < 0)%Z -> row_len r' = default 0 (ar !! rel)).
Proof.
  intros W V Z. unfold backfill_one. destruct (Z.ltb_spec (rarity r) 0) as [Hn|Hn].
  - destruct (Z Hn) as [Ht Hi]. destruct (ar !! rel) as [a|] eqn:E; cbn.
    + split_and!; [by apply set_arity_wf|done|done|lia|]. intros _. unfold row_len. cbn. lia.
    + split_and!; [done|done|done|lia|]. intros _. unfold row_len. lia.
  - split_and!; [done|done|lia|done|lia].
Qed.

Lemma base_of_backfill ar b rel it : base_of (backfill ar b) rel it <-> base_of b rel it.
Proof.
  unfold base_of. rewrite backfill_lookup.
  assert (Ht : forall r, tuples (backfill_one ar rel r) = tuples r).
  { intros r. unfold backfill_one. by destruct (_ <? _)%Z, (ar !! rel). }
  split.
  - intros (r & (r0 & Hr & ->)%fmap_Some & Hit). exists r0. by rewrite Ht in Hit.
  - intros (r & Hr & Hit). exists (backfill_one ar rel r). by rewrite Hr, Ht.
Qed.

(** ** Stratification up to symbols *)

Lemma erase_rules_in (rs rs' : list Rule) r : map erase_rule rs' = map erase_rule rs -> r ∈ rs' ->
  exists r0, r0 ∈ rs /\ erase_rule r = erase_rule r0.
Proof.
  intros H Hr. assert (Hin : erase_rule r ∈ map erase_rule rs).
  { rewrite <- H. by apply list_elem_of_fmap_2. }
  by apply list_elem_of_fmap in Hin as (r0 & ? & ?); exists r0.
Qed.

Lemma erase_head_rel r r' : erase_rule r' = erase_rule r -> Rel (Head r') = Rel (Head r).
Proof. intros H. exact (f_equal (fun r => Rel (Head r)) H). Qed.

Lemma erase_agg r r' : erase_rule r' = erase_rule r -> Agg r' = Agg r.
Proof. intros H. exact (f_equal Agg H). Qed.

Lemma erase_body_in r r' l : erase_rule r' = erase_rule r -> l ∈ Body r' ->
  exists l0, l0 ∈ Body r /\ Rel l0 = Rel l /\ Neg l0 = Neg l /\ length (Args l0) = length (Args l).
Proof.
  intros H Hl. assert (HB : map erase_lit (Body r') = map erase_lit (Body r)) by exact (f_equal Body H).
  assert (Hin : erase_lit l ∈ map erase_lit (Body r)).
  { rewrite <- HB. by apply list_elem_of_fmap_2. }
  apply list_elem_of_fmap in Hin as (l0 & E & Hl0). exists l0. split; [done|]. split_and!.
  - symmetry. exact (f_equal Rel E).
  - symmetry. exact (f_equal Neg E).
  - pose proof (f_equal (fun l => length (Args l)) E) as Hlen. cbn in Hlen.
    by rewrite !length_map in Hlen.
Qed.

Lemma erase_head_arity r r' : erase_rule r' = erase_rule r ->
  length (Args (Head r')) = length (Args (Head r)).
Proof.
  intros H. pose proof (f_equal (fun r => length (Args (Head r))) H) as Hl. cbn in Hl.
  by rewrite !length_map in Hl.
Qed.

Lemma head_rels_erase rs rs' : map erase_rule rs' = map erase_rule rs ->
  forall rel, rel ∈ head_rels rs' <-> rel ∈ head_rels rs.
Proof.
  assert (Hh : forall a b, map erase_rule a = map erase_rule b -> forall rel, rel ∈ head_rels a -> rel ∈ head_rels b).
  { intros a b H rel (r & Hr & Hh)%elem_of_head_rels.
    destruct (erase_rules_in _ _ _ H Hr) as (r0 & Hr0 & E). apply elem_of_head_rels. exists r0.
    split; [done|]. by rewrite <- (erase_head_rel _ _ E). }
  intros H rel. split; by apply Hh.
Qed.

Lemma stratification_erase rs rs' s : map erase_rule rs' = map erase_rule rs ->
  is_stratification rs s -> is_stratification rs' s.
Proof.
  intros H Hs r l Hr Hl Hh. destruct (erase_rules_in _ _ _ H Hr) as (r0 & Hr0 & E).
  destruct (erase_body_in _ _ _ E Hl) as (l0 & Hl0 & Hrel & Hneg & _).
  rewrite (erase_head_rel _ _ E), (erase_agg _ _ E), <- Hrel, <- Hneg.
  apply Hs; [done|done|]. rewrite Hrel. by apply (head_rels_erase _ _ H).
Qed.

(** ** The checks of LoadRules *)

Lemma missing_names_nil base rules :
  missing_names base rules = [] -> forall r l, r ∈ rules -> l ∈ Body r -> isBuiltin (Rel l) = false ->
  Rel l ∈ head_rels rules \/ Rel l ∈ base.
Proof.
  intros H r l Hr Hl Hb.
  destruct (decide (Rel l ∈ head_rels rules)) as [?|Hh]; [by left|].
  destruct (decide (Rel l ∈ base)) as [?|Hbase]; [by right|]. exfalso.
  unfold missing_names in H. apply concat_nil_Forall, List.Forall_map in H.
  rewrite Forall_forall in H. specialize (H r Hr). cbn beta in H.
  match type of H with omap ?f _ = [] =>
    assert (Hf : is_Some (f l)) by (rewrite (bool_decide_eq_false_2 _ Hh), Hb,
      (bool_decide_eq_false_2 _ Hbase); cbn; by eexists);
    destruct Hf as [y Hy];
    assert (Hin : y ∈ omap f (Body r)) by (apply list_elem_of_omap; by exists l)
  end.
  rewrite H in Hin. by apply not_elem_of_nil in Hin.
Qed.

Lemma check_rule_ok r : check_rule r = Ok tt -> safe_rule r /\ NVars r <= 64.
Proof.
  unfold check_rule. intros ([] & H1%checkSafe_iff & H2)%result_bind_ok.
  apply ensure_ok, Nat.leb_le in H2. done.
Qed.

Record checked (e : Engine) (rules all : list Rule) (ar strata : gmap string nat) : Prop := {
  ch_all : all = e_ruleOrder e ++ rules;
  ch_rules : Forall (fun r => safe_rule r /\ NVars r <= 64) rules;
  ch_base : base_arities (e_base e) ⊆ ar;
  ch_arity : forall r l, r ∈ all -> l = Head r \/ l ∈ Body r -> isBuiltin (Rel l) = false ->
    ar !! Rel l = Some (length (Args l));
  ch_strat : is_stratification all (stratum strata);
  ch_known : forall r l, r ∈ all -> l ∈ Body r -> isBuiltin (Rel l) = false ->
    Rel l ∈ head_rels all \/ is_Some (e_base e !! Rel l)
}.

Lemma check_program_ok e rules all ar strata :
  check_program e rules = Ok (all, ar, strata) -> checked e rules all ar strata.
Proof.
  unfold check_program. intros ([] & Hr%for_result_ok & H)%result_bind_ok.
  apply result_bind_ok in H as (ar' & Ha & H). apply result_bind_ok in H as (st & Hs & H).
  destruct (missing_names _ _) eqn:Em; [|done]. injection H as <- <- <-.
  apply check_arities_spec in Ha as [Hsub Har]. split; [done| |done| | |].
  - eapply Forall_impl; [exact Hr|]. apply check_rule_ok.
  - intros r l Hin Hl Hb. apply (Har (Line r)); [|done]. apply list_elem_of_In, in_concat.
    exists (rule_lits r). split; [by apply in_map, list_elem_of_In|].
    apply in_map, list_elem_of_In. destruct Hl as [->|?]; [left|by right].
  - by apply stratify_sound_aux.
  - intros r l Hin Hl Hb. destruct (missing_names_nil _ _ Em r l Hin Hl Hb) as [?|Hd]; [by left|right].
    by apply elem_of_dom in Hd.
Qed.

(** ** LoadRules *)

Lemma rule_ok_erase r r' : erase_rule r' = erase_rule r -> rule_ok r -> rule_ok r'.
Proof.
  intros E (Hp & Hs & Hn). split_and!.
  - by eapply parsed_ok_erase.
  - apply safe_rule_erase. rewrite E. by apply safe_rule_erase.
  - by rewrite (f_equal NVars E : NVars r' = NVars r).
Qed.

(** The interned rules that [install_rules] stores. *)
Lemma install_shape all ar strata e :
  Forall rule_ok all -> intern_wf (e_syms e) ->
  intern_fits (e_syms (install_rules all ar strata e)) ->
  exists syms rs, intern_wf syms /\ intern_le (e_syms e) syms /\ Forall rule_ok rs /\
    map erase_rule rs = map erase_rule all /\ (forall r, r ∈ rs -> consts_valid syms (all_terms r)) /\
    rs = map (lower_rule syms) all /\
    install_rules all ar strata e =
      reset (set_program (rules_by_head rs) rs (agg_rels rs) strata
        (set_syms syms (set_base (backfill ar (e_base e)) e))).
Proof.
  intros Hall Hw. unfold install_rules. destruct (intern_rules (e_syms e) all) as [syms rs] eqn:E.
  intros Hf. cbn in Hf. destruct (intern_rules_spec _ _ _ _ Hw Hf E) as (Hw' & He & Hc).
  assert (Hrs : Forall rule_ok rs).
  { apply Forall_forall. intros r Hr. destruct (erase_rules_in _ _ _ He Hr) as (r0 & Hr0 & E0).
    rewrite Forall_forall in Hall. by eapply rule_ok_erase; [|apply Hall]. }
  assert (Hid : map resolveAggSlots rs = rs).
  { clear -Hrs. induction Hrs as [|r rs [Hp _] _ IH]; [done|]. cbn. by rewrite resolve_id, IH. }
  rewrite Hid. exists syms, rs. split_and!; try done; [by eapply intern_rules_grows|].
  eapply intern_rules_lower; [exact Hw|exact Hf|exact E|apply intern_le_refl|done].
Qed.

(** What evaluation over the engine [e] computes: the perfect model of its
    rules and facts. *)
Definition strata_of (e : Engine) : string -> nat := stratum (default ∅ (e_strata e)).
Definition model (e : Engine) : Interp :=
  perfect (e_syms e) (e_ruleOrder e) (base_of (e_base e)) (strata_of e).

(** An engine ready for evaluation. *)
Definition loaded_ok (e : Engine) : Prop :=
  exists ar, prog_ok (e_ruleOrder e) (e_base e) (e_syms e) (strata_of e) ar /\
    eng_ok (e_ruleOrder e) (e_base e) (e_syms e) (e_opts e) (strata_of e) ar e.

Section install.
Context (e : Engine) (rules : list Rule) (ar strata : gmap string nat) (syms : interner) (rs : list Rule).
Hypothesis He : facts_ok e.
Hypothesis Hch : checked e rules (e_ruleOrder e ++ rules) ar strata.
Hypothesis Hw : intern_wf syms.
Hypothesis Hle : intern_le (e_syms e) syms.
Hypothesis Hrs : Forall rule_ok rs.
Hypothesis Her : map erase_rule rs = map erase_rule (e_ruleOrder e ++ rules).
Hypothesis Hc : forall r, r ∈ rs -> consts_valid syms (all_terms r).

Local Notation e' := (reset (set_program (rules_by_head rs) rs (agg_rels rs) strata
        (set_syms syms (set_base (backfill ar (e_base e)) e)))).

Lemma install_base rel r' : backfill ar (e_base e) !! rel = Some r' ->
  rel_wf r' /\ Forall (itup_valid syms) (tuples r') /\
  ((rarity r' < 0)%Z -> tuples r' = [] /\ idx r' = None) /\ row_len r' = default 0 (ar !! rel).
Proof.
  rewrite backfill_lookup. intros (r & Hr & ->)%fmap_Some.
  destruct (fo_base _ He _ _ Hr) as (W & V & Z).
  destruct (backfill_one_ok ar rel r (e_syms e) W V Z) as (W' & Ht & Z' & Hp & Hn). cbn zeta in *.
  split_and!; [done| |done|].
  - rewrite Ht. eapply Forall_impl; [exact V|]. intros x. by apply itup_valid_le.
  - destruct (Z.ltb_spec (rarity r) 0) as [?|Hge]; [by apply Hn|]. rewrite (Hp Hge).
    pose proof (ch_base _ _ _ _ _ Hch) as Hsub. rewrite map_subseteq_spec in Hsub.
    rewrite (Hsub rel (row_len r)); [done|]. unfold base_arities. rewrite lookup_omap, Hr. cbn.
    by destruct (Z.leb_spec 0 (rarity r)); [|lia].
Qed.

Lemma install_facts_ok : facts_ok e'.
Proof. split; cbn; [done| |done]. intros rel r Hr. by destruct (install_base _ _ Hr) as (? & ? & ? & _). Qed.

Lemma install_prog_ok : Forall well_ordered rs ->
  prog_ok rs (backfill ar (e_base e)) syms (stratum strata) (fun rel => default 0 (ar !! rel)).
Proof.
  intros Hwo. rewrite Forall_forall in Hwo. rewrite Forall_forall in Hrs. split.
  - done.
  - eapply stratification_erase; [exact Her|apply Hch].
  - intros r Hr. destruct (Hrs r Hr) as (? & ? & ?). apply ordered_of_safe; auto.
  - intros r Hr. destruct (Hrs r Hr) as (_ & Hs & _). apply Hs.
  - intros r Hr Ha t Ht Hv. destruct (Hrs r Hr) as (Hp & Hs & _). apply head_bound; try done.
    by rewrite Ha.
  - intros r a Hr Ha. destruct (Hrs r Hr) as (Hp & Hs & _). apply agg_of_safe; auto.
  - intros r t Hr Ht Hv. apply (Hc r Hr t); [|done]. apply elem_of_all_terms. by left.
  - intros r Hr. destruct (erase_rules_in _ _ _ Her Hr) as (r0 & Hr0 & E).
    rewrite (erase_head_rel _ _ E), (erase_head_arity _ _ E).
    rewrite (ch_arity _ _ _ _ _ Hch r0 (Head r0)); [done|done|by left|].
    rewrite <- (erase_head_rel _ _ E). destruct (Hrs r Hr) as (_ & Hs & _). apply Hs.
  - intros r l Hr Hl Hb. destruct (erase_rules_in _ _ _ Her Hr) as (r0 & Hr0 & E).
    destruct (erase_body_in _ _ _ E Hl) as (l0 & Hl0 & Hrel & _ & Hlen).
    rewrite <- Hrel, <- Hlen. rewrite <- Hrel in Hb.
    by rewrite (ch_arity _ _ _ _ _ Hch r0 l0 Hr0 (or_intror Hl0) Hb).
  - intros r l Hr Hl Hb. destruct (erase_rules_in _ _ _ Her Hr) as (r0 & Hr0 & E).
    destruct (erase_body_in _ _ _ E Hl) as (l0 & Hl0 & Hrel & _). rewrite <- Hrel in Hb |- *.
    destruct (ch_known _ _ _ _ _ Hch r0 l0 Hr0 Hl0 Hb) as [?|[r1 Hr1]];
      [left; by apply (head_rels_erase _ _ Her)|right].
    rewrite backfill_lookup, Hr1. by eexists.
  - intros rel r Hr. by destruct (install_base _ _ Hr) as (? & ? & _ & ?).
Qed.

Lemma install_loaded : e_recordProv e = false -> Forall well_ordered rs -> loaded_ok e'.
Proof.
  intros Hprov Hwo. exists (fun rel => default 0 (ar !! rel)). split; [by apply install_prog_ok|].
  split; cbn; try done. intros rel r Hr. exists r. split; [done|]. split; [|apply same_rel_refl].
  by destruct (install_base _ _ Hr).
Qed.

Lemma install_asserted rel u : asserted e' rel u <-> asserted e rel u.
Proof.
  unfold asserted. cbn. setoid_rewrite base_of_backfill.
  assert (Hrev : forall it, base_of (e_base e) rel it -> reveal syms it = reveal (e_syms e) it).
  { intros it (r & Hr & Hit). destruct (fo_base _ He _ _ Hr) as (_ & V & _).
    by eapply (reveal_valid_le (e_syms e)); [apply He|done|exact V|]. }
  split; intros (it & Hit & <-); exists it; (split; [done|]); [symmetry|]; by apply Hrev.
Qed.

End install.

(** ** Well-ordered rules up to symbols *)

Lemma neg_ordered_erase body : neg_ordered (map erase_lit body) <-> neg_ordered body.
Proof.
  split; intros H pre l post Hb Hn v Hv.
  - apply (bound_by_erase pre). apply (H (map erase_lit pre) (erase_lit l) (map erase_lit post)).
    + by rewrite Hb, map_app.
    + done.
    + by rewrite lit_vars_erase.
  - apply map_split in Hb as (pre0 & l0 & post0 & -> & -> & -> & ->).
    apply bound_by_erase. rewrite lit_vars_erase in Hv. by apply (H pre0 l0 post0).
Qed.

Lemma agg_once_erase r r' : erase_rule r' = erase_rule r -> agg_once r -> agg_once r'.
Proof.
  intros E H a p q t u Ha Hp Hq Ht Hu.
  assert (HA : map erase_term (Args (Head r')) = map erase_term (Args (Head r)))
    by exact (f_equal (fun r => Args (Head r)) E).
  assert (Hat : forall i x, Args (Head r') !! i = Some x ->
    exists y, Args (Head r) !! i = Some y /\ is_var_named (OutVar a) y = is_var_named (OutVar a) x).
  { intros i x Hi. assert (Hm : map erase_term (Args (Head r)) !! i = Some (erase_term x)).
    { by rewrite <- HA, list_lookup_fmap, Hi. }
    apply list_lookup_fmap_Some in Hm as (y & Hy & Hi'). exists y. split; [done|].
    injection Hy as Hv Hn _. unfold is_var_named. by rewrite Hv, Hn. }
  destruct (Hat p t Hp) as (t' & Hp' & Et), (Hat q u Hq) as (u' & Hq' & Eu).
  eapply (H a p q t' u'); [by rewrite <- (erase_agg _ _ E)|done|done|congruence|congruence].
Qed.

Lemma well_ordered_erase r r' : erase_rule r' = erase_rule r -> well_ordered r -> well_ordered r'.
Proof.
  intros E [H1 H2]. split; [|by eapply agg_once_erase].
  apply neg_ordered_erase. change (map erase_lit (Body r')) with (Body (erase_rule r')).
  rewrite E. by apply neg_ordered_erase.
Qed.

Record loads (rules : list Rule) (e e' : Engine) : Prop := {
  ld_rules : map erase_rule (e_ruleOrder e') = map erase_rule (e_ruleOrder e ++ rules);
  ld_lower : e_ruleOrder e' = map (lower_rule (e_syms e')) (e_ruleOrder e ++ rules);
  ld_facts : facts_ok e';
  ld_loaded : e_loaded e' = true;
  ld_opts : e_opts e' = e_opts e;
  ld_prov : e_recordProv e' = e_recordProv e;
  ld_dom : forall rel, is_Some (e_base e' !! rel) <-> is_Some (e_base e !! rel);
  ld_asserted : forall rel u, asserted e' rel u <-> asserted e rel u;
  ld_ready : e_recordProv e = false -> Forall well_ordered (e_ruleOrder e ++ rules) -> loaded_ok e'
}.

Lemma LoadRules_grows s name e e' : LoadRules s name e = (e', Ok tt) ->
  intern_le (e_syms e) (e_syms e').
Proof.
  unfold LoadRules. destruct (parseRules s name) as [rules|]; [|done]. unfold mbind, result_bind.
  destruct (check_program e rules) as [[[all ar] strata]|]; [|done]. intros [= <-].
  unfold install_rules. destruct (intern_rules _ _) eqn:E. cbn. by eapply intern_rules_grows.
Qed.

Lemma LoadRules_aux s name e e' :
  facts_ok e -> intern_fits (e_syms e') -> LoadRules s name e = (e', Ok tt) ->
  exists rules, parseRules s name = Ok rules /\ loads rules e e'.
Proof.
  intros He Hf. unfold LoadRules.
  destruct (parseRules s name) as [rules|] eqn:Hp; [|done]. unfold mbind, result_bind.
  destruct (check_program e rules) as [[[all ar] strata]|] eqn:Hc; [|done].
  intros [= <-]. exists rules. split; [done|].
  apply check_program_ok in Hc. pose proof (ch_all _ _ _ _ _ Hc) as ->.
  assert (Hall : Forall rule_ok (e_ruleOrder e ++ rules)).
  { apply Forall_app. split; [apply He|]. apply parseRules_ok in Hp.
    pose proof (ch_rules _ _ _ _ _ Hc) as Hr. rewrite Forall_forall in *. intros r Hin.
    split; auto. }
  destruct (install_shape _ ar strata e Hall (fo_syms _ He) Hf)
    as (syms & rs & Hw & Hle & Hrs & Her & Hcv & Hlow & ->).
  split; cbn; try done.
  - eapply install_facts_ok; eassumption.
  - intros rel. rewrite backfill_lookup. by rewrite fmap_is_Some.
  - intros rel u. eapply install_asserted; eassumption.
  - intros Hprov Hwo. eapply install_loaded; try eassumption.
    apply Forall_forall. intros r Hr. destruct (erase_rules_in _ _ _ Her Hr) as (r0 & Hr0 & E).
    rewrite Forall_forall in Hwo. eapply well_ordered_erase; [exact E|auto].
Qed.

(** ** Deciding well-ordering *)

(** The names bound by the relation literals of a body. *)
Definition bound_names (l : Literal) : list string :=
  if Neg l || isBuiltin (Rel l) then [] else lit_vars l.

Fixpoint neg_ordered_from (bound : list string) (body : list Literal) : bool :=
  match body with
  | [] => true
  | l :: body' =>
      (negb (Neg l) || forallb (fun v => existsb (str_eqb v) bound) (lit_vars l)) &&
      neg_ordered_from (bound_names l ++ bound) body'
  end.

Definition agg_once_b (r : Rule) : bool :=
  match Agg r with
  | None => true
  | Some a => length (List.filter (is_var_named (OutVar a)) (Args (Head r))) <=? 1
  end.

Definition well_ordered_b (r : Rule) : bool := neg_ordered_from [] (Body r) && agg_once_b r.

Lemma bound_by_names pre v : bound_by pre v <-> exists l, l ∈ pre /\ v ∈ bound_names l.
Proof.
  unfold bound_by, bound_names. split; intros (l & Hl & H); exists l.
  - destruct H as (-> & -> & H). done.
  - destruct (Neg l), (isBuiltin (Rel l)); cbn in H; try by apply not_elem_of_nil in H. done.
Qed.

Lemma neg_ordered_from_sound body : forall bound pre,
  (forall v, v ∈ bound -> bound_by pre v) -> neg_ordered_from bound body = true ->
  forall mid l post, body = mid ++ l :: post -> Neg l = true ->
  forall v, v ∈ lit_vars l -> bound_by (pre ++ mid) v.
Proof.
  induction body as [|l0 body IH]; intros bound pre Hb H mid l post Hsplit Hn v Hv;
    [by destruct mid|].
  cbn in H. apply andb_true_iff in H as [H1 H2]. destruct mid as [|m mid]; injection Hsplit as -> ->.
  - rewrite app_nil_r. rewrite Hn in H1. cbn in H1. rewrite forallb_forall in H1.
    apply list_elem_of_In in Hv. specialize (H1 v Hv). apply existsb_exists in H1 as (w & Hw & E).
    apply Stdlib.Strings.String.eqb_eq in E as ->. by apply Hb, list_elem_of_In.
  - replace (pre ++ m :: mid) with ((pre ++ [m]) ++ mid) by by rewrite <- app_assoc.
    eapply IH; [|exact H2|reflexivity|exact Hn|exact Hv].
    intros w [Hw|Hw]%elem_of_app.
    + apply bound_by_names. exists m. split; [|done]. apply elem_of_app. right. by apply list_elem_of_singleton.
    + apply Hb, bound_by_names in Hw as (l' & Hl' & Hw). apply bound_by_names. exists l'.
      split; [|done]. apply elem_of_app. by left.
Qed.

Lemma filter_two {A} (f : A -> bool) (l : list A) p q x y : p < q -> l !! p = Some x -> l !! q = Some y ->
  f x = true -> f y = true -> 2 <= length (List.filter f l).
Proof.
  intros Hlt Hp Hq Hx Hy. apply list_elem_of_split_length in Hp as (l1 & l2 & -> & ->).
  rewrite lookup_app_r in Hq by lia. replace (q - length l1) with (S (q - length l1 - 1)) in Hq by lia.
  cbn in Hq. apply list_elem_of_lookup_2 in Hq. rewrite List.filter_app. cbn. rewrite Hx.
  rewrite length_app. cbn.
  assert (Hin : In y (List.filter f l2)) by (apply List.filter_In; by rewrite <- list_elem_of_In).
  destruct (List.filter f l2); [done|]. cbn. lia.
Qed.

Lemma well_ordered_b_sound r : well_ordered_b r = true -> well_ordered r.
Proof.
  unfold well_ordered_b. intros [H1 H2]%andb_true_iff. split.
  - intros pre l post Hb Hn v Hv. apply (neg_ordered_from_sound (Body r) [] [] ltac:(intros ? ?%not_elem_of_nil; done) H1 pre l post Hb Hn v Hv).
  - intros a p q t u Ha Hp Hq Ht Hu. unfold agg_once_b in H2. rewrite Ha in H2. apply Nat.leb_le in H2.
    destruct (lt_eq_lt_dec p q) as [[Hlt|?]|Hlt]; [|done|].
    + pose proof (filter_two (is_var_named (OutVar a)) _ _ _ _ _ Hlt Hp Hq Ht Hu). lia.
    + pose proof (filter_two (is_var_named (OutVar a)) _ _ _ _ _ Hlt Hq Hp Hu Ht). lia.
Qed.
