(* ===== verification/DlQuerySpec.v ===== *)
(** The query surface: a query of a derived relation returns exactly the
    perfect model of the loaded program, sorted and without repetition, or
    fails for a stated reason; and so does the per-batch evaluation. *)
From S2P Require Import Prelude DlIntern DlSyntax DlLex DlParse DlSafe DlStrata DlRelation DlEngine.
From S2P Require Import DlJoin DlSemantics DlJoinSpec DlCone DlBottomUp DlBottomUpSpec.
From S2P Require Import DlComponentSpec DlTopDown DlQuery DlLoadSpec DlFactsSpec.

(** ** The order of query results *)

Lemma str_cmp_trans x y z c : Stdlib.Strings.String.compare x y = c ->
  Stdlib.Strings.String.compare y z = c -> c <> Eq -> Stdlib.Strings.String.compare x z = c.
Proof.
  assert (Hlt : forall x y z, Stdlib.Strings.String.compare x y = Lt ->
    Stdlib.Strings.String.compare y z = Lt -> Stdlib.Strings.String.compare x z = Lt).
  { clear. intros x y z H1 H2. pose proof (String.le_po) as [[_ Htr] Has].
    assert (L1 : String.le x y) by (unfold String.le, Stdlib.Strings.String.leb; by rewrite H1).
    assert (L2 : String.le y z) by (unfold String.le, Stdlib.Strings.String.leb; by rewrite H2).
    pose proof (Htr _ _ _ L1 L2) as L3. destruct (Stdlib.Strings.String.compare x z) eqn:E; [|done|].
    - apply Stdlib.Strings.String.compare_eq_iff in E as ->.
      rewrite Stdlib.Strings.String.compare_antisym, H1 in H2. done.
    - unfold String.le, Stdlib.Strings.String.leb in L3. by rewrite E in L3. }
  intros H1 H2 Hc. destruct c; [done|by eapply Hlt|].
  rewrite Stdlib.Strings.String.compare_antisym in H1, H2 |- *.
  assert (H : Stdlib.Strings.String.compare z x = Lt); [|by rewrite H].
  apply (Hlt _ y); [by destruct (Stdlib.Strings.String.compare z y)|
    by destruct (Stdlib.Strings.String.compare y x)].
Qed.

(** One step of the comparison, without the equality test. *)
Lemma compareTuples_cons x a y b :
  compareTuples (x :: a) (y :: b) =
    match Stdlib.Strings.String.compare x y with Eq => compareTuples a b | c => c end.
Proof.
  cbn [compareTuples]. unfold Stdlib.Strings.String.ltb.
  destruct (Stdlib.Strings.String.eqb_spec x y) as [->|Hne].
  - assert (E : Stdlib.Strings.String.compare y y = Eq).
    { pose proof (Stdlib.Strings.String.compare_antisym y y) as H.
      by destruct (Stdlib.Strings.String.compare y y). }
    by rewrite E.
  - destruct (Stdlib.Strings.String.compare x y) eqn:E; [|done..].
    by apply Stdlib.Strings.String.compare_eq_iff in E.
Qed.

Lemma compareTuples_antisym a b : compareTuples a b = CompOpp (compareTuples b a).
Proof.
  revert b. induction a as [|x a IH]; intros [|y b]; [done..|].
  rewrite !compareTuples_cons, Stdlib.Strings.String.compare_antisym, IH.
  by destruct (Stdlib.Strings.String.compare y x).
Qed.

Lemma compareTuples_eq a b : compareTuples a b = Eq -> a = b.
Proof.
  revert b. induction a as [|x a IH]; intros [|y b]; try done. rewrite compareTuples_cons.
  destruct (Stdlib.Strings.String.compare x y) eqn:E; [|done..].
  apply Stdlib.Strings.String.compare_eq_iff in E as ->. intros H. by rewrite (IH b).
Qed.

Lemma compareTuples_trans a b c : compareTuples a b = Lt -> compareTuples b c = Lt ->
  compareTuples a c = Lt.
Proof.
  revert b c. induction a as [|x a IH]; intros [|y b] [|z c]; try done.
  rewrite !compareTuples_cons.
  destruct (Stdlib.Strings.String.compare x y) eqn:E1; [| |done].
  - apply Stdlib.Strings.String.compare_eq_iff in E1 as ->.
    destruct (Stdlib.Strings.String.compare y z); [apply IH|done..].
  - intros _. destruct (Stdlib.Strings.String.compare y z) eqn:E2; [| |done]; intros _.
    + apply Stdlib.Strings.String.compare_eq_iff in E2 as ->. by rewrite E1.
    + by rewrite (str_cmp_trans x y z Lt).
Qed.

#[global] Instance tuple_le_total : Total tuple_le.
Proof.
  intros a b. unfold tuple_le. rewrite (compareTuples_antisym b a).
  destruct (compareTuples a b); auto.
Qed.

#[global] Instance tuple_le_trans : Transitive tuple_le.
Proof.
  intros a b c. unfold tuple_le. intros H1 H2 H3.
  destruct (compareTuples a b) eqn:E1; [| |done].
  - apply compareTuples_eq in E1 as ->. done.
  - destruct (compareTuples b c) eqn:E2; [| |done].
    + apply compareTuples_eq in E2 as ->. congruence.
    + rewrite (compareTuples_trans a b c) in H3 by done. done.
Qed.

#[global] Instance tuple_le_antisymm : AntiSymm (=) tuple_le.
Proof.
  intros a b. unfold tuple_le. rewrite (compareTuples_antisym b a).
  destruct (compareTuples a b) eqn:E; intros H1 H2; [by apply compareTuples_eq|done..].
Qed.

(** ** Errors evaluation can end with *)

(** The errors bottom-up evaluation over [e] reports, each with the state of
    affairs that causes it. *)
Inductive eval_error (e : Engine) : DlError -> Prop :=
| ee_max rel l : NoDup l -> (forall t, t ∈ l -> model e rel t) ->
    (MaxTuples (e_opts e) < Z.of_nat (length l))%Z -> eval_error e (EMaxTuples rel)
| ee_rounds rel l : NoDup l -> (forall x, x ∈ l -> model e (fst x) (snd x)) ->
    (MaxRounds (e_opts e) < Z.of_nat (length l))%Z -> eval_error e (ENoFixpoint rel)
| ee_builtin r l a b err : r ∈ e_ruleOrder e -> l ∈ Body r -> isBuiltin (Rel l) = true ->
    evalBuiltin (Rel l) a b (e_syms e) = Err err -> eval_error e err
| ee_agg r a sg x y : r ∈ e_ruleOrder e -> Agg r = Some a ->
    body_holds (e_syms e) (model e) (model e) sg (Body r) ->
    str_eqb (Fn a) "count" = false -> decodeIntSym (sg (inSlot a)) = None ->
    eval_error e (EAggNonInt x y)
| ee_panic r a : r ∈ e_ruleOrder e -> Agg r = Some a -> strs (e_syms e) = [] ->
    eval_error e (EPanic "index out of range").

#[global] Instance eval_error_ok e ar :
  prog_ok (e_ruleOrder e) (e_base e) (e_syms e) (strata_of e) ar ->
  EvalOk (e_ruleOrder e) (e_base e) (e_syms e) (e_opts e) (strata_of e) ar (eval_error e).
Proof.
  intros H. split; [done|..].
  - intros. by eapply ee_max.
  - intros. by eapply ee_rounds.
  - intros. by eapply ee_builtin.
  - intros. by eapply ee_agg.
  - intros. by eapply ee_panic.
Qed.

(** ** Query *)

(** [e'] is [e] after some evaluation. *)
Definition follows (e e' : Engine) : Prop :=
  exists ar, prog_ok (e_ruleOrder e) (e_base e) (e_syms e) (strata_of e) ar /\
    eng_ok (e_ruleOrder e) (e_base e) (e_syms e) (e_opts e) (strata_of e) ar e'.

Lemma loaded_follows e : loaded_ok e -> follows e e.
Proof. done. Qed.

(** [out] is the content of [goal] in the model, as strings, in order. *)
Record answers (e : Engine) (goal : string) (out : list Tuple) : Prop := {
  an_sorted : StronglySorted tuple_le out;
  an_nodup : NoDup out;
  an_model : forall u, u ∈ out <-> exists t, model e goal t /\ reveal (e_syms e) t = u
}.

Lemma bindsOf_free n in_ : bindsOf (replicate n "") in_ = (free_binds n, in_).
Proof. unfold free_binds. induction n as [|n IH]; [done|]. cbn. by rewrite IH. Qed.

Lemma anyBound_free n : anyBound (free_binds n) = false.
Proof. unfold anyBound, free_binds. by induction n. Qed.

Lemma set_syms_id e : set_syms (e_syms e) e = e.
Proof. by destruct e. Qed.

Lemma query_wp e e' goal fuel :
  follows e e' -> goal ∈ head_rels (e_ruleOrder e) ->
  wp (eval_error e) (Query fuel goal) (fun out s => follows e (fst s) /\ answers e goal out) (e', tt).
Proof.
  intros (ar & Hp & He) Hg. pose proof (eval_error_ok e ar Hp) as HC.
  unfold Query. apply wp_bind, wp_getE, wp_bind. cbn [fst].
  rewrite (arityOf_spec _ _ _ _ _ _ _ e' goal He Hg). apply wp_lift; [|done]. intros a [= <-].
  destruct (Z.ltb_spec (Z.of_nat (ar goal)) 0) as [|_]; [lia|]. rewrite Nat2Z.id.
  unfold QueryPattern. apply wp_bind, wp_getE, wp_bind. cbn [fst].
  assert (Hready : ready e' goal (length (replicate (ar goal) "")) = Ok tt).
  { unfold ready. rewrite (eo_loaded _ _ _ _ _ _ _ He). cbn [negb andb].
    rewrite (arityOf_spec _ _ _ _ _ _ _ e' goal He Hg). cbn. rewrite length_replicate, Z.eqb_refl.
    by rewrite andb_false_r. }
  rewrite Hready. apply wp_lift; [|done]. intros [] _. apply wp_bind.
  unfold wp at 1, with_syms. rewrite bindsOf_free. rewrite set_syms_id. apply wp_bind, wp_getE. cbn [fst].
  assert (Hbu : useBottomUp e' goal (free_binds (ar goal)) = true).
  { unfold useBottomUp. rewrite (eo_loaded _ _ _ _ _ _ _ He), anyBound_free.
    rewrite (bool_decide_eq_true_2 _ (eo_strata _ _ _ _ _ _ _ He)).
    rewrite (has_rules_heads e' (e_ruleOrder e)) by apply He.
    by rewrite (bool_decide_eq_true_2 _ Hg). }
  rewrite Hbu. apply wp_bind.
  eapply wp_mono; [|by eapply (solveBottomUp_spec _ _ _ _ _ _ _ e' tt goal)].
  intros ts [e1 x] (Hx & He1 & Hnd & Hts). cbn [fst snd] in *. apply wp_bind, wp_getE, wp_ret. cbn [fst].
  split; [by exists ar|]. rewrite (eo_syms _ _ _ _ _ _ _ He1).
  assert (Hperm : sortTuples (map (reveal (e_syms e)) ts) ≡ₚ map (reveal (e_syms e)) ts)
    by apply merge_sort_Permutation.
  split.
  - unfold sortTuples. apply (StronglySorted_merge_sort tuple_le).
  - rewrite Hperm. apply NoDup_fmap_2_strong; [|done]. intros t1 t2 H1%Hts H2%Hts Hr.
    eapply reveal_inj; [apply Hp|..|exact Hr];
      by eapply (perfect_valid _ _ _ _ _ _ _).
  - intros u. rewrite Hperm, list_elem_of_fmap. setoid_rewrite Hts. unfold model. naive_solver.
Qed.

(** ** Eval *)

Lemma query_goals_wp e fuel gs : forall e' out,
  follows e e' -> (forall g, g ∈ gs -> g ∈ head_rels (e_ruleOrder e)) ->
  wp (eval_error e) (query_goals fuel gs out) (fun out' s => follows e (fst s) /\
    (forall g, g ∈ gs -> exists ts, out' !! g = Some ts /\ answers e g ts) /\
    (forall g, g ∉ gs -> out' !! g = out !! g)) (e', tt).
Proof.
  induction gs as [|g gs IH]; intros e' out Hf Hg; cbn [query_goals].
  - apply wp_ret. split_and!; [done|intros g Hg'; by apply not_elem_of_nil in Hg'|done].
  - apply wp_bind. eapply wp_mono; [|apply query_wp; [exact Hf|apply Hg; left]].
    intros ts [e1 []] [Hf1 Ha]. cbn [fst] in Hf1.
    eapply wp_mono; [|apply IH; [exact Hf1|intros g' ?; apply Hg; by right]].
    intros out' [e2 []] (Hf2 & Hin & Hout). split_and!; [done| |].
    + intros g' Hg'. destruct (decide (g' ∈ gs)) as [?|Hn]; [by apply Hin|].
      apply elem_of_cons in Hg' as [->|?]; [|done]. exists ts. by rewrite Hout, lookup_insert_eq.
    + intros g' [Hne Hni]%not_elem_of_cons. by rewrite Hout, lookup_insert_ne.
Qed.

Lemma load_facts_aux p f e :
  load_facts p f (New (mkOptions false 0 0 false)) = (e, Ok tt) -> intern_fits (e_syms e) ->
  exists rules, parseRules (src p) (pname p) = Ok rules /\
    map erase_rule (e_ruleOrder e) = map erase_rule rules /\
    (e_ruleOrder e = map (lower_rule (e_syms e)) rules /\ facts_ok e) /\
    (forall rel u, asserted e rel u <-> supplied f rel u) /\
    (Forall well_ordered rules -> loaded_ok e).
Proof.
  unfold load_facts. intros (e1 & [] & H1 & H2)%ST_bind_ok Hf.
  assert (Hle : intern_le (e_syms e1) (e_syms e)) by by eapply LoadRules_grows.
  assert (Ha : adds (fun rel => is_Some (rels f !! rel)) (supplied f) (New (mkOptions false 0 0 false)) e1).
  { eapply load_relations_adds; [apply New_facts_ok|by eapply intern_fits_le|exact H1]. }
  destruct Ha as [Ho (C1 & C2 & C3 & C4) _ Hfacts].
  destruct (LoadRules_aux _ _ _ _ Ho Hf H2) as (rules & Hp & L). exists rules.
  assert (Hord : e_ruleOrder e1 = []) by by rewrite C3.
  pose proof (ld_rules _ _ _ L) as Hr. rewrite Hord in Hr.
  pose proof (ld_lower _ _ _ L) as Hlow. rewrite Hord in Hlow.
  split_and!; [done|done|done|apply L| |].
  - intros rel u. rewrite (ld_asserted _ _ _ L), Hfacts. split; [|by right].
    intros [(it & (r & Hb & _) & _)|?]; done.
  - intros Hwo. apply (ld_ready _ _ _ L); [by rewrite C2|by rewrite Hord].
Qed.

Lemma heads_erase e rules g : map erase_rule (e_ruleOrder e) = map erase_rule rules ->
  g ∈ head_rels rules -> g ∈ head_rels (e_ruleOrder e).
Proof. intros H. by apply head_rels_erase. Qed.

(** ** Properties *)

(** C2: a query of a derived relation, on an engine that follows a loaded
    program, answers with exactly the relation's content in the perfect model
    of the rules and facts, in tuple order and without repetition, and leaves
    the engine fit for the next query; any error it returns is one of the
    budget, type or panic conditions of [eval_error]. *)
Theorem Query_perfect e e' goal fuel :
  follows e e' -> goal ∈ head_rels (e_ruleOrder e) ->
  match Query fuel goal (e', tt) with
  | ((e1, _), Ok out) => follows e e1 /\ answers e goal out
  | (_, Err err) => eval_error e err
  end.
Proof.
  intros Hf Hg. pose proof (query_wp e e' goal fuel Hf Hg) as H. unfold wp in H.
  by destruct (Query fuel goal (e', tt)) as [[e1 []] [out|err]].
Qed.

(** The facts a batch supplies are, canonicalised, exactly the facts the
    loaded engine holds, and an engine that accepted a well-ordered rule file
    over them is ready for evaluation. *)
Theorem load_facts_ready p f e rules :
  load_facts p f (New (mkOptions false 0 0 false)) = (e, Ok tt) -> intern_fits (e_syms e) ->
  parseRules (src p) (pname p) = Ok rules ->
  (forall rel u, asserted e rel u <-> supplied f rel u) /\
  (Forall well_ordered rules -> loaded_ok e).
Proof.
  intros H Hf Hp. destruct (load_facts_aux _ _ _ H Hf) as (rules' & Hp' & _ & _ & Ha & Hl).
  rewrite Hp in Hp'. by injection Hp' as <-.
Qed.

(** The interpretation that holds exactly the facts [F], over the symbols of a
    table. *)
Definition holding (syms : interner) (F : string -> Tuple -> Prop) : Interp :=
  fun rel t => itup_valid syms t /\ F rel (reveal syms t).

(** [out] is the content of [goal] in the perfect model of [rules] over the
    facts [F], in tuple order and without repetition; the symbols of [syms],
    one for each string, stand for the strings of both. *)
Record answers_program (syms : interner) (rules : list Rule) (F : string -> Tuple -> Prop)
    (goal : string) (out : list Tuple) : Prop := {
  ap_syms : intern_wf syms;
  ap_sorted : StronglySorted tuple_le out;
  ap_nodup : NoDup out;
  ap_model : exists st, is_stratification rules st /\ forall u, u ∈ out <->
    exists t, perfect syms (map (lower_rule syms) rules) (holding syms F) st goal t /\ reveal syms t = u
}.

Lemma answers_answers_program e rules F goal out :
  facts_ok e -> loaded_ok e -> e_ruleOrder e = map (lower_rule (e_syms e)) rules ->
  map erase_rule (e_ruleOrder e) = map erase_rule rules ->
  (forall rel u, asserted e rel u <-> F rel u) ->
  answers e goal out -> answers_program (e_syms e) rules F goal out.
Proof.
  intros Hf (ar & Hp & _) Hlow Her HF [H1 H2 H3]. split; [apply Hf|done|done|].
  exists (strata_of e). split; [eapply stratification_erase; [exact (eq_sym Her)|apply Hp]|].
  assert (Hb : forall rel t, base_of (e_base e) rel t <-> holding (e_syms e) F rel t).
  { intros rel t. unfold holding. rewrite <- HF. split.
    - intros Ht. split; [|by exists t]. destruct Ht as (r & Hr & Hin).
      destruct (fo_base _ Hf _ _ Hr) as (_ & V & _). rewrite Forall_forall in V. by apply V.
    - intros (Hv & it & Hit & Hrev). assert (Hv' : itup_valid (e_syms e) it).
      { destruct Hit as (r & Hr & Hin). destruct (fo_base _ Hf _ _ Hr) as (_ & V & _).
        rewrite Forall_forall in V. by apply V. }
      by rewrite <- (reveal_inj (e_syms e) it t (fo_syms _ Hf) Hv' Hv Hrev). }
  intros u. rewrite H3. unfold model. rewrite Hlow.
  by setoid_rewrite (perfect_base_ext _ _ _ _ _ Hb).
Qed.

(** C1: Program.Eval of a well-ordered rule file returns, for every goal, the
    sorted content of the goal in the perfect model of the rules the file
    parses to over the facts that were supplied, and of nothing else, or fails
    with an error whose cause [eval_error] states.  [e] is the engine the
    facts and the rules were loaded into; only its symbol table, which the
    model is written over, appears in the answer. *)
Theorem Eval_perfect fuel p f e rules :
  load_facts p f (New (mkOptions false 0 0 false)) = (e, Ok tt) -> intern_fits (e_syms e) ->
  parseRules (src p) (pname p) = Ok rules -> Forall well_ordered rules ->
  (forall g, g ∈ Goals f -> g ∈ head_rels rules) ->
  match Eval_ fuel p f with
  | Ok (out, _) => forall g, g ∈ Goals f -> exists ts, out !! g = Some ts /\
      answers_program (e_syms e) rules (supplied f) g ts
  | Err err => eval_error e err
  end.
Proof.
  intros H Hf Hp Hwo Hg. destruct (load_facts_aux _ _ _ H Hf) as (rules' & Hp' & Her & [Hlow Hok] & Ha & Hl).
  rewrite Hp in Hp'. injection Hp' as <-. unfold Eval_. rewrite H.
  pose proof (query_goals_wp e fuel (Goals f) e ∅ (loaded_follows _ (Hl Hwo))) as Hw.
  unfold wp in Hw. specialize (Hw ltac:(intros g ?; by eapply heads_erase, Hg)).
  destruct (query_goals fuel (Goals f) ∅ (e, tt)) as [[e1 []] [out|err]]; [|done].
  destruct Hw as (_ & Hin & _). intros g Hgg. destruct (Hin g Hgg) as (ts & Hts & Hans).
  exists ts. split; [done|]. by apply answers_answers_program; auto.
Qed.

(** A program with recursion, negation and a count. *)
Definition demo_src : list ascii := str_bytes
"reach(X, Y) :- edge(X, Y).
reach(X, Z) :- reach(X, Y), edge(Y, Z).
inner(X) :- edge(X, Y).
leaf(X) :- node(X), not inner(X).
fan(X, N) :- reach(X, Y), count(N, Y).".

Definition demo_program : Program := mkProgram demo_src "demo.dl" ["edge"; "node"].
Definition demo_facts : FactRelations :=
  Add_ "node" [["a"]; ["b"]; ["c"]] (Add_ "edge" [["a"; "b"]; ["b"; "c"]]
    (NewFactRelations ["leaf"; "reach"; "fan"])).
Definition demo_engine : Engine := fst (load_facts demo_program demo_facts (New (mkOptions false 0 0 false))).
Definition demo_rule_list : list Rule :=
  match parseRules demo_src "demo.dl" with Ok rs => rs | Err _ => [] end.

Definition demo_load_check : bool :=
  match load_facts demo_program demo_facts (New (mkOptions false 0 0 false)),
        parseRules demo_src "demo.dl" with
  | (_, Ok _), Ok rs => forallb well_ordered_b rs && (length rs =? 5)
  | _, _ => false
  end.

Lemma demo_loads :
  load_facts demo_program demo_facts (New (mkOptions false 0 0 false)) = (demo_engine, Ok tt) /\
  intern_fits (e_syms demo_engine) /\
  parseRules (src demo_program) (pname demo_program) = Ok demo_rule_list /\
  Forall well_ordered demo_rule_list.
Proof.
  assert (Hc : demo_load_check = true) by (vm_compute; reflexivity).
  unfold demo_load_check in Hc. unfold demo_engine, demo_rule_list. cbn [src pname demo_program].
  destruct (load_facts demo_program demo_facts _) as [e [[]|]] eqn:E; [|done].
  destruct (parseRules demo_src "demo.dl") as [rs|]; [|done]. apply andb_true_iff in Hc as [Hc _].
  split_and!; [done| |done|].
  - change e with (fst (e, Ok (E:=DlError) tt)). rewrite <- E. vm_compute. discriminate.
  - apply Forall_forall. intros r Hr. apply well_ordered_b_sound.
    rewrite forallb_forall in Hc. by apply Hc, list_elem_of_In.
Qed.

Lemma demo_goals g : g ∈ Goals demo_facts -> g ∈ head_rels demo_rule_list.
Proof.
  intros Hg. cbn in Hg. rewrite !elem_of_cons, elem_of_nil in Hg.
  destruct Hg as [->|[->|[->|[]]]]; apply (bool_decide_unpack _); vm_compute; reflexivity.
Qed.

Lemma demo_follows : follows demo_engine demo_engine.
Proof.
  destruct demo_loads as (H & Hf & Hp & Hwo).
  destruct (load_facts_aux _ _ _ H Hf) as (rules & Hp' & _ & _ & _ & Hl).
  rewrite Hp in Hp'. injection Hp' as <-. apply loaded_follows, Hl, Hwo.
Qed.

Lemma demo_leaf : "leaf" ∈ head_rels (e_ruleOrder demo_engine).
Proof.
  destruct demo_loads as (H & Hf & Hp & Hwo).
  destruct (load_facts_aux _ _ _ H Hf) as (rules & Hp' & Her & _ & _ & _).
  rewrite Hp in Hp'. injection Hp' as <-.
  eapply heads_erase; [exact Her|apply demo_goals; left].
Qed.

Lemma demo_query : snd (Query 1 "leaf" (demo_engine, tt)) = Ok [["c"]].
Proof. vm_compute; reflexivity. Qed.

(** What a postcondition gives for a result known to be a value. *)
Lemma result_ok {S W A E} (q : (S * W) * result E A) (out : A) (P : S -> A -> Prop) (Q : E -> Prop) :
  match q with ((s, _), Ok a) => P s a | (_, Err err) => Q err end ->
  snd q = Ok out -> exists s, P s out.
Proof.
  destruct q as [[s w] [a|err]]; cbn; intros H E0; [|discriminate E0].
  injection E0 as ->. by exists s.
Qed.

Lemma Query_perfect_witness :
  exists e1, follows demo_engine e1 /\ answers demo_engine "leaf" [["c"]].
Proof.
  exact (result_ok (Query 1 "leaf" (demo_engine, tt)) [["c"]]
           (fun e1 out => follows demo_engine e1 /\ answers demo_engine "leaf" out) (eval_error demo_engine)
           (Query_perfect demo_engine demo_engine "leaf" 1 demo_follows demo_leaf) demo_query).
Defined.

Lemma load_facts_ready_witness :
  asserted demo_engine "node" ["a"] /\ loaded_ok demo_engine.
Proof.
  destruct demo_loads as (H & Hf & Hp & Hwo).
  destruct (load_facts_ready _ _ _ _ H Hf Hp) as [Ha Hl]. split; [|by apply Hl].
  apply Ha. exists [["a"]; ["b"]; ["c"]], ["a"]. split_and!; [vm_compute; reflexivity|left|].
  vm_compute; reflexivity.
Defined.

Lemma Eval_perfect_witness :
  match Eval_ 1 demo_program demo_facts with
  | Ok (out, _) => out !! "fan" = Some [["a"; "2"]; ["b"; "1"]] /\
      answers_program (e_syms demo_engine) demo_rule_list (supplied demo_facts) "fan" [["a"; "2"]; ["b"; "1"]]
  | Err _ => False
  end.
Proof.
  destruct demo_loads as (H & Hf & Hp & Hwo).
  pose proof (Eval_perfect 1 _ _ _ _ H Hf Hp Hwo demo_goals) as HE.
  assert (Hout : (match Eval_ 1 demo_program demo_facts with
    | Ok (out, _) => out !! "fan" | Err _ => None end) = Some [["a"; "2"]; ["b"; "1"]])
    by (vm_compute; reflexivity).
  destruct (Eval_ 1 demo_program demo_facts) as [[out e']|err]; [|discriminate Hout].
  split; [exact Hout|]. destruct (HE "fan") as (ts & Hts & Ha); [right; right; left|].
  rewrite Hout in Hts. by injection Hts as <-.
Defined.
