(* ===== verification/DlBoundary.v ===== *)
(** Behaviours at the edges of the engine, each by running it: where a rule
    that loads is not answered as it reads, and where a call panics. *)
From S2P Require Import Prelude DlIntern DlSyntax DlLex DlParse DlSafe DlStrata DlRelation DlEngine.
From S2P Require Import DlJoin DlBottomUp DlTopDown DlQuery.

(** One batch: facts, a rule file, one goal. *)
Definition eval_goal (rules : string) (facts : list (string * list Tuple)) (goal : string)
    : result DlError (list Tuple) :=
  match Eval_ 20 (mkProgram (str_bytes rules) "t.dl" [])
          (foldr (fun '(r, ts) f => Add_ r ts f) (NewFactRelations [goal]) facts) with
  | Ok (out, _) => Ok (default [] (out !! goal))
  | Err e => Err e
  end.

(** A negated literal written before the literal that binds its variable
    loads without complaint and is evaluated with the variable free: the same
    two rules, literals swapped, give different answers. *)
Theorem early_negation_loses_answers :
  let facts := [("q", [["1"]; ["2"]]); ("r", [["1"]])] in
  eval_goal "p(X) :- q(X), not r(X)." facts "p" = Ok [["2"]] /\
  eval_goal "p(X) :- not r(X), q(X)." facts "p" = Ok [].
Proof. split; vm_compute; reflexivity. Qed.

(** An aggregate over two groups of integers panics while no string has
    been interned, and answers once one has. *)
Theorem aggregate_without_strings_panics :
  let rules := "p(X, M) :- q(X, V), min(M, V)." in
  eval_goal rules [("q", [["1"; "5"]; ["2"; "7"]])] "p" = Err (EPanic "index out of range") /\
  eval_goal rules [("q", [["1"; "5"]; ["a"; "7"]])] "p" = Ok [["1"; "5"]; ["a"; "7"]].
Proof. split; vm_compute; reflexivity. Qed.

(** A relation asserted empty and read by no rule keeps arity -1, so that
    querying it asks for a slice of negative length and panics; asserted empty
    and read by a rule, it answers with no tuples. *)
Theorem query_of_empty_relation_panics :
  eval_goal "p(X) :- q(X)." [("q", [["1"]]); ("z", [])] "z" = Err (EPanic "makeslice: len out of range") /\
  eval_goal "p(X) :- q(X), not z(X)." [("q", [["1"]]); ("z", [])] "z" = Ok [].
Proof. split; vm_compute; reflexivity. Qed.

(** An aggregate output written twice in the head fills only its last
    position; the first keeps symbol 0, the first string ever interned. *)
Theorem aggregate_output_twice :
  let facts := [("q", [["a"; "5"]; ["a"; "7"]])] in
  eval_goal "p(X, M) :- q(X, V), max(M, V)." facts "p" = Ok [["a"; "7"]] /\
  eval_goal "p(X, M, M) :- q(X, V), max(M, V)." facts "p" = Ok [["a"; "a"; "7"]].
Proof. split; vm_compute; reflexivity. Qed.

(** The anonymous variable is named _1, so that it joins with a variable
    the rule itself calls _1. *)
Theorem anonymous_variable_collides :
  let facts := [("q", [["u"; "1"]; ["v"; "2"]]); ("r", [["2"]])] in
  eval_goal "p(X) :- q(X, _), r(Y)." facts "p" = Ok [["u"]; ["v"]] /\
  eval_goal "p(X) :- q(X, _), r(_1)." facts "p" = Ok [["v"]].
Proof. split; vm_compute; reflexivity. Qed.
