(* ===== verification/VgValue.v ===== *)
(** The value lattice of internal/valuegraph (value.go): the strings an
    expression can take, as literals, concatenations, unions of alternatives
    and stopped resolutions. *)
From S2P Require Import Prelude DlStrata.

(** * Data *)

Inductive Kind : Type := KindLiteral | KindConcat | KindUnion | KindOpaque.

#[global] Instance Kind_eq_dec : EqDecision Kind.
Proof. solve_decision. Defined.

Definition ReasonUnsupported : string := "unsupported".

Record Origin : Type := mkOrigin { Reason : string; oFile : string; oLine : Z; oText : string }.

#[global] Instance Origin_eq_dec : EqDecision Origin.
Proof. solve_decision. Defined.

(** The zero Origin. *)
Definition Origin0 : Origin := mkOrigin "" "" 0 "".

(** Value: a tagged struct; [Parts] is meaningful for concats and unions. *)
Inductive Value : Type :=
  mkValue (k : Kind) (text : string) (parts : list Value) (origin src : Origin)
    (crossings : list Origin).

Definition vKind (v : Value) : Kind := let 'mkValue k _ _ _ _ _ := v in k.
Definition vText (v : Value) : string := let 'mkValue _ t _ _ _ _ := v in t.
Definition Parts (v : Value) : list Value := let 'mkValue _ _ p _ _ _ := v in p.
Definition vOrigin (v : Value) : Origin := let 'mkValue _ _ _ o _ _ := v in o.
Definition Src (v : Value) : Origin := let 'mkValue _ _ _ _ s _ := v in s.
Definition Crossings (v : Value) : list Origin := let 'mkValue _ _ _ _ _ c := v in c.

Definition with_text (t : string) (v : Value) : Value :=
  mkValue (vKind v) t (Parts v) (vOrigin v) (Src v) (Crossings v).
Definition with_crossings (c : list Origin) (v : Value) : Value :=
  mkValue (vKind v) (vText v) (Parts v) (vOrigin v) (Src v) c.

(** Induction through the parts. *)
Lemma Value_ind' (P : Value -> Prop) :
  (forall k t ps o s c, Forall P ps -> P (mkValue k t ps o s c)) -> forall v, P v.
Proof.
  intros H. fix IH 1. intros [k t ps o s c]. apply H.
  induction ps as [|p ps IHps]; constructor; [apply IH|exact IHps].
Qed.

(** * Constructors *)

Definition DefaultMaxStrings : nat := 32.
Definition wildcard : string := "*".

Definition Literal_ (text : string) : Value := mkValue KindLiteral text [] Origin0 Origin0 [].

Definition Opaque_ (o : Origin) : Value :=
  mkValue KindOpaque "" []
    (if str_eqb (Reason o) "" then mkOrigin ReasonUnsupported (oFile o) (oLine o) (oText o) else o)
    Origin0 [].

Definition is_kind (k : Kind) (v : Value) : bool := bool_decide (vKind v = k).

(** The first loop of Concat and of Union: splice the parts of nested ones. *)
Definition flatten (k : Kind) (parts : list Value) : list Value :=
  concat (map (fun p => if is_kind k p then Parts p else [p]) parts).

(** One step of the second loop of Concat, on [merged]. *)
Definition merge_step (merged : list Value) (p : Value) : list Value :=
  if is_kind KindLiteral p then
    if str_eqb (vText p) "" then merged
    else
      match last merged with
      | Some m =>
          if is_kind KindLiteral m
          then removelast merged ++ [with_text (vText m +:+ vText p) m]
          else merged ++ [p]
      | None => merged ++ [p]
      end
  else merged ++ [p].

Definition Concat_ (parts : list Value) : Value :=
  match fold_left merge_step (flatten KindConcat parts) [] with
  | [] => Literal_ ""
  | [v] => v
  | merged => mkValue KindConcat "" merged Origin0 Origin0 []
  end.

(** strings.Join *)
Fixpoint join_str (sep : string) (ss : list string) : string :=
  match ss with
  | [] => ""
  | [s] => s
  | s :: ss' => s +:+ sep +:+ join_str sep ss'
  end.

(** Value.String *)
Fixpoint String_ (v : Value) : string :=
  let 'mkValue k t ps o _ _ := v in
  match k with
  | KindLiteral => t
  | KindConcat => join_str "" (map String_ ps)
  | KindUnion => "(" +:+ join_str "|" (map String_ ps) +:+ ")"
  | KindOpaque => "<" +:+ Reason o +:+ ":" +:+ oText o +:+ ">"
  end.

(** The origins of [os] not in [seen], each once, in order. *)
Fixpoint new_origins (seen : list Origin) (os : list Origin) : list Origin :=
  match os with
  | [] => []
  | o :: os' =>
      if bool_decide (o ∈ seen) then new_origins seen os' else o :: new_origins (o :: seen) os'
  end.

Definition mergeCrossings (a b : list Origin) : list Origin :=
  match b with [] => a | _ => new_origins [] (a ++ b) end.

(** The dedup loop of Union: a value whose rendering was seen only adds its
    crossings to the one kept. *)
Fixpoint add_alt (out : list Value) (p : Value) : list Value :=
  match out with
  | [] => [p]
  | q :: out' =>
      if str_eqb (String_ q) (String_ p)
      then with_crossings (mergeCrossings (Crossings q) (Crossings p)) q :: out'
      else q :: add_alt out' p
  end.

Definition value_le (a b : Value) : Prop := String.le (String_ a) (String_ b).

#[global] Instance value_le_dec : RelDecision value_le.
Proof. intros a b. unfold value_le. apply _. Defined.

Definition Union_ (parts : list Value) : Value :=
  match merge_sort value_le (fold_left add_alt (flatten KindUnion parts) []) with
  | [] => Opaque_ (mkOrigin ReasonUnsupported "" 0 "empty union")
  | [v] => v
  | out => mkValue KindUnion "" out Origin0 Origin0 []
  end.

(** * Enumeration *)

(** strings.HasSuffix / HasPrefix / TrimPrefix of the one-byte wildcard *)
Fixpoint ends_star (s : string) : bool :=
  match s with
  | String.EmptyString => false
  | String.String c String.EmptyString => Ascii.eqb c "*"
  | String.String _ s' => ends_star s'
  end.

Definition joinSegments (a b : string) : string :=
  match b with
  | String.String c b' => if ends_star a && Ascii.eqb c "*" then a +:+ b' else a +:+ b
  | String.EmptyString => a +:+ b
  end.

(** The union loop over one part's strings: [seen] in insertion order, and
    whether the cap stopped it. *)
Fixpoint union_add (max : nat) (seen got : list string) : list string * bool :=
  match got with
  | [] => (seen, false)
  | s :: got' =>
      if bool_decide (s ∈ seen) then union_add max seen got'
      else if max <=? length seen then (seen, true)
      else union_add max (seen ++ [s]) got'
  end.

Fixpoint union_parts (max : nat) (seen : list string) (tr : bool) (gots : list (list string * bool))
    : list string * bool :=
  match gots with
  | [] => (sort_strings seen, tr)
  | (got, t) :: gots' =>
      match union_add max seen got with
      | (seen', true) => (sort_strings seen', true)
      | (seen', false) => union_parts max seen' (tr || t) gots'
      end
  end.

(** The product loop of a concat: all joins in order, deduplicated, stopping
    at the cap. *)
Definition products (acc got : list string) : list string :=
  concat (map (fun prefix => map (joinSegments prefix) got) acc).

Fixpoint concat_parts (max : nat) (acc : list string) (tr : bool) (gots : list (list string * bool))
    : list string * bool :=
  match gots with
  | [] => (acc, tr)
  | (got, t) :: gots' =>
      match union_add max [] (products acc got) with
      | (next, true) => (next, true)
      | (next, false) => concat_parts max next (tr || t) gots'
      end
  end.

(** Value.enumerate *)
Fixpoint enumerate (max : nat) (v : Value) : list string * bool :=
  let 'mkValue k t ps _ _ _ := v in
  match k with
  | KindLiteral => ([t], false)
  | KindOpaque => ([wildcard], false)
  | KindUnion => union_parts max [] false (map (enumerate max) ps)
  | KindConcat => concat_parts max [""] false (map (enumerate max) ps)
  end.

(** strings.TrimSpace leaves nothing: every rune is a space, in UTF-8. *)
Fixpoint all_space (l : list N) : bool :=
  match l with
  | [] => true
  | (9 | 10 | 11 | 12 | 13 | 32)%N :: l' => all_space l'
  | 194%N :: (133 | 160)%N :: l' => all_space l'
  | 225%N :: 154%N :: 128%N :: l' => all_space l'
  | 226%N :: 128%N :: c :: l' =>
      (((128 <=? c) && (c <=? 138)) || (c =? 168) || (c =? 169) || (c =? 175))%N && all_space l'
  | 226%N :: 129%N :: 159%N :: l' => all_space l'
  | 227%N :: 128%N :: 128%N :: l' => all_space l'
  | _ => false
  end.

Definition blank (s : string) : bool := all_space (map N_of_ascii (str_bytes s)).

(** Value.hasLiteral *)
Fixpoint hasLiteral (v : Value) : bool :=
  let 'mkValue k t ps _ _ _ := v in
  match k with
  | KindLiteral => negb (blank t)
  | KindConcat | KindUnion => existsb hasLiteral ps
  | KindOpaque => false
  end.

(** Value.Strings *)
Definition Strings (max : Z) (v : Value) : list string * bool :=
  let m := if (max <=? 0)%Z then DefaultMaxStrings else Z.to_nat max in
  let '(got, truncated) := enumerate m v in
  (sort_strings got, negb truncated && hasLiteral v).

(** * Provenance *)

Fixpoint withSrc (v : Value) (o : Origin) : Value :=
  let 'mkValue k t ps og s c := v in
  match k with
  | KindUnion => mkValue k t (map (fun p => withSrc p o) ps) og s c
  | _ => mkValue k t ps og (if decide (s = Origin0) then o else s) (c ++ [o])
  end.

Definition CrossedVia (v : Value) (kind : string) : option Origin :=
  find (fun o => str_eqb (Reason o) kind) (Crossings v).

Definition Alternatives (v : Value) : list Value :=
  if is_kind KindUnion v then Parts v else [v].

Fixpoint Sources (v : Value) : list Origin :=
  let 'mkValue _ _ ps _ s _ := v in
  (if decide (s = Origin0) then [] else [s]) ++ concat (map Sources ps).

Fixpoint IsDynamic (v : Value) : bool :=
  let 'mkValue k _ ps _ _ _ := v in
  match k with KindOpaque => true | _ => existsb IsDynamic ps end.

Fixpoint Origins (v : Value) : list Origin :=
  let 'mkValue k _ ps o _ _ := v in
  match k with KindOpaque => [o] | _ => concat (map Origins ps) end.
