(* ===== verification/VgValueSpec.v ===== *)
(** The laws of the value lattice: the constructors build normal forms, do not
    depend on how a concatenation was associated or in which order a union was
    discovered, and enumeration is exact whenever it reports success. *)
From S2P Require Import Prelude DlStrata VgValue.

(** ** Concatenation *)

(** No two neighbours of which both are literals, no empty literal. *)
Fixpoint merged_ok (l : list Value) : Prop :=
  match l with
  | [] => True
  | v :: l' =>
      (vKind v = KindLiteral -> vText v <> "" /\
        match l' with w :: _ => vKind w <> KindLiteral | [] => True end) /\ merged_ok l'
  end.

Lemma is_kind_true k v : is_kind k v = true <-> vKind v = k.
Proof. unfold is_kind. apply bool_decide_eq_true. Qed.

Lemma is_kind_false k v : is_kind k v = false <-> vKind v <> k.
Proof. unfold is_kind. apply bool_decide_eq_false. Qed.

Definition merge (l : list Value) : list Value := fold_left merge_step l [].

Lemma merge_snoc l p : merge (l ++ [p]) = merge_step (merge l) p.
Proof. unfold merge. by rewrite fold_left_app. Qed.

(** What one step does to a list that ends with [m]. *)
Lemma merge_step_snoc l m p :
  merge_step (l ++ [m]) p =
    if is_kind KindLiteral p then
      if str_eqb (vText p) "" then l ++ [m]
      else if is_kind KindLiteral m then l ++ [with_text (vText m +:+ vText p) m]
      else l ++ [m; p]
    else l ++ [m; p].
Proof.
  unfold merge_step. rewrite last_snoc, removelast_last, <- !app_assoc. done.
Qed.

Lemma merge_step_nil p :
  merge_step [] p = if is_kind KindLiteral p && str_eqb (vText p) "" then [] else [p].
Proof. unfold merge_step. by destruct (is_kind KindLiteral p), (str_eqb (vText p) ""). Qed.

(** A step only looks at the last element. *)
Lemma merge_step_app a l p : l <> [] -> merge_step (a ++ l) p = a ++ merge_step l p.
Proof.
  destruct l as [|m l _] using rev_ind; [done|]. intros _.
  rewrite app_assoc, !merge_step_snoc.
  by repeat case_match; rewrite <- !app_assoc.
Qed.

Lemma merge_step_ne l p : l <> [] -> merge_step l p <> [].
Proof.
  destruct l as [|m l _] using rev_ind; [done|]. intros _ H. rewrite merge_step_snoc in H.
  repeat case_match; by apply app_eq_nil in H as [_ ?].
Qed.

Lemma str_app_empty_iff a b : a +:+ b = "" <-> a = "" /\ b = "".
Proof. destruct a; cbn; naive_solver. Qed.

(** Stepping over an already merged list is stepping over its source. *)
Lemma merge_step_twice l p q :
  vKind p = KindLiteral -> vText p <> "" -> vKind q = KindLiteral -> vText q <> "" ->
  merge_step (merge_step l p) q = merge_step l (with_text (vText p +:+ vText q) p).
Proof.
  intros Hp Hpt Hq Hqt.
  assert (E1 : is_kind KindLiteral p = true) by by apply is_kind_true.
  assert (E2 : is_kind KindLiteral q = true) by by apply is_kind_true.
  assert (E3 : forall t, is_kind KindLiteral (with_text t p) = true) by (intros; by apply is_kind_true).
  assert (T1 : str_eqb (vText p) "" = false) by by apply Stdlib.Strings.String.eqb_neq.
  assert (T2 : str_eqb (vText q) "" = false) by by apply Stdlib.Strings.String.eqb_neq.
  assert (T3 : str_eqb (vText p +:+ vText q) "" = false).
  { apply Stdlib.Strings.String.eqb_neq. intros [? _]%str_app_empty_iff. done. }
  destruct l as [|m l _] using rev_ind.
  - rewrite !merge_step_nil, E1, T1, E3. cbn [vText with_text andb]. rewrite T3.
    change [p] with ([] ++ [p]). by rewrite merge_step_snoc, E1, E2, T2.
  - rewrite !(merge_step_snoc l m), E1, T1, E3. cbn [vText with_text]. rewrite T3.
    destruct (is_kind KindLiteral m) eqn:Em.
    + rewrite merge_step_snoc, E2, T2.
      assert (E4 : forall t, is_kind KindLiteral (with_text t m) = true)
        by (intros; apply is_kind_true; by apply is_kind_true in Em).
      rewrite E4. cbn. by rewrite str_app_assoc.
    + rewrite (app_assoc l [m] [p] : l ++ [m; p] = (l ++ [m]) ++ [p]).
      rewrite merge_step_snoc, E2, T2, E1. by rewrite <- app_assoc.
Qed.

Lemma merge_ok l : merged_ok (merge l).
Proof.
  assert (Hsnoc : forall l v, merged_ok (l ++ [v]) <->
    merged_ok l /\ (vKind v = KindLiteral -> vText v <> "" /\
      forall w, last l = Some w -> vKind w <> KindLiteral)).
  { clear. intros l v. induction l as [|x l IH].
    - cbn. naive_solver.
    - cbn [app merged_ok]. rewrite IH. destruct l as [|y l]; [cbn; naive_solver|].
      cbn [app last]. naive_solver. }
  induction l as [|p l IH] using rev_ind; [done|]. rewrite merge_snoc.
  destruct (merge l) as [|m ms _] using rev_ind.
  - rewrite merge_step_nil. destruct (is_kind KindLiteral p) eqn:E; cbn.
    + destruct (Stdlib.Strings.String.eqb_spec (vText p) ""); cbn; naive_solver.
    + apply is_kind_false in E. naive_solver.
  - rewrite merge_step_snoc. destruct (is_kind KindLiteral p) eqn:E.
    + destruct (Stdlib.Strings.String.eqb_spec (vText p) "") as [|Ht]; [done|].
      destruct (is_kind KindLiteral m) eqn:Em.
      * apply Hsnoc in IH as [H1 H2]. apply Hsnoc. split; [done|]. intros Hk. cbn in Hk |- *.
        destruct (H2 Hk) as [H3 H4]. split; [|done]. intros [? _]%str_app_empty_iff. done.
      * replace (ms ++ [m; p]) with ((ms ++ [m]) ++ [p]) by by rewrite <- app_assoc.
        apply Hsnoc. split; [done|]. intros _. split; [done|]. intros w.
        rewrite last_snoc. intros [= <-]. by apply is_kind_false.
    + replace (ms ++ [m; p]) with ((ms ++ [m]) ++ [p]) by by rewrite <- app_assoc.
      apply Hsnoc. split; [done|]. apply is_kind_false in E. naive_solver.
Qed.

Lemma merged_literal l v : merged_ok l -> v ∈ l -> vKind v = KindLiteral -> vText v <> "".
Proof.
  induction l as [|x l IH]; intros H Hv Hk; [by apply not_elem_of_nil in Hv|].
  destruct H as [H1 H2]. apply elem_of_cons in Hv as [->|Hv]; [by apply H1|by apply IH].
Qed.

(** Merging a list first changes nothing for what follows. *)
Lemma fold_merge acc ys : fold_left merge_step ys acc = fold_left merge_step (merge ys) acc.
Proof.
  induction ys as [|p ys IH] using rev_ind; [done|].
  rewrite fold_left_app, merge_snoc. cbn [fold_left]. rewrite IH. pose proof (merge_ok ys) as Hok.
  destruct (merge ys) as [|m ms _] using rev_ind.
  - cbn [fold_left]. rewrite merge_step_nil. destruct (is_kind KindLiteral p) eqn:E; [|done].
    destruct (str_eqb (vText p) "") eqn:T; [|done]. cbn. unfold merge_step. by rewrite E, T.
  - assert (Hgen : forall ws, fold_left merge_step (ms ++ [m]) acc = fold_left merge_step (ms ++ [m]) acc ->
      fold_left merge_step ((ms ++ [m]) ++ ws) acc =
      fold_left merge_step ws (fold_left merge_step (ms ++ [m]) acc)) by (intros; apply fold_left_app).
    rewrite merge_step_snoc. destruct (is_kind KindLiteral p) eqn:E.
    + destruct (str_eqb (vText p) "") eqn:T; [unfold merge_step at 1; by rewrite E, T|].
      destruct (is_kind KindLiteral m) eqn:Em.
      * rewrite !fold_left_app. cbn [fold_left]. apply merge_step_twice;
          [by apply is_kind_true|..|by apply is_kind_true|by apply Stdlib.Strings.String.eqb_neq].
        eapply merged_literal; [exact Hok| |by apply is_kind_true]. apply elem_of_app. right. left.
      * change (ms ++ [m; p]) with (ms ++ [m] ++ [p]). by rewrite app_assoc, (fold_left_app _ (ms ++ [m])).
    + change (ms ++ [m; p]) with (ms ++ [m] ++ [p]). by rewrite app_assoc, (fold_left_app _ (ms ++ [m])).
Qed.

(** Values whose concatenations hold no concatenation directly. *)
Definition flat (v : Value) : Prop := vKind v = KindConcat -> Forall (fun p => vKind p <> KindConcat) (Parts v).

Lemma flatten_no_concat xs : Forall flat xs -> Forall (fun p => vKind p <> KindConcat) (flatten KindConcat xs).
Proof.
  intros H. unfold flatten. induction H as [|x xs Hx _ IH]; [constructor|]. cbn.
  apply Forall_app. split; [|exact IH]. destruct (is_kind KindConcat x) eqn:E.
  - apply Hx. by apply is_kind_true.
  - constructor; [by apply is_kind_false|constructor].
Qed.

Lemma merge_no_concat l : Forall (fun p => vKind p <> KindConcat) l ->
  Forall (fun p => vKind p <> KindConcat) (merge l).
Proof.
  induction l as [|p l IH] using rev_ind; intros H; [constructor|].
  apply Forall_app in H as [Hl [Hp _]%Forall_cons]. specialize (IH Hl). rewrite merge_snoc.
  destruct (merge l) as [|m ms _] using rev_ind.
  - rewrite merge_step_nil. destruct (_ && _); constructor; [done|constructor].
  - apply Forall_app in IH as [H1 [H2 _]%Forall_cons]. rewrite merge_step_snoc.
    repeat case_match; rewrite ?Forall_app, ?Forall_cons, ?Forall_nil; naive_solver.
Qed.

Lemma flatten_app k xs ys : flatten k (xs ++ ys) = flatten k xs ++ flatten k ys.
Proof. unfold flatten. by rewrite map_app, concat_app. Qed.

(** What a concatenation contributes to an enclosing one. *)
Lemma flatten_concat ys acc : Forall flat ys ->
  fold_left merge_step (flatten KindConcat [Concat_ ys]) acc =
  fold_left merge_step (flatten KindConcat ys) acc.
Proof.
  intros Hf%flatten_no_concat%merge_no_concat. rewrite (fold_merge acc (flatten KindConcat ys)).
  unfold Concat_. fold (merge (flatten KindConcat ys)).
  destruct (merge (flatten KindConcat ys)) as [|v [|w l]]; [done| |].
  - apply Forall_cons in Hf as [Hf _]. unfold flatten. cbn.
    assert (E : is_kind KindConcat v = false) by by apply is_kind_false. by rewrite E.
  - unfold flatten. cbn. by rewrite app_nil_r.
Qed.

Lemma concat_nested xs ys zs : Forall flat ys ->
  Concat_ (xs ++ Concat_ ys :: zs) = Concat_ (xs ++ ys ++ zs).
Proof.
  intros Hf. unfold Concat_ at 1 3. replace (Concat_ ys :: zs) with ([Concat_ ys] ++ zs) by done.
  rewrite !flatten_app, !fold_left_app. by rewrite flatten_concat.
Qed.

(** ** Unions *)

#[global] Instance value_le_total : Total value_le.
Proof. intros a b. apply (total String.le). Qed.

#[global] Instance value_le_trans : Transitive value_le.
Proof. intros a b c. unfold value_le. apply (transitivity (R := String.le)). Qed.

Lemma with_crossings_String c v : String_ (with_crossings c v) = String_ v.
Proof. by destruct v. Qed.

Lemma add_alt_strings out p :
  map String_ (add_alt out p) =
    if bool_decide (String_ p ∈ map String_ out) then map String_ out else map String_ out ++ [String_ p].
Proof.
  induction out as [|q out IH]; [done|]. cbn [add_alt map].
  destruct (Stdlib.Strings.String.eqb_spec (String_ q) (String_ p)) as [E|Hne].
  - rewrite bool_decide_eq_true_2 by (rewrite E; left). cbn [map]. by rewrite with_crossings_String.
  - cbn. rewrite IH. destruct (bool_decide (String_ p ∈ map String_ out)) eqn:D.
    + apply bool_decide_eq_true in D. by rewrite bool_decide_eq_true_2 by by right.
    + apply bool_decide_eq_false in D. rewrite bool_decide_eq_false_2; [done|].
      rewrite not_elem_of_cons. split; [congruence|done].
Qed.

Definition alts (l : list Value) : list Value := fold_left add_alt l [].

Lemma alts_snoc l p : alts (l ++ [p]) = add_alt (alts l) p.
Proof. unfold alts. by rewrite fold_left_app. Qed.

Lemma alts_strings l :
  NoDup (map String_ (alts l)) /\ forall s, s ∈ map String_ (alts l) <-> s ∈ map String_ l.
Proof.
  induction l as [|p l [IH1 IH2]] using rev_ind; [split; [constructor|done]|].
  rewrite alts_snoc, add_alt_strings.
  assert (Hm : forall s, s ∈ map String_ (l ++ [p]) <-> s ∈ map String_ l \/ s = String_ p).
  { intros s. rewrite map_app, elem_of_app. cbn. by rewrite list_elem_of_singleton. }
  case_bool_decide as D.
  - split; [done|]. intros s. rewrite Hm, IH2. apply IH2 in D. naive_solver.
  - split.
    + apply NoDup_app. split_and!; [done| |apply NoDup_singleton].
      intros s Hs ->%list_elem_of_singleton. done.
    + intros s. by rewrite elem_of_app, list_elem_of_singleton, Hm, IH2.
Qed.

(** The rendered alternatives of a union, in order: a strictly sorted list
    with the elements of the input. *)
Lemma sorted_alts l :
  StronglySorted String.le (map String_ (merge_sort value_le (alts l))) /\
  map String_ (merge_sort value_le (alts l)) ≡ₚ map String_ (alts l).
Proof.
  split.
  - pose proof (StronglySorted_merge_sort value_le (alts l)) as H.
    induction H as [|x xs Hs IH Hx]; constructor; [done|]. by apply Forall_map.
  - apply fmap_Permutation, merge_sort_Permutation.
Qed.

Lemma alts_same_strings l1 l2 :
  (forall s, s ∈ map String_ l1 <-> s ∈ map String_ l2) ->
  map String_ (merge_sort value_le (alts l1)) = map String_ (merge_sort value_le (alts l2)).
Proof.
  intros H. destruct (sorted_alts l1) as [S1 P1], (sorted_alts l2) as [S2 P2].
  apply (StronglySorted_unique String.le); [done..|]. rewrite P1, P2.
  destruct (alts_strings l1) as [N1 E1], (alts_strings l2) as [N2 E2].
  apply NoDup_Permutation; [done..|]. intros s. by rewrite E1, E2.
Qed.

Lemma union_String l :
  String_ (Union_ l) =
    match map String_ (merge_sort value_le (alts (flatten KindUnion l))) with
    | [] => "<unsupported:empty union>"
    | [s] => s
    | ss => "(" +:+ join_str "|" ss +:+ ")"
    end.
Proof.
  unfold Union_. fold (alts (flatten KindUnion l)).
  by destruct (merge_sort value_le (alts (flatten KindUnion l))) as [|v [|w vs]].
Qed.

Lemma flatten_perm k l1 l2 : l1 ≡ₚ l2 -> flatten k l1 ≡ₚ flatten k l2.
Proof.
  intros H. unfold flatten. induction H as [|x l1 l2 _ IH|x y l|l1 l2 l3 _ IH1 _ IH2]; cbn.
  - done.
  - by rewrite IH.
  - rewrite !app_assoc. by rewrite (Permutation_app_comm (if is_kind k y then _ else _)).
  - by rewrite IH1.
Qed.

Lemma union_perm l1 l2 : l1 ≡ₚ l2 -> String_ (Union_ l1) = String_ (Union_ l2).
Proof.
  intros H. rewrite !union_String.
  rewrite (alts_same_strings (flatten KindUnion l1) (flatten KindUnion l2)); [done|].
  intros s. by rewrite (flatten_perm _ _ _ H).
Qed.

(** ** The strings of a value *)

(** The strings a concatenation of parts can take after the prefix [acc]. *)
Fixpoint concat_den (ds : list (string -> Prop)) (acc s : string) : Prop :=
  match ds with
  | [] => s = acc
  | D :: ds' => exists x, D x /\ concat_den ds' (joinSegments acc x) s
  end.

(** Every string a value can take, an unknown segment rendered as a wildcard. *)
Fixpoint denote (v : Value) : string -> Prop :=
  let 'mkValue k t ps _ _ _ := v in
  match k with
  | KindLiteral => fun s => s = t
  | KindOpaque => fun s => s = wildcard
  | KindUnion => fun s => Exists (fun D => D s) (map denote ps)
  | KindConcat => concat_den (map denote ps) ""
  end.

Lemma union_add_spec max seen got : NoDup seen -> length seen <= max ->
  let '(seen', stop) := union_add max seen got in
  NoDup seen' /\ length seen' <= max /\ (stop = false -> forall s, s ∈ seen' <-> s ∈ seen \/ s ∈ got).
Proof.
  revert seen. induction got as [|s got IH]; intros seen Hn Hl; cbn [union_add].
  - split_and!; [done|done|]. intros _ s. rewrite elem_of_nil. tauto.
  - case_bool_decide as D.
    + specialize (IH seen Hn Hl). destruct (union_add max seen got) as [seen' stop].
      destruct IH as (? & ? & H). split_and!; [done|done|]. intros Hs x. rewrite (H Hs), elem_of_cons.
      naive_solver.
    + destruct (Nat.leb_spec max (length seen)); [done|].
      specialize (IH (seen ++ [s])). destruct (union_add max (seen ++ [s]) got) as [seen' stop].
      destruct IH as (? & ? & H').
      * apply NoDup_app. split_and!; [done|by intros x ? ->%list_elem_of_singleton|apply NoDup_singleton].
      * rewrite length_app. cbn. lia.
      * split_and!; [done|done|]. intros Hs x.
        rewrite (H' Hs), elem_of_app, list_elem_of_singleton, elem_of_cons. tauto.
Qed.

Lemma sort_strings_spec l : NoDup l ->
  StronglySorted String.le (sort_strings l) /\ NoDup (sort_strings l) /\
  length (sort_strings l) = length l /\ forall s, s ∈ sort_strings l <-> s ∈ l.
Proof.
  intros Hn. assert (Hp : sort_strings l ≡ₚ l) by apply merge_sort_Permutation.
  split_and!; [apply (StronglySorted_merge_sort String.le)|by rewrite Hp|by rewrite Hp|].
  intros s. by rewrite Hp.
Qed.

(** What enumeration promises of one value: distinct strings within the cap,
    and all of them when nothing was dropped. *)
Definition enum_ok (max : nat) (r : list string * bool) (D : string -> Prop) : Prop :=
  NoDup (fst r) /\ length (fst r) <= max /\ (snd r = false -> forall s, s ∈ fst r <-> D s).

Lemma union_parts_spec max gots Ds : Forall2 (enum_ok max) gots Ds ->
  forall seen tr (D0 : string -> Prop), NoDup seen -> length seen <= max ->
  (tr = false -> forall s, s ∈ seen <-> D0 s) ->
  enum_ok max (union_parts max seen tr gots) (fun s => D0 s \/ Exists (fun D => D s) Ds).
Proof.
  induction 1 as [|[got t] D gots Ds (Hg1 & Hg2 & Hg3) _ IH]; intros seen tr D0 Hn Hl Hs;
    cbn [union_parts].
  - destruct (sort_strings_spec seen Hn) as (_ & H1 & H2 & H3). split_and!; cbn; [done|lia|].
    intros Ht s. rewrite H3, (Hs Ht), Exists_nil. tauto.
  - pose proof (union_add_spec max seen got Hn Hl) as H.
    destruct (union_add max seen got) as [seen' [|]]; destruct H as (N' & L' & E').
    + destruct (sort_strings_spec seen' N') as (_ & H1 & H2 & _). split_and!; cbn; [done|lia|done].
    + specialize (IH seen' (tr || t) (fun s => D0 s \/ D s) N' L').
      destruct IH as (I1 & I2 & I3).
      * intros [Ht1 Ht2]%orb_false_iff s. rewrite (E' eq_refl), (Hs Ht1). cbn in Hg3. by rewrite (Hg3 Ht2).
      * split_and!; [done|done|]. intros Ht s. rewrite (I3 Ht), Exists_cons. tauto.
Qed.

Lemma elem_of_products acc got s :
  s ∈ products acc got <-> exists a x, a ∈ acc /\ x ∈ got /\ s = joinSegments a x.
Proof.
  unfold products. rewrite list_elem_of_In, in_concat. split.
  - intros (l & (a & <- & Ha)%in_map_iff & (x & <- & Hx)%in_map_iff). exists a, x.
    by rewrite !list_elem_of_In.
  - intros (a & x & Ha & Hx & ->). eexists. split; [by apply in_map, list_elem_of_In|].
    by apply in_map, list_elem_of_In.
Qed.

Lemma concat_parts_spec max gots Ds : Forall2 (enum_ok max) gots Ds ->
  forall acc tr (A : string -> Prop), NoDup acc -> length acc <= max ->
  (tr = false -> forall s, s ∈ acc <-> A s) ->
  enum_ok max (concat_parts max acc tr gots) (fun s => exists a, A a /\ concat_den Ds a s).
Proof.
  induction 1 as [|[got t] D gots Ds (Hg1 & Hg2 & Hg3) _ IH]; intros acc tr A Hn Hl Hs;
    cbn [concat_parts concat_den].
  - split_and!; [done|done|]. intros Ht s. cbn. rewrite (Hs Ht). naive_solver.
  - pose proof (union_add_spec max [] (products acc got) ltac:(constructor) ltac:(cbn; lia)) as H.
    destruct (union_add max [] (products acc got)) as [next [|]]; destruct H as (N' & L' & E').
    + split_and!; cbn; [done|done|done].
    + specialize (IH next (tr || t) (fun s => exists a x, A a /\ D x /\ s = joinSegments a x) N' L').
      destruct IH as (I1 & I2 & I3).
      * intros [Ht1 Ht2]%orb_false_iff s. rewrite (E' eq_refl), elem_of_products. cbn in Hg3.
        setoid_rewrite (Hs Ht1). setoid_rewrite (Hg3 Ht2). split; [|naive_solver].
        intros [?%not_elem_of_nil|?]; done.
      * split_and!; [done|done|]. intros Ht s. rewrite (I3 Ht). naive_solver.
Qed.

Lemma enumerate_ok max v : 1 <= max -> enum_ok max (enumerate max v) (denote v).
Proof.
  intros Hm. induction v as [k t ps o s c IH] using Value_ind'.
  assert (H2 : Forall2 (enum_ok max) (map (enumerate max) ps) (map denote ps)).
  { clear -IH. induction IH; cbn; by constructor. }
  destruct k; cbn [enumerate denote].
  - split_and!; cbn; [apply NoDup_singleton|done|]. intros _ x. apply list_elem_of_singleton.
  - pose proof (concat_parts_spec max _ _ H2 [""] false (fun a => a = "") (NoDup_singleton _)
      ltac:(cbn; lia) ltac:(intros _ x; apply list_elem_of_singleton)) as (H & H' & H'').
    split_and!; [done|done|]. intros Ht x. rewrite (H'' Ht). naive_solver.
  - pose proof (union_parts_spec max _ _ H2 [] false (fun _ => False) ltac:(constructor)
      ltac:(cbn; lia) ltac:(intros _ x; apply elem_of_nil)) as (H & H' & H'').
    split_and!; [done|done|]. intros Ht x. rewrite (H'' Ht). naive_solver.
  - split_and!; cbn; [apply NoDup_singleton|done|]. intros _ x. apply list_elem_of_singleton.
Qed.

(** ** Normal forms *)

Inductive normal : Value -> Prop :=
| normal_literal t s c : normal (mkValue KindLiteral t [] Origin0 s c)
| normal_opaque o s c : Reason o <> "" -> normal (mkValue KindOpaque "" [] o s c)
| normal_concat ps s c : 2 <= length ps -> merged_ok ps ->
    Forall (fun p => vKind p <> KindConcat) ps -> Forall normal ps ->
    normal (mkValue KindConcat "" ps Origin0 s c)
| normal_union ps s c : 2 <= length ps -> StronglySorted value_le ps -> NoDup (map String_ ps) ->
    Forall (fun p => vKind p <> KindUnion) ps -> Forall normal ps ->
    normal (mkValue KindUnion "" ps Origin0 s c).

Lemma normal_flat v : normal v -> flat v.
Proof. intros H Hk. destruct H; cbn in Hk |- *; done. Qed.

Lemma normal_parts v k : normal v -> vKind v = k -> k = KindConcat \/ k = KindUnion ->
  Forall normal (Parts v) /\ Forall (fun p => vKind p <> k) (Parts v).
Proof. intros H Hk Hd. destruct H; cbn in Hk |- *; subst k; try done; destruct Hd; done. Qed.

Lemma flatten_normal k ps : k = KindConcat \/ k = KindUnion -> Forall normal ps ->
  Forall normal (flatten k ps) /\ Forall (fun p => vKind p <> k) (flatten k ps).
Proof.
  intros Hk H. unfold flatten. induction H as [|p ps Hp _ [IH1 IH2]]; [done|]. cbn.
  destruct (is_kind k p) eqn:E.
  - apply is_kind_true in E. destruct (normal_parts _ _ Hp E Hk). split; by apply Forall_app.
  - apply is_kind_false in E. split; by constructor.
Qed.

Lemma with_text_normal t v : normal v -> vKind v = KindLiteral -> normal (with_text t v).
Proof. intros H Hk. destruct H; try discriminate Hk. constructor. Qed.

Lemma merge_normal l : Forall normal l -> Forall normal (merge l).
Proof.
  induction l as [|p l IH] using rev_ind; intros H; [constructor|].
  apply Forall_app in H as [Hl [Hp _]%Forall_cons]. specialize (IH Hl). rewrite merge_snoc.
  destruct (merge l) as [|m ms _] using rev_ind.
  - rewrite merge_step_nil. destruct (_ && _); constructor; [done|constructor].
  - rewrite merge_step_snoc. apply Forall_app in IH as [H1 [H2 _]%Forall_cons].
    destruct (is_kind KindLiteral p); [destruct (str_eqb _ _)|];
      [| destruct (is_kind KindLiteral m) eqn:Em|]; apply Forall_app; (split; [done|]);
      repeat constructor; try done.
    apply with_text_normal; [done|by apply is_kind_true].
Qed.

Lemma Concat_normal ps : Forall normal ps -> normal (Concat_ ps).
Proof.
  intros H. destruct (flatten_normal KindConcat ps (or_introl eq_refl) H) as [H1 H2].
  unfold Concat_. fold (merge (flatten KindConcat ps)).
  pose proof (merge_normal _ H1) as N. pose proof (merge_no_concat _ H2) as C.
  pose proof (merge_ok (flatten KindConcat ps)) as M.
  destruct (merge (flatten KindConcat ps)) as [|v [|w l]]; [constructor|by apply Forall_cons in N as []|].
  constructor; [cbn; lia|done..].
Qed.

Lemma with_crossings_normal c v : normal v -> normal (with_crossings c v).
Proof. intros H. destruct H; by constructor. Qed.

Lemma alts_forall (P : Value -> Prop) l : (forall c v, P v -> P (with_crossings c v)) ->
  Forall P l -> Forall P (alts l).
Proof.
  intros Hc. induction l as [|p l IH] using rev_ind; intros H; [constructor|].
  apply Forall_app in H as [Hl [Hp _]%Forall_cons]. specialize (IH Hl). rewrite alts_snoc.
  induction (alts l) as [|q out IHo]; cbn [add_alt]; [by constructor|].
  apply Forall_cons in IH as [Hq Hout]. destruct (str_eqb _ _); constructor; auto.
Qed.

Lemma Union_normal ps : Forall normal ps -> normal (Union_ ps).
Proof.
  intros H. destruct (flatten_normal KindUnion ps (or_intror eq_refl) H) as [H1 H2].
  unfold Union_. fold (alts (flatten KindUnion ps)). set (l := flatten KindUnion ps) in *.
  assert (Hp : merge_sort value_le (alts l) ≡ₚ alts l) by apply merge_sort_Permutation.
  assert (N : Forall normal (merge_sort value_le (alts l))).
  { rewrite Hp. apply alts_forall; [intros; by apply with_crossings_normal|done]. }
  assert (C : Forall (fun p => vKind p <> KindUnion) (merge_sort value_le (alts l))).
  { rewrite Hp. apply alts_forall; [|done]. by intros c []. }
  assert (D : NoDup (map String_ (merge_sort value_le (alts l)))).
  { rewrite Hp. apply alts_strings. }
  pose proof (StronglySorted_merge_sort value_le (alts l)) as S.
  destruct (merge_sort value_le (alts l)) as [|v [|w vs]];
    [by constructor|by apply Forall_cons in N as []|].
  constructor; [cbn; lia|done..].
Qed.

(** ** Provenance *)

Lemma withSrc_String v o : String_ (withSrc v o) = String_ v.
Proof.
  induction v as [k t ps og s c IH] using Value_ind'.
  destruct k; cbn [withSrc String_]; try done. do 3 f_equal. rewrite map_map.
  apply map_ext_Forall. exact IH.
Qed.

Lemma withSrc_denote v o s : denote (withSrc v o) s <-> denote v s.
Proof.
  revert s. induction v as [k t ps og sr c IH] using Value_ind'. intros s.
  destruct k; cbn [withSrc denote]; try done. rewrite map_map.
  induction IH as [|p ps Hp _ IHps]; [done|]. cbn. rewrite !Exists_cons, IHps, Hp. done.
Qed.

Lemma withSrc_kind v o : vKind (withSrc v o) = vKind v.
Proof. by destruct v as [[] ? ? ? ? ?]. Qed.

Lemma withSrc_normal v o : normal v -> normal (withSrc v o).
Proof.
  intros H. induction v as [k t ps og s c IH] using Value_ind'. inversion H; subst; cbn [withSrc].
  - constructor.
  - by constructor.
  - by constructor.
  - assert (Hm : map String_ (map (fun p => withSrc p o) ps) = map String_ ps).
    { rewrite map_map. apply map_ext. intros p. apply withSrc_String. }
    constructor; rewrite ?Hm, ?length_map; try done.
    + match goal with H : StronglySorted _ _ |- _ => rename H into HS end. clear -HS.
      induction HS as [|x xs _ IH Hx]; constructor; [done|]. apply Forall_map.
      eapply Forall_impl; [exact Hx|]. intros y. unfold value_le. cbn. by rewrite !withSrc_String.
    + apply Forall_map. eapply Forall_impl; [|intros p Hp; rewrite withSrc_kind; exact Hp]. eassumption.
    + apply Forall_map. rewrite Forall_forall in *. auto.
Qed.

(** ** Properties *)

(** Every constructor of the lattice, and the stamping of a crossing,
    keeps values in normal form: concatenations hold at least two parts, none
    a concatenation, no empty literal and no two literals side by side; unions
    hold at least two alternatives, none a union, sorted and with distinct
    renderings; a stopped value always names a reason. *)
Theorem constructors_normal :
  (forall t, normal (Literal_ t)) /\ (forall o, normal (Opaque_ o)) /\
  (forall ps, Forall normal ps -> normal (Concat_ ps)) /\
  (forall ps, Forall normal ps -> normal (Union_ ps)) /\
  (forall v o, normal v -> normal (withSrc v o)).
Proof.
  split_and!; [constructor| |apply Concat_normal|apply Union_normal|intros; by apply withSrc_normal].
  intros o. constructor. destruct (Stdlib.Strings.String.eqb_spec (Reason o) ""); [done|done].
Qed.

(** A concatenation does not depend on how the grammar associated it: an
    inner Concat of values in normal form can be spliced in place. *)
Theorem Concat_associative xs ys zs : Forall normal ys ->
  Concat_ (xs ++ Concat_ ys :: zs) = Concat_ (xs ++ ys ++ zs).
Proof. intros H. apply concat_nested. eapply Forall_impl; [exact H|apply normal_flat]. Qed.

Lemma Concat_associative_witness :
  Concat_ [Literal_ "/a"; Concat_ [Literal_ "/b"; Opaque_ (mkOrigin "param" "f.js" 3 "id")]; Literal_ ""]
  = mkValue KindConcat "" [Literal_ "/a/b"; Opaque_ (mkOrigin "param" "f.js" 3 "id")] Origin0 Origin0 [].
Proof.
  pose proof (Concat_associative [Literal_ "/a"]
    [Literal_ "/b"; Opaque_ (mkOrigin "param" "f.js" 3 "id")] [Literal_ ""]) as H.
  cbn [app] in H. rewrite H; [vm_compute; reflexivity|].
  repeat constructor. discriminate.
Defined.

(** A union does not depend on the order in which its alternatives were
    found: permuted inputs render equal. *)
Theorem Union_order_independent l1 l2 : l1 ≡ₚ l2 -> String_ (Union_ l1) = String_ (Union_ l2).
Proof. apply union_perm. Qed.

Lemma Union_order_independent_witness :
  String_ (Union_ [Literal_ "b"; Literal_ "a"; Literal_ "b"]) =
  String_ (Union_ [Literal_ "a"; Literal_ "b"; Literal_ "b"]).
Proof. apply Union_order_independent. apply perm_swap. Defined.

(** C11: enumeration is exact when it says so: Strings returns distinct strings
    in order, at most the cap of them, and with [ok] they are exactly the
    strings the value denotes, at least one part of it being concrete. *)
Theorem Strings_exact max v out ok : Strings max v = (out, ok) ->
  StronglySorted String.le out /\ NoDup out /\
  length out <= (if (max <=? 0)%Z then 32 else Z.to_nat max) /\
  (ok = true -> hasLiteral v = true /\ forall s, s ∈ out <-> denote v s).
Proof.
  unfold Strings, DefaultMaxStrings. set (m := if (max <=? 0)%Z then 32 else Z.to_nat max).
  assert (Hm : 1 <= m) by (unfold m; destruct (Z.leb_spec max 0); lia).
  destruct (enumerate_ok m v Hm) as (Hn & Hl & He). destruct (enumerate m v) as [got tr].
  intros [= <- <-]. cbn in Hn, Hl, He.
  destruct (sort_strings_spec got Hn) as (S1 & S2 & S3 & S4). split_and!; [done|done|lia|].
  intros [Ht%negb_true_iff Hh]%andb_true_iff. split; [done|]. intros s. by rewrite S4, He.
Qed.

Lemma Strings_exact_witness :
  let v := Concat_ [Literal_ "/api/"; Union_ [Literal_ "v2"; Literal_ "v1"];
                    Opaque_ (mkOrigin "param" "" 0 "x")] in
  Strings 0 v = (["/api/v1*"; "/api/v2*"], true) /\ forall s, s ∈ ["/api/v1*"; "/api/v2*"] <-> denote v s.
Proof.
  cbn zeta. set (v := Concat_ _).
  assert (E : Strings 0 v = (["/api/v1*"; "/api/v2*"], true)) by (vm_compute; reflexivity).
  split; [exact E|]. destruct (Strings_exact _ _ _ _ E) as (_ & _ & _ & H). by apply H.
Defined.

(** Stamping a crossing is metadata only: it changes neither the rendering
    nor the strings of a value, and every alternative then reports having
    crossed that site. *)
Theorem withSrc_metadata v o : normal v ->
  String_ (withSrc v o) = String_ v /\ (forall s, denote (withSrc v o) s <-> denote v s) /\
  Forall (fun a => o ∈ Crossings a /\ is_Some (CrossedVia a (Reason o)))
    (Alternatives (withSrc v o)).
Proof.
  intros H. split_and!; [apply withSrc_String|apply withSrc_denote|].
  assert (Hone : forall w, vKind w <> KindUnion ->
    o ∈ Crossings (withSrc w o) /\ is_Some (CrossedVia (withSrc w o) (Reason o))).
  { intros w Hw. assert (Hin : o ∈ Crossings (withSrc w o)).
    { destruct w as [[] ? ? ? ? ?]; try done; cbn; apply elem_of_app; right; left. }
    split; [done|]. unfold CrossedVia.
    destruct (find _ (Crossings (withSrc w o))) as [x|] eqn:E; [by eexists|].
    apply list_elem_of_In in Hin. pose proof (find_none _ _ E _ Hin) as F. cbn in F.
    by rewrite Stdlib.Strings.String.eqb_refl in F. }
  unfold Alternatives. destruct (is_kind KindUnion (withSrc v o)) eqn:E.
  - apply is_kind_true in E. rewrite withSrc_kind in E.
    destruct (normal_parts v KindUnion H E (or_intror eq_refl)) as [_ Hp].
    destruct v as [k t ps og s c]. cbn in E. subst k. cbn [withSrc Parts] in Hp |- *.
    apply Forall_map. eapply Forall_impl; [exact Hp|]. intros p Hpk. by apply Hone.
  - apply is_kind_false in E. rewrite withSrc_kind in E. constructor; [by apply Hone|constructor].
Qed.

Lemma withSrc_metadata_witness :
  let o := mkOrigin "prop" "a.tsx" 7 "url" in
  Forall (fun a => o ∈ Crossings a /\ is_Some (CrossedVia a "prop"))
    (Alternatives (withSrc (Union_ [Literal_ "/x"; Literal_ "/y"]) o)).
Proof.
  cbn zeta. apply (withSrc_metadata (Union_ [Literal_ "/x"; Literal_ "/y"]) (mkOrigin "prop" "a.tsx" 7 "url")).
  apply Union_normal. repeat constructor.
Defined.

(** Alternatives are told apart by their rendering, which is not
    injective: a union can drop an alternative that only renders like another,
    and with it strings the value can take. *)
Theorem Union_loses_alternative :
  exists a b s, normal a /\ normal b /\ denote b s /\ ~ denote (Union_ [a; b]) s /\
    Strings 0 (Union_ [a; b]) = (["/(a|b)"], true).
Proof.
  exists (Literal_ "/(a|b)"), (Concat_ [Literal_ "/"; Union_ [Literal_ "a"; Literal_ "b"]]), "/a".
  assert (Hn : normal (Concat_ [Literal_ "/"; Union_ [Literal_ "a"; Literal_ "b"]])).
  { apply Concat_normal. constructor; [constructor|]. constructor; [|constructor].
    apply Union_normal. repeat constructor. }
  split_and!; [constructor|exact Hn| | |vm_compute; reflexivity].
  - vm_compute. exists "/". split; [done|]. exists "a". split; [by left|done].
  - vm_compute. discriminate.
Qed.

(** A capped enumeration of a concatenation can return strings the value
    never takes: the product loop stops between two parts, so the tail of the
    expression is missing. *)
Theorem Strings_truncated_prefix :
  exists v out s, normal v /\ Strings 2 v = (out, false) /\ s ∈ out /\ ~ denote v s.
Proof.
  exists (Concat_ [Union_ [Literal_ "a"; Literal_ "b"]; Union_ [Literal_ "1"; Literal_ "2"]; Literal_ "/x"]),
    ["a1"; "a2"], "a1".
  split_and!; [|vm_compute; reflexivity|left|].
  - apply Concat_normal. repeat (constructor; [apply Union_normal; repeat constructor|]). repeat constructor.
  - vm_compute. intros (x & Hx & y & Hy & z & -> & E).
    repeat match goal with H : Exists _ _ |- _ => apply Exists_exists in H as (? & ? & ?) end.
    rewrite ?elem_of_cons, ?elem_of_nil in *. naive_solver.
Qed.
