(* ===== verification/Jobs.v ===== *)
(** The background-job manager (internal/jobs/manager.go) and the job rows it
    persists (internal/ops/store.go).  The state is what the mutexes protect
    and what the goroutines hold between their critical sections; each event
    is one critical section or one store call, so that a run is an arbitrary
    interleaving of them. *)
From S2P Require Import Prelude DlStrata.

(** * Job rows (internal/ops) *)

Record ProfileStats : Type := mkProfile {
  AllocBytes : Z; TotalAllocBytes : Z; HeapObjects : Z; GCCount : Z; HasCPUProfile : bool
}.
Definition Profile0 : ProfileStats := mkProfile 0 0 0 0 false.

Record Job : Type := mkJob {
  ID : string; JKind : string; JArgs : string; State : string; StartedAt : string;
  EndedAt : string; Done : Z; Total : Z; JError : string; JResult : string;
  LogTail : list string; Profile : ProfileStats; CPUProfile : list ascii
}.

Definition set_tail (t : list string) (j : Job) : Job :=
  mkJob (ID j) (JKind j) (JArgs j) (State j) (StartedAt j) (EndedAt j) (Done j) (Total j)
    (JError j) (JResult j) t (Profile j) (CPUProfile j).
Definition set_progress (d t : Z) (j : Job) : Job :=
  mkJob (ID j) (JKind j) (JArgs j) (State j) (StartedAt j) (EndedAt j) d t
    (JError j) (JResult j) (LogTail j) (Profile j) (CPUProfile j).
Definition set_cpu (p : list ascii) (j : Job) : Job :=
  mkJob (ID j) (JKind j) (JArgs j) (State j) (StartedAt j) (EndedAt j) (Done j) (Total j)
    (JError j) (JResult j) (LogTail j) (Profile j) p.

(** The jobs table, by id. *)
Abbreviation JobStore := (gmap string Job).

(** Store.UpsertJob: a full replace, but for a profile already captured. *)
Definition UpsertJob (j : Job) (st : JobStore) : JobStore :=
  let cpu := match CPUProfile j with
             | [] => match st !! ID j with Some old => CPUProfile old | None => [] end
             | p => p
             end in
  <[ID j := set_cpu cpu j]> st.

(** scanJob: the profile itself is not read back, only whether there is one. *)
Definition scanJob (j : Job) : Job :=
  let p := Profile j in
  mkJob (ID j) (JKind j) (JArgs j) (State j) (StartedAt j) (EndedAt j) (Done j) (Total j)
    (JError j) (JResult j) (LogTail j)
    (mkProfile (AllocBytes p) (TotalAllocBytes p) (HeapObjects p) (GCCount p)
       (negb (Nat.eqb (length (CPUProfile j)) 0))) [].

(** Store.GetJob *)
Definition GetJob (st : JobStore) (id : string) : option Job := scanJob <$> st !! id.

(** ORDER BY started_at DESC, id DESC *)
Definition job_ge (a b : Job) : Prop :=
  String.le (StartedAt b) (StartedAt a) /\ (StartedAt a = StartedAt b -> String.le (ID b) (ID a)).

#[global] Instance job_ge_dec : RelDecision job_ge.
Proof. intros a b. unfold job_ge. apply _. Defined.

(** Store.ListJobs *)
Definition ListJobs (st : JobStore) (limit : Z) : list Job :=
  let limit := if (limit <=? 0)%Z then 50%Z else limit in
  let limit := if (1000 <? limit)%Z then 1000%Z else limit in
  map scanJob (take (Z.to_nat limit) (merge_sort job_ge (map snd (map_to_list st)))).

(** * The manager *)

Definition KindIndex : string := "index".
Definition KindEval : string := "eval".
Definition KindReconcile : string := "reconcile".
Definition KindInit : string := "init".
Definition Kinds : list string := [KindIndex; KindEval; KindReconcile; KindInit].
Definition validKind (k : string) : bool := existsb (str_eqb k) Kinds.

Definition logRingCap : nat := 200.
Definition logTailReturn : nat := 50.
Definition progressThrottle : Z := 100000000.

(** runState; [rs_canceled] is the state of its context. *)
Record runState : Type := mkRun {
  rs_job : Job;
  rs_canceled : bool;
  rs_log : list string;
  rs_lastPersist : option Z   (* None: the zero time *)
}.

(** Where the goroutine of a job is between two critical sections. *)
Inductive pc : Type :=
| PStart                      (* Start, before its UpsertJob *)
| PWork                       (* in the job's own work *)
| PProgress (j : Job)         (* reportProgress, before its UpsertJob *)
| PProgressDone (j : Job)     (* reportProgress, before its broadcast *)
| PEnd (state errMsg result : string)   (* run, its outcome read, before the lock *)
| PFinal (j : Job)            (* run, before its UpsertJob *)
| PFinalDone (j : Job)        (* run, before its broadcast *)
| PExit.

(** [m_running] maps a kind to the id of its run, [m_runs] is the heap of
    runStates those pointers point into. *)
Record Manager : Type := mkManager {
  m_ops : option JobStore;
  m_running : gmap string string;
  m_runs : gmap string runState;
  m_pc : gmap string pc;
  m_events : list (string * Job)
}.

Definition NewManager (ops : option JobStore) : Manager := mkManager ops ∅ ∅ ∅ [].

Inductive JobError : Type :=
| ErrUnknownKind (k : string)
| ErrNoOps
| ErrInvalidArgs
| ErrEvalDirMissing (path : string)
| ErrConflict (j : Job)
| ErrJobNotFound
| ErrStale (id : string).

Definition lastN (lines : list string) (n : nat) : list string := drop (length lines - n) lines.

(** runState.appendLog *)
Definition appendLog (line : string) (rs : runState) : runState :=
  if str_eqb line "" then rs
  else mkRun (rs_job rs) (rs_canceled rs) (lastN (rs_log rs ++ [line]) logRingCap) (rs_lastPersist rs).

(** runState.snapshotLocked *)
Definition snapshotLocked (rs : runState) : Job :=
  set_tail (lastN (rs_log rs) logTailReturn) (rs_job rs).

Definition run_of (m : Manager) (k : string) : option runState :=
  m_running m !! k ≫= fun id => m_runs m !! id.

(** Manager.conflictLocked *)
Definition conflictLocked (m : Manager) (k : string) : option Job :=
  match run_of m KindIndex with
  | Some rs => Some (rs_job rs)
  | None =>
      let kinds := sort_strings (elements (dom (m_running m))) in
      match str_eqb k KindIndex, kinds with
      | true, k0 :: _ => rs_job <$> run_of m k0
      | _, _ => rs_job <$> run_of m k
      end
  end.

Definition normalizeArgs (raw : string) : string := if str_eqb raw "" then "{}" else raw.

(** Manager.Start up to its critical section: the checks before the lock, with
    [corpus_of] the corpus an eval payload names (None: not the JSON of the
    arguments) and [stat] whether a path exists. *)
Definition preflight (corpus_of : string -> option string) (stat : string -> bool)
    (m : Manager) (kind args : string) : result JobError unit :=
  if negb (validKind kind) then Err (ErrUnknownKind kind)
  else match m_ops m with
  | None => Err ErrNoOps
  | Some _ =>
      if str_eqb kind KindEval then
        match (if str_eqb args "" then Some "" else corpus_of args) with
        | None => Err ErrInvalidArgs
        | Some c =>
            let c := if str_eqb c "" then "eval/corpus" else c in
            if stat c then Ok tt else Err (ErrEvalDirMissing c)
        end
      else Ok tt
  end.

(** Manager.Start's critical section. *)
Definition start_locked (kind args id now : string) (m : Manager) : result JobError (Job * Manager) :=
  match conflictLocked m kind with
  | Some j => Err (ErrConflict j)
  | None =>
      let job := mkJob id kind (normalizeArgs args) "running" now "" 0 0 "" "" [] Profile0 [] in
      Ok (job, mkManager (m_ops m) (<[kind := id]> (m_running m))
                 (<[id := mkRun job false [] None]> (m_runs m)) (<[id := PStart]> (m_pc m)) (m_events m))
  end.

Definition with_run (id : string) (rs : runState) (m : Manager) : Manager :=
  mkManager (m_ops m) (m_running m) (<[id := rs]> (m_runs m)) (m_pc m) (m_events m).
Definition with_pc (id : string) (p : pc) (m : Manager) : Manager :=
  mkManager (m_ops m) (m_running m) (m_runs m) (<[id := p]> (m_pc m)) (m_events m).
Definition with_event (typ : string) (j : Job) (m : Manager) : Manager :=
  mkManager (m_ops m) (m_running m) (m_runs m) (m_pc m) (m_events m ++ [(typ, j)]).

(** UpsertJob through the manager's store; a failure is only reported. *)
Definition persist (ok : bool) (j : Job) (m : Manager) : Manager :=
  mkManager (if ok then UpsertJob j <$> m_ops m else m_ops m)
    (m_running m) (m_runs m) (m_pc m) (m_events m).

(** The critical section of reportProgress. *)
Definition progress_locked (id : string) (done total now : Z) (rs : runState) (m : Manager) : Manager :=
  let job := set_progress done total (rs_job rs) in
  if (match rs_lastPersist rs with
      | Some last => (now - last <? progressThrottle)%Z
      | None => false
      end)
  then with_run id (mkRun job (rs_canceled rs) (rs_log rs) (rs_lastPersist rs)) m
  else
    let rs' := mkRun job (rs_canceled rs) (rs_log rs) (Some now) in
    with_pc id (PProgress (snapshotLocked rs')) (with_run id rs' m).

(** The state a run ends in; [err] is the error of its work. *)
Definition final_state (canceled : bool) (err : option string) : string * string :=
  match err with
  | None => ("succeeded", "")
  | Some e => if canceled then ("canceled", "canceled") else ("failed", e)
  end.

(** The critical section at the end of run. *)
Definition finish_locked (id k state errMsg result now : string)
    (p : ProfileStats) (cpu : list ascii) (rs : runState) (m : Manager) : Manager :=
  let j := rs_job rs in
  let job := mkJob (ID j) (JKind j) (JArgs j) state (StartedAt j) now (Done j) (Total j)
               errMsg result (LogTail j) p cpu in
  let rs' := mkRun job (rs_canceled rs) (rs_log rs) (rs_lastPersist rs) in
  mkManager (m_ops m) (delete k (m_running m)) (<[id := rs']> (m_runs m))
    (<[id := PFinal (snapshotLocked rs')]> (m_pc m)) (m_events m).

(** The run Get, List and Cancel find for an id among the running ones. *)
Definition find_running (m : Manager) (id : string) : option runState :=
  match filter (fun kv => snd kv = id) (map_to_list (m_running m)) with
  | (_, i) :: _ => m_runs m !! i
  | [] => None
  end.

(** Manager.Get: the lock section on [m], the store read on [m'], which may be
    a later state. *)
Definition Get (m m' : Manager) (id : string) : result JobError Job :=
  match find_running m id with
  | Some rs => Ok (snapshotLocked rs)
  | None =>
      match m_ops m' with
      | None => Err ErrJobNotFound
      | Some st => match GetJob st id with Some j => Ok j | None => Err ErrJobNotFound end
      end
  end.

(** Manager.List: the store read on [m], the substitution on [m']. *)
Definition List_ (m m' : Manager) (limit : Z) : result JobError (list Job) :=
  match m_ops m with
  | None => Err ErrNoOps
  | Some st =>
      Ok (map (fun j => match find_running m' (ID j) with
                        | Some rs => snapshotLocked rs
                        | None => j
                        end) (ListJobs st limit))
  end.

(** Manager.Cancel's answer, the cancellation itself being [ECancel]. *)
Definition Cancel (m m' : Manager) (id : string) : result JobError Job :=
  match find_running m id with
  | Some rs => Ok (snapshotLocked rs)
  | None =>
      match m_ops m' with
      | None => Err ErrJobNotFound
      | Some st =>
          match GetJob st id with
          | None => Err ErrJobNotFound
          | Some j => if str_eqb (State j) "running" then Err (ErrStale id) else Ok j
          end
      end
  end.

(** * Events *)

Inductive Event : Type :=
| EStart (kind args id now : string)
| EPersist (id : string) (ok : bool)
| EBroadcast (id : string)
| ELog (id line : string)
| EProgress (id : string) (done total now : Z)
| EWorkDone (id result : string) (err : option string)
| EFinish (id now : string) (p : ProfileStats) (cpu : list ascii)
| ECancel (id : string).

(** What an event does where it is enabled. *)
Definition exec (ev : Event) (m : Manager) : option Manager :=
  match ev with
  | EStart kind args id now =>
      match start_locked kind args id now m with Ok (_, m') => Some m' | Err _ => None end
  | EPersist id ok =>
      match m_pc m !! id, m_runs m !! id with
      | Some PStart, Some rs => Some (with_pc id PWork (persist ok (rs_job rs) m))
      | Some (PProgress j), _ => Some (with_pc id (PProgressDone j) (persist ok j m))
      | Some (PFinal j), _ => Some (with_pc id (PFinalDone j) (persist ok j m))
      | _, _ => None
      end
  | EBroadcast id =>
      match m_pc m !! id with
      | Some (PProgressDone j) => Some (with_pc id PWork (with_event "job_progress" j m))
      | Some (PFinalDone j) => Some (with_pc id PExit (with_event "job_done" j m))
      | _ => None
      end
  | ELog id line =>
      match m_pc m !! id, m_runs m !! id with
      | Some PWork, Some rs => Some (with_run id (appendLog line rs) m)
      | _, _ => None
      end
  | EProgress id done total now =>
      match m_pc m !! id, m_runs m !! id with
      | Some PWork, Some rs => Some (progress_locked id done total now rs m)
      | _, _ => None
      end
  | EWorkDone id res err =>
      match m_pc m !! id, m_runs m !! id with
      | Some PWork, Some rs =>
          let '(state, errMsg) := final_state (rs_canceled rs) err in
          Some (with_pc id (PEnd state errMsg res) m)
      | _, _ => None
      end
  | EFinish id now p cpu =>
      match m_pc m !! id, m_runs m !! id with
      | Some (PEnd state errMsg res), Some rs =>
          Some (finish_locked id (JKind (rs_job rs)) state errMsg res now p cpu rs m)
      | _, _ => None
      end
  | ECancel id =>
      match m_runs m !! id with
      | Some rs => Some (with_run id (mkRun (rs_job rs) true (rs_log rs) (rs_lastPersist rs)) m)
      | None => None
      end
  end.

(** One event; ids are fresh, and the calls behind [EStart] and [ECancel]
    passed the checks that come before them. *)
Definition fresh (m : Manager) (id : string) : Prop :=
  m_runs m !! id = None /\ forall st, m_ops m = Some st -> st !! id = None.

Inductive step (m : Manager) : Manager -> Prop :=
| step_event ev m' :
    (forall kind args id now, ev = EStart kind args id now ->
       fresh m id /\ validKind kind = true /\ is_Some (m_ops m)) ->
    exec ev m = Some m' -> step m m'.

Inductive reachable (ops : option JobStore) : Manager -> Prop :=
| reach_new : reachable ops (NewManager ops)
| reach_step m m' : reachable ops m -> step m m' -> reachable ops m'.

(** * lineWriter *)

(** lineWriter.Write: the lines completed by the bytes [p], and what stays in
    the buffer. *)
Fixpoint line_write (buf : list ascii) (p : list ascii) : list string * list ascii :=
  match p with
  | [] => ([], buf)
  | b :: p' =>
      if Ascii.eqb b "010"%char then
        let '(lines, buf') := line_write [] p' in (bytes_str buf :: lines, buf')
      else line_write (buf ++ [b]) p'
  end.
