(* ===== verification/JobsSpec.v ===== *)
(** Invariants of the job manager over every interleaving: single flight, the
    agreement of the table of running jobs with the goroutines, and that a
    finished job's row is never overwritten. *)
From S2P Require Import Prelude DlStrata Jobs.

(** ** The invariant *)

(** The job still holds its single-flight slot. *)
Definition active (p : pc) : Prop :=
  match p with PFinal _ | PFinalDone _ | PExit => False | _ => True end.

Definition is_running (j : Job) : Prop := State j = "running".

(** A snapshot taken for the job [id] of kind [k]. *)
Definition snap_of (id k : string) (j : Job) : Prop :=
  ID j = id /\ JKind j = k /\ length (LogTail j) <= logTailReturn.

Definition terminal (s : string) : Prop := s = "succeeded" \/ s = "failed" \/ s = "canceled".

(** What the goroutine's place says about its run. *)
Definition pc_ok (p : pc) (id : string) (rs : runState) : Prop :=
  match p with
  | PStart | PWork => is_running (rs_job rs)
  | PProgress j | PProgressDone j => is_running (rs_job rs) /\ snap_of id (JKind (rs_job rs)) j /\ is_running j
  | PEnd s _ _ => is_running (rs_job rs) /\ terminal s /\ (s = "canceled" -> rs_canceled rs = true)
  | PFinal j | PFinalDone j => terminal (State (rs_job rs)) /\ snap_of id (JKind (rs_job rs)) j /\
      State j = State (rs_job rs)
  | PExit => terminal (State (rs_job rs))
  end.

(** The row of a job is a running one until its final write. *)
Definition row_ok (p : pc) (rs : runState) (row : Job) : Prop :=
  match p with
  | PFinalDone _ | PExit => is_running row \/ State row = State (rs_job rs)
  | _ => is_running row
  end.

Record run_ok (m : Manager) (id : string) (rs : runState) (p : pc) : Prop := {
  ro_id : ID (rs_job rs) = id;
  ro_tail : LogTail (rs_job rs) = [];
  ro_log : length (rs_log rs) <= logRingCap;
  ro_cancel : State (rs_job rs) = "canceled" -> rs_canceled rs = true;
  ro_pc : pc_ok p id rs;
  ro_slot : active p -> m_running m !! JKind (rs_job rs) = Some id;
  ro_row : forall st row, m_ops m = Some st -> st !! id = Some row -> row_ok p rs row
}.

Record mgr_ok (ops : option JobStore) (m : Manager) : Prop := {
  mo_ops : is_Some (m_ops m) <-> is_Some ops;
  mo_runs : forall id rs, m_runs m !! id = Some rs -> exists p, m_pc m !! id = Some p /\ run_ok m id rs p;
  mo_pc : forall id p, m_pc m !! id = Some p -> is_Some (m_runs m !! id);
  mo_running : forall k id, m_running m !! k = Some id ->
    exists rs p, m_runs m !! id = Some rs /\ m_pc m !! id = Some p /\ JKind (rs_job rs) = k /\ active p;
  mo_index : forall id, m_running m !! KindIndex = Some id ->
    forall k id', m_running m !! k = Some id' -> k = KindIndex;
  mo_old : forall st st0 id, m_ops m = Some st -> ops = Some st0 -> m_runs m !! id = None ->
    st !! id = st0 !! id
}.

Lemma mgr_ok_new ops : mgr_ok ops (NewManager ops).
Proof. split; cbn; try done. intros st st0 id -> [= ->]. done. Qed.

(** The run and place of an id are looked up together. *)
Lemma mgr_run ops m id rs p : mgr_ok ops m -> m_runs m !! id = Some rs -> m_pc m !! id = Some p ->
  run_ok m id rs p.
Proof. intros H Hr Hp. destruct (mo_runs _ _ H _ _ Hr) as (p' & Hp' & Hok). congruence. Qed.

(** ** Conflicts *)

Lemma run_of_some ops m k id : mgr_ok ops m -> m_running m !! k = Some id ->
  exists rs, run_of m k = Some rs /\ m_runs m !! id = Some rs /\ JKind (rs_job rs) = k /\
    is_running (rs_job rs).
Proof.
  intros H Hk. destruct (mo_running _ _ H _ _ Hk) as (rs & p & Hr & Hp & Hkind & Ha).
  pose proof (mgr_run _ _ _ _ _ H Hr Hp) as Hok. exists rs. unfold run_of. rewrite Hk. cbn.
  split_and!; [done..|]. pose proof (ro_pc _ _ _ _ Hok) as Hpc.
  destruct p; try done; cbn in Hpc; tauto.
Qed.

Lemma run_of_none m k : m_running m !! k = None -> run_of m k = None.
Proof. unfold run_of. by intros ->. Qed.

(** Two kinds that may not run at the same time. *)
Definition excludes (k k' : string) : Prop := k = k' \/ k = KindIndex \/ k' = KindIndex.

Lemma conflict_none ops m k : mgr_ok ops m -> conflictLocked m k = None ->
  forall k' id, m_running m !! k' = Some id -> ~ excludes k k'.
Proof.
  intros H Hc k' id Hk' Hex. unfold conflictLocked in Hc.
  destruct (m_running m !! KindIndex) as [i|] eqn:Ei.
  { destruct (run_of_some _ _ _ _ H Ei) as (rs & Hrs & _). by rewrite Hrs in Hc. }
  rewrite (run_of_none _ _ Ei) in Hc. destruct (run_of_some _ _ _ _ H Hk') as (rs & Hrs & _).
  destruct (Stdlib.Strings.String.eqb_spec k KindIndex) as [->|Hne].
  - assert (Hin : k' ∈ sort_strings (elements (dom (m_running m)))).
    { rewrite elem_of_sort_strings, elem_of_elements, elem_of_dom. by eexists. }
    destruct (sort_strings _) as [|k0 ks] eqn:Es; [by apply not_elem_of_nil in Hin|].
    assert (Hk0 : is_Some (m_running m !! k0)).
    { rewrite <- elem_of_dom, <- elem_of_elements, <- elem_of_sort_strings, Es. left. }
    destruct Hk0 as [i0 Hi0]. destruct (run_of_some _ _ _ _ H Hi0) as (rs0 & Hrs0 & _).
    by rewrite Hrs0 in Hc.
  - assert (k' = k) as ->.
    { destruct Hex as [-> |[?| ->]]; [done|done|congruence]. }
    by rewrite Hrs in Hc.
Qed.

Lemma conflict_some ops m k j : mgr_ok ops m -> conflictLocked m k = Some j ->
  exists k' id rs, m_running m !! k' = Some id /\ m_runs m !! id = Some rs /\ j = rs_job rs /\
    excludes k k' /\ is_running j.
Proof.
  intros H. unfold conflictLocked.
  assert (Hone : forall k0, excludes k k0 -> rs_job <$> run_of m k0 = Some j ->
    exists k' id rs, m_running m !! k' = Some id /\ m_runs m !! id = Some rs /\ j = rs_job rs /\
      excludes k k' /\ is_running j).
  { intros k0 Hex Hj. destruct (m_running m !! k0) as [id|] eqn:E.
    - destruct (run_of_some _ _ _ _ H E) as (rs & Hrs & Hr & _ & Hrun). rewrite Hrs in Hj.
      injection Hj as <-. by exists k0, id, rs.
    - by rewrite (run_of_none _ _ E) in Hj. }
  destruct (run_of m KindIndex) as [rs|] eqn:Ei.
  - intros Hj. apply (Hone KindIndex); [by right; right|]. by rewrite Ei.
  - destruct (Stdlib.Strings.String.eqb_spec k KindIndex) as [->|Hne].
    + destruct (sort_strings _) as [|k0 ks]; apply Hone; unfold excludes; auto.
    + apply Hone; by left.
Qed.

(** ** Preservation *)

(** An event that touches one run: the others keep their invariant when the
    table, the rows and their own entries stay what they were. *)
Lemma run_ok_frame m m' id rs p :
  run_ok m id rs p ->
  (active p -> m_running m' !! JKind (rs_job rs) = m_running m !! JKind (rs_job rs)) ->
  (forall st', m_ops m' = Some st' -> exists st, m_ops m = Some st /\ st' !! id = st !! id) ->
  run_ok m' id rs p.
Proof.
  intros [H1 H2 H3 H4 H5 H6 H7] Hs Ho. split; try done.
  - intros Ha. rewrite (Hs Ha). by apply H6.
  - intros st' row Hst Hrow. destruct (Ho st' Hst) as (st & Hst0 & E). rewrite E in Hrow. by eapply H7.
Qed.

(** A change confined to the run [id]: its record, its place, its row. *)
Lemma mgr_ok_local ops m m' id rs p rs' p' :
  mgr_ok ops m -> m_runs m !! id = Some rs -> m_pc m !! id = Some p ->
  m_runs m' = <[id := rs']> (m_runs m) -> m_pc m' = <[id := p']> (m_pc m) ->
  m_running m' = m_running m -> (active p <-> active p') -> JKind (rs_job rs') = JKind (rs_job rs) ->
  (is_Some (m_ops m') <-> is_Some (m_ops m)) ->
  (forall st' id', m_ops m' = Some st' -> id' <> id -> exists st, m_ops m = Some st /\ st' !! id' = st !! id') ->
  run_ok m' id rs' p' -> mgr_ok ops m'.
Proof.
  intros H Hr Hp Er Ep Erun Ha Hk Hops Hst Hok. split.
  - rewrite Hops. apply H.
  - intros id1 rs1. rewrite Er, Ep. destruct (decide (id1 = id)) as [->|Hne].
    + rewrite !lookup_insert_eq. intros [= <-]. by exists p'.
    + rewrite !lookup_insert_ne by done. intros Hr1.
      destruct (mo_runs _ _ H _ _ Hr1) as (p1 & Hp1 & Hok1). exists p1. split; [done|].
      eapply run_ok_frame; [exact Hok1|by rewrite Erun|]. intros st' E. by apply Hst.
  - intros id1 p1. rewrite Er, Ep. destruct (decide (id1 = id)) as [->|Hne];
      [by rewrite !lookup_insert_eq|rewrite !lookup_insert_ne by done; apply H].
  - intros k id1. rewrite Erun. intros Hk1.
    destruct (mo_running _ _ H _ _ Hk1) as (rs1 & p1 & H1 & H2 & H3 & H4). rewrite Er, Ep.
    destruct (decide (id1 = id)) as [->|Hne].
    + rewrite !lookup_insert_eq. exists rs', p'. rewrite Hr in H1. rewrite Hp in H2.
      injection H1 as <-. injection H2 as <-. split_and!; [done|done|congruence|by apply Ha].
    + rewrite !lookup_insert_ne by done. by exists rs1, p1.
  - intros id1. rewrite Erun. apply H.
  - intros st st0 id1 E1 E2 Hn. rewrite Er in Hn. apply lookup_insert_None in Hn as [Hn Hne].
    destruct (Hst st id1 E1 ltac:(congruence)) as (st1 & E3 & ->). by eapply (mo_old _ _ H).
Qed.

Lemma UpsertJob_same j st : exists c, UpsertJob j st !! ID j = Some (set_cpu c j).
Proof. unfold UpsertJob. rewrite lookup_insert_eq. by eexists. Qed.

Lemma UpsertJob_other j st id : id <> ID j -> UpsertJob j st !! id = st !! id.
Proof. intros H. unfold UpsertJob. by rewrite lookup_insert_ne. Qed.

(** The store after a persist: untouched elsewhere; at the job, the old row
    or the one written. *)
Lemma persist_other ok j m st' id' : m_ops (persist ok j m) = Some st' -> id' <> ID j ->
  exists st, m_ops m = Some st /\ st' !! id' = st !! id'.
Proof.
  cbn. destruct ok; [|by exists st']. destruct (m_ops m) as [st|]; [|done]. intros [= <-] Hne.
  exists st. by rewrite UpsertJob_other.
Qed.

Lemma persist_row ok j m st' row : m_ops (persist ok j m) = Some st' -> st' !! ID j = Some row ->
  State row = State j \/ exists st, m_ops m = Some st /\ st !! ID j = Some row.
Proof.
  cbn. destruct ok; [|eauto]. destruct (m_ops m) as [st|]; [|done]. intros [= <-] Hrow.
  destruct (UpsertJob_same j st) as [c Hc]. rewrite Hc in Hrow. injection Hrow as <-. by left.
Qed.

Lemma persist_some ok j m : is_Some (m_ops (persist ok j m)) <-> is_Some (m_ops m).
Proof. cbn. destruct ok; [|done]. by rewrite fmap_is_Some. Qed.

Lemma lastN_length l n : length (lastN l n) <= n.
Proof. unfold lastN. rewrite length_drop. lia. Qed.

Lemma snapshot_snap id rs : ID (rs_job rs) = id -> snap_of id (JKind (rs_job rs)) (snapshotLocked rs).
Proof. intros H. split_and!; [done|done|]. apply lastN_length. Qed.

Lemma final_state_terminal c err s e : final_state c err = (s, e) ->
  terminal s /\ (s = "canceled" -> c = true) /\ (s = "succeeded" <-> err = None).
Proof.
  unfold final_state, terminal. destruct err; [destruct c|]; intros [= <- <-]; split_and!; naive_solver.
Qed.

(** An event on the run [id] that writes no row. *)
Lemma mgr_ok_quiet ops m m' id rs p rs' p' :
  mgr_ok ops m -> m_runs m !! id = Some rs -> m_pc m !! id = Some p ->
  m_runs m' = <[id := rs']> (m_runs m) -> m_pc m' = <[id := p']> (m_pc m) ->
  m_running m' = m_running m -> m_ops m' = m_ops m -> (active p <-> active p') ->
  JKind (rs_job rs') = JKind (rs_job rs) -> ID (rs_job rs') = ID (rs_job rs) ->
  LogTail (rs_job rs') = [] -> length (rs_log rs') <= logRingCap ->
  (State (rs_job rs') = "canceled" -> rs_canceled rs' = true) -> pc_ok p' id rs' ->
  (forall row, row_ok p rs row -> row_ok p' rs' row) -> mgr_ok ops m'.
Proof.
  intros H Hr Hp Er Ep Erun Eops Ha Hk Hi Ht Hl Hc Hpc Hrow.
  pose proof (mgr_run _ _ _ _ _ H Hr Hp) as [H1 H2 H3 H4 H5 H6 H7].
  eapply mgr_ok_local; try eassumption; [by rewrite Eops| |].
  - rewrite Eops. intros st' id' E _. by exists st'.
  - split; [congruence|done|done|done|done| |].
    + intros Hact. rewrite Erun, Hk. apply H6. by apply Ha.
    + rewrite Eops. intros st row E1 E2. by eapply Hrow, H7.
Qed.

(** The three writes of a row. *)
Lemma mgr_ok_persist ops m id rs p j ok p' :
  mgr_ok ops m -> m_runs m !! id = Some rs -> m_pc m !! id = Some p -> ID j = id ->
  (active p <-> active p') -> pc_ok p' id rs ->
  (forall row, row_ok p rs row -> row_ok p' rs row) ->
  (forall row, State row = State j -> row_ok p' rs row) ->
  mgr_ok ops (with_pc id p' (persist ok j m)).
Proof.
  intros H Hr Hp Hid Ha Hpc Hrow1 Hrow2.
  pose proof (mgr_run _ _ _ _ _ H Hr Hp) as [H1 H2 H3 H4 H5 H6 H7].
  eapply (mgr_ok_local ops m _ id rs p rs p'); try done.
  - cbn. by rewrite insert_id.
  - apply persist_some.
  - intros st' id' E Hne. eapply (persist_other ok j); [exact E|by rewrite Hid].
  - split; try done.
    + intros Hact. apply H6. by apply Ha.
    + intros st row E1 E2. rewrite <- Hid in E2.
      destruct (persist_row _ _ _ _ _ E1 E2) as [Hs|(st0 & E3 & E4)]; [by apply Hrow2|].
      apply Hrow1. eapply H7; [exact E3|by rewrite <- Hid].
Qed.


Ltac at_run H Hp Hr Hok :=
  match type of Hp with m_pc ?m !! ?id = Some ?p =>
    destruct (mo_pc _ _ H _ _ Hp) as [rs Hr]; pose proof (mgr_run _ _ _ _ _ H Hr Hp) as Hok end.

Lemma exec_persist ops m m' id ok : mgr_ok ops m -> exec (EPersist id ok) m = Some m' -> mgr_ok ops m'.
Proof.
  intros H. cbn [exec]. destruct (m_pc m !! id) as [p|] eqn:Hp; [|done]. at_run H Hp Hr Hok.
  rewrite Hr. pose proof (ro_id _ _ _ _ Hok) as Hid. pose proof (ro_pc _ _ _ _ Hok) as Hpc.
  destruct p as [| |j|j|s e r|j|j|]; intros [= <-]; cbn in Hpc.
  - eapply mgr_ok_persist; try done. intros row Hs. cbn. unfold is_running in *. congruence.
  - destruct Hpc as (Hrun & (Hj & Hk & Hl) & Hjr).
    eapply mgr_ok_persist; try done. intros row Hs. cbn. unfold is_running in *. congruence.
  - destruct Hpc as (Ht & (Hj & Hk & Hl) & Hs).
    eapply mgr_ok_persist; try done; cbn; [by left|]. intros row Hs'. right. congruence.
Qed.

Lemma exec_broadcast ops m m' id : mgr_ok ops m -> exec (EBroadcast id) m = Some m' -> mgr_ok ops m'.
Proof.
  intros H. cbn [exec]. destruct (m_pc m !! id) as [p|] eqn:Hp; [|done]. at_run H Hp Hr Hok.
  pose proof (ro_pc _ _ _ _ Hok) as Hpc. destruct Hok as [H1 H2 H3 H4 H5 H6 H7].
  destruct p as [| |j|j|s e r|j|j|]; try done; intros [= <-]; cbn in Hpc;
    (eapply (mgr_ok_quiet ops m _ id rs _ rs); try done; [by rewrite insert_id|tauto..]).
Qed.

Lemma exec_log ops m m' id line : mgr_ok ops m -> exec (ELog id line) m = Some m' -> mgr_ok ops m'.
Proof.
  intros H. cbn [exec]. destruct (m_pc m !! id) as [p|] eqn:Hp; [|done]. at_run H Hp Hr Hok.
  rewrite Hr. destruct Hok as [H1 H2 H3 H4 H5 H6 H7]. destruct p; try done. intros [= <-].
  assert (E : rs_job (appendLog line rs) = rs_job rs /\ rs_canceled (appendLog line rs) = rs_canceled rs)
    by (unfold appendLog; by destruct (str_eqb line "")).
  destruct E as [E1 E2].
  eapply (mgr_ok_quiet ops m _ id rs _ (appendLog line rs)); try done; rewrite ?E1, ?E2; try done.
  - cbn. by rewrite insert_id.
  - unfold appendLog. destruct (str_eqb line ""); [done|apply lastN_length].
  - cbn. by rewrite E1.
Qed.

Lemma exec_progress ops m m' id d t now : mgr_ok ops m ->
  exec (EProgress id d t now) m = Some m' -> mgr_ok ops m'.
Proof.
  intros H. cbn [exec]. destruct (m_pc m !! id) as [p|] eqn:Hp; [|done]. at_run H Hp Hr Hok.
  rewrite Hr. destruct Hok as [H1 H2 H3 H4 H5 H6 H7]. destruct p; try done. intros [= <-].
  unfold progress_locked. destruct (match rs_lastPersist rs with Some _ => _ | None => _ end).
  - eapply (mgr_ok_quiet ops m _ id rs _ (mkRun (set_progress d t (rs_job rs)) _ _ _)); try done.
    cbn. by rewrite insert_id.
  - set (rs' := mkRun (set_progress d t (rs_job rs)) (rs_canceled rs) (rs_log rs) (Some now)).
    eapply (mgr_ok_quiet ops m _ id rs _ rs'); try done.
    cbn [pc_ok]. split_and!; [done| |done]. by apply snapshot_snap.
Qed.

Lemma exec_workdone ops m m' id res err : mgr_ok ops m ->
  exec (EWorkDone id res err) m = Some m' -> mgr_ok ops m'.
Proof.
  intros H. cbn [exec]. destruct (m_pc m !! id) as [p|] eqn:Hp; [|done]. at_run H Hp Hr Hok.
  rewrite Hr. destruct Hok as [H1 H2 H3 H4 H5 H6 H7]. destruct p; try done.
  destruct (final_state (rs_canceled rs) err) as [s e] eqn:E. intros [= <-].
  destruct (final_state_terminal _ _ _ _ E) as (Ht & Hc & _).
  eapply (mgr_ok_quiet ops m _ id rs _ rs); try done. cbn. by rewrite insert_id.
Qed.

Lemma exec_cancel ops m m' id : mgr_ok ops m -> exec (ECancel id) m = Some m' -> mgr_ok ops m'.
Proof.
  intros H. cbn [exec]. destruct (m_runs m !! id) as [rs|] eqn:Hr; [|done]. intros [= <-].
  destruct (mo_runs _ _ H _ _ Hr) as (p & Hp & [H1 H2 H3 H4 H5 H6 H7]).
  eapply (mgr_ok_quiet ops m _ id rs p (mkRun (rs_job rs) true (rs_log rs) (rs_lastPersist rs)) p);
    try done.
  - cbn. by rewrite insert_id.
  - destruct p; cbn in *; naive_solver.
Qed.

Lemma exec_finish ops m m' id now p cpu : mgr_ok ops m ->
  exec (EFinish id now p cpu) m = Some m' -> mgr_ok ops m'.
Proof.
  intros H. cbn [exec]. destruct (m_pc m !! id) as [p0|] eqn:Hp; [|done]. at_run H Hp Hr Hok.
  rewrite Hr. pose proof Hok as [H1 H2 H3 H4 H5 H6 H7]. destruct p0 as [| |j|j|s e r|j|j|]; try done.
  intros [= <-]. cbn in H5. destruct H5 as (Hrun & Ht & Hc).
  unfold finish_locked. set (rs' := mkRun _ (rs_canceled rs) _ _).
  set (k := JKind (rs_job rs)). specialize (H6 I). split; cbn.
  - apply H.
  - intros id1 rs1. destruct (decide (id1 = id)) as [->|Hne].
    + rewrite !lookup_insert_eq. intros [= <-]. eexists. split; [done|].
      split; cbn; [done..|exact Hc| |done|intros st row E1 E2; by eapply H7].
      split_and!; [done| |done]. by apply (snapshot_snap id rs').
    + rewrite !lookup_insert_ne by done. intros Hr1.
      destruct (mo_runs _ _ H _ _ Hr1) as (p1 & Hp1 & Hok1). exists p1. split; [done|].
      eapply run_ok_frame; [exact Hok1| |intros st' E; by exists st'].
      intros Ha. cbn. rewrite lookup_delete_ne; [done|]. intros E.
      pose proof (ro_slot _ _ _ _ Hok1 Ha) as E1. unfold k in E. rewrite <- E, H6 in E1. congruence.
  - intros id1 p1. destruct (decide (id1 = id)) as [->|Hne];
      [by rewrite !lookup_insert_eq|rewrite !lookup_insert_ne by done; apply H].
  - intros k1 id1 [Hne Hk1]%lookup_delete_Some.
    destruct (mo_running _ _ H _ _ Hk1) as (rs1 & p1 & E1 & E2 & E3 & E4).
    assert (Hid1 : id1 <> id) by (intros ->; unfold k in Hne; congruence).
    rewrite !lookup_insert_ne by done. by exists rs1, p1.
  - intros id1 [_ Hi]%lookup_delete_Some k1 id2 [_ Hk1]%lookup_delete_Some. by eapply (mo_index _ _ H).
  - intros st st0 id1 E1 E2 [Hn _]%lookup_insert_None. by eapply (mo_old _ _ H).
Qed.

Lemma exec_start ops m m' kind args id now : mgr_ok ops m -> fresh m id ->
  exec (EStart kind args id now) m = Some m' -> mgr_ok ops m'.
Proof.
  intros H [Hf1 Hf2]. cbn [exec]. unfold start_locked. destruct (conflictLocked m kind) eqn:E; [done|].
  intros [= <-]. pose proof (conflict_none _ _ _ H E) as Hno.
  assert (Hfree : m_running m !! kind = None).
  { destruct (m_running m !! kind) as [i|] eqn:Ek; [|done]. exfalso. by eapply Hno; [exact Ek|left]. }
  split; cbn.
  - apply H.
  - intros id1 rs1. destruct (decide (id1 = id)) as [->|Hne].
    + rewrite !lookup_insert_eq. intros [= <-]. exists PStart. split; [done|].
      split; try done; cbn; [lia|by rewrite lookup_insert_eq|].
      intros st row E1 E2. by rewrite (Hf2 _ E1) in E2.
    + rewrite !lookup_insert_ne by done. intros Hr1.
      destruct (mo_runs _ _ H _ _ Hr1) as (p1 & Hp1 & Hok1). exists p1. split; [done|].
      eapply run_ok_frame; [exact Hok1| |intros st' E1; by exists st'].
      intros Ha. cbn. rewrite lookup_insert_ne; [done|]. intros Ek.
      pose proof (ro_slot _ _ _ _ Hok1 Ha) as E1. rewrite <- Ek in E1. congruence.
  - intros id1 p1. destruct (decide (id1 = id)) as [->|Hne];
      [by rewrite !lookup_insert_eq|rewrite !lookup_insert_ne by done; apply H].
  - intros k1 id1. destruct (decide (k1 = kind)) as [->|Hne].
    + rewrite lookup_insert_eq. intros [= <-]. rewrite !lookup_insert_eq.
      eexists _, PStart. by split_and!.
    + rewrite lookup_insert_ne by done. intros Hk1.
      destruct (mo_running _ _ H _ _ Hk1) as (rs1 & p1 & E1 & E2 & E3 & E4).
      rewrite !lookup_insert_ne by congruence. by exists rs1, p1.
  - intros id1 Hi k1 id2 Hk1. destruct (decide (kind = KindIndex)) as [->|Hki].
    + destruct (decide (k1 = KindIndex)) as [->|Hne]; [done|]. rewrite lookup_insert_ne in Hk1 by done.
      exfalso. eapply Hno; [exact Hk1|by right; left].
    + rewrite lookup_insert_ne in Hi by done. exfalso. eapply Hno; [exact Hi|by right; right].
  - intros st st0 id1 E1 E2 [Hn _]%lookup_insert_None. by eapply (mo_old _ _ H).
Qed.

Lemma step_ok ops m m' : mgr_ok ops m -> step m m' -> mgr_ok ops m'.
Proof.
  intros H [ev m1 Hs He]. destruct ev.
  - destruct (Hs _ _ _ _ eq_refl) as (Hf & _). by eapply exec_start.
  - by eapply exec_persist.
  - by eapply exec_broadcast.
  - by eapply exec_log.
  - by eapply exec_progress.
  - by eapply exec_workdone.
  - by eapply exec_finish.
  - by eapply exec_cancel.
Qed.

Lemma reachable_ok ops m : reachable ops m -> mgr_ok ops m.
Proof. induction 1; [apply mgr_ok_new|by eapply step_ok]. Qed.

(** ** Rows *)

Lemma not_running_terminal s : terminal s -> s <> "running".
Proof. by intros [->|[->| ->]]. Qed.

Lemma exec_ops ev m m' st : exec ev m = Some m' -> m_ops m = Some st ->
  exists st', m_ops m' = Some st' /\
    (st' = st \/ exists id j, ev = EPersist id true /\ st' = UpsertJob j st /\
      ((m_pc m !! id = Some PStart /\ exists rs, m_runs m !! id = Some rs /\ j = rs_job rs) \/
       m_pc m !! id = Some (PProgress j) \/ m_pc m !! id = Some (PFinal j))).
Proof.
  intros H Hst. destruct ev; cbn [exec] in H.
  - unfold start_locked in H. destruct (conflictLocked m kind); [done|]. injection H as <-. exists st. auto.
  - destruct (m_pc m !! id) as [p|] eqn:Hp; [|done].
    destruct p as [| |j|j|s e r|j|j|]; [destruct (m_runs m !! id) as [rs|] eqn:Hr|..]; try done;
      injection H as <-; cbn; (destruct ok; [rewrite Hst; eexists; (split; [done|]); right;
        eexists _, _; (split; [done|]); (split; [done|])|exists st; auto]).
    + left. split; [done|]. by eexists.
    + right. by left.
    + right. by right.
  - destruct (m_pc m !! id) as [[]|]; try done; injection H as <-; exists st; auto.
  - destruct (m_pc m !! id) as [[]|], (m_runs m !! id); try done; injection H as <-; exists st; auto.
  - destruct (m_pc m !! id) as [[]|], (m_runs m !! id) as [rs|]; try done; injection H as <-.
    unfold progress_locked. destruct (match rs_lastPersist rs with Some _ => _ | None => _ end); exists st; auto.
  - destruct (m_pc m !! id) as [[]|], (m_runs m !! id) as [rs|]; try done.
    destruct (final_state _ _). injection H as <-. exists st; auto.
  - destruct (m_pc m !! id) as [[]|], (m_runs m !! id) as [rs|]; try done; injection H as <-.
    exists st; auto.
  - destruct (m_runs m !! id) as [rs|]; [|done]. injection H as <-. exists st; auto.
Qed.

Lemma step_row ops m m' st id row : mgr_ok ops m -> step m m' -> m_ops m = Some st ->
  st !! id = Some row -> State row <> "running" ->
  exists st', m_ops m' = Some st' /\ st' !! id = Some row.
Proof.
  intros H [ev m1 Hs He] Hst Hrow Hterm.
  destruct (exec_ops _ _ _ _ He Hst) as (st' & Hst' & [->|(id1 & j & -> & -> & Hw)]); [eauto|].
  assert (Hrun : exists rs p, m_runs m !! id1 = Some rs /\ m_pc m !! id1 = Some p /\ ID j = id1 /\
    forall row, row_ok p rs row -> is_running row).
  { assert (Hat : exists rs p, m_runs m !! id1 = Some rs /\ m_pc m !! id1 = Some p).
    { destruct Hw as [[Hp _]|[Hp|Hp]]; destruct (mo_pc _ _ H _ _ Hp); eauto. }
    destruct Hat as (rs & p & Hr & Hp). exists rs, p.
    pose proof (mgr_run _ _ _ _ _ H Hr Hp) as [H1 _ _ _ H5 _ _].
    destruct Hw as [[Hp' (rs' & Hr' & ->)]|[Hp'|Hp']]; rewrite Hp' in Hp; injection Hp as <-; cbn in H5.
    - rewrite Hr in Hr'. by injection Hr' as <-.
    - destruct H5 as (_ & (Hid & _) & _). by split_and!.
    - destruct H5 as (_ & (Hid & _) & _). by split_and!. }
  destruct Hrun as (rs & p & Hr & Hp & Hid & Hro). exists (UpsertJob j st). split; [done|].
  destruct (decide (id = id1)) as [->|Hne]; [|by rewrite UpsertJob_other by congruence].
  exfalso. apply Hterm, Hro. eapply (ro_row _ _ _ _ (mgr_run _ _ _ _ _ H Hr Hp)); eassumption.
Qed.

(** Any number of events. *)
Inductive steps : Manager -> Manager -> Prop :=
| steps_refl m : steps m m
| steps_step m m1 m2 : step m m1 -> steps m1 m2 -> steps m m2.

(** A table that runs a list of events, for concrete interleavings. *)
Fixpoint run_events (evs : list Event) (m : Manager) : option Manager :=
  match evs with
  | [] => Some m
  | ev :: evs' => exec ev m ≫= run_events evs'
  end.

(** The events of which no start is among them need no freshness. *)
Definition no_start (ev : Event) : bool := match ev with EStart _ _ _ _ => false | _ => true end.

Lemma run_events_steps evs m m' : forallb no_start evs = true -> run_events evs m = Some m' -> steps m m'.
Proof.
  revert m. induction evs as [|ev evs IH]; intros m Hn H; cbn in H.
  - injection H as <-. constructor.
  - cbn in Hn. apply andb_true_iff in Hn as [Hn1 Hn2]. destruct (exec ev m) as [m1|] eqn:E; [|done].
    cbn in H. econstructor; [|by apply IH]. econstructor; [|exact E]. intros ? ? ? ? ->. done.
Qed.

Lemma steps_reachable ops m m' : reachable ops m -> steps m m' -> reachable ops m'.
Proof. intros H Hs. induction Hs; [done|]. apply IHHs. by eapply reach_step. Qed.

(** ** Properties *)

(** C29: single flight.  Whatever the interleaving, every entry of the running
    table is a live job of that kind in state running, no job holds two
    entries, and while an index job holds its slot no other kind has one. *)
Theorem single_flight ops m : reachable ops m ->
  (forall k id, m_running m !! k = Some id -> exists rs, m_runs m !! id = Some rs /\
     ID (rs_job rs) = id /\ JKind (rs_job rs) = k /\ State (rs_job rs) = "running") /\
  (forall k k' id, m_running m !! k = Some id -> m_running m !! k' = Some id -> k = k') /\
  (forall k id id', m_running m !! KindIndex = Some id -> m_running m !! k = Some id' -> k = KindIndex).
Proof.
  intros H%reachable_ok. split_and!.
  - intros k id Hk. destruct (run_of_some _ _ _ _ H Hk) as (rs & _ & Hr & Hkind & Hrun).
    destruct (mo_runs _ _ H _ _ Hr) as (p & _ & Hok). exists rs. by rewrite (ro_id _ _ _ _ Hok).
  - intros k k' id Hk Hk'. destruct (run_of_some _ _ _ _ H Hk) as (rs & _ & Hr & <- & _).
    destruct (run_of_some _ _ _ _ H Hk') as (rs' & _ & Hr' & <- & _). congruence.
  - intros k id id' Hi Hk. by eapply (mo_index _ _ H).
Qed.

(** C30: Start refuses a job exactly when a running one excludes it (the same
    kind, or an index job on either side), naming such a job; otherwise the
    job takes the free slot of its kind in state running. *)
Theorem start_conflict ops m kind args id now : reachable ops m ->
  match start_locked kind args id now m with
  | Err e => exists k' id' rs, m_running m !! k' = Some id' /\ m_runs m !! id' = Some rs /\
      excludes kind k' /\ e = ErrConflict (rs_job rs)
  | Ok (job, m') => (forall k' id', m_running m !! k' = Some id' -> ~ excludes kind k') /\
      State job = "running" /\ ID job = id /\ m_running m' = <[kind := id]> (m_running m)
  end.
Proof.
  intros H%reachable_ok. unfold start_locked. destruct (conflictLocked m kind) as [j|] eqn:E.
  - destruct (conflict_some _ _ _ _ H E) as (k' & id' & rs & H1 & H2 & -> & H3 & _). by exists k', id', rs.
  - split_and!; try done. by eapply conflict_none.
Qed.

(** Once the persisted row of a job is not running (it succeeded, failed
    or was canceled), no later event of any job changes it: a progress write
    never overwrites a final one. *)
Theorem final_row_stable ops m m' st id row : reachable ops m -> steps m m' ->
  m_ops m = Some st -> st !! id = Some row -> State row <> "running" ->
  exists st', m_ops m' = Some st' /\ st' !! id = Some row.
Proof.
  intros H Hs. revert st. induction Hs as [m|m m1 m2 H1 _ IH]; intros st Hst Hrow Ht; [eauto|].
  destruct (step_row _ _ _ _ _ _ (reachable_ok _ _ H) H1 Hst Hrow Ht) as (st1 & Hst1 & Hrow1).
  eapply IH; [by eapply reach_step|done..].
Qed.

(** A job of this process that ended up canceled had its cancellation
    requested, and a job found running by Get is answered with its live state
    and at most the last fifty log lines. *)
Theorem canceled_was_requested ops m id rs : reachable ops m -> m_runs m !! id = Some rs ->
  (State (rs_job rs) = "canceled" -> rs_canceled rs = true) /\
  (forall m' j, Get m m' id = Ok j -> find_running m id = Some rs ->
     State j = State (rs_job rs) /\ length (LogTail j) <= 50 /\
     suffix (LogTail j) (rs_log rs)).
Proof.
  intros H%reachable_ok Hr. destruct (mo_runs _ _ H _ _ Hr) as (p & Hp & Hok). split; [apply Hok|].
  intros m' j Hg Hf. unfold Get in Hg. rewrite Hf in Hg. injection Hg as <-. split_and!; [done| |].
  - apply lastN_length.
  - cbn. unfold lastN. eexists. symmetry. apply take_drop.
Qed.

(** A manager with a running index job, and the same job after its work has
    finished but before its final write. *)
Definition demo_m0 : Manager := NewManager (Some ∅).
Definition demo_m1 : Manager :=
  match start_locked KindIndex "" "j1" "t0" demo_m0 with Ok (_, m) => m | Err _ => demo_m0 end.
Definition demo_window : list Event :=
  [EPersist "j1" true; ELog "j1" "parsed"; EWorkDone "j1" "" None; EFinish "j1" "t1" Profile0 []].
Definition demo_m2 : Manager := default demo_m1 (run_events demo_window demo_m1).
Definition demo_m3 : Manager := default demo_m2 (exec (EPersist "j1" true) demo_m2).

Lemma demo_m1_reachable : reachable (Some ∅) demo_m1.
Proof.
  eapply reach_step; [apply reach_new|]. apply (step_event _ (EStart KindIndex "" "j1" "t0")).
  - intros k a i n [= <- <- <- <-]. split_and!; [|done|by eexists].
    split; [done|]. intros st [= <-]. done.
  - vm_compute. reflexivity.
Qed.

Lemma demo_m2_reachable : reachable (Some ∅) demo_m2.
Proof.
  eapply steps_reachable; [apply demo_m1_reachable|]. apply (run_events_steps demo_window); [done|].
  vm_compute. reflexivity.
Qed.

Lemma single_flight_witness :
  m_running demo_m1 !! KindIndex = Some "j1" /\
  forall k id, m_running demo_m1 !! k = Some id -> k = KindIndex.
Proof.
  assert (H : m_running demo_m1 !! KindIndex = Some "j1") by (vm_compute; reflexivity).
  split; [exact H|]. destruct (single_flight (Some ∅) demo_m1 demo_m1_reachable) as (_ & _ & Hi).
  intros k id Hk. exact (Hi k "j1" id H Hk).
Defined.

Lemma start_conflict_witness :
  exists j, start_locked KindEval "" "j2" "t1" demo_m1 = Err (ErrConflict j) /\ ID j = "j1" /\
    exists k' id', m_running demo_m1 !! k' = Some id' /\ excludes KindEval k'.
Proof.
  pose proof (start_conflict (Some ∅) demo_m1 KindEval "" "j2" "t1" demo_m1_reachable) as H.
  destruct (start_locked KindEval "" "j2" "t1" demo_m1) as [[j m]|e] eqn:E; [vm_compute in E; discriminate E|].
  destruct H as (k' & id' & rs & H1 & H2 & H3 & He). remember (rs_job rs) as j eqn:Ej. exists j. subst e.
  split; [reflexivity|]. split; [|exists k', id'; split; [exact H1|exact H3]].
  clear Ej. vm_compute in E. injection E as <-. reflexivity.
Defined.

Lemma final_row_stable_witness :
  exists st row, m_ops demo_m3 = Some st /\ st !! "j1" = Some row /\ State row = "succeeded" /\
    forall m', steps demo_m3 m' -> exists st', m_ops m' = Some st' /\ st' !! "j1" = Some row.
Proof.
  assert (Hr : reachable (Some ∅) demo_m3).
  { eapply steps_reachable; [apply demo_m2_reachable|].
    apply (run_events_steps [EPersist "j1" true]); [done|vm_compute; reflexivity]. }
  destruct (m_ops demo_m3) as [st|] eqn:Eo; [|vm_compute in Eo; discriminate Eo].
  destruct (st !! "j1") as [row|] eqn:Er.
  2:{ vm_compute in Eo. injection Eo as <-. vm_compute in Er. discriminate Er. }
  assert (Hs : State row = "succeeded").
  { vm_compute in Eo. injection Eo as <-. vm_compute in Er. injection Er as <-. reflexivity. }
  exists st, row. split; [reflexivity|]. split; [exact Er|]. split; [exact Hs|]. intros m' Hm.
  apply (final_row_stable (Some ∅) demo_m3 m' st "j1" row Hr Hm Eo Er). rewrite Hs. discriminate.
Defined.

Lemma canceled_was_requested_witness :
  exists rs, m_runs demo_m1 !! "j1" = Some rs /\ (State (rs_job rs) = "canceled" -> rs_canceled rs = true) /\
    exists j, Get demo_m1 demo_m1 "j1" = Ok j /\ State j = "running" /\ length (LogTail j) <= 50.
Proof.
  destruct (m_runs demo_m1 !! "j1") as [rs|] eqn:Er; [|vm_compute in Er; discriminate Er].
  destruct (canceled_was_requested (Some ∅) demo_m1 "j1" rs demo_m1_reachable Er) as [H1 H2].
  exists rs. split; [reflexivity|]. split; [exact H1|].
  assert (Hf : find_running demo_m1 "j1" = Some rs) by (rewrite <- Er; vm_compute; reflexivity).
  exists (snapshotLocked rs). assert (Hg : Get demo_m1 demo_m1 "j1" = Ok (snapshotLocked rs)).
  { unfold Get. by rewrite Hf. }
  split; [exact Hg|]. destruct (H2 demo_m1 _ Hg Hf) as (_ & Hl & _). split; [|exact Hl].
  vm_compute in Er. injection Er as <-. reflexivity.
Defined.

(** Between the critical section that ends a job and its final write, Get
    still answers running and Cancel calls the row stale from a previous
    process, although the job of this process has succeeded. *)
Theorem Get_stale_window :
  exists m rs j, reachable (Some ∅) m /\ m_runs m !! "j1" = Some rs /\ State (rs_job rs) = "succeeded" /\
    Get m m "j1" = Ok j /\ State j = "running" /\ Cancel m m "j1" = Err (ErrStale "j1").
Proof.
  exists demo_m2. destruct (m_runs demo_m2 !! "j1") as [rs|] eqn:Er; [|vm_compute in Er; discriminate Er].
  destruct (Get demo_m2 demo_m2 "j1") as [j|e] eqn:Eg; [|vm_compute in Eg; discriminate Eg].
  exists rs, j. split_and!; [apply demo_m2_reachable|done| |done| |vm_compute; reflexivity].
  - vm_compute in Er. injection Er as <-. reflexivity.
  - vm_compute in Eg. injection Eg as <-. reflexivity.
Qed.

(** ** lineWriter *)

Definition newline : ascii := "010"%char.

(** The bytes a list of complete lines came from. *)
Definition unlines (ls : list string) : list ascii := concat (map (fun l => str_bytes l ++ [newline]) ls).

Lemma line_write_app buf p q :
  line_write buf (p ++ q) =
    let '(l1, b1) := line_write buf p in
    let '(l2, b2) := line_write b1 q in (l1 ++ l2, b2).
Proof.
  revert buf. induction p as [|b p IH]; intros buf; cbn [app line_write].
  - by destruct (line_write buf q).
  - destruct (Ascii.eqb b "010"%char); [|apply IH]. rewrite IH.
    destruct (line_write [] p) as [l1 b1]. by destruct (line_write b1 q).
Qed.

Lemma line_write_lossless buf p ls buf' : newline ∉ buf -> line_write buf p = (ls, buf') ->
  buf ++ p = unlines ls ++ buf' /\ newline ∉ buf' /\ Forall (fun l => newline ∉ str_bytes l) ls.
Proof.
  revert buf ls. induction p as [|b p IH]; intros buf ls Hb H; cbn [line_write] in H.
  - injection H as <- <-. by rewrite app_nil_r.
  - destruct (Ascii.eqb_spec b "010"%char) as [->|Hne].
    + destruct (line_write [] p) as [l1 b1] eqn:E. injection H as <- <-.
      destruct (IH [] l1 (not_elem_of_nil _) E) as (H1 & H2 & H3). cbn in H1. split_and!; [|done|].
      * unfold unlines. cbn [map concat]. rewrite Stdlib.Strings.String.list_ascii_of_string_of_list_ascii.
        fold (unlines l1). rewrite H1, <- !app_assoc. done.
      * constructor; [|done]. by rewrite Stdlib.Strings.String.list_ascii_of_string_of_list_ascii.
    + destruct (IH (buf ++ [b]) ls) as (H1 & H2 & H3); [|done|].
      * rewrite not_elem_of_app, list_elem_of_singleton. split; [done|]. unfold newline. congruence.
      * split_and!; [by rewrite <- app_assoc in H1|done..].
Qed.

(** The log writer loses nothing: for writes cut anywhere, the lines it
    forwards and the bytes it still holds spell out everything written, and no
    forwarded line contains a newline. *)
Theorem lineWriter_lossless buf p q ls buf' : newline ∉ buf ->
  (let '(l1, b1) := line_write buf p in
   let '(l2, b2) := line_write b1 q in (l1 ++ l2, b2)) = (ls, buf') ->
  buf ++ p ++ q = unlines ls ++ buf' /\ Forall (fun l => newline ∉ str_bytes l) ls.
Proof.
  intros Hb H. rewrite <- line_write_app in H.
  by destruct (line_write_lossless _ _ _ _ Hb H) as (H1 & _ & H2).
Qed.

Lemma lineWriter_lossless_witness :
  str_bytes "a" ++ str_bytes "b" ++ [newline; "c"%char] = unlines ["ab"] ++ ["c"%char].
Proof.
  apply (lineWriter_lossless (str_bytes "a") (str_bytes "b") [newline; "c"%char] ["ab"] ["c"%char]).
  - intros [H|H%not_elem_of_nil]%elem_of_cons; [discriminate H|done].
  - vm_compute. reflexivity.
Defined.
