(* ===== verification/JobsLive.v ===== *)
(** Liveness of the job manager: along every infinite interleaving that keeps
    scheduling a job's goroutine and in which the job's own work returns, the
    job ends, frees its slot for good and is announced done exactly once. *)
From S2P Require Import Prelude DlStrata Jobs JobsSpec.

(** ** Whose event it is *)

(** The goroutine an event belongs to; starting and canceling are calls of
    other goroutines. *)
Definition owner (ev : Event) : option string :=
  match ev with
  | EPersist id _ | EBroadcast id | ELog id _ | EProgress id _ _ _
  | EWorkDone id _ _ | EFinish id _ _ _ => Some id
  | EStart _ _ _ _ | ECancel _ => None
  end.

(** The calls a job's work makes back into the manager before it returns. *)
Definition callback (ev : Event) : bool :=
  match ev with ELog _ _ | EProgress _ _ _ _ => true | _ => false end.

(** How many critical sections a goroutine still has before it, callbacks of
    its work not counted. *)
Definition remaining (p : pc) : nat :=
  match p with
  | PProgress _ => 6 | PProgressDone _ => 5 | PStart => 5 | PWork => 4
  | PEnd _ _ _ => 3 | PFinal _ => 2 | PFinalDone _ => 1 | PExit => 0
  end.

Definition enabled_start (m : Manager) (ev : Event) : Prop :=
  forall kind args id now, ev = EStart kind args id now ->
    fresh m id /\ validKind kind = true /\ is_Some (m_ops m).

(** ** Executions *)

(** An infinite interleaving: at each instant nothing, or one event. *)
Record execution (ops : option JobStore) (ev : nat -> option Event) (m : nat -> Manager) : Prop := {
  ex_first : reachable ops (m 0);
  ex_next : forall n, match ev n with
    | None => m (S n) = m n
    | Some e => enabled_start (m n) e /\ exec e (m n) = Some (m (S n))
    end
}.

(** The goroutine of [id] is scheduled again as long as it has not exited. *)
Definition scheduled (id : string) (ev : nat -> option Event) (m : nat -> Manager) : Prop :=
  forall n p, m_pc (m n) !! id = Some p -> p <> PExit ->
    exists k e, n <= k /\ ev k = Some e /\ owner e = Some id.

(** The work of [id] returns: from some instant on it calls back no more. *)
Definition work_returns (id : string) (ev : nat -> option Event) : Prop :=
  exists N, forall k e, N <= k -> ev k = Some e -> owner e = Some id -> callback e = false.

(** ** One event *)

(** The goroutines of other jobs do not move this one. *)
Lemma exec_pc_other ev m m' id p : enabled_start m ev -> exec ev m = Some m' ->
  m_pc m !! id = Some p -> is_Some (m_runs m !! id) -> owner ev <> Some id -> m_pc m' !! id = Some p.
Proof.
  intros Hs H Hp [rs Hr] Ho. destruct ev as [kind args i now|i ok|i|i l|i d t now|i r e|i now pr cpu|i];
    cbn [exec owner] in *; try (assert (i <> id) as Hne by congruence).
  - destruct (Hs _ _ _ _ eq_refl) as ((Hf & _) & _). unfold start_locked in H.
    destruct (conflictLocked m kind); [done|]. injection H as <-. cbn.
    rewrite lookup_insert_ne; [done|]. intros ->. congruence.
  - destruct (m_pc m !! i) as [[]|], (m_runs m !! i) as [rs'|]; try done;
      injection H as <-; cbn; by rewrite lookup_insert_ne.
  - destruct (m_pc m !! i) as [[]|]; try done; injection H as <-; cbn; by rewrite lookup_insert_ne.
  - destruct (m_pc m !! i) as [[]|], (m_runs m !! i) as [rs'|]; try done; by injection H as <-.
  - destruct (m_pc m !! i) as [[]|], (m_runs m !! i) as [rs'|]; try done; injection H as <-.
    unfold progress_locked. destruct (match rs_lastPersist rs' with Some _ => _ | None => _ end);
      cbn; [done|by rewrite lookup_insert_ne].
  - destruct (m_pc m !! i) as [[]|], (m_runs m !! i) as [rs'|]; try done.
    destruct (final_state _ _). injection H as <-. cbn. by rewrite lookup_insert_ne.
  - destruct (m_pc m !! i) as [[]|], (m_runs m !! i) as [rs'|]; try done; injection H as <-.
    cbn. by rewrite lookup_insert_ne.
  - destruct (m_runs m !! i) as [rs'|]; [|done]. by injection H as <-.
Qed.

(** A goroutine's own event brings it nearer its exit, unless its work only
    called back. *)
Lemma exec_pc_own ev m m' id p : exec ev m = Some m' -> m_pc m !! id = Some p ->
  owner ev = Some id -> callback ev = false ->
  exists p', m_pc m' !! id = Some p' /\ remaining p' < remaining p.
Proof.
  intros H Hp Ho Hc. destruct ev as [kind args i now|i ok|i|i l|i d t now|i r e|i now pr cpu|i];
    cbn [owner callback] in *; try done; injection Ho as ->; cbn [exec] in H; rewrite Hp in H.
  - destruct p; [destruct (m_runs m !! id)|..]; try done; injection H as <-; cbn;
      rewrite lookup_insert_eq; eexists; (split; [done|]); cbn; lia.
  - destruct p; try done; injection H as <-; cbn; rewrite lookup_insert_eq;
      eexists; (split; [done|]); cbn; lia.
  - destruct p, (m_runs m !! id) as [rs|]; try done. destruct (final_state _ _). injection H as <-.
    cbn. rewrite lookup_insert_eq. eexists. split; [done|]. cbn. lia.
  - destruct p, (m_runs m !! id) as [rs|]; try done. injection H as <-. cbn.
    rewrite lookup_insert_eq. eexists. split; [done|]. cbn. lia.
Qed.

(** A goroutine that has not exited can always take its next event. *)
Lemma never_stuck ops m id p : mgr_ok ops m -> m_pc m !! id = Some p -> p <> PExit ->
  exists e, owner e = Some id /\ callback e = false /\ is_Some (exec e m).
Proof.
  intros H Hp Hx. destruct (mo_pc _ _ H _ _ Hp) as [rs Hr]. destruct p; try done.
  - exists (EPersist id true). cbn. rewrite Hp, Hr. by eauto.
  - exists (EWorkDone id "" None). cbn. rewrite Hp, Hr. by eauto.
  - exists (EPersist id true). cbn. rewrite Hp. by eauto.
  - exists (EBroadcast id). cbn. rewrite Hp. by eauto.
  - exists (EFinish id "" Profile0 []). cbn. rewrite Hp, Hr. by eauto.
  - exists (EPersist id true). cbn. rewrite Hp. by eauto.
  - exists (EBroadcast id). cbn. rewrite Hp. by eauto.
Qed.

Lemma exec_place ev m m' id : exec ev m = Some m' -> is_Some (m_pc m !! id) -> is_Some (m_pc m' !! id).
Proof.
  assert (Hi : forall i p (pcs : gmap string pc), is_Some (pcs !! id) -> is_Some (<[i := p]> pcs !! id)).
  { intros i p pcs [q Hq]. destruct (decide (i = id)) as [->|Hne];
      [rewrite lookup_insert_eq|rewrite lookup_insert_ne by done]; by eexists. }
  intros H Hp. destruct ev as [kind args i now|i ok|i|i l|i d t now|i r e|i now pr cpu|i]; cbn [exec] in H.
  - unfold start_locked in H. destruct (conflictLocked m kind); [done|]. injection H as <-. by apply Hi.
  - destruct (m_pc m !! i) as [[]|], (m_runs m !! i); try done; injection H as <-; by apply Hi.
  - destruct (m_pc m !! i) as [[]|]; try done; injection H as <-; by apply Hi.
  - destruct (m_pc m !! i) as [[]|], (m_runs m !! i); try done; by injection H as <-.
  - destruct (m_pc m !! i) as [[]|], (m_runs m !! i) as [rs|]; try done; injection H as <-.
    unfold progress_locked. destruct (match rs_lastPersist rs with Some _ => _ | None => _ end);
      [done|by apply Hi].
  - destruct (m_pc m !! i) as [[]|], (m_runs m !! i) as [rs|]; try done.
    destruct (final_state _ _). injection H as <-. by apply Hi.
  - destruct (m_pc m !! i) as [[]|], (m_runs m !! i); try done; injection H as <-; by apply Hi.
  - destruct (m_runs m !! i); [|done]. by injection H as <-.
Qed.

(** ** Announcements *)

(** The events the manager broadcast at the end of the job [id]. *)
Definition announced (id : string) (m : Manager) : list (string * Job) :=
  filter (fun e => fst e = "job_done" /\ ID (snd e) = id) (m_events m).

Definition announced_ok (id : string) (m : Manager) : Prop :=
  match m_pc m !! id with
  | Some PExit => exists j, announced id m = [("job_done", j)] /\ terminal (State j)
  | _ => announced id m = []
  end.

Definition broadcasts (ev : Event) : bool := match ev with EBroadcast _ => true | _ => false end.

Lemma exit_insert (i id : string) (p1 : pc) (pcs : gmap string pc) :
  pcs !! i <> Some PExit -> p1 <> PExit ->
  (<[i := p1]> pcs !! id = Some PExit <-> pcs !! id = Some PExit).
Proof.
  intros H0 H1. destruct (decide (i = id)) as [->|Hne];
    [rewrite lookup_insert_eq; split; congruence|by rewrite lookup_insert_ne].
Qed.

(** What does not broadcast announces nothing and makes no goroutine exit. *)
Lemma exec_quiet ops ev m m' id : mgr_ok ops m -> enabled_start m ev -> exec ev m = Some m' ->
  broadcasts ev = false ->
  m_events m' = m_events m /\ (m_pc m' !! id = Some PExit <-> m_pc m !! id = Some PExit).
Proof.
  intros Hok Hs H Hb. destruct ev as [kind args i now|i ok|i|i l|i d t now|i r e|i now pr cpu|i];
    cbn [exec broadcasts] in *; try done.
  - destruct (Hs _ _ _ _ eq_refl) as ((Hf & _) & _). unfold start_locked in H.
    destruct (conflictLocked m kind); [done|]. injection H as <-. cbn. split; [done|].
    apply exit_insert; [|done]. intros Hx. destruct (mo_pc _ _ Hok _ _ Hx) as [rs Hr]. congruence.
  - destruct (m_pc m !! i) as [[]|] eqn:E, (m_runs m !! i) as [rs'|]; try done;
      injection H as <-; (split; [done|by apply exit_insert; [rewrite E|]]).
  - destruct (m_pc m !! i) as [[]|], (m_runs m !! i) as [rs'|]; try done; by injection H as <-.
  - destruct (m_pc m !! i) as [[]|] eqn:E, (m_runs m !! i) as [rs'|]; try done; injection H as <-.
    unfold progress_locked. destruct (match rs_lastPersist rs' with Some _ => _ | None => _ end);
      (split; [done|]); [done|by apply exit_insert; [rewrite E|]].
  - destruct (m_pc m !! i) as [[]|] eqn:E, (m_runs m !! i) as [rs'|]; try done.
    destruct (final_state _ _). injection H as <-. split; [done|by apply exit_insert; [rewrite E|]].
  - destruct (m_pc m !! i) as [[]|] eqn:E, (m_runs m !! i) as [rs'|]; try done; injection H as <-.
    split; [done|by apply exit_insert; [rewrite E|]].
  - destruct (m_runs m !! i) as [rs'|]; [|done]. by injection H as <-.
Qed.

Lemma exec_announced ops ev m m' id : mgr_ok ops m -> enabled_start m ev -> exec ev m = Some m' ->
  announced_ok id m -> announced_ok id m'.
Proof.
  intros H Hs He Ha. destruct (broadcasts ev) eqn:Eb.
  - destruct ev as [| |i| | | | |]; try done. cbn [exec] in He.
    destruct (m_pc m !! i) as [p|] eqn:Hp; [|done].
    destruct (mo_pc _ _ H _ _ Hp) as [rs Hr]. pose proof (mgr_run _ _ _ _ _ H Hr Hp) as Hok.
    pose proof (ro_pc _ _ _ _ Hok) as Hpc.
    destruct p; try done; injection He as <-; cbn in Hpc; unfold announced_ok, announced in *; cbn in *;
      rewrite filter_app, filter_cons, filter_nil; cbn;
      (destruct (decide (i = id)) as [->|Hne]; [rewrite lookup_insert_eq|rewrite lookup_insert_ne by done]).
    + rewrite Hp in Ha. rewrite Ha. rewrite decide_False; [done|]. by intros [[=] _].
    + rewrite decide_False; [by rewrite app_nil_r|]. by intros [[=] _].
    + rewrite Hp in Ha. rewrite Ha. destruct Hpc as (Ht & (Hid & _) & Hst).
      rewrite decide_True by done. exists j. split; [done|]. by rewrite Hst.
    + destruct Hpc as (_ & (Hid & _) & _). rewrite decide_False; [by rewrite app_nil_r|].
      intros [_ Hx]. congruence.
  - destruct (exec_quiet _ _ _ _ id H Hs He Eb) as [Hev Hq].
    unfold announced_ok, announced in *. rewrite Hev.
    destruct (m_pc m !! id) as [[]|], (m_pc m' !! id) as [[]|]; naive_solver.
Qed.

Lemma reachable_announced ops m id : reachable ops m -> announced_ok id m.
Proof.
  induction 1 as [|m m' Hr IH [e m1 Hs He]]; [done|].
  eapply exec_announced; [by apply reachable_ok|exact Hs|exact He|exact IH].
Qed.

(** ** Along an execution *)

Section run.
Context (ops : option JobStore) (ev : nat -> option Event) (m : nat -> Manager).
Hypothesis Hex : execution ops ev m.

Lemma run_next n : reachable ops (m n) -> reachable ops (m (S n)).
Proof.
  intros H. pose proof (ex_next _ _ _ Hex n) as Hn. destruct (ev n) as [e|]; [|by rewrite Hn].
  destruct Hn as [Hs He]. eapply reach_step; [exact H|]. by apply (step_event _ e).
Qed.

Lemma run_reachable n : reachable ops (m n).
Proof. induction n; [apply Hex|by apply run_next]. Qed.

Lemma run_ok_at n : mgr_ok ops (m n).
Proof. apply reachable_ok, run_reachable. Qed.

(** The goroutine stays where it is until its own next event. *)
Lemma run_waits id p n k : m_pc (m n) !! id = Some p -> n <= k ->
  (forall i e, n <= i < k -> ev i = Some e -> owner e <> Some id) -> m_pc (m k) !! id = Some p.
Proof.
  intros Hp Hk Hq. induction Hk as [|k Hk IH]; [done|].
  assert (Hpk : m_pc (m k) !! id = Some p) by (apply IH; intros i e Hi; apply Hq; lia).
  pose proof (ex_next _ _ _ Hex k) as Hn. destruct (ev k) as [e|] eqn:Ee; [|by rewrite Hn].
  destruct Hn as [Hs He]. eapply exec_pc_other; try done; [|by eapply (Hq k); [lia|]].
  by apply (mo_pc _ _ (run_ok_at k)) in Hpk.
Qed.

(** The first event of the goroutine from an instant on. *)
Lemma first_own id n k e : n <= k -> ev k = Some e -> owner e = Some id ->
  exists k' e', n <= k' /\ ev k' = Some e' /\ owner e' = Some id /\
    forall i e0, n <= i < k' -> ev i = Some e0 -> owner e0 <> Some id.
Proof.
  remember (k - n) as d eqn:Ed. revert k e Ed. induction d as [d IH] using lt_wf_ind.
  intros k e Ed Hk Hev Ho.
  destruct (decide (Exists (fun i => ev i ≫= owner = Some id) (seq n (k - n)))) as [Hx|Hx].
  - apply Exists_exists in Hx as (i & Hi & Hoi). apply elem_of_seq in Hi.
    destruct (ev i) as [e0|] eqn:Ei; [|done].
    eapply (IH (i - n)); [lia|reflexivity|lia|exact Ei|exact Hoi].
  - exists k, e. split_and!; try done. intros i e0 Hi He0 Hoe. apply Hx, Exists_exists. exists i.
    split; [apply elem_of_seq; lia|]. by rewrite He0.
Qed.

(** A job once started keeps a place. *)
Lemma place_kept id n k : is_Some (m_pc (m n) !! id) -> n <= k -> is_Some (m_pc (m k) !! id).
Proof.
  intros Hp Hk. induction Hk as [|k Hk IH]; [done|].
  pose proof (ex_next _ _ _ Hex k) as Hn. destruct (ev k) as [e|] eqn:Ee; [|by rewrite Hn].
  destruct Hn as [_ He]. by eapply exec_place.
Qed.

(** Once it has exited nothing moves it. *)
Lemma exit_stays id n k : m_pc (m n) !! id = Some PExit -> n <= k -> m_pc (m k) !! id = Some PExit.
Proof.
  intros Hp Hk. induction Hk as [|k Hk IH]; [done|].
  pose proof (ex_next _ _ _ Hex k) as Hn. destruct (ev k) as [e|] eqn:Ee; [|by rewrite Hn].
  destruct Hn as [Hs He]. destruct (broadcasts e) eqn:Eb.
  - destruct e as [| |i| | | | |]; try done. eapply exec_pc_other; try done.
    + by apply (mo_pc _ _ (run_ok_at k)) in IH.
    + cbn. intros [= ->]. cbn in He. by rewrite IH in He.
  - by apply (exec_quiet _ _ _ _ id (run_ok_at k) Hs He Eb).
Qed.

(** The goroutine exits: its remaining critical sections run out. *)
Lemma exits id N : scheduled id ev m ->
  (forall k e, N <= k -> ev k = Some e -> owner e = Some id -> callback e = false) ->
  forall r n p, N <= n -> m_pc (m n) !! id = Some p -> remaining p = r ->
  exists k, n <= k /\ m_pc (m k) !! id = Some PExit.
Proof.
  intros Hfair Hret. induction r as [r IH] using lt_wf_ind. intros n p Hn Hp Hr.
  destruct (decide (r = 0)) as [->|Hr0]; [exists n; split; [done|]; by destruct p|].
  destruct (Hfair n p Hp) as (k0 & e0 & Hk0 & Hev0 & Ho0); [by intros ->|].
  destruct (first_own _ _ _ _ Hk0 Hev0 Ho0) as (k & e & Hk & Hev & Ho & Hq).
  pose proof (run_waits _ _ _ _ Hp Hk Hq) as Hpk. pose proof (ex_next _ _ _ Hex k) as Hx.
  rewrite Hev in Hx. destruct Hx as [_ Hx].
  destruct (exec_pc_own _ _ _ _ _ Hx Hpk Ho) as (p' & Hp' & Hlt); [by apply (Hret k); [lia|..]|].
  destruct (IH (remaining p') ltac:(lia) (S k) p' ltac:(lia) Hp' eq_refl) as (k' & Hk' & Hx').
  exists k'. split; [lia|done].
Qed.
End run.

(** A job that has exited holds no slot. *)
Lemma exit_frees ops m id k : mgr_ok ops m -> m_pc m !! id = Some PExit -> m_running m !! k <> Some id.
Proof.
  intros H Hp Hk. destruct (mo_running _ _ H _ _ Hk) as (rs & p & _ & Hp' & _ & Ha).
  rewrite Hp in Hp'. by injection Hp' as <-.
Qed.

(** C28: every started job ends.  Along every interleaving of the manager's
    goroutines that goes on scheduling a job's own goroutine and in which the
    job's work returns, there is an instant from which on, forever, the job
    holds no slot of the running table, its state is succeeded, failed or
    canceled, and its end has been announced exactly once, in such a state. *)
Theorem started_job_ends ops ev m id n p : execution ops ev m -> scheduled id ev m ->
  work_returns id ev -> m_pc (m n) !! id = Some p ->
  exists k, n <= k /\ forall k', k <= k' ->
    (forall kind, m_running (m k') !! kind <> Some id) /\
    (exists rs, m_runs (m k') !! id = Some rs /\ terminal (State (rs_job rs))) /\
    (exists j, announced id (m k') = [("job_done", j)] /\ terminal (State j)).
Proof.
  intros Hex Hfair [N Hret] Hp.
  destruct (place_kept _ _ _ Hex id n (n `max` N)) as [p' Hp']; [by eexists|lia|].
  destruct (exits _ _ _ Hex id N Hfair Hret _ _ _ (Nat.le_max_r n N) Hp' eq_refl) as (k & Hk & Hx).
  exists k. split; [lia|]. intros k' Hk'.
  pose proof (exit_stays _ _ _ Hex id k k' Hx Hk') as Hx'. pose proof (run_ok_at _ _ _ Hex k') as Hok.
  split_and!.
  - intros kind. by eapply exit_frees.
  - destruct (mo_pc _ _ Hok _ _ Hx') as [rs Hr]. exists rs. split; [done|].
    exact (ro_pc _ _ _ _ (mgr_run _ _ _ _ _ Hok Hr Hx')).
  - pose proof (reachable_announced _ _ id (run_reachable _ _ _ Hex k')) as Ha.
    unfold announced_ok in Ha. by rewrite Hx' in Ha.
Qed.

(** The life of one job, cut down to a list of events followed by silence. *)
Definition demo_life : list Event :=
  [EStart KindIndex "" "j1" "t0"; EPersist "j1" true; EProgress "j1" 1 2 0; EPersist "j1" false;
   EBroadcast "j1"; EWorkDone "j1" "" None; EFinish "j1" "t1" Profile0 []; EPersist "j1" true;
   EBroadcast "j1"].
Definition demo_at (n : nat) : Manager := default demo_m0 (run_events (take n demo_life) demo_m0).
Definition demo_ev (n : nat) : option Event := demo_life !! n.

Lemma demo_execution : execution (Some ∅) demo_ev demo_at.
Proof.
  split; [apply reach_new|]. intros n. destruct n as [|n].
  { split; [|vm_compute; reflexivity]. intros k a i t [= <- <- <- <-].
    split_and!; [|done|by eexists]. split; [done|]. by intros st [= <-]. }
  do 8 (destruct n as [|n]; [split; [by intros ? ? ? ? [=]|vm_compute; reflexivity]|]).
  unfold demo_ev. rewrite lookup_ge_None_2 by (cbn; lia). unfold demo_at. by rewrite !take_ge by (cbn; lia).
Qed.

Lemma demo_scheduled : scheduled "j1" demo_ev demo_at.
Proof.
  intros n p Hp Hx. destruct (decide (n < 9)) as [Hn|Hn].
  - exists 8, (EBroadcast "j1"). split_and!; [lia|done|done].
  - exfalso. unfold demo_at in Hp. rewrite take_ge in Hp by (cbn; lia). vm_compute in Hp.
    injection Hp as <-. done.
Qed.

Lemma started_job_ends_witness :
  m_running (demo_at 1) !! KindIndex = Some "j1" /\
  exists k, 1 <= k /\ forall k', k <= k' -> m_running (demo_at k') !! KindIndex = None \/
    exists id, m_running (demo_at k') !! KindIndex = Some id /\ id <> "j1".
Proof.
  split; [vm_compute; reflexivity|].
  destruct (started_job_ends (Some ∅) demo_ev demo_at "j1" 1 PStart) as (k & Hk & H).
  - exact demo_execution.
  - exact demo_scheduled.
  - exists 9. intros i e Hi He. unfold demo_ev in He. apply lookup_lt_Some in He. cbn in He. lia.
  - vm_compute. reflexivity.
  - exists k. split; [exact Hk|]. intros k' Hk'. destruct (H k' Hk') as (Hs & _).
    destruct (m_running (demo_at k') !! KindIndex) as [id|] eqn:E; [|by left]. right. exists id.
    split; [done|]. intros ->. by apply (Hs KindIndex).
Defined.
