(* ===== verification/GoStrings.v ===== *)
(** The functions of Go's packages strings, strconv and fmt the modelled code
    calls, on byte strings. *)
From S2P Require Import Prelude.
From stdpp Require Import pretty.
From Stdlib Require Import SpecFloat.

Fixpoint str_drop (n : nat) (s : string) : string :=
  match n, s with
  | S n', String _ s' => str_drop n' s'
  | _, _ => s
  end.

Fixpoint str_take (n : nat) (s : string) : string :=
  match n, s with
  | S n', String c s' => String c (str_take n' s')
  | _, _ => ""
  end.

Definition HasPrefix (s p : string) : bool := Stdlib.Strings.String.prefix p s.
Definition HasSuffix (s p : string) : bool :=
  (str_len p <=? str_len s) && str_eqb (str_drop (str_len s - str_len p) s) p.

Fixpoint Contains (s sub : string) : bool :=
  HasPrefix s sub || match s with "" => false | String _ s' => Contains s' sub end.

Definition TrimPrefix (s p : string) : string := if HasPrefix s p then str_drop (str_len p) s else s.
Definition TrimSuffix (s p : string) : string :=
  if HasSuffix s p then str_take (str_len s - str_len p) s else s.

(** strings.Split with a one-byte separator. *)
Fixpoint Split (c : ascii) (s : string) : list string :=
  match s with
  | "" => [""]
  | String d s' =>
      if Ascii.eqb c d then "" :: Split c s'
      else match Split c s' with [] => [String d ""] | w :: ws => String d w :: ws end
  end.

(** strings.Join *)
Fixpoint Join (sep : string) (l : list string) : string :=
  match l with
  | [] => ""
  | [w] => w
  | w :: ws => w +:+ sep +:+ Join sep ws
  end.

(** [s[:i]] and [s[i+1:]] for [i := strings.LastIndexByte(s, c)], if any. *)
Fixpoint cut_last (c : ascii) (s : string) : option (string * string) :=
  match s with
  | "" => None
  | String d s' =>
      match cut_last c s' with
      | Some (a, b) => Some (String d a, b)
      | None => if Ascii.eqb c d then Some ("", s') else None
      end
  end.

(** [s[:i]] and [s[i+len(sub):]] for [i := strings.Index(s, sub)], if any. *)
Fixpoint cut_first (sub s : string) : option (string * string) :=
  if HasPrefix s sub then Some ("", str_drop (str_len sub) s)
  else match s with
       | "" => None
       | String c s' => match cut_first sub s' with Some (a, b) => Some (String c a, b) | None => None end
       end.

(** strings.ToLower on ASCII letters; other bytes are kept.  The two runes
    outside ASCII whose lower case is an ASCII letter (the Kelvin sign and the
    dotted capital I) are kept as well. *)
Definition lower_byte (c : ascii) : ascii :=
  let n := N_of_ascii c in
  if ((65 <=? n) && (n <=? 90))%N then ascii_of_N (n + 32) else c.
Fixpoint ToLower (s : string) : string :=
  match s with "" => "" | String c s' => String (lower_byte c) (ToLower s') end.
Definition EqualFold (s t : string) : bool := str_eqb (ToLower s) (ToLower t).

(** strings.TrimSpace: the white space runes, in UTF-8, cut from both ends. *)
Fixpoint trim_left (l : list N) : list N :=
  match l with
  | (9 | 10 | 11 | 12 | 13 | 32)%N :: l' => trim_left l'
  | 194%N :: ((133 | 160)%N :: l') => trim_left l'
  | 225%N :: 154%N :: 128%N :: l' => trim_left l'
  | 226%N :: 128%N :: c :: l' =>
      if (((128 <=? c) && (c <=? 138)) || (c =? 168) || (c =? 169) || (c =? 175))%N
      then trim_left l' else l
  | 226%N :: 129%N :: 159%N :: l' => trim_left l'
  | 227%N :: 128%N :: 128%N :: l' => trim_left l'
  | _ => l
  end.

Fixpoint trim_right_rev (l : list N) : list N :=
  match l with
  | (9 | 10 | 11 | 12 | 13 | 32)%N :: l' => trim_right_rev l'
  | (133 | 160)%N :: 194%N :: l' => trim_right_rev l'
  | 128%N :: 154%N :: 225%N :: l' => trim_right_rev l'
  | 159%N :: 129%N :: 226%N :: l' => trim_right_rev l'
  | 128%N :: 128%N :: 227%N :: l' => trim_right_rev l'
  | c :: 128%N :: 226%N :: l' =>
      if (((128 <=? c) && (c <=? 138)) || (c =? 168) || (c =? 169) || (c =? 175))%N
      then trim_right_rev l' else l
  | _ => l
  end.

Definition TrimSpace (s : string) : string :=
  bytes_str (map ascii_of_N
    (rev (trim_right_rev (rev (trim_left (map N_of_ascii (str_bytes s))))))).

(** ["%d"] *)
Definition itoa (z : Z) : string := pretty z.

(** [float64(n)] *)
Definition float64 (n : Z) : spec_float := binary_normalize 53 1024 n 0 false.

(** strconv.FormatFloat(a / b, 'f', 2, 64) for 0 <= a <= b, 0 < b: the
    quotient in binary64, its exact value rounded half to even at the second
    decimal. *)
Definition round_div (num den : Z) : Z :=
  let q := (num / den)%Z in
  let r := (num mod den)%Z in
  if (2 * r <? den)%Z then q
  else if (den <? 2 * r)%Z then (q + 1)%Z
  else if Z.even q then q else (q + 1)%Z.

Definition hundredths (x : spec_float) : Z :=
  match x with
  | S754_finite _ m e =>
      if (0 <=? e)%Z then (100 * Z.pos m * 2 ^ e)%Z else round_div (100 * Z.pos m) (2 ^ (- e))
  | _ => 0
  end.

Definition FormatRatio (a b : Z) : string :=
  let h := hundredths (SFdiv 53 1024 (float64 a) (float64 b)) in
  itoa (h / 100) +:+ "." +:+ itoa ((h / 10) mod 10) +:+ itoa (h mod 10).

(** strconv.Atoi: the value and whether there was no error; out of range the
    value saturates, on a syntax error it is 0. *)
Definition digit_val (c : ascii) : option Z :=
  let n := N_of_ascii c in
  if ((48 <=? n) && (n <=? 57))%N then Some (Z.of_N n - 48)%Z else None.

Fixpoint digits_val (acc : Z) (s : string) : option Z :=
  match s with
  | "" => Some acc
  | String c s' => match digit_val c with Some d => digits_val (10 * acc + d) s' | None => None end
  end.

Definition max_int64 : Z := (2 ^ 63 - 1)%Z.

Definition Atoi (s : string) : Z * bool :=
  let '(neg, digits) :=
    match s with
    | String "-" s' => (true, s')
    | String "+" s' => (false, s')
    | _ => (false, s)
    end in
  match digits with
  | "" => (0%Z, false)
  | _ =>
      match digits_val 0 digits with
      | None => (0%Z, false)
      | Some v =>
          let v := if neg then (- v)%Z else v in
          if (max_int64 <? v)%Z then (max_int64, false)
          else if (v <? - max_int64 - 1)%Z then (- max_int64 - 1, false)%Z
          else (v, true)
      end
  end.

Lemma digit_val_pretty (d : N) : (d < 10)%N -> digit_val (pretty_N_char d) = Some (Z.of_N d).
Proof.
  intros Hd. assert (H : forall k, (k < 10)%nat -> digit_val (pretty_N_char (N.of_nat k)) = Some (Z.of_nat k)).
  { intros k Hk. do 10 (destruct k as [|k]; [reflexivity|]). lia. }
  specialize (H (N.to_nat d)). rewrite N2Nat.id, N_nat_Z in H. apply H. lia.
Qed.

Lemma digits_val_go x s : digits_val 0 (pretty_N_go x s) = digits_val (Z.of_N x) s.
Proof.
  revert s. induction x as [x IH] using (well_founded_induction N.lt_wf_0); intros s.
  destruct (decide (0 < x)%N) as [Hx|Hx].
  - rewrite pretty_N_go_step, IH by (try apply N.div_lt; lia). cbn [digits_val].
    rewrite digit_val_pretty by (apply N.mod_lt; lia). f_equal.
    rewrite (N.div_mod x 10) at 3 by lia. lia.
  - assert (x = 0%N) as -> by lia. by rewrite pretty_N_go_0.
Qed.

(** Printing a non-negative number and reading it back. *)
Lemma digits_val_itoa n : (0 <= n)%Z -> digits_val 0 (itoa n) = Some n.
Proof.
  intros Hn. unfold itoa. destruct n as [|p|p]; [done| |lia].
  change (pretty (Z.pos p)) with (pretty (N.pos p)). unfold pretty, pretty_N.
  rewrite decide_False by done. by rewrite digits_val_go.
Qed.
