(* ===== verification/Reach.v ===== *)
(** The worklist closure the program writes wherever it collects what can be
    reached: a set, a queue, and an enqueue that skips what is in the set. *)
From S2P Require Import Prelude.

Section reach.
Context (succ : string -> list string).

Definition enqueue (st : gset string * list string) (id : string) : gset string * list string :=
  let '(live, queue) := st in
  if decide (id ∈ live) then st else ({[id]} ∪ live, queue ++ [id]).

Fixpoint reach_loop (fuel : nat) (live : gset string) (queue : list string) : option (gset string) :=
  match queue with
  | [] => Some live
  | cur :: queue' =>
      match fuel with
      | O => None
      | S fuel' =>
          let '(live', queue'') := fold_left enqueue (succ cur) (live, queue') in
          reach_loop fuel' live' queue''
      end
  end.

Definition reach_from (fuel : nat) (roots : list string) : option (gset string) :=
  let '(live, queue) := fold_left enqueue roots (∅, []) in reach_loop fuel live queue.

(** One step of the relation the closure follows. *)
Definition step (a b : string) : Prop := b ∈ succ a.

Lemma enqueue_fold ids live queue :
  exists new, fold_left enqueue ids (live, queue) = (list_to_set new ∪ live, queue ++ new) /\
    NoDup new /\ (forall x, x ∈ new -> x ∉ live) /\
    (forall x, x ∈ (list_to_set new ∪ live : gset string) <-> x ∈ ids \/ x ∈ live).
Proof.
  revert live queue. induction ids as [|i ids IH]; intros live queue; cbn [fold_left].
  - exists []. rewrite app_nil_r. split_and!; [f_equal; cbn; set_solver|constructor|set_solver|cbn; set_solver].
  - unfold enqueue at 2. case_decide as Hin.
    + destruct (IH live queue) as (new & -> & H1 & H2 & H3). exists new. split_and!; [done..|].
      intros x. rewrite H3. rewrite elem_of_cons. split; [naive_solver|]. intros [[->|]|]; auto.
    + destruct (IH ({[i]} ∪ live) (queue ++ [i])) as (new & -> & H1 & H2 & H3). exists (i :: new). split_and!.
      * rewrite <- app_assoc. cbn. f_equal. set_solver.
      * constructor; [|done]. intros Hi. apply H2 in Hi. set_solver.
      * intros x [->|Hx]%elem_of_cons; [done|]. apply H2 in Hx. set_solver.
      * intros x. rewrite elem_of_cons. specialize (H3 x). cbn. set_solver.
Qed.

Section closure.
Context (roots : list string) (universe : gset string).
Hypothesis Hclosed : forall a b, a ∈ universe -> b ∈ succ a -> b ∈ universe.

(** Everything in the set is reached; what left the queue has its successors
    in the set. *)
Record inv (live : gset string) (queue : list string) : Prop := {
  inv_queue x : x ∈ queue -> x ∈ live;
  inv_roots x : x ∈ roots -> x ∈ live;
  inv_sound x : x ∈ live -> exists r, r ∈ roots /\ rtc step r x;
  inv_done x y : x ∈ live -> x ∉ queue -> y ∈ succ x -> y ∈ live;
  inv_NoDup : NoDup queue;
  inv_universe : live ⊆ universe
}.

Lemma inv_step live cur queue : inv live (cur :: queue) ->
  exists new, fold_left enqueue (succ cur) (live, queue) = (list_to_set new ∪ live, queue ++ new) /\
    inv (list_to_set new ∪ live) (queue ++ new) /\ NoDup new /\ (forall x, x ∈ new -> x ∉ live).
Proof.
  intros [H1 H2 H3 H4 H5 H6]. apply NoDup_cons in H5 as [H5 H5'].
  destruct (enqueue_fold (succ cur) live queue) as (new & E & N1 & N2 & N3). exists new.
  split; [done|]. split; [|done].
  assert (Hcur : cur ∈ live) by (apply H1; left). split.
  - intros x. rewrite elem_of_app, elem_of_union, elem_of_list_to_set. intros [Hx|Hx]; [right|by left].
    apply H1. by right.
  - intros x Hx. apply elem_of_union. right. by apply H2.
  - intros x Hx. apply N3 in Hx as [Hx|Hx]; [|by apply H3].
    destruct (H3 cur Hcur) as (r & Hr & Hp). exists r. split; [done|]. by eapply rtc_r.
  - intros x y Hx Hq Hy. apply N3. rewrite elem_of_app in Hq.
    apply elem_of_union in Hx as [Hx|Hx]; [rewrite elem_of_list_to_set in Hx; tauto|].
    destruct (decide (x = cur)) as [->|Hne]; [by left|]. right. apply (H4 x); [done| |done].
    rewrite elem_of_cons. tauto.
  - apply NoDup_app. split_and!; [done| |done]. intros x Hx Hn. apply (N2 x Hn), H1. by right.
  - intros x Hx. apply N3 in Hx as [Hx|Hx]; [|by apply H6]. eapply Hclosed; [by apply H6|done].
Qed.

Lemma reach_loop_spec fuel live queue : inv live queue ->
  length queue + (size universe - size live) <= fuel ->
  exists live', reach_loop fuel live queue = Some live' /\ inv live' [].
Proof.
  revert live queue. induction fuel as [|fuel IH]; intros live queue Hi Hf.
  - destruct queue; [|cbn in Hf; lia]. by exists live.
  - destruct queue as [|cur queue]; [by exists live|]. cbn [reach_loop].
    destruct (inv_step live cur queue Hi) as (new & -> & Hi' & Hn & Hfresh). apply IH; [done|].
    assert (Hsz : size (list_to_set new ∪ live : gset string) = length new + size live).
    { rewrite size_union; [by rewrite size_list_to_set|]. intros x. rewrite elem_of_list_to_set.
      intros Hx. by apply Hfresh. }
    pose proof (subseteq_size _ _ (inv_universe _ _ Hi')) as Hle.
    rewrite Hsz in *. rewrite length_app. cbn in Hf. lia.
Qed.

(** With enough rounds for the universe, the closure is what the roots reach. *)
Theorem reach_from_spec fuel : list_to_set roots ⊆ universe -> size universe <= fuel ->
  exists live, reach_from fuel roots = Some live /\
    forall x, x ∈ live <-> exists r, r ∈ roots /\ rtc step r x.
Proof.
  intros Hr Hf. unfold reach_from.
  destruct (enqueue_fold roots ∅ []) as (new & -> & N1 & N2 & N3). cbn [app].
  assert (Hin : forall x, x ∈ (list_to_set new ∪ ∅ : gset string) <-> x ∈ new) by set_solver.
  assert (Hi : inv (list_to_set new ∪ ∅) new).
  { split.
    - intros x. by rewrite Hin.
    - intros x Hx. apply N3. by left.
    - intros x Hx. apply N3 in Hx as [Hx|Hx]; [by exists x|set_solver].
    - intros x y Hx Hn. by rewrite Hin in Hx.
    - done.
    - intros x Hx. apply N3 in Hx as [Hx|Hx]; set_solver. }
  destruct (reach_loop_spec fuel (list_to_set new ∪ ∅) new Hi) as (live & -> & Hi').
  { pose proof (subseteq_size _ _ (inv_universe _ _ Hi)) as Hle.
    replace (size (list_to_set new ∪ ∅ : gset string)) with (length new) in *;
      [lia|]. rewrite (right_id_L ∅ (∪)). by rewrite size_list_to_set. }
  exists live. split; [done|]. intros x. split; [apply (inv_sound _ _ Hi')|].
  intros (r & Hr' & Hp). assert (Hx : r ∈ live) by by apply (inv_roots _ _ Hi').
  clear Hr'. induction Hp as [|a b c Hs Hp IH]; [done|]. apply IH.
  apply (inv_done _ _ Hi' a); [done|apply not_elem_of_nil|done].
Qed.
End closure.
End reach.
