(* ===== verification/Budget.v ===== *)
(** Sizing an answer to a token budget (internal/budget/budget.go): the
    estimate, the largest prefix that fits, the second pass over the omitted
    tail, and the source snippets inlined into results.  Go's [int] is 64
    bits wide here, with its wrap-around. *)
From S2P Require Import Prelude.
Local Open Scope Z_scope.

(** ** Machine integers *)

Definition wrap64 (z : Z) : Z := (z + 2 ^ 63) mod 2 ^ 64 - 2 ^ 63.
Definition fits64 (z : Z) : Prop := - 2 ^ 63 <= z < 2 ^ 63.

Lemma wrap64_id z : fits64 z -> wrap64 z = z.
Proof. unfold wrap64, fits64. intros H. rewrite Z.mod_small by lia. lia. Qed.

Lemma wrap64_fits z : fits64 (wrap64 z).
Proof. unfold wrap64, fits64. pose proof (Z.mod_pos_bound (z + 2 ^ 63) (2 ^ 64)). lia. Qed.

(** [s[lo:hi]]; [None] is the run-time panic of bounds out of range. *)
Definition slice {A} (l : list A) (lo hi : Z) : option (list A) :=
  if (0 <=? lo) && (lo <=? hi) && (hi <=? Z.of_nat (length l))
  then Some (take (Z.to_nat (hi - lo)) (drop (Z.to_nat lo) l)) else None.

(** ** Estimate *)

Definition bytesPerToken : Z := 4.

(** Estimate, from the bytes of the JSON encoding or its failure. *)
Definition Estimate (marshalled : option (list ascii)) : Z :=
  match marshalled with
  | None => 0
  | Some data => Z.quot (Z.of_nat (length data) + bytesPerToken - 1) bytesPerToken
  end.

Record Info : Type := mkInfo {
  MaxTokens : Z; EstimatedTokens : Z; Level : string; Note : string; OmittedFiles : Z
}.

(** Info.AppendNote *)
Definition AppendNote (note : string) (i : Info) : Info :=
  mkInfo (MaxTokens i) (EstimatedTokens i) (Level i)
    (if str_eqb (Note i) "" then note else Note i +:+ "; " +:+ note) (OmittedFiles i).

(** ** TrimToFit *)

(** The binary search. *)
Fixpoint trim_loop (fuel : nat) (estimate : Z -> Z) (maxTokens best lo hi : Z) : option Z :=
  if lo <=? hi then
    match fuel with
    | O => None
    | S fuel' =>
        let mid := (lo + hi) / 2 in
        if estimate mid <=? maxTokens
        then trim_loop fuel' estimate maxTokens mid (mid + 1) hi
        else trim_loop fuel' estimate maxTokens best lo (mid - 1)
    end
  else Some best.

Definition trim_fuel (count : Z) : nat := Z.to_nat count.

Definition trim_search (count maxTokens : Z) (estimate : Z -> Z) : option Z :=
  if (count <=? 1) || (estimate count <=? maxTokens) then Some count
  else trim_loop (trim_fuel count) estimate maxTokens 1 1 (count - 1).

Definition TrimToFit (count maxTokens : Z) (estimate : Z -> Z) : Z :=
  default 0 (trim_search count maxTokens estimate).

(** ** Backfill *)

Fixpoint backfill_loop (items : list Z) (headroom : Z) (itemCost : Z -> Z) : list Z :=
  match items with
  | [] => []
  | i :: items' =>
      let c := itemCost i in
      if headroom <? c then backfill_loop items' headroom itemCost
      else i :: backfill_loop items' (headroom - c) itemCost
  end.

Definition Backfill (total kept maxTokens used : Z) (itemCost : Z -> Z) : list Z :=
  if total <=? kept then []
  else
    let headroom := maxTokens - used in
    if headroom <=? 0 then []
    else backfill_loop (seqZ kept (total - kept)) headroom itemCost.

(** ** Snippets *)

Fixpoint split_lines (s : list ascii) : list (list ascii) :=
  match s with
  | [] => [[]]
  | c :: s' =>
      if Ascii.eqb c "010" then [] :: split_lines s'
      else match split_lines s' with
           | [] => [[c]]
           | l :: ls => (c :: l) :: ls
           end
  end.

Fixpoint join_lines (ls : list (list ascii)) : list ascii :=
  match ls with
  | [] => []
  | [l] => l
  | l :: ls' => l ++ "010"%char :: join_lines ls'
  end.

Section snippets.
(** The file's bytes, as os.ReadFile returns them for a root and a path. *)
Variable readFile : string -> string -> option (list ascii).

(** Snippet; the outer option is the panic. *)
Definition Snippet (root file : string) (start n : Z) : option (list ascii) :=
  if (n <=? 0) || (start <=? 0) || str_eqb file "" then Some []
  else
    match readFile root file with
    | None => Some []
    | Some data =>
        let lines := split_lines data in
        if Z.of_nat (length lines) <? start then Some []
        else
          let end0 := wrap64 (start - 1 + n) in
          let end1 := if Z.of_nat (length lines) <? end0 then Z.of_nat (length lines) else end0 in
          join_lines <$> slice lines (start - 1) end1
    end.

(** SnippetSpan *)
Definition SnippetSpan (root file : string) (start end_ maxLines : Z) : option (list ascii * bool) :=
  if (start <=? 0) || str_eqb file "" || (maxLines <=? 0) then Some ([], false)
  else
    match readFile root file with
    | None => Some ([], false)
    | Some data =>
        let lines := split_lines data in
        if Z.of_nat (length lines) <? start then Some ([], false)
        else
          let last0 := if end_ <? start then wrap64 (start - 1 + maxLines) else end_ in
          let last1 := if Z.of_nat (length lines) <? last0 then Z.of_nat (length lines) else last0 in
          let truncated := maxLines <? wrap64 (last1 - start + 1) in
          let last2 := if truncated then wrap64 (start - 1 + maxLines) else last1 in
          (fun l => (join_lines l, truncated)) <$> slice lines (start - 1) last2
    end.
End snippets.

(** * Properties *)

Lemma trim_loop_spec fuel estimate maxTokens best lo hi :
  0 <= lo -> 0 <= best -> (Z.to_nat (hi - lo + 1) <= fuel)%nat ->
  exists n, trim_loop fuel estimate maxTokens best lo hi = Some n /\
    (n = best \/ (lo <= n <= hi /\ estimate n <= maxTokens)) /\
    ((forall i j, lo <= i <= j -> j <= hi -> estimate i <= estimate j) ->
     forall m, lo <= m <= hi -> n < m -> maxTokens < estimate m).
Proof.
  revert best lo hi. induction fuel as [|fuel IH]; intros best lo hi Hlo Hb Hf; cbn [trim_loop];
    destruct (lo <=? hi) eqn:E; try lia.
  - exists best. split; [done|]. split; [by left|]. intros _ m Hm. lia.
  - assert (Hmid : lo <= (lo + hi) / 2 <= hi) by (split; [apply Z.div_le_lower_bound|apply Z.div_le_upper_bound]; lia).
    set (mid := (lo + hi) / 2) in *. destruct (estimate mid <=? maxTokens) eqn:Em.
    + destruct (IH mid (mid + 1) hi) as (n & E1 & H1 & H2); [lia..|].
      exists n. split; [done|]. split; [right; destruct H1 as [->|H1]; [|destruct H1]; split; lia|].
      intros Hmono m Hm Hn. assert (mid <= n) by (destruct H1 as [->|H1]; lia).
      apply H2; [intros; apply Hmono; lia|lia|done].
    + destruct (IH best lo (mid - 1)) as (n & E1 & H1 & H2); [lia..|].
      exists n. split; [done|]. split; [destruct H1 as [->|H1]; [by left|right; destruct H1; split; lia]|].
      intros Hmono m Hm Hn. destruct (Z_lt_le_dec m mid).
      * apply H2; [intros; apply Hmono; lia|lia|done].
      * pose proof (Hmono mid m). lia.
  - exists best. split; [done|]. split; [by left|]. intros _ m Hm. lia.
Qed.

(** The binary search ends, and keeps at least one entry and at most all
    of them; what it keeps fits the budget unless it is the single entry that
    is always kept; and when the estimate grows with the prefix, every longer
    prefix is over the budget. *)
Theorem TrimToFit_largest count maxTokens estimate :
  1 < count ->
  let n := TrimToFit count maxTokens estimate in
  trim_search count maxTokens estimate = Some n /\ 1 <= n <= count /\
  (estimate n <= maxTokens \/ n = 1) /\
  ((forall i j, 1 <= i <= j -> j <= count -> estimate i <= estimate j) ->
   forall m, n < m <= count -> maxTokens < estimate m).
Proof.
  intros Hc n. subst n. unfold TrimToFit, trim_search.
  destruct (count <=? 1) eqn:E1; [lia|]. cbn [orb].
  destruct (estimate count <=? maxTokens) eqn:E2.
  - cbn. split; [done|]. split; [lia|]. split; [left; lia|]. intros _ m Hm. lia.
  - destruct (trim_loop_spec (trim_fuel count) estimate maxTokens 1 1 (count - 1))
      as (n & -> & H1 & H2); [lia..|unfold trim_fuel; lia|]. cbn.
    split; [done|]. split; [destruct H1; lia|]. split; [destruct H1 as [->|[]]; [by right|by left]|].
    intros Hmono m Hm. destruct (decide (m = count)) as [->|]; [lia|].
    apply H2; [intros; apply Hmono; lia|destruct H1; lia|lia].
Qed.

Lemma TrimToFit_largest_witness :
  1 < 100 /\ TrimToFit 100 40 (fun n => n * 3) = 13 /\ 40 < 14 * 3.
Proof.
  split; [lia|]. split; [vm_compute; reflexivity|].
  destruct (TrimToFit_largest 100 40 (fun n => n * 3)) as (_ & _ & _ & H); [lia|].
  apply (H ltac:(intros; cbv beta; lia) 14). vm_compute. split; [reflexivity|discriminate].
Defined.

Definition cost_of (itemCost : Z -> Z) (l : list Z) : Z := foldr (fun i acc => itemCost i + acc) 0 l.

Lemma cost_of_cons itemCost i l : cost_of itemCost (i :: l) = itemCost i + cost_of itemCost l.
Proof. done. Qed.

Lemma backfill_loop_spec items headroom itemCost :
  0 <= headroom -> (forall i, i ∈ items -> 0 <= itemCost i) ->
  let out := backfill_loop items headroom itemCost in
  out `sublist_of` items /\ cost_of itemCost out <= headroom /\
  forall pre i post, items = pre ++ i :: post ->
    (exists post', out = backfill_loop pre headroom itemCost ++ i :: post') \/
    headroom - cost_of itemCost (backfill_loop pre headroom itemCost) < itemCost i.
Proof.
  revert headroom. induction items as [|i items IH]; intros headroom Hh Hc; cbn [backfill_loop].
  - split; [done|]. split; [done|]. intros pre i post H. by destruct pre.
  - destruct (headroom <? itemCost i) eqn:E.
    + destruct (IH headroom) as (H1 & H2 & H3); [done|intros j Hj; apply Hc; by right|].
      split; [by constructor|]. split; [done|]. intros pre j post H. destruct pre as [|k pre].
      * injection H as <- <-. right. unfold cost_of; cbn. lia.
      * injection H as <- H. cbn [backfill_loop]. rewrite E. by apply (H3 pre j post).
    + destruct (IH (headroom - itemCost i)) as (H1 & H2 & H3); [lia|intros j Hj; apply Hc; by right|].
      split; [by constructor|]. split; [rewrite cost_of_cons; lia|]. intros pre j post H. destruct pre as [|k pre].
      * injection H as <- <-. left. by eexists.
      * injection H as <- H. cbn [backfill_loop]. rewrite E.
        destruct (H3 pre j post H) as [[post' ->]|H4]; [left; by exists post'|right; rewrite cost_of_cons; lia].
Qed.

(** The indices admitted by Backfill are tail indices in order, their
    costs together with what is already used stay within the budget, and an
    index left out costs more than what the ones admitted before it leave. *)
Theorem Backfill_within_budget total kept maxTokens used itemCost :
  (forall i, kept <= i < total -> 0 <= itemCost i) ->
  let out := Backfill total kept maxTokens used itemCost in
  out `sublist_of` seqZ kept (total - kept) /\
  (out <> [] -> used + cost_of itemCost out <= maxTokens) /\
  (used < maxTokens -> forall i, kept <= i < total -> i ∉ out ->
     exists before, before `prefix_of` out /\ maxTokens - used - cost_of itemCost before < itemCost i).
Proof.
  intros Hc. unfold Backfill. destruct (total <=? kept) eqn:E1.
  { split; [apply sublist_nil_l|]. split; [done|]. intros. lia. }
  destruct (maxTokens - used <=? 0) eqn:E2.
  { split; [apply sublist_nil_l|]. split; [done|]. intros. lia. }
  destruct (backfill_loop_spec (seqZ kept (total - kept)) (maxTokens - used) itemCost)
    as (H1 & H2 & H3); [lia|intros i Hi%elem_of_seqZ; apply Hc; lia|].
  split; [done|]. split; [intros _; lia|]. intros _ i Hi Hout.
  assert (Hin : i ∈ seqZ kept (total - kept)) by (apply elem_of_seqZ; lia).
  apply list_elem_of_split in Hin as (pre & post & Hpre).
  destruct (H3 pre i post Hpre) as [[post' Ho]|H4].
  { destruct Hout. rewrite Ho. apply elem_of_app. right. left. }
  exists (backfill_loop pre (maxTokens - used) itemCost). split; [|done].
  rewrite Hpre. clear. generalize (maxTokens - used). induction pre as [|j pre IH]; intros h; cbn.
  { apply prefix_nil. }
  destruct (h <? itemCost j); [apply IH|by apply prefix_cons].
Qed.

Lemma Backfill_within_budget_witness :
  Backfill 10 4 50 30 (fun i => i * 2) = [4; 5] /\ 30 + cost_of (fun i => i * 2) [4; 5] <= 50.
Proof.
  split; [vm_compute; reflexivity|].
  refine (proj1 (proj2 (Backfill_within_budget 10 4 50 30 (fun i => i * 2) _)) _); [intros; lia|].
  vm_compute. discriminate.
Defined.

(** ** Snippets *)

Lemma split_lines_ne s : split_lines s <> [].
Proof. destruct s as [|c s]; cbn; [done|]. destruct (Ascii.eqb c "010"); [done|]. by destruct (split_lines s). Qed.

(** Splitting and joining lose nothing. *)
Lemma join_split s : join_lines (split_lines s) = s.
Proof.
  induction s as [|c s IH]; [done|]. cbn [split_lines]. pose proof (split_lines_ne s).
  destruct (Ascii.eqb c "010") eqn:E.
  - apply Ascii.eqb_eq in E as ->. cbn. destruct (split_lines s); [done|]. by rewrite IH.
  - destruct (split_lines s) as [|l ls]; [done|]. destruct ls; cbn in *; by rewrite IH.
Qed.

(** Snippet is the window of [n] lines from [start], cut at the end of the
    file, as long as its end is a machine integer. *)
Lemma Snippet_window readFile root file start n data :
  readFile root file = Some data -> file <> "" -> 0 < n ->
  0 < start <= Z.of_nat (length (split_lines data)) -> fits64 (start - 1 + n) ->
  Snippet readFile root file start n =
    Some (join_lines (take (Z.to_nat n) (drop (Z.to_nat (start - 1)) (split_lines data)))).
Proof.
  intros Hr Hf Hn Hs Hfit. unfold Snippet. rewrite Hr, (wrap64_id _ Hfit).
  set (lines := split_lines data) in *. apply String.eqb_neq in Hf. rewrite Hf.
  replace (n <=? 0) with false by lia. replace (start <=? 0) with false by lia. cbn [orb].
  replace (Z.of_nat (length lines) <? start) with false by lia. unfold slice.
  destruct (Z.of_nat (length lines) <? start - 1 + n) eqn:E.
  - replace (0 <=? start - 1) with true by lia. replace (start - 1 <=? Z.of_nat (length lines)) with true by lia.
    replace (Z.of_nat (length lines) <=? Z.of_nat (length lines)) with true by lia. cbn. do 2 f_equal.
    rewrite !take_ge; [done| |]; rewrite length_drop; lia.
  - replace (0 <=? start - 1) with true by lia. replace (start - 1 <=? start - 1 + n) with true by lia.
    replace (start - 1 + n <=? Z.of_nat (length lines)) with true by lia. cbn.
    do 3 f_equal. lia.
Qed.

(** Past the largest machine integer the end of the window wraps to a negative
    index, and the slice panics. *)
Lemma Snippet_overflow_panics :
  Snippet (fun _ _ => Some (str_bytes "ab")) "" "f" 1 (2 ^ 63 - 1) = Some (str_bytes "ab") /\
  Snippet (fun _ _ => Some ["a"; "010"; "b"]%char) "" "f" 2 (2 ^ 63 - 1) = None.
Proof. split; vm_compute; reflexivity. Qed.

(** SnippetSpan never returns more than [maxLines] lines, and says when it cut
    the span. *)
Lemma SnippetSpan_capped readFile root file start end_ maxLines data :
  readFile root file = Some data -> file <> "" -> 0 < maxLines ->
  0 < start <= Z.of_nat (length (split_lines data)) ->
  fits64 (start - 1 + maxLines) -> fits64 (Z.of_nat (length (split_lines data))) ->
  exists k, SnippetSpan readFile root file start end_ maxLines =
    Some (join_lines (take k (drop (Z.to_nat (start - 1)) (split_lines data))),
          (start <=? end_) && (maxLines <? Z.min end_ (Z.of_nat (length (split_lines data))) - start + 1)) /\
    Z.of_nat k <= maxLines.
Proof.
  intros Hr Hf Hm Hs Hfit Hlen. unfold SnippetSpan. rewrite Hr, !(wrap64_id _ Hfit).
  set (lines := split_lines data) in *. apply String.eqb_neq in Hf. rewrite Hf.
  replace (start <=? 0) with false by lia. replace (maxLines <=? 0) with false by lia. cbn [orb].
  replace (Z.of_nat (length lines) <? start) with false by lia.
  set (last0 := if end_ <? start then start - 1 + maxLines else end_).
  set (last1 := if Z.of_nat (length lines) <? last0 then Z.of_nat (length lines) else last0).
  assert (H1 : start <= last0) by (unfold last0; destruct (end_ <? start) eqn:E; lia).
  assert (H2 : start <= last1 <= Z.of_nat (length lines) /\ last1 = Z.min last0 (Z.of_nat (length lines))).
  { unfold last1. destruct (Z.of_nat (length lines) <? last0) eqn:E; lia. }
  rewrite (wrap64_id (last1 - start + 1)) by (unfold fits64 in *; lia).
  assert (H3 : (maxLines <? last1 - start + 1) =
    (start <=? end_) && (maxLines <? Z.min end_ (Z.of_nat (length lines)) - start + 1)).
  { unfold last0 in H2. destruct (end_ <? start) eqn:E.
    - replace (start <=? end_) with false by lia. cbn. apply Z.ltb_ge. lia.
    - replace (start <=? end_) with true by lia. cbn. f_equal. lia. }
  rewrite <- H3. destruct (maxLines <? last1 - start + 1) eqn:E; unfold slice.
  - exists (Z.to_nat maxLines). replace (0 <=? start - 1) with true by lia.
    replace (start - 1 <=? start - 1 + maxLines) with true by lia.
    replace (start - 1 + maxLines <=? Z.of_nat (length lines)) with true by lia. cbn.
    split; [|lia]. do 4 f_equal. lia.
  - exists (Z.to_nat (last1 - (start - 1))). replace (0 <=? start - 1) with true by lia.
    replace (start - 1 <=? last1) with true by lia.
    replace (last1 <=? Z.of_nat (length lines)) with true by lia. cbn. split; [done|lia].
Qed.
