(* ===== verification/GrModel.v ===== *)
(** The graph data model (internal/graph/model.go): nodes, edges, the
    in-memory adjacency index every query runs on, and the channel roles that
    accumulate on channel nodes. *)
From S2P Require Import Prelude.

Abbreviation NodeType := string (only parsing).
Abbreviation EdgeType := string (only parsing).

(** ** Node and edge types, as the queries name them *)

Definition NodeTypeHTTPHandler : NodeType := "http_handler".
Definition NodeTypeFunction : NodeType := "function".
Definition NodeTypeMethod : NodeType := "method".
Definition NodeTypeComponent : NodeType := "component".
Definition NodeTypeRoute : NodeType := "route".
Definition NodeTypeWorker : NodeType := "worker".
Definition NodeTypeSubscriber : NodeType := "subscriber".
Definition NodeTypeElement : NodeType := "element".
Definition NodeTypeInterface : NodeType := "interface".
Definition NodeTypeTypeAlias : NodeType := "type_alias".
Definition NodeTypeDOMTarget : NodeType := "dom_target".
Definition NodeTypeChannel : NodeType := "channel".
Definition NodeTypeVariable : NodeType := "variable".
Definition NodeTypeStruct : NodeType := "struct".
Definition NodeTypeClass : NodeType := "class".
Definition NodeTypeFile : NodeType := "file".
Definition NodeTypeGRPCHandler : NodeType := "grpc_handler".
Definition NodeTypeGraphQLResolver : NodeType := "graphql_resolver".

Definition EdgeTypeCalls : EdgeType := "calls".
Definition EdgeTypeRenders : EdgeType := "renders".
Definition EdgeTypeComponentImpl : EdgeType := "component_impl".
Definition EdgeTypeSubscribes : EdgeType := "subscribes".
Definition EdgeTypeImports : EdgeType := "imports".
Definition EdgeTypeSpawns : EdgeType := "spawns".
Definition EdgeTypeJobEnqueue : EdgeType := "job_enqueue".
Definition EdgeTypeJobPerform : EdgeType := "job_perform".
Definition EdgeTypeSidekiqEnqueue : EdgeType := "sidekiq_enqueue".
Definition EdgeTypeSidekiqPerform : EdgeType := "sidekiq_perform".
Definition EdgeTypeDOMListen : EdgeType := "dom_listen".
Definition EdgeTypeDOMContract : EdgeType := "dom_contract".
Definition EdgeTypeDeclares : EdgeType := "declares".
Definition EdgeTypeReads : EdgeType := "reads".
Definition EdgeTypeUsesType : EdgeType := "uses_type".
Definition EdgeTypeContains : EdgeType := "contains".
Definition EdgeTypeInherits : EdgeType := "inherits".
Definition EdgeTypeImplements : EdgeType := "implements".
Definition EdgeTypeInstantiates : EdgeType := "instantiates".
Definition EdgeTypeReferences : EdgeType := "references".
Definition EdgeTypeReturns : EdgeType := "returns".
Definition EdgeTypeConsumes : EdgeType := "consumes".
Definition EdgeTypeResponseOf : EdgeType := "response_of".

Definition ConfidencePartial : string := "partial".
Definition ConfidenceUnknown : string := "unknown".

Definition StateVerified : string := "verified".
Definition StateCandidate : string := "candidate".
Definition StateObservedOnlyGap : string := "observed_only_gap".
Definition StateConflicting : string := "conflicting".

Definition MetaReflectDispatched : string := "reflect_dispatched".

(** ** Nodes and edges *)

Abbreviation Meta := (gmap string string).

(** Reading a missing key of a Go map, or any key of a nil map, is [""]. *)
Definition meta_get (m : Meta) (k : string) : string := default "" (m !! k).

Record Node : Type := mkNode {
  n_ID : string; n_Type : NodeType; n_Label : string; n_Service : string; n_File : string;
  n_Line : Z; n_EndLine : Z; n_Language : string; n_Meta : Meta; n_Snippet : string
}.

Record SourceRef : Type := mkSourceRef {
  s_Provider : string; s_Confidence : string; s_Ref : string; s_ObservedAt : Z;
  s_CodeFile : string; s_CodeFunc : string; s_Layer : string; s_Rule : string
}.

Record Edge : Type := mkEdge {
  ed_ID : string; ed_From : string; ed_To : string; ed_Type : EdgeType; ed_Label : string;
  ed_Confidence : string; ed_Method : string; ed_Path : string; ed_Meta : Meta;
  ed_Sources : list SourceRef; ed_VerificationState : string; ed_VerifiedGranularity : string
}.

#[export] Instance Node_eq_dec : EqDecision Node.
Proof. solve_decision. Defined.
#[export] Instance SourceRef_eq_dec : EqDecision SourceRef.
Proof. solve_decision. Defined.
#[export] Instance Edge_eq_dec : EqDecision Edge.
Proof. solve_decision. Defined.

(** Node.QualifiedLabel *)
Definition QualifiedLabel (n : Node) : string :=
  let qn := meta_get (n_Meta n) "qualified_name" in
  if str_eqb qn "" then meta_get (n_Meta n) "class" else qn.

Record UnresolvedRef : Type := mkUnresolvedRef {
  u_Service : string; u_File : string; u_Line : Z; u_Name : string; u_Kind : string;
  u_Targets : string
}.

(** ** Channel roles *)

Definition ChannelRoleProducer : string := "producer".
Definition ChannelRoleConsumer : string := "consumer".
Definition ChannelRoleBoth : string := "producer,consumer".

Definition MergeChannelRole (existing observed : string) : string :=
  if str_eqb observed "" then existing
  else if str_eqb existing "" || str_eqb existing observed then observed
  else if str_eqb existing ChannelRoleBoth then existing
  else ChannelRoleBoth.

(** ** The adjacency index *)

Record AdjacencyIndex : Type := mkIndex {
  Nodes : gmap string Node; OutEdges : gmap string (list Edge); InEdges : gmap string (list Edge)
}.

Definition NewAdjacencyIndex : AdjacencyIndex := mkIndex ∅ ∅ ∅.

Definition AddNode (n : Node) (idx : AdjacencyIndex) : AdjacencyIndex :=
  mkIndex (<[n_ID n := n]> (Nodes idx)) (OutEdges idx) (InEdges idx).

(** [idx.OutEdges[id]]: nil for an absent key. *)
Definition out_of (idx : AdjacencyIndex) (id : string) : list Edge := default [] (OutEdges idx !! id).
Definition in_of (idx : AdjacencyIndex) (id : string) : list Edge := default [] (InEdges idx !! id).

Definition AddEdge (e : Edge) (idx : AdjacencyIndex) : AdjacencyIndex :=
  mkIndex (Nodes idx)
    (<[ed_From e := out_of idx (ed_From e) ++ [e]]> (OutEdges idx))
    (<[ed_To e := in_of idx (ed_To e) ++ [e]]> (InEdges idx)).

(** The loop of AllEdges over the lists of OutEdges, in the order the map
    yields them, keeping the first edge of each ID. *)
Definition add_unseen (st : gset string * list Edge) (e : Edge) : gset string * list Edge :=
  let '(seen, edges) := st in
  if decide (ed_ID e ∈ seen) then st else ({[ed_ID e]} ∪ seen, edges ++ [e]).

Definition edge_id_less (a b : Edge) : bool := str_ltb (ed_ID a) (ed_ID b).

(** AllEdges; [lists] is the content of OutEdges in iteration order. *)
Definition AllEdges_ (lists : list (string * list Edge)) : list Edge :=
  sort_slice edge_id_less (snd (fold_left add_unseen (concat (map snd lists)) (∅, []))).
Definition AllEdges (idx : AdjacencyIndex) : list Edge := AllEdges_ (map_to_list (OutEdges idx)).

(** ** Neighbours in a direction *)

(** Every query that takes a direction string follows InEdges for ["in"] and
    OutEdges for anything else. *)
Definition is_in (direction : string) : bool := str_eqb direction "in".
Definition edges_dir (idx : AdjacencyIndex) (direction id : string) : list Edge :=
  if is_in direction then in_of idx id else out_of idx id.
Definition next_dir (direction : string) (e : Edge) : string :=
  if is_in direction then ed_From e else ed_To e.

(** * What holds of every index the program builds *)

(** Nodes are filed under their ID, edges under their two ends, and each edge
    is in both lists. *)
Record wf_index (idx : AdjacencyIndex) : Prop := {
  wf_nodes id n : Nodes idx !! id = Some n -> n_ID n = id;
  wf_out id e : e ∈ out_of idx id -> ed_From e = id;
  wf_in id e : e ∈ in_of idx id -> ed_To e = id;
  wf_both e : e ∈ out_of idx (ed_From e) <-> e ∈ in_of idx (ed_To e)
}.

(** An edge of the index. *)
Definition has_edge (idx : AdjacencyIndex) (e : Edge) : Prop := e ∈ out_of idx (ed_From e).

#[export] Instance has_edge_dec idx e : Decision (has_edge idx e).
Proof. unfold has_edge. apply _. Defined.

(** No edge has an end that is not a node: what the foreign keys of the edges
    table enforce on a stored graph. *)
Definition closed_index (idx : AdjacencyIndex) : Prop :=
  forall e, has_edge idx e -> is_Some (Nodes idx !! ed_From e) /\ is_Some (Nodes idx !! ed_To e).

Lemma wf_new : wf_index NewAdjacencyIndex.
Proof.
  split; unfold out_of, in_of; cbn; intros *; rewrite ?lookup_empty; cbn; rewrite ?elem_of_nil; done.
Qed.

Lemma wf_AddNode n idx : wf_index idx -> wf_index (AddNode n idx).
Proof.
  intros [H1 H2 H3 H4]. split; [|apply H2|apply H3|apply H4].
  intros id m. unfold AddNode; cbn. rewrite lookup_insert. case_decide; [by intros [= <-]|apply H1].
Qed.

Lemma out_of_AddEdge e idx id :
  out_of (AddEdge e idx) id = if decide (ed_From e = id) then out_of idx id ++ [e] else out_of idx id.
Proof. unfold out_of at 1, AddEdge; cbn. rewrite lookup_insert. case_decide; subst; done. Qed.

Lemma in_of_AddEdge e idx id :
  in_of (AddEdge e idx) id = if decide (ed_To e = id) then in_of idx id ++ [e] else in_of idx id.
Proof. unfold in_of at 1, AddEdge; cbn. rewrite lookup_insert. case_decide; subst; done. Qed.

Lemma has_edge_AddEdge e idx e' : has_edge (AddEdge e idx) e' <-> e' = e \/ has_edge idx e'.
Proof.
  unfold has_edge. rewrite out_of_AddEdge. case_decide as D.
  - rewrite elem_of_app, list_elem_of_singleton. naive_solver.
  - split; [by right|intros [->|H]; [done|done]].
Qed.

Lemma wf_AddEdge e idx : wf_index idx -> wf_index (AddEdge e idx).
Proof.
  intros [H1 H2 H3 H4]. split; [apply H1|..].
  - intros id e'. rewrite out_of_AddEdge. case_decide; [|apply H2].
    rewrite elem_of_app, list_elem_of_singleton. intros [Hin| ->]; [by apply H2|done].
  - intros id e'. rewrite in_of_AddEdge. case_decide; [|apply H3].
    rewrite elem_of_app, list_elem_of_singleton. intros [Hin| ->]; [by apply H3|done].
  - intros e'. change (has_edge (AddEdge e idx) e' <-> e' ∈ in_of (AddEdge e idx) (ed_To e')).
    rewrite has_edge_AddEdge, in_of_AddEdge. unfold has_edge. rewrite H4.
    case_decide as D; [rewrite elem_of_app, list_elem_of_singleton; naive_solver|].
    split; [intros [->|]; done|by right].
Qed.

(** SQLiteStore.BuildIndex: the index of the stored rows. *)
Definition BuildIndex (nodes : list Node) (edges : list Edge) : AdjacencyIndex :=
  fold_left (fun idx e => AddEdge e idx) edges
    (fold_left (fun idx n => AddNode n idx) nodes NewAdjacencyIndex).

Lemma wf_BuildIndex nodes edges : wf_index (BuildIndex nodes edges).
Proof.
  unfold BuildIndex. apply fold_left_inv; [|intros; by apply wf_AddEdge].
  apply fold_left_inv; [apply wf_new|intros; by apply wf_AddNode].
Qed.

(** The end an edge is filed under in a direction. *)
Definition prev_dir (direction : string) (e : Edge) : string :=
  if is_in direction then ed_To e else ed_From e.

Lemma elem_of_edges_dir idx dir id e : wf_index idx ->
  e ∈ edges_dir idx dir id <-> has_edge idx e /\ prev_dir dir e = id.
Proof.
  intros W. unfold edges_dir, prev_dir, has_edge. destruct (is_in dir).
  - rewrite (wf_both _ W). split; [|by intros [? <-]].
    intros H. pose proof (wf_in _ W _ _ H) as <-. done.
  - split; [|by intros [? <-]]. intros H. pose proof (wf_out _ W _ _ H) as <-. done.
Qed.

(** ** AllEdges *)

(** Edge IDs identify edges, as the primary key of the edges table does. *)
Definition unique_ids (idx : AdjacencyIndex) : Prop :=
  forall e e', has_edge idx e -> has_edge idx e' -> ed_ID e = ed_ID e' -> e = e'.

Lemma elem_of_lists idx e : wf_index idx ->
  e ∈ concat (map snd (map_to_list (OutEdges idx))) <-> has_edge idx e.
Proof.
  intros W. rewrite list_elem_of_In, in_concat. unfold has_edge. split.
  - intros (l & Hl & He). apply in_map_iff in Hl as ([id l'] & <- & Hl).
    apply list_elem_of_In, elem_of_map_to_list in Hl. apply list_elem_of_In in He. cbn in He.
    assert (Hout : e ∈ out_of idx id) by (unfold out_of; by rewrite Hl).
    by rewrite (wf_out _ W _ _ Hout).
  - unfold out_of. intros He. destruct (OutEdges idx !! ed_From e) as [l|] eqn:E; [|by apply elem_of_nil in He].
    exists l. split; [|by apply list_elem_of_In]. apply in_map_iff. exists (ed_From e, l).
    split; [done|]. by apply list_elem_of_In, elem_of_map_to_list.
Qed.

Lemma add_unseen_spec l seen edges :
  (forall i, i ∈ seen <-> i ∈ map ed_ID edges) -> NoDup (map ed_ID edges) ->
  let '(seen', edges') := fold_left add_unseen l (seen, edges) in
  NoDup (map ed_ID edges') /\
  (forall e, e ∈ edges' -> e ∈ edges \/ e ∈ l) /\ (forall e, e ∈ edges -> e ∈ edges') /\
  (forall e, e ∈ l -> ed_ID e ∈ map ed_ID edges').
Proof.
  revert seen edges. induction l as [|e l IH]; intros seen edges Hs Hn; cbn [fold_left].
  - split_and!; try done; [naive_solver|]. intros e He. by apply elem_of_nil in He.
  - unfold add_unseen at 2. case_decide as Hin.
    + specialize (IH seen edges Hs Hn). destruct (fold_left add_unseen l (seen, edges)) as [s' e'].
      destruct IH as (H1 & H2 & H3 & H4). split_and!; try done.
      * intros x Hx. rewrite elem_of_cons. destruct (H2 x Hx); tauto.
      * intros x [->|Hx]%elem_of_cons; [|by apply H4]. apply Hs, list_elem_of_fmap in Hin as (y & -> & Hy).
        by apply list_elem_of_fmap_2, H3.
    + specialize (IH ({[ed_ID e]} ∪ seen) (edges ++ [e])).
      destruct (fold_left add_unseen l ({[ed_ID e]} ∪ seen, edges ++ [e])) as [s' e'].
      destruct IH as (H1 & H2 & H3 & H4).
      * intros i. rewrite map_app, elem_of_app, elem_of_union, elem_of_singleton, Hs. cbn.
        rewrite list_elem_of_singleton. tauto.
      * rewrite map_app. apply NoDup_app. split_and!; [done| |apply NoDup_singleton].
        intros i Hi. cbn. rewrite list_elem_of_singleton. intros ->. by apply Hin, Hs.
      * split_and!; try done.
        -- intros x Hx. rewrite elem_of_cons. apply H2 in Hx as [Hx|Hx]; [|tauto].
           rewrite elem_of_app, list_elem_of_singleton in Hx. tauto.
        -- intros x Hx. apply H3, elem_of_app. by left.
        -- intros x [->|Hx]%elem_of_cons; [|by apply H4]. apply list_elem_of_fmap_2, H3, elem_of_app.
           right. left.
Qed.

(** Each edge once, in the order of the IDs. *)
Lemma AllEdges_spec idx : wf_index idx -> unique_ids idx ->
  NoDup (AllEdges idx) /\ forall e, e ∈ AllEdges idx <-> has_edge idx e.
Proof.
  intros W U. unfold AllEdges, AllEdges_.
  pose proof (add_unseen_spec (concat (map snd (map_to_list (OutEdges idx)))) ∅ []) as H.
  destruct (fold_left add_unseen _ _) as [seen edges]. cbn [snd].
  destruct H as (H1 & H2 & _ & H4); [set_solver|constructor|]. split.
  - rewrite sort_slice_perm. by apply NoDup_fmap_1 in H1.
  - intros e. rewrite elem_of_sort_slice. split.
    + intros He. apply H2 in He as [He|He]; [by apply elem_of_nil in He|]. by apply elem_of_lists.
    + intros He. apply (elem_of_lists _ _ W) in He as Hin. apply H4, list_elem_of_fmap in Hin as (e' & Hid & He').
      replace e with e'; [done|]. apply U; [|done|done].
      apply H2 in He' as [He'|He']; [by apply elem_of_nil in He'|]. by apply elem_of_lists.
Qed.

#[export] Instance edge_id_weak : WeakLess edge_id_less.
Proof. unfold edge_id_less. apply _. Qed.

Lemma elem_of_concat_snd {A B} (x : B) (l : list (A * list B)) :
  x ∈ concat (map snd l) <-> exists p, p ∈ l /\ x ∈ p.2.
Proof.
  rewrite list_elem_of_In, in_concat. split.
  - intros (y & (p & <- & Hp)%in_map_iff & Hy). exists p. by rewrite !list_elem_of_In.
  - intros (p & Hp & Hx). apply list_elem_of_In in Hp, Hx. exists (snd p). split; [by apply in_map|done].
Qed.

(** The order in which the map yields the lists does not reach the output. *)
Lemma AllEdges_order_independent idx lists : wf_index idx -> unique_ids idx ->
  lists ≡ₚ map_to_list (OutEdges idx) -> AllEdges_ lists = AllEdges idx.
Proof.
  intros W U Hp. unfold AllEdges, AllEdges_.
  assert (Hin : forall e, e ∈ concat (map snd lists) <-> has_edge idx e).
  { intros e. rewrite <- (elem_of_lists _ _ W). rewrite !elem_of_concat_snd. by setoid_rewrite Hp. }
  pose proof (add_unseen_spec (concat (map snd lists)) ∅ []) as H1.
  pose proof (add_unseen_spec (concat (map snd (map_to_list (OutEdges idx)))) ∅ []) as H2.
  destruct (fold_left add_unseen (concat (map snd lists)) _) as [s1 l1].
  destruct (fold_left add_unseen (concat (map snd (map_to_list (OutEdges idx)))) _) as [s2 l2].
  destruct H1 as (N1 & I1 & _ & C1); [set_solver|constructor|].
  destruct H2 as (N2 & I2 & _ & C2); [set_solver|constructor|]. cbn [snd].
  assert (H1 : forall e, e ∈ l1 -> has_edge idx e).
  { intros e He. apply I1 in He as [He|He]; [by apply elem_of_nil in He|by apply Hin]. }
  assert (H2 : forall e, e ∈ l2 -> has_edge idx e).
  { intros e He. apply I2 in He as [He|He]; [by apply elem_of_nil in He|by apply elem_of_lists]. }
  apply (sort_slice_order_independent edge_id_less _).
  - apply NoDup_Permutation; [by apply NoDup_fmap_1 in N1|by apply NoDup_fmap_1 in N2|]. intros e. split; intros He.
    + pose proof (H1 e He) as Hh. apply (elem_of_lists _ _ W), C2, list_elem_of_fmap in Hh as (e' & Hid & He').
      replace e with e'; [done|]. apply U; auto.
    + pose proof (H2 e He) as Hh. apply Hin, C1, list_elem_of_fmap in Hh as (e' & Hid & He').
      replace e with e'; [done|]. apply U; auto.
  - intros x y Hx Hy Hxy Hyx. apply U; [auto..|]. by apply (less_total (less:=str_ltb)).
Qed.

(** Edges between stored nodes, decided on a concrete index. *)
Lemma closed_by_eval idx : wf_index idx ->
  forallb (fun e => bool_decide (is_Some (Nodes idx !! ed_From e)) && bool_decide (is_Some (Nodes idx !! ed_To e)))
    (concat (map snd (map_to_list (OutEdges idx)))) = true -> closed_index idx.
Proof.
  intros W H e He. rewrite forallb_forall in H. apply (elem_of_lists _ _ W), list_elem_of_In in He.
  specialize (H e He). by rewrite andb_true_iff, !bool_decide_eq_true in H.
Qed.

(** Edge IDs told apart, decided on a concrete index. *)
Lemma unique_ids_by_eval idx :
  forallb (fun e => forallb (fun e' => negb (str_eqb (ed_ID e) (ed_ID e')) || bool_decide (e = e'))
    (concat (map snd (map_to_list (OutEdges idx))))) (concat (map snd (map_to_list (OutEdges idx)))) = true ->
  wf_index idx -> unique_ids idx.
Proof.
  intros H W e e' He He' Hid. rewrite forallb_forall in H.
  apply (elem_of_lists _ _ W), list_elem_of_In in He, He'.
  specialize (H e He). rewrite forallb_forall in H. specialize (H e' He').
  rewrite Hid, Stdlib.Strings.String.eqb_refl in H. cbn in H. by apply bool_decide_eq_true in H.
Qed.
