(* ===== verification/GrTraverse.v ===== *)
(** Walking the graph (internal/graph/query.go): breadth- and depth-first
    traversal with the policies that shape a blast radius. *)
From S2P Require Import Prelude GrModel.

Inductive TraversalMode : Type := BFS | DFS.

(** A discovered node and the edge that led to it; the node is nil when an
    edge points at an ID the index does not hold. *)
Record TraversalResult : Type := mkTR {
  tr_Node : option Node; tr_Via : option Edge; tr_Depth : nat; tr_Structural : bool
}.

Definition structuralEdgeTypes : gset EdgeType :=
  {[ EdgeTypeContains; EdgeTypeDeclares; EdgeTypeInstantiates; EdgeTypeUsesType; EdgeTypeImports ]}.
Definition structural_edge (e : Edge) : bool := bool_decide (ed_Type e ∈ structuralEdgeTypes).

Record TraversalPolicy : Type := mkPolicy { TerminalEdges : gset EdgeType; DropLocals : bool }.

Definition RawPolicy : TraversalPolicy := mkPolicy ∅ false.
Definition BlastRadiusPolicy : TraversalPolicy := mkPolicy ∅ true.
Definition ContainmentTerminal : TraversalPolicy :=
  mkPolicy {[ EdgeTypeContains; EdgeTypeDeclares ]} (DropLocals BlastRadiusPolicy).

Definition isLocalVariable (n : option Node) : bool :=
  match n with
  | None => false
  | Some n => str_eqb (n_Type n) NodeTypeVariable && str_eqb (meta_get (n_Meta n) "scope") "captured"
  end.

(** ** The loop *)

(** A node waiting in the queue. *)
Record item : Type := mkItem {
  it_id : string; it_via : option Edge; it_depth : nat; it_terminal : bool; it_structural : bool
}.

(** The end of the queue an item is taken from. *)
Definition pop (mode : TraversalMode) (queue : list item) : option (item * list item) :=
  match mode with
  | BFS => match queue with [] => None | cur :: rest => Some (cur, rest) end
  | DFS => match last queue with None => None | Some cur => Some (cur, removelast queue) end
  end.

(** The policy leaves [id] out of the walk. *)
Definition dropped (idx : AdjacencyIndex) (policy : TraversalPolicy) (id : string) : bool :=
  DropLocals policy && isLocalVariable (Nodes idx !! id).

(** One edge out of [cur]. *)
Definition visit_edge (idx : AdjacencyIndex) (direction : string) (policy : TraversalPolicy)
    (cur : item) (st : gset string * list item) (e : Edge) : gset string * list item :=
  let '(visited, queue) := st in
  let next := next_dir direction e in
  if decide (next ∈ visited) then st
  else if dropped idx policy next then ({[next]} ∪ visited, queue)
  else ({[next]} ∪ visited,
        queue ++ [mkItem next (Some e) (S (it_depth cur))
                    (bool_decide (ed_Type e ∈ TerminalEdges policy))
                    (it_structural cur || structural_edge e)]).

(** The result an item gives when it is taken: none for the start node. *)
Definition report (idx : AdjacencyIndex) (cur : item) : list TraversalResult :=
  if 0 <? it_depth cur
  then [mkTR (Nodes idx !! it_id cur) (it_via cur) (it_depth cur) (it_structural cur)] else [].

(** The depth limit, or a terminal hop, stops the walk at [cur]. *)
Definition stops_at (maxDepth : Z) (cur : item) : bool :=
  ((0 <? maxDepth)%Z && (maxDepth <=? Z.of_nat (it_depth cur))%Z) || it_terminal cur.

Fixpoint traverse_loop (fuel : nat) (idx : AdjacencyIndex) (direction : string)
    (mode : TraversalMode) (maxDepth : Z) (policy : TraversalPolicy)
    (queue : list item) (visited : gset string) (results : list TraversalResult)
    : option (list TraversalResult) :=
  match pop mode queue with
  | None => Some results
  | Some (cur, rest) =>
      match fuel with
      | O => None
      | S fuel' =>
          let results' := results ++ report idx cur in
          if stops_at maxDepth cur
          then traverse_loop fuel' idx direction mode maxDepth policy rest visited results'
          else
            let '(visited', queue') :=
              fold_left (visit_edge idx direction policy cur)
                (edges_dir idx direction (it_id cur)) (visited, rest) in
            traverse_loop fuel' idx direction mode maxDepth policy queue' visited' results'
      end
  end.

Definition start_item (startID : string) : item := mkItem startID None 0 false false.

Definition traverse_from (fuel : nat) (idx : AdjacencyIndex) (startID direction : string)
    (mode : TraversalMode) (maxDepth : Z) (policy : TraversalPolicy)
    : option (list TraversalResult) :=
  match Nodes idx !! startID with
  | None => Some []
  | Some _ => traverse_loop fuel idx direction mode maxDepth policy [start_item startID] {[startID]} []
  end.

(** The edges of the index, each once per occurrence in the lists. *)
Definition all_out (idx : AdjacencyIndex) : list Edge := concat (map snd (map_to_list (OutEdges idx))).
Definition all_in (idx : AdjacencyIndex) : list Edge := concat (map snd (map_to_list (InEdges idx))).
Definition edges_of (idx : AdjacencyIndex) (direction : string) : list Edge :=
  if is_in direction then all_in idx else all_out idx.

(** Rounds of the loop: one for the start and one for each edge end. *)
Definition traverse_fuel (idx : AdjacencyIndex) (direction : string) : nat :=
  S (length (edges_of idx direction)).

(** TraverseWithPolicy *)
Definition TraverseWithPolicy (idx : AdjacencyIndex) (startID direction : string)
    (mode : TraversalMode) (maxDepth : Z) (policy : TraversalPolicy) : list TraversalResult :=
  default [] (traverse_from (traverse_fuel idx direction) idx startID direction mode maxDepth policy).

Definition Traverse (idx : AdjacencyIndex) (startID direction : string) (mode : TraversalMode)
    (maxDepth : Z) : list TraversalResult :=
  TraverseWithPolicy idx startID direction mode maxDepth RawPolicy.
Definition Ancestors (idx : AdjacencyIndex) (startID : string) (maxDepth : Z) : list TraversalResult :=
  Traverse idx startID "in" BFS maxDepth.
Definition AncestorsWithPolicy (idx : AdjacencyIndex) (startID : string) (maxDepth : Z)
    (policy : TraversalPolicy) : list TraversalResult :=
  TraverseWithPolicy idx startID "in" BFS maxDepth policy.
Definition Descendants (idx : AdjacencyIndex) (startID : string) (maxDepth : Z) : list TraversalResult :=
  Traverse idx startID "out" BFS maxDepth.
