(* ===== verification/GrTraverseSpec.v ===== *)
(** What a traversal returns: every result lies at the end of an admissible
    walk, no node is reported twice, and a breadth-first walk without terminal
    edges reports exactly the nodes within the depth limit, each at its
    distance from the start. *)
From S2P Require Import Prelude GrModel GrTraverse.

(** ** Walks *)

Section walks.
Context (idx : AdjacencyIndex) (dir : string) (policy : TraversalPolicy) (start : string).

Definition terminal_edge (e : Edge) : bool := bool_decide (ed_Type e ∈ TerminalEdges policy).

(** A walk the policy admits: it enters no dropped node, and goes on only from
    nodes not entered through a terminal edge. *)
Inductive walk : list Edge -> string -> Prop :=
| walk_nil : walk [] start
| walk_snoc es x e :
    walk es x -> has_edge idx e -> prev_dir dir e = x ->
    dropped idx policy (next_dir dir e) = false ->
    Forall (fun e' => terminal_edge e' = false) es ->
    walk (es ++ [e]) (next_dir dir e).

(** [d] is the length of the shortest walk to [x]. *)
Definition distance (x : string) (d : nat) : Prop :=
  (exists es, walk es x /\ length es = d) /\ (forall es, walk es x -> d <= length es).
End walks.

(** The depth limit: none when it is not positive. *)
Definition within (maxDepth : Z) (d : nat) : Prop := (0 < maxDepth)%Z -> (Z.of_nat d <= maxDepth)%Z.

(** The ID of the node a result reports. *)
Definition tr_ID (dir : string) (r : TraversalResult) : option string := next_dir dir <$> tr_Via r.

(** ** The loop invariant *)

Section loop.
Context (idx : AdjacencyIndex) (dir : string) (mode : TraversalMode) (maxDepth : Z)
  (policy : TraversalPolicy) (start : string).
Hypothesis W : wf_index idx.

Let walk := walk idx dir policy start.

(** What an item records about the walk that found it. *)
Definition good (it : item) : Prop := exists es,
  walk es (it_id it) /\ it_depth it = length es /\ it_via it = last es /\
  it_structural it = existsb structural_edge es /\ it_terminal it = existsb (terminal_edge policy) es /\
  within maxDepth (it_depth it).

Definition ids (items : list item) : list string := map it_id items.

Record inv (items : list item) (visited : gset string) : Prop := {
  inv_nodup : NoDup (ids items);
  inv_good : Forall good items;
  inv_seen x : x ∈ ids items -> x ∈ visited;
  inv_from x : x ∈ visited -> x ∈ ids items \/ dropped idx policy x = true
}.

Definition targets : gset string := list_to_set (map (next_dir dir) (edges_of idx dir)).

Lemma edges_of_dir id e : e ∈ edges_dir idx dir id -> next_dir dir e ∈ targets.
Proof.
  intros He. unfold targets. rewrite elem_of_list_to_set. apply list_elem_of_fmap_2.
  unfold edges_of, edges_dir, in_of, out_of, all_in, all_out in *.
  destruct (is_in dir); apply list_elem_of_In, in_concat;
    match goal with |- context [map_to_list ?m] => destruct (m !! id) as [l|] eqn:E end;
    try (by apply elem_of_nil in He); exists l; (split; [|by apply list_elem_of_In]);
    apply in_map_iff; exists (id, l); (split; [done|]); by apply list_elem_of_In, elem_of_map_to_list.
Qed.

(** One edge: at most one new item, one deeper than the node expanded. *)
Lemma visit_edge_inv items queue visited cur e :
  inv (items ++ queue) visited -> cur ∈ items -> stops_at maxDepth cur = false ->
  e ∈ edges_dir idx dir (it_id cur) ->
  exists new visited',
    visit_edge idx dir policy cur (visited, queue) e = (visited', queue ++ new) /\
    inv (items ++ queue ++ new) visited' /\ visited ⊆ visited' /\ next_dir dir e ∈ visited' /\
    Forall (fun it => it_depth it = S (it_depth cur)) new /\
    length new + size (targets ∖ visited') <= size (targets ∖ visited).
Proof.
  intros [H1 H2 H3 H4] Hcur Hstop He. pose proof (edges_of_dir _ _ He) as Ht.
  assert (Hsz : next_dir dir e ∉ visited ->
    S (size (targets ∖ ({[next_dir dir e]} ∪ visited))) <= size (targets ∖ visited)).
  { intros Hn. apply subset_size. split; [set_solver|]. intros Hs.
    assert (next_dir dir e ∈ targets ∖ visited) as Hx by set_solver. apply Hs in Hx. set_solver. }
  unfold visit_edge. case_decide as Hv; [|destruct (dropped idx policy (next_dir dir e)) eqn:Ed].
  - exists [], visited. rewrite !app_nil_r. split_and!; try done; lia.
  - exists [], ({[next_dir dir e]} ∪ visited). rewrite !app_nil_r.
    split_and!; try done; [|set_solver..|cbn; specialize (Hsz Hv); lia].
    split; [done..| |]; intros x Hx; [set_solver|]. apply elem_of_union in Hx as [Hx|Hx]; [|by apply H4].
    apply elem_of_singleton in Hx as ->. by right.
  - eexists [_], _. split; [reflexivity|]. split; [|split_and!; [set_solver..| |]].
    + rewrite app_assoc. split.
      * unfold ids. rewrite map_app. cbn. apply NoDup_app. split_and!; [done| |apply NoDup_singleton].
        intros x Hx. rewrite list_elem_of_singleton. intros ->. by apply Hv, H3.
      * apply Forall_app. split; [done|]. apply Forall_singleton.
        rewrite Forall_forall in H2. destruct (H2 cur) as (es & Hw & Hd & Hvia & Hs & Hterm & Hin).
        { apply elem_of_app. by left. }
        unfold stops_at in Hstop. apply orb_false_iff in Hstop as [Hs1 Hs2].
        apply (elem_of_edges_dir _ _ _ _ W) in He as [He Hprev]. exists (es ++ [e]). cbn.
        rewrite length_app, last_snoc, !existsb_app. cbn. rewrite !orb_false_r, Hd, Hs, <- Hterm, Hs2.
        assert (Hall : Forall (fun e' => terminal_edge policy e' = false) es).
        { apply Forall_forall. intros e' He'. destruct (terminal_edge policy e') eqn:Et; [|done].
          rewrite Hs2 in Hterm. symmetry in Hterm. apply not_true_iff_false in Hterm. destruct Hterm.
          apply existsb_exists. exists e'. by rewrite <- list_elem_of_In. }
        split_and!; try done; [by eapply walk_snoc|lia|].
        unfold within. intros Hm. rewrite Hd in Hs1. lia.
      * intros x. unfold ids. rewrite map_app, elem_of_app. cbn. rewrite list_elem_of_singleton.
        intros [Hx| ->]; [apply H3 in Hx|]; set_solver.
      * intros x Hx. apply elem_of_union in Hx as [Hx|Hx].
        -- apply elem_of_singleton in Hx as ->. left. unfold ids. rewrite map_app, elem_of_app.
           right. by left.
        -- apply H4 in Hx as [Hx|Hx]; [|by right]. left. unfold ids. rewrite map_app, elem_of_app. by left.
    + by apply Forall_singleton.
    + cbn. by apply Hsz.
Qed.

Lemma visit_edges_inv es items queue visited cur :
  inv (items ++ queue) visited -> cur ∈ items -> stops_at maxDepth cur = false ->
  (forall e, e ∈ es -> e ∈ edges_dir idx dir (it_id cur)) ->
  exists new visited',
    fold_left (visit_edge idx dir policy cur) es (visited, queue) = (visited', queue ++ new) /\
    inv (items ++ queue ++ new) visited' /\ visited ⊆ visited' /\
    (forall e, e ∈ es -> next_dir dir e ∈ visited') /\
    Forall (fun it => it_depth it = S (it_depth cur)) new /\
    length new + size (targets ∖ visited') <= size (targets ∖ visited).
Proof.
  revert queue visited. induction es as [|e es IH]; intros queue visited Hi Hcur Hstop He.
  - exists [], visited. rewrite !app_nil_r. split; [done|]. split; [done|]. split; [done|]. split; [by intros e ?%elem_of_nil|]. split; [done|cbn; lia].
  - destruct (visit_edge_inv items queue visited cur e Hi Hcur Hstop) as (n1 & v1 & E1 & Hi1 & Hs1 & Hv1 & Hd1 & Hsz1).
    { apply He. left. }
    destruct (IH (queue ++ n1) v1) as (n2 & v2 & E2 & Hi2 & Hs2 & Hv2 & Hd2 & Hsz2); try done.
    { intros e' He'. apply He. by right. }
    exists (n1 ++ n2), v2. cbn [fold_left]. rewrite E1, E2, length_app, <- !app_assoc.
    rewrite <- !app_assoc in Hi2. split; [done|]. split; [done|].
    split; [by etrans|]. split; [|split; [by apply Forall_app|lia]].
    intros e' He'. apply elem_of_cons in He' as [->|He']; [by apply Hs2|by apply Hv2].
Qed.

Lemma inv_perm items items' visited : items ≡ₚ items' -> inv items visited -> inv items' visited.
Proof.
  intros Hp [H1 H2 H3 H4]. assert (Hi : ids items ≡ₚ ids items') by by apply Permutation_map.
  split; [by rewrite <- Hi|by rewrite <- Hp|intros x; rewrite <- Hi; apply H3|].
  intros x Hx. rewrite <- Hi. by apply H4.
Qed.

Lemma pop_spec queue cur rest : pop mode queue = Some (cur, rest) ->
  queue ≡ₚ cur :: rest /\ (mode = BFS -> queue = cur :: rest).
Proof.
  unfold pop. destruct mode.
  - destruct queue as [|c q]; [done|]. by intros [= -> ->].
  - destruct (last queue) as [c|] eqn:E; [|done]. intros [= -> <-]. split; [|done].
    apply last_Some in E as [l ->]. rewrite removelast_last. by rewrite Permutation_app_comm.
Qed.

Lemma pop_none queue : pop mode queue = None -> queue = [].
Proof.
  unfold pop. destruct mode; [by destruct queue|]. destruct (last queue) eqn:E; [done|].
  intros _. by apply last_None in E.
Qed.

(** What a breadth-first walk maintains: depths come in order, the queue is
    within one of its head, and an expanded node has all its successors. *)
Record frontier (past queue : list item) : Prop := {
  fr_sorted : StronglySorted le (map it_depth (past ++ queue));
  fr_width it hd rest : queue = hd :: rest -> it ∈ past ++ queue -> it_depth it <= S (it_depth hd);
  fr_closed cur e : cur ∈ past -> stops_at maxDepth cur = false ->
    e ∈ edges_dir idx dir (it_id cur) -> dropped idx policy (next_dir dir e) = false ->
    exists it, it ∈ past ++ queue /\ it_id it = next_dir dir e /\ it_depth it <= S (it_depth cur)
}.

Lemma frontier_step past cur rest new visited :
  frontier past (cur :: rest) -> inv ((past ++ [cur]) ++ rest ++ new) visited ->
  Forall (fun it => it_depth it = S (it_depth cur)) new ->
  (stops_at maxDepth cur = false ->
   forall e, e ∈ edges_dir idx dir (it_id cur) -> next_dir dir e ∈ visited) ->
  frontier (past ++ [cur]) (rest ++ new).
Proof.
  intros [Hs Hw Hc] [_ _ _ Hfrom] Hnew Hseen. rewrite Forall_forall in Hnew.
  assert (Hall : forall it, it ∈ (past ++ [cur]) ++ rest ++ new -> it_depth it <= S (it_depth cur)).
  { intros it. rewrite app_assoc, elem_of_app. intros [H|H]; [|by rewrite (Hnew _ H)].
    apply (Hw it cur rest eq_refl). by rewrite <- app_assoc in H. }
  split.
  - rewrite app_assoc, map_app. apply StronglySorted_app_2.
    + intros x y Hx Hy. apply list_elem_of_fmap in Hx as (it & -> & Hit).
      apply list_elem_of_fmap in Hy as (it' & -> & Hit'). rewrite (Hnew _ Hit').
      apply Hall. rewrite app_assoc, elem_of_app. by left.
    + by rewrite <- app_assoc.
    + assert (Hd : forall x, x ∈ map it_depth new -> x = S (it_depth cur)).
      { intros x Hx. apply list_elem_of_fmap in Hx as (it & -> & Hit). by apply Hnew. }
      revert Hd. generalize (map it_depth new). induction l as [|x l IH]; intros Hd; constructor.
      * apply IH. intros y Hy. apply Hd. by right.
      * apply Forall_forall. intros y Hy. rewrite (Hd x), (Hd y); [done|by right|left].
  - intros it hd tl E Hit. apply Hall in Hit. etrans; [exact Hit|]. apply le_n_S.
    destruct rest as [|r rest']; cbn in E.
    + rewrite (Hnew hd); [lia|]. rewrite E. left.
    + injection E as <- _. rewrite map_app in Hs. cbn in Hs.
      apply StronglySorted_app_1_r in Hs. apply StronglySorted_cons in Hs as [Hs _].
      rewrite Forall_forall in Hs. apply Hs. left.
  - intros c e Hcin Hstop He Hdrop. apply elem_of_app in Hcin as [Hcin|Hcin].
    + destruct (Hc c e Hcin Hstop He Hdrop) as (it & Hit & Hid & Hdep).
      exists it. split; [|done]. rewrite app_assoc, elem_of_app. left.
      by rewrite <- app_assoc.
    + apply list_elem_of_singleton in Hcin as ->. specialize (Hseen Hstop e He).
      apply Hfrom in Hseen as [Hx|Hx]; [|congruence].
      apply list_elem_of_fmap in Hx as (it & Hid & Hit). exists it. split; [done|].
      split; [done|]. by apply Hall.
Qed.

Lemma loop_spec fuel past queue visited :
  inv (past ++ queue) visited -> (mode = BFS -> frontier past queue) ->
  length queue + size (targets ∖ visited) <= fuel ->
  exists past' visited',
    traverse_loop fuel idx dir mode maxDepth policy queue visited (concat (map (report idx) past)) =
      Some (concat (map (report idx) past')) /\
    inv past' visited' /\ (forall it, it ∈ past ++ queue -> it ∈ past') /\ (mode = BFS -> frontier past' []).
Proof.
  revert past queue visited. induction fuel as [|fuel IH]; intros past queue visited Hi Hf Hfuel;
    cbn [traverse_loop]; destruct (pop mode queue) as [[cur rest]|] eqn:E.
  - apply pop_spec in E as [E _]. apply Permutation_length in E. cbn in E. lia.
  - apply pop_none in E as ->. rewrite app_nil_r in *. exists past, visited. by split_and!.
  - apply pop_spec in E as [Ep Eb]. pose proof (Permutation_length Ep) as Hl. cbn in Hl.
    assert (Hi' : inv ((past ++ [cur]) ++ rest) visited).
    { eapply inv_perm; [|exact Hi]. rewrite <- app_assoc. by apply Permutation_app_head. }
    assert (Hres : concat (map (report idx) past) ++ report idx cur =
                   concat (map (report idx) (past ++ [cur]))).
    { rewrite map_app, concat_app. cbn. by rewrite app_nil_r. }
    rewrite Hres. destruct (stops_at maxDepth cur) eqn:Hstop.
    + destruct (IH (past ++ [cur]) rest visited Hi') as (p & v & H1 & H2 & H3 & H4).
      * intros Hm. specialize (Hf Hm). rewrite (Eb Hm) in Hf.
        rewrite <- (app_nil_r rest). eapply (frontier_step past cur rest [] visited); try done.
        { by rewrite app_nil_r. } by rewrite Hstop.
      * lia.
      * exists p, v. split; [done|]. split; [done|]. split; [|done].
        intros it. rewrite Ep. intros Hit. apply H3. by rewrite <- app_assoc.
    + destruct (visit_edges_inv (edges_dir idx dir (it_id cur)) (past ++ [cur]) rest visited cur)
        as (new & v1 & E1 & Hi1 & Hsub & Hseen & Hd & Hsz); try done.
      { apply elem_of_app. right. left. }
      rewrite E1. destruct (IH (past ++ [cur]) (rest ++ new) v1 Hi1) as (p & v & H1 & H2 & H3 & H4).
      * intros Hm. specialize (Hf Hm). rewrite (Eb Hm) in Hf.
        by apply (frontier_step past cur rest new v1).
      * rewrite length_app. lia.
      * exists p, v. split; [done|]. split; [done|]. split; [|done].
        intros it. rewrite Ep. intros Hit. apply H3. rewrite <- app_assoc.
        apply elem_of_app in Hit as [Hit|Hit]; apply elem_of_app; [by left|right].
        cbn. apply elem_of_cons in Hit as [->|Hit]; [left|right]. apply elem_of_app. by left.
  - apply pop_none in E as ->. rewrite app_nil_r in *. exists past, visited. by split_and!.
Qed.

Lemma targets_size : size targets <= length (edges_of idx dir).
Proof.
  clear W.
  unfold targets. induction (edges_of idx dir) as [|e l IH]; cbn; [by rewrite size_empty|].
  rewrite size_union_alt, size_singleton. apply le_n_S. etrans; [|exact IH].
  apply subseteq_size. set_solver.
Qed.

Lemma inv_start : inv [start_item start] {[start]}.
Proof.
  split; cbn.
  - apply NoDup_singleton.
  - apply Forall_singleton. exists []. split_and!; [apply walk_nil|done..|]. unfold within; cbn; lia.
  - intros x Hx. by apply list_elem_of_singleton in Hx as ->; apply elem_of_singleton.
  - intros x Hx. apply elem_of_singleton in Hx as ->. left. left.
Qed.

Lemma frontier_start : frontier [] [start_item start].
Proof.
  split; cbn.
  - repeat constructor.
  - intros it hd rest [= <- <-] Hit. apply list_elem_of_singleton in Hit as ->. cbn. lia.
  - intros cur e Hc. by apply elem_of_nil in Hc.
Qed.

Lemma traverse_from_spec : is_Some (Nodes idx !! start) ->
  exists past visited,
    traverse_from (traverse_fuel idx dir) idx start dir mode maxDepth policy =
      Some (concat (map (report idx) past)) /\
    inv past visited /\ start_item start ∈ past /\ (mode = BFS -> frontier past []).
Proof.
  intros [n Hn]. unfold traverse_from. rewrite Hn.
  destruct (loop_spec (traverse_fuel idx dir) [] [start_item start] {[start]})
    as (past & visited & H1 & H2 & H3 & H4).
  - apply inv_start.
  - intros _. apply frontier_start.
  - cbn. apply le_n_S. etrans; [|apply targets_size]. apply subseteq_size. set_solver.
  - cbn [map concat] in H1. exists past, visited. split; [exact H1|]. split; [done|]. split; [|done].
    apply H3. left.
Qed.
End loop.

(** ** What is reported *)

Lemma elem_of_reports idx past r :
  r ∈ concat (map (report idx) past) <->
  exists it, it ∈ past /\ 0 < it_depth it /\
    r = mkTR (Nodes idx !! it_id it) (it_via it) (it_depth it) (it_structural it).
Proof.
  rewrite list_elem_of_In, in_concat. setoid_rewrite in_map_iff. unfold report. split.
  - intros (l & (it & <- & Hit) & Hr). exists it. rewrite list_elem_of_In.
    destruct (0 <? it_depth it) eqn:E; [|done]. destruct Hr as [<-|[]]. apply Nat.ltb_lt in E. done.
  - intros (it & Hit & Hd & ->). exists (report idx it). unfold report.
    split; [exists it; by rewrite <- list_elem_of_In|].
    apply Nat.ltb_lt in Hd. rewrite Hd. by left.
Qed.

Section theorems.
Context (idx : AdjacencyIndex) (dir : string) (policy : TraversalPolicy) (start : string).
Implicit Types (es : list Edge) (x : string).

Lemma walk_last es x : walk idx dir policy start es x ->
  match last es with None => x = start | Some e => x = next_dir dir e end.
Proof. destruct 1 as [|es x e]; [done|]. by rewrite last_snoc. Qed.

Lemma good_ID maxDepth it : good idx dir maxDepth policy start it -> 0 < it_depth it ->
  next_dir dir <$> it_via it = Some (it_id it).
Proof.
  intros (es & Hw & Hd & Hv & _) Hpos. apply walk_last in Hw. rewrite Hv.
  destruct (last es) eqn:E; cbn; [by f_equal|].
  apply last_None in E as ->. cbn in Hd. lia.
Qed.

Lemma reports_IDs maxDepth past : Forall (good idx dir maxDepth policy start) past ->
  map (tr_ID dir) (concat (map (report idx) past)) =
  map (fun it => Some (it_id it)) (List.filter (fun it => 0 <? it_depth it) past).
Proof.
  induction 1 as [|it past Hg _ IH]; [done|]. cbn [map concat List.filter]. rewrite map_app, IH.
  unfold report at 1. destruct (0 <? it_depth it) eqn:E; [|done]. cbn. f_equal.
  apply Nat.ltb_lt in E. unfold tr_ID; cbn. by eapply good_ID.
Qed.

Lemma NoDup_filter_ids past : NoDup (ids past) ->
  NoDup (map (fun it => Some (it_id it)) (List.filter (fun it => 0 <? it_depth it) past)).
Proof.
  unfold ids. induction past as [|it past IH]; cbn [map List.filter]; [constructor|].
  intros [Hit Hn]%NoDup_cons. destruct (0 <? it_depth it); [|by apply IH].
  cbn [map]. apply NoDup_cons. split; [|by apply IH]. intros Hin. apply Hit.
  apply list_elem_of_fmap in Hin as (it' & [= E] & Hf). apply list_elem_of_In, filter_In in Hf as [Hf _].
  apply list_elem_of_fmap. exists it'. by rewrite list_elem_of_In.
Qed.

Lemma ids_inj past it1 it2 : NoDup (ids past) -> it1 ∈ past -> it2 ∈ past ->
  it_id it1 = it_id it2 -> it1 = it2.
Proof.
  intros Hn H1 H2 E. apply list_elem_of_lookup in H1 as [i Hi]. apply list_elem_of_lookup in H2 as [j Hj].
  assert (i = j) as <-; [|congruence].
  apply (NoDup_lookup (ids past) i j (it_id it1) Hn); unfold ids; rewrite list_lookup_fmap.
  - by rewrite Hi.
  - by rewrite Hj, E.
Qed.

Lemma walk_target es x : wf_index idx -> walk idx dir policy start es x -> es <> [] -> x ∈ targets idx dir.
Proof.
  intros W Hw. destruct Hw as [|es x e Hw He Hp _ _]; [done|]. intros _.
  eapply edges_of_dir. by apply elem_of_edges_dir.
Qed.

Lemma reports_length maxDepth past : wf_index idx -> NoDup (ids past) ->
  Forall (good idx dir maxDepth policy start) past ->
  length (concat (map (report idx) past)) <= length (edges_of idx dir).
Proof.
  intros W Hn Hg. rewrite <- (length_map (tr_ID dir)), (reports_IDs maxDepth past Hg), length_map.
  apply NoDup_filter_ids in Hn.
  set (found := List.filter (fun it => 0 <? it_depth it) past) in *.
  rewrite <- (length_map it_id). etrans; [|apply (targets_size idx dir)].
  assert (Hnd : NoDup (map it_id found)).
  { apply (NoDup_fmap_1 (fun o : string => Some o)). by rewrite <- list_fmap_compose. }
  rewrite <- (size_list_to_set (C:=gset string) (map it_id found)) by done.
  apply subseteq_size. intros x. rewrite elem_of_list_to_set. intros Hx.
  apply list_elem_of_fmap in Hx as (it & -> & Hit). apply list_elem_of_In in Hit.
  apply filter_In in Hit as [Hit Hpos]. apply list_elem_of_In in Hit. apply Nat.ltb_lt in Hpos.
  rewrite Forall_forall in Hg. destruct (Hg _ Hit) as (es & Hw & Hd & _).
  eapply walk_target; [done|exact Hw|]. intros ->. cbn in Hd. lia.
Qed.
End theorems.

Lemma no_terminal policy es : TerminalEdges policy = ∅ -> existsb (terminal_edge policy) es = false.
Proof.
  intros H. induction es as [|e es IH]; [done|]. cbn. rewrite IH, orb_false_r.
  unfold terminal_edge. rewrite H. by apply bool_decide_eq_false, not_elem_of_empty.
Qed.

Lemma reports_sorted idx past : StronglySorted le (map it_depth past) ->
  StronglySorted le (map tr_Depth (concat (map (report idx) past))).
Proof.
  induction past as [|it past IH]; cbn [map concat]; [done|].
  intros [Hit Hs]%StronglySorted_cons. rewrite map_app. unfold report at 1.
  destruct (0 <? it_depth it); [|by apply IH]. cbn [app map tr_Depth].
  apply StronglySorted_cons. split; [|by apply IH]. rewrite Forall_forall in *. intros d Hd.
  apply list_elem_of_fmap in Hd as (r & -> & Hr). apply elem_of_reports in Hr as (it' & Hit' & _ & ->).
  cbn. apply Hit, list_elem_of_fmap. by exists it'.
Qed.

(** The items the loop took, and the results they gave. *)
Lemma traverse_items idx dir mode maxDepth policy start n :
  wf_index idx -> Nodes idx !! start = Some n ->
  exists past visited,
    traverse_from (traverse_fuel idx dir) idx start dir mode maxDepth policy =
      Some (TraverseWithPolicy idx start dir mode maxDepth policy) /\
    TraverseWithPolicy idx start dir mode maxDepth policy = concat (map (report idx) past) /\
    inv idx dir maxDepth policy start past visited /\ start_item start ∈ past /\
    (mode = BFS -> frontier idx dir maxDepth policy past []).
Proof.
  intros W Hn. destruct (traverse_from_spec idx dir mode maxDepth policy start W) as (past & visited & E & Hi & Hst & Hf);
    [by exists n|].
  exists past, visited. unfold TraverseWithPolicy. by rewrite E.
Qed.

(** ** Properties *)

(** Every result of a traversal lies at the end of an admissible walk. *)
Lemma traverse_results idx dir mode maxDepth policy start :
  wf_index idx ->
  let rs := TraverseWithPolicy idx start dir mode maxDepth policy in
  traverse_from (traverse_fuel idx dir) idx start dir mode maxDepth policy = Some rs /\
  NoDup (map (tr_ID dir) rs) /\ length rs <= length (edges_of idx dir) /\
  forall r, r ∈ rs -> exists es x,
    walk idx dir policy start es x /\ es <> [] /\ x <> start /\ within maxDepth (length es) /\
    tr_ID dir r = Some x /\ tr_Node r = Nodes idx !! x /\ tr_Via r = last es /\
    tr_Depth r = length es /\ tr_Structural r = existsb structural_edge es.
Proof.
  intros W rs. subst rs. destruct (Nodes idx !! start) as [n|] eqn:En; cycle 1.
  { unfold TraverseWithPolicy, traverse_from. rewrite En. cbn.
    split; [done|]. split; [constructor|]. split; [lia|]. intros r Hr. by apply elem_of_nil in Hr. }
  destruct (traverse_items idx dir mode maxDepth policy start n W En)
    as (past & visited & E & Hrs & [Hnd Hg _ _] & Hst & _).
  split; [done|]. rewrite Hrs. clear E Hrs. split_and!.
  - rewrite (reports_IDs idx dir policy start maxDepth past Hg). by apply NoDup_filter_ids.
  - by eapply reports_length.
  - intros r Hr. apply elem_of_reports in Hr as (it & Hit & Hpos & ->).
    rewrite Forall_forall in Hg. pose proof (good_ID _ _ _ _ _ _ (Hg _ Hit) Hpos) as Hid.
    destruct (Hg _ Hit) as (es & Hw & Hd & Hv & Hs & _ & Hin).
    exists es, (it_id it). cbn. rewrite <- Hd. split_and!; try done.
    + intros ->. cbn in Hd. lia.
    + intros Hx. assert (it = start_item start) as -> by by eapply ids_inj.
      cbn in Hpos. lia.
Qed.

(** A traversal, in either mode and under any policy, terminates; it
    reports no node twice and never the start, at most one result for each
    edge of the index, and each result lies at the end of an admissible walk
    within the depth limit whose length, last edge and structural flag it
    carries. *)
Theorem traverse_sound idx dir mode maxDepth policy start :
  wf_index idx ->
  let rs := TraverseWithPolicy idx start dir mode maxDepth policy in
  traverse_from (traverse_fuel idx dir) idx start dir mode maxDepth policy = Some rs /\
  NoDup (map (tr_ID dir) rs) /\ length rs <= length (edges_of idx dir) /\
  forall r, r ∈ rs -> exists es x,
    walk idx dir policy start es x /\ es <> [] /\ x <> start /\ within maxDepth (length es) /\
    tr_ID dir r = Some x /\ tr_Node r = Nodes idx !! x /\ tr_Via r = last es /\
    tr_Depth r = length es /\ tr_Structural r = existsb structural_edge es.
Proof. intros W. by apply traverse_results. Qed.

(** What a breadth-first traversal without terminal edges reports. *)
Lemma bfs_distances idx dir maxDepth policy start :
  wf_index idx -> is_Some (Nodes idx !! start) -> TerminalEdges policy = ∅ ->
  let rs := TraverseWithPolicy idx start dir BFS maxDepth policy in
  StronglySorted le (map tr_Depth rs) /\
  forall x d,
    (exists r, r ∈ rs /\ tr_ID dir r = Some x /\ tr_Depth r = d) <->
    (x <> start /\ distance idx dir policy start x d /\ within maxDepth d).
Proof.
  intros W [n Hn] Ht rs. subst rs.
  destruct (traverse_items idx dir BFS maxDepth policy start n W Hn)
    as (past & visited & _ & -> & [Hnd Hg _ _] & Hst & Hf).
  specialize (Hf eq_refl). destruct Hf as [Hs _ Hc]. rewrite app_nil_r in *.
  pose proof Hg as Hg'. rewrite Forall_forall in Hg'.
  assert (Hreach : forall es x, walk idx dir policy start es x -> within maxDepth (length es) ->
    exists it, it ∈ past /\ it_id it = x /\ it_depth it <= length es).
  { intros es x Hw. induction Hw as [|es x e Hw IH He Hp Hdrop _]; intros Hin.
    - by exists (start_item start).
    - rewrite length_app in *. cbn in *. destruct IH as (cur & Hcur & Hid & Hd); [unfold within in *; lia|].
      destruct (Hc cur e Hcur) as (it & Hit & Hid' & Hd'); [| |done|exists it; split_and!; try done; lia].
      + destruct (Hg' _ Hcur) as (es' & _ & _ & _ & _ & Hterm & _).
        unfold stops_at. rewrite Hterm, (no_terminal policy es' Ht), orb_false_r.
        unfold within in Hin. lia.
      + apply elem_of_edges_dir; [done|]. by subst. }
  split; [by apply reports_sorted|]. intros x d. split.
  - intros (r & Hr & Hid & <-). apply elem_of_reports in Hr as (it & Hit & Hpos & ->). cbn in *.
    pose proof (good_ID _ _ _ _ _ _ (Hg' _ Hit) Hpos) as Hid'. unfold tr_ID in Hid. cbn in Hid.
    rewrite Hid' in Hid. injection Hid as <-.
    destruct (Hg' _ Hit) as (es & Hw & Hd & _ & _ & _ & Hin). split_and!; [|split|done].
    + intros Hx. assert (it = start_item start) as -> by by eapply ids_inj. cbn in Hpos. lia.
    + by exists es.
    + intros es' Hw'. destruct (decide (length es' < it_depth it)) as [Hlt|]; [|lia].
      destruct (Hreach es' _ Hw') as (it' & Hit' & Hid'' & Hd'); [unfold within in *; lia|].
      assert (it' = it) as -> by by eapply ids_inj. done.
  - intros (Hx & [(es & Hw & Hl) Hmin] & Hin). subst d.
    destruct (Hreach es x Hw Hin) as (it & Hit & <- & Hd).
    destruct (Hg' _ Hit) as (es' & Hw' & Hd' & _). pose proof (Hmin _ Hw').
    assert (Hpos : 0 < it_depth it).
    { destruct (it_depth it) eqn:Ed; [|lia]. destruct es'; [|done]. by apply walk_last in Hw'. }
    exists (mkTR (Nodes idx !! it_id it) (it_via it) (it_depth it) (it_structural it)).
    split; [apply elem_of_reports; by exists it|]. split; [by eapply good_ID, Hpos; apply Hg'|cbn; lia].
Qed.

(** C32: a breadth-first traversal whose policy has no terminal edges (the raw
    walk and the default blast radius) ends within its fuel and reports exactly
    the nodes other than the start that an admissible walk reaches within the
    depth limit, no node twice, in order of depth, each at its distance from
    the start and with the last edge and the structural flag of an admissible
    walk of that length. *)
Theorem bfs_exact idx dir maxDepth policy start :
  wf_index idx -> is_Some (Nodes idx !! start) -> TerminalEdges policy = ∅ ->
  let rs := TraverseWithPolicy idx start dir BFS maxDepth policy in
  traverse_from (traverse_fuel idx dir) idx start dir BFS maxDepth policy = Some rs /\
  NoDup (map (tr_ID dir) rs) /\
  StronglySorted le (map tr_Depth rs) /\
  (forall x d,
    (exists r, r ∈ rs /\ tr_ID dir r = Some x /\ tr_Depth r = d) <->
    (x <> start /\ distance idx dir policy start x d /\ within maxDepth d)) /\
  (forall r, r ∈ rs -> exists es x, walk idx dir policy start es x /\ tr_ID dir r = Some x /\
    tr_Node r = Nodes idx !! x /\ tr_Depth r = length es /\ tr_Via r = last es /\
    tr_Structural r = existsb structural_edge es).
Proof.
  intros W Hs Ht. cbn zeta.
  destruct (traverse_results idx dir BFS maxDepth policy start W) as (H1 & H2 & _ & H3).
  destruct (bfs_distances idx dir maxDepth policy start W Hs Ht) as [H4 H5].
  split_and!; [done..|]. intros r Hr. destruct (H3 r Hr) as (es & x & ? & _ & _ & _ & ? & ? & ? & ? & ?).
  by exists es, x.
Qed.

(** In an index without dangling edges every result has its node. *)
Lemma results_have_nodes idx dir mode maxDepth policy start r :
  wf_index idx -> closed_index idx -> r ∈ TraverseWithPolicy idx start dir mode maxDepth policy ->
  exists n, tr_Node r = Some n /\ tr_ID dir r = Some (n_ID n) /\ Nodes idx !! n_ID n = Some n.
Proof.
  intros W C Hr. destruct (traverse_results idx dir mode maxDepth policy start W) as (_ & _ & _ & Hrs).
  destruct (Hrs r Hr) as (es & x & Hw & Hne & _ & _ & Hx & Hn & _).
  destruct Hw as [|es y e _ He _ _ _]; [done|].
  destruct (C e He) as [Hf Ht]. assert (is_Some (Nodes idx !! next_dir dir e)) as [n En].
  { unfold next_dir. by destruct (is_in dir). }
  exists n. pose proof (wf_nodes _ W _ _ En) as Hi. by rewrite Hi, Hx, Hn, En.
Qed.

(** ** Concrete graphs *)

Definition demo_node (id : string) : Node := mkNode id NodeTypeFunction id "svc" "f.go" 1 0 "go" ∅ "".
Definition demo_edge (ty from to : string) : Edge :=
  mkEdge (from +:+ "-" +:+ to) from to ty "" "" "" "" ∅ [] "" "".
Definition demo_index (edges : list Edge) : AdjacencyIndex :=
  BuildIndex (map demo_node ["s"; "a"; "b"; "c"; "d"; "e"]) edges.

Definition demo_calls : list Edge :=
  [demo_edge EdgeTypeCalls "s" "a"; demo_edge EdgeTypeCalls "s" "b"; demo_edge EdgeTypeCalls "a" "d";
   demo_edge EdgeTypeCalls "b" "c"; demo_edge EdgeTypeCalls "c" "d"; demo_edge EdgeTypeCalls "d" "e"].

Definition reported (rs : list TraversalResult) : list (string * nat) :=
  omap (fun r => (fun n => (n_ID n, tr_Depth r)) <$> tr_Node r) rs.

Lemma traverse_sound_witness :
  wf_index (demo_index demo_calls) /\
  length (Traverse (demo_index demo_calls) "s" "out" DFS 0) <= 6.
Proof.
  split; [apply wf_BuildIndex|].
  exact (proj1 (proj2 (proj2 (traverse_sound (demo_index demo_calls) "out" DFS 0 RawPolicy "s"
    (wf_BuildIndex _ _))))).
Defined.

Lemma bfs_exact_witness :
  reported (Traverse (demo_index demo_calls) "s" "out" BFS 3) =
    [("a", 1); ("b", 1); ("d", 2); ("c", 2); ("e", 3)] /\
  distance (demo_index demo_calls) "out" RawPolicy "s" "e" 3.
Proof.
  split; [vm_compute; reflexivity|].
  destruct (bfs_exact (demo_index demo_calls) "out" 3 RawPolicy "s" (wf_BuildIndex _ _)
    (ex_intro _ (demo_node "s") eq_refl) eq_refl) as (_ & _ & _ & H & _).
  apply H. eexists. split; [|split].
  - do 4 right. left.
  - reflexivity.
  - reflexivity.
Defined.

Definition demo_walk : list Edge :=
  [demo_edge EdgeTypeCalls "s" "a"; demo_edge EdgeTypeCalls "a" "d"; demo_edge EdgeTypeCalls "d" "e"].

Lemma demo_walk_ok : walk (demo_index demo_calls) "out" RawPolicy "s" demo_walk "e".
Proof.
  change demo_walk with ((([] ++ [demo_edge EdgeTypeCalls "s" "a"])
    ++ [demo_edge EdgeTypeCalls "a" "d"]) ++ [demo_edge EdgeTypeCalls "d" "e"]).
  assert (Hstep : forall es x e, walk (demo_index demo_calls) "out" RawPolicy "s" es x ->
    bool_decide (has_edge (demo_index demo_calls) e) = true -> ed_From e = x ->
    walk (demo_index demo_calls) "out" RawPolicy "s" (es ++ [e]) (ed_To e)).
  { intros es x e Hw He Hx. apply bool_decide_eq_true in He. change (ed_To e) with (next_dir "out" e). apply (walk_snoc _ _ _ _ es x e); try done.
    apply Forall_forall. intros e' _. reflexivity. }
  repeat (eapply Hstep; [|vm_compute; reflexivity|reflexivity]). apply walk_nil.
Qed.

(** Under a depth limit the depth-first walk misses nodes that are within
    the limit: a node first met on a long path keeps that depth, and its
    successors are cut off although a shorter path leads to them. *)
Theorem dfs_depth_limit_incomplete :
  exists idx start x es,
    wf_index idx /\ walk idx "out" RawPolicy start es x /\ length es = 3 /\ x <> start /\
    forall r, r ∈ Traverse idx start "out" DFS 3 -> tr_ID "out" r <> Some x.
Proof.
  exists (demo_index demo_calls), "s", "e", demo_walk.
  split; [apply wf_BuildIndex|]. split; [apply demo_walk_ok|]. split; [done|]. split; [done|].
  intros r Hr. assert (H : Forall (fun r => tr_ID "out" r <> Some "e")
    (Traverse (demo_index demo_calls) "s" "out" DFS 3)).
  { apply (bool_decide_unpack _). vm_compute. exact I. }
  rewrite Forall_forall in H. by apply H.
Qed.

Definition demo_contains_first : list Edge :=
  [demo_edge EdgeTypeContains "b" "a"; demo_edge EdgeTypeCalls "c" "b"; demo_edge EdgeTypeCalls "b" "a"].
Definition demo_calls_first : list Edge :=
  [demo_edge EdgeTypeCalls "b" "a"; demo_edge EdgeTypeCalls "c" "b"; demo_edge EdgeTypeContains "b" "a"].

(** With terminal edges the answer depends on the order in which edges
    were stored: a node that both a terminal and an ordinary edge reach is
    expanded only when the ordinary edge comes first. *)
Theorem terminal_edges_order_dependent :
  exists nodes edges1 edges2 start,
    edges1 ≡ₚ edges2 /\
    reported (AncestorsWithPolicy (BuildIndex nodes edges1) start 0 ContainmentTerminal) = [("b", 1)] /\
    reported (AncestorsWithPolicy (BuildIndex nodes edges2) start 0 ContainmentTerminal) =
      [("b", 1); ("c", 2)].
Proof.
  exists (map demo_node ["a"; "b"; "c"]), demo_contains_first, demo_calls_first, "a".
  split; [exact (Permutation_rev demo_contains_first)|]. split; vm_compute; reflexivity.
Qed.
