(* ===== verification/GrNoise.v ===== *)
(** Noise classes (internal/graph/noiseclass.go): why an edge is plumbing
    rather than behaviour, and which classes a query shows. *)
From S2P Require Import Prelude.
From S2P Require Import GoStrings.
From S2P Require Import GrModel.
From S2P Require Import GrTraverse.

Abbreviation NoiseClass := string (only parsing).

Definition NoiseNone : NoiseClass := "".
Definition NoiseFilterChain : NoiseClass := "filter_chain".
Definition NoiseMixin : NoiseClass := "mixin".
Definition NoiseContainment : NoiseClass := "containment".
Definition NoiseRenderTree : NoiseClass := "render_tree".
Definition NoiseTestCode : NoiseClass := "test_code".

Definition testFileSuffixes : list string :=
  ["_test.go"; ".test.ts"; ".test.tsx"; ".test.js"; ".test.jsx";
   ".spec.ts"; ".spec.tsx"; ".spec.js"; ".spec.jsx"; "_spec.rb"; "_test.rb"; "_test.py"; "_test.py3"].

(** The part of a path after its last slash. *)
Definition base_name (path : string) : string :=
  match cut_last "/" path with Some (_, b) => b | None => path end.

(** isTestFile *)
Definition isTestFile (path : string) : bool :=
  if str_eqb path "" then false
  else existsb (HasSuffix path) testFileSuffixes || HasPrefix (base_name path) "test_" ||
       existsb (Contains path) ["/spec/"; "/tests/"; "/__tests__/"].

(** The via values of plumbing edges. *)
Definition filter_vias : list string :=
  ["rails_filter"; "gin_middleware_use"; "express_middleware_use"; "closure_param"].

Definition is_render_target (n : option Node) : bool :=
  match n with
  | None => false
  | Some n => str_eqb (n_Type n) NodeTypeElement || str_eqb (n_Type n) NodeTypeDOMTarget
  end.
Definition in_test_file (n : option Node) : bool :=
  match n with None => false | Some n => isTestFile (n_File n) end.

(** ClassifyEdgeNoise *)
Definition ClassifyEdgeNoise (e : Edge) (src dst : option Node) : NoiseClass :=
  if existsb (str_eqb (meta_get (ed_Meta e) "via")) filter_vias then NoiseFilterChain
  else if str_eqb (ed_Type e) EdgeTypeInherits then NoiseMixin
  else if structural_edge e then NoiseContainment
  else if negb (str_eqb (ed_Type e) EdgeTypeDOMContract) && is_render_target dst then NoiseRenderTree
  else if in_test_file src || in_test_file dst then NoiseTestCode
  else NoiseNone.

(** ** Include sets *)

Definition allNoiseClasses : list NoiseClass :=
  [NoiseFilterChain; NoiseMixin; NoiseContainment; NoiseRenderTree; NoiseTestCode].

(** A Go [map[NoiseClass]bool] whose values are all true. *)
Abbreviation NoiseInclude := (gset string).

Definition Allows (n : NoiseInclude) (c : NoiseClass) : bool :=
  str_eqb c NoiseNone || bool_decide (c ∈ n).

Definition AllNoiseInclude : NoiseInclude := list_to_set allNoiseClasses.

(** ParseNoiseInclude: the unknown key is the error. *)
Fixpoint parse_noise (keys : list string) (out : NoiseInclude) : result string NoiseInclude :=
  match keys with
  | [] => Ok out
  | k :: keys' =>
      if str_eqb k "all" then Ok (out ∪ AllNoiseInclude)
      else if str_eqb k "none" || str_eqb k "" then parse_noise keys' out
      else if existsb (str_eqb k) allNoiseClasses then parse_noise keys' ({[k]} ∪ out)
      else Err k
  end.
Definition ParseNoiseInclude (keys : list string) : result string NoiseInclude := parse_noise keys ∅.

Definition DefaultNoiseInclude (intent : string) : NoiseInclude :=
  if str_eqb intent "generate" then {[NoiseRenderTree]} else ∅.

Definition ResolveNoiseInclude (rawInclude : list string) (task : string) : result string NoiseInclude :=
  match rawInclude with
  | _ :: _ => ParseNoiseInclude rawInclude
  | [] => Ok (DefaultNoiseInclude task)
  end.

(** ** Visibility of a step *)

(** The edge may be shown under [include]; the source and destination are the
    nodes the index holds for its ends in the direction walked. *)
Definition visible (idx : AdjacencyIndex) (include : NoiseInclude) (e : Edge) (src dst : string) : bool :=
  Allows include (ClassifyEdgeNoise e (Nodes idx !! src) (Nodes idx !! dst)).

(** * Properties of the classification *)

Lemma ClassifyEdgeNoise_known e src dst :
  ClassifyEdgeNoise e src dst = NoiseNone \/ ClassifyEdgeNoise e src dst ∈ allNoiseClasses.
Proof.
  unfold ClassifyEdgeNoise. repeat case_match; try (by left); right; apply list_elem_of_In; cbn; tauto.
Qed.

Lemma AllNoiseInclude_allows e src dst : Allows AllNoiseInclude (ClassifyEdgeNoise e src dst) = true.
Proof.
  unfold Allows, AllNoiseInclude. destruct (ClassifyEdgeNoise_known e src dst) as [->|H]; [done|].
  apply orb_true_iff. right. apply bool_decide_eq_true, elem_of_list_to_set, H.
Qed.

Lemma existsb_str_eqb k l : existsb (str_eqb k) l = bool_decide (k ∈ l).
Proof.
  destruct (existsb (str_eqb k) l) eqn:E; symmetry.
  - apply bool_decide_eq_true. apply existsb_exists in E as (x & Hx & Hk).
    apply String.eqb_eq in Hk as ->. by apply list_elem_of_In.
  - apply bool_decide_eq_false. intros H. apply not_true_iff_false in E. apply E.
    apply existsb_exists. exists k. rewrite <- list_elem_of_In. by rewrite String.eqb_refl.
Qed.

Lemma parse_noise_ok keys out inc c :
  parse_noise keys out = Ok inc ->
  c ∈ inc <-> c ∈ out \/ (c ∈ allNoiseClasses /\ ("all" ∈ keys \/ c ∈ keys)).
Proof.
  revert out. induction keys as [|k keys IH]; intros out; cbn [parse_noise].
  - intros [= <-]. rewrite !elem_of_nil. tauto.
  - destruct (str_eqb k "all") eqn:Ek; [|destruct (str_eqb k "none" || str_eqb k "") eqn:E0].
    + apply String.eqb_eq in Ek as ->. intros [= <-].
      rewrite elem_of_union. unfold AllNoiseInclude. rewrite elem_of_list_to_set, !elem_of_cons. tauto.
    + intros H. rewrite (IH _ H), !elem_of_cons. apply String.eqb_neq in Ek.
      assert (c ∈ allNoiseClasses -> c <> k).
      { intros Hc ->. apply orb_true_iff in E0 as [E0|E0]; apply String.eqb_eq in E0 as ->;
          apply (bool_decide_eq_true _) in Hc; vm_compute in Hc; discriminate. }
      naive_solver.
    + rewrite existsb_str_eqb. case_bool_decide as Hk; [|done]. intros H.
      rewrite (IH _ H), !elem_of_cons, elem_of_union, elem_of_singleton. apply String.eqb_neq in Ek.
      naive_solver.
Qed.

(** An accepted include list shows exactly the classes it names, every
    class when it names all of them, and never a class that does not exist. *)
Lemma ParseNoiseInclude_exact keys inc :
  ParseNoiseInclude keys = Ok inc ->
  forall c, c ∈ inc <-> c ∈ allNoiseClasses /\ ("all" ∈ keys \/ c ∈ keys).
Proof. intros H c. rewrite (parse_noise_ok _ _ _ _ H). set_solver. Qed.
