(* ===== verification/GrVerdict.v ===== *)
(** How much an answer can be trusted (internal/graph/verification.go,
    epistemic.go, unresolved.go): counts of edge provenance, the verdict
    derived from them, and the ledger of unresolved references. *)
From S2P Require Import Prelude.
From S2P Require Import GoStrings.
From S2P Require Import GrModel.
Local Open Scope Z_scope.

(** ** Verification summary *)

Record VerificationSummary : Type := mkVS {
  vs_Verified : Z; vs_Candidate : Z; vs_ObservedOnlyGap : Z; vs_Conflicting : Z;
  vs_StaleEvidence : Z; vs_Note : string
}.
Definition vs0 : VerificationSummary := mkVS 0 0 0 0 0 "".

(** [t.Sub(u)] on nanoseconds: saturates at the range of a Duration. *)
Definition time_sub (t u : Z) : Z := Z.max (- 2 ^ 63) (Z.min (2 ^ 63 - 1) (t - u)).
Definition time_Unix (sec : Z) : Z := sec * 10 ^ 9.

Definition is_runtime (s : SourceRef) : bool := str_eqb (s_Provider s) "runtime".
Definition stale_source (staleAfter now : Z) (s : SourceRef) : bool :=
  negb (s_ObservedAt s =? 0) && (staleAfter <? time_sub now (time_Unix (s_ObservedAt s))).

Definition count_if {A} (p : A -> bool) (l : list A) : Z := Z.of_nat (length (List.filter p l)).

(** edgeRuntimeSourcesAllStale *)
Definition edgeRuntimeSourcesAllStale (sources : list SourceRef) (staleAfter now : Z) : bool :=
  let runtimeCount := count_if is_runtime sources in
  let staleCount := count_if (fun s => is_runtime s && stale_source staleAfter now s) sources in
  (0 <? runtimeCount) && (runtimeCount =? staleCount).

(** buildVerificationNote *)
Definition buildVerificationNote (vs : VerificationSummary) : string :=
  Join " " (
    (if 0 <? vs_Candidate vs
     then [itoa (vs_Candidate vs) +:+ " candidate edges are static-only; verify before relying on them."]
     else []) ++
    (if 0 <? vs_ObservedOnlyGap vs
     then [itoa (vs_ObservedOnlyGap vs) +:+ " observed-only gaps indicate flows the static graph missed."]
     else []) ++
    (if 0 <? vs_StaleEvidence vs
     then [itoa (vs_StaleEvidence vs) +:+ " verified edges have stale runtime evidence; consider re-capturing."]
     else [])).

(** One edge of the loop; [now] is nil for the zero time. *)
Definition summary_edge (staleAfter : Z) (now : option Z) (vs : VerificationSummary) (e : Edge)
    : VerificationSummary :=
  let st := ed_VerificationState e in
  let stale :=
    match now with
    | Some now => (0 <? staleAfter) && str_eqb st StateVerified &&
        edgeRuntimeSourcesAllStale (ed_Sources e) staleAfter now
    | None => false
    end in
  let one (b : bool) : Z := if b then 1 else 0 in
  mkVS (vs_Verified vs + one (str_eqb st StateVerified))
    (vs_Candidate vs + one (str_eqb st StateCandidate))
    (vs_ObservedOnlyGap vs + one (str_eqb st StateObservedOnlyGap))
    (vs_Conflicting vs + one (str_eqb st StateConflicting))
    (vs_StaleEvidence vs + one stale) "".

Definition BuildVerificationSummaryAt (edges : list Edge) (staleAfter : Z) (now : option Z)
    : VerificationSummary :=
  let vs := fold_left (summary_edge staleAfter now) edges vs0 in
  mkVS (vs_Verified vs) (vs_Candidate vs) (vs_ObservedOnlyGap vs) (vs_Conflicting vs)
    (vs_StaleEvidence vs) (buildVerificationNote vs).

Definition BuildVerificationSummary (edges : list Edge) : VerificationSummary :=
  BuildVerificationSummaryAt edges 0 None.

Definition VerificationSummaryLine (vs : VerificationSummary) : string :=
  let total := vs_Verified vs + vs_Candidate vs + vs_ObservedOnlyGap vs + vs_Conflicting vs in
  if total =? 0 then ""
  else "verification: verified=" +:+ itoa (vs_Verified vs) +:+ " candidate=" +:+ itoa (vs_Candidate vs)
    +:+ " observed_only_gap=" +:+ itoa (vs_ObservedOnlyGap vs)
    +:+ " conflicting=" +:+ itoa (vs_Conflicting vs).

Definition VerificationRank (state : string) : Z :=
  if str_eqb state StateVerified then 0
  else if str_eqb state StateObservedOnlyGap then 1
  else if str_eqb state StateCandidate then 2
  else if str_eqb state StateConflicting then 3
  else 4.

Definition source_less : SourceRef -> SourceRef -> bool :=
  less_by s_Provider str_ltb (fun a b => str_ltb (s_Ref a) (s_Ref b)).
(** sortedSourceRefs *)
Definition sortedSourceRefs (sources : list SourceRef) : list SourceRef := sort_slice source_less sources.

(** ** The verdict *)

(** The fields of a TrustStamp the verdict reads. *)
Record TrustStamp : Type := mkTrust { t_Measured : bool; t_Stale : bool }.

Record Epistemic : Type := mkEpistemic { Verdict : string; Causes : list string }.

Definition EpistemicExact : string := "exact".
Definition EpistemicLowerBound : string := "lower_bound".
Definition CauseUnresolvedReference : string := "unresolved_reference".
Definition CauseDynamicDispatch : string := "dynamic_dispatch".
Definition CauseCandidateEdge : string := "candidate_edge".
Definition CauseConflictingEvidence : string := "conflicting_evidence".
Definition CauseUnmeasuredTrust : string := "unmeasured_trust".
Definition CauseStaleTrust : string := "stale_trust".

(** The set of causes. *)
Definition causes_of (unresolved : list UnresolvedRef) (dynamicDispatch : bool)
    (vs : VerificationSummary) (trust : TrustStamp) : gset string :=
  let when (b : bool) (c : string) : gset string := if b then {[c]} else ∅ in
  when (0 <? Z.of_nat (length unresolved)) CauseUnresolvedReference ∪
  when dynamicDispatch CauseDynamicDispatch ∪
  when (0 <? vs_Candidate vs) CauseCandidateEdge ∪
  when (0 <? vs_Conflicting vs) CauseConflictingEvidence ∪
  when (negb (t_Measured trust)) CauseUnmeasuredTrust ∪
  when (t_Stale trust) CauseStaleTrust.

Definition BuildEpistemic (unresolved : list UnresolvedRef) (dynamicDispatch : bool)
    (vs : VerificationSummary) (trust : TrustStamp) : Epistemic :=
  let causes := sort_strings (elements (causes_of unresolved dynamicDispatch vs trust)) in
  mkEpistemic (match causes with [] => EpistemicExact | _ :: _ => EpistemicLowerBound end) causes.

Definition HasWeakConfidence (confidences : list string) : bool :=
  existsb (fun c => str_eqb c ConfidencePartial || str_eqb c ConfidenceUnknown) confidences.

(** ** Unresolved references *)

Definition UnresolvedInFiles (refs : list UnresolvedRef) (files : gset string) : list UnresolvedRef :=
  List.filter (fun r => bool_decide (u_File r ∈ files)) refs.

Definition retractableKinds : gmap string EdgeType :=
  <["inherits_unresolved" := EdgeTypeInherits]> (<["call_ref" := EdgeTypeCalls]>
  (<["instantiates_unresolved" := EdgeTypeInstantiates]> {["import_ref" := EdgeTypeImports]})).

Definition nul : string := String "000" "".
Definition witness_key (service file name ty : string) : string :=
  service +:+ nul +:+ file +:+ nul +:+ name +:+ nul +:+ ty.

(** [byID]: a later node of the same ID replaces an earlier one. *)
Definition by_id (nodes : list Node) : gmap string Node :=
  fold_left (fun m n => <[n_ID n := n]> m) nodes ∅.

Definition edge_witness (byID : gmap string Node) (e : Edge) : option string :=
  from ← byID !! ed_From e;
  to ← byID !! ed_To e;
  Some (witness_key (n_Service from) (n_File from) (n_Label to) (ed_Type e)).

Definition ref_witness (r : UnresolvedRef) : option string :=
  et ← retractableKinds !! u_Kind r;
  Some (witness_key (u_Service r) (u_File r) (u_Name r) et).

(** RetractResolvedRefs *)
Definition RetractResolvedRefs (refs : list UnresolvedRef) (nodes : list Node) (edges : list Edge)
    : list UnresolvedRef :=
  let witnessed : gset string := list_to_set (omap (edge_witness (by_id nodes)) edges) in
  List.filter (fun r => match ref_witness r with
                        | Some k => negb (bool_decide (k ∈ witnessed))
                        | None => true
                        end) refs.

(** isExternalFrameworkRef *)
Definition isExternalFrameworkRef (r : UnresolvedRef) (declared : gset string) : bool :=
  let named s := str_eqb (u_Name r) s in
  let undeclared := negb (bool_decide (u_Name r ∈ declared)) in
  if str_eqb (u_Kind r) "jsx_framework_component" then true
  else if str_eqb (u_Kind r) "jsx_component_unresolved" then negb (Contains (u_Name r) ".") && undeclared
  else if str_eqb (u_Kind r) "inherits_unresolved" then
    if HasSuffix (u_Name r) ".Component" || HasSuffix (u_Name r) ".PureComponent" then true
    else if named "React.Component" || named "React.PureComponent" || named "React.Fragment" || named "HTMLElement"
    then true
    else if named "Component" || named "PureComponent" then undeclared
    else false
  else false.

Definition declares_name (n : Node) : bool :=
  let named s := str_eqb (n_Type n) s in
  named NodeTypeFunction || named NodeTypeMethod || named NodeTypeClass || named NodeTypeComponent.

(** DropExternalFrameworkRefs; the index may be nil. *)
Definition DropExternalFrameworkRefs (refs : list UnresolvedRef) (idx : option AdjacencyIndex)
    : list UnresolvedRef :=
  let declared : gset string :=
    match idx with
    | None => ∅
    | Some idx => list_to_set (map n_Label (List.filter declares_name (map snd (map_to_list (Nodes idx)))))
    end in
  List.filter (fun r => negb (isExternalFrameworkRef r declared)) refs.

Definition UnresolvedNote (n : Z) : string :=
  if n =? 0 then ""
  else if n =? 1 then "verify this 1 unresolved reference manually — the indexer could not resolve it, so edges may be missing from this answer"
  else "verify these " +:+ itoa n +:+ " unresolved references manually — the indexer could not resolve them, so edges may be missing from this answer".

(** * Properties *)

Lemma summary_counts edges staleAfter now :
  let vs := BuildVerificationSummaryAt edges staleAfter now in
  let count st := count_if (fun e => str_eqb (ed_VerificationState e) st) edges in
  vs_Verified vs = count StateVerified /\ vs_Candidate vs = count StateCandidate /\
  vs_ObservedOnlyGap vs = count StateObservedOnlyGap /\ vs_Conflicting vs = count StateConflicting /\
  0 <= vs_StaleEvidence vs <= vs_Verified vs.
Proof.
  unfold BuildVerificationSummaryAt. cbn.
  assert (H : forall vs, let vs' := fold_left (summary_edge staleAfter now) edges vs in
    let count st := count_if (fun e => str_eqb (ed_VerificationState e) st) edges in
    vs_Verified vs' = vs_Verified vs + count StateVerified /\
    vs_Candidate vs' = vs_Candidate vs + count StateCandidate /\
    vs_ObservedOnlyGap vs' = vs_ObservedOnlyGap vs + count StateObservedOnlyGap /\
    vs_Conflicting vs' = vs_Conflicting vs + count StateConflicting /\
    vs_StaleEvidence vs <= vs_StaleEvidence vs' <= vs_StaleEvidence vs + count StateVerified).
  { unfold count_if. induction edges as [|e l IH]; intros vs; cbn [fold_left List.filter]; [cbn; lia|].
    specialize (IH (summary_edge staleAfter now vs e)). cbn in IH.
    destruct (str_eqb (ed_VerificationState e) StateVerified) eqn:E1,
      (str_eqb (ed_VerificationState e) StateCandidate) eqn:E2,
      (str_eqb (ed_VerificationState e) StateObservedOnlyGap) eqn:E3,
      (str_eqb (ed_VerificationState e) StateConflicting) eqn:E4; cbn [length];
      destruct now; rewrite ?andb_false_r in IH; cbn in IH;
      repeat match type of IH with context [if ?b then 1 else 0] => destruct b end; cbn; lia. }
  specialize (H vs0). cbn in H. lia.
Qed.

Lemma elem_of_causes_of unresolved dyn vs trust c :
  c ∈ causes_of unresolved dyn vs trust <->
  (unresolved <> [] /\ c = CauseUnresolvedReference) \/
  (dyn = true /\ c = CauseDynamicDispatch) \/
  (0 < vs_Candidate vs /\ c = CauseCandidateEdge) \/
  (0 < vs_Conflicting vs /\ c = CauseConflictingEvidence) \/
  (t_Measured trust = false /\ c = CauseUnmeasuredTrust) \/
  (t_Stale trust = true /\ c = CauseStaleTrust).
Proof.
  unfold causes_of. rewrite !elem_of_union.
  assert (Hw : forall (b : bool) c', c ∈ (if b then {[c']} else ∅ : gset string) <-> b = true /\ c = c').
  { intros b c'. destruct b; set_solver. }
  rewrite !Hw, !Z.ltb_lt, negb_true_iff.
  assert (Hu : 0 < Z.of_nat (length unresolved) <-> unresolved <> []) by (destruct unresolved; cbn; naive_solver lia).
  rewrite Hu. tauto.
Qed.

(** The verdict is exact when and only when nothing casts doubt on the
    answer, and otherwise names, sorted and without repetition, exactly the
    causes that do. *)
Theorem BuildEpistemic_exact unresolved dyn vs trust :
  let e := BuildEpistemic unresolved dyn vs trust in
  (Verdict e = EpistemicExact <->
     unresolved = [] /\ dyn = false /\ vs_Candidate vs <= 0 /\ vs_Conflicting vs <= 0 /\
     t_Measured trust = true /\ t_Stale trust = false) /\
  (Verdict e = EpistemicExact \/ Verdict e = EpistemicLowerBound) /\
  NoDup (Causes e) /\ StronglySorted String.le (Causes e) /\
  (forall c, c ∈ Causes e <-> c ∈ causes_of unresolved dyn vs trust).
Proof.
  cbn. set (causes := sort_strings (elements (causes_of unresolved dyn vs trust))).
  assert (Hin : forall c, c ∈ causes <-> c ∈ causes_of unresolved dyn vs trust).
  { intros c. unfold causes. by rewrite elem_of_sort_strings, elem_of_elements. }
  split; [|split; [destruct causes; [by left|by right]|split; [|split; [|done]]]].
  - assert (Hnil : causes = [] <-> forall c, c ∉ causes_of unresolved dyn vs trust).
    { setoid_rewrite <- Hin. split; [intros -> c; apply not_elem_of_nil|].
      intros H. destruct causes as [|c l]; [done|]. destruct (H c). left. }
    assert (Hv : match causes with [] => EpistemicExact | _ :: _ => EpistemicLowerBound end =
      EpistemicExact <-> causes = []) by (destruct causes; done).
    rewrite Hv, Hnil. setoid_rewrite elem_of_causes_of. split.
    + intros H. split_and!.
      * destruct (decide (unresolved = [])) as [|Hn]; [done|]. destruct (H _ (or_introl (conj Hn eq_refl))).
      * destruct dyn; [|done]. destruct (H CauseDynamicDispatch). tauto.
      * destruct (decide (0 < vs_Candidate vs)); [|lia]. destruct (H CauseCandidateEdge). tauto.
      * destruct (decide (0 < vs_Conflicting vs)); [|lia]. destruct (H CauseConflictingEvidence). tauto.
      * destruct (t_Measured trust) eqn:E; [done|]. destruct (H CauseUnmeasuredTrust). tauto.
      * destruct (t_Stale trust) eqn:E; [|done]. destruct (H CauseStaleTrust). tauto.
    + intros (H1 & H2 & H3 & H4 & H5 & H6) c. rewrite H1, H2, H5, H6.
      intros [[]|[[]|[[]|[[]|[[]|[]]]]]]; try done; lia.
  - unfold causes, sort_strings. rewrite merge_sort_Permutation. apply NoDup_elements.
  - apply (StronglySorted_merge_sort String.le).
Qed.

(** A string without the separator byte of the witness keys. *)
Fixpoint nul_free (s : string) : bool :=
  match s with "" => true | String c s' => negb (Ascii.eqb c "000") && nul_free s' end.

Lemma nul_cut a b r1 r2 : nul_free a = true -> nul_free b = true ->
  a +:+ nul +:+ r1 = b +:+ nul +:+ r2 -> a = b /\ r1 = r2.
Proof.
  revert b. induction a as [|c a IH]; intros [|d b] Ha Hb E; cbn in *.
  - by injection E.
  - injection E as <- _. done.
  - injection E as -> _. done.
  - injection E as <- E. apply andb_true_iff in Ha as [_ Ha]. apply andb_true_iff in Hb as [_ Hb].
    destruct (IH b Ha Hb E) as [-> ->]. done.
Qed.

Lemma witness_key_inj s f n t s' f' n' t' :
  forallb nul_free [s; f; n] = true -> forallb nul_free [s'; f'; n'] = true ->
  witness_key s f n t = witness_key s' f' n' t' -> s = s' /\ f = f' /\ n = n' /\ t = t'.
Proof.
  cbn [forallb]. rewrite !andb_true_iff. intros (Hs & Hf & Hn & _) (Hs' & Hf' & Hn' & _) E.
  apply nul_cut in E as [-> E]; [|done..]. apply nul_cut in E as [-> E]; [|done..].
  by apply nul_cut in E as [-> ->].
Qed.

Definition clean_node (n : Node) : Prop := forallb nul_free [n_Service n; n_File n; n_Label n] = true.
Definition clean_ref (r : UnresolvedRef) : Prop := forallb nul_free [u_Service r; u_File r; u_Name r] = true.

(** An edge proves the reference was resolved after all. *)
Definition resolves (byID : gmap string Node) (edges : list Edge) (r : UnresolvedRef) : Prop :=
  exists ty e from to, retractableKinds !! u_Kind r = Some ty /\ e ∈ edges /\ ed_Type e = ty /\
    byID !! ed_From e = Some from /\ byID !! ed_To e = Some to /\
    n_Service from = u_Service r /\ n_File from = u_File r /\ n_Label to = u_Name r.

Lemma by_id_in nodes id n : by_id nodes !! id = Some n -> n ∈ nodes.
Proof.
  unfold by_id. revert id n.
  apply (fold_left_inv (fun g : gmap string Node => forall i m, g !! i = Some m -> m ∈ nodes)).
  - intros i m. by rewrite lookup_empty.
  - intros g x Hx IH i m. rewrite lookup_insert. case_decide; [by intros [= <-]|apply IH].
Qed.

Lemma ref_witness_resolves nodes edges r : Forall clean_node nodes -> clean_ref r ->
  (exists k, ref_witness r = Some k /\ k ∈ omap (edge_witness (by_id nodes)) edges) <->
  resolves (by_id nodes) edges r.
Proof.
  intros Hn Hr. rewrite Forall_forall in Hn. unfold ref_witness, resolves.
  destruct (retractableKinds !! u_Kind r) as [ty|] eqn:Ek; cbn; [|naive_solver].
  setoid_rewrite list_elem_of_omap. unfold edge_witness. split.
  - intros (k & [= <-] & e & He & Hk).
    destruct (by_id nodes !! ed_From e) as [from|] eqn:Ef; [|done]. cbn in Hk.
    destruct (by_id nodes !! ed_To e) as [to|] eqn:Et; [|done]. injection Hk as Hk.
    pose proof (Hn _ (by_id_in _ _ _ Ef)) as Hf. pose proof (Hn _ (by_id_in _ _ _ Et)) as Hto.
    unfold clean_node, clean_ref in *. cbn [forallb] in *. rewrite !andb_true_iff in *.
    apply witness_key_inj in Hk as (H1 & H2 & H3 & H4); [|cbn [forallb]; rewrite !andb_true_iff; tauto..].
    exists ty, e, from, to. tauto.
  - intros (ty' & e & from & to & [= <-] & He & Hty & Hf & Ht & H1 & H2 & H3).
    eexists. split; [reflexivity|]. exists e. split; [done|]. rewrite Hf. cbn [mbind option_bind].
    rewrite Ht. cbn [mbind option_bind]. by rewrite H1, H2, H3, Hty.
Qed.

(** A ledger entry is dropped exactly when an edge of the kind that
    witnesses it leaves its file, in its service, for a node of its name; the
    rest are kept in order.  The strings compared hold no NUL byte, the
    separator of the keys. *)
Theorem RetractResolvedRefs_exact refs nodes edges :
  Forall clean_node nodes -> Forall clean_ref refs ->
  RetractResolvedRefs refs nodes edges `sublist_of` refs /\
  forall r, r ∈ RetractResolvedRefs refs nodes edges <->
    r ∈ refs /\ ~ resolves (by_id nodes) edges r.
Proof.
  intros Hn Hr. rewrite Forall_forall in Hr. unfold RetractResolvedRefs. split.
  { clear Hr. induction refs as [|r refs IH]; [done|]. cbn [List.filter].
    case_match; by constructor. }
  intros r. rewrite list_elem_of_In, filter_In, <- list_elem_of_In.
  split; intros [Hin H]; (split; [done|]).
  - intros Hres. apply ref_witness_resolves in Hres as (k & Hk & Hw); [|done|by apply Hr].
    rewrite Hk in H. apply negb_true_iff, bool_decide_eq_false in H. by apply H, elem_of_list_to_set.
  - destruct (ref_witness r) as [k|] eqn:Ek; [|done]. apply negb_true_iff, bool_decide_eq_false.
    rewrite elem_of_list_to_set. intros Hk. apply H, ref_witness_resolves;
      [done|by apply Hr|by exists k].
Qed.

Definition demo_ref (name : string) : UnresolvedRef := mkUnresolvedRef "svc" "a.go" 3 name "call_ref" "".
Definition demo_fn (id file : string) : Node := mkNode id NodeTypeFunction id "svc" file 1 0 "go" ∅ "".
Definition demo_call (from to : string) : Edge :=
  mkEdge (from +:+ to) from to EdgeTypeCalls "" "" "" "" ∅ [] "" "".

Lemma RetractResolvedRefs_exact_witness :
  RetractResolvedRefs [demo_ref "g"; demo_ref "h"] [demo_fn "f" "a.go"; demo_fn "g" "b.go"] [demo_call "f" "g"]
    = [demo_ref "h"] /\
  ~ resolves (by_id [demo_fn "f" "a.go"; demo_fn "g" "b.go"]) [demo_call "f" "g"] (demo_ref "h").
Proof.
  split; [vm_compute; reflexivity|].
  apply (RetractResolvedRefs_exact [demo_ref "g"; demo_ref "h"] [demo_fn "f" "a.go"; demo_fn "g" "b.go"]
    [demo_call "f" "g"]); [repeat constructor..|].
  vm_compute. left.
Defined.
