(* ===== verification/GrResolve.v ===== *)
(** Finding the node a query names (internal/graph/resolve.go): exact IDs,
    exact labels, test files, ambiguity, and the fleet-wide searcher. *)
From S2P Require Import Prelude.
From S2P Require Import GoStrings.
From S2P Require Import GrModel.

Record TargetCandidate : Type := mkCandidate {
  tc_ID : string; tc_Service : string; tc_File : string; tc_Type : string
}.

Definition ResolutionNote (query : string) (exactMatch : bool) : option string :=
  if exactMatch then None else Some query.

(** ** Test files *)

Definition last_segment (path : string) : string :=
  match cut_last "/" path with Some (_, b) => b | None => path end.

Definition IsTestFilePath (file : string) : bool :=
  if str_eqb file "" then false
  else
    let lower := ToLower file in
    let base := last_segment lower in
    if Contains base ".test." || Contains base ".spec." || HasSuffix base "_test.go" ||
       HasSuffix base "_test.rb" || HasSuffix base "_spec.rb" || HasPrefix base "test_"
    then true
    else existsb (fun seg => existsb (str_eqb seg) ["test"; "tests"; "__tests__"; "spec"]) (Split "/" lower).

(** preferNonTestFile; of no nodes, the index panics. *)
Definition preferNonTestFile (nodes : list Node) : option Node :=
  match List.find (fun n => negb (IsTestFilePath (n_File n))) nodes with
  | Some n => Some n
  | None => head nodes
  end.

Definition filterNodes (nodes : list Node) (targetService targetType : string) : list Node :=
  if str_eqb targetService "" && str_eqb targetType "" then nodes
  else List.filter (fun n => (str_eqb targetService "" || str_eqb (n_Service n) targetService) &&
                             (str_eqb targetType "" || str_eqb (n_Type n) targetType)) nodes.

Definition AmbiguityStatusAmbiguous : string := "ambiguous".
Definition AmbiguityStatus (candidates : list TargetCandidate) : string :=
  match candidates with
  | c :: (_ :: _) as rest =>
      if forallb (fun d => str_eqb (tc_Service d) (tc_Service c)) (tail rest)
      then AmbiguityStatusAmbiguous else ""
  | _ => ""
  end.

(** ** ResolveTarget *)

Inductive ResolveError : Type :=
| EStore (msg : string)
| ENotFound (query : string).

(** A store: SearchNodes, and GetNode when the dynamic type has it.  Both are
    database queries. *)
Record NodeSearcher : Type := mkSearcher {
  SearchNodes : string -> Z -> result string (list Node);
  GetNode : option (string -> result string Node)
}.

Definition candidate_of (n : Node) : TargetCandidate :=
  mkCandidate (n_ID n) (n_Service n) (n_File n) (n_Type n).
Definition candidate_less : TargetCandidate -> TargetCandidate -> bool :=
  less_by tc_Service str_ltb (fun a b => str_ltb (tc_File a) (tc_File b)).

Definition by_exact_id (store : NodeSearcher) (query : string) : option Node :=
  match GetNode store with
  | Some get => match get query with Ok n => Some n | Err _ => None end
  | None => None
  end.

Definition exact_labels (query : string) (nodes : list Node) : list Node :=
  List.filter (fun n => EqualFold (n_Label n) query) nodes.

Definition candidates_of (exact : list Node) : list TargetCandidate :=
  match exact with
  | _ :: _ :: _ => sort_slice candidate_less (map candidate_of exact)
  | _ => []
  end.

(** The root picked among the search results. *)
Definition choose_root (nodes exact filtered : list Node) : option Node :=
  match filtered, exact with
  | _ :: _, _ => preferNonTestFile filtered
  | [], _ :: _ => preferNonTestFile exact
  | [], [] => head nodes
  end.

Definition nonempty {A} (l : list A) : bool := match l with [] => false | _ :: _ => true end.

Definition ResolveTarget (store : NodeSearcher) (query targetService targetType : string)
    : result ResolveError (option Node * list TargetCandidate * bool) :=
  match by_exact_id store query with
  | Some n => Ok (Some n, [], true)
  | None =>
      match SearchNodes store query 20 with
      | Err e => Err (EStore e)
      | Ok [] => Err (ENotFound query)
      | Ok ((_ :: _) as nodes) =>
          let exact := exact_labels query nodes in
          let filtered := filterNodes exact targetService targetType in
          Ok (choose_root nodes exact filtered, candidates_of exact, nonempty filtered || nonempty exact)
      end
  end.

(** ** The fleet searcher *)

(** One node of the scan over the merged index. *)
Definition fleet_scan (limit : Z) (lower : string) (st : gset string * list Node) (n : Node)
    : gset string * list Node :=
  let '(seen, out) := st in
  if (limit * 2 <=? Z.of_nat (length out))%Z then st
  else if bool_decide (n_ID n ∈ seen) || negb (Contains (ToLower (n_Label n)) lower) then st
  else ({[n_ID n]} ∪ seen, out ++ [n]).

(** FleetSearcher.SearchNodes; [order] is the content of the merged index in
    the order its map yields it, and the index may be nil. *)
Definition fleet_SearchNodes (store : NodeSearcher) (order : option (list Node)) (query : string) (limit : Z)
    : result string (list Node) :=
  local ← SearchNodes store query limit;
  match order with
  | None => Ok local
  | Some order =>
      Ok (snd (fold_left (fleet_scan limit (ToLower query)) order (list_to_set (map n_ID local), local)))
  end.

(** FleetSearcher.GetNode *)
Definition fleet_GetNode (store : NodeSearcher) (idx : option AdjacencyIndex) (id : string)
    : result string Node :=
  match by_exact_id store id with
  | Some n => Ok n
  | None =>
      match idx with
      | Some idx => match Nodes idx !! id with Some n => Ok n | None => Err id end
      | None => Err id
      end
  end.

Definition FleetSearcher (store : NodeSearcher) (idx : option AdjacencyIndex) (order : option (list Node))
    : NodeSearcher :=
  mkSearcher (fleet_SearchNodes store order) (Some (fleet_GetNode store idx)).

(** * Properties *)

Definition non_test (nodes : list Node) (n : Node) : Prop :=
  n ∈ nodes /\ (IsTestFilePath (n_File n) = true -> forall m, m ∈ nodes -> IsTestFilePath (n_File m) = true).

Lemma preferNonTestFile_spec nodes : nodes <> [] ->
  exists n, preferNonTestFile nodes = Some n /\ non_test nodes n.
Proof.
  intros Hne. unfold preferNonTestFile, non_test. destruct (List.find _ nodes) as [m|] eqn:E.
  - apply find_some in E as [Hin H]. apply list_elem_of_In in Hin. exists m. split; [done|].
    split; [done|]. rewrite negb_true_iff in H. congruence.
  - destruct nodes as [|m nodes]; [done|]. exists m. split; [done|]. split; [left|]. intros _ k Hk.
    apply list_elem_of_In in Hk. apply (find_none _ _ E) in Hk. by apply negb_false_iff.
Qed.

(** The node passes the filters of the query. *)
Definition passes (targetService targetType : string) (n : Node) : Prop :=
  (targetService = "" \/ n_Service n = targetService) /\ (targetType = "" \/ n_Type n = targetType).

Lemma elem_of_filterNodes nodes ts tt n : n ∈ filterNodes nodes ts tt <-> n ∈ nodes /\ passes ts tt n.
Proof.
  unfold filterNodes, passes. destruct (str_eqb ts "" && str_eqb tt "") eqn:E.
  - apply andb_true_iff in E as [E1 E2]. apply String.eqb_eq in E1, E2. tauto.
  - rewrite !list_elem_of_In, filter_In, andb_true_iff, !orb_true_iff, !String.eqb_eq. tauto.
Qed.

Lemma elem_of_exact_labels query nodes n :
  n ∈ exact_labels query nodes <-> n ∈ nodes /\ EqualFold (n_Label n) query = true.
Proof. unfold exact_labels. by rewrite !list_elem_of_In, filter_In. Qed.

Lemma nonempty_true {A} (l : list A) : nonempty l = true <-> exists x, x ∈ l.
Proof.
  destruct l; cbn; split; try done.
  - intros [x Hx]. by apply elem_of_nil in Hx.
  - intros _. eexists. left.
Qed.

Lemma exists_elem_of {A} (l : list A) : (exists x, x ∈ l) <-> l <> [].
Proof.
  destruct l; split; try done.
  - intros [x Hx]. by apply elem_of_nil in Hx.
  - intros _. eexists. left.
Qed.

Lemma choose_root_spec nodes exact filtered :
  nodes <> [] -> (forall n, n ∈ filtered -> n ∈ exact) -> (forall n, n ∈ exact -> n ∈ nodes) ->
  exists root, choose_root nodes exact filtered = Some root /\ root ∈ nodes /\
    (filtered <> [] -> non_test filtered root) /\
    (filtered = [] -> exact <> [] -> non_test exact root) /\
    (exact = [] -> head nodes = Some root).
Proof.
  intros Hn Hfe Hen. unfold choose_root. destruct filtered as [|f fs]; [destruct exact as [|x xs]|].
  - destruct nodes as [|m ms]; [done|]. exists m. split_and!; try done. left.
  - destruct (preferNonTestFile_spec (x :: xs)) as (r & -> & Hr); [done|].
    exists r. split_and!; try done. by apply Hen, Hr.
  - destruct (preferNonTestFile_spec (f :: fs)) as (r & -> & Hr); [done|].
    exists r. split_and!; try done.
    + by apply Hen, Hfe, Hr.
    + intros ->. exfalso. apply (not_elem_of_nil f), Hfe. left.
Qed.

(** A search that finds something always yields a root among its hits.
    The answer is marked exact when and only when some hit has the queried
    label; a hit with that label that passes the filters is preferred to one
    that does not, any such label to none, and a file that is not a test file
    to one that is.  Candidates are listed only when the label is ambiguous,
    and then they are all the hits that have it. *)
Theorem ResolveTarget_spec store query ts tt nodes :
  by_exact_id store query = None -> SearchNodes store query 20 = Ok nodes -> nodes <> [] ->
  exists root cands exact, ResolveTarget store query ts tt = Ok (Some root, cands, exact) /\
    root ∈ nodes /\
    (exact = true <-> exists n, n ∈ nodes /\ EqualFold (n_Label n) query = true) /\
    (exact = true -> EqualFold (n_Label root) query = true) /\
    (exact = false -> head nodes = Some root /\ cands = []) /\
    (forall n, n ∈ nodes -> EqualFold (n_Label n) query = true -> passes ts tt n ->
       passes ts tt root /\
       (IsTestFilePath (n_File root) = true -> IsTestFilePath (n_File n) = true)) /\
    (cands = [] \/ cands ≡ₚ map candidate_of (exact_labels query nodes)) /\
    (2 <= length (exact_labels query nodes) <-> candidate_of root ∈ cands).
Proof.
  intros Hid Hs Hne. unfold ResolveTarget. rewrite Hid, Hs. destruct nodes as [|n0 ns]; [done|].
  set (nodes := n0 :: ns) in *. set (exact := exact_labels query nodes).
  set (filtered := filterNodes exact ts tt).
  assert (Hfe : forall n, n ∈ filtered -> n ∈ exact) by (intros n Hn; by apply elem_of_filterNodes in Hn as [Hn _]).
  assert (Hen : forall n, n ∈ exact -> n ∈ nodes) by (intros n Hn; by apply elem_of_exact_labels in Hn as [Hn _]).
  destruct (choose_root_spec nodes exact filtered Hne Hfe Hen) as (root & -> & Hin & H1 & H2 & H3).
  exists root, (candidates_of exact), (nonempty filtered || nonempty exact). split; [done|]. split; [done|].
  assert (Hex : nonempty filtered || nonempty exact = true <-> exists n, n ∈ exact).
  { rewrite orb_true_iff, !nonempty_true. naive_solver. }
  assert (Hroot : exact <> [] -> root ∈ exact).
  { intros He. destruct (decide (filtered = [])) as [Hf|Hf]; [apply (H2 Hf He)|by apply Hfe, (H1 Hf)]. }
  assert (Hnil : (exists n, n ∈ exact) <-> exact <> []).
  { apply exists_elem_of. }
  split_and!.
  - rewrite Hex. unfold exact. setoid_rewrite elem_of_exact_labels. done.
  - rewrite Hex, Hnil. intros He. apply Hroot in He. by apply elem_of_exact_labels in He as [_ He].
  - intros Hf. assert (He : exact = []).
    { destruct (decide (exact = [])) as [|He]; [done|]. apply Hnil, Hex in He. congruence. }
    split; [by apply H3|]. unfold candidates_of. by rewrite He.
  - intros n Hn Hl Hp. assert (Hnf : n ∈ filtered).
    { apply elem_of_filterNodes. split; [|done]. by apply elem_of_exact_labels. }
    assert (Hf : filtered <> []) by (apply exists_elem_of; by exists n).
    destruct (H1 Hf) as [Hr Ht]. split; [by apply elem_of_filterNodes in Hr as [_ Hr]|]. intros Htest. by apply Ht.
  - unfold candidates_of. destruct exact as [|x [|y l]]; [by left|by left|right]. apply sort_slice_perm.
  - unfold candidates_of. destruct exact as [|x [|y l]]; cbn [length].
    + split; [lia|]. by intros ?%elem_of_nil.
    + split; [lia|]. by intros ?%elem_of_nil.
    + split; [|lia]. intros _. apply elem_of_sort_slice, list_elem_of_fmap. exists root.
      split; [done|]. by apply Hroot.
Qed.

(** ** Concrete stores *)

Definition lib_node (id service file : string) : Node :=
  mkNode id NodeTypeFunction "Parse" service file 1 0 "go" ∅ "".
Definition lib_nodes : list Node := [lib_node "b1" "svc-b" "b.go"; lib_node "a1" "svc-a" "a_test.go"].
Definition list_store (nodes : list Node) : NodeSearcher := mkSearcher (fun _ _ => Ok nodes) None.

Lemma ResolveTarget_spec_witness :
  ResolveTarget (list_store lib_nodes) "parse" "" "" =
    Ok (Some (lib_node "b1" "svc-b" "b.go"),
        [mkCandidate "a1" "svc-a" "a_test.go" "function"; mkCandidate "b1" "svc-b" "b.go" "function"], true) /\
  exists root cands exact, ResolveTarget (list_store lib_nodes) "parse" "svc-a" "" = Ok (Some root, cands, exact)
    /\ passes "svc-a" "" root.
Proof.
  split; [vm_compute; reflexivity|].
  destruct (ResolveTarget_spec (list_store lib_nodes) "parse" "svc-a" "" lib_nodes)
    as (root & cands & exact & E & _ & _ & _ & _ & H & _); [reflexivity|reflexivity|discriminate|].
  exists root, cands, exact. split; [exact E|].
  apply (H (lib_node "a1" "svc-a" "a_test.go")); [right; left|reflexivity|].
  split; [right; reflexivity|left; reflexivity].
Defined.

(** The fleet searcher lists its extra matches in the order the map of the
    merged index yields them, so the root picked for an ambiguous label
    depends on that order. *)
Theorem fleet_resolution_order_dependent :
  exists (idx : AdjacencyIndex) order1 order2 query,
    order1 ≡ₚ map snd (map_to_list (Nodes idx)) /\ order2 ≡ₚ map snd (map_to_list (Nodes idx)) /\
    (fun r => fst (fst r)) <$> ResolveTarget (FleetSearcher (list_store []) (Some idx) (Some order1)) query "" ""
      = Ok (Some (lib_node "b1" "svc-b" "b.go")) /\
    (fun r => fst (fst r)) <$> ResolveTarget (FleetSearcher (list_store []) (Some idx) (Some order2)) query "" ""
      = Ok (Some (lib_node "c1" "svc-c" "c.go")).
Proof.
  set (b := lib_node "b1" "svc-b" "b.go"). set (c := lib_node "c1" "svc-c" "c.go").
  exists (BuildIndex [b; c] []), [b; c], [c; b], "Parse".
  assert (Hp : map snd (map_to_list (Nodes (BuildIndex [b; c] []))) ≡ₚ [c; b]).
  { unfold BuildIndex; cbn [fold_left AddNode Nodes NewAdjacencyIndex].
    rewrite map_to_list_insert by reflexivity. cbn. rewrite map_to_list_insert by reflexivity.
    cbn. by rewrite map_to_list_empty. }
  rewrite Hp. split; [constructor|]. split; [done|]. split; vm_compute; reflexivity.
Qed.
