(* ===== verification/GrFlows.v ===== *)
(** Flows (internal/graph/flows.go): the catalog of entry points, the edges a
    flow follows, the shortest simple paths between two nodes, and the chain
    through a list of waypoints. *)
From S2P Require Import Prelude.
From S2P Require Import GoStrings.
From S2P Require Import GrModel.
From S2P Require Import GrResolve.

(** ** Entry points *)

Definition entrypointKindByType : gmap NodeType string :=
  <[NodeTypeHTTPHandler := "http_handler"]> (<[NodeTypeRoute := "route"]>
  (<[NodeTypeWorker := "worker"]> (<[NodeTypeSubscriber := "subscriber"]>
  (<[NodeTypeGRPCHandler := "grpc_handler"]> {[NodeTypeGraphQLResolver := "graphql_resolver"]})))).

(** ClassifyEntrypoint: kind, skipped root kind, ok. *)
Definition ClassifyEntrypoint (n : Node) : string * string * bool :=
  match entrypointKindByType !! n_Type n with
  | Some k => (k, "", true)
  | None =>
      let rk := meta_get (n_Meta n) "root_kind" in
      if str_eqb (n_Type n) NodeTypeFunction && negb (str_eqb rk "") then
        if str_eqb rk "entrypoint" then ("function", "", true) else ("", rk, false)
      else ("", "", false)
  end.

(** channelLabel *)
Definition channelLabel (cn : Node) : string :=
  let ex := meta_get (n_Meta cn) "exchange" in
  let rk := meta_get (n_Meta cn) "routing_key" in
  if negb (str_eqb ex "") || negb (str_eqb rk "") then TrimSpace (ex +:+ " " +:+ rk) else n_Label cn.

Definition channel_at (idx : AdjacencyIndex) (id : string) : option string :=
  n ← Nodes idx !! id;
  if str_eqb (n_Type n) NodeTypeChannel then Some (channelLabel n) else None.

(** The first edge that answers. *)
Definition first_of {A B} (f : A -> option B) (l : list A) : option B := head (omap f l).

(** entrypointChannel *)
Definition entrypointChannel (idx : AdjacencyIndex) (n : Node) : string :=
  let method := meta_get (n_Meta n) "method" in
  let path := meta_get (n_Meta n) "path" in
  if negb (str_eqb method "") || negb (str_eqb path "") then TrimSpace (method +:+ " " +:+ path)
  else
    match first_of (fun e => channel_at idx (ed_From e)) (in_of idx (n_ID n)) with
    | Some c => c
    | None => default "" (first_of (fun e => channel_at idx (ed_To e)) (out_of idx (n_ID n)))
    end.

Record EntrypointItem : Type := mkEntry {
  ep_NodeID : string; ep_Kind : string; ep_Label : string; ep_Service : string; ep_File : string;
  ep_Line : Z; ep_EndLine : Z; ep_Channel : string
}.

Record EntrypointsResult : Type := mkEntries {
  Entrypoints : list EntrypointItem; Skipped : list (string * Z)
}.

Definition entry_less : EntrypointItem -> EntrypointItem -> bool :=
  less_by ep_Service str_ltb (less_by ep_File str_ltb (less_by ep_Line Z.ltb
    (fun a b => str_ltb (ep_NodeID a) (ep_NodeID b)))).

(** One node of the scan. *)
Definition entry_scan (idx : AdjacencyIndex) (service : string)
    (st : gmap string Z * list EntrypointItem) (n : Node) : gmap string Z * list EntrypointItem :=
  let '(skipped, items) := st in
  if negb (str_eqb service "") && negb (str_eqb (n_Service n) service) then st
  else
    match ClassifyEntrypoint n with
    | (_, skipRK, false) => (if str_eqb skipRK "" then skipped else count_key skipped skipRK, items)
    | (k, _, true) =>
        if IsTestFilePath (n_File n) then (count_key skipped "test_file", items)
        else (skipped, items ++ [mkEntry (n_ID n) k (n_Label n) (n_Service n) (n_File n) (n_Line n)
                                   (n_EndLine n) (entrypointChannel idx n)])
    end.

(** Entrypoints; [order] is the content of idx.Nodes in iteration order. *)
Definition Entrypoints_ (idx : AdjacencyIndex) (order : list Node) (service kind : string)
    : EntrypointsResult :=
  let '(skipped, items) := fold_left (entry_scan idx service) order (∅, []) in
  let items' := if str_eqb kind "" then items
                else List.filter (fun it => str_eqb (ep_Kind it) kind) items in
  mkEntries (sort_slice entry_less items')
    (sort_slice (fun a b => str_ltb (fst a) (fst b)) (map_to_list skipped)).

(** ** Hops *)

Record FlowHop : Type := mkHop {
  fh_NodeID : string; fh_Label : string; fh_Service : string; fh_EdgeType : string;
  fh_EdgeLabel : string; fh_CrossService : bool; fh_Confidence : string; fh_VerificationState : string
}.

Definition flowHopFromNode (n : Node) : FlowHop :=
  mkHop (n_ID n) (n_Label n) (n_Service n) "" "" false "" "".

(** isFlowEdge *)
Definition isFlowEdge (t : EdgeType) : bool :=
  negb (str_eqb t EdgeTypeContains) && negb (str_eqb t EdgeTypeDeclares).

Definition HasOutgoingFlowEdge (idx : AdjacencyIndex) (id : string) : bool :=
  existsb (fun e => isFlowEdge (ed_Type e)) (out_of idx id).

Definition flow_edge_less (direction : string) : Edge -> Edge -> bool :=
  less_by ed_Type str_ltb (fun a b => str_ltb (next_dir direction a) (next_dir direction b)).

(** The flow edges of a node in a direction, by type and far end. *)
Definition flow_edges (idx : AdjacencyIndex) (direction id : string) : list Edge :=
  sort_slice (flow_edge_less direction)
    (List.filter (fun e => isFlowEdge (ed_Type e)) (edges_dir idx direction id)).

Definition sortedFlowEdges (idx : AdjacencyIndex) (id : string) : list Edge := flow_edges idx "out" id.

Definition crosses_service (idx : AdjacencyIndex) (e : Edge) : bool :=
  match Nodes idx !! ed_From e, Nodes idx !! ed_To e with
  | Some from, Some to => negb (str_eqb (n_Service from) (n_Service to))
  | _, _ => false
  end.

Definition with_edge (idx : AdjacencyIndex) (e : Edge) (h : FlowHop) : FlowHop :=
  mkHop (fh_NodeID h) (fh_Label h) (fh_Service h) (ed_Type e) (ed_Label e) (crosses_service idx e)
    (ed_Confidence e) (ed_VerificationState e).

(** pathToFlowHops: the first node has no edge; a missing node panics. *)
Fixpoint rest_hops (idx : AdjacencyIndex) (nodes : list string) (edges : list Edge)
    : option (list FlowHop) :=
  match nodes, edges with
  | [], _ => Some []
  | id :: nodes', e :: edges' =>
      n ← Nodes idx !! id;
      hs ← rest_hops idx nodes' edges';
      Some (with_edge idx e (flowHopFromNode n) :: hs)
  | _ :: _, [] => None
  end.
Definition pathToFlowHops (idx : AdjacencyIndex) (nodes : list string) (edges : list Edge)
    : option (list FlowHop) :=
  match nodes with
  | [] => Some []
  | id :: nodes' => n ← Nodes idx !! id; hs ← rest_hops idx nodes' edges; Some (flowHopFromNode n :: hs)
  end.

(** ** K shortest simple paths *)

Definition maxPathsExplored : Z := 20000.

Record pathState : Type := mkPath {
  ps_nodes : list string; ps_edges : list Edge; ps_onPath : gset string
}.

Inductive FlowError : Type :=
| ENodeNotFound (id : string)
| ENoWaypoints
| ENotConnected (from to : string)
| EPanic.

(** One edge out of the end of [cur]. *)
Definition extend_path (idx : AdjacencyIndex) (toID : string) (cur : pathState)
    (st : list pathState * list pathState) (e : Edge) : list pathState * list pathState :=
  let '(queue, found) := st in
  if decide (ed_To e ∈ ps_onPath cur) then st
  else
    match Nodes idx !! ed_To e with
    | None => st
    | Some _ =>
        let ns := mkPath (ps_nodes cur ++ [ed_To e]) (ps_edges cur ++ [e])
                    ({[ed_To e]} ∪ ps_onPath cur) in
        if str_eqb (ed_To e) toID then (queue, found ++ [ns]) else (queue ++ [ns], found)
    end.

(** The search; [fuel] counts down from maxPathsExplored, as [explored] counts
    up to it.  The queue left over is returned too. *)
Fixpoint paths_loop (fuel : nat) (idx : AdjacencyIndex) (toID : string) (maxDepth : Z)
    (queue found : list pathState) : list pathState * list pathState :=
  match fuel, queue with
  | O, _ | _, [] => (queue, found)
  | S fuel', cur :: queue' =>
      if (maxDepth <=? Z.of_nat (length (ps_nodes cur)) - 1)%Z
      then paths_loop fuel' idx toID maxDepth queue' found
      else
        let curID := default "" (last (ps_nodes cur)) in
        let '(queue'', found') :=
          fold_left (extend_path idx toID cur) (sortedFlowEdges idx curID) (queue', found) in
        paths_loop fuel' idx toID maxDepth queue'' found'
  end.

Definition edgeIDSeq (edges : list Edge) : string := Join (String "000" "") (map ed_ID edges).

Definition path_less : pathState -> pathState -> bool :=
  less_by (fun p => length (ps_edges p)) Nat.ltb (fun a b => str_ltb (edgeIDSeq (ps_edges a)) (edgeIDSeq (ps_edges b))).

Definition clamp (z dflt top : Z) : Z :=
  let z' := if (z <=? 0)%Z then dflt else z in if (top <? z')%Z then top else z'.

Definition start_path (fromID : string) : pathState := mkPath [fromID] [] {[fromID]}.

Definition search_paths (idx : AdjacencyIndex) (fromID toID : string) (maxDepth : Z)
    : list pathState * list pathState :=
  paths_loop (Z.to_nat maxPathsExplored) idx toID (clamp maxDepth 10 50) [start_path fromID] [].

Definition best_paths (k : Z) (found : list pathState) : list pathState :=
  take (Z.to_nat (clamp k 5 20)) (sort_slice path_less found).

Record FlowPathsResult : Type := mkPaths { Paths : list (list FlowHop); Reachable : bool }.

(** KShortestFlowPaths *)
Definition KShortestFlowPaths (idx : AdjacencyIndex) (fromID toID : string) (k maxDepth : Z)
    : result FlowError FlowPathsResult :=
  match Nodes idx !! fromID with
  | None => Err (ENodeNotFound fromID)
  | Some _ =>
      match Nodes idx !! toID with
      | None => Err (ENodeNotFound toID)
      | Some _ =>
          if str_eqb fromID toID then Ok (mkPaths [] false)
          else
            let found := best_paths k (snd (search_paths idx fromID toID maxDepth)) in
            match mapM (fun p => pathToFlowHops idx (ps_nodes p) (ps_edges p)) found with
            | None => Err EPanic
            | Some paths => Ok (mkPaths paths (0 <? length paths))
            end
      end
  end.

(** ** Waypoints *)

Record CandidateNode : Type := mkCand {
  cn_NodeID : string; cn_Label : string; cn_Service : string; cn_Type : string; cn_ViaEdgeType : string
}.

(** neighborCandidates *)
Definition neighborCandidates (idx : AdjacencyIndex) (nodeID direction : string) : list CandidateNode :=
  omap (fun e => (fun n => mkCand (n_ID n) (n_Label n) (n_Service n) (n_Type n) (ed_Type e)) <$>
                 Nodes idx !! next_dir direction e)
       (flow_edges idx direction nodeID).

(** The chain through consecutive waypoints: the segments, each without its
    first hop except the first. *)
Fixpoint stitch (idx : AdjacencyIndex) (from : string) (rest : list string) (chain : list FlowHop)
    : result FlowError (list FlowHop) :=
  match rest with
  | [] => Ok chain
  | to :: rest' =>
      res ← KShortestFlowPaths idx from to 1 50;
      if Reachable res then
        match Paths res with
        | [] => Err EPanic
        | seg :: _ => stitch idx to rest' (match chain with [] => seg | _ :: _ => chain ++ tail seg end)
        end
      else Err (ENotConnected from to)
  end.

Record RefineResult : Type := mkRefine {
  rf_Chain : list FlowHop; rf_Upstream : list CandidateNode; rf_Downstream : list CandidateNode
}.

Definition first_missing (idx : AdjacencyIndex) (ids : list string) : option string :=
  List.find (fun id => negb (bool_decide (is_Some (Nodes idx !! id)))) ids.

(** RefineWaypoints *)
Definition RefineWaypoints (idx : AdjacencyIndex) (waypointIDs : list string) (direction : string)
    : result FlowError RefineResult :=
  match waypointIDs with
  | [] => Err ENoWaypoints
  | _ :: _ =>
      match first_missing idx waypointIDs with
      | Some id => Err (ENodeNotFound id)
      | None =>
          let ordered := if str_eqb direction "backward" then rev waypointIDs else waypointIDs in
          let first := default "" (head ordered) in
          chain ← (match ordered with
                   | [_] => match Nodes idx !! first with
                            | Some n => Ok [flowHopFromNode n]
                            | None => Err EPanic
                            end
                   | _ => stitch idx first (tail ordered) []
                   end);
          Ok (mkRefine chain (neighborCandidates idx first "in")
                (neighborCandidates idx (default "" (last ordered)) "out"))
      end
  end.
