(* ===== verification/GrPath.v ===== *)
(** Simple paths of edges, whatever relation says which edges a walk may
    follow from a node and at which end it arrives. *)
From S2P Require Import Prelude.
From S2P Require Import GrModel.

Section paths.
Context (follows : string -> Edge -> Prop) (next : Edge -> string) (from : string).

(** The nodes along a path of edges from [from]. *)
Definition nodes_along (es : list Edge) : list string := from :: map next es.

Inductive simple_path : list Edge -> string -> Prop :=
| sp_nil : simple_path [] from
| sp_snoc es x e :
    simple_path es x -> follows x e -> next e ∉ nodes_along es -> simple_path (es ++ [e]) (next e).

Lemma nodes_along_snoc es e : nodes_along (es ++ [e]) = nodes_along es ++ [next e].
Proof. unfold nodes_along. by rewrite map_app. Qed.

Lemma length_nodes_along es : length (nodes_along es) = S (length es).
Proof. unfold nodes_along. cbn. by rewrite length_map. Qed.

Lemma simple_last es x : simple_path es x -> last (nodes_along es) = Some x.
Proof. destruct 1 as [|es x e]; [done|]. by rewrite nodes_along_snoc, last_snoc. Qed.

Lemma simple_end_unique es x y : simple_path es x -> simple_path es y -> x = y.
Proof. intros H1%simple_last H2%simple_last. congruence. Qed.

Lemma simple_prefix es es' x : simple_path (es ++ es') x -> exists y, simple_path es y.
Proof.
  revert x. induction es' as [|e es' IH] using rev_ind; intros x H.
  - rewrite app_nil_r in H. by exists x.
  - rewrite app_assoc in H. inversion H as [Hn|es0 y e0 H1 H2 H3 E]; [by destruct (es ++ es')|].
    apply app_inj_2 in E as [-> _]; [|done]. by apply (IH y).
Qed.

Lemma simple_NoDup es x : simple_path es x -> NoDup (nodes_along es).
Proof.
  induction 1 as [|es x e _ IH _ Hn]; [apply NoDup_singleton|].
  rewrite nodes_along_snoc. apply NoDup_app. split_and!; [done| |apply NoDup_singleton].
  intros y Hy. rewrite list_elem_of_singleton. by intros ->.
Qed.

(** The edge after a prefix continues it. *)
Lemma simple_middle es e es' x : simple_path (es ++ e :: es') x ->
  exists y, simple_path es y /\ follows y e /\ next e ∉ nodes_along es.
Proof.
  intros H. replace (es ++ e :: es') with ((es ++ [e]) ++ es') in H by by rewrite <- app_assoc.
  apply simple_prefix in H as [z H].
  inversion H as [Hn|es0 y e0 H1 H2 H3 E]; [by destruct es|].
  apply app_inj_2 in E as [-> [= ->]]; [|done]. by exists y.
Qed.

(** A path that no edge continues. *)
Definition maximal (es : list Edge) (x : string) : Prop :=
  simple_path es x /\ forall e, follows x e -> next e ∈ nodes_along es.

Lemma simple_nodes (P : string -> Prop) es x : (forall y e, follows y e -> P (next e)) ->
  simple_path es x -> P from -> forall id, id ∈ nodes_along es -> P id.
Proof.
  intros Hf H Hp. induction H as [|es x e _ IH He _]; intros id.
  - intros Hid. by apply list_elem_of_singleton in Hid as ->.
  - rewrite nodes_along_snoc, elem_of_app, list_elem_of_singleton.
    intros [Hid| ->]; [by apply IH|by eapply Hf].
Qed.

(** The last node is none of the earlier ones. *)
Lemma simple_end_fresh es e x : simple_path (es ++ [e]) x -> next e = x /\ x ∉ nodes_along es.
Proof.
  intros H. inversion H as [Hn|es0 y e0 H1 H2 H3 E]; [by destruct es|].
  by apply app_inj_2 in E as [-> [= ->]].
Qed.
End paths.
Arguments simple_last {follows next from} es x.
Arguments simple_end_unique {follows next from} es x y.
Arguments simple_prefix {follows next from} es es' x.
Arguments simple_NoDup {follows next from} es x.
Arguments simple_middle {follows next from} es e es' x.
Arguments simple_nodes {follows next from} P es x.
Arguments simple_end_fresh {follows next from} es e x.
Arguments sp_snoc {follows next from} es x e.
