(* ===== verification/GrFlowsSpec.v ===== *)
(** What the path search finds: simple paths only, and never one longer than a
    path it leaves out. *)
From S2P Require Import Prelude.
From S2P Require Import GrModel.
From S2P Require Import GrFlows.
From S2P Require Import GrPath.

(** A flow goes along flow edges that lead to nodes of the index. *)
Definition follows_flow (idx : AdjacencyIndex) (x : string) (e : Edge) : Prop :=
  e ∈ out_of idx x /\ isFlowEdge (ed_Type e) = true /\ is_Some (Nodes idx !! ed_To e).

(** A simple path of flow edges over nodes of the index. *)
Abbreviation flow_path idx from := (simple_path (follows_flow idx) ed_To from).
Abbreviation flow_nodes from := (nodes_along ed_To from).

Section paths.
Context (idx : AdjacencyIndex) (fromID : string).

Section search.
Context (toID : string) (maxDepth : Z).
Hypothesis Hft : fromID <> toID.

Definition len (p : pathState) : nat := length (ps_edges p).

Definition path_ok (p : pathState) (x : string) : Prop :=
  flow_path idx fromID (ps_edges p) x /\ ps_nodes p = flow_nodes fromID (ps_edges p) /\
  (Z.of_nat (len p) <= maxDepth)%Z.

(** [past] are the partial paths taken from the queue so far. *)
Record inv (past queue found : list pathState) : Prop := {
  inv_past p : p ∈ past -> exists x, path_ok p x /\ x <> toID;
  inv_parent p : p ∈ past ++ queue ++ found -> ps_edges p = [] \/
    exists q e, q ∈ past /\ ps_edges p = ps_edges q ++ [e];
  inv_distinct : (forall x, NoDup (out_of idx x)) -> NoDup (map ps_edges (past ++ queue ++ found));
  inv_queue p : p ∈ queue -> exists x, path_ok p x /\ x <> toID /\ ps_onPath p = list_to_set (ps_nodes p);
  inv_found p : p ∈ found -> path_ok p toID;
  inv_sorted : StronglySorted le (map len queue);
  inv_width p q rest : queue = q :: rest -> p ∈ queue \/ p ∈ found -> len p <= S (len q);
  inv_all es : flow_path idx fromID es toID -> (Z.of_nat (length es) <= maxDepth)%Z ->
    es ∈ map ps_edges found \/ exists p, p ∈ queue /\ ps_edges p `prefix_of` es
}.

(** The edges the expansion of [cur] follows, and what each one adds. *)
Definition ext (cur : pathState) (e : Edge) : option pathState :=
  if decide (ed_To e ∈ ps_onPath cur) then None
  else match Nodes idx !! ed_To e with
       | None => None
       | Some _ => Some (mkPath (ps_nodes cur ++ [ed_To e]) (ps_edges cur ++ [e])
                           ({[ed_To e]} ∪ ps_onPath cur))
       end.

Definition goal_edge (e : Edge) : bool := str_eqb (ed_To e) toID.

Lemma extend_path_ext cur queue found e :
  extend_path idx toID cur (queue, found) e =
  match ext cur e with
  | None => (queue, found)
  | Some ns => if goal_edge e then (queue, found ++ [ns]) else (queue ++ [ns], found)
  end.
Proof. unfold extend_path, ext, goal_edge. case_decide; [done|]. by destruct (Nodes idx !! ed_To e). Qed.

Lemma extend_fold cur es queue found :
  fold_left (extend_path idx toID cur) es (queue, found) =
  (queue ++ omap (ext cur) (List.filter (fun e => negb (goal_edge e)) es),
   found ++ omap (ext cur) (List.filter goal_edge es)).
Proof.
  revert queue found. induction es as [|e es IH]; intros queue found; cbn [fold_left List.filter].
  { cbn. by rewrite !app_nil_r. }
  rewrite extend_path_ext. destruct (ext cur e) as [ns|] eqn:En, (goal_edge e);
    rewrite IH; cbn [negb omap list_omap]; rewrite En; by rewrite <- ?app_assoc.
Qed.

Lemma ext_spec cur x e ns : path_ok cur x -> x <> toID -> ps_onPath cur = list_to_set (ps_nodes cur) ->
  (Z.of_nat (len cur) < maxDepth)%Z -> e ∈ out_of idx x -> isFlowEdge (ed_Type e) = true ->
  ext cur e = Some ns ->
  path_ok ns (ed_To e) /\ ps_onPath ns = list_to_set (ps_nodes ns) /\ len ns = S (len cur) /\
  ps_edges ns = ps_edges cur ++ [e].
Proof.
  intros (Hs & Hn & Hl) Hx Ho Hd He Hf. unfold ext. case_decide as Hon; [done|].
  destruct (Nodes idx !! ed_To e) as [n|] eqn:En; [|done]. intros [= <-]. unfold path_ok, len in *; cbn.
  rewrite length_app, Nat.add_1_r. split_and!; try done; [|by rewrite nodes_along_snoc, Hn|lia|].
  - apply (sp_snoc _ x); [done|by unfold follows_flow; rewrite En|]. rewrite <- Hn. intros Hin. apply Hon.
    by rewrite Ho, elem_of_list_to_set.
  - rewrite Ho, list_to_set_app_L. cbn. set_solver.
Qed.

Lemma ext_all cur x e es : path_ok cur x -> ps_onPath cur = list_to_set (ps_nodes cur) ->
  flow_path idx fromID (ps_edges cur ++ e :: es) toID -> exists ns, ext cur e = Some ns /\
    ps_edges ns = ps_edges cur ++ [e].
Proof.
  intros (Hs & Hn & _) Ho H. apply simple_middle in H as (y & _ & (_ & _ & [n En]) & Hto).
  unfold ext. rewrite decide_False; [|by rewrite Ho, elem_of_list_to_set, Hn].
  rewrite En. by eexists.
Qed.

(** What a round takes from the queue is past. *)
Lemma past_perm past cur (queue found : list pathState) :
  past ++ (cur :: queue) ++ found ≡ₚ (past ++ [cur]) ++ queue ++ found.
Proof. by rewrite <- app_assoc. Qed.

Lemma inv_pop past cur queue found : inv past (cur :: queue) found ->
  (maxDepth <= Z.of_nat (length (ps_nodes cur)) - 1)%Z -> inv (past ++ [cur]) queue found.
Proof.
  intros [P1 P2 P3 H1 H2 H3 H4 H5] Hd. cbn in H3. apply StronglySorted_cons in H3 as [H3 H3'].
  rewrite Forall_forall in H3. split.
  - intros p [Hp|Hp%list_elem_of_singleton]%elem_of_app; [by apply P1|subst p].
    destruct (H1 cur ltac:(left)) as (x & Hx & Hxt & _). by exists x.
  - intros p. rewrite <- past_perm. intros [?|(q & e & Hq & E)]%P2; [by left|right].
    exists q, e. split; [apply elem_of_app; by left|done].
  - intros Ho. rewrite <- past_perm. by apply P3.
  - intros p Hp. apply H1. by right.
  - done.
  - done.
  - intros p q rest -> Hp. etrans; [apply (H4 p cur _ eq_refl); destruct Hp; [left; by right|by right]|].
    apply le_n_S, H3. cbn. left.
  - intros es Hs Hl. destruct (H5 es Hs Hl) as [|(p & Hp & Hpre)]; [by left|].
    apply elem_of_cons in Hp as [->|Hp]; [|right; by exists p]. exfalso.
    destruct (H1 cur ltac:(left)) as (x & (Hx & Hn & Hc) & Hxt & _). rewrite Hn in Hd.
    unfold nodes_along in Hd. cbn in Hd. rewrite length_map in Hd.
    destruct Hpre as [es' ->]. rewrite length_app in Hl.
    assert (es' = []) as -> by (destruct es'; [done|cbn in *; unfold len in *; lia]).
    rewrite app_nil_r in Hs. apply simple_last in Hs. apply simple_last in Hx. congruence.
Qed.

Lemma elem_of_sortedFlowEdges x e :
  e ∈ sortedFlowEdges idx x <-> e ∈ out_of idx x /\ isFlowEdge (ed_Type e) = true.
Proof.
  unfold sortedFlowEdges, flow_edges. rewrite elem_of_sort_slice, !list_elem_of_In, filter_In.
  done.
Qed.

Lemma goal_edge_true e : goal_edge e = true <-> ed_To e = toID.
Proof. apply String.eqb_eq. Qed.

(** What expanding [cur] adds to the queue ([goal] false) or to the paths
    found ([goal] true). *)
Lemma elem_of_new cur x goal ns : path_ok cur x -> x <> toID ->
  ps_onPath cur = list_to_set (ps_nodes cur) -> (Z.of_nat (len cur) < maxDepth)%Z ->
  ns ∈ omap (ext cur) (List.filter (fun e => Bool.eqb (goal_edge e) goal) (sortedFlowEdges idx x)) ->
  exists y, path_ok ns y /\ (y = toID <-> goal = true) /\ ps_onPath ns = list_to_set (ps_nodes ns) /\
    len ns = S (len cur).
Proof.
  intros Hok Hx Ho Hd Hns. apply list_elem_of_omap in Hns as (e & He & Hext).
  apply list_elem_of_In, filter_In in He as [He Hg]. apply list_elem_of_In, elem_of_sortedFlowEdges in He as [He Hf].
  apply eqb_prop in Hg. destruct (ext_spec cur x e ns) as (H1 & H2 & H3 & _); try done.
  exists (ed_To e). split_and!; try done. by rewrite <- Hg, goal_edge_true.
Qed.

Lemma sorted_snoc_all (l new : list nat) n : StronglySorted le l -> (forall m, m ∈ l -> m <= n) ->
  (forall m, m ∈ new -> m = n) -> StronglySorted le (l ++ new).
Proof.
  intros Hs Hl Hn. apply StronglySorted_app_2; [|done|].
  - intros a b Ha Hb. rewrite (Hn b Hb). by apply Hl.
  - clear Hs Hl. induction new as [|m new IH]; constructor.
    + apply IH. intros k Hk. apply Hn. by right.
    + apply Forall_forall. intros k Hk. rewrite (Hn m ltac:(left)), (Hn k); [done|by right].
Qed.

(** The extensions of one path are distinct. *)
Lemma ext_edges cur e ns : ext cur e = Some ns -> ps_edges ns = ps_edges cur ++ [e].
Proof. unfold ext. case_decide; [done|]. destruct (Nodes idx !! ed_To e); [|done]. by intros [= <-]. Qed.

Lemma exts_distinct cur es : NoDup es -> NoDup (map ps_edges (omap (ext cur) es)).
Proof.
  induction 1 as [|e es He _ IH]; cbn; [constructor|]. destruct (ext cur e) as [ns|] eqn:E; [|done].
  cbn. constructor; [|done]. intros (ns' & Hns & (e' & He' & E')%list_elem_of_omap)%list_elem_of_fmap.
  rewrite (ext_edges _ _ _ E), (ext_edges _ _ _ E') in Hns. apply app_inv_head in Hns. by injection Hns as <-.
Qed.

Lemma goal_split cur es :
  omap (ext cur) (List.filter (fun e => Bool.eqb (goal_edge e) false) es) ++
  omap (ext cur) (List.filter (fun e => Bool.eqb (goal_edge e) true) es) ≡ₚ omap (ext cur) es.
Proof.
  induction es as [|e es IH]; [done|]. cbn [List.filter]. destruct (goal_edge e); cbn; destruct (ext cur e).
  - rewrite <- Permutation_middle. by f_equiv.
  - done.
  - cbn. by f_equiv.
  - done.
Qed.

Lemma sortedFlowEdges_NoDup x : NoDup (out_of idx x) -> NoDup (sortedFlowEdges idx x).
Proof.
  intros H. unfold sortedFlowEdges, flow_edges. rewrite sort_slice_perm.
  change (edges_dir idx "out" x) with (out_of idx x). revert H. generalize (out_of idx x). clear.
  induction l as [|e l IH]; cbn; [done|]. intros [He Hl]%NoDup_cons. destruct (isFlowEdge _); [|by apply IH].
  constructor; [|by apply IH]. by intros [? _]%elem_of_bfilter.
Qed.

Lemma inv_expand past cur queue found x : inv past (cur :: queue) found -> path_ok cur x -> x <> toID ->
  ps_onPath cur = list_to_set (ps_nodes cur) -> (Z.of_nat (len cur) < maxDepth)%Z ->
  let new goal := omap (ext cur) (List.filter (fun e => Bool.eqb (goal_edge e) goal) (sortedFlowEdges idx x)) in
  inv (past ++ [cur]) (queue ++ new false) (found ++ new true).
Proof.
  intros [P1 P2 P3 H1 H2 H3 H4 H5] Hok Hx Ho Hd new. cbn in H3. apply StronglySorted_cons in H3 as [H3 H3'].
  rewrite Forall_forall in H3.
  assert (Hnew : forall goal ns, ns ∈ new goal -> exists y, path_ok ns y /\ (y = toID <-> goal = true) /\
    ps_onPath ns = list_to_set (ps_nodes ns) /\ len ns = S (len cur)).
  { intros goal ns. by apply (elem_of_new cur x). }
  assert (Hle : forall p, p ∈ queue \/ p ∈ found -> len p <= S (len cur)).
  { intros p Hp. apply (H4 p cur _ eq_refl). destruct Hp; [left; by right|by right]. }
  assert (Hall : (past ++ [cur]) ++ (queue ++ new false) ++ (found ++ new true) ≡ₚ
    (past ++ (cur :: queue) ++ found) ++ omap (ext cur) (sortedFlowEdges idx x)).
  { rewrite <- goal_split. fold (new false) (new true). rewrite past_perm. solve_Permutation. }
  split.
  - intros p [Hp|Hp%list_elem_of_singleton]%elem_of_app; [by apply P1|subst p]. by exists x.
  - intros p. rewrite Hall, elem_of_app. intros [[?|(q & e & Hq & E)]%P2|(e & _ & E)%list_elem_of_omap].
    + by left.
    + right. exists q, e. split; [apply elem_of_app; by left|done].
    + right. exists cur, e. split; [apply elem_of_app; right; left|by apply ext_edges].
  - intros Hout. rewrite Hall, map_app. apply NoDup_app. split_and!; [by apply P3| |by apply exts_distinct, sortedFlowEdges_NoDup].
    intros es (p & -> & Hp)%list_elem_of_fmap (ns & Ens & (e & _ & E)%list_elem_of_omap)%list_elem_of_fmap.
    apply ext_edges in E. rewrite E in Ens. destruct (P2 p Hp) as [E0|(q & e' & Hq & E0)]; rewrite E0 in Ens.
    { by destruct (ps_edges cur). }
    apply app_inj_2 in Ens as [Ecur _]; [|done]. specialize (P3 Hout). rewrite map_app in P3.
    apply NoDup_app in P3 as (_ & P3 & _). apply (P3 (ps_edges q)); [by apply list_elem_of_fmap_2|].
    rewrite Ecur. left.
  - intros p Hp. apply elem_of_app in Hp as [Hp|Hp]; [apply H1; by right|].
    destruct (Hnew _ _ Hp) as (y & Hy & Hg & Hon & _). exists y. split_and!; try done.
    intros Hyt. apply Hg in Hyt. done.
  - intros p Hp. apply elem_of_app in Hp as [Hp|Hp]; [by apply H2|].
    destruct (Hnew _ _ Hp) as (y & Hy & Hg & _). by rewrite (proj2 Hg eq_refl) in Hy.
  - rewrite map_app. apply (sorted_snoc_all _ _ (S (len cur))); [done| |].
    + intros m Hm. apply list_elem_of_fmap in Hm as (p & -> & Hp). apply Hle. by left.
    + intros m Hm. apply list_elem_of_fmap in Hm as (p & -> & Hp). by destruct (Hnew _ _ Hp) as (_ & _ & _ & _ & ?).
  - intros p q rest E Hp.
    assert (Hp' : len p <= S (len cur)).
    { destruct Hp as [Hp|Hp]; apply elem_of_app in Hp as [Hp|Hp];
        [apply Hle; by left| |apply Hle; by right|]; by destruct (Hnew _ _ Hp) as (_ & _ & _ & _ & ->). }
    etrans; [exact Hp'|]. apply le_n_S. destruct queue as [|r queue]; cbn [app] in E.
    + assert (Hq : q ∈ new false) by (rewrite E; left). destruct (Hnew _ _ Hq) as (_ & _ & _ & _ & ->). lia.
    + injection E as <- _. apply H3. cbn. left.
  - intros es Hs Hl. destruct (H5 es Hs Hl) as [Hin|(p & Hp & Hpre)].
    { left. rewrite map_app. apply elem_of_app. by left. }
    apply elem_of_cons in Hp as [->|Hp]; [|right; exists p; split; [apply elem_of_app; by left|done]].
    destruct Hpre as [es' ->]. destruct es' as [|e es'].
    { exfalso. rewrite app_nil_r in Hs. destruct Hok as [Hok _]. apply simple_last in Hs, Hok. congruence. }
    destruct (ext_all cur x e es' Hok Ho Hs) as (ns & Hext & Hedges).
    assert (He : e ∈ sortedFlowEdges idx x).
    { apply simple_middle in Hs as (y & Hy & (He & Hf & _) & _). apply elem_of_sortedFlowEdges.
      destruct Hok as [Hok _]. apply simple_last in Hy, Hok. by simplify_eq. }
    assert (Hns : ns ∈ new (goal_edge e)).
    { apply list_elem_of_omap. exists e. split; [|done]. apply list_elem_of_In, filter_In.
      split; [by apply list_elem_of_In|]. apply eqb_reflx. }
    destruct (goal_edge e) eqn:Eg.
    + left. assert (es' = []) as ->.
      { apply goal_edge_true in Eg. destruct es' as [|e' es'] using rev_ind; [done|]. exfalso.
        apply simple_NoDup in Hs as Hnd. apply simple_last in Hs as Hlast.
        replace (ps_edges cur ++ e :: es' ++ [e']) with ((ps_edges cur ++ e :: es') ++ [e']) in * by
          by rewrite <- app_assoc.
        rewrite nodes_along_snoc in Hnd, Hlast. rewrite last_snoc in Hlast. injection Hlast as Hlast.
        apply NoDup_app in Hnd as (_ & Hnd & _). apply (Hnd (ed_To e)); [|rewrite Eg, Hlast; left].
        unfold nodes_along. rewrite map_app. right. apply elem_of_app. right. left. }
      rewrite map_app. apply elem_of_app. right. rewrite <- Hedges. by apply list_elem_of_fmap_2.
    + right. exists ns. split; [apply elem_of_app; by right|]. rewrite Hedges. exists es'. by rewrite <- app_assoc.
Qed.

Lemma loop_inv fuel past queue found : inv past queue found ->
  exists past', inv past' (fst (paths_loop fuel idx toID maxDepth queue found))
      (snd (paths_loop fuel idx toID maxDepth queue found)) /\
    (fst (paths_loop fuel idx toID maxDepth queue found) = [] \/ length past' = fuel + length past).
Proof.
  revert past queue found. induction fuel as [|fuel IH]; intros past queue found Hi.
  { exists past. split; [done|by right]. }
  cbn [paths_loop]. destruct queue as [|cur queue]; [exists past; split; [done|by left]|].
  assert (Hlen : forall past' : list pathState, length past' = fuel + length (past ++ [cur]) -> length past' = S fuel + length past).
  { intros past' ->. rewrite length_app. cbn. lia. }
  destruct (maxDepth <=? Z.of_nat (length (ps_nodes cur)) - 1)%Z eqn:E.
  { destruct (IH (past ++ [cur]) queue found) as (past' & H1 & H2); [eapply inv_pop; [exact Hi|lia]|].
    exists past'. split; [done|]. destruct H2; auto. }
  destruct (inv_queue _ _ _ Hi cur ltac:(left)) as (x & Hok & Hx & Ho).
  destruct Hok as (Hs & Hn & Hl) eqn:Eok. clear Eok.
  assert (Hcur : default "" (last (ps_nodes cur)) = x) by (rewrite Hn; by rewrite (simple_last _ _ Hs)).
  rewrite Hcur, extend_fold.
  assert (Hd : (Z.of_nat (len cur) < maxDepth)%Z).
  { rewrite Hn in E. unfold nodes_along in E. rewrite length_cons, length_map in E. apply Z.leb_gt in E.
    unfold len. lia. }
  assert (Hnew : forall l, List.filter (fun e => negb (goal_edge e)) l =
    List.filter (fun e => Bool.eqb (goal_edge e) false) l /\
    List.filter goal_edge l = List.filter (fun e => Bool.eqb (goal_edge e) true) l).
  { intros l. split; apply filter_ext; intros e; by destruct (goal_edge e). }
  destruct (Hnew (sortedFlowEdges idx x)) as [-> ->].
  destruct (IH (past ++ [cur]) _ _ (inv_expand past cur queue found x Hi Hok Hx Ho Hd)) as (past' & H1 & H2).
  exists past'. split; [done|]. destruct H2; auto.
Qed.

Lemma flow_inv_start : (0 <= maxDepth)%Z -> inv [] [start_path fromID] [].
Proof.
  intros Hd. split.
  - intros p Hp. by apply elem_of_nil in Hp.
  - intros p Hp. apply list_elem_of_singleton in Hp as ->. by left.
  - intros _. apply NoDup_singleton.
  - intros p Hp. apply list_elem_of_singleton in Hp as ->. exists fromID. split_and!; try done.
    + split_and!; [apply sp_nil|done|unfold len; cbn; lia].
    + cbn. set_solver.
  - intros p Hp. by apply elem_of_nil in Hp.
  - repeat constructor.
  - intros p q rest [= <- <-] [Hp|Hp]; [|by apply elem_of_nil in Hp].
    apply list_elem_of_singleton in Hp as ->. cbn. lia.
  - intros es _ _. right. exists (start_path fromID). split; [left|apply prefix_nil].
Qed.
End search.
End paths.

(** ** Ranking *)

Lemma sorted_take_drop {A} (R : relation A) (l : list A) n x y :
  StronglySorted R l -> x ∈ take n l -> y ∈ drop n l -> R x y.
Proof. intros Hs. rewrite <- (take_drop n l) in Hs. by apply StronglySorted_app_1_elem_of. Qed.

(** The code's order on paths: shorter first, paths of one length by the
    sequence of their edges' IDs. *)
Definition rank_le (a b : list Edge) : Prop :=
  length a < length b \/ length a = length b /\ str_ltb (edgeIDSeq b) (edgeIDSeq a) = false.

(** A limit: its default where none is given, and never above the top. *)
Definition limit (z dflt top : Z) : Z := if (z <=? 0)%Z then dflt else Z.min z top.

Lemma clamp_limit z dflt top : (dflt <= top)%Z -> clamp z dflt top = limit z dflt top.
Proof. unfold clamp, limit. intros. destruct (z <=? 0)%Z; destruct (_ <? _)%Z eqn:E; lia. Qed.

Lemma path_less_rank p q : may_precede path_less p q <-> rank_le (ps_edges p) (ps_edges q).
Proof.
  unfold may_precede, path_less, less_by, rank_le. case_decide as E.
  - rewrite E. split; [by right|]. intros [?|[_ ?]]; [lia|done].
  - rewrite Nat.ltb_ge. split; [intros; left; lia|]. intros [?|[? _]]; lia.
Qed.

#[local] Instance path_less_weak : WeakLess path_less.
Proof. unfold path_less. apply _. Qed.

Lemma best_paths_spec k found : let best := best_paths k found in
  (forall p, p ∈ best -> p ∈ found) /\
  StronglySorted rank_le (map ps_edges best) /\
  length best <= Z.to_nat (limit k 5 20) /\
  (NoDup (map ps_edges found) -> NoDup (map ps_edges best)) /\
  (forall p, p ∈ found -> p ∈ best \/
     length best = Z.to_nat (limit k 5 20) /\ forall q, q ∈ best -> rank_le (ps_edges q) (ps_edges p)).
Proof.
  cbn zeta. unfold best_paths. rewrite clamp_limit by lia.
  set (n := Z.to_nat (limit k 5 20)). set (s := sort_slice path_less found).
  pose proof (sort_slice_sorted path_less found) as Hs. fold s in Hs. split_and!.
  - intros p Hp. apply (elem_of_sort_slice path_less). fold s. rewrite <- (take_drop n s).
    apply elem_of_app. by left.
  - assert (Hst : StronglySorted (may_precede path_less) (take n s)).
    { rewrite <- (take_drop n s) in Hs. by apply StronglySorted_app_1_l in Hs. }
    clear Hs. induction Hst as [|p l _ IH Hp]; cbn; constructor; [done|].
    apply Forall_fmap. eapply Forall_impl; [exact Hp|]. intros q. by apply path_less_rank.
  - rewrite length_take. lia.
  - intros Hn. assert (Hns : NoDup (map ps_edges s)) by (unfold s; by rewrite sort_slice_perm).
    rewrite <- (take_drop n s), map_app in Hns. by apply NoDup_app in Hns as [? _].
  - intros p Hp. apply (elem_of_sort_slice path_less) in Hp. fold s in Hp.
    rewrite <- (take_drop n s) in Hp. apply elem_of_app in Hp as [Hp|Hp]; [by left|right]. split.
    + apply length_take_le. assert (Hd : 0 < length (drop n s)) by (destruct (drop n s); [by apply elem_of_nil in Hp|cbn; lia]).
      rewrite length_drop in Hd. lia.
    + intros q Hq. apply path_less_rank. by eapply sorted_take_drop.
Qed.

(** The hops of a path name its nodes and, from the second on, the types of
    its edges. *)
Lemma pathToFlowHops_some idx nodes edges : wf_index idx -> length nodes = S (length edges) ->
  (forall id, id ∈ nodes -> is_Some (Nodes idx !! id)) ->
  exists hs, pathToFlowHops idx nodes edges = Some hs /\ map fh_NodeID hs = nodes /\
    map fh_EdgeType hs = "" :: map ed_Type edges.
Proof.
  intros W. destruct nodes as [|id nodes]; [done|]. intros [= Hl] Hn. cbn.
  destruct (Hn id ltac:(left)) as [n E]. rewrite E. cbn.
  enough (exists hs, rest_hops idx nodes edges = Some hs /\ map fh_NodeID hs = nodes /\
    map fh_EdgeType hs = map ed_Type edges) as (hs & -> & Hhs & Hty).
  { eexists. split; [done|]. cbn. by rewrite Hhs, Hty, (wf_nodes _ W _ _ E). }
  assert (Hn' : forall i, i ∈ nodes -> is_Some (Nodes idx !! i)) by (intros; apply Hn; by right).
  clear Hn E. revert edges Hl. induction nodes as [|i nodes IH]; intros [|e edges] Hl; try done; cbn.
  { by exists []. }
  destruct (Hn' i ltac:(left)) as [m E]. rewrite E. cbn.
  destruct (IH ltac:(intros; apply Hn'; by right) edges ltac:(cbn in Hl; lia)) as (hs & -> & Hhs & Hty).
  cbn. eexists. split; [done|]. cbn. by rewrite Hhs, Hty, (wf_nodes _ W _ _ E).
Qed.

Lemma search_inv idx from to maxDepth : from <> to -> exists past,
  inv idx from to (limit maxDepth 10 50) past (fst (search_paths idx from to maxDepth))
    (snd (search_paths idx from to maxDepth)) /\
  (fst (search_paths idx from to maxDepth) = [] \/ Z.of_nat (length past) = maxPathsExplored).
Proof.
  intros Hne. unfold search_paths. rewrite clamp_limit by lia.
  destruct (loop_inv idx from to (limit maxDepth 10 50) Hne (Z.to_nat maxPathsExplored) [] [start_path from] [])
    as (past & H1 & H2).
  { apply flow_inv_start; [done|]. unfold limit. destruct (_ <=? _)%Z eqn:E; lia. }
  exists past. split; [done|]. destruct H2 as [?|H2]; [by left|right]. cbn [length] in H2. unfold maxPathsExplored in *. lia.
Qed.

(** The hops of the paths chosen. *)
Lemma paths_hops idx from to (ps : list pathState) D : wf_index idx -> is_Some (Nodes idx !! from) ->
  (forall p, p ∈ ps -> path_ok idx from D p to) ->
  exists hops, mapM (fun p => pathToFlowHops idx (ps_nodes p) (ps_edges p)) ps = Some hops /\
    map (map fh_NodeID) hops = map (flow_nodes from) (map ps_edges ps) /\
    map (map fh_EdgeType) hops = map (fun es => "" :: map ed_Type es) (map ps_edges ps).
Proof.
  intros W Hf. induction ps as [|p ps IH]; intros Hok; [by exists []|].
  destruct (Hok p ltac:(left)) as (Hs & Hn & _).
  destruct (pathToFlowHops_some idx (ps_nodes p) (ps_edges p) W) as (hs & Hh & H1 & H2).
  - by rewrite Hn, length_nodes_along.
  - rewrite Hn. eapply (simple_nodes (fun id => is_Some (Nodes idx !! id))); [|exact Hs|done].
    by intros ? ? (_ & _ & ?).
  - destruct IH as (hops & Hm & H3 & H4); [intros q Hq; apply Hok; by right|].
    exists (hs :: hops). cbn. rewrite Hh. cbn. rewrite Hm. cbn. by rewrite H1, H2, H3, H4, Hn.
Qed.

Lemma walks_distinct (l l1 l2 : list pathState) :
  NoDup (map ps_edges (l ++ l1 ++ l2)) -> NoDup (map ps_edges l) /\ NoDup (map ps_edges l2).
Proof.
  intros H. rewrite !map_app in H. apply NoDup_app in H as (H1 & _ & H2).
  by apply NoDup_app in H2 as (_ & _ & H2).
Qed.

(** C31: between two distinct nodes the search answers without failing, with at
    most [k] paths (5 where none is asked for, never more than 20), read hop
    by hop.  Each is a simple path of flow edges within the depth limit, they
    come in the code's order, none twice (where no node lists an edge twice,
    the assumption [each_edge_once]), and a simple path within
    the limit is left out only if [k] paths that rank no worse are returned, or
    if the search never took up one of its prefixes; then no path returned is
    longer, and the search has taken up 20000 partial paths, all simple paths
    within the limit and, under the same assumption, distinct.  [unexplored]
    are the prefixes it gave up. *)
Theorem KShortestFlowPaths_optimal idx from to k maxDepth : wf_index idx ->
  from <> to -> is_Some (Nodes idx !! from) -> is_Some (Nodes idx !! to) ->
  let K := Z.to_nat (limit k 5 20) in
  let within es := (Z.of_nat (length es) <= limit maxDepth 10 50)%Z in
  let each_edge_once := forall x, NoDup (out_of idx x) in
  exists best hops unexplored,
    KShortestFlowPaths idx from to k maxDepth = Ok (mkPaths hops (0 <? length best)) /\
    map (map fh_NodeID) hops = map (flow_nodes from) best /\
    map (map fh_EdgeType) hops = map (fun es => "" :: map ed_Type es) best /\
    (forall es, es ∈ best -> flow_path idx from es to /\ within es) /\
    StronglySorted rank_le best /\ length best <= K /\ (each_edge_once -> NoDup best) /\
    (forall es, flow_path idx from es to -> within es ->
       es ∈ best \/ (length best = K /\ forall p, p ∈ best -> rank_le p es) \/
       exists pre, pre ∈ unexplored /\ pre `prefix_of` es /\ forall p, p ∈ best -> length p <= length es) /\
    (unexplored <> [] -> exists taken, length taken = Z.to_nat 20000 /\ (each_edge_once -> NoDup taken) /\
       forall es, es ∈ taken -> exists x, flow_path idx from es x /\ x <> to /\ within es).
Proof.
  intros W Hne Hf Ht K within each.
  destruct (search_inv idx from to maxDepth Hne) as (past & [P1 P2 P3 H1 H2 H3 H4 H5] & Hcap).
  unfold KShortestFlowPaths.
  destruct (search_paths idx from to maxDepth) as [queue found]. cbn [fst snd] in *.
  destruct (best_paths_spec k found) as (B1 & B2 & B3 & B4 & B5). set (best := best_paths k found) in *.
  assert (Hok : forall p, p ∈ best -> path_ok idx from (limit maxDepth 10 50) p to) by (intros p Hp; by apply H2, B1).
  destruct (paths_hops idx from to best _ W Hf Hok) as (hops & Hm & Hids & Hty).
  exists (map ps_edges best), hops, (map ps_edges queue).
  destruct Hf as [n ->], Ht as [m ->]. apply String.eqb_neq in Hne as Hne'. rewrite Hne', Hm.
  assert (Hlen : length hops = length (map ps_edges best)).
  { apply (f_equal length) in Hids. rewrite !length_map in Hids. rewrite length_map. exact Hids. }
  rewrite Hlen. split_and!; try done.
  - intros es (p & -> & Hp)%list_elem_of_fmap. by destruct (Hok p Hp) as (? & _ & ?).
  - by rewrite length_map.
  - intros Ho. by apply B4, (walks_distinct past queue found (P3 Ho)).
  - intros es Hs Hl. destruct (H5 es Hs Hl) as [(p & -> & Hp)%list_elem_of_fmap|(p & Hp & Hpre)].
    + destruct (B5 p Hp) as [Hb|[Hk Hb]]; [left; by apply list_elem_of_fmap_2|right; left].
      split; [by rewrite length_map|]. intros q (q' & -> & Hq)%list_elem_of_fmap. by apply Hb.
    + right; right. exists (ps_edges p). split; [by apply list_elem_of_fmap_2|]. split; [done|].
      intros q (q' & -> & Hq)%list_elem_of_fmap. destruct queue as [|r rest]; [by apply elem_of_nil in Hp|].
      destruct (H1 p Hp) as (x & (Hx & _) & Hxt & _).
      assert (len p < length es).
      { destruct Hpre as [es' ->]. rewrite length_app. destruct es' as [|e es']; [|cbn; unfold len; lia].
        rewrite app_nil_r in Hs. apply simple_last in Hs, Hx. congruence. }
      assert (len q' <= S (len r)) by (apply (H4 q' r rest eq_refl); right; by apply B1).
      assert (len r <= len p).
      { cbn in H3. apply StronglySorted_cons in H3 as [H3 _]. rewrite Forall_forall in H3.
        apply elem_of_cons in Hp as [->|Hp]; [done|]. by apply H3, list_elem_of_fmap_2. }
      unfold len in *. lia.
  - intros Hun. exists (map ps_edges past). split; [|split].
    + destruct Hcap as [->|Hcap]; [done|]. rewrite length_map. unfold maxPathsExplored in Hcap. lia.
    + intros Ho. by apply (walks_distinct past queue found (P3 Ho)).
    + intros es (p & -> & Hp)%list_elem_of_fmap. destruct (P1 p Hp) as (x & (? & _ & ?) & ?). by exists x.
Qed.

(** ** A concrete graph: two paths and a containment edge no flow follows *)

Definition flow_node (id : string) : Node := mkNode id NodeTypeFunction id "svc" "f.go" 1 0 "go" ∅ "".
Definition flow_edge (ty from to : string) : Edge :=
  mkEdge (from +:+ to) from to ty "" "" "" "" ∅ [] "" "".
Definition flow_index : AdjacencyIndex :=
  BuildIndex (map flow_node ["a"; "b"; "c"; "d"])
    [flow_edge EdgeTypeContains "a" "d"; flow_edge EdgeTypeCalls "a" "b"; flow_edge EdgeTypeCalls "b" "c";
     flow_edge EdgeTypeCalls "c" "d"; flow_edge EdgeTypeCalls "b" "d"; flow_edge EdgeTypeCalls "c" "a"].

Lemma KShortestFlowPaths_optimal_witness :
  (map (map fh_NodeID) ∘ Paths <$> KShortestFlowPaths flow_index "a" "d" 3 0 =
     Ok [["a"; "b"; "d"]; ["a"; "b"; "c"; "d"]]) /\
  exists best hops,
    KShortestFlowPaths flow_index "a" "d" 1 0 = Ok (mkPaths hops (0 <? length best)) /\
    map (map fh_NodeID) hops = map (flow_nodes "a") best /\ length best <= 1.
Proof.
  split; [vm_compute; reflexivity|].
  destruct (KShortestFlowPaths_optimal flow_index "a" "d" 1 0)
    as (best & hops & unexplored & H1 & H2 & _ & _ & _ & H3 & _).
  - apply wf_BuildIndex.
  - discriminate.
  - exists (flow_node "a"). vm_compute. reflexivity.
  - exists (flow_node "d"). vm_compute. reflexivity.
  - exists best, hops. split; [exact H1|]. split; [exact H2|exact H3].
Defined.
