(* ===== verification/GrSeam.v ===== *)
(** Seams (src/internal/graph/seam.go): the producers and consumers of the
    channel an edge belongs to, each with its longest chain of flow edges. *)
From S2P Require Import Prelude.
From S2P Require Import GrModel.
From S2P Require Import GrFlows.
From S2P Require Import GrPath.
From S2P Require Import GrFlowsSpec.

Record SeamSide : Type := mkSide { sd_Node : Node; sd_Chain : list FlowHop }.

Record SeamResult : Type := mkSeam {
  sm_Channel : string; sm_VerificationState : string; sm_Expanded : bool;
  sm_Sources : list SourceRef; sm_Producers : list SeamSide; sm_Consumers : list SeamSide
}.

(** FindEdgeByID; [lists] is OutEdges in the order the map yields it. *)
Definition FindEdgeByID (lists : list (string * list Edge)) (id : string) : option Edge :=
  List.find (fun e => str_eqb (ed_ID e) id) (concat (map snd lists)).

(** ** longestChain *)

(** The longest chain so far: its nodes and its edges. *)
Record best_chain : Type := mkBest { b_nodes : list string; b_edges : list Edge }.

(** The closure walk of longestChain; [path] already ends with [id], and
    [fuel] is what [depth] leaves of the cut-off: a call at depth above 200
    returns without looking. *)
Fixpoint walk (fuel : nat) (idx : AdjacencyIndex) (direction : string) (path : list string)
    (edges : list Edge) (onPath : gset string) (id : string) (best : best_chain) : best_chain :=
  match fuel with
  | O => best
  | S fuel' =>
      let '(extended, best') :=
        fold_left (fun st e =>
          let '(extended, best) := st in
          let next := next_dir direction e in
          if decide (next ∈ onPath) then (extended, best)
          else
            match Nodes idx !! next with
            | None => (extended, best)
            | Some _ =>
                (true, walk fuel' idx direction (path ++ [next]) (edges ++ [e]) ({[next]} ∪ onPath) next best)
            end) (flow_edges idx direction id) (false, best) in
      if negb extended && (length (b_nodes best') <? length path) then mkBest path edges else best'
  end.

(** Depths 0 to 200 are looked at. *)
Definition walk_fuel : nat := 201.

Definition best_from (idx : AdjacencyIndex) (direction nodeID : string) : best_chain :=
  walk walk_fuel idx direction [nodeID] [] {[nodeID]} nodeID (mkBest [] []).

(** longestChain: nil when the best chain has no edge. *)
Definition longestChain (idx : AdjacencyIndex) (nodeID direction : string) : option (list FlowHop) :=
  let best := best_from idx direction nodeID in
  if length (b_nodes best) <=? 1 then Some []
  else if is_in direction then pathToFlowHops idx (rev (b_nodes best)) (rev (b_edges best))
  else pathToFlowHops idx (b_nodes best) (b_edges best).

(** ** Sides *)

(** The participants named by the edges, each once, that are nodes. *)
Definition side_end (fromSide : bool) (e : Edge) : string := if fromSide then ed_From e else ed_To e.

Definition add_side (idx : AdjacencyIndex) (fromSide : bool) (st : gset string * list string) (e : Edge)
    : gset string * list string :=
  let '(seen, nodeIDs) := st in
  let id := side_end fromSide e in
  if decide (id ∈ seen) then st
  else
    match Nodes idx !! id with
    | None => st
    | Some _ => ({[id]} ∪ seen, nodeIDs ++ [id])
    end.

Definition side_ids (idx : AdjacencyIndex) (edges : list Edge) (fromSide : bool) : list string :=
  sort_strings (snd (fold_left (add_side idx fromSide) edges (∅, []))).

Definition side_of (idx : AdjacencyIndex) (fromSide : bool) (id : string) : option SeamSide :=
  n ← Nodes idx !! id;
  chain ← longestChain idx id (if fromSide then "in" else "out");
  Some (mkSide n (match chain with [] => [flowHopFromNode n] | _ :: _ => chain end)).

(** seamSidesFromEdges; [None] would be a panic. *)
Definition seamSidesFromEdges (idx : AdjacencyIndex) (edges : list Edge) (fromSide : bool)
    : option (list SeamSide) :=
  mapM (side_of idx fromSide) (side_ids idx edges fromSide).

(** ** Seam *)

Definition channel_key (e : Edge) : string := meta_get (ed_Meta e) "channel_key".

Definition is_channel (idx : AdjacencyIndex) (id : string) : option Node :=
  n ← Nodes idx !! id;
  if str_eqb (n_Type n) NodeTypeChannel then Some n else None.

(** The producer edges, the consumer edges, the channel's name and whether it
    was widened past the edge. *)
Definition seam_edges (idx : AdjacencyIndex) (lists : list (string * list Edge)) (e : Edge)
    : list Edge * list Edge * string * bool :=
  let key := channel_key e in
  if negb (str_eqb key "") then
    let matched := List.filter (fun edge => str_eqb (channel_key edge) key) (AllEdges_ lists) in
    (matched, matched, key, true)
  else
    match is_channel idx (ed_From e) with
    | Some n => (in_of idx (ed_From e), out_of idx (ed_From e), channelLabel n, true)
    | None =>
        match is_channel idx (ed_To e) with
        | Some n => (in_of idx (ed_To e), out_of idx (ed_To e), channelLabel n, true)
        | None => ([e], [e], if str_eqb (ed_Label e) "" then ed_Type e else ed_Label e, false)
        end
    end.

Inductive SeamError : Type := EEdgeNotFound (id : string) | ESeamPanic.

(** Seam; [found] and [all] are the orders in which the two scans of OutEdges
    meet its lists. *)
Definition Seam (idx : AdjacencyIndex) (found all : list (string * list Edge)) (edgeID : string)
    : result SeamError SeamResult :=
  match FindEdgeByID found edgeID with
  | None => Err (EEdgeNotFound edgeID)
  | Some e =>
      let '(producerEdges, consumerEdges, channel, expanded) := seam_edges idx all e in
      match seamSidesFromEdges idx producerEdges true, seamSidesFromEdges idx consumerEdges false with
      | Some producers, Some consumers =>
          Ok (mkSeam channel (ed_VerificationState e) expanded (ed_Sources e) producers consumers)
      | _, _ => Err ESeamPanic
      end
  end.
