(* ===== verification/GrSeamSpec.v ===== *)
(** What a seam lists: every participant of the channel, and for each one a
    longest chain, as far as the walk looks. *)
From S2P Require Import Prelude.
From S2P Require Import GoStrings.
From S2P Require Import GrModel.
From S2P Require Import GrFlows.
From S2P Require Import GrPath.
From S2P Require Import GrFlowsSpec.
From S2P Require Import GrSeam.

(** ** Chains *)

Section chains.
Context (idx : AdjacencyIndex) (dir from : string).

Definition follows_dir (x : string) (e : Edge) : Prop :=
  e ∈ edges_dir idx dir x /\ isFlowEdge (ed_Type e) = true /\ is_Some (Nodes idx !! next_dir dir e).

Abbreviation path := (simple_path follows_dir (next_dir dir) from).
Abbreviation nodes := (nodes_along (next_dir dir) from).
Abbreviation max_path := (maximal follows_dir (next_dir dir) from).

Definition is_best (b : best_chain) : Prop :=
  exists es y, b = mkBest (nodes es) es /\ max_path es y /\ length es <= 200.

(** The walk below [es] has kept the best chain it met, and met them all. *)
Record improves (es : list Edge) (b b' : best_chain) : Prop := {
  imp_best : b' = b \/ is_best b';
  imp_mono : length (b_nodes b) <= length (b_nodes b');
  imp_all es' y : max_path (es ++ es') y -> length (es ++ es') <= 200 ->
    S (length (es ++ es')) <= length (b_nodes b')
}.

Lemma elem_of_flow_edges x e : e ∈ flow_edges idx dir x <-> e ∈ edges_dir idx dir x /\ isFlowEdge (ed_Type e) = true.
Proof. unfold flow_edges. rewrite elem_of_sort_slice, !list_elem_of_In, filter_In. done. Qed.

Definition try_edge (fuel : nat) (es : list Edge) (st : bool * best_chain) (e : Edge) : bool * best_chain :=
  let '(extended, best) := st in
  let next := next_dir dir e in
  if decide (next ∈ (list_to_set (nodes es) : gset string)) then (extended, best)
  else
    match Nodes idx !! next with
    | None => (extended, best)
    | Some _ => (true, walk fuel idx dir (nodes es ++ [next]) (es ++ [e])
                         ({[next]} ∪ list_to_set (nodes es)) next best)
    end.

Section step.
Context (fuel : nat) (es : list Edge) (x : string).
Hypothesis Hpath : path es x.
Hypothesis IH : forall e best, follows_dir x e -> next_dir dir e ∉ nodes es ->
  improves (es ++ [e]) best (walk fuel idx dir (nodes (es ++ [e])) (es ++ [e])
    (list_to_set (nodes (es ++ [e]))) (next_dir dir e) best).

Definition takes (e : Edge) : Prop := follows_dir x e /\ next_dir dir e ∉ nodes es.

Lemma try_edge_spec e ext best : e ∈ flow_edges idx dir x ->
  let st := try_edge fuel es (ext, best) e in
  (fst st = true <-> ext = true \/ takes e) /\
  (snd st = best \/ is_best (snd st)) /\
  length (b_nodes best) <= length (b_nodes (snd st)) /\
  (takes e -> improves (es ++ [e]) best (snd st)).
Proof.
  intros He%elem_of_flow_edges. unfold try_edge, takes, follows_dir.
  case_decide as Hon; rewrite elem_of_list_to_set in Hon.
  { cbn. split_and!; (tauto || lia). }
  destruct (Nodes idx !! next_dir dir e) as [n|] eqn:En; cbn [fst snd].
  - assert (Hf : follows_dir x e) by (unfold follows_dir; rewrite En; naive_solver).
    replace ({[next_dir dir e]} ∪ list_to_set (nodes es)) with
      (list_to_set (nodes (es ++ [e])) : gset string);
      [|rewrite nodes_along_snoc, list_to_set_app_L; cbn; set_solver].
    rewrite <- nodes_along_snoc. destruct (IH e best Hf Hon) as [H1 H2 H3].
    split_and!; try done; naive_solver.
  - assert (~ is_Some (@None Node)) by (by intros [? ?]). split_and!; (tauto || lia).
Qed.

Lemma try_edges_spec cs ext best : (forall e, e ∈ cs -> e ∈ flow_edges idx dir x) ->
  let st := fold_left (try_edge fuel es) cs (ext, best) in
  (fst st = true <-> ext = true \/ exists e, e ∈ cs /\ takes e) /\
  (snd st = best \/ is_best (snd st)) /\
  length (b_nodes best) <= length (b_nodes (snd st)) /\
  (forall e es' y, e ∈ cs -> takes e -> max_path (es ++ e :: es') y -> length (es ++ e :: es') <= 200 ->
     S (length (es ++ e :: es')) <= length (b_nodes (snd st))).
Proof.
  revert ext best. induction cs as [|c cs IHcs]; intros ext best Hcs; cbn [fold_left].
  { cbn. split_and!; [|by left|done|intros e es' y He; by apply elem_of_nil in He].
    split; [tauto|]. intros [|(e & He & _)]; [done|by apply elem_of_nil in He]. }
  destruct (try_edge_spec c ext best) as (A1 & A2 & A3 & A4); [apply Hcs; left|].
  destruct (try_edge fuel es (ext, best) c) as [ext1 best1]. cbn [fst snd] in *.
  destruct (IHcs ext1 best1) as (B1 & B2 & B3 & B4); [intros e He; apply Hcs; by right|].
  split_and!.
  - rewrite B1, A1. setoid_rewrite elem_of_cons. naive_solver.
  - destruct B2 as [->|]; [|by right]. destruct A2; [by left|by right].
  - lia.
  - intros e es' y [->|He]%elem_of_cons Ht Hm Hl; [|by eapply B4].
    replace (es ++ c :: es') with ((es ++ [c]) ++ es') in * by by rewrite <- app_assoc.
    etrans; [by eapply (imp_all _ _ _ (A4 Ht))|done].
Qed.
End step.

Lemma walk_unfold fuel es x best :
  walk (S fuel) idx dir (nodes es) es (list_to_set (nodes es)) x best =
  let st := fold_left (try_edge fuel es) (flow_edges idx dir x) (false, best) in
  if negb (fst st) && (length (b_nodes (snd st)) <? length (nodes es)) then mkBest (nodes es) es else snd st.
Proof.
  transitivity (let '(extended, b) := fold_left (try_edge fuel es) (flow_edges idx dir x) (false, best) in
    if negb extended && (length (b_nodes b) <? length (nodes es)) then mkBest (nodes es) es else b);
    [reflexivity|by destruct (fold_left _ _ _)].
Qed.

Lemma walk_improves fuel es x best : path es x -> length es + fuel = 201 ->
  improves es best (walk fuel idx dir (nodes es) es (list_to_set (nodes es)) x best).
Proof.
  revert es x best. induction fuel as [|fuel IH]; intros es x best Hp Hl.
  { split; [by left|done|]. intros es' y _ H. rewrite length_app in H. lia. }
  assert (IHe : forall e b, follows_dir x e -> next_dir dir e ∉ nodes es ->
    improves (es ++ [e]) b (walk fuel idx dir (nodes (es ++ [e])) (es ++ [e])
      (list_to_set (nodes (es ++ [e]))) (next_dir dir e) b)).
  { intros e b He Hn. apply IH; [by apply (sp_snoc es x)|]. rewrite length_app. cbn. lia. }
  rewrite walk_unfold.
  destruct (try_edges_spec fuel es x Hp IHe (flow_edges idx dir x) false best (fun e H => H)) as (H1 & H2 & H3 & H4).
  set (st := fold_left _ _ _) in *. destruct st as [ext b]. cbn [fst snd] in *. cbn zeta.
  assert (Hflow : forall e, follows_dir x e -> e ∈ flow_edges idx dir x).
  { intros e (He & Hf & _). by apply elem_of_flow_edges. }
  assert (Hend : forall es' y, max_path (es ++ es') y -> length (es ++ es') <= 200 ->
    S (length (es ++ es')) <= length (b_nodes b) \/ ext = false /\ es' = []).
  { intros es' y Hm Hlen. destruct es' as [|e es'].
    - right. split; [|done]. destruct ext; [|done]. exfalso.
      destruct (proj1 H1 eq_refl) as [|(e & _ & Hf & Hn)]; [done|]. rewrite app_nil_r in Hm.
      destruct Hm as [Hm Hmax]. rewrite (simple_end_unique _ _ _ Hm Hp) in *. by apply Hn, Hmax.
    - left. assert (Ht : takes es x e).
      { destruct Hm as [Hm _]. apply simple_middle in Hm as (z & Hz & Hf & Hn).
        by rewrite (simple_end_unique _ _ _ Hz Hp) in *. }
      apply (H4 e es' y); [apply Hflow, Ht|done..]. }
  assert (Hself : ext = false -> max_path es x).
  { intros ->. split; [done|]. intros e Hf. destruct (decide (next_dir dir e ∈ nodes es)) as [|Hn]; [done|].
    enough (false = true) by done. apply H1. right. exists e. split; [by apply Hflow|done]. }
  destruct ext; cbn [negb andb].
  { split; [done|done|]. intros es' y Hm Hlen. by destruct (Hend _ _ Hm Hlen) as [|[]]. }
  destruct (length (b_nodes b) <? length (nodes es)) eqn:E;
    [apply Nat.ltb_lt in E|apply Nat.ltb_ge in E]; split; cbn [b_nodes]; try done; try lia.
  - right. exists es, x. split_and!; [done|by apply Hself|lia].
  - intros es' y Hm Hlen. rewrite length_nodes_along in *.
    destruct (Hend _ _ Hm Hlen) as [|[_ ->]]; [lia|]. rewrite app_nil_r. lia.
  - intros es' y Hm Hlen. rewrite length_nodes_along in *.
    destruct (Hend _ _ Hm Hlen) as [|[_ ->]]; [lia|]. rewrite app_nil_r. lia.
Qed.

(** The best chain of a node: the longest of the maximal simple paths of at
    most 200 edges, and nothing when there is none. *)
Definition best_of (b : best_chain) : Prop :=
  (b = mkBest [] [] \/ is_best b) /\
  forall es y, max_path es y -> length es <= 200 -> S (length es) <= length (b_nodes b).

Lemma nodes_along_start : list_to_set (nodes []) = ({[from]} : gset string).
Proof. cbn. set_solver. Qed.

Lemma walk_best fuel : fuel = 201 -> best_of (walk fuel idx dir [from] [] {[from]} from (mkBest [] [])).
Proof.
  intros Hf.
  assert (H : improves [] (mkBest [] []) (walk fuel idx dir (nodes []) [] (list_to_set (nodes [])) from (mkBest [] []))).
  { apply walk_improves; [apply sp_nil|done]. }
  rewrite nodes_along_start in H.
  destruct H as [H1 _ H3]. split; [exact H1|]. intros es y. apply (H3 es y).
Qed.

Lemma best_from_best : best_of (best_from idx dir from).
Proof. unfold best_from. by apply walk_best. Qed.

(** Every simple path is within a maximal one, when their lengths are bounded. *)
Lemma maximal_above bound es x : (forall es' y, path es' y -> length es' <= bound) -> path es x ->
  exists es' y, max_path (es ++ es') y.
Proof.
  intros Hb. remember (bound - length es) as d eqn:Hd. revert es x Hd.
  induction d as [d IH] using lt_wf_ind; intros es x Hd Hp.
  destruct (decide (Exists (fun e => is_Some (Nodes idx !! next_dir dir e) /\ next_dir dir e ∉ nodes es)
              (flow_edges idx dir x))) as [He|He].
  - apply Exists_exists in He as (e & He & Hs & Hn). apply elem_of_flow_edges in He.
    assert (Hp' : path (es ++ [e]) (next_dir dir e)) by (apply (sp_snoc es x); unfold follows_dir; tauto).
    pose proof (Hb _ _ Hp') as Hlen. rewrite length_app in Hlen. cbn in Hlen.
    destruct (IH (bound - length (es ++ [e]))) with (es := es ++ [e]) (x := next_dir dir e)
      as (es' & y & Hm); [rewrite length_app; cbn; lia|done|done|].
    exists (e :: es'), y. by rewrite <- app_assoc in Hm.
  - exists [], x. rewrite app_nil_r. split; [done|]. intros e (H1 & H2 & H3).
    destruct (decide (next_dir dir e ∈ nodes es)) as [|Hn]; [done|]. destruct He.
    apply Exists_exists. exists e. by rewrite elem_of_flow_edges.
Qed.
End chains.

(** A simple path of flow edges from a node in a direction. *)
Abbreviation chain_path idx dir from := (simple_path (follows_dir idx dir) (next_dir dir) from).

(** The chain as it is read: towards the node when walked backwards. *)
Definition flow_order {A} (dir : string) (l : list A) : list A := if is_in dir then rev l else l.

Lemma longestChain_best idx id dir : wf_index idx -> is_Some (Nodes idx !! id) ->
  let b := best_from idx dir id in
  exists hops, longestChain idx id dir = Some hops /\
    map fh_NodeID hops = (if length (b_nodes b) <=? 1 then [] else flow_order dir (b_nodes b)) /\
    map fh_EdgeType hops = (if length (b_nodes b) <=? 1 then [] else "" :: map ed_Type (flow_order dir (b_edges b))).
Proof.
  intros W Hid b. unfold longestChain. destruct (best_from_best idx dir id) as [Hb _]. fold b in Hb |- *.
  destruct (length (b_nodes b) <=? 1) eqn:E; [by exists []|].
  destruct Hb as [Hb|(es & y & Hb & [Hp _] & _)]; rewrite Hb in *; [done|]. cbn [b_nodes b_edges].
  assert (Hall : forall i, i ∈ nodes_along (next_dir dir) id es -> is_Some (Nodes idx !! i)).
  { eapply simple_nodes; [|exact Hp|done]. by intros ? ? (_ & _ & ?). }
  unfold flow_order. destruct (is_in dir).
  - apply pathToFlowHops_some; [done|by rewrite !length_rev, length_nodes_along|].
    intros i. rewrite list_elem_of_In, <- in_rev, <- list_elem_of_In. apply Hall.
  - apply pathToFlowHops_some; [done|by rewrite length_nodes_along|done].
Qed.

(** The chain of a node, itself where there is no other: along the longest of
    the simple paths of flow edges from it that no edge continues and that
    have at most 200 edges, read in flow order; of no edge at all where each
    of those paths has more.  With no path of more than 200 edges it is the
    longest of all the simple paths. *)
Definition longest_chain (idx : AdjacencyIndex) (dir id : string) (chain : list FlowHop) : Prop :=
  let path := chain_path idx dir id in
  let ended es y := maximal (follows_dir idx dir) (next_dir dir) id es y in
  exists es,
    ((exists y, ended es y) /\ length es <= 200 \/
     es = [] /\ forall es' y', ended es' y' -> 200 < length es') /\
    (forall es' y', ended es' y' -> length es' <= 200 -> length es' <= length es) /\
    ((forall es' y', path es' y' -> length es' <= 200) -> forall es' y', path es' y' -> length es' <= length es) /\
    map fh_NodeID chain = flow_order dir (nodes_along (next_dir dir) id es) /\
    map fh_EdgeType chain = "" :: map ed_Type (flow_order dir es).

Lemma side_chain idx id dir n : wf_index idx -> Nodes idx !! id = Some n ->
  exists hops, longestChain idx id dir = Some hops /\
    longest_chain idx dir id (match hops with [] => [flowHopFromNode n] | _ :: _ => hops end).
Proof.
  intros W Hn. destruct (longestChain_best idx id dir W ltac:(by rewrite Hn)) as (hops & Hl & Hids & Hty).
  exists hops. split; [done|]. destruct (best_from_best idx dir id) as [Hb Hmax].
  assert (Hself : flow_order dir [id] = [id] /\ forall A, flow_order dir (@nil A) = [])
    by (unfold flow_order; by destruct (is_in dir)).
  destruct Hself as [Hself Hnil].
  assert (Hall : forall es : list Edge, (forall es' y', maximal (follows_dir idx dir) (next_dir dir) id es' y' ->
      length es' <= 200 -> length es' <= length es) ->
    (forall es' y', chain_path idx dir id es' y' -> length es' <= 200) ->
    forall es' y', chain_path idx dir id es' y' -> length es' <= length es).
  { intros es Hm Hbound es' y' Hp. destruct (maximal_above idx dir id 200 es' y' Hbound Hp) as (es2 & z & Hz).
    pose proof (Hm _ _ Hz (Hbound _ _ (proj1 Hz))) as H. rewrite length_app in H. lia. }
  destruct Hb as [Hb|(es & y & Hb & Hm & Hlen)]; rewrite Hb in *; cbn [b_nodes b_edges length] in *.
  - assert (Hno : forall es' y', maximal (follows_dir idx dir) (next_dir dir) id es' y' -> 200 < length es').
    { intros es' y' Hm'. destruct (decide (length es' <= 200)) as [Hle|]; [|lia].
      specialize (Hmax es' y' Hm' Hle). lia. }
    exists []. destruct hops as [|h hops]; [|done]. rewrite Hnil. cbn [map].
    split; [by right|]. assert (Hm : forall es' y', maximal (follows_dir idx dir) (next_dir dir) id es' y' ->
      length es' <= 200 -> length es' <= length (@nil Edge)) by (intros es' y' H1 H2; specialize (Hno es' y' H1); lia).
    split; [exact Hm|]. split; [by apply Hall|]. unfold nodes_along. cbn [map]. rewrite Hself. cbn. by rewrite (wf_nodes _ W _ _ Hn).
  - exists es. assert (Hm' : forall es' y', maximal (follows_dir idx dir) (next_dir dir) id es' y' ->
      length es' <= 200 -> length es' <= length es).
    { intros es' y' H1 H2. specialize (Hmax es' y' H1 H2). rewrite length_nodes_along in Hmax. lia. }
    split; [left; split; [by exists y|done]|]. split; [exact Hm'|]. split; [by apply Hall|].
    rewrite length_nodes_along in *. destruct es as [|e es]; cbn [length Nat.leb] in *.
    + destruct hops; [|done]. unfold nodes_along. cbn [map]. rewrite Hself, Hnil. cbn. by rewrite (wf_nodes _ W _ _ Hn).
    + destruct hops as [|h hops]; [done|]. done.
Qed.

(** When no simple path of flow edges from a node has more than 200 edges,
    longestChain returns a longest one, read in flow order (the empty chain
    when the node has no continuation). *)
Theorem longestChain_longest idx id dir :
  wf_index idx -> is_Some (Nodes idx !! id) ->
  (forall es y, chain_path idx dir id es y -> length es <= 200) ->
  exists es y hops, chain_path idx dir id es y /\
    (forall es' y', chain_path idx dir id es' y' -> length es' <= length es) /\
    longestChain idx id dir = Some hops /\
    map fh_NodeID hops = match es with [] => [] | _ :: _ => flow_order dir (nodes_along (next_dir dir) id es) end.
Proof.
  intros W Hid Hbound. destruct (longestChain_best idx id dir W Hid) as (hops & Hl & Hh & _).
  destruct (best_from_best idx dir id) as [Hb Hmax].
  assert (Hlong : forall es y, chain_path idx dir id es y -> S (length es) <= length (b_nodes (best_from idx dir id))).
  { intros es y Hp. destruct (maximal_above idx dir id 200 es y Hbound Hp) as (es' & z & Hm).
    pose proof (Hmax _ _ Hm (Hbound _ _ (proj1 Hm))) as H. rewrite length_app in H. lia. }
  pose proof (Hlong [] id (sp_nil _ _ _)) as H0.
  destruct Hb as [Hb|(es & y & Hb & [Hp _] & _)]; rewrite Hb in *; cbn [b_nodes length] in *; [lia|].
  exists es, y, hops. split_and!; [done| |done|].
  - intros es' y' Hp'. pose proof (Hlong _ _ Hp') as H. rewrite length_nodes_along in H. lia.
  - rewrite Hh, length_nodes_along. by destruct es.
Qed.

(** ** The cut-off and the ties *)

(** A line of [n] edges. *)
Definition line_edge (i : nat) : Edge :=
  flow_edge EdgeTypeCalls (itoa (Z.of_nat i)) (itoa (Z.of_nat (S i))).
Definition line_index (n : nat) : AdjacencyIndex :=
  BuildIndex (map (fun i => flow_node (itoa (Z.of_nat i))) (seq 0 (S n))) (map line_edge (seq 0 n)).

(** A walk cut off by its depth keeps nothing: the chain of a node with 200
    edges below it is whole, that of a node with 201 edges below it is empty. *)
Lemma longestChain_deep_empty :
  length <$> longestChain (line_index 200) "0" "out" = Some 201 /\
  longestChain (line_index 201) "0" "out" = Some [].
Proof. split; vm_compute; reflexivity. Qed.

(** Ties go to the first chain met, that is by the types of the edges before
    the nodes, not to the least node sequence. *)
Lemma longestChain_ties_by_edge_type :
  map fh_NodeID <$> longestChain (BuildIndex (map flow_node ["a"; "b"; "c"])
    [flow_edge EdgeTypeRenders "a" "b"; flow_edge EdgeTypeCalls "a" "c"]) "a" "out" = Some ["a"; "c"].
Proof. vm_compute. reflexivity. Qed.

Lemma small_paths (bound : nat) idx dir id :
  size (Nodes idx) <= S bound -> is_Some (Nodes idx !! id) ->
  forall es y, chain_path idx dir id es y -> length es <= bound.
Proof.
  intros Hs Hid es y Hp. pose proof (simple_NoDup _ _ Hp) as Hn.
  assert (Hsub : forall i, i ∈ nodes_along (next_dir dir) id es -> i ∈ elements (dom (Nodes idx))).
  { intros i Hi. rewrite elem_of_elements, elem_of_dom. revert i Hi.
    eapply simple_nodes; [|exact Hp|done]. by intros ? ? (_ & _ & ?). }
  apply NoDup_submseteq in Hsub; [|done]. apply submseteq_length in Hsub.
  rewrite length_nodes_along in Hsub. change (length (elements (dom (Nodes idx)))) with (size (dom (Nodes idx))) in Hsub.
  rewrite size_dom in Hsub. lia.
Qed.

Lemma longestChain_longest_witness :
  (map fh_NodeID <$> longestChain flow_index "d" "in" = Some ["c"; "a"; "b"; "d"]) /\
  exists es y hops, chain_path flow_index "in" "d" es y /\ longestChain flow_index "d" "in" = Some hops /\
    map fh_NodeID hops = match es with [] => [] | _ :: _ => flow_order "in" (nodes_along (next_dir "in") "d" es) end.
Proof.
  split; [vm_compute; reflexivity|].
  assert (Hd : is_Some (Nodes flow_index !! "d")) by (exists (flow_node "d"); vm_compute; reflexivity).
  destruct (longestChain_longest flow_index "d" "in") as (es & y & hops & H1 & _ & H2 & H3).
  - apply wf_BuildIndex.
  - exact Hd.
  - apply (small_paths 200); [apply (Nat.leb_le); vm_compute; reflexivity|exact Hd].
  - exists es, y, hops. split; [exact H1|]. split; [exact H2|exact H3].
Defined.

(** ** What a seam lists *)

(** The edges of [e]'s channel, as producers' or as consumers' edges. *)
Definition in_channel (idx : AdjacencyIndex) (e : Edge) (fromSide : bool) (e' : Edge) : Prop :=
  if decide (channel_key e = "") then
    let at_node id := has_edge idx e' /\ (if fromSide then ed_To e' else ed_From e') = id in
    match is_channel idx (ed_From e) with
    | Some _ => at_node (ed_From e)
    | None => match is_channel idx (ed_To e) with Some _ => at_node (ed_To e) | None => e' = e end
    end
  else has_edge idx e' /\ channel_key e' = channel_key e.

(** Each participant that is a node, once, in order, with its longest chain. *)
Record sides_ok (idx : AdjacencyIndex) (e : Edge) (fromSide : bool) (sides : list SeamSide) : Prop := {
  so_sorted : StronglySorted String.le (map (n_ID ∘ sd_Node) sides);
  so_NoDup : NoDup (map (n_ID ∘ sd_Node) sides);
  so_all id : id ∈ map (n_ID ∘ sd_Node) sides <->
    is_Some (Nodes idx !! id) /\ exists e', in_channel idx e fromSide e' /\ side_end fromSide e' = id;
  so_side s : s ∈ sides ->
    Nodes idx !! n_ID (sd_Node s) = Some (sd_Node s) /\
    longest_chain idx (if fromSide then "in" else "out") (n_ID (sd_Node s)) (sd_Chain s)
}.

Lemma add_side_spec idx fromSide edges seen ids :
  (forall i, i ∈ seen <-> i ∈ ids) -> NoDup ids ->
  let '(seen', ids') := fold_left (add_side idx fromSide) edges (seen, ids) in
  NoDup ids' /\
  forall i, i ∈ ids' <-> i ∈ ids \/ is_Some (Nodes idx !! i) /\ exists e, e ∈ edges /\ side_end fromSide e = i.
Proof.
  revert seen ids. induction edges as [|e edges IH]; intros seen ids Hs Hn; cbn [fold_left].
  { split; [done|]. intros i. split; [by left|]. intros [|(_ & e & He & _)]; [done|by apply elem_of_nil in He]. }
  unfold add_side at 2. case_decide as Hin.
  - specialize (IH seen ids Hs Hn). destruct (fold_left _ _ _) as [s' i']. destruct IH as [H1 H2].
    split; [done|]. intros i. rewrite H2. setoid_rewrite elem_of_cons. apply Hs in Hin. naive_solver.
  - destruct (Nodes idx !! side_end fromSide e) as [n|] eqn:En.
    + specialize (IH ({[side_end fromSide e]} ∪ seen) (ids ++ [side_end fromSide e])).
      destruct (fold_left _ _ _) as [s' i']. destruct IH as [H1 H2].
      * intros i. rewrite elem_of_union, elem_of_singleton, elem_of_app, list_elem_of_singleton, Hs. tauto.
      * apply NoDup_app. split_and!; [done| |apply NoDup_singleton]. intros i Hi.
        rewrite list_elem_of_singleton. intros ->. by apply Hin, Hs.
      * split; [done|]. intros i. rewrite H2, elem_of_app, list_elem_of_singleton. setoid_rewrite elem_of_cons.
        assert (is_Some (Nodes idx !! side_end fromSide e)) by (by rewrite En). naive_solver.
    + specialize (IH seen ids Hs Hn). destruct (fold_left _ _ _) as [s' i']. destruct IH as [H1 H2].
      split; [done|]. intros i. rewrite H2. setoid_rewrite elem_of_cons.
      assert (~ is_Some (Nodes idx !! side_end fromSide e)) by (rewrite En; by intros [? ?]). naive_solver.
Qed.

Lemma side_ids_spec idx edges fromSide :
  StronglySorted String.le (side_ids idx edges fromSide) /\ NoDup (side_ids idx edges fromSide) /\
  forall i, i ∈ side_ids idx edges fromSide <->
    is_Some (Nodes idx !! i) /\ exists e, e ∈ edges /\ side_end fromSide e = i.
Proof.
  unfold side_ids. pose proof (add_side_spec idx fromSide edges ∅ []) as H.
  destruct (fold_left _ _ _) as [seen ids]. destruct H as [H1 H2]; [set_solver|constructor|]. cbn [snd].
  split_and!; [apply (StronglySorted_merge_sort String.le)| |].
  - unfold sort_strings. by rewrite merge_sort_Permutation.
  - intros i. rewrite elem_of_sort_strings, H2, elem_of_nil. tauto.
Qed.

Lemma seamSides_ok idx e edges fromSide : wf_index idx ->
  (forall e', e' ∈ edges <-> in_channel idx e fromSide e') ->
  exists sides, seamSidesFromEdges idx edges fromSide = Some sides /\ sides_ok idx e fromSide sides.
Proof.
  intros W Hch. destruct (side_ids_spec idx edges fromSide) as (S1 & S2 & S3). unfold seamSidesFromEdges.
  set (ids := side_ids idx edges fromSide) in *.
  assert (Hside : forall i, i ∈ ids -> exists n chain, Nodes idx !! i = Some n /\ n_ID n = i /\
    longest_chain idx (if fromSide then "in" else "out") i chain /\
    side_of idx fromSide i = Some (mkSide n chain)).
  { intros i Hi. apply S3 in Hi as [[n En] _].
    destruct (side_chain idx i (if fromSide then "in" else "out") n W En) as (chain & Hc & Hlong).
    eexists n, _. split_and!; [done|by apply (wf_nodes _ W)|exact Hlong|]. unfold side_of.
    by rewrite En; cbn; rewrite Hc; cbn. }
  assert (Hm : exists sides, mapM (side_of idx fromSide) ids = Some sides /\ map (n_ID ∘ sd_Node) sides = ids /\
    forall s, s ∈ sides -> exists i, i ∈ ids /\ side_of idx fromSide i = Some s).
  { clear S1 S2 S3. induction ids as [|i ids IH]; [exists []; split_and!; [done..|]; intros s Hs; by apply elem_of_nil in Hs|].
    destruct (Hside i ltac:(left)) as (n & chain & _ & Hid & _ & Hs).
    destruct IH as (sides & Hm & Hids & Hall); [intros; apply Hside; by right|].
    eexists (_ :: sides). cbn. rewrite Hs. cbn. rewrite Hm. cbn.
    split; [done|]. split; [unfold compose; cbn; by rewrite Hid, <- Hids|].
    intros s [->|Hin]%elem_of_cons; [exists i; split; [left|done]|].
    destruct (Hall s Hin) as (j & Hj & Hjs). exists j. split; [by right|done]. }
  destruct Hm as (sides & Hm & Hids & Hall). exists sides. split; [done|]. split; rewrite ?Hids; try done.
  - intros id. rewrite S3. by setoid_rewrite Hch.
  - intros s Hs. destruct (Hall s Hs) as (i & Hi & Hsi). destruct (Hside i Hi) as (n & chain & H1 & H2 & H3 & H4).
    rewrite H4 in Hsi. injection Hsi as <-. cbn. by rewrite H2.
Qed.

Lemma FindEdgeByID_spec idx lists id : wf_index idx -> lists ≡ₚ map_to_list (OutEdges idx) ->
  match FindEdgeByID lists id with
  | Some e => has_edge idx e /\ ed_ID e = id
  | None => forall e, has_edge idx e -> ed_ID e <> id
  end.
Proof.
  intros W Hp. unfold FindEdgeByID.
  assert (Hin : forall e, In e (concat (map snd lists)) <-> has_edge idx e).
  { intros e. rewrite <- list_elem_of_In, <- (elem_of_lists _ _ W), !elem_of_concat_snd. by setoid_rewrite Hp. }
  destruct (List.find _ _) as [e|] eqn:E.
  - apply find_some in E as [He Hid]. split; [by apply Hin|by apply String.eqb_eq].
  - intros e He Hid. apply Hin in He. pose proof (find_none _ _ E e He) as Hn. cbv beta in Hn. by rewrite Hid, String.eqb_refl in Hn.
Qed.

Lemma seam_edges_spec idx lists e : wf_index idx -> unique_ids idx -> has_edge idx e ->
  lists ≡ₚ map_to_list (OutEdges idx) ->
  forall (fromSide : bool) e',
    e' ∈ (if fromSide then (seam_edges idx lists e).1.1.1 else (seam_edges idx lists e).1.1.2) <->
    in_channel idx e fromSide e'.
Proof.
  intros W U He Hp fromSide e'. unfold seam_edges, in_channel.
  destruct (str_eqb (channel_key e) "") eqn:E.
  - apply String.eqb_eq in E. rewrite decide_True by done. cbn [negb].
    assert (Hdir : forall id, e' ∈ (if fromSide then in_of idx id else out_of idx id) <->
      has_edge idx e' /\ (if fromSide then ed_To e' else ed_From e') = id).
    { intros id. destruct fromSide.
      - rewrite <- (elem_of_edges_dir idx "in" id e' W). done.
      - rewrite <- (elem_of_edges_dir idx "out" id e' W). done. }
    destruct (is_channel idx (ed_From e)); [destruct fromSide; apply Hdir|].
    destruct (is_channel idx (ed_To e)); [destruct fromSide; apply Hdir|].
    destruct fromSide; apply list_elem_of_singleton.
  - apply String.eqb_neq in E. rewrite decide_False by done. cbn [negb fst snd].
    rewrite (AllEdges_order_independent _ _ W U Hp), <- (proj2 (AllEdges_spec _ W U)).
    destruct fromSide; rewrite !list_elem_of_In, filter_In, String.eqb_eq; done.
Qed.

(** What a channel is called: its key, or the label of its node, or else the
    label or the type of the edge. *)
Definition channel_name (idx : AdjacencyIndex) (e : Edge) : string :=
  if decide (channel_key e = "") then
    match is_channel idx (ed_From e), is_channel idx (ed_To e) with
    | Some n, _ | None, Some n => channelLabel n
    | None, None => if decide (ed_Label e = "") then ed_Type e else ed_Label e
    end
  else channel_key e.

Lemma seam_channel idx lists e : (seam_edges idx lists e).1.2 = channel_name idx e.
Proof.
  unfold seam_edges, channel_name. destruct (Stdlib.Strings.String.eqb_spec (channel_key e) "") as [E|E].
  - rewrite decide_True by done. cbn [negb].
    destruct (is_channel idx (ed_From e)); [done|]. destruct (is_channel idx (ed_To e)); [done|]. cbn.
    by destruct (Stdlib.Strings.String.eqb_spec (ed_Label e) ""), (decide (ed_Label e = "")).
  - by rewrite decide_False.
Qed.

(** C39: Seam answers for exactly the IDs of edges of the index, whatever the
    order in which the map yields its lists; the answer carries the edge's own
    evidence and its channel's name, is marked expanded unless the edge
    belongs to no channel, and lists every producer and every consumer of the
    channel that is a node, each once, in order, with the longest chain of at
    most 200 edges that ends, respectively starts, at it. *)
Theorem Seam_complete idx found all id : wf_index idx -> unique_ids idx ->
  found ≡ₚ map_to_list (OutEdges idx) -> all ≡ₚ map_to_list (OutEdges idx) ->
  match Seam idx found all id with
  | Err err => err = EEdgeNotFound id /\ forall e, has_edge idx e -> ed_ID e <> id
  | Ok s => exists e, has_edge idx e /\ ed_ID e = id /\
      sm_Sources s = ed_Sources e /\ sm_VerificationState s = ed_VerificationState e /\
      sm_Channel s = channel_name idx e /\
      (sm_Expanded s = false <->
         channel_key e = "" /\ is_channel idx (ed_From e) = None /\ is_channel idx (ed_To e) = None) /\
      sides_ok idx e true (sm_Producers s) /\ sides_ok idx e false (sm_Consumers s)
  end.
Proof.
  intros W U Hf Ha. unfold Seam. pose proof (FindEdgeByID_spec idx found id W Hf) as He.
  destruct (FindEdgeByID found id) as [e|]; [|done]. destruct He as [He Hid].
  pose proof (seam_edges_spec idx all e W U He Ha) as Hs.
  assert (Hexp : (seam_edges idx all e).2 = false <->
    channel_key e = "" /\ is_channel idx (ed_From e) = None /\ is_channel idx (ed_To e) = None).
  { unfold seam_edges. destruct (str_eqb (channel_key e) "") eqn:E; cbn [negb].
    - apply String.eqb_eq in E. destruct (is_channel idx (ed_From e)), (is_channel idx (ed_To e)); cbn; naive_solver.
    - apply String.eqb_neq in E. cbn. naive_solver. }
  pose proof (seam_channel idx all e) as Hname.
  destruct (seam_edges idx all e) as [[[pe ce] ch] ex]. cbn [fst snd] in *.
  destruct (seamSides_ok idx e pe true W (Hs true)) as (ps & -> & Hps).
  destruct (seamSides_ok idx e ce false W (Hs false)) as (cs & -> & Hcs).
  exists e. done.
Qed.

Definition keyed (e : Edge) : Edge :=
  mkEdge (ed_ID e) (ed_From e) (ed_To e) (ed_Type e) "" "" "" "" {["channel_key" := "orders"]} [] "verified" "".
Definition seam_index : AdjacencyIndex :=
  BuildIndex (map flow_node ["a"; "b"; "c"; "d"])
    [keyed (flow_edge EdgeTypeCalls "b" "c"); keyed (flow_edge EdgeTypeCalls "a" "c");
     flow_edge EdgeTypeCalls "c" "d"].

Lemma Seam_complete_witness :
  let r := Seam seam_index (map_to_list (OutEdges seam_index)) (rev (map_to_list (OutEdges seam_index))) "ac" in
  ((fun s => (map (n_ID ∘ sd_Node) (sm_Producers s), map (map fh_NodeID ∘ sd_Chain) (sm_Consumers s))) <$> r =
     Ok (["a"; "b"], [["c"; "d"]])) /\
  exists s e, r = Ok s /\ has_edge seam_index e /\ ed_ID e = "ac" /\
    sides_ok seam_index e true (sm_Producers s).
Proof.
  cbn zeta. match goal with |- ?P /\ _ => assert (Hr : P) by (vm_compute; reflexivity) end.
  split; [exact Hr|].
  assert (W : wf_index seam_index) by apply wf_BuildIndex.
  assert (U : unique_ids seam_index) by (apply unique_ids_by_eval; [vm_compute; reflexivity|exact W]).
  pose proof (Seam_complete seam_index (map_to_list (OutEdges seam_index)) (rev (map_to_list (OutEdges seam_index))) "ac"
    W U (Permutation_refl _) (Permutation_sym (Permutation_rev _))) as H.
  destruct (Seam _ _ _ _) as [s|err]; [|discriminate Hr].
  destruct H as (e & H1 & H2 & _ & _ & _ & _ & H3 & _). exists s, e.
  split; [reflexivity|]. split; [exact H1|]. split; [exact H2|exact H3].
Defined.
