(* ===== verification/DeadCode.v ===== *)
(** The dead-code scan (internal/deadcode/deadcode.go): callables nothing
    invokes, values nothing reads, views nothing renders, types nothing names. *)
From S2P Require Import Prelude.
From S2P Require Import GoStrings.
From S2P Require Import Reach.
From S2P Require Import GrModel.
From S2P Require Import GrResolve.
From S2P Require Import GrFlows.

Record Item : Type := mkItem {
  i_ID : string; i_Label : string; i_Type : string; i_Service : string; i_File : string;
  i_Line : Z; i_EndLine : Z
}.
Record Result : Type := mkResult { Functions : list Item; Total : nat }.
Record Options : Type := mkOptions {
  o_Service : string; o_File : string; o_Transitive : bool; o_IncludeTypes : bool;
  o_UnresolvedRefs : list UnresolvedRef
}.

Definition item_of (n : Node) : Item :=
  mkItem (n_ID n) (n_Label n) (n_Type n) (n_Service n) (n_File n) (n_Line n) (n_EndLine n).

(** ** Edges that invoke, edges that name a type *)

Definition invokingEdgeTypes : gset EdgeType :=
  {[ EdgeTypeCalls; EdgeTypeSpawns; EdgeTypeRenders; EdgeTypeJobEnqueue; EdgeTypeJobPerform;
     EdgeTypeSidekiqEnqueue; EdgeTypeSidekiqPerform; EdgeTypeSubscribes; EdgeTypeDOMListen;
     EdgeTypeComponentImpl ]}.
Definition typeUseEdgeTypes : gset EdgeType :=
  {[ EdgeTypeUsesType; EdgeTypeInstantiates; EdgeTypeInherits; EdgeTypeImplements; EdgeTypeReturns;
     EdgeTypeConsumes; EdgeTypeResponseOf; EdgeTypeReferences ]}.

Definition invoking (e : Edge) : bool := bool_decide (ed_Type e ∈ invokingEdgeTypes).
Definition type_use (e : Edge) : bool := bool_decide (ed_Type e ∈ typeUseEdgeTypes).

(** The bridge from a generated twin function to its templ component. *)
Definition templ_bridge (e : Edge) : bool :=
  str_eqb (ed_Type e) EdgeTypeComponentImpl && str_eqb (meta_get (ed_Meta e) "via") "templ_generated".

Definition isGeneratedTemplTwin (idx : AdjacencyIndex) (n : Node) : bool :=
  str_eqb (n_Type n) NodeTypeFunction && HasSuffix (n_File n) "_templ.go" &&
  existsb templ_bridge (out_of idx (n_ID n)).

(** The range of hasCallerVisiting over the incoming edges of [id]; [visit] is
    the recursive call, [None] when its fuel is out. *)
Fixpoint scan_callers (visit : string -> gset string -> option (bool * gset string)) (id : string)
    (es : list Edge) (seen : gset string) : option (bool * gset string) :=
  match es with
  | [] => Some (false, seen)
  | e :: es' =>
      if negb (invoking e) then scan_callers visit id es' seen
      else if templ_bridge e then
        if decide (ed_From e ∈ seen) then scan_callers visit id es' seen
        else
          match visit (ed_From e) ({[id]} ∪ seen) with
          | Some (false, seen') => scan_callers visit id es' seen'
          | r => r
          end
      else Some (true, seen)
  end.

(** hasCallerVisiting: the answer and the set [seen] it leaves. *)
Fixpoint hasCallerVisiting (fuel : nat) (idx : AdjacencyIndex) (id : string) (seen : gset string)
    : option (bool * gset string) :=
  match fuel with
  | O => None
  | S fuel' => scan_callers (hasCallerVisiting fuel' idx) id (in_of idx id) seen
  end.

(** Each node is entered at most twice on the way down. *)
Definition caller_fuel (idx : AdjacencyIndex) : nat :=
  2 * S (length (concat (map snd (map_to_list (InEdges idx))))) + 2.

Definition hasCaller (idx : AdjacencyIndex) (id : string) : bool :=
  match hasCallerVisiting (caller_fuel idx) idx id ∅ with
  | Some (b, _) => b
  | None => false
  end.

Definition hasReader (idx : AdjacencyIndex) (id : string) : bool :=
  existsb (fun e => str_eqb (ed_Type e) EdgeTypeReads) (in_of idx id).
Definition hasTypeUse (idx : AdjacencyIndex) (id : string) : bool := existsb type_use (in_of idx id).
Definition hasRenderer (idx : AdjacencyIndex) (id : string) : bool :=
  existsb (fun e => str_eqb (ed_Type e) EdgeTypeRenders) (in_of idx id).

Definition isTypeDecl (t : NodeType) : bool :=
  str_eqb t NodeTypeStruct || str_eqb t NodeTypeInterface || str_eqb t NodeTypeTypeAlias.
Definition is_callable (t : NodeType) : bool :=
  str_eqb t NodeTypeFunction || str_eqb t NodeTypeMethod || str_eqb t NodeTypeComponent.

(** ** Reachability from the live roots *)

(** ClassifyEntrypoint accepts the node, or files it as a callback. *)
Definition spared_root (n : Node) : bool :=
  let '(_, skippedRootKind, ok) := ClassifyEntrypoint n in ok || str_eqb skippedRootKind "callback".

Definition reflect_dispatched (n : Node) : bool :=
  str_eqb (meta_get (n_Meta n) MetaReflectDispatched) "true".

Definition isLiveRoot (n : Node) : bool :=
  if is_callable (n_Type n) then spared_root n || IsTestFilePath (n_File n) || reflect_dispatched n
  else negb (isTypeDecl (n_Type n) || str_eqb (n_Type n) NodeTypeClass || str_eqb (n_Type n) NodeTypeVariable).

Definition live_succ (idx : AdjacencyIndex) (includeTypes : bool) (id : string) : list string :=
  map ed_To (List.filter (fun e => invoking e || (includeTypes && type_use e)) (out_of idx id)).

(** liveReachable; [order] is the order in which the map of nodes is ranged
    over. *)
Definition reach_fuel (idx : AdjacencyIndex) : nat :=
  size (Nodes idx) + length (concat (map snd (map_to_list (OutEdges idx)))).
Definition liveReachable (idx : AdjacencyIndex) (order : list (string * Node)) (includeTypes : bool)
    : gset string :=
  default ∅ (reach_from (live_succ idx includeTypes) (reach_fuel idx)
    (map fst (List.filter (fun p => isLiveRoot (snd p)) order))).

(** ** Rails views *)

Definition isRailsViewFile (file : string) : bool :=
  HasSuffix file ".erb" && Contains file "app/views/" && negb (Contains file "app/views/layouts/") &&
  negb (Contains (ToLower file) "mailer").

Definition route_key (service ctrlPath action : string) : string :=
  service +:+ String "000" ctrlPath +:+ "/" +:+ action.

(** The view a live Ruby handler renders when its action does not say. *)
Definition route_target (n : Node) : option string :=
  if negb (str_eqb (n_Type n) NodeTypeHTTPHandler) || negb (str_eqb (n_Language n) "ruby") then None
  else
    let action := TrimPrefix (meta_get (n_Meta n) "action") ":" in
    let resource := meta_get (n_Meta n) "resource" in
    if str_eqb action "" || str_eqb resource "" then None
    else
      let ns := meta_get (n_Meta n) "controller_module" in
      Some (route_key (n_Service n) (if str_eqb ns "" then resource else ns +:+ "/" +:+ resource) action).

Definition railsRouteTargets (order : list (string * Node)) : gset string :=
  list_to_set (omap (fun p => route_target (snd p)) order).

Record dynamicRenderTarget : Type := mkDyn { d_service : string; d_literal : string; d_exact : bool }.

Definition dyn_target (r : UnresolvedRef) : option dynamicRenderTarget :=
  if str_eqb (u_Kind r) "erb_render_dynamic" || str_eqb (u_Kind r) "erb_render_unresolved" then
    let exact := str_eqb (u_Kind r) "erb_render_unresolved" in
    let name := TrimPrefix (TrimPrefix (u_Name r) (String "034" "")) "'" in
    let '(name, exact) := match cut_first "#{" name with Some (a, _) => (a, false) | None => (name, exact) end in
    let name := TrimPrefix name "/" in
    if str_eqb name "" then None else Some (mkDyn (u_Service r) name exact)
  else None.
Definition railsDynamicRenderTargets (refs : list UnresolvedRef) : list dynamicRenderTarget := omap dyn_target refs.

(** railsViewIdentifier; path.Split cuts after the last slash. *)
Definition railsViewIdentifier (file : string) : string :=
  match cut_first "app/views/" file with
  | None => ""
  | Some (_, rel) =>
      let '(dir, base) := match cut_last "/" rel with Some (d, b) => (d, b) | None => ("", rel) end in
      let base := TrimSuffix base ".erb" in
      let base := match cut_last "." base with Some (b, _) => b | None => base end in
      dir +:+ "/" +:+ TrimPrefix base "_"
  end.

Definition dyn_hits (service ident : string) (t : dynamicRenderTarget) : bool :=
  str_eqb (d_service t) service &&
  (if d_exact t then str_eqb ident (d_literal t) else HasPrefix ident (d_literal t)).

Definition isDeadRailsView (idx : AdjacencyIndex) (n : Node) (liveRoutes : gset string)
    (dynTargets : list dynamicRenderTarget) : bool :=
  if hasRenderer idx (n_ID n) then false
  else
    let ident := railsViewIdentifier (n_File n) in
    if str_eqb ident "" then false
    else if decide (n_Service n +:+ String "000" (TrimPrefix ident "devise/") ∈ liveRoutes) then false
    else negb (existsb (dyn_hits (n_Service n) ident) dynTargets).

(** ** The scan *)

(** The callable predicate of the scan. *)
Definition unreached (idx : AdjacencyIndex) (opts : Options) (reachable : gset string) (id : string) : bool :=
  if o_Transitive opts then negb (bool_decide (id ∈ reachable)) else negb (hasCaller idx id).

Definition typeHasLiveMethod (idx : AdjacencyIndex) (opts : Options) (reachable : gset string) (id : string) : bool :=
  existsb (fun e =>
      str_eqb (ed_Type e) EdgeTypeContains &&
      match Nodes idx !! ed_To e with
      | Some m => (str_eqb (n_Type m) NodeTypeMethod || str_eqb (n_Type m) NodeTypeFunction) &&
                  negb (unreached idx opts reachable (ed_To e))
      | None => false
      end) (out_of idx id).

Definition dead_type (idx : AdjacencyIndex) (opts : Options) (reachable : gset string) (n : Node) : bool :=
  negb (IsTestFilePath (n_File n)) &&
  (if o_Transitive opts then negb (bool_decide (n_ID n ∈ reachable)) else negb (hasTypeUse idx (n_ID n))) &&
  negb (typeHasLiveMethod idx opts reachable (n_ID n)).

Definition dead_value (idx : AdjacencyIndex) (n : Node) : bool :=
  let scope := meta_get (n_Meta n) "scope" in
  (str_eqb scope "package" || str_eqb scope "module") && negb (IsTestFilePath (n_File n)) &&
  negb (hasReader idx (n_ID n)).

Definition dead_callable (idx : AdjacencyIndex) (opts : Options) (reachable : gset string) (n : Node) : bool :=
  negb (spared_root n) && negb (IsTestFilePath (n_File n)) && negb (reflect_dispatched n) &&
  negb (isGeneratedTemplTwin idx n) && unreached idx opts reachable (n_ID n).

Definition in_scope (opts : Options) (n : Node) : bool :=
  (str_eqb (o_Service opts) "" || str_eqb (n_Service n) (o_Service opts)) &&
  (str_eqb (o_File opts) "" || str_eqb (n_File n) (o_File opts)).

(** What the body of the loop decides for one node. *)
Definition flagged (idx : AdjacencyIndex) (opts : Options) (reachable : gset string)
    (liveRailsRoutes : gset string) (dynDispatches : list dynamicRenderTarget) (n : Node) : bool :=
  let isCallable := is_callable (n_Type n) in
  let isRailsView := str_eqb (n_Type n) NodeTypeFile && isRailsViewFile (n_File n) in
  let isType := o_IncludeTypes opts && isTypeDecl (n_Type n) in
  if negb isCallable && negb (str_eqb (n_Type n) NodeTypeVariable) && negb isRailsView && negb isType then false
  else if negb (in_scope opts n) then false
  else if isType then dead_type idx opts reachable n
  else if isRailsView then isDeadRailsView idx n liveRailsRoutes dynDispatches
  else if negb isCallable then dead_value idx n
  else dead_callable idx opts reachable n.

Definition item_less : Item -> Item -> bool :=
  less_by i_Service str_ltb (less_by i_File str_ltb (less_by i_Line Z.ltb
    (fun a b => str_ltb (i_ID a) (i_ID b)))).

(** Build; each of its three ranges over the map of nodes has its own order. *)
Definition Build (idx : AdjacencyIndex) (routes live scan : list (string * Node)) (opts : Options) : Result :=
  let liveRailsRoutes := railsRouteTargets routes in
  let dynDispatches := railsDynamicRenderTargets (o_UnresolvedRefs opts) in
  let reachable := if o_Transitive opts then liveReachable idx live (o_IncludeTypes opts) else ∅ in
  let items := map item_of
    (List.filter (flagged idx opts reachable liveRailsRoutes dynDispatches) (map snd scan)) in
  let items := sort_slice item_less items in
  mkResult items (length items).
