(* ===== verification/DeadCodeSpec.v ===== *)
(** What the dead-code scan lists: exactly the nodes that are dead, for either
    meaning of the word. *)
From S2P Require Import Prelude.
From S2P Require Import GoStrings.
From S2P Require Import Reach.
From S2P Require Import GrModel.
From S2P Require Import GrResolve.
From S2P Require Import GrFlows.
From S2P Require Import DeadCode.

(** ** hasCaller *)

Section callers.
Context (idx : AdjacencyIndex).

(** [y] is the generated twin of the component [x]. *)
Definition bridge (x y : string) : Prop := exists e, e ∈ in_of idx x /\ templ_bridge e = true /\ ed_From e = y.
(** Something invokes [x] itself. *)
Definition direct (x : string) : Prop := exists e, e ∈ in_of idx x /\ invoking e = true /\ templ_bridge e = false.
(** Something invokes [x], or the twin that stands behind it. *)
Definition called (x : string) : Prop := exists y, rtc bridge x y /\ direct y.

Lemma bridge_invoking e : templ_bridge e = true -> invoking e = true.
Proof.
  unfold templ_bridge, invoking. intros [E _]%andb_prop. apply String.eqb_eq in E. rewrite E.
  by apply bool_decide_eq_true.
Qed.

(** Every node of [fin] has been looked at: nothing invokes it, and its twins
    have been looked at or are being looked at. *)
Definition closed (fin open : gset string) : Prop :=
  forall v, v ∈ fin -> ~ direct v /\ forall w, bridge v w -> w ∈ fin ∪ open.

(** What a call answers. *)
Definition visit_ok (id : string) (seen : gset string) (r : bool * gset string) : Prop :=
  seen ⊆ r.2 /\
  if r.1 then called id
  else forall fin open, seen ⊆ fin ∪ open -> closed fin open ->
    exists fin', fin ⊆ fin' /\ id ∈ fin' /\ closed fin' open /\ r.2 ⊆ fin' ∪ open.

Lemma scan_callers_ok visit id es seen r :
  (forall y seen r, visit y seen = Some r -> visit_ok y seen r) ->
  (forall e, e ∈ es -> e ∈ in_of idx id) ->
  scan_callers visit id es seen = Some r ->
  seen ⊆ r.2 /\
  if r.1 then called id
  else (forall e, e ∈ es -> invoking e = true -> templ_bridge e = true) /\
    forall fin open, seen ⊆ fin ∪ ({[id]} ∪ open) -> closed fin ({[id]} ∪ open) ->
    exists fin', fin ⊆ fin' /\ closed fin' ({[id]} ∪ open) /\ r.2 ⊆ fin' ∪ ({[id]} ∪ open) /\
      forall e, e ∈ es -> templ_bridge e = true -> ed_From e ∈ fin' ∪ ({[id]} ∪ open).
Proof.
  intros Hv. revert seen. induction es as [|e es IH]; intros seen Hin; cbn [scan_callers].
  { intros [= <-]. cbn. split; [done|]. split; [intros e He; by apply elem_of_nil in He|].
    intros fin open Hs Hc. exists fin. split_and!; try done. intros e He. by apply elem_of_nil in He. }
  assert (Hin' : forall e, e ∈ es -> e ∈ in_of idx id) by (intros; apply Hin; by right).
  destruct (invoking e) eqn:Ei; cbn [negb].
  2: { intros H. destruct (IH seen Hin' H) as [H1 H2]. split; [done|]. destruct r.1; [done|].
       destruct H2 as [H2 H3]. split.
       - intros e' [->|He']%elem_of_cons; [congruence|by apply H2].
       - intros fin open Hs Hc. destruct (H3 fin open Hs Hc) as (fin' & F1 & F2 & F3 & F4).
         exists fin'. split_and!; try done. intros e' [->|He']%elem_of_cons; [|by apply F4].
         intros Ht%bridge_invoking. congruence. }
  destruct (templ_bridge e) eqn:Et.
  2: { intros [= <-]. cbn. split; [done|]. exists id. split; [done|]. exists e. split_and!; [apply Hin; left|done..]. }
  case_decide as Hseen.
  { intros H. destruct (IH seen Hin' H) as [H1 H2]. split; [done|]. destruct r.1; [done|].
    destruct H2 as [H2 H3]. split; [intros e' [->|He']%elem_of_cons; [done|by apply H2]|].
    intros fin open Hs Hc. destruct (H3 fin open Hs Hc) as (fin' & F1 & F2 & F3 & F4).
    exists fin'. split_and!; try done. intros e' [->|He']%elem_of_cons; [|by apply F4]. clear -Hseen Hs F1. set_solver. }
  destruct (visit (ed_From e) ({[id]} ∪ seen)) as [[b seen1]|] eqn:Ev; [|done].
  destruct (Hv _ _ _ Ev) as [V1 V2]. cbn [fst snd] in *. destruct b.
  { intros [= <-]. cbn. split; [clear -V1; set_solver|]. destruct V2 as (y & Hy & Hd). exists y. split; [|done].
    eapply rtc_l; [|exact Hy]. exists e. split_and!; [apply Hin; left|done..]. }
  intros H. destruct (IH seen1 Hin' H) as [H1 H2]. split; [clear -V1 H1; set_solver|]. destruct r.1; [done|].
  destruct H2 as [H2 H3]. split; [intros e' [->|He']%elem_of_cons; [done|by apply H2]|].
  intros fin open Hs Hc.
  destruct (V2 fin ({[id]} ∪ open)) as (fin1 & G1 & G2 & G3 & G4); [clear -Hs; set_solver|done|].
  destruct (H3 fin1 open G4 G3) as (fin' & F1 & F2 & F3 & F4).
  exists fin'. split_and!; [clear -F1 G1; set_solver|done|done|].
  intros e' [->|He']%elem_of_cons; [clear -F1 G2; set_solver|by apply F4].
Qed.

Lemma hasCallerVisiting_ok fuel id seen r :
  hasCallerVisiting fuel idx id seen = Some r -> visit_ok id seen r.
Proof.
  revert id seen r. induction fuel as [|fuel IH]; intros id seen r; cbn [hasCallerVisiting]; [done|].
  intros H. destruct (scan_callers_ok _ _ _ _ _ IH (fun e He => He) H) as [H1 H2].
  split; [done|]. destruct r.1; [done|]. destruct H2 as [H2 H3]. intros fin open Hs Hc.
  assert (Hc' : closed fin ({[id]} ∪ open)).
  { intros v Hv. destruct (Hc v Hv) as [Hd Hb]. split; [done|]. intros w Hw. specialize (Hb w Hw). clear -Hb. set_solver. }
  destruct (H3 fin open) as (fin' & F1 & F2 & F3 & F4); [clear -Hs; set_solver|done|].
  exists ({[id]} ∪ fin'). split_and!; [clear -F1; set_solver|clear; set_solver| |clear -F3; set_solver].
  intros v Hv. apply elem_of_union in Hv as [->%elem_of_singleton|Hv].
  - split.
    + intros (e & He & Hi & Ht). rewrite (H2 e He Hi) in Ht. done.
    + intros w (e & He & Ht & <-). specialize (F4 e He Ht). clear -F4. set_solver.
  - destruct (F2 v Hv) as [Hd Hb]. split; [done|]. intros w Hw. specialize (Hb w Hw). clear -Hb. set_solver.
Qed.

(** The nodes a call can be made on. *)
Definition sources (start : string) : gset string :=
  list_to_set (start :: map ed_From (concat (map snd (map_to_list (InEdges idx))))).

Definition entries (U : gset string) (id : string) (seen : gset string) : nat :=
  2 * size (U ∖ seen) + (if decide (id ∈ seen) then 1 else 0).

Lemma elem_of_in_edges id e : e ∈ in_of idx id -> e ∈ concat (map snd (map_to_list (InEdges idx))).
Proof.
  unfold in_of. destruct (InEdges idx !! id) as [l|] eqn:E; [|intros He; by apply elem_of_nil in He].
  intros He. apply elem_of_concat_snd. exists (id, l). by rewrite elem_of_map_to_list.
Qed.

Lemma entries_shrink (U s s' : gset string) x :
  s ⊆ s' -> x ∈ U -> x ∉ s -> x ∈ s' -> size (U ∖ s') < size (U ∖ s).
Proof.
  intros H1 H2 H3 H4. apply subset_size. split; [set_solver|]. intros H. apply (H3 : x ∈ s -> False).
  assert (Hx : x ∈ U ∖ s) by set_solver. apply H in Hx. set_solver.
Qed.

Lemma entries_mono (U s s' : gset string) : s ⊆ s' -> size (U ∖ s') <= size (U ∖ s).
Proof. intros H. apply subseteq_size. set_solver. Qed.

Lemma hasCallerVisiting_total start fuel id seen : id ∈ sources start ->
  entries (sources start) id seen < fuel -> is_Some (hasCallerVisiting fuel idx id seen).
Proof.
  revert id seen. induction fuel as [|fuel IH]; intros id seen Hid Hf; [lia|]. cbn [hasCallerVisiting].
  assert (Hes : forall e, e ∈ in_of idx id -> ed_From e ∈ sources start).
  { intros e He. unfold sources. rewrite elem_of_list_to_set. right.
    by apply list_elem_of_fmap_2, elem_of_in_edges with id. }
  generalize dependent seen. induction (in_of idx id) as [|e es IHes]; intros seen Hf; cbn [scan_callers]; [by eexists|].
  specialize (IHes (fun e' He' => Hes e' (list_elem_of_further e' e es He'))).
  destruct (invoking e); cbn [negb]; [|by apply IHes]. destruct (templ_bridge e); [|by eexists].
  case_decide as Hseen; [by apply IHes|].
  destruct (IH (ed_From e) ({[id]} ∪ seen)) as [[b seen1] E].
  { apply Hes. left. }
  { unfold entries in *. destruct (decide (id ∈ seen)) as [Hs|Hs].
    - rewrite (subseteq_union_1_L {[id]} seen) by (apply singleton_subseteq_l; done).
      rewrite decide_False by done. lia.
    - pose proof (entries_shrink (sources start) seen ({[id]} ∪ seen) id
        ltac:(apply union_subseteq_r) Hid Hs ltac:(clear; set_solver)). case_decide; lia. }
  rewrite E. destruct b; [by eexists|]. apply IHes.
  destruct (hasCallerVisiting_ok _ _ _ _ E) as [Hsub _]. cbn in Hsub.
  assert (Hs' : seen ⊆ seen1) by (clear -Hsub; set_solver). unfold entries in *.
  pose proof (entries_mono (sources start) _ _ Hs') as Hm.
  destruct (decide (id ∈ seen)) as [Hs|Hs], (decide (id ∈ seen1)) as [Hs1|Hs1]; try lia.
  pose proof (entries_shrink (sources start) _ _ id Hs' Hid Hs Hs1). lia.
Qed.

(** hasCaller decides whether something invokes the node. *)
Lemma hasCaller_spec id : hasCaller idx id = true <-> called id.
Proof.
  unfold hasCaller.
  assert (Hid : id ∈ sources id) by (unfold sources; rewrite elem_of_list_to_set; left).
  destruct (hasCallerVisiting_total id (caller_fuel idx) id ∅ Hid) as [[b seen] E].
  { unfold entries, caller_fuel. rewrite decide_False by set_solver.
    assert (size (sources id ∖ ∅) <= S (length (concat (map snd (map_to_list (InEdges idx)))))); [|lia].
    etrans; [apply subseteq_size, subseteq_difference_l; reflexivity|]. unfold sources.
    etrans; [apply size_list_to_set_le|]. cbn. by rewrite length_map. }
  rewrite E. destruct (hasCallerVisiting_ok _ _ _ _ E) as [_ H]. cbn in H. destruct b; [done|].
  split; [done|]. intros (y & Hy & Hd).
  destruct (H ∅ ∅) as (fin & _ & Hin & Hc & _); [set_solver|intros v Hv; set_solver|].
  assert (Hyf : y ∈ fin).
  { clear -Hc Hin Hy. induction Hy as [|a b c Hab _ IH]; [done|]. apply IH.
    destruct (Hc a Hin) as [_ Hb]. specialize (Hb b Hab). clear -Hb. set_solver. }
  by destruct (Hc y Hyf) as [Hn _].
Qed.
End callers.

(** ** liveReachable *)

Definition live_edge (includeTypes : bool) (e : Edge) : bool := invoking e || (includeTypes && type_use e).

(** A live root reaches [id] along edges that keep their target alive. *)
Definition alive (idx : AdjacencyIndex) (includeTypes : bool) (id : string) : Prop :=
  exists r n, Nodes idx !! r = Some n /\ isLiveRoot n = true /\
    rtc (fun a b => exists e, e ∈ out_of idx a /\ live_edge includeTypes e = true /\ ed_To e = b) r id.

Lemma elem_of_out_edges idx id e : e ∈ out_of idx id -> e ∈ concat (map snd (map_to_list (OutEdges idx))).
Proof.
  unfold out_of. destruct (OutEdges idx !! id) as [l|] eqn:E; [|intros He; by apply elem_of_nil in He].
  intros He. apply elem_of_concat_snd. exists (id, l). by rewrite elem_of_map_to_list.
Qed.

Lemma elem_of_live_succ idx it a b : b ∈ live_succ idx it a <->
  exists e, e ∈ out_of idx a /\ live_edge it e = true /\ ed_To e = b.
Proof.
  unfold live_succ. rewrite list_elem_of_fmap. setoid_rewrite elem_of_bfilter. unfold live_edge.
  split; [intros (e & -> & He & Hl); by exists e|intros (e & He & Hl & <-); by exists e].
Qed.

Lemma liveReachable_spec idx order it id : order ≡ₚ map_to_list (Nodes idx) ->
  id ∈ liveReachable idx order it <-> alive idx it id.
Proof.
  intros Hp. unfold liveReachable.
  set (roots := map fst (List.filter (fun p => isLiveRoot (snd p)) order)).
  assert (Hroots : forall r, r ∈ roots <-> exists n, Nodes idx !! r = Some n /\ isLiveRoot n = true).
  { intros r. unfold roots. rewrite list_elem_of_fmap. setoid_rewrite elem_of_bfilter. setoid_rewrite Hp. split.
    - intros ([k n] & -> & Hin & Hl). exists n. by apply elem_of_map_to_list in Hin.
    - intros (n & Hn & Hl). exists (r, n). by rewrite elem_of_map_to_list. }
  set (targets := map ed_To (concat (map snd (map_to_list (OutEdges idx))))).
  destruct (reach_from_spec (live_succ idx it) roots (dom (Nodes idx) ∪ list_to_set targets))
    with (fuel := reach_fuel idx) as (live & -> & Hlive).
  - intros a b _ Hb. apply elem_of_union. right. rewrite elem_of_list_to_set.
    apply elem_of_live_succ in Hb as (e & He & _ & <-). by eapply list_elem_of_fmap_2, elem_of_out_edges.
  - intros r. rewrite elem_of_list_to_set. intros Hr. apply Hroots in Hr as (n & Hn & _).
    apply elem_of_union. left. apply elem_of_dom. by rewrite Hn.
  - unfold reach_fuel. rewrite size_union_alt, size_dom.
    assert (size (list_to_set targets ∖ dom (Nodes idx) : gset string) <= length targets).
    { etrans; [apply subseteq_size, subseteq_difference_l; reflexivity|apply size_list_to_set_le]. }
    unfold targets in *. rewrite length_map in *. lia.
  - cbn [default]. unfold alive. rewrite Hlive. setoid_rewrite Hroots.
    assert (Hrtc : forall r, rtc (step (live_succ idx it)) r id <->
      rtc (fun a b => exists e, e ∈ out_of idx a /\ live_edge it e = true /\ ed_To e = b) r id).
    { intros r. split; apply rtc_subrel; intros a b; apply elem_of_live_succ. }
    setoid_rewrite Hrtc. naive_solver.
Qed.

(** ** The scan *)

(** What keeps a callable alive, for the scan's two meanings of the word. *)
Definition reached (idx : AdjacencyIndex) (opts : Options) (id : string) : Prop :=
  if o_Transitive opts then alive idx (o_IncludeTypes opts) id else called idx id.

Definition type_reached (idx : AdjacencyIndex) (opts : Options) (id : string) : Prop :=
  if o_Transitive opts then alive idx (o_IncludeTypes opts) id
  else exists e, e ∈ in_of idx id /\ type_use e = true.

Inductive dead (idx : AdjacencyIndex) (opts : Options) (n : Node) : Prop :=
| dead_as_callable :
    is_callable (n_Type n) = true -> spared_root n = false -> IsTestFilePath (n_File n) = false ->
    reflect_dispatched n = false -> isGeneratedTemplTwin idx n = false -> ~ reached idx opts (n_ID n) ->
    dead idx opts n
| dead_as_value :
    n_Type n = NodeTypeVariable -> meta_get (n_Meta n) "scope" ∈ ["package"; "module"] ->
    IsTestFilePath (n_File n) = false -> (forall e, e ∈ in_of idx (n_ID n) -> ed_Type e <> EdgeTypeReads) ->
    dead idx opts n
| dead_as_type :
    o_IncludeTypes opts = true -> isTypeDecl (n_Type n) = true -> IsTestFilePath (n_File n) = false ->
    ~ type_reached idx opts (n_ID n) ->
    (forall e m, e ∈ out_of idx (n_ID n) -> ed_Type e = EdgeTypeContains -> Nodes idx !! ed_To e = Some m ->
       n_Type m ∈ [NodeTypeMethod; NodeTypeFunction] -> ~ reached idx opts (ed_To e)) ->
    dead idx opts n
| dead_as_view :
    n_Type n = NodeTypeFile -> isRailsViewFile (n_File n) = true ->
    (forall e, e ∈ in_of idx (n_ID n) -> ed_Type e <> EdgeTypeRenders) ->
    railsViewIdentifier (n_File n) <> "" ->
    (forall id m, Nodes idx !! id = Some m ->
       route_target m <> Some (n_Service n +:+ String "000" (TrimPrefix (railsViewIdentifier (n_File n)) "devise/"))) ->
    (forall r t, r ∈ o_UnresolvedRefs opts -> dyn_target r = Some t ->
       dyn_hits (n_Service n) (railsViewIdentifier (n_File n)) t = false) ->
    dead idx opts n.

Section scan.
Context (idx : AdjacencyIndex) (opts : Options) (live routes : list (string * Node)).
Hypothesis Hlive : live ≡ₚ map_to_list (Nodes idx).
Hypothesis Hroutes : routes ≡ₚ map_to_list (Nodes idx).

Definition reachable_set : gset string :=
  if o_Transitive opts then liveReachable idx live (o_IncludeTypes opts) else ∅.

Lemma unreached_spec id : unreached idx opts reachable_set id = true <-> ~ reached idx opts id.
Proof.
  unfold unreached, reached, reachable_set. destruct (o_Transitive opts); rewrite negb_true_iff.
  - by rewrite bool_decide_eq_false, liveReachable_spec.
  - by rewrite <- hasCaller_spec, not_true_iff_false.
Qed.

Lemma dead_callable_spec n : is_callable (n_Type n) = true ->
  dead_callable idx opts reachable_set n = true <->
  spared_root n = false /\ IsTestFilePath (n_File n) = false /\ reflect_dispatched n = false /\
  isGeneratedTemplTwin idx n = false /\ ~ reached idx opts (n_ID n).
Proof. intros _. unfold dead_callable. rewrite !andb_true_iff, !negb_true_iff, unreached_spec. tauto. Qed.

Lemma no_edge_of_type id ty : negb (existsb (fun e => str_eqb (ed_Type e) ty) (in_of idx id)) = true <->
  forall e, e ∈ in_of idx id -> ed_Type e <> ty.
Proof. rewrite not_existsb. by setoid_rewrite String.eqb_neq. Qed.

Lemma dead_value_spec n :
  dead_value idx n = true <->
  meta_get (n_Meta n) "scope" ∈ ["package"; "module"] /\ IsTestFilePath (n_File n) = false /\
  forall e, e ∈ in_of idx (n_ID n) -> ed_Type e <> EdgeTypeReads.
Proof.
  unfold dead_value, hasReader. rewrite !andb_true_iff, no_edge_of_type, negb_true_iff, orb_true_iff, !String.eqb_eq.
  rewrite !elem_of_cons, elem_of_nil. tauto.
Qed.

Lemma dead_type_spec n :
  dead_type idx opts reachable_set n = true <->
  IsTestFilePath (n_File n) = false /\ ~ type_reached idx opts (n_ID n) /\
  forall e m, e ∈ out_of idx (n_ID n) -> ed_Type e = EdgeTypeContains -> Nodes idx !! ed_To e = Some m ->
    n_Type m ∈ [NodeTypeMethod; NodeTypeFunction] -> ~ reached idx opts (ed_To e).
Proof.
  unfold dead_type. rewrite !andb_true_iff, negb_true_iff.
  assert (H1 : (if o_Transitive opts then negb (bool_decide (n_ID n ∈ reachable_set))
                else negb (hasTypeUse idx (n_ID n))) = true <-> ~ type_reached idx opts (n_ID n)).
  { unfold type_reached, reachable_set. destruct (o_Transitive opts); rewrite negb_true_iff.
    - by rewrite bool_decide_eq_false, liveReachable_spec.
    - unfold hasTypeUse. by rewrite <- not_true_iff_false, existsb_elem. }
  rewrite H1. unfold typeHasLiveMethod. rewrite not_existsb.
  enough (H2 : forall e, e ∈ out_of idx (n_ID n) ->
    str_eqb (ed_Type e) EdgeTypeContains &&
      match Nodes idx !! ed_To e with
      | Some m => (str_eqb (n_Type m) NodeTypeMethod || str_eqb (n_Type m) NodeTypeFunction) &&
                  negb (unreached idx opts reachable_set (ed_To e))
      | None => false
      end = false <->
    (ed_Type e = EdgeTypeContains -> forall m, Nodes idx !! ed_To e = Some m ->
       n_Type m ∈ [NodeTypeMethod; NodeTypeFunction] -> ~ reached idx opts (ed_To e))).
  { split.
    - intros [[H3 H4] H5]. split_and!; [done..|]. intros e m He Ht Hm. eapply H2; eauto.
    - intros (H3 & H4 & H5). split_and!; [done..|]. intros e He. apply (H2 e He). intros; by eapply H5. }
  intros e _. pose proof (unreached_spec (ed_To e)) as Hu.
  destruct (str_eqb (ed_Type e) EdgeTypeContains) eqn:Et; cbn [andb];
    [apply String.eqb_eq in Et|apply String.eqb_neq in Et; naive_solver].
  destruct (Nodes idx !! ed_To e) as [m|]; [|naive_solver].
  assert (Hm : n_Type m ∈ [NodeTypeMethod; NodeTypeFunction] <->
    str_eqb (n_Type m) NodeTypeMethod || str_eqb (n_Type m) NodeTypeFunction = true).
  { rewrite orb_true_iff, !String.eqb_eq, !elem_of_cons, elem_of_nil. tauto. }
  rewrite andb_false_iff, negb_false_iff, Hu, <- not_true_iff_false, <- Hm. split.
  - intros [H|H] _ m' [= <-]; [done|tauto].
  - intros H. specialize (H Et m eq_refl). destruct (decide (n_Type m ∈ [NodeTypeMethod; NodeTypeFunction])); tauto.
Qed.

Lemma dead_view_spec n :
  isDeadRailsView idx n (railsRouteTargets routes) (railsDynamicRenderTargets (o_UnresolvedRefs opts)) = true <->
  (forall e, e ∈ in_of idx (n_ID n) -> ed_Type e <> EdgeTypeRenders) /\
  railsViewIdentifier (n_File n) <> "" /\
  (forall id m, Nodes idx !! id = Some m ->
     route_target m <> Some (n_Service n +:+ String "000" (TrimPrefix (railsViewIdentifier (n_File n)) "devise/"))) /\
  (forall r t, r ∈ o_UnresolvedRefs opts -> dyn_target r = Some t ->
     dyn_hits (n_Service n) (railsViewIdentifier (n_File n)) t = false).
Proof.
  unfold isDeadRailsView. rewrite <- no_edge_of_type. unfold hasRenderer.
  destruct (existsb _ (in_of idx (n_ID n))); cbn [negb]; [naive_solver|].
  destruct (str_eqb (railsViewIdentifier (n_File n)) "") eqn:E;
    [apply String.eqb_eq in E; naive_solver|apply String.eqb_neq in E].
  set (key := n_Service n +:+ _).
  assert (Hroute : key ∈ railsRouteTargets routes <-> exists id m, Nodes idx !! id = Some m /\ route_target m = Some key).
  { unfold railsRouteTargets. rewrite elem_of_list_to_set, list_elem_of_omap. setoid_rewrite Hroutes. split.
    - intros ([k m] & Hin & Hm). exists k, m. by apply elem_of_map_to_list in Hin.
    - intros (k & m & Hin & Hm). exists (k, m). by rewrite elem_of_map_to_list. }
  case_decide as D; rewrite Hroute in D.
  { split; [done|]. intros (_ & _ & Hr & _). destruct D as (k & m & Hk & Hm). by destruct (Hr k m Hk). }
  rewrite not_existsb. unfold railsDynamicRenderTargets.
  pose proof (list_elem_of_omap dyn_target (o_UnresolvedRefs opts)) as Hd. split.
  - intros H. split_and!; [done|done|intros k m Hk Hm; apply D; by exists k, m|]. intros r t Hr Ht. apply H, Hd. by exists r.
  - intros (_ & _ & _ & H) t Ht. apply Hd in Ht as (r & Hr & Ht). by eapply H.
Qed.
End scan.

Lemma type_decl_not t : isTypeDecl t = true ->
  is_callable t = false /\ t <> NodeTypeVariable /\ t <> NodeTypeFile.
Proof.
  unfold isTypeDecl. rewrite !orb_true_iff, !String.eqb_eq. by intros [[->| ->]| ->].
Qed.

Lemma callable_not t : is_callable t = true -> t <> NodeTypeVariable /\ t <> NodeTypeFile.
Proof. unfold is_callable. rewrite !orb_true_iff, !String.eqb_eq. by intros [[->| ->]| ->]. Qed.

Section flagged.
Context (idx : AdjacencyIndex) (opts : Options) (live routes : list (string * Node)).
Hypothesis Hlive : live ≡ₚ map_to_list (Nodes idx).
Hypothesis Hroutes : routes ≡ₚ map_to_list (Nodes idx).

Abbreviation reachable := (reachable_set idx opts live).
Abbreviation dyn := (railsDynamicRenderTargets (o_UnresolvedRefs opts)).

Lemma dead_cases n : dead idx opts n <->
  is_callable (n_Type n) = true /\ dead_callable idx opts reachable n = true \/
  n_Type n = NodeTypeVariable /\ dead_value idx n = true \/
  o_IncludeTypes opts && isTypeDecl (n_Type n) = true /\ dead_type idx opts reachable n = true \/
  (str_eqb (n_Type n) NodeTypeFile && isRailsViewFile (n_File n)) = true /\
    isDeadRailsView idx n (railsRouteTargets routes) dyn = true.
Proof.
  rewrite (dead_type_spec idx opts live Hlive n), (dead_view_spec idx opts routes Hroutes n), (dead_value_spec idx n),
    !andb_true_iff, String.eqb_eq.
  split.
  - intros [H1 H2 H3 H4 H5 H6|H1 H2 H3 H4|H1 H2 H3 H4 H5|H1 H2 H3 H4 H5 H6].
    + left. split; [done|]. by apply dead_callable_spec.
    + right; left. done.
    + right; right; left. done.
    + right; right; right. done.
  - intros [[H1 H2]|[[H1 H2]|[[H1 H2]|[H1 H2]]]].
    + apply (dead_callable_spec idx opts live Hlive n H1) in H2 as (? & ? & ? & ? & ?). by apply dead_as_callable.
    + destruct H2 as (? & ? & ?). by apply dead_as_value.
    + destruct H1, H2 as (? & ? & ?). by apply dead_as_type.
    + destruct H1, H2 as (? & ? & ? & ?). by apply dead_as_view.
Qed.

Lemma flagged_bool n (reach : gset string) (targets : gset string) (dyn : list dynamicRenderTarget) :
  flagged idx opts reach targets dyn n =
  in_scope opts n &&
    (is_callable (n_Type n) && dead_callable idx opts reach n ||
     str_eqb (n_Type n) NodeTypeVariable && dead_value idx n ||
     o_IncludeTypes opts && isTypeDecl (n_Type n) && dead_type idx opts reach n ||
     str_eqb (n_Type n) NodeTypeFile && isRailsViewFile (n_File n) && isDeadRailsView idx n targets dyn).
Proof.
  assert (H : forall c v f t, (c = true -> v = false /\ f = false) -> (t = true -> c = false /\ v = false /\ f = false) ->
    (v = true -> f = false) -> forall sc i r dc dv dt dw : bool,
    (if negb c && negb v && negb (f && r) && negb (i && t) then false
     else if negb sc then false else if i && t then dt else if f && r then dw else if negb c then dv else dc) =
    sc && (c && dc || v && dv || i && t && dt || f && r && dw)).
  { intros [] [] [] []; intros H1 H2 H3; try (specialize (H1 eq_refl)); try (specialize (H2 eq_refl));
      try (specialize (H3 eq_refl)); try (intuition discriminate);
      intros [] [] [] dc dv dt dw; cbn [andb orb negb]; rewrite ?orb_false_r; reflexivity. }
  unfold flagged. apply H.
  - intros Hc%callable_not. rewrite !String.eqb_neq. done.
  - intros Ht%type_decl_not. rewrite !String.eqb_neq. done.
  - rewrite String.eqb_eq, String.eqb_neq. by intros ->.
Qed.

Lemma flagged_spec n :
  flagged idx opts reachable (railsRouteTargets routes) dyn n = true <-> in_scope opts n = true /\ dead idx opts n.
Proof.
  rewrite dead_cases, flagged_bool, andb_true_iff, !orb_true_iff, !andb_true_iff, String.eqb_eq. tauto.
Qed.
End flagged.

#[local] Instance item_less_weak : WeakLess item_less.
Proof. unfold item_less. apply _. Qed.

Lemma elem_of_order {A} (idx : AdjacencyIndex) (order : list (string * Node)) (f : Node -> A) :
  wf_index idx -> order ≡ₚ map_to_list (Nodes idx) ->
  forall n, n ∈ map snd order <-> Nodes idx !! n_ID n = Some n.
Proof.
  intros W Hp n. rewrite list_elem_of_fmap. setoid_rewrite Hp. split.
  - intros ([id m] & -> & H%elem_of_map_to_list). cbn. by rewrite (wf_nodes _ W _ _ H).
  - intros H. exists (n_ID n, n). by rewrite elem_of_map_to_list.
Qed.

(** C35: whatever the orders in which the map of nodes is ranged over, the scan
    lists exactly the nodes in scope that are dead, each once, sorted by
    service, file, line and ID: callables nothing reaches (no invoking edge
    into them or their templ twins; or, transitively, no live root), package
    values nothing reads, unnamed types without a live method, views no
    renderer, route or dynamic render accounts for. *)
Theorem Build_exact idx routes live scan opts :
  wf_index idx -> routes ≡ₚ map_to_list (Nodes idx) -> live ≡ₚ map_to_list (Nodes idx) ->
  scan ≡ₚ map_to_list (Nodes idx) ->
  let r := Build idx routes live scan opts in
  Total r = length (Functions r) /\ StronglySorted (may_precede item_less) (Functions r) /\
  NoDup (map i_ID (Functions r)) /\
  forall it, it ∈ Functions r <->
    exists n, Nodes idx !! n_ID n = Some n /\ it = item_of n /\ in_scope opts n = true /\ dead idx opts n.
Proof.
  intros W Hr Hl Hs. cbn zeta. split; [done|]. split; [apply sort_slice_sorted, _|].
  unfold Build. fold (reachable_set idx opts live). cbn [Functions]. split.
  - rewrite (Permutation_map i_ID (sort_slice_perm _ _)), map_map. cbn [item_of i_ID].
    assert (Hnd : NoDup (map n_ID (map snd scan))).
    { rewrite map_map. rewrite (Permutation_map (fun p => n_ID (snd p)) Hs).
      rewrite (map_ext_in (fun p => n_ID (snd p)) fst); [apply NoDup_fst_map_to_list|].
      intros [id n] Hin. apply list_elem_of_In, elem_of_map_to_list in Hin. by apply (wf_nodes _ W). }
    revert Hnd. induction (map snd scan) as [|n ns IH]; [done|]. cbn. rewrite NoDup_cons. intros [Hn Hnd].
    case_match; [|by apply IH]. cbn. constructor; [|by apply IH].
    rewrite list_elem_of_fmap. intros (m & Hm & [Hin _]%elem_of_bfilter). apply Hn.
    apply list_elem_of_fmap. by exists m.
  - intros it. rewrite elem_of_sort_slice, list_elem_of_fmap. setoid_rewrite elem_of_bfilter.
    setoid_rewrite (flagged_spec idx opts live routes Hl Hr).
    setoid_rewrite (elem_of_order idx scan item_of W Hs). naive_solver.
Qed.

(** The demo graph: a live handler, a dead cycle, a function alone, and a templ component behind
    its generated twin. *)
Definition dc_node (ty id : string) (meta : Meta) : Node := mkNode id ty id "svc" "a.go" 1 2 "go" meta "".
Definition dc_edge (ty from to : string) (meta : Meta) : Edge :=
  mkEdge (from +:+ ">" +:+ to) from to ty "" "" "" "" meta [] "" "".
Definition dc_index : AdjacencyIndex :=
  BuildIndex [dc_node NodeTypeHTTPHandler "h" ∅; dc_node NodeTypeFunction "f" ∅; dc_node NodeTypeFunction "g" ∅;
              dc_node NodeTypeFunction "k" ∅; dc_node NodeTypeFunction "z" ∅; dc_node NodeTypeComponent "c" ∅; dc_node NodeTypeFunction "twin" ∅]
    [dc_edge EdgeTypeCalls "h" "f" ∅; dc_edge EdgeTypeCalls "g" "k" ∅; dc_edge EdgeTypeCalls "k" "g" ∅;
     dc_edge EdgeTypeComponentImpl "twin" "c" {["via" := "templ_generated"]}; dc_edge EdgeTypeCalls "f" "twin" ∅].
Definition dc_opts (transitive : bool) : Options := mkOptions "" "" transitive false [].

Lemma Build_exact_witness :
  let order := map_to_list (Nodes dc_index) in
  map i_ID (Functions (Build dc_index order order order (dc_opts false))) = ["z"] /\
  map i_ID (Functions (Build dc_index order order order (dc_opts true))) = ["g"; "k"; "z"] /\
  NoDup (map i_ID (Functions (Build dc_index order (rev order) order (dc_opts true)))).
Proof.
  cbn zeta. split; [vm_compute; reflexivity|]. split; [vm_compute; reflexivity|].
  assert (W : wf_index dc_index) by apply wf_BuildIndex.
  pose proof (Build_exact dc_index (map_to_list (Nodes dc_index)) (rev (map_to_list (Nodes dc_index)))
    (map_to_list (Nodes dc_index)) (dc_opts true) W (Permutation_refl _) (Permutation_sym (Permutation_rev _))
    (Permutation_refl _)) as H.
  destruct H as (_ & _ & H & _). exact H.
Defined.

(** What the plain scan calls a dead callable the transitive scan calls
    dead too (a twin that is itself a live root is the one exception, and is
    excluded). *)
Theorem transitive_scan_extends idx service file refs n :
  wf_index idx ->
  (forall e m, has_edge idx e -> templ_bridge e = true -> Nodes idx !! ed_From e = Some m -> isLiveRoot m = false) ->
  Nodes idx !! n_ID n = Some n -> is_callable (n_Type n) = true ->
  dead idx (mkOptions service file false false refs) n -> dead idx (mkOptions service file true false refs) n.
Proof.
  intros W Htwin Hn Hcall Hd.
  assert (Hlive : forall id, alive idx false id ->
    called idx id \/ exists m, Nodes idx !! id = Some m /\ isLiveRoot m = true).
  { intros id (r & m & Hm & Hroot & Hp). revert id Hp.
    apply rtc_ind_r; [right; by exists m|]. intros a b _ (e & He & Hl & <-) IH. left.
    unfold live_edge in Hl. cbn in Hl. rewrite orb_false_r in Hl.
    assert (Hhas : has_edge idx e) by (unfold has_edge; by rewrite (wf_out _ W _ _ He)).
    assert (Hin : e ∈ in_of idx (ed_To e)) by by apply (wf_both _ W).
    destruct (templ_bridge e) eqn:Et; [|exists (ed_To e); split; [done|by exists e]].
    rewrite <- (wf_out _ W _ _ He) in IH.
    destruct IH as [(y & Hy & Hdir)|(k & Hk & Hkr)]; [|by rewrite (Htwin e k) in Hkr].
    exists y. split; [|done]. eapply rtc_l; [|exact Hy]. by exists e. }
  assert (Hx : isTypeDecl (n_Type n) = true -> False).
  { intros (Ht & _)%type_decl_not. congruence. }
  destruct Hd as [H1 H2 H3 H4 H5 H6|H1|_ H2|H1]; 
    [|apply callable_not in Hcall; tauto|by destruct Hx|apply callable_not in Hcall; tauto].
  apply dead_as_callable; try done. unfold reached in *. cbn in *. intros [Hc|(m & Hm & Hr)]%Hlive; [done|].
  rewrite Hn in Hm. injection Hm as <-. unfold isLiveRoot in Hr. by rewrite H1, H2, H3, H4 in Hr.
Qed.

Lemma transitive_scan_extends_witness :
  let z := dc_node NodeTypeFunction "z" ∅ in
  Nodes dc_index !! "z" = Some z /\ dead dc_index (dc_opts false) z /\ dead dc_index (dc_opts true) z.
Proof.
  cbn zeta. set (z := dc_node NodeTypeFunction "z" ∅).
  assert (W : wf_index dc_index) by apply wf_BuildIndex.
  assert (Hz : Nodes dc_index !! "z" = Some z) by (vm_compute; reflexivity).
  assert (Hd : dead dc_index (dc_opts false) z).
  { apply (flagged_spec dc_index (dc_opts false) _ _ (Permutation_refl _) (Permutation_refl _)).
    vm_compute. reflexivity. }
  split; [exact Hz|]. split; [exact Hd|].
  apply (transitive_scan_extends dc_index "" "" [] z).
  - exact W.
  - intros e m He Ht Hm. apply (elem_of_lists _ _ W) in He. revert e He Ht Hm.
    assert (H : forallb (fun e => negb (templ_bridge e) ||
      match Nodes dc_index !! ed_From e with Some m => negb (isLiveRoot m) | None => true end)
      (concat (map snd (map_to_list (OutEdges dc_index)))) = true) by (vm_compute; reflexivity).
    rewrite forallb_forall in H. intros e He%list_elem_of_In Ht Hm. specialize (H e He).
    rewrite Ht, Hm in H. cbn in H. by apply negb_true_iff.
  - exact Hz.
  - reflexivity.
  - exact Hd.
Defined.
