(* ===== verification/Impact.v ===== *)
(** The blast radius of a change (internal/impact/impact.go): what a node's
    change breaks or what it reaches, with entry points, services and
    cross-service triggers. *)
From S2P Require Import Prelude.
From S2P Require Import GrModel.
From S2P Require Import GrTraverse.
From S2P Require Import GrNoise.
From S2P Require Import GrVerdict.
From S2P Require Import GrResolve.
From S2P Require Import Budget.
Local Open Scope Z_scope.

(** A traversal result whose node the index holds. *)
Record hit : Type := mkHit { h_Node : Node; h_Via : option Edge; h_Depth : nat; h_Structural : bool }.

(** Every use of a result reads its node; a result without one panics. *)
Definition hit_of (r : TraversalResult) : option hit :=
  n ← tr_Node r; Some (mkHit n (tr_Via r) (tr_Depth r) (tr_Structural r)).
Definition hits (rs : list TraversalResult) : option (list hit) := mapM hit_of rs.

Record Options : Type := mkOptions {
  o_Depth : Z; o_Service : string; o_Direction : string; o_Policy : TraversalPolicy;
  o_StaleAfter : Z; o_Include : NoiseInclude
}.

(** A caller; its Sources are kept as the references the JSON is made of. *)
Record Caller : Type := mkCaller {
  c_ID : string; c_Label : string; c_Type : NodeType; c_Service : string; c_File : string; c_Line : Z;
  c_Meta : Meta; c_EdgeType : EdgeType; c_Confidence : string; c_EdgeMeta : Meta; c_Depth : nat;
  c_Structural : bool; c_VerificationState : string; c_VerifiedGranularity : string;
  c_Sources : list SourceRef; c_Snippet : string
}.

Record CrossServiceTrigger : Type := mkTrigger { ct_FromService : string; ct_EdgeCount : Z }.

(** TargetCandidates, Status, ResolutionNote and Trust are set by its callers. *)
Record Result : Type := mkResult {
  r_Target : option Node; r_Targets : list Node; r_Callers : list Caller; r_EntryPoints : list Node;
  r_ServicesAffected : list string; r_CrossServiceTriggers : list CrossServiceTrigger; r_Depth : Z;
  r_Direction : string; r_TotalCallers : nat; r_Unresolved : list UnresolvedRef; r_UnresolvedNote : string;
  r_VerificationSummary : VerificationSummary; r_Trust : TrustStamp; r_Epistemic : Epistemic;
  r_TargetCandidates : list TargetCandidate; r_Status : string; r_ResolutionNote : string;
  r_Budget : option Info; r_HiddenByClass : gmap NoiseClass Z
}.

(** direction *)
Definition direction (d : string) : string := if str_eqb d "" then "backward" else d.

(** ** traverseFrom *)

Definition walk_hits (idx : AdjacencyIndex) (rootID dir : string) (opts : Options) : option (list hit) :=
  hits (TraverseWithPolicy idx rootID dir BFS (o_Depth opts) (o_Policy opts)).

Definition hit_id (h : hit) : string := n_ID (h_Node h).

Definition in_service (opts : Options) (h : hit) : bool :=
  str_eqb (o_Service opts) "" || str_eqb (n_Service (h_Node h)) (o_Service opts).

Definition traverseFrom (idx : AdjacencyIndex) (rootID : string) (opts : Options) : option (list hit) :=
  ancestors ← (if str_eqb (o_Direction opts) "forward" then walk_hits idx rootID "out" opts
               else if str_eqb (o_Direction opts) "both" then
                 back ← walk_hits idx rootID "in" opts;
                 forth ← walk_hits idx rootID "out" opts;
                 let seen : gset string := list_to_set (map hit_id back) in
                 Some (back ++ List.filter (fun d => negb (bool_decide (hit_id d ∈ seen))) forth)
               else walk_hits idx rootID "in" opts);
  Some (List.filter (in_service opts) ancestors).

(** ** assemble *)

(** The noise class of the edge a hit came through. *)
Definition hit_class (idx : AdjacencyIndex) (h : hit) : NoiseClass :=
  match h_Via h with
  | None => NoiseNone
  | Some e =>
      let srcID := if str_eqb (ed_From e) (hit_id h) then ed_To e else ed_From e in
      ClassifyEdgeNoise e (Nodes idx !! srcID) (Some (h_Node h))
  end.

Definition shown (idx : AdjacencyIndex) (include : NoiseInclude) (h : hit) : bool :=
  match h_Via h with None => true | Some _ => Allows include (hit_class idx h) end.

Definition caller_of (h : hit) : Caller :=
  let n := h_Node h in
  match h_Via h with
  | None =>
      mkCaller (n_ID n) (n_Label n) (n_Type n) (n_Service n) (n_File n) (n_Line n) (n_Meta n) "" "" ∅
        (h_Depth h) (h_Structural h) "" "" [] ""
  | Some e =>
      mkCaller (n_ID n) (n_Label n) (n_Type n) (n_Service n) (n_File n) (n_Line n) (n_Meta n) (ed_Type e)
        (ed_Confidence e) (ed_Meta e) (h_Depth h) (h_Structural h) (ed_VerificationState e)
        (ed_VerifiedGranularity e) (ed_Sources e) ""
  end.

(** The services an incoming edge of a hit comes from, other than its own. *)
Definition foreign_sources (idx : AdjacencyIndex) (h : hit) : list string :=
  omap (fun e => from ← Nodes idx !! ed_From e;
                 if str_eqb (n_Service from) (n_Service (h_Node h)) then None else Some (n_Service from))
    (in_of idx (hit_id h)).

Record Assembled : Type := mkAssembled {
  a_callers : list Caller; a_entryPoints : list Node; a_services : list string;
  a_triggers : list CrossServiceTrigger; a_edges : list Edge; a_hidden : gmap NoiseClass Z
}.

Definition no_callers (idx : AdjacencyIndex) (h : hit) : bool :=
  match in_of idx (hit_id h) with [] => true | _ :: _ => false end.

(** The counts of [xs], by service. *)
Definition trigger_list (xs : gmap string Z) : list CrossServiceTrigger :=
  map (fun svc => mkTrigger svc (default 0 (xs !! svc))) (sort_strings (elements (dom xs))).

Definition assemble (idx : AdjacencyIndex) (ancestors : list hit) (include : NoiseInclude) : Assembled :=
  let kept := List.filter (shown idx include) ancestors in
  let hidden := List.filter (fun h => negb (shown idx include h)) ancestors in
  mkAssembled
    (map caller_of kept)
    (map h_Node (List.filter (no_callers idx) kept))
    (sort_strings (elements (list_to_set (map (fun h => n_Service (h_Node h)) kept) : gset string)))
    (trigger_list (tally (concat (map (foreign_sources idx) kept))))
    (omap h_Via kept)
    (tally (map (hit_class idx) hidden)).

(** ** Build, BuildMulti *)

(** The zero values of what is attached afterwards. *)
Definition no_trust : TrustStamp := mkTrust false false.
Definition no_verdict : Epistemic := mkEpistemic "" [].

Definition result_of (opts : Options) (now : option Z) (target : option Node) (targets : list Node)
    (a : Assembled) : Result :=
  mkResult target targets (a_callers a) (a_entryPoints a) (a_services a) (a_triggers a) (o_Depth opts)
    (direction (o_Direction opts)) (length (a_callers a)) [] ""
    (BuildVerificationSummaryAt (a_edges a) (o_StaleAfter opts) now) no_trust no_verdict [] "" "" None
    (a_hidden a).

(** [None] is a panic. *)
Definition Build (idx : AdjacencyIndex) (root : Node) (opts : Options) (now : option Z) : option Result :=
  ancestors ← traverseFrom idx (n_ID root) opts;
  Some (result_of opts now (Some root) [] (assemble idx ancestors (o_Include opts))).

(** The shallower hit of each node wins, the first of equals. *)
Definition keep_shallow (merged : gmap string hit) (a : hit) : gmap string hit :=
  match merged !! hit_id a with
  | None => <[hit_id a := a]> merged
  | Some existing => if (h_Depth a <? h_Depth existing)%nat then <[hit_id a := a]> merged else merged
  end.

Definition hit_less : hit -> hit -> bool :=
  less_by h_Depth Nat.ltb (fun a b => str_ltb (hit_id a) (hit_id b)).

(** The hits of every root. *)
Definition all_hits (idx : AdjacencyIndex) (roots : list Node) (opts : Options) : option (list hit) :=
  (fun l => concat l) <$> mapM (fun root => traverseFrom idx (n_ID root) opts) roots.

(** BuildMulti; [order] is the order in which the merged map is ranged over. *)
Definition BuildMulti (idx : AdjacencyIndex) (roots : list Node) (opts : Options) (now : option Z)
    (order : list (string * hit) -> list (string * hit)) : option Result :=
  match roots with
  | [root] => Build idx root opts now
  | [] => None
  | root :: _ =>
      hs ← all_hits idx roots opts;
      let merged := fold_left keep_shallow hs ∅ in
      let ancestors := sort_slice hit_less (map snd (order (map_to_list merged))) in
      Some (result_of opts now (Some root) roots (assemble idx ancestors (o_Include opts)))
  end.

(** ** What is added afterwards *)

Definition with_unresolved (refs : list UnresolvedRef) (note : string) (r : Result) : Result :=
  mkResult (r_Target r) (r_Targets r) (r_Callers r) (r_EntryPoints r) (r_ServicesAffected r)
    (r_CrossServiceTriggers r) (r_Depth r) (r_Direction r) (r_TotalCallers r) refs note
    (r_VerificationSummary r) (r_Trust r) (r_Epistemic r) (r_TargetCandidates r) (r_Status r)
    (r_ResolutionNote r) (r_Budget r) (r_HiddenByClass r).

Definition AttachUnresolved (refs : list UnresolvedRef) (r : Result) : Result :=
  let files : gset string :=
    list_to_set (match r_Target r with Some t => [n_File t] | None => [] end ++ map c_File (r_Callers r)) in
  let refs' := UnresolvedInFiles refs files in
  with_unresolved refs' (UnresolvedNote (Z.of_nat (length refs'))) r.

Definition FinalizeEpistemic (r : Result) : Result :=
  mkResult (r_Target r) (r_Targets r) (r_Callers r) (r_EntryPoints r) (r_ServicesAffected r)
    (r_CrossServiceTriggers r) (r_Depth r) (r_Direction r) (r_TotalCallers r) (r_Unresolved r)
    (r_UnresolvedNote r) (r_VerificationSummary r) (r_Trust r)
    (BuildEpistemic (r_Unresolved r) (HasWeakConfidence (map c_Confidence (r_Callers r)))
       (r_VerificationSummary r) (r_Trust r))
    (r_TargetCandidates r) (r_Status r) (r_ResolutionNote r) (r_Budget r) (r_HiddenByClass r).
