(* ===== verification/ImpactSpec.v ===== *)
(** What an impact query answers: the nodes the roots are reached from (or
    reach), each at its least distance from a root, and counts that account
    for every one of them. *)
From S2P Require Import Prelude.
From S2P Require Import GrModel.
From S2P Require Import GrTraverse.
From S2P Require Import GrTraverseSpec.
From S2P Require Import GrNoise.
From S2P Require Import GrVerdict.
From S2P Require Import Impact.

(** ** Hits *)

Lemma hits_some rs : (forall r, r ∈ rs -> is_Some (tr_Node r)) ->
  exists hs, hits rs = Some hs /\ Forall2 (fun r h => hit_of r = Some h) rs hs.
Proof.
  induction rs as [|r rs IH]; intros H; [exists []; split; [done|constructor]|].
  destruct (H r ltac:(left)) as [n Hn]. destruct IH as (hs & Hhs & Hf); [intros; apply H; by right|].
  assert (Hr : hit_of r = Some (mkHit n (tr_Via r) (tr_Depth r) (tr_Structural r))).
  { unfold hit_of. by rewrite Hn. }
  eexists. split; [|by constructor]. unfold hits in *. cbn. rewrite Hr. cbn. by rewrite Hhs.
Qed.

Section walk_hits.
Context (idx : AdjacencyIndex) (dir : string) (opts : Options).
Hypothesis W : wf_index idx.
Hypothesis C : closed_index idx.
Hypothesis Hterm : TerminalEdges (o_Policy opts) = ∅.

(** The distance from [root] to [x] along the walks the policy admits. *)
Definition at_distance (root x : string) (d : nat) : Prop :=
  x <> root /\ distance idx dir (o_Policy opts) root x d /\ within (o_Depth opts) d.

Record exact_hits (root : string) (hs : list hit) : Prop := {
  eh_node h : h ∈ hs -> Nodes idx !! hit_id h = Some (h_Node h);
  eh_NoDup : NoDup (map hit_id hs);
  eh_sorted : StronglySorted le (map h_Depth hs);
  eh_exact x d : (exists h, h ∈ hs /\ hit_id h = x /\ h_Depth h = d) <-> at_distance root x d
}.

Lemma walk_hits_spec root : is_Some (Nodes idx !! root) ->
  exists hs, walk_hits idx root dir opts = Some hs /\ exact_hits root hs.
Proof.
  intros Hroot. unfold walk_hits.
  destruct (traverse_results idx dir BFS (o_Depth opts) (o_Policy opts) root W) as (_ & Hnd & _ & _).
  destruct (bfs_distances idx dir (o_Depth opts) (o_Policy opts) root W Hroot Hterm) as [Hsort Hex].
  set (rs := TraverseWithPolicy idx root dir BFS (o_Depth opts) (o_Policy opts)) in *.
  assert (Hid : forall r, r ∈ rs -> exists n, tr_Node r = Some n /\ tr_ID dir r = Some (n_ID n) /\
    Nodes idx !! n_ID n = Some n).
  { intros r Hr. by apply (results_have_nodes idx dir BFS (o_Depth opts) (o_Policy opts) root). }
  clearbody rs.
  destruct (hits_some rs) as (hs & Hhs & Hf).
  { intros r Hr. destruct (Hid r Hr) as (n & Hn & _). by exists n. }
  exists hs. split; [done|].
  assert (Hdepth : map h_Depth hs = map tr_Depth rs /\ map (fun h => Some (hit_id h)) hs = map (tr_ID dir) rs /\
    forall h, h ∈ hs -> Nodes idx !! hit_id h = Some (h_Node h)).
  { clear -Hf Hid. induction Hf as [|r h rs hs Hr _ IH].
    - split_and!; [done..|]. intros h Hh. by apply elem_of_nil in Hh.
    - destruct IH as (H1 & H2 & H3); [intros; apply Hid; by right|].
      destruct (Hid r ltac:(left)) as (n & Hn & Hi & Hnode). unfold hit_of in Hr. rewrite Hn in Hr.
      injection Hr as <-. cbn. rewrite H1, H2, Hi. split_and!; [done..|].
      intros h [->|Hh]%elem_of_cons; [done|by apply H3]. }
  destruct Hdepth as (D1 & D2 & D3). split; [done| |by rewrite D1|].
  - apply (NoDup_fmap_1 (fun o : string => Some o)). rewrite <- list_fmap_compose.
    change (NoDup (map (fun h => Some (hit_id h)) hs)). by rewrite D2.
  - intros x d. unfold at_distance. rewrite <- Hex. clear -Hf Hid. split.
    + intros (h & Hh & <- & <-). apply list_elem_of_lookup in Hh as [i Hi].
      destruct (Forall2_lookup_r _ _ _ _ _ Hf Hi) as (r & Hr & Hrh). apply list_elem_of_lookup_2 in Hr.
      exists r. split; [done|]. destruct (Hid r Hr) as (n & Hn & HiD & _). unfold hit_of in Hrh.
      rewrite Hn in Hrh. injection Hrh as <-. done.
    + intros (r & Hr & Hx & <-). apply list_elem_of_lookup in Hr as [i Hi].
      destruct (Forall2_lookup_l _ _ _ _ _ Hf Hi) as (h & Hh & Hrh). apply list_elem_of_lookup_2 in Hi, Hh.
      exists h. split; [done|]. destruct (Hid r Hi) as (n & Hn & HiD & _). unfold hit_of in Hrh.
      rewrite Hn in Hrh. injection Hrh as <-. cbn. rewrite HiD in Hx. by injection Hx as <-.
Qed.
End walk_hits.

(** ** Merging *)

Lemma keep_shallow_spec hs x :
  match fold_left keep_shallow hs ∅ !! x with
  | Some h => h ∈ hs /\ hit_id h = x /\ forall h', h' ∈ hs -> hit_id h' = x -> h_Depth h <= h_Depth h'
  | None => forall h, h ∈ hs -> hit_id h <> x
  end.
Proof.
  induction hs as [|a hs IH] using rev_ind.
  { cbn [fold_left]. rewrite lookup_empty. intros h Hh. by apply elem_of_nil in Hh. }
  rewrite fold_left_app. cbn [fold_left]. set (m := fold_left keep_shallow hs ∅) in *.
  unfold keep_shallow.
  assert (Hother : hit_id a <> x -> match m !! x with
    | Some h => h ∈ hs ++ [a] /\ hit_id h = x /\ forall h', h' ∈ hs ++ [a] -> hit_id h' = x -> h_Depth h <= h_Depth h'
    | None => forall h, h ∈ hs ++ [a] -> hit_id h <> x
    end).
  { intros Hne. destruct (m !! x) as [h|].
    - destruct IH as (H1 & H2 & H3). split_and!; [apply elem_of_app; by left|done|].
      intros h' [Hh|Hh%list_elem_of_singleton]%elem_of_app; [by apply H3|congruence].
    - intros h [Hh|Hh%list_elem_of_singleton]%elem_of_app; [by apply IH|congruence]. }
  destruct (m !! hit_id a) as [ex|] eqn:Ea.
  - destruct (h_Depth a <? h_Depth ex) eqn:Ed; [apply Nat.ltb_lt in Ed|apply Nat.ltb_ge in Ed].
    + rewrite lookup_insert. case_decide as D; [|by apply Hother]. rewrite <- D, Ea in IH.
      destruct IH as (H1 & H2 & H3). split_and!; [apply elem_of_app; right; left|done|].
      intros h' [Hh|Hh%list_elem_of_singleton]%elem_of_app Hx; [|by subst].
      specialize (H3 h' Hh). rewrite D in H3. specialize (H3 Hx). lia.
    + destruct (decide (hit_id a = x)) as [D|D]; [|by apply Hother]. rewrite <- D in IH |- *. rewrite Ea in IH |- *.
      destruct IH as (H1 & H2 & H3). split_and!; [apply elem_of_app; by left|done|].
      intros h' [Hh|Hh%list_elem_of_singleton]%elem_of_app Hx; [by apply H3|by subst].
  - rewrite lookup_insert. case_decide as D; [|by apply Hother]. rewrite <- D, Ea in IH.
    split_and!; [apply elem_of_app; right; left|done|].
    intros h' [Hh|Hh%list_elem_of_singleton]%elem_of_app Hx; [|by subst]. by destruct (IH h' Hh); rewrite D.
Qed.

#[local] Instance hit_less_weak : WeakLess hit_less.
Proof. unfold hit_less. apply _. Qed.

Lemma hit_less_depth a b : may_precede hit_less a b -> h_Depth a <= h_Depth b.
Proof. unfold may_precede, hit_less, less_by. case_decide; [lia|]. rewrite Nat.ltb_ge. done. Qed.

Lemma sorted_map {A B} (R : relation A) (S : relation B) (f : A -> B) l :
  (forall x y, R x y -> S (f x) (f y)) -> StronglySorted R l -> StronglySorted S (map f l).
Proof.
  intros H. induction 1 as [|x l _ IH Hx]; cbn; constructor; [done|].
  rewrite Forall_forall in Hx. apply Forall_forall. intros y (z & -> & Hz)%list_elem_of_fmap. by apply H, Hx.
Qed.

(** The merged hits, shallowest first. *)
Definition merged_list (hs : list hit) (order : list (string * hit) -> list (string * hit)) : list hit :=
  sort_slice hit_less (map snd (order (map_to_list (fold_left keep_shallow hs ∅)))).

Lemma merged_list_spec hs order : (forall l, order l ≡ₚ l) ->
  let ms := merged_list hs order in
  NoDup (map hit_id ms) /\ StronglySorted le (map h_Depth ms) /\
  (forall h, h ∈ ms -> h ∈ hs /\ forall h', h' ∈ hs -> hit_id h' = hit_id h -> h_Depth h <= h_Depth h') /\
  forall h, h ∈ hs -> hit_id h ∈ map hit_id ms.
Proof.
  intros Ho. cbn zeta. unfold merged_list. set (m := fold_left keep_shallow hs ∅).
  assert (Hin : forall h, h ∈ sort_slice hit_less (map snd (order (map_to_list m))) <-> m !! hit_id h = Some h).
  { intros h. rewrite elem_of_sort_slice, list_elem_of_fmap. setoid_rewrite Ho. split.
    - intros ([x h'] & -> & H%elem_of_map_to_list). cbn. pose proof (keep_shallow_spec hs x) as Hk. fold m in Hk.
      rewrite H in Hk. destruct Hk as (_ & Hx & _). by rewrite Hx.
    - intros H. exists (hit_id h, h). by rewrite elem_of_map_to_list. }
  split_and!.
  - rewrite (Permutation_map hit_id (sort_slice_perm _ _)), map_map, (Permutation_map _ (Ho _)).
    rewrite (map_ext_in _ fst); [apply NoDup_fst_map_to_list|].
    intros [x h] H%list_elem_of_In%elem_of_map_to_list. cbn. pose proof (keep_shallow_spec hs x) as Hk. fold m in Hk.
    rewrite H in Hk. tauto.
  - eapply sorted_map; [apply hit_less_depth|apply sort_slice_sorted, _].
  - intros h Hh%Hin. pose proof (keep_shallow_spec hs (hit_id h)) as Hk. fold m in Hk. rewrite Hh in Hk.
    destruct Hk as (H1 & _ & H2). split; [done|]. intros. by apply H2.
  - intros h Hh. pose proof (keep_shallow_spec hs (hit_id h)) as Hk. fold m in Hk.
    destruct (m !! hit_id h) as [h'|] eqn:E; [|by destruct (Hk h Hh)]. destruct Hk as (_ & Hid & _).
    apply list_elem_of_fmap. exists h'. split; [done|]. apply Hin. by rewrite Hid.
Qed.

(** ** The hits of the roots *)

Definition walk_dir (opts : Options) : string := if str_eqb (o_Direction opts) "forward" then "out" else "in".

(** [x] is in the requested service, if one was. *)
Definition serves (idx : AdjacencyIndex) (opts : Options) (x : string) : Prop :=
  exists n, Nodes idx !! x = Some n /\ (o_Service opts = "" \/ n_Service n = o_Service opts).

Section roots.
Context (idx : AdjacencyIndex) (opts : Options).
Hypothesis W : wf_index idx.
Hypothesis C : closed_index idx.
Hypothesis Hterm : TerminalEdges (o_Policy opts) = ∅.
Hypothesis Hdir : o_Direction opts <> "both".

Abbreviation near := (at_distance idx (walk_dir opts) opts).

Lemma in_service_spec h : Nodes idx !! hit_id h = Some (h_Node h) ->
  in_service opts h = true <-> serves idx opts (hit_id h).
Proof.
  intros Hn. unfold in_service, serves. rewrite orb_true_iff, !String.eqb_eq, Hn. split.
  - intros H. by exists (h_Node h).
  - by intros (n & [= <-] & H).
Qed.

(** The hits of one root: each node of the service that is near it, once. *)
Lemma traverseFrom_spec root : is_Some (Nodes idx !! root) ->
  exists hs, traverseFrom idx root opts = Some hs /\ NoDup (map hit_id hs) /\
    StronglySorted le (map h_Depth hs) /\
    forall x d, (exists h, h ∈ hs /\ hit_id h = x /\ h_Depth h = d) <-> serves idx opts x /\ near root x d.
Proof.
  intros Hroot. destruct (walk_hits_spec idx (walk_dir opts) opts W C Hterm root Hroot) as (hs & Hhs & [H1 H2 H3 H4]).
  exists (List.filter (in_service opts) hs). split; [|split_and!].
  - unfold traverseFrom, walk_dir in *. destruct (str_eqb (o_Direction opts) "forward"); [by rewrite Hhs|].
    apply String.eqb_neq in Hdir. by rewrite Hdir, Hhs.
  - clear -H2. induction hs as [|h hs IH]; cbn in *; [constructor|]. apply NoDup_cons in H2 as [Hh H2].
    destruct (in_service opts h); [|by apply IH]. cbn. apply NoDup_cons. split; [|by apply IH].
    intros (h' & E & [Hin _]%elem_of_bfilter)%list_elem_of_fmap. apply Hh. rewrite E. by apply list_elem_of_fmap_2.
  - clear -H3. induction hs as [|h hs IH]; cbn in *; [constructor|]. apply StronglySorted_cons in H3 as [Hh H3].
    destruct (in_service opts h); [|by apply IH]. cbn. apply StronglySorted_cons. split; [|by apply IH].
    rewrite Forall_forall in *. intros d (h' & -> & [Hin _]%elem_of_bfilter)%list_elem_of_fmap.
    apply Hh. by apply list_elem_of_fmap_2.
  - intros x d. rewrite <- (H4 x d). split.
    + intros (h & [Hh Hs]%elem_of_bfilter & <- & <-). split; [by apply in_service_spec, Hs; apply H1|by exists h].
    + intros (Hs & h & Hh & <- & <-). exists h. rewrite elem_of_bfilter.
      split_and!; [done|by apply in_service_spec; [apply H1|]|done..].
Qed.

Lemma all_hits_spec roots : (forall r, r ∈ roots -> is_Some (Nodes idx !! n_ID r)) ->
  exists hs, all_hits idx roots opts = Some hs /\
    forall x d, (exists h, h ∈ hs /\ hit_id h = x /\ h_Depth h = d) <->
      serves idx opts x /\ exists root, root ∈ roots /\ near (n_ID root) x d.
Proof.
  unfold all_hits. induction roots as [|root roots IH]; intros Hr.
  { exists []. split; [done|]. intros x d. split; [intros (h & Hh & _)|intros (_ & r & Hh & _)]; by apply elem_of_nil in Hh. }
  destruct (traverseFrom_spec (n_ID root)) as (hs1 & E1 & _ & _ & Hex1); [apply Hr; left|].
  destruct IH as (hs2 & E2 & Hex2); [intros r Hin; apply Hr; by right|].
  exists (hs1 ++ hs2). split.
  - cbn. rewrite E1. cbn. destruct (mapM _ roots) as [ls|]; [|done]. cbn in *. by injection E2 as <-.
  - intros x d. setoid_rewrite elem_of_app. setoid_rewrite elem_of_cons.
    specialize (Hex1 x d). specialize (Hex2 x d). split.
    + intros (h & [Hh|Hh] & Hx & Hd).
      * destruct (proj1 Hex1) as [Hs Hn]; [by exists h|]. split; [done|]. exists root. auto.
      * destruct (proj1 Hex2) as (Hs & r & Hin & Hn); [by exists h|]. split; [done|]. exists r. auto.
    + intros (Hs & r & [->|Hin] & Hn).
      * destruct (proj2 Hex1) as (h & Hh & ? & ?); [done|]. exists h. auto.
      * destruct (proj2 Hex2) as (h & Hh & ? & ?); [by eauto|]. exists h. auto.
Qed.
End roots.

Lemma all_shown idx h : shown idx AllNoiseInclude h = true.
Proof. unfold shown, hit_class. destruct (h_Via h); [|done]. apply AllNoiseInclude_allows. Qed.

Lemma callers_of_all idx hs :
  a_callers (assemble idx hs AllNoiseInclude) = map caller_of hs.
Proof.
  cbn. f_equal. induction hs as [|h hs IH]; [done|]. cbn. by rewrite all_shown, IH.
Qed.

Lemma caller_of_key h : c_ID (caller_of h) = hit_id h /\ c_Depth (caller_of h) = h_Depth h.
Proof. unfold caller_of. by destruct (h_Via h). Qed.

Lemma map_caller_key hs : map c_ID (map caller_of hs) = map hit_id hs /\ map c_Depth (map caller_of hs) = map h_Depth hs.
Proof. induction hs as [|h hs [IH1 IH2]]; [done|]. cbn. destruct (caller_of_key h) as [-> ->]. by rewrite IH1, IH2. Qed.

Lemma exists_caller hs x d :
  (exists c, c ∈ map caller_of hs /\ c_ID c = x /\ c_Depth c = d) <->
  (exists h, h ∈ hs /\ hit_id h = x /\ h_Depth h = d).
Proof.
  split.
  - intros (c & (h & -> & Hh)%list_elem_of_fmap & <- & <-). destruct (caller_of_key h) as [-> ->]. by exists h.
  - intros (h & Hh & <- & <-). exists (caller_of h). destruct (caller_of_key h) as [-> ->].
    split; [by apply list_elem_of_fmap_2|done].
Qed.

(** C36: with every noise class shown and no terminal edges, the blast radius
    of any number of roots, backward or forward, is exactly the set of nodes
    of the requested service that an admissible walk within the depth limit
    connects to a root, each once, at its least distance from any root other
    than itself, in order of depth, whatever the order of the merged map. *)
Theorem BuildMulti_blast_radius idx roots opts now order :
  wf_index idx -> closed_index idx -> (forall l, order l ≡ₚ l) -> roots <> [] ->
  (forall r, r ∈ roots -> is_Some (Nodes idx !! n_ID r)) ->
  TerminalEdges (o_Policy opts) = ∅ -> o_Direction opts <> "both" -> o_Include opts = AllNoiseInclude ->
  exists r, BuildMulti idx roots opts now order = Some r /\ r_TotalCallers r = length (r_Callers r) /\
    NoDup (map c_ID (r_Callers r)) /\ StronglySorted le (map c_Depth (r_Callers r)) /\
    let near root x d := at_distance idx (walk_dir opts) opts (n_ID root) x d in
    forall x d, (exists c, c ∈ r_Callers r /\ c_ID c = x /\ c_Depth c = d) <->
      serves idx opts x /\ (exists root, root ∈ roots /\ near root x d) /\
      forall root d', root ∈ roots -> near root x d' -> d <= d'.
Proof.
  intros W C Ho Hne Hr Ht Hd Hinc.
  assert (Hfin : forall ms target targets,
    let r := result_of opts now target targets (assemble idx ms (o_Include opts)) in
    r_Callers r = map caller_of ms /\ r_TotalCallers r = length (r_Callers r)).
  { intros ms target targets. rewrite Hinc. cbn. by rewrite <- (callers_of_all idx ms). }
  destruct roots as [|root [|root2 rest]]; [done| |].
  - destruct (traverseFrom_spec idx opts W C Ht Hd (n_ID root)) as (hs & Hhs & Hn & Hs & Hex); [apply Hr; left|].
    eexists. split; [cbn; unfold Build; by rewrite Hhs|].
    destruct (Hfin hs (Some root) []) as [-> ->]. destruct (map_caller_key hs) as [-> ->].
    split_and!; [by rewrite length_map|done..|]. cbn zeta. intros x d. rewrite exists_caller, Hex.
    setoid_rewrite list_elem_of_singleton. split.
    + intros (Hsv & Hnear). split_and!; [done|by exists root|]. intros r d' -> Hnear'.
      destruct Hnear as (_ & [(es & Hw & <-) Hmin] & _), Hnear' as (_ & [(es' & Hw' & <-) _] & _). by apply Hmin.
    + intros (Hsv & (r & -> & Hnear) & _). done.
  - destruct (all_hits_spec idx opts W C Ht Hd (root :: root2 :: rest) Hr) as (hs & Hhs & Hex).
    destruct (merged_list_spec hs order Ho) as (M1 & M2 & M3 & M4).
    eexists. split; [unfold BuildMulti; rewrite Hhs; cbn [mbind option_bind]; fold (merged_list hs order); reflexivity|].
    destruct (Hfin (merged_list hs order) (Some root) (root :: root2 :: rest)) as [-> ->].
    destruct (map_caller_key (merged_list hs order)) as [-> ->].
    split_and!; [by rewrite length_map|done..|]. cbn zeta. intros x d. rewrite exists_caller. split.
    + intros (h & Hh & <- & <-). destruct (M3 h Hh) as [Hin Hmin].
      destruct (proj1 (Hex (hit_id h) (h_Depth h))) as [Hsv Hroot]; [by exists h|]. split_and!; [done..|].
      intros r d' Hr' Hnear. destruct (proj2 (Hex (hit_id h) d')) as (h' & Hh' & Hid & <-); [by eauto|].
      by apply Hmin.
    + intros (Hsv & Hroot & Hleast). destruct (proj2 (Hex x d)) as (h & Hh & Hid & Hdep); [done|].
      destruct (proj1 (list_elem_of_fmap _ _ _) (M4 h Hh)) as (h2 & Hid2 & Hh2). exists h2.
      split_and!; [done|congruence|]. destruct (M3 h2 Hh2) as [Hin2 Hmin].
      destruct (proj1 (Hex x (h_Depth h2))) as [_ (r & Hr' & Hnear)]; [exists h2; split_and!; [done|congruence|done]|].
      pose proof (Hleast r _ Hr' Hnear). pose proof (Hmin h Hh Hid2). subst. lia.
Qed.

(** ** Accounting *)

Definition total (m : gmap string Z) : Z := map_fold (fun _ v acc => v + acc)%Z 0%Z m.

Lemma total_insert m k v : total (<[k := v]> m) = (total m - default 0 (m !! k) + v)%Z.
Proof.
  unfold total. rewrite <- insert_delete_eq, map_fold_insert_L; [|intros; lia|by rewrite lookup_delete_eq].
  destruct (m !! k) as [w|] eqn:E; cbn [default].
  - rewrite (map_fold_delete_L _ _ k w m); [unfold id; lia|intros; lia|done].
  - rewrite delete_id by done. cbv beta. lia.
Qed.

Lemma total_tally keys : total (tally keys) = Z.of_nat (length keys).
Proof.
  unfold tally. induction keys as [|k keys IH] using rev_ind; [done|].
  rewrite fold_left_app. cbn [fold_left]. unfold count_key at 1. rewrite total_insert, IH, length_app. cbn. lia.
Qed.

Lemma trigger_list_spec keys svc n :
  mkTrigger svc n ∈ trigger_list (tally keys) <-> svc ∈ keys /\ n = Z.of_nat (occurrences svc keys).
Proof.
  unfold trigger_list. rewrite list_elem_of_fmap. setoid_rewrite elem_of_sort_strings.
  setoid_rewrite elem_of_elements. setoid_rewrite elem_of_dom.
  assert (H : forall s, is_Some (tally keys !! s) <-> s ∈ keys).
  { intros s. rewrite tally_lookup, <- occurrences_pos. destruct (occurrences s keys =? 0) eqn:E.
    - apply Nat.eqb_eq in E. split; [by intros []|lia].
    - apply Nat.eqb_neq in E. split; [lia|by eexists]. }
  setoid_rewrite H. setoid_rewrite tally_lookup. split.
  - intros (s & [= -> ->] & Hs). split; [done|]. apply occurrences_pos in Hs.
    by rewrite (proj2 (Nat.eqb_neq _ 0)) by lia.
  - intros [Hs ->]. exists svc. split; [|done]. apply occurrences_pos in Hs as Hp.
    by rewrite (proj2 (Nat.eqb_neq _ 0)) by lia.
Qed.

Lemma filter_split_length {A} (p : A -> bool) l :
  length (List.filter p l) + length (List.filter (fun x => negb (p x)) l) = length l.
Proof. induction l as [|x l IH]; [done|]. cbn. destruct (p x); cbn; lia. Qed.

(** Nothing is lost between the traversal and the answer: the callers
    shown and the hits tallied as hidden add up to the hits, each hidden class
    with its own count; the services listed are those of the callers, sorted;
    a cross-service trigger gives the number of edges from another service
    into the callers; the entry points are the callers nothing leads to. *)
Theorem assemble_accounts idx ancestors include :
  let a := assemble idx ancestors include in
  let kept := List.filter (shown idx include) ancestors in
  (Z.of_nat (length (a_callers a)) + total (a_hidden a) = Z.of_nat (length ancestors))%Z /\
  map c_ID (a_callers a) = map hit_id kept /\
  (forall c, default 0%Z (a_hidden a !! c) =
     Z.of_nat (length (List.filter (fun h => negb (shown idx include h) && str_eqb c (hit_class idx h)) ancestors))) /\
  StronglySorted String.le (a_services a) /\
  (forall s, s ∈ a_services a <-> exists h, h ∈ kept /\ n_Service (h_Node h) = s) /\
  (forall s n, mkTrigger s n ∈ a_triggers a <->
     n = Z.of_nat (occurrences s (concat (map (foreign_sources idx) kept))) /\ (0 < n)%Z) /\
  (forall n, n ∈ a_entryPoints a <-> exists h, h ∈ kept /\ h_Node h = n /\ in_of idx (n_ID n) = []).
Proof.
  cbn zeta. set (kept := List.filter (shown idx include) ancestors). split_and!.
  - cbn [a_callers a_hidden assemble]. rewrite total_tally, !length_map. fold kept.
    pose proof (filter_split_length (shown idx include) ancestors) as H. fold kept in H. lia.
  - cbn [a_callers assemble]. fold kept. by destruct (map_caller_key kept) as [-> _].
  - intros c. cbn [a_hidden assemble]. rewrite tally_lookup.
    assert (E : occurrences c (map (hit_class idx) (List.filter (fun h => negb (shown idx include h)) ancestors)) =
      length (List.filter (fun h => negb (shown idx include h) && str_eqb c (hit_class idx h)) ancestors)).
    { unfold occurrences. clear kept. induction ancestors as [|h hs IH]; [done|]. cbn [List.filter map].
      destruct (negb (shown idx include h)); cbn [andb map List.filter]; [|done].
      destruct (str_eqb c (hit_class idx h)); cbn; by rewrite IH. }
    rewrite E. by destruct (length _) eqn:El.
  - apply (StronglySorted_merge_sort String.le).
  - intros s. cbn [a_services assemble]. fold kept. rewrite elem_of_sort_strings, elem_of_elements, elem_of_list_to_set,
      list_elem_of_fmap. split; intros (h & H1 & H2); exists h; naive_solver.
  - intros s n. cbn [a_triggers assemble]. fold kept. rewrite trigger_list_spec, <- occurrences_pos. lia.
  - intros n. cbn [a_entryPoints assemble]. fold kept. rewrite list_elem_of_fmap. setoid_rewrite elem_of_bfilter.
    unfold no_callers. split.
    + intros (h & -> & Hh & He). exists h. split_and!; [done..|]. fold (hit_id h). by destruct (in_of idx (hit_id h)).
    + intros (h & Hh & <- & He). exists h. split_and!; [done..|]. unfold hit_id. by rewrite He.
Qed.

(** ** A concrete graph *)

Definition impact_opts (dir : string) (include : NoiseInclude) : Options :=
  mkOptions 0 "" dir RawPolicy 0 include.

(** Two roots, and a node that calls both, one directly. *)
Definition impact_index : AdjacencyIndex :=
  BuildIndex (map demo_node ["r1"; "r2"; "a"; "b"])
    [demo_edge EdgeTypeCalls "a" "r1"; demo_edge EdgeTypeCalls "b" "a"; demo_edge EdgeTypeCalls "b" "r2";
     demo_edge EdgeTypeCalls "r1" "b"].

Lemma BuildMulti_blast_radius_witness :
  let roots := [demo_node "r1"; demo_node "r2"] in
  let opts := impact_opts "" AllNoiseInclude in
  (exists r, BuildMulti impact_index roots opts None (@rev _) = Some r /\
     map (fun c => (c_ID c, c_Depth c)) (r_Callers r) = [("a", 1); ("b", 1); ("r1", 2)]) /\
  exists r, BuildMulti impact_index roots opts None (@rev _) = Some r /\ NoDup (map c_ID (r_Callers r)) /\
    StronglySorted le (map c_Depth (r_Callers r)).
Proof.
  cbn zeta. split; [eexists; split; vm_compute; reflexivity|].
  assert (W : wf_index impact_index) by apply wf_BuildIndex.
  assert (C : closed_index impact_index) by (apply closed_by_eval; [exact W|vm_compute; reflexivity]).
  destruct (BuildMulti_blast_radius impact_index [demo_node "r1"; demo_node "r2"] (impact_opts "" AllNoiseInclude)
    None (@rev _) W C) as (r & H1 & _ & H2 & H3 & _).
  - intros l. symmetry. apply Permutation_rev.
  - discriminate.
  - intros n Hn. apply elem_of_cons in Hn as [->|Hn]; [exists (demo_node "r1"); vm_compute; reflexivity|].
    apply list_elem_of_singleton in Hn as ->. exists (demo_node "r2"). vm_compute. reflexivity.
  - reflexivity.
  - discriminate.
  - reflexivity.
  - exists r. split; [exact H1|]. split; [exact H2|exact H3].
Defined.

(** In both directions a node keeps its backward hit, even when the forward
    one is shallower. *)
Lemma both_keeps_the_backward_hit :
  (exists r, Build impact_index (demo_node "r1") (impact_opts "forward" AllNoiseInclude) None = Some r /\
     map (fun c => (c_ID c, c_Depth c)) (r_Callers r) = [("b", 1); ("a", 2); ("r2", 2)]) /\
  exists r, Build impact_index (demo_node "r1") (impact_opts "both" AllNoiseInclude) None = Some r /\
    map (fun c => (c_ID c, c_Depth c)) (r_Callers r) = [("a", 1); ("b", 2); ("r2", 2)].
Proof. split; eexists; split; vm_compute; reflexivity. Qed.
