(* ===== verification/GitDiff.v ===== *)
(** Reading a diff (internal/gitdiff/gitdiff.go): the changed spans of each
    file, and the diffs of several repository roots. *)
From S2P Require Import Prelude.
From S2P Require Import GoStrings.
From S2P Require Import Budget.
Local Open Scope Z_scope.

Record Span : Type := mkSpan { Start : Z; End_ : Z }.
Record FileChange : Type := mkChange { Path : string; Deleted : bool; Spans : list Span }.

(** ** The scanner *)

Definition newline : ascii := "010".

(** bufio.ScanLines drops one carriage return. *)
Definition drop_cr (l : string) : string := TrimSuffix l (String "013" "").

(** The longest line the scanner's buffer takes; a longer one ends the scan. *)
Definition max_token : Z := 4 * 1024 * 1024.

Fixpoint take_short (ls : list string) : list string :=
  match ls with
  | [] => []
  | l :: ls' => if Z.of_nat (str_len l) <? max_token then drop_cr l :: take_short ls' else []
  end.

(** What follows the last newline is a line unless it is empty. *)
Definition raw_lines (s : string) : list string :=
  let ls := Split newline s in
  match last ls with Some "" => removelast ls | _ => ls end.

Definition scan_lines (s : string) : list string := take_short (raw_lines s).

(** ** The hunk header *)

Fixpoint take_digits (s : string) : string * string :=
  match s with
  | String c s' =>
      match digit_val c with
      | Some _ => let '(d, r) := take_digits s' in (String c d, r)
      | None => ("", s)
      end
  | "" => ("", "")
  end.

(** [\d+] *)
Definition some_digits (s : string) : option (string * string) :=
  match take_digits s with ("", _) => None | r => Some r end.

(** [(?:,(\d+))?]; empty when absent. *)
Definition opt_count (s : string) : option (string * string) :=
  match s with
  | String "," s' => some_digits s'
  | _ => Some ("", s)
  end.

Definition literal (p s : string) : option string :=
  if HasPrefix s p then Some (str_drop (str_len p) s) else None.

(** hunkRe.FindStringSubmatch: the two groups. *)
Definition hunkRe (line : string) : option (string * string) :=
  s ← literal "@@ -" line;
  '(_, s) ← some_digits s;
  '(_, s) ← opt_count s;
  s ← literal " +" s;
  '(start, s) ← some_digits s;
  '(count, s) ← opt_count s;
  _ ← literal " @@" s;
  Some (start, count).

(** The span a matched header names. *)
Definition hunk_span (m : string * string) : Span :=
  let start := fst (Atoi (fst m)) in
  let count := if str_eqb (snd m) "" then 1 else fst (Atoi (snd m)) in
  if count =? 0 then let start := if start <? 1 then 1 else start in mkSpan start start
  else mkSpan start (wrap64 (wrap64 (start + count) - 1)).

(** ** Parse *)

(** [cur], when set, points at the last change of [out]. *)
Record pstate : Type := mkP {
  p_out : list FileChange; p_cur : bool; p_oldPath : string; p_inHeader : bool
}.

(** The change [cur] points at. *)
Definition cur_change (st : pstate) : option FileChange := if p_cur st then last (p_out st) else None.

Definition parse_line (st : pstate) (line : string) : pstate :=
  if HasPrefix line "diff --git " then mkP (p_out st) false "" true
  else if p_inHeader st && HasPrefix line "--- " then
    mkP (p_out st) (p_cur st) (TrimPrefix (TrimPrefix line "--- ") "a/") (p_inHeader st)
  else if p_inHeader st && HasPrefix line "+++ " then
    let p := TrimPrefix line "+++ " in
    let ch := if str_eqb p "/dev/null" then mkChange (p_oldPath st) true []
              else mkChange (TrimPrefix p "b/") false [] in
    mkP (p_out st ++ [ch]) true (p_oldPath st) false
  else if HasPrefix line "@@ " then
    match cur_change st with
    | None => st
    | Some cur =>
        if Deleted cur then st
        else
          match hunkRe line with
          | None => st
          | Some m =>
              mkP (removelast (p_out st) ++ [mkChange (Path cur) (Deleted cur) (Spans cur ++ [hunk_span m])])
                (p_cur st) (p_oldPath st) (p_inHeader st)
          end
    end
  else st.

Definition parse_lines (lines : list string) : list FileChange :=
  p_out (fold_left parse_line lines (mkP [] false "" false)).

(** Parse *)
Definition Parse (s : string) : list FileChange := parse_lines (scan_lines s).

(** ** Roots *)

Record ServiceDir : Type := mkDir { sd_Name : string; sd_Path : string }.
Record ServiceRoot : Type := mkRoot { sr_Service : string; sr_Root : string; sr_NoGitRepo : bool }.

(** [git dir args] runs git in a directory: its output, or the error;
    [Clean] and [Join] are those of path/filepath. *)
Section git.
Context (git : string -> list string -> result string string) (Clean : string -> string)
  (Join : string -> string -> string).

Definition Changes (dir : string) (staged : bool) : result string (list FileChange) :=
  out ← git dir (["diff"; "-U0"; "--no-color"; "--no-ext-diff"; "--relative"] ++
                 if staged then ["--cached"] else ["HEAD"]);
  Ok (Parse out).

Definition Root (dir : string) : result string string :=
  out ← git "" ["-C"; dir; "rev-parse"; "--show-toplevel"];
  Ok (Clean (TrimSpace out)).

Definition resolve_one (cache : gmap string ServiceRoot) (svc : ServiceDir) : gmap string ServiceRoot * ServiceRoot :=
  match cache !! sd_Path svc with
  | Some cached => (cache, mkRoot (sd_Name svc) (sr_Root cached) (sr_NoGitRepo cached))
  | None =>
      let cached := match Root (sd_Path svc) with
                    | Ok root => mkRoot "" root false
                    | Err _ => mkRoot "" "" true
                    end in
      (<[sd_Path svc := cached]> cache, mkRoot (sd_Name svc) (sr_Root cached) (sr_NoGitRepo cached))
  end.

Fixpoint resolve_loop (cache : gmap string ServiceRoot) (services : list ServiceDir) : list ServiceRoot :=
  match services with
  | [] => []
  | svc :: services' => let '(cache', r) := resolve_one cache svc in r :: resolve_loop cache' services'
  end.
Definition ResolveRoots (services : list ServiceDir) : list ServiceRoot := resolve_loop ∅ services.

(** The roots to diff, each once. *)
Definition distinct_roots (roots : list ServiceRoot) : list string :=
  sort_strings (elements (list_to_set (omap (fun r => if sr_NoGitRepo r then None else Some (sr_Root r)) roots)
    : gset string)).

Fixpoint changes_of (distinct : list string) (staged : bool) : result string (list FileChange) :=
  match distinct with
  | [] => Ok []
  | root :: distinct' =>
      changes ← Changes root staged;
      rest ← changes_of distinct' staged;
      Ok (map (fun ch => mkChange (Join root (Path ch)) (Deleted ch) (Spans ch)) changes ++ rest)
  end.

Definition MultiChanges (roots : list ServiceRoot) (staged : bool) : result string (list FileChange) :=
  changes_of (distinct_roots roots) staged.
End git.

(** * Theorems

    Reading back a printed diff gives the spans it was printed from, whatever
    the content lines look like; roots are resolved once each. *)

(** ** The diffs git prints without context lines *)

Inductive content : Type :=
| Added (s : string)
| Removed (s : string)
| NoNewline.

Record hunk : Type := mkHunk {
  h_oldStart : Z; h_oldCount : Z; h_start : Z; h_count : Z; h_context : string; h_body : list content
}.

Inductive kind : Type :=
| Modified (old new : string)
| Created (path : string)
| Gone (path : string)
| HeaderOnly.

Record file_diff : Type := mkDiff { d_names : string; d_header : list string; d_kind : kind; d_hunks : list hunk }.

Definition print_content (c : content) : string :=
  match c with
  | Added s => "+" +:+ s
  | Removed s => "-" +:+ s
  | NoNewline => "\ No newline at end of file"
  end.

(** git leaves out a count of one. *)
Definition print_range (start count : Z) : string :=
  itoa start +:+ (if count =? 1 then "" else "," +:+ itoa count).

Definition print_hunk_header (h : hunk) : string :=
  "@@ -" +:+ print_range (h_oldStart h) (h_oldCount h) +:+ " +" +:+ print_range (h_start h) (h_count h) +:+
  " @@" +:+ h_context h.

Definition print_hunk (h : hunk) : list string := print_hunk_header h :: map print_content (h_body h).

Definition print_kind (k : kind) : list string :=
  match k with
  | Modified old new => ["--- a/" +:+ old; "+++ b/" +:+ new]
  | Created path => ["--- /dev/null"; "+++ b/" +:+ path]
  | Gone path => ["--- a/" +:+ path; "+++ /dev/null"]
  | HeaderOnly => []
  end.

Definition print_file (d : file_diff) : list string :=
  ("diff --git " +:+ d_names d) :: d_header d ++ print_kind (d_kind d) ++ concat (map print_hunk (d_hunks d)).

Definition unlines (ls : list string) : string :=
  foldr (fun l acc => l +:+ String newline acc) "" ls.

(** ** What Parse should find *)

Definition span_of (h : hunk) : Span :=
  if h_count h =? 0 then mkSpan (Z.max 1 (h_start h)) (Z.max 1 (h_start h))
  else mkSpan (h_start h) (h_start h + h_count h - 1).

Definition changes_in (d : file_diff) : list FileChange :=
  match d_kind d with
  | Modified _ path | Created path => [mkChange path false (map span_of (d_hunks d))]
  | Gone path => [mkChange path true []]
  | HeaderOnly => []
  end.

(** ** Well-formed diffs *)

(** A line the scanner hands on: short, without a newline. *)
Fixpoint no_newline (s : string) : bool :=
  match s with "" => true | String c s' => negb (Ascii.eqb newline c) && no_newline s' end.
Definition line_ok (l : string) : Prop := no_newline l = true /\ Z.of_nat (str_len l) < max_token.

(** A line of the extended header is none of the lines Parse looks for. *)
Definition header_ok (l : string) : Prop :=
  HasPrefix (drop_cr l) "diff --git " = false /\ HasPrefix (drop_cr l) "--- " = false /\
  HasPrefix (drop_cr l) "+++ " = false /\ HasPrefix (drop_cr l) "@@ " = false.

Definition hunk_ok (h : hunk) : Prop :=
  0 <= h_oldStart h /\ 0 <= h_oldCount h /\ 0 <= h_start h /\ 0 <= h_count h /\
  h_start h + h_count h <= max_int64.

Record diff_ok (d : file_diff) : Prop := {
  ok_lines : Forall line_ok (print_file d);
  ok_header : Forall header_ok (d_header d);
  ok_kind : Forall (fun l => drop_cr l = l) (print_kind (d_kind d));
  ok_hunks : Forall hunk_ok (d_hunks d);
  ok_only : d_kind d = HeaderOnly -> d_hunks d = []
}.

(** ** Numbers *)

Lemma app_empty s : "" +:+ s = s.
Proof. done. Qed.
Lemma app_cons c s t : String c s +:+ t = String c (s +:+ t).
Proof. done. Qed.

Lemma take_digits_app s acc v rest : digits_val acc s = Some v ->
  (match rest with "" => True | String c _ => digit_val c = None end) ->
  take_digits (s +:+ rest) = (s, rest).
Proof.
  intros Hs Hr. revert acc Hs. induction s as [|c s IH]; intros acc; rewrite ?app_empty, ?app_cons; cbn [digits_val take_digits].
  - destruct rest as [|c r]; [done|]. cbn [take_digits]. by rewrite Hr.
  - destruct (digit_val c); [|done]. intros Hs. by rewrite (IH _ Hs).
Qed.

Lemma itoa_nonempty n : 0 <= n -> exists c s, itoa n = String c s /\ is_Some (digit_val c).
Proof.
  intros Hn. pose proof (digits_val_itoa n Hn) as H. destruct (itoa n) as [|c s] eqn:E.
  - injection H as <-. by vm_compute in E.
  - exists c, s. split; [done|]. cbn [digits_val] in H. by destruct (digit_val c).
Qed.

Lemma some_digits_itoa n rest : 0 <= n ->
  (match rest with "" => True | String c _ => digit_val c = None end) ->
  some_digits (itoa n +:+ rest) = Some (itoa n, rest).
Proof.
  intros Hn Hr. unfold some_digits. rewrite (take_digits_app _ _ _ _ (digits_val_itoa n Hn) Hr).
  by destruct (itoa_nonempty n Hn) as (c & s & -> & _).
Qed.

Lemma Atoi_itoa n : 0 <= n <= max_int64 -> Atoi (itoa n) = (n, true).
Proof.
  intros [Hn Hm]. pose proof (digits_val_itoa n Hn) as H.
  destruct (itoa_nonempty n Hn) as (c & s & E & Hc). rewrite E in *. unfold Atoi.
  assert (Hsign : match String c s with
    | String "-" s' => (true, s') | String "+" s' => (false, s') | _ => (false, String c s) end = (false, String c s)).
  { destruct c as [[] [] [] [] [] [] [] []]; try reflexivity; by destruct Hc. }
  rewrite Hsign, H. rewrite (proj2 (Z.ltb_ge _ _)) by lia. unfold max_int64 in *.
  by rewrite (proj2 (Z.ltb_ge _ _)) by lia.
Qed.

(** ** One hunk header *)

Lemma literal_app p s : literal p (p +:+ s) = Some s.
Proof.
  unfold literal, HasPrefix.
  assert (H : Stdlib.Strings.String.prefix p (p +:+ s) = true /\ str_drop (str_len p) (p +:+ s) = s).
  { induction p as [|c p [IH1 IH2]]; [rewrite app_empty; by destruct s|]. rewrite app_cons. cbn.
    destruct (ascii_dec c c); done. }
  by destruct H as [-> ->].
Qed.

Definition no_digit (s : string) : Prop := match s with "" => True | String c _ => digit_val c = None end.

(** The count of a range, and what follows it. *)
Lemma opt_count_range count rest : 0 <= count -> no_digit rest ->
  (match rest with String "," _ => False | _ => True end) ->
  opt_count ((if count =? 1 then "" else "," +:+ itoa count) +:+ rest) =
  Some (if count =? 1 then "" else itoa count, rest).
Proof.
  intros Hc Hr Hcomma. destruct (count =? 1).
  - rewrite app_empty. unfold opt_count. destruct rest as [|c r]; [done|].
    destruct c as [[] [] [] [] [] [] [] []]; done.
  - change ("," +:+ itoa count) with (String "," (itoa count)). rewrite app_cons. unfold opt_count.
    by apply some_digits_itoa.
Qed.

Lemma range_no_digit count rest : no_digit rest -> no_digit ((if count =? 1 then "" else "," +:+ itoa count) +:+ rest).
Proof. by destruct (count =? 1). Qed.

Lemma app_assoc_str (a b c : string) : (a +:+ b) +:+ c = a +:+ (b +:+ c).
Proof. induction a as [|x a IH]; [done|]. rewrite !app_cons. by f_equal. Qed.

Lemma hunkRe_print h : hunk_ok h ->
  hunkRe (print_hunk_header h) =
  Some (itoa (h_start h), if h_count h =? 1 then "" else itoa (h_count h)).
Proof.
  intros (H1 & H2 & H3 & H4 & _). unfold hunkRe, print_hunk_header, print_range.
  rewrite literal_app. cbn [mbind option_bind]. rewrite !app_assoc_str.
  rewrite some_digits_itoa; [|done|by apply range_no_digit]. cbn [mbind option_bind].
  rewrite opt_count_range; [|done..]. cbn [mbind option_bind]. rewrite literal_app. cbn [mbind option_bind].
  rewrite some_digits_itoa; [|done|by apply range_no_digit]. cbn [mbind option_bind].
  rewrite opt_count_range; [|done..]. cbn [mbind option_bind]. by rewrite literal_app.
Qed.

Lemma hunk_span_print h : hunk_ok h ->
  hunk_span (itoa (h_start h), if h_count h =? 1 then "" else itoa (h_count h)) = span_of h.
Proof.
  intros (_ & _ & H3 & H4 & H5). unfold hunk_span, span_of. cbn [fst snd].
  rewrite Atoi_itoa by (unfold max_int64 in *; lia). cbn [fst].
  assert (Hcount : (if str_eqb (if h_count h =? 1 then "" else itoa (h_count h)) "" then 1
    else fst (Atoi (if h_count h =? 1 then "" else itoa (h_count h)))) = h_count h).
  { destruct (h_count h =? 1) eqn:E; [cbn; lia|]. destruct (itoa_nonempty (h_count h) H4) as (c & s & Es & _).
    rewrite Es at 1. cbn [str_eqb]. by rewrite Atoi_itoa by (unfold max_int64 in *; lia). }
  cbv zeta. rewrite Hcount. destruct (h_count h =? 0) eqn:E0.
  - destruct (h_start h <? 1) eqn:E1; f_equal; lia.
  - f_equal. unfold wrap64, max_int64 in *. rewrite (Z.mod_small (h_start h + h_count h + 2 ^ 63)) by lia.
    rewrite Z.mod_small by lia. lia.
Qed.

(** ** One file *)

Definition in_file (out : list FileChange) (ch : FileChange) (oldPath : string) : pstate :=
  mkP (out ++ [ch]) true oldPath false.

Definition CR : ascii := "013".

Lemma drop_cr_cons c s :
  drop_cr (String c s) = match s with "" => if Ascii.eqb c CR then "" else String c "" | _ => String c (drop_cr s) end.
Proof.
  unfold drop_cr, TrimSuffix, HasSuffix. fold CR. destruct s as [|d s].
  - cbn. destruct (Ascii.eqb c CR); done.
  - change (str_len (String CR "")) with 1%nat. change (str_len (String c (String d s))) with (S (S (str_len s))).
    change (str_len (String d s)) with (S (str_len s)). cbn [Nat.leb Nat.sub andb]. rewrite Nat.sub_0_r.
    change (str_drop (S (str_len s)) (String c (String d s))) with (str_drop (str_len s) (String d s)).
    by destruct (str_eqb (str_drop (str_len s) (String d s)) (String CR "")).
Qed.

Lemma drop_cr_app a c s : Ascii.eqb c CR = false -> drop_cr (a +:+ String c s) = a +:+ String c (drop_cr s).
Proof.
  intros Hc. induction a as [|b a IH].
  - rewrite !app_empty, drop_cr_cons, Hc. by destruct s.
  - rewrite !app_cons, drop_cr_cons. destruct (a +:+ String c s) as [|d r] eqn:E; [by destruct a|]. by rewrite IH.
Qed.

Lemma parse_content out ch old c : parse_line (in_file out ch old) (drop_cr (print_content c)) = in_file out ch old.
Proof.
  destruct c as [s|s|]; cbn [print_content]; [| |reflexivity].
  - change ("+" +:+ s) with ("" +:+ String "+" s). by rewrite drop_cr_app.
  - change ("-" +:+ s) with ("" +:+ String "-" s). by rewrite drop_cr_app.
Qed.

Lemma parse_contents out ch old body :
  fold_left parse_line (map drop_cr (map print_content body)) (in_file out ch old) = in_file out ch old.
Proof. induction body as [|c body IH]; [done|]. cbn [map fold_left]. by rewrite parse_content. Qed.

(** The header with its context's carriage return dropped. *)
Definition strip_context (h : hunk) : hunk :=
  mkHunk (h_oldStart h) (h_oldCount h) (h_start h) (h_count h) (drop_cr (h_context h)) (h_body h).

Lemma drop_cr_header h : drop_cr (print_hunk_header h) = print_hunk_header (strip_context h).
Proof.
  unfold print_hunk_header. cbn [strip_context h_oldStart h_oldCount h_start h_count h_context].
  rewrite <- !app_assoc_str.
  assert (H : forall a ctx, drop_cr ((a +:+ " @@") +:+ ctx) = (a +:+ " @@") +:+ drop_cr ctx).
  { intros a ctx. change " @@" with (" @" +:+ "@"). rewrite <- app_assoc_str, !app_assoc_str.
    rewrite <- (app_assoc_str a " @"), <- (app_assoc_str a " @" ("@" +:+ drop_cr ctx)). by apply drop_cr_app. }
  apply H.
Qed.

Lemma parse_hunk_header out ch old h : hunk_ok h -> Deleted ch = false ->
  parse_line (in_file out ch old) (drop_cr (print_hunk_header h)) =
  in_file out (mkChange (Path ch) false (Spans ch ++ [span_of h])) old.
Proof.
  intros Hh Hd. rewrite drop_cr_header.
  assert (Hh' : hunk_ok (strip_context h)) by done.
  pose proof (hunkRe_print _ Hh') as Hre. unfold parse_line, cur_change, in_file. cbn [p_inHeader p_cur p_out andb].
  assert (Hpre : HasPrefix (print_hunk_header (strip_context h)) "diff --git " = false /\
    HasPrefix (print_hunk_header (strip_context h)) "@@ " = true) by done.
  destruct Hpre as [-> ->]. rewrite last_snoc, Hd, Hre, (hunk_span_print _ Hh'), removelast_last. done.
Qed.

Lemma parse_hunks out ch old hs : Forall hunk_ok hs -> Deleted ch = false ->
  fold_left parse_line (map drop_cr (concat (map print_hunk hs))) (in_file out ch old) =
  in_file out (mkChange (Path ch) false (Spans ch ++ map span_of hs)) old.
Proof.
  intros Hs Hd. revert ch Hd. induction Hs as [|h hs Hh _ IH]; intros ch Hd; cbn [map concat].
  - rewrite app_nil_r. cbn. destruct ch as [p d sp]. cbn in *. by subst.
  - rewrite map_app, fold_left_app. unfold print_hunk. cbn [map fold_left].
    rewrite parse_hunk_header, parse_contents, IH by done. cbn [Path Spans]. by rewrite <- app_assoc.
Qed.

Lemma parse_hunks_deleted out ch old hs : Deleted ch = true ->
  fold_left parse_line (map drop_cr (concat (map print_hunk hs))) (in_file out ch old) = in_file out ch old.
Proof.
  intros Hd. induction hs as [|h hs IH]; [done|]. cbn [map concat].
  rewrite map_app, fold_left_app. unfold print_hunk. cbn [map fold_left].
  assert (Hhead : parse_line (in_file out ch old) (drop_cr (print_hunk_header h)) = in_file out ch old).
  { rewrite drop_cr_header. unfold parse_line, cur_change, in_file. cbn [p_inHeader p_cur p_out andb].
    assert (Hpre : HasPrefix (print_hunk_header (strip_context h)) "diff --git " = false /\
      HasPrefix (print_hunk_header (strip_context h)) "@@ " = true) by done.
    destruct Hpre as [-> ->]. by rewrite last_snoc, Hd. }
  by rewrite Hhead, parse_contents.
Qed.

Lemma HasPrefix_app p s : HasPrefix (p +:+ s) p = true.
Proof. pose proof (literal_app p s) as H. unfold literal in H. by destruct (HasPrefix (p +:+ s) p). Qed.

Lemma TrimPrefix_app p s : TrimPrefix (p +:+ s) p = s.
Proof.
  unfold TrimPrefix. rewrite HasPrefix_app. pose proof (literal_app p s) as H. unfold literal in H.
  rewrite HasPrefix_app in H. by injection H.
Qed.

Lemma parse_header out hs : Forall header_ok hs ->
  fold_left parse_line (map drop_cr hs) (mkP out false "" true) = mkP out false "" true.
Proof.
  induction 1 as [|l hs (H1 & H2 & H3 & H4) _ IH]; [done|]. cbn [map fold_left].
  assert (Hl : parse_line (mkP out false "" true) (drop_cr l) = mkP out false "" true).
  { unfold parse_line. cbn [p_inHeader andb]. by rewrite H1, H2, H3, H4. }
  by rewrite Hl.
Qed.

Lemma parse_file d st : diff_ok d ->
  exists cur old inh, fold_left parse_line (map drop_cr (print_file d)) st = mkP (p_out st ++ changes_in d) cur old inh.
Proof.
  intros [_ Hh Hk Hhk Honly]. unfold print_file. cbn [map fold_left].
  assert (Hstart : parse_line st (drop_cr ("diff --git " +:+ d_names d)) = mkP (p_out st) false "" true).
  { change ("diff --git " +:+ d_names d) with ("diff --git" +:+ String " " (d_names d)).
    rewrite drop_cr_app by reflexivity. unfold parse_line.
    change ("diff --git" +:+ String " " (drop_cr (d_names d))) with ("diff --git " +:+ drop_cr (d_names d)).
    by rewrite HasPrefix_app. }
  rewrite Hstart, !map_app, !fold_left_app, parse_header by done. clear Hstart Hh.
  assert (Hkm : map drop_cr (print_kind (d_kind d)) = print_kind (d_kind d)).
  { clear -Hk. induction Hk as [|l ls Hl _ IH]; [done|]. cbn. by rewrite Hl, IH. }
  rewrite Hkm. unfold changes_in. destruct (d_kind d) as [old new|path|path|]; cbn [print_kind fold_left].
  - exists true, old, false.
    replace (parse_line (parse_line (mkP (p_out st) false "" true) ("--- a/" +:+ old)) ("+++ b/" +:+ new))
      with (in_file (p_out st) (mkChange new false []) old).
    { by rewrite parse_hunks. }
    change ("--- a/" +:+ old) with ("--- " +:+ ("a/" +:+ old)). change ("+++ b/" +:+ new) with ("+++ " +:+ ("b/" +:+ new)).
    assert (H1 : parse_line (mkP (p_out st) false "" true) ("--- " +:+ ("a/" +:+ old)) = mkP (p_out st) false old true).
    { unfold parse_line. change (HasPrefix ("--- " +:+ ("a/" +:+ old)) "diff --git ") with false.
      change (HasPrefix ("--- " +:+ ("a/" +:+ old)) "--- ") with true. cbn [p_inHeader andb p_out p_cur].
      by rewrite !TrimPrefix_app. }
    rewrite H1. unfold parse_line. change (HasPrefix ("+++ " +:+ ("b/" +:+ new)) "diff --git ") with false.
    change (HasPrefix ("+++ " +:+ ("b/" +:+ new)) "--- ") with false.
    change (HasPrefix ("+++ " +:+ ("b/" +:+ new)) "+++ ") with true. cbn [p_inHeader andb p_out p_oldPath].
    rewrite TrimPrefix_app. change (str_eqb ("b/" +:+ new) "/dev/null") with false. by rewrite TrimPrefix_app.
  - exists true, "/dev/null", false.
    replace (parse_line (parse_line (mkP (p_out st) false "" true) "--- /dev/null") ("+++ b/" +:+ path))
      with (in_file (p_out st) (mkChange path false []) "/dev/null").
    { by rewrite parse_hunks. }
    change (parse_line (mkP (p_out st) false "" true) "--- /dev/null") with (mkP (p_out st) false "/dev/null" true).
    change ("+++ b/" +:+ path) with ("+++ " +:+ ("b/" +:+ path)).
    unfold parse_line. change (HasPrefix ("+++ " +:+ ("b/" +:+ path)) "diff --git ") with false.
    change (HasPrefix ("+++ " +:+ ("b/" +:+ path)) "--- ") with false.
    change (HasPrefix ("+++ " +:+ ("b/" +:+ path)) "+++ ") with true. cbn [p_inHeader andb p_out p_oldPath].
    rewrite TrimPrefix_app. change (str_eqb ("b/" +:+ path) "/dev/null") with false. by rewrite TrimPrefix_app.
  - exists true, path, false.
    replace (parse_line (parse_line (mkP (p_out st) false "" true) ("--- a/" +:+ path)) "+++ /dev/null")
      with (in_file (p_out st) (mkChange path true []) path).
    { by rewrite parse_hunks_deleted. }
    change ("--- a/" +:+ path) with ("--- " +:+ ("a/" +:+ path)).
    unfold parse_line at 2. change (HasPrefix ("--- " +:+ ("a/" +:+ path)) "diff --git ") with false.
    change (HasPrefix ("--- " +:+ ("a/" +:+ path)) "--- ") with true. cbn [p_inHeader andb p_out p_cur].
    by rewrite !TrimPrefix_app.
  - rewrite Honly by done. cbn. rewrite app_nil_r. by eexists _, _, _.
Qed.

(** ** The scanner *)

Lemma Split_line l rest : no_newline l = true ->
  Split newline (l +:+ String newline rest) = l :: Split newline rest.
Proof.
  induction l as [|c l IH]; intros H.
  - rewrite app_empty. cbn [Split]. change (Ascii.eqb newline newline) with true. done.
  - cbn [no_newline] in H. apply andb_prop in H as [Hc H]. rewrite app_cons. cbn [Split].
    apply negb_true_iff in Hc. rewrite Hc. by rewrite (IH H).
Qed.

Lemma raw_lines_unlines ls : Forall line_ok ls -> raw_lines (unlines ls) = ls.
Proof.
  intros H. assert (Hs : Split newline (unlines ls) = ls ++ [""]).
  { induction H as [|l ls [Hl _] _ IH]; [done|]. change (unlines (l :: ls)) with (l +:+ String newline (unlines ls)).
    by rewrite Split_line, IH. }
  unfold raw_lines. by rewrite Hs, last_snoc, removelast_last.
Qed.

Lemma scan_unlines ls : Forall line_ok ls -> scan_lines (unlines ls) = map drop_cr ls.
Proof.
  intros H. unfold scan_lines. rewrite raw_lines_unlines by done.
  induction H as [|l ls [_ Hl] _ IH]; [done|]. cbn [take_short map]. apply Z.ltb_lt in Hl. by rewrite Hl, IH.
Qed.

(** C40: parsing the diffs git prints of files whose path it neither quotes nor
    ends with a tab (it does so for unusual characters and for spaces), any
    number of them modified, created, deleted or renamed, with any hunks,
    content lines that look like headers included, gives each file with
    content changes its path and exactly the spans of its hunks, a pure
    deletion as the line of the cut, a deleted file no span, and nothing for a
    file without hunks. *)
Theorem Parse_roundtrip ds : Forall diff_ok ds ->
  Parse (unlines (concat (map print_file ds))) = concat (map changes_in ds).
Proof.
  intros H. unfold Parse. rewrite scan_unlines.
  2: { induction H as [|d ds Hd _ IH]; [constructor|]. cbn [map concat]. apply Forall_app. split; [apply Hd|done]. }
  unfold parse_lines.
  assert (Hgen : forall st, exists cur old inh,
    fold_left parse_line (map drop_cr (concat (map print_file ds))) st =
    mkP (p_out st ++ concat (map changes_in ds)) cur old inh).
  { induction H as [|d ds Hd _ IH]; intros st; cbn [map concat fold_left].
    - rewrite app_nil_r. destruct st. by eexists _, _, _.
    - rewrite map_app, fold_left_app. destruct (parse_file d st Hd) as (cur & old & inh & ->).
      destruct (IH (mkP (p_out st ++ changes_in d) cur old inh)) as (cur' & old' & inh' & ->).
      cbn [p_out]. rewrite <- app_assoc. by eexists _, _, _. }
  destruct (Hgen (mkP [] false "" false)) as (cur & old & inh & ->). done.
Qed.

Definition demo_diffs : list file_diff :=
  [mkDiff "a/notes.txt b/notes.txt" ["index 1111111..2222222 100644"] (Modified "notes.txt" "notes.txt")
     [mkHunk 5 1 5 1 "" [Removed "-- a/decoy.go"; Added "++ b/decoy-replacement.go"];
      mkHunk 9 2 7 0 " func f()" [Removed "x"; Removed "@@ -1 +1 @@"]];
   mkDiff "a/old.go b/old.go" ["deleted file mode 100644"; "index 1111111..0000000"] (Gone "old.go")
     [mkHunk 1 2 0 0 "" [Removed "package old"; Removed ""; NoNewline]];
   mkDiff "a/x.png b/x.png" ["index 1..2 100644"; "Binary files a/x.png and b/x.png differ"] HeaderOnly []].

Lemma Parse_roundtrip_witness :
  Parse (unlines (concat (map print_file demo_diffs))) =
    [mkChange "notes.txt" false [mkSpan 5 5; mkSpan 7 7]; mkChange "old.go" true []] /\
  Parse (unlines (concat (map print_file demo_diffs))) = concat (map changes_in demo_diffs).
Proof.
  split; [vm_compute; reflexivity|]. apply Parse_roundtrip.
  repeat (apply List.Forall_cons); try apply List.Forall_nil; split; cbn [d_kind d_hunks d_header demo_diffs];
    try discriminate; try reflexivity;
    repeat (apply List.Forall_cons); try apply List.Forall_nil;
    repeat split; vm_compute; first [reflexivity|discriminate].
Defined.

(** ** Roots *)

(** Asking git once for each path answers as asking it for every service. *)
Lemma ResolveRoots_pointwise git Clean services :
  ResolveRoots git Clean services =
  map (fun svc => match Root git Clean (sd_Path svc) with
                  | Ok root => mkRoot (sd_Name svc) root false
                  | Err _ => mkRoot (sd_Name svc) "" true
                  end) services.
Proof.
  unfold ResolveRoots.
  assert (H : forall cache : gmap string ServiceRoot,
    (forall p r, cache !! p = Some r -> match Root git Clean p with
       | Ok root => sr_Root r = root /\ sr_NoGitRepo r = false
       | Err _ => sr_Root r = "" /\ sr_NoGitRepo r = true end) ->
    resolve_loop git Clean cache services =
    map (fun svc => match Root git Clean (sd_Path svc) with
                    | Ok root => mkRoot (sd_Name svc) root false
                    | Err _ => mkRoot (sd_Name svc) "" true
                    end) services).
  2: { apply H. intros p r Hp. by rewrite lookup_empty in Hp. }
  induction services as [|svc services IH]; intros cache Hc; [done|]. cbn [resolve_loop map]. unfold resolve_one.
  destruct (cache !! sd_Path svc) as [r|] eqn:E.
  - specialize (Hc _ _ E) as Hr. rewrite IH by done. f_equal.
    destruct (Root git Clean (sd_Path svc)); by destruct Hr as [-> ->].
  - rewrite IH; [by destruct (Root git Clean (sd_Path svc))|]. intros p r. rewrite lookup_insert.
    case_decide as D; [|apply Hc]. intros [= <-]. rewrite <- D. by destruct (Root git Clean (sd_Path svc)).
Qed.
