(* ===== verification/Group.v ===== *)
(** The map the program builds wherever it rolls a list up by a key: one entry
    a key, updated by each element in turn. *)
From S2P Require Import Prelude.

Section group.
Context {K X E : Type} `{Countable K} (key : X -> K) (f : option E -> X -> E).

Definition group_step (m : gmap K E) (x : X) : gmap K E := <[key x := f (m !! key x) x]> m.
Definition group (l : list X) : gmap K E := fold_left group_step l ∅.

(** The elements filed under [k]. *)
Definition having (k : K) (l : list X) : list X := List.filter (fun x => bool_decide (key x = k)) l.

Lemma elem_of_having k l x : x ∈ having k l <-> x ∈ l /\ key x = k.
Proof. unfold having. by rewrite elem_of_bfilter, bool_decide_eq_true. Qed.

Lemma having_snoc k l x : having k (l ++ [x]) = having k l ++ (if decide (key x = k) then [x] else []).
Proof.
  unfold having. rewrite List.filter_app. cbn [List.filter].
  case_decide as D; case_bool_decide; try done.
Qed.

Lemma group_snoc l x : group (l ++ [x]) = group_step (group l) x.
Proof. unfold group. by rewrite fold_left_app. Qed.

(** The entry of a key is made of its own elements only. *)
Lemma group_lookup l k :
  group l !! k = fold_left (fun o x => Some (f o x)) (having k l) None.
Proof.
  unfold group. induction l as [|x l IH] using rev_ind; [done|].
  rewrite fold_left_app, having_snoc, fold_left_app. cbn [fold_left]. unfold group_step at 1.
  case_decide as D; cbn [fold_left].
  - rewrite D, lookup_insert_eq. by rewrite <- IH.
  - by rewrite lookup_insert_ne.
Qed.

(** An invariant of the entry a key's elements build up. *)
Lemma group_inv (P : list X -> E -> Prop) :
  (forall x, P [x] (f None x)) ->
  (forall l x e, P l e -> P (l ++ [x]) (f (Some e) x)) ->
  forall l k e, group l !! k = Some e -> having k l <> [] /\ P (having k l) e.
Proof.
  intros H1 H2 l k e. rewrite group_lookup. generalize (having k l). clear l k.
  intros l. revert e. induction l as [|x l IH] using rev_ind; intros e; [done|].
  rewrite fold_left_app. cbn [fold_left]. intros [= <-]. split; [by destruct l|].
  destruct (fold_left _ l None) as [e|] eqn:E1.
  - apply H2. by apply IH.
  - destruct l as [|y l] using rev_ind; [apply H1|]. by rewrite fold_left_app in E1.
Qed.

Lemma group_dom l k : is_Some (group l !! k) <-> exists x, x ∈ l /\ key x = k.
Proof.
  rewrite group_lookup. setoid_rewrite <- elem_of_having. destruct (having k l) as [|x cs _] using rev_ind.
  - split; [by intros []|]. intros (x & Hx). by apply elem_of_nil in Hx.
  - rewrite fold_left_app. split; [|by eexists]. intros _. exists x. apply elem_of_app. right. left.
Qed.

(** The groups are a partition of the list. *)
Lemma having_partition ks l : NoDup ks -> (forall x, x ∈ l -> key x ∈ ks) ->
  concat (map (fun k => having k l) ks) ≡ₚ l.
Proof.
  intros Hks. revert l. induction Hks as [|k ks Hk _ IH]; intros l Hl; cbn.
  { destruct l as [|x l]; [done|]. exfalso. apply (not_elem_of_nil (key x)), Hl. left. }
  set (rest := List.filter (fun x => negb (bool_decide (key x = k))) l).
  transitivity (having k l ++ rest).
  - f_equiv. rewrite <- (IH rest).
    + apply eq_subrelation; [apply _|]. f_equal. apply map_ext_in. intros k' Hk'%list_elem_of_In. unfold having, rest. clear -Hk Hk'.
      induction l as [|x l IH]; [done|]. cbn. destruct (bool_decide (key x = k)) eqn:E1; cbn.
      * apply bool_decide_eq_true in E1. rewrite bool_decide_false; [done|congruence].
      * by rewrite IH.
    + intros x [Hx Hn]%elem_of_bfilter. apply negb_true_iff, bool_decide_eq_false in Hn.
      specialize (Hl x Hx). apply elem_of_cons in Hl as [|]; done.
  - unfold having, rest. clear. induction l as [|x l IH]; [done|]. cbn. case_bool_decide; cbn.
    + by f_equiv.
    + rewrite <- Permutation_middle. by f_equiv.
Qed.
End group.
