(* ===== verification/GrFiles.v ===== *)
(** The graph by file (internal/graph/files.go): listing files, the nodes of a
    file, and the files a file's change reaches. *)
From S2P Require Import Prelude.
From S2P Require Import GoStrings.
From S2P Require Import Group.
From S2P Require Import GrModel.
From S2P Require Import GrTraverse.
From S2P Require Import GrNoise.

(** ** ListFiles *)

Record FileSummary : Type := mkSummary { fs_File : string; fs_Service : string; fs_Counts : gmap NodeType Z }.

Abbreviation file_key := (string * string)%type.
Definition key_of (n : Node) : file_key := (n_Service n, n_File n).

Definition lists_file (q : string) (n : Node) : bool :=
  negb (str_eqb (n_File n) "") && (str_eqb q "" || Contains (ToLower (n_File n)) q).

Definition add_to_summary (fs : option (gmap NodeType Z)) (n : Node) : gmap NodeType Z :=
  count_key (default ∅ fs) (n_Type n).

Definition summary_less : FileSummary -> FileSummary -> bool :=
  less_by fs_File str_ltb (fun a b => str_ltb (fs_Service a) (fs_Service b)).

(** [if limit > 0 && len(out) > limit { out = out[:limit] }] *)
Definition limited {A} (limit : Z) (l : list A) : list A :=
  if (0 <? limit)%Z && (limit <? Z.of_nat (length l))%Z then take (Z.to_nat limit) l else l.

(** ListFiles; [nodes] is the map of nodes in iteration order, [order] that of
    the map of summaries. *)
Definition ListFiles (nodes : list Node) (order : list (file_key * gmap NodeType Z) -> list (file_key * gmap NodeType Z))
    (q : string) (limit : Z) : list FileSummary :=
  let byFile := group key_of add_to_summary (List.filter (lists_file (ToLower q)) nodes) in
  limited limit (sort_slice summary_less
    (map (fun p => mkSummary (snd (fst p)) (fst (fst p)) (snd p)) (order (map_to_list byFile)))).

(** ** NodesInFile *)

Definition exact_match (service path : string) (n : Node) : bool :=
  (str_eqb service "" || str_eqb (n_Service n) service) && str_eqb (n_File n) path.
Definition suffix_match (service path : string) (n : Node) : bool :=
  (str_eqb service "" || str_eqb (n_Service n) service) && negb (str_eqb (n_File n) path) &&
  (HasSuffix (n_File n) ("/" +:+ path) || HasSuffix path ("/" +:+ n_File n)).

Definition node_less : Node -> Node -> bool :=
  less_by n_File str_ltb (less_by n_Line Z.ltb (fun a b => str_ltb (n_ID a) (n_ID b))).

(** NodesInFile; [nodes] is the map of nodes in iteration order. *)
Definition NodesInFile (nodes : list Node) (service path : string) : list Node :=
  let exact := List.filter (exact_match service path) nodes in
  let suffix := List.filter (suffix_match service path) nodes in
  sort_slice node_less (match exact with [] => suffix | _ :: _ => exact end).

(** ** FileImpact *)

Record FileImpactEntry : Type := mkEntry {
  fe_File : string; fe_Service : string; fe_Nodes : Z; fe_MinDepth : nat; fe_EdgeTypes : list string;
  fe_NoiseClasses : list string
}.

Definition appendUnique (l : list string) (v : string) : list string :=
  if existsb (fun s => str_eqb s v) l then l else l ++ [v].

(** The noise class of the edge that reached a node. *)
Definition reach_class (idx : AdjacencyIndex) (e : Edge) (n : Node) : NoiseClass :=
  let srcID := if str_eqb (ed_From e) (n_ID n) then ed_To e else ed_From e in
  ClassifyEdgeNoise e (Nodes idx !! srcID) (Some n).

Definition add_reach (idx : AdjacencyIndex) (entries : gmap file_key FileImpactEntry) (n : Node)
    (via : option Edge) (depth : nat) (firstVisit : bool) : gmap file_key FileImpactEntry :=
  let e := default (mkEntry (n_File n) (n_Service n) 0 depth [] []) (entries !! key_of n) in
  let types := match via with Some v => appendUnique (fe_EdgeTypes e) (ed_Type v) | None => fe_EdgeTypes e end in
  let classes :=
    match via with
    | Some v => let class := reach_class idx v n in
                if str_eqb class NoiseNone then fe_NoiseClasses e else appendUnique (fe_NoiseClasses e) class
    | None => fe_NoiseClasses e
    end in
  <[key_of n := mkEntry (fe_File e) (fe_Service e) (if firstVisit then fe_Nodes e + 1 else fe_Nodes e)%Z
                  (Nat.min depth (fe_MinDepth e)) types classes]> entries.

(** One result of a traversal; a result without a node panics. *)
Definition file_result (idx : AdjacencyIndex) (seedFiles : gset file_key)
    (st : option (gmap string nat * gmap file_key FileImpactEntry)) (r : TraversalResult)
    : option (gmap string nat * gmap file_key FileImpactEntry) :=
  '(nodeDepth, entries) ← st;
  n ← tr_Node r;
  match nodeDepth !! n_ID n with
  | Some prev =>
      if prev <=? tr_Depth r then Some (nodeDepth, entries)
      else if bool_decide (key_of n ∈ seedFiles) then Some (<[n_ID n := tr_Depth r]> nodeDepth, entries)
      else Some (<[n_ID n := tr_Depth r]> nodeDepth, add_reach idx entries n (tr_Via r) (tr_Depth r) false)
  | None =>
      if bool_decide (key_of n ∈ seedFiles) then Some (<[n_ID n := tr_Depth r]> nodeDepth, entries)
      else Some (<[n_ID n := tr_Depth r]> nodeDepth, add_reach idx entries n (tr_Via r) (tr_Depth r) true)
  end.

Definition directions_of (direction : string) : list string :=
  if str_eqb direction "backward" then ["in"]
  else if str_eqb direction "both" then ["out"; "in"] else ["out"].

Definition sorted_entry (e : FileImpactEntry) : FileImpactEntry :=
  mkEntry (fe_File e) (fe_Service e) (fe_Nodes e) (fe_MinDepth e) (sort_strings (fe_EdgeTypes e))
    (sort_strings (fe_NoiseClasses e)).

Definition entry_less : FileImpactEntry -> FileImpactEntry -> bool :=
  less_by fe_MinDepth Nat.ltb (less_by fe_File str_ltb (fun a b => str_ltb (fe_Service a) (fe_Service b))).

(** Every result of the traversals from the seeds, in the order of the loops. *)
Definition all_reached (idx : AdjacencyIndex) (seeds : list Node) (direction : string) (maxDepth : Z)
    (policy : TraversalPolicy) : list TraversalResult :=
  concat (map (fun dir =>
    concat (map (fun seed => TraverseWithPolicy idx (n_ID seed) dir BFS maxDepth policy) seeds))
    (directions_of direction)).

(** FileImpactWithPolicy; [nodes] and [order] are the iteration orders of the
    map of nodes and of the map of entries, [None] is a panic. *)
Definition FileImpactWithPolicy (idx : AdjacencyIndex) (nodes : list Node)
    (order : list (file_key * FileImpactEntry) -> list (file_key * FileImpactEntry))
    (service path direction : string) (maxDepth : Z) (policy : TraversalPolicy) : option (list FileImpactEntry) :=
  let seeds := NodesInFile nodes service path in
  let seedFiles : gset file_key := list_to_set (map key_of seeds) in
  '(_, entries) ← fold_left (file_result idx seedFiles) (all_reached idx seeds direction maxDepth policy) (Some (∅, ∅));
  Some (sort_slice entry_less (map (fun p => sorted_entry (snd p)) (order (map_to_list entries)))).

Definition FileImpact (idx : AdjacencyIndex) (nodes : list Node)
    (order : list (file_key * FileImpactEntry) -> list (file_key * FileImpactEntry))
    (service path direction : string) (maxDepth : Z) : option (list FileImpactEntry) :=
  FileImpactWithPolicy idx nodes order service path direction maxDepth RawPolicy.
