(* ===== verification/GrFilesSpec.v ===== *)
(** What the per-file queries answer: each file once, with the number of its
    nodes that are reached and the least depth one is reached at. *)
From S2P Require Import Prelude.
From S2P Require Import GoStrings.
From S2P Require Import Group.
From S2P Require Import GrModel.
From S2P Require Import GrTraverse.
From S2P Require Import GrTraverseSpec.
From S2P Require Import GrNoise.
From S2P Require Import GrFiles.

(** ** ListFiles *)

#[local] Instance summary_less_weak : WeakLess summary_less.
Proof. unfold summary_less. apply _. Qed.

Lemma counts_of nodes k m : group key_of add_to_summary nodes !! k = Some m ->
  m = tally (map n_Type (having key_of k nodes)).
Proof.
  intros H. apply (group_inv key_of add_to_summary (fun l m => m = tally (map n_Type l))) in H; [tauto|done|].
  intros l n e ->. rewrite map_app. unfold tally. by rewrite fold_left_app.
Qed.

(** The file a summary is about. *)
Definition summary_key (s : FileSummary) : file_key := (fs_Service s, fs_File s).

Lemma ListFiles_all nodes order q limit : (forall l, order l ≡ₚ l) -> (limit <= 0)%Z ->
  let out := ListFiles nodes order q limit in
  StronglySorted (may_precede summary_less) out /\ NoDup (map summary_key out) /\
  forall s, s ∈ out <->
    (exists n, n ∈ nodes /\ lists_file (ToLower q) n = true /\ key_of n = summary_key s) /\
    fs_Counts s = tally (map n_Type (having key_of (summary_key s) (List.filter (lists_file (ToLower q)) nodes))).
Proof.
  intros Ho Hl. unfold ListFiles, limited. rewrite (proj2 (Z.ltb_ge _ _) Hl). cbn [andb].
  set (listed := List.filter (lists_file (ToLower q)) nodes). set (m := group key_of add_to_summary listed).
  split_and!; [apply sort_slice_sorted, _| |].
  - rewrite (Permutation_map summary_key (sort_slice_perm _ _)), map_map.
    rewrite (Permutation_map _ (Ho _)), (map_ext _ fst); [apply NoDup_fst_map_to_list|]. by intros [[sv f] e].
  - intros s. rewrite elem_of_sort_slice, list_elem_of_fmap. setoid_rewrite Ho.
    assert (Hdom : is_Some (m !! summary_key s) <->
      exists n, n ∈ nodes /\ lists_file (ToLower q) n = true /\ key_of n = summary_key s).
    { unfold m. rewrite group_dom. unfold listed. setoid_rewrite elem_of_bfilter. naive_solver. }
    rewrite <- Hdom. split.
    + intros ([[sv f] c] & -> & H%elem_of_map_to_list). unfold summary_key. cbn.
      split; [by exists c|]. by apply counts_of in H.
    + intros [[c Hc] Hcounts]. exists (summary_key s, c). rewrite elem_of_map_to_list. split; [|done].
      apply counts_of in Hc as Hc'. rewrite <- Hcounts in Hc'. subst c. by destruct s.
Qed.

(** ** NodesInFile *)

#[local] Instance node_less_weak : WeakLess node_less.
Proof. unfold node_less. apply _. Qed.

(** The nodes of the file named exactly, or of the files the name is a suffix
    of or has as a suffix when no file is named exactly. *)
Lemma NodesInFile_spec nodes service path n :
  n ∈ NodesInFile nodes service path <->
  n ∈ nodes /\ (exact_match service path n = true \/
    suffix_match service path n = true /\ forall m, m ∈ nodes -> exact_match service path m = false).
Proof.
  unfold NodesInFile. rewrite elem_of_sort_slice.
  destruct (List.filter (exact_match service path) nodes) as [|x l] eqn:E.
  - assert (Hno : forall m, m ∈ nodes -> exact_match service path m = false).
    { intros m Hm. apply not_true_iff_false. intros Hx.
      assert (Hin : m ∈ List.filter (exact_match service path) nodes) by (apply elem_of_bfilter; done).
      rewrite E in Hin. by apply elem_of_nil in Hin. }
    rewrite elem_of_bfilter. split; [naive_solver|]. intros [Hn [Hx|[Hs _]]]; [by rewrite Hno in Hx|done].
  - rewrite <- E, elem_of_bfilter. split; [naive_solver|]. intros [Hn [Hx|[_ Hno]]]; [done|].
    assert (Hin : x ∈ List.filter (exact_match service path) nodes) by (rewrite E; left).
    apply elem_of_bfilter in Hin as [Hin Hx]. by rewrite Hno in Hx.
Qed.

(** ** FileImpact *)

(** The nodes reached, with their depths, in the order of the loops. *)
Definition reached (rs : list TraversalResult) : list (Node * nat) :=
  omap (fun r => n ← tr_Node r; Some (n, tr_Depth r)) rs.

Definition reached_in (k : file_key) (ps : list (Node * nat)) : list (Node * nat) :=
  List.filter (fun p => bool_decide (key_of (fst p) = k)) ps.

Definition ids_of (ps : list (Node * nat)) : gset string := list_to_set (map (fun p => n_ID (fst p)) ps).

Lemma elem_of_reached_in k ps p : p ∈ reached_in k ps <-> p ∈ ps /\ key_of (fst p) = k.
Proof. unfold reached_in. by rewrite elem_of_bfilter, bool_decide_eq_true. Qed.

Lemma elem_of_ids ps x : x ∈ ids_of ps <-> exists p, p ∈ ps /\ n_ID (fst p) = x.
Proof. unfold ids_of. rewrite elem_of_list_to_set, list_elem_of_fmap. naive_solver. Qed.

Lemma reached_in_snoc k ps p :
  reached_in k (ps ++ [p]) = reached_in k ps ++ (if decide (key_of (fst p) = k) then [p] else []).
Proof.
  unfold reached_in. rewrite List.filter_app. cbn [List.filter]. by case_decide; case_bool_decide.
Qed.

Lemma ids_of_snoc ps p : ids_of (ps ++ [p]) = ids_of ps ∪ {[n_ID (fst p)]}.
Proof. apply set_eq. intros x. unfold ids_of. rewrite map_app, list_to_set_app. cbn. set_solver. Qed.

(** What the entry of a file records of the nodes reached. *)
Record entry_ok (k : file_key) (ps : list (Node * nat)) (e : FileImpactEntry) : Prop := {
  en_key : (fe_Service e, fe_File e) = k;
  en_nodes : fe_Nodes e = Z.of_nat (size (ids_of (reached_in k ps)));
  en_min : exists p, p ∈ reached_in k ps /\ snd p = fe_MinDepth e;
  en_least p : p ∈ reached_in k ps -> fe_MinDepth e <= snd p
}.

Section fold.
Context (idx : AdjacencyIndex) (seedFiles : gset file_key).

Record fold_ok (ps : list (Node * nat)) (nodeDepth : gmap string nat)
    (entries : gmap file_key FileImpactEntry) : Prop := {
  fo_depth id : match nodeDepth !! id with
    | Some d => (exists p, p ∈ ps /\ n_ID (fst p) = id /\ snd p = d) /\
                forall p, p ∈ ps -> n_ID (fst p) = id -> d <= snd p
    | None => forall p, p ∈ ps -> n_ID (fst p) <> id
    end;
  fo_entry k e : entries !! k = Some e -> k ∉ seedFiles /\ entry_ok k ps e;
  fo_none k : entries !! k = None -> k ∈ seedFiles \/ reached_in k ps = []
}.

(** Nodes with one ID are one node. *)
Definition same_nodes (ps : list (Node * nat)) : Prop :=
  forall p, p ∈ ps -> Nodes idx !! n_ID (fst p) = Some (fst p).

Lemma entry_other k ps e n d : key_of n <> k -> entry_ok k ps e -> entry_ok k (ps ++ [(n, d)]) e.
Proof.
  intros Hk [H1 H2 H3 H4]. split; [done|..]; rewrite reached_in_snoc, decide_False, app_nil_r by done; done.
Qed.

(** A node seen before, no deeper then, changes nothing. *)
Lemma entry_again ps e p n d : entry_ok (key_of n) ps e -> p ∈ ps -> fst p = n -> snd p <= d ->
  entry_ok (key_of n) (ps ++ [(n, d)]) e.
Proof.
  intros [H1 H2 H3 H4] Hp Hn Hd.
  assert (Hin : p ∈ reached_in (key_of n) ps) by (apply elem_of_reached_in; by subst).
  split; [done|..]; rewrite reached_in_snoc, decide_True by done.
  - rewrite H2, ids_of_snoc. f_equal. f_equal. symmetry. cbn [fst].
    assert (n_ID n ∈ ids_of (reached_in (key_of n) ps)) by (apply elem_of_ids; exists p; by subst). set_solver.
  - destruct H3 as (q & Hq & Hqd). exists q. rewrite elem_of_app. auto.
  - intros q. rewrite elem_of_app, list_elem_of_singleton. intros [Hq| ->]; [by apply H4|]. cbn.
    etrans; [by apply H4|done].
Qed.

(** A node of the file reached, first or closer than before. *)
Lemma entry_reached ps entries n via d (first : bool) :
  (entries !! key_of n = None -> reached_in (key_of n) ps = []) ->
  (forall e, entries !! key_of n = Some e -> entry_ok (key_of n) ps e) ->
  (first = true <-> n_ID n ∉ ids_of (reached_in (key_of n) ps)) ->
  exists e, add_reach idx entries n via d first = <[key_of n := e]> entries /\
    entry_ok (key_of n) (ps ++ [(n, d)]) e.
Proof.
  intros Hnone Hsome Hfirst. unfold add_reach. eexists. split; [reflexivity|].
  split; cbn [fe_Service fe_File fe_Nodes fe_MinDepth]; rewrite ?reached_in_snoc, ?decide_True by done.
  - destruct (entries !! key_of n) as [e|] eqn:E; [|done]. cbn. by destruct (Hsome e eq_refl) as [-> _ _ _].
  - rewrite ids_of_snoc. cbn [fst].
    assert (Hold : fe_Nodes (default (mkEntry (n_File n) (n_Service n) 0 d [] []) (entries !! key_of n)) =
      Z.of_nat (size (ids_of (reached_in (key_of n) ps)))).
    { destruct (entries !! key_of n) as [e|] eqn:E; cbn; [by destruct (Hsome e eq_refl)|]. by rewrite Hnone. }
    rewrite Hold. destruct first.
    + rewrite size_union by (pose proof (proj1 Hfirst eq_refl); set_solver). rewrite size_singleton. lia.
    + f_equal. f_equal. symmetry. destruct (decide (n_ID n ∈ ids_of (reached_in (key_of n) ps))) as [|Hno]; [set_solver|].
      by apply Hfirst in Hno.
  - destruct (entries !! key_of n) as [e|] eqn:E; cbn [default fe_MinDepth].
    + destruct (Hsome e eq_refl) as [_ _ (q & Hq & Hqd) _].
      destruct (Nat.min_spec d (fe_MinDepth e)) as [[_ Hm]|[_ Hm]]; unfold id; rewrite Hm.
      * exists (n, d). rewrite elem_of_app, list_elem_of_singleton. auto.
      * exists q. rewrite elem_of_app. auto.
    + exists (n, d). rewrite Nat.min_id, elem_of_app, list_elem_of_singleton. auto.
  - intros q. rewrite elem_of_app, list_elem_of_singleton.
    destruct (entries !! key_of n) as [e|] eqn:E; cbn [default fe_MinDepth]; unfold id.
    + destruct (Hsome e eq_refl) as [_ _ _ Hle]. intros [Hq| ->]; [specialize (Hle q Hq)|cbn]; lia.
    + rewrite Hnone by done. rewrite elem_of_nil. intros [[]| ->]. cbn. lia.
Qed.

Lemma depth_step (ps : list (Node * nat)) (nodeDepth : gmap string nat) n d :
  (forall id, match nodeDepth !! id with
    | Some d => (exists p, p ∈ ps /\ n_ID (fst p) = id /\ snd p = d) /\
                forall p, p ∈ ps -> n_ID (fst p) = id -> d <= snd p
    | None => forall p, p ∈ ps -> n_ID (fst p) <> id
    end) ->
  (forall prev, nodeDepth !! n_ID n = Some prev -> d < prev) ->
  forall id, match <[n_ID n := d]> nodeDepth !! id with
    | Some d' => (exists p, p ∈ ps ++ [(n, d)] /\ n_ID (fst p) = id /\ snd p = d') /\
                 forall p, p ∈ ps ++ [(n, d)] -> n_ID (fst p) = id -> d' <= snd p
    | None => forall p, p ∈ ps ++ [(n, d)] -> n_ID (fst p) <> id
    end.
Proof.
  intros H Hlt id. rewrite lookup_insert. case_decide as D.
  - subst id. split; [exists (n, d); rewrite elem_of_app, list_elem_of_singleton; auto|].
    intros p [Hp| ->%list_elem_of_singleton]%elem_of_app Hid; [|done].
    specialize (H (n_ID n)). destruct (nodeDepth !! n_ID n) as [prev|]; [|by destruct (H p Hp)].
    destruct H as [_ H]. specialize (H p Hp Hid). specialize (Hlt prev eq_refl). lia.
  - specialize (H id). destruct (nodeDepth !! id) as [d'|].
    + destruct H as [(p & Hp & Hid & Hd) Hle]. split; [exists p; rewrite elem_of_app; auto|].
      intros q [Hq| ->%list_elem_of_singleton]%elem_of_app Hqid; [by apply Hle|done].
    + intros q [Hq| ->%list_elem_of_singleton]%elem_of_app; [by apply H|done].
Qed.

Lemma file_result_ok ps nodeDepth entries r n :
  fold_ok ps nodeDepth entries -> tr_Node r = Some n -> same_nodes (ps ++ [(n, tr_Depth r)]) ->
  exists nodeDepth' entries', file_result idx seedFiles (Some (nodeDepth, entries)) r = Some (nodeDepth', entries') /\
    fold_ok (ps ++ [(n, tr_Depth r)]) nodeDepth' entries'.
Proof.
  intros [Fd Fe Fn] Hn Hsame. set (d := tr_Depth r) in *.
  assert (Hone : forall p, p ∈ ps -> n_ID (fst p) = n_ID n -> fst p = n).
  { intros p Hp Hid. pose proof (Hsame p ltac:(apply elem_of_app; by left)) as H1.
    pose proof (Hsame (n, d) ltac:(apply elem_of_app; right; left)) as H2. cbn in H2. rewrite Hid in H1. congruence. }
  unfold file_result. cbn [mbind option_bind]. rewrite Hn. cbn [mbind option_bind]. fold d.
  assert (Hids : n_ID n ∉ ids_of (reached_in (key_of n) ps) <-> nodeDepth !! n_ID n = None).
  { specialize (Fd (n_ID n)). rewrite elem_of_ids. setoid_rewrite elem_of_reached_in. split.
    - intros Hno. destruct (nodeDepth !! n_ID n) as [prev|]; [|done]. destruct Fd as [(p & Hp & Hid & _) _].
      destruct Hno. exists p. by rewrite (Hone p Hp Hid).
    - intros E. rewrite E in Fd. intros (p & [Hp _] & Hid). by apply (Fd p Hp). }
  assert (Hentries : forall first : bool, (first = true <-> nodeDepth !! n_ID n = None) ->
    key_of n ∉ seedFiles -> (forall prev, nodeDepth !! n_ID n = Some prev -> d < prev) ->
    fold_ok (ps ++ [(n, d)]) (<[n_ID n := d]> nodeDepth) (add_reach idx entries n (tr_Via r) d first)).
  { intros first Hfirst Hseed Hlt.
    destruct (entry_reached ps entries n (tr_Via r) d first) as (e & -> & He).
    { intros E. destruct (Fn _ E); [done|done]. }
    { intros e E. by apply Fe in E as [_ E]. }
    { by rewrite Hids. }
    split; [by apply depth_step| |].
    - intros k e'. rewrite lookup_insert. case_decide as D; [intros [= <-]; by subst k|].
      intros E. apply Fe in E as [E1 E2]. split; [done|]. by apply entry_other.
    - intros k. rewrite lookup_insert. case_decide as D; [done|]. intros E.
      destruct (Fn k E) as [|Hnil]; [by left|right]. by rewrite reached_in_snoc, Hnil, decide_False. }
  assert (Hseedcase : key_of n ∈ seedFiles -> (forall prev, nodeDepth !! n_ID n = Some prev -> d < prev) ->
    fold_ok (ps ++ [(n, d)]) (<[n_ID n := d]> nodeDepth) entries).
  { intros Hseed Hlt. split; [by apply depth_step| |].
    - intros k e E. apply Fe in E as [E1 E2]. split; [done|]. apply entry_other; [|done]. by intros <-.
    - intros k E. destruct (decide (k = key_of n)) as [->|Hk]; [by left|].
      destruct (Fn k E) as [|Hnil]; [by left|right]. by rewrite reached_in_snoc, Hnil, decide_False. }
  destruct (nodeDepth !! n_ID n) as [prev|] eqn:E.
  - destruct (prev <=? d) eqn:El; [apply Nat.leb_le in El|apply Nat.leb_gt in El].
    + eexists _, _. split; [reflexivity|]. pose proof (Fd (n_ID n)) as Fdn. rewrite E in Fdn.
      destruct Fdn as [(p & Hp & Hid & Hpd) Hle]. pose proof (Hone p Hp Hid) as Hpn. split.
      * intros id. specialize (Fd id). destruct (nodeDepth !! id) as [d'|] eqn:Ed.
        -- destruct Fd as [(q & Hq & Hqid & Hqd) Hqle]. split; [exists q; rewrite elem_of_app; auto|].
           intros q' [Hq'| ->%list_elem_of_singleton]%elem_of_app Hid'; [by apply Hqle|]. cbn in *.
           rewrite Hid', Ed in E. injection E as ->. done.
        -- intros q [Hq| ->%list_elem_of_singleton]%elem_of_app; [by apply Fd|]. cbn. intros <-. congruence.
      * intros k e Ek. apply Fe in Ek as [E1 E2]. split; [done|].
        destruct (decide (key_of n = k)) as [<-|Hk]; [|by apply entry_other].
        apply (entry_again ps e p); [done..|]. lia.
      * intros k Ek. destruct (Fn k Ek) as [|Hnil]; [by left|].
        destruct (decide (key_of n = k)) as [<-|Hk]; [|right; by rewrite reached_in_snoc, Hnil, decide_False].
        exfalso. assert (Hin : p ∈ reached_in (key_of n) ps) by (apply elem_of_reached_in; by rewrite Hpn).
        rewrite Hnil in Hin. by apply elem_of_nil in Hin.
    + case_bool_decide as Hs.
      * eexists _, _. split; [reflexivity|]. apply Hseedcase; [done|]. by intros ? [= <-].
      * eexists _, _. split; [reflexivity|]. apply Hentries; [done|done|]. by intros ? [= <-].
  - case_bool_decide as Hs.
    + eexists _, _. split; [reflexivity|]. by apply Hseedcase.
    + eexists _, _. split; [reflexivity|]. by apply Hentries.
Qed.
End fold.

#[local] Instance entry_less_weak : WeakLess entry_less.
Proof. unfold entry_less. apply _. Qed.

Definition entry_key (e : FileImpactEntry) : file_key := (fe_Service e, fe_File e).

Lemma sorted_entry_ok k ps e : entry_ok k ps e -> entry_ok k ps (sorted_entry e).
Proof. by intros [H1 H2 H3 H4]. Qed.

Lemma fold_results idx seedFiles rs :
  (forall r, r ∈ rs -> exists n, tr_Node r = Some n /\ Nodes idx !! n_ID n = Some n) ->
  exists nodeDepth entries, fold_left (file_result idx seedFiles) rs (Some (∅, ∅)) = Some (nodeDepth, entries) /\
    fold_ok seedFiles (reached rs) nodeDepth entries.
Proof.
  induction rs as [|r rs IH] using rev_ind; intros Hr.
  { exists ∅, ∅. split; [done|]. split.
    - intros id. rewrite lookup_empty. intros p Hp. by apply elem_of_nil in Hp.
    - intros k e. by rewrite lookup_empty.
    - intros k _. by right. }
  destruct IH as (nd & en & E & Hf); [intros; apply Hr, elem_of_app; by left|].
  destruct (Hr r) as (n & Hn & _); [apply elem_of_app; right; left|].
  assert (Hre : reached (rs ++ [r]) = reached rs ++ [(n, tr_Depth r)]).
  { unfold reached. rewrite omap_app. cbn. by rewrite Hn. }
  rewrite fold_left_app, E, Hre. cbn [fold_left]. apply (file_result_ok idx); [done|done|].
  intros p. rewrite <- Hre. unfold reached. intros (r' & Hr' & Hp)%list_elem_of_omap.
  destruct (Hr r' Hr') as (m & Hm & Hnode). rewrite Hm in Hp. cbn in Hp. by injection Hp as <-.
Qed.

Lemma elem_of_all_reached idx seeds direction maxDepth policy r :
  r ∈ all_reached idx seeds direction maxDepth policy <->
  exists dir seed, dir ∈ directions_of direction /\ seed ∈ seeds /\
    r ∈ TraverseWithPolicy idx (n_ID seed) dir BFS maxDepth policy.
Proof.
  unfold all_reached. rewrite list_elem_of_In, in_concat. setoid_rewrite in_map_iff.
  setoid_rewrite <- list_elem_of_In. split.
  - intros (l & (dir & <- & Hdir) & Hr). apply list_elem_of_In, in_concat in Hr as (l & Hl & Hr).
    apply in_map_iff in Hl as (seed & <- & Hseed). exists dir, seed. by rewrite !list_elem_of_In in *.
  - intros (dir & seed & Hdir & Hseed & Hr). eexists. split; [exists dir; done|].
    apply list_elem_of_In, in_concat. eexists. split; [apply in_map_iff; exists seed; split; [done|by apply list_elem_of_In]|].
    by apply list_elem_of_In.
Qed.

(** The files a file's change reaches: every file, other than the seed
    files, of a node some seed node reaches, exactly once, nearest first, with
    the number of its distinct nodes reached and the least depth at which one
    is reached; and without terminal edges a node is reached at a depth
    exactly when that is its distance from a seed in a direction asked for. *)
Theorem FileImpact_exact idx nodes order service path direction maxDepth policy :
  wf_index idx -> closed_index idx -> (forall l, order l ≡ₚ l) ->
  (forall n, n ∈ nodes -> Nodes idx !! n_ID n = Some n) ->
  let seeds := NodesInFile nodes service path in
  let ps := reached (all_reached idx seeds direction maxDepth policy) in
  exists out, FileImpactWithPolicy idx nodes order service path direction maxDepth policy = Some out /\
    StronglySorted (may_precede entry_less) out /\ NoDup (map entry_key out) /\
    (forall e, e ∈ out -> entry_ok (entry_key e) ps e) /\
    (forall k, k ∈ map entry_key out <->
       (forall s, s ∈ seeds -> key_of s <> k) /\ exists p, p ∈ ps /\ key_of (fst p) = k) /\
    (TerminalEdges policy = ∅ -> forall n d, (n, d) ∈ ps <->
       Nodes idx !! n_ID n = Some n /\ exists dir seed, dir ∈ directions_of direction /\ seed ∈ seeds /\
         n_ID n <> n_ID seed /\ distance idx dir policy (n_ID seed) (n_ID n) d /\ within maxDepth d).
Proof.
  intros W C Ho Hnodes. cbn zeta. set (seeds := NodesInFile nodes service path).
  set (rs := all_reached idx seeds direction maxDepth policy).
  assert (Hrs : forall r, r ∈ rs -> exists n, tr_Node r = Some n /\ Nodes idx !! n_ID n = Some n).
  { intros r (dir & seed & _ & _ & Hr)%elem_of_all_reached.
    destruct (results_have_nodes _ _ _ _ _ _ _ W C Hr) as (n & H1 & _ & H2). by exists n. }
  destruct (fold_results idx (list_to_set (map key_of seeds)) rs Hrs) as (nd & en & E & [Fd Fe Fn]).
  unfold FileImpactWithPolicy. fold seeds. fold rs. rewrite E. cbn [mbind option_bind].
  eexists. split; [reflexivity|].
  set (out := sort_slice entry_less (map (fun p => sorted_entry (snd p)) (order (map_to_list en)))).
  assert (Hseed : forall k, k ∈ (list_to_set (map key_of seeds) : gset file_key) <-> exists s, s ∈ seeds /\ key_of s = k).
  { intros k. rewrite elem_of_list_to_set, list_elem_of_fmap. naive_solver. }
  assert (Hout : forall e, e ∈ out <-> exists k e', en !! k = Some e' /\ e = sorted_entry e').
  { intros e. unfold out. rewrite elem_of_sort_slice, list_elem_of_fmap. setoid_rewrite Ho. split.
    - intros ([k e'] & -> & H%elem_of_map_to_list). by exists k, e'.
    - intros (k & e' & H & ->). exists (k, e'). by rewrite elem_of_map_to_list. }
  assert (Hkey : forall k e, en !! k = Some e -> entry_key (sorted_entry e) = k).
  { intros k e H. destruct (Fe k e H) as [_ [Hk _ _ _]]. done. }
  split_and!.
  - apply sort_slice_sorted, _.
  - unfold out. rewrite (Permutation_map entry_key (sort_slice_perm _ _)), map_map.
    rewrite (Permutation_map _ (Ho _)), (map_ext_in _ fst); [apply NoDup_fst_map_to_list|].
    intros [k e] H%list_elem_of_In%elem_of_map_to_list. by apply Hkey.
  - intros e (k & e' & H & ->)%Hout. rewrite (Hkey k e' H). apply sorted_entry_ok. by apply Fe.
  - intros k. rewrite list_elem_of_fmap. setoid_rewrite Hout. split.
    + intros (e & -> & k' & e' & H & ->). rewrite (Hkey k' e' H). destruct (Fe k' e' H) as [Hns [_ _ (p & Hp & _) _]].
      rewrite Hseed in Hns. apply elem_of_reached_in in Hp. split; [|by exists p]. intros s Hs Hsk. apply Hns. by exists s.
    + intros [Hns (p & Hp & Hpk)]. destruct (en !! k) as [e|] eqn:Ek.
      * exists (sorted_entry e). rewrite (Hkey k e Ek). split; [done|]. by exists k, e.
      * destruct (Fn k Ek) as [Hs|Hnil]; [apply Hseed in Hs as (s & Hs & Hsk); by destruct (Hns s Hs)|].
        assert (Hin : p ∈ reached_in k (reached rs)) by by apply elem_of_reached_in.
        rewrite Hnil in Hin. by apply elem_of_nil in Hin.
  - intros Hterm n d. unfold reached. rewrite list_elem_of_omap.
    assert (Hsn : forall s, s ∈ seeds -> is_Some (Nodes idx !! n_ID s)).
    { intros s [Hs _]%NodesInFile_spec. rewrite (Hnodes s Hs). by eexists. }
    split.
    + intros (r & Hr & Hp). destruct (tr_Node r) as [m|] eqn:Em; [|done]. cbn in Hp. injection Hp as -> <-.
      apply elem_of_all_reached in Hr as (dir & seed & Hdir & Hseed' & Hr).
      destruct (results_have_nodes _ _ _ _ _ _ _ W C Hr) as (n' & H1 & H2 & H3).
      rewrite Em in H1. injection H1 as <-. split; [done|]. exists dir, seed. split_and!; [done..| | |];
        destruct (bfs_distances idx dir maxDepth policy (n_ID seed) W (Hsn _ Hseed') Hterm) as [_ Hex];
        destruct (proj1 (Hex (n_ID n) (tr_Depth r))) as (? & ? & ?); eauto.
    + intros (Hn & dir & seed & Hdir & Hs & Hne & Hdist & Hw).
      destruct (bfs_distances idx dir maxDepth policy (n_ID seed) W (Hsn _ Hs) Hterm) as [_ Hex].
      destruct (proj2 (Hex (n_ID n) d)) as (r & Hr & Hid & <-); [done|].
      destruct (results_have_nodes _ _ _ _ _ _ _ W C Hr) as (n' & H1 & H2 & H3).
      exists r. split; [apply elem_of_all_reached; by exists dir, seed|]. rewrite H1. cbn.
      rewrite H2 in Hid. injection Hid as Hid. rewrite Hid, Hn in H3. by injection H3 as <-.
Qed.

(** ** An example *)

Definition in_file (id file : string) : Node := mkNode id NodeTypeFunction id "svc" file 1 0 "go" ∅ "".
Definition demo_files : list Node := [in_file "a" "a.go"; in_file "a2" "a.go"; in_file "b" "b.go"; in_file "c" "c.go"].
Definition files_index : AdjacencyIndex :=
  BuildIndex demo_files
    [demo_edge EdgeTypeCalls "a" "b"; demo_edge EdgeTypeCalls "a2" "b"; demo_edge EdgeTypeCalls "b" "c"].

Lemma FileImpact_exact_witness :
  FileImpact files_index demo_files (@rev _) "" "a.go" "forward" 0 =
    Some [mkEntry "b.go" "svc" 1 1 ["calls"] []; mkEntry "c.go" "svc" 1 2 ["calls"] []] /\
  exists out, FileImpact files_index demo_files (@rev _) "" "a.go" "forward" 0 = Some out /\ NoDup (map entry_key out).
Proof.
  split; [vm_compute; reflexivity|].
  assert (W : wf_index files_index) by apply wf_BuildIndex.
  assert (C : closed_index files_index) by (apply closed_by_eval; [exact W|vm_compute; reflexivity]).
  destruct (FileImpact_exact files_index demo_files (@rev _) "" "a.go" "forward" 0 RawPolicy W C)
    as (out & H1 & _ & H2 & _).
  - intros l. symmetry. apply Permutation_rev.
  - apply Forall_forall. repeat (constructor; [vm_compute; reflexivity|]). constructor.
  - exists out. split; [exact H1|exact H2].
Defined.
