(* ===== verification/BudgetCut.v ===== *)
(** Cutting a list to a token budget, the way impact/summary.go and
    trace/trace.go do it: a prefix against a share of the budget, then the
    cheap omitted entries spliced back into the same backing array. *)
From Stdlib Require Import SpecFloat.
From S2P Require Import Prelude.
From S2P Require Import GoStrings.
From S2P Require Import Budget.
Local Open Scope Z_scope.

Definition LevelDetail : string := "detail".
Definition LevelSummary : string := "summary".

(** ** Shares *)

(** [int(f)]: towards zero; what an infinity or a NaN converts to is the
    implementation's choice. *)
Definition float_int (f : spec_float) : Z :=
  match f with
  | S754_finite s m e =>
      let v := if 0 <=? e then Zpos m * 2 ^ e else Zpos m / 2 ^ (- e) in
      if s then - v else v
  | _ => 0
  end.

(** [int(float64(n) * c)] for the constant [c] nearest to [num / den]. *)
Definition float_share (n num den : Z) : Z :=
  float_int (SFmul 53 1024 (float64 n) (SFdiv 53 1024 (float64 num) (float64 den))).

(** ** The splice *)

(** [s = append(s, all[i])] for each index, [s] being [all[:len]]: within its
    capacity append writes into the array it shares with [all]. *)
Fixpoint append_each {A} (arr : list A) (len : nat) (admitted : list Z) : list A * nat :=
  match admitted with
  | [] => (arr, len)
  | i :: admitted' =>
      match arr !! Z.to_nat i with
      | Some x => append_each (<[len := x]> arr) (S len) admitted'
      | None => (arr, len)
      end
  end.

Definition splice {A} (all : list A) (keep : nat) (admitted : list Z) : list A :=
  let '(arr, len) := append_each all keep admitted in take len arr.

(** * Properties *)

Lemma trim_bounds count maxTokens estimate :
  0 <= count ->
  let n := TrimToFit count maxTokens estimate in
  Z.min 1 count <= n <= count /\ (estimate n <= maxTokens \/ n <= 1).
Proof.
  intros Hc. cbn zeta. unfold TrimToFit, trim_search.
  destruct ((count <=? 1) || (estimate count <=? maxTokens)) eqn:E.
  - cbn. apply orb_true_iff in E as [E|E]; lia.
  - apply orb_false_iff in E as [E1 E2].
    destruct (trim_loop_spec (trim_fuel count) estimate maxTokens 1 1 (count - 1))
      as (n & -> & H1 & _); [lia..|unfold trim_fuel; lia|]. cbn. destruct H1 as [->|[]]; lia.
Qed.

Lemma backfill_loop_sublist items headroom itemCost : backfill_loop items headroom itemCost `sublist_of` items.
Proof.
  revert headroom. induction items as [|i items IH]; intros headroom; cbn; [done|].
  destruct (headroom <? itemCost i); by constructor.
Qed.

Lemma Backfill_sublist total kept maxTokens used itemCost :
  Backfill total kept maxTokens used itemCost `sublist_of` seqZ kept (total - kept).
Proof.
  unfold Backfill. destruct (total <=? kept); [apply sublist_nil_l|].
  destruct (maxTokens - used <=? 0); [apply sublist_nil_l|apply backfill_loop_sublist].
Qed.

(** The entries of the tail at the admitted indices. *)
Definition picked {A} (all : list A) (admitted : list Z) : list A := omap (fun i => all !! Z.to_nat i) admitted.

(** Strictly increasing indices from [lo] up, below [hi]. *)
Fixpoint rising (lo hi : Z) (l : list Z) : Prop :=
  match l with [] => True | i :: l' => lo <= i < hi /\ rising (i + 1) hi l' end.

Lemma rising_weaken lo lo' hi l : lo <= lo' -> rising lo' hi l -> rising lo hi l.
Proof. destruct l; cbn; [done|]. intros ? [??]. split; [lia|done]. Qed.

Lemma sublist_rising k n l : l `sublist_of` seqZ k n -> rising k (k + n) l.
Proof.
  destruct (Z.le_gt_cases 0 n) as [Hn|Hn].
  2:{ rewrite seqZ_nil by lia. intros ->%sublist_nil_r. done. }
  revert k l. pattern n. apply Z_of_nat_complete in Hn as [m ->]. induction m as [|m IH]; intros k l.
  - intros ->%sublist_nil_r. done.
  - rewrite seqZ_cons by lia. replace (Z.pred (Z.of_nat (S m))) with (Z.of_nat m) by lia.
    intros [H|(l' & -> & H)]%sublist_cons_r.
    + apply IH in H. replace (k + Z.of_nat (S m)) with (Z.succ k + Z.of_nat m) by lia.
      eapply rising_weaken; [|done]. lia.
    + apply IH in H. split; [lia|]. by replace (k + Z.of_nat (S m)) with (Z.succ k + Z.of_nat m) by lia.
Qed.

(** The writes fall behind the reads: splicing in place reads every entry
    before it is overwritten. *)
Lemma append_each_spec {A} (arr : list A) len admitted :
  rising (Z.of_nat len) (Z.of_nat (length arr)) admitted ->
  let '(arr', len') := append_each arr len admitted in
  take len' arr' = take len arr ++ picked arr admitted.
Proof.
  revert arr len. induction admitted as [|i admitted IH]; intros arr len; cbn [rising append_each picked omap list_omap].
  { intros _. by rewrite app_nil_r. }
  intros [Hi Hr]. destruct (arr !! Z.to_nat i) as [x|] eqn:Ex; [|apply lookup_ge_None in Ex; lia].
  specialize (IH (<[len := x]> arr) (S len)). rewrite length_insert in IH.
  destruct (append_each (<[len:=x]> arr) (S len) admitted) as [arr' len']. rewrite IH by (eapply rising_weaken; [|done]; lia).
  rewrite (take_S_r _ _ x) by (apply list_lookup_insert_eq; lia). rewrite take_insert, decide_False by lia.
  rewrite <- app_assoc. cbn. do 2 f_equal. clear IH. unfold picked.
  assert (Hlt : Z.of_nat len < i + 1) by lia. clear Hi Ex. revert Hlt Hr.
  generalize (i + 1). induction admitted as [|j admitted IH]; intros lo Hlt; cbn; [done|].
  intros [Hj Hr]. rewrite list_lookup_insert_ne by lia. specialize (IH (j + 1) ltac:(lia) Hr). by rewrite IH.
Qed.

Lemma splice_spec {A} (all : list A) keep admitted :
  admitted `sublist_of` seqZ (Z.of_nat keep) (Z.of_nat (length all) - Z.of_nat keep) ->
  splice all keep admitted = take keep all ++ picked all admitted.
Proof.
  intros H%sublist_rising. unfold splice. pose proof (append_each_spec all keep admitted) as Ha.
  replace (Z.of_nat keep + (Z.of_nat (length all) - Z.of_nat keep)) with (Z.of_nat (length all)) in H by lia.
  destruct (append_each all keep admitted). by apply Ha.
Qed.

(** What is spliced in comes from what was cut off, in order. *)
Lemma picked_sublist {A} (all : list A) keep admitted :
  admitted `sublist_of` seqZ (Z.of_nat keep) (Z.of_nat (length all) - Z.of_nat keep) ->
  picked all admitted `sublist_of` drop keep all.
Proof.
  intros H. assert (Hp : picked all (seqZ (Z.of_nat keep) (Z.of_nat (length all) - Z.of_nat keep)) = drop keep all).
  { clear H. destruct (Nat.le_gt_cases keep (length all)) as [Hk|Hk].
    2:{ rewrite seqZ_nil by lia. cbn. symmetry. apply drop_ge. lia. }
    replace (Z.of_nat (length all) - Z.of_nat keep) with (Z.of_nat (length all - keep)) by lia.
    unfold picked. remember (length all - keep)%nat as n eqn:En. revert keep Hk En.
    induction n as [|n IH]; intros keep Hk En.
    - rewrite drop_ge by lia. done.
    - destruct (all !! keep) as [x|] eqn:Ex; [|apply lookup_ge_None in Ex; lia].
      rewrite (drop_S _ x) by done. rewrite seqZ_cons by lia.
      replace (Z.pred (Z.of_nat (S n))) with (Z.of_nat n) by lia.
      replace (Z.succ (Z.of_nat keep)) with (Z.of_nat (S keep)) by lia. cbn [omap list_omap].
      rewrite Nat2Z.id, Ex. f_equal. apply IH; lia. }
  rewrite <- Hp. unfold picked. clear Hp. induction H; cbn; [done| |].
  - destruct (all !! Z.to_nat x); by try constructor.
  - destruct (all !! Z.to_nat x); by try constructor.
Qed.

Example share_nine_tenths : map (fun n => float_share n 9 10) [0; 1; 10; 2000; 15000] = [0; 0; 9; 1800; 13500].
Proof. reflexivity. Qed.
