(* ===== verification/Trace.v ===== *)
(** Flow traces (internal/trace/trace.go): the flat listing of what a node
    reaches or is reached from, and the enumeration of its linear chains under
    a noise filter and two caps.  A hop keeps the references its Sources are
    serialised from; how they are printed is left out. *)
From S2P Require Import Prelude.
From S2P Require Import GoStrings.
From S2P Require Import Budget.
From S2P Require Import BudgetCut.
From S2P Require Import GrModel.
From S2P Require Import GrTraverse.
From S2P Require Import GrNoise.
From S2P Require Import GrVerdict.
From S2P Require Import GrResolve.
From S2P Require Import GrFlows.

Definition MaxChains : Z := 100.
Definition ExploreChains : Z := MaxChains * 5.

Record Hop : Type := mkHop {
  hp_ID : string; hp_Type : string; hp_Label : string; hp_Service : string; hp_File : string; hp_Line : Z;
  hp_Language : string; hp_NodeMeta : Meta; hp_EdgeType : string; hp_EdgeLabel : string;
  hp_Confidence : string; hp_EdgeMeta : Meta; hp_CrossService : bool; hp_Depth : nat;
  hp_VerificationState : string; hp_VerifiedGranularity : string; hp_Sources : list SourceRef
}.

Record Chain : Type := mkChain { ch_Hops : list Hop; ch_Text : string }.

(** ** Hops *)

Definition labelOrID (n : Node) : string := if str_eqb (n_Label n) "" then n_ID n else n_Label n.

Definition nodeHop (n : Node) : Hop :=
  mkHop (n_ID n) (n_Type n) (labelOrID n) (n_Service n) (n_File n) (n_Line n) (n_Language n) (n_Meta n)
    "" "" "" ∅ false 0 "" "" [].

Definition set_cross (h : Hop) : Hop :=
  mkHop (hp_ID h) (hp_Type h) (hp_Label h) (hp_Service h) (hp_File h) (hp_Line h) (hp_Language h)
    (hp_NodeMeta h) (hp_EdgeType h) (hp_EdgeLabel h) (hp_Confidence h) (hp_EdgeMeta h) true (hp_Depth h)
    (hp_VerificationState h) (hp_VerifiedGranularity h) (hp_Sources h).
Definition set_depth (d : nat) (h : Hop) : Hop :=
  mkHop (hp_ID h) (hp_Type h) (hp_Label h) (hp_Service h) (hp_File h) (hp_Line h) (hp_Language h)
    (hp_NodeMeta h) (hp_EdgeType h) (hp_EdgeLabel h) (hp_Confidence h) (hp_EdgeMeta h) (hp_CrossService h) d
    (hp_VerificationState h) (hp_VerifiedGranularity h) (hp_Sources h).

Definition applyEdge (idx : AdjacencyIndex) (e : Edge) (h : Hop) : Hop :=
  let h' := mkHop (hp_ID h) (hp_Type h) (hp_Label h) (hp_Service h) (hp_File h) (hp_Line h) (hp_Language h)
    (hp_NodeMeta h) (ed_Type e) (ed_Label e) (ed_Confidence e) (ed_Meta e) (hp_CrossService h) (hp_Depth h)
    (ed_VerificationState e) (ed_VerifiedGranularity e) (ed_Sources e) in
  if crosses_service idx e then set_cross h' else h'.

(** The noise class of the edge a result came through. *)
Definition via_class (idx : AdjacencyIndex) (e : Edge) (n : Node) : NoiseClass :=
  let srcID := if str_eqb (ed_From e) (n_ID n) then ed_To e else ed_From e in
  ClassifyEdgeNoise e (Nodes idx !! srcID) (Some n).

(** What toHops accumulates: the hops, their edges, and the tally of what is
    hidden. *)
Record listing : Type := mkListing {
  l_hops : list Hop; l_edges : list Edge; l_hidden : gmap NoiseClass Z
}.

Definition to_hop (idx : AdjacencyIndex) (include : NoiseInclude) (st : listing) (tr : TraversalResult) : listing :=
  match tr_Node tr with
  | None => st
  | Some n =>
      let h := set_depth (tr_Depth tr) (nodeHop n) in
      match tr_Via tr with
      | None => mkListing (l_hops st ++ [h]) (l_edges st) (l_hidden st)
      | Some e =>
          let class := via_class idx e n in
          if Allows include class
          then mkListing (l_hops st ++ [applyEdge idx e h]) (l_edges st ++ [e]) (l_hidden st)
          else mkListing (l_hops st) (l_edges st) (count_key (l_hidden st) class)
      end
  end.

(** toHops; the tally continues [hidden]. *)
Definition toHops (idx : AdjacencyIndex) (results : list TraversalResult) (include : NoiseInclude)
    (hidden : gmap NoiseClass Z) : listing :=
  fold_left (to_hop idx include) results (mkListing [] [] hidden).

(** ** Rendering a chain *)

Definition hopLocLabel (h : Hop) : string :=
  if str_eqb (hp_File h) "" then hp_Label h
  else if (0 <? hp_Line h)%Z then hp_File h +:+ ":" +:+ itoa (hp_Line h) +:+ " " +:+ hp_Label h
  else hp_File h +:+ " " +:+ hp_Label h.

Definition hop_text (h : Hop) : string :=
  let marker := if str_eqb (hp_Confidence h) ConfidencePartial || str_eqb (hp_Confidence h) ConfidenceUnknown
                then "?" else "" in
  let edgeType := if str_eqb (hp_EdgeType h) "" then "?" else hp_EdgeType h in
  " -[" +:+ edgeType +:+ marker +:+ "]-> " +:+
  (if hp_CrossService h then "‖" +:+ hp_Service h +:+ "‖ " else "") +:+ hopLocLabel h.

Definition renderChain (hops : list Hop) : string :=
  match hops with
  | [] => ""
  | h :: hops' => "(" +:+ hp_Service h +:+ ") " +:+ hopLocLabel h +:+ Join "" (map hop_text hops')
  end.

(** The edges given to their hops: the i-th edge joins path[i] and path[i+1]. *)
Definition apply_vias (idx : AdjacencyIndex) (direction : string) (n : nat) (vias : list Edge) (hops : list Hop)
    : list Hop :=
  fold_left (fun hops i =>
    match vias !! (i - 1) with
    | None => hops
    | Some e => alter (applyEdge idx e) (if is_in direction then n - i else i) hops
    end) (seq 1 (n - 1)) hops.

(** Service changes between neighbours. *)
Definition mark_crossings (n : nat) (hops : list Hop) : list Hop :=
  fold_left (fun hops i =>
    match hops !! i, hops !! (i - 1) with
    | Some h, Some p => if str_eqb (hp_Service h) (hp_Service p) then hops else <[i := set_cross h]> hops
    | _, _ => hops
    end) (seq 1 (n - 1)) hops.

(** buildChain; a path through an ID without a node panics. *)
Definition buildChain (idx : AdjacencyIndex) (path : list string) (vias : list Edge) (direction : string)
    : option Chain :=
  let n := length path in
  hops ← mapM (fun id => nodeHop <$> Nodes idx !! id) path;
  let hops := if is_in direction then rev hops else hops in
  let hops := mark_crossings n (apply_vias idx direction n vias hops) in
  Some (mkChain hops (renderChain hops)).

(** ** enumerateChains *)

Definition sortedEdges (idx : AdjacencyIndex) (nodeID direction : string) : list Edge :=
  sort_slice (flow_edge_less direction) (edges_dir idx direction nodeID).

(** The variables the closure walk shares. *)
Record search : Type := mkSearch {
  s_out : list Chain; s_explored : Z; s_hidden : gmap NoiseClass Z; s_truncated : bool
}.

Definition truncate (st : search) : search := mkSearch (s_out st) (s_explored st) (s_hidden st) true.
Definition hide (class : NoiseClass) (st : search) : search :=
  mkSearch (s_out st) (s_explored st + 1) (count_key (s_hidden st) class) (s_truncated st).

(** A chain that goes no further: shown while there is room. *)
Definition emit (maxDisplay : Z) (chain : option Chain) (st : search) : option search :=
  if (Z.of_nat (length (s_out st)) <? maxDisplay)%Z
  then c ← chain; Some (mkSearch (s_out st ++ [c]) (s_explored st + 1) (s_hidden st) (s_truncated st))
  else Some (mkSearch (s_out st) (s_explored st + 1) (s_hidden st) true).

(** The loop over the edges of a node; [rec] walks on from a neighbour.  It
    ends early when the exploration budget is used up; otherwise it says
    whether some edge was followed. *)
Inductive loop_end : Type := Returned | Finished (extended : bool).

Fixpoint try_edges (rec : string -> Edge -> search -> option search) (idx : AdjacencyIndex) (direction : string)
    (maxExplore : Z) (include : NoiseInclude) (onPath : gset string) (nodeID : string) (es : list Edge)
    (extended : bool) (st : search) : option (loop_end * search) :=
  match es with
  | [] => Some (Finished extended, st)
  | e :: es' =>
      let next := next_dir direction e in
      if decide (next ∈ onPath)
      then try_edges rec idx direction maxExplore include onPath nodeID es' extended st
      else
        match Nodes idx !! next with
        | None => try_edges rec idx direction maxExplore include onPath nodeID es' extended st
        | Some dst =>
            let class := ClassifyEdgeNoise e (Nodes idx !! nodeID) (Some dst) in
            if negb (Allows include class)
            then
              let st' := hide class st in
              if (maxExplore <=? s_explored st')%Z then Some (Returned, truncate st')
              else try_edges rec idx direction maxExplore include onPath nodeID es' extended st'
            else
              st' ← rec next e st;
              if (maxExplore <=? s_explored st')%Z then Some (Returned, truncate st')
              else try_edges rec idx direction maxExplore include onPath nodeID es' true st'
        end
  end.

(** The closure walk, from the end [nodeID] of [path], which holds it already;
    [None] is a panic, or [fuel] used up, which does not happen with
    [walk_fuel]. *)
Fixpoint walk (fuel : nat) (idx : AdjacencyIndex) (direction : string) (maxDepth maxDisplay maxExplore : Z)
    (include : NoiseInclude) (path : list string) (vias : list Edge) (onPath : gset string) (nodeID : string)
    (depth : nat) (st : search) : option search :=
  match fuel with
  | O => None
  | S fuel' =>
      if (maxExplore <=? s_explored st)%Z then Some (truncate st)
      else
        let edges := if (maxDepth <=? 0)%Z || (Z.of_nat depth <? maxDepth)%Z
                     then sortedEdges idx nodeID direction else [] in
        r ← try_edges (fun next e st =>
              walk fuel' idx direction maxDepth maxDisplay maxExplore include (path ++ [next]) (vias ++ [e])
                ({[next]} ∪ onPath) next (S depth) st)
            idx direction maxExplore include onPath nodeID edges false st;
        match r with
        | (Returned, st') => Some st'
        | (Finished extended, st') =>
            if negb extended && (1 <? length path)
            then emit maxDisplay (buildChain idx path vias direction) st'
            else Some st'
        end
  end.

(** A path holds each node once. *)
Definition walk_fuel (idx : AdjacencyIndex) : nat := S (S (size (Nodes idx))).

Definition enumerateChains (idx : AdjacencyIndex) (rootID direction : string)
    (maxDepth maxDisplay maxExplore : Z) (include : NoiseInclude) : option search :=
  if (maxDisplay <=? 0)%Z || (maxExplore <=? 0)%Z then Some (mkSearch [] 0 ∅ true)
  else walk (walk_fuel idx) idx direction maxDepth maxDisplay maxExplore include [rootID] [] {[rootID]} rootID 0
         (mkSearch [] 0 ∅ false).

(** ** Run *)

(** Result; Status, TargetCandidates and ResolutionNote are set by its
    callers. *)
Record Result : Type := mkResult {
  r_Root : option Node; r_Direction : string; r_Depth : Z; r_Nodes : list Hop; r_Chains : list Chain;
  r_EdgeTypes : list string; r_Services : list string; r_Truncated : bool;
  r_HiddenByClass : gmap NoiseClass Z; r_Unresolved : list UnresolvedRef; r_UnresolvedNote : string;
  r_VerificationSummary : VerificationSummary; r_Trust : TrustStamp; r_Epistemic : Epistemic;
  r_TargetCandidates : list TargetCandidate; r_Status : string; r_ResolutionNote : string;
  r_Budget : option Info
}.

Definition mergeHidden (dst src : gmap NoiseClass Z) : gmap NoiseClass Z :=
  union_with (fun a b => Some (a + b)%Z) dst src.

Definition sortedKeys (m : gset string) : list string := sort_strings (elements m).

(** What Run accumulates over the directions. *)
Record running : Type := mkRunning {
  g_Nodes : list Hop; g_Chains : list Chain; g_hidden : gmap NoiseClass Z; g_truncated : bool;
  g_edges : list Edge
}.

(** One direction: the listing, then the chains that still fit. *)
Definition run_direction (idx : AdjacencyIndex) (rootID : string) (depth : Z) (include : NoiseInclude)
    (exploreChains : Z) (st : running) (dir : string) : option running :=
  let found := if is_in dir then Ancestors idx rootID depth else Descendants idx rootID depth in
  let l := toHops idx found include (g_hidden st) in
  s ← enumerateChains idx rootID dir depth (MaxChains - Z.of_nat (length (g_Chains st))) exploreChains include;
  Some (mkRunning (g_Nodes st ++ l_hops l) (g_Chains st ++ s_out s) (mergeHidden (l_hidden l) (s_hidden s))
          (g_truncated st || s_truncated s) (g_edges st ++ l_edges l)).

(** The directions followed, in order. *)
Definition directions (direction : string) : list string :=
  (if str_eqb direction "backward" || str_eqb direction "both" then ["in"] else []) ++
  (if str_eqb direction "forward" || str_eqb direction "both" then ["out"] else []).

Fixpoint run_directions (idx : AdjacencyIndex) (rootID : string) (depth : Z) (include : NoiseInclude)
    (exploreChains : Z) (dirs : list string) (st : running) : option running :=
  match dirs with
  | [] => Some st
  | dir :: dirs' =>
      st' ← run_direction idx rootID depth include exploreChains st dir;
      run_directions idx rootID depth include exploreChains dirs' st'
  end.

Definition explore_budget (exploreChains : Z) : Z := if (exploreChains <=? 0)%Z then ExploreChains else exploreChains.

(** The zero values of what is attached afterwards. *)
Definition no_trust : TrustStamp := mkTrust false false.
Definition no_verdict : Epistemic := mkEpistemic "" [].

(** Run: nil when the index does not hold the root; the outer [None] is a
    panic. *)
Definition Run (idx : AdjacencyIndex) (rootID direction : string) (depth staleAfter : Z) (now : option Z)
    (include : NoiseInclude) (exploreChains : Z) : option (option Result) :=
  match Nodes idx !! rootID with
  | None => Some None
  | Some root =>
      g ← run_directions idx rootID depth include (explore_budget exploreChains) (directions direction)
            (mkRunning [] [] ∅ false []);
      let edgeTypes : gset string :=
        list_to_set (List.filter (fun t => negb (str_eqb t "")) (map hp_EdgeType (g_Nodes g))) in
      let services : gset string := {[n_Service root]} ∪ list_to_set (map hp_Service (g_Nodes g)) in
      Some (Some (mkResult (Some root) direction depth (g_Nodes g) (g_Chains g) (sortedKeys edgeTypes)
        (sortedKeys services) (g_truncated g) (g_hidden g) [] ""
        (BuildVerificationSummaryAt (g_edges g) staleAfter now) no_trust no_verdict [] "" "" None))
  end.

Fixpoint chains_directions (idx : AdjacencyIndex) (rootID : string) (depth : Z) (include : NoiseInclude)
    (exploreChains : Z) (dirs : list string) (chains : list Chain) : option (list Chain) :=
  match dirs with
  | [] => Some chains
  | dir :: dirs' =>
      s ← enumerateChains idx rootID dir depth (MaxChains - Z.of_nat (length chains)) exploreChains include;
      chains_directions idx rootID depth include exploreChains dirs' (chains ++ s_out s)
  end.

Definition ChainsOnly (idx : AdjacencyIndex) (rootID direction : string) (depth : Z) (include : NoiseInclude)
    (exploreChains : Z) : option (list Chain) :=
  match Nodes idx !! rootID with
  | None => Some []
  | Some _ => chains_directions idx rootID depth include (explore_budget exploreChains) (directions direction) []
  end.

(** ** What is attached afterwards *)

Definition with_unresolved (refs : list UnresolvedRef) (note : string) (r : Result) : Result :=
  mkResult (r_Root r) (r_Direction r) (r_Depth r) (r_Nodes r) (r_Chains r) (r_EdgeTypes r) (r_Services r)
    (r_Truncated r) (r_HiddenByClass r) refs note (r_VerificationSummary r) (r_Trust r) (r_Epistemic r)
    (r_TargetCandidates r) (r_Status r) (r_ResolutionNote r) (r_Budget r).

Definition touched_files (r : Result) : gset string :=
  list_to_set (match r_Root r with Some n => [n_File n] | None => [] end ++ map hp_File (r_Nodes r) ++
               map hp_File (concat (map ch_Hops (r_Chains r)))).

Definition AttachUnresolved (refs : list UnresolvedRef) (r : Result) : Result :=
  let refs' := UnresolvedInFiles refs (touched_files r) in
  with_unresolved refs' (UnresolvedNote (Z.of_nat (length refs'))) r.

Definition FinalizeEpistemic (r : Result) : Result :=
  mkResult (r_Root r) (r_Direction r) (r_Depth r) (r_Nodes r) (r_Chains r) (r_EdgeTypes r) (r_Services r)
    (r_Truncated r) (r_HiddenByClass r) (r_Unresolved r) (r_UnresolvedNote r) (r_VerificationSummary r)
    (r_Trust r)
    (BuildEpistemic (r_Unresolved r) (HasWeakConfidence (map hp_Confidence (r_Nodes r)))
       (r_VerificationSummary r) (r_Trust r))
    (r_TargetCandidates r) (r_Status r) (r_ResolutionNote r) (r_Budget r).

Record CompactResult : Type := mkCompact {
  k_Root : string; k_Direction : string; k_Depth : Z; k_Nodes : list string; k_Chains : list string;
  k_EdgeTypes : list string; k_Services : list string; k_Truncated : bool;
  k_HiddenByClass : gmap NoiseClass Z; k_Unresolved : list UnresolvedRef; k_UnresolvedNote : string;
  k_VerificationSummary : VerificationSummary; k_Trust : TrustStamp; k_Epistemic : Epistemic;
  k_TargetCandidates : list TargetCandidate; k_ResolutionNote : string; k_Budget : option Info
}.

Definition Compact (r : Result) : CompactResult :=
  mkCompact
    (match r_Root r with
     | None => ""
     | Some n => "(" +:+ n_Service n +:+ ") " +:+ hopLocLabel (nodeHop n) +:+ " [" +:+ n_Type n +:+ "]"
     end)
    (r_Direction r) (r_Depth r) (map (fun h => hopLocLabel h +:+ " [" +:+ hp_Type h +:+ "]") (r_Nodes r))
    (map ch_Text (r_Chains r)) (r_EdgeTypes r) (r_Services r) (r_Truncated r) (r_HiddenByClass r)
    (r_Unresolved r) (r_UnresolvedNote r) (r_VerificationSummary r) (r_Trust r) (r_Epistemic r)
    (r_TargetCandidates r) (r_ResolutionNote r) (r_Budget r).

(** ** ApplyBudget *)

Definition with_chains (cs : list Chain) (r : Result) : Result :=
  mkResult (r_Root r) (r_Direction r) (r_Depth r) (r_Nodes r) cs (r_EdgeTypes r) (r_Services r)
    (r_Truncated r) (r_HiddenByClass r) (r_Unresolved r) (r_UnresolvedNote r) (r_VerificationSummary r)
    (r_Trust r) (r_Epistemic r) (r_TargetCandidates r) (r_Status r) (r_ResolutionNote r) (r_Budget r).
Definition with_nodes (ns : list Hop) (r : Result) : Result :=
  mkResult (r_Root r) (r_Direction r) (r_Depth r) ns (r_Chains r) (r_EdgeTypes r) (r_Services r)
    (r_Truncated r) (r_HiddenByClass r) (r_Unresolved r) (r_UnresolvedNote r) (r_VerificationSummary r)
    (r_Trust r) (r_Epistemic r) (r_TargetCandidates r) (r_Status r) (r_ResolutionNote r) (r_Budget r).
Definition set_truncated (b : bool) (r : Result) : Result :=
  mkResult (r_Root r) (r_Direction r) (r_Depth r) (r_Nodes r) (r_Chains r) (r_EdgeTypes r) (r_Services r)
    (r_Truncated r || b) (r_HiddenByClass r) (r_Unresolved r) (r_UnresolvedNote r) (r_VerificationSummary r)
    (r_Trust r) (r_Epistemic r) (r_TargetCandidates r) (r_Status r) (r_ResolutionNote r) (r_Budget r).
Definition with_budget (b : Info) (r : Result) : Result :=
  mkResult (r_Root r) (r_Direction r) (r_Depth r) (r_Nodes r) (r_Chains r) (r_EdgeTypes r) (r_Services r)
    (r_Truncated r) (r_HiddenByClass r) (r_Unresolved r) (r_UnresolvedNote r) (r_VerificationSummary r)
    (r_Trust r) (r_Epistemic r) (r_TargetCandidates r) (r_Status r) (r_ResolutionNote r) (Some b).

(** The JSON size of a result and of a hop, in tokens. *)
Section budgeted.
Context (estimate : Result -> Z) (estimateHop : Hop -> Z).

(** The cost of entry [i] of a list. *)
Definition hop_cost (hs : list Hop) (i : Z) : Z :=
  match hs !! Z.to_nat i with Some h => estimateHop h | None => 0 end.

Definition trim_chains (maxTokens : Z) (r : Result) : Result :=
  let allChains := r_Chains r in
  let count := Z.of_nat (length allChains) in
  let n := TrimToFit count maxTokens (fun n => estimate (with_chains (take (Z.to_nat n) allChains) r)) in
  set_truncated (n <? count)%Z (with_chains (take (Z.to_nat n) allChains) r).

Definition trim_note (word : string) (kept total : nat) : string :=
  word +:+ " trimmed to " +:+ itoa (Z.of_nat kept) +:+ " of " +:+ itoa (Z.of_nat total).

(** The prefix of nodes that fits the cut budget, the omitted nodes the
    leftover pays for, and the result they make, shallowest first. *)
Definition trim_nodes (maxTokens : Z) (r : Result) : Result * list Z :=
  let allNodes := r_Nodes r in
  let count := Z.of_nat (length allNodes) in
  let cutBudget := float_share maxTokens 9 10 in
  let m := TrimToFit count cutBudget (fun m => estimate (with_nodes (take (Z.to_nat m) allNodes) r)) in
  let used := estimate (with_nodes (take (Z.to_nat m) allNodes) r) in
  let admitted := Backfill count m maxTokens used (hop_cost allNodes) in
  let nodes := splice allNodes (Z.to_nat m) admitted in
  let nodes := match admitted with
               | [] => nodes
               | _ :: _ => sort_slice (fun a b => hp_Depth a <? hp_Depth b) nodes
               end in
  (set_truncated (m <? count)%Z (with_nodes nodes r), admitted).

Definition ApplyBudget (maxTokens : Z) (r : Result) : Result :=
  if (maxTokens <=? 0)%Z then r
  else if (estimate r <=? maxTokens)%Z
  then with_budget (mkInfo maxTokens (estimate r) LevelDetail "" 0) r
  else
    let r1 := trim_chains maxTokens r in
    let chainsNote := trim_note "chains" (length (r_Chains r1)) (length (r_Chains r)) in
    if (estimate r1 <=? maxTokens)%Z
    then with_budget (mkInfo maxTokens (estimate r1) LevelDetail (chainsNote +:+ " to fit max_tokens") 0) r1
    else
      let '(r2, admitted) := trim_nodes maxTokens r1 in
      let note := chainsNote +:+ ", " +:+ trim_note "nodes" (length (r_Nodes r2)) (length (r_Nodes r)) +:+
                  " to fit max_tokens" in
      let note := match admitted with
                  | [] => note
                  | _ :: _ => note +:+ " (" +:+ itoa (Z.of_nat (length admitted)) +:+
                      " cheap node(s) admitted out of depth order to use leftover budget)"
                  end in
      with_budget (mkInfo maxTokens (estimate r2) LevelSummary note 0) r2.
End budgeted.
