(* ===== verification/TraceSpec.v ===== *)
(** What a trace shows: each chain is a path the filter leaves open, read in
    flow order, that goes as far as it can; and unless the answer says it was
    truncated, every such path is shown. *)
From S2P Require Import Prelude.
From S2P Require Import GoStrings.
From S2P Require Import Budget.
From S2P Require Import BudgetCut.
From S2P Require Import GrModel.
From S2P Require Import GrTraverse.
From S2P Require Import GrTraverseSpec.
From S2P Require Import GrNoise.
From S2P Require Import GrPath.
From S2P Require Import GrFlows.
From S2P Require Import GrFlowsSpec.
From S2P Require Import GrSeamSpec.
From S2P Require Import Trace.

(** ** The hops of a chain *)

(** Hop [i] of the chain through [nodes] by [edges], in flow order: its node,
    with the edge that leads into it, marked where the service changes. *)
Definition flow_hop (idx : AdjacencyIndex) (nodes : list string) (edges : list Edge) (i : nat) : option Hop :=
  n ← nodes !! i ≫= fun id => Nodes idx !! id;
  match i with
  | O => Some (nodeHop n)
  | S j =>
      e ← edges !! j;
      p ← nodes !! j ≫= fun id => Nodes idx !! id;
      let h := applyEdge idx e (nodeHop n) in
      Some (if str_eqb (n_Service n) (n_Service p) then h else set_cross h)
  end.

Lemma rev_reverse {A} (l : list A) : rev l = reverse l.
Proof. apply rev_alt. Qed.

Section hops.
Context {A : Type}.

(** Updates at positions below [m], each once. *)
Lemma fold_alter (f : nat -> A -> A) (l : list A) m j :
  fold_left (fun l i => alter (f i) i l) (seq 1 m) l !! j =
  if decide (1 <= j <= m) then f j <$> l !! j else l !! j.
Proof.
  revert j. induction m as [|m IH]; intros j; [by rewrite decide_False by lia|].
  rewrite seq_S, fold_left_app. cbn [fold_left]. replace (1 + m) with (S m) by lia.
  destruct (decide (j = S m)) as [->|Hj].
  - rewrite list_lookup_alter_eq, IH, decide_False, decide_True by lia. done.
  - rewrite list_lookup_alter_ne by done. rewrite IH. repeat case_decide; (done || lia).
Qed.

Lemma fold_alter_rev (f : nat -> A -> A) (l : list A) n m j : m < n ->
  fold_left (fun l i => alter (f i) (n - i) l) (seq 1 m) l !! j =
  if decide (n - m <= j < n) then f (n - j) <$> l !! j else l !! j.
Proof.
  intros Hm. revert j. induction m as [|m IH]; intros j; [by rewrite decide_False by lia|].
  rewrite seq_S, fold_left_app. cbn [fold_left]. replace (1 + m) with (S m) by lia.
  destruct (decide (j = n - S m)) as [->|Hj].
  - rewrite list_lookup_alter_eq, IH, decide_False, decide_True by lia. do 2 f_equal. lia.
  - rewrite list_lookup_alter_ne by done. rewrite IH by lia. repeat case_decide; (done || lia).
Qed.

Lemma fold_left_ext_in {B C} (f g : B -> C -> B) l b :
  (forall b c, c ∈ l -> f b c = g b c) -> fold_left f l b = fold_left g l b.
Proof.
  revert b. induction l as [|c l IH]; intros b H; [done|]. cbn. rewrite H by left.
  apply IH. intros b' c' Hc. apply H. by right.
Qed.
End hops.

(** The edge between path[i-1] and path[i]. *)
Definition via_at (vias : list Edge) (i : nat) (h : Hop) (idx : AdjacencyIndex) : Hop :=
  match vias !! (i - 1) with None => h | Some e => applyEdge idx e h end.

Lemma apply_vias_lookup idx dir n vias hops j : n = S (length vias) -> length hops = n ->
  apply_vias idx dir n vias hops !! j =
  match j with
  | O => hops !! O
  | S i => h ← hops !! j; Some (match flow_order dir vias !! i with None => h | Some e => applyEdge idx e h end)
  end.
Proof.
  intros Hn Hl. unfold apply_vias, flow_order.
  assert (Hin : forall i, i ∈ seq 1 (n - 1) -> is_Some (vias !! (i - 1))).
  { intros i Hi%elem_of_seq. apply lookup_lt_is_Some. lia. }
  destruct (is_in dir).
  - rewrite (fold_left_ext_in _ (fun l i => alter (fun h => via_at vias i h idx) (n - i) l)).
    2:{ intros b i Hi. destruct (Hin i Hi) as [e He]. unfold via_at. by rewrite He. }
    rewrite fold_alter_rev by lia. destruct j as [|i]; case_decide; try lia; [done| |].
    + destruct (hops !! S i) as [h|]; [|done]. cbn. unfold via_at. rewrite rev_reverse, reverse_lookup by lia.
      by replace (n - S i - 1) with (length vias - S i) by lia.
    + rewrite (lookup_ge_None_2 hops) by lia. done.
  - rewrite (fold_left_ext_in _ (fun l i => alter (fun h => via_at vias i h idx) i l)).
    2:{ intros b i Hi. destruct (Hin i Hi) as [e He]. unfold via_at. by rewrite He. }
    rewrite fold_alter. destruct j as [|i]; case_decide; try lia; [done| |].
    + destruct (hops !! S i) as [h|]; [|done]. cbn. unfold via_at. by replace (S i - 1) with i by lia.
    + rewrite (lookup_ge_None_2 hops) by lia. done.
Qed.

Lemma apply_vias_length idx dir n vias hops : length (apply_vias idx dir n vias hops) = length hops.
Proof.
  unfold apply_vias. apply (fold_left_inv (fun l => length l = length hops)); [done|].
  intros l i Hl. destruct (vias !! (i - 1)); [by rewrite length_alter|done].
Qed.

Lemma set_cross_service h : hp_Service (set_cross h) = hp_Service h.
Proof. done. Qed.
Lemma applyEdge_service idx e h : hp_Service (applyEdge idx e h) = hp_Service h.
Proof. unfold applyEdge. by destruct (crosses_service idx e). Qed.

(** Marking crossings changes no service, so every hop is compared with its
    neighbour as it was. *)
Lemma mark_crossings_lookup m hops j : m < length hops ->
  fold_left (fun hops i =>
    match hops !! i, hops !! (i - 1) with
    | Some h, Some p => if str_eqb (hp_Service h) (hp_Service p) then hops else <[i := set_cross h]> hops
    | _, _ => hops
    end) (seq 1 m) hops !! j =
  if decide (1 <= j <= m)
  then h ← hops !! j; p ← hops !! (j - 1);
       Some (if str_eqb (hp_Service h) (hp_Service p) then h else set_cross h)
  else hops !! j.
Proof.
  intros Hm. revert j. induction m as [|m IH]; intros j; [by rewrite decide_False by lia|].
  rewrite seq_S, fold_left_app. cbn [fold_left]. replace (1 + m) with (S m) by lia.
  specialize (IH ltac:(lia)). set (mid := fold_left _ (seq 1 m) hops) in *.
  assert (E1 : mid !! S m = hops !! S m) by (rewrite IH, decide_False by lia; done).
  destruct (hops !! S m) as [h|] eqn:Eh; [|apply lookup_ge_None in Eh; lia]. rewrite E1.
  replace (S m - 1) with m by lia.
  destruct (hops !! m) as [p|] eqn:Ep; [|apply lookup_ge_None in Ep; lia].
  assert (E2 : exists p', mid !! m = Some p' /\ hp_Service p' = hp_Service p).
  { rewrite IH. case_decide; [|by exists p]. rewrite Ep. cbn [mbind option_bind].
    destruct (hops !! (m - 1)) as [q|] eqn:Eq; [|apply lookup_ge_None in Eq; lia]. cbn. eexists. split; [done|].
    by destruct (str_eqb _ _). }
  destruct E2 as (p' & -> & ->).
  assert (Hlen : length mid = length hops).
  { subst mid. apply (fold_left_inv (fun l => length l = length hops)); [done|].
    intros l i Hl. destruct (l !! i), (l !! (i - 1)); try done. destruct (str_eqb _ _); [done|by rewrite length_insert]. }
  destruct (decide (j = S m)) as [->|Hj].
  - rewrite decide_True by lia. rewrite Eh. cbn [mbind option_bind]. replace (S m - 1) with m by lia. rewrite Ep. cbn.
    destruct (str_eqb (hp_Service h) (hp_Service p)); [by rewrite E1|by rewrite list_lookup_insert_eq by lia].
  - assert (E : (if str_eqb (hp_Service h) (hp_Service p) then mid else <[S m:=set_cross h]> mid) !! j = mid !! j).
    { destruct (str_eqb _ _); [done|by rewrite list_lookup_insert_ne]. }
    rewrite E, IH. repeat case_decide; (done || lia).
Qed.

Lemma mark_crossings_length n hops : length (mark_crossings n hops) = length hops.
Proof.
  unfold mark_crossings. apply (fold_left_inv (fun l => length l = length hops)); [done|].
  intros l i Hl. destruct (l !! i), (l !! (i - 1)); try done. destruct (str_eqb _ _); [done|by rewrite length_insert].
Qed.

(** buildChain reads a path in flow order: the first node alone, then every
    node with the edge into it. *)
Lemma buildChain_spec idx dir nodes vias :
  length nodes = S (length vias) -> (forall id, id ∈ nodes -> is_Some (Nodes idx !! id)) ->
  exists c, buildChain idx nodes vias dir = Some c /\ ch_Text c = renderChain (ch_Hops c) /\
    length (ch_Hops c) = length nodes /\
    forall i, ch_Hops c !! i = flow_hop idx (flow_order dir nodes) (flow_order dir vias) i.
Proof.
  intros Hl Hall. unfold buildChain.
  destruct (mapM_is_Some_2 (fun id => nodeHop <$> Nodes idx !! id) nodes) as [hops Hm].
  { apply Forall_forall. intros id Hid. apply fmap_is_Some. by apply Hall. }
  rewrite Hm. cbn [mbind option_bind]. eexists. split; [done|]. cbn [ch_Text ch_Hops]. split; [done|].
  apply mapM_Some in Hm. pose proof (Forall2_length _ _ _ Hm) as Hlen.
  set (hops0 := if is_in dir then rev hops else hops).
  assert (Hhops : forall i, hops0 !! i = nodeHop <$> (flow_order dir nodes !! i ≫= fun id => Nodes idx !! id)).
  { intros i. subst hops0. unfold flow_order.
    assert (H : Forall2 (fun id h => nodeHop <$> Nodes idx !! id = Some h)
      (if is_in dir then rev nodes else nodes) (if is_in dir then rev hops else hops)).
    { destruct (is_in dir); [|done]. rewrite !rev_reverse. by apply Forall2_reverse. }
    clear -H. generalize dependent (if is_in dir then rev hops else hops).
    generalize (if is_in dir then rev nodes else nodes). intros ns hs H.
    destruct (ns !! i) as [id|] eqn:E.
    - apply Forall2_lookup_l with (1 := H) in E as (h & -> & Hh). by rewrite <- Hh.
    - cbn. apply lookup_ge_None. apply lookup_ge_None in E. by rewrite <- (Forall2_length _ _ _ H). }
  assert (Hl0 : length hops0 = length nodes) by (subst hops0; destruct (is_in dir); rewrite ?length_rev; done).
  split; [by rewrite mark_crossings_length, apply_vias_length|].
  intros i. unfold mark_crossings. rewrite mark_crossings_lookup by (rewrite apply_vias_length; lia).
  rewrite !apply_vias_lookup by lia. unfold flow_hop.
  destruct i as [|j].
  { rewrite decide_False by lia. rewrite Hhops. by destruct (_ ≫= _). }
  replace (S j - 1) with j by lia. rewrite !Hhops.
  destruct (flow_order dir nodes !! S j ≫= fun id => Nodes idx !! id) as [n|] eqn:En; cbn [fmap option_fmap option_map mbind option_bind].
  2:{ by destruct (decide _). }
  assert (Hlt : S j < length nodes).
  { destruct (flow_order dir nodes !! S j) eqn:E; [|done]. apply lookup_lt_Some in E.
    unfold flow_order in E. destruct (is_in dir); rewrite ?length_rev in E; done. }
  rewrite decide_True by lia.
  destruct (flow_order dir vias !! j) as [e|] eqn:Ee.
  2:{ apply lookup_ge_None in Ee. unfold flow_order in Ee. destruct (is_in dir); rewrite ?length_rev in Ee; lia. }
  cbn [mbind option_bind]. rewrite applyEdge_service.
  destruct j as [|k].
  - destruct (flow_order dir nodes !! 0 ≫= fun id => Nodes idx !! id); done.
  - destruct (flow_order dir nodes !! S k ≫= fun id => Nodes idx !! id) as [p|]; [|done]. cbn.
    destruct (flow_order dir vias !! k); rewrite ?applyEdge_service; done.
Qed.

(** ** The search *)

Section search.
Context (idx : AdjacencyIndex) (dir : string) (maxDepth maxDisplay maxExplore : Z) (include : NoiseInclude)
  (root : string).

(** The edges the walk may follow from [x]. *)
Definition follows_shown (x : string) (e : Edge) : Prop :=
  e ∈ edges_dir idx dir x /\ exists dst, Nodes idx !! next_dir dir e = Some dst /\
    Allows include (ClassifyEdgeNoise e (Nodes idx !! x) (Some dst)) = true.

Abbreviation path := (simple_path follows_shown (next_dir dir) root).
Abbreviation nodes := (nodes_along (next_dir dir) root).

Definition at_limit (es : list Edge) : Prop := (0 < maxDepth /\ maxDepth <= Z.of_nat (length es))%Z.

(** A chain: a path within the limit that cannot be continued. *)
Definition leaf (es : list Edge) : Prop :=
  es <> [] /\ within maxDepth (length es) /\ exists x, path es x /\
    (at_limit es \/ forall e, follows_shown x e -> next_dir dir e ∈ nodes es).

Definition chain_of (es : list Edge) : option Chain := buildChain idx (nodes es) es dir.

(** From [st] to [st'] the chains [found] were added. *)
Record adds_chains (st st' : search) (found : list (list Edge)) : Prop := {
  ac_out : exists cs, mapM chain_of found = Some cs /\ s_out st' = s_out st ++ cs;
  ac_leaf : Forall leaf found;
  ac_mono : s_truncated st = true -> s_truncated st' = true;
  ac_room : (Z.of_nat (length (s_out st)) <= maxDisplay -> Z.of_nat (length (s_out st')) <= maxDisplay)%Z;
  ac_explored : (s_explored st <= maxExplore -> s_explored st' <= maxExplore)%Z
}.

Lemma adds_refl st : adds_chains st st [].
Proof. split; try done. exists []. by rewrite app_nil_r. Qed.

Lemma adds_chains_trans st1 st2 st3 l1 l2 :
  adds_chains st1 st2 l1 -> adds_chains st2 st3 l2 -> adds_chains st1 st3 (l1 ++ l2).
Proof.
  intros [(c1 & M1 & O1) L1 T1 R1 E1] [(c2 & M2 & O2) L2 T2 R2 E2]. split; [|by apply Forall_app|tauto|tauto|tauto].
  exists (c1 ++ c2). split; [|by rewrite O2, O1, app_assoc].
  rewrite mapM_Some in *. by apply Forall2_app.
Qed.

Lemma adds_truncate st : adds_chains st (truncate st) [].
Proof. split; try done. exists []. by rewrite app_nil_r. Qed.

Lemma adds_hide st class : (s_explored st < maxExplore)%Z -> adds_chains st (hide class st) [].
Proof. intros H. split; try done; [exists []; by rewrite app_nil_r|]. cbn. lia. Qed.

(** What a walk below [pre] leaves: chains that extend [pre], and all of them
    unless it says it was cut short. *)
Record walked (pre : list Edge) (st st' : search) : Prop := {
  wk : exists found, adds_chains st st' found /\ Forall (fun es => pre `prefix_of` es) found /\
    ((forall x, NoDup (edges_dir idx dir x)) -> NoDup found) /\
    (s_truncated st' = false -> forall es, leaf es -> pre `prefix_of` es -> es ∈ found)
}.

Section loop.
Context (rec : string -> Edge -> search -> option search) (pre : list Edge) (x : string).
Hypothesis Hpath : path pre x.
Hypothesis Hrec : forall e st, ~ at_limit pre -> follows_shown x e -> next_dir dir e ∉ nodes pre ->
  exists st', rec (next_dir dir e) e st = Some st' /\ walked (pre ++ [e]) st st'.

Definition taken (e : Edge) : Prop := follows_shown x e /\ next_dir dir e ∉ nodes pre.

(** What the loop over [cs] leaves. *)
Record looped (cs : list Edge) (extended : bool) (st : search) (r : loop_end) (st' : search) : Prop := {
  lp_found : exists found, adds_chains st st' found /\
    Forall (fun es => exists e, e ∈ cs /\ pre ++ [e] `prefix_of` es) found /\
    ((forall x, NoDup (edges_dir idx dir x)) -> NoDup cs -> NoDup found) /\
    (s_truncated st' = false -> forall es e, leaf es -> e ∈ cs -> pre ++ [e] `prefix_of` es -> es ∈ found);
  lp_end : match r with
           | Returned => s_truncated st' = true
           | Finished ext => ext = true <-> extended = true \/ exists e, e ∈ cs /\ taken e
           end
}.

(** An edge below which no chain lies changes nothing. *)
Lemma looped_skip e cs extended st r st' :
  ~ taken e -> looped cs extended st r st' -> looped (e :: cs) extended st r st'.
Proof.
  intros Ht [(found & Ha & Hf & Hn & Hc) He]. split.
  - exists found. split_and!; [done| | |].
    + eapply Forall_impl; [done|]. cbn. intros es (e' & ? & ?). exists e'. split; [by right|done].
    + intros H1 [_ H2]%NoDup_cons. by apply Hn.
    + intros Htr es e' Hl [->|He']%elem_of_cons Hp; [|by apply (Hc Htr es e')]. exfalso. apply Ht.
      destruct Hl as (_ & _ & z & Hz & _). destruct Hp as [tl ->]. rewrite <- app_assoc in Hz. cbn in Hz.
      apply simple_middle in Hz as (y & Hy & Hf' & Hn'). by rewrite (simple_end_unique _ _ _ Hy Hpath) in *.
  - destruct r as [|ext]; [done|]. rewrite He. setoid_rewrite elem_of_cons. naive_solver.
Qed.

Lemma looped_then e cs extended st1 st2 r st3 ext1 found1 :
  adds_chains st1 st2 found1 -> Forall (fun es => pre ++ [e] `prefix_of` es) found1 ->
  ((forall x, NoDup (edges_dir idx dir x)) -> NoDup found1) ->
  (s_truncated st2 = false -> forall es, leaf es -> pre ++ [e] `prefix_of` es -> es ∈ found1) ->
  (ext1 = true <-> extended = true \/ taken e) ->
  looped cs ext1 st2 r st3 -> looped (e :: cs) extended st1 r st3.
Proof.
  intros A1 F1 N1 C1 He1 [(found2 & A2 & F2 & N2 & C2) He2]. split.
  - exists (found1 ++ found2). split_and!; [by eapply adds_chains_trans| | |].
    + apply Forall_app. split; (eapply Forall_impl; [done|]); cbn.
      * intros es Hes. exists e. split; [left|done].
      * intros es (e' & ? & ?). exists e'. split; [by right|done].
    + intros H1 [H2 H3]%NoDup_cons. apply NoDup_app. split_and!; [by apply N1| |by apply N2].
      intros es Hes1 Hes2. rewrite Forall_forall in F1, F2. specialize (F1 _ Hes1).
      destruct (F2 _ Hes2) as (e' & He' & Hp'). apply H2. destruct F1 as [t1 ->], Hp' as [t2 Hp'].
      rewrite <- !app_assoc in Hp'. apply app_inv_head in Hp'. cbn in Hp'. by injection Hp' as -> _.
    + intros Htr es e' Hl [->|He']%elem_of_cons Hp; apply elem_of_app.
      * left. apply C1; [|done|done]. destruct (s_truncated st2) eqn:E; [|done].
        by rewrite (ac_mono _ _ _ A2 E) in Htr.
      * right. by apply (C2 Htr es e').
  - destruct r as [|ext]; [done|]. rewrite He2, He1. setoid_rewrite elem_of_cons. naive_solver.
Qed.

Lemma looped_stop e cs extended st1 st2 found :
  adds_chains st1 st2 found -> Forall (fun es => pre ++ [e] `prefix_of` es) found ->
  ((forall x, NoDup (edges_dir idx dir x)) -> NoDup found) ->
  looped (e :: cs) extended st1 Returned (truncate st2).
Proof.
  intros A1 F1 N1. split; [|done]. exists found. split_and!; [|eapply Forall_impl; [done|]; cbn| |done].
  - rewrite <- (app_nil_r found). eapply adds_chains_trans; [done|apply adds_truncate].
  - intros es Hes. exists e. split; [left|done].
  - intros H1 _. by apply N1.
Qed.

Lemma try_edges_chains cs extended st :
  (forall e, e ∈ cs -> e ∈ edges_dir idx dir x /\ ~ at_limit pre) -> (s_explored st < maxExplore)%Z ->
  exists r st', try_edges rec idx dir maxExplore include (list_to_set (nodes pre)) x cs extended st = Some (r, st') /\
    looped cs extended st r st' /\ (r <> Returned -> (s_explored st' < maxExplore)%Z).
Proof.
  revert extended st. induction cs as [|e cs IH]; intros extended st Hcs Hex; cbn [try_edges].
  { eexists _, _. split; [done|]. split; [|done]. split.
    - exists []. split_and!; [apply adds_refl|done|intros; constructor|]. intros _ es e _ He. by apply elem_of_nil in He.
    - split; [tauto|]. intros [|(e & He & _)]; [done|by apply elem_of_nil in He]. }
  assert (Hcs' : forall e', e' ∈ cs -> e' ∈ edges_dir idx dir x /\ ~ at_limit pre) by (intros e' He'; apply Hcs; by right).
  case_decide as Hon; rewrite elem_of_list_to_set in Hon.
  { destruct (IH extended st Hcs' Hex) as (r & st' & E & Hl & Hr). exists r, st'. split_and!; [done| |done].
    apply looped_skip; [|done]. intros [_ ?]. done. }
  destruct (Nodes idx !! next_dir dir e) as [dst|] eqn:En.
  2:{ destruct (IH extended st Hcs' Hex) as (r & st' & E & Hl & Hr). exists r, st'. split_and!; [done| |done].
      apply looped_skip; [|done]. intros [(_ & d & ? & _) _]. congruence. }
  destruct (Allows include (ClassifyEdgeNoise e (Nodes idx !! x) (Some dst))) eqn:Ea; cbn [negb].
  - assert (Hfol : follows_shown x e) by (split; [apply Hcs; left|by exists dst]).
    destruct (Hrec e st (proj2 (Hcs e ltac:(left))) Hfol Hon) as (st1 & -> & [(found & A1 & F1 & N1 & C1)]). cbn [mbind option_bind].
    destruct (maxExplore <=? s_explored st1)%Z eqn:Ex.
    { eexists _, _. split; [done|]. split; [by eapply looped_stop|done]. }
    destruct (IH true st1 Hcs' ltac:(lia)) as (r & st' & E & Hl & Hr). exists r, st'. split_and!; [done| |done].
    apply (looped_then e cs extended st st1 r st' true found); try done. split; [|done]. intros _. by right.
  - assert (Hnt : ~ taken e) by (intros [(_ & d & Hd & Ha) _]; congruence).
    pose proof (adds_hide st (ClassifyEdgeNoise e (Nodes idx !! x) (Some dst)) Hex) as Ah.
    destruct (maxExplore <=? _)%Z eqn:Ex.
    { eexists _, _. split; [done|]. split; [|done]. eapply looped_stop; [done|constructor|intros; constructor]. }
    apply Z.leb_gt in Ex. destruct (IH extended _ Hcs' Ex)
      as (r & st' & E & [(found & A2 & F2 & N2 & C2) He2] & Hr).
    exists r, st'. split_and!; [done| |done]. apply looped_skip; [done|]. split; [|done].
    exists found. split_and!; [|done..]. by apply (adds_chains_trans _ _ _ [] found Ah).
Qed.
End loop.

Hypothesis Hroot : is_Some (Nodes idx !! root).

Lemma path_nodes es x id : path es x -> id ∈ nodes es -> is_Some (Nodes idx !! id).
Proof.
  intros H. refine (fun Hid => simple_nodes (fun id => is_Some (Nodes idx !! id)) es x _ H Hroot id Hid).
  intros y e (_ & dst & Hd & _). by exists dst.
Qed.

Lemma path_length es x : path es x -> S (length es) <= size (Nodes idx).
Proof.
  intros H. rewrite <- (length_nodes_along (next_dir dir) root), <- size_dom.
  rewrite <- (size_list_to_set (C:=gset string)) by by eapply simple_NoDup.
  apply subseteq_size. intros id. rewrite elem_of_list_to_set, elem_of_dom. by apply (path_nodes es x).
Qed.

Lemma chain_of_some es x : path es x -> is_Some (chain_of es).
Proof.
  intros H. destruct (buildChain_spec idx dir (nodes es) es) as (c & E & _); [by rewrite length_nodes_along|..].
  - intros id. by apply (path_nodes es x).
  - by exists c.
Qed.

Lemma adds_emit st es c : chain_of es = Some c -> leaf es -> (s_explored st < maxExplore)%Z ->
  exists st' found, emit maxDisplay (Some c) st = Some st' /\ adds_chains st st' found /\
    (found = [] \/ found = [es]) /\ (s_truncated st' = false -> found = [es]).
Proof.
  intros Hc Hl Hex. unfold emit. destruct (_ <? maxDisplay)%Z eqn:E; cbn [mbind option_bind].
  - eexists _, [es]. split; [done|]. split; [|by auto]. split; cbn [s_out s_explored s_truncated]; [|by constructor|done| |lia].
    + exists [c]. split; [|done]. apply mapM_Some. by repeat constructor.
    + rewrite length_app. cbn [length]. lia.
  - eexists _, []. split; [done|]. split; [|split; [by left|done]]. split; cbn; try done; [|lia]. exists []. by rewrite app_nil_r.
Qed.

(** The chains below [pre] are [pre] itself or go on by an edge of the loop. *)
Lemma leaf_cases pre x es : path pre x -> leaf es -> pre `prefix_of` es ->
  es = pre \/ ~ at_limit pre /\ exists e, follows_shown x e /\ next_dir dir e ∉ nodes pre /\ pre ++ [e] `prefix_of` es.
Proof.
  intros Hp (_ & Hw & z & Hz & _) [[|e tl] ->]; [left; by rewrite app_nil_r|]. right. split.
  - intros [H1 H2]. specialize (Hw H1). rewrite length_app in Hw. cbn in Hw. lia.
  - apply simple_middle in Hz as (y & Hy & Hf & Hn). rewrite (simple_end_unique _ _ _ Hy Hp) in *.
    exists e. split_and!; [done..|]. exists tl. by rewrite <- app_assoc.
Qed.

(** What the node adds once its loop is done: itself, when nothing was
    followed. *)
Lemma walked_finish pre x cs st st' ext :
  path pre x -> within maxDepth (length pre) ->
  (forall e, e ∈ cs <-> e ∈ edges_dir idx dir x /\ ~ at_limit pre) ->
  ((forall x, NoDup (edges_dir idx dir x)) -> NoDup cs) ->
  looped pre x cs false st (Finished ext) st' -> (s_explored st' < maxExplore)%Z ->
  exists st'', (if negb ext && (1 <? length (nodes pre)) then emit maxDisplay (chain_of pre) st' else Some st') = Some st'' /\
    walked pre st st''.
Proof.
  intros Hp Hw Hcs Hncs [(found & A & F & N & C) He] Hex.
  assert (Hpre : Forall (fun es => pre `prefix_of` es) found).
  { eapply Forall_impl; [done|]. cbn. intros es (e & _ & Hes). etrans; [|done]. by exists [e]. }
  assert (Hself : leaf pre -> ext = false).
  { intros (_ & _ & z & Hz & Hend). destruct ext; [|done]. exfalso.
    destruct (proj1 He eq_refl) as [|(e & Hin & Hf & Hn)]; [done|].
    destruct Hend as [Hlim|Hmax]; [by apply Hcs in Hin as [_ ?]|].
    apply Hn, Hmax. by rewrite (simple_end_unique _ _ _ Hz Hp). }
  assert (Hcont : s_truncated st' = false -> forall es, leaf es -> pre `prefix_of` es -> es = pre \/ es ∈ found).
  { intros Htr es Hl Hes. destruct (leaf_cases pre x es Hp Hl Hes) as [|(Hlim & e & Hf & Hn & Hpe)]; [by left|right].
    apply (C Htr es e); [done| |done]. apply Hcs. split; [apply Hf|done]. }
  rewrite length_nodes_along. destruct (negb ext && (1 <? S (length pre))) eqn:E.
  - apply andb_true_iff in E as [E1 E2]. apply negb_true_iff in E1 as ->. apply Nat.ltb_lt in E2.
    assert (Hleaf : leaf pre).
    { split; [by destruct pre; [cbn in E2; lia|]|]. split; [done|]. exists x. split; [done|].
      destruct (decide (0 < maxDepth /\ maxDepth <= Z.of_nat (length pre))%Z) as [|Hlim]; [by left|right].
      intros e Hf. destruct (decide (next_dir dir e ∈ nodes pre)) as [|Hn]; [done|].
      enough (false = true) by done. apply He. right. exists e. split; [|done]. apply Hcs. split; [apply Hf|done]. }
    destruct (chain_of_some pre x Hp) as [c Hc]. rewrite Hc.
    destruct (adds_emit st' pre c Hc Hleaf Hex) as (st'' & new & -> & An & Hnew & Hfull). exists st''. split; [done|].
    split. exists (found ++ new). split_and!; [by eapply adds_chains_trans| | |].
    + apply Forall_app. split; [done|]. destruct Hnew as [->| ->]; by repeat constructor.
    + intros H. apply NoDup_app. split_and!; [by apply N, Hncs| |destruct Hnew as [->| ->]; [constructor|apply NoDup_singleton]].
      intros es Hes Hes'. rewrite Forall_forall in F. destruct (F es Hes) as (e & _ & tl & Htl).
      destruct Hnew as [->| ->]; [by apply elem_of_nil in Hes'|]. apply list_elem_of_singleton in Hes' as ->.
      apply (f_equal length) in Htl. rewrite !length_app in Htl. cbn in Htl. lia.
    + intros Htr es Hl Hes. apply elem_of_app. rewrite (Hfull Htr).
      destruct (Hcont ltac:(destruct (s_truncated st') eqn:E'; [by rewrite (ac_mono _ _ _ An E') in Htr|done]) es Hl Hes)
        as [->|]; [right; by left|by left].
  - exists st'. split; [done|]. split. exists found. split_and!; [done|done|intros H; by apply N, Hncs|].
    intros Htr es Hl Hes. destruct (Hcont Htr es Hl Hes) as [->|]; [|done]. exfalso.
    rewrite (Hself Hl) in E. destruct Hl as [Hne _]. destruct pre; [done|]. discriminate E.
Qed.

Lemma walk_spec fuel pre x st : path pre x -> within maxDepth (length pre) -> size (Nodes idx) <= length pre + fuel ->
  exists st', walk fuel idx dir maxDepth maxDisplay maxExplore include (nodes pre) pre (list_to_set (nodes pre)) x
    (length pre) st = Some st' /\ walked pre st st'.
Proof.
  revert pre x st. induction fuel as [|fuel IH]; intros pre x st Hp Hw Hf.
  { pose proof (path_length pre x Hp). lia. }
  cbn [walk]. destruct (maxExplore <=? s_explored st)%Z eqn:Ex.
  { eexists. split; [done|]. split. exists []. split_and!; [apply adds_truncate|done|intros; constructor|done]. }
  apply Z.leb_gt in Ex.
  set (cs := if (maxDepth <=? 0)%Z || (Z.of_nat (length pre) <? maxDepth)%Z then sortedEdges idx x dir else []).
  assert (Hcs : forall e, e ∈ cs <-> e ∈ edges_dir idx dir x /\ ~ at_limit pre).
  { intros e. subst cs. unfold at_limit. destruct ((maxDepth <=? 0)%Z || (Z.of_nat (length pre) <? maxDepth)%Z) eqn:E.
    - unfold sortedEdges. rewrite elem_of_sort_slice. apply orb_true_iff in E. split; [|tauto]. intros H. split; [done|lia].
    - apply orb_false_iff in E. rewrite elem_of_nil. split; [done|]. intros [_ H]. apply H. lia. }
  assert (Hncs : (forall x, NoDup (edges_dir idx dir x)) -> NoDup cs).
  { intros H. subst cs. destruct (_ || _); [|constructor]. unfold sortedEdges. rewrite sort_slice_perm. apply H. }
  assert (Hrec : forall e st, ~ at_limit pre -> follows_shown x e -> next_dir dir e ∉ nodes pre ->
    exists st', walk fuel idx dir maxDepth maxDisplay maxExplore include (nodes pre ++ [next_dir dir e]) (pre ++ [e])
      ({[next_dir dir e]} ∪ list_to_set (nodes pre)) (next_dir dir e) (S (length pre)) st = Some st' /\
      walked (pre ++ [e]) st st').
  { intros e st0 Hlim He Hn.
    destruct (IH (pre ++ [e]) (next_dir dir e) st0) as (st' & E & Hst).
    - by apply (sp_snoc pre x).
    - intros H. rewrite length_app. cbn. unfold at_limit in Hlim. lia.
    - rewrite length_app. cbn. lia.
    - exists st'. split; [|done]. rewrite <- E, nodes_along_snoc, length_app, Nat.add_comm. f_equal.
      rewrite list_to_set_app_L. cbn. set_solver. }
  destruct (try_edges_chains (fun next e st => walk fuel idx dir maxDepth maxDisplay maxExplore include
    (nodes pre ++ [next]) (pre ++ [e]) ({[next]} ∪ list_to_set (nodes pre)) next (S (length pre)) st) pre x Hp Hrec cs false st) as (r & st' & E & Hl & Hr); [intros e He; by apply Hcs|done|].
  rewrite E. cbn [mbind option_bind]. destruct r as [|ext].
  - eexists. split; [done|]. destruct Hl as [(found & A & F & N & C) Htr]. split. exists found.
      split_and!; [done| |intros H; by apply N, Hncs|by rewrite Htr].
      eapply Forall_impl; [done|]. cbn. intros es (e & _ & Hes). etrans; [|done]. by exists [e].
  - apply (walked_finish pre x cs); try done. by apply Hr.
Qed.
End search.

(** C38: with room to show and to explore, the enumeration returns without
    failing.  What it shows are chains: simple paths of edges the filter lets
    through, within the depth limit, that cannot be continued; each is read in
    flow order, every hop with the edge that leads into it; there are no more
    than the display cap, and each is shown once when the index holds each
    edge once.  Unless the answer says it is truncated, every such path is
    shown. *)
Theorem enumerateChains_exact idx dir maxDepth maxDisplay maxExplore include root :
  is_Some (Nodes idx !! root) -> (0 < maxDisplay)%Z -> (0 < maxExplore)%Z ->
  let chain := leaf idx dir maxDepth include root in
  exists st found, enumerateChains idx root dir maxDepth maxDisplay maxExplore include = Some st /\
    Forall2 (fun es c => ch_Text c = renderChain (ch_Hops c) /\ forall i, ch_Hops c !! i =
      flow_hop idx (flow_order dir (nodes_along (next_dir dir) root es)) (flow_order dir es) i) found (s_out st) /\
    (Z.of_nat (length (s_out st)) <= maxDisplay)%Z /\ (s_explored st <= maxExplore)%Z /\
    (forall es, es ∈ found -> chain es) /\
    ((forall x, NoDup (edges_dir idx dir x)) -> NoDup found) /\
    (s_truncated st = false -> forall es, chain es -> es ∈ found).
Proof.
  intros Hroot Hd He. cbn zeta. unfold enumerateChains.
  replace ((maxDisplay <=? 0)%Z || (maxExplore <=? 0)%Z) with false by lia.
  destruct (walk_spec idx dir maxDepth maxDisplay maxExplore include root Hroot (walk_fuel idx) [] root (mkSearch [] 0 ∅ false))
    as (st & E & [(found & [(cs & Hm & Ho) L _ R X] & _ & N & C)]); [apply sp_nil|intros ?; cbn; lia|unfold walk_fuel; lia|].
  exists st, found. rewrite nodes_along_start in E. split; [exact E|]. cbn [s_out app] in Ho. subst cs.
  cbn in R, X. split_and!; [|lia|lia|by rewrite Forall_forall in L|done|].
  - apply mapM_Some in Hm. clear -Hm L Hroot. induction Hm as [|es c found cs Hc _ IH]; [constructor|].
    apply Forall_cons in L as [(_ & _ & x & Hp & _) L]. constructor; [|by apply IH].
    destruct (buildChain_spec idx dir (nodes_along (next_dir dir) root es) es) as (c' & E' & H1 & _ & H2);
      [by rewrite length_nodes_along|intros id; by eapply path_nodes|].
    unfold chain_of in Hc. rewrite Hc in E'. by injection E' as <-.
  - intros Htr es Hl. apply (C Htr es Hl). apply prefix_nil.
Qed.

Definition trace_index : AdjacencyIndex :=
  demo_index [demo_edge EdgeTypeCalls "s" "a"; demo_edge EdgeTypeCalls "a" "b"; demo_edge EdgeTypeCalls "b" "s";
              demo_edge EdgeTypeContains "a" "c"; demo_edge EdgeTypeCalls "s" "d"].

Lemma enumerateChains_exact_witness :
  (exists st, enumerateChains trace_index "s" "out" 0 100 500 ∅ = Some st /\
     map (fun c => map hp_ID (ch_Hops c)) (s_out st) = [["s"; "a"; "b"]; ["s"; "d"]] /\
     map ch_Text (s_out st) =
       ["(svc) f.go:1 s -[calls]-> f.go:1 a -[calls]-> f.go:1 b"; "(svc) f.go:1 s -[calls]-> f.go:1 d"] /\
     s_hidden st = {["containment" := 1%Z]} /\ s_truncated st = false) /\
  exists st, enumerateChains trace_index "s" "out" 0 100 500 ∅ = Some st /\ (length (s_out st) <= 100).
Proof.
  split; [eexists; split_and!; vm_compute; reflexivity|].
  destruct (enumerateChains_exact trace_index "out" 0 100 500 ∅ "s") as (st & found & H1 & _ & H2 & _);
    [exists (demo_node "s"); vm_compute; reflexivity|reflexivity..|].
  exists st. split; [exact H1|]. clear -H2. lia.
Defined.

(** ** The budget *)

Section budgeted.
Context (estimate : Result -> Z) (estimateHop : Hop -> Z).

(** Every field of a result but the two lists, the truncation mark and the
    budget note. *)
Definition sections (r : Result) :=
  (r_Root r, r_Direction r, r_Depth r, r_EdgeTypes r, r_Services r, r_HiddenByClass r, r_Unresolved r,
   r_UnresolvedNote r, r_VerificationSummary r, r_Trust r, r_Epistemic r, r_TargetCandidates r, r_Status r,
   r_ResolutionNote r).
Definition same_answer (r r' : Result) : Prop := sections r' = sections r.

Lemma trim_chains_spec maxTokens r :
  let r' := trim_chains estimate maxTokens r in
  same_answer r r' /\ r_Nodes r' = r_Nodes r /\ r_Chains r' `prefix_of` r_Chains r /\
  (r_Chains r <> [] -> r_Chains r' <> []) /\
  (r_Truncated r' = false -> r_Truncated r = false /\ r_Chains r' = r_Chains r).
Proof.
  unfold trim_chains. set (count := Z.of_nat (length (r_Chains r))).
  destruct (trim_bounds count maxTokens (fun n => estimate (with_chains (take (Z.to_nat n) (r_Chains r)) r)))
    as [Hn _]; [lia|]. set (n := TrimToFit _ _ _) in *. cbn zeta.
  split; [done|]. cbn. split_and!; [done| | |].
  - exists (drop (Z.to_nat n) (r_Chains r)). by rewrite take_drop.
  - intros Hne E. apply (f_equal length) in E. rewrite length_take in E. destruct (r_Chains r); [done|]. cbn in *. lia.
  - intros [H1 H2]%orb_false_iff. split; [done|]. apply take_ge. lia.
Qed.

Lemma trim_nodes_spec maxTokens r :
  let r' := fst (trim_nodes estimate estimateHop maxTokens r) in
  same_answer r r' /\ r_Chains r' = r_Chains r /\
  (exists ns, ns `sublist_of` r_Nodes r /\ r_Nodes r' ≡ₚ ns) /\
  (r_Nodes r <> [] -> r_Nodes r' <> []) /\
  (r_Truncated r' = false -> r_Truncated r = false /\ r_Nodes r' = r_Nodes r).
Proof.
  unfold trim_nodes. set (count := Z.of_nat (length (r_Nodes r))). set (cut := float_share maxTokens 9 10).
  destruct (trim_bounds count cut (fun m => estimate (with_nodes (take (Z.to_nat m) (r_Nodes r)) r))) as [Hm _]; [lia|].
  set (m := TrimToFit _ _ _) in *. cbn zeta.
  set (adm := Backfill _ _ _ _ _).
  assert (Hadm : adm `sublist_of` seqZ (Z.of_nat (Z.to_nat m)) (Z.of_nat (length (r_Nodes r)) - Z.of_nat (Z.to_nat m))).
  { rewrite Z2Nat.id by lia. apply Backfill_sublist. }
  pose proof (splice_spec _ _ _ Hadm) as Hs. pose proof (picked_sublist (r_Nodes r) _ _ Hadm) as Hp. rewrite Hs.
  set (ns := take (Z.to_nat m) (r_Nodes r) ++ picked (r_Nodes r) adm) in *.
  assert (Hsub : ns `sublist_of` r_Nodes r).
  { subst ns. rewrite <- (take_drop (Z.to_nat m) (r_Nodes r)) at 3. by apply sublist_app. }
  set (out := match adm with [] => ns | _ :: _ => sort_slice (fun a b => hp_Depth a <? hp_Depth b) ns end).
  assert (Hout : out ≡ₚ ns) by (subst out; destruct adm; [done|apply sort_slice_perm]).
  cbn [fst]. split; [done|]. cbn [r_Chains r_Nodes set_truncated with_nodes r_Truncated].
  split_and!; [done|by exists ns| |].
  - intros Hne E. rewrite E in Hout. symmetry in Hout; apply Permutation_nil_r in Hout. subst ns. apply app_eq_nil in Hout as [Ht _].
    apply (f_equal length) in Ht. rewrite length_take in Ht. destruct (r_Nodes r); [done|]. cbn in *. lia.
  - intros [H1 H2]%orb_false_iff. split; [done|]. assert (m = count) as Hmc by lia.
    assert (Ha : adm = []) by (subst adm; unfold Backfill; by rewrite Hmc, Z.leb_refl).
    subst out ns. rewrite Ha. cbn. rewrite app_nil_r. apply take_ge. lia.
Qed.

Lemma same_answer_trans r1 r2 r3 : same_answer r1 r2 -> same_answer r2 r3 -> same_answer r1 r3.
Proof. unfold same_answer. congruence. Qed.
Lemma same_answer_budget b r r' : same_answer r r' -> same_answer r (with_budget b r').
Proof. done. Qed.

(** Fitting an answer to a token budget only ever shortens its two lists:
    the chains to a prefix, the nodes to some of them; neither is emptied,
    every other section is untouched, and when anything at all was left out
    the answer is marked truncated and says why. *)
Theorem ApplyBudget_honest maxTokens r :
  let r' := ApplyBudget estimate estimateHop maxTokens r in
  same_answer r r' /\ r_Chains r' `prefix_of` r_Chains r /\ (r_Chains r <> [] -> r_Chains r' <> []) /\
  (exists ns, ns `sublist_of` r_Nodes r /\ r_Nodes r' ≡ₚ ns) /\ (r_Nodes r <> [] -> r_Nodes r' <> []) /\
  (r_Truncated r' = false -> r_Chains r' = r_Chains r /\ r_Nodes r' = r_Nodes r) /\
  (r_Chains r' <> r_Chains r \/ r_Nodes r' <> r_Nodes r -> exists b, r_Budget r' = Some b /\ Note b <> "").
Proof.
  unfold ApplyBudget. destruct (maxTokens <=? 0)%Z; [|destruct (estimate r <=? maxTokens)%Z].
  - split_and!; try done; [by exists (r_Nodes r)|naive_solver].
  - split_and!; try done; [by exists (r_Nodes r)|naive_solver].
  - destruct (trim_chains_spec maxTokens r) as (A1 & A2 & A3 & A4 & A5).
    set (r1 := trim_chains estimate maxTokens r) in *. destruct (estimate r1 <=? maxTokens)%Z.
    + split_and!; try done; cbn.
      * by exists (r_Nodes r).
      * intros H. split; [by apply A5|done].
      * intros _. eexists. split; [done|]. cbn. discriminate.
    + pose proof (trim_nodes_spec maxTokens r1) as (B1 & B2 & (ns & B3 & B4) & B5 & B6).
      destruct (trim_nodes estimate estimateHop maxTokens r1) as [r2 adm]. cbn [fst] in *. rewrite A2 in *.
      split_and!; cbn.
      * apply same_answer_budget. by eapply same_answer_trans.
      * by rewrite B2.
      * by rewrite B2.
      * by exists ns.
      * done.
      * intros H. destruct (B6 H) as [H1 H2]. rewrite B2. split; [by apply A5|done].
      * intros _. eexists. split; [done|]. cbn. destruct adm; discriminate.
Qed.
End budgeted.
