(* ===== verification/ImpactRollup.v ===== *)
(** The low-token forms of a blast radius (internal/impact/summary.go,
    file.go, unresolved_wire.go): callers rolled up by file, the choice of
    shape for a token budget, and unresolved references grouped by file.  The
    size of a JSON encoding is a parameter. *)
From S2P Require Import Prelude.
From S2P Require Import GoStrings.
From S2P Require Import Budget.
From S2P Require Import BudgetCut.
From S2P Require Import Group.
From S2P Require Import GrModel.
From S2P Require Import GrTraverse.
From S2P Require Import GrNoise.
From S2P Require Import GrVerdict.
From S2P Require Import GrResolve.
From S2P Require Import GrFiles.
From S2P Require Import Impact.
Local Open Scope Z_scope.

(** ** rollupCallers *)

Record FileRollup : Type := mkRollup {
  fr_File : string; fr_Service : string; fr_Nodes : Z; fr_MinDepth : nat; fr_DirectNodes : Z;
  fr_ContainedNodes : Z; fr_EdgeTypes : list string; fr_Sample : string;
  fr_BestVerificationState : string; fr_StructuralOnly : bool; fr_ContainmentOnly : bool
}.

Definition isStructuralEdge (c : Caller) : bool :=
  str_eqb (c_EdgeType c) EdgeTypeInherits || str_eqb (meta_get (c_EdgeMeta c) "via") "rails_filter".

Definition isContainmentEdge (c : Caller) : bool :=
  str_eqb (c_EdgeType c) EdgeTypeContains || str_eqb (c_EdgeType c) EdgeTypeDeclares.

Definition edgeTier (c : Caller) : nat :=
  if isStructuralEdge c then 2 else if isContainmentEdge c then 1 else 0.

(** The caller a file is shown by. *)
Record sample : Type := mkSample {
  sp_tier : nat; sp_depth : nat; sp_verRank : Z; sp_label : string; sp_line : Z
}.
Definition sample_of (c : Caller) : sample :=
  mkSample (edgeTier c) (c_Depth c) (VerificationRank (c_VerificationState c)) (c_Label c) (c_Line c).

Definition sample_less : sample -> sample -> bool :=
  less_by sp_tier Nat.ltb (less_by sp_depth Nat.ltb (less_by sp_verRank Z.ltb
    (fun a b => str_ltb (sp_label a) (sp_label b)))).

Definition better_sample (c : Caller) (s : option sample) : option sample :=
  match s with
  | None => Some (sample_of c)
  | Some old => if sample_less (sample_of c) old then Some (sample_of c) else Some old
  end.

(** An entry under construction. *)
Record file_entry : Type := mkFileEntry {
  e_File : string; e_Service : string; e_Nodes : Z; e_MinDepth : nat; e_Direct : Z; e_Contained : Z;
  e_EdgeTypes : list string; e_Best : string; e_sample : option sample; e_allStructural : bool
}.

Definition caller_key (c : Caller) : file_key := (c_Service c, c_File c).

Definition new_entry (c : Caller) : file_entry :=
  mkFileEntry (c_File c) (c_Service c) 0 (c_Depth c) 0 0 [] "" None true.

Definition add_caller (o : option file_entry) (c : Caller) : file_entry :=
  let e := default (new_entry c) o in
  let contained := isContainmentEdge c in
  mkFileEntry (e_File e) (e_Service e) (e_Nodes e + 1)
    (if (c_Depth c <? e_MinDepth e)%nat then c_Depth c else e_MinDepth e)
    (if contained then e_Direct e else e_Direct e + 1)
    (if contained then e_Contained e + 1 else e_Contained e)
    (if str_eqb (c_EdgeType c) "" then e_EdgeTypes e else appendUnique (e_EdgeTypes e) (c_EdgeType c))
    (if VerificationRank (c_VerificationState c) <? VerificationRank (e_Best e)
     then c_VerificationState c else e_Best e)
    (better_sample c (e_sample e))
    (e_allStructural e && isStructuralEdge c).

Definition sample_text (file : string) (s : option sample) : string :=
  match s with
  | None => ""
  | Some s => if 0 <? sp_line s then sp_label s +:+ " — " +:+ file +:+ ":" +:+ itoa (sp_line s) else sp_label s
  end.

Definition rollup_of (e : file_entry) : FileRollup :=
  mkRollup (e_File e) (e_Service e) (e_Nodes e) (e_MinDepth e) (e_Direct e) (e_Contained e)
    (sort_strings (e_EdgeTypes e)) (sample_text (e_File e) (e_sample e)) (e_Best e) (e_allStructural e)
    (e_Direct e =? 0).

(** [if a != b { return !a }] orders false before true. *)
Definition bool_ltb (a b : bool) : bool := negb a && b.

Definition pathless (f : FileRollup) : bool := str_eqb (fr_File f) "".
Definition fan_out (f : FileRollup) : bool := fr_StructuralOnly f || fr_ContainmentOnly f.
Definition state_rank (f : FileRollup) : Z := VerificationRank (fr_BestVerificationState f).

Definition rollup_less : FileRollup -> FileRollup -> bool :=
  less_by pathless bool_ltb (less_by fan_out bool_ltb (less_by fr_MinDepth Nat.ltb
    (less_by state_rank Z.ltb (less_by fr_File str_ltb (fun a b => str_ltb (fr_Service a) (fr_Service b)))))).

Definition sortFileRollups (files : list FileRollup) : list FileRollup := sort_slice rollup_less files.

(** rollupCallers; [order] is the order in which the map of entries is ranged
    over. *)
Definition rollupCallers (order : list (file_key * file_entry) -> list (file_key * file_entry))
    (callers : list Caller) : list FileRollup :=
  sortFileRollups (map (fun p => rollup_of (snd p)) (order (map_to_list (group caller_key add_caller callers)))).

(** ** Summarize *)

Record Summary : Type := mkSummary {
  s_Target : option Node; s_Ranking : string; s_Files : list FileRollup; s_EntryPoints : list string;
  s_ServicesAffected : list string; s_CrossServiceTriggers : list CrossServiceTrigger; s_Depth : Z;
  s_Direction : string; s_TotalCallers : nat; s_Unresolved : list UnresolvedRef; s_UnresolvedNote : string;
  s_VerificationSummary : VerificationSummary; s_Trust : TrustStamp; s_Epistemic : Epistemic;
  s_Budget : option Info; s_HiddenByClass : gmap NoiseClass Z
}.

Definition maxSummaryMetaValue : Z := 200.
Definition oversized (v : string) : bool := maxSummaryMetaValue <? Z.of_nat (str_len v).

Definition with_meta (m : Meta) (n : Node) : Node :=
  mkNode (n_ID n) (n_Type n) (n_Label n) (n_Service n) (n_File n) (n_Line n) (n_EndLine n) (n_Language n) m
    (n_Snippet n).

(** The names of the oversized values, sorted. *)
Definition dropped_meta (m : Meta) : list string :=
  sort_strings (map fst (List.filter (fun p => oversized (snd p)) (map_to_list m))).

Definition compactTarget (n : option Node) : option Node :=
  match n with
  | None => None
  | Some n =>
      match dropped_meta (n_Meta n) with
      | [] => Some n
      | dropped =>
          Some (with_meta (<["meta_omitted" := Join "," dropped]>
                             (filter (fun p => oversized (snd p) = false) (n_Meta n))) n)
      end
  end.

(** [fmt.Sprintf("%s — %s:%d", label, file, line)] *)
Definition point_text (n : Node) : string :=
  n_Label n +:+ " — " +:+ n_File n +:+ ":" +:+ itoa (n_Line n).

Definition Summarize (order : list (file_key * file_entry) -> list (file_key * file_entry)) (r : Result) : Summary :=
  mkSummary (compactTarget (r_Target r)) "structural,depth,verification" (rollupCallers order (r_Callers r))
    (map point_text (r_EntryPoints r)) (r_ServicesAffected r) (r_CrossServiceTriggers r) (r_Depth r)
    (r_Direction r) (r_TotalCallers r) (r_Unresolved r) (r_UnresolvedNote r) (r_VerificationSummary r)
    (r_Trust r) (r_Epistemic r) None (r_HiddenByClass r).

(** ** The shape for a budget *)

(** What ApplyBudget returns: the result itself or its summary. *)
Inductive answer : Type := Detail (r : Result) | Rolled (s : Summary).

Definition with_files (fs : list FileRollup) (s : Summary) : Summary :=
  mkSummary (s_Target s) (s_Ranking s) fs (s_EntryPoints s) (s_ServicesAffected s)
    (s_CrossServiceTriggers s) (s_Depth s) (s_Direction s) (s_TotalCallers s) (s_Unresolved s)
    (s_UnresolvedNote s) (s_VerificationSummary s) (s_Trust s) (s_Epistemic s) (s_Budget s) (s_HiddenByClass s).
Definition with_refs (refs : list UnresolvedRef) (b : Info) (s : Summary) : Summary :=
  mkSummary (s_Target s) (s_Ranking s) (s_Files s) (s_EntryPoints s) (s_ServicesAffected s)
    (s_CrossServiceTriggers s) (s_Depth s) (s_Direction s) (s_TotalCallers s) refs
    (s_UnresolvedNote s) (s_VerificationSummary s) (s_Trust s) (s_Epistemic s) (Some b) (s_HiddenByClass s).
Definition with_refs_r (refs : list UnresolvedRef) (b : Info) (r : Result) : Result :=
  mkResult (r_Target r) (r_Targets r) (r_Callers r) (r_EntryPoints r) (r_ServicesAffected r)
    (r_CrossServiceTriggers r) (r_Depth r) (r_Direction r) (r_TotalCallers r) refs (r_UnresolvedNote r)
    (r_VerificationSummary r) (r_Trust r) (r_Epistemic r) (r_TargetCandidates r) (r_Status r)
    (r_ResolutionNote r) (Some b) (r_HiddenByClass r).

Definition set_estimated (n : Z) (i : Info) : Info := mkInfo (MaxTokens i) n (Level i) (Note i) (OmittedFiles i).
Definition set_omitted (n : Z) (i : Info) : Info := mkInfo (MaxTokens i) (EstimatedTokens i) (Level i) (Note i) n.

Section budgeted.
Context (estimate : answer -> Z) (estimateRefs : list UnresolvedRef -> Z) (estimateFile : FileRollup -> Z)
  (order : list (file_key * file_entry) -> list (file_key * file_entry)).

(** trimUnresolved: the kept prefix, and the budget note about the rest. *)
Definition trimUnresolved (refs : list UnresolvedRef) (maxTokens : Z) (info : Info) : list UnresolvedRef * Info :=
  let total := Z.of_nat (length refs) in
  if total =? 0 then (refs, info)
  else
    let limit := float_share maxTokens 1 4 in
    let keep := TrimToFit total limit (fun n => estimateRefs (take (Z.to_nat n) refs)) in
    let keep := if limit <? estimateRefs (take (Z.to_nat keep) refs) then 0 else keep in
    let omitted := total - keep in
    (take (Z.to_nat keep) refs,
     if 0 <? omitted
     then AppendNote (itoa omitted +:+ " of " +:+ itoa total +:+
            " unresolved references omitted to fit the budget (the count above is the true total)") info
     else info).

(** The files that fit: a prefix under nine tenths of the budget, then the
    omitted ones the rest pays for, in order again. *)
Definition cut_files (maxTokens : Z) (s : Summary) : list FileRollup * list Z :=
  let all := s_Files s in
  let count := Z.of_nat (length all) in
  let est n := estimate (Rolled (with_files (take (Z.to_nat n) all) s)) in
  let keep := TrimToFit count (float_share maxTokens 9 10) est in
  let admitted := Backfill count keep maxTokens (est keep)
    (fun i => match all !! Z.to_nat i with Some f => estimateFile f | None => 0 end) in
  let files := splice all (Z.to_nat keep) admitted in
  (match admitted with [] => files | _ :: _ => sortFileRollups files end, admitted).

Definition omitted_note (omitted : Z) (admitted : list Z) : string :=
  let note := itoa omitted +:+ " more files omitted to fit the budget" in
  match admitted with
  | [] => note
  | _ :: _ => note +:+ " (" +:+ itoa (Z.of_nat (length admitted)) +:+
      " cheap file(s) admitted out of depth order to use leftover budget)"
  end.

Definition trim_summary (maxTokens : Z) (b : Info) (s : Summary) : Summary * Info :=
  let '(refs, b) := trimUnresolved (s_Unresolved s) maxTokens b in
  let s := with_refs refs b s in
  let '(files, admitted) := cut_files maxTokens s in
  let omitted := Z.of_nat (length (s_Files s)) - Z.of_nat (length files) in
  let s := with_files files s in
  if 0 <? omitted
  then (s, AppendNote (omitted_note omitted admitted) (set_omitted omitted b))
  else (s, b).

(** Result.ApplyBudget *)
Definition ApplyBudget (maxTokens : Z) (forceSummary : bool) (r : Result) : answer :=
  if (maxTokens <=? 0) && negb forceSummary then Detail r
  else if negb forceSummary && (estimate (Detail r) <=? maxTokens)
  then
    let b := mkInfo maxTokens (estimate (Detail r)) LevelDetail "" 0 in
    if 0 <? maxTokens
    then
      let '(refs, b) := trimUnresolved (r_Unresolved r) maxTokens b in
      let r := with_refs_r refs b r in
      Detail (with_refs_r refs (set_estimated (estimate (Detail r)) b) r)
    else Detail (with_refs_r (r_Unresolved r) b r)
  else
    let s := Summarize order r in
    let b := mkInfo maxTokens 0 LevelSummary "" 0 in
    let b := if forceSummary then b
             else AppendNote "full per-node detail exceeds the token budget; rolled up per file" b in
    let '(s, b) := if 0 <? maxTokens then trim_summary maxTokens b s else (s, b) in
    let s := with_refs (s_Unresolved s) b s in
    Rolled (with_refs (s_Unresolved s) (set_estimated (estimate (Rolled s)) b) s).
End budgeted.

(** ** InlineSnippets *)

Section snippets.
Context (readFile : string -> string -> option (list ascii)).

Definition node_snippet (root : string) (lines : Z) (n : Node) : option Node :=
  s ← Snippet readFile root (n_File n) (n_Line n) lines;
  Some (mkNode (n_ID n) (n_Type n) (n_Label n) (n_Service n) (n_File n) (n_Line n) (n_EndLine n)
          (n_Language n) (n_Meta n) (bytes_str s)).

Definition caller_snippet (root : string) (lines : Z) (c : Caller) : option Caller :=
  s ← Snippet readFile root (c_File c) (c_Line c) lines;
  Some (mkCaller (c_ID c) (c_Label c) (c_Type c) (c_Service c) (c_File c) (c_Line c) (c_Meta c)
          (c_EdgeType c) (c_Confidence c) (c_EdgeMeta c) (c_Depth c) (c_Structural c)
          (c_VerificationState c) (c_VerifiedGranularity c) (c_Sources c) (bytes_str s)).

(** InlineSnippets; [None] is the panic of Snippet. *)
Definition InlineSnippets (root : string) (lines : Z) (r : Result) : option Result :=
  if lines <=? 0 then Some r
  else
    target ← match r_Target r with
             | None => Some None
             | Some t => t' ← node_snippet root lines t; Some (Some t')
             end;
    callers ← mapM (caller_snippet root lines) (r_Callers r);
    entryPoints ← mapM (node_snippet root lines) (r_EntryPoints r);
    Some (mkResult target (r_Targets r) callers entryPoints (r_ServicesAffected r)
      (r_CrossServiceTriggers r) (r_Depth r) (r_Direction r) (r_TotalCallers r) (r_Unresolved r)
      (r_UnresolvedNote r) (r_VerificationSummary r) (r_Trust r) (r_Epistemic r) (r_TargetCandidates r)
      (r_Status r) (r_ResolutionNote r) (r_Budget r) (r_HiddenByClass r)).
End snippets.

(** ** Files *)

Record FileResult : Type := mkFileResult {
  f_File : string; f_Service : string; f_Direction : string; f_Depth : Z; f_Impacted : list FileImpactEntry;
  f_Unresolved : list UnresolvedRef; f_UnresolvedNote : string; f_Budget : option Info
}.

(** BuildFile: the error of a file without nodes, or the panic of a result
    without a node. *)
Definition BuildFile (idx : AdjacencyIndex) (nodes : list Node)
    (entries : list (file_key * FileImpactEntry) -> list (file_key * FileImpactEntry))
    (path : string) (opts : Options) : result string (option FileResult) :=
  match NodesInFile nodes (o_Service opts) path with
  | [] => Err ("file not found in index: " +:+ path)
  | seed :: _ =>
      let dir := direction (o_Direction opts) in
      Ok (impacted ← FileImpactWithPolicy idx nodes entries (o_Service opts) path dir (o_Depth opts) (o_Policy opts);
          Some (mkFileResult (n_File seed) (n_Service seed) dir (o_Depth opts) impacted [] "" None))
  end.

Definition AttachUnresolved_file (refs : list UnresolvedRef) (r : FileResult) : FileResult :=
  let files : gset string := list_to_set (f_File r :: map fe_File (f_Impacted r)) in
  let refs' := UnresolvedInFiles refs files in
  mkFileResult (f_File r) (f_Service r) (f_Direction r) (f_Depth r) (f_Impacted r) refs'
    (UnresolvedNote (Z.of_nat (length refs'))) (f_Budget r).

Definition with_impacted (es : list FileImpactEntry) (r : FileResult) : FileResult :=
  mkFileResult (f_File r) (f_Service r) (f_Direction r) (f_Depth r) es (f_Unresolved r) (f_UnresolvedNote r)
    (f_Budget r).
Definition with_budget_f (refs : list UnresolvedRef) (b : Info) (r : FileResult) : FileResult :=
  mkFileResult (f_File r) (f_Service r) (f_Direction r) (f_Depth r) (f_Impacted r) refs (f_UnresolvedNote r)
    (Some b).

(** FileResult.ApplyBudget *)
Definition ApplyBudget_file (estimate : FileResult -> Z) (estimateRefs : list UnresolvedRef -> Z)
    (maxTokens : Z) (r : FileResult) : FileResult :=
  if maxTokens <=? 0 then r
  else if estimate r <=? maxTokens
  then with_budget_f (f_Unresolved r) (mkInfo maxTokens (estimate r) LevelSummary "" 0) r
  else
    let '(refs, b) := trimUnresolved estimateRefs (f_Unresolved r) maxTokens (mkInfo maxTokens 0 LevelSummary "" 0) in
    let r := with_budget_f refs b r in
    let all := f_Impacted r in
    let count := Z.of_nat (length all) in
    let keep := TrimToFit count maxTokens (fun n => estimate (with_impacted (take (Z.to_nat n) all) r)) in
    let r := with_impacted (take (Z.to_nat keep) all) r in
    let omitted := count - keep in
    let b := if 0 <? omitted
             then AppendNote (itoa omitted +:+ " more files omitted to fit the budget") (set_omitted omitted b)
             else b in
    let r := with_budget_f refs b r in
    with_budget_f refs (set_estimated (estimate r) b) r.

(** ** Unresolved references by file *)

Record UnresolvedEntry : Type := mkUEntry {
  ue_Service : string; ue_Line : Z; ue_Name : string; ue_Kind : string; ue_Targets : string
}.
Record UnresolvedFileGroup : Type := mkUGroup { ug_File : string; ug_Entries : list UnresolvedEntry }.

Definition uentry_of (singleService : bool) (r : UnresolvedRef) : UnresolvedEntry :=
  mkUEntry (if singleService then "" else u_Service r) (u_Line r) (u_Name r) (u_Kind r) (u_Targets r).

Definition add_uentry (singleService : bool) (o : option (list UnresolvedEntry)) (r : UnresolvedRef)
    : list UnresolvedEntry := default [] o ++ [uentry_of singleService r].

(** The files in the order they are first met. *)
Definition add_file (st : gset string * list string) (r : UnresolvedRef) : gset string * list string :=
  let '(seen, order) := st in
  if decide (u_File r ∈ seen) then st else ({[u_File r]} ∪ seen, order ++ [u_File r]).

Definition line_less (a b : UnresolvedEntry) : bool := ue_Line a <? ue_Line b.

Definition GroupUnresolvedByFile (refs : list UnresolvedRef) (singleService : bool) : list UnresolvedFileGroup :=
  let byFile := group u_File (add_uentry singleService) refs in
  let order := sort_strings (snd (fold_left add_file refs (∅, []))) in
  map (fun f => mkUGroup f (sort_slice line_less (default [] (byFile !! f)))) order.

(** * Theorems

    What the low-token forms keep: a rollup counts every caller once, an
    unresolved reference is listed once under its file, and an answer fitted
    to a budget says what it left out. *)

#[local] Close Scope Z_scope.
#[export] Instance bool_ltb_total : TotalLess bool_ltb.
Proof. split; [split|]; by intros [] [] *; try destruct c. Qed.
#[export] Instance sample_less_weak : WeakLess sample_less.
Proof. unfold sample_less. apply _. Qed.
#[export] Instance rollup_less_weak : WeakLess rollup_less.
Proof. unfold rollup_less. apply _. Qed.
#[export] Instance line_less_weak : WeakLess line_less.
Proof. unfold line_less. apply _. Qed.

(** ** One entry *)

Definition count {A} (p : A -> bool) (l : list A) : Z := Z.of_nat (length (List.filter p l)).

Lemma count_snoc {A} (p : A -> bool) l x : count p (l ++ [x]) = (count p l + if p x then 1 else 0)%Z.
Proof. unfold count. rewrite List.filter_app, length_app. cbn. destruct (p x); cbn; lia. Qed.

Lemma forall_snoc {A} (P : A -> Prop) l x : (forall y, y ∈ l ++ [x] -> P y) <-> (forall y, y ∈ l -> P y) /\ P x.
Proof. setoid_rewrite elem_of_app. setoid_rewrite list_elem_of_singleton. naive_solver. Qed.

Lemma exists_snoc {A} (P : A -> Prop) l x : (exists y, y ∈ l ++ [x] /\ P y) <-> (exists y, y ∈ l /\ P y) \/ P x.
Proof. setoid_rewrite elem_of_app. setoid_rewrite list_elem_of_singleton. naive_solver. Qed.

(** What an entry says of the callers [cs] filed under it. *)
Record describes (cs : list Caller) (e : file_entry) : Prop := {
  d_key c : c ∈ cs -> caller_key c = (e_Service e, e_File e);
  d_nodes : e_Nodes e = Z.of_nat (length cs);
  d_direct : e_Direct e = count (fun c => negb (isContainmentEdge c)) cs;
  d_contained : e_Contained e = count isContainmentEdge cs;
  d_min : exists c, c ∈ cs /\ c_Depth c = e_MinDepth e;
  d_least c : c ∈ cs -> e_MinDepth e <= c_Depth c;
  d_types t : t ∈ e_EdgeTypes e <-> t <> "" /\ exists c, c ∈ cs /\ c_EdgeType c = t;
  d_types_once : NoDup (e_EdgeTypes e);
  d_best : e_Best e = "" \/ exists c, c ∈ cs /\ c_VerificationState c = e_Best e;
  d_rank c : c ∈ cs -> (VerificationRank (e_Best e) <= VerificationRank (c_VerificationState c))%Z;
  d_sample : exists c, c ∈ cs /\ e_sample e = Some (sample_of c) /\
    forall c', c' ∈ cs -> sample_less (sample_of c') (sample_of c) = false;
  d_structural : e_allStructural e = true <-> forall c, c ∈ cs -> isStructuralEdge c = true
}.

Lemma appendUnique_spec l v : (forall x, x ∈ appendUnique l v <-> x ∈ l \/ x = v) /\ (NoDup l -> NoDup (appendUnique l v)).
Proof.
  unfold appendUnique. destruct (existsb (fun s => str_eqb s v) l) eqn:E.
  - apply existsb_elem in E as (y & Hy & ->%String.eqb_eq). naive_solver.
  - assert (Hv : v ∉ l).
    { intros Hv. apply not_true_iff_false in E. apply E, existsb_elem. exists v. by rewrite String.eqb_refl. }
    split; [intros x; by rewrite elem_of_app, list_elem_of_singleton|].
    intros H. apply NoDup_app. split_and!; [done| |apply NoDup_singleton]. intros x Hx ->%list_elem_of_singleton. done.
Qed.

(** The first caller of a file. *)
Lemma describes_first c : describes [c] (add_caller None c).
Proof.
  assert (Hone : forall c', c' ∈ [c] -> c' = c) by (intros c' H; by apply list_elem_of_singleton in H).
  assert (Hin : c ∈ [c]) by left.
  split; unfold add_caller; cbn [default from_option id new_entry e_File e_Service e_Nodes e_MinDepth e_Direct e_Contained
    e_EdgeTypes e_Best e_sample e_allStructural]; unfold count; cbn [List.filter].
  - by intros c' ->%Hone.
  - done.
  - by destruct (isContainmentEdge c).
  - by destruct (isContainmentEdge c).
  - exists c. split; [done|]. by destruct (_ <? _)%nat.
  - intros c' ->%Hone. rewrite Nat.ltb_irrefl. done.
  - intros t. destruct (str_eqb (c_EdgeType c) "") eqn:E.
    + apply String.eqb_eq in E. rewrite elem_of_nil. split; [done|]. intros [Hne (c' & ->%Hone & H)]. congruence.
    + apply String.eqb_neq in E. cbn. rewrite list_elem_of_singleton. split.
      * intros ->. split; [done|]. by exists c.
      * by intros [_ (c' & ->%Hone & ->)].
  - destruct (str_eqb (c_EdgeType c) ""); [constructor|apply NoDup_singleton].
  - destruct (_ <? _)%Z; [right; by exists c|by left].
  - intros c' ->%Hone. destruct (_ <? _)%Z eqn:E; lia.
  - exists c. split_and!; [done|done|]. intros c' ->%Hone.
    destruct (sample_less (sample_of c) (sample_of c)) eqn:E; [|done]. by rewrite (less_asym _ _ E) in E.
  - cbn. split; [by intros H c' ->%Hone|]. intros H. by apply H.
Qed.

(** One more caller. *)
Lemma describes_next cs e c : describes cs e -> caller_key c = (e_Service e, e_File e) ->
  describes (cs ++ [c]) (add_caller (Some e) c).
Proof.
  intros [K N D Cn M L T T1 B R S St] Hk.
  split; unfold add_caller; cbn [default from_option id e_File e_Service e_Nodes e_MinDepth e_Direct e_Contained
    e_EdgeTypes e_Best e_sample e_allStructural]; rewrite ?count_snoc, ?length_app; cbn [length].
  - by apply forall_snoc.
  - lia.
  - destruct (isContainmentEdge c); cbn; lia.
  - destruct (isContainmentEdge c); lia.
  - apply exists_snoc. destruct (_ <? _)%nat; [by right|by left].
  - apply forall_snoc. split; [intros c' Hc'%L|]; destruct (_ <? _)%nat eqn:E; rewrite ?Nat.ltb_lt, ?Nat.ltb_ge in E; lia.
  - intros t. rewrite exists_snoc. destruct (str_eqb (c_EdgeType c) "") eqn:E.
    + apply String.eqb_eq in E. rewrite T. naive_solver.
    + apply String.eqb_neq in E. rewrite (proj1 (appendUnique_spec _ _)), T. naive_solver.
  - destruct (str_eqb (c_EdgeType c) ""); [done|]. by apply appendUnique_spec.
  - destruct (_ <? _)%Z; [right; apply exists_snoc; by right|]. destruct B as [|]; [by left|right].
    apply exists_snoc. by left.
  - apply forall_snoc. split; [intros c' Hc'%R|]; destruct (_ <? _)%Z eqn:E; lia.
  - destruct S as (s & Hs & -> & Hless). unfold better_sample. destruct (sample_less (sample_of c) (sample_of s)) eqn:E.
    + exists c. split_and!; [apply elem_of_app; right; left|done|]. apply forall_snoc. split.
      * intros c' Hc'. apply (less_negtrans _ (sample_of s)); [by apply Hless|by apply less_asym].
      * destruct (sample_less (sample_of c) (sample_of c)) eqn:E'; [|done]. by rewrite (less_asym _ _ E') in E'.
    + exists s. split_and!; [apply elem_of_app; by left|done|]. by apply forall_snoc.
  - rewrite andb_true_iff, St, forall_snoc. done.
Qed.

Lemma entries_describe callers k e :
  group caller_key add_caller callers !! k = Some e ->
  describes (having caller_key k callers) e /\ (e_Service e, e_File e) = k.
Proof.
  intros H. assert (Hd : having caller_key k callers <> [] /\ describes (having caller_key k callers) e).
  { revert H. rewrite group_lookup. assert (Hall : forall c, c ∈ having caller_key k callers -> caller_key c = k).
    { intros c Hc. apply elem_of_having in Hc. tauto. }
    revert Hall. generalize (having caller_key k callers). intros cs. revert e.
    induction cs as [|c cs IH] using rev_ind; intros e Hall; [done|].
    rewrite fold_left_app. cbn [fold_left]. intros [= <-]. split; [by destruct cs|].
    apply forall_snoc in Hall as [Hall Hc].
    destruct (fold_left _ cs None) as [e|] eqn:E.
    - destruct (IH e Hall eq_refl) as [Hne Hd]. apply describes_next; [done|]. rewrite Hc.
      destruct cs as [|c0 cs]; [done|]. rewrite <- (d_key _ _ Hd c0) by left. symmetry. apply Hall. left.
    - destruct cs as [|c0 cs _] using rev_ind; [apply describes_first|]. by rewrite fold_left_app in E. }
  destruct Hd as [Hne Hd]. split; [done|]. destruct (having caller_key k callers) as [|c cs] eqn:Ec; [done|].
  rewrite <- (d_key _ _ Hd c) by left. assert (Hc : c ∈ having caller_key k callers) by (rewrite Ec; left).
  apply elem_of_having in Hc. tauto.
Qed.

(** ** The rollup *)

Definition rollup_key (f : FileRollup) : file_key := (fr_Service f, fr_File f).

(** What a line of the rollup says of the callers [cs] of its file. *)
Record rolls_up (cs : list Caller) (f : FileRollup) : Prop := {
  ru_nodes : fr_Nodes f = Z.of_nat (length cs);
  ru_split : (fr_DirectNodes f + fr_ContainedNodes f = fr_Nodes f)%Z;
  ru_contained : fr_ContainedNodes f = count isContainmentEdge cs;
  ru_min : exists c, c ∈ cs /\ c_Depth c = fr_MinDepth f;
  ru_least c : c ∈ cs -> fr_MinDepth f <= c_Depth c;
  ru_types t : t ∈ fr_EdgeTypes f <-> t <> "" /\ exists c, c ∈ cs /\ c_EdgeType c = t;
  ru_types_once : NoDup (fr_EdgeTypes f) /\ StronglySorted String.le (fr_EdgeTypes f);
  ru_rank c : c ∈ cs -> (VerificationRank (fr_BestVerificationState f) <= VerificationRank (c_VerificationState c))%Z;
  ru_sample : exists c, c ∈ cs /\ fr_Sample f = sample_text (fr_File f) (Some (sample_of c)) /\
    forall c', c' ∈ cs -> sample_less (sample_of c') (sample_of c) = false;
  ru_structural : fr_StructuralOnly f = true <-> forall c, c ∈ cs -> isStructuralEdge c = true;
  ru_containment : fr_ContainmentOnly f = true <-> forall c, c ∈ cs -> isContainmentEdge c = true
}.

Lemma count_split {A} (p : A -> bool) l : (count (fun x => negb (p x)) l + count p l = Z.of_nat (length l))%Z.
Proof. unfold count. induction l as [|x l IH]; [done|]. cbn. destruct (p x); cbn; lia. Qed.

Lemma count_none {A} (p : A -> bool) l : count (fun x => negb (p x)) l = 0%Z <-> forall x, x ∈ l -> p x = true.
Proof.
  unfold count. split.
  - intros H x Hx. destruct (p x) eqn:E; [done|]. exfalso.
    assert (Hin : x ∈ List.filter (fun x => negb (p x)) l) by (apply elem_of_bfilter; by rewrite E).
    destruct (List.filter (fun x => negb (p x)) l); [by apply elem_of_nil in Hin|done].
  - intros H. destruct (List.filter (fun x => negb (p x)) l) as [|x xs] eqn:E; [done|]. exfalso.
    assert (Hin : x ∈ List.filter (fun x => negb (p x)) l) by (rewrite E; left).
    apply elem_of_bfilter in Hin as [Hx Hn]. by rewrite (H x Hx) in Hn.
Qed.

Lemma rollup_of_ok cs e : describes cs e -> rolls_up cs (rollup_of e).
Proof.
  intros [K N D Cn M L T T1 B R (c & Hc & Hs & Hl) St]. split; cbn; try done.
  - rewrite D, Cn, N. apply count_split.
  - intros t. by rewrite elem_of_sort_strings.
  - unfold sort_strings. split; [by rewrite merge_sort_Permutation|apply (StronglySorted_merge_sort String.le)].
  - exists c. by rewrite Hs.
  - rewrite Z.eqb_eq, D. apply count_none.
Qed.

Lemma elem_of_rollup order callers f : (forall l, order l ≡ₚ l) ->
  f ∈ rollupCallers order callers <->
  exists k e, group caller_key add_caller callers !! k = Some e /\ f = rollup_of e.
Proof.
  intros Ho. unfold rollupCallers, sortFileRollups. rewrite elem_of_sort_slice, list_elem_of_fmap. setoid_rewrite Ho. split.
  - intros ([k e] & -> & H%elem_of_map_to_list). by exists k, e.
  - intros (k & e & H & ->). exists (k, e). by rewrite elem_of_map_to_list.
Qed.

Lemma rollup_keys order callers : (forall l, order l ≡ₚ l) ->
  map rollup_key (rollupCallers order callers) ≡ₚ map fst (map_to_list (group caller_key add_caller callers)).
Proof.
  intros Ho. unfold rollupCallers, sortFileRollups. rewrite (Permutation_map rollup_key (sort_slice_perm _ _)), map_map.
  rewrite (Permutation_map _ (Ho _)). apply eq_subrelation; [apply _|]. apply map_ext_in.
  intros [k e] H%list_elem_of_In%elem_of_map_to_list. cbn. by destruct (entries_describe _ _ _ H) as [_ <-].
Qed.

(** The rollup has one line for each file callers land in, most relevant
    first whatever the order of the map; the lines count every caller exactly
    once; and each line gives its file's direct and contained callers, the
    least depth and the kinds of edge they were reached by, the best state of
    verification, and as a sample the caller that best evidences the file. *)
Theorem rollupCallers_exact order callers : (forall l, order l ≡ₚ l) ->
  let files := rollupCallers order callers in
  StronglySorted (may_precede rollup_less) files /\ NoDup (map rollup_key files) /\
  (forall k, k ∈ map rollup_key files <-> exists c, c ∈ callers /\ caller_key c = k) /\
  (forall f, f ∈ files -> rolls_up (having caller_key (rollup_key f) callers) f) /\
  concat (map (fun f => having caller_key (rollup_key f) callers) files) ≡ₚ callers.
Proof.
  intros Ho files. pose proof (rollup_keys order callers Ho) as Hk.
  assert (Hdom : forall k, k ∈ map rollup_key files <-> exists c, c ∈ callers /\ caller_key c = k).
  { intros k. unfold files. rewrite Hk, <- (group_dom caller_key add_caller). rewrite list_elem_of_fmap. split.
    - intros ([k' e] & -> & H%elem_of_map_to_list). by exists e.
    - intros [e He]. exists (k, e). by rewrite elem_of_map_to_list. }
  assert (Hnd : NoDup (map rollup_key files)) by (unfold files; rewrite Hk; apply NoDup_fst_map_to_list).
  split_and!; [apply sort_slice_sorted, _|done|done| |].
  - intros f (k & e & H & ->)%elem_of_rollup; [|done]. destruct (entries_describe _ _ _ H) as [Hd <-].
    by apply rollup_of_ok.
  - rewrite <- (map_map rollup_key (fun k => having caller_key k callers)).
    apply having_partition; [done|]. intros c Hc. apply Hdom. by exists c.
Qed.

(** ** Grouping by file *)

Lemma add_file_spec refs : let '(seen, order) := fold_left add_file refs (∅, []) in
  NoDup order /\ (forall f, f ∈ order <-> f ∈ seen) /\ forall f, f ∈ order <-> exists r, r ∈ refs /\ u_File r = f.
Proof.
  induction refs as [|r refs IH] using rev_ind; cbn.
  { split_and!; [constructor|set_solver|]. intros f. rewrite elem_of_nil. split; [done|]. intros (r & Hr & _). by apply elem_of_nil in Hr. }
  rewrite fold_left_app. cbn. destruct (fold_left add_file refs (∅, [])) as [seen order]. destruct IH as (H1 & H2 & H3).
  unfold add_file. case_decide as D.
  - split_and!; [done|done|]. intros f. rewrite (exists_snoc (fun r => u_File r = f)), H3. split; [by left|]. intros [|<-]; [done|]. by apply H3, H2.
  - split_and!.
    + apply NoDup_app. split_and!; [done| |apply NoDup_singleton]. intros f Hf ->%list_elem_of_singleton. by apply D, H2.
    + intros f. rewrite elem_of_app, list_elem_of_singleton, elem_of_union, elem_of_singleton, H2. tauto.
    + intros f. rewrite (exists_snoc (fun r => u_File r = f)), elem_of_app, list_elem_of_singleton, H3. naive_solver.
Qed.

Lemma byFile_lookup b refs f :
  default [] (group u_File (add_uentry b) refs !! f) = map (uentry_of b) (having u_File f refs).
Proof.
  rewrite group_lookup. generalize (having u_File f refs). intros l.
  induction l as [|r l IH] using rev_ind; [done|]. rewrite fold_left_app, map_app. cbn. unfold add_uentry at 1.
  by rewrite IH.
Qed.

(** Grouping the unresolved references by file lists every file once, in
    order, and every reference exactly once, under its own file, by line, and
    within a line in the order it was given. *)
Theorem GroupUnresolvedByFile_partition refs single :
  let gs := GroupUnresolvedByFile refs single in
  StronglySorted String.le (map ug_File gs) /\ NoDup (map ug_File gs) /\
  (forall g, g ∈ gs -> ug_Entries g <> [] /\ StronglySorted (may_precede line_less) (ug_Entries g) /\
     forall line, List.filter (fun e => ue_Line e =? line)%Z (ug_Entries g) =
       map (uentry_of single) (List.filter (fun r => u_Line r =? line)%Z (having u_File (ug_File g) refs))) /\
  concat (map (fun g => map (pair (ug_File g)) (ug_Entries g)) gs) ≡ₚ
    map (fun r => (u_File r, uentry_of single r)) refs.
Proof.
  unfold GroupUnresolvedByFile. pose proof (add_file_spec refs) as H.
  destruct (fold_left add_file refs (∅, [])) as [seen order]. destruct H as (Hnd & _ & Hin). cbn [snd].
  cbn zeta. rewrite map_map. cbn [ug_File]. rewrite map_id.
  assert (Hp : sort_strings order ≡ₚ order) by (unfold sort_strings; apply merge_sort_Permutation).
  split_and!; [apply (StronglySorted_merge_sort String.le)|by rewrite Hp| |].
  - intros g (f & -> & Hf)%list_elem_of_fmap. cbn [ug_Entries ug_File]. rewrite byFile_lookup. split_and!.
    + intros E. apply elem_of_sort_strings, Hin in Hf as (r & Hr & Hrf).
      assert (Hh : r ∈ having u_File f refs) by by apply elem_of_having.
      apply (list_elem_of_fmap_2 (uentry_of single)) in Hh. rewrite <- (elem_of_sort_slice line_less) in Hh.
      change (map (uentry_of single)) with (fmap (M:=list) (uentry_of single)) in E. rewrite E in Hh. by apply elem_of_nil in Hh.
    + apply sort_slice_sorted, _.
    + intros line. rewrite sort_slice_stable.
      * induction (having u_File f refs) as [|r l IH]; [done|]. cbn. rewrite IH. by destruct (_ =? _)%Z.
      * intros x y Hx%Z.eqb_eq Hy%Z.eqb_eq. unfold line_less. lia.
  - rewrite map_map. cbn [ug_File ug_Entries].
    transitivity (concat (map (fun f => map (fun r => (u_File r, uentry_of single r)) (having u_File f refs)) (sort_strings order))).
    + assert (Hf : forall f, map (pair f) (sort_slice line_less (default [] (group u_File (add_uentry single) refs !! f)))
        ≡ₚ map (fun r => (u_File r, uentry_of single r)) (having u_File f refs)).
      { intros f. rewrite (Permutation_map _ (sort_slice_perm _ _)), byFile_lookup, map_map.
        apply eq_subrelation; [apply _|]. apply map_ext_in. intros r Hr%list_elem_of_In.
        apply elem_of_having in Hr as [_ ->]. done. }
      generalize (sort_strings order). clear -Hf. intros fs. induction fs as [|f fs IH]; [done|]. cbn [map concat]. by rewrite Hf, IH.
    + rewrite <- (map_map (fun f => having u_File f refs) (map (fun r => (u_File r, uentry_of single r)))), <- concat_map.
      apply Permutation_map. apply having_partition; [by rewrite Hp|].
      intros r Hr. apply elem_of_sort_strings, Hin. by exists r.
Qed.

(** ** The budget *)

Section budgeted.
Context (estimate : answer -> Z) (estimateRefs : list UnresolvedRef -> Z) (estimateFile : FileRollup -> Z)
  (order : list (file_key * file_entry) -> list (file_key * file_entry)).

Lemma AppendNote_note note i : note <> "" -> Note (AppendNote note i) <> "".
Proof. intros H. cbn. destruct (str_eqb (Note i) "") eqn:E; [done|]. by destruct (Note i). Qed.

Lemma AppendNote_keeps note i : Note i <> "" -> Note (AppendNote note i) <> "".
Proof. intros H. cbn. destruct (str_eqb (Note i) "") eqn:E; [by apply String.eqb_eq in E|]. by destruct (Note i). Qed.

(** The kept references are a prefix, and a note is left when any is cut. *)
Lemma trimUnresolved_spec refs maxTokens info :
  let '(kept, b) := trimUnresolved estimateRefs refs maxTokens info in
  kept `prefix_of` refs /\ (kept <> refs -> Note b <> "") /\ (Note info <> "" -> Note b <> "") /\
  OmittedFiles b = OmittedFiles info.
Proof.
  unfold trimUnresolved. destruct (_ =? 0)%Z eqn:E0; [by split_and!|].
  set (keep0 := TrimToFit _ _ _). set (keep := if (_ <? _)%Z then _ else keep0).
  split; [exists (drop (Z.to_nat keep) refs); by rewrite take_drop|].
  destruct (0 <? _)%Z eqn:E.
  - split_and!; [|apply AppendNote_keeps|done]. intros _. apply AppendNote_note.
    assert (Hn : forall a b, (a +:+ " of " +:+ b) <> "") by (intros [|]; discriminate). intros H. by apply Hn in H.
  - split_and!; [|done|done]. intros H. destruct H. apply take_ge. lia.
Qed.

Lemma cut_files_spec maxTokens s : let '(files, _) := cut_files estimate estimateFile maxTokens s in
  StronglySorted (may_precede rollup_less) (s_Files s) ->
  StronglySorted (may_precede rollup_less) files /\
  (exists fs, fs `sublist_of` s_Files s /\ files ≡ₚ fs) /\ (s_Files s <> [] -> files <> []).
Proof.
  unfold cut_files. set (all := s_Files s). set (count := Z.of_nat (length all)).
  set (est := fun n => _). set (cut := float_share maxTokens 9 10).
  destruct (trim_bounds count cut est) as [Hn _]; [lia|]. set (keep := TrimToFit count cut est) in *.
  set (adm := Backfill _ _ _ _ _).
  assert (Hadm : adm `sublist_of` seqZ (Z.of_nat (Z.to_nat keep)) (Z.of_nat (length all) - Z.of_nat (Z.to_nat keep))).
  { rewrite Z2Nat.id by lia. apply Backfill_sublist. }
  rewrite (splice_spec _ _ _ Hadm). pose proof (picked_sublist all _ _ Hadm) as Hp.
  set (fs := take (Z.to_nat keep) all ++ picked all adm).
  set (files := match adm with [] => fs | _ :: _ => sortFileRollups fs end). intros Hsorted.
  assert (Hperm : files ≡ₚ fs) by (subst files; destruct adm; [done|apply sort_slice_perm]).
  split_and!.
  - subst files fs. destruct adm as [|i adm]; [|apply sort_slice_sorted, _]. cbn. rewrite app_nil_r.
    rewrite <- (take_drop (Z.to_nat keep) all) in Hsorted. by apply StronglySorted_app_1_l in Hsorted.
  - exists fs. split; [|done]. subst fs. rewrite <- (take_drop (Z.to_nat keep) all) at 3. by apply sublist_app.
  - intros Hne E. rewrite E in Hperm. apply Permutation_nil_l in Hperm. subst fs. symmetry in Hperm.
    apply app_eq_nil in Hperm as [Ht _]. apply (f_equal length) in Ht. rewrite length_take in Ht.
    destruct all; [done|]. cbn in *. lia.
Qed.

Lemma omitted_note_ne n adm : omitted_note n adm <> "".
Proof. unfold omitted_note. destruct adm; destruct (itoa n); discriminate. Qed.

(** Whatever the budget, an impact answer keeps its verdict, its
    verification summary, its totals and the note that counts the unresolved
    references; of the references it keeps a prefix, and says so when one is
    cut; and when it is rolled up, its files are rollup lines in order, never
    none of them when there are some, and the budget gives the number left
    out. *)
Theorem impact_budget_honest maxTokens force r :
  match ApplyBudget estimate estimateRefs estimateFile order maxTokens force r with
  | Detail r' =>
      r_Callers r' = r_Callers r /\ r_EntryPoints r' = r_EntryPoints r /\ r_TotalCallers r' = r_TotalCallers r /\
      r_Epistemic r' = r_Epistemic r /\ r_VerificationSummary r' = r_VerificationSummary r /\
      r_UnresolvedNote r' = r_UnresolvedNote r /\ r_Unresolved r' `prefix_of` r_Unresolved r /\
      (r_Unresolved r' <> r_Unresolved r -> exists b, r_Budget r' = Some b /\ Note b <> "")
  | Rolled s =>
      let all := rollupCallers order (r_Callers r) in
      s_TotalCallers s = r_TotalCallers r /\ s_Epistemic s = r_Epistemic r /\
      s_VerificationSummary s = r_VerificationSummary r /\ s_UnresolvedNote s = r_UnresolvedNote r /\
      s_Unresolved s `prefix_of` r_Unresolved r /\
      StronglySorted (may_precede rollup_less) (s_Files s) /\
      (exists fs, fs `sublist_of` all /\ s_Files s ≡ₚ fs) /\ (all <> [] -> s_Files s <> []) /\
      exists b, s_Budget s = Some b /\
        OmittedFiles b = (Z.of_nat (length all) - Z.of_nat (length (s_Files s)))%Z /\
        (s_Unresolved s <> r_Unresolved r \/ OmittedFiles b <> 0%Z -> Note b <> "")
  end.
Proof.
  unfold ApplyBudget. destruct ((maxTokens <=? 0)%Z && negb force) eqn:E1; [by split_and!|].
  destruct (negb force && (estimate (Detail r) <=? maxTokens)%Z) eqn:E2.
  - set (b := mkInfo _ _ _ _ _). destruct (0 <? maxTokens)%Z; [|by split_and!].
    pose proof (trimUnresolved_spec (r_Unresolved r) maxTokens b) as Ht.
    destruct (trimUnresolved estimateRefs (r_Unresolved r) maxTokens b) as [refs b']. destruct Ht as (H1 & H2 & _).
    cbn [r_Callers with_refs_r r_EntryPoints r_TotalCallers r_Epistemic r_VerificationSummary r_UnresolvedNote r_Unresolved r_Budget].
    split_and!; try done. intros H. eexists. split; [done|]. by apply H2.
  - set (s := Summarize order r). set (b := if force then _ else _).
    assert (Hb : OmittedFiles b = 0%Z) by (subst b; by destruct force).
    assert (Hs : StronglySorted (may_precede rollup_less) (s_Files s)) by apply sort_slice_sorted, _.
    destruct (0 <? maxTokens)%Z.
    2:{ cbn [with_refs s_TotalCallers s_Epistemic s_VerificationSummary s_UnresolvedNote s_Unresolved s_Files s_Budget].
        split_and!; try done; [by exists (s_Files s)|]. eexists. split; [done|]. cbn [set_estimated OmittedFiles Note].
        split; [rewrite Hb; cbn; lia|]. rewrite Hb. by intros []. }
    unfold trim_summary. pose proof (trimUnresolved_spec (s_Unresolved s) maxTokens b) as Ht.
    destruct (trimUnresolved estimateRefs (s_Unresolved s) maxTokens b) as [refs b1]. destruct Ht as (H1 & H2 & H3 & H4).
    pose proof (cut_files_spec maxTokens (with_refs refs b1 s)) as Hc.
    destruct (cut_files estimate estimateFile maxTokens (with_refs refs b1 s)) as [files adm].
    destruct (Hc Hs) as (Hf1 & (fs & Hf2 & Hf3) & Hf4). cbn [s_Files with_refs] in *.
    assert (Hlen : length files <= length (s_Files s)) by (rewrite Hf3; by apply sublist_length).
    destruct (0 <? _)%Z eqn:Eo;
      cbn [with_refs with_files s_TotalCallers s_Epistemic s_VerificationSummary s_UnresolvedNote s_Unresolved s_Files s_Budget];
      (split_and!; [done..|by exists fs|done|]); eexists; (split; [done|]); cbn [set_estimated AppendNote set_omitted OmittedFiles Note].
    + split; [done|]. intros _.
      apply (AppendNote_note (omitted_note (Z.of_nat (length (s_Files s)) - Z.of_nat (length files)) adm)
        (set_omitted (Z.of_nat (length (s_Files s)) - Z.of_nat (length files)) b1)), omitted_note_ne.
    + change (s_Files s) with (rollupCallers order (r_Callers r)) in *. split; [lia|]. intros [H|H]; [by apply H2|lia].
Qed.
End budgeted.

(** ** An example *)

Definition demo_caller (id file ty : string) (depth : nat) : Caller :=
  mkCaller id id "function" "svc" file 7 ∅ ty "" ∅ depth false "" "" [] "".

Lemma rollupCallers_exact_witness :
  let callers := [demo_caller "a" "a.go" "calls" 2; demo_caller "b" "b.go" "contains" 1;
                  demo_caller "c" "a.go" "contains" 1] in
  map (fun f => (fr_File f, fr_Nodes f, fr_DirectNodes f, fr_MinDepth f, fr_Sample f)) (rollupCallers (@rev _) callers) =
    [("a.go", 2%Z, 1%Z, 1, "a — a.go:7"); ("b.go", 1%Z, 0%Z, 1, "b — b.go:7")] /\
  concat (map (fun f => having caller_key (rollup_key f) callers) (rollupCallers (@rev _) callers)) ≡ₚ callers.
Proof.
  cbn zeta. split; [vm_compute; reflexivity|].
  destruct (rollupCallers_exact (@rev _) [demo_caller "a" "a.go" "calls" 2; demo_caller "b" "b.go" "contains" 1;
    demo_caller "c" "a.go" "contains" 1]) as (_ & _ & _ & _ & H); [intros l; symmetry; apply Permutation_rev|exact H].
Defined.
