(* ===== verification/ImpactDiff.v ===== *)
(** The blast radius of uncommitted changes (internal/impact/diff.go): changed
    spans mapped to nodes, the spans nothing maps to, and the union of what the
    changed nodes break. *)
From S2P Require Import Prelude.
From S2P Require Import GoStrings.
From S2P Require Import Budget.
From S2P Require Import BudgetCut.
From S2P Require Import GitDiff.
From S2P Require Import GrModel.
From S2P Require Import GrTraverse.
From S2P Require Import GrNoise.
From S2P Require Import GrVerdict.
From S2P Require Import GrFiles.
From S2P Require Import Impact.
From S2P Require Import ImpactRollup.
Local Open Scope Z_scope.

Record DiffTarget : Type := mkTarget { dt_Node : Node; dt_Spans : list Span }.
Record UnmappedHunk : Type := mkUnmapped { uh_File : string; uh_Span : option Span; uh_Reason : string }.

Record DiffResult : Type := mkDiff {
  d_Mode : string; d_Depth : Z; d_ChangedFiles : nat; d_Targets : list DiffTarget;
  d_Unmapped : list UnmappedHunk; d_Callers : list Caller; d_EntryPoints : list Node;
  d_ServicesAffected : list string; d_CrossServiceTriggers : list CrossServiceTrigger;
  d_TotalCallers : nat; d_Unresolved : list UnresolvedRef; d_UnresolvedNote : string;
  d_VerificationSummary : VerificationSummary; d_Budget : option Info
}.

(** ** nodesInSpan *)

(** The last line a node is known to cover. *)
Definition node_end (n : Node) : Z :=
  match n_Meta n !! "end_line" with
  | None => n_Line n
  | Some v => let '(e, ok) := Atoi v in if ok && (n_Line n <? e) then e else n_Line n
  end.

Definition overlaps (s : Span) (n : Node) : bool := (n_Line n <=? End_ s) && (Start s <=? node_end n).

(** An open-ended scope that starts before the span. *)
Definition open_scope (s : Span) (n : Node) : bool :=
  (str_eqb (n_Type n) NodeTypeFunction || str_eqb (n_Type n) NodeTypeMethod || str_eqb (n_Type n) NodeTypeWorker) &&
  match n_Meta n !! "end_line" with None => true | Some _ => false end &&
  (n_Line n <=? Start s).

Definition closer (enclosing : option Node) (n : Node) : option Node :=
  match enclosing with
  | None => Some n
  | Some m => if n_Line m <? n_Line n then Some n else Some m
  end.

Definition nodesInSpan (nodes : list Node) (s : Span) : list Node :=
  match List.filter (overlaps s) nodes with
  | [] => match fold_left closer (List.filter (open_scope s) nodes) None with Some n => [n] | None => [] end
  | hits => hits
  end.

(** ** BuildDiff *)

(** The targets and unmapped hunks so far; [seedIdx] maps a node's ID to its
    place in the targets. *)
Record mapped : Type := mkMapped {
  m_seedIdx : gmap string nat; m_Targets : list DiffTarget; m_Unmapped : list UnmappedHunk
}.

Definition add_span (s : Span) (t : DiffTarget) : DiffTarget := mkTarget (dt_Node t) (dt_Spans t ++ [s]).

Definition hit_node (s : Span) (st : mapped) (n : Node) : mapped :=
  match m_seedIdx st !! n_ID n with
  | Some j => mkMapped (m_seedIdx st) (alter (add_span s) j (m_Targets st)) (m_Unmapped st)
  | None =>
      let j := length (m_Targets st) in
      mkMapped (<[n_ID n := j]> (m_seedIdx st)) (m_Targets st ++ [mkTarget n [s]]) (m_Unmapped st)
  end.

Definition unmap (u : UnmappedHunk) (st : mapped) : mapped :=
  mkMapped (m_seedIdx st) (m_Targets st) (m_Unmapped st ++ [u]).

Definition map_span (path : string) (nodes : list Node) (st : mapped) (s : Span) : mapped :=
  match nodesInSpan nodes s with
  | [] => unmap (mkUnmapped path (Some s)
            (match nodes with [] => "file has no nodes in the graph" | _ :: _ => "no node overlaps this span" end)) st
  | hits => fold_left (hit_node s) hits st
  end.

(** One changed file; [all] is the map of nodes in iteration order. *)
Definition map_change (all : list Node) (st : mapped) (ch : FileChange) : mapped :=
  if Deleted ch
  then unmap (mkUnmapped (Path ch) None
         "file deleted — impact on former callers surfaces as unresolved references after reindex") st
  else fold_left (map_span (Path ch) (NodesInFile all "" (Path ch))) (Spans ch) st.

Definition map_changes (all : list Node) (changes : list FileChange) : mapped :=
  fold_left (map_change all) changes (mkMapped ∅ [] []).

(** What a changed node's callers are. *)
Definition target_hits (idx : AdjacencyIndex) (opts : Options) (t : DiffTarget) : option (list hit) :=
  hits (AncestorsWithPolicy idx (n_ID (dt_Node t)) (o_Depth opts) (o_Policy opts)).

(** The union, each node at its least depth, without the changed nodes. *)
Definition union_hit (seedIdx : gmap string nat) (best : gmap string hit) (a : hit) : gmap string hit :=
  match seedIdx !! hit_id a with
  | Some _ => best
  | None => keep_shallow best a
  end.

Definition diff_less : hit -> hit -> bool :=
  less_by h_Depth Nat.ltb (less_by (fun h => n_File (h_Node h)) str_ltb (fun a b => str_ltb (hit_id a) (hit_id b))).

(** The services of the callers and of the changed nodes. *)
Definition affected (services : list string) (ts : list DiffTarget) : list string :=
  sort_strings (elements (list_to_set (services ++ map (fun t => n_Service (dt_Node t)) ts) : gset string)).

(** BuildDiff; [all] and [order] are the orders in which the map of nodes and
    the map of best hits are ranged over, [None] is a panic. *)
Definition BuildDiff (idx : AdjacencyIndex) (all : list Node) (order : list (string * hit) -> list (string * hit))
    (changes : list FileChange) (opts : Options) (now : option Z) : option DiffResult :=
  let st := map_changes all changes in
  hs ← (fun l => concat l) <$> mapM (target_hits idx opts) (m_Targets st);
  let best := fold_left (union_hit (m_seedIdx st)) hs ∅ in
  let ancestors := sort_slice diff_less (List.filter (in_service opts) (map snd (order (map_to_list best)))) in
  let a := assemble idx ancestors AllNoiseInclude in
  Some (mkDiff "worktree" (o_Depth opts) (length changes) (m_Targets st) (m_Unmapped st) (a_callers a)
    (a_entryPoints a) (affected (a_services a) (m_Targets st)) (a_triggers a) (length (a_callers a)) [] ""
    (BuildVerificationSummaryAt (a_edges a) (o_StaleAfter opts) now) None).

(** ** What is added afterwards *)

Definition with_unmapped (us : list UnmappedHunk) (r : DiffResult) : DiffResult :=
  mkDiff (d_Mode r) (d_Depth r) (d_ChangedFiles r) (d_Targets r) us (d_Callers r) (d_EntryPoints r)
    (d_ServicesAffected r) (d_CrossServiceTriggers r) (d_TotalCallers r) (d_Unresolved r) (d_UnresolvedNote r)
    (d_VerificationSummary r) (d_Budget r).
Definition with_ledger (refs : list UnresolvedRef) (note : string) (b : option Info) (r : DiffResult) : DiffResult :=
  mkDiff (d_Mode r) (d_Depth r) (d_ChangedFiles r) (d_Targets r) (d_Unmapped r) (d_Callers r) (d_EntryPoints r)
    (d_ServicesAffected r) (d_CrossServiceTriggers r) (d_TotalCallers r) refs note (d_VerificationSummary r) b.

Definition AppendNoGitRepo (roots : list ServiceRoot) (r : DiffResult) : DiffResult :=
  let missing := sort_strings (map sr_Service (List.filter sr_NoGitRepo roots)) in
  with_unmapped (d_Unmapped r ++ map (fun svc =>
    mkUnmapped svc None "no_git_repo: service path is not inside a git repository") missing) r.

Definition diff_files (r : DiffResult) : gset string :=
  list_to_set (map (fun t => n_File (dt_Node t)) (d_Targets r) ++ map uh_File (d_Unmapped r) ++
               map c_File (d_Callers r)).

Definition AttachUnresolved_diff (refs : list UnresolvedRef) (r : DiffResult) : DiffResult :=
  let refs' := UnresolvedInFiles refs (diff_files r) in
  with_ledger refs' (UnresolvedNote (Z.of_nat (length refs'))) (d_Budget r) r.

(** ** Summaries and budgets *)

Record DiffSummary : Type := mkDSummary {
  ds_Mode : string; ds_Ranking : string; ds_ChangedFiles : nat; ds_Targets : list string;
  ds_Unmapped : list UnmappedHunk; ds_Files : list FileRollup; ds_EntryPoints : list string;
  ds_ServicesAffected : list string; ds_CrossServiceTriggers : list CrossServiceTrigger; ds_Depth : Z;
  ds_TotalCallers : nat; ds_Unresolved : list UnresolvedRef; ds_UnresolvedNote : string;
  ds_VerificationSummary : VerificationSummary; ds_Budget : option Info
}.

Definition Summarize_diff (order : list (file_key * file_entry) -> list (file_key * file_entry)) (r : DiffResult)
    : DiffSummary :=
  mkDSummary (d_Mode r) "depth,verification" (d_ChangedFiles r)
    (map (fun t => point_text (dt_Node t)) (d_Targets r)) (d_Unmapped r) (rollupCallers order (d_Callers r))
    (map point_text (d_EntryPoints r)) (d_ServicesAffected r) (d_CrossServiceTriggers r) (d_Depth r)
    (d_TotalCallers r) (d_Unresolved r) (d_UnresolvedNote r) (d_VerificationSummary r) None.

Definition ds_cut (fs : list FileRollup) (refs : list UnresolvedRef) (b : Info) (s : DiffSummary) : DiffSummary :=
  mkDSummary (ds_Mode s) (ds_Ranking s) (ds_ChangedFiles s) (ds_Targets s) (ds_Unmapped s) fs (ds_EntryPoints s)
    (ds_ServicesAffected s) (ds_CrossServiceTriggers s) (ds_Depth s) (ds_TotalCallers s) refs
    (ds_UnresolvedNote s) (ds_VerificationSummary s) (Some b).

Inductive diff_answer : Type := DiffDetail (r : DiffResult) | DiffRolled (s : DiffSummary).

(** DiffResult.ApplyBudget *)
Definition ApplyBudget_diff (estimate : diff_answer -> Z) (estimateRefs : list UnresolvedRef -> Z)
    (order : list (file_key * file_entry) -> list (file_key * file_entry))
    (maxTokens : Z) (forceSummary : bool) (r : DiffResult) : diff_answer :=
  if (maxTokens <=? 0) && negb forceSummary then DiffDetail r
  else if negb forceSummary && (estimate (DiffDetail r) <=? maxTokens)
  then DiffDetail (with_ledger (d_Unresolved r) (d_UnresolvedNote r)
         (Some (mkInfo maxTokens (estimate (DiffDetail r)) LevelDetail "" 0)) r)
  else
    let s := Summarize_diff order r in
    let b := mkInfo maxTokens 0 LevelSummary "" 0 in
    let b := if forceSummary then b
             else AppendNote "full per-node detail exceeds the token budget; rolled up per file" b in
    let '(files, refs, b) :=
      if 0 <? maxTokens
      then
        let '(refs, b) := trimUnresolved estimateRefs (ds_Unresolved s) maxTokens b in
        let all := ds_Files s in
        let count := Z.of_nat (length all) in
        let keep := TrimToFit count maxTokens (fun n => estimate (DiffRolled (ds_cut (take (Z.to_nat n) all) refs b s))) in
        let omitted := count - keep in
        (take (Z.to_nat keep) all, refs,
         if 0 <? omitted
         then AppendNote (itoa omitted +:+ " more files omitted to fit the budget") (set_omitted omitted b) else b)
      else (ds_Files s, ds_Unresolved s, b) in
    DiffRolled (ds_cut files refs (set_estimated (estimate (DiffRolled (ds_cut files refs b s))) b) s).

(** InlineSnippets *)
Definition target_snippet (readFile : string -> string -> option (list ascii)) (root : string) (lines : Z)
    (t : DiffTarget) : option DiffTarget :=
  n ← node_snippet readFile root lines (dt_Node t); Some (mkTarget n (dt_Spans t)).

Definition InlineSnippets_diff (readFile : string -> string -> option (list ascii)) (root : string) (lines : Z)
    (r : DiffResult) : option DiffResult :=
  if lines <=? 0 then Some r
  else
    targets ← mapM (target_snippet readFile root lines) (d_Targets r);
    callers ← mapM (caller_snippet readFile root lines) (d_Callers r);
    entryPoints ← mapM (node_snippet readFile root lines) (d_EntryPoints r);
    Some (mkDiff (d_Mode r) (d_Depth r) (d_ChangedFiles r) targets (d_Unmapped r) callers entryPoints
      (d_ServicesAffected r) (d_CrossServiceTriggers r) (d_TotalCallers r) (d_Unresolved r) (d_UnresolvedNote r)
      (d_VerificationSummary r) (d_Budget r)).
