(* ===== verification/ImpactDiffSpec.v ===== *)
(** What a diff's blast radius accounts for: every changed span is either on the
    targets it touches or reported as unmapped, nothing else is, and the callers
    are what reaches a target without being one. *)
From S2P Require Import Prelude.
From S2P Require Import GoStrings.
From S2P Require Import GitDiff.
From S2P Require Import GrModel.
From S2P Require Import GrTraverse.
From S2P Require Import GrTraverseSpec.
From S2P Require Import GrNoise.
From S2P Require Import GrVerdict.
From S2P Require Import GrFiles.
From S2P Require Import GrFilesSpec.
From S2P Require Import Impact.
From S2P Require Import ImpactSpec.
From S2P Require Import ImpactRollup.
From S2P Require Import ImpactDiff.

(** ** What a span touches *)

(** The nodes of a file: those whose file is the path; if there is none, those
    whose file ends in the path or the path in it. *)
Definition in_file (all : list Node) (path : string) (n : Node) : Prop :=
  n ∈ all /\ (n_File n = path \/
    (forall m, m ∈ all -> n_File m <> path) /\
    (HasSuffix (n_File n) ("/" +:+ path) = true \/ HasSuffix path ("/" +:+ n_File n) = true)).

Definition covers (s : Span) (n : Node) : Prop := (n_Line n <= End_ s /\ Start s <= node_end n)%Z.

(** A function, method or worker whose end is not recorded and that starts
    before the span. *)
Definition may_enclose (s : Span) (n : Node) : Prop :=
  (n_Type n = NodeTypeFunction \/ n_Type n = NodeTypeMethod \/ n_Type n = NodeTypeWorker) /\
  n_Meta n !! "end_line" = None /\ (n_Line n <= Start s)%Z.

(** A node of the file the span lies on; where there is none, the last scope
    that may enclose it, the first by file and ID of those on one line. *)
Definition touches (all : list Node) (path : string) (s : Span) (n : Node) : Prop :=
  in_file all path n /\
  (covers s n \/
   (forall m, in_file all path m -> ~ covers s m) /\ may_enclose s n /\
   forall m, in_file all path m -> may_enclose s m ->
     m = n \/ (n_Line m < n_Line n)%Z \/ n_Line m = n_Line n /\ node_less m n = false).

Lemma in_file_spec all path n : n ∈ NodesInFile all "" path <-> in_file all path n.
Proof.
  rewrite NodesInFile_spec. unfold in_file.
  assert (He : forall m, exact_match "" path m = true <-> n_File m = path) by (intros; apply Stdlib.Strings.String.eqb_eq).
  assert (Hs : suffix_match "" path n = true <-> n_File n <> path /\
    (HasSuffix (n_File n) ("/" +:+ path) = true \/ HasSuffix path ("/" +:+ n_File n) = true)).
  { unfold suffix_match. cbn [orb andb]. change (str_eqb "" "") with true. cbn [orb andb].
    by rewrite andb_true_iff, orb_true_iff, negb_true_iff, Stdlib.Strings.String.eqb_neq. }
  rewrite He, Hs. split; intros [Hn [?|[H1 H2]]]; (split; [done|]); [by left|right|by left|right].
  - split; [|by destruct H1]. intros m Hm Hx%He. by rewrite H2 in Hx.
  - split; [split; [by apply H1|done]|]. intros m Hm. apply not_true_iff_false. rewrite He. auto.
Qed.

Lemma covers_spec s n : overlaps s n = true <-> covers s n.
Proof. unfold overlaps, covers. rewrite andb_true_iff. lia. Qed.

Lemma may_enclose_spec s n : open_scope s n = true <-> may_enclose s n.
Proof.
  unfold open_scope, may_enclose. rewrite !andb_true_iff, !orb_true_iff, !Stdlib.Strings.String.eqb_eq, Z.leb_le.
  destruct (n_Meta n !! "end_line"); naive_solver.
Qed.

(** The scope chosen is the first of the last ones. *)
Lemma closer_first l : match fold_left closer l None with
  | None => l = []
  | Some n => exists l1 l2, l = l1 ++ n :: l2 /\ (forall m, m ∈ l1 -> (n_Line m < n_Line n)%Z) /\
      forall m, m ∈ l2 -> (n_Line m <= n_Line n)%Z
  end.
Proof.
  induction l as [|x l IH] using rev_ind; [done|]. rewrite fold_left_app. cbn.
  destruct (fold_left closer l None) as [n|]; cbn.
  - destruct IH as (l1 & l2 & -> & H1 & H2). destruct (_ <? _)%Z eqn:E.
    + exists (l1 ++ n :: l2), []. split; [done|]. split; [|by intros ? ?%elem_of_nil].
      intros m [Hm%H1|[->|Hm%H2]%elem_of_cons]%elem_of_app; lia.
    + exists l1, (l2 ++ [x]). split; [by rewrite <- app_assoc|]. split; [done|].
      intros m [Hm%H2| ->%list_elem_of_singleton]%elem_of_app; lia.
  - subst l. exists [], []. split; [done|]. split; by intros ? ?%elem_of_nil.
Qed.

Lemma bfilter_sorted {A} (R : relation A) (f : A -> bool) l : StronglySorted R l -> StronglySorted R (List.filter f l).
Proof.
  induction 1 as [|x l _ IH Hx]; cbn; [constructor|]. destruct (f x); [|done]. constructor; [done|].
  rewrite Forall_forall in *. intros y [Hy _]%elem_of_bfilter. by apply Hx.
Qed.

Lemma bfilter_nodup {A} (f : A -> bool) l : NoDup l -> NoDup (List.filter f l).
Proof. rewrite !NoDup_ListNoDup. apply List.NoDup_filter. Qed.

Lemma node_less_tie a b : node_less a b = false -> node_less b a = false -> n_ID a = n_ID b.
Proof.
  unfold node_less, less_by. destruct (decide (n_File a = n_File b)) as [E|E].
  - rewrite (decide_True _ _ (eq_sym E)). destruct (decide (n_Line a = n_Line b)) as [El|El].
    + rewrite (decide_True _ _ (eq_sym El)). apply (less_total (less:=str_ltb)).
    + rewrite (decide_False _ _ (not_eq_sym El)). rewrite !Z.ltb_ge. lia.
  - rewrite (decide_False _ _ (not_eq_sym E)). intros H1 H2. destruct E. by apply (less_total (less:=str_ltb)).
Qed.

#[local] Instance node_order : WeakLess node_less.
Proof. unfold node_less. apply _. Qed.

Section touching.
Context (all : list Node) (path : string) (s : Span).
Hypothesis Hid : forall n m, n ∈ all -> m ∈ all -> n_ID n = n_ID m -> n = m.

Abbreviation nodes := (NodesInFile all "" path).

(** The scope chosen where no node overlaps. *)
Lemma enclosing_chosen : match fold_left closer (List.filter (open_scope s) nodes) None with
  | None => forall m, in_file all path m -> ~ may_enclose s m
  | Some n => in_file all path n /\ may_enclose s n /\ forall m, in_file all path m -> may_enclose s m ->
      m = n \/ (n_Line m < n_Line n)%Z \/ n_Line m = n_Line n /\ node_less m n = false
  end.
Proof.
  pose proof (closer_first (List.filter (open_scope s) nodes)) as Hc.
  pose proof (bfilter_sorted _ (open_scope s) nodes (sort_slice_sorted node_less _)) as Hs.
  assert (Hin : forall m, m ∈ List.filter (open_scope s) nodes <-> in_file all path m /\ may_enclose s m).
  { intros m. by rewrite elem_of_bfilter, in_file_spec, may_enclose_spec. }
  destruct (fold_left closer _ None) as [n|].
  - destruct Hc as (l1 & l2 & E & H1 & H2). rewrite E in *.
    destruct (proj1 (Hin n)) as [Hn1 Hn2]; [apply elem_of_app; right; left|].
    split; [done|]. split; [done|]. intros m Hm1 Hm2.
    destruct (proj1 (elem_of_app _ _ _) (proj2 (Hin m) (conj Hm1 Hm2))) as [Hm%H1|[->|Hm]%elem_of_cons]; [auto..|].
    pose proof (H2 m Hm) as Hle. destruct (decide (n_Line m = n_Line n)) as [El|]; [|right; left; lia].
    right; right. split; [done|]. apply StronglySorted_app_1_r in Hs. apply StronglySorted_cons in Hs as [Hs _].
    rewrite Forall_forall in Hs. by apply Hs.
  - intros m Hm1 Hm2. assert (Hm : m ∈ List.filter (open_scope s) nodes) by by apply Hin. rewrite Hc in Hm.
    by apply elem_of_nil in Hm.
Qed.

Lemma nodesInSpan_touches n : n ∈ nodesInSpan nodes s <-> touches all path s n.
Proof.
  unfold nodesInSpan, touches. pose proof enclosing_chosen as Hc.
  assert (Hf : forall m, m ∈ List.filter (overlaps s) nodes <-> in_file all path m /\ covers s m).
  { intros m. by rewrite elem_of_bfilter, in_file_spec, covers_spec. }
  destruct (List.filter (overlaps s) nodes) as [|h hs].
  - assert (Hno : forall m, in_file all path m -> ~ covers s m).
    { intros m H1 H2. apply (not_elem_of_nil m). by apply Hf. }
    destruct (fold_left closer _ None) as [n0|].
    + destruct Hc as (H1 & H2 & H3). rewrite list_elem_of_singleton. split; [intros ->; auto|].
      intros [Hn [Hcov|(_ & Hm & Hbest)]]; [by destruct (Hno n Hn)|].
      destruct (H3 n Hn Hm) as [?|[?|[El Hl]]]; [done|..];
        (destruct (Hbest n0 H1 H2) as [?|[?|[El' Hl']]]; [done|lia..|]).
      * lia.
      * apply Hid; [apply Hn|apply H1|]. by apply node_less_tie.
    + split; [by intros ?%elem_of_nil|]. intros [Hn [Hcov|(_ & Hm & _)]]; [by destruct (Hno n Hn)|by destruct (Hc n Hn)].
  - rewrite Hf. split; [intros [? ?]; auto|]. intros [Hn [?|(Hno & _)]]; [done|].
    destruct (proj1 (Hf h)) as [H1 H2]; [left|]. by destruct (Hno h H1).
Qed.
End touching.

(** ** What becomes of a change *)

(** The list that runs through the elements in order, each adding what it
    adds. *)
Definition appended {A B} (adds : B -> list A -> Prop) (l : list B) (out : list A) : Prop :=
  exists parts, out = concat parts /\ Forall2 adds l parts.

Lemma appended_elem {A B} (adds : B -> list A -> Prop) l out y :
  appended adds l out -> y ∈ l -> exists part, adds y part /\ forall x, x ∈ part -> x ∈ out.
Proof.
  intros (parts & -> & H) (i & Hi)%list_elem_of_lookup. destruct (Forall2_lookup_l _ _ _ _ _ H Hi) as (part & Hp & Ha).
  exists part. split; [done|]. intros x Hx. apply list_elem_of_In, in_concat. exists part.
  split; apply list_elem_of_In; [by eapply list_elem_of_lookup_2|done].
Qed.

(** A fold that keeps an invariant, and whose output grows at each step by
    what the element adds. *)
Lemma fold_appended {S A B} (inv : S -> Prop) (out : S -> list A) (adds : B -> list A -> Prop) (f : S -> B -> S) l st :
  (forall st y, inv st -> y ∈ l -> inv (f st y) /\ exists part, out (f st y) = out st ++ part /\ adds y part) -> inv st ->
  inv (fold_left f l st) /\ exists part, out (fold_left f l st) = out st ++ part /\ appended adds l part.
Proof.
  revert st. induction l as [|y l IH]; intros st Hf Hst; cbn.
  - split; [done|]. exists []. rewrite app_nil_r. split; [done|]. by exists [].
  - destruct (Hf st y Hst) as (H1 & part & E1 & Ha); [left|].
    destruct (IH (f st y)) as (H2 & part' & E2 & parts & -> & Hp); [intros; apply Hf; [done|by right]|done|].
    split; [done|]. exists (part ++ concat parts). rewrite E2, E1, app_assoc. split; [done|].
    exists (part :: parts). split; [done|by constructor].
Qed.

(** What a span adds to the unmapped hunks, and to the spans of a node. *)
Definition span_unmapped (all : list Node) (path : string) (s : Span) (us : list UnmappedHunk) : Prop :=
  (exists n, touches all path s n) /\ us = [] \/
  (forall n, ~ touches all path s n) /\
    ((forall n, ~ in_file all path n) /\ us = [mkUnmapped path (Some s) "file has no nodes in the graph"] \/
     (exists n, in_file all path n) /\ us = [mkUnmapped path (Some s) "no node overlaps this span"]).
Definition span_marks (all : list Node) (path : string) (n : Node) (s : Span) (out : list Span) : Prop :=
  touches all path s n /\ out = [s] \/ ~ touches all path s n /\ out = [].

(** What a changed file adds. *)
Definition change_unmapped (all : list Node) (ch : FileChange) (us : list UnmappedHunk) : Prop :=
  if Deleted ch
  then us = [mkUnmapped (Path ch) None
               "file deleted — impact on former callers surfaces as unresolved references after reindex"]
  else appended (span_unmapped all (Path ch)) (Spans ch) us.
Definition change_marks (all : list Node) (n : Node) (ch : FileChange) (out : list Span) : Prop :=
  if Deleted ch then out = [] else appended (span_marks all (Path ch) n) (Spans ch) out.

(** The index of targets is right, and each target is a node met with a
    span. *)
Record targets_ok (all : list Node) (st : mapped) : Prop := {
  to_seed id j : m_seedIdx st !! id = Some j <-> exists t, m_Targets st !! j = Some t /\ n_ID (dt_Node t) = id;
  to_node t : t ∈ m_Targets st -> dt_Node t ∈ all /\ dt_Spans t <> []
}.

(** The spans recorded for a node. *)
Definition spans_at (id : string) (st : mapped) : list Span :=
  match m_seedIdx st !! id ≫= fun j => m_Targets st !! j with Some t => dt_Spans t | None => [] end.

Lemma spans_at_target all st t : targets_ok all st -> t ∈ m_Targets st -> spans_at (n_ID (dt_Node t)) st = dt_Spans t.
Proof.
  intros [H _] [j Hj]%list_elem_of_lookup. unfold spans_at. rewrite (proj2 (H _ j)) by by exists t. cbn. by rewrite Hj.
Qed.

Lemma spans_at_hit all st id : targets_ok all st -> spans_at id st <> [] ->
  exists t, t ∈ m_Targets st /\ n_ID (dt_Node t) = id.
Proof.
  intros [H _]. unfold spans_at. destruct (m_seedIdx st !! id) as [j|] eqn:E; [|done]. intros _.
  apply H in E as (t & Ht & Hid). exists t. split; [by eapply list_elem_of_lookup_2|done].
Qed.

Lemma targets_distinct all st : targets_ok all st -> NoDup (map (fun t => n_ID (dt_Node t)) (m_Targets st)).
Proof.
  intros [H _]. apply NoDup_alt. intros i j id Hi Hj.
  apply list_lookup_fmap_Some in Hi as (t & Hti & Hi), Hj as (t' & Htj & Hj).
  enough (Some i = Some j) by congruence. rewrite <- (proj2 (H id i)), <- (proj2 (H id j)); [done|by exists t'|by exists t].
Qed.

Lemma hit_node_ok all s st n : n ∈ all -> targets_ok all st -> targets_ok all (hit_node s st n).
Proof.
  intros Hn [H1 H2]. unfold hit_node. destruct (m_seedIdx st !! n_ID n) as [j|] eqn:E; split; cbn.
  - intros id k. rewrite H1. destruct (decide (k = j)) as [->|Hk].
    + rewrite list_lookup_alter_eq. split.
      * intros (t & Ht & Hid). rewrite Ht. by eexists.
      * intros (t & Ht & Hid). destruct (m_Targets st !! j) as [t'|]; [|done]. injection Ht as <-. by exists t'.
    + by rewrite list_lookup_alter_ne.
  - intros t (i & Hi)%list_elem_of_lookup. destruct (decide (i = j)) as [->|Hij].
    + rewrite list_lookup_alter_eq in Hi. destruct (m_Targets st !! j) as [t'|] eqn:Et; [|done]. injection Hi as <-.
      apply list_elem_of_lookup_2, H2 in Et as [Ha _]. split; [done|]. cbn. by destruct (dt_Spans t').
    + rewrite list_lookup_alter_ne in Hi by done. apply list_elem_of_lookup_2 in Hi. by apply H2.
  - intros id j. rewrite lookup_insert, lookup_app. case_decide as D.
    + split.
      * intros [= <-]. rewrite lookup_ge_None_2, Nat.sub_diag by lia. by eexists.
      * intros (t & Ht & Hid). destruct (m_Targets st !! j) as [t'|] eqn:Ej.
        -- injection Ht as ->. assert (Hx : m_seedIdx st !! id = Some j) by (apply H1; by exists t). congruence.
        -- apply lookup_ge_None in Ej. destruct (j - length (m_Targets st)) as [|k] eqn:Ek; [f_equal; lia|done].
    + rewrite H1. split.
      * intros (t & Ht & Hid). exists t. by rewrite Ht.
      * intros (t & Ht & Hid). exists t. destruct (m_Targets st !! j) as [t'|] eqn:Ej; [done|].
        destruct (j - length (m_Targets st)) as [|k]; [|done]. injection Ht as <-. done.
  - intros t [Ht|Ht%list_elem_of_singleton]%elem_of_app; [by apply H2|]. by subst.
Qed.

Lemma hit_node_spans all s st n id : targets_ok all st ->
  spans_at id (hit_node s st n) = spans_at id st ++ if decide (n_ID n = id) then [s] else [].
Proof.
  intros [H1 H2]. unfold hit_node, spans_at. destruct (m_seedIdx st !! n_ID n) as [j|] eqn:E; cbn.
  - destruct (decide (n_ID n = id)) as [<-|Hne].
    + apply H1 in E as E'. destruct E' as (t & Ht & _). rewrite E. cbn. by rewrite list_lookup_alter_eq, Ht.
    + rewrite app_nil_r. destruct (m_seedIdx st !! id) as [k|] eqn:Ek; [|done]. cbn.
      rewrite list_lookup_alter_ne; [done|]. intros ->. apply H1 in E as (t & Ht & Et), Ek as (t' & Ht' & Et'). congruence.
  - rewrite lookup_insert. case_decide as D.
    + subst id. rewrite E. cbn. rewrite lookup_app, lookup_ge_None_2, Nat.sub_diag by lia. done.
    + rewrite app_nil_r. destruct (m_seedIdx st !! id) as [k|] eqn:Ek; [|done]. cbn.
      apply H1 in Ek as (t & Ht & _). by rewrite lookup_app, Ht.
Qed.

Lemma hits_spans all s ns st id : (forall n, n ∈ ns -> n ∈ all) -> NoDup (map n_ID ns) -> targets_ok all st ->
  let st' := fold_left (hit_node s) ns st in
  targets_ok all st' /\ m_Unmapped st' = m_Unmapped st /\
  spans_at id st' = spans_at id st ++ if decide (id ∈ map n_ID ns) then [s] else [].
Proof.
  revert st. induction ns as [|n ns IH]; intros st Hall Hnd Hok; cbn zeta.
  { split_and!; [done..|]. by rewrite decide_False, app_nil_r by (by intros ?%elem_of_nil). }
  apply NoDup_cons in Hnd as [Hn Hnd].
  destruct (IH (hit_node s st n)) as (H1 & H2 & H3);
    [intros; apply Hall; by right|done|apply hit_node_ok; [apply Hall; left|done]|].
  cbn [fold_left]. split_and!; [done| |].
  - rewrite H2. unfold hit_node. by destruct (m_seedIdx st !! n_ID n).
  - rewrite H3, (hit_node_spans all), <- app_assoc by done. f_equal. cbn.
    destruct (decide (n_ID n = id)) as [<-|Hne].
    + rewrite decide_False by done. by rewrite decide_True by left.
    + apply decide_ext. rewrite elem_of_cons. naive_solver.
Qed.

Section mapping.
Context (all : list Node).
Hypothesis Hid : forall n m, n ∈ all -> m ∈ all -> n_ID n = n_ID m -> n = m.
Hypothesis Hnd : NoDup all.

Lemma nodesInSpan_nodup path s : NoDup (map n_ID (nodesInSpan (NodesInFile all "" path) s)).
Proof.
  apply NoDup_fmap_2_strong.
  { intros n m Hn%nodesInSpan_touches Hm%nodesInSpan_touches E; [|done..]. apply Hid; [apply Hn|apply Hm|done]. }
  assert (Hf : NoDup (List.filter (overlaps s) (NodesInFile all "" path))).
  { apply bfilter_nodup. unfold NodesInFile. rewrite sort_slice_perm.
    destruct (List.filter (exact_match "" path) all) eqn:E; [|rewrite <- E]; by apply bfilter_nodup. }
  unfold nodesInSpan. destruct (List.filter (overlaps s) _); [|done].
  destruct (fold_left closer _ None); [apply NoDup_singleton|constructor].
Qed.

Lemma map_span_adds path st s : targets_ok all st ->
  let st' := map_span path (NodesInFile all "" path) st s in
  targets_ok all st' /\
  (exists us, m_Unmapped st' = m_Unmapped st ++ us /\ span_unmapped all path s us) /\
  forall n, n ∈ all -> exists out, spans_at (n_ID n) st' = spans_at (n_ID n) st ++ out /\ span_marks all path n s out.
Proof.
  intros Hok. cbn zeta. unfold map_span. pose proof (nodesInSpan_touches all path s Hid) as Ht.
  pose proof (nodesInSpan_nodup path s) as Hd. destruct (nodesInSpan _ s) as [|h hs].
  - assert (Hno : forall m, ~ touches all path s m) by (intros m Hm%Ht; by apply elem_of_nil in Hm).
    split; [by destruct Hok|]. split.
    + eexists. split; [reflexivity|]. right. split; [done|].
      destruct (NodesInFile all "" path) as [|m ms] eqn:E; [left|right]; (split; [|done]).
      * intros m Hm%in_file_spec. rewrite E in Hm. by apply elem_of_nil in Hm.
      * exists m. apply in_file_spec. rewrite E. left.
    + intros n Hn. exists []. rewrite app_nil_r. split; [done|]. right. split; [apply Hno|done].
  - assert (Hin : forall m, m ∈ h :: hs -> m ∈ all) by (intros m Hm%Ht; apply Hm).
    split; [by apply (hits_spans all s (h :: hs) st "")|]. split.
    + exists []. rewrite app_nil_r. split; [by apply (hits_spans all s (h :: hs) st "")|].
      left. split; [|done]. exists h. apply Ht. left.
    + intros n Hn. eexists. split; [by apply (hits_spans all s (h :: hs) st (n_ID n))|].
      unfold span_marks. rewrite <- Ht. case_decide as D; [left|right]; (split; [|done]).
      * apply list_elem_of_fmap in D as (m & E & Hm). rewrite (Hid n m); auto.
      * intros Hm. apply D. by apply list_elem_of_fmap_2.
Qed.

Lemma map_change_adds st ch : targets_ok all st ->
  let st' := map_change all st ch in
  targets_ok all st' /\
  (exists us, m_Unmapped st' = m_Unmapped st ++ us /\ change_unmapped all ch us) /\
  forall n, n ∈ all -> exists out, spans_at (n_ID n) st' = spans_at (n_ID n) st ++ out /\ change_marks all n ch out.
Proof.
  intros Hok. cbn zeta. unfold map_change, change_unmapped, change_marks. destruct (Deleted ch).
  - split; [by destruct Hok|]. split; [by eexists|]. intros n Hn. exists []. by rewrite app_nil_r.
  - destruct (fold_appended (targets_ok all) m_Unmapped (span_unmapped all (Path ch))
      (map_span (Path ch) (NodesInFile all "" (Path ch))) (Spans ch) st) as [H1 H2]; [|done|].
    { intros st' s Hst _. destruct (map_span_adds (Path ch) st' s Hst) as (? & ? & _). done. }
    split_and!; [done..|]. intros n Hn.
    apply (fold_appended (targets_ok all) (spans_at (n_ID n)) (span_marks all (Path ch) n)); [|done].
    intros st' s Hst _. destruct (map_span_adds (Path ch) st' s Hst) as (? & _ & Hm). auto.
Qed.

Lemma map_changes_adds changes :
  let st := map_changes all changes in
  targets_ok all st /\ appended (change_unmapped all) changes (m_Unmapped st) /\
  forall n, n ∈ all -> appended (change_marks all n) changes (spans_at (n_ID n) st).
Proof.
  cbn zeta. unfold map_changes.
  assert (H0 : targets_ok all (mkMapped ∅ [] [])).
  { split; cbn.
    - intros id j. rewrite lookup_empty. split; [done|]. by intros (t & Ht & _).
    - intros t Ht. by apply elem_of_nil in Ht. }
  destruct (fold_appended (targets_ok all) m_Unmapped (change_unmapped all) (map_change all) changes (mkMapped ∅ [] []))
    as (H1 & us & -> & Hus); [|done|].
  { intros st ch Hst _. by destruct (map_change_adds st ch Hst) as (? & ? & _). }
  split_and!; [done..|]. intros n Hn.
  destruct (fold_appended (targets_ok all) (spans_at (n_ID n)) (change_marks all n) (map_change all) changes
    (mkMapped ∅ [] [])) as (_ & out & -> & Hout); [|done|done].
  intros st ch Hst _. destruct (map_change_adds st ch Hst) as (? & _ & Hm). auto.
Qed.

(** A node a span touches is a target. *)
Lemma touched_is_target changes st ch s n : targets_ok all st ->
  (forall n, n ∈ all -> appended (change_marks all n) changes (spans_at (n_ID n) st)) ->
  ch ∈ changes -> Deleted ch = false -> s ∈ Spans ch -> touches all (Path ch) s n ->
  exists t, t ∈ m_Targets st /\ dt_Node t = n /\ s ∈ dt_Spans t.
Proof.
  intros Hok Hmarks Hch Hdel Hs Ht. assert (Hn : n ∈ all) by apply Ht.
  destruct (appended_elem _ _ _ _ (Hmarks n Hn) Hch) as (part & Hp & Hsub). unfold change_marks in Hp. rewrite Hdel in Hp.
  destruct (appended_elem _ _ _ _ Hp Hs) as (one & [[_ ->]|[Hno _]] & Hsub1); [|by destruct Hno].
  assert (Hin : s ∈ spans_at (n_ID n) st) by (apply Hsub, Hsub1; left).
  destruct (spans_at_hit all st (n_ID n) Hok) as (t & Hin_t & E); [intros E; rewrite E in Hin; by apply elem_of_nil in Hin|].
  exists t. split; [done|]. rewrite <- (spans_at_target all st t Hok Hin_t), E. split; [|done].
  apply Hid; [by apply (to_node _ _ Hok)|done|done].
Qed.
End mapping.

Lemma seedIdx_none all st x : targets_ok all st ->
  m_seedIdx st !! x = None <-> forall t, t ∈ m_Targets st -> n_ID (dt_Node t) <> x.
Proof.
  intros Hok. split.
  - intros H t [j Hj]%list_elem_of_lookup Hx. assert (Hs : m_seedIdx st !! x = Some j) by (apply (to_seed _ _ Hok); by exists t).
    congruence.
  - intros H. destruct (m_seedIdx st !! x) as [j|] eqn:E; [|done]. apply (to_seed _ _ Hok) in E as (t & Hj & Hx).
    by destruct (H t (list_elem_of_lookup_2 _ _ _ Hj)).
Qed.

(** ** The union of the blast radii *)

#[local] Instance diff_less_weak : WeakLess diff_less.
Proof. unfold diff_less. apply _. Qed.

Lemma diff_less_depth a b : may_precede diff_less a b -> h_Depth a <= h_Depth b.
Proof. unfold may_precede, diff_less, less_by at 1. case_decide; [lia|]. rewrite Nat.ltb_ge. done. Qed.

(** The hits of nodes that are not themselves changed. *)
Definition foreign (seeds : gmap string nat) (h : hit) : bool := match seeds !! hit_id h with None => true | Some _ => false end.

Lemma union_hits seeds hs m :
  fold_left (union_hit seeds) hs m = fold_left keep_shallow (List.filter (foreign seeds) hs) m.
Proof.
  revert m. induction hs as [|h hs IH]; intros m; [done|]. cbn [fold_left]. rewrite IH. unfold union_hit, foreign. cbn.
  by destruct (seeds !! hit_id h).
Qed.

Section union.
Context (idx : AdjacencyIndex) (opts : Options).
Hypothesis W : wf_index idx.
Hypothesis C : closed_index idx.
Hypothesis Hterm : TerminalEdges (o_Policy opts) = ∅.

Abbreviation near := (at_distance idx "in" opts).

Lemma targets_hits ts : (forall t, t ∈ ts -> is_Some (Nodes idx !! n_ID (dt_Node t))) ->
  exists hs, (fun l => concat l) <$> mapM (target_hits idx opts) ts = Some hs /\
    (forall h, h ∈ hs -> Nodes idx !! hit_id h = Some (h_Node h)) /\
    forall x d, (exists h, h ∈ hs /\ hit_id h = x /\ h_Depth h = d) <->
      exists t, t ∈ ts /\ near (n_ID (dt_Node t)) x d.
Proof.
  induction ts as [|t ts IH]; intros Ht.
  { exists []. split; [done|]. split; [by intros h ?%elem_of_nil|]. intros x d.
    split; [intros (h & Hh & _)|intros (r & Hh & _)]; by apply elem_of_nil in Hh. }
  destruct (walk_hits_spec idx "in" opts W C Hterm (n_ID (dt_Node t))) as (hs1 & E1 & [N1 _ _ Hex1]); [apply Ht; left|].
  destruct IH as (hs2 & E2 & N2 & Hex2); [intros r Hin; apply Ht; by right|].
  exists (hs1 ++ hs2). split_and!.
  - cbn [mapM]. change (target_hits idx opts t) with (walk_hits idx (n_ID (dt_Node t)) "in" opts).
    cbn. rewrite E1. cbn. destruct (mapM _ ts) as [ls|]; [|done]. cbn in *. by injection E2 as <-.
  - intros h [Hh|Hh]%elem_of_app; auto.
  - intros x d. setoid_rewrite elem_of_app. setoid_rewrite elem_of_cons.
    specialize (Hex1 x d). specialize (Hex2 x d). split.
    + intros (h & [Hh|Hh] & Hx & Hd).
      * exists t. split; [by left|]. apply Hex1. by exists h.
      * destruct (proj1 Hex2) as (r & Hin & Hn); [by exists h|]. exists r. auto.
    + intros (r & [->|Hin] & Hn).
      * destruct (proj2 Hex1) as (h & Hh & ? & ?); [done|]. exists h. auto.
      * destruct (proj2 Hex2) as (h & Hh & ? & ?); [by eauto|]. exists h. auto.
Qed.

(** The ancestors BuildDiff lists. *)
Definition diff_list (seeds : gmap string nat) (hs : list hit) (order : list (string * hit) -> list (string * hit)) : list hit :=
  sort_slice diff_less (List.filter (in_service opts) (map snd (order (map_to_list (fold_left (union_hit seeds) hs ∅))))).

Lemma diff_list_spec seeds hs order : (forall l, order l ≡ₚ l) ->
  (forall h, h ∈ hs -> Nodes idx !! hit_id h = Some (h_Node h)) ->
  let ms := diff_list seeds hs order in
  NoDup (map hit_id ms) /\ StronglySorted le (map h_Depth ms) /\
  forall x d, (exists h, h ∈ ms /\ hit_id h = x /\ h_Depth h = d) <->
    seeds !! x = None /\ serves idx opts x /\ (exists h, h ∈ hs /\ hit_id h = x /\ h_Depth h = d) /\
    forall h, h ∈ hs -> hit_id h = x -> d <= h_Depth h.
Proof.
  intros Ho Hn. cbn zeta. unfold diff_list. rewrite union_hits. set (fs := List.filter (foreign seeds) hs).
  set (m := fold_left keep_shallow fs ∅).
  assert (Hk : forall x h, m !! x = Some h -> hit_id h = x /\ seeds !! x = None /\ h ∈ hs /\
    forall h', h' ∈ hs -> hit_id h' = x -> h_Depth h <= h_Depth h').
  { intros x h H. pose proof (keep_shallow_spec fs x) as Hs. fold m in Hs. rewrite H in Hs.
    destruct Hs as ([Hh Hf]%elem_of_bfilter & <- & Hmin). unfold foreign in Hf.
    destruct (seeds !! hit_id h) eqn:E; [done|]. split_and!; [done..|]. intros h' Hh' Hid. apply Hmin; [|done].
    apply elem_of_bfilter. split; [done|]. unfold foreign. by rewrite Hid, E. }
  assert (Hin : forall h, h ∈ sort_slice diff_less (List.filter (in_service opts) (map snd (order (map_to_list m)))) <->
    m !! hit_id h = Some h /\ in_service opts h = true).
  { intros h. rewrite elem_of_sort_slice, elem_of_bfilter, list_elem_of_fmap. setoid_rewrite Ho. split.
    - intros [([x h'] & -> & H%elem_of_map_to_list) Hs]. cbn in *. by destruct (Hk x h' H) as [-> _].
    - intros [H Hs]. split; [|done]. exists (hit_id h, h). by rewrite elem_of_map_to_list. }
  split_and!.
  - rewrite (Permutation_map hit_id (sort_slice_perm _ _)).
    assert (Hnd : NoDup (map hit_id (map snd (order (map_to_list m))))).
    { rewrite map_map, (Permutation_map _ (Ho _)), (map_ext_in _ fst); [apply NoDup_fst_map_to_list|].
      intros [x h] H%list_elem_of_In%elem_of_map_to_list. cbn. by destruct (Hk x h H). }
    revert Hnd. generalize (map snd (order (map_to_list m))). clear. intros l. induction l as [|h l IH]; cbn; [done|].
    intros [Hh Hl]%NoDup_cons. destruct (in_service opts h); [|by apply IH]. cbn. apply NoDup_cons. split; [|by apply IH].
    intros (h' & E & [Hi _]%elem_of_bfilter)%list_elem_of_fmap. apply Hh. rewrite E. by apply list_elem_of_fmap_2.
  - eapply sorted_map; [apply diff_less_depth|apply sort_slice_sorted, _].
  - intros x d. split.
    + intros (h & [Hm Hs]%Hin & <- & <-). destruct (Hk _ _ Hm) as (_ & H1 & H2 & H3).
      split_and!; [done|by apply in_service_spec; [apply Hn|]|by exists h|done].
    + intros (Hse & Hsv & (h & Hh & Hid & Hd) & Hmin). pose proof (keep_shallow_spec fs x) as Hs. fold m in Hs.
      assert (Hf : h ∈ fs) by (apply elem_of_bfilter; split; [done|]; unfold foreign; by rewrite Hid, Hse).
      destruct (m !! x) as [h'|] eqn:E; [|by destruct (Hs h Hf)].
      destruct (Hk x h' E) as (Hid' & _ & Hh' & Hmin'). exists h'. rewrite Hin, Hid'. split_and!; [done| |done|].
      * apply (in_service_spec idx); [by apply Hn|]. by rewrite Hid'.
      * pose proof (Hmin h' Hh' Hid'). pose proof (Hmin' h Hh Hid). lia.
Qed.
End union.

(** C37: a diff's answer accounts for every change and for nothing else.  A
    span touches the nodes of its file that it overlaps or, where it overlaps
    none, the last function, method or worker of unrecorded end that starts
    before it.  The unmapped hunks are, in the order of the changes, one for
    each deleted file and one for each span that touches no node, each with
    its reason (the file is deleted; it has no nodes in the graph; no node
    overlaps the span).  The targets are the distinct nodes some
    span touches, and each carries exactly the spans that touch it, in order
    and each once; a change that is not a deletion and has no spans shows only
    in the number of changed files.  With no terminal edges, the callers are
    exactly the nodes of the requested service, not themselves changed, that
    reach a target within the depth limit, each once, at its least distance,
    nearest first, whatever the map orders. *)
Theorem BuildDiff_accounts idx all order changes opts now :
  wf_index idx -> closed_index idx -> (forall l, order l ≡ₚ l) -> NoDup all ->
  (forall n, n ∈ all -> Nodes idx !! n_ID n = Some n) -> TerminalEdges (o_Policy opts) = ∅ ->
  exists r, BuildDiff idx all order changes opts now = Some r /\
    d_ChangedFiles r = length changes /\
    appended (change_unmapped all) changes (d_Unmapped r) /\
    NoDup (map (fun t => n_ID (dt_Node t)) (d_Targets r)) /\
    (forall t, t ∈ d_Targets r ->
       dt_Node t ∈ all /\ dt_Spans t <> [] /\ appended (change_marks all (dt_Node t)) changes (dt_Spans t)) /\
    (forall ch s n, ch ∈ changes -> Deleted ch = false -> s ∈ Spans ch -> touches all (Path ch) s n ->
       exists t, t ∈ d_Targets r /\ dt_Node t = n /\ s ∈ dt_Spans t) /\
    NoDup (map c_ID (d_Callers r)) /\ StronglySorted le (map c_Depth (d_Callers r)) /\
    let near t x d := at_distance idx "in" opts (n_ID (dt_Node t)) x d in
    forall x d, (exists c, c ∈ d_Callers r /\ c_ID c = x /\ c_Depth c = d) <->
      (forall t, t ∈ d_Targets r -> n_ID (dt_Node t) <> x) /\ serves idx opts x /\
      (exists t, t ∈ d_Targets r /\ near t x d) /\ forall t d', t ∈ d_Targets r -> near t x d' -> d <= d'.
Proof.
  intros W C Ho Hnd Hall Ht.
  assert (Hid : forall n m, n ∈ all -> m ∈ all -> n_ID n = n_ID m -> n = m).
  { intros n m Hn%Hall Hm%Hall E. rewrite E in Hn. congruence. }
  destruct (map_changes_adds all Hid Hnd changes) as (Hok & Hus & Hmarks).
  unfold BuildDiff. set (st := map_changes all changes) in *.
  destruct (targets_hits idx opts W C Ht (m_Targets st)) as (hs & -> & Hn & Hex).
  { intros t [Hin _]%(to_node _ _ Hok). rewrite (Hall _ Hin). by eexists. }
  cbn [mbind option_bind]. fold (diff_list opts (m_seedIdx st) hs order).
  destruct (diff_list_spec idx opts (m_seedIdx st) hs order Ho Hn) as (M1 & M2 & M3).
  set (ms := diff_list opts (m_seedIdx st) hs order) in *.
  eexists. split; [done|]. cbn [d_ChangedFiles d_Unmapped d_Targets d_Callers]. rewrite callers_of_all.
  destruct (map_caller_key ms) as [-> ->].
  split_and!; [done|done|by eapply targets_distinct| | |done|done|].
  { intros t Hin. destruct (to_node _ _ Hok t Hin) as [Ha Hs]. split_and!; [done..|].
    rewrite <- (spans_at_target all st t Hok Hin). by apply Hmarks. }
  { intros ch s n Hch Hdel Hs Htouch. by apply (touched_is_target all Hid changes st ch). }
  cbn zeta. intros x d. rewrite exists_caller, M3, Hex, (seedIdx_none all st x Hok). split.
  - intros (H1 & H2 & H3 & H4). split_and!; [done..|]. intros t d' Hin Hnear.
    destruct (proj2 (Hex x d')) as (h & Hh & Hx & <-); [by exists t|]. by apply H4.
  - intros (H1 & H2 & H3 & H4). split_and!; [done..|]. intros h Hh Hx.
    destruct (proj1 (Hex x (h_Depth h))) as (t & Hin & Hnear); [by exists h|]. by apply (H4 t).
Qed.

(** ** An example *)

Definition lined (id file : string) (line : Z) (end_ : string) : Node :=
  mkNode id NodeTypeFunction id "svc" file line 0 "go" (if str_eqb end_ "" then ∅ else {["end_line" := end_]}) "".
Definition diff_nodes : list Node := [lined "a" "a.go" 1 "9"; lined "b" "a.go" 11 ""; lined "c" "c.go" 1 "5"].
Definition diff_index : AdjacencyIndex :=
  BuildIndex diff_nodes [demo_edge EdgeTypeCalls "c" "a"; demo_edge EdgeTypeCalls "b" "a"].
Definition diff_changes : list FileChange :=
  [mkChange "a.go" false [mkSpan 3 4; mkSpan 20 21]; mkChange "x.go" false [mkSpan 1 1]; mkChange "y.go" true []].
Definition diff_opts : Options := mkOptions 0 "" "" RawPolicy 0 ∅.

Lemma BuildDiff_accounts_witness :
  (exists r, BuildDiff diff_index diff_nodes (@rev _) diff_changes diff_opts None = Some r /\
     map (fun t => (n_ID (dt_Node t), dt_Spans t)) (d_Targets r) = [("a", [mkSpan 3 4]); ("b", [mkSpan 20 21])] /\
     map (fun u => (uh_File u, uh_Reason u)) (take 1 (d_Unmapped r)) = [("x.go", "file has no nodes in the graph")] /\
     map uh_File (d_Unmapped r) = ["x.go"; "y.go"] /\ map c_ID (d_Callers r) = ["c"]) /\
  exists r, BuildDiff diff_index diff_nodes (@rev _) diff_changes diff_opts None = Some r /\
    d_ChangedFiles r = 3 /\ appended (change_unmapped diff_nodes) diff_changes (d_Unmapped r).
Proof.
  split; [eexists; split_and!; vm_compute; reflexivity|].
  assert (W : wf_index diff_index) by apply wf_BuildIndex.
  destruct (BuildDiff_accounts diff_index diff_nodes (@rev _) diff_changes diff_opts None W)
    as (r & H1 & H2 & H3 & _).
  - apply closed_by_eval; [exact W|vm_compute; reflexivity].
  - intros l. symmetry. apply Permutation_rev.
  - apply (bool_decide_unpack _). vm_compute. exact I.
  - apply Forall_forall. repeat (constructor; [vm_compute; reflexivity|]). constructor.
  - reflexivity.
  - exists r. split; [exact H1|]. split; [exact H2|exact H3].
Defined.
