(* ===== verification/Regex.v ===== *)
(** The part of Go's package regexp the modelled code uses: classes, sequences,
    alternatives, optional parts, greedy repetition of a class and the end of
    the text, with the leftmost-first choice between matches, and
    ReplaceAllString.  Classes are tested byte by byte: a negated class matches
    a rune of several bytes here by its bytes, which is the same text because
    such a class is always repeated and the bytes it excludes are ASCII. *)
From S2P Require Import Prelude GoStrings.

Inductive regex : Type :=
| RClass (p : ascii -> bool)
| RStar (p : ascii -> bool)
| RCat (a b : regex)
| RAlt (a b : regex)
| ROpt (a : regex)
| REnd.

Definition is_byte (c : ascii) : ascii -> bool := Ascii.eqb c.
Definition not_byte (c : ascii) (d : ascii) : bool := negb (Ascii.eqb c d).
Definition in_range (lo hi : ascii) (c : ascii) : bool :=
  ((N_of_ascii lo <=? N_of_ascii c) && (N_of_ascii c <=? N_of_ascii hi))%N.
Definition is_digit : ascii -> bool := in_range "0" "9".
Definition is_hex (c : ascii) : bool := is_digit c || in_range "a" "f" c.

Definition RByte (c : ascii) : regex := RClass (is_byte c).
Definition RPlus (p : ascii -> bool) : regex := RCat (RClass p) (RStar p).

(** A literal text, before [r]. *)
Fixpoint RText (t : string) (r : regex) : regex :=
  match t with "" => r | String c t' => RCat (RByte c) (RText t' r) end.

(** A class repeated [n] times, before [r]. *)
Fixpoint RTimes (n : nat) (p : ascii -> bool) (r : regex) : regex :=
  match n with 0 => r | S n' => RCat (RClass p) (RTimes n' p r) end.

(** What a greedy repetition can leave of a text, the longest match first. *)
Fixpoint star_rests (p : ascii -> bool) (s : string) : list string :=
  match s with
  | "" => [""]
  | String c s' => if p c then star_rests p s' ++ [s] else [s]
  end.

(** What the matches of a regex at the beginning of a text leave of it, the
    preferred match first. *)
Fixpoint rests (r : regex) (s : string) : list string :=
  match r with
  | RClass p => match s with String c s' => if p c then [s'] else [] | "" => [] end
  | RStar p => star_rests p s
  | RCat a b => flat_map (rests b) (rests a s)
  | RAlt a b => rests a s ++ rests b s
  | ROpt a => rests a s ++ [s]
  | REnd => match s with "" => [""] | _ => [] end
  end.

(** MatchString of a regex anchored at the beginning. *)
Definition match_prefix (r : regex) (s : string) : bool :=
  match rests r s with [] => false | _ :: _ => true end.

(** ReplaceAllString by a text without [$]; an empty match replaces nothing
    here, and no regex of the program has one. *)
Fixpoint replace_loop (fuel : nat) (r : regex) (repl s : string) : string :=
  match fuel, s with
  | 0, _ | _, "" => s
  | S fuel', String c s' =>
      match rests r s with
      | t :: _ =>
          if str_len t <? str_len s then repl +:+ replace_loop fuel' r repl t
          else String c (replace_loop fuel' r repl s')
      | [] => String c (replace_loop fuel' r repl s')
      end
  end.

Definition ReplaceAll (r : regex) (repl s : string) : string := replace_loop (str_len s) r repl s.

(** ** What a match is *)

(** [derives r s t]: the regex matches the text of [s] before [t]. *)
Inductive derives : regex -> string -> string -> Prop :=
| d_class p c s : p c = true -> derives (RClass p) (String c s) s
| d_star_stop p s : derives (RStar p) s s
| d_star_more p c s t : p c = true -> derives (RStar p) s t -> derives (RStar p) (String c s) t
| d_cat a b s t u : derives a s t -> derives b t u -> derives (RCat a b) s u
| d_left a b s t : derives a s t -> derives (RAlt a b) s t
| d_right a b s t : derives b s t -> derives (RAlt a b) s t
| d_none a s : derives (ROpt a) s s
| d_some a s t : derives a s t -> derives (ROpt a) s t
| d_end : derives REnd "" "".

Lemma star_rests_derives p s t : t ∈ star_rests p s <-> derives (RStar p) s t.
Proof.
  split.
  - revert t. induction s as [|c s IH]; intros t; cbn.
    + intros ->%list_elem_of_singleton. constructor.
    + destruct (p c) eqn:E; [|intros ->%list_elem_of_singleton; constructor].
      intros [H| ->%list_elem_of_singleton]%elem_of_app; [|constructor].
      constructor; [done|by apply IH].
  - remember (RStar p) as r eqn:Er. induction 1; try discriminate; injection Er as ->.
    + destruct s as [|c s]; cbn; [by apply list_elem_of_singleton|].
      destruct (p c); [apply elem_of_app; right|]; by apply list_elem_of_singleton.
    + cbn. rewrite H. apply elem_of_app. left. by apply IHderives.
Qed.

(** The texts left are exactly those a match leaves. *)
Lemma rests_derives r s t : t ∈ rests r s <-> derives r s t.
Proof.
  revert s t. induction r as [p|p|a IHa b IHb|a IHa b IHb|a IHa|]; intros s t; cbn.
  - destruct s as [|c s]; [split; [by intros ?%not_elem_of_nil|by inversion 1]|].
    destruct (p c) eqn:E; split.
    + intros ->%list_elem_of_singleton. by constructor.
    + inversion 1; subst. by apply list_elem_of_singleton.
    + by intros ?%not_elem_of_nil.
    + inversion 1; congruence.
  - apply star_rests_derives.
  - rewrite list_elem_of_In, in_flat_map. setoid_rewrite <- list_elem_of_In. split.
    + intros (u & Hu & Ht). econstructor; [by apply IHa|by apply IHb].
    + inversion 1 as [| | |? ? ? u ? Ha Hb| | | | |]; subst. exists u.
      split; [by apply IHa|by apply IHb].
  - rewrite elem_of_app, IHa, IHb. split; [intros [?|?]; by constructor|inversion 1; auto].
  - rewrite elem_of_app, IHa, list_elem_of_singleton. split.
    + intros [H| ->]; by constructor.
    + inversion 1; auto.
  - destruct s; split; try by intros ?%not_elem_of_nil.
    + intros ->%list_elem_of_singleton. constructor.
    + inversion 1. by apply list_elem_of_singleton.
    + inversion 1.
Qed.

(** A match takes a piece off the front. *)
Lemma derives_split r s t : derives r s t -> exists w, s = w +:+ t.
Proof.
  induction 1 as [p c s _|p s|p c s t _ _ [w ->]|a b s t u _ [w1 ->] _ [w2 ->]|a b s t _ IH|a b s t _ IH
                 |a s|a s t _ IH|]; try done; try by exists "".
  - by exists (String c "").
  - by exists (String c w).
  - exists (w1 +:+ w2). by rewrite str_app_assoc.
Qed.

Lemma derives_len r s t : derives r s t -> str_len t <= str_len s.
Proof. intros [w ->]%derives_split. rewrite str_len_app. lia. Qed.

(** ** ReplaceAll, as an equation *)

Lemma replace_fuel r repl f1 f2 s : str_len s <= f1 -> str_len s <= f2 ->
  replace_loop f1 r repl s = replace_loop f2 r repl s.
Proof.
  revert f2 s. induction f1 as [|f1 IH]; intros f2 s H1 H2.
  - destruct s; [|cbn in H1; lia]. by destruct f2.
  - destruct s as [|c s]; [by destruct f2|]. destruct f2 as [|f2]; [cbn in H2; lia|].
    cbn [str_len] in H1, H2. cbn [replace_loop].
    assert (Hs : replace_loop f1 r repl s = replace_loop f2 r repl s) by (apply IH; lia).
    destruct (rests r (String c s)) as [|t ts]; [by rewrite Hs|].
    destruct (Nat.ltb_spec (str_len t) (str_len (String c s))) as [Hl|_]; [|by rewrite Hs].
    cbn [str_len] in Hl. by rewrite (IH f2 t) by lia.
Qed.

Lemma ReplaceAll_nil r repl : ReplaceAll r repl "" = "".
Proof. done. Qed.

Lemma ReplaceAll_skip r repl c s : rests r (String c s) = [] ->
  ReplaceAll r repl (String c s) = String c (ReplaceAll r repl s).
Proof. intros H. unfold ReplaceAll. cbn [str_len replace_loop]. by rewrite H. Qed.

Lemma ReplaceAll_match r repl s t ts : rests r s = t :: ts -> str_len t < str_len s ->
  ReplaceAll r repl s = repl +:+ ReplaceAll r repl t.
Proof.
  intros H Hl. unfold ReplaceAll. destruct s as [|c s]; [cbn in Hl; lia|]. cbn [str_len replace_loop].
  rewrite H. cbn in Hl. destruct (Nat.ltb_spec (str_len t) (S (str_len s))) as [_|Hg]; [|lia].
  f_equal. apply replace_fuel; lia.
Qed.
