(* ===== verification/CtNormalize.v ===== *)
(** The key normalizers of route contracts and the matching of paths
    (internal/contract/normalize.go). *)
From S2P Require Import Prelude GoStrings Regex.

(** ** The environment *)

(** workspace.Link *)
Record Link : Type := mkLink {
  l_From : string; l_To : string; l_Via : string; l_Hint : string; l_BaseURL : string; l_Exchange : string
}.

Record NormalizeEnv : Type := mkEnv {
  FromService : string; ToService : string; env_Links : list Link
}.

Abbreviation Normalizer := (string -> NormalizeEnv -> string).

(** ** Paths *)

(** strings.TrimLeft and strings.TrimRight with a one-byte cutset. *)
Fixpoint TrimLeft (c : ascii) (s : string) : string :=
  match s with
  | "" => ""
  | String d s' => if Ascii.eqb c d then TrimLeft c s' else s
  end.
Fixpoint TrimRight (c : ascii) (s : string) : string :=
  match s with
  | "" => ""
  | String d s' =>
      match TrimRight c s' with
      | "" => if Ascii.eqb c d then "" else String d ""
      | t => String d t
      end
  end.

Definition splitPath (p : string) : list string :=
  let p := TrimRight "/" (TrimLeft "/" p) in
  if str_eqb p "" then [] else Split "/" p.

Definition all_wild (segs : list string) : bool := forallb (str_eqb "*") segs.

Definition hasLiteralSegment (value : string) : bool := negb (all_wild (splitPath value)).

(** ** Regexes *)

Definition reParamColon : regex := RCat (RByte ":") (RPlus (not_byte "/")).
Definition reParamBrace : regex := RCat (RByte "{") (RCat (RPlus (not_byte "}")) (RByte "}")).
Definition reParamRegex : regex :=
  RCat (RByte "[") (RCat (RPlus (not_byte "]")) (RCat (RByte "]")
    (ROpt (RClass (fun c => is_byte "+" c || is_byte "*" c || is_byte "?" c))))).
Definition reParamPrintf : regex :=
  RCat (RByte "%") (RCat (RStar is_digit)
    (RClass (fun c => is_byte "d" c || is_byte "s" c || is_byte "v" c))).
Definition reInterpSegment : regex :=
  RCat (RStar (not_byte "/")) (RCat (RByte "$") (RCat (RByte "{")
    (RCat (RStar (not_byte "}")) (RCat (RByte "}") (RStar (not_byte "/")))))).
Definition reFormatSuffix : regex :=
  RCat (RByte ".") (RAlt (RText "json" REnd) (RAlt (RText "js" REnd) (RAlt (RText "xml" REnd)
    (RAlt (RText "csv" REnd) (RText "html" REnd))))).
(** Anchored at both ends. *)
Definition reResolvedIDSegment : regex :=
  RAlt (RCat (RPlus is_digit) REnd)
    (RAlt (RTimes 8 is_hex (RCat (RByte "-") (RTimes 4 is_hex (RCat (RByte "-") (RTimes 4 is_hex
             (RCat (RByte "-") (RTimes 4 is_hex (RCat (RByte "-") (RTimes 12 is_hex REnd)))))))))
       (RTimes 24 is_hex REnd)).
(** Anchored at both ends. *)
Definition reVersionSegment : regex := RCat (RByte "v") (RCat (RPlus is_digit) REnd).

(** ** Normalizers *)

Definition normParamWildcard (value : string) (_ : NormalizeEnv) : string :=
  let p := ReplaceAll reInterpSegment "*" value in
  let p := ReplaceAll reParamColon "*" p in
  let p := ReplaceAll reParamBrace "*" p in
  let p := ReplaceAll reParamRegex "*" p in
  ReplaceAll reParamPrintf "*" p.

Definition resolved_segment (s : string) : bool := negb (str_eqb s "") && match_prefix reResolvedIDSegment s.

Definition normResolvedIDWildcard (value : string) (_ : NormalizeEnv) : string :=
  if str_eqb value "" then value
  else
    let segs := Split "/" value in
    if existsb resolved_segment segs
    then Join "/" (map (fun s => if resolved_segment s then "*" else s) segs)
    else value.

Definition normQueryStrip (value : string) (_ : NormalizeEnv) : string :=
  match cut_first "?" value with Some (a, _) => a | None => value end.

Definition normFormatSuffixStrip (value : string) (_ : NormalizeEnv) : string :=
  ReplaceAll reFormatSuffix "" value.

Definition is_quote (c : ascii) : bool := is_byte "034" c || is_byte "'" c || is_byte "`" c.

(** The last byte of a string. *)
Fixpoint last_byte (s : string) : option ascii :=
  match s with "" => None | String c "" => Some c | String _ s' => last_byte s' end.

Definition normQuoteStrip (value : string) (_ : NormalizeEnv) : string :=
  match value with
  | String c (String _ _ as rest) =>
      if is_quote c && match last_byte rest with Some d => Ascii.eqb d c | None => false end
      then str_take (str_len rest - 1) rest else value
  | _ => value
  end.

Definition normCaseFold (value : string) (_ : NormalizeEnv) : string := ToLower value.

Definition normTrimSlash (value : string) (_ : NormalizeEnv) : string :=
  if str_eqb value "" then ""
  else
    let p := TrimRight "/" value in
    if str_eqb p "" then "/" else p.

Definition base_link (env : NormalizeEnv) (l : Link) : bool :=
  str_eqb (l_From l) (FromService env) && str_eqb (l_To l) (ToService env) && negb (str_eqb (l_BaseURL l) "").

Definition normBaseURLStrip (value : string) (env : NormalizeEnv) : string :=
  match List.find (base_link env) (env_Links env) with
  | Some link =>
      if HasPrefix value (l_BaseURL link) then
        let stripped := str_drop (str_len (l_BaseURL link)) value in
        if str_eqb stripped "" then "/" else stripped
      else value
  | None => value
  end.

(** normSharedAnchorGuard and normEmptyPathGuard have the same body. *)
Definition blank_wild (value : string) : string :=
  if str_eqb value "" then ""
  else
    match splitPath value with
    | [] => value
    | segs => if all_wild segs then "" else value
    end.
Definition normSharedAnchorGuard (value : string) (_ : NormalizeEnv) : string := blank_wild value.
Definition normEmptyPathGuard (value : string) (_ : NormalizeEnv) : string := blank_wild value.

Definition normURLToPath (value : string) (_ : NormalizeEnv) : string :=
  match cut_first "://" value with
  | Some (_, rest) =>
      match cut_first "/" rest with
      | Some (_, path) => String "/" path
      | None => "/"
      end
  | None => value
  end.

Definition normDynamicHostStrip (value : string) (_ : NormalizeEnv) : string :=
  if HasPrefix value "*/" then str_drop 1 value else value.

Definition topic_wild (seg : string) : bool := str_eqb seg "#" || str_eqb seg "*".

Definition normAMQPTopicWildcard (value : string) (_ : NormalizeEnv) : string :=
  if negb (Contains value "#" || Contains value "*") then value
  else Join "." (map (fun s => if topic_wild s then "*" else s) (Split "." value)).

Definition topicIsOpen (key : string) : bool :=
  str_eqb key "" || forallb topic_wild (Split "." key).

(** The registry init fills. *)
Definition NormalizerByName (name : string) : option Normalizer :=
  if str_eqb name "param_wildcard" then Some normParamWildcard
  else if str_eqb name "query_strip" then Some normQueryStrip
  else if str_eqb name "quote_strip" then Some normQuoteStrip
  else if str_eqb name "case_fold" then Some normCaseFold
  else if str_eqb name "trim_slash" then Some normTrimSlash
  else if str_eqb name "base_url_strip" then Some normBaseURLStrip
  else if str_eqb name "shared_anchor_guard" then Some normSharedAnchorGuard
  else if str_eqb name "url_to_path" then Some normURLToPath
  else if str_eqb name "dynamic_host_strip" then Some normDynamicHostStrip
  else if str_eqb name "amqp_topic_wildcard" then Some normAMQPTopicWildcard
  else if str_eqb name "empty_path_guard" then Some normEmptyPathGuard
  else if str_eqb name "format_suffix_strip" then Some normFormatSuffixStrip
  else if str_eqb name "resolved_id_wildcard" then Some normResolvedIDWildcard
  else None.

Definition apply_norms (norms : list Normalizer) (env : NormalizeEnv) (v : string) : string :=
  fold_left (fun v norm => norm v env) norms v.

(** applyNormsToFields (engine.go) *)
Definition applyNormsToFields (fields : list string) (norms : list Normalizer) (env : NormalizeEnv) :
    list string :=
  map (apply_norms norms env) fields.

Fixpoint find_normalizers (names : list string) : result string (list Normalizer) :=
  match names with
  | [] => Ok []
  | name :: names' =>
      match NormalizerByName name with
      | None => Err name
      | Some fn => fns ← find_normalizers names'; mret (fn :: fns)
      end
  end.

(** NormalizeFields; the error names the normalizer that is not registered. *)
Definition NormalizeFields (fields normNames : list string) (env : NormalizeEnv) : result string string :=
  norms ← find_normalizers normNames;
  mret (Join " " (applyNormsToFields fields norms env)).

(** ** Matching paths *)

Definition pathBoilerplate : list string := ["api"; "apis"; "rest"; "public"; "internal"].

Definition isBoilerplateSegment (seg : string) : bool :=
  existsb (str_eqb (ToLower seg)) pathBoilerplate || match_prefix reVersionSegment (ToLower seg).

Definition splitGlob (seg : string) : string * string * bool :=
  match cut_first "*" seg with
  | None => ("", "", false)
  | Some (pre, suf) =>
      if str_eqb seg "*" then ("", "", false)
      else if Contains suf "*" then ("", "", false)
      else (pre, suf, true)
  end.

Definition globFits (literal pre suf : string) : bool :=
  if str_eqb literal "" || str_eqb literal "*" || (str_len literal <? str_len pre + str_len suf) then false
  else HasPrefix literal pre && HasSuffix literal suf && (negb (str_eqb pre "") || negb (str_eqb suf "")).

(** matched, hasWild, anchor *)
Definition segMatch (keySeg patSeg : string) : bool * bool * string :=
  if str_eqb keySeg patSeg then
    if str_eqb keySeg "*" then (true, true, "") else (true, false, keySeg)
  else
    let '(kPre, kSuf, kPartial) := splitGlob keySeg in
    let '(pPre, pSuf, pPartial) := splitGlob patSeg in
    if str_eqb keySeg "*" then (true, true, "")
    else if str_eqb patSeg "*" then (true, kPartial, "")
    else if kPartial && pPartial then
      if str_eqb kPre pPre && str_eqb kSuf pSuf && (negb (str_eqb kPre "") || negb (str_eqb kSuf ""))
      then (true, true, kPre +:+ kSuf) else (false, true, "")
    else if kPartial then
      if globFits patSeg kPre kSuf then (true, true, kPre +:+ kSuf) else (false, true, "")
    else if pPartial then
      if globFits keySeg pPre pSuf then (true, false, pPre +:+ pSuf) else (false, false, "")
    else (false, false, "").

(** An anchor that says which route was hit. *)
Definition discriminates (anchor : string) : bool :=
  negb (str_eqb anchor "") && negb (isBoilerplateSegment anchor).

Fixpoint score_segs (ks ps : list string) : nat :=
  match ks, ps with
  | k :: ks', p :: ps' =>
      let '(matched, _, anchor) := segMatch k p in
      (if matched && discriminates anchor then 1 else 0) + score_segs ks' ps'
  | _, _ => 0
  end.

Definition wildcardAnchorScore (key pattern : string) : nat :=
  let ks := splitPath key in
  let ps := splitPath pattern in
  if negb (length ks =? length ps) then 0 else score_segs ks ps.

(** The loop of pathMatchesPattern, with keyHasWild and discriminating; None
    where it returns false. *)
Fixpoint match_segs (ks ps : list string) (wild disc : bool) : option (bool * bool) :=
  match ks, ps with
  | k :: ks', p :: ps' =>
      let '(matched, hasWild, anchor) := segMatch k p in
      if negb matched then None
      else match_segs ks' ps' (wild || hasWild) (disc || discriminates anchor)
  | _, _ => Some (wild, disc)
  end.

Definition pathMatchesPattern (key pattern : string) : bool :=
  let ks := splitPath key in
  let ps := splitPath pattern in
  if negb (length ks =? length ps) then false
  else
    match match_segs ks ps false false with
    | None => false
    | Some (keyHasWild, discriminating) => if negb keyHasWild then true else discriminating
    end.

(** ** Examples, from the comments of the code *)

Definition env0 : NormalizeEnv := mkEnv "" "" [].

Example printf_template : normParamWildcard "/maple/roles/%d/update" env0 = "/maple/roles/*/update".
Proof. reflexivity. Qed.
Example js_template : normParamWildcard "/api/v1/${configType}-configs/${configId}/dependent-apps" env0 =
  "/api/v1/*/*/dependent-apps".
Proof. reflexivity. Qed.
Example rails_format : normFormatSuffixStrip "/app/studies/:id/study_roles.json" env0 = "/app/studies/:id/study_roles".
Proof. reflexivity. Qed.
Example octet_kept : normParamWildcard "/a%2Fb" env0 = "/a%2Fb".
Proof. reflexivity. Qed.
Example chain_demo : NormalizeFields ["GET"; "/games/{gameID}"] ["case_fold"; "param_wildcard"; "trim_slash"] env0 =
  Ok "get /games/*".
Proof. reflexivity. Qed.
Example glob_demo : pathMatchesPattern "/maple/*-configs/restart" "/maple/exec-configs/restart" = true.
Proof. reflexivity. Qed.
Example boilerplate_demo : pathMatchesPattern "/api/v1/*/*/dependent-apps" "/api/v1/admin/users/*" = false.
Proof. reflexivity. Qed.
