(* ===== verification/CtNormalizeSpec.v ===== *)
(** Route templates meet: whatever syntax a path parameter is written in, the
    normalizer reduces the path to the same key; and matching a concrete path
    against a pattern is filling in its wildcards. *)
From S2P Require Import Prelude GoStrings Regex CtNormalize.

(** ** Greedy repetition up to a boundary *)

Fixpoint all_bytes (p : ascii -> bool) (s : string) : bool :=
  match s with "" => true | String c s' => p c && all_bytes p s' end.

(** The text cannot be entered by the repetition. *)
Definition stops (p : ascii -> bool) (t : string) : Prop :=
  match t with "" => True | String c _ => p c = false end.

Lemma star_rests_stop p t : stops p t -> star_rests p t = [t].
Proof. destruct t as [|c t]; cbn; [done|]. by intros ->. Qed.

(** The longest repetition takes all of [w]; what else it may leave ends in
    the same text. *)
Lemma star_rests_run p w t : all_bytes p w = true -> stops p t ->
  exists ts, star_rests p (w +:+ t) = t :: ts /\ forall u, u ∈ ts -> exists a b, w = a +:+ b /\ b <> "" /\ u = b +:+ t.
Proof.
  intros Hw Ht. induction w as [|c w IH].
  { exists []. split; [by apply star_rests_stop|]. by intros u ?%not_elem_of_nil. }
  cbn in Hw. apply andb_true_iff in Hw as [Hc Hw]. destruct (IH Hw) as (ts & E & Hts).
  exists (ts ++ [String c (w +:+ t)]). split.
  - change (String c w +:+ t) with (String c (w +:+ t)). cbn [star_rests]. by rewrite Hc, E.
  - intros u [Hu|Hu%list_elem_of_singleton]%elem_of_app.
    + destruct (Hts u Hu) as (a & b & -> & Hb & ->). by exists (String c a), b.
    + subst u. by exists "", (String c w).
Qed.

(** ** Route segments *)

(** A path segment: a literal, or a parameter in one of the syntaxes the
    parsers emit; [Star] is what the normalizer leaves. *)
Inductive segment : Type :=
| Lit (s : string)
| Colon (name : string)
| Brace (name : string)
| Bracket (name : string)
| Printf (verb : ascii)
| Interp (name : string)
| Star.

Definition text (g : segment) : string :=
  match g with
  | Lit s => s
  | Colon n => ":" +:+ n
  | Brace n => "{" +:+ n +:+ "}"
  | Bracket n => "[" +:+ n +:+ "]"
  | Printf v => "%" +:+ String v ""
  | Interp n => "${" +:+ n +:+ "}"
  | Star => "*"
  end.

(** Bytes no parameter syntax uses. *)
Definition plain (c : ascii) : bool :=
  negb (existsb (Ascii.eqb c) ["/"; ":"; "{"; "}"; "["; "]"; "%"; "$"]%char).

Definition well_formed (g : segment) : bool :=
  match g with
  | Lit s => all_bytes plain s
  | Colon n | Brace n | Bracket n => negb (str_eqb n "") && all_bytes plain n
  | Interp n => all_bytes plain n
  | Printf v => existsb (Ascii.eqb v) ["d"; "s"; "v"]%char
  | Star => true
  end.

Fixpoint path (gs : list segment) : string :=
  match gs with [] => "" | g :: gs' => "/" +:+ text g +:+ path gs' end.

(** The shape of a route: which segments are parameters. *)
Definition to_star (g : segment) : segment := match g with Lit s => Lit s | _ => Star end.

(** ** Passes *)

(** What one replacement does to a path, from what it does to a segment. *)
Definition boundary (t : string) : Prop := match t with "" => True | String c _ => c = "/"%char end.

Lemma path_boundary gs : boundary (path gs).
Proof. by destruct gs. Qed.

Lemma pass r f (ok : segment -> bool) gs :
  (forall t, boundary t -> forall rest, t = "/" +:+ rest -> rests r t = []) ->
  (forall g t, ok g = true -> boundary t -> ReplaceAll r "*" (text g +:+ t) = text (f g) +:+ ReplaceAll r "*" t) ->
  forallb ok gs = true -> ReplaceAll r "*" (path gs) = path (map f gs).
Proof.
  intros Hslash Hseg. induction gs as [|g gs IH]; [done|]. cbn [forallb path map].
  intros [Hg Hgs]%andb_true_iff. change ("/" +:+ text g +:+ path gs) with (String "/" (text g +:+ path gs)).
  rewrite ReplaceAll_skip by (eapply Hslash; done). rewrite Hseg by (done || apply path_boundary).
  by rewrite IH.
Qed.

(** Bytes that begin no match are copied. *)
Lemma copy_run r (p : ascii -> bool) w t : (forall c u, p c = true -> rests r (String c u) = []) ->
  all_bytes p w = true -> ReplaceAll r "*" (w +:+ t) = w +:+ ReplaceAll r "*" t.
Proof.
  intros H. induction w as [|c w IH]; cbn [all_bytes]; [done|]. intros [Hc Hw]%andb_true_iff.
  change (String c w +:+ t) with (String c (w +:+ t)). rewrite ReplaceAll_skip by by apply H.
  by rewrite IH.
Qed.

Lemma all_bytes_impl (p q : ascii -> bool) s : (forall c, p c = true -> q c = true) ->
  all_bytes p s = true -> all_bytes q s = true.
Proof.
  intros H. induction s as [|c s IH]; cbn; [done|]. intros [Hc Hs]%andb_true_iff.
  apply andb_true_iff. auto.
Qed.

Lemma plain_not c d : plain c = true -> existsb (Ascii.eqb d) ["/"; ":"; "{"; "}"; "["; "]"; "%"; "$"]%char = true ->
  Ascii.eqb d c = false.
Proof.
  intros Hc Hd. apply Ascii.eqb_neq. intros ->. unfold plain in Hc. by rewrite Hd in Hc.
Qed.

Lemma plain_class c d : plain c = true -> existsb (Ascii.eqb d) ["/"; ":"; "{"; "}"; "["; "]"; "%"; "$"]%char = true ->
  not_byte d c = true.
Proof. intros Hc Hd. unfold not_byte. by rewrite (plain_not c d). Qed.

Lemma rests_byte d c u r : Ascii.eqb d c = false -> rests (RCat (RByte d) r) (String c u) = [].
Proof. intros H. cbn. unfold is_byte. by rewrite H. Qed.

Lemma rests_byte_eq d u r : rests (RCat (RByte d) r) (String d u) = rests r u.
Proof. cbn. unfold is_byte. rewrite Ascii.eqb_refl. cbn. by rewrite app_nil_r. Qed.

(** What a class, once or more, leaves before a boundary of it. *)
Lemma plus_run p c w t : p c = true -> all_bytes p w = true -> stops p t ->
  exists ts, rests (RPlus p) (String c w +:+ t) = t :: ts.
Proof.
  intros Hc Hw Ht. destruct (star_rests_run p w t Hw Ht) as (ts & E & _). exists ts.
  unfold RPlus. change (String c w +:+ t) with (String c (w +:+ t)). cbn. rewrite Hc. cbn. by rewrite E, app_nil_r.
Qed.

(** The first rest of a sequence. *)
Lemma cat_first a b s u us v vs : rests a s = u :: us -> rests b u = v :: vs ->
  exists ws, rests (RCat a b) s = v :: ws.
Proof. intros Ha Hb. cbn. rewrite Ha. cbn. rewrite Hb. cbn. by eexists. Qed.

Lemma boundary_stops t : boundary t -> stops (not_byte "/") t.
Proof. destruct t as [|c t]; [done|]. cbn. by intros ->. Qed.

Lemma name_cases n : negb (str_eqb n "") && all_bytes plain n = true ->
  exists c w, n = String c w /\ plain c = true /\ all_bytes plain w = true.
Proof. destruct n as [|c w]; [done|]. cbn. intros [Hc Hw]%andb_true_iff. by exists c, w. Qed.

Lemma star_len (t : string) s : str_len t < str_len (s +:+ t) <-> s <> "".
Proof. rewrite str_len_app. destruct s as [|c s]; cbn; [split; [lia|done]|split; [done|lia]]. Qed.

(** A segment matched whole becomes a star. *)
Lemma seg_match r s t ts : rests r (s +:+ t) = t :: ts -> s <> "" ->
  ReplaceAll r "*" (s +:+ t) = "*" +:+ ReplaceAll r "*" t.
Proof. intros H Hs. eapply ReplaceAll_match; [exact H|]. by apply star_len. Qed.

(** *** Parameters of the other syntaxes do not begin a match *)

Definition skip_class (d : ascii) (c : ascii) : bool := negb (Ascii.eqb d c).

Lemma copy_bytes d r w t : all_bytes (skip_class d) w = true ->
  ReplaceAll (RCat (RByte d) r) "*" (w +:+ t) = w +:+ ReplaceAll (RCat (RByte d) r) "*" t.
Proof.
  apply copy_run. intros c u Hc. apply rests_byte. unfold skip_class in Hc. by apply negb_true_iff.
Qed.

Lemma all_bytes_app p a b : all_bytes p (a +:+ b) = all_bytes p a && all_bytes p b.
Proof.
  induction a as [|c a IH]; [done|].
  change (p c && all_bytes p (a +:+ b) = p c && all_bytes p a && all_bytes p b). by rewrite IH, andb_assoc.
Qed.

Lemma plain_skip d n : existsb (Ascii.eqb d) ["/"; ":"; "{"; "}"; "["; "]"; "%"; "$"]%char = true ->
  all_bytes plain n = true -> all_bytes (skip_class d) n = true.
Proof. intros Hd. apply all_bytes_impl. intros c Hc. unfold skip_class. by rewrite (plain_not c d). Qed.

(** *** The passes, in order *)

Definition star_colon (g : segment) : segment := match g with Colon _ => Star | _ => g end.
Definition star_brace (g : segment) : segment := match g with Brace _ => Star | _ => g end.
Definition star_bracket (g : segment) : segment := match g with Bracket _ => Star | _ => g end.
Definition star_printf (g : segment) : segment := match g with Printf _ => Star | _ => g end.
Definition star_interp (g : segment) : segment := match g with Interp _ => Star | _ => g end.

Lemma slash_byte d r t : existsb (Ascii.eqb d) [":"; "{"; "["; "%"]%char = true -> boundary t ->
  forall rest, t = "/" +:+ rest -> rests (RCat (RByte d) r) t = [].
Proof.
  intros Hd _ rest ->. apply rests_byte. apply Ascii.eqb_neq. intros ->. discriminate Hd.
Qed.

(** A segment without the byte is copied. *)
Lemma copy_seg d r g t : existsb (Ascii.eqb d) [":"; "{"; "["; "%"]%char = true -> well_formed g = true ->
  match g with
  | Colon _ => Ascii.eqb d ":" | Brace _ | Interp _ => Ascii.eqb d "{"
  | Bracket _ => Ascii.eqb d "[" | Printf _ => Ascii.eqb d "%" | _ => false
  end = false ->
  ReplaceAll (RCat (RByte d) r) "*" (text g +:+ t) = text g +:+ ReplaceAll (RCat (RByte d) r) "*" t.
Proof.
  intros Hd Hg Hne. apply copy_bytes.
  assert (Hds : d = ":"%char \/ d = "{"%char \/ d = "["%char \/ d = "%"%char).
  { cbn in Hd. destruct (Ascii.eqb_spec d ":"); [auto|]. destruct (Ascii.eqb_spec d "{"); [auto|].
    destruct (Ascii.eqb_spec d "["); [auto|]. destruct (Ascii.eqb_spec d "%"); [auto|done]. }
  assert (Hn : forall n, all_bytes plain n = true -> all_bytes (skip_class d) n = true).
  { intros n. apply plain_skip. by destruct Hds as [->|[->|[->| ->]]]. }
  destruct g as [s|n|n|n|v|n|]; cbn [well_formed text] in *;
    try (apply andb_true_iff in Hg as [_ Hg]); rewrite ?all_bytes_app, ?(Hn n Hg); try by apply Hn.
  all: try by destruct Hds as [->|[->|[->| ->]]].
  cbn in Hg. destruct (Ascii.eqb_spec v "d") as [->|_]; [by destruct Hds as [->|[->|[->| ->]]]|].
  destruct (Ascii.eqb_spec v "s") as [->|_]; [by destruct Hds as [->|[->|[->| ->]]]|].
  destruct (Ascii.eqb_spec v "v") as [->|_]; [by destruct Hds as [->|[->|[->| ->]]]|done].
Qed.

Definition no_interp (g : segment) : bool := match g with Interp _ => false | _ => true end.

Lemma pass_colon gs : forallb (fun g => well_formed g && no_interp g) gs = true ->
  ReplaceAll reParamColon "*" (path gs) = path (map star_colon gs).
Proof.
  apply pass; [intros; by eapply (slash_byte ":")|].
  intros g t [Hg Hi]%andb_true_iff Ht. destruct g as [s|n|n|n|v|n|]; try (by apply copy_seg); try done.
  cbn [star_colon text] in *. destruct (name_cases n Hg) as (c & w & -> & Hc & Hw).
  destruct (plus_run (not_byte "/") c w t) as [ts E];
    [by apply plain_class|eapply all_bytes_impl; [|exact Hw]; intros; by apply plain_class|by apply boundary_stops|].
  eapply (seg_match _ (":" +:+ String c w)); [|done].
  change ((":" +:+ String c w) +:+ t) with (String ":" (String c w +:+ t)). unfold reParamColon.
  rewrite rests_byte_eq. exact E.
Qed.

Lemma pass_brace gs : forallb (fun g => well_formed g && no_interp g) gs = true ->
  ReplaceAll reParamBrace "*" (path gs) = path (map star_brace gs).
Proof.
  apply pass; [intros; by eapply (slash_byte "{")|].
  intros g t [Hg Hi]%andb_true_iff Ht. destruct g as [s|n|n|n|v|n|]; try (by apply copy_seg); try done.
  cbn [star_brace text] in *. destruct (name_cases n Hg) as (c & w & -> & Hc & Hw).
  destruct (plus_run (not_byte "}") c w (String "}" t)) as [ts E];
    [by apply plain_class|eapply all_bytes_impl; [|exact Hw]; intros; by apply plain_class|done|].
  destruct (cat_first (RPlus (not_byte "}")) (RByte "}") _ _ _ t [] E eq_refl) as [ws Ew].
  eapply (seg_match _ ("{" +:+ String c w +:+ "}")); [|done]. rewrite !str_app_assoc.
  change ("{" +:+ String c w +:+ "}" +:+ t) with (String "{" (String c w +:+ String "}" t)). unfold reParamBrace.
  rewrite rests_byte_eq. exact Ew.
Qed.

Lemma pass_bracket gs : forallb (fun g => well_formed g && no_interp g) gs = true ->
  ReplaceAll reParamRegex "*" (path gs) = path (map star_bracket gs).
Proof.
  apply pass; [intros; by eapply (slash_byte "[")|].
  intros g t [Hg Hi]%andb_true_iff Ht. destruct g as [s|n|n|n|v|n|]; try (by apply copy_seg); try done.
  cbn [star_bracket text] in *. destruct (name_cases n Hg) as (c & w & -> & Hc & Hw).
  destruct (plus_run (not_byte "]") c w (String "]" t)) as [ts E];
    [by apply plain_class|eapply all_bytes_impl; [|exact Hw]; intros; by apply plain_class|done|].
  set (opt := ROpt (RClass (fun c => is_byte "+" c || is_byte "*" c || is_byte "?" c))).
  assert (Eo : rests opt t = [t]) by (destruct t as [|d t']; [done|]; cbn in Ht; by subst d).
  destruct (cat_first (RByte "]") opt (String "]" t) t [] t [] eq_refl Eo) as [vs Ev].
  destruct (cat_first (RPlus (not_byte "]")) (RCat (RByte "]") opt) _ _ _ _ _ E Ev) as [ws Ew].
  eapply (seg_match _ ("[" +:+ String c w +:+ "]")); [|done]. rewrite !str_app_assoc.
  change ("[" +:+ String c w +:+ "]" +:+ t) with (String "[" (String c w +:+ String "]" t)). unfold reParamRegex.
  rewrite rests_byte_eq. exact Ew.
Qed.

Lemma pass_printf gs : forallb (fun g => well_formed g && no_interp g) gs = true ->
  ReplaceAll reParamPrintf "*" (path gs) = path (map star_printf gs).
Proof.
  apply pass; [intros; by eapply (slash_byte "%")|].
  intros g t [Hg Hi]%andb_true_iff Ht. destruct g as [s|n|n|n|v|n|]; try (by apply copy_seg); try done.
  cbn [star_printf text] in *. eapply (seg_match _ ("%" +:+ String v "")); [|done]. cbn in Hg.
  destruct (Ascii.eqb_spec v "d") as [->|_]; [reflexivity|].
  destruct (Ascii.eqb_spec v "s") as [->|_]; [reflexivity|].
  destruct (Ascii.eqb_spec v "v") as [->|_]; [reflexivity|done].
Qed.

(** *** Interpolations *)

Definition interp_tail : regex :=
  RCat (RByte "$") (RCat (RByte "{") (RCat (RStar (not_byte "}")) (RCat (RByte "}") (RStar (not_byte "/"))))).

Lemma tail_none c u : Ascii.eqb "$" c = false -> rests interp_tail (String c u) = [].
Proof. apply rests_byte. Qed.

Lemma tail_boundary t : boundary t -> rests interp_tail t = [].
Proof. destruct t as [|c t]; [done|]. cbn [boundary]. intros ->. by apply tail_none. Qed.

Definition inside (c : ascii) : bool := not_byte "/" c && not_byte "$" c.

Lemma plain_inside n : all_bytes plain n = true -> all_bytes inside n = true.
Proof. apply all_bytes_impl. intros c Hc. unfold inside. by rewrite !plain_class. Qed.

Lemma flat_map_none {A B} (f : A -> list B) l : (forall u, u ∈ l -> f u = []) -> flat_map f l = [].
Proof.
  induction l as [|x l IH]; intros H; [done|]. cbn. rewrite (H x) by left. apply IH. intros u Hu. apply H. by right.
Qed.

Lemma flat_map_first {A B} (f : A -> list B) l v : (forall u, u ∈ l -> f u = [] \/ exists vs, f u = v :: vs) ->
  (exists u, u ∈ l /\ f u <> []) -> exists vs, flat_map f l = v :: vs.
Proof.
  induction l as [|x l IH]; intros H (u & Hu & Hne); [by apply not_elem_of_nil in Hu|]. cbn.
  destruct (H x) as [E|[vs E]]; [left| |rewrite E; cbn; by eexists]. rewrite E. cbn. apply IH.
  - intros y Hy. apply H. by right.
  - apply elem_of_cons in Hu as [->|Hu]; [done|]. by exists u.
Qed.

Lemma interp_none w t : all_bytes inside w = true -> boundary t -> rests reInterpSegment (w +:+ t) = [].
Proof.
  intros Hw Ht. unfold reInterpSegment. fold interp_tail. cbn [rests].
  destruct (star_rests_run (not_byte "/") w t) as (ts & E & Hts);
    [eapply all_bytes_impl; [|exact Hw]; by intros c [Hc _]%andb_true_iff|by apply boundary_stops|].
  rewrite E. apply flat_map_none. intros u [->|Hu]%elem_of_cons; [by apply tail_boundary|].
  destruct (Hts u Hu) as (a & b & -> & Hb & ->). rewrite all_bytes_app in Hw. apply andb_true_iff in Hw as [_ Hw].
  destruct b as [|c b]; [done|]. cbn in Hw. apply andb_true_iff in Hw as [Hc _]. unfold inside in Hc.
  apply andb_true_iff in Hc as [_ Hc]. apply tail_none. by apply negb_true_iff in Hc.
Qed.

Lemma interp_copy w t : all_bytes inside w = true -> boundary t ->
  ReplaceAll reInterpSegment "*" (w +:+ t) = w +:+ ReplaceAll reInterpSegment "*" t.
Proof.
  intros Hw Ht. induction w as [|c w IH]; [done|]. pose proof (interp_none _ t Hw Ht) as Hn.
  cbn in Hw. apply andb_true_iff in Hw as [_ Hw].
  change (String c w +:+ t) with (String c (w +:+ t)) in *. rewrite ReplaceAll_skip by done. by rewrite IH.
Qed.

Lemma interp_match n t : all_bytes plain n = true -> boundary t ->
  exists vs, rests reInterpSegment (("${" +:+ n +:+ "}") +:+ t) = t :: vs.
Proof.
  intros Hn Ht. unfold reInterpSegment. fold interp_tail. cbn [rests].
  set (w := "${" +:+ n +:+ "}").
  assert (Hw : all_bytes (not_byte "/") w = true).
  { unfold w. rewrite !all_bytes_app. cbn [all_bytes]. rewrite (all_bytes_impl plain _ n); [done| |done].
    intros c Hc. by apply plain_class. }
  destruct (star_rests_run (not_byte "/") w t Hw) as (ts & E & Hts); [by apply boundary_stops|].
  assert (Hself : w +:+ t ∈ star_rests (not_byte "/") (w +:+ t)) by (apply star_rests_derives; constructor).
  assert (Hx : exists vs, rests interp_tail (w +:+ t) = t :: vs).
  { unfold w. rewrite !str_app_assoc.
    change ("${" +:+ n +:+ "}" +:+ t) with (String "$" (String "{" (n +:+ String "}" t))).
    unfold interp_tail. rewrite !rests_byte_eq.
    destruct (star_rests_run (not_byte "}") n (String "}" t)) as (us & Eu & _);
      [eapply all_bytes_impl; [|exact Hn]; intros c Hc; by apply plain_class|done|].
    eapply (cat_first (RStar (not_byte "}"))); [exact Eu|]. rewrite rests_byte_eq.
    by apply star_rests_stop, boundary_stops. }
  rewrite E in Hself |- *. apply flat_map_first.
  - intros u [->|Hu]%elem_of_cons; [left; by apply tail_boundary|].
    destruct (Hts u Hu) as (a & b & Ew & Hb & ->). destruct a as [|d a].
    + right. change ("" +:+ b) with b in Ew. by rewrite <- Ew.
    + left. unfold w in Ew. change ("${" +:+ n +:+ "}") with (String "$" (String "{" (n +:+ "}"))) in Ew.
      injection Ew as _ Ew. destruct b as [|c b]; [done|]. apply tail_none.
      assert (Hin : all_bytes inside (String "{" (n +:+ "}")) = true).
      { change (all_bytes inside ("{" +:+ n +:+ "}") = true). rewrite !all_bytes_app, (plain_inside n Hn). reflexivity. }
      rewrite Ew, all_bytes_app in Hin. apply andb_true_iff in Hin as [_ Hin]. cbn in Hin.
      apply andb_true_iff in Hin as [Hc _]. unfold inside in Hc. apply andb_true_iff in Hc as [_ Hc].
      by apply negb_true_iff in Hc.
  - exists (w +:+ t). split; [done|]. destruct Hx as [vs ->]. done.
Qed.

Lemma pass_interp gs : forallb well_formed gs = true ->
  ReplaceAll reInterpSegment "*" (path gs) = path (map star_interp gs).
Proof.
  apply pass.
  - intros t _ rest ->. unfold reInterpSegment. fold interp_tail. cbn [rests].
    rewrite star_rests_stop by done. apply flat_map_none. by intros u ->%list_elem_of_singleton.
  - intros g t Hg Ht. destruct g as [s|n|n|n|v|n|]; cbn [well_formed] in Hg;
      try (apply andb_true_iff in Hg as [_ Hg]); cbn [star_interp text];
      try (apply interp_copy; [rewrite ?all_bytes_app, ?(plain_inside _ Hg); done|done]).
    + apply interp_copy; [|done]. cbn in Hg. destruct (Ascii.eqb_spec v "d") as [->|_]; [done|].
      destruct (Ascii.eqb_spec v "s") as [->|_]; [done|]. by destruct (Ascii.eqb_spec v "v") as [->|_].
    + destruct (interp_match n t Hg Ht) as [vs E]. by eapply seg_match.
Qed.

(** ** The normalizer *)

Lemma wf_pass f gs : (forall g, well_formed g && no_interp g = true -> well_formed (f g) && no_interp (f g) = true) ->
  forallb (fun g => well_formed g && no_interp g) gs = true ->
  forallb (fun g => well_formed g && no_interp g) (map f gs) = true.
Proof.
  intros Hf. induction gs as [|g gs IH]; cbn [forallb map]; [done|].
  intros [Hg Hgs]%andb_true_iff. apply andb_true_iff. split; [by apply Hf|by apply IH].
Qed.

(** C18: route templates meet.  For a path whose parameters are written in any
    of the syntaxes the parsers emit (a colon, braces, a bracketed pattern, a
    printf verb, a template interpolation), in any mixture, the normalizer
    keeps the literal segments and reduces every parameter to the wildcard;
    so two spellings of one route get the same key. *)
Theorem normParamWildcard_templates gs env : forallb well_formed gs = true ->
  normParamWildcard (path gs) env = path (map to_star gs).
Proof.
  intros H. unfold normParamWildcard. rewrite pass_interp by done.
  assert (H1 : forallb (fun g => well_formed g && no_interp g) (map star_interp gs) = true).
  { revert H. clear. induction gs as [|g gs IH]; cbn [forallb map]; [done|]. intros [Hg Hgs]%andb_true_iff.
    rewrite IH by done. by destruct g; cbn in *; rewrite ?Hg. }
  rewrite pass_colon by done. assert (H2 := H1). apply (wf_pass star_colon) in H2; [|by intros []].
  rewrite pass_brace by done. assert (H3 := H2). apply (wf_pass star_brace) in H3; [|by intros []].
  rewrite pass_bracket by done. assert (H4 := H3). apply (wf_pass star_bracket) in H4; [|by intros []].
  rewrite pass_printf by done. rewrite !map_map. f_equal. apply map_ext. by intros [].
Qed.

Definition demo_route : list segment := [Lit "api"; Colon "user"; Lit "posts"; Brace "id"; Printf "d"; Interp "t"].

Lemma normParamWildcard_templates_witness :
  path demo_route = "/api/:user/posts/{id}/%d/${t}" /\
  normParamWildcard (path demo_route) env0 = "/api/*/posts/*/*/*".
Proof.
  split; [reflexivity|]. rewrite (normParamWildcard_templates demo_route env0); reflexivity.
Defined.

(** ** Concrete paths *)

Fixpoint has_byte (c : ascii) (s : string) : bool :=
  match s with "" => false | String d s' => Ascii.eqb c d || has_byte c s' end.

Lemma prefix_nil (s : string) : HasPrefix s "" = true.
Proof. by destruct s. Qed.

Lemma prefix_byte c s : HasPrefix s (String c "") = match s with "" => false | String d _ => Ascii.eqb c d end.
Proof.
  destruct s as [|d s]; [done|]. unfold HasPrefix. cbn. destruct (ascii_dec c d) as [->|H].
  - rewrite Ascii.eqb_refl. by destruct s.
  - symmetry. by apply Ascii.eqb_neq.
Qed.

Lemma Contains_byte c s : Contains s (String c "") = has_byte c s.
Proof.
  induction s as [|d s IH]; [done|]. cbn [Contains has_byte]. by rewrite prefix_byte, IH.
Qed.

Lemma cut_first_byte c s : match cut_first (String c "") s with
  | Some (a, b) => s = a +:+ String c b /\ has_byte c a = false
  | None => has_byte c s = false
  end.
Proof.
  induction s as [|d s IH]; [done|]. cbn [cut_first]. rewrite prefix_byte.
  destruct (Ascii.eqb_spec c d) as [->|Hne]; [done|]. destruct (cut_first (String c "") s) as [[a b]|]; cbn.
  - destruct IH as [-> Ha]. split; [done|]. apply orb_false_iff. split; [by apply Ascii.eqb_neq|done].
  - apply orb_false_iff. split; [by apply Ascii.eqb_neq|done].
Qed.

Lemma has_byte_app c a b : has_byte c (a +:+ b) = has_byte c a || has_byte c b.
Proof.
  induction a as [|d a IH]; [done|]. change (Ascii.eqb c d || has_byte c (a +:+ b) = Ascii.eqb c d || has_byte c a || has_byte c b).
  by rewrite IH, orb_assoc.
Qed.

(** The first occurrence of a byte splits a text in one way. *)
Lemma split_unique c a b a' b' : has_byte c a = false -> has_byte c a' = false ->
  a +:+ String c b = a' +:+ String c b' -> a = a' /\ b = b'.
Proof.
  revert a'. induction a as [|d a IH]; intros [|d' a'] Ha Ha' E.
  - by injection E as ->.
  - injection E as <- E. cbn in Ha'. by rewrite Ascii.eqb_refl in Ha'.
  - injection E as -> E. cbn in Ha. by rewrite Ascii.eqb_refl in Ha.
  - injection E as -> E. cbn in Ha, Ha'. apply orb_false_iff in Ha as [_ Ha]. apply orb_false_iff in Ha' as [_ Ha'].
    by destruct (IH a' Ha Ha' E) as [-> ->].
Qed.

Definition star_free (s : string) : Prop := has_byte "*" s = false.

(** The segment [k] is the pattern segment [p] with its one wildcard, if any,
    filled in. *)
Definition instance (k p : string) : Prop :=
  k = p \/ exists pre suf fill, star_free pre /\ star_free suf /\ p = pre +:+ "*" +:+ suf /\ k = pre +:+ fill +:+ suf.

Lemma splitGlob_free k : star_free k -> splitGlob k = ("", "", false).
Proof.
  intros Hk. unfold splitGlob. pose proof (cut_first_byte "*" k) as Hc.
  destruct (cut_first "*" k) as [[a b]|]; [|done]. destruct Hc as [-> _].
  unfold star_free in Hk. rewrite has_byte_app in Hk. cbn in Hk. by rewrite orb_true_r in Hk.
Qed.

(** A glob is a segment with one wildcard and something beside it. *)
Lemma splitGlob_spec p pre suf b : splitGlob p = (pre, suf, b) ->
  if b then p = pre +:+ "*" +:+ suf /\ star_free pre /\ star_free suf /\ p <> "*"
  else star_free p \/ p = "*" \/ ~ exists pre suf, star_free pre /\ star_free suf /\ p = pre +:+ "*" +:+ suf.
Proof.
  unfold splitGlob. pose proof (cut_first_byte "*" p) as Hc. destruct (cut_first "*" p) as [[x y]|].
  2:{ intros [= <- <- <-]. by left. }
  destruct Hc as [-> Hx]. destruct (str_eqb (x +:+ String "*" y) "*") eqn:E.
  { intros [= <- <- <-]. apply Stdlib.Strings.String.eqb_eq in E. by right; left. }
  rewrite Contains_byte. destruct (has_byte "*" y) eqn:Ey; intros [= <- <- <-].
  - right. right. intros (pre & suf & Hp & Hs & Eq).
    destruct (split_unique "*" x y pre suf Hx Hp Eq) as [_ <-]. unfold star_free in Hs. congruence.
  - split_and!; try done. by apply Stdlib.Strings.String.eqb_neq.
Qed.

Lemma prefix_app (a b : string) : HasPrefix (a +:+ b) a = true.
Proof.
  induction a as [|c a IH]; [by destruct b|]. change (HasPrefix (String c (a +:+ b)) (String c a) = true).
  unfold HasPrefix in *. cbn. by destruct (ascii_dec c c).
Qed.

Lemma HasPrefix_split s p : HasPrefix s p = true -> exists t, s = p +:+ t.
Proof.
  revert s. induction p as [|c p IH]; intros s; [by exists s|]. destruct s as [|d s]; [done|].
  unfold HasPrefix. cbn. destruct (ascii_dec c d) as [->|]; [|done]. intros H. destruct (IH s H) as [t ->]. by exists t.
Qed.

Lemma str_drop_app (a b : string) : str_drop (str_len a) (a +:+ b) = b.
Proof. induction a as [|c a IH]; [by destruct b|]. exact IH. Qed.

Lemma str_drop_split n s : exists a, s = a +:+ str_drop n s /\ str_len a <= n.
Proof.
  revert s. induction n as [|n IH]; intros s; [exists ""; split; [by destruct s|done]|].
  destruct s as [|c s]; [by exists ""; split; [done|cbn; lia]|]. destruct (IH s) as (a & E & Hl).
  exists (String c a). split; [|cbn; lia]. cbn [str_drop]. change (String c a +:+ str_drop n s) with (String c (a +:+ str_drop n s)).
  by rewrite <- E.
Qed.

Lemma HasSuffix_split s p : HasSuffix s p = true <-> exists t, s = t +:+ p.
Proof.
  unfold HasSuffix. split.
  - intros [Hl Hd]%andb_true_iff. apply Stdlib.Strings.String.eqb_eq in Hd.
    destruct (str_drop_split (str_len s - str_len p) s) as (a & E & _). exists a. by rewrite Hd in E.
  - intros [t ->]. rewrite str_len_app. apply andb_true_iff. split; [apply Nat.leb_le; lia|].
    replace (str_len t + str_len p - str_len p) with (str_len t) by lia. rewrite str_drop_app.
    apply Stdlib.Strings.String.eqb_refl.
Qed.

(** A suffix no longer than the rest lies in the rest. *)
Lemma suffix_rest a t u suf : a +:+ t = u +:+ suf -> str_len suf <= str_len t -> exists fill, t = fill +:+ suf.
Proof.
  revert u. induction a as [|c a IH]; intros u E Hl; [by exists u|]. destruct u as [|d u].
  - exfalso. change (String c (a +:+ t) = suf) in E. subst suf. cbn in Hl. fold (str_len (a +:+ t)) in Hl.
    rewrite str_len_app in Hl. lia.
  - apply (IH u); [|done]. by injection E.
Qed.

(** A prefix and a suffix that do not overlap leave something between. *)
Lemma between s pre suf : str_len pre + str_len suf <= str_len s ->
  HasPrefix s pre = true -> HasSuffix s suf = true -> exists fill, s = pre +:+ fill +:+ suf.
Proof.
  intros Hl [t ->]%HasPrefix_split [u E]%HasSuffix_split. rewrite str_len_app in Hl.
  destruct (suffix_rest _ _ _ _ E) as [fill ->]; [lia|]. by exists fill.
Qed.

Lemma globFits_instance k pre suf : star_free k -> pre +:+ suf <> "" ->
  globFits k pre suf = true <-> exists fill, k = pre +:+ fill +:+ suf.
Proof.
  intros Hk Hne. unfold globFits. split.
  - destruct (_ || _ || _) eqn:E; [done|]. apply orb_false_iff in E as [_ E%Nat.ltb_ge].
    intros [[Hp Hs]%andb_true_iff _]%andb_true_iff. by apply between.
  - intros [fill ->]. replace (str_eqb _ "") with false.
    2:{ symmetry. apply Stdlib.Strings.String.eqb_neq. intros E. apply Hne. destruct pre; [|done]. destruct fill; [done|done]. }
    replace (str_eqb _ "*") with false.
    2:{ symmetry. apply Stdlib.Strings.String.eqb_neq. intros E. unfold star_free in Hk. by rewrite E in Hk. }
    rewrite !str_len_app. replace (_ <? _) with false by (symmetry; apply Nat.ltb_ge; lia). cbn [orb].
    rewrite prefix_app. replace (HasSuffix _ suf) with true.
    2:{ symmetry. apply HasSuffix_split. exists (pre +:+ fill). by rewrite str_app_assoc. }
    cbn [andb]. destruct pre; [|done]. by destruct suf.
Qed.

(** Matching a concrete segment. *)
Lemma segMatch_instance k p : star_free k ->
  let '(matched, hasWild, _) := segMatch k p in (matched = true <-> instance k p) /\ hasWild = false.
Proof.
  intros Hk. unfold segMatch. rewrite (splitGlob_free k Hk).
  assert (Hks : str_eqb k "*" = false).
  { apply Stdlib.Strings.String.eqb_neq. intros ->. discriminate Hk. }
  destruct (Stdlib.Strings.String.eqb_spec k p) as [->|Hne].
  { rewrite Hks. split; [|done]. split; [by left|done]. }
  destruct (splitGlob p) as [[pre suf] b] eqn:Eg. apply splitGlob_spec in Eg. rewrite Hks.
  destruct (Stdlib.Strings.String.eqb_spec p "*") as [->|Hp].
  { split; [|done]. split; [|done]. intros _. right. exists "", "", k. split_and!; [done..|].
    symmetry. apply str_app_nil. }
  destruct b; cbn [andb].
  - destruct Eg as (Ep & Hpre & Hsuf & _).
    assert (Hps : pre +:+ suf <> "") by (intros E; apply Hp; rewrite Ep; destruct pre; [by destruct suf|done]).
    pose proof (globFits_instance k pre suf Hk Hps) as Hg. destruct (globFits k pre suf); (split; [|done]); split; try done.
    + intros _. right. destruct (proj1 Hg eq_refl) as [fill E]. by exists pre, suf, fill.
    + intros [E|(pre' & suf' & fill & H1 & H2 & E & Ek)]; [done|]. apply Hg. exists fill.
      rewrite E in Ep. change ("*" +:+ suf) with (String "*" suf) in Ep. change ("*" +:+ suf') with (String "*" suf') in Ep.
      by destruct (split_unique "*" pre' suf' pre suf H1 Hpre Ep) as [<- <-].
  - split; [|done]. split; [done|]. intros [E|(pre' & suf' & fill & H1 & H2 & E & _)]; [done|]. exfalso.
    destruct Eg as [Hf|[?|Hno]]; [|done|by apply Hno; exists pre', suf'].
    unfold star_free in Hf. rewrite E, has_byte_app in Hf. cbn in Hf. by rewrite orb_true_r in Hf.
Qed.

Lemma match_segs_concrete ks ps disc : Forall star_free ks -> length ks = length ps ->
  (match match_segs ks ps false disc with Some (wild, _) => wild = false | None => True end) /\
  (is_Some (match_segs ks ps false disc) <-> Forall2 instance ks ps).
Proof.
  revert ps disc. induction ks as [|k ks IH]; intros [|p ps] disc Hf Hl; cbn in Hl; try done.
  apply Forall_cons in Hf as [Hk Hf]. injection Hl as Hl. cbn [match_segs].
  pose proof (segMatch_instance k p Hk) as Hs. destruct (segMatch k p) as [[matched hasWild] anchor].
  destruct Hs as [Hs ->]. destruct matched; cbn [negb orb].
  - destruct (IH ps (disc || discriminates anchor) Hf Hl) as [H1 H2]. split; [exact H1|]. rewrite H2.
    rewrite Forall2_cons. naive_solver.
  - split; [done|]. split; [by intros []|]. intros [Hi _]%Forall2_cons. naive_solver.
Qed.

(** C19: a concrete path, one without wildcards, matches a route pattern
    exactly when the two have as many segments and each segment of the path is
    the pattern's with its wildcard, a whole segment or a part of one, filled
    in. *)
Theorem pathMatchesPattern_concrete key pattern : Forall star_free (splitPath key) ->
  pathMatchesPattern key pattern = true <-> Forall2 instance (splitPath key) (splitPath pattern).
Proof.
  intros Hf. unfold pathMatchesPattern.
  destruct (Nat.eqb_spec (length (splitPath key)) (length (splitPath pattern))) as [Hl|Hl]; cbn [negb].
  - destruct (match_segs_concrete _ _ false Hf Hl) as [H1 H2]. rewrite <- H2.
    destruct (match_segs _ _ _ _) as [[wild disc]|]; [subst wild; cbn; split; [by eexists|done]|].
    split; [done|by intros []].
  - split; [done|]. intros H%Forall2_length. done.
Qed.

Lemma pathMatchesPattern_concrete_witness :
  pathMatchesPattern "/maple/exec-configs/7" "/maple/*-configs/*" = true /\
  Forall2 instance (splitPath "/maple/exec-configs/7") (splitPath "/maple/*-configs/*").
Proof.
  split; [reflexivity|]. apply (pathMatchesPattern_concrete "/maple/exec-configs/7" "/maple/*-configs/*").
  - repeat constructor.
  - reflexivity.
Defined.

(** Both sides of a doubled slash have an empty segment, which a wildcard
    takes. *)
Example empty_segment_matches : pathMatchesPattern "/a//b" "/a/*/b" = true.
Proof. reflexivity. Qed.
