(* ===== verification/CtEngine.v ===== *)
(** The contract engine (internal/contract/model.go, engine.go): which
    producers of a rule meet which consumers, on what evidence, and what
    becomes of a producer that meets none. *)
From S2P Require Import Prelude GoStrings Regex GrModel GrVerdict GrResolve CtNormalize.

(** ** Rules (model.go) *)

Inductive MatchTier : Type := TierExact | TierNormalized | TierWildcardAnchored | TierExchangeOnly.

Inductive UnmatchedPolicy : Type := UnmatchedUnknownEdge | UnmatchedLedger | UnmatchedDrop.

Record EndpointSpec : Type := mkEndpoint {
  sp_Node : NodeType;
  sp_Where : gmap string string;
  sp_NotWhere : gmap string string;
  sp_Key : list string;
  sp_KeyFallbacks : gmap string (list string);
  sp_MethodFallback : list string;
  sp_TargetServiceMeta : string;
  sp_SameOriginRelative : bool;
  sp_BrowserSameOrigin : bool
}.

Record EdgeSpec : Type := mkEdgeSpec {
  es_Type : EdgeType; es_IDPrefix : string; es_SameService : string; es_ViaMeta : gmap string string
}.

Record Rule : Type := mkRule {
  ru_Kind : string; ru_Producer : EndpointSpec; ru_Consumer : EndpointSpec;
  ru_Normalizers : list string; ru_Match : list MatchTier; ru_Edge : EdgeSpec;
  ru_Unmatched : UnmatchedPolicy
}.

Record Result : Type := mkResult {
  re_Edges : list Edge; re_Nodes : list Node; re_Unresolved : list UnresolvedRef
}.
Definition no_result : Result := mkResult [] [] [].

Definition ConfidenceInferred : string := "inferred".
Definition ConfidenceStatic : string := "static".
Definition NodeTypeService : NodeType := "service".

Definition meta_of (n : Node) (k : string) : string := meta_get (n_Meta n) k.
Definition has_meta (n : Node) (k : string) : bool := negb (str_eqb (meta_of n k) "").

(** ** Keys of a node *)

(** Field values that replace what the node says; [∅] where the code passes
    nil. *)
Abbreviation Overrides := (gmap string string).

(** The first of the fallback fields with a value. *)
Definition fallback_value (n : Node) (fbs : list string) : string :=
  match List.find (has_meta n) fbs with Some fb => meta_of n fb | None => "" end.

Definition field_value (n : Node) (spec : EndpointSpec) (ov : Overrides) (field : string) : string :=
  match ov !! field with
  | Some v => v
  | None =>
      let val := meta_of n field in
      if str_eqb val "" then fallback_value n (default [] (sp_KeyFallbacks spec !! field)) else val
  end.

Definition buildRawFields (n : Node) (spec : EndpointSpec) (ov : Overrides) : list string :=
  map (field_value n spec ov) (sp_Key spec).

Definition keyIsEmpty (fields : list string) : bool :=
  match fields with [] => false | _ => forallb (str_eqb "") fields end.

(** [rawFields] and [normFields] have the same length. *)
Fixpoint keyVoided (rawFields normFields : list string) : bool :=
  match rawFields, normFields with
  | r :: rs, n :: ns => (negb (str_eqb r "") && str_eqb n "") || keyVoided rs ns
  | _, _ => false
  end.

Definition Key (fields : list string) : string := Join " " fields.

(** The raw and the normalized key of a node, unless it has none. *)
Definition node_key (spec : EndpointSpec) (norms : list Normalizer) (env : NormalizeEnv) (n : Node)
    (ov : Overrides) : option (string * string) :=
  let rawFields := buildRawFields n spec ov in
  if keyIsEmpty rawFields then None
  else
    let normFields := applyNormsToFields rawFields norms env in
    if keyVoided rawFields normFields then None else Some (Key rawFields, Key normFields).

(** ** Gates *)

Definition where_ok (n : Node) (gate : string * string) : bool :=
  let '(key, expected) := gate in
  let actual := meta_of n key in
  if str_eqb expected "" then str_eqb actual ""
  else if Contains expected "|" then existsb (str_eqb actual) (Split "|" expected)
  else str_eqb actual expected.

Definition matchesWhere (n : Node) (w : gmap string string) : bool := forallb (where_ok n) (map_to_list w).

Definition matchesNotWhere (n : Node) (w : gmap string string) : bool :=
  forallb (fun kv => negb (str_eqb (meta_of n (fst kv)) (snd kv))) (map_to_list w).

Definition admits (spec : EndpointSpec) (n : Node) : bool :=
  str_eqb (n_Type n) (sp_Node spec) && matchesWhere n (sp_Where spec) && matchesNotWhere n (sp_NotWhere spec).

Definition partitionNodes (nodes : list Node) (rule : Rule) : list Node * list Node :=
  let live := List.filter (fun n => negb (IsTestFilePath (n_File n))) nodes in
  (List.filter (admits (ru_Producer rule)) live, List.filter (admits (ru_Consumer rule)) live).

Definition filterByService (consumers : list Node) (targetSvc : string) : list Node :=
  if str_eqb targetSvc "" then consumers
  else List.filter (fun c => str_eqb (n_Service c) targetSvc) consumers.

Definition filterBySameServicePolicy (consumers : list Node) (policy prodService : string) : list Node :=
  if str_eqb policy "skip" then List.filter (fun c => negb (str_eqb (n_Service c) prodService)) consumers
  else if str_eqb policy "same_service_only" then
    List.filter (fun c => str_eqb (n_Service c) prodService) consumers
  else consumers.

Definition sameServiceAllowed (policy : string) (prod cons : Node) : bool :=
  let sameService := str_eqb (n_Service prod) (n_Service cons) in
  if str_eqb policy "skip" then negb sameService
  else if str_eqb policy "keep" then true
  else if str_eqb policy "same_service_only" then sameService
  else if HasPrefix policy "skip_unless_meta:" then
    negb sameService || has_meta prod (TrimPrefix policy "skip_unless_meta:")
  else true.

(** ** Duplicate producers of one call site *)

Definition producerEvidenceScore (n : Node) : nat :=
  (if has_meta n "path_evidence" then 4 else 0) + (if has_meta n "confidence_ceiling" then 2 else 0) +
  (if has_meta n "via_wrapper" || has_meta n "synthesized" then 1 else 0).

Definition nul : string := String "000" "".

Definition site_key (spec : EndpointSpec) (p : Node) : string :=
  n_Service p +:+ nul +:+ n_File p +:+ nul +:+ itoa (n_Line p) +:+ nul +:+ Key (buildRawFields p spec ∅).

(** bestAt, and keep for the producers seen so far. *)
Definition dedupe_step (spec : EndpointSpec) (producers : list Node)
    (st : gmap string nat * list bool) (p : Node) : gmap string nat * list bool :=
  let '(bestAt, keep) := st in
  let i := length keep in
  let k := site_key spec p in
  match bestAt !! k with
  | None => (<[k := i]> bestAt, keep ++ [true])
  | Some prev =>
      let better := match producers !! prev with
                    | Some q => producerEvidenceScore q <? producerEvidenceScore p
                    | None => false
                    end in
      if better then (<[k := i]> bestAt, <[prev := false]> keep ++ [true])
      else (bestAt, keep ++ [false])
  end.

Definition kept (producers : list Node) (keep : list bool) : list Node :=
  map fst (List.filter snd (combine producers keep)).

Definition dedupeProducers (producers : list Node) (spec : EndpointSpec) : list Node :=
  if length producers <? 2 then producers
  else kept producers (snd (fold_left (dedupe_step spec producers) producers (∅, []))).

(** ** Consumer indexes *)

Record consumerIndexes : Type := mkIndexes {
  ix_exact : gmap string (list Node); ix_norm : gmap string (list Node); ix_normKeys : list string
}.

Definition push (m : gmap string (list Node)) (k : string) (c : Node) : gmap string (list Node) :=
  <[k := default [] (m !! k) ++ [c]]> m.

Definition index_consumer (spec : EndpointSpec) (norms : list Normalizer) (env : NormalizeEnv)
    (idx : consumerIndexes) (c : Node) : consumerIndexes :=
  match node_key spec norms env c ∅ with
  | None => idx
  | Some (rawKey, normKey) =>
      mkIndexes (push (ix_exact idx) rawKey c) (push (ix_norm idx) normKey c)
        (match ix_norm idx !! normKey with
         | Some _ => ix_normKeys idx
         | None => ix_normKeys idx ++ [normKey]
         end)
  end.

Definition buildConsumerIndexes (consumers : list Node) (spec : EndpointSpec) (norms : list Normalizer)
    (env : NormalizeEnv) : consumerIndexes :=
  fold_left (index_consumer spec norms env) consumers (mkIndexes ∅ ∅ []).

(** ** Tiers *)

(** path, prefix *)
Definition splitAtFirstSlash (key : string) : string * string :=
  match cut_first "/" key with
  | None | Some ("", _) => (key, "")
  | Some (prefix, rest) => (String "/" rest, prefix)
  end.

Definition splitFirstField (key : string) : option (string * string) := cut_first " " key.

(** The indexed keys a wildcarded key matches, with their score. *)
Definition wildcard_matches (key : string) (normKeys : list string) : list (string * nat) :=
  let '(keyPath, keyPrefix) := splitAtFirstSlash key in
  flat_map (fun consKey =>
    let '(consPath, consPrefix) := splitAtFirstSlash consKey in
    if negb (str_eqb keyPrefix consPrefix) then []
    else if pathMatchesPattern keyPath consPath then [(consKey, wildcardAnchorScore keyPath consPath)]
    else []) normKeys.

Definition best_score (matched : list (string * nat)) : nat :=
  fold_left (fun best m => if best <? snd m then snd m else best) matched 0.

Definition consumers_of (idx : consumerIndexes) (k : string) : list Node := default [] (ix_norm idx !! k).

Definition wildcardScan (key : string) (idx : consumerIndexes) : list Node * nat :=
  if negb (hasLiteralSegment (fst (splitAtFirstSlash key))) then ([], 0)
  else
    let matched := wildcard_matches key (ix_normKeys idx) in
    let best := best_score matched in
    (flat_map (fun m => if snd m <? best then [] else consumers_of idx (fst m)) matched, best).

Definition exchangeOnlyScan (key : string) (idx : consumerIndexes) : list Node :=
  match splitFirstField key with
  | None => []
  | Some (prodHead, prodRest) =>
      if str_eqb prodHead "" then []
      else
        let prodOpen := topicIsOpen prodRest in
        flat_map (fun consKey =>
          match splitFirstField consKey with
          | None => []
          | Some (consHead, consRest) =>
              if negb (str_eqb consHead prodHead) then []
              else if negb prodOpen && negb (topicIsOpen consRest) then []
              else consumers_of idx consKey
          end) (ix_normKeys idx)
  end.

Definition wildcardMatchMeta (key : string) : Meta :=
  let segs := splitPath (fst (splitAtFirstSlash key)) in
  match segs with
  | [] => ∅
  | _ =>
      let concrete := length (List.filter (fun s => negb (str_eqb s "*")) segs) in
      {[ "anchor_ratio" := FormatRatio (Z.of_nat concrete) (Z.of_nat (length segs)) ]}
  end.

(** What a lookup found: the consumers, the confidence, the metadata of the
    tier and the rank of the match. *)
Definition tier_hits (rawKey normKey : string) (idx : consumerIndexes) (tier : MatchTier) :
    list Node * string * Meta * Z :=
  match tier with
  | TierExact => (default [] (ix_exact idx !! rawKey), ConfidenceStatic, ∅, (2 ^ 20)%Z)
  | TierNormalized => (consumers_of idx normKey, ConfidenceInferred, ∅, (2 ^ 10)%Z)
  | TierWildcardAnchored =>
      let '(hs, anchor) := wildcardScan normKey idx in
      (hs, ConfidenceInferred, wildcardMatchMeta normKey, Z.of_nat anchor)
  | TierExchangeOnly => (exchangeOnlyScan normKey idx, ConfidencePartial, ∅, 1%Z)
  end.

Fixpoint findMatches (rawKey normKey : string) (tiers : list MatchTier) (idx : consumerIndexes) :
    list Node * string * Meta * Z :=
  match tiers with
  | [] => ([], "", ∅, 0%Z)
  | tier :: tiers' =>
      match tier_hits rawKey normKey idx tier with
      | ([], _, _, _) => findMatches rawKey normKey tiers' idx
      | found => found
      end
  end.

(** ** Method fallback *)

Definition candidateMethodOverrides (n : Node) (spec : EndpointSpec) : list Overrides :=
  match sp_MethodFallback spec with
  | [] => [∅]
  | fb =>
      if negb (existsb (str_eqb "method") (sp_Key spec)) then [∅]
      else if has_meta n "method" then [∅]
      else map (fun m => {[ "method" := m ]}) fb
  end.

Definition mergeOverrides (a b : Overrides) : Overrides := b ∪ a.

(** The consumers of a lookup the same-service policy lets through. *)
Definition eligible_hits (rule : Rule) (prod : Node) (hits : list Node) : list Node :=
  List.filter (sameServiceAllowed (es_SameService (ru_Edge rule)) prod) hits.

Definition probe_method (rule : Rule) (norms : list Normalizer) (env : NormalizeEnv)
    (idx : consumerIndexes) (prod : Node) (best : Z * option Overrides) (ov : Overrides) :
    Z * option Overrides :=
  match node_key (ru_Producer rule) norms env prod ov with
  | None => best
  | Some (rawKey, normKey) =>
      let '(hits, _, _, q) := findMatches rawKey normKey (ru_Match rule) idx in
      match eligible_hits rule prod hits with
      | [] => best
      | _ :: _ => if (fst best <? q)%Z then (q, Some ov) else best
      end
  end.

Definition bestMethodOverride (rule : Rule) (norms : list Normalizer) (env : NormalizeEnv)
    (idx : consumerIndexes) (prod : Node) (overrides : list Overrides) : option Overrides :=
  snd (fold_left (probe_method rule norms env idx prod) overrides ((-1)%Z, None)).

(** ** Confidence *)

Definition ConfidenceRank (c : string) : nat :=
  if str_eqb c ConfidenceUnknown then 0
  else if str_eqb c ConfidencePartial then 1
  else if str_eqb c ConfidenceInferred then 2
  else if str_eqb c ConfidenceStatic then 3
  else 4.

Definition capConfidence (conf ceiling : string) : string :=
  if str_eqb ceiling "" then conf
  else if ConfidenceRank ceiling <? ConfidenceRank conf then ceiling
  else conf.

(** The set whose size distinctTargetServices returns. *)
Definition target_services (hits : list Node) : gset string :=
  list_to_set (List.filter (fun s => negb (str_eqb s "")) (map n_Service hits)).
Definition distinctTargetServices (hits : list Node) : nat := size (target_services hits).

(** ** Edges *)

Definition edge_id (rule : Rule) (from to : string) : string :=
  es_IDPrefix (ru_Edge rule) +:+ ":" +:+ from +:+ "->" +:+ to.

Definition contract_edge (rule : Rule) (from to label confidence : string) (meta : Meta) : Edge :=
  mkEdge (edge_id rule from to) from to (es_Type (ru_Edge rule)) label confidence "" "" meta [] "" "".

Definition add_edges (es : list Edge) (r : Result) : Result :=
  mkResult (re_Edges r ++ es) (re_Nodes r) (re_Unresolved r).

Section link.
(** The order in which the ViaMeta map of a rule is ranged over, and
    json.Unmarshal into a list of strings. *)
Context (via_order : list (string * string) -> list (string * string)).
Context (json_strings : string -> option (list string)).

(** The metadata of an edge to a hit. *)
Definition edge_meta (rule : Rule) (prod : Node) (matchMeta : Meta) : Meta :=
  let m := fold_left (fun m kv => if has_meta prod (fst kv) then <["via" := snd kv]> m else m)
             (via_order (map_to_list (es_ViaMeta (ru_Edge rule)))) matchMeta in
  let m := if has_meta prod "via" && str_eqb (meta_get m "via") "" then <["via" := meta_of prod "via"]> m else m in
  if has_meta prod "key_resolved_via" then
    let m := <["resolved_via" := meta_of prod "key_resolved_via"]> m in
    if has_meta prod "broker_field" then <["handshake_field" := meta_of prod "broker_field"]> m else m
  else m.

(** Weak path evidence that several services answer to. *)
Definition suppressed (prod : Node) (eligible : list Node) : bool :=
  str_eqb (meta_of prod "path_evidence") "weak" && (1 <? distinctTargetServices eligible).

Definition edge_confidence (prod : Node) (confidence : string) (eligible : list Node) : string :=
  capConfidence (if 1 <? distinctTargetServices eligible then ConfidencePartial else confidence)
    (meta_of prod "confidence_ceiling").

(** The loop of matchProducer over the overrides. *)
Fixpoint try_overrides (rule : Rule) (norms : list Normalizer) (env : NormalizeEnv)
    (idx : consumerIndexes) (prod : Node) (overrides : list Overrides) (r : Result) : bool * Result :=
  match overrides with
  | [] => (false, r)
  | ov :: overrides' =>
      match node_key (ru_Producer rule) norms env prod ov with
      | None => try_overrides rule norms env idx prod overrides' r
      | Some (rawKey, normKey) =>
          let '(hits, confidence, matchMeta, _) := findMatches rawKey normKey (ru_Match rule) idx in
          match eligible_hits rule prod hits with
          | [] => try_overrides rule norms env idx prod overrides' r
          | eligible =>
              if suppressed prod eligible then try_overrides rule norms env idx prod overrides' r
              else
                (true, add_edges (map (fun hit =>
                   contract_edge rule (n_ID prod) (n_ID hit) normKey
                     (edge_confidence prod confidence eligible) (edge_meta rule prod matchMeta)) eligible) r)
          end
      end
  end.

Definition matchProducer (rule : Rule) (norms : list Normalizer) (env : NormalizeEnv)
    (idx : consumerIndexes) (prod : Node) (r : Result) : bool * Result :=
  let overrides := candidateMethodOverrides prod (ru_Producer rule) in
  let overrides :=
    if 1 <? length overrides then
      match bestMethodOverride rule norms env idx prod overrides with
      | Some best => [best]
      | None => overrides
      end
    else overrides in
  try_overrides rule norms env idx prod overrides r.

(** ** Key candidates *)

Definition ParseKeyCandidates (s : string) : list string :=
  if str_eqb s "" then [] else default [] (json_strings s).

Definition is_dynamic_field (prod : Node) (spec : EndpointSpec) (field : string) : bool :=
  if has_meta prod field then false
  else if str_eqb field "method" && negb (length (sp_MethodFallback spec) =? 0) then false
  else negb (existsb (has_meta prod) (default [] (sp_KeyFallbacks spec !! field))).

Definition findDynamicKeyField (prod : Node) (spec : EndpointSpec) : string :=
  match List.find (is_dynamic_field prod spec) (sp_Key spec) with Some f => f | None => "" end.

Definition branch_meta (matchMeta : Meta) : Meta :=
  matchMeta ∪ {[ "confidence" := ConfidenceInferred; "via" := "branch_enum" ]}.

(** The loop of matchProducerWithKeyOverride. *)
Fixpoint try_candidate (rule : Rule) (norms : list Normalizer) (env : NormalizeEnv)
    (idx : consumerIndexes) (prod : Node) (base : Overrides) (methods : list Overrides) (r : Result) :
    bool * Result :=
  match methods with
  | [] => (false, r)
  | m :: methods' =>
      let rawFields := buildRawFields prod (ru_Producer rule) (mergeOverrides base m) in
      let normFields := applyNormsToFields rawFields norms env in
      if keyVoided rawFields normFields then try_candidate rule norms env idx prod base methods' r
      else
        let '(hits, _, matchMeta, _) := findMatches (Key rawFields) (Key normFields) (ru_Match rule) idx in
        match eligible_hits rule prod hits with
        | [] => try_candidate rule norms env idx prod base methods' r
        | eligible =>
            (true, add_edges (map (fun hit =>
               contract_edge rule (n_ID prod) (n_ID hit) (Key normFields) ConfidenceInferred
                 (branch_meta matchMeta)) eligible) r)
        end
  end.

Definition matchProducerWithKeyOverride (rule : Rule) (norms : list Normalizer) (env : NormalizeEnv)
    (idx : consumerIndexes) (prod : Node) (dynField cand : string) (r : Result) : bool * Result :=
  let base : Overrides := if str_eqb dynField "" then ∅ else {[ dynField := cand ]} in
  try_candidate rule norms env idx prod base (candidateMethodOverrides prod (ru_Producer rule)) r.

(** Every candidate is tried; whether any matched. *)
Definition match_candidates (rule : Rule) (norms : list Normalizer) (env : NormalizeEnv)
    (idx : consumerIndexes) (prod : Node) (cands : list string) (r : Result) : bool * Result :=
  let dynField := findDynamicKeyField prod (ru_Producer rule) in
  fold_left (fun st cand =>
    let '(any, r) := st in
    let '(matched, r') := matchProducerWithKeyOverride rule norms env idx prod dynField cand r in
    (any || matched, r')) cands (false, r).

(** ** Producers without a match *)

Definition dynamicKindFor (k : string) : string :=
  if existsb (str_eqb k) ["http"; "sse"; "grpc"; "graphql"] then "dynamic_url"
  else if existsb (str_eqb k) ["kafka"; "nats"; "redis_pubsub"] then "dynamic_topic"
  else if str_eqb k "amqp" then "dynamic_url"
  else if existsb (str_eqb k) ["job"; "sqs"] then "dynamic_queue"
  else if existsb (str_eqb k) ["pusher"; "hub"] then "dynamic_channel"
  else if str_eqb k "websocket" then "dynamic_event"
  else "dynamic_" +:+ k.

Definition add_unresolved (u : UnresolvedRef) (r : Result) : Result :=
  mkResult (re_Edges r) (re_Nodes r) (re_Unresolved r ++ [u]).

Definition applyDynamicUnmatched (prod : Node) (rule : Rule) (r : Result) : Result :=
  add_unresolved (mkUnresolvedRef (n_Service prod) (n_File prod) (n_Line prod)
    (meta_of prod "key_dynamic_raw") (dynamicKindFor (ru_Kind rule)) "") r.

Definition synth_id (targetSvc : string) : string :=
  if str_eqb targetSvc "" then "unresolved" else "unresolved:" +:+ targetSvc.

Definition synth_node (targetSvc : string) : Node :=
  mkNode (synth_id targetSvc) NodeTypeService (synth_id targetSvc) targetSvc "" 0 0 "" ∅ "".

Definition raw_key (prod : Node) (rule : Rule) : string := Key (buildRawFields prod (ru_Producer rule) ∅).

Definition applyUnmatched (prod : Node) (rule : Rule) (targetSvc : string) (st : Result * gset string) :
    Result * gset string :=
  let '(r, synthSeen) := st in
  match ru_Unmatched rule with
  | UnmatchedUnknownEdge =>
      let synthID := synth_id targetSvc in
      let '(nodes, seen) :=
        if decide (synthID ∈ synthSeen) then (re_Nodes r, synthSeen)
        else (re_Nodes r ++ [synth_node targetSvc], {[ synthID ]} ∪ synthSeen) in
      (mkResult (re_Edges r ++ [contract_edge rule (n_ID prod) synthID (raw_key prod rule) ConfidenceUnknown
                                  {[ "confidence" := ConfidenceUnknown ]}]) nodes (re_Unresolved r), seen)
  | UnmatchedLedger =>
      (add_unresolved (mkUnresolvedRef (n_Service prod) (n_File prod) (n_Line prod)
         (raw_key prod rule) (ru_Kind rule) "") r, synthSeen)
  | UnmatchedDrop => (r, synthSeen)
  end.

(** ** Origins *)

Definition absolute_url (v : string) : bool := Contains v "://" || HasPrefix v "//".

Definition producerKeyIsRootRelative (prod : Node) (spec : EndpointSpec) : bool :=
  forallb (fun v =>
    let v := normQuoteStrip v env0 in
    negb (absolute_url v) && negb (HasPrefix v "/" && match splitPath v with [] => false | _ => true end))
    (buildRawFields prod spec ∅).

Definition browserLanguages : list string := ["javascript"; "typescript"; "jsx"; "tsx"; "vue"; "svelte"].

Definition isBrowserExecuted (prod : Node) : bool :=
  existsb (str_eqb (ToLower (n_Language prod))) browserLanguages ||
  str_eqb (meta_of prod "nav_link") "true" || has_meta prod "datastar".

(** The fields are read in order, up to the first absolute one. *)
Definition producerKeyIsRelativeURL (prod : Node) (spec : EndpointSpec) : bool :=
  let vs := map (fun v => normQuoteStrip v env0) (buildRawFields prod spec ∅) in
  negb (existsb absolute_url vs) && existsb (fun v => HasPrefix v "/") vs.

Definition target_service (rule : Rule) (prod : Node) : string :=
  let spec := ru_Producer rule in
  let declared := if str_eqb (sp_TargetServiceMeta spec) "" then "" else meta_of prod (sp_TargetServiceMeta spec) in
  if str_eqb declared "" && sp_SameOriginRelative spec && negb (str_eqb (n_Service prod) "") &&
     producerKeyIsRootRelative prod spec
  then n_Service prod else declared.

(** ** Link *)

Definition candSet : Type := list Node * consumerIndexes.

Definition make_candidates (rule : Rule) (norms : list Normalizer) (links : list Link)
    (consumers : list Node) (targetSvc prodSvc : string) : candSet :=
  let cands := filterBySameServicePolicy (filterByService consumers targetSvc)
                 (es_SameService (ru_Edge rule)) prodSvc in
  (cands, buildConsumerIndexes cands (ru_Consumer rule) norms (mkEnv prodSvc targetSvc links)).

Definition prefers_own (rule : Rule) (prod : Node) (targetSvc : string) : bool :=
  sp_BrowserSameOrigin (ru_Producer rule) && str_eqb targetSvc "" && negb (str_eqb (n_Service prod) "") &&
  isBrowserExecuted prod && producerKeyIsRelativeURL prod (ru_Producer rule).

(** The index a producer is matched against. *)
Definition choose_index (rule : Rule) (norms : list Normalizer) (env : NormalizeEnv) (targetSvc : string)
    (prod : Node) (cs : candSet) : consumerIndexes :=
  let '(cands, idx) := cs in
  if prefers_own rule prod targetSvc then
    let ownIdx := buildConsumerIndexes (filterByService cands (n_Service prod)) (ru_Consumer rule) norms env in
    if fst (matchProducer rule norms env ownIdx prod no_result) then ownIdx else idx
  else idx.

(** What becomes of a producer once its candidates are known. *)
Definition link_with (rule : Rule) (norms : list Normalizer) (links : list Link) (targetSvc : string)
    (prod : Node) (cs : candSet) (st : Result * gset string) : Result * gset string :=
  let env := mkEnv (n_Service prod) targetSvc links in
  let idx := choose_index rule norms env targetSvc prod cs in
  let keyCands := ParseKeyCandidates (meta_of prod "key_candidates") in
  let '(r, seen) := st in
  let '(matched, r') :=
    match keyCands with
    | [] => matchProducer rule norms env idx prod r
    | _ => match_candidates rule norms env idx prod keyCands r
    end in
  if matched then (r', seen) else applyUnmatched prod rule targetSvc (r', seen).

Record linkState : Type := mkLinkState {
  ls_result : Result * gset string; ls_cache : gmap string candSet
}.

Definition link_producer (rule : Rule) (norms : list Normalizer) (links : list Link)
    (consumers : list Node) (st : linkState) (prod : Node) : linkState :=
  if str_eqb (meta_of prod "key_dynamic") "true" then
    mkLinkState (applyDynamicUnmatched prod rule (fst (ls_result st)), snd (ls_result st)) (ls_cache st)
  else
    let targetSvc := target_service rule prod in
    let ck := targetSvc +:+ nul +:+ n_Service prod in
    let '(cs, cache) :=
      match ls_cache st !! ck with
      | Some cs => (cs, ls_cache st)
      | None =>
          let cs := make_candidates rule norms links consumers targetSvc (n_Service prod) in
          (cs, <[ck := cs]> (ls_cache st))
      end in
    mkLinkState (link_with rule norms links targetSvc prod cs (ls_result st)) cache.

(** None where a normalizer is not registered: resolveNormalizers panics. *)
Definition resolveNormalizers (names : list string) : option (list Normalizer) :=
  match find_normalizers names with Ok fns => Some fns | Err _ => None end.

Definition link_rule (nodes : list Node) (links : list Link) (st : Result * gset string) (rule : Rule) :
    option (Result * gset string) :=
  norms ← resolveNormalizers (ru_Normalizers rule);
  let '(producers, consumers) := partitionNodes nodes rule in
  let producers := dedupeProducers producers (ru_Producer rule) in
  Some (ls_result (fold_left (link_producer rule norms links consumers) producers (mkLinkState st ∅))).

Fixpoint link_rules (nodes : list Node) (links : list Link) (rules : list Rule) (st : Result * gset string) :
    option (Result * gset string) :=
  match rules with
  | [] => Some st
  | rule :: rules' => link_rule nodes links st rule ≫= link_rules nodes links rules'
  end.

(** Engine.Link *)
Definition Link_ (nodes : list Node) (rules : list Rule) (links : list Link) : option Result :=
  fst <$> link_rules nodes links rules (no_result, ∅).
End link.
