(* ===== verification/CtEngineSpec.v ===== *)
(** What the contract engine answers: the indexes hold every consumer under
    its keys, a lookup returns the consumers of the first tier that any
    consumer meets, and every edge and every producer of a link is accounted
    for. *)
From S2P Require Import Prelude GoStrings Regex GrModel GrVerdict GrResolve Group CtNormalize CtEngine.

(** ** When a consumer meets a key *)

Definition tier_meets (key ck : string * string) (tier : MatchTier) : bool :=
  match tier with
  | TierExact => str_eqb (fst key) (fst ck)
  | TierNormalized => str_eqb (snd key) (snd ck)
  | TierWildcardAnchored =>
      let '(kp, kpre) := splitAtFirstSlash (snd key) in
      let '(cp, cpre) := splitAtFirstSlash (snd ck) in
      hasLiteralSegment kp && str_eqb kpre cpre && pathMatchesPattern kp cp
  | TierExchangeOnly =>
      match splitFirstField (snd key), splitFirstField (snd ck) with
      | Some (kh, kr), Some (ch, cr) =>
          negb (str_eqb kh "") && str_eqb ch kh && (topicIsOpen kr || topicIsOpen cr)
      | _, _ => false
      end
  end.

(** How specific the meeting is: only wildcards are graded. *)
Definition specificity (key ck : string * string) (tier : MatchTier) : nat :=
  match tier with
  | TierWildcardAnchored => wildcardAnchorScore (fst (splitAtFirstSlash (snd key))) (fst (splitAtFirstSlash (snd ck)))
  | _ => 0
  end.

Definition tier_confidence (tier : MatchTier) : string :=
  match tier with
  | TierExact => ConfidenceStatic
  | TierNormalized | TierWildcardAnchored => ConfidenceInferred
  | TierExchangeOnly => ConfidencePartial
  end.

Section lookup.
Context (spec : EndpointSpec) (norms : list Normalizer) (env : NormalizeEnv).

(** The consumers with a key, under their keys. *)
Definition keyed (cands : list Node) : list ((string * string) * Node) :=
  omap (fun c => ck ← node_key spec norms env c ∅; Some (ck, c)) cands.

(** The consumers a tier answers a key with: of those that meet it, the most
    specific. *)
Definition answers (key : string * string) (tier : MatchTier) (cands : list Node) : list Node :=
  let ks := keyed cands in
  map snd (List.filter (fun kc => tier_meets key (fst kc) tier &&
    forallb (fun kc' => negb (tier_meets key (fst kc') tier) ||
                        (specificity key (fst kc') tier <=? specificity key (fst kc) tier)) ks) ks).

Abbreviation idx_of := (fun cands => buildConsumerIndexes cands spec norms env).

Definition push_to (o : option (list Node)) (kc : (string * string) * Node) : list Node :=
  default [] o ++ [snd kc].

(** Distinct values, in the order they are first seen. *)
Fixpoint first_seen (seen : list string) (l : list string) : list string :=
  match l with
  | [] => seen
  | k :: l' => first_seen (if decide (k ∈ seen) then seen else seen ++ [k]) l'
  end.

Lemma first_seen_snoc seen l k :
  first_seen seen (l ++ [k]) =
    (if decide (k ∈ first_seen seen l) then first_seen seen l else first_seen seen l ++ [k]).
Proof. revert seen. induction l as [|x l IH]; intros seen; cbn; [done|apply IH]. Qed.

Lemma first_seen_spec l seen : NoDup seen ->
  NoDup (first_seen seen l) /\ forall k, k ∈ first_seen seen l <-> k ∈ seen \/ k ∈ l.
Proof.
  revert seen. induction l as [|x l IH]; intros seen Hs; cbn.
  { split; [done|]. intros k. split; [by left|intros [?|?%not_elem_of_nil]; done]. }
  destruct (IH (if decide (x ∈ seen) then seen else seen ++ [x])) as [H1 H2].
  { case_decide; [done|]. apply NoDup_app. split_and!; [done| |apply NoDup_singleton].
    intros y Hy ->%list_elem_of_singleton. done. }
  split; [done|]. intros k. rewrite H2, elem_of_cons. case_decide; [naive_solver|].
  rewrite elem_of_app, list_elem_of_singleton. naive_solver.
Qed.

(** The indexes are the consumers grouped by their two keys. *)
Lemma index_groups cands :
  idx_of cands = mkIndexes (group (fun kc => fst (fst kc)) push_to (keyed cands))
    (group (fun kc => snd (fst kc)) push_to (keyed cands))
    (first_seen [] (map (fun kc => snd (fst kc)) (keyed cands))).
Proof.
  unfold buildConsumerIndexes. induction cands as [|c cands IH] using rev_ind; [done|].
  rewrite fold_left_app. cbn [fold_left]. rewrite IH. unfold keyed, index_consumer.
  rewrite omap_app. cbn [omap list_omap].
  destruct (node_key spec norms env c ∅) as [[rawKey normKey]|]; cbn; [|by rewrite app_nil_r].
  fold (keyed cands). rewrite map_app. cbn [map fst snd]. rewrite first_seen_snoc.
  rewrite !group_snoc. unfold push, group_step, push_to. cbn [fst snd].
  set (g := group (fun kc : string * string * Node => snd (fst kc)) push_to (keyed cands)).
  assert (Hd : is_Some (g !! normKey) <-> normKey ∈ first_seen [] (map (fun kc => snd (fst kc)) (keyed cands))).
  { unfold g. rewrite group_dom. destruct (first_seen_spec (map (fun kc => snd (fst kc)) (keyed cands)) [])
      as [_ ->]; [constructor|]. rewrite list_elem_of_fmap. split.
    - intros (x & Hx & <-). right. by exists x.
    - intros [?%not_elem_of_nil|(x & -> & Hx)]; [done|]. by exists x. }
  fold push_to. fold g. destruct (g !! normKey) as [cs|].
  - rewrite decide_True; [done|]. by apply Hd.
  - rewrite decide_False; [done|]. intros [? [=]]%Hd.
Qed.

Lemma push_all (l : list ((string * string) * Node)) :
  default [] (fold_left (fun o x => Some (push_to o x)) l None) = map snd l.
Proof.
  induction l as [|x l IH] using rev_ind; [done|]. rewrite fold_left_app, map_app, <- IH. done.
Qed.

Lemma exact_lookup cands k :
  default [] (ix_exact (idx_of cands) !! k) = map snd (having (fun kc => fst (fst kc)) k (keyed cands)).
Proof. cbn beta. rewrite index_groups. cbn [ix_exact]. by rewrite group_lookup, push_all. Qed.

Lemma norm_lookup cands k :
  consumers_of (idx_of cands) k = map snd (having (fun kc => snd (fst kc)) k (keyed cands)).
Proof. unfold consumers_of. cbn beta. rewrite index_groups. cbn [ix_norm]. by rewrite group_lookup, push_all. Qed.

Lemma norm_keys cands :
  let ks := ix_normKeys (idx_of cands) in
  NoDup ks /\ forall k, k ∈ ks <-> exists kc, kc ∈ keyed cands /\ snd (fst kc) = k.
Proof.
  cbn. rewrite index_groups. cbn [ix_normKeys].
  destruct (first_seen_spec (map (fun kc => snd (fst kc)) (keyed cands)) []) as [H1 H2]; [constructor|].
  split; [done|]. intros k. rewrite H2, list_elem_of_fmap. split.
  - intros [?%not_elem_of_nil|(x & -> & Hx)]; [done|]. by exists x.
  - intros (x & Hx & <-). right. by exists x.
Qed.

Lemma having_test (test : string -> bool) k (l : list ((string * string) * Node)) :
  having (fun kc => snd (fst kc)) k (List.filter (fun kc => test (snd (fst kc))) l) =
  if test k then having (fun kc => snd (fst kc)) k l else [].
Proof.
  unfold having. destruct (test k) eqn:Ek; induction l as [|x xs IH]; cbn; try done;
    destruct (test (snd (fst x))) eqn:Et; cbn; try case_bool_decide; cbn; congruence.
Qed.

(** A scan of the keys in order, keeping those a test accepts, finds the
    consumers whose key it accepts. *)
Lemma scan_keys (test : string -> bool) cands :
  flat_map (fun k => if test k then consumers_of (idx_of cands) k else []) (ix_normKeys (idx_of cands)) ≡ₚ
  map snd (List.filter (fun kc => test (snd (fst kc))) (keyed cands)).
Proof.
  destruct (norm_keys cands) as [Hnd Hks].
  set (ks := ix_normKeys (idx_of cands)) in *.
  set (l := List.filter (fun kc : string * string * Node => test (snd (fst kc))) (keyed cands)).
  rewrite <- (having_partition (fun kc => snd (fst kc)) ks l Hnd).
  - rewrite flat_map_concat_map, concat_map, map_map. apply eq_subrelation; [apply _|]. f_equal.
    apply map_ext. intros k. rewrite norm_lookup. unfold l. rewrite having_test. by destruct (test k).
  - intros x Hx. apply Hks. exists x. split; [|done]. by apply elem_of_bfilter in Hx as [Hx _].
Qed.
(** ** Tiers *)

(** Ungraded tiers: every consumer that meets the key answers it. *)
Lemma answers_ungraded key tier cands : tier <> TierWildcardAnchored ->
  answers key tier cands = map snd (List.filter (fun kc => tier_meets key (fst kc) tier) (keyed cands)).
Proof.
  intros Ht. unfold answers. f_equal. apply List.filter_ext. intros kc.
  replace (forallb _ _) with true; [apply andb_true_r|]. symmetry. apply forallb_forall. intros kc' _.
  destruct tier; try done; apply orb_true_r.
Qed.

Lemma best_score_spec ms : (forall m, m ∈ ms -> snd m <= best_score ms) /\
  (best_score ms = 0 \/ exists m, m ∈ ms /\ snd m = best_score ms).
Proof.
  unfold best_score. induction ms as [|m ms IH] using rev_ind.
  { split; [|by left]. by intros m ?%not_elem_of_nil. }
  rewrite fold_left_app. cbn [fold_left]. destruct IH as [IH1 IH2]. set (b := fold_left _ ms 0) in *.
  replace (if b <? snd m then snd m else b) with (b `max` snd m) by (destruct (Nat.ltb_spec b (snd m)); lia).
  destruct (Nat.max_spec b (snd m)) as [[? ->]|[? ->]]; split.
  - intros m' [Hm'|Hm'%list_elem_of_singleton]%elem_of_app; [specialize (IH1 m' Hm'); lia|by subst].
  - right. exists m. split; [|done]. apply elem_of_app. right. by apply list_elem_of_singleton.
  - intros m' [Hm'|Hm'%list_elem_of_singleton]%elem_of_app; [by apply IH1|by subst].
  - destruct IH2 as [?|(m' & Hm' & ?)]; [by left|]. right. exists m'. split; [|done]. apply elem_of_app. by left.
Qed.

(** A key a wildcarded key may stand for, and how well. *)
Definition wild_ok (key consKey : string) : bool :=
  let '(kp, kpre) := splitAtFirstSlash key in
  let '(cp, cpre) := splitAtFirstSlash consKey in
  str_eqb kpre cpre && pathMatchesPattern kp cp.
Definition wild_score (key consKey : string) : nat :=
  wildcardAnchorScore (fst (splitAtFirstSlash key)) (fst (splitAtFirstSlash consKey)).

Lemma wildcard_matches_ok key ks :
  wildcard_matches key ks = map (fun k => (k, wild_score key k)) (List.filter (wild_ok key) ks).
Proof.
  unfold wildcard_matches. destruct (splitAtFirstSlash key) as [kp kpre] eqn:E.
  induction ks as [|k ks IH]; [done|]. cbn [flat_map List.filter]. rewrite IH.
  assert (Hw : wild_ok key k = let '(cp, cpre) := splitAtFirstSlash k in
    str_eqb kpre cpre && pathMatchesPattern kp cp) by (unfold wild_ok; by rewrite E).
  assert (Hs : wild_score key k = wildcardAnchorScore kp (fst (splitAtFirstSlash k)))
    by (unfold wild_score; by rewrite E).
  rewrite Hw. destruct (splitAtFirstSlash k) as [cp cpre]. destruct (str_eqb kpre cpre); [|done].
  cbn [negb andb]. destruct (pathMatchesPattern kp cp); [|done]. cbn [map app]. by rewrite Hs.
Qed.

Lemma wildcard_hits key ks (f : string -> list Node) b :
  flat_map (fun m => if snd m <? b then [] else f (fst m)) (wildcard_matches key ks) =
  flat_map (fun k => if wild_ok key k && negb (wild_score key k <? b) then f k else []) ks.
Proof.
  rewrite wildcard_matches_ok. induction ks as [|k ks IH]; [done|]. cbn [List.filter flat_map].
  destruct (wild_ok key k); cbn [map flat_map andb fst snd]; [|done]. rewrite IH.
  by destruct (wild_score key k <? b).
Qed.

Lemma wildcard_answers key cands :
  fst (wildcardScan (snd key) (idx_of cands)) ≡ₚ answers key TierWildcardAnchored cands.
Proof.
  destruct (norm_keys cands) as [_ Hks]. unfold wildcardScan.
  assert (Hm : forall ck, tier_meets key ck TierWildcardAnchored =
    hasLiteralSegment (fst (splitAtFirstSlash (snd key))) && wild_ok (snd key) (snd ck)).
  { intros ck. unfold tier_meets, wild_ok. destruct (splitAtFirstSlash (snd key)), (splitAtFirstSlash (snd ck)).
    cbn. by rewrite andb_assoc. }
  destruct (hasLiteralSegment (fst (splitAtFirstSlash (snd key)))) eqn:El; cbn [negb fst].
  2:{ unfold answers. replace (List.filter _ (keyed cands)) with (@nil (string * string * Node)); [done|].
      symmetry. apply filter_none. intros kc. by rewrite Hm. }
  rewrite wildcard_hits, scan_keys. unfold answers. apply eq_subrelation; [apply _|]. f_equal.
  set (ks := ix_normKeys (idx_of cands)) in *.
  destruct (best_score_spec (wildcard_matches (snd key) ks)) as [Hmax Hatt].
  set (b := best_score _) in *. rewrite wildcard_matches_ok in Hmax, Hatt.
  apply filter_ext_in. intros kc Hkc%list_elem_of_In. rewrite Hm. cbn [andb].
  destruct (wild_ok (snd key) (snd (fst kc))) eqn:Ew; cbn [andb]; [|done].
  apply eq_true_iff_eq. rewrite negb_true_iff, Nat.ltb_ge, forallb_forall. split.
  - intros Hb kc' Hkc'%list_elem_of_In. rewrite Hm. destruct (wild_ok (snd key) (snd (fst kc'))) eqn:Ew'; cbn; [|done].
    apply Nat.leb_le. fold (wild_score (snd key) (snd (fst kc'))). fold (wild_score (snd key) (snd (fst kc))).
    transitivity b; [|done].
    apply (Hmax (snd (fst kc'), wild_score (snd key) (snd (fst kc')))).
    apply list_elem_of_fmap. exists (snd (fst kc')). split; [done|]. apply elem_of_bfilter. split; [|done].
    apply Hks. by exists kc'.
  - intros Hall. destruct Hatt as [->|(m & Hm' & <-)]; [lia|].
    apply list_elem_of_fmap in Hm' as (k & -> & Hk). apply elem_of_bfilter in Hk as [Hk Hok].
    apply Hks in Hk as (kc' & Hkc' & <-). cbn [snd]. specialize (Hall kc' ltac:(by apply list_elem_of_In)).
    rewrite Hm, Hok in Hall. by apply Nat.leb_le in Hall.
Qed.

Lemma exchange_answers key cands :
  exchangeOnlyScan (snd key) (idx_of cands) ≡ₚ answers key TierExchangeOnly cands.
Proof.
  rewrite answers_ungraded by done. unfold exchangeOnlyScan. cbn [tier_meets].
  destruct (splitFirstField (snd key)) as [[kh kr]|].
  2:{ by rewrite filter_none. }
  destruct (str_eqb kh "") eqn:Eh.
  { rewrite filter_none; [done|]. intros kc. by destruct (splitFirstField (snd (fst kc))) as [[? ?]|]. }
  rewrite <- (scan_keys (fun k => match splitFirstField k with
    | Some (ch, cr) => str_eqb ch kh && (topicIsOpen kr || topicIsOpen cr) | None => false end)).
  apply eq_subrelation; [apply _|]. apply flat_map_ext. intros k.
  destruct (splitFirstField k) as [[ch cr]|]; [|done].
  by destruct (str_eqb ch kh), (topicIsOpen kr), (topicIsOpen cr).
Qed.

Lemma tier_hits_answers key tier cands : let '(hits, conf, _, _) := tier_hits (fst key) (snd key) (idx_of cands) tier in
  hits ≡ₚ answers key tier cands /\ conf = tier_confidence tier.
Proof.
  destruct tier; cbn [tier_hits].
  - split; [|done]. rewrite answers_ungraded, exact_lookup by done. apply eq_subrelation; [apply _|].
    f_equal. apply List.filter_ext. intros kc. cbn. by rewrite str_eqb_decide.
  - split; [|done]. rewrite answers_ungraded, norm_lookup by done. apply eq_subrelation; [apply _|].
    f_equal. apply List.filter_ext. intros kc. cbn. by rewrite str_eqb_decide.
  - pose proof (wildcard_answers key cands) as H. cbn beta in H.
    destruct (wildcardScan (snd key) (buildConsumerIndexes cands spec norms env)). by split.
  - split; [|done]. apply exchange_answers.
Qed.
(** ** What a lookup returns *)

Definition meets (key : string * string) (tier : MatchTier) (cands : list Node) (c : Node) : Prop :=
  c ∈ cands /\ exists ck, node_key spec norms env c ∅ = Some ck /\ tier_meets key ck tier = true.

Lemma elem_of_keyed cands ck c : (ck, c) ∈ keyed cands <-> c ∈ cands /\ node_key spec norms env c ∅ = Some ck.
Proof.
  unfold keyed. rewrite list_elem_of_omap. split.
  - intros (c' & Hc & H). destruct (node_key spec norms env c' ∅) as [ck'|] eqn:E; [|done].
    cbn in H. injection H as <- <-. done.
  - intros [Hc E]. exists c. by rewrite E.
Qed.

Lemma answers_meet key tier cands c : c ∈ answers key tier cands -> meets key tier cands c.
Proof.
  intros ([ck c'] & -> & H)%list_elem_of_fmap. apply elem_of_bfilter in H as [Hk Hb].
  apply andb_true_iff in Hb as [Hm _]. apply elem_of_keyed in Hk as [Hc Hk]. split; [done|]. by exists ck.
Qed.

(** A tier answers as soon as one consumer meets the key. *)
Lemma answers_some key tier cands c : meets key tier cands c -> answers key tier cands <> [].
Proof.
  intros (Hc & ck & Hk & Hm). set (ks := List.filter (fun kc => tier_meets key (fst kc) tier) (keyed cands)).
  assert (Hmax : forall l, l <> [] -> (forall kc, kc ∈ l -> kc ∈ ks) ->
    exists kc, kc ∈ l /\ forall kc', kc' ∈ l -> specificity key (fst kc') tier <= specificity key (fst kc) tier).
  { intros l. induction l as [|x l IH]; [done|]. intros _ Hin. destruct (decide (l = [])) as [->|Hne].
    - exists x. split; [left|]. by intros ? ->%list_elem_of_singleton.
    - destruct IH as (y & Hy & Hmax); [done|intros; apply Hin; by right|].
      destruct (le_lt_dec (specificity key (fst x) tier) (specificity key (fst y) tier)) as [Hle|Hlt].
      + exists y. split; [by right|]. intros z [->|Hz]%elem_of_cons; [done|by apply Hmax].
      + exists x. split; [left|]. intros z [->|Hz]%elem_of_cons; [done|]. specialize (Hmax z Hz). lia. }
  assert (Hin : (ck, c) ∈ ks) by (apply elem_of_bfilter; split; [by apply elem_of_keyed|done]).
  destruct (Hmax ks) as ([ck1 c1] & H1 & Hbest); [intros E; rewrite E in Hin; by apply not_elem_of_nil in Hin|done|].
  apply elem_of_bfilter in H1 as [H1 Hm1]. intros E.
  apply (not_elem_of_nil c1). rewrite <- E. apply list_elem_of_fmap. exists (ck1, c1). split; [done|].
  apply elem_of_bfilter. split; [done|]. apply andb_true_iff. split; [done|]. apply forallb_forall.
  intros kc' Hkc'%list_elem_of_In. destruct (tier_meets key (fst kc') tier) eqn:Em; [|done]. cbn.
  apply Nat.leb_le, Hbest, elem_of_bfilter. by split.
Qed.

(** The first tier that some consumer meets, and its answer. *)
Definition first_answer (key : string * string) (tiers : list MatchTier) (cands : list Node)
    (hits : list Node) (conf : string) : Prop :=
  (hits = [] /\ forall tier c, tier ∈ tiers -> ~ meets key tier cands c) \/
  exists before tier after, tiers = before ++ tier :: after /\
    (forall t c, t ∈ before -> ~ meets key t cands c) /\
    hits ≡ₚ answers key tier cands /\ hits <> [] /\ conf = tier_confidence tier.

Lemma findMatches_first key tiers cands :
  let '(hits, conf, _, _) := findMatches (fst key) (snd key) tiers (idx_of cands) in
  first_answer key tiers cands hits conf.
Proof.
  induction tiers as [|tier tiers IH]; cbn [findMatches].
  { left. split; [done|]. by intros ? ? ?%not_elem_of_nil. }
  pose proof (tier_hits_answers key tier cands) as Ht. cbn beta in *.
  destruct (tier_hits _ _ _ tier) as [[[hits conf] mm] q]. destruct Ht as [Hp ->].
  destruct hits as [|h hits].
  - assert (Hnone : forall c, ~ meets key tier cands c).
    { intros c Hc. apply (answers_some _ _ _ _ Hc). by apply Permutation_nil. }
    destruct (findMatches _ _ tiers _) as [[[hits conf] mm'] q'].
    destruct IH as [[-> Hno]|(t1 & t & t2 & -> & Hno & Hrest)].
    + left. split; [done|]. intros t c [->|Ht]%elem_of_cons; [apply Hnone|by apply Hno].
    + right. exists (tier :: t1), t, t2. split; [done|]. split; [|done].
      intros t' c [->|Ht]%elem_of_cons; [apply Hnone|by apply Hno].
  - right. exists [], tier, tiers. split; [done|]. split; [by intros ? ? ?%not_elem_of_nil|]. done.
Qed.
End lookup.

(** C16: a lookup in the indexes built over the candidate consumers returns, up
    to order, the consumers that meet the key in the first tier of the rule in
    which any of them does (of the consumers that meet a wildcarded key only
    the most specific ones), with that tier's confidence; it returns nothing
    only when no consumer meets the key in any tier. *)
Theorem findMatches_exact spec norms env rawKey normKey tiers cands :
  let '(hits, conf, _, _) := findMatches rawKey normKey tiers (buildConsumerIndexes cands spec norms env) in
  first_answer spec norms env (rawKey, normKey) tiers cands hits conf.
Proof. exact (findMatches_first spec norms env (rawKey, normKey) tiers cands). Qed.
