(* ===== verification/CtLinkSpec.v ===== *)
(** What linking the services of a workspace answers: the memo of candidate
    sets is invisible, every edge is justified by a rule and a meeting of keys,
    every producer is accounted for, and of the nodes that describe one call
    site the best evidenced is kept. *)
From S2P Require Import Prelude GoStrings Regex GrModel GrVerdict GrResolve Group.
From S2P Require Import CtNormalize CtEngine CtEngineSpec.

(** ** What one producer adds *)

(** The values a producer is read with where it names none itself: the methods
    of the rule, one at a time, where the key has a method the producer leaves
    out. *)
Inductive method_guess (prod : Node) (spec : EndpointSpec) : Overrides -> Prop :=
| as_written :
    sp_MethodFallback spec = [] \/ "method" ∉ sp_Key spec \/ meta_of prod "method" <> "" ->
    method_guess prod spec ∅
| guessed m :
    m ∈ sp_MethodFallback spec -> "method" ∈ sp_Key spec -> meta_of prod "method" = "" ->
    method_guess prod spec {[ "method" := m ]}.

(** A field of the key that neither the producer nor a fallback gives a value. *)
Definition lacks_value (prod : Node) (spec : EndpointSpec) (field : string) : Prop :=
  meta_of prod field = "" /\ ~ (field = "method" /\ sp_MethodFallback spec <> []) /\
  forall fb, fb ∈ default [] (sp_KeyFallbacks spec !! field) -> meta_of prod fb = "".

(** The producer read with one of its key candidates: the candidate in the
    first field without a value, and a guessed method. *)
Definition candidate_reading (prod : Node) (spec : EndpointSpec) (cs : list string) (ov : Overrides) : Prop :=
  exists c m base, c ∈ cs /\ method_guess prod spec m /\ ov = m ∪ base /\
    ((exists pre f post, sp_Key spec = pre ++ f :: post /\ lacks_value prod spec f /\
        (forall g, g ∈ pre -> ~ lacks_value prod spec g) /\ base = (if decide (f = "") then ∅ else {[ f := c ]})) \/
     (forall g, g ∈ sp_Key spec -> ~ lacks_value prod spec g) /\ base = ∅).

(** The producer, read with [ov], meets the key of [hit] in a tier of the rule
    that the service policy lets through; [hit] is one of the consumers [P]. *)
Definition looks_up (rule : Rule) (norms : list Normalizer) (env : NormalizeEnv) (P : Node -> Prop)
    (prod : Node) (ov : Overrides) (label : string) (tier : MatchTier) (hit : Node) : Prop :=
  let raw := buildRawFields prod (ru_Producer rule) ov in
  let key := (Key raw, Key (applyNormsToFields raw norms env)) in
  keyVoided raw (applyNormsToFields raw norms env) = false /\ label = snd key /\
  tier ∈ ru_Match rule /\ P hit /\
  (exists ck, node_key (ru_Consumer rule) norms env hit ∅ = Some ck /\ tier_meets key ck tier = true) /\
  sameServiceAllowed (es_SameService (ru_Edge rule)) prod hit = true.

(** The edge of such a lookup. *)
Definition lookup_edge (rule : Rule) (norms : list Normalizer) (env : NormalizeEnv) (P : Node -> Prop)
    (prod : Node) (ov : Overrides) (tier : MatchTier) (e : Edge) : Prop :=
  exists label hit, looks_up rule norms env P prod ov label tier hit /\
    ed_From e = n_ID prod /\ ed_To e = n_ID hit /\ ed_Type e = es_Type (ru_Edge rule) /\ ed_Label e = label /\
    ed_ID e = edge_id rule (n_ID prod) (n_ID hit).

(** An edge of the producer's own key, no more confident than the tier and the
    producer's ceiling allow. *)
Definition plain_edge (rule : Rule) (norms : list Normalizer) (env : NormalizeEnv) (P : Node -> Prop)
    (prod : Node) (OV : Overrides -> Prop) (e : Edge) : Prop :=
  exists ov tier, OV ov /\ lookup_edge rule norms env P prod ov tier e /\
    ConfidenceRank (ed_Confidence e) <= ConfidenceRank (tier_confidence tier) /\
    (has_meta prod "confidence_ceiling" = true ->
     ConfidenceRank (ed_Confidence e) <= ConfidenceRank (meta_of prod "confidence_ceiling")).

(** An edge of one of several candidate keys: inferred, whatever the tier. *)
Definition branch_edge (rule : Rule) (norms : list Normalizer) (env : NormalizeEnv) (P : Node -> Prop)
    (prod : Node) (OV : Overrides -> Prop) (e : Edge) : Prop :=
  exists ov tier, OV ov /\ lookup_edge rule norms env P prod ov tier e /\
    ed_Confidence e = ConfidenceInferred /\ meta_get (ed_Meta e) "via" = "branch_enum".

(** An edge the producer justifies; [cs] are its key candidates. *)
Definition matched_edge (rule : Rule) (norms : list Normalizer) (env : NormalizeEnv) (P : Node -> Prop)
    (cs : list string) (prod : Node) (e : Edge) : Prop :=
  match cs with
  | [] => plain_edge rule norms env P prod (method_guess prod (ru_Producer rule)) e
  | _ => branch_edge rule norms env P prod (candidate_reading prod (ru_Producer rule) cs) e
  end.

Lemma lookup_edge_mono rule norms env (P Q : Node -> Prop) prod ov tier e : (forall x, P x -> Q x) ->
  lookup_edge rule norms env P prod ov tier e -> lookup_edge rule norms env Q prod ov tier e.
Proof.
  intros H (label & hit & (H1 & H2 & H3 & H4 & H5) & Hrest). exists label, hit. split; [|done].
  unfold looks_up. split_and!; try done; [by apply H|apply H5..].
Qed.

Lemma plain_edge_mono rule norms env (P Q : Node -> Prop) prod (O1 O2 : Overrides -> Prop) e :
  (forall x, P x -> Q x) -> (forall ov, O1 ov -> O2 ov) ->
  plain_edge rule norms env P prod O1 e -> plain_edge rule norms env Q prod O2 e.
Proof.
  intros HP HO (ov & tier & H1 & H2 & H3). exists ov, tier. split; [auto|]. split; [|done].
  by eapply lookup_edge_mono.
Qed.

Lemma branch_edge_mono rule norms env (P Q : Node -> Prop) prod (O1 O2 : Overrides -> Prop) e :
  (forall x, P x -> Q x) -> (forall ov, O1 ov -> O2 ov) ->
  branch_edge rule norms env P prod O1 e -> branch_edge rule norms env Q prod O2 e.
Proof.
  intros HP HO (ov & tier & H1 & H2 & H3). exists ov, tier. split; [auto|]. split; [|done].
  by eapply lookup_edge_mono.
Qed.

Lemma matched_edge_mono rule norms env (P Q : Node -> Prop) cs prod e : (forall x, P x -> Q x) ->
  matched_edge rule norms env P cs prod e -> matched_edge rule norms env Q cs prod e.
Proof. intros H. destruct cs; [by apply plain_edge_mono|by apply branch_edge_mono]. Qed.

(** ** The readings are those the code tries *)

Lemma candidateMethodOverrides_spec prod spec ov :
  ov ∈ candidateMethodOverrides prod spec <-> method_guess prod spec ov.
Proof.
  unfold candidateMethodOverrides. destruct (sp_MethodFallback spec) as [|f fs] eqn:Ef.
  { rewrite list_elem_of_singleton. split; [intros ->; constructor; by left|].
    destruct 1 as [|m Hm]; [done|]. rewrite Ef in Hm. by apply not_elem_of_nil in Hm. }
  assert (Hin : existsb (str_eqb "method") (sp_Key spec) = true <-> "method" ∈ sp_Key spec).
  { rewrite existsb_exists. setoid_rewrite <- list_elem_of_In. split.
    - intros (x & Hx & <-%Stdlib.Strings.String.eqb_eq). done.
    - intros H. exists "method". by rewrite Stdlib.Strings.String.eqb_refl. }
  assert (Hm : has_meta prod "method" = true <-> meta_of prod "method" <> "").
  { unfold has_meta. by rewrite negb_true_iff, Stdlib.Strings.String.eqb_neq. }
  destruct (existsb _ (sp_Key spec)) eqn:Ek; cbn [negb].
  - destruct (has_meta prod "method") eqn:Eh.
    + rewrite list_elem_of_singleton. split; [intros ->; constructor; right; right; by apply Hm|].
      destruct 1 as [|m _ _ E]; [done|]. exfalso. by apply (proj1 Hm eq_refl).
    + rewrite list_elem_of_fmap. split.
      * intros (m & -> & H). apply guessed; [by rewrite Ef|by apply Hin|].
        destruct (decide (meta_of prod "method" = "")) as [?|H']; [done|]. apply Hm in H'. congruence.
      * destruct 1 as [[H|[H|H]]|m Hmem _ _]; [congruence|by destruct H; apply Hin|apply Hm in H; congruence|].
        exists m. by rewrite <- Ef.
  - rewrite list_elem_of_singleton. split.
    + intros ->. constructor. right; left. intros H%Hin. congruence.
    + destruct 1 as [|m _ H]; [done|]. apply Hin in H. congruence.
Qed.

Lemma is_dynamic_field_spec prod spec f : is_dynamic_field prod spec f = true <-> lacks_value prod spec f.
Proof.
  unfold is_dynamic_field, lacks_value, has_meta.
  destruct (Stdlib.Strings.String.eqb_spec (meta_of prod f) "") as [E|E]; cbn [negb]; [|naive_solver].
  assert (Hf : negb (length (sp_MethodFallback spec) =? 0) = true <-> sp_MethodFallback spec <> [])
    by by destruct (sp_MethodFallback spec).
  assert (Hx : negb (existsb (fun k => negb (str_eqb (meta_of prod k) "")) (default [] (sp_KeyFallbacks spec !! f))) = true <->
    forall fb, fb ∈ default [] (sp_KeyFallbacks spec !! f) -> meta_of prod fb = "").
  { rewrite negb_true_iff, <- not_true_iff_false, existsb_exists. setoid_rewrite <- list_elem_of_In. split.
    - intros H fb Hfb. destruct (decide (meta_of prod fb = "")) as [|Hne]; [done|]. destruct H. exists fb.
      split; [done|]. by apply negb_true_iff, Stdlib.Strings.String.eqb_neq.
    - intros H (k & Hk & Hn%negb_true_iff%Stdlib.Strings.String.eqb_neq). by apply Hn, H. }
  destruct (Stdlib.Strings.String.eqb_spec f "method") as [->|Hm]; cbn [andb].
  - destruct (negb (length _ =? 0)) eqn:El; [|rewrite Hx; split; [intros H; split_and!; [done| |done]|tauto]].
    + split; [done|]. intros (_ & H & _). destruct H. split; [done|]. by apply Hf.
    + intros [_ Hne]. apply Hf in Hne. congruence.
  - rewrite Hx. naive_solver.
Qed.

Lemma findDynamicKeyField_spec prod spec :
  (exists pre f post, sp_Key spec = pre ++ f :: post /\ lacks_value prod spec f /\
     (forall g, g ∈ pre -> ~ lacks_value prod spec g) /\ findDynamicKeyField prod spec = f) \/
  (forall g, g ∈ sp_Key spec -> ~ lacks_value prod spec g) /\ findDynamicKeyField prod spec = "".
Proof.
  unfold findDynamicKeyField. induction (sp_Key spec) as [|k ks IH]; cbn.
  { right. split; [by intros ? ?%not_elem_of_nil|done]. }
  destruct (is_dynamic_field prod spec k) eqn:E.
  - left. exists [], k, ks. split_and!; [done|by apply is_dynamic_field_spec|by intros ? ?%not_elem_of_nil|done].
  - assert (Hk : ~ lacks_value prod spec k) by (rewrite <- is_dynamic_field_spec; congruence).
    destruct IH as [(pre & f & post & -> & Hf & Hpre & ->)|[Hall ->]].
    + left. exists (k :: pre), f, post. split_and!; [done|done| |done]. intros g [->|Hg]%elem_of_cons; auto.
    + right. split; [|done]. intros g [->|Hg]%elem_of_cons; auto.
Qed.

Lemma candidate_reading_intro prod spec cs c m : c ∈ cs -> m ∈ candidateMethodOverrides prod spec ->
  candidate_reading prod spec cs
    (mergeOverrides (if str_eqb (findDynamicKeyField prod spec) "" then ∅ else {[findDynamicKeyField prod spec := c]}) m).
Proof.
  intros Hc Hm%candidateMethodOverrides_spec. eexists c, m, _. split_and!; [done|done|reflexivity|].
  destruct (findDynamicKeyField_spec prod spec) as [(pre & f & post & Hk & Hf & Hpre & ->)|[Hall ->]].
  - left. exists pre, f, post. split_and!; [done..|].
    destruct (Stdlib.Strings.String.eqb_spec f ""), (decide (f = "")); congruence.
  - right. done.
Qed.

(** Only edges are added, each justified by [P]. *)
Definition grows (P : Edge -> Prop) (r r' : Result) : Prop :=
  exists es, r' = add_edges es r /\ Forall P es.

Lemma add_edges_nil r : add_edges [] r = r.
Proof. destruct r. unfold add_edges. cbn. by rewrite app_nil_r. Qed.

Lemma grows_refl P r : grows P r r.
Proof. exists []. by rewrite add_edges_nil. Qed.

Lemma grows_trans P r1 r2 r3 : grows P r1 r2 -> grows P r2 r3 -> grows P r1 r3.
Proof.
  intros (es1 & -> & H1) (es2 & -> & H2). exists (es1 ++ es2). split.
  - unfold add_edges. cbn. by rewrite app_assoc.
  - by apply Forall_app.
Qed.

Lemma grows_impl (P Q : Edge -> Prop) r r' : (forall e, P e -> Q e) -> grows P r r' -> grows Q r r'.
Proof. intros H (es & -> & Hes). exists es. split; [done|]. by eapply Forall_impl. Qed.

Lemma cap_rank conf ceiling : ConfidenceRank (capConfidence conf ceiling) <= ConfidenceRank conf /\
  (str_eqb ceiling "" = false -> ConfidenceRank (capConfidence conf ceiling) <= ConfidenceRank ceiling).
Proof.
  unfold capConfidence. destruct (str_eqb ceiling ""); [done|].
  destruct (Nat.ltb_spec (ConfidenceRank ceiling) (ConfidenceRank conf)); split; intros; lia.
Qed.

Lemma tier_rank tier : 1 <= ConfidenceRank (tier_confidence tier).
Proof. destruct tier; vm_compute; lia. Qed.

Lemma edge_confidence_rank prod tier eligible :
  ConfidenceRank (edge_confidence prod (tier_confidence tier) eligible) <= ConfidenceRank (tier_confidence tier) /\
  (has_meta prod "confidence_ceiling" = true ->
   ConfidenceRank (edge_confidence prod (tier_confidence tier) eligible) <=
   ConfidenceRank (meta_of prod "confidence_ceiling")) /\
  (1 < distinctTargetServices eligible ->
   ConfidenceRank (edge_confidence prod (tier_confidence tier) eligible) <= ConfidenceRank ConfidencePartial).
Proof.
  unfold edge_confidence. set (c := if 1 <? distinctTargetServices eligible then _ else _).
  destruct (cap_rank c (meta_of prod "confidence_ceiling")) as [H1 H2].
  assert (Hc : ConfidenceRank c <= ConfidenceRank (tier_confidence tier)).
  { unfold c. pose proof (tier_rank tier). destruct (1 <? _); [|done]. change (ConfidenceRank ConfidencePartial) with 1. lia. }
  split_and!; [lia| |].
  - intros H. apply H2. unfold has_meta in H. by apply negb_true_iff in H.
  - intros Hd. unfold c in H1 |- *. apply Nat.ltb_lt in Hd. rewrite Hd in *. exact H1.
Qed.

Section producer.
Context (via_order : list (string * string) -> list (string * string)).
Context (json_strings : string -> option (list string)).
Context (rule : Rule) (norms : list Normalizer) (env : NormalizeEnv) (cands : list Node) (prod : Node).

Abbreviation idx := (buildConsumerIndexes cands (ru_Consumer rule) norms env).
Abbreviation among := (fun c => c ∈ cands).

(** The hits of a lookup meet the key in a tier of the rule. *)
Lemma lookup_hits ov : let raw := buildRawFields prod (ru_Producer rule) ov in
  let norm := applyNormsToFields raw norms env in
  let '(hits, conf, _, _) := findMatches (Key raw) (Key norm) (ru_Match rule) idx in
  keyVoided raw norm = false ->
  forall hit, hit ∈ eligible_hits rule prod hits -> exists tier, conf = tier_confidence tier /\
    looks_up rule norms env among prod ov (Key norm) tier hit.
Proof.
  intros raw norm. pose proof (findMatches_first (ru_Consumer rule) norms env (Key raw, Key norm) (ru_Match rule) cands) as H.
  cbn [fst snd] in H. destruct (findMatches _ _ _ _) as [[[hits conf] mm] q]. intros Hv hit Hh.
  apply elem_of_bfilter in Hh as [Hh Hs]. destruct H as [[-> _]|(t1 & tier & t2 & Ht & _ & Hp & _ & ->)].
  { by apply not_elem_of_nil in Hh. }
  exists tier. split; [done|]. unfold looks_up. split_and!; try done.
  - rewrite Ht, elem_of_app, elem_of_cons. auto.
  - rewrite Hp in Hh. by apply answers_meet in Hh as [? _].
  - rewrite Hp in Hh. by apply answers_meet in Hh as [_ ?].
Qed.

Lemma node_key_some spec n ov rawKey normKey : node_key spec norms env n ov = Some (rawKey, normKey) ->
  let raw := buildRawFields n spec ov in
  rawKey = Key raw /\ normKey = Key (applyNormsToFields raw norms env) /\
  keyVoided raw (applyNormsToFields raw norms env) = false.
Proof.
  unfold node_key. destruct (keyIsEmpty _); [done|]. destruct (keyVoided _ _) eqn:E; [done|].
  by intros [= <- <-].
Qed.

Lemma try_overrides_grows ovs r :
  let '(b, r') := try_overrides via_order rule norms env idx prod ovs r in
  grows (plain_edge rule norms env among prod (fun ov => ov ∈ ovs)) r r' /\ (if b then re_Edges r' <> re_Edges r else r' = r).
Proof.
  assert (Hmono : forall ov ovs r r', grows (plain_edge rule norms env among prod (fun o => o ∈ ovs)) r r' ->
    grows (plain_edge rule norms env among prod (fun o => o ∈ ov :: ovs)) r r').
  { intros ov l r0 r1. apply grows_impl. intros e. apply plain_edge_mono; [done|]. intros o Ho. by right. }
  revert r. induction ovs as [|ov ovs IH]; intros r; cbn [try_overrides]; [by split; [apply grows_refl|]|].
  assert (Hskip : let '(b, r') := try_overrides via_order rule norms env idx prod ovs r in
    grows (plain_edge rule norms env among prod (fun o => o ∈ ov :: ovs)) r r' /\
    (if b then re_Edges r' <> re_Edges r else r' = r)).
  { specialize (IH r). destruct (try_overrides _ _ _ _ _ _ _ r) as [b r']. destruct IH. auto. }
  destruct (node_key (ru_Producer rule) norms env prod ov) as [[rawKey normKey]|] eqn:Ek; [|done].
  apply node_key_some in Ek as (-> & -> & Hv). pose proof (lookup_hits ov) as Hl. cbn zeta in Hl.
  destruct (findMatches _ _ _ _) as [[[hits conf] mm] q]. specialize (Hl Hv).
  destruct (eligible_hits rule prod hits) as [|h hs] eqn:Eh; [done|].
  destruct (suppressed prod (h :: hs)) eqn:Es; [done|]. split.
  - eexists. split; [done|]. apply Forall_fmap, Forall_forall. intros hit Hhit.
    destruct (Hl hit Hhit) as (tier & -> & Hk). exists ov, tier.
    destruct (edge_confidence_rank prod tier (h :: hs)) as (H1 & H2 & _).
    split; [left|]. split; [|by cbn]. by eexists _, hit.
  - cbn [re_Edges add_edges map]. intros E. rewrite <- (app_nil_r (re_Edges r)) in E at 2. by apply app_inv_head in E.
Qed.

Lemma bestMethodOverride_in ovs ov : bestMethodOverride rule norms env idx prod ovs = Some ov -> ov ∈ ovs.
Proof.
  unfold bestMethodOverride.
  assert (H : forall l st, (fold_left (probe_method rule norms env idx prod) l st).2 = st.2 \/
    exists ov, ov ∈ l /\ (fold_left (probe_method rule norms env idx prod) l st).2 = Some ov).
  { induction l as [|o l IH]; intros st; [by left|]. cbn [fold_left].
    assert (Hp : (probe_method rule norms env idx prod st o).2 = st.2 \/
      (probe_method rule norms env idx prod st o).2 = Some o).
    { unfold probe_method. destruct (node_key _ _ _ _ _) as [[rk nk]|]; [|by left].
      destruct (findMatches _ _ _ _) as [[[hits c] mm] q]. destruct (eligible_hits _ _ _); [by left|].
      destruct (_ <? _)%Z; [by right|by left]. }
    destruct (IH (probe_method rule norms env idx prod st o)) as [E|(o' & Ho & E)]; rewrite E.
    - destruct Hp as [->|Hp]; [by left|]. right. exists o. split; [left|done].
    - right. exists o'. split; [by right|done]. }
  destruct (H ovs ((-1)%Z, None)) as [->|(o & Ho & ->)]; [done|]. by intros [= <-].
Qed.

(** The overrides matchProducer tries are readings of the producer. *)
Lemma tried_overrides ov : ov ∈ (if 1 <? length (candidateMethodOverrides prod (ru_Producer rule)) then
    match bestMethodOverride rule norms env idx prod (candidateMethodOverrides prod (ru_Producer rule)) with
    | Some best => [best]
    | None => candidateMethodOverrides prod (ru_Producer rule)
    end else candidateMethodOverrides prod (ru_Producer rule)) -> method_guess prod (ru_Producer rule) ov.
Proof.
  rewrite <- candidateMethodOverrides_spec. destruct (1 <? _); [|done].
  destruct (bestMethodOverride _ _ _ _ _ _) as [b|] eqn:E; [|done].
  intros ->%list_elem_of_singleton. by apply bestMethodOverride_in.
Qed.

Lemma matchProducer_grows r : let '(b, r') := matchProducer via_order rule norms env idx prod r in
  grows (plain_edge rule norms env among prod (method_guess prod (ru_Producer rule))) r r' /\
  (if b then re_Edges r' <> re_Edges r else r' = r).
Proof.
  unfold matchProducer. pose proof tried_overrides as Ht. cbv zeta. set (ovs := if _ <? _ then _ else _) in *.
  pose proof (try_overrides_grows ovs r) as H. destruct (try_overrides _ _ _ _ _ _ ovs r) as [b r'].
  destruct H as [H1 H2]. split; [|done]. eapply grows_impl; [|exact H1].
  intros e. by apply plain_edge_mono.
Qed.

(** No tier says anything about the way a key was found. *)
Lemma match_meta_via rawKey normKey tiers :
  let '(_, _, mm, _) := findMatches rawKey normKey tiers idx in mm !! "via" = None.
Proof.
  induction tiers as [|tier tiers IH]; cbn [findMatches]; [done|].
  assert (Hm : let '(_, _, mm, _) := tier_hits rawKey normKey idx tier in mm !! "via" = None).
  { destruct tier; cbn [tier_hits]; [done..| |done]. destruct (wildcardScan normKey idx).
    unfold wildcardMatchMeta. by destruct (splitPath _). }
  destruct (tier_hits rawKey normKey idx tier) as [[[[|h hs] conf] mm] q]; done.
Qed.

Lemma try_candidate_grows (OV : Overrides -> Prop) base ms r : (forall m, m ∈ ms -> OV (mergeOverrides base m)) ->
  let '(b, r') := try_candidate rule norms env idx prod base ms r in
  grows (branch_edge rule norms env among prod OV) r r' /\ (if b then re_Edges r' <> re_Edges r else r' = r).
Proof.
  induction ms as [|m ms IH]; intros HO; cbn [try_candidate]; [by split; [apply grows_refl|]|].
  specialize (IH (fun m' H => HO m' (list_elem_of_further _ _ _ H))).
  destruct (keyVoided _ _) eqn:Hv; [done|].
  pose proof (lookup_hits (mergeOverrides base m)) as Hl. cbn zeta in Hl.
  destruct (findMatches _ _ _ _) as [[[hits conf] mm] q] eqn:Em. specialize (Hl Hv).
  destruct (eligible_hits rule prod hits) as [|h hs] eqn:Eh; [done|]. split.
  - eexists. split; [done|]. apply Forall_fmap, Forall_forall. intros hit Hhit.
    destruct (Hl hit Hhit) as (tier & -> & Hk). exists (mergeOverrides base m), tier.
    split; [apply HO; left|]. split; [by eexists _, hit|]. split; [done|]. cbn. unfold meta_get, branch_meta.
    rewrite lookup_union_r; [done|]. pose proof (match_meta_via (Key (buildRawFields prod (ru_Producer rule)
      (mergeOverrides base m))) (Key (applyNormsToFields (buildRawFields prod (ru_Producer rule)
      (mergeOverrides base m)) norms env)) (ru_Match rule)) as Hm. by rewrite Em in Hm.
  - cbn [re_Edges add_edges map]. intros E. rewrite <- (app_nil_r (re_Edges r)) in E at 2. by apply app_inv_head in E.
Qed.

Lemma match_candidates_grows all cs r : (forall c, c ∈ cs -> c ∈ all) ->
  let '(b, r') := match_candidates rule norms env idx prod cs r in
  grows (branch_edge rule norms env among prod (candidate_reading prod (ru_Producer rule) all)) r r' /\
  (if b then re_Edges r' <> re_Edges r else r' = r).
Proof.
  unfold match_candidates. set (dyn := findDynamicKeyField prod (ru_Producer rule)).
  induction cs as [|c cs IH] using rev_ind; intros Hall; [by split; [apply grows_refl|]|].
  rewrite fold_left_app. cbn [fold_left].
  specialize (IH (fun c' H => Hall c' (proj2 (elem_of_app cs [c] c') (or_introl H)))).
  destruct (fold_left _ cs _) as [any r1].
  unfold matchProducerWithKeyOverride.
  pose proof (try_candidate_grows (candidate_reading prod (ru_Producer rule) all)
    (if str_eqb dyn "" then ∅ else {[dyn := c]})
    (candidateMethodOverrides prod (ru_Producer rule)) r1) as Hc.
  destruct (try_candidate _ _ _ _ _ _ _ r1) as [b r2]. destruct IH as [G1 H1], Hc as [G2 H2].
  { intros m Hm. apply candidate_reading_intro; [|done]. apply Hall, elem_of_app. right. left. }
  split; [by eapply grows_trans|]. destruct b; cbn.
  - rewrite orb_true_r. destruct G1 as (es1 & -> & _), G2 as (es2 & -> & _). cbn. intros E.
    apply H2. cbn. rewrite <- app_assoc in E. rewrite <- (app_nil_r (re_Edges r)) in E at 2.
    apply app_inv_head, app_eq_nil in E as [-> ->]. by rewrite !app_nil_r.
  - rewrite orb_false_r. subst r2. done.
Qed.

(** What a producer adds, in either way. *)
Lemma match_grows cs r :
  let '(b, r') := match cs with
    | [] => matchProducer via_order rule norms env idx prod r
    | _ => match_candidates rule norms env idx prod cs r
    end in
  grows (matched_edge rule norms env among cs prod) r r' /\ (if b then re_Edges r' <> re_Edges r else r' = r).
Proof. destruct cs as [|c cs]; [apply matchProducer_grows|by apply (match_candidates_grows (c :: cs))]. Qed.
End producer.

(** ** What a rule adds *)

(** The nodes an endpoint of a rule speaks of. *)
Record admitted (spec : EndpointSpec) (n : Node) : Prop := {
  ad_live : IsTestFilePath (n_File n) = false;
  ad_type : n_Type n = sp_Node spec;
  ad_where : forall k v, sp_Where spec !! k = Some v -> where_ok n (k, v) = true;
  ad_not : forall k v, sp_NotWhere spec !! k = Some v -> meta_of n k <> v
}.

Definition is_producer (nodes : list Node) (rule : Rule) (n : Node) : Prop :=
  n ∈ nodes /\ admitted (ru_Producer rule) n.

(** The consumers of a service, of any when none is named. *)
Definition is_consumer (nodes : list Node) (rule : Rule) (svc : string) (n : Node) : Prop :=
  n ∈ nodes /\ admitted (ru_Consumer rule) n /\ (svc <> "" -> n_Service n = svc).

Lemma admits_spec spec n : admits spec n = true /\ IsTestFilePath (n_File n) = false <-> admitted spec n.
Proof.
  unfold admits, matchesWhere, matchesNotWhere. rewrite !andb_true_iff, !forallb_forall.
  rewrite Stdlib.Strings.String.eqb_eq. split.
  - intros [[[H1 H2] H3] H4]. split; [done|done| |].
    + intros k v Hk. apply (H2 (k, v)), list_elem_of_In, elem_of_map_to_list, Hk.
    + intros k v Hk E. specialize (H3 (k, v)). cbn in H3. rewrite E, Stdlib.Strings.String.eqb_refl in H3.
      enough (negb true = true) by done. by apply H3, list_elem_of_In, elem_of_map_to_list.
  - intros [H1 H2 H3 H4]. split; [|done]. split_and!; [done| |].
    + intros [k v] Hk%list_elem_of_In%elem_of_map_to_list. by apply H3.
    + intros [k v] Hk%list_elem_of_In%elem_of_map_to_list. cbn.
      apply negb_true_iff, Stdlib.Strings.String.eqb_neq. by apply H4.
Qed.

(** What the code takes for a rule's producers, one for a call site, and for
    its consumers in a service. *)
Definition producers_of (nodes : list Node) (rule : Rule) : list Node :=
  dedupeProducers (fst (partitionNodes nodes rule)) (ru_Producer rule).
Definition consumers_in (nodes : list Node) (rule : Rule) (svc : string) : list Node :=
  filterByService (snd (partitionNodes nodes rule)) svc.

Lemma elem_of_partition nodes rule n :
  (n ∈ fst (partitionNodes nodes rule) <-> is_producer nodes rule n) /\
  (n ∈ snd (partitionNodes nodes rule) <-> n ∈ nodes /\ admitted (ru_Consumer rule) n).
Proof.
  unfold is_producer. cbn [partitionNodes fst snd]. rewrite !elem_of_bfilter, <- !admits_spec, negb_true_iff. tauto.
Qed.

Lemma consumers_in_spec nodes rule svc n : n ∈ consumers_in nodes rule svc -> is_consumer nodes rule svc n.
Proof.
  unfold consumers_in, filterByService, is_consumer.
  destruct (Stdlib.Strings.String.eqb_spec svc "") as [->|Hs].
  - intros [? ?]%(elem_of_partition nodes rule). done.
  - intros [[? ?]%(elem_of_partition nodes rule) E%Stdlib.Strings.String.eqb_eq]%elem_of_bfilter. done.
Qed.

Definition is_dynamic (prod : Node) : bool := str_eqb (meta_of prod "key_dynamic") "true".

(** The edge to the node that stands for a service whose endpoint is unknown. *)
Definition unknown_edge (rule : Rule) (prod : Node) (r : Result) (e : Edge) : Prop :=
  ru_Unmatched rule = UnmatchedUnknownEdge /\
  e = contract_edge rule (n_ID prod) (synth_id (target_service rule prod)) (raw_key prod rule)
        ConfidenceUnknown {[ "confidence" := ConfidenceUnknown ]} /\
  synth_node (target_service rule prod) ∈ re_Nodes r.

(** An edge of the result [r] the producer gives rise to; [candidates] reads
    the list of key candidates. *)
Definition edge_for (candidates : string -> option (list string)) (nodes : list Node) (links : list Link)
    (rule : Rule) (r : Result) (prod : Node) (e : Edge) : Prop :=
  exists norms, resolveNormalizers (ru_Normalizers rule) = Some norms /\ is_dynamic prod = false /\
    (matched_edge rule norms (mkEnv (n_Service prod) (target_service rule prod) links)
       (is_consumer nodes rule (target_service rule prod))
       (ParseKeyCandidates candidates (meta_of prod "key_candidates")) prod e \/ unknown_edge rule prod r e).

Definition justified (candidates : string -> option (list string)) (nodes : list Node) (links : list Link)
    (rule : Rule) (r : Result) (e : Edge) : Prop :=
  exists prod, is_producer nodes rule prod /\ edge_for candidates nodes links rule r prod e.

(** The ledger's entries for a producer without a key and without a match. *)
Definition dynamic_ref (rule : Rule) (prod : Node) : UnresolvedRef :=
  mkUnresolvedRef (n_Service prod) (n_File prod) (n_Line prod) (meta_of prod "key_dynamic_raw")
    (dynamicKindFor (ru_Kind rule)) "".
Definition unmatched_ref (rule : Rule) (prod : Node) : UnresolvedRef :=
  mkUnresolvedRef (n_Service prod) (n_File prod) (n_Line prod) (raw_key prod rule) (ru_Kind rule) "".

(** What became of a producer the rule did not match. *)
Definition unmatched (rule : Rule) (r : Result) (prod : Node) : Prop :=
  (exists e, e ∈ re_Edges r /\ unknown_edge rule prod r e) \/
  (ru_Unmatched rule = UnmatchedLedger /\ unmatched_ref rule prod ∈ re_Unresolved r) \/
  ru_Unmatched rule = UnmatchedDrop.

(** A producer is in the ledger, or has an edge of its own, unless the rule
    says that unmatched producers are dropped. *)
Definition accounted (candidates : string -> option (list string)) (nodes : list Node) (links : list Link)
    (rule : Rule) (r : Result) (prod : Node) : Prop :=
  if is_dynamic prod then dynamic_ref rule prod ∈ re_Unresolved r
  else (exists e, e ∈ re_Edges r /\ edge_for candidates nodes links rule r prod e) \/
       (ru_Unmatched rule = UnmatchedLedger /\ unmatched_ref rule prod ∈ re_Unresolved r) \/
       ru_Unmatched rule = UnmatchedDrop.

(** The synthetic targets: one node each, and what was seen is what is there. *)
Definition synth_ok (st : Result * gset string) : Prop :=
  NoDup (map n_ID (re_Nodes (fst st))) /\
  (forall id, id ∈ snd st <-> id ∈ map n_ID (re_Nodes (fst st))) /\
  forall n, n ∈ re_Nodes (fst st) -> exists svc, n = synth_node svc.

(** A step that only appends, edges that satisfy [P]. *)
Definition appends (P : Edge -> Prop) (r r' : Result) : Prop :=
  exists es ns us, re_Edges r' = re_Edges r ++ es /\ re_Nodes r' = re_Nodes r ++ ns /\
    re_Unresolved r' = re_Unresolved r ++ us /\ Forall P es.

Lemma appends_refl P r : appends P r r.
Proof. exists [], [], []. by rewrite !app_nil_r. Qed.

Lemma appends_trans (P : Edge -> Prop) r1 r2 r3 : appends P r1 r2 -> appends P r2 r3 -> appends P r1 r3.
Proof.
  intros (es1 & ns1 & us1 & E1 & E2 & E3 & H1) (es2 & ns2 & us2 & F1 & F2 & F3 & H2).
  exists (es1 ++ es2), (ns1 ++ ns2), (us1 ++ us2). rewrite F1, F2, F3, E1, E2, E3, !app_assoc.
  split_and!; try done. by apply Forall_app.
Qed.

Lemma appends_impl (P Q : Edge -> Prop) r r' : (forall e, P e -> Q e) -> appends P r r' -> appends Q r r'.
Proof.
  intros H (es & ns & us & E1 & E2 & E3 & H1). exists es, ns, us. split_and!; try done. by eapply Forall_impl.
Qed.

Lemma grows_appends P r r' : grows P r r' -> appends P r r'.
Proof. intros (es & -> & H). exists es, [], []. cbn. by rewrite !app_nil_r. Qed.

Lemma synth_id_inj t t' : synth_id t = synth_id t' -> t = t'.
Proof.
  unfold synth_id. destruct (Stdlib.Strings.String.eqb_spec t "") as [->|H],
    (Stdlib.Strings.String.eqb_spec t' "") as [->|H']; cbn; try done; intros E; by injection E.
Qed.

Lemma applyUnmatched_spec prod rule r seen : synth_ok (r, seen) ->
  let '(r', seen') := applyUnmatched prod rule (target_service rule prod) (r, seen) in
  synth_ok (r', seen') /\ appends (unknown_edge rule prod r') r r' /\ unmatched rule r' prod.
Proof.
  intros (Hn & Hs & Ht). unfold applyUnmatched, unmatched. cbn [fst snd] in *.
  destruct (ru_Unmatched rule) eqn:Eu.
  - set (svc := target_service rule prod).
    set (e := contract_edge rule (n_ID prod) (synth_id svc) _ _ _).
    assert (Hin : forall nodes, synth_node svc ∈ nodes -> (exists ns, nodes = re_Nodes r ++ ns) ->
      let r' := mkResult (re_Edges r ++ [e]) nodes (re_Unresolved r) in
      appends (unknown_edge rule prod r') r r' /\
      (exists e', e' ∈ re_Edges r' /\ unknown_edge rule prod r' e')).
    { intros nodes Hin [ns ->] r'. split.
      - exists [e], ns, []. cbn. rewrite app_nil_r. split_and!; try done. apply Forall_singleton. by split.
      - exists e. split; [|by split]. cbn. apply elem_of_app. right. left. }
    case_decide as Hseen.
    + apply Hs, list_elem_of_fmap in Hseen as (n & Hid & Hnode). destruct (Ht n Hnode) as [t ->].
      cbn in Hid. apply synth_id_inj in Hid. subst t.
      destruct (Hin (re_Nodes r) Hnode) as [H1 H2]; [exists []; by rewrite app_nil_r|]. by split_and!; [| |left].
    + destruct (Hin (re_Nodes r ++ [synth_node svc])) as [H1 H2];
        [apply elem_of_app; right; left|by eexists|]. split; [|by split; [|left]]. split_and!; cbn.
      * rewrite map_app. apply NoDup_app. split_and!; [done| |apply NoDup_singleton].
        intros id Hid ->%list_elem_of_singleton. by apply Hseen, Hs.
      * intros id. rewrite map_app, elem_of_app, elem_of_union, elem_of_singleton, Hs. cbn.
        rewrite list_elem_of_singleton. tauto.
      * intros n [Hn'|Hn'%list_elem_of_singleton]%elem_of_app; [by apply Ht|]. by exists svc.
  - split; [done|]. split.
    + exists [], [], [unmatched_ref rule prod]. cbn. by rewrite !app_nil_r.
    + right. left. split; [done|]. cbn. apply elem_of_app. right. left.
  - split; [done|]. split; [apply appends_refl|]. by right; right.
Qed.

Lemma filterByService_sub l svc c : c ∈ filterByService l svc -> c ∈ l.
Proof. unfold filterByService. destruct (str_eqb svc ""); [done|]. by intros [H _]%elem_of_bfilter. Qed.

Lemma filterBySameServicePolicy_sub l policy svc c : c ∈ filterBySameServicePolicy l policy svc -> c ∈ l.
Proof.
  unfold filterBySameServicePolicy. destruct (str_eqb policy "skip"); [by intros [H _]%elem_of_bfilter|].
  destruct (str_eqb policy "same_service_only"); [by intros [H _]%elem_of_bfilter|done].
Qed.

Lemma unknown_edge_mono rule prod r r' e : (forall n, n ∈ re_Nodes r -> n ∈ re_Nodes r') ->
  unknown_edge rule prod r e -> unknown_edge rule prod r' e.
Proof. intros H (H1 & H2 & H3). split_and!; auto. Qed.

Lemma edge_for_mono candidates nodes links rule P r r' prod e : appends P r r' ->
  edge_for candidates nodes links rule r prod e -> edge_for candidates nodes links rule r' prod e.
Proof.
  intros (es & ns & us & _ & En & _) (norms & H1 & H2 & H3). exists norms.
  split_and!; try done. destruct H3 as [H3|H3]; [by left|right]. eapply unknown_edge_mono; [|exact H3].
  intros n Hn. rewrite En, elem_of_app. by left.
Qed.

Lemma justified_mono candidates nodes links rule P r r' e : appends P r r' ->
  justified candidates nodes links rule r e -> justified candidates nodes links rule r' e.
Proof. intros H (prod & H1 & H2). exists prod. split; [done|]. by eapply edge_for_mono. Qed.

Lemma accounted_mono candidates nodes links rule P r r' prod : appends P r r' ->
  accounted candidates nodes links rule r prod -> accounted candidates nodes links rule r' prod.
Proof.
  intros Hap. pose proof Hap as (es & ns & us & Ee & _ & Eu & _). unfold accounted. rewrite Ee, Eu.
  destruct (is_dynamic prod); [rewrite elem_of_app; auto|].
  intros [(e & He & Hf)|[[Hp Hu]|Hd]]; [left; exists e|right; left|right; right]; rewrite ?elem_of_app; [|auto..].
  split; [auto|]. by eapply edge_for_mono.
Qed.

Section link.
Context (via_order : list (string * string) -> list (string * string)).
Context (json_strings : string -> option (list string)).
Context (nodes : list Node) (links : list Link).

Abbreviation link_with' := (link_with via_order json_strings).
Abbreviation justified' := (justified json_strings nodes links).
Abbreviation accounted' := (accounted json_strings nodes links).

(** What a step for the producer keeps and adds. *)
Definition step_ok (rule : Rule) (st st' : Result * gset string) : Prop :=
  synth_ok st -> synth_ok st' /\ appends (justified' rule (fst st')) (fst st) (fst st').

Lemma step_ok_trans rule st1 st2 st3 : step_ok rule st1 st2 -> step_ok rule st2 st3 -> step_ok rule st1 st3.
Proof.
  intros H1 H2 H. destruct (H1 H) as [S1 A1]. destruct (H2 S1) as [S2 A2]. split; [done|].
  eapply appends_trans; [|exact A2]. eapply appends_impl; [|exact A1]. intros e. by apply (justified_mono _ _ _ _ _ _ _ _ A2).
Qed.

Definition candidates (rule : Rule) (norms : list Normalizer) (prod : Node) : candSet :=
  make_candidates rule norms links (snd (partitionNodes nodes rule)) (target_service rule prod) (n_Service prod).

Lemma synth_ok_grows P r r' seen : grows P r r' -> synth_ok (r, seen) -> synth_ok (r', seen).
Proof. intros (es & -> & _) H. exact H. Qed.

(** One producer, with its own candidates. *)
Lemma link_with_spec rule norms prod st : resolveNormalizers (ru_Normalizers rule) = Some norms ->
  is_producer nodes rule prod -> is_dynamic prod = false ->
  let st' := link_with' rule norms links (target_service rule prod) prod (candidates rule norms prod) st in
  step_ok rule st st' /\ (synth_ok st -> accounted' rule (fst st') prod).
Proof.
  intros Hn Hp Hd. unfold link_with. set (env := mkEnv (n_Service prod) (target_service rule prod) links).
  set (idx := choose_index _ _ _ _ _ _ _).
  assert (Hidx : exists cands, idx = buildConsumerIndexes cands (ru_Consumer rule) norms env /\
    forall c, c ∈ cands -> c ∈ consumers_in nodes rule (target_service rule prod)).
  { unfold idx, choose_index, candidates, make_candidates. set (cs := filterBySameServicePolicy _ _ _).
    assert (Hcs : forall c, c ∈ cs -> c ∈ consumers_in nodes rule (target_service rule prod)).
    { intros c Hc. by apply filterBySameServicePolicy_sub in Hc. }
    destruct (prefers_own _ _ _); [destruct (fst (matchProducer _ _ _ _ _ _ _))|]; try (by exists cs).
    exists (filterByService cs (n_Service prod)). split; [done|]. intros c Hc. by apply Hcs, (filterByService_sub _ _ _ Hc). }
  destruct Hidx as (cands & Eidx & Hsub). destruct st as [r seen]. rewrite Eidx.
  pose proof (match_grows via_order rule norms env cands prod
    (ParseKeyCandidates json_strings (meta_of prod "key_candidates")) r) as Hm.
  destruct (match ParseKeyCandidates _ _ with [] => _ | _ => _ end) as [b r'] eqn:Em.
  destruct Hm as [G Hb].
  assert (Hmatched : forall e, matched_edge rule norms env (fun c => c ∈ cands)
      (ParseKeyCandidates json_strings (meta_of prod "key_candidates")) prod e ->
    forall r1, edge_for json_strings nodes links rule r1 prod e).
  { intros e He r1. exists norms. split_and!; [done..|left]. eapply matched_edge_mono; [|exact He].
    intros c Hc. by apply consumers_in_spec, Hsub. }
  destruct b.
  - split.
    + intros Hs. split; [by eapply synth_ok_grows|]. apply grows_appends. eapply grows_impl; [|exact G].
      intros e He. exists prod. auto.
    + intros _. unfold accounted. rewrite Hd. left. destruct G as (es & -> & Hes). cbn [fst add_edges re_Edges] in *.
      destruct es as [|e es]; [by rewrite app_nil_r in Hb|]. apply Forall_cons in Hes as [He _]. exists e.
      split; [|auto]. apply elem_of_app. right. left.
  - subst r'. pose proof (applyUnmatched_spec prod rule r seen) as Hu.
    destruct (applyUnmatched prod rule (target_service rule prod) (r, seen)) as [r' seen'].
    assert (Hun : forall e, unknown_edge rule prod r' e -> edge_for json_strings nodes links rule r' prod e).
    { intros e He. exists norms. split_and!; [done..|by right]. }
    split.
    + intros Hs. destruct (Hu Hs) as (H1 & H2 & _). split; [done|].
      eapply appends_impl; [|exact H2]. intros e He. exists prod. auto.
    + intros Hs. destruct (Hu Hs) as (_ & _ & H3). unfold accounted. rewrite Hd.
      destruct H3 as [(e & He & H3)|H3]; [left; eauto|by right].
Qed.

(** The memo holds nothing but the candidates of its key. *)
Definition nul_free (s : string) : Prop := forall a b, s <> a +:+ nul +:+ b.

Lemma cache_key_inj t1 s1 t2 s2 : nul_free t1 -> nul_free t2 ->
  t1 +:+ nul +:+ s1 = t2 +:+ nul +:+ s2 -> t1 = t2 /\ s1 = s2.
Proof.
  revert t2. induction t1 as [|c t1 IH]; intros t2 H1 H2 E.
  - destruct t2 as [|d t2]; [by injection E|]. injection E as <- E. by destruct (H2 "" t2).
  - destruct t2 as [|d t2]; [injection E as -> E; by destruct (H1 "" t1)|]. injection E as -> E.
    destruct (IH t2) as [-> ->]; [..|done|done].
    + intros a b ->. by apply (H1 (String d a) b).
    + intros a b ->. by apply (H2 (String d a) b).
Qed.

Definition cache_ok (rule : Rule) (norms : list Normalizer) (cache : gmap string candSet) : Prop :=
  forall t s cs, nul_free t -> cache !! (t +:+ nul +:+ s) = Some cs ->
    cs = make_candidates rule norms links (snd (partitionNodes nodes rule)) t s.

(** One producer, without a memo. *)
Definition link_alone (rule : Rule) (norms : list Normalizer) (st : Result * gset string) (prod : Node) :
    Result * gset string :=
  if is_dynamic prod then (applyDynamicUnmatched prod rule (fst st), snd st)
  else link_with' rule norms links (target_service rule prod) prod (candidates rule norms prod) st.

Lemma link_producer_alone rule norms st prod : nul_free (target_service rule prod) ->
  cache_ok rule norms (ls_cache st) ->
  let st' := link_producer via_order json_strings rule norms links (snd (partitionNodes nodes rule)) st prod in
  ls_result st' = link_alone rule norms (ls_result st) prod /\ cache_ok rule norms (ls_cache st').
Proof.
  intros Hf Hc. unfold link_producer, link_alone, is_dynamic. destruct (str_eqb (meta_of prod "key_dynamic") "true"); [done|].
  destruct (ls_cache st !! _) as [cs|] eqn:E; cbn [ls_result ls_cache].
  - rewrite (Hc _ _ _ Hf E). done.
  - split; [done|]. intros t s cs Ht. destruct (decide (t +:+ nul +:+ s = target_service rule prod +:+ nul +:+ n_Service prod))
      as [Ek|Ek].
    + destruct (cache_key_inj _ _ _ _ Ht Hf Ek) as [-> ->]. rewrite lookup_insert_eq. by intros [= <-].
    + rewrite lookup_insert_ne by done. by apply Hc.
Qed.

Lemma link_producers_alone rule norms ps st : (forall p, p ∈ ps -> nul_free (target_service rule p)) ->
  cache_ok rule norms (ls_cache st) ->
  ls_result (fold_left (link_producer via_order json_strings rule norms links (snd (partitionNodes nodes rule))) ps st) =
  fold_left (link_alone rule norms) ps (ls_result st).
Proof.
  revert st. induction ps as [|p ps IH]; intros st Hf Hc; [done|]. cbn [fold_left].
  destruct (link_producer_alone rule norms st p) as [E Hc']; [apply Hf; left|done|].
  rewrite IH; [|intros q Hq; apply Hf; by right|done]. by rewrite E.
Qed.

Lemma link_alone_spec rule norms prod st : resolveNormalizers (ru_Normalizers rule) = Some norms ->
  is_producer nodes rule prod ->
  let st' := link_alone rule norms st prod in
  step_ok rule st st' /\ (synth_ok st -> accounted' rule (fst st') prod).
Proof.
  intros Hn Hp. unfold link_alone. destruct (is_dynamic prod) eqn:Hd; [|by apply link_with_spec].
  destruct st as [r seen]. split.
  - intros Hs. split; [exact Hs|]. exists [], [], [dynamic_ref rule prod]. cbn. by rewrite !app_nil_r.
  - intros _. unfold accounted. rewrite Hd. cbn. apply elem_of_app. right. left.
Qed.

Lemma link_all_spec rule norms ps st : resolveNormalizers (ru_Normalizers rule) = Some norms ->
  (forall p, p ∈ ps -> is_producer nodes rule p) ->
  let st' := fold_left (link_alone rule norms) ps st in
  step_ok rule st st' /\ (synth_ok st -> forall p, p ∈ ps -> accounted' rule (fst st') p).
Proof.
  intros Hn. revert st. induction ps as [|p ps IH]; intros st Hps; cbn [fold_left].
  { split; [|by intros _ ? ?%not_elem_of_nil]. intros Hs. split; [done|apply appends_refl]. }
  destruct (link_alone_spec rule norms p st Hn) as [S1 A1]; [apply Hps; left|].
  destruct (IH (link_alone rule norms st p)) as [S2 A2]; [intros q Hq; apply Hps; by right|].
  split; [by eapply step_ok_trans|]. intros Hs q [->|Hq]%elem_of_cons.
  - destruct (S1 Hs) as [Hs1 _]. destruct (S2 Hs1) as [_ G]. eapply accounted_mono; [exact G|by apply A1].
  - apply A2; [by apply S1|done].
Qed.

(** Linking without a memo. *)
Definition link_rule_alone (st : Result * gset string) (rule : Rule) : option (Result * gset string) :=
  norms ← resolveNormalizers (ru_Normalizers rule);
  Some (fold_left (link_alone rule norms) (producers_of nodes rule) st).

Fixpoint link_rules_alone (rules : list Rule) (st : Result * gset string) : option (Result * gset string) :=
  match rules with
  | [] => Some st
  | rule :: rules' => link_rule_alone st rule ≫= link_rules_alone rules'
  end.

(** What the model asks of its input: no service a producer is aimed at has a
    zero byte in its name. *)
Definition targets_ok (rules : list Rule) : Prop :=
  forall rule n, rule ∈ rules -> n ∈ nodes -> nul_free (target_service rule n).

Lemma kept_sub (ps : list Node) keep p : p ∈ kept ps keep -> p ∈ ps.
Proof.
  unfold kept. intros ([x b] & -> & [H _]%elem_of_bfilter)%list_elem_of_fmap.
  apply list_elem_of_In, in_combine_l in H. by apply list_elem_of_In.
Qed.

Lemma producers_of_producer rule p : p ∈ producers_of nodes rule -> is_producer nodes rule p.
Proof.
  intros H. apply (elem_of_partition nodes rule). revert H. unfold producers_of, dedupeProducers.
  destruct (_ <? 2); [done|]. apply kept_sub.
Qed.

Lemma link_rule_memo rule st : (forall n, n ∈ nodes -> nul_free (target_service rule n)) ->
  link_rule via_order json_strings nodes links st rule = link_rule_alone st rule.
Proof.
  intros Hf. unfold link_rule, link_rule_alone, producers_of.
  destruct (resolveNormalizers _) as [norms|]; [|done]. unfold mbind, option_bind.
  rewrite (surjective_pairing (partitionNodes nodes rule)). cbn [fst snd]. f_equal.
  rewrite link_producers_alone; [done| |done]. intros p Hp. by apply Hf, (producers_of_producer rule).
Qed.

Lemma link_rules_memo rules st : targets_ok rules ->
  link_rules via_order json_strings nodes links rules st = link_rules_alone rules st.
Proof.
  revert st. induction rules as [|rule rules IH]; intros st Hf; [done|]. cbn.
  rewrite link_rule_memo by (intros n Hn; apply Hf; [left|done]).
  destruct (link_rule_alone st rule); [|done]. cbn. apply IH. intros r n Hr. apply Hf. by right.
Qed.

Lemma link_rules_spec rules st :
  (forall rule, rule ∈ rules -> is_Some (resolveNormalizers (ru_Normalizers rule))) -> synth_ok st ->
  exists st', link_rules_alone rules st = Some st' /\ synth_ok st' /\
    appends (fun e => exists rule, rule ∈ rules /\ justified' rule (fst st') e) (fst st) (fst st') /\
    forall rule p, rule ∈ rules -> p ∈ producers_of nodes rule -> accounted' rule (fst st') p.
Proof.
  revert st. induction rules as [|rule rules IH]; intros st Hn Hs; cbn.
  { exists st. split_and!; [done|done|apply appends_refl|]. by intros ? ? ?%not_elem_of_nil. }
  destruct (Hn rule) as [norms En]; [left|]. unfold link_rule_alone. rewrite En. cbn.
  destruct (link_all_spec rule norms (producers_of nodes rule) st En (producers_of_producer rule)) as [S1 A1].
  set (st1 := fold_left _ _ st) in *. destruct (S1 Hs) as [Hs1 G1].
  destruct (IH st1) as (st' & E & Hs' & G & A); [intros r Hr; apply Hn; by right|done|].
  exists st'. split_and!; [done|done| |].
  - eapply appends_trans.
    + eapply appends_impl; [|exact G1]. intros e He. exists rule. split; [left|]. by eapply justified_mono.
    + eapply appends_impl; [|exact G]. intros e (r & Hr & He). exists r. split; [by right|done].
  - intros r p [->|Hr]%elem_of_cons Hp; [|by apply A]. eapply accounted_mono; [exact G|]. by apply A1.
Qed.

Lemma Link_spec rules : targets_ok rules ->
  (forall rule, rule ∈ rules -> is_Some (resolveNormalizers (ru_Normalizers rule))) ->
  exists r, Link_ via_order json_strings nodes rules links = Some r /\ NoDup (map n_ID (re_Nodes r)) /\
    (forall e, e ∈ re_Edges r -> exists rule, rule ∈ rules /\ justified' rule r e) /\
    forall rule p, rule ∈ rules -> p ∈ producers_of nodes rule -> accounted' rule r p.
Proof.
  intros Hf Hn. destruct (link_rules_spec rules (no_result, ∅) Hn) as (st & E & Hs & G & A).
  { split_and!; cbn; [constructor| |by intros ? ?%not_elem_of_nil]. intros id. rewrite elem_of_nil. set_solver. }
  exists (fst st). unfold Link_. rewrite link_rules_memo, E by done. split_and!; [done|apply Hs| |done].
  intros e He. destruct G as (es & ns & us & Ee & _ & _ & Hes). rewrite Ee in He. cbn in He.
  by apply (proj1 (Forall_forall _ _) Hes).
Qed.
End link.

(** ** Properties *)

(** C14: linking never invents a connection.  With the normalizers of the rules
    registered, linking returns a result whose every edge belongs to a rule
    and one of its producers that has a static key.  It joins the producer to
    a consumer of the rule, in the service it is aimed at if any, allowed by
    the rule's same-service policy, whose key the producer's meets in a tier
    of the rule; the producer is read as it is written, but for a method it
    leaves out, and the edge is no more confident than the tier and the
    ceiling the producer carries allow.  A producer with key candidates is
    read with a candidate of its list in the first field without a value, and
    the edge is inferred, marked as one branch of several, whatever the tier.
    Or, where the rule says so, the edge leads the producer to the one
    synthetic node of the service it could not reach. *)
Theorem Link_sound via_order json_strings nodes rules links : targets_ok nodes rules ->
  (forall rule, rule ∈ rules -> is_Some (resolveNormalizers (ru_Normalizers rule))) ->
  exists r, Link_ via_order json_strings nodes rules links = Some r /\ NoDup (map n_ID (re_Nodes r)) /\
    forall e, e ∈ re_Edges r -> exists rule, rule ∈ rules /\ justified json_strings nodes links rule r e.
Proof.
  intros Hf Hn. destruct (Link_spec via_order json_strings nodes links rules Hf Hn) as (r & E & H1 & H2 & _).
  by exists r.
Qed.

(** The memo of candidate sets, kept for each rule by target service and
    producer's service, changes nothing: linking answers what it would if the
    candidates and their indexes were built afresh for every producer. *)
Theorem Link_memo_invisible via_order json_strings nodes rules links : targets_ok nodes rules ->
  Link_ via_order json_strings nodes rules links =
  fst <$> link_rules_alone via_order json_strings nodes links rules (no_result, ∅).
Proof. intros Hf. unfold Link_. by rewrite link_rules_memo. Qed.

(** ** Duplicates *)

Lemma elem_of_kept ps keep p : length keep = length ps ->
  p ∈ kept ps keep <-> exists i, ps !! i = Some p /\ keep !! i = Some true.
Proof.
  unfold kept. revert keep. induction ps as [|x ps IH]; intros [|b keep] Hl; cbn in Hl; try done; cbn.
  - split; [by intros ?%not_elem_of_nil|by intros (i & H & _)].
  - injection Hl as Hl. specialize (IH keep Hl). destruct b; cbn; [rewrite elem_of_cons|]; rewrite IH; split.
    + intros [->|(i & H1 & H2)]; [by exists 0|by exists (S i)].
    + intros ([|i] & H1 & H2); [left; by injection H1|right; by exists i].
    + intros (i & H1 & H2). by exists (S i).
    + intros ([|i] & H1 & H2); [done|by exists i].
Qed.

Lemma kept_sublist ps keep : kept ps keep `sublist_of` ps.
Proof.
  unfold kept. revert keep. induction ps as [|x ps IH]; intros keep; [by destruct keep|].
  destruct keep as [|b keep]; cbn; [apply sublist_nil_l|].
  destruct b; cbn; [by apply sublist_skip|by apply sublist_cons].
Qed.

Lemma kept_nodup {K} (key : Node -> K) ps keep : length keep = length ps ->
  (forall i j p q, ps !! i = Some p -> keep !! i = Some true -> ps !! j = Some q -> keep !! j = Some true ->
     key p = key q -> i = j) -> NoDup (map key (kept ps keep)).
Proof.
  revert keep. induction ps as [|x ps IH]; intros [|b keep] Hl H; cbn in Hl; try done; [constructor|].
  injection Hl as Hl. assert (Hrest : NoDup (map key (kept ps keep))).
  { apply IH; [done|]. intros i j p q H1 H2 H3 H4 E. specialize (H (S i) (S j) p q H1 H2 H3 H4 E). lia. }
  unfold kept in *. destruct b; cbn; [|done]. constructor; [|done].
  intros (q & E & Hq)%list_elem_of_fmap. fold (kept ps keep) in Hq. apply (elem_of_kept _ _ _ Hl) in Hq as (j & H1 & H2).
  by specialize (H 0 (S j) x q eq_refl eq_refl H1 H2 E).
Qed.

(** A producer at least as good a witness of its call site as [p] at [i]: of
    more evidence, or of the same and not later. *)
Definition outranks (i : nat) (p : Node) (j : nat) (q : Node) : Prop :=
  producerEvidenceScore p < producerEvidenceScore q \/
  producerEvidenceScore p = producerEvidenceScore q /\ j <= i.

Section dedupe.
Context (spec : EndpointSpec) (ps : list Node).

Record dedupe_inv (pre : list Node) (st : gmap string nat * list bool) : Prop := {
  di_len : length (snd st) = length pre;
  di_best : forall k i, fst st !! k = Some i -> exists p, pre !! i = Some p /\ site_key spec p = k /\ snd st !! i = Some true;
  di_kept : forall i p, pre !! i = Some p -> snd st !! i = Some true -> fst st !! site_key spec p = Some i;
  di_max : forall i p, pre !! i = Some p -> exists j q, fst st !! site_key spec p = Some j /\ pre !! j = Some q /\ outranks i p j q
}.

Lemma snoc_cases (pre : list Node) p i x : (pre ++ [p]) !! i = Some x ->
  pre !! i = Some x /\ i < length pre \/ i = length pre /\ x = p.
Proof.
  intros [H|[Hi H]]%lookup_app_Some; [left|right].
  - split; [done|]. by eapply lookup_lt_Some.
  - apply list_lookup_singleton_Some in H as [H ->]. split; [lia|done].
Qed.

Lemma lookup_snoc_l (pre : list Node) p i x : pre !! i = Some x -> (pre ++ [p]) !! i = Some x.
Proof. intros H. by apply lookup_app_l_Some. Qed.

(** A producer that takes over its call site. *)
Lemma dedupe_takes pre p bestAt keep keep0 : dedupe_inv pre (bestAt, keep) ->
  length keep0 = length keep ->
  (forall i, bestAt !! site_key spec p <> Some i -> keep0 !! i = keep !! i) ->
  (forall i q, bestAt !! site_key spec p = Some i -> pre !! i = Some q ->
     keep0 !! i = Some false /\ producerEvidenceScore q < producerEvidenceScore p) ->
  dedupe_inv (pre ++ [p]) (<[site_key spec p := length keep]> bestAt, keep0 ++ [true]).
Proof.
  intros [Hl Hb Hk Hm] Hl0 Hsame Hout. cbn [fst snd] in *. split; cbn [fst snd].
  - rewrite !length_app. cbn. lia.
  - intros k i Hi. destruct (decide (k = site_key spec p)) as [->|Hne].
    + rewrite lookup_insert_eq in Hi. injection Hi as <-. exists p. rewrite Hl.
      split_and!; [by apply list_lookup_middle|done|]. apply list_lookup_middle. lia.
    + rewrite lookup_insert_ne in Hi by done. destruct (Hb _ _ Hi) as (x & Hx & Hxk & Hxt). exists x.
      split_and!; [by apply lookup_snoc_l|done|]. apply lookup_app_l_Some. rewrite Hsame; [done|].
      intros E. destruct (Hb _ _ E) as (y & Hy & Hyk & _). congruence.
  - intros i x Hx Ht. destruct (snoc_cases _ _ _ _ Hx) as [[Hx' Hi]|[-> ->]]; [|by rewrite lookup_insert_eq, Hl].
    rewrite lookup_app_l in Ht by lia. destruct (decide (bestAt !! site_key spec p = Some i)) as [E|E].
    { destruct (Hout _ _ E Hx') as [E0 _]. congruence. }
    rewrite Hsame in Ht by done. specialize (Hk i x Hx' Ht). rewrite lookup_insert_ne; [done|]. congruence.
  - intros i x Hx. destruct (decide (site_key spec x = site_key spec p)) as [E|E].
    + rewrite E, lookup_insert_eq. exists (length keep), p. rewrite Hl. split_and!; [done|by apply list_lookup_middle|].
      destruct (snoc_cases _ _ _ _ Hx) as [[Hx' Hi]|[-> ->]]; [|right; by split].
      destruct (Hm i x Hx') as (j & y & Hj & Hy & Ho). rewrite E in Hj.
      destruct (Hout _ _ Hj Hy) as [_ Hs]. left. destruct Ho as [|[]]; lia.
    + rewrite lookup_insert_ne by done. destruct (snoc_cases _ _ _ _ Hx) as [[Hx' Hi]|[-> ->]]; [|done].
      destruct (Hm i x Hx') as (j & y & Hj & Hy & Ho). exists j, y. split_and!; [done|by apply lookup_snoc_l|done].
Qed.

(** A producer that does not. *)
Lemma dedupe_yields pre p bestAt keep prev q : dedupe_inv pre (bestAt, keep) ->
  bestAt !! site_key spec p = Some prev -> pre !! prev = Some q ->
  producerEvidenceScore p <= producerEvidenceScore q ->
  dedupe_inv (pre ++ [p]) (bestAt, keep ++ [false]).
Proof.
  intros [Hl Hb Hk Hm] Eb Hq Hs. cbn [fst snd] in *. split; cbn [fst snd].
  - rewrite !length_app. cbn. lia.
  - intros k i Hi. destruct (Hb _ _ Hi) as (x & Hx & Hxk & Hxt). exists x.
    split_and!; [by apply lookup_snoc_l|done|by apply lookup_app_l_Some].
  - intros i x Hx Ht. destruct (snoc_cases _ _ _ _ Hx) as [[Hx' Hi]|[-> ->]].
    + apply Hk; [done|]. rewrite lookup_app_l in Ht; [done|lia].
    + by rewrite list_lookup_middle in Ht.
  - intros i x Hx. destruct (snoc_cases _ _ _ _ Hx) as [[Hx' Hi]|[-> ->]].
    + destruct (Hm i x Hx') as (j & y & Hj & Hy & Ho). exists j, y. split_and!; [done|by apply lookup_snoc_l|done].
    + exists prev, q. split_and!; [done|by apply lookup_snoc_l|]. apply lookup_lt_Some in Hq.
      unfold outranks. lia.
Qed.

Lemma dedupe_inv_step pre p suf st : ps = pre ++ p :: suf -> dedupe_inv pre st ->
  dedupe_inv (pre ++ [p]) (dedupe_step spec ps st p).
Proof.
  intros Eps Hinv. destruct st as [bestAt keep]. pose proof Hinv as [Hl Hb _ _]. cbn [fst snd] in *.
  unfold dedupe_step. destruct (bestAt !! site_key spec p) as [prev|] eqn:Eb.
  - destruct (Hb _ _ Eb) as (q & Hq & Hqk & Hqt). pose proof (lookup_lt_Some _ _ _ Hq) as Hlt.
    replace (ps !! prev) with (Some q) by (symmetry; rewrite Eps; by apply lookup_app_l_Some).
    destruct (Nat.ltb_spec (producerEvidenceScore q) (producerEvidenceScore p)) as [Hs|Hs].
    + apply dedupe_takes; [done|by rewrite length_insert| |].
      * intros i Hi. rewrite Eb in Hi. rewrite list_lookup_insert_ne; [done|congruence].
      * intros i x Hi Hx. rewrite Eb in Hi. injection Hi as <-. rewrite list_lookup_insert_eq by lia.
        split; [done|congruence].
    + by eapply dedupe_yields.
  - apply dedupe_takes; try done. intros i x Hi. congruence.
Qed.

Lemma dedupe_fold suf pre st : ps = pre ++ suf -> dedupe_inv pre st ->
  dedupe_inv ps (fold_left (dedupe_step spec ps) suf st).
Proof.
  revert pre st. induction suf as [|p suf IH]; intros pre st E H; cbn [fold_left].
  { rewrite app_nil_r in E. by rewrite E. }
  apply (IH (pre ++ [p])); [by rewrite <- app_assoc|]. by eapply dedupe_inv_step.
Qed.

Lemma dedupe_all : dedupe_inv ps (fold_left (dedupe_step spec ps) ps (∅, [])).
Proof. apply (dedupe_fold ps []); [done|]. split; cbn; [done|intros k i; by rewrite lookup_empty|done|done]. Qed.

Lemma dedupeProducers_kept : dedupeProducers ps spec = kept ps (snd (fold_left (dedupe_step spec ps) ps (∅, []))).
Proof. unfold dedupeProducers. destruct ps as [|p [|q l]]; reflexivity. Qed.
End dedupe.

(** Of the producer nodes that describe one call site (the same service,
    file, line and key) exactly one is kept, the first of those with the most
    evidence; the kept producers stay in order. *)
Theorem dedupeProducers_exact ps spec :
  let out := dedupeProducers ps spec in
  out `sublist_of` ps /\ NoDup (map (site_key spec) out) /\
  forall i p, ps !! i = Some p -> exists j q, ps !! j = Some q /\ q ∈ out /\
    site_key spec q = site_key spec p /\ outranks i p j q.
Proof.
  cbn zeta. rewrite dedupeProducers_kept. destruct (dedupe_all spec ps) as [Hl Hb Hk Hm].
  set (st := fold_left _ _ _) in *. split_and!; [apply kept_sublist| |].
  - apply kept_nodup; [done|]. intros i j p q H1 H2 H3 H4 E. apply (Hk _ _ H1) in H2. apply (Hk _ _ H3) in H4. congruence.
  - intros i p Hp. destruct (Hm i p Hp) as (j & q & Hj & Hq & Ho). exists j, q.
    destruct (Hb _ _ Hj) as (q' & Hq' & Hkey & Ht). rewrite Hq in Hq'. injection Hq' as <-.
    split_and!; [done| |done|done]. apply elem_of_kept; [done|]. by exists j.
Qed.

(** ** Every call site *)

(** What the code asks of the names it joins with zero bytes. *)
Definition sites_ok (nodes : list Node) : Prop :=
  forall n, n ∈ nodes -> nul_free (n_Service n) /\ nul_free (n_File n).

Lemma digits_nul_free s : forall acc v, digits_val acc s = Some v -> nul_free s.
Proof.
  induction s as [|c s IH]; intros acc v H a b E.
  { destruct a; discriminate E. }
  cbn [digits_val] in H. destruct (digit_val c) eqn:Ec; [|done]. destruct a as [|d a].
  - injection E as -> _. vm_compute in Ec. discriminate Ec.
  - injection E as -> E. by apply (IH _ _ H a b).
Qed.

Lemma itoa_nul_free z : nul_free (itoa z).
Proof.
  destruct (Z.leb_spec 0 z) as [Hz|Hz].
  - eapply digits_nul_free, digits_val_itoa, Hz.
  - destruct z as [|q|q]; [lia..|]. intros a b E.
    change (itoa (Z.neg q)) with (String "-" (itoa (Z.pos q))) in E. destruct a as [|d a]; [discriminate E|].
    injection E as _ E. by apply (digits_nul_free _ _ _ (digits_val_itoa (Z.pos q) ltac:(lia)) a b).
Qed.

#[local] Instance itoa_inj : Inj (=) (=) itoa.
Proof. unfold itoa. apply _. Qed.

(** Two producers describe one call site when they have the service, the file,
    the line and the key in common. *)
Definition same_site (spec : EndpointSpec) (p q : Node) : Prop :=
  n_Service p = n_Service q /\ n_File p = n_File q /\ n_Line p = n_Line q /\
  Key (buildRawFields p spec ∅) = Key (buildRawFields q spec ∅).

Lemma site_key_same nodes spec p q : sites_ok nodes -> p ∈ nodes -> q ∈ nodes ->
  site_key spec p = site_key spec q -> same_site spec p q.
Proof.
  intros Hs Hp Hq E. destruct (Hs p Hp) as [P1 P2], (Hs q Hq) as [Q1 Q2]. unfold site_key in E.
  apply cache_key_inj in E as [E1 E]; [|done..]. apply cache_key_inj in E as [E2 E]; [|done..].
  apply cache_key_inj in E as [E3 E4]; [|apply itoa_nul_free..]. split_and!; [done|done| |done].
  by apply (inj itoa) in E3.
Qed.

(** C15: no call site is dropped silently.  After linking, for every node that
    is a producer of a rule there is a producer of the rule that describes the
    same call site (the same service, file, line and key), with no less
    evidence, and that is accounted for: if its key is dynamic it is in the
    ledger of unresolved references with what could be read of its key;
    otherwise it has an edge of its own, or is in the ledger under the rule's
    kind, unless the rule says that unmatched producers are to be dropped. *)
Theorem Link_accounts via_order json_strings nodes rules links : targets_ok nodes rules -> sites_ok nodes ->
  (forall rule, rule ∈ rules -> is_Some (resolveNormalizers (ru_Normalizers rule))) ->
  exists r, Link_ via_order json_strings nodes rules links = Some r /\
    forall rule n, rule ∈ rules -> is_producer nodes rule n ->
    exists prod, is_producer nodes rule prod /\ same_site (ru_Producer rule) n prod /\
      producerEvidenceScore n <= producerEvidenceScore prod /\
      accounted json_strings nodes links rule r prod.
Proof.
  intros Hf Hs Hn. destruct (Link_spec via_order json_strings nodes links rules Hf Hn) as (r & E & _ & _ & H).
  exists r. split; [done|]. intros rule n Hr Hp.
  pose proof (proj2 (proj1 (elem_of_partition nodes rule n)) Hp) as [i Hi]%list_elem_of_lookup.
  destruct (dedupeProducers_exact (fst (partitionNodes nodes rule)) (ru_Producer rule)) as (_ & _ & Hd).
  destruct (Hd i n Hi) as (j & q & _ & Hq & Hk & Ho). fold (producers_of nodes rule) in Hq.
  pose proof (producers_of_producer nodes rule q Hq) as Hq'. exists q. split_and!; [done| | |by apply H].
  - apply (site_key_same nodes); [done|apply Hp|apply Hq'|done].
  - destruct Ho as [|[]]; lia.
Qed.

(** ** Fan-out *)

Lemma two_services hits a b : a ∈ hits -> b ∈ hits -> n_Service a <> "" -> n_Service b <> "" ->
  n_Service a <> n_Service b -> 1 < distinctTargetServices hits.
Proof.
  intros Ha Hb Na Nb Hne. unfold distinctTargetServices, target_services.
  assert (Hin : forall x, x ∈ hits -> n_Service x <> "" ->
    n_Service x ∈ (list_to_set (List.filter (fun s => negb (str_eqb s "")) (map n_Service hits)) : gset string)).
  { intros x Hx Hn. rewrite elem_of_list_to_set, elem_of_bfilter, list_elem_of_fmap. split; [by exists x|].
    by apply negb_true_iff, Stdlib.Strings.String.eqb_neq. }
  assert (Hs : {[ n_Service a; n_Service b ]} ⊆
    (list_to_set (List.filter (fun s => negb (str_eqb s "")) (map n_Service hits)) : gset string)).
  { intros s [->%elem_of_singleton| ->%elem_of_singleton]%elem_of_union; auto. }
  apply subseteq_size in Hs. rewrite size_union, !size_singleton in Hs by set_solver. lia.
Qed.

Lemma bfilter_perm {A} (f : A -> bool) l l' : l ≡ₚ l' -> List.filter f l ≡ₚ List.filter f l'.
Proof.
  induction 1 as [|x l l' _ IH|x y l|l1 l2 l3 _ IH1 _ IH2]; cbn; [done| | |by etrans].
  - destruct (f x); [by f_equiv|done].
  - destruct (f x), (f y); try done. apply Permutation_swap.
Qed.

(** C17: the fan-out guard.  When a producer is matched, it is with a reading of
    it and the first tier of the rule in which any candidate meets its key, and
    the edges added are one for each of the consumers that answer the key in
    that tier and that the same-service policy lets through, no more confident
    than the tier.  When they are in two known services or more, at most one of
    the edges can be real: none of them is given more than partial confidence,
    and none is made at all on weak path evidence; every consumer still gets
    its edge. *)
Theorem matchProducer_fanout via_order rule norms env cands prod r r' :
  matchProducer via_order rule norms env (buildConsumerIndexes cands (ru_Consumer rule) norms env) prod r = (true, r') ->
  exists ov key before tier after hits es,
    method_guess prod (ru_Producer rule) ov /\ node_key (ru_Producer rule) norms env prod ov = Some key /\
    ru_Match rule = before ++ tier :: after /\
    (forall t c, t ∈ before -> ~ meets (ru_Consumer rule) norms env key t cands c) /\
    hits ≡ₚ List.filter (sameServiceAllowed (es_SameService (ru_Edge rule)) prod)
              (answers (ru_Consumer rule) norms env key tier cands) /\
    hits <> [] /\ r' = add_edges es r /\ map ed_To es = map n_ID hits /\
    (forall e, e ∈ es -> ed_From e = n_ID prod /\ ed_Type e = es_Type (ru_Edge rule) /\ ed_Label e = snd key /\
       ConfidenceRank (ed_Confidence e) <= ConfidenceRank (tier_confidence tier)) /\
    ((exists a b, a ∈ hits /\ b ∈ hits /\ n_Service a <> "" /\ n_Service b <> "" /\ n_Service a <> n_Service b) ->
     meta_of prod "path_evidence" <> "weak" /\
     forall e, e ∈ es -> ConfidenceRank (ed_Confidence e) <= ConfidenceRank ConfidencePartial).
Proof.
  unfold matchProducer. pose proof (tried_overrides rule norms env cands prod) as Ht. cbv zeta.
  set (ovs := if _ <? _ then _ else _) in *. clearbody ovs.
  induction ovs as [|ov ovs IH]; cbn [try_overrides]; [done|].
  specialize (IH (fun o H => Ht o (list_elem_of_further _ _ _ H))).
  destruct (node_key (ru_Producer rule) norms env prod ov) as [[rawKey normKey]|] eqn:Ek; [|done].
  pose proof (findMatches_first (ru_Consumer rule) norms env (rawKey, normKey) (ru_Match rule) cands) as Hl.
  cbn [fst snd] in Hl. destruct (findMatches _ _ _ _) as [[[hits conf] mm] q].
  destruct (eligible_hits rule prod hits) as [|h hs] eqn:Eh; [done|].
  destruct (suppressed prod (h :: hs)) eqn:Es; [done|]. set (es := map _ (h :: hs)). intros [= <-].
  destruct Hl as [[-> _]|(t1 & tier & t2 & Etiers & Hno & Hp & _ & ->)]; [done|].
  exists ov, (rawKey, normKey), t1, tier, t2, (h :: hs), es.
  split; [apply Ht; left|]. split_and!; try done.
  - rewrite <- Eh. unfold eligible_hits. by apply bfilter_perm.
  - unfold es. by rewrite map_map.
  - intros e (x & -> & Hx)%list_elem_of_fmap. cbn. split_and!; [done..|]. by apply edge_confidence_rank.
  - intros (a & b & Ha & Hb & Na & Nb & Hne). pose proof (two_services _ _ _ Ha Hb Na Nb Hne) as Hd. split.
    + intros E. unfold suppressed in Es. rewrite E in Es. apply Nat.ltb_lt in Hd. by rewrite Hd in Es.
    + intros e (x & -> & Hx)%list_elem_of_fmap. cbn [ed_Confidence contract_edge]. by apply edge_confidence_rank.
Qed.

(** ** A workspace *)

Definition http_rule : Rule :=
  mkRule "http"
    (mkEndpoint "http_client" {[ "nav_link" := "" ]} ∅ ["method"; "path"] {[ "path" := ["url"] ]}
       ["GET"; "POST"; ""] "target_service" false true)
    (mkEndpoint "http_handler" ∅ ∅ ["method"; "path"] ∅ [] "" false false)
    ["case_fold"; "url_to_path"; "dynamic_host_strip"; "base_url_strip"; "query_strip";
     "format_suffix_strip"; "param_wildcard"; "trim_slash"; "empty_path_guard"]
    [TierExact; TierNormalized; TierWildcardAnchored]
    (mkEdgeSpec "http_call" "call" "keep" ∅) UnmatchedUnknownEdge.

Definition demo_node (ty id svc : string) (line : Z) (meta : Meta) : Node :=
  mkNode id ty id svc "a.go" line line "go" meta "".

Definition demo_nodes : list Node :=
  [demo_node "http_client" "c1" "web" 3 {[ "path" := "/users/%d" ]};
   demo_node "http_client" "c2" "web" 5 {[ "method" := "GET"; "path" := "/health" ]};
   demo_node "http_client" "c3" "web" 7 {[ "method" := "GET"; "path" := "/nowhere" ]};
   demo_node "http_client" "c4" "web" 9 {[ "key_dynamic" := "true"; "key_dynamic_raw" := "u" ]};
   demo_node "http_handler" "h1" "api" 3 {[ "method" := "get"; "path" := "/users/:id" ]};
   demo_node "http_handler" "h2" "api" 5 {[ "method" := "GET"; "path" := "/health" ]};
   demo_node "http_handler" "h3" "auth" 5 {[ "method" := "GET"; "path" := "/health" ]}].

Definition demo_link : option Result := Link_ id (fun _ => None) demo_nodes [http_rule] [].

Example demo_link_edges :
  (fun r => (map (fun e => (ed_From e, ed_To e, ed_Confidence e)) (re_Edges r), map n_ID (re_Nodes r),
             map u_Kind (re_Unresolved r))) <$> demo_link =
  Some ([("c1", "h1", "inferred"); ("c2", "h2", "partial"); ("c2", "h3", "partial");
         ("c3", "unresolved", "unknown")], ["unresolved"], ["dynamic_url"]).
Proof. vm_compute. reflexivity. Qed.

Fixpoint has_nul (s : string) : bool :=
  match s with "" => false | String c s' => Ascii.eqb c "000" || has_nul s' end.

Lemma has_nul_free s : has_nul s = false -> nul_free s.
Proof. intros H a b ->. induction a as [|c a IH]; [done|]. cbn in H. apply orb_false_iff in H as [_ H]. auto. Qed.

Lemma demo_targets : targets_ok demo_nodes [http_rule].
Proof.
  intros rule n ->%list_elem_of_singleton Hn. apply has_nul_free.
  assert (H : forallb (fun n => negb (has_nul (target_service http_rule n))) demo_nodes = true) by (vm_compute; reflexivity).
  rewrite forallb_forall in H. apply negb_true_iff, H. by apply list_elem_of_In.
Qed.

Lemma demo_normalizers rule : rule ∈ [http_rule] -> is_Some (resolveNormalizers (ru_Normalizers rule)).
Proof. intros ->%list_elem_of_singleton. by eexists. Qed.

Lemma Link_sound_witness : exists r, demo_link = Some r /\ length (re_Edges r) = 4 /\
  forall e, e ∈ re_Edges r -> justified (fun _ => None) demo_nodes [] http_rule r e.
Proof.
  destruct (Link_sound id (fun _ => None) demo_nodes [http_rule] [] demo_targets demo_normalizers) as (r & E & _ & H).
  exists r. split; [exact E|]. split.
  - assert (Hl : (length ∘ re_Edges) <$> demo_link = Some 4) by (vm_compute; reflexivity).
    unfold demo_link in Hl. rewrite E in Hl. injection Hl as Hl. exact Hl.
  - intros e He. destruct (H e He) as (rule & Hr & Hj). apply list_elem_of_singleton in Hr. by subst rule.
Defined.

Lemma demo_sites : sites_ok demo_nodes.
Proof.
  assert (H : forallb (fun n => negb (has_nul (n_Service n)) && negb (has_nul (n_File n))) demo_nodes = true)
    by (vm_compute; reflexivity).
  rewrite forallb_forall in H. intros n Hn%list_elem_of_In%H. apply andb_true_iff in Hn as [H1 H2].
  split; by apply has_nul_free, negb_true_iff.
Qed.

(** The site of the client at line 5 is accounted for. *)
Lemma Link_accounts_witness : exists r q, demo_link = Some r /\ n_File q = "a.go" /\ n_Line q = 5%Z /\
  accounted (fun _ => None) demo_nodes [] http_rule r q.
Proof.
  destruct (Link_accounts id (fun _ => None) demo_nodes [http_rule] [] demo_targets demo_sites demo_normalizers) as (r & E & H).
  destruct (H http_rule (nth 1 demo_nodes (synth_node ""))) as (q & _ & (_ & H1 & H2 & _) & _ & H3).
  - by apply list_elem_of_singleton.
  - apply (elem_of_partition demo_nodes http_rule). apply (bool_decide_unpack _). vm_compute. exact I.
  - exists r, q. split; [exact E|]. split; [by rewrite <- H1|]. split; [by rewrite <- H2|exact H3].
Defined.

Lemma Link_memo_invisible_witness :
  demo_link = fst <$> link_rules_alone id (fun _ => None) demo_nodes [] [http_rule] (no_result, ∅).
Proof. exact (Link_memo_invisible id (fun _ => None) demo_nodes [http_rule] [] demo_targets). Defined.

Lemma matchProducer_fanout_witness :
  let env := mkEnv "web" "" [] in
  let cands := List.filter (fun n => str_eqb (n_Type n) "http_handler") demo_nodes in
  let norms := default [] (resolveNormalizers (ru_Normalizers http_rule)) in
  let prod := nth 1 demo_nodes (synth_node "") in
  exists r', matchProducer id http_rule norms env (buildConsumerIndexes cands (ru_Consumer http_rule) norms env)
      prod no_result = (true, r') /\ length (re_Edges r') = 2 /\
    exists es hits, r' = add_edges es no_result /\ map ed_To es = map n_ID hits /\ hits <> [].
Proof.
  intros env cands norms prod.
  destruct (matchProducer id http_rule norms env (buildConsumerIndexes cands (ru_Consumer http_rule) norms env)
    prod no_result) as [b r'] eqn:E.
  assert (Hb : b = true /\ length (re_Edges r') = 2).
  { assert (Hv : (fun p => (fst p, length (re_Edges (snd p)))) (matchProducer id http_rule norms env
      (buildConsumerIndexes cands (ru_Consumer http_rule) norms env) prod no_result) = (true, 2))
      by (vm_compute; reflexivity).
    rewrite E in Hv. injection Hv as Hv1 Hv2. by split. }
  destruct Hb as [-> Hlen]. exists r'. split; [reflexivity|]. split; [exact Hlen|].
  destruct (matchProducer_fanout id http_rule norms env cands prod no_result r' E)
    as (ov & key & t1 & tier & t2 & hits & es & _ & _ & _ & _ & _ & H1 & H2 & H3 & _).
  exists es, hits. split; [exact H2|]. split; [exact H3|exact H1].
Defined.
