(* ===== verification/CtReport.v ===== *)
(** Reports on linked edges (internal/contract/edge_filter.go, coverage.go):
    the edges of a confidence or below, and the coverage of each kind of
    contract. *)
From S2P Require Import Prelude GoStrings GrModel GrVerdict CtNormalize CtEngine.

(** ** Weak edges *)

(** bestByProducer *)
Definition raise_best (best : gmap string nat) (e : Edge) : gmap string nat :=
  if str_eqb (ed_Confidence e) "" then best
  else
    let r := ConfidenceRank (ed_Confidence e) in
    if default 0 (best !! ed_From e) <? r then <[ed_From e := r]> best else best.

Definition best_by_producer (edges : list Edge) : gmap string nat := fold_left raise_best edges ∅.

Definition weak_edge (threshold : nat) (best : gmap string nat) (e : Edge) : bool :=
  negb (str_eqb (ed_Confidence e) "") && (ConfidenceRank (ed_Confidence e) <=? threshold) &&
  (default 0 (best !! ed_From e) <=? threshold).

(** The comparison of sortEdgesByProducerLocation. *)
Definition edge_location_less (idx : AdjacencyIndex) (a b : Edge) : bool :=
  match Nodes idx !! ed_From a, Nodes idx !! ed_From b with
  | Some ni, Some nj =>
      less_by n_Service str_ltb (less_by n_File str_ltb (fun x y => (n_Line x <? n_Line y)%Z)) ni nj
  | _, _ => str_ltb (ed_ID a) (ed_ID b)
  end.

Definition FilterEdgesByConfidence (idx : AdjacencyIndex) (minConfidence : string) : list Edge :=
  let threshold := ConfidenceRank minConfidence in
  let best := best_by_producer (AllEdges idx) in
  sort_slice (edge_location_less idx) (List.filter (weak_edge threshold best) (AllEdges idx)).

(** ** Coverage *)

Definition DynamicUnresolvedKinds : list string :=
  ["dynamic_url"; "dynamic_topic"; "dynamic_queue"; "dynamic_channel"; "dynamic_event"].
Definition dynamic_kind (k : string) : bool := existsb (str_eqb k) DynamicUnresolvedKinds.

Record KindCoverage : Type := mkCoverage {
  kc_Kind : string; kc_Matched : Z; kc_Unresolved : Z; kc_Dynamic : Z; kc_Indirect : Z
}.

(** The kind of an edge type: that of the last rule that emits it. *)
Definition kind_table (rules : list Rule) : gmap string string :=
  fold_left (fun m r => <[es_Type (ru_Edge r) := ru_Kind r]> m) rules ∅.

Definition see_kind (order : list string) (k : string) : list string :=
  if existsb (str_eqb k) order then order else order ++ [k].

(** The kinds of the edges a test accepts, one for each. *)
Definition edge_kinds (table : gmap string string) (test : Edge -> bool) (edges : list Edge) : list string :=
  List.filter (fun k => negb (str_eqb k "")) (map (fun e => meta_get table (ed_Type e)) (List.filter test edges)).

Definition is_unknown (e : Edge) : bool := str_eqb (ed_Confidence e) ConfidenceUnknown.
Definition is_indirect (e : Edge) : bool :=
  let via := meta_get (ed_Meta e) "via" in str_eqb via "alias" || str_eqb via "wrapper".

Definition count_of (m : gmap string Z) (k : string) : Z := default 0%Z (m !! k).

Definition ComputeCoverage (rules : list Rule) (result : Result) : list KindCoverage :=
  let table := kind_table rules in
  let kindOrder := fold_left see_kind (map ru_Kind rules) [] in
  let matched := tally (edge_kinds table (fun e => negb (is_unknown e)) (re_Edges result)) in
  let indirect := tally (edge_kinds table is_indirect (re_Edges result)) in
  let dynamic := tally (List.filter dynamic_kind (map u_Kind (re_Unresolved result))) in
  let unresolved := fold_left count_key
    (List.filter (fun k => negb (dynamic_kind k)) (map u_Kind (re_Unresolved result)))
    (tally (edge_kinds table is_unknown (re_Edges result))) in
  let kindOrder := fold_left see_kind (map u_Kind (re_Unresolved result)) kindOrder in
  map (fun k => mkCoverage k (count_of matched k) (count_of unresolved k) (count_of dynamic k) (count_of indirect k))
    (sort_strings kindOrder).

(** * Theorems

    The weak-edge report lists exactly the edges it promises. *)

#[local] Instance location_weak : WeakLess (fun x y : Node =>
  less_by n_Service str_ltb (less_by n_File str_ltb (fun x y => (n_Line x <? n_Line y)%Z)) x y).
Proof. apply less_by_weak; [apply _|]. apply less_by_weak; [apply _|]. apply (key_less_weak n_Line Z.ltb). Qed.

(** The best rank a producer has among its edges with a confidence. *)
Lemma best_spec edges p :
  (forall e, e ∈ edges -> ed_From e = p -> ed_Confidence e <> "" ->
     ConfidenceRank (ed_Confidence e) <= default 0 (best_by_producer edges !! p)) /\
  (default 0 (best_by_producer edges !! p) = 0 \/
   exists e, e ∈ edges /\ ed_From e = p /\ ed_Confidence e <> "" /\
     ConfidenceRank (ed_Confidence e) = default 0 (best_by_producer edges !! p)).
Proof.
  unfold best_by_producer. induction edges as [|x edges [IH1 IH2]] using rev_ind.
  { split; [by intros ? ?%not_elem_of_nil|by left]. }
  rewrite fold_left_app. cbn [fold_left]. set (best := fold_left raise_best edges ∅) in *. unfold raise_best.
  assert (Hkeep : forall v, default 0 (best !! p) = v -> v = 0 \/
    exists e, e ∈ edges ++ [x] /\ ed_From e = p /\ ed_Confidence e <> "" /\ ConfidenceRank (ed_Confidence e) = v).
  { intros v <-. destruct IH2 as [?|(e & He & Hr)]; [by left|right]. exists e. split; [|done].
    apply elem_of_app. by left. }
  assert (Hx : x ∈ edges ++ [x]) by (apply elem_of_app; right; left).
  destruct (Stdlib.Strings.String.eqb_spec (ed_Confidence x) "") as [E|E].
  { split; [|by apply Hkeep]. intros e [He|He%list_elem_of_singleton]%elem_of_app; [by apply IH1|by subst]. }
  destruct (Nat.ltb_spec (default 0 (best !! ed_From x)) (ConfidenceRank (ed_Confidence x))) as [Hlt|Hge].
  - destruct (decide (ed_From x = p)) as [Ep|Ep].
    + rewrite Ep in *. rewrite lookup_insert_eq. cbn [default]. split; [|right; by exists x].
      intros e [He|He%list_elem_of_singleton]%elem_of_app Hf Hc; [|by subst]. specialize (IH1 e He Hf Hc). cbn. lia.
    + rewrite lookup_insert_ne by done. split; [|by apply Hkeep].
      intros e [He|He%list_elem_of_singleton]%elem_of_app Hf; [by apply IH1|by subst].
  - split; [|by apply Hkeep]. intros e [He|He%list_elem_of_singleton]%elem_of_app Hf Hc; [by apply IH1|].
    subst e. by rewrite <- Hf.
Qed.

(** Sorting looks at the comparison of the elements only. *)
Lemma sort_slice_ext {A} (less less' : A -> A -> bool) l :
  (forall x y, x ∈ l -> y ∈ l -> less x y = less' x y) -> sort_slice less l = sort_slice less' l.
Proof.
  assert (Hi : forall x l, (forall y, y ∈ l -> less y x = less' y x) -> insert_by less x l = insert_by less' x l).
  { intros x l0. induction l0 as [|y l0 IH]; intros H; cbn; [done|]. rewrite (H y) by left.
    destruct (less' y x); [|done]. f_equal. apply IH. intros z Hz. apply H. by right. }
  induction l as [|x l IH]; intros H; [done|]. cbn. fold (sort_slice less l). fold (sort_slice less' l).
  rewrite <- IH by (intros y z Hy Hz; apply H; by right). apply Hi.
  intros y Hy%elem_of_sort_slice. apply H; [by right|left].
Qed.

(** Where every producer is known, edges are compared by its place. *)
Definition place_less (idx : AdjacencyIndex) (a b : Edge) : bool :=
  let node e := default (mkNode "" "" "" "" "" 0 0 "" ∅ "") (Nodes idx !! ed_From e) in
  less_by n_Service str_ltb (less_by n_File str_ltb (fun x y => (n_Line x <? n_Line y)%Z)) (node a) (node b).

#[local] Instance place_weak idx : WeakLess (place_less idx).
Proof. unfold place_less. apply (key_less_weak (fun e => default _ (Nodes idx !! ed_From e)) _). Qed.

Lemma location_sorted idx l : (forall e, e ∈ l -> is_Some (Nodes idx !! ed_From e)) ->
  StronglySorted (may_precede (place_less idx)) (sort_slice (edge_location_less idx) l).
Proof.
  intros H. rewrite (sort_slice_ext _ (place_less idx)); [apply sort_slice_sorted; apply _|].
  intros x y Hx Hy. unfold edge_location_less, place_less.
  destruct (H x Hx) as [n ->], (H y Hy) as [n' ->]. done.
Qed.

(** The report of weak edges lists, each once, exactly the edges that carry
    a confidence no better than the threshold and whose producer has no better
    edge anywhere in the index, whatever the order of the index's maps; in an
    index without dangling edges they come by the producer's service, file and
    line. *)
Theorem FilterEdgesByConfidence_exact idx minConfidence : wf_index idx -> unique_ids idx -> closed_index idx ->
  let out := FilterEdgesByConfidence idx minConfidence in
  NoDup out /\
  (forall e, e ∈ out <-> has_edge idx e /\ ed_Confidence e <> "" /\
     ConfidenceRank (ed_Confidence e) <= ConfidenceRank minConfidence /\
     forall e', has_edge idx e' -> ed_From e' = ed_From e -> ed_Confidence e' <> "" ->
       ConfidenceRank (ed_Confidence e') <= ConfidenceRank minConfidence) /\
  StronglySorted (may_precede (place_less idx)) out.
Proof.
  intros W U C. destruct (AllEdges_spec idx W U) as [Hnd Hin]. unfold FilterEdgesByConfidence. cbn zeta.
  set (t := ConfidenceRank minConfidence).
  assert (Hw : forall e, e ∈ List.filter (weak_edge t (best_by_producer (AllEdges idx))) (AllEdges idx) <->
    has_edge idx e /\ ed_Confidence e <> "" /\ ConfidenceRank (ed_Confidence e) <= t /\
    forall e', has_edge idx e' -> ed_From e' = ed_From e -> ed_Confidence e' <> "" -> ConfidenceRank (ed_Confidence e') <= t).
  { intros e. rewrite elem_of_bfilter, Hin. unfold weak_edge.
    rewrite !andb_true_iff, negb_true_iff, !Nat.leb_le, Stdlib.Strings.String.eqb_neq.
    destruct (best_spec (AllEdges idx) (ed_From e)) as [B1 B2]. split.
    - intros (He & (Hc & Hr) & Hb). split_and!; try done. intros e' He' Hf Hc'.
      specialize (B1 e' (proj2 (Hin e') He') Hf Hc'). lia.
    - intros (He & Hc & Hr & Hall). split_and!; try done.
      destruct B2 as [->|(e' & He' & Hf & Hc' & <-)]; [lia|]. apply Hall; [by apply Hin|done..]. }
  split_and!.
  - rewrite sort_slice_perm. apply NoDup_ListNoDup, List.NoDup_filter. by apply NoDup_ListNoDup.
  - intros e. rewrite <- Hw. apply elem_of_sort_slice.
  - apply location_sorted. intros e He. apply Hw in He as (He & _). by apply C.
Qed.

(** An index with two clients: one known only to a weak edge, one that another
    view resolves. *)
Definition report_edge (id from to conf : string) : Edge := mkEdge id from to "http_call" "" conf "" "" ∅ [] "" "".
Definition report_index : AdjacencyIndex :=
  BuildIndex (map (fun id => mkNode id "http_client" id "web" "a.go" 1 1 "go" ∅ "") ["a"; "b"; "h"; "u"])
    [report_edge "e1" "a" "u" "unknown"; report_edge "e2" "b" "u" "unknown"; report_edge "e3" "b" "h" "inferred"].

Lemma FilterEdgesByConfidence_exact_witness :
  map ed_ID (FilterEdgesByConfidence report_index "partial") = ["e1"] /\
  NoDup (FilterEdgesByConfidence report_index "partial").
Proof.
  split; [vm_compute; reflexivity|].
  assert (W : wf_index report_index) by apply wf_BuildIndex.
  apply (FilterEdgesByConfidence_exact report_index "partial" W).
  - apply unique_ids_by_eval; [vm_compute; reflexivity|exact W].
  - apply closed_by_eval; [exact W|vm_compute; reflexivity].
Defined.
