(* ===== verification/Evidence.v ===== *)
(** Evidence fusion (internal/evidence/reconcile.go, provenance.go, stamp.go,
    provider.go): the edges of the static pipeline are confirmed by the edges
    other providers report on the same channel, what no static edge explains
    becomes a gap, and every edge's state of verification is computed from its
    sources. *)
From S2P Require Import Prelude GoStrings GrModel CtEngine CtReport.

Definition ConfidenceCandidate : string := "candidate".
Definition GranularityChannel : string := "channel".
Definition GranularitySite : string := "site".

(** ** Providers *)

Definition validProviderNames : list string := ["static"; "contract"; "runtime"; "config"; "llm"].
Definition ValidateProviderName (name : string) : bool := existsb (str_eqb name) validProviderNames.

Record UnresolvedLocation : Type := mkLocation { ul_Service : string; ul_File : string; ul_Line : Z }.

Record Evidence : Type := mkEvidence {
  ev_Nodes : list Node;
  ev_Edges : list Edge;
  ev_Unresolved : list UnresolvedRef;
  ev_ClearsUnresolved : list UnresolvedRef;
  ev_ClearsByLocation : list UnresolvedLocation
}.
Definition no_evidence : Evidence := mkEvidence [] [] [] [] [].

(** A provider: its name, and what it collects. *)
Definition Provider (E : Type) : Type := string * result E Evidence.

Inductive RecError (E : Type) : Type :=
| EUnknownProvider (name : string)
| EProvider (name : string) (err : E)
| EStaticRule (n : nat) (sample : list string).
Arguments EUnknownProvider {E}.
Arguments EProvider {E}.
Arguments EStaticRule {E}.

(** NewReconciler *)
Definition NewReconciler {E} (providers : list (Provider E)) : result (RecError E) (list (Provider E)) :=
  match List.find (fun p => negb (ValidateProviderName (fst p))) providers with
  | Some p => Err (EUnknownProvider (fst p))
  | None => Ok providers
  end.

(** ** The static provider (provenance.go, stamp.go) *)

Definition with_sources (srcs : list SourceRef) (state gran : string) (e : Edge) : Edge :=
  mkEdge (ed_ID e) (ed_From e) (ed_To e) (ed_Type e) (ed_Label e) (ed_Confidence e) (ed_Method e) (ed_Path e)
    (ed_Meta e) srcs state gran.

Definition staticRef (n : option Node) : string :=
  match n with
  | None => ""
  | Some n =>
      if str_eqb (n_File n) "" then ""
      else if (0 <? n_Line n)%Z then n_File n +:+ ":" +:+ itoa (n_Line n)
      else n_File n
  end.

Definition is_static (s : SourceRef) : bool := str_eqb (s_Provider s) "static".

Definition confidence_or_candidate (e : Edge) : string :=
  if str_eqb (ed_Confidence e) "" then ConfidenceCandidate else ed_Confidence e.

Definition static_source (conf ref layer rule : string) : SourceRef :=
  mkSourceRef "static" conf ref 0 "" "" layer rule.

(** The last node of an ID wins, as in the map built from the slice. *)
Definition node_index (nodes : list Node) : gmap string Node :=
  fold_left (fun m n => <[n_ID n := n]> m) nodes ∅.

(** The loop body of StaticProvider.Collect. *)
Definition stamp_edge (byID : gmap string Node) (e : Edge) : Edge :=
  let '(layer, rule) :=
    match List.find is_static (ed_Sources e) with
    | Some src => (s_Layer src, s_Rule src)
    | None => ("", "")
    end in
  let '(layer, rule) := if str_eqb rule "" then ("L1", "parser/" +:+ ed_Type e) else (layer, rule) in
  with_sources [static_source (confidence_or_candidate e) (staticRef (byID !! ed_From e)) layer rule] "" "" e.

Definition StaticCollect (nodes : list Node) (edges : list Edge) (unres : list UnresolvedRef) : Evidence :=
  mkEvidence nodes (map (stamp_edge (node_index nodes)) edges) unres [] [].

Definition ValidateStaticProvenance (edges : list Edge) : list string :=
  map ed_ID (List.filter (fun e => existsb (fun s => is_static s && str_eqb (s_Rule s) "") (ed_Sources e)) edges).

Definition StampStatic (e : Edge) (fromRef layer rule : string) : Edge :=
  let '(layer, rule) :=
    match ed_Sources e with
    | [s] =>
        if is_static s then
          (if str_eqb (s_Layer s) "" then layer else s_Layer s, if str_eqb (s_Rule s) "" then rule else s_Rule s)
        else (layer, rule)
    | _ => (layer, rule)
    end in
  with_sources [static_source (confidence_or_candidate e) fromRef layer rule] StateCandidate "" e.

(** ** States *)

Definition computeState (sources : list SourceRef) : string :=
  let provides p := existsb (fun s => str_eqb (s_Provider s) p) sources in
  let hasStatic := provides "static" in
  let staticAmbiguous := existsb (fun s => is_static s && str_eqb (s_Confidence s) ConfidencePartial) sources in
  let hasPinning := provides "runtime" || provides "config" in
  let hasSpec := provides "contract" in
  if hasStatic && hasPinning then StateVerified
  else if hasStatic && hasSpec && negb staticAmbiguous then StateVerified
  else if hasStatic then StateCandidate
  else if hasPinning || hasSpec then StateObservedOnlyGap
  else StateCandidate.

Definition computeGranularity (sources : list SourceRef) : string :=
  if existsb (fun s => str_eqb (s_Provider s) "runtime" && negb (str_eqb (s_CodeFile s) "")) sources
  then GranularitySite else GranularityChannel.

Definition source_less : SourceRef -> SourceRef -> bool :=
  less_by s_Provider str_ltb (less_by s_Ref str_ltb (fun a b => (s_ObservedAt a <? s_ObservedAt b)%Z)).
Definition sortSources (s : list SourceRef) : list SourceRef := sort_slice source_less s.

Definition source_key (s : SourceRef) : string * string := (s_Provider s, s_Ref s).

(** One source of appendSource's loop, with the keys seen. *)
Definition append_one (st : gset (string * string) * list SourceRef) (s : SourceRef) :
    gset (string * string) * list SourceRef :=
  let '(seen, out) := st in
  if decide (source_key s ∈ seen) then st else ({[source_key s]} ∪ seen, out ++ [s]).

Definition appendSource (existing src : list SourceRef) : list SourceRef :=
  snd (fold_left append_one src (list_to_set (map source_key existing), existing)).

(** ** Channels *)

(** edge type, label, from, to *)
Definition channelKey : Type := string * string * string * string.

Definition keyOf (e : Edge) : channelKey :=
  if negb (str_eqb (ed_Label e) "") then (ed_Type e, ed_Label e, "", "")
  else (ed_Type e, "", ed_From e, ed_To e).

Definition serviceCompatible (declService : string) (sp : Edge) (nodeService : gmap string string) : bool :=
  if str_eqb declService "" then true
  else
    let fromSvc := meta_get nodeService (ed_From sp) in
    let toSvc := meta_get nodeService (ed_To sp) in
    if str_eqb fromSvc "" && str_eqb toSvc "" then true
    else str_eqb fromSvc declService || str_eqb toSvc declService.

Definition endpointNodeID (e : Edge) : string := "gap-endpoint:" +:+ ed_Type e +:+ ":" +:+ ed_Label e.

Definition syntheticEdgeID (e : Edge) (from to : string) : string :=
  "gap:" +:+ ed_Type e +:+ ":" +:+ ed_Label e +:+ ":" +:+ from +:+ "->" +:+ to.

(** ** Fusion *)

(** What the loop over the other providers changes. *)
Record recState : Type := mkRec {
  rc_edges : list Edge;        (* the static edges, with the sources appended *)
  rc_gaps : list Edge;         (* gapByID in gapOrder *)
  rc_nodes : list Node;
  rc_nodeIDs : gset string;
  rc_unresolved : list UnresolvedRef;
  rc_clears : list UnresolvedRef;
  rc_locClears : list UnresolvedLocation
}.

Definition add_sources (srcs : list SourceRef) (e : Edge) : Edge :=
  with_sources (appendSource (ed_Sources e) srcs) (ed_VerificationState e) (ed_VerifiedGranularity e) e.

(** Whether a provider's edge confirms a static one. *)
Definition confirms (nodeService : gmap string string) (pe sp : Edge) : bool :=
  bool_decide (keyOf pe = keyOf sp) && serviceCompatible (ed_From pe) sp nodeService.

Definition gap_ends (pe : Edge) : string * string :=
  (if str_eqb (ed_From pe) "" then endpointNodeID pe else ed_From pe,
   if str_eqb (ed_To pe) "" then endpointNodeID pe else ed_To pe).

Definition gap_edge (pe : Edge) (from to : string) : Edge :=
  mkEdge (syntheticEdgeID pe from to) from to (ed_Type pe) (ed_Label pe) ConfidenceCandidate "" "" ∅
    (ed_Sources pe) StateObservedOnlyGap "".

Definition gap_node (name : string) (pe : Edge) (from to nodeID : string) : Node :=
  let anonymous := str_eqb nodeID (endpointNodeID pe) in
  let label := if negb (str_eqb (ed_Label pe) "") && anonymous then ed_Label pe else nodeID in
  let owner :=
    if anonymous then
      if negb (str_eqb from nodeID) then from else if negb (str_eqb to nodeID) then to else ""
    else nodeID in
  mkNode nodeID NodeTypeService label owner "" 0 0 "" {[ "source" := name ]} "".

Definition add_node_once (st : list Node * gset string) (n : Node) : list Node * gset string :=
  let '(nodes, ids) := st in
  if decide (n_ID n ∈ ids) then st else (nodes ++ [n], {[ n_ID n ]} ∪ ids).

(** One edge of a provider. *)
Definition fuse_edge (nodeService : gmap string string) (name : string) (st : recState) (pe : Edge) : recState :=
  if existsb (confirms nodeService pe) (rc_edges st) then
    mkRec (map (fun sp => if confirms nodeService pe sp then add_sources (ed_Sources pe) sp else sp) (rc_edges st))
      (rc_gaps st) (rc_nodes st) (rc_nodeIDs st) (rc_unresolved st) (rc_clears st) (rc_locClears st)
  else
    let '(from, to) := gap_ends pe in
    let synthID := syntheticEdgeID pe from to in
    if existsb (fun g => str_eqb (ed_ID g) synthID) (rc_gaps st) then
      mkRec (rc_edges st)
        (map (fun g => if str_eqb (ed_ID g) synthID then add_sources (ed_Sources pe) g else g) (rc_gaps st))
        (rc_nodes st) (rc_nodeIDs st) (rc_unresolved st) (rc_clears st) (rc_locClears st)
    else
      let '(nodes, ids) :=
        fold_left (fun s nodeID => add_node_once s (gap_node name pe from to nodeID)) [from; to]
          (rc_nodes st, rc_nodeIDs st) in
      mkRec (rc_edges st) (rc_gaps st ++ [gap_edge pe from to]) nodes ids
        (rc_unresolved st) (rc_clears st) (rc_locClears st).

(** One provider other than the static one. *)
Definition fuse_provider (nodeService : gmap string string) (st : recState) (c : string * Evidence) : recState :=
  let '(name, ev) := c in
  let st := fold_left (fuse_edge nodeService name) (ev_Edges ev) st in
  let '(nodes, ids) := fold_left add_node_once (ev_Nodes ev) (rc_nodes st, rc_nodeIDs st) in
  mkRec (rc_edges st) (rc_gaps st) nodes ids (rc_unresolved st ++ ev_Unresolved ev)
    (rc_clears st ++ ev_ClearsUnresolved ev) (rc_locClears st ++ ev_ClearsByLocation ev).

Definition same_ref (u v : UnresolvedRef) : bool :=
  str_eqb (u_Service u) (u_Service v) && str_eqb (u_File u) (u_File v) && str_eqb (u_Name u) (u_Name v) &&
  (u_Line u =? u_Line v)%Z.
Definition at_location (u : UnresolvedRef) (l : UnresolvedLocation) : bool :=
  str_eqb (u_Service u) (ul_Service l) && str_eqb (u_File u) (ul_File l) && (u_Line u =? ul_Line l)%Z.

(** A static reference some provider has claimed. *)
Definition cleared (st : recState) (u : UnresolvedRef) : bool :=
  existsb (same_ref u) (rc_clears st) || (dynamic_kind (u_Kind u) && existsb (at_location u) (rc_locClears st)).

Definition recompute (e : Edge) : Edge :=
  let srcs := sortSources (ed_Sources e) in
  let state := computeState srcs in
  with_sources srcs state (if str_eqb state StateVerified then computeGranularity srcs else "") e.

Definition verified_channels (edges : list Edge) : gset channelKey :=
  list_to_set (map keyOf (List.filter (fun e => str_eqb (ed_VerificationState e) StateVerified) edges)).

Definition detect_conflict (channels : gset channelKey) (e : Edge) : Edge :=
  if str_eqb (ed_VerificationState e) StateObservedOnlyGap && bool_decide (keyOf e ∈ channels)
  then with_sources (ed_Sources e) StateConflicting "" e else e.

Record ReconcileResult : Type := mkReconciled {
  rr_Nodes : list Node; rr_Edges : list Edge; rr_Unresolved : list UnresolvedRef
}.

Fixpoint collect_all {E} (providers : list (Provider E)) : result (RecError E) (list (string * Evidence)) :=
  match providers with
  | [] => Ok []
  | (name, Err e) :: _ => Err (EProvider name e)
  | (name, Ok ev) :: rest => match collect_all rest with Err e => Err e | Ok l => Ok ((name, ev) :: l) end
  end.

(** The evidence of the last provider named static. *)
Definition static_evidence (all : list (string * Evidence)) : Evidence :=
  fold_left (fun ev c => if str_eqb (fst c) "static" then snd c else ev) all no_evidence.
Definition other_evidence (all : list (string * Evidence)) : list (string * Evidence) :=
  List.filter (fun c => negb (str_eqb (fst c) "static")) all.

Definition initial (ev : Evidence) : recState :=
  mkRec (ev_Edges ev) [] (ev_Nodes ev) (list_to_set (map n_ID (ev_Nodes ev))) [] [] [].

Definition services_of (ev : Evidence) : gmap string string :=
  fold_left (fun m n => <[n_ID n := n_Service n]> m) (ev_Nodes ev) ∅.

(** The edges before they are sorted. *)
Definition fused_edges (st : recState) : list Edge :=
  let edges := map recompute (rc_edges st ++ rc_gaps st) in
  map (detect_conflict (verified_channels edges)) edges.

Definition finish {E} (staticEv : Evidence) (st : recState) : result (RecError E) ReconcileResult :=
  let edges := sort_slice edge_id_less (fused_edges st) in
  match ValidateStaticProvenance edges with
  | [] => Ok (mkReconciled (rc_nodes st) edges
                (rc_unresolved st ++ List.filter (fun u => negb (cleared st u)) (ev_Unresolved staticEv)))
  | bad => Err (EStaticRule (length bad) (take 10 bad))
  end.

(** Reconciler.Reconcile *)
Definition Reconcile {E} (providers : list (Provider E)) : result (RecError E) ReconcileResult :=
  match collect_all providers with
  | Err e => Err e
  | Ok all =>
      let staticEv := static_evidence all in
      finish staticEv (fold_left (fuse_provider (services_of staticEv)) (other_evidence all) (initial staticEv))
  end.
