(* ===== verification/EvidenceSpec.v ===== *)
(** What evidence fusion promises: an edge is verified exactly when the static
    pipeline and a provider that can tell agree on it, no evidence is lost, and
    what the indexer stamps in advance is what the fusion would compute. *)
From S2P Require Import Prelude GoStrings GrModel CtEngine CtReport Evidence.

(** ** Sources *)

Definition carries (e : Edge) (s : SourceRef) : Prop :=
  exists s', s' ∈ ed_Sources e /\ source_key s' = source_key s.

Lemma append_one_spec src seen out : seen = list_to_set (map source_key out) ->
  let '(seen', out') := fold_left append_one src (seen, out) in
  seen' = list_to_set (map source_key out') /\
  (forall s, s ∈ out' -> s ∈ out \/ s ∈ src) /\ (forall s, s ∈ out -> s ∈ out') /\
  forall s, s ∈ src -> exists s', s' ∈ out' /\ source_key s' = source_key s.
Proof.
  revert seen out. induction src as [|x src IH]; intros seen out Hs; cbn [fold_left].
  { split_and!; auto. by intros s ?%not_elem_of_nil. }
  unfold append_one at 2. case_decide as Hin.
  - specialize (IH seen out Hs). destruct (fold_left append_one src _) as [seen' out'].
    destruct IH as (H1 & H2 & H3 & H4). split_and!; [done| |done|].
    + intros s Hs'. destruct (H2 s Hs') as [?|?]; [by left|right; by right].
    + intros s [->|Hs']%elem_of_cons; [|by apply H4]. rewrite Hs, elem_of_list_to_set, list_elem_of_fmap in Hin.
      destruct Hin as (s' & E & Hin). exists s'. split; [by apply H3|done].
  - specialize (IH ({[source_key x]} ∪ seen) (out ++ [x])).
    destruct (fold_left append_one src _) as [seen' out']. destruct IH as (H1 & H2 & H3 & H4).
    { rewrite Hs, map_app, list_to_set_app_L. cbn. set_solver. }
    split_and!; [done| | |].
    + intros s Hs'. destruct (H2 s Hs') as [[?|?%list_elem_of_singleton]%elem_of_app|?];
        [by left|right; subst; left|right; by right].
    + intros s Hs'. apply H3, elem_of_app. by left.
    + intros s [->|Hs']%elem_of_cons; [|by apply H4]. exists x. split; [|done]. apply H3, elem_of_app. right. left.
Qed.

(** What appending keeps and adds. *)
Lemma appendSource_spec existing src :
  (forall s, s ∈ appendSource existing src -> s ∈ existing \/ s ∈ src) /\
  (forall s, s ∈ existing -> s ∈ appendSource existing src) /\
  forall s, s ∈ src -> exists s', s' ∈ appendSource existing src /\ source_key s' = source_key s.
Proof.
  unfold appendSource. pose proof (append_one_spec src _ existing eq_refl) as H.
  destruct (fold_left append_one src _) as [seen out]. destruct H as (_ & H). exact H.
Qed.

(** A property of keys that some source has. *)
Lemma appendSource_exists (P : SourceRef -> bool) existing src :
  (forall s s', source_key s = source_key s' -> P s = P s') ->
  existsb P (appendSource existing src) = existsb P existing || existsb P src.
Proof.
  intros HP. destruct (appendSource_spec existing src) as (H1 & H2 & H3).
  apply eq_true_iff_eq. rewrite orb_true_iff, !existsb_elem. split.
  - intros (s & Hs & Hp). destruct (H1 s Hs); [left|right]; by exists s.
  - intros [(s & Hs & Hp)|(s & Hs & Hp)]; [exists s; auto|]. destruct (H3 s Hs) as (s' & Hs' & E).
    exists s'. split; [done|]. by rewrite (HP s' s).
Qed.

(** ** The static edges *)

(** The provider edges a static edge receives the sources of, in turn. *)
Definition confirmed_by (svc : gmap string string) (pes : list Edge) (e : Edge) : Edge :=
  fold_left (fun e pe => if confirms svc pe e then add_sources (ed_Sources pe) e else e) pes e.

Definition edges_of (others : list (string * Evidence)) : list Edge := concat (map (ev_Edges ∘ snd) others).

(** Identity: everything of an edge but its sources and its state. *)
Definition identity (e : Edge) : string * string * string * string * string * string * string * string * Meta :=
  (ed_ID e, ed_From e, ed_To e, ed_Type e, ed_Label e, ed_Confidence e, ed_Method e, ed_Path e, ed_Meta e).

Lemma confirms_identity svc pe e e' : identity e = identity e' -> confirms svc pe e = confirms svc pe e'.
Proof. intros [= _ H1 H2 H3 H4 _ _ _ _]. unfold confirms, keyOf, serviceCompatible. by rewrite H1, H2, H3, H4. Qed.

Lemma confirmed_identity svc pes e : identity (confirmed_by svc pes e) = identity e.
Proof.
  unfold confirmed_by. revert e. induction pes as [|pe pes IH]; intros e; cbn; [done|]. rewrite IH.
  by destruct (confirms svc pe e).
Qed.

Lemma fuse_edge_edges svc name st pe :
  rc_edges (fuse_edge svc name st pe) = map (fun e => if confirms svc pe e then add_sources (ed_Sources pe) e else e) (rc_edges st).
Proof.
  unfold fuse_edge. destruct (existsb (confirms svc pe) (rc_edges st)) eqn:E; [done|].
  assert (Hno : map (fun e => if confirms svc pe e then add_sources (ed_Sources pe) e else e) (rc_edges st) = rc_edges st).
  { rewrite <- (map_id (rc_edges st)) at 2. apply map_ext_in. intros e He%list_elem_of_In.
    destruct (confirms svc pe e) eqn:Ec; [|done].
    assert (H : existsb (confirms svc pe) (rc_edges st) = true) by (apply existsb_elem; by exists e). congruence. }
  rewrite Hno. destruct (gap_ends pe) as [from to]. destruct (existsb _ (rc_gaps st)); [done|].
  by destruct (fold_left _ _ _).
Qed.

Lemma fuse_edges_edges svc name pes st :
  rc_edges (fold_left (fuse_edge svc name) pes st) = map (confirmed_by svc pes) (rc_edges st).
Proof.
  revert st. induction pes as [|pe pes IH]; intros st; cbn [fold_left]; [by rewrite map_id|].
  rewrite IH, fuse_edge_edges, map_map. by apply map_ext.
Qed.

Lemma confirmed_app svc l1 l2 e : confirmed_by svc (l1 ++ l2) e = confirmed_by svc l2 (confirmed_by svc l1 e).
Proof. apply fold_left_app. Qed.

Lemma fuse_providers_edges svc others st :
  rc_edges (fold_left (fuse_provider svc) others st) = map (confirmed_by svc (edges_of others)) (rc_edges st).
Proof.
  revert st. induction others as [|[name ev] others IH]; intros st; cbn [fold_left]; [by rewrite map_id|].
  rewrite IH. unfold fuse_provider. destruct (fold_left add_node_once _ _). cbn [rc_edges].
  rewrite fuse_edges_edges, map_map. apply map_ext. intros e. symmetry. apply (confirmed_app svc (ev_Edges ev)).
Qed.

(** A test of keys holds of some source of a confirmed edge as soon as it
    holds of one of its own or of a confirming edge's. *)
Lemma confirmed_exists (P : SourceRef -> bool) svc pes e :
  (forall s s', source_key s = source_key s' -> P s = P s') ->
  existsb P (ed_Sources (confirmed_by svc pes e)) =
  existsb P (ed_Sources e) || existsb (fun pe => confirms svc pe e && existsb P (ed_Sources pe)) pes.
Proof.
  intros HP. unfold confirmed_by. revert e. induction pes as [|pe pes IH]; intros e; cbn; [by rewrite orb_false_r|].
  rewrite IH. destruct (confirms svc pe e) eqn:E; cbn; [|done].
  by rewrite appendSource_exists, <- orb_assoc by done.
Qed.

(** ** States *)

Definition provides (p : string) (srcs : list SourceRef) : bool := existsb (fun s => str_eqb (s_Provider s) p) srcs.

(** A provider's edge that pins the connection, and one that only attests the
    route. *)
Definition pins (pe : Edge) : bool := provides "runtime" (ed_Sources pe) || provides "config" (ed_Sources pe).
Definition attests (pe : Edge) : bool := provides "contract" (ed_Sources pe).

(** A static match that fanned out over several services. *)
Definition ambiguous (e : Edge) : bool :=
  existsb (fun s => is_static s && str_eqb (s_Confidence s) ConfidencePartial) (ed_Sources e).

Lemma existsb_perm {A} (p : A -> bool) l l' : l ≡ₚ l' -> existsb p l = existsb p l'.
Proof. intros H. apply eq_true_iff_eq. rewrite !existsb_elem. by setoid_rewrite H. Qed.

Lemma computeState_perm l l' : l ≡ₚ l' -> computeState l = computeState l'.
Proof. intros H. unfold computeState. by rewrite !(existsb_perm _ _ _ H). Qed.

Lemma computeGranularity_perm l l' : l ≡ₚ l' -> computeGranularity l = computeGranularity l'.
Proof. intros H. unfold computeGranularity. by rewrite (existsb_perm _ _ _ H). Qed.

Lemma provides_key p : forall s s', source_key s = source_key s' -> str_eqb (s_Provider s) p = str_eqb (s_Provider s') p.
Proof. by intros s s' [= -> _]. Qed.

Section fused.
Context (svc : gmap string string) (pes : list Edge).

(** What the collectors guarantee: the static provider stamps its own source
    on each edge and nothing else, the others never speak for it. *)
Definition only_static (e : Edge) : Prop := ed_Sources e <> [] /\ forall s, s ∈ ed_Sources e -> is_static s = true.
Definition no_static (pe : Edge) : Prop := forall s, s ∈ ed_Sources pe -> is_static s = false.

Hypothesis Hpes : forall pe, pe ∈ pes -> no_static pe.

Lemma confirmed_ambiguous e : ambiguous (confirmed_by svc pes e) = ambiguous e.
Proof.
  unfold confirmed_by. revert e. induction pes as [|pe l IH]; intros e; cbn; [done|].
  rewrite IH by (intros pe' H; apply Hpes; by right). destruct (confirms svc pe e); [|done].
  unfold ambiguous. cbn [ed_Sources add_sources with_sources]. destruct (appendSource_spec (ed_Sources e) (ed_Sources pe)) as (H1 & H2 & _).
  apply eq_true_iff_eq. rewrite !existsb_elem. split; intros (s & Hs & Hp).
  - destruct (H1 s Hs) as [?|Hs']; [by exists s|]. rewrite (Hpes pe) in Hp by (done || left). done.
  - exists s. split; [by apply H2|done].
Qed.

Lemma existsb_andb_orb {A} (p q r : A -> bool) l :
  existsb (fun x => p x && (q x || r x)) l = existsb (fun x => p x && q x) l || existsb (fun x => p x && r x) l.
Proof.
  induction l as [|x l IH]; cbn; [done|]. rewrite IH. destruct (p x), (q x), (r x); cbn; try done;
    by rewrite ?orb_true_r.
Qed.

Lemma existsb_const {A} (p : A -> bool) b l : l <> [] -> (forall x, x ∈ l -> p x = b) -> existsb p l = b.
Proof.
  intros Hne H. destruct b.
  - destruct l as [|x l]; [done|]. cbn. rewrite (H x) by left. done.
  - apply negb_true_iff, not_existsb. done.
Qed.

(** The state of a static edge after fusion. *)
Lemma confirmed_state e : only_static e ->
  computeState (ed_Sources (confirmed_by svc pes e)) =
  if existsb (fun pe => confirms svc pe e && pins pe) pes then StateVerified
  else if existsb (fun pe => confirms svc pe e && attests pe) pes && negb (ambiguous e) then StateVerified
  else StateCandidate.
Proof.
  intros [Hne Hst]. unfold computeState. rewrite !(confirmed_exists _ svc pes e) by apply provides_key.
  fold (ambiguous (confirmed_by svc pes e)). rewrite confirmed_ambiguous.
  assert (Hown : forall p, existsb (fun s => str_eqb (s_Provider s) p) (ed_Sources e) = str_eqb "static" p).
  { intros p. assert (Hp : forall s, s ∈ ed_Sources e -> str_eqb (s_Provider s) p = str_eqb "static" p).
    { intros s Hs. specialize (Hst s Hs). unfold is_static in Hst. by apply Stdlib.Strings.String.eqb_eq in Hst as ->. }
    by apply existsb_const. }
  rewrite !Hown. change (str_eqb "static" "static") with true.
  change (str_eqb "static" "runtime") with false. change (str_eqb "static" "config") with false.
  change (str_eqb "static" "contract") with false. cbn [orb andb].
  rewrite <- existsb_andb_orb. fold (provides "runtime"). reflexivity.
Qed.
End fused.

(** ** Gaps *)

Section gaps.
Context (svc : gmap string string) (static : list Edge).

(** No static edge explains the provider's edge. *)
Definition unexplained (pe : Edge) : Prop := forall e, e ∈ static -> confirms svc pe e = false.

(** A gap edge stands for a provider's edge. *)
Definition gap_of (pe g : Edge) : Prop :=
  let '(from, to) := gap_ends pe in
  ed_ID g = syntheticEdgeID pe from to /\ ed_From g = from /\ ed_To g = to /\ ed_Type g = ed_Type pe /\
  ed_Label g = ed_Label pe.

Definition gap_id (pe : Edge) : string := let '(from, to) := gap_ends pe in syntheticEdgeID pe from to.

Record gaps_inv (done : list Edge) (st : recState) : Prop := {
  gi_edges : map identity (rc_edges st) = map identity static;
  gi_nodup : NoDup (map ed_ID (rc_gaps st));
  gi_from : forall g, g ∈ rc_gaps st -> exists pe, pe ∈ done /\ unexplained pe /\ gap_of pe g;
  gi_sources : forall g s, g ∈ rc_gaps st -> s ∈ ed_Sources g -> exists pe, pe ∈ done /\ s ∈ ed_Sources pe;
  gi_all : forall pe, pe ∈ done -> unexplained pe ->
    exists g, g ∈ rc_gaps st /\ ed_ID g = gap_id pe /\ forall s, s ∈ ed_Sources pe -> carries g s;
  gi_ends : forall g, g ∈ rc_gaps st -> ed_From g ∈ rc_nodeIDs st /\ ed_To g ∈ rc_nodeIDs st;
  gi_nodes : forall id, id ∈ rc_nodeIDs st <-> id ∈ map n_ID (rc_nodes st)
}.

Lemma add_node_once_spec nodes ids n : (forall id, id ∈ ids <-> id ∈ map n_ID nodes) ->
  let '(nodes', ids') := add_node_once (nodes, ids) n in
  (forall id, id ∈ ids' <-> id ∈ map n_ID nodes') /\ (forall id, id ∈ ids -> id ∈ ids') /\ n_ID n ∈ ids' /\
  exists extra, nodes' = nodes ++ extra.
Proof.
  intros H. unfold add_node_once. case_decide as Hin.
  { split_and!; [done|done|done|]. exists []. by rewrite app_nil_r. }
  split_and!; [|set_solver|set_solver|by eexists].
  intros id. rewrite map_app, elem_of_app, <- H. cbn. rewrite list_elem_of_singleton. set_solver.
Qed.

Lemma add_nodes_once_spec nodes ids ns : (forall id, id ∈ ids <-> id ∈ map n_ID nodes) ->
  let '(nodes', ids') := fold_left add_node_once ns (nodes, ids) in
  (forall id, id ∈ ids' <-> id ∈ map n_ID nodes') /\ (forall id, id ∈ ids -> id ∈ ids') /\
  (forall n, n ∈ ns -> n_ID n ∈ ids') /\ exists extra, nodes' = nodes ++ extra.
Proof.
  revert nodes ids. induction ns as [|n ns IH]; intros nodes ids H; cbn [fold_left].
  { split_and!; [done|done|by intros ? ?%not_elem_of_nil|]. exists []. by rewrite app_nil_r. }
  pose proof (add_node_once_spec nodes ids n H) as Hn. destruct (add_node_once (nodes, ids) n) as [nodes1 ids1].
  destruct Hn as (H1 & H2 & H3 & [x ->]). specialize (IH _ ids1 H1).
  destruct (fold_left add_node_once ns _) as [nodes' ids']. destruct IH as (I1 & I2 & I3 & [y ->]).
  split_and!; [done|auto| |].
  - intros m [->|Hm]%elem_of_cons; auto.
  - exists (x ++ y). by rewrite app_assoc.
Qed.

Lemma explained_here st pe : map identity (rc_edges st) = map identity static ->
  (existsb (confirms svc pe) (rc_edges st) = false <-> unexplained pe).
Proof.
  intros H. assert (Hex : existsb (confirms svc pe) (rc_edges st) = existsb (confirms svc pe) static).
  { revert H. generalize (rc_edges st). clear. induction static as [|e l IH]; intros [|e' l'] H; try done. cbn in *.
    injection H as He Hl. rewrite (IH l') by done. f_equal. apply confirms_identity. unfold identity. congruence. }
  rewrite Hex. split.
  - intros E e He. destruct (confirms svc pe e) eqn:Ec; [|done].
    assert (existsb (confirms svc pe) static = true) by (apply existsb_elem; by exists e). congruence.
  - intros Hu. apply negb_true_iff, not_existsb. intros e He. by apply Hu.
Qed.

Lemma gap_id_of pe g : gap_of pe g -> ed_ID g = gap_id pe.
Proof. unfold gap_of, gap_id. destruct (gap_ends pe). tauto. Qed.

Lemma identity_after st pe : map identity (map (fun e => if confirms svc pe e then add_sources (ed_Sources pe) e else e) (rc_edges st)) =
  map identity (rc_edges st).
Proof. rewrite map_map. apply map_ext. intros e. by destruct (confirms svc pe e). Qed.

Lemma carries_add srcs g s : carries g s -> carries (add_sources srcs g) s.
Proof.
  intros (s' & Hs & E). exists s'. split; [|done]. cbn. by apply appendSource_spec.
Qed.

(** The state with other static edges, gaps, nodes. *)
Definition set_fused (st : recState) (edges gaps : list Edge) (nodes : list Node) (ids : gset string) : recState :=
  mkRec edges gaps nodes ids (rc_unresolved st) (rc_clears st) (rc_locClears st).

Lemma gaps_skip done st pe edges : gaps_inv done st -> map identity edges = map identity static -> ~ unexplained pe ->
  gaps_inv (done ++ [pe]) (set_fused st edges (rc_gaps st) (rc_nodes st) (rc_nodeIDs st)).
Proof.
  intros [I1 I2 I3 I4 I5 I6 I7] He Hu. split; cbn; try done.
  - intros g Hg. destruct (I3 g Hg) as (x & Hx & Hr). exists x. rewrite elem_of_app. auto.
  - intros g s Hg Hs. destruct (I4 g s Hg Hs) as (x & Hx & Hr). exists x. rewrite elem_of_app. auto.
  - intros x [Hx|Hx%list_elem_of_singleton]%elem_of_app Hx'; [by apply I5|]. by subst x.
Qed.

Lemma gaps_merge done st pe : gaps_inv done st ->
  existsb (fun g => str_eqb (ed_ID g) (gap_id pe)) (rc_gaps st) = true ->
  gaps_inv (done ++ [pe]) (set_fused st (rc_edges st)
    (map (fun g => if str_eqb (ed_ID g) (gap_id pe) then add_sources (ed_Sources pe) g else g) (rc_gaps st))
    (rc_nodes st) (rc_nodeIDs st)).
Proof.
  intros [I1 I2 I3 I4 I5 I6 I7] Hex. set (upd := fun g => if str_eqb (ed_ID g) (gap_id pe) then add_sources (ed_Sources pe) g else g).
  assert (Hid : forall g, identity (upd g) = identity g) by (intros g; unfold upd; by destruct (str_eqb _ _)).
  assert (Hback : forall g, g ∈ map upd (rc_gaps st) -> exists g0, g0 ∈ rc_gaps st /\ g = upd g0).
  { intros g (g0 & -> & Hg0)%list_elem_of_fmap. by exists g0. }
  assert (Hcar : forall g s, carries g s -> carries (upd g) s).
  { intros g s. unfold upd. destruct (str_eqb _ _); [apply carries_add|done]. }
  split; cbn.
  - done.
  - rewrite map_map. erewrite map_ext; [exact I2|]. intros g. by pose proof (Hid g) as [= -> _].
  - intros g (g0 & Hg0 & ->)%Hback. destruct (I3 g0 Hg0) as (x & Hx & Hu & Hg). exists x. rewrite elem_of_app.
    split; [by left|]. split; [done|]. unfold gap_of in *. pose proof (Hid g0) as [= -> -> -> -> -> _ _ _ _]. exact Hg.
  - intros g s (g0 & Hg0 & ->)%Hback Hs. unfold upd in Hs. destruct (str_eqb (ed_ID g0) (gap_id pe)).
    + cbn in Hs. apply appendSource_spec in Hs as [Hs|Hs].
      * destruct (I4 g0 s Hg0 Hs) as (x & Hx & Hr). exists x. rewrite elem_of_app. auto.
      * exists pe. rewrite elem_of_app. split; [right; left|done].
    + destruct (I4 g0 s Hg0 Hs) as (x & Hx & Hr). exists x. rewrite elem_of_app. auto.
  - intros x [Hx|Hx%list_elem_of_singleton]%elem_of_app Hu.
    + destruct (I5 x Hx Hu) as (g & Hg & Eg & Hc). exists (upd g).
      split_and!; [apply list_elem_of_fmap; by exists g|by pose proof (Hid g) as [= -> _]|auto].
    + subst x. apply existsb_elem in Hex as (g & Hg & Eg). exists (upd g). split_and!.
      * apply list_elem_of_fmap. by exists g.
      * pose proof (Hid g) as [= -> _]. by apply Stdlib.Strings.String.eqb_eq in Eg.
      * intros s Hs. unfold upd. rewrite Eg. destruct (appendSource_spec (ed_Sources g) (ed_Sources pe)) as (_ & _ & H3).
        destruct (H3 s Hs) as (s' & Hs' & E). by exists s'.
  - intros g (g0 & Hg0 & ->)%Hback. pose proof (Hid g0) as [= _ -> -> _ _ _ _ _ _]. by apply I6.
  - done.
Qed.

Lemma gaps_mint name done st pe : gaps_inv done st -> unexplained pe ->
  existsb (fun g => str_eqb (ed_ID g) (gap_id pe)) (rc_gaps st) = false ->
  let '(from, to) := gap_ends pe in
  let '(nodes, ids) := fold_left (fun s nodeID => add_node_once s (gap_node name pe from to nodeID)) [from; to]
    (rc_nodes st, rc_nodeIDs st) in
  gaps_inv (done ++ [pe]) (set_fused st (rc_edges st) (rc_gaps st ++ [gap_edge pe from to]) nodes ids).
Proof.
  intros [I1 I2 I3 I4 I5 I6 I7] Hu Hex. unfold gap_id in Hex. destruct (gap_ends pe) as [from to] eqn:Ee.
  set (g0 := gap_edge pe from to). assert (Hof : gap_of pe g0) by (unfold gap_of; by rewrite Ee).
  pose proof (gap_id_of pe g0 Hof) as Hgid.
  pose proof (add_nodes_once_spec (rc_nodes st) (rc_nodeIDs st)
    [gap_node name pe from to from; gap_node name pe from to to] I7) as Hn. cbn [fold_left] in *.
  destruct (add_node_once (add_node_once _ _) _) as [nodes ids]. destruct Hn as (H1 & H2 & H3 & _).
  assert (Hsub : forall x, x ∈ done -> x ∈ done ++ [pe]) by (intros; apply elem_of_app; by left).
  assert (Hpe : pe ∈ done ++ [pe]) by (apply elem_of_app; right; left).
  split; cbn; [done| | | | | |done].
  - rewrite map_app. apply NoDup_app. split_and!; [done| |apply NoDup_singleton].
    intros id (g & -> & Hg)%list_elem_of_fmap Hid%list_elem_of_singleton.
    pose proof (proj1 (not_existsb _ _) (proj2 (negb_true_iff _) Hex) g Hg) as Hne.
    apply Stdlib.Strings.String.eqb_neq in Hne. by apply Hne.
  - intros g [Hg|Hg%list_elem_of_singleton]%elem_of_app.
    + destruct (I3 g Hg) as (x & Hx & Hr). exists x. auto.
    + subst g. by exists pe.
  - intros g s [Hg|Hg%list_elem_of_singleton]%elem_of_app Hs.
    + destruct (I4 g s Hg Hs) as (x & Hx & Hr). exists x. auto.
    + subst g. by exists pe.
  - intros x [Hx|Hx%list_elem_of_singleton]%elem_of_app Hux.
    + destruct (I5 x Hx Hux) as (g & Hg & Hr). exists g. split; [apply elem_of_app; by left|done].
    + subst x. exists g0. split; [apply elem_of_app; right; left|]. split; [exact Hgid|].
      intros s Hs. by exists s.
  - intros g [Hg|Hg%list_elem_of_singleton]%elem_of_app.
    + destruct (I6 g Hg). auto.
    + subst g. split; [apply (H3 (gap_node name pe from to from)); left|].
      apply (H3 (gap_node name pe from to to)). right. left.
Qed.


Lemma fuse_edge_gaps name done st pe : gaps_inv done st -> gaps_inv (done ++ [pe]) (fuse_edge svc name st pe).
Proof.
  intros I. unfold fuse_edge. destruct (existsb (confirms svc pe) (rc_edges st)) eqn:Ex.
  { apply (gaps_skip done st pe); [done|by rewrite identity_after, (gi_edges _ _ I)|].
    intros Hu. apply (explained_here st pe (gi_edges _ _ I)) in Hu. congruence. }
  apply (explained_here st pe (gi_edges _ _ I)) in Ex. pose proof (gaps_merge done st pe I) as Hm.
  pose proof (gaps_mint name done st pe I Ex) as Hn. unfold gap_id in *. destruct (gap_ends pe) as [from to].
  destruct (existsb _ (rc_gaps st)); [by apply Hm|]. specialize (Hn eq_refl).
  destruct (fold_left _ [from; to] _) as [nodes ids]. exact Hn.
Qed.

Lemma fuse_edges_gaps name pes done st : gaps_inv done st ->
  gaps_inv (done ++ pes) (fold_left (fuse_edge svc name) pes st).
Proof.
  revert done st. induction pes as [|pe pes IH]; intros done st I; cbn [fold_left]; [by rewrite app_nil_r|].
  replace (done ++ pe :: pes) with ((done ++ [pe]) ++ pes) by by rewrite <- app_assoc.
  by apply IH, fuse_edge_gaps.
Qed.

Lemma fuse_providers_gaps others done st : gaps_inv done st ->
  gaps_inv (done ++ edges_of others) (fold_left (fuse_provider svc) others st).
Proof.
  revert done st. induction others as [|[name ev] others IH]; intros done st I; cbn [fold_left].
  { unfold edges_of. cbn. by rewrite app_nil_r. }
  replace (done ++ edges_of ((name, ev) :: others)) with ((done ++ ev_Edges ev) ++ edges_of others)
    by (unfold edges_of; cbn; by rewrite <- app_assoc).
  apply IH. unfold fuse_provider. apply (fuse_edges_gaps name (ev_Edges ev)) in I. revert I.
  generalize (fold_left (fuse_edge svc name) (ev_Edges ev) st). intros st1 [I1 I2 I3 I4 I5 I6 I7].
  pose proof (add_nodes_once_spec (rc_nodes st1) (rc_nodeIDs st1) (ev_Nodes ev) I7) as Hn.
  destruct (fold_left add_node_once _ _) as [nodes ids]. destruct Hn as (H1 & H2 & _ & _).
  split; cbn; try done. intros g Hg. destruct (I6 g Hg). auto.
Qed.
End gaps.

(** ** The whole reconciliation *)

(** A run of the static provider followed by the other ones. *)
Definition run_of {E} (nodes : list Node) (edges : list Edge) (unres : list UnresolvedRef)
    (others : list (string * Evidence)) : list (Provider E) :=
  ("static", Ok (StaticCollect nodes edges unres)) :: map (fun c => (fst c, Ok (snd c))) others.

(** The others are not called static, and their edges name no static source. *)
Definition no_impostor (others : list (string * Evidence)) : Prop :=
  (forall c, c ∈ others -> fst c <> "static") /\ forall pe, pe ∈ edges_of others -> no_static pe.

Definition stamped (nodes : list Node) (edges : list Edge) : list Edge := map (stamp_edge (node_index nodes)) edges.
Definition run_services (nodes : list Node) : gmap string string := services_of (StaticCollect nodes [] []).

(** What fusion makes of a static edge. *)
Definition fused (svc : gmap string string) (pes : list Edge) (e : Edge) : Edge := recompute (confirmed_by svc pes e).

Lemma collect_run {E} nodes edges unres others :
  collect_all (run_of (E := E) nodes edges unres others) = Ok (("static", StaticCollect nodes edges unres) :: others).
Proof.
  unfold run_of. cbn [collect_all]. replace (collect_all _) with (Ok (E := RecError E) others); [done|].
  induction others as [|[n ev] others IH]; cbn; [done|]. by rewrite <- IH.
Qed.

Lemma others_only others ev0 : (forall c, c ∈ others -> fst c <> "static") ->
  fold_left (fun ev c => if str_eqb (fst c) "static" then snd c else ev) others ev0 = ev0 /\
  other_evidence others = others.
Proof.
  unfold other_evidence. revert ev0. induction others as [|[n ev] others IH]; intros ev0 H; [done|].
  cbn [fold_left List.filter fst snd].
  assert (Hn : str_eqb n "static" = false) by (apply Stdlib.Strings.String.eqb_neq; apply (H (n, ev)); left).
  rewrite Hn. cbn [negb]. destruct (IH ev0) as [-> ->]; [|done]. intros c Hc. apply H. by right.
Qed.

Lemma split_run nodes edges unres others : (forall c, c ∈ others -> fst c <> "static") ->
  static_evidence (("static", StaticCollect nodes edges unres) :: others) = StaticCollect nodes edges unres /\
  other_evidence (("static", StaticCollect nodes edges unres) :: others) = others.
Proof. intros H. destruct (others_only others (StaticCollect nodes edges unres) H) as [E1 E2]. split; [exact E1|exact E2]. Qed.

Lemma stamp_edge_spec byID e :
  exists s, ed_Sources (stamp_edge byID e) = [s] /\ is_static s = true /\ s_Rule s <> "" /\
    s_Confidence s = confidence_or_candidate e.
Proof.
  unfold stamp_edge. destruct (List.find is_static (ed_Sources e)) as [src|]; cbn [fst snd].
  - destruct (str_eqb (s_Rule src) "") eqn:Er; eexists; (split; [reflexivity|]); split_and!; try done. cbn.
    by apply Stdlib.Strings.String.eqb_neq.
  - change (str_eqb "" "") with true. cbn [fst snd]. eexists. split; [reflexivity|]. done.
Qed.

Lemma stamped_static nodes edges e : e ∈ stamped nodes edges -> only_static e.
Proof.
  intros (x & -> & _)%list_elem_of_fmap. destruct (stamp_edge_spec (node_index nodes) x) as (s & Es & Hs & _). unfold only_static. rewrite Es.
  split; [done|]. by intros s' ->%list_elem_of_singleton.
Qed.

(** A static source of an edge after fusion is one the static provider set. *)
Lemma static_source_kept svc pes e s : (forall pe, pe ∈ pes -> no_static pe) ->
  s ∈ ed_Sources (confirmed_by svc pes e) -> is_static s = true -> s ∈ ed_Sources e.
Proof.
  unfold confirmed_by. revert e. induction pes as [|pe pes IH]; intros e H; cbn; [done|]. intros Hs Hst.
  apply IH in Hs; [|intros; apply H; by right|done]. destruct (confirms svc pe e); [|done].
  apply appendSource_spec in Hs as [Hs|Hs]; [done|]. rewrite (H pe) in Hst by (done || left). done.
Qed.

Lemma confirmed_rules nodes edges pes svc e : (forall pe, pe ∈ pes -> no_static pe) -> e ∈ stamped nodes edges ->
  forall s, s ∈ ed_Sources (confirmed_by svc pes e) -> is_static s = true -> s_Rule s <> "".
Proof.
  intros H (x & -> & _)%list_elem_of_fmap s Hs Hst.
  destruct (stamp_edge_spec (node_index nodes) x) as (s0 & Es & _ & Hr & _).
  apply (static_source_kept svc pes _ s H) in Hs; [|done]. rewrite Es in Hs. by apply list_elem_of_singleton in Hs as ->.
Qed.

Lemma recompute_sources e s : s ∈ ed_Sources (recompute e) <-> s ∈ ed_Sources e.
Proof. unfold recompute. cbn. unfold sortSources. apply elem_of_sort_slice. Qed.

Lemma recompute_state e : ed_VerificationState (recompute e) = computeState (ed_Sources e).
Proof. unfold recompute. cbn. apply computeState_perm, sort_slice_perm. Qed.

Lemma detect_identity ch e : identity (detect_conflict ch e) = identity e /\ ed_Sources (detect_conflict ch e) = ed_Sources e.
Proof. unfold detect_conflict. by destruct (_ && _). Qed.

(** The state of an edge no static source speaks for. *)
Lemma gap_state g : no_static g ->
  computeState (ed_Sources g) = if pins g || attests g then StateObservedOnlyGap else StateCandidate.
Proof.
  intros H. unfold computeState, pins, attests, provides.
  replace (existsb (fun s => str_eqb (s_Provider s) "static") (ed_Sources g)) with false; [done|].
  symmetry. apply negb_true_iff, not_existsb. exact H.
Qed.

Lemma confirmed_not_gap svc pes e : (forall pe, pe ∈ pes -> no_static pe) -> only_static e ->
  str_eqb (ed_VerificationState (fused svc pes e)) StateObservedOnlyGap = false.
Proof.
  intros Hp He. unfold fused. rewrite recompute_state, confirmed_state by done.
  by destruct (existsb _ pes); [|destruct (existsb _ pes && _)].
Qed.

(** The end of the fusion: the static edges in their place, the gaps that
    conflict with a verified channel marked. *)
Definition settled (svc : gmap string string) (pes static gaps : list Edge) : list Edge :=
  map (fun g => detect_conflict (verified_channels (map (fused svc pes) static)) (recompute g)) gaps.

Lemma verified_channels_app l gaps : (forall g, g ∈ gaps -> ed_VerificationState g <> StateVerified) ->
  verified_channels (l ++ gaps) = verified_channels l.
Proof.
  intros H. unfold verified_channels. rewrite List.filter_app.
  replace (List.filter _ gaps) with (@nil Edge); [by rewrite app_nil_r|].
  induction gaps as [|g gaps IH]; cbn; [done|]. replace (str_eqb _ _) with false.
  - apply IH. intros. apply H. by right.
  - symmetry. apply Stdlib.Strings.String.eqb_neq, H. left.
Qed.

Lemma fused_edges_settled svc pes static st : (forall pe, pe ∈ pes -> no_static pe) ->
  (forall e, e ∈ static -> only_static e) -> (forall g, g ∈ rc_gaps st -> no_static g) ->
  rc_edges st = map (confirmed_by svc pes) static ->
  fused_edges st = map (fused svc pes) static ++ settled svc pes static (rc_gaps st).
Proof.
  intros Hp Hs Hg He. unfold fused_edges, settled. rewrite He, !map_app, !map_map.
  change (map (fun x => recompute (confirmed_by svc pes x)) static) with (map (fused svc pes) static).
  rewrite verified_channels_app.
  - f_equal. apply map_ext_in. intros e Hin%list_elem_of_In. unfold detect_conflict.
    pose proof (confirmed_not_gap svc pes e Hp (Hs e Hin)) as Hc. unfold fused in Hc |- *. by rewrite Hc.
  - intros g (x & -> & Hx)%list_elem_of_fmap. rewrite recompute_state, gap_state by auto. by destruct (_ || _).
Qed.

(** ** What the fusion does not know about *)

Definition unresolved_of (others : list (string * Evidence)) : list UnresolvedRef := concat (map (ev_Unresolved ∘ snd) others).
Definition clears_of (others : list (string * Evidence)) : list UnresolvedRef := concat (map (ev_ClearsUnresolved ∘ snd) others).
Definition locations_of (others : list (string * Evidence)) : list UnresolvedLocation :=
  concat (map (ev_ClearsByLocation ∘ snd) others).

(** A provider says it has dealt with the reference. *)
Definition dealt_with (others : list (string * Evidence)) (u : UnresolvedRef) : bool :=
  existsb (same_ref u) (clears_of others) || (dynamic_kind (u_Kind u) && existsb (at_location u) (locations_of others)).

Definition ledgers (st : recState) : list UnresolvedRef * list UnresolvedRef * list UnresolvedLocation :=
  (rc_unresolved st, rc_clears st, rc_locClears st).

Lemma fuse_edges_ledgers svc name pes st : ledgers (fold_left (fuse_edge svc name) pes st) = ledgers st.
Proof.
  revert st. induction pes as [|pe pes IH]; intros st; [done|]. cbn [fold_left]. rewrite IH. unfold fuse_edge.
  destruct (existsb _ (rc_edges st)); [done|]. destruct (gap_ends pe). destruct (existsb _ (rc_gaps st)); [done|].
  by destruct (fold_left _ _ _).
Qed.

Lemma fuse_providers_ledgers svc others st :
  ledgers (fold_left (fuse_provider svc) others st) =
  (rc_unresolved st ++ unresolved_of others, rc_clears st ++ clears_of others, rc_locClears st ++ locations_of others).
Proof.
  unfold unresolved_of, clears_of, locations_of. revert st.
  induction others as [|[name ev] others IH]; intros st; cbn [fold_left map concat]; [by rewrite !app_nil_r|].
  rewrite IH. pose proof (fuse_edges_ledgers svc name (ev_Edges ev) st) as H. unfold fuse_provider.
  destruct (fold_left add_node_once _ _). injection H as H1 H2 H3. cbn [rc_unresolved rc_clears rc_locClears].
  by rewrite H1, H2, H3, !app_assoc.
Qed.

Lemma gaps_start svc nodes static unres :
  gaps_inv svc static [] (initial (mkEvidence nodes static unres [] [])).
Proof.
  split; cbn; [done|constructor|..].
  - by intros ? ?%not_elem_of_nil.
  - by intros ? ? ?%not_elem_of_nil.
  - by intros ? ?%not_elem_of_nil.
  - by intros ? ?%not_elem_of_nil.
  - intros id. by rewrite elem_of_list_to_set.
Qed.

Lemma no_bad_rule edges : (forall e s, e ∈ edges -> s ∈ ed_Sources e -> is_static s = true -> s_Rule s <> "") ->
  ValidateStaticProvenance edges = [].
Proof.
  intros H. unfold ValidateStaticProvenance. induction edges as [|e edges IH]; [done|]. cbn.
  replace (existsb _ (ed_Sources e)) with false; [apply IH; intros; eapply H; [by right|done|done]|].
  symmetry. apply negb_true_iff, not_existsb. intros s Hs. destruct (is_static s) eqn:E; [|done].
  apply Stdlib.Strings.String.eqb_neq. eapply H; [by left|done|done].
Qed.

(** A run succeeds, and the whole of its answer. *)
Lemma reconcile_run E nodes edges unres others : no_impostor others ->
  let svc := run_services nodes in
  let pes := edges_of others in
  let static := stamped nodes edges in
  exists st rr, gaps_inv svc static pes st /\ (forall g, g ∈ rc_gaps st -> no_static g) /\
    Reconcile (run_of (E := E) nodes edges unres others) = Ok rr /\ rr_Nodes rr = rc_nodes st /\
    rr_Edges rr ≡ₚ map (fused svc pes) static ++ settled svc pes static (rc_gaps st) /\
    rr_Unresolved rr = unresolved_of others ++ List.filter (fun u => negb (dealt_with others u)) unres.
Proof.
  intros [Hn Hp] svc pes static. unfold Reconcile. rewrite collect_run.
  destruct (split_run nodes edges unres others Hn) as [-> ->].
  change (services_of (StaticCollect nodes edges unres)) with svc.
  pose proof (fuse_providers_gaps svc static others [] _ (gaps_start svc nodes static unres)) as I.
  pose proof (fuse_providers_edges svc others (initial (StaticCollect nodes edges unres))) as He.
  pose proof (fuse_providers_ledgers svc others (initial (StaticCollect nodes edges unres))) as Hl.
  change (mkEvidence nodes static unres [] []) with (StaticCollect nodes edges unres) in I.
  set (st := fold_left _ others _) in *. cbn [app] in I. fold pes in I, He. injection Hl as Hu Hc Hc'.
  assert (Hg : forall g, g ∈ rc_gaps st -> no_static g).
  { intros g Hg s Hs. destruct (gi_sources _ _ _ _ I g s Hg Hs) as (pe & Hpe & Hs'). by apply (Hp pe). }
  assert (Hf : fused_edges st = map (fused svc pes) static ++ settled svc pes static (rc_gaps st)).
  { apply fused_edges_settled; [done| |done|done]. intros e. apply stamped_static. }
  exists st. unfold finish. rewrite no_bad_rule.
  - eexists. split_and!; [exact I|exact Hg|reflexivity|done| |].
    + cbn. rewrite sort_slice_perm. by rewrite Hf.
    + cbn. rewrite Hu. f_equal. apply List.filter_ext. intros u. unfold cleared, dealt_with. by rewrite Hc, Hc'.
  - intros e s. rewrite elem_of_sort_slice, Hf, elem_of_app. intros [Hin|Hin]; apply list_elem_of_fmap in Hin as (x & -> & Hx).
    + intros Hs%(proj1 (recompute_sources _ s)). exact (confirmed_rules nodes edges pes svc x Hp Hx s Hs).
    + intros Hs Hst. unfold settled in Hs. destruct (detect_identity (verified_channels (map (fused svc pes) static)) (recompute x)) as [_ E0].
      rewrite E0 in Hs. apply (proj1 (recompute_sources x s)) in Hs. rewrite (Hg x Hx) in Hst by done. done.
Qed.

(** ** Verified exactly when two witnesses agree *)

Lemma stamped_ambiguous byID e :
  ambiguous (stamp_edge byID e) = str_eqb (confidence_or_candidate e) ConfidencePartial.
Proof.
  destruct (stamp_edge_spec byID e) as (s & Es & Hs & _ & Hc). unfold ambiguous. rewrite Es. cbn [existsb].
  by rewrite Hs, Hc, orb_false_r.
Qed.

Lemma confirms_stamp svc pe byID e : confirms svc pe (stamp_edge byID e) = confirms svc pe e.
Proof.
  apply confirms_identity. unfold stamp_edge. destruct (List.find _ _) as [s|]; [destruct (str_eqb (s_Rule s) "")|]; done.
Qed.

Lemma identity_stamp byID e : identity (stamp_edge byID e) = identity e.
Proof. unfold stamp_edge. destruct (List.find _ _) as [s|]; [destruct (str_eqb (s_Rule s) "")|]; done. Qed.

Lemma fused_state svc pes byID e : (forall pe, pe ∈ pes -> no_static pe) -> only_static (stamp_edge byID e) ->
  ed_VerificationState (fused svc pes (stamp_edge byID e)) =
  if existsb (fun pe => confirms svc pe e && (pins pe || attests pe && negb (str_eqb (confidence_or_candidate e) ConfidencePartial))) pes
  then StateVerified else StateCandidate.
Proof.
  intros Hp Hs. unfold fused. rewrite recompute_state, confirmed_state, stamped_ambiguous by done.
  induction pes as [|pe l IH]; cbn; [done|]. rewrite confirms_stamp.
  specialize (IH (fun pe' H => Hp pe' ltac:(by right))).
  destruct (confirms svc pe e), (pins pe), (attests pe), (str_eqb _ _); cbn in *; rewrite ?orb_false_r, ?andb_false_r in *;
    try done; destruct (existsb _ l); done.
Qed.

Lemma state_decided {A} (p : A -> bool) l :
  (if existsb p l then StateVerified else StateCandidate) = StateVerified <-> exists x, x ∈ l /\ p x = true.
Proof. rewrite <- existsb_elem. by destruct (existsb p l). Qed.

Lemma match_decided (c p a : bool) (x y : string) :
  c && (p || a && negb (str_eqb x y)) = true <-> c = true /\ (p = true \/ a = true /\ x <> y).
Proof. rewrite andb_true_iff, orb_true_iff, andb_true_iff, negb_true_iff. unfold str_eqb. by rewrite Stdlib.Strings.String.eqb_neq. Qed.

(** C26: a run of the static provider and of others that do not speak for it
    always succeeds. Its answer holds every static edge, itself and nothing
    changed but its sources and its state, and the gaps, none of them verified.
    A static edge is verified exactly when another provider's edge on the same
    channel and of a compatible service comes from the runtime or the
    configuration, or from a contract while the static match is not one of a
    fan-out; it is a candidate otherwise. *)
Theorem Reconcile_verified_exact E nodes edges unres others : no_impostor others ->
  let svc := run_services nodes in
  let answer := fun e => fused svc (edges_of others) (stamp_edge (node_index nodes) e) in
  exists rr gaps, Reconcile (run_of (E := E) nodes edges unres others) = Ok rr /\
    rr_Edges rr ≡ₚ map answer edges ++ gaps /\
    (forall g, g ∈ gaps -> ed_VerificationState g <> StateVerified) /\
    forall e, e ∈ edges -> identity (answer e) = identity e /\
      (ed_VerificationState (answer e) = StateVerified <->
        exists pe, pe ∈ edges_of others /\ confirms svc pe e = true /\
          (pins pe = true \/ attests pe = true /\ confidence_or_candidate e <> ConfidencePartial)) /\
      (ed_VerificationState (answer e) <> StateVerified -> ed_VerificationState (answer e) = StateCandidate).
Proof.
  intros Hno svc answer. destruct (reconcile_run E nodes edges unres others Hno) as (st & rr & I & Hg & Hr & _ & Hed & _).
  exists rr, (settled svc (edges_of others) (stamped nodes edges) (rc_gaps st)). split; [done|].
  split; [by rewrite Hed; unfold stamped, answer; rewrite map_map|]. split.
  - intros g (x & -> & Hx)%list_elem_of_fmap. unfold detect_conflict. destruct (_ && _); [done|].
    rewrite recompute_state, gap_state by auto. by destruct (_ || _).
  - intros e He. assert (Hs : only_static (stamp_edge (node_index nodes) e)).
    { apply (stamped_static nodes edges), list_elem_of_fmap. by exists e. }
    unfold answer. rewrite (fused_state _ _ _ _ (proj2 Hno) Hs). split; [|split].
    + unfold fused. etransitivity; [apply (confirmed_identity svc (edges_of others))|apply identity_stamp].
    + rewrite state_decided. by setoid_rewrite match_decided.
    + by destruct (existsb _ _).
Qed.

(** ** What no static edge explains *)

(** A channel some static edge of the answer is verified on. *)
Definition channel_verified (svc : gmap string string) (pes static : list Edge) (k : channelKey) : Prop :=
  exists e, e ∈ static /\ keyOf e = k /\ ed_VerificationState (fused svc pes e) = StateVerified.

Lemma keyOf_identity e e' : identity e = identity e' -> keyOf e = keyOf e'.
Proof. intros [= _ H1 H2 H3 H4 _ _ _ _]. unfold keyOf. by rewrite H1, H2, H3, H4. Qed.

Lemma identity_fused svc pes e : identity (fused svc pes e) = identity e.
Proof. unfold fused. etransitivity; [|apply (confirmed_identity svc pes)]. done. Qed.

Lemma verified_channels_fused svc pes static k :
  k ∈ verified_channels (map (fused svc pes) static) <-> channel_verified svc pes static k.
Proof.
  unfold verified_channels, channel_verified. rewrite elem_of_list_to_set, list_elem_of_fmap. split.
  - intros (x & -> & Hx). apply elem_of_bfilter in Hx as [Hx Hv]. apply list_elem_of_fmap in Hx as (e & -> & He).
    exists e. split; [done|]. split; [symmetry; apply keyOf_identity, identity_fused|].
    by apply Stdlib.Strings.String.eqb_eq in Hv.
  - intros (e & He & <- & Hv). exists (fused svc pes e). split; [symmetry; apply keyOf_identity, identity_fused|].
    apply elem_of_bfilter. split; [apply list_elem_of_fmap; by exists e|by apply Stdlib.Strings.String.eqb_eq].
Qed.

(** The state of a gap: seen by a provider that can tell, it conflicts when its
    channel is verified elsewhere. *)
Definition gap_verdict (verified : Prop) (g : Edge) : Prop :=
  (pins g || attests g = false -> ed_VerificationState g = StateCandidate) /\
  (pins g || attests g = true -> verified -> ed_VerificationState g = StateConflicting) /\
  (pins g || attests g = true -> ~ verified -> ed_VerificationState g = StateObservedOnlyGap).

Lemma observed_recompute g : pins (recompute g) || attests (recompute g) = pins g || attests g.
Proof.
  unfold pins, attests, provides, recompute, with_sources, sortSources. cbn [ed_Sources].
  by rewrite !(existsb_perm _ _ _ (sort_slice_perm _ _)).
Qed.

Lemma detect_state ch g : no_static g ->
  ed_VerificationState (detect_conflict ch (recompute g)) =
  if pins g || attests g then if bool_decide (keyOf g ∈ ch) then StateConflicting else StateObservedOnlyGap
  else StateCandidate.
Proof.
  intros Hn. pose proof (recompute_state g) as Hs. rewrite (gap_state g Hn) in Hs. unfold detect_conflict. rewrite Hs.
  rewrite (keyOf_identity (recompute g) g) by done.
  destruct (pins g || attests g); [|exact Hs]. by case_bool_decide.
Qed.

Lemma settled_verdict svc pes static g : no_static g ->
  let g' := detect_conflict (verified_channels (map (fused svc pes) static)) (recompute g) in
  gap_verdict (channel_verified svc pes static (keyOf g')) g'.
Proof.
  intros Hn. set (ch := verified_channels (map (fused svc pes) static)). intros g'.
  destruct (detect_identity ch (recompute g)) as [Ei Es]. fold g' in Ei, Es.
  assert (Ho : pins g' || attests g' = pins g || attests g).
  { rewrite <- (observed_recompute g). unfold pins, attests. by rewrite Es. }
  unfold gap_verdict. rewrite Ho, <- verified_channels_fused. fold ch.
  rewrite (keyOf_identity _ (recompute g) Ei), (keyOf_identity (recompute g) g) by done.
  unfold g'. rewrite (detect_state ch g Hn). split_and!; intros ->; [done| |]; case_bool_decide; done.
Qed.

Lemma unexplained_stamped svc nodes edges pe : unexplained svc (stamped nodes edges) pe <-> unexplained svc edges pe.
Proof.
  unfold unexplained, stamped. split; intros H e He.
  - rewrite <- (confirms_stamp svc pe (node_index nodes)). apply H, list_elem_of_fmap. by exists e.
  - apply list_elem_of_fmap in He as (x & -> & Hx). rewrite confirms_stamp. by apply H.
Qed.

Lemma settled_ids svc pes static gaps : map ed_ID (settled svc pes static gaps) = map ed_ID gaps.
Proof.
  unfold settled. rewrite map_map. apply map_ext. intros g.
  destruct (detect_identity (verified_channels (map (fused svc pes) static)) (recompute g)) as [Ei _].
  by injection Ei.
Qed.

Lemma gap_of_identity pe g g' : identity g' = identity g -> gap_of pe g -> gap_of pe g'.
Proof. intros [= H1 H2 H3 H4 H5 _ _ _ _]. unfold gap_of. by rewrite H1, H2, H3, H4, H5. Qed.

(** A gap of the answer is a gap of the state with its sources sorted. *)
Lemma elem_of_settled svc pes static gaps g : g ∈ settled svc pes static gaps ->
  exists g0, g0 ∈ gaps /\ identity g = identity g0 /\ (forall s, s ∈ ed_Sources g <-> s ∈ ed_Sources g0) /\
    (no_static g0 -> gap_verdict (channel_verified svc pes static (keyOf g)) g).
Proof.
  intros (g0 & -> & Hg0)%list_elem_of_fmap. exists g0.
  destruct (detect_identity (verified_channels (map (fused svc pes) static)) (recompute g0)) as [Ei Es].
  split_and!; [done|by rewrite Ei|intros s; rewrite Es; apply recompute_sources|]. apply settled_verdict.
Qed.

(** C27: an edge of a provider that no static edge explains is not lost: the
    answer has one gap of its identity carrying all of its sources, whose ends
    are nodes of the answer. Gaps have distinct identities, each stands for such
    an edge, and its state is the one its sources and its channel call for: it
    conflicts exactly when a static edge of its channel is verified. Of the
    references the static pipeline could not resolve, those another provider
    has dealt with are replaced by that provider's. *)
Theorem Reconcile_gaps_exact E nodes edges unres others : no_impostor others ->
  let svc := run_services nodes in
  let pes := edges_of others in
  exists rr gaps, Reconcile (run_of (E := E) nodes edges unres others) = Ok rr /\
    rr_Edges rr ≡ₚ map (fused svc pes) (stamped nodes edges) ++ gaps /\ NoDup (map ed_ID gaps) /\
    (forall pe, pe ∈ pes -> unexplained svc edges pe ->
      exists g, g ∈ gaps /\ ed_ID g = gap_id pe /\ forall s, s ∈ ed_Sources pe -> carries g s) /\
    (forall g, g ∈ gaps -> (exists pe, pe ∈ pes /\ unexplained svc edges pe /\ gap_of pe g) /\
      ed_From g ∈ map n_ID (rr_Nodes rr) /\ ed_To g ∈ map n_ID (rr_Nodes rr) /\
      gap_verdict (channel_verified svc pes (stamped nodes edges) (keyOf g)) g) /\
    rr_Unresolved rr = unresolved_of others ++ List.filter (fun u => negb (dealt_with others u)) unres.
Proof.
  intros Hno svc pes. destruct (reconcile_run E nodes edges unres others Hno) as (st & rr & I & Hg & Hr & Hn & Hed & Hun).
  exists rr, (settled svc pes (stamped nodes edges) (rc_gaps st)). split_and!; [done|done| | | |done].
  - rewrite settled_ids. apply (gi_nodup _ _ _ _ I).
  - intros pe Hpe Hu. apply (unexplained_stamped svc nodes) in Hu.
    destruct (gi_all _ _ _ _ I pe Hpe Hu) as (g & Hgg & Hid & Hc).
    set (g' := detect_conflict (verified_channels (map (fused svc pes) (stamped nodes edges))) (recompute g)).
    exists g'. destruct (detect_identity (verified_channels (map (fused svc pes) (stamped nodes edges))) (recompute g)) as [Ei Es].
    split; [apply list_elem_of_fmap; by exists g|]. split; [rewrite <- Hid; by injection Ei|].
    intros s Hs. destruct (Hc s Hs) as (s' & Hs' & Ek). exists s'. split; [|done]. unfold g'. rewrite Es.
    by apply recompute_sources.
  - intros g (g0 & Hg0 & Ei & _ & Hv)%elem_of_settled. split_and!; [|..|by apply Hv, Hg].
    + destruct (gi_from _ _ _ _ I g0 Hg0) as (pe & Hpe & Hu & Hof). exists pe. split; [done|].
      split; [by apply (unexplained_stamped svc nodes)|by apply (gap_of_identity pe g0)].
    + rewrite Hn, <- (gi_nodes _ _ _ _ I). injection Ei as _ -> _. by apply (gi_ends _ _ _ _ I).
    + rewrite Hn, <- (gi_nodes _ _ _ _ I). injection Ei as _ _ -> _. by apply (gi_ends _ _ _ _ I).
Qed.

(** ** Stamping in advance *)

Lemma fused_untouched svc pes e : (forall pe, pe ∈ pes -> confirms svc pe e = false) -> fused svc pes e = recompute e.
Proof.
  intros H. unfold fused. f_equal. unfold confirmed_by. induction pes as [|pe pes IH]; cbn; [done|].
  rewrite H by left. apply IH. intros. apply H. by right.
Qed.

Lemma StampStatic_source e ref layer rule : rule <> "" ->
  exists layer' rule', rule' <> "" /\ StampStatic e ref layer rule =
    with_sources [static_source (confidence_or_candidate e) ref layer' rule'] StateCandidate "" e.
Proof.
  intros Hr. unfold StampStatic. destruct (ed_Sources e) as [|s [|]]; try (by eexists _, _).
  destruct (is_static s); [|by eexists _, _]. destruct (str_eqb (s_Rule s) "") eqn:E; eexists _, _; (split; [|reflexivity]).
  - done.
  - by apply Stdlib.Strings.String.eqb_neq.
Qed.

(** What the indexer writes for an edge as a pass produces it is what the
    reconciler computes for it in the end: an edge stamped with its own node's
    reference and a rule comes out of the fusion unchanged when no provider's
    edge confirms it. *)
Theorem StampStatic_lockstep svc pes nodes e layer rule : rule <> "" ->
  (forall pe, pe ∈ pes -> confirms svc pe e = false) ->
  let byID := node_index nodes in
  let e' := StampStatic e (staticRef (byID !! ed_From e)) layer rule in
  fused svc pes (stamp_edge byID e') = e'.
Proof.
  intros Hr Hc byID e'. destruct (StampStatic_source e (staticRef (byID !! ed_From e)) layer rule Hr) as (l & r & Hr' & E).
  assert (Hid : identity e' = identity e) by (unfold e'; rewrite E; done).
  rewrite fused_untouched.
  - unfold e'. rewrite E. assert (Hf : str_eqb r "" = false) by by apply Stdlib.Strings.String.eqb_neq.
    unfold stamp_edge. cbn [with_sources ed_Sources List.find is_static static_source s_Provider s_Layer s_Rule].
    change (is_static _) with true. cbn beta iota. change (s_Rule (static_source _ _ l r)) with r. rewrite Hf.
    unfold recompute, with_sources. cbn. unfold confidence_or_candidate. cbn.
    destruct (str_eqb (ed_Confidence e) ""); reflexivity.
  - intros pe Hpe. rewrite confirms_stamp, (confirms_identity svc pe e' e) by done. by apply Hc.
Qed.

(** ** A run on a small graph *)

Lemma no_impostor_by_eval others :
  forallb (fun c => negb (str_eqb (fst c) "static")) others = true ->
  forallb (fun pe => forallb (fun s => negb (is_static s)) (ed_Sources pe)) (edges_of others) = true ->
  no_impostor others.
Proof.
  rewrite !forallb_forall. intros H1 H2. split.
  - intros c Hc%list_elem_of_In E. specialize (H1 c Hc). rewrite E in H1. done.
  - intros pe Hpe%list_elem_of_In s Hs%list_elem_of_In. specialize (H2 pe Hpe). rewrite forallb_forall in H2.
    by apply negb_true_iff, H2.
Qed.

Definition ex_node (id service : string) : Node := mkNode id "function" id service (id +:+ ".go") 7 9 "go" ∅ "".
Definition ex_source (provider : string) : SourceRef := mkSourceRef provider "" (provider +:+ ":1") 0 "" "" "" "".
Definition ex_edge (id from to label conf : string) (srcs : list SourceRef) : Edge :=
  mkEdge id from to "http_call" label conf "" "" ∅ srcs "" "".

Definition ex_nodes : list Node := [ex_node "list" "web"; ex_node "load" "web"; ex_node "users" "api"].
Definition ex_edges : list Edge :=
  [ex_edge "e1" "list" "users" "GET /users" "inferred" []; ex_edge "e2" "load" "users" "GET /me" "partial" [];
   ex_edge "e3" "list" "load" "" "static" []].
Definition ex_others : list (string * Evidence) :=
  [("contract", mkEvidence [] [ex_edge "" "api" "" "GET /users" "" [ex_source "contract"];
      ex_edge "" "api" "" "GET /me" "" [ex_source "contract"]; ex_edge "" "api" "" "GET /gone" "" [ex_source "contract"]]
      [] [] []);
   ("runtime", mkEvidence [] [ex_edge "" "billing" "" "GET /users" "" [ex_source "runtime"]] [] [] [])].

(** The contract verifies the first edge but not the second, one of a fan-out;
    the route nobody calls is a gap, and the call of a third service on the
    verified channel conflicts with it. *)
Example Reconcile_small :
  match Reconcile (run_of (E := unit) ex_nodes ex_edges [] ex_others) with
  | Ok rr => map (fun e => (ed_ID e, ed_VerificationState e)) (rr_Edges rr)
  | Err _ => []
  end =
  [("e1", StateVerified); ("e2", StateCandidate); ("e3", StateCandidate);
   ("gap:http_call:GET /gone:api->gap-endpoint:http_call:GET /gone", StateObservedOnlyGap);
   ("gap:http_call:GET /users:billing->gap-endpoint:http_call:GET /users", StateConflicting)].
Proof. vm_compute. reflexivity. Qed.

Lemma Reconcile_verified_exact_witness : no_impostor ex_others /\
  exists rr gaps, Reconcile (run_of (E := unit) ex_nodes ex_edges [] ex_others) = Ok rr /\
    rr_Edges rr ≡ₚ map (fun e => fused (run_services ex_nodes) (edges_of ex_others) (stamp_edge (node_index ex_nodes) e)) ex_edges ++ gaps.
Proof.
  assert (H : no_impostor ex_others) by (apply no_impostor_by_eval; reflexivity). split; [exact H|].
  destruct (Reconcile_verified_exact unit ex_nodes ex_edges [] ex_others H) as (rr & gaps & Hr & He & _).
  exists rr, gaps. split; [exact Hr|exact He].
Defined.

Lemma Reconcile_gaps_exact_witness : no_impostor ex_others /\
  exists rr gaps, Reconcile (run_of (E := unit) ex_nodes ex_edges [] ex_others) = Ok rr /\ NoDup (map ed_ID gaps) /\
    forall pe, pe ∈ edges_of ex_others -> unexplained (run_services ex_nodes) ex_edges pe ->
      exists g, g ∈ gaps /\ ed_ID g = gap_id pe /\ forall s, s ∈ ed_Sources pe -> carries g s.
Proof.
  assert (H : no_impostor ex_others) by (apply no_impostor_by_eval; reflexivity). split; [exact H|].
  destruct (Reconcile_gaps_exact unit ex_nodes ex_edges [] ex_others H) as (rr & gaps & Hr & _ & Hd & Hg & _).
  exists rr, gaps. split; [exact Hr|split; [exact Hd|exact Hg]].
Defined.

Lemma StampStatic_lockstep_witness :
  let e := ex_edge "e3" "list" "load" "" "" [] in
  let e' := StampStatic e (staticRef (node_index ex_nodes !! ed_From e)) "L5" "calls" in
  fused (run_services ex_nodes) (edges_of ex_others) (stamp_edge (node_index ex_nodes) e') = e'.
Proof.
  apply (StampStatic_lockstep (run_services ex_nodes) (edges_of ex_others) ex_nodes (ex_edge "e3" "list" "load" "" "" []) "L5" "calls").
  - discriminate.
  - assert (F : Forall (fun pe => confirms (run_services ex_nodes) pe (ex_edge "e3" "list" "load" "" "" []) = false)
      (edges_of ex_others)) by (repeat constructor).
    rewrite Forall_forall in F. exact F.
Defined.
