(* ===== verification/VgSpec.v ===== *)
(** Binding specs (internal/valuegraph/spec.go): the grammar facts of one
    language as data, the validation of a spec, and the index the engine reads
    it through. *)
From S2P Require Import Prelude GoStrings VgValue.

Inductive TextMode : Type := TextRaw | TextInner | TextTemplate | TextOther (mode : string).

Record LiteralRule : Type := mkLiteralRule { lr_Node : string; lr_Text : TextMode }.
Record ConcatRule : Type := mkConcatRule { cr_Node : string; cr_Operator : string; cr_Parts : list string }.
Record UnionRule : Type := mkUnionRule { ur_Node : string; ur_Operator : string; ur_Parts : list string }.
Record BindingRule : Type := mkBindingRule {
  br_Node : string; br_Name : string; br_Value : string; br_NameChild : option Z; br_ValueChild : option Z
}.
Record ScopeRule : Type := mkScopeRule {
  sr_Node : string; sr_Params : string; sr_ParamsAlt : string; sr_Name : string
}.
Record OpaqueRule : Type := mkOpaqueRule { or_Node : string; or_Reason : string }.

Record CrossEndpoint : Type := mkEndpoint {
  ce_Node : string; ce_NameChild : Z; ce_ValueChild : Z; ce_Owner : string; ce_ValueIs : string;
  ce_Roots : list string; ce_Destructure : bool; ce_Call : string; ce_CallFn : string; ce_CallArgs : string;
  ce_CallArg : string
}.
Record CrossRule : Type := mkCrossRule {
  xr_Kind : string; xr_Direction : string; xr_Producer : CrossEndpoint; xr_Consumer : CrossEndpoint
}.
Record CallSiteRule : Type := mkCallSiteRule { cs_Node : string; cs_Fn : string; cs_Args : string }.

Definition DirectionReverse : string := "reverse".
Definition ValueIsSymbolReference : string := "symbol_reference".
Definition OwnerParentField : string := "parent_field:".

Record Spec : Type := mkSpec {
  sp_Language : string; sp_Grammars : list string; sp_Literals : list LiteralRule; sp_Concat : list ConcatRule;
  sp_Union : list UnionRule; sp_Bindings : list BindingRule; sp_Scopes : list ScopeRule; sp_Opaque : list OpaqueRule;
  sp_Ignore : list string; sp_PositionalStop : list string; sp_Crossings : list CrossRule;
  sp_CallSites : option CallSiteRule
}.

(** * Validate *)

(** What is wrong, and where; the wording of the messages is left out. *)
Inductive SpecError : Type :=
| ENilSpec
| ENoLanguage
| ENoNode (section : string) (i : nat)
| ETextMode (i : nat) (node mode : string)
| ENoName (i : nat) (node : string)
| ENoValue (i : nat) (node : string)
| ENoKind (i : nat)
| ENoProducerNode (i : nat) (kind : string)
| ENoProducerOwner (i : nat) (kind : string)
| ENoCallNode (i : nat) (kind : string)
| ECallSiteNode
| ECallSiteFields (node : string).

(** [for i, r := range rules { ... }], stopping at the first error. *)
Fixpoint check_each {A} (i : nat) (rules : list A) (check : nat -> A -> result SpecError unit) :
    result SpecError unit :=
  match rules with
  | [] => Ok tt
  | r :: rules' => check i r ≫= fun _ => check_each (S i) rules' check
  end.

Definition named (s : string) : bool := negb (str_eqb s "").

Definition check_literal (i : nat) (r : LiteralRule) : result SpecError unit :=
  ensure (named (lr_Node r)) (ENoNode "literals" i) ≫= fun _ =>
  match lr_Text r with TextOther mode => Err (ETextMode i (lr_Node r) mode) | _ => Ok tt end.

Definition check_binding (i : nat) (r : BindingRule) : result SpecError unit :=
  ensure (named (br_Node r)) (ENoNode "bindings" i) ≫= fun _ =>
  ensure (named (br_Name r) || bool_decide (is_Some (br_NameChild r))) (ENoName i (br_Node r)) ≫= fun _ =>
  ensure (named (br_Value r) || bool_decide (is_Some (br_ValueChild r))) (ENoValue i (br_Node r)).

Definition check_crossing (i : nat) (r : CrossRule) : result SpecError unit :=
  ensure (named (xr_Kind r)) (ENoKind i) ≫= fun _ =>
  ensure (named (ce_Node (xr_Producer r))) (ENoProducerNode i (xr_Kind r)) ≫= fun _ =>
  ensure (named (ce_Owner (xr_Producer r))) (ENoProducerOwner i (xr_Kind r)) ≫= fun _ =>
  ensure (negb (str_eqb (xr_Direction r) DirectionReverse) || named (ce_Call (xr_Consumer r)))
    (ENoCallNode i (xr_Kind r)).

Definition check_callsite (r : CallSiteRule) : result SpecError unit :=
  ensure (named (cs_Node r)) ECallSiteNode ≫= fun _ =>
  ensure (named (cs_Fn r) && named (cs_Args r)) (ECallSiteFields (cs_Node r)).

(** Spec.Validate *)
Definition Validate (spec : option Spec) : result SpecError unit :=
  match spec with
  | None => Err ENilSpec
  | Some s =>
      ensure (named (sp_Language s)) ENoLanguage ≫= fun _ =>
      check_each 0 (sp_Literals s) check_literal ≫= fun _ =>
      check_each 0 (sp_Concat s) (fun i r => ensure (named (cr_Node r)) (ENoNode "concat" i)) ≫= fun _ =>
      check_each 0 (sp_Union s) (fun i r => ensure (named (ur_Node r)) (ENoNode "union" i)) ≫= fun _ =>
      check_each 0 (sp_Bindings s) check_binding ≫= fun _ =>
      check_each 0 (sp_Scopes s) (fun i r => ensure (named (sr_Node r)) (ENoNode "scopes" i)) ≫= fun _ =>
      check_each 0 (sp_Opaque s) (fun i r => ensure (named (or_Node r)) (ENoNode "opaque" i)) ≫= fun _ =>
      check_each 0 (sp_Crossings s) check_crossing ≫= fun _ =>
      match sp_CallSites s with None => Ok tt | Some r => check_callsite r end
  end.

(** * The index *)

Record index : Type := mkIndex {
  ix_literal : gmap string LiteralRule; ix_concat : gmap string ConcatRule; ix_union : gmap string UnionRule;
  ix_opaque : gmap string OpaqueRule; ix_scope : gmap string ScopeRule; ix_binding : gmap string (list BindingRule);
  ix_crossProducer : gmap string (list CrossRule); ix_crossByKind : gmap string CrossRule;
  ix_ignore : gset string; ix_stop : gset string; ix_callSite : option CallSiteRule
}.

Definition derivedReason (node : string) : string :=
  match List.find (fun suffix => (str_len suffix <? str_len node) && HasSuffix node suffix)
          ["_expression"; "_statement"; "_operator"] with
  | Some suffix => str_take (str_len node - str_len suffix) node
  | None => if str_eqb node "" then ReasonUnsupported else node
  end.

(** One rule a key, the last one staying; and all of them, in order. *)
Definition last_by {A} (key : A -> string) (l : list A) : gmap string A :=
  fold_left (fun m r => <[key r := r]> m) l ∅.
Definition all_by {A} (key : A -> string) (l : list A) : gmap string (list A) :=
  fold_left (fun m r => <[key r := default [] (m !! key r) ++ [r]]> m) l ∅.

Definition with_reason (r : OpaqueRule) : OpaqueRule :=
  if str_eqb (or_Reason r) "" then mkOpaqueRule (or_Node r) (derivedReason (or_Node r)) else r.

Definition newIndex (spec : option Spec) : index :=
  match spec with
  | None => mkIndex ∅ ∅ ∅ ∅ ∅ ∅ ∅ ∅ ∅ ∅ None
  | Some s =>
      mkIndex (last_by lr_Node (sp_Literals s)) (last_by cr_Node (sp_Concat s)) (last_by ur_Node (sp_Union s))
        (last_by or_Node (map with_reason (sp_Opaque s))) (last_by sr_Node (sp_Scopes s))
        (all_by br_Node (sp_Bindings s)) (all_by (fun r => ce_Node (xr_Producer r)) (sp_Crossings s))
        (last_by xr_Kind (sp_Crossings s)) (list_to_set (sp_Ignore s)) (list_to_set (sp_PositionalStop s))
        (sp_CallSites s)
  end.

Definition claims (ix : index) (typ : string) : bool :=
  bool_decide (is_Some (ix_literal ix !! typ)) || bool_decide (is_Some (ix_concat ix !! typ)) ||
  bool_decide (is_Some (ix_union ix !! typ)) || bool_decide (is_Some (ix_opaque ix !! typ)).

(** * Lookup *)

Lemma all_by_lookup {A} (key : A -> string) l k r :
  r ∈ default [] (all_by key l !! k) <-> r ∈ l /\ key r = k.
Proof.
  unfold all_by. assert (H : forall m : gmap string (list A), r ∈ default [] (fold_left (fun m r => <[key r := default [] (m !! key r) ++ [r]]> m) l m !! k)
    <-> r ∈ default [] (m !! k) \/ r ∈ l /\ key r = k).
  { induction l as [|x l IH]; intros m; cbn [fold_left].
    - split; [by left|]. intros [?|[?%not_elem_of_nil _]]; done.
    - rewrite IH. rewrite elem_of_cons. destruct (decide (key x = k)) as [<-|Hk].
      + rewrite lookup_insert_eq. match goal with |- context [default [] (Some ?x)] => change (default [] (Some x)) with x end. rewrite elem_of_app, list_elem_of_singleton. naive_solver.
      + rewrite lookup_insert_ne by done. naive_solver. }
  rewrite H. rewrite lookup_empty. cbn. split; [|by right]. intros [?%not_elem_of_nil|?]; done.
Qed.
