(* ===== verification/VgSyntax.v ===== *)
(** Syntax trees as the resolution engine sees them: the accessors of
    tree-sitter's nodes it calls, as an interface.  The parser that builds the
    trees is outside the repository; what the engine relies on is that they are
    finite trees. *)
From S2P Require Import Prelude GoStrings.

Class Syntax (N : Type) : Type := {
  Type_ : N -> string;
  IsNamed : N -> bool;
  Children : N -> list N;                       (* Child(0), Child(1), ... *)
  Parents : N -> list N;                        (* Parent(), its Parent(), ... *)
  ChildByFieldName : N -> string -> option N;
  StartByte : N -> Z;
  EndByte : N -> Z;
  Row : N -> Z;                                 (* StartPoint().Row *)
  tree_size : N -> nat;                         (* nodes below, the node counted *)
  largest : nat                                 (* of the trees at hand *)
}.

(** Trees are finite, whichever accessor is followed. *)
Class SyntaxOk (N : Type) `{Syntax N} : Prop := {
  child_smaller : forall n c, c ∈ Children n -> tree_size c < tree_size n;
  field_smaller : forall n f c, ChildByFieldName n f = Some c -> tree_size c < tree_size n;
  size_bounded : forall n, tree_size n <= largest;
  parent_chain : forall n p l, Parents n = p :: l -> Parents p = l
}.

Section syntax.
Context {N : Type} `{Syntax N}.

Definition NamedChildren (n : N) : list N := List.filter IsNamed (Children n).
Definition Parent (n : N) : option N := head (Parents n).

(** NamedChild with the bounds test of its callers. *)
Definition namedChild (n : N) (i : Z) : option N :=
  if (i <? 0)%Z then None else NamedChildren n !! Z.to_nat i.

Definition topOf (n : N) : N := default n (last (Parents n)).

(** Node.Content: the bytes of the source the node spans. *)
Definition Content (src : string) (n : N) : string :=
  str_take (Z.to_nat (EndByte n - StartByte n)) (str_drop (Z.to_nat (StartByte n)) src).

Definition isLeaf (n : N) : bool := bool_decide (Children n = []).

(** The half-open range of the children between the delimiters. *)
Definition innerChildRange (n : N) : nat * nat :=
  let cs := Children n in
  match head cs, last cs with
  | Some first, Some lst => if (2 <=? length cs) && isLeaf first && isLeaf lst then (1, length cs - 1) else (0, length cs)
  | _, _ => (0, length cs)
  end.

Definition trimDelimiters (s : string) : string :=
  match str_bytes s with
  | q :: rest =>
      if (Ascii.eqb q "034" || Ascii.eqb q "'" || Ascii.eqb q "`") &&
         match last rest with Some c => Ascii.eqb c q | None => false end
      then bytes_str (removelast rest) else s
  | [] => s
  end.

Definition innerText (n : N) (src : string) : string :=
  let '(lo, hi) := innerChildRange n in
  match Children n !! (lo - 1), Children n !! hi with
  | Some before, Some after =>
      if (0 <? lo) && (EndByte before <=? StartByte after)%Z && (StartByte after <=? Z.of_nat (str_len src))%Z
      then str_take (Z.to_nat (StartByte after - EndByte before)) (str_drop (Z.to_nat (EndByte before)) src)
      else trimDelimiters (Content src n)
  | _, _ => trimDelimiters (Content src n)
  end.

Definition spans (n : N) (pos : Z) : bool := ((StartByte n <=? pos) && (pos <? EndByte n))%Z.

Definition truncate (s : string) (max : nat) : string :=
  if str_len s <=? max then s else str_take max s +:+ "…".

(** fieldOrChild: a field by name, or a named child by position. *)
Definition fieldOrChild (n : N) (field : string) (idx : option Z) : option N :=
  if negb (str_eqb field "") then ChildByFieldName n field
  else match idx with Some i => namedChild n i | None => None end.

Definition nameMatches (n : option N) (src name : string) : bool :=
  match n with
  | None => false
  | Some n => str_eqb (Content src n) name || str_eqb (innerText n src) name
  end.

(** The walks over NamedChild: every node below, parents first. *)
Fixpoint preorder (fuel : nat) (n : N) : list N :=
  match fuel with
  | O => []
  | S fuel' => n :: concat (map (preorder fuel') (NamedChildren n))
  end.
Definition walk (n : N) : list N := preorder (S (tree_size n)) n.

Fixpoint leaf_named (fuel : nat) (src name : string) (n : N) : bool :=
  match fuel with
  | O => false
  | S fuel' =>
      match NamedChildren n with
      | [] => IsNamed n && str_eqb (Content src n) name
      | cs => existsb (leaf_named fuel' src name) cs
      end
  end.

Definition paramNamed (params : N) (src name : string) : bool :=
  match NamedChildren params with
  | [] => str_eqb (Content src params) name
  | _ => leaf_named (S (tree_size params)) src name params
  end.

Lemma named_child_smaller `{!SyntaxOk N} n c : c ∈ NamedChildren n -> tree_size c < tree_size n.
Proof. intros [Hc _]%elem_of_bfilter. by apply child_smaller. Qed.
End syntax.
