(* ===== verification/VgEngine.v ===== *)
(** The resolution engine (internal/valuegraph/engine.go) and its crossings
    (crossing.go): what string an expression can be, read through the bindings
    of its file, the calls of its function and the other half of a binding that
    crosses a file. *)
From S2P Require Import Prelude GoStrings DlStrata VgValue VgSpec VgSyntax.

Definition ReasonParam : string := "param".
Definition ReasonNoBinding : string := "no_binding".
Definition ReasonDepth : string := "depth".
Definition ReasonCycle : string := "cycle".
Definition ReasonWidth : string := "width".
Definition ReasonFiles : string := "files".
Definition ReasonArity : string := "arity".

Record Options : Type := mkOptions { MaxDepth : Z; MaxUnionWidth : Z; MaxFiles : Z }.
Definition defaultMaxDepth : Z := 8.
Definition defaultMaxUnionWidth : Z := 32.
Definition defaultMaxFiles : Z := 64.

Definition withDefaults (o : Options) : Options :=
  mkOptions (if (MaxDepth o <=? 0)%Z then defaultMaxDepth else MaxDepth o)
    (if (MaxUnionWidth o <=? 0)%Z then defaultMaxUnionWidth else MaxUnionWidth o)
    (if (MaxFiles o <=? 0)%Z then defaultMaxFiles else MaxFiles o).

(** file, start of the scope, symbol, offset of the use *)
Definition memoKey : Type := string * Z * string * Z.
Definition cycleKey : Type := string * Z * string.

Definition nul : string := String Ascii.zero EmptyString.

(** A reference to a definition: a bare name, or the last segment of a dotted
    path, and whether it was qualified. *)
Definition symbol_byte (c : ascii) : bool :=
  let n := N_of_ascii c in
  (((97 <=? n) && (n <=? 122)) || ((65 <=? n) && (n <=? 90)) || ((48 <=? n) && (n <=? 57)))%N ||
  Ascii.eqb c "_" || Ascii.eqb c "$" || Ascii.eqb c ".".

(** What follows the last dot, if there is one. *)
Definition after_dot (s : string) : option string := match cut_last "." s with Some (_, b) => Some b | None => None end.

Definition symbol_of (text : string) : option (string * bool) :=
  if str_eqb text "" then None
  else if negb (forallb symbol_byte (str_bytes text)) then None
  else
    let '(sym, qualified) := match after_dot text with Some s => (s, true) | None => (text, false) end in
    if str_eqb sym "" then None else Some (sym, qualified).

Section engine.
Context {N : Type} `{Syntax N} `{EqDecision N}.

(** ** What the caller supplies *)

Record FileSource : Type := mkFileSource {
  Files : list string;
  Parse : string -> option (string * N)           (* the source and its tree, when both are good *)
}.
Record CrossSource : Type := mkCrossSource { OwnersIn : string -> list string; FilesForOwner : string -> list string }.

Record VgQuery : Type := mkVgQuery {
  q_File : string; q_Src : option string; q_Root : option N; q_Expr : option N; q_Scope : option N;
  q_SelfName : string; q_SelfAsOf : Z
}.

(** The state of one call: the engine's memo, and the file budget, the symbols
    and the crossings being resolved, which every file of the call shares. *)
Record engState : Type := mkEng {
  memo : gmap memoKey Value;
  opened : gmap string (option (string * N));
  visiting : gset cycleKey;
  crossed : gset string
}.

(** Out of fuel; never returned (Resolve_total). *)
Definition M : Type -> Type := ST engState unit.

(** The file being read, and the name whose binding is being resolved. *)
Record Ctx : Type := mkCtx { c_file : string; c_src : string; c_root : N; c_selfName : string; c_selfAsOf : Z }.
Definition inFile (file src : string) (root : N) : Ctx := mkCtx file src root "" 0.
Definition as_self (name : string) (asOf : Z) (c : Ctx) : Ctx := mkCtx (c_file c) (c_src c) (c_root c) name asOf.

Context (ix : index) (fs : option FileSource) (xs : option CrossSource) (opts : Options).
(** The order a loop over the crossing rules meets them in. *)
Context (range_rules : gmap string (list CrossRule) -> list (string * list CrossRule)).

Definition set_memo (k : memoKey) (v : Value) (s : engState) : engState :=
  mkEng (<[k := v]> (memo s)) (opened s) (visiting s) (crossed s).
Definition set_opened (o : gmap string (option (string * N))) (s : engState) : engState :=
  mkEng (memo s) o (visiting s) (crossed s).
Definition set_visiting (v : gset cycleKey) (s : engState) : engState := mkEng (memo s) (opened s) v (crossed s).
Definition set_crossed (x : gset string) (s : engState) : engState := mkEng (memo s) (opened s) (visiting s) x.

Definition originOf (c : Ctx) (n : N) (reason : string) : Origin :=
  mkOrigin reason (c_file c) (Row n + 1) (truncate (Content (c_src c) n) 120).

Definition is_scope (n : N) : bool := bool_decide (is_Some (ix_scope ix !! Type_ n)).

(** enclosingScope, outward *)
Definition enclosingScope (n : N) : option N := List.find is_scope (Parents n).
Definition outward (c : Ctx) (cur : N) : option N :=
  if decide (cur = c_root c) then None
  else match enclosingScope cur with Some s => Some s | None => Some (c_root c) end.

(** The scopes a lookup walks through. *)
Fixpoint scopes_from (fuel : nat) (c : Ctx) (cur : N) : list N :=
  match fuel with
  | O => []
  | S fuel' => cur :: match outward c cur with Some s => scopes_from fuel' c s | None => [] end
  end.
Definition scope_chain (c : Ctx) (scope : N) : list N := scopes_from (S (S (length (Parents scope)))) c scope.

(** ** Bindings *)

Definition bound_here (c : Ctx) (name : string) (use : Z) (n : N) : list N :=
  concat (map (fun r =>
    if nameMatches (fieldOrChild n (br_Name r) (br_NameChild r)) (c_src c) name then
      match fieldOrChild n (br_Value r) (br_ValueChild r) with
      | Some v => if (StartByte v <? use)%Z then [v] else []
      | None => []
      end
    else []) (default [] (ix_binding ix !! Type_ n))).

Definition closed_scope (scope : N) (use : Z) (n : N) : bool :=
  negb (bool_decide (n = scope)) && is_scope n && negb (spans n use).

Fixpoint bindings_below (fuel : nat) (c : Ctx) (scope : N) (name : string) (use : Z) (n : N) : list N :=
  match fuel with
  | O => []
  | S fuel' =>
      if closed_scope scope use n then []
      else bound_here c name use n ++ concat (map (bindings_below fuel' c scope name use) (Children n))
  end.
Definition bindingsIn (c : Ctx) (scope : N) (name : string) (use : Z) : list N :=
  bindings_below (S (tree_size scope)) c scope name use scope.

Definition isParam (c : Ctx) (scope : N) (r : ScopeRule) (name : string) : bool :=
  existsb (fun field =>
    if str_eqb field "" then false
    else match ChildByFieldName scope field with
         | Some params => paramNamed params (c_src c) name
         | None => false
         end) [sr_Params r; sr_ParamsAlt r].

Definition operatorMatches (c : Ctx) (n : N) (op : string) : bool :=
  if str_eqb op "" then true
  else
    match ChildByFieldName n "operator" with
    | Some f => str_eqb (Content (c_src c) f) op
    | None => existsb (fun child => negb (IsNamed child) && str_eqb (Content (c_src c) child) op) (Children n)
    end.

(** ** Positions and names of functions *)

(** nthValue: the [pos]'th value of a list, nothing past what ends the count. *)
Fixpoint nth_value (ns : list N) (pos : nat) : option N :=
  match ns with
  | [] => None
  | n :: ns' =>
      if bool_decide (Type_ n ∈ ix_ignore ix) then nth_value ns' pos
      else if bool_decide (Type_ n ∈ ix_stop ix) then None
      else match pos with O => Some n | S pos' => nth_value ns' pos' end
  end.
Definition nthValue (args : N) (pos : nat) : option N := nth_value (NamedChildren args) pos.

Fixpoint param_at (c : Ctx) (name : string) (ps : list N) (idx : nat) : option nat :=
  match ps with
  | [] => None
  | p :: ps' =>
      if bool_decide (Type_ p ∈ ix_ignore ix) then param_at c name ps' idx
      else if paramNamed p (c_src c) name then Some idx
      else param_at c name ps' (S idx)
  end.

Definition params_index (c : Ctx) (scope : N) (name field : string) : option nat :=
  if str_eqb field "" then None
  else
    match ChildByFieldName scope field with
    | None => None
    | Some params =>
        match NamedChildren params with
        | [] => if str_eqb (Content (c_src c) params) name then Some 0 else None
        | ps => param_at c name ps 0
        end
    end.

Definition paramIndexOf (c : Ctx) (scope : N) (name : string) : option nat :=
  match ix_scope ix !! Type_ scope with
  | None => None
  | Some r =>
      match params_index c scope name (sr_Params r) with
      | Some i => Some i
      | None => params_index c scope name (sr_ParamsAlt r)
      end
  end.

(** The name a binding rule of [p] gives to the value spanning [child]. *)
Definition binding_name (c : Ctx) (p child : N) (r : BindingRule) : option string :=
  match fieldOrChild p (br_Value r) (br_ValueChild r) with
  | Some v =>
      if ((StartByte v =? StartByte child) && (EndByte v =? EndByte child))%Z then
        match fieldOrChild p (br_Name r) (br_NameChild r) with
        | Some nm => Some (Content (c_src c) nm)
        | None => None
        end
      else None
  | None => None
  end.

Fixpoint first_some {A B} (f : A -> option B) (l : list A) : option B :=
  match l with [] => None | x :: l' => match f x with Some b => Some b | None => first_some f l' end end.

Fixpoint name_from_parents (c : Ctx) (child : N) (ps : list N) : string :=
  match ps with
  | [] => ""
  | p :: ps' =>
      if is_scope p then ""
      else
        match first_some (binding_name c p child) (default [] (ix_binding ix !! Type_ p)) with
        | Some nm => nm
        | None => name_from_parents c p ps'
        end
  end.

Definition own_name (c : Ctx) (scope : N) : option string :=
  match ix_scope ix !! Type_ scope with
  | Some r =>
      if str_eqb (sr_Name r) "" then None
      else match ChildByFieldName scope (sr_Name r) with Some nm => Some (Content (c_src c) nm) | None => None end
  | None => None
  end.

Definition scopeName (c : Ctx) (scope : N) : string :=
  match own_name c scope with Some nm => nm | None => name_from_parents c scope (Parents scope) end.

(** ** The index of crossings *)

Record crossSite : Type := mkSite {
  xs_kind : string; xs_owner : string; xs_name : string; xs_file : string; xs_line : Z;
  xs_expr : option (string * N); xs_text : string; xs_qualified : bool
}.
Record crossIndex : Type := mkCrossIndex {
  fwd : gmap string (list crossSite); rev : gmap string (list crossSite)
}.

Fixpoint unwrap_ (fuel : nat) (n : N) : N :=
  match fuel with
  | O => n
  | S fuel' =>
      match NamedChildren n with
      | [child] => if claims ix (Type_ n) then n else unwrap_ fuel' child
      | _ => n
      end
  end.
Definition unwrap (n : N) : N := unwrap_ (S (tree_size n)) n.

Definition symbolReference (n : N) (src : string) : option (string * bool) := symbol_of (TrimSpace (Content src n)).

Definition ownerOf (n : N) (mode src : string) : option (string * N) :=
  if negb (HasPrefix mode OwnerParentField) then None
  else
    match Parent n with
    | None => None
    | Some parent =>
        match ChildByFieldName parent (TrimPrefix mode OwnerParentField) with
        | None => None
        | Some f => Some (default (Content src f) (after_dot (Content src f)), parent)
        end
    end.

Definition same_site (a b : crossSite) : bool :=
  str_eqb (xs_kind a) (xs_kind b) && str_eqb (xs_owner a) (xs_owner b) && str_eqb (xs_name a) (xs_name b) &&
  str_eqb (xs_file a) (xs_file b).

Definition add_site (m : gmap string (list crossSite)) (k : string) (s : crossSite) : gmap string (list crossSite) :=
  <[k := default [] (m !! k) ++ [s]]> m.

Definition indexProducer (file src : string) (n : N) (xi : crossIndex) (r : CrossRule) : crossIndex :=
  match namedChild n (ce_NameChild (xr_Producer r)), namedChild n (ce_ValueChild (xr_Producer r)) with
  | Some nameNode, Some value =>
      let name := Content src nameNode in
      match ownerOf n (ce_Owner (xr_Producer r)) src with
      | None => xi
      | Some (owner, ownerNode) =>
          if str_eqb name "" || str_eqb owner "" then xi
          else
            let line := (Row ownerNode + 1)%Z in
            let inner := unwrap value in
            if negb (str_eqb (xr_Direction r) DirectionReverse) then
              mkCrossIndex
                (add_site (fwd xi) (owner +:+ nul +:+ name)
                  (mkSite (xr_Kind r) owner name file line (Some (src, value)) (Content src inner) false))
                (rev xi)
            else
              match symbolReference inner src with
              | None => xi
              | Some (sym, qualified) =>
                  let site := mkSite (xr_Kind r) owner name file line None "" qualified in
                  if existsb (fun have => same_site have site) (default [] (rev xi !! sym)) then xi
                  else mkCrossIndex (fwd xi) (add_site (rev xi) sym site)
              end
      end
  | _, _ => xi
  end.

Definition indexFile (file src : string) (root : N) (xi : crossIndex) : crossIndex :=
  fold_left (fun xi n =>
    fold_left (indexProducer file src n) (default [] (ix_crossProducer ix !! Type_ n)) xi) (walk root) xi.

Definition buildCrossIndex : crossIndex :=
  match fs with
  | None => mkCrossIndex ∅ ∅
  | Some f =>
      if bool_decide (ix_crossProducer ix = ∅) then mkCrossIndex ∅ ∅
      else
        fold_left (fun xi file => match Parse f file with Some (src, root) => indexFile file src root xi | None => xi end)
          (take (Z.to_nat (MaxFiles opts)) (sort_strings (Files f))) (mkCrossIndex ∅ ∅)
  end.

(** ** Resolution *)

(** What opening a file gives: the file, when it parses, and whether the budget
    refused it. *)
Definition opening : Type := option (string * N) * bool.
Definition parsed (o : opening) : option (string * N) := fst o.
Definition capped (o : opening) : bool := snd o.

(** ctx.open *)
Definition open_ (file : string) : M opening :=
  s ← get_st;
  match opened s !! file with
  | Some got => mret (got, false)
  | None =>
      if (MaxFiles opts <=? Z.of_nat (size (opened s)))%Z then mret (None, true)
      else
        let got := match fs with Some f => Parse f file | None => None end in
        modify_st (set_opened (<[file := got]> (opened s))) ≫= fun _ => mret (got, false)
  end.

Definition capUnion (c : Ctx) (n : N) (v : Value) : Value :=
  if is_kind KindUnion v && (MaxUnionWidth opts <? Z.of_nat (length (Parts v)))%Z
  then Opaque_ (originOf c n ReasonWidth) else v.

(** [for x := range xs { v := f(x) }], the values in order. *)
Fixpoint gather {A} (l : list A) (f : A -> M (list Value)) : M (list Value) :=
  match l with
  | [] => mret []
  | x :: l' => vs ← f x; rest ← gather l' f; mret (vs ++ rest)
  end.

(** Every function below calls resolveNode back; [rec c n scope depth] is that
    call. *)
Section calls.
Context (rec : Ctx -> N -> N -> Z -> M Value).

Definition one (m : M Value) : M (list Value) := v ← m; mret [v].

Definition resolveParts (c : Ctx) (n : N) (fields : list string) (scope : N) (depth : Z) : M (list Value) :=
  match fields with
  | [] => gather (NamedChildren n) (fun child => one (rec c child scope depth))
  | _ => gather fields (fun f =>
      match ChildByFieldName n f with
      | None => mret [Opaque_ (originOf c n ReasonUnsupported)]
      | Some child => one (rec c child scope depth)
      end)
  end.

(** A piece of an interpolated string: a token, a fragment, or a hole. *)
Definition template_piece (c : Ctx) (scope : N) (depth : Z) (child : N) : M (list Value) :=
  if negb (IsNamed child) then mret []
  else
    match NamedChildren child with
    | [] => mret [Literal_ (Content (c_src c) child)]
    | e :: _ => one (rec c e scope depth)
    end.

Definition literalValue (c : Ctx) (n : N) (r : LiteralRule) (scope : N) (depth : Z) : M Value :=
  match lr_Text r with
  | TextRaw => mret (Literal_ (Content (c_src c) n))
  | TextTemplate =>
      let '(lo, hi) := innerChildRange n in
      parts ← gather (take (hi - lo) (drop lo (Children n))) (template_piece c scope depth);
      mret (Concat_ parts)
  | _ => mret (Literal_ (innerText n (c_src c)))
  end.

Definition union_of (c : Ctx) (n : N) (vals : list Value) : option Value :=
  match vals with [] => None | _ => Some (capUnion c n (Union_ vals)) end.

Definition site_key (site : crossSite) : string :=
  xs_kind site +:+ nul +:+ xs_owner site +:+ nul +:+ xs_name site +:+ nul +:+ xs_file site.

(** enterCrossing, the work, leaveCrossing; nothing when already inside. *)
Definition within_crossing (site : crossSite) (work : M (list Value)) : M (list Value) :=
  s ← get_st;
  if decide (site_key site ∈ crossed s) then mret []
  else
    modify_st (set_crossed ({[ site_key site ]} ∪ crossed s)) ≫= fun _ =>
    vs ← work;
    modify_st (fun s' => set_crossed (crossed s' ∖ {[ site_key site ]}) s') ≫= fun _ => mret vs.

Definition resolveSite (site : crossSite) (depth : Z) : M (list Value) :=
  match xs_expr site with
  | None => mret []                                (* forward sites carry their expression *)
  | Some (src, expr) =>
      within_crossing site (
        let from := mkOrigin (xs_kind site) (xs_file site) (xs_line site) (xs_text site) in
        o ← open_ (xs_file site);
        if capped o then mret [withSrc (Opaque_ (mkOrigin ReasonFiles (xs_file site) (xs_line site) "")) from]
        else
          let sub := inFile (xs_file site) src (topOf expr) in
          v ← rec sub expr (default (c_root sub) (enclosingScope expr)) (depth + 1)%Z;
          mret [withSrc v from])
  end.

Definition crossForward (c : Ctx) (name : string) (at_ : N) (depth : Z) : M (option Value) :=
  match xs with
  | None => mret None
  | Some x =>
      if str_eqb name "" then mret None
      else
        vals ← gather (sort_strings (OwnersIn x (c_file c))) (fun owner =>
          gather (default [] (fwd buildCrossIndex !! (owner +:+ nul +:+ name))) (fun site => resolveSite site depth));
        mret (union_of c at_ vals)
  end.

Definition callee_is (c : Ctx) (node fn : string) (wanted : list string) (n : N) : bool :=
  str_eqb (Type_ n) node &&
  match ChildByFieldName n fn with
  | Some f => existsb (str_eqb (TrimSpace (Content (c_src c) f))) wanted
  | None => false
  end.

Definition callsThrough (c : Ctx) (cons : CrossEndpoint) (name : string) : list N :=
  if str_eqb (ce_Call cons) "" then []
  else
    let want := map (fun root => root +:+ "." +:+ name) (ce_Roots cons) ++
      (if ce_Destructure cons || bool_decide (ce_Roots cons = []) then [name] else []) in
    List.filter (callee_is c (ce_Call cons) (ce_CallFn cons) want) (walk (c_root c)).

Definition positionalArg (call : N) (cons : CrossEndpoint) (pos : nat) : option N :=
  match ChildByFieldName call (ce_CallArgs cons) with Some args => nthValue args pos | None => None end.

(** The argument of one call that reaches the handed-over symbol. *)
Definition reverse_arg (sub : Ctx) (rule : CrossRule) (site : crossSite) (pos : nat) (depth : Z) (call : N) :
    M (list Value) :=
  let line := (Row call + 1)%Z in
  match positionalArg call (xr_Consumer rule) pos with
  | None =>
      mret [withSrc (Opaque_ (mkOrigin ReasonArity (c_file sub) line (truncate (Content (c_src sub) call) 120)))
              (mkOrigin (xs_kind site) (c_file sub) line "")]
  | Some arg =>
      v ← rec sub arg (default (c_root sub) (enclosingScope arg)) (depth + 1)%Z;
      mret [withSrc v (mkOrigin (xs_kind site) (c_file sub) line (Content (c_src sub) arg))]
  end.

Fixpoint reverse_files (rule : CrossRule) (site : crossSite) (pos : nat) (depth : Z) (files : list string) :
    M (list Value) :=
  match files with
  | [] => mret []
  | file :: files' =>
      o ← open_ file;
      if capped o then
        mret [withSrc (Opaque_ (mkOrigin ReasonFiles file 0 "")) (mkOrigin (xs_kind site) file 0 "")]
      else
        vs ← match parsed o with
             | None => mret []
             | Some (src, root) =>
                 let sub := inFile file src root in
                 gather (callsThrough sub (xr_Consumer rule) (xs_name site)) (reverse_arg sub rule site pos depth)
             end;
        rest ← reverse_files rule site pos depth files';
        mret (vs ++ rest)
  end.

Definition reverseCallArgs (x : CrossSource) (rule : CrossRule) (site : crossSite) (pos : nat) (depth : Z) :
    M (list Value) := reverse_files rule site pos depth (sort_strings (FilesForOwner x (xs_owner site))).

Definition reverse_site (c : Ctx) (x : CrossSource) (pos : nat) (depth : Z) (site : crossSite) : M (list Value) :=
  match ix_crossByKind ix !! xs_kind site with
  | None => mret []
  | Some rule =>
      if xs_qualified site && negb (str_eqb (xs_file site) (c_file c)) then mret []
      else within_crossing site (reverseCallArgs x rule site pos depth)
  end.

Definition crossReverse (c : Ctx) (name : string) (scope : N) (depth : Z) : M (option Value) :=
  match xs with
  | None => mret None
  | Some x =>
      let sym := scopeName c scope in
      if str_eqb sym "" then mret None
      else
        match paramIndexOf c scope name with
        | None => mret None
        | Some pos =>
            vals ← gather (default [] (rev buildCrossIndex !! sym)) (reverse_site c x pos depth);
            mret (union_of c scope vals)
        end
  end.

Definition callsTo (c : Ctx) (sym : string) (r : CallSiteRule) : list N :=
  List.filter (callee_is c (cs_Node r) (cs_Fn r) [sym]) (walk (c_root c)).

Definition call_arg (c : Ctx) (r : CallSiteRule) (pos : nat) (depth : Z) (call : N) : M (list Value) :=
  match match ChildByFieldName call (cs_Args r) with Some args => nthValue args pos | None => None end with
  | None => mret [Opaque_ (originOf c call ReasonArity)]
  | Some arg => one (rec c arg (default (c_root c) (enclosingScope arg)) (depth + 1)%Z)
  end.

Definition callSiteArgs (c : Ctx) (name : string) (scope : N) (depth : Z) : M (option Value) :=
  match ix_callSite ix with
  | None => mret None
  | Some r =>
      let sym := scopeName c scope in
      if str_eqb sym "" then mret None
      else
        match paramIndexOf c scope name with
        | None => mret None
        | Some pos =>
            vals ← gather (callsTo c sym r) (call_arg c r pos depth);
            mret (union_of c scope vals)
        end
  end.

Definition opt_list {A} (o : option A) : list A := match o with Some a => [a] | None => [] end.

Definition crossOrStop (c : Ctx) (name : string) (at_ scope : N) (depth : Z) (reason : string) : M Value :=
  v1 ← crossForward c name at_ depth;
  v2 ← crossReverse c name scope depth;
  v3 ← (if str_eqb reason ReasonParam then callSiteArgs c name scope depth else mret None);
  match opt_list v1 ++ opt_list v2 ++ opt_list v3 with
  | [] => mret (Opaque_ (originOf c at_ reason))
  | vals => mret (capUnion c at_ (Union_ vals))
  end.

Fixpoint lookup_in (c : Ctx) (name : string) (at_ scope : N) (use depth : Z) (scopes : list N) : M Value :=
  match scopes with
  | [] => crossOrStop c name at_ scope depth ReasonNoBinding
  | cur :: scopes' =>
      match bindingsIn c cur name use with
      | [] =>
          match ix_scope ix !! Type_ cur with
          | Some r =>
              if isParam c cur r name then crossOrStop c name at_ cur depth ReasonParam
              else lookup_in c name at_ scope use depth scopes'
          | None => lookup_in c name at_ scope use depth scopes'
          end
      | rhs =>
          if (MaxUnionWidth opts <? Z.of_nat (length rhs))%Z then mret (Opaque_ (originOf c at_ ReasonWidth))
          else
            vals ← gather rhs (fun r => one (rec (as_self name (StartByte r) c) r cur (depth + 1)%Z));
            mret (capUnion c at_ (Union_ vals))
      end
  end.

Definition lookup_ (c : Ctx) (name : string) (at_ scope : N) (use depth : Z) : M Value :=
  lookup_in c name at_ scope use depth (scope_chain c scope).

Definition resolveSymbol (c : Ctx) (name : string) (at_ scope : N) (depth : Z) : M Value :=
  if str_eqb name "" then mret (Opaque_ (originOf c at_ ReasonNoBinding))
  else
    let selfRef := negb (str_eqb (c_selfName c) "") && str_eqb (c_selfName c) name in
    let use := if selfRef then c_selfAsOf c else StartByte at_ in
    let mk : memoKey := (c_file c, StartByte scope, name, use) in
    let ck : cycleKey := (c_file c, StartByte scope, name) in
    s ← get_st;
    match memo s !! mk with
    | Some cached => mret cached
    | None =>
        if decide (ck ∈ visiting s) then
          if negb selfRef then mret (Opaque_ (originOf c at_ ReasonCycle))
          else
            out ← lookup_ c name at_ scope use depth;
            modify_st (set_memo mk out) ≫= fun _ => mret out
        else
          modify_st (set_visiting ({[ ck ]} ∪ visiting s)) ≫= fun _ =>
          out ← lookup_ c name at_ scope use depth;
          modify_st (fun s' => set_visiting (visiting s' ∖ {[ ck ]}) (set_memo mk out s')) ≫= fun _ => mret out
    end.

(** The names a qualified read could be a crossed binding of. *)
Definition crossed_names (text : string) : list string :=
  concat (map (fun '(_, rules) =>
    concat (map (fun r =>
      if str_eqb (xr_Direction r) DirectionReverse then []
      else
        concat (map (fun root =>
          if HasPrefix text (root +:+ ".") then
            let name := TrimPrefix text (root +:+ ".") in
            if str_eqb name "" || Contains name "." || Contains name "[" || Contains name "(" then [] else [name]
          else []) (ce_Roots (xr_Consumer r)))) rules))
    (range_rules (ix_crossProducer ix))).

Fixpoint try_names (c : Ctx) (n : N) (depth : Z) (names : list string) : M (option Value) :=
  match names with
  | [] => mret None
  | name :: names' =>
      r ← crossForward c name n depth;
      match r with Some v => mret (Some v) | None => try_names c n depth names' end
  end.

Definition crossMember (c : Ctx) (n : N) (depth : Z) : M (option Value) :=
  match xs with
  | None => mret None
  | Some _ => try_names c n depth (crossed_names (TrimSpace (Content (c_src c) n)))
  end.

Definition resolve_rest (c : Ctx) (n scope : N) (depth : Z) : M Value :=
  match ix_opaque ix !! Type_ n with
  | Some r =>
      v ← crossMember c n depth;
      match v with Some v => mret v | None => mret (Opaque_ (originOf c n (or_Reason r))) end
  | None =>
      match NamedChildren n with
      | [] => resolveSymbol c (Content (c_src c) n) n scope depth
      | [child] => rec c child scope depth
      | _ => mret (Opaque_ (originOf c n ReasonUnsupported))
      end
  end.

Definition resolve_union (c : Ctx) (n scope : N) (depth : Z) : M Value :=
  match ix_union ix !! Type_ n with
  | Some r =>
      if operatorMatches c n (ur_Operator r) then
        parts ← resolveParts c n (ur_Parts r) scope depth;
        mret (capUnion c n (Union_ parts))
      else resolve_rest c n scope depth
  | None => resolve_rest c n scope depth
  end.

Definition resolve_concat (c : Ctx) (n scope : N) (depth : Z) : M Value :=
  match ix_concat ix !! Type_ n with
  | Some r =>
      if operatorMatches c n (cr_Operator r) then
        parts ← resolveParts c n (cr_Parts r) scope depth;
        mret (Concat_ parts)
      else resolve_union c n scope depth
  | None => resolve_union c n scope depth
  end.

Definition resolve_body (c : Ctx) (n scope : N) (depth : Z) : M Value :=
  if (MaxDepth opts <? depth)%Z then mret (Opaque_ (originOf c n ReasonDepth))
  else
    match ix_literal ix !! Type_ n with
    | Some r => literalValue c n r scope depth
    | None => resolve_concat c n scope depth
    end.
End calls.

Fixpoint resolveNode (fuel : nat) (c : Ctx) (n scope : N) (depth : Z) : M Value :=
  match fuel with
  | O => throw tt
  | S fuel' => resolve_body (resolveNode fuel') c n scope depth
  end.

(** Below depth [MaxDepth] a call either goes to a smaller node or one deeper. *)
Definition fuel_for (depth : Z) (n : N) : nat :=
  Z.to_nat (MaxDepth opts + 1 - depth) * S (S largest) + tree_size n + 1.

(** Engine.Resolve: the memo outlives the call, the rest does not. *)
Definition resolve_call (q : VgQuery) : M Value :=
  match q_Expr q with
  | None => mret (Opaque_ (mkOrigin ReasonUnsupported (q_File q) 0 "no expression"))
  | Some expr =>
      let go (src : string) (root : N) : M Value :=
        let c := mkCtx (q_File q) src root (q_SelfName q) (q_SelfAsOf q) in
        let scope := match q_Scope q with
          | Some s => s
          | None => default root (enclosingScope expr)
          end in
        resolveNode (fuel_for 0 expr) c expr scope 0 in
      match q_Src q with
      | Some src => go src (default (topOf expr) (q_Root q))
      | None =>
          o ← open_ (q_File q);
          if capped o then mret (Opaque_ (mkOrigin ReasonFiles (q_File q) 0 (q_File q)))
          else
            match parsed o with
            | None => mret (Opaque_ (mkOrigin ReasonUnsupported (q_File q) 0 (q_File q)))
            | Some (src, root) => go src root
            end
      end
  end.

Definition Resolve (q : VgQuery) : ST (gmap memoKey Value) unit Value := fun m =>
  let '(s, r) := resolve_call q (mkEng m ∅ ∅ ∅) in (memo s, r).
End engine.

(** New: a file source that knows no owners has no crossings. *)
Definition New {N : Type} `{Syntax N} `{EqDecision N} (spec : option Spec) (fs : option FileSource)
    (xs : option CrossSource) (opts : Options)
    (range_rules : gmap string (list CrossRule) -> list (string * list CrossRule)) :
    VgQuery -> ST (gmap memoKey Value) unit Value :=
  Resolve (newIndex spec) fs xs (withDefaults opts) range_rules.
