(* ===== verification/VgEngineSpec.v ===== *)
(** What the resolution engine promises: a query is always answered, within its
    budget of files, by a value in normal form whose unions are no wider than
    the options allow, and the state of one call does not leak into the next. *)
From S2P Require Import Prelude GoStrings DlStrata VgValue VgValueSpec VgSpec VgSyntax VgEngine.

(** * Width *)

(** No union of the value has more than [w] alternatives. *)
Inductive narrow (w : Z) : Value -> Prop :=
| narrow_value k t ps o s c : (k = KindUnion -> (Z.of_nat (length ps) <= w)%Z) -> Forall (narrow w) ps ->
    narrow w (mkValue k t ps o s c).

Section narrow.
Context (w : Z).

Lemma narrow_parts v : narrow w v -> Forall (narrow w) (Parts v).
Proof. by destruct 1. Qed.

Lemma narrow_with_text t v : narrow w v -> narrow w (with_text t v).
Proof. destruct 1. by constructor. Qed.

Lemma narrow_with_crossings c v : narrow w v -> narrow w (with_crossings c v).
Proof. destruct 1. by constructor. Qed.

Lemma narrow_flatten k ps : Forall (narrow w) ps -> Forall (narrow w) (flatten k ps).
Proof.
  unfold flatten. induction 1 as [|p ps Hp _ IH]; cbn; [constructor|]. apply Forall_app_2; [|done].
  destruct (is_kind k p); [by apply narrow_parts|by apply Forall_singleton].
Qed.

Lemma narrow_merge l : Forall (narrow w) l -> Forall (narrow w) (merge l).
Proof.
  induction l as [|p l IH] using rev_ind; [done|]. intros [Hl [Hp _]%Forall_cons]%Forall_app.
  rewrite merge_snoc. specialize (IH Hl). unfold merge_step.
  assert (Hadd : Forall (narrow w) (merge l ++ [p])) by (apply Forall_app_2; [done|by apply Forall_singleton]).
  destruct (is_kind KindLiteral p); [|done]. destruct (str_eqb (vText p) ""); [done|].
  destruct (last (merge l)) as [m|] eqn:E; [|done]. destruct (is_kind KindLiteral m); [|done].
  apply last_Some in E as [l' E]. rewrite E in IH |- *. apply Forall_app in IH as [Hl' [Hm _]%Forall_cons].
  rewrite removelast_last. apply Forall_app_2; [done|]. by apply Forall_singleton, narrow_with_text.
Qed.

Lemma narrow_concat ps : Forall (narrow w) ps -> narrow w (Concat_ ps).
Proof.
  intros H. unfold Concat_. fold (merge (flatten KindConcat ps)).
  pose proof (narrow_merge _ (narrow_flatten KindConcat ps H)) as Hm.
  destruct (merge (flatten KindConcat ps)) as [|v [|v' l]]; [by constructor|by inversion Hm|by constructor].
Qed.

(** A union is narrow as soon as it has few alternatives itself. *)
Lemma narrow_union ps : Forall (narrow w) ps ->
  (is_kind KindUnion (Union_ ps) = true -> (Z.of_nat (length (Parts (Union_ ps))) <= w)%Z) -> narrow w (Union_ ps).
Proof.
  intros H. unfold Union_. fold (alts (flatten KindUnion ps)).
  assert (Ha : Forall (narrow w) (merge_sort value_le (alts (flatten KindUnion ps)))).
  { rewrite merge_sort_Permutation. apply alts_forall; [apply narrow_with_crossings|by apply narrow_flatten]. }
  destruct (merge_sort value_le (alts (flatten KindUnion ps))) as [|v [|v' l]]; intros Hw.
  - by constructor.
  - by inversion Ha.
  - constructor; [|done]. intros _. by apply Hw.
Qed.

Lemma narrow_withSrc v o : narrow w v -> narrow w (withSrc v o).
Proof.
  induction v as [k t ps og s c IH] using Value_ind'. intros Hv. inversion Hv as [? ? ? ? ? ? Hw Hp]; subst.
  destruct k; cbn [withSrc]; try by constructor. constructor; [by rewrite length_map|].
  apply Forall_forall. intros p (q & -> & Hq)%list_elem_of_fmap. rewrite Forall_forall in IH, Hp. by apply IH; auto.
Qed.
End narrow.

(** * One call *)

Section resolve.
Context {N : Type} `{Syntax N} `{!SyntaxOk N} `{EqDecision N}.
Context (ix : index) (fs : option (FileSource (N := N))) (xs : option CrossSource) (opts : Options).
Context (range_rules : gmap string (list CrossRule) -> list (string * list CrossRule)).
Context (Hfiles : (0 <= MaxFiles opts)%Z).

(** What the engine returns and remembers. *)
Definition sound (v : Value) : Prop := normal v /\ narrow (MaxUnionWidth opts) v.

(** Between two steps of a call: the memo holds sound values, the files opened
    are within the budget. *)
Definition ready (s : engState (N := N)) : Prop :=
  map_Forall (fun _ v => sound v) (memo s) /\ (Z.of_nat (size (opened s)) <= MaxFiles opts)%Z.

(** A step that returns a [P] and leaves what is being resolved as it was. *)
Definition tidy {A} (P : A -> Prop) (m : M A) : Prop := forall s, ready s ->
  wp (fun _ => False) m (fun a s' => P a /\ ready s' /\ visiting s' = visiting s /\ crossed s' = crossed s) s.

Lemma wp_get {A S E} (bad : E -> Prop) (k : S -> ST S E A) Q s : wp bad (k s) Q s -> wp bad (get_st ≫= k) Q s.
Proof. done. Qed.

Lemma wp_modify {A S E} (bad : E -> Prop) (f : S -> S) (k : unit -> ST S E A) Q s :
  wp bad (k tt) Q (f s) -> wp bad (modify_st f ≫= k) Q s.
Proof. done. Qed.

Lemma tidy_ret {A} (P : A -> Prop) a : P a -> tidy P (mret a).
Proof. intros Ha s Hs. by apply wp_ret. Qed.

Lemma tidy_bind {A B} (P : A -> Prop) (Q : B -> Prop) (m : M A) (k : A -> M B) :
  tidy P m -> (forall a, P a -> tidy Q (k a)) -> tidy Q (m ≫= k).
Proof.
  intros Hm Hk s Hs. apply wp_bind. eapply wp_mono; [|by apply Hm]. intros a s1 (Ha & Hs1 & Hv & Hc).
  eapply wp_mono; [|by apply (Hk a)]. intros b s2 (Hb & Hs2 & Hv2 & Hc2).
  split_and!; [done|done|by rewrite Hv2|by rewrite Hc2].
Qed.

Lemma tidy_weaken {A} (P Q : A -> Prop) (m : M A) : (forall a, P a -> Q a) -> tidy P m -> tidy Q m.
Proof. intros H' Hm s Hs. eapply wp_mono; [|by apply Hm]. intros a s' (Ha & Hr). by split; [apply H'|]. Qed.

Lemma sound_literal t : sound (Literal_ t).
Proof. split; constructor; [done|constructor]. Qed.

Lemma sound_opaque o : sound (Opaque_ o).
Proof.
  unfold Opaque_. split; [|by constructor; [|constructor]].
  apply normal_opaque. destruct (str_eqb (Reason o) "") eqn:E; [done|]. by apply Stdlib.Strings.String.eqb_neq.
Qed.

Lemma sound_concat ps : Forall sound ps -> sound (Concat_ ps).
Proof. intros Hp. apply Forall_and in Hp as [H1 H2]. split; [by apply Concat_normal|by apply narrow_concat]. Qed.

Lemma sound_union c n ps : Forall sound ps -> sound (capUnion opts c n (Union_ ps)).
Proof.
  intros Hp. apply Forall_and in Hp as [H1 H2]. unfold capUnion.
  destruct (is_kind KindUnion (Union_ ps) && _) eqn:E; [apply sound_opaque|].
  split; [by apply Union_normal|]. apply narrow_union; [done|]. intros Hk. rewrite Hk in E. cbn [andb] in E.
  apply Z.ltb_ge in E. lia.
Qed.

Lemma sound_withSrc v o : sound v -> sound (withSrc v o).
Proof. intros [H1 H2]. split; [by apply withSrc_normal|by apply narrow_withSrc]. Qed.

Lemma tidy_opaque (o : Origin) : tidy sound (mret (Opaque_ o)).
Proof. apply tidy_ret, sound_opaque. Qed.

Lemma tidy_gather {A} (l : list A) (f : A -> M (list Value)) :
  (forall x, x ∈ l -> tidy (Forall sound) (f x)) -> tidy (Forall sound) (gather l f).
Proof.
  induction l as [|x l IH]; intros Hf; cbn [gather]; [by apply tidy_ret|].
  eapply tidy_bind; [apply Hf; left|]. intros vs Hvs. eapply tidy_bind; [apply IH; intros; apply Hf; by right|].
  intros rest Hr. by apply tidy_ret, Forall_app_2.
Qed.

Lemma tidy_one (m : M Value) : tidy sound m -> tidy (Forall sound) (one m).
Proof. intros Hm. eapply tidy_bind; [exact Hm|]. intros v Hv. by apply tidy_ret, Forall_singleton. Qed.

Lemma tidy_open file : tidy (fun _ => True) (open_ fs opts file).
Proof.
  intros s [Hm Ho]. unfold open_. apply wp_get. destruct (opened s !! file) as [got|] eqn:E; [done|].
  destruct (MaxFiles opts <=? Z.of_nat (size (opened s)))%Z eqn:Ec; [done|]. apply Z.leb_gt in Ec. apply wp_modify, wp_ret.
  set (got := match fs with Some f => Parse f file | None => None end).
  split_and!; try done. split; [done|]. change (Z.of_nat (size (<[file := got]> (opened s))) <= MaxFiles opts)%Z.
  rewrite map_size_insert_None by done. lia.
Qed.

Lemma tidy_within site (m : M (list Value)) : tidy (Forall sound) m -> tidy (Forall sound) (within_crossing site m).
Proof.
  intros Hm s [H1 H2]. unfold within_crossing. apply wp_get. case_decide as Hin; [by apply wp_ret|].
  apply wp_modify, wp_bind. eapply wp_mono; [|by apply Hm].
  intros vs s' (Hvs & Hs' & Hv & Hc). apply wp_modify, wp_ret. split_and!; [done|done|done|].
  cbn [crossed set_crossed]. rewrite Hc. cbn [crossed set_crossed]. set_solver.
Qed.

Lemma union_of_sound c n vals : Forall sound vals ->
  match union_of opts c n vals with Some v => sound v | None => True end.
Proof. unfold union_of. destruct vals; [done|]. apply sound_union. Qed.

Definition sound_opt (o : option Value) : Prop := match o with Some v => sound v | None => True end.

(** ** The functions that call back *)

Section calls.
Context (rec : Ctx (N := N) -> N -> N -> Z -> M (N := N) Value) (depth : Z).
Context (Hdeep : forall c n scope, tidy sound (rec c n scope (depth + 1)%Z)).

Lemma tidy_resolveSite site : tidy (Forall sound) (resolveSite ix fs opts rec site depth).
Proof.
  unfold resolveSite. destruct (xs_expr site) as [[src expr]|]; [|by apply tidy_ret].
  apply tidy_within. eapply tidy_bind; [apply tidy_open|]. intros o _. destruct (capped o).
  - apply tidy_ret, Forall_singleton, sound_withSrc, sound_opaque.
  - eapply tidy_bind; [apply Hdeep|]. intros v Hv. by apply tidy_ret, Forall_singleton, sound_withSrc.
Qed.

Lemma tidy_crossForward c name at_ : tidy sound_opt (crossForward ix fs xs opts rec c name at_ depth).
Proof.
  unfold crossForward. destruct xs as [x|]; [|by apply tidy_ret]. destruct (str_eqb name ""); [by apply tidy_ret|].
  eapply tidy_bind; [|intros vals Hv; apply tidy_ret, union_of_sound, Hv].
  apply tidy_gather. intros owner _. apply tidy_gather. intros site _. apply tidy_resolveSite.
Qed.

Lemma tidy_reverse_arg sub rule site pos call :
  tidy (Forall sound) (reverse_arg ix rec sub rule site pos depth call).
Proof.
  unfold reverse_arg. destruct (positionalArg _ _ _ _).
  - eapply tidy_bind; [apply Hdeep|]. intros v Hv. by apply tidy_ret, Forall_singleton, sound_withSrc.
  - apply tidy_ret, Forall_singleton, sound_withSrc, sound_opaque.
Qed.

Lemma tidy_reverse_files rule site pos files :
  tidy (Forall sound) (reverse_files ix fs opts rec rule site pos depth files).
Proof.
  induction files as [|file files IH]; cbn [reverse_files]; [by apply tidy_ret|].
  eapply tidy_bind; [apply tidy_open|]. intros o _. destruct (capped o).
  { apply tidy_ret, Forall_singleton, sound_withSrc, sound_opaque. }
  eapply (tidy_bind (Forall sound)).
  - destruct (parsed o) as [[src root]|]; [|by apply tidy_ret]. apply tidy_gather. intros call _. apply tidy_reverse_arg.
  - intros vs Hvs. eapply tidy_bind; [exact IH|]. intros rest Hr. by apply tidy_ret, Forall_app_2.
Qed.

Lemma tidy_crossReverse c name scope : tidy sound_opt (crossReverse ix fs xs opts rec c name scope depth).
Proof.
  unfold crossReverse. destruct xs as [x|]; [|by apply tidy_ret]. destruct (str_eqb _ ""); [by apply tidy_ret|].
  destruct (paramIndexOf ix c scope name) as [pos|]; [|by apply tidy_ret].
  eapply tidy_bind; [|intros vals Hv; apply tidy_ret, union_of_sound, Hv].
  apply tidy_gather. intros site _. unfold reverse_site. destruct (ix_crossByKind ix !! xs_kind site); [|by apply tidy_ret].
  destruct (_ && _); [by apply tidy_ret|]. apply tidy_within, tidy_reverse_files.
Qed.

Lemma tidy_callSiteArgs c name scope : tidy sound_opt (callSiteArgs ix opts rec c name scope depth).
Proof.
  unfold callSiteArgs. destruct (ix_callSite ix) as [r|]; [|by apply tidy_ret]. destruct (str_eqb _ ""); [by apply tidy_ret|].
  destruct (paramIndexOf ix c scope name) as [pos|]; [|by apply tidy_ret].
  eapply tidy_bind; [|intros vals Hv; apply tidy_ret, union_of_sound, Hv].
  apply tidy_gather. intros call _. unfold call_arg. destruct (match ChildByFieldName call _ with Some _ => _ | None => _ end).
  - apply tidy_one, Hdeep.
  - apply tidy_ret, Forall_singleton, sound_opaque.
Qed.

Lemma opt_list_sound o : sound_opt o -> Forall sound (opt_list o).
Proof. destruct o; cbn; [by rewrite Forall_singleton|done]. Qed.

Lemma tidy_crossOrStop c name at_ scope reason :
  tidy sound (crossOrStop ix fs xs opts rec c name at_ scope depth reason).
Proof.
  unfold crossOrStop. eapply tidy_bind; [apply tidy_crossForward|]. intros v1 H1.
  eapply tidy_bind; [apply tidy_crossReverse|]. intros v2 H2.
  eapply (tidy_bind sound_opt); [destruct (str_eqb _ _); [apply tidy_callSiteArgs|by apply tidy_ret]|]. intros v3 H3.
  assert (Hv : Forall sound (opt_list v1 ++ opt_list v2 ++ opt_list v3)) by (repeat apply Forall_app_2; by apply opt_list_sound).
  destruct (opt_list v1 ++ opt_list v2 ++ opt_list v3); [apply tidy_opaque|]. by apply tidy_ret, sound_union.
Qed.

Lemma tidy_lookup_in c name at_ scope use scopes :
  tidy sound (lookup_in ix fs xs opts rec c name at_ scope use depth scopes).
Proof.
  induction scopes as [|cur scopes IH]; cbn [lookup_in]; [apply tidy_crossOrStop|].
  destruct (bindingsIn ix c cur name use) as [|r rhs].
  - destruct (ix_scope ix !! Type_ cur); [|exact IH]. destruct (isParam _ _ _ _); [apply tidy_crossOrStop|exact IH].
  - destruct (_ <? _)%Z; [apply tidy_opaque|]. eapply (tidy_bind (Forall sound)).
    + apply tidy_gather. intros x _. apply tidy_one, Hdeep.
    + intros vals Hv. by apply tidy_ret, sound_union.
Qed.

Lemma ready_memo k v s : sound v -> ready s -> ready (set_memo k v s).
Proof. intros Hv [H1 H2]. split; [|done]. by apply map_Forall_insert_2. Qed.

Lemma tidy_resolveSymbol c name at_ scope : tidy sound (resolveSymbol ix fs xs opts rec c name at_ scope depth).
Proof.
  unfold resolveSymbol. destruct (str_eqb name ""); [apply tidy_opaque|]. intros s Hs. apply wp_get.
  set (selfRef := negb _ && _). generalize (if selfRef then c_selfAsOf c else StartByte at_). intros use.
  destruct (memo s !! _) as [v|] eqn:Em. { apply wp_ret. split; [by apply (proj1 Hs _ _ Em)|done]. }
  case_decide as Hin.
  - destruct (negb selfRef); [by apply tidy_opaque|]. apply wp_bind. eapply wp_mono; [|apply tidy_lookup_in; exact Hs].
    intros v s' (Hv & Hs' & Hr). apply wp_modify, wp_ret. split; [done|]. split; [by apply ready_memo|done].
  - apply wp_modify, wp_bind. eapply wp_mono; [|apply tidy_lookup_in; exact Hs].
    intros v s' (Hv & Hs' & Hvis & Hc). apply wp_modify, wp_ret. split_and!; [done|by apply ready_memo| |done].
    cbn [visiting set_visiting set_memo]. rewrite Hvis. cbn [visiting set_visiting]. set_solver.
Qed.

Lemma tidy_try_names c n names : tidy sound_opt (try_names ix fs xs opts rec c n depth names).
Proof.
  induction names as [|name names IH]; cbn [try_names]; [by apply tidy_ret|].
  eapply tidy_bind; [apply tidy_crossForward|]. intros [v|] Hv; [by apply tidy_ret|exact IH].
Qed.

Lemma tidy_crossMember c n : tidy sound_opt (crossMember ix fs xs opts range_rules rec c n depth).
Proof. unfold crossMember. destruct xs eqn:E; [rewrite <- E; apply tidy_try_names|by apply tidy_ret]. Qed.
End calls.

(** ** One node *)

Section body.
Context (rec : Ctx (N := N) -> N -> N -> Z -> M (N := N) Value) (depth : Z) (n : N).
Context (Hdeep : forall c n scope, tidy sound (rec c n scope (depth + 1)%Z)).
Context (Hbelow : forall c child scope, tree_size child < tree_size n -> tidy sound (rec c child scope depth)).

Lemma tidy_resolveParts c fields scope : tidy (Forall sound) (resolveParts rec c n fields scope depth).
Proof.
  unfold resolveParts. destruct fields as [|f fields].
  - apply tidy_gather. intros child Hc. by apply tidy_one, Hbelow, named_child_smaller.
  - apply tidy_gather. intros g _. destruct (ChildByFieldName n g) as [child|] eqn:E.
    + apply tidy_one, Hbelow. by apply (field_smaller n g).
    + by apply tidy_ret, Forall_singleton, sound_opaque.
Qed.

Lemma tidy_literalValue c r scope : tidy sound (literalValue rec c n r scope depth).
Proof.
  unfold literalValue. destruct (lr_Text r); try by apply tidy_ret, sound_literal.
  destruct (innerChildRange n) as [lo hi]. eapply tidy_bind; [|intros parts Hp; by apply tidy_ret, sound_concat].
  apply tidy_gather. intros child Hc. assert (Hin : child ∈ Children n).
  { rewrite <- (take_drop lo (Children n)), elem_of_app. right. rewrite <- (take_drop (hi - lo) (drop lo _)), elem_of_app. by left. }
  unfold template_piece. destruct (negb _); [by apply tidy_ret|]. destruct (NamedChildren child) as [|e l] eqn:E.
  - by apply tidy_ret, Forall_singleton, sound_literal.
  - apply tidy_one, Hbelow. etransitivity; [apply named_child_smaller; rewrite E; left|by apply child_smaller].
Qed.

Lemma tidy_resolve_body c scope : tidy sound (resolve_body ix fs xs opts range_rules rec c n scope depth).
Proof.
  assert (Hrest : tidy sound (resolve_rest ix fs xs opts range_rules rec c n scope depth)).
  { unfold resolve_rest. destruct (ix_opaque ix !! Type_ n) as [r|].
    - eapply tidy_bind; [by apply tidy_crossMember|]. intros [v|] Hv; [by apply tidy_ret|apply tidy_opaque].
    - destruct (NamedChildren n) as [|child [|child' l]] eqn:E; [by apply tidy_resolveSymbol| |apply tidy_opaque].
      apply Hbelow, named_child_smaller. rewrite E. left. }
  assert (Hunion : tidy sound (resolve_union ix fs xs opts range_rules rec c n scope depth)).
  { unfold resolve_union. destruct (ix_union ix !! Type_ n) as [r|]; [|exact Hrest].
    destruct (operatorMatches _ _ _); [|exact Hrest].
    eapply tidy_bind; [apply tidy_resolveParts|]. intros ps Hp. by apply tidy_ret, sound_union. }
  unfold resolve_body. destruct (_ <? _)%Z; [apply tidy_opaque|].
  destruct (ix_literal ix !! Type_ n); [apply tidy_literalValue|].
  unfold resolve_concat. destruct (ix_concat ix !! Type_ n) as [r|]; [|exact Hunion].
  destruct (operatorMatches _ _ _); [|exact Hunion].
  eapply tidy_bind; [apply tidy_resolveParts|]. intros ps Hp. by apply tidy_ret, sound_concat.
Qed.
End body.

(** Enough fuel: a level of depth takes no more of it than the largest tree. *)
Lemma fuel_deeper depth n n' : (depth <= MaxDepth opts)%Z ->
  S (fuel_for opts (depth + 1) n') <= fuel_for opts depth n.
Proof.
  intros Hd. unfold fuel_for. pose proof (size_bounded n'). pose proof (size_bounded n).
  replace (Z.to_nat (MaxDepth opts + 1 - depth)) with (S (Z.to_nat (MaxDepth opts + 1 - (depth + 1)))) by lia.
  lia.
Qed.

Lemma tidy_resolveNode fuel c n scope depth : fuel_for opts depth n <= fuel ->
  tidy sound (resolveNode ix fs xs opts range_rules fuel c n scope depth).
Proof.
  revert c n scope depth. induction fuel as [|fuel IH]; intros c n scope depth Hf.
  { unfold fuel_for in Hf. revert Hf. generalize (Z.to_nat (MaxDepth opts + 1 - depth) * S (S largest)). lia. }
  cbn [resolveNode]. destruct (MaxDepth opts <? depth)%Z eqn:Ed.
  { unfold resolve_body. rewrite Ed. apply tidy_opaque. }
  apply Z.ltb_ge in Ed. apply tidy_resolve_body.
  - intros c' n' scope'. apply IH. pose proof (fuel_deeper depth n n' Ed). lia.
  - intros c' child scope' Hs. apply IH. unfold fuel_for in *. lia.
Qed.

Lemma tidy_resolve_call q : tidy sound (resolve_call ix fs xs opts range_rules q).
Proof.
  unfold resolve_call. destruct (q_Expr q) as [expr|]; [|apply tidy_opaque].
  destruct (q_Src q) as [src|]; [by apply tidy_resolveNode|].
  eapply tidy_bind; [apply tidy_open|]. intros o _. destruct (capped o); [apply tidy_opaque|].
  destruct (parsed o) as [[src root]|]; [by apply tidy_resolveNode|apply tidy_opaque].
Qed.
End resolve.

(** * The loops over a tree run to their end *)

Section loops.
Context {N : Type} `{Syntax N} `{!SyntaxOk N} `{EqDecision N} (ix : index).

Lemma preorder_fuel fuel (n : N) : tree_size n < fuel -> preorder fuel n = walk n.
Proof.
  unfold walk. revert n. induction fuel as [fuel IH] using lt_wf_ind. intros n Hf. destruct fuel as [|fuel]; [lia|].
  cbn [preorder]. do 2 f_equal. apply map_ext_in. intros x Hx%list_elem_of_In%named_child_smaller.
  rewrite (IH fuel), (IH (tree_size n)) by lia. done.
Qed.

Lemma leaf_named_fuel fuel src name (n : N) : tree_size n < fuel ->
  leaf_named fuel src name n = leaf_named (S (tree_size n)) src name n.
Proof.
  revert n. induction fuel as [fuel IH] using lt_wf_ind. intros n Hf. destruct fuel as [|fuel]; [lia|].
  cbn [leaf_named]. destruct (NamedChildren n) as [|x cs] eqn:E; [done|]. rewrite <- E.
  assert (Hall : forall y, y ∈ NamedChildren n -> leaf_named fuel src name y = leaf_named (tree_size n) src name y).
  { intros y Hy%named_child_smaller. rewrite (IH fuel), (IH (tree_size n)) by lia. done. }
  clear E. induction (NamedChildren n) as [|y l IHl]; [done|]. cbn [existsb].
  rewrite (Hall y) by left. rewrite IHl; [done|]. intros z Hz. apply Hall. by right.
Qed.

Lemma unwrap_fuel fuel (n : N) : tree_size n < fuel -> unwrap_ ix fuel n = unwrap ix n.
Proof.
  unfold unwrap. revert n. induction fuel as [fuel IH] using lt_wf_ind. intros n Hf. destruct fuel as [|fuel]; [lia|].
  cbn [unwrap_]. destruct (NamedChildren n) as [|x [|y l]] eqn:E; [done| |done]. destruct (claims ix (Type_ n)); [done|].
  assert (Hx : tree_size x < tree_size n) by (apply named_child_smaller; rewrite E; left).
  rewrite (IH fuel), (IH (tree_size n)) by lia. done.
Qed.

Lemma enclosing_shorter (n s : N) : enclosingScope ix n = Some s -> length (Parents s) < length (Parents n).
Proof.
  unfold enclosingScope. assert (Hl : forall l, Parents n = l -> List.find (is_scope ix) l = Some s -> length (Parents s) < length l).
  { intros l. generalize n. clear n. induction l as [|p l IH]; intros n E Hf; [done|]. cbn in Hf.
    pose proof (parent_chain n p l E) as Hp. destruct (is_scope ix p); [injection Hf as ->; cbn; rewrite Hp; lia|].
    specialize (IH p Hp Hf). cbn. lia. }
  apply Hl. done.
Qed.

(** The chain of scopes ends because no scope is left, not for want of fuel. *)
Lemma scope_chain_fuel c (scope : N) extra :
  scopes_from ix (S (S (length (Parents scope))) + extra) c scope = scope_chain ix c scope.
Proof.
  unfold scope_chain. enough (Hg : forall len cur f1 f2, length (Parents cur) <= len -> S (S len) <= f1 -> S (S len) <= f2 ->
    scopes_from ix f1 c cur = scopes_from ix f2 c cur) by (eapply (Hg (length (Parents scope))); lia).
  induction len as [len IH] using lt_wf_ind. intros cur f1 f2 Hl H1 H2.
  destruct f1 as [|f1], f2 as [|f2]; try lia. cbn [scopes_from]. f_equal. unfold outward.
  case_decide as Hr; [done|]. destruct (enclosingScope ix cur) as [s|] eqn:E.
  - apply enclosing_shorter in E. apply (IH (length (Parents s))); lia.
  - destruct f1 as [|f1], f2 as [|f2]; try lia. cbn [scopes_from]. unfold outward. by rewrite decide_True by done.
Qed.
End loops.

(** * Bindings *)

Lemma elem_of_concat_map {A B} (f : A -> list B) l y : y ∈ concat (map f l) <-> exists x, x ∈ l /\ y ∈ f x.
Proof.
  rewrite list_elem_of_In, in_concat. setoid_rewrite in_map_iff. setoid_rewrite list_elem_of_In. naive_solver.
Qed.

Section bindings.
Context {N : Type} `{Syntax N} `{!SyntaxOk N} `{EqDecision N} (spec : Spec) (c : Ctx (N := N)).

(** What a use in [scope] can see of it: everything below, nested scopes that
    do not contain the use apart. *)
Inductive visible (scope : N) (use : Z) : N -> Prop :=
| visible_scope : visible scope use scope
| visible_child n child : visible scope use n -> child ∈ Children n ->
    closed_scope (newIndex (Some spec)) scope use child = false -> visible scope use child.

(** A rule of the spec reads a node as binding [name] to [v]. *)
Definition binds (name : string) (n v : N) : Prop := exists r,
  r ∈ sp_Bindings spec /\ br_Node r = Type_ n /\
  nameMatches (fieldOrChild n (br_Name r) (br_NameChild r)) (c_src c) name = true /\
  fieldOrChild n (br_Value r) (br_ValueChild r) = Some v.

(** The same from any node on, as the walk sees it. *)
Inductive below (scope : N) (use : Z) : N -> N -> Prop :=
| below_here n : below scope use n n
| below_child n child m : child ∈ Children n -> closed_scope (newIndex (Some spec)) scope use child = false ->
    below scope use child m -> below scope use n m.

Lemma below_trans scope use n child m : below scope use n m -> child ∈ Children m ->
  closed_scope (newIndex (Some spec)) scope use child = false -> below scope use n child.
Proof.
  induction 1 as [n|n x m Hx Hc _ IH]; intros Hin Hcl; [by eapply below_child; [| |apply below_here]|].
  eapply below_child; [exact Hx|exact Hc|]. by apply IH.
Qed.

Lemma visible_below scope use n : visible scope use n <-> below scope use scope n.
Proof.
  split.
  - induction 1 as [|n child _ IH Hc Hcl]; [apply below_here|]. by eapply below_trans.
  - enough (Hg : forall m, visible scope use m -> below scope use m n -> visible scope use n).
    { apply Hg, visible_scope. }
    intros m Hm Hb. induction Hb as [m|m x n Hx Hc _ IH]; [done|]. by apply IH, (visible_child _ _ m).
Qed.

Lemma elem_of_bound_here name use n v :
  v ∈ bound_here (newIndex (Some spec)) c name use n <-> binds name n v /\ (StartByte v < use)%Z.
Proof.
  unfold bound_here, binds. rewrite elem_of_concat_map. split.
  - intros (r & Hr & Hv). apply (all_by_lookup br_Node) in Hr as [Hr Hn].
    destruct (nameMatches _ _ _) eqn:Em; [|by apply not_elem_of_nil in Hv].
    destruct (fieldOrChild n (br_Value r) _) as [v'|] eqn:Ev; [|by apply not_elem_of_nil in Hv].
    destruct (_ <? _)%Z eqn:El; [|by apply not_elem_of_nil in Hv]. apply list_elem_of_singleton in Hv as ->.
    split; [by exists r|by apply Z.ltb_lt].
  - intros [(r & Hr & Hn & Em & Ev) Hl]. exists r. split; [by apply (all_by_lookup br_Node)|].
    rewrite Em, Ev. apply Z.ltb_lt in Hl as ->. by apply list_elem_of_singleton.
Qed.

Lemma elem_of_bindings_below fuel scope name use n v : tree_size n < fuel ->
  closed_scope (newIndex (Some spec)) scope use n = false ->
  v ∈ bindings_below (newIndex (Some spec)) fuel c scope name use n <->
  exists m, below scope use n m /\ binds name m v /\ (StartByte v < use)%Z.
Proof.
  revert n. induction fuel as [|fuel IH]; intros n Hf Hcl; [lia|]. cbn [bindings_below]. rewrite Hcl.
  rewrite elem_of_app, elem_of_bound_here, elem_of_concat_map. split.
  - intros [Hv|(x & Hx & Hv)]; [exists n; split; [apply below_here|done]|].
    destruct (closed_scope (newIndex (Some spec)) scope use x) eqn:Ex.
    { destruct fuel; cbn [bindings_below] in Hv; [|rewrite Ex in Hv]; by apply not_elem_of_nil in Hv. }
    apply IH in Hv as (m & Hm & Hr); [|by pose proof (child_smaller n x Hx); lia|done].
    exists m. split; [by eapply below_child|done].
  - intros (m & Hm & Hr). destruct Hm as [n|n x m Hx Hc Hb]; [by left|]. right. exists x. split; [done|].
    apply IH; [by pose proof (child_smaller n x Hx); lia|done|by exists m].
Qed.
End bindings.

(** The bindings a use of a name sees in a scope are exactly the values some
    rule of the spec reads as bound to the name, at a visible node and written
    before the use: below the scope, and inside no nested scope but those that
    contain the use. *)
Theorem bindingsIn_exact {N} `{Syntax N} `{!SyntaxOk N} `{EqDecision N} (spec : Spec) (c : Ctx (N := N)) scope name use v :
  v ∈ bindingsIn (newIndex (Some spec)) c scope name use <->
  exists n, visible spec scope use n /\ binds spec c name n v /\ (StartByte v < use)%Z.
Proof.
  unfold bindingsIn. rewrite elem_of_bindings_below; [by setoid_rewrite visible_below|lia|].
  unfold closed_scope. by rewrite bool_decide_true.
Qed.

(** * Whole queries *)

Section queries.
Context {N : Type} `{Syntax N} `{EqDecision N}.

(** The queries put to one engine, in turn. *)
Fixpoint ask_all (engine : VgQuery (N := N) -> ST (gmap memoKey Value) unit Value) (qs : list (VgQuery (N := N))) :
    ST (gmap memoKey Value) unit (list Value) :=
  match qs with
  | [] => mret []
  | q :: qs' => v ← engine q; vs ← ask_all engine qs'; mret (v :: vs)
  end.
End queries.

Lemma withDefaults_pos opts : (0 < MaxDepth (withDefaults opts))%Z /\ (0 < MaxUnionWidth (withDefaults opts))%Z /\
  (0 < MaxFiles (withDefaults opts))%Z.
Proof.
  assert (Hd : forall x d, (0 < d -> 0 < if x <=? 0 then d else x)%Z).
  { intros x d Hd. destruct (x <=? 0)%Z eqn:E; [done|]. apply Z.leb_gt in E. lia. }
  unfold withDefaults. cbn [MaxDepth MaxUnionWidth MaxFiles]. by split_and!; apply Hd.
Qed.

Section sound.
Context {N : Type} `{Syntax N} `{!SyntaxOk N} `{EqDecision N}.
Context (spec : option Spec) (fs : option (FileSource (N := N))) (xs : option CrossSource) (opts : Options).
Context (range_rules : gmap string (list CrossRule) -> list (string * list CrossRule)).

Definition sound_memo (m : gmap memoKey Value) : Prop := map_Forall (fun _ v => sound (withDefaults opts) v) m.

Lemma Resolve_step q m : sound_memo m ->
  wp (fun _ => False) (New spec fs xs opts range_rules q) (fun v m' => sound (withDefaults opts) v /\ sound_memo m') m.
Proof.
  intros Hm. destruct (withDefaults_pos opts) as (_ & _ & Hf). unfold New, Resolve, wp.
  pose proof (tidy_resolve_call (newIndex spec) fs xs (withDefaults opts) range_rules (Z.lt_le_incl _ _ Hf) q (mkEng m ∅ ∅ ∅)) as Ht.
  assert (Hr : ready (N := N) (withDefaults opts) (mkEng m ∅ ∅ ∅)) by (split; [done|]; exact (Z.lt_le_incl _ _ Hf)).
  specialize (Ht Hr). unfold wp in Ht. destruct (resolve_call _ _ _ _ _ q _) as [s [v|[]]]; [|done].
  destruct Ht as (Hv & Hs & _). split; [done|apply Hs].
Qed.

Lemma ask_all_sound qs m : sound_memo m ->
  wp (fun _ => False) (ask_all (New spec fs xs opts range_rules) qs)
    (fun vs m' => length vs = length qs /\ Forall (sound (withDefaults opts)) vs /\ sound_memo m') m.
Proof.
  revert m. induction qs as [|q qs IH]; intros m Hm; cbn [ask_all]; [by apply wp_ret|].
  apply wp_bind. eapply wp_mono; [|by apply Resolve_step]. intros v m1 [Hv Hm1].
  apply wp_bind. eapply wp_mono; [|by apply IH]. intros vs m2 (Hl & Hvs & Hm2).
  apply wp_ret. cbn. split; [by rewrite Hl|]. split; [by constructor|done].
Qed.
End sound.

(** C12: whatever is asked of an engine, in whatever order, every query is
    answered: the recursion over nodes, bindings and crossings always ends. Each
    answer is a value in normal form, none of whose unions is wider than the
    options allow. *)
Theorem Resolve_total {N} `{Syntax N} `{!SyntaxOk N} `{EqDecision N} spec (fs : option (FileSource (N := N))) xs opts
    range_rules qs :
  exists m vs, ask_all (New spec fs xs opts range_rules) qs ∅ = (m, Ok vs) /\ length vs = length qs /\
    Forall (fun v => normal v /\ narrow (MaxUnionWidth (withDefaults opts)) v) vs.
Proof.
  pose proof (ask_all_sound spec fs xs opts range_rules qs ∅ (map_Forall_empty _)) as Hw. unfold wp in Hw.
  destruct (ask_all _ _ _) as [m [vs|[]]]; [|done]. destruct Hw as (Hl & Hvs & _). by exists m, vs.
Qed.

(** C13: one call, whatever earlier calls have left in the memo, opens at most
    [MaxFiles] files, and ends with no symbol and no crossing marked as being
    resolved. *)
Theorem Resolve_budget {N} `{Syntax N} `{!SyntaxOk N} `{EqDecision N} spec (fs : option (FileSource (N := N))) xs opts
    range_rules qs q m vs :
  ask_all (New spec fs xs opts range_rules) qs ∅ = (m, Ok vs) ->
  exists s v, resolve_call (newIndex spec) fs xs (withDefaults opts) range_rules q (mkEng m ∅ ∅ ∅) = (s, Ok v) /\
    (Z.of_nat (size (opened s)) <= MaxFiles (withDefaults opts))%Z /\ visiting s = ∅ /\ crossed s = ∅.
Proof.
  intros Hqs. pose proof (ask_all_sound spec fs xs opts range_rules qs ∅ (map_Forall_empty _)) as Hw. unfold wp in Hw.
  rewrite Hqs in Hw. destruct Hw as (_ & _ & Hm). destruct (withDefaults_pos opts) as (_ & _ & Hf).
  pose proof (tidy_resolve_call (newIndex spec) fs xs (withDefaults opts) range_rules (Z.lt_le_incl _ _ Hf) q (mkEng m ∅ ∅ ∅)) as Ht.
  assert (Hr : ready (N := N) (withDefaults opts) (mkEng m ∅ ∅ ∅)) by (split; [done|]; exact (Z.lt_le_incl _ _ Hf)).
  specialize (Ht Hr). unfold wp in Ht. destruct (resolve_call _ _ _ _ _ q _) as [s [v|[]]]; [|done].
  exists s, v. destruct Ht as (_ & [_ Ho] & Hv & Hc). done.
Qed.

(** * A syntax tree as an arena *)

(** A tree as the parser hands it out: a node is its number, the children after
    their parent. *)
Record arenaNode : Type := mkArena {
  an_type : string; an_named : bool; an_children : list nat; an_fields : list (string * nat);
  an_parent : option nat; an_start : Z; an_end : Z; an_row : Z
}.
Definition no_node : arenaNode := mkArena "" false [] [] None 0 0 0.

Section arena.
Context (a : list arenaNode).

Definition at_node (n : nat) : arenaNode := nth n a no_node.

Fixpoint parents_ (fuel n : nat) : list nat :=
  match fuel with
  | O => []
  | S fuel' => match an_parent (at_node n) with Some p => p :: parents_ fuel' p | None => [] end
  end.

Definition field_of (n : nat) (f : string) : option nat :=
  match List.find (fun p => str_eqb (fst p) f) (an_fields (at_node n)) with Some p => Some (snd p) | None => None end.

Definition arena_syntax : Syntax nat := {|
  Type_ n := an_type (at_node n); IsNamed n := an_named (at_node n); Children n := an_children (at_node n);
  Parents n := parents_ n n; ChildByFieldName := field_of; StartByte n := an_start (at_node n);
  EndByte n := an_end (at_node n); Row n := an_row (at_node n); tree_size n := length a - n; largest := length a
|}.

(** Children come after their parent, within the arena; parents before. *)
Definition well_numbered : bool :=
  forallb (fun n =>
    forallb (fun child => n <? child) (an_children (at_node n) ++ map snd (an_fields (at_node n))) &&
    match an_parent (at_node n) with Some p => p <? n | None => true end) (seq 0 (length a)).

Hypothesis Hwf : well_numbered = true.

Lemma well_numbered_at n : n < length a ->
  (forall child, child ∈ an_children (at_node n) ++ map snd (an_fields (at_node n)) -> n < child) /\
  (forall p, an_parent (at_node n) = Some p -> p < n).
Proof.
  intros Hn. assert (Hin : In n (seq 0 (length a))) by (apply in_seq; lia).
  pose proof (proj1 (forallb_forall _ _) Hwf n Hin) as Hw.
  cbn beta in Hw. apply andb_true_iff in Hw as [H1 H2]. split.
  - intros child Hc%list_elem_of_In. apply (proj1 (forallb_forall _ _) H1) in Hc. by apply Nat.ltb_lt.
  - intros p Hp. rewrite Hp in H2. by apply Nat.ltb_lt.
Qed.

Lemma beyond n : length a <= n -> at_node n = no_node.
Proof. apply nth_overflow. Qed.

Lemma arena_smaller n child : child ∈ an_children (at_node n) ++ map snd (an_fields (at_node n)) ->
  length a - child < length a - n.
Proof.
  intros Hc. destruct (decide (n < length a)) as [Hn|Hn].
  - apply (proj1 (well_numbered_at n Hn)) in Hc. lia.
  - rewrite (beyond n) in Hc by lia. by apply not_elem_of_nil in Hc.
Qed.

Lemma parents_fuel fuel n : n <= fuel -> parents_ fuel n = parents_ n n.
Proof.
  revert n. induction fuel as [fuel IH] using lt_wf_ind. intros n Hn.
  assert (Hp : forall p, an_parent (at_node n) = Some p -> p < n).
  { intros p Hp. destruct (decide (n < length a)) as [Hl|Hl]; [by apply (proj2 (well_numbered_at n Hl))|].
    by rewrite (beyond n) in Hp by lia. }
  destruct n as [|n].
  - destruct fuel; [done|]. cbn. destruct (an_parent (at_node 0)) as [p|]; [|done]. specialize (Hp p eq_refl). lia.
  - destruct fuel as [|fuel]; [lia|]. cbn. destruct (an_parent (at_node (S n))) as [p|]; [|done].
    specialize (Hp p eq_refl). f_equal. rewrite (IH fuel), (IH n) by lia. done.
Qed.

Lemma arena_ok : @SyntaxOk nat arena_syntax.
Proof.
  split; cbn.
  - intros n child Hc. apply arena_smaller. apply elem_of_app. by left.
  - intros n f child Hf. unfold field_of in Hf. destruct (List.find _ _) as [p|] eqn:E; [|done]. injection Hf as <-.
    apply List.find_some in E as [Hin _]. apply arena_smaller, elem_of_app. right. apply list_elem_of_fmap.
    exists p. split; [done|by apply list_elem_of_In].
  - intros n. lia.
  - intros n p l Hp. destruct n as [|n]; [done|]. cbn in Hp. destruct (an_parent (at_node (S n))) as [q|] eqn:E; [|done].
    injection Hp as -> <-. assert (Hq : p < S n).
    { destruct (decide (S n < length a)) as [Hl|Hl]; [by apply (proj2 (well_numbered_at (S n) Hl))|].
      by rewrite (beyond (S n)) in E by lia. }
    symmetry. apply parents_fuel. lia.
Qed.
End arena.

(** ** A file of two assignments: b = /x (quoted); a = b; a *)

Definition ex_src : string := "b='/x';a=b;a".

Definition ex_arena : list arenaNode := [
  mkArena "program" true [1; 7; 10] [] None 0 12 0;
  mkArena "assignment" true [2; 3] [("left", 2); ("right", 3)] (Some 0) 0 6 0;
  mkArena "identifier" true [] [] (Some 1) 0 1 0;
  mkArena "string" true [4; 5; 6] [] (Some 1) 2 6 0;
  mkArena "'" false [] [] (Some 3) 2 3 0;
  mkArena "string_fragment" true [] [] (Some 3) 3 5 0;
  mkArena "'" false [] [] (Some 3) 5 6 0;
  mkArena "assignment" true [8; 9] [("left", 8); ("right", 9)] (Some 0) 7 10 0;
  mkArena "identifier" true [] [] (Some 7) 7 8 0;
  mkArena "identifier" true [] [] (Some 7) 9 10 0;
  mkArena "expression_statement" true [11] [] (Some 0) 11 12 0;
  mkArena "identifier" true [] [] (Some 10) 11 12 0].

Definition ex_syntax : Syntax nat := arena_syntax ex_arena.
Definition ex_ok : @SyntaxOk nat ex_syntax := arena_ok ex_arena eq_refl.

Definition ex_spec : Spec :=
  mkSpec "toy" [] [mkLiteralRule "string" TextInner] [] [] [mkBindingRule "assignment" "left" "right" None None]
    [mkScopeRule "program" "" "" ""] [] [] [] [] None.

Definition ex_query (expr : nat) : VgQuery := mkVgQuery "f" (Some ex_src) None (Some expr) None "" 0.
Definition ex_ask (depth : Z) (exprs : list nat) : result unit (list Value) :=
  snd (ask_all (N := nat) (@New nat ex_syntax _ (Some ex_spec) None None (mkOptions depth 0 0) map_to_list)
    (map ex_query exprs) ∅).

(** Two bindings are followed to the literal; within one hop they are not. *)
Example Resolve_follows : ex_ask 0 [11] = Ok [Literal_ "/x"].
Proof. vm_compute. reflexivity. Qed.

(** The memo forgets how deep a symbol was met: what [b] is depends on whether
    [a] was asked about before. *)
Example memo_order_matters :
  ex_ask 1 [9] = Ok [Literal_ "/x"] /\
  ex_ask 1 [11; 9] = Ok [Opaque_ (mkOrigin ReasonDepth "f" 1 "'/x'"); Opaque_ (mkOrigin ReasonDepth "f" 1 "'/x'")].
Proof. split; vm_compute; reflexivity. Qed.

Lemma bindingsIn_exact_witness :
  let c := mkCtx "f" ex_src 0 "" 0 in
  9 ∈ @bindingsIn nat ex_syntax _ (newIndex (Some ex_spec)) c 0 "a" 11 /\
  exists n, @visible nat ex_syntax _ ex_spec 0 11 n /\ @binds nat ex_syntax ex_spec c "a" n 9.
Proof.
  assert (Hin : 9 ∈ @bindingsIn nat ex_syntax _ (newIndex (Some ex_spec)) (mkCtx "f" ex_src 0 "" 0) 0 "a" 11).
  { apply list_elem_of_In. vm_compute. left. reflexivity. }
  split; [exact Hin|].
  destruct (proj1 (@bindingsIn_exact nat ex_syntax ex_ok _ ex_spec (mkCtx "f" ex_src 0 "" 0) 0 "a" 11%Z 9) Hin)
    as (n & Hv & Hb & _).
  exists n. split; [exact Hv|exact Hb].
Defined.

Lemma Resolve_total_witness :
  exists m vs, ask_all (@New nat ex_syntax _ (Some ex_spec) None None (mkOptions 1 0 0) map_to_list)
    [ex_query 11; ex_query 9] ∅ = (m, Ok vs) /\ length vs = 2.
Proof.
  destruct (@Resolve_total nat ex_syntax ex_ok _ (Some ex_spec) None None (mkOptions 1 0 0) map_to_list
    [ex_query 11; ex_query 9]) as (m & vs & H1 & H2 & _).
  exists m, vs. split; [exact H1|exact H2].
Defined.

Lemma Resolve_budget_witness :
  exists s v, @resolve_call nat ex_syntax _ (newIndex (Some ex_spec)) None None (withDefaults (mkOptions 1 0 3)) map_to_list
    (mkVgQuery "g" None None (Some 11) None "" 0) (mkEng ∅ ∅ ∅ ∅) = (s, Ok v) /\
    (Z.of_nat (size (opened s)) <= 3)%Z /\ visiting s = ∅ /\ crossed s = ∅.
Proof.
  exact (@Resolve_budget nat ex_syntax ex_ok _ (Some ex_spec) None None (mkOptions 1 0 3) map_to_list []
    (mkVgQuery "g" None None (Some 11) None "" 0) ∅ [] eq_refl).
Defined.
