(* ===== verification/EvReport.v ===== *)
(** What is made of fused edges: the reconciliation report
    (internal/evidence/report.go), the naming and grouping of proposed rules
    (propose.go), and the comparison of a fixture's edges with those the engine
    produces for it (promote.go). *)
From Stdlib Require Import SpecFloat.
From S2P Require Import Prelude GoStrings Group DlStrata GrModel CtEngine CtReport Evidence.

(** ** The report *)

Record EdgeSummary : Type := mkEdgeSummary {
  es_Kind : string; es_Key : string; es_From : string; es_To : string; es_Sources : list string
}.

Record KindSummary : Type := mkKindSummary {
  ks_Kind : string; ks_Total : Z; ks_Verified : Z; ks_Candidate : Z; ks_Gap : Z; ks_Conflicting : Z; ks_Pct : spec_float
}.

Record ReconcileReport : Type := mkReport {
  rp_TotalEdges : Z; rp_VerifiedEdges : Z; rp_CandidateEdges : Z; rp_GapEdges : Z; rp_ConflictingEdges : Z;
  rp_VerifiedPct : spec_float; rp_ByKind : list KindSummary; rp_CandidateList : list EdgeSummary;
  rp_GapList : list EdgeSummary; rp_ConflictingList : list EdgeSummary
}.

Record kindStats : Type := mkStats { st_verified : Z; st_candidate : Z; st_gap : Z; st_conflicting : Z }.
Definition no_stats : kindStats := mkStats 0 0 0 0.

(** The cases of the switch on an edge's state. *)
Inductive Standing : Type := IsVerified | IsGap | IsConflicting | IsCandidate.
#[global] Instance Standing_eq_dec : EqDecision Standing.
Proof. solve_decision. Defined.

Definition standing (e : Edge) : Standing :=
  if str_eqb (ed_VerificationState e) StateVerified then IsVerified
  else if str_eqb (ed_VerificationState e) StateObservedOnlyGap then IsGap
  else if str_eqb (ed_VerificationState e) StateConflicting then IsConflicting
  else IsCandidate.

Definition count_standing (s : kindStats) (st : Standing) : kindStats :=
  match st with
  | IsVerified => mkStats (st_verified s + 1) (st_candidate s) (st_gap s) (st_conflicting s)
  | IsGap => mkStats (st_verified s) (st_candidate s) (st_gap s + 1) (st_conflicting s)
  | IsConflicting => mkStats (st_verified s) (st_candidate s) (st_gap s) (st_conflicting s + 1)
  | IsCandidate => mkStats (st_verified s) (st_candidate s + 1) (st_gap s) (st_conflicting s)
  end.

Definition count_edge (o : option kindStats) (e : Edge) : kindStats := count_standing (default no_stats o) (standing e).

(** The names in order of first sight, once each, then sorted. *)
Definition edgeProviders (e : Edge) : list string :=
  sort_strings (fold_left see_kind (map s_Provider (ed_Sources e)) []).

Definition summary_of (e : Edge) : EdgeSummary :=
  mkEdgeSummary (ed_Type e) (ed_Label e) (ed_From e) (ed_To e) (edgeProviders e).

Definition summary_less : EdgeSummary -> EdgeSummary -> bool :=
  less_by es_Kind str_ltb (less_by es_Key str_ltb (less_by es_From str_ltb (fun a b => str_ltb (es_To a) (es_To b)))).
Definition sortEdgeSummaries (l : list EdgeSummary) : list EdgeSummary := sort_slice summary_less l.

Definition standing_list (st : Standing) (edges : list Edge) : list EdgeSummary :=
  sortEdgeSummaries (map summary_of (List.filter (fun e => bool_decide (standing e = st)) edges)).

(** float64(a) / float64(b) * 100, 0 when there is nothing to divide by. *)
Definition percent (a b : Z) : spec_float :=
  if (0 <? b)%Z then SFmul 53 1024 (SFdiv 53 1024 (float64 a) (float64 b)) (float64 100) else S754_zero false.

Definition kind_row (byKind : gmap string kindStats) (k : string) : KindSummary :=
  let st := default no_stats (byKind !! k) in
  let total := (st_verified st + st_candidate st)%Z in
  mkKindSummary k total (st_verified st) (st_candidate st) (st_gap st) (st_conflicting st) (percent (st_verified st) total).

Definition sum_by {A} (f : A -> Z) (l : list A) : Z := fold_left (fun n x => (n + f x)%Z) l 0%Z.

Definition BuildReport (edges : list Edge) : ReconcileReport :=
  let byKind := group ed_Type count_edge edges in
  let rows := map (kind_row byKind) (sort_strings (fold_left see_kind (map ed_Type edges) [])) in
  let total := sum_by ks_Total rows in
  let verified := sum_by ks_Verified rows in
  mkReport total verified (sum_by ks_Candidate rows) (sum_by ks_Gap rows) (sum_by ks_Conflicting rows)
    (percent verified total) rows (standing_list IsCandidate edges) (standing_list IsGap edges)
    (standing_list IsConflicting edges).

(** ** Proposals *)

Definition letter_or_digit (c : ascii) : bool :=
  let n := N_of_ascii c in (((97 <=? n) && (n <=? 122)) || ((65 <=? n) && (n <=? 90)) || ((48 <=? n) && (n <=? 57)))%N.

(** The loop of Slugify: whether the last rune written was a dash. *)
Fixpoint slug_bytes (dash : bool) (l : list ascii) : list ascii :=
  match l with
  | [] => []
  | c :: l' =>
      if letter_or_digit c then c :: slug_bytes false l'
      else if dash then slug_bytes true l' else "-"%char :: slug_bytes true l'
  end.

Definition trim_dash (l : list ascii) : list ascii :=
  let fix go l := match l with c :: l' => if Ascii.eqb c "-" then go l' else l | [] => [] end in
  List.rev (go (List.rev (go l))).

(** Slugify, on ASCII text. *)
Definition Slugify (s : string) : string := bytes_str (trim_dash (slug_bytes true (str_bytes (ToLower s)))).

Definition proposalSlug (kind key : string) : string :=
  let slug := Slugify kind +:+ "-" +:+ Slugify key in
  if 80 <? str_len slug then str_take 80 slug else slug.
Definition proposedFilename (kind key : string) : string := proposalSlug kind key +:+ ".yaml".

(** What is known of a channel nothing in the static graph explains. *)
Record channelInfo : Type := mkChannel { ch_froms : gset string; ch_tos : gset string; ch_sources : gset string }.
Definition no_channel : channelInfo := mkChannel ∅ ∅ ∅.

Definition channel_of (g : EdgeSummary) : string * string := (es_Kind g, es_Key g).
Definition add_named (x : string) (s : gset string) : gset string := if str_eqb x "" then s else {[ x ]} ∪ s.
Definition add_gap (o : option channelInfo) (g : EdgeSummary) : channelInfo :=
  let ch := default no_channel o in
  mkChannel (add_named (es_From g) (ch_froms ch)) (add_named (es_To g) (ch_tos ch))
    (list_to_set (es_Sources g) ∪ ch_sources ch).

Definition see_channel (order : list (string * string)) (k : string * string) : list (string * string) :=
  if bool_decide (k ∈ order) then order else order ++ [k].
Definition channel_less : (string * string) -> (string * string) -> bool :=
  less_by fst str_ltb (fun a b => str_ltb (snd a) (snd b)).

Definition sortedKeys (s : gset string) : list string := sort_strings (elements s).

(** The channels in order, each with what was seen of it: what both
    ProposeRules and ProposeWithFixtures write a rule for. *)
Definition channels (gaps : list EdgeSummary) : list ((string * string) * (list string * list string * list string)) :=
  let byChannel := group channel_of add_gap gaps in
  map (fun k => let ch := default no_channel (byChannel !! k) in
         (k, (sortedKeys (ch_froms ch), sortedKeys (ch_tos ch), sortedKeys (ch_sources ch))))
    (sort_slice channel_less (fold_left see_channel (map channel_of gaps) [])).

(** The names of the files of the [n]th proposal, from 1. *)
Definition proposal_files (n : nat) (kind key : string) : string * string :=
  (itoa (Z.of_nat n) +:+ "-" +:+ proposalSlug kind key +:+ ".yaml",
   itoa (Z.of_nat n) +:+ "-" +:+ proposalSlug kind key +:+ ".json").

(** ** Promotion *)

Record FixtureEdge : Type := mkFixtureEdge { fx_From : string; fx_To : string; fx_Type : string }.

Definition triple_of (e : Edge) : string * string * string := (ed_From e, ed_To e, ed_Type e).
Definition fixture_triple (e : FixtureEdge) : string * string * string := (fx_From e, fx_To e, fx_Type e).

Definition produced_less : Edge -> Edge -> bool :=
  less_by ed_From str_ltb (less_by ed_To str_ltb (fun a b => str_ltb (ed_Type a) (ed_Type b))).

Definition missing_line (e : FixtureEdge) : string :=
  "  - expected  " +:+ fx_From e +:+ " → " +:+ fx_To e +:+ "  [" +:+ fx_Type e +:+ "]".
Definition extra_line (e : Edge) : string :=
  "  + unexpected " +:+ ed_From e +:+ " → " +:+ ed_To e +:+ "  [" +:+ ed_Type e +:+ "]".

Definition newline : string := String (ascii_of_nat 10) EmptyString.

Definition missing_edges (expected : list FixtureEdge) (produced : list Edge) : list FixtureEdge :=
  let producedSet : gset (string * string * string) := list_to_set (map triple_of produced) in
  List.filter (fun e => negb (bool_decide (fixture_triple e ∈ producedSet))) expected.
Definition extra_edges (expected : list FixtureEdge) (produced : list Edge) : list Edge :=
  let expectedSet : gset (string * string * string) := list_to_set (map fixture_triple expected) in
  List.filter (fun e => negb (bool_decide (triple_of e ∈ expectedSet))) (sort_slice produced_less produced).

Definition diffEdges (expected : list FixtureEdge) (produced : list Edge) : string :=
  let missing := sort_strings (map missing_line (missing_edges expected produced)) in
  let extra := map extra_line (extra_edges expected produced) in
  match (missing ++ extra)%list with
  | [] => ""
  | lines => "Fixture mismatch:" +:+ newline +:+ fold_right (fun l rest => l +:+ newline +:+ rest) "" lines
  end.

(** * Theorems

    What the reports on fused edges promise: every edge is counted once, under
    its kind and its state, and listed where its state says; a fixture passes
    exactly when the engine produces the edges it expects and no other. *)

(** ** Counting *)

Definition counted (st : Standing) (edges : list Edge) : Z :=
  Z.of_nat (length (List.filter (fun e => bool_decide (standing e = st)) edges)).

Lemma counted_cons st e l : counted st (e :: l) = ((if decide (standing e = st) then 1 else 0) + counted st l)%Z.
Proof. unfold counted. cbn [List.filter]. case_decide as D; case_bool_decide; try done; cbn [length]; lia. Qed.

Lemma counted_app st l1 l2 : counted st (l1 ++ l2) = (counted st l1 + counted st l2)%Z.
Proof. unfold counted. rewrite List.filter_app, length_app. lia. Qed.

Lemma counted_total l :
  (counted IsVerified l + counted IsCandidate l + counted IsGap l + counted IsConflicting l = Z.of_nat (length l))%Z.
Proof. induction l as [|e l IH]; [done|]. rewrite !counted_cons. cbn [length]. destruct (standing e); repeat case_decide; try done; lia. Qed.

Lemma counted_perm st l l' : l ≡ₚ l' -> counted st l = counted st l'.
Proof. intros Hp. unfold counted. induction Hp; cbn; try done; repeat case_bool_decide; cbn in *; lia. Qed.

(** The statistics of a kind count its edges. *)
Definition stats_of (l : list Edge) : kindStats :=
  mkStats (counted IsVerified l) (counted IsCandidate l) (counted IsGap l) (counted IsConflicting l).

Lemma count_edge_stats l e : count_standing (stats_of l) (standing e) = stats_of (l ++ [e]).
Proof.
  unfold stats_of. rewrite !counted_app, !counted_cons.
  destruct (standing e); repeat case_decide; try done; cbn; by rewrite ?Z.add_0_r.
Qed.

Lemma group_stats edges k : default no_stats (group ed_Type count_edge edges !! k) = stats_of (having ed_Type k edges).
Proof.
  rewrite group_lookup. generalize (having ed_Type k edges). intros l.
  induction l as [|e l IH] using rev_ind; [done|]. rewrite fold_left_app. cbn [fold_left]. unfold count_edge at 1.
  cbn [default]. rewrite IH. apply count_edge_stats.
Qed.

(** ** Names in order of first sight *)

Lemma see_kind_spec l : NoDup (fold_left see_kind l []) /\ forall k, k ∈ fold_left see_kind l [] <-> k ∈ l.
Proof.
  induction l as [|x l [IH1 IH2]] using rev_ind; [split; [constructor|done]|]. rewrite fold_left_app. cbn [fold_left].
  unfold see_kind at 1 3. destruct (existsb (str_eqb x) (fold_left see_kind l [])) eqn:E.
  - split; [done|]. intros k. rewrite elem_of_app, list_elem_of_singleton, IH2. split; [by left|]. intros [?| ->]; [done|].
    apply existsb_elem in E as (y & Hy & E). apply Stdlib.Strings.String.eqb_eq in E as ->. by apply IH2.
  - split.
    + apply NoDup_app. split_and!; [done| |apply NoDup_singleton]. intros y Hy ->%list_elem_of_singleton.
      assert (existsb (str_eqb x) (fold_left see_kind l []) = true); [|congruence].
      apply existsb_elem. exists x. split; [done|apply Stdlib.Strings.String.eqb_refl].
    + intros k. rewrite !elem_of_app, IH2. done.
Qed.

Lemma sorted_once l : NoDup (sort_strings (fold_left see_kind l [])) /\
  StronglySorted String.le (sort_strings (fold_left see_kind l [])) /\
  forall k, k ∈ sort_strings (fold_left see_kind l []) <-> k ∈ l.
Proof.
  destruct (see_kind_spec l) as [H1 H2].
  assert (Hp : sort_strings (fold_left see_kind l []) ≡ₚ fold_left see_kind l []) by apply merge_sort_Permutation.
  split_and!; [by rewrite Hp|apply (StronglySorted_merge_sort String.le)|]. intros k. by rewrite Hp, H2.
Qed.

Lemma sum_by_fold {A} (f : A -> Z) l n : fold_left (fun n x => (n + f x)%Z) l n = (n + sum_by f l)%Z.
Proof.
  unfold sum_by. revert n. induction l as [|x l IH]; intros n; cbn [fold_left]; [lia|].
  rewrite (IH (n + f x)%Z), (IH (0 + f x)%Z). lia.
Qed.

Lemma sum_by_cons {A} (f : A -> Z) x l : sum_by f (x :: l) = (f x + sum_by f l)%Z.
Proof. unfold sum_by at 1. cbn [fold_left]. rewrite sum_by_fold. lia. Qed.

(** Summed over the kinds, the counts of the kinds are the counts. *)
Lemma sum_kinds st ks edges : NoDup ks -> (forall e, e ∈ edges -> ed_Type e ∈ ks) ->
  sum_by (fun k => counted st (having ed_Type k edges)) ks = counted st edges.
Proof.
  intros Hn Hk. rewrite <- (counted_perm st _ _ (having_partition ed_Type ks edges Hn Hk)). clear Hn Hk.
  induction ks as [|k ks IH]; [done|]. rewrite sum_by_cons, IH. cbn [map concat]. by rewrite counted_app.
Qed.

Lemma sum_by_ext {A} (f g : A -> Z) l : (forall x, f x = g x) -> sum_by f l = sum_by g l.
Proof. intros E. induction l as [|x l IH]; [done|]. by rewrite !sum_by_cons, E, IH. Qed.

Lemma sum_by_map {A B} (h : A -> B) (f : B -> Z) l : sum_by f (map h l) = sum_by (fun x => f (h x)) l.
Proof. induction l as [|x l IH]; [done|]. cbn [map]. by rewrite !sum_by_cons, IH. Qed.

Lemma sum_by_add {A} (f g : A -> Z) l : sum_by (fun x => (f x + g x)%Z) l = (sum_by f l + sum_by g l)%Z.
Proof. induction l as [|x l IH]; [done|]. rewrite !sum_by_cons, IH. lia. Qed.

Lemma kind_row_stats edges k : kind_row (group ed_Type count_edge edges) k =
  mkKindSummary k (counted IsVerified (having ed_Type k edges) + counted IsCandidate (having ed_Type k edges))
    (counted IsVerified (having ed_Type k edges)) (counted IsCandidate (having ed_Type k edges))
    (counted IsGap (having ed_Type k edges)) (counted IsConflicting (having ed_Type k edges))
    (percent (counted IsVerified (having ed_Type k edges))
      (counted IsVerified (having ed_Type k edges) + counted IsCandidate (having ed_Type k edges))).
Proof. unfold kind_row. by rewrite group_stats. Qed.

#[local] Instance summary_weak : WeakLess summary_less.
Proof. unfold summary_less. apply _. Qed.

Lemma standing_list_spec st edges :
  standing_list st edges ≡ₚ map summary_of (List.filter (fun e => bool_decide (standing e = st)) edges) /\
  StronglySorted (may_precede summary_less) (standing_list st edges).
Proof. split; [apply sort_slice_perm|apply sort_slice_sorted, _]. Qed.

(** The report counts every edge exactly once, under its state and under
    its kind: the totals are the numbers of edges of each state and add up to
    all of them, there is one row for each kind of edge, in order, with that
    kind's own numbers, and the lists hold one line for each edge of their
    state, in order. *)
Theorem BuildReport_accounts edges :
  let r := BuildReport edges in
  rp_VerifiedEdges r = counted IsVerified edges /\ rp_CandidateEdges r = counted IsCandidate edges /\
  rp_GapEdges r = counted IsGap edges /\ rp_ConflictingEdges r = counted IsConflicting edges /\
  (rp_TotalEdges r + rp_GapEdges r + rp_ConflictingEdges r)%Z = Z.of_nat (length edges) /\
  (NoDup (map ks_Kind (rp_ByKind r)) /\ StronglySorted String.le (map ks_Kind (rp_ByKind r)) /\
   forall k, k ∈ map ks_Kind (rp_ByKind r) <-> exists e, e ∈ edges /\ ed_Type e = k) /\
  (forall row, row ∈ rp_ByKind r -> let own := having ed_Type (ks_Kind row) edges in
    ks_Verified row = counted IsVerified own /\ ks_Candidate row = counted IsCandidate own /\
    ks_Gap row = counted IsGap own /\ ks_Conflicting row = counted IsConflicting own /\
    ks_Total row = (ks_Verified row + ks_Candidate row)%Z) /\
  forall st l, (st, l) ∈ [(IsCandidate, rp_CandidateList r); (IsGap, rp_GapList r); (IsConflicting, rp_ConflictingList r)] ->
    l ≡ₚ map summary_of (List.filter (fun e => bool_decide (standing e = st)) edges) /\
    StronglySorted (may_precede summary_less) l.
Proof.
  intros r. destruct (sorted_once (map ed_Type edges)) as (Hn & Hs & Hm).
  set (ks := sort_strings (fold_left see_kind (map ed_Type edges) [])) in *.
  assert (Hcover : forall e, e ∈ edges -> ed_Type e ∈ ks) by (intros e He; apply Hm, list_elem_of_fmap; by exists e).
  assert (Hsum : forall f st, (forall k, f (kind_row (group ed_Type count_edge edges) k) = counted st (having ed_Type k edges)) ->
    sum_by f (rp_ByKind r) = counted st edges).
  { intros f st Hf. unfold r, BuildReport. cbn [rp_ByKind]. fold ks. rewrite sum_by_map, (sum_by_ext _ _ _ Hf).
    by apply sum_kinds. }
  assert (Hkinds : map ks_Kind (rp_ByKind r) = ks).
  { unfold r, BuildReport. cbn [rp_ByKind]. fold ks. rewrite map_map. apply map_id. }
  assert (Hv : rp_VerifiedEdges r = counted IsVerified edges) by (apply Hsum; intros k; by rewrite kind_row_stats).
  assert (Hc : rp_CandidateEdges r = counted IsCandidate edges) by (apply Hsum; intros k; by rewrite kind_row_stats).
  assert (Hg : rp_GapEdges r = counted IsGap edges) by (apply Hsum; intros k; by rewrite kind_row_stats).
  assert (Hx : rp_ConflictingEdges r = counted IsConflicting edges) by (apply Hsum; intros k; by rewrite kind_row_stats).
  split_and!; [done|done|done|done| |by rewrite Hkinds|by rewrite Hkinds| | |].
  - assert (Ht : rp_TotalEdges r = (rp_VerifiedEdges r + rp_CandidateEdges r)%Z).
    { unfold r, BuildReport. cbn [rp_TotalEdges rp_VerifiedEdges rp_CandidateEdges]. rewrite <- sum_by_add, !sum_by_map.
      by apply sum_by_ext. }
    rewrite Ht, Hv, Hc, Hg, Hx. rewrite <- (counted_total edges). lia.
  - intros k. rewrite Hkinds, Hm, list_elem_of_fmap. split; intros (e & H1 & H2); exists e; done.
  - intros row Hrow own. unfold r, BuildReport in Hrow. cbn [rp_ByKind] in Hrow.
    apply list_elem_of_fmap in Hrow as (k & -> & _). unfold own. rewrite kind_row_stats. by split_and!.
  - intros st l Hl. repeat (apply elem_of_cons in Hl as [[= -> ->]|Hl]; [apply standing_list_spec|]).
    by apply not_elem_of_nil in Hl.
Qed.

(** ** Fixtures *)

Lemma filter_empty {A} (p : A -> bool) l : List.filter p l = [] <-> forall x, x ∈ l -> p x = false.
Proof.
  induction l as [|x l IH]; cbn; [split; [by intros _ ? ?%not_elem_of_nil|done]|].
  destruct (p x) eqn:E.
  - split; [done|]. intros Hp. rewrite (Hp x) in E by left. done.
  - rewrite IH. split; intros Hp y; [intros [->|Hy]%elem_of_cons; auto|intros Hy; apply Hp; by right].
Qed.

(** A proposal's fixture passes exactly when the engine produces the edges
    it expects and no others, by their ends and their type. *)
Theorem diffEdges_exact expected produced :
  diffEdges expected produced = "" <->
  forall t, t ∈ map fixture_triple expected <-> t ∈ map triple_of produced.
Proof.
  assert (Hnil : diffEdges expected produced = "" <-> missing_edges expected produced = [] /\ extra_edges expected produced = []).
  { unfold diffEdges. set (missing := sort_strings _). assert (Hm : missing = [] <-> missing_edges expected produced = []).
    { assert (Hp : missing ≡ₚ map missing_line (missing_edges expected produced)) by apply merge_sort_Permutation.
      split; intros E; rewrite E in Hp; [|by apply Permutation_nil_r in Hp].
      symmetry in Hp. apply Permutation_nil_r in Hp. by destruct (missing_edges expected produced). }
    rewrite <- Hm. destruct missing as [|x l]; [|split; [done|intros [[=] _]]].
    destruct (extra_edges expected produced); split; try done. by intros [_ [=]]. }
  rewrite Hnil. unfold missing_edges, extra_edges. rewrite !filter_empty. setoid_rewrite negb_false_iff.
  setoid_rewrite bool_decide_eq_true. setoid_rewrite elem_of_list_to_set. setoid_rewrite elem_of_sort_slice.
  setoid_rewrite list_elem_of_fmap. split.
  - intros [H1 H2] t. split; intros (x & -> & Hx); [by apply H1|by apply H2].
  - intros Hb. split; intros x Hx; apply Hb; by exists x.
Qed.

(** Proposals come in the order of their channels, which is not that of their
    file names, and two channels can share a name. *)
Example proposals_not_by_name :
  let gaps := [mkEdgeSummary "a" "k" "" "" []; mkEdgeSummary "B" "k" "" "" []; mkEdgeSummary "b" "K" "" "" []] in
  map (fun c => proposedFilename (fst (fst c)) (snd (fst c))) (channels gaps) = ["b-k.yaml"; "a-k.yaml"; "b-k.yaml"].
Proof. vm_compute. reflexivity. Qed.
