(* ===== verification/LkIndex.v ===== *)
(** What the linking passes of internal/linker share: maps from a key to the
    first node, the last node or all the nodes that have it, the edges they
    mint, and the paths of files. *)
From S2P Require Import Prelude.
From S2P Require Import GoStrings.
From S2P Require Import GrModel.
From S2P Require Import CtEngine.
From S2P Require Import GrVerdict.

Lemma bfilter_bfilter {A} (p q : A -> bool) l :
  List.filter p (List.filter q l) = List.filter (fun x => q x && p x) l.
Proof. induction l as [|x l IH]; [done|]. cbn. destruct (q x); cbn; [|done]. by rewrite IH. Qed.

Lemma head_bfilter_None {A} (p : A -> bool) l : head (List.filter p l) = None <-> forall x, x ∈ l -> p x = false.
Proof.
  split.
  - intros H x Hx. apply not_true_iff_false. intros Hp.
    assert (x ∈ List.filter p l) as Hin by by apply elem_of_bfilter.
    destruct (List.filter p l); [by apply elem_of_nil in Hin|done].
  - intros H. destruct (List.filter p l) as [|y r] eqn:E; [done|].
    assert (y ∈ List.filter p l) as [Hy Hp]%elem_of_bfilter by (rewrite E; left). by rewrite H in Hp.
Qed.

(** An invariant of a loop over what has been done. *)
Lemma fold_left_inv_done {A S} (I : list A -> S -> Prop) (f : S -> A -> S) l s :
  I [] s -> (forall done s x, I done s -> I (done ++ [x]) (f s x)) -> I l (fold_left f l s).
Proof.
  intros H0 Hs. induction l as [|x l IH] using rev_ind; [done|]. rewrite fold_left_app. by apply Hs.
Qed.

(** ** Indexes

    [for i := range nodes { if skip { continue }; k := …; … }]: an element
    without a key is skipped. *)

Section index.
Context {K X V : Type} `{Countable K} (key : X -> option K) (val : X -> V).

(** [if _, exists := m[k]; !exists { m[k] = v }] *)
Definition first_step (m : gmap K V) (x : X) : gmap K V :=
  match key x with
  | Some k => match m !! k with Some _ => m | None => <[k := val x]> m end
  | None => m
  end.
Definition index_first (l : list X) : gmap K V := fold_left first_step l ∅.

(** [m[k] = v] *)
Definition last_step (m : gmap K V) (x : X) : gmap K V :=
  match key x with Some k => <[k := val x]> m | None => m end.
Definition index_last (l : list X) : gmap K V := fold_left last_step l ∅.

(** [m[k] = append(m[k], v)] *)
Definition all_step (m : gmap K (list V)) (x : X) : gmap K (list V) :=
  match key x with Some k => <[k := default [] (m !! k) ++ [val x]]> m | None => m end.
Definition index_all (l : list X) : gmap K (list V) := fold_left all_step l ∅.

(** [m[k]] on a map of slices: nil when absent. *)
Definition get_all (m : gmap K (list V)) (k : K) : list V := default [] (m !! k).

(** The elements that have the key. *)
Definition keyed_by (k : K) (l : list X) : list X := List.filter (fun x => bool_decide (key x = Some k)) l.

Lemma elem_of_keyed_by k l x : x ∈ keyed_by k l <-> x ∈ l /\ key x = Some k.
Proof. unfold keyed_by. by rewrite elem_of_bfilter, bool_decide_eq_true. Qed.

Lemma keyed_by_snoc k l x :
  keyed_by k (l ++ [x]) = keyed_by k l ++ (if decide (key x = Some k) then [x] else []).
Proof.
  unfold keyed_by. rewrite List.filter_app. cbn [List.filter].
  by destruct (decide (key x = Some k)); case_bool_decide.
Qed.

Lemma index_first_lookup l k : index_first l !! k = val <$> head (keyed_by k l).
Proof.
  unfold index_first. induction l as [|x l IH] using rev_ind; [done|].
  rewrite fold_left_app, keyed_by_snoc. cbn [fold_left]. unfold first_step at 1.
  destruct (decide (key x = Some k)) as [E|E].
  - rewrite E. rewrite IH. destruct (keyed_by k l) as [|y r]; cbn [head fmap option_fmap option_map app].
    + by rewrite lookup_insert_eq.
    + by rewrite IH.
  - rewrite app_nil_r. destruct (key x) as [k'|]; [|done]. destruct (_ !! k') eqn:?; [done|].
    rewrite lookup_insert_ne; [done|congruence].
Qed.

Lemma index_last_lookup l k : index_last l !! k = val <$> last (keyed_by k l).
Proof.
  unfold index_last. induction l as [|x l IH] using rev_ind; [done|].
  rewrite fold_left_app, keyed_by_snoc. cbn [fold_left]. unfold last_step at 1.
  destruct (decide (key x = Some k)) as [E|E].
  - rewrite E, lookup_insert_eq. by rewrite last_snoc.
  - rewrite app_nil_r. destruct (key x) as [k'|]; [|done].
    rewrite lookup_insert_ne; [done|congruence].
Qed.

Lemma get_all_lookup l k : get_all (index_all l) k = map val (keyed_by k l).
Proof.
  unfold get_all, index_all. induction l as [|x l IH] using rev_ind; [done|].
  rewrite fold_left_app, keyed_by_snoc, map_app. cbn [fold_left]. unfold all_step at 1.
  destruct (decide (key x = Some k)) as [E|E].
  - rewrite E, lookup_insert_eq. cbn [default from_option]. by rewrite IH.
  - rewrite app_nil_r. destruct (key x) as [k'|]; [|done].
    rewrite lookup_insert_ne; [done|congruence].
Qed.

Lemma index_all_lookup l k : index_all l !! k =
  match keyed_by k l with [] => None | xs => Some (map val xs) end.
Proof.
  unfold index_all. induction l as [|x l IH] using rev_ind; [done|].
  rewrite fold_left_app, keyed_by_snoc. cbn [fold_left]. unfold all_step at 1.
  destruct (decide (key x = Some k)) as [E|E].
  - rewrite E, lookup_insert_eq, IH. destruct (keyed_by k l) as [|y r]; [done|]. cbn. by rewrite map_app.
  - rewrite app_nil_r. destruct (key x) as [k'|]; [|done].
    rewrite lookup_insert_ne; [done|congruence].
Qed.

Lemma elem_of_get_all l k v :
  v ∈ get_all (index_all l) k <-> exists x, x ∈ l /\ key x = Some k /\ v = val x.
Proof.
  rewrite get_all_lookup, list_elem_of_fmap. setoid_rewrite elem_of_keyed_by. naive_solver.
Qed.
End index.

(** [a + NUL + b] *)
Definition key2 (a b : string) : string := a +:+ nul +:+ b.
Definition key3 (a b c : string) : string := a +:+ nul +:+ b +:+ nul +:+ c.

Lemma key2_inj a b a' b' : nul_free a = true -> nul_free a' = true ->
  key2 a b = key2 a' b' <-> a = a' /\ b = b'.
Proof. intros Ha Ha'. split; [|by intros [-> ->]]. apply nul_cut; done. Qed.

Lemma key3_inj a b c a' b' c' : forallb nul_free [a; b] = true -> forallb nul_free [a'; b'] = true ->
  key3 a b c = key3 a' b' c' <-> a = a' /\ b = b' /\ c = c'.
Proof.
  cbn [forallb]. rewrite !andb_true_iff. intros (Ha & Hb & _) (Ha' & Hb' & _).
  split; [|by intros (-> & -> & ->)].
  intros E. apply nul_cut in E as [-> E]; [|done..]. by apply nul_cut in E as [-> ->].
Qed.

(** ** Loops that append to two slices *)

(** The edges and the ledger entries each element contributes, in order. *)
Definition collect {X A B} (f : X -> list A * list B) (l : list X) : list A * list B :=
  (concat (map (fun x => fst (f x)) l), concat (map (fun x => snd (f x)) l)).

Lemma elem_of_concat_map_list {X A} (f : X -> list A) l a :
  a ∈ concat (map f l) <-> exists x, x ∈ l /\ a ∈ f x.
Proof.
  induction l as [|x l IH]; cbn; [setoid_rewrite elem_of_nil; naive_solver|].
  rewrite elem_of_app, IH. setoid_rewrite elem_of_cons. naive_solver.
Qed.

Lemma elem_of_collect_fst {X A B} (f : X -> list A * list B) l a :
  a ∈ fst (collect f l) <-> exists x, x ∈ l /\ a ∈ fst (f x).
Proof. apply elem_of_concat_map_list. Qed.
Lemma elem_of_collect_snd {X A B} (f : X -> list A * list B) l b :
  b ∈ snd (collect f l) <-> exists x, x ∈ l /\ b ∈ snd (f x).
Proof. apply elem_of_concat_map_list. Qed.

(** ** Edges and ledger entries *)

(** An edge with the fields the passes fill in. *)
Definition link_edge (id from to : string) (ty : EdgeType) (conf : string) (meta : Meta) : Edge :=
  mkEdge id from to ty "" conf "" "" meta [] "" "".

(** fmt.Sprintf("%s:%s->%s", ty, from, to) *)
Definition arrow_id (ty from to : string) : string := ty +:+ ":" +:+ from +:+ "->" +:+ to.

Definition ledger (n : Node) (name kind : string) : UnresolvedRef :=
  mkUnresolvedRef (n_Service n) (n_File n) (n_Line n) name kind "".

(** [if seen[e.ID] { continue }; seen[e.ID] = true; out = append(out, e)] *)
Definition first_by_id (l : list Edge) : list Edge := snd (fold_left add_unseen l (∅, [])).

Lemma first_by_id_spec l : NoDup (map ed_ID (first_by_id l)) /\
  (forall e, e ∈ first_by_id l -> e ∈ l) /\ (forall e, e ∈ l -> ed_ID e ∈ map ed_ID (first_by_id l)).
Proof.
  unfold first_by_id. pose proof (add_unseen_spec l ∅ []) as H. destruct (fold_left add_unseen l (∅, [])) as [s es].
  destruct H as (H1 & H2 & _ & H4); [set_solver|apply NoDup_nil_2|]. split_and!; [done| |done].
  intros e [He|He]%H2; [by apply elem_of_nil in He|done].
Qed.

(** stripMeta, stripQuote: surrounding quotes are cut, when they match. *)
Definition is_quote (c : ascii) : bool := Ascii.eqb c "034" || Ascii.eqb c "'" || Ascii.eqb c "`".
Definition stripMeta (s : string) : string :=
  match s with
  | String c s' =>
      match cut_last c s' with
      | Some (inner, "") => if is_quote c then inner else s
      | _ => s
      end
  | "" => s
  end.

(** ** Paths: packages path and filepath, on slash-separated paths *)

Definition slash : ascii := "/".

(** One element of a path: [acc] holds the elements kept, innermost first. *)
Definition clean_step (rooted : bool) (acc : list string) (elem : string) : list string :=
  if str_eqb elem "" || str_eqb elem "." then acc
  else if str_eqb elem ".." then
    match acc with
    | last :: acc' => if str_eqb last ".." then elem :: acc else acc'
    | [] => if rooted then [] else [elem]
    end
  else elem :: acc.

(** path.Clean *)
Definition path_Clean (p : string) : string :=
  let rooted := HasPrefix p "/" in
  let elems := rev (fold_left (clean_step rooted) (Split slash p) []) in
  let out := (if rooted then "/" else "") +:+ Join "/" elems in
  if str_eqb out "" then "." else out.

(** path.Dir *)
Definition path_Dir (p : string) : string :=
  match cut_last slash p with
  | Some (d, _) => path_Clean (d +:+ "/")
  | None => "."
  end.

(** path.Base: trailing slashes are cut first. *)
Definition drop_slash (c : ascii) (acc : string) : string :=
  if Ascii.eqb c slash && str_eqb acc "" then "" else String c acc.
Definition TrimRightSlash (p : string) : string := foldr drop_slash "" (str_bytes p).
Definition path_Base (p : string) : string :=
  if str_eqb p "" then "."
  else
    let q := TrimRightSlash p in
    let base := match cut_last slash q with Some (_, b) => b | None => q end in
    if str_eqb base "" then "/" else base.

(** filepath.Ext: from the last dot of the last element. *)
Definition filepath_Ext (p : string) : string :=
  let base := match cut_last slash p with Some (_, b) => b | None => p end in
  match cut_last "." base with Some (_, e) => "." +:+ e | None => "" end.

(** ** Languages of files *)

(** languageForFile *)
Definition languageForFile (file : string) : string :=
  let ext := HasSuffix file in
  if ext ".templ" then "templ"
  else if ext ".go" then "go"
  else if ext ".ts" || ext ".tsx" then "typescript"
  else if ext ".js" || ext ".jsx" || ext ".mjs" || ext ".es6" then "javascript"
  else if ext ".erb" then "erb"
  else if ext ".rb" then "ruby"
  else if ext ".scss" then "scss"
  else if ext ".css" then "css"
  else "".

(** isRubyFile, isERBFile *)
Definition isRubyFile (file : string) : bool :=
  let ext := ToLower (filepath_Ext file) in str_eqb ext ".rb" || str_eqb ext ".rake".
Definition isERBFile (file : string) : bool := str_eqb (ToLower (filepath_Ext file)) ".erb".

Example clean_ex : map path_Clean ["a/../../b/./c//d"; "/../x"; ""; "a/.."; "../../q"] =
  ["../b/c/d"; "/x"; "."; "."; "../../q"].
Proof. reflexivity. Qed.
Example base_ex : map path_Base ["a/b.go"; ""; "//"; "a/b//"] = ["b.go"; "."; "/"; "b"] /\
  map path_Dir ["a/b.go"; "x.go"; "/x.go"; "a//b"] = ["a"; "."; "/"; "a"] /\
  map filepath_Ext ["a.b/c"; "a/b.tar.gz"; ".erb"] = [""; ".gz"; ".erb"].
Proof. repeat split. Qed.
Example strip_ex : map stripMeta ["'a'"; "'"; "`x"; "''"; "'a'b'"] = ["a"; "'"; "`x"; ""; "a'b"].
Proof. reflexivity. Qed.
