(* ===== verification/GrExplore.v ===== *)
(** Looking around in the graph (internal/graph): the neighbours of a node
    (linkexplorer.go), the files related to a file (related.go), the channels
    between two services (servicechannels.go), why an edge is there
    (explain.go), what a path says of its service (path_evidence.go), the stack
    of a service (stack.go) and how the ledger grows (trend.go). *)
From S2P Require Import Prelude GoStrings Group GrModel GrNoise GrVerdict GrFlows GrFiles CtNormalize CtNormalizeSpec CtEngine LkIndex.

(** * The neighbours of a node *)

Record LinkRow : Type := mkLinkRow {
  lr_NodeID : string; lr_Label : string; lr_Type : string; lr_Service : string; lr_File : string; lr_Line : Z;
  lr_EdgeID : string; lr_EdgeType : string; lr_EdgeLabel : string; lr_Channel : string; lr_CrossService : bool;
  lr_Confidence : string; lr_VerificationState : string; lr_Synthetic : bool; lr_Depth : nat; lr_Via : list string
}.

Record LinkExplorerResult : Type := mkLinks {
  le_Direction : string; le_Depth : Z; le_Total : Z; le_Offset : Z; le_Rows : list LinkRow; le_Truncated : bool
}.

Record linkParent : Type := mkParent { lp_via : Edge; lp_prev : string; lp_depth : nat }.

Section explorer.
Context (idx : AdjacencyIndex) (direction : string).

Definition upstream : bool := str_eqb direction "upstream".
Definition far_end (e : Edge) : string := if upstream then ed_From e else ed_To e.

Definition sortedAdjacency (id : string) : list Edge :=
  sort_slice (less_by ed_Type str_ltb (fun a b => str_ltb (far_end a) (far_end b)))
    (if upstream then in_of idx id else out_of idx id).

Definition edgeChannel (e : Edge) : string :=
  let channel id := match Nodes idx !! id with
    | Some n => if str_eqb (n_Type n) NodeTypeChannel then Some (channelLabel n) else None
    | None => None end in
  match channel (ed_From e), channel (ed_To e) with
  | Some l, _ => l
  | None, Some l => l
  | None, None => ""
  end.

(** What the walk has found: who is visited, how, and in which order. *)
Record exploration : Type := mkExploration {
  ex_visited : gset string; ex_parents : gmap string linkParent; ex_order : list string
}.

(** One edge of a node at depth [d]; [next] is the following level. *)
Definition explore_edge (cur : string) (d : nat) (st : exploration * list string) (e : Edge) : exploration * list string :=
  let '(x, next) := st in
  let far := far_end e in
  if decide (far ∈ ex_visited x) then st
  else (mkExploration ({[far]} ∪ ex_visited x) (<[far := mkParent e cur (S d)]> (ex_parents x)) (ex_order x ++ [far]),
        next ++ [far]).

Definition explore_node (d : nat) (st : exploration * list string) (cur : string) : exploration * list string :=
  fold_left (explore_edge cur d) (sortedAdjacency cur) st.

(** [for d := 0; d < depth && len(queue) > 0; d++]: [n] levels are left. *)
Fixpoint explore_levels (n d : nat) (queue : list string) (x : exploration) : exploration :=
  match n, queue with
  | O, _ | _, [] => x
  | S n', _ => let '(x', next) := fold_left (explore_node d) queue (x, []) in explore_levels n' (S d) next x'
  end.

Definition explore (depth : nat) (nodeID : string) : exploration :=
  explore_levels depth 0 [nodeID] (mkExploration {[nodeID]} ∅ []).

(** The loop of linkViaPath, from the node up; it ends at the start, which has
    no parent, after as many steps as the node is deep. *)
Fixpoint via_up (fuel : nat) (parents : gmap string linkParent) (cur : string) : list string :=
  match fuel with
  | O => []
  | S fuel' =>
      match parents !! cur with
      | None => []
      | Some p => match Nodes idx !! cur with Some n => [n_Label n] | None => [] end ++ via_up fuel' parents (lp_prev p)
      end
  end.
Definition linkViaPath (parents : gmap string linkParent) (id : string) : list string :=
  match parents !! id with
  | Some p => rev (via_up (lp_depth p) parents (lp_prev p))
  | None => []
  end.

Definition crosses (start n : Node) : bool :=
  negb (str_eqb (n_Service start) "") && negb (str_eqb (n_Service n) "") && negb (str_eqb (n_Service start) (n_Service n)).

(** The row of a node found. *)
Definition link_row (start : Node) (kindFilter serviceFilter : string) (parents : gmap string linkParent) (id : string) :
    option LinkRow :=
  n ← Nodes idx !! id;
  p ← parents !! id;
  if (negb (str_eqb kindFilter "") && negb (str_eqb (n_Type n) kindFilter)) ||
     (negb (str_eqb serviceFilter "") && negb (str_eqb (n_Service n) serviceFilter)) then None
  else Some (mkLinkRow (n_ID n) (n_Label n) (n_Type n) (n_Service n) (n_File n) (n_Line n)
    (ed_ID (lp_via p)) (ed_Type (lp_via p)) (ed_Label (lp_via p)) (edgeChannel (lp_via p)) (crosses start n)
    (ed_Confidence (lp_via p)) (ed_VerificationState (lp_via p)) (str_eqb (meta_of n "synthetic") "true")
    (lp_depth p) (if (1 <? lp_depth p)%nat then linkViaPath parents id else [])).
End explorer.

Definition clamp_depth (depth : Z) : Z := if (depth <=? 0)%Z then 1 else if (3 <? depth)%Z then 3 else depth.
Definition clamp_limit (limit : Z) : Z := if (limit <=? 0)%Z then 100 else if (100 <? limit)%Z then 100 else limit.

Definition LinkExplorerAdjacency (idx : AdjacencyIndex) (nodeID direction : string) (depth offset limit : Z)
    (kindFilter serviceFilter : string) : LinkExplorerResult :=
  let depth := clamp_depth depth in
  let limit := clamp_limit limit in
  let offset := if (offset <? 0)%Z then 0%Z else offset in
  match Nodes idx !! nodeID with
  | None => mkLinks direction depth 0 0 [] false
  | Some start =>
      let x := explore idx direction (Z.to_nat depth) nodeID in
      let rows := omap (link_row idx start kindFilter serviceFilter (ex_parents x)) (ex_order x) in
      let total := Z.of_nat (length rows) in
      let offset := Z.min offset total in
      let end_ := Z.min (offset + limit) total in
      mkLinks direction depth total offset (take (Z.to_nat (end_ - offset)) (drop (Z.to_nat offset) rows)) (end_ <? total)%Z
  end.

(** * The files related to a file *)

Record RelatedFileEntry : Type := mkRelated {
  rl_File : string; rl_Service : string; rl_Refs : Z; rl_Nodes : Z; rl_MinDepth : nat; rl_EdgeTypes : list string;
  rl_Best : string
}.

(** One item of the queue. *)
Record qitem : Type := mkQ { q_id : string; q_via : option Edge; q_depth : nat }.

Section related.
Context (idx : AdjacencyIndex) (seedSet : gset string).

Definition file_key2 (n : Node) : string := key2 (n_Service n) (n_File n).
Definition outside (n : Node) : bool := negb (str_eqb (n_File n) "") && negb (bool_decide (file_key2 n ∈ seedSet)).

Abbreviation entries := (gmap file_key RelatedFileEntry).

Definition entry (m : entries) (n : Node) (depth : nat) : RelatedFileEntry :=
  default (mkRelated (n_File n) (n_Service n) 0 0 depth [] "") (m !! key_of n).

Definition better_state (best state : string) : string :=
  if (VerificationRank state <? VerificationRank best)%Z then state else best.

(** countDirect *)
Definition count_direct (st : gset string * entries) (p : string * Edge) : gset string * entries :=
  let '(seenEdge, m) := st in
  let '(otherID, e) := p in
  match Nodes idx !! otherID with
  | None => st
  | Some n =>
      if negb (outside n) || bool_decide (ed_ID e ∈ seenEdge) then st
      else
        let en := entry m n 1 in
        ({[ed_ID e]} ∪ seenEdge,
         <[key_of n := mkRelated (rl_File en) (rl_Service en) (rl_Refs en + 1) (rl_Nodes en) (rl_MinDepth en)
             (appendUnique (rl_EdgeTypes en) (ed_Type e)) (better_state (rl_Best en) (ed_VerificationState e))]> m)
  end.

(** The edges at a node, with their other end: outgoing, then incoming. *)
Definition around (id : string) : list (string * Edge) :=
  map (fun e => (ed_To e, e)) (out_of idx id) ++ map (fun e => (ed_From e, e)) (in_of idx id).

Definition direct_refs (seeds : list Node) : gset string * entries :=
  fold_left count_direct (concat (map (fun s => around (n_ID s)) seeds)) (∅, ∅).

(** What an item taken from the queue adds. *)
Definition reach_item (m : entries) (cur : qitem) : entries :=
  match Nodes idx !! q_id cur with
  | None => m
  | Some n =>
      if (q_depth cur =? 0)%nat || negb (outside n) then m
      else
        let e := entry m n (q_depth cur) in
        <[key_of n := mkRelated (rl_File e) (rl_Service e) (rl_Refs e) (rl_Nodes e + 1) (Nat.min (q_depth cur) (rl_MinDepth e))
            match q_via cur with Some v => appendUnique (rl_EdgeTypes e) (ed_Type v) | None => rl_EdgeTypes e end
            match q_via cur with Some v => better_state (rl_Best e) (ed_VerificationState v) | None => rl_Best e end]> m
  end.

Definition enqueue_far (cur : qitem) (st : gset string * list qitem) (p : string * Edge) : gset string * list qitem :=
  let '(visited, queue) := st in
  if decide (fst p ∈ visited) then st
  else ({[fst p]} ∪ visited, queue ++ [mkQ (fst p) (Some (snd p)) (S (q_depth cur))]).

Definition stops (maxDepth : Z) (cur : qitem) : bool := (0 <? maxDepth)%Z && (maxDepth <=? Z.of_nat (q_depth cur))%Z.

Fixpoint related_loop (fuel : nat) (maxDepth : Z) (visited : gset string) (queue : list qitem) (m : entries) : option entries :=
  match queue with
  | [] => Some m
  | cur :: queue' =>
      match fuel with
      | O => None
      | S fuel' =>
          let m' := reach_item m cur in
          if stops maxDepth cur then related_loop fuel' maxDepth visited queue' m'
          else
            let '(visited', queue'') := fold_left (enqueue_far cur) (around (q_id cur)) (visited, queue') in
            related_loop fuel' maxDepth visited' queue'' m'
      end
  end.
End related.

Definition enqueue_seed (st : gset string * list qitem) (s : Node) : gset string * list qitem :=
  let '(visited, queue) := st in
  if decide (n_ID s ∈ visited) then st else ({[n_ID s]} ∪ visited, queue ++ [mkQ (n_ID s) None 0]).

Definition related_less : RelatedFileEntry -> RelatedFileEntry -> bool :=
  less_by rl_Refs (fun a b => (b <? a)%Z) (less_by rl_MinDepth Nat.ltb (less_by rl_Nodes (fun a b => (b <? a)%Z)
    (less_by (fun e => VerificationRank (rl_Best e)) Z.ltb (less_by rl_File str_ltb
      (fun a b => str_ltb (rl_Service a) (rl_Service b)))))).

Definition sort_types (e : RelatedFileEntry) : RelatedFileEntry :=
  mkRelated (rl_File e) (rl_Service e) (rl_Refs e) (rl_Nodes e) (rl_MinDepth e) (sort_strings (rl_EdgeTypes e)) (rl_Best e).

(** The seeds of the paths given: their nodes, the files that are in the set
    and in the order first seen, and the paths without nodes. *)
Definition add_seed_file (st : gset string * list string) (n : Node) : gset string * list string :=
  let '(seedSet, seedFiles) := st in
  if decide (file_key2 n ∈ seedSet) then st else ({[file_key2 n]} ∪ seedSet, seedFiles ++ [n_File n]).

(** Every edge is visited at both ends at most, and so is every seed once. *)
Definition related_fuel (idx : AdjacencyIndex) (seeds : list Node) : nat :=
  length seeds + length (concat (map snd (map_to_list (OutEdges idx)))) + length (concat (map snd (map_to_list (InEdges idx)))).

(** RelatedFiles; [nodes] and [order] are the iteration orders of the map of
    nodes and of the map of entries. *)
Definition RelatedFiles (idx : AdjacencyIndex) (nodes : list Node)
    (order : list (file_key * RelatedFileEntry) -> list (file_key * RelatedFileEntry))
    (service : string) (paths : list string) (maxDepth : Z) :
    option (list string * list RelatedFileEntry * list string) :=
  let missing := List.filter (fun p => bool_decide (NodesInFile nodes service p = [])) paths in
  let seedNodes := concat (map (NodesInFile nodes service) paths) in
  let '(seedSet, seedFiles) := fold_left add_seed_file seedNodes (∅, []) in
  match seedNodes with
  | [] => Some (sort_strings seedFiles, [], missing)
  | _ =>
      let '(_, m) := direct_refs idx seedSet seedNodes in
      let '(visited, queue) := fold_left enqueue_seed seedNodes (∅, []) in
      m' ← related_loop idx seedSet (related_fuel idx seedNodes) maxDepth visited queue m;
      Some (sort_strings seedFiles,
        sort_slice related_less (map (fun p => sort_types (snd p)) (order (map_to_list m'))), missing)
  end.

(** * The channels between two services *)

Record ServiceChannel : Type := mkServiceChannel {
  sc_Kind : string; sc_Channel : string; sc_EdgeID : string; sc_From : string; sc_To : string;
  sc_VerificationState : string; sc_ProducerCount : nat; sc_ConsumerCount : nat
}.

Definition verificationRank : gmap string Z :=
  <[StateObservedOnlyGap := 0%Z]> (<[StateConflicting := 1%Z]> (<[StateCandidate := 2%Z]> {[StateVerified := 3%Z]})).
(** An unknown state ranks as a verified one. *)
Definition worse_rank (s : string) : Z := default 3%Z (verificationRank !! s).

Definition worseVerificationState (a b : string) : string :=
  if str_eqb a "" then b
  else if str_eqb b "" then a
  else if (worse_rank b <? worse_rank a)%Z then b else a.

Definition channelIdentity (idx : AdjacencyIndex) (e : Edge) : string :=
  let key := meta_get (ed_Meta e) "channel_key" in
  let channel id := match Nodes idx !! id with
    | Some n => if str_eqb (n_Type n) NodeTypeChannel then Some (channelLabel n) else None
    | None => None end in
  let method := meta_get (ed_Meta e) "method" in
  let path := meta_get (ed_Meta e) "path" in
  if negb (str_eqb key "") then key
  else match channel (ed_From e), channel (ed_To e) with
       | Some l, _ => l
       | None, Some l => l
       | None, None =>
           if negb (str_eqb method "") || negb (str_eqb path "") then method +:+ " " +:+ path
           else if negb (str_eqb (ed_Label e) "") then ed_Label e else ed_Type e
       end.

Record channel_group : Type := mkChannelGroup {
  cg_kind : string; cg_channel : string; cg_edgeID : string; cg_from : string; cg_to : string; cg_state : string;
  cg_producers : gset string; cg_consumers : gset string
}.

(** An edge that crosses the pair: its direction and its channel. *)
Record crossing : Type := mkCrossing { cr_edge : Edge; cr_from : string; cr_to : string; cr_identity : string }.

Definition crossing_key (c : crossing) : string :=
  cr_from c +:+ nul +:+ cr_to c +:+ nul +:+ ed_Type (cr_edge c) +:+ nul +:+ cr_identity c.

Definition crossing_of (idx : AdjacencyIndex) (from to : string) (e : Edge) : option crossing :=
  if negb (isFlowEdge (ed_Type e)) then None
  else
    fn ← Nodes idx !! ed_From e;
    tn ← Nodes idx !! ed_To e;
    if str_eqb (n_Service fn) from && str_eqb (n_Service tn) to
    then Some (mkCrossing e from to (channelIdentity idx e))
    else if str_eqb (n_Service fn) to && str_eqb (n_Service tn) from
    then Some (mkCrossing e to from (channelIdentity idx e))
    else None.

Definition add_crossing (o : option channel_group) (c : crossing) : channel_group :=
  let e := cr_edge c in
  let g := default (mkChannelGroup (ed_Type e) (cr_identity c) (ed_ID e) (cr_from c) (cr_to c) "" ∅ ∅) o in
  mkChannelGroup (cg_kind g) (cg_channel g) (if str_ltb (ed_ID e) (cg_edgeID g) then ed_ID e else cg_edgeID g)
    (cg_from g) (cg_to g) (worseVerificationState (cg_state g) (ed_VerificationState e))
    ({[ed_From e]} ∪ cg_producers g) ({[ed_To e]} ∪ cg_consumers g).

Definition channel_row (g : channel_group) : ServiceChannel :=
  mkServiceChannel (cg_kind g) (cg_channel g) (cg_edgeID g) (cg_from g) (cg_to g) (cg_state g)
    (size (cg_producers g)) (size (cg_consumers g)).

(** [groups[k]] for the keys in order; every key has its group. *)
Definition ServiceChannels (idx : AdjacencyIndex) (from to : string) : result string (list ServiceChannel) :=
  if str_eqb from "" || str_eqb to "" then Err "missing from/to service"
  else
    let groups := group crossing_key add_crossing (omap (crossing_of idx from to) (AllEdges idx)) in
    let keys := sort_strings (map fst (map_to_list groups)) in
    Ok (omap (fun k => channel_row <$> groups !! k) keys).

(** * Why an edge is there *)

Record RuleStep : Type := mkRuleStep { st_Layer : string; st_Rule : string; st_Provider : string }.
#[export] Instance RuleStep_eq_dec : EqDecision RuleStep.
Proof. solve_decision. Defined.

Record EdgeExplanation : Type := mkExplanation {
  ee_Edge : Edge; ee_From : option Node; ee_To : option Node; ee_Sources : list SourceRef;
  ee_RuleChain : list RuleStep; ee_LedgerRows : list UnresolvedRef
}.

Definition add_rule_step (chain : list RuleStep) (src : SourceRef) : list RuleStep :=
  if str_eqb (s_Rule src) "" && str_eqb (s_Layer src) "" then chain
  else
    let step := mkRuleStep (s_Layer src) (s_Rule src) (s_Provider src) in
    if decide (step ∈ chain) then chain else chain ++ [step].

Definition rule_chain (sources : list SourceRef) : list RuleStep :=
  sort_slice (less_by st_Layer str_ltb (fun a b => str_ltb (st_Rule a) (st_Rule b))) (fold_left add_rule_step sources []).

Definition ledger_rows (ledger : list UnresolvedRef) (from : option Node) : list UnresolvedRef :=
  match from with
  | Some n =>
      if str_eqb (n_File n) "" then []
      else sort_slice (less_by u_Kind str_ltb (fun a b => str_ltb (u_Name a) (u_Name b)))
        (List.filter (fun u => str_eqb (u_File u) (n_File n) && (u_Line u =? n_Line n)%Z) ledger)
  | None => []
  end.

(** ExplainEdge; [lists] is the content of OutEdges in iteration order. *)
Definition ExplainEdge (idx : AdjacencyIndex) (lists : list (string * list Edge)) (ledger : list UnresolvedRef)
    (edgeID : string) : option EdgeExplanation :=
  e ← List.find (fun e => str_eqb (ed_ID e) edgeID) (concat (map snd lists));
  let from := Nodes idx !! ed_From e in
  Some (mkExplanation e from (Nodes idx !! ed_To e) (ed_Sources e) (rule_chain (ed_Sources e)) (ledger_rows ledger from)).

(** * What a path says of its service *)

Definition PathEvidenceNone : string := "".
Definition PathEvidenceWeak : string := "weak".
Definition PathEvidenceStrong : string := "strong".

Definition isHealthProbeSegment (seg : string) : bool :=
  bool_decide (ToLower seg ∈ ["health"; "healthz"; "healthcheck"; "livez"; "liveness"; "readyz"; "readiness"; "ping"; "heartbeat"]).

Definition is_digit (c : ascii) : bool := match digit_val c with Some _ => true | None => false end.

Definition isAPINamespaceSegment (seg : string) : bool :=
  let l := ToLower seg in
  str_eqb l "api" || str_eqb l "rest" ||
  match l with
  | String "v" ((String _ _) as rest) => forallb is_digit (str_bytes rest)
  | _ => false
  end.

(** A segment that names something. *)
Definition literal_segment (seg : string) : bool :=
  negb (str_eqb seg "" || Contains seg "*" || HasSuffix seg ":" || isAPINamespaceSegment seg).

Definition PathEvidence (pattern : string) : string :=
  let segs := List.filter literal_segment (Split "/" pattern) in
  let literals := length segs in
  let healthOnly := forallb isHealthProbeSegment segs in
  if (literals =? 0)%nat then PathEvidenceNone
  else if negb (Contains pattern "*") then PathEvidenceStrong
  else if healthOnly then PathEvidenceNone
  else if (2 <=? literals)%nat then PathEvidenceStrong
  else PathEvidenceWeak.

(** * The ledger *)

Definition FilterUnresolvedRefs (refs : list UnresolvedRef) (service kind q : string) : list UnresolvedRef :=
  List.filter (fun r =>
    (str_eqb service "" || str_eqb (u_Service r) service) && (str_eqb kind "" || str_eqb (u_Kind r) kind) &&
    (str_eqb q "" || Contains (ToLower (u_Name r)) (ToLower q) || Contains (ToLower (u_File r)) (ToLower q))) refs.

Record UnresolvedHistoryRow : Type := mkHistory { uh_RunAt : Z; uh_Service : string; uh_Kind : string; uh_Count : Z }.

Record TrendRow : Type := mkTrend {
  tw_Service : string; tw_Kind : string; tw_Latest : Z; tw_Baseline : Z; tw_Delta : Z; tw_Runs : Z
}.

Definition pair_of (r : UnresolvedHistoryRow) : string * string := (uh_Service r, uh_Kind r).

(** [if !seen[k] { seen[k] = true; out = append(out, x) }] *)
Definition add_fresh {A K} `{EqDecision K} (key : A -> K) (out : list A) (x : A) : list A :=
  if decide (key x ∈ map key out) then out else out ++ [x].
Definition first_of_each {A K} `{EqDecision K} (key : A -> K) (l : list A) : list A := fold_left (add_fresh key) l [].

(** [entries[i]]: out of range, a panic. *)
Definition entry_at {A} (l : list A) (i : Z) : option A := if (i <? 0)%Z then None else l !! Z.to_nat i.

Definition trend_row (pairs : gmap (string * string) (list UnresolvedHistoryRow)) (nBack : Z) (k : string * string) :
    option TrendRow :=
  let entries := first_of_each uh_RunAt (get_all pairs k) in
  let n := Z.of_nat (length entries) in
  let baselineIdx := (if n <=? nBack - 1 then n - 1 else nBack - 1)%Z in
  latest ← entry_at entries 0;
  baseline ← entry_at entries baselineIdx;
  Some (mkTrend (fst k) (snd k) (uh_Count latest) (uh_Count baseline) (uh_Count latest - uh_Count baseline) n).

(** ComputeTrend, [None] is a panic. *)
Definition ComputeTrend (history : list UnresolvedHistoryRow) (nBack : Z) : option (list TrendRow) :=
  let pairs := index_all (fun r => Some (pair_of r)) (fun r => r) history in
  let pairOrder := first_of_each (fun k => k) (map pair_of history) in
  mapM (trend_row pairs nBack) (sort_slice (less_by fst str_ltb (fun a b => str_ltb (snd a) (snd b))) pairOrder).

(** Each entry is larger than the one after it. *)
Fixpoint growing (window : list UnresolvedHistoryRow) : bool :=
  match window with
  | newer :: ((older :: _) as rest) => negb (uh_Count newer <=? uh_Count older)%Z && growing rest
  | _ => true
  end.

(** DetectGrowth; the set of services is listed in order, so the iteration over
    the pairs is not seen. *)
Definition DetectGrowth (history : list UnresolvedHistoryRow) (consec : Z) : list string :=
  if (consec <? 2)%Z then []
  else
    let pairs := index_all (fun r => Some (pair_of r)) (fun r => r) history in
    let flagged : gset string := list_to_set (omap (fun p : (string * string) * list UnresolvedHistoryRow =>
      let '(k, entries) := p in
      if (Z.of_nat (length entries) <? consec)%Z then None
      else if growing (take (Z.to_nat consec) entries) then Some (fst k) else None) (map_to_list pairs)) in
    sort_strings (elements flagged).

(** * The stack of a service *)

Record Dependency : Type := mkDependency { dp_Service : string; dp_Ecosystem : string; dp_Name : string; dp_Version : string }.
Record DependencyInfo : Type := mkDependencyInfo { di_Name : string; di_Version : string; di_Ecosystem : string }.
Record ServiceStack : Type := mkStack {
  ss_Name : string; ss_Language : string; ss_Frameworks : list string; ss_Deps : list DependencyInfo;
  ss_NodeCounts : gmap string Z; ss_EdgeCounts : gmap string Z; ss_Files : nat
}.

Record stack_agg : Type := mkAgg {
  sg_languages : gmap string Z; sg_frameworks : gset string; sg_nodeCounts : gmap string Z; sg_files : gset string
}.
Definition no_agg : stack_agg := mkAgg ∅ ∅ ∅ ∅.

Definition add_if (s : string) (set : gset string) : gset string := if str_eqb s "" then set else {[s]} ∪ set.

Definition add_to_stack (o : option stack_agg) (n : Node) : stack_agg :=
  let a := default no_agg o in
  mkAgg (if str_eqb (n_Language n) "" then sg_languages a else count_key (sg_languages a) (n_Language n))
    (add_if (meta_of n "framework") (sg_frameworks a)) (count_key (sg_nodeCounts a) (n_Type n)) (add_if (n_File n) (sg_files a)).

Definition service_edge (idx : AdjacencyIndex) (e : Edge) : option (string * string) :=
  from ← Nodes idx !! ed_From e; Some (n_Service from, ed_Type e).

Definition count_type (o : option (gmap string Z)) (p : string * string) : gmap string Z := count_key (default ∅ o) (snd p).

Definition dep_info (d : Dependency) : DependencyInfo := mkDependencyInfo (dp_Name d) (dp_Version d) (dp_Ecosystem d).

(** The language most nodes have; of several, the first in order. *)
Definition better_language (counts : gmap string Z) (best : string * Z) (l : string) : string * Z :=
  let n := default 0%Z (counts !! l) in if (snd best <? n)%Z then (l, n) else best.
Definition majorityLanguage (counts : gmap string Z) : string :=
  fst (fold_left (better_language counts) (sort_strings (map fst (map_to_list counts))) ("", 0%Z)).

(** BuildStack; [nodes] is the map of nodes in iteration order. *)
Definition BuildStack (idx : AdjacencyIndex) (nodes : list Node) (deps : list Dependency) : list ServiceStack :=
  let byService := group n_Service add_to_stack nodes in
  let edgeCounts := group fst count_type (omap (service_edge idx) (AllEdges idx)) in
  let depsByService := index_all (fun d => Some (dp_Service d)) dep_info deps in
  let services := sort_strings (elements (dom byService ∪ dom depsByService)) in
  map (fun svc =>
    let a := default no_agg (byService !! svc) in
    mkStack svc (majorityLanguage (sg_languages a)) (sort_strings (elements (sg_frameworks a)))
      (sort_slice (less_by di_Ecosystem str_ltb (fun a b => str_ltb (di_Name a) (di_Name b))) (get_all depsByService svc))
      (sg_nodeCounts a) (default ∅ (edgeCounts !! svc)) (size (sg_files a))) services.

(** * Theorems *)

(** ** What a breadth-first walk has to find *)

Section cert.
Context (starts : list string) (next : string -> string -> Prop).

Inductive hops : nat -> string -> Prop :=
| hops_start s : s ∈ starts -> hops 0 s
| hops_next d a b : hops d a -> next a b -> hops (S d) b.

(** [x] is [d] steps from the nearest start. *)
Definition steps_away (x : string) (d : nat) : Prop := hops d x /\ forall d', hops d' x -> d <= d'.

Lemma hops_pred d x : hops d x -> d <> 0 -> exists a, hops (pred d) a.
Proof. destruct 1; [done|]. eauto. Qed.

(** A walk that expands everything at the depths [lim] holds of, and marks
    what it meets no deeper than it must, finds the distances. *)
Record walk_cert (lim : nat -> Prop) (found : string -> nat -> Prop) : Prop := {
  wc_start s : s ∈ starts -> found s 0;
  wc_hops x d : found x d -> hops d x;
  wc_one x d d' : found x d -> found x d' -> d = d';
  wc_lim x d : found x (S d) -> lim d;
  wc_closed x d y : found x d -> lim d -> next x y -> exists d', found y d' /\ d' <= S d
}.

Lemma walk_cert_exact lim found : (forall d d', d' <= d -> lim d -> lim d') -> walk_cert lim found ->
  forall x d, found x d <-> steps_away x d /\ (d = 0 \/ lim (pred d)).
Proof.
  intros Hlim [H1 H2 H3 H4 H5].
  assert (Hall : forall d x, hops d x -> d = 0 \/ lim (pred d) -> exists d', found x d' /\ d' <= d).
  { induction 1 as [s Hs|d a b Ha IH Hn]; intros Hl; [exists 0; auto|]. destruct Hl as [?|Hl]; [done|]. cbn in Hl.
    destruct IH as (d' & Hf & Hd'); [destruct d; [by left|right; by apply (Hlim (S d)); [lia|]]|].
    destruct (H5 a d' b Hf) as (d2 & Hf2 & Hd2); [by eapply Hlim|done|]. exists d2. split; [done|lia]. }
  intros x d. split.
  - intros Hf. split; [split; [by apply H2|]|destruct d; [by left|right; by eapply H4]].
    intros d' Hd'. destruct (decide (d <= d')) as [|Hlt]; [done|exfalso].
    destruct (Hall d' x Hd') as (d2 & Hf2 & Hle).
    { destruct d'; [by left|right]. destruct d; [lia|]. apply (Hlim d); [cbn; lia|by eapply H4]. }
    rewrite (H3 x d d2 Hf Hf2) in Hlt. lia.
  - intros [[Hh Hmin] Hl]. destruct (Hall d x Hh Hl) as (d' & Hf & Hle).
    assert (d' = d) as <-; [|done]. pose proof (Hmin d' (H2 x d' Hf)). lia.
Qed.
End cert.

(** ** The rows of the link explorer *)

Section explored.
Context (idx : AdjacencyIndex) (direction start : string).
Notation adj := (sortedAdjacency idx direction).
Notation far := (far_end direction).

Definition adjacent (a b : string) : Prop := exists e, e ∈ adj a /\ far e = b.

Definition found_in (x : exploration) (y : string) (k : nat) : Prop :=
  y = start /\ k = 0 \/ exists p, ex_parents x !! y = Some p /\ lp_depth p = k.

(** Level [d] is being expanded: the nodes of [pending] are still to come, the
    level after it is in [next]. *)
Record level_inv (d : nat) (pending : string -> Prop) (x : exploration) (next : list string) : Prop := {
  lv_visited y : y ∈ ex_visited x <-> exists k, found_in x y k;
  lv_start : ex_parents x !! start = None;
  lv_NoDup : NoDup (ex_order x);
  lv_order y : y ∈ ex_order x <-> is_Some (ex_parents x !! y);
  lv_next y : y ∈ next <-> found_in x y (S d);
  lv_bound y k : found_in x y k -> k <= S d;
  lv_parent y p : ex_parents x !! y = Some p ->
    exists k, lp_depth p = S k /\ found_in x (lp_prev p) k /\ lp_via p ∈ adj (lp_prev p) /\ far (lp_via p) = y;
  lv_closed y k z : found_in x y k -> k <= d -> ~ pending y -> adjacent y z -> exists k', found_in x z k' /\ k' <= S k
}.

Lemma found_insert x y k far p o v : ex_parents x !! far = None -> far <> start ->
  found_in (mkExploration v (<[far := p]> (ex_parents x)) o) y k <-> found_in x y k \/ y = far /\ k = lp_depth p.
Proof.
  intros Hn Hs. unfold found_in. cbn. split.
  - intros [?|(q & Hq & <-)]; [by left; left|]. rewrite lookup_insert in Hq. case_decide as E; [|by left; right; eauto].
    injection Hq as <-. by right.
  - intros [[?|(q & Hq & <-)]|[-> ->]]; [by left| |].
    + right. exists q. rewrite lookup_insert_ne by congruence. done.
    + right. exists p. by rewrite lookup_insert_eq.
Qed.

Lemma found_one x y k k' : ex_parents x !! start = None -> found_in x y k -> found_in x y k' -> k = k'.
Proof. intros H2 [[-> ->]|(p & Hp & <-)] [[? ->]|(p' & Hp' & <-)]; congruence. Qed.

Lemma explore_edge_inv d pending x next cur e : level_inv d pending x next -> found_in x cur d -> pending cur -> e ∈ adj cur ->
  let '(x', next') := explore_edge direction cur d (x, next) e in
  level_inv d pending x' next' /\ found_in x' cur d /\ far e ∈ ex_visited x' /\ ex_visited x ⊆ ex_visited x'.
Proof.
  intros [H1 H2 H3 H4 H5 H6 H7 H8] Hc Hp He. unfold explore_edge. case_decide as Hv; [done|].
  assert (Hs : far e <> start) by (intros E; apply Hv, H1; exists 0; by left).
  assert (Hn : ex_parents x !! far e = None).
  { destruct (ex_parents x !! far e) as [q|] eqn:E; [|done]. destruct Hv. apply H1. exists (lp_depth q). right. eauto. }
  pose proof (fun y k => found_insert x y k (far e) (mkParent e cur (S d)) (ex_order x ++ [far e]) ({[far e]} ∪ ex_visited x) Hn Hs) as Hf.
  split; [split|]; cbn [ex_visited ex_parents ex_order].
  - intros y. rewrite elem_of_union, elem_of_singleton, H1. setoid_rewrite Hf. cbn. naive_solver.
  - by rewrite lookup_insert_ne.
  - apply NoDup_app. split_and!; [done| |apply NoDup_singleton]. intros y Hy ->%list_elem_of_singleton.
    apply H4 in Hy as [? Hy]. congruence.
  - intros y. rewrite elem_of_app, list_elem_of_singleton, H4, lookup_insert. case_decide; naive_solver.
  - intros y. rewrite elem_of_app, list_elem_of_singleton, H5, Hf. cbn. naive_solver.
  - intros y k [?%H6|[-> ->]]%Hf; [lia|cbn; lia].
  - intros y p. rewrite lookup_insert. case_decide as E.
    + intros [= <-]. exists d. cbn. split_and!; [done|apply Hf; by left|done|done].
    + intros (k & ? & ? & ? & ?)%H7. exists k. split_and!; [done|apply Hf; by left|done|done].
  - intros y k z [Hy|[-> ->]]%Hf Hk Hpend Hz; [|cbn in Hk; lia].
    destruct (H8 y k z) as (k' & ? & ?); [done..|]. exists k'. split; [apply Hf; by left|done].
  - split_and!; [apply Hf; by left|set_solver|set_solver].
Qed.

Lemma explore_node_inv d pending x next cur : level_inv d pending x next -> found_in x cur d -> pending cur ->
  let '(x', next') := explore_node idx direction d (x, next) cur in
  level_inv d (fun y => pending y /\ y <> cur) x' next' /\ (forall y, found_in x y d -> found_in x' y d).
Proof.
  intros Hi Hc Hp. unfold explore_node.
  assert (Hl : forall l, (forall e, e ∈ l -> e ∈ adj cur) ->
    let '(x', next') := fold_left (explore_edge direction cur d) l (x, next) in
    level_inv d pending x' next' /\ found_in x' cur d /\ (forall e, e ∈ l -> far e ∈ ex_visited x') /\
    (forall y, found_in x y d -> found_in x' y d)).
  { induction l as [|e l IH] using rev_ind; intros Hsub; [split_and!; [done|done|by intros ? ?%elem_of_nil|done]|].
    rewrite fold_left_app. cbn [fold_left]. destruct (fold_left _ l _) as [x1 n1].
    destruct IH as (I1 & I2 & I3 & I4); [intros; apply Hsub, elem_of_app; by left|].
    pose proof (explore_edge_inv d pending x1 n1 cur e I1 I2 Hp) as Hstep.
    destruct (explore_edge _ _ _ _ _) as [x2 n2] eqn:E. destruct Hstep as (J1 & J2 & J3 & J4); [apply Hsub, elem_of_app; right; left|].
    split_and!; [done|done| |].
    - intros e' [He'|He'%list_elem_of_singleton]%elem_of_app; [by apply J4, I3|by subst].
    - intros y Hy. apply I4 in Hy. destruct (decide (far e ∈ ex_visited x1)) as [Hv|Hv].
      + unfold explore_edge in E. rewrite decide_True in E by done. by injection E as <- <-.
      + unfold explore_edge in E. rewrite decide_False in E by done. injection E as <- <-.
        destruct Hy as [?|(p & Hpy & ?)]; [by left|right]. exists p. cbn. rewrite lookup_insert_ne; [done|].
        intros Ef. apply Hv, (lv_visited _ _ _ _ I1). exists (lp_depth p). right. exists p. by rewrite Ef. }
  specialize (Hl (adj cur) (fun _ H => H)). destruct (fold_left _ _ _) as [x' n']. destruct Hl as ([K1 K2 K3 K4 K5 K6 K7 K8] & Hc' & Hall & Hkeep).
  split; [|done]. split; try done. intros y k z Hy Hk Hpend (e & He & <-). destruct (decide (y = cur)) as [->|Hne].
  - rewrite (found_one x' cur k d K2 Hy Hc'). destruct (proj1 (K1 (far e)) (Hall e He)) as [k' Hk']. exists k'. split; [done|by eapply K6].
  - eapply K8; [exact Hy|done| |by exists e]. tauto.
Qed.

Lemma explore_level_inv d queue x next : level_inv d (fun y => y ∈ queue) x next -> (forall y, y ∈ queue -> found_in x y d) ->
  let '(x', next') := fold_left (explore_node idx direction d) queue (x, next) in level_inv d (fun _ => False) x' next'.
Proof.
  revert x next. induction queue as [|cur queue IH]; intros x next Hi Hq; cbn [fold_left].
  { destruct Hi as [H1 H2 H3 H4 H5 H6 H7 H8]. split; try done. intros y k z Hy Hk _. eapply H8; [done..|]. by apply not_elem_of_nil. }
  pose proof (explore_node_inv d _ x next cur Hi) as Hstep. destruct (explore_node _ _ _ _ _) as [x' n'].
  destruct Hstep as [Hi' Hk]; [apply Hq; left|left|]. apply IH; [|intros; apply Hk, Hq; by right].
  destruct Hi' as [H1 H2 H3 H4 H5 H6 H7 H8]. split; try done. intros y k z Hy Hk' Hpend. eapply H8; [done..|].
  rewrite elem_of_cons. tauto.
Qed.

(** Between two levels. *)
Record between (d : nat) (queue : list string) (x : exploration) : Prop := {
  bt_inv : level_inv d (fun y => y ∈ queue) x [];
  bt_queue y : y ∈ queue <-> found_in x y d
}.

Lemma explore_levels_inv n d queue x : between d queue x ->
  exists d' queue', between d' queue' (explore_levels idx direction n d queue x) /\ d' <= n + d /\ (queue' = [] \/ d' = n + d).
Proof.
  revert d queue x. induction n as [|n IH]; intros d queue x Hb; [exists d, queue; split_and!; auto|].
  cbn [explore_levels]. destruct queue as [|q0 q]; [exists d, []; split_and!; auto; lia|].
  destruct Hb as [Hi Hq]. pose proof (explore_level_inv d (q0 :: q) x [] Hi) as Hl.
  destruct (fold_left _ _ _) as [x' next]. destruct Hl as [H1 H2 H3 H4 H5 H6 H7 H8]; [by intros y Hy; apply Hq|].
  destruct (IH (S d) next x') as (d' & q' & Hb' & Hle & Hor); [|exists d', q'; split_and!; [done|lia|destruct Hor; auto; right; lia]].
  assert (Hno : forall y, ~ found_in x' y (S (S d))) by (intros y Hy%H6; lia).
  split; [split; try done|done].
  - intros y. split; [by intros ?%elem_of_nil|by intros ?%Hno].
  - intros y k Hy%H6. lia.
  - intros y k z Hy Hk Hpend. destruct (decide (k = S d)) as [->|]; [by rewrite H5 in Hpend|]. eapply H8; [done|lia|tauto].
Qed.

Lemma explored depth : let x := explore idx direction depth start in
  walk_cert [start] adjacent (fun d => d < depth) (found_in x) /\
  (exists d (queue : list string), level_inv d (fun y => y ∈ queue) x []).
Proof.
  intros x. destruct (explore_levels_inv depth 0 [start] (mkExploration {[start]} ∅ [])) as (d & queue & [Hi Hq] & Hle & Hor).
  { assert (Hf : forall y k, found_in (mkExploration {[start]} ∅ []) y k <-> y = start /\ k = 0).
    { intros y k. unfold found_in. cbn. setoid_rewrite lookup_empty. naive_solver. }
    split; [split; cbn|].
    - intros y. setoid_rewrite Hf. set_solver.
    - done.
    - apply NoDup_nil_2.
    - intros y. rewrite lookup_empty, elem_of_nil. by split; [|intros []].
    - intros y. rewrite Hf, elem_of_nil. naive_solver.
    - intros y k [_ ->]%Hf. lia.
    - done.
    - intros y k z [-> ->]%Hf _ Hp. by destruct Hp; left.
    - intros y. rewrite Hf, list_elem_of_singleton. naive_solver. }
  fold x in Hi, Hq. split; [|by exists d, queue]. destruct Hi as [H1 H2 H3 H4 H5 H6 H7 H8].
  assert (Hb : forall y k, found_in x y k -> k <= d).
  { intros y k Hy. pose proof (H6 y k Hy). destruct (decide (k = S d)) as [->|]; [|lia]. apply H5 in Hy. by apply elem_of_nil in Hy. }
  split.
  - intros s ->%list_elem_of_singleton. by left.
  - intros y k. revert y. induction k as [|k IH]; intros y Hy.
    + destruct Hy as [[-> _]|(p & Hp & E)]; [apply hops_start; left|]. apply H7 in Hp as (k & E' & _). congruence.
    + destruct Hy as [[_ ?]|(p & Hp & E)]; [done|]. apply H7 in Hp as (k' & E' & Hprev & Hvia & Hfar).
      assert (k' = k) as -> by congruence. eapply hops_next; [by apply IH|]. by exists (lp_via p).
  - intros y k k'. by apply found_one.
  - intros y k Hy%Hb. lia.
  - intros y k z Hy Hk Hz. destruct (decide (y ∈ queue)) as [Hin|Hin].
    + assert (k = d) by (eapply (found_one x y); [done|done|by apply Hq]). subst k. destruct Hor as [->|]; [by apply elem_of_nil in Hin|lia].
    + eapply (H8 y k); [done|by eapply Hb|done..].
Qed.
End explored.

(** The nodes strictly between the start and the end of a walk. *)
Inductive route (idx : AdjacencyIndex) (direction start : string) : list string -> string -> Prop :=
| route_one y : adjacent idx direction start y -> route idx direction start [] y
| route_more mid z y : route idx direction start mid z -> adjacent idx direction z y -> route idx direction start (mid ++ [z]) y.

Definition labels (idx : AdjacencyIndex) (ids : list string) : list string := omap (fun id => n_Label <$> Nodes idx !! id) ids.

Lemma via_route idx direction start d pending x next : level_inv idx direction start d pending x next ->
  forall k fuel id p, ex_parents x !! id = Some p -> lp_depth p = S k -> k <= fuel ->
  exists mid, route idx direction start mid id /\ length mid = k /\
    rev (via_up idx fuel (ex_parents x) (lp_prev p)) = labels idx mid /\ default start (last mid) = lp_prev p.
Proof.
  intros [_ H2 _ _ _ _ H7 _] k. induction k as [|k IH]; intros fuel id p Hp Hd Hf; destruct (H7 id p Hp) as (k' & E & Hprev & Hvia & Hfar);
    rewrite Hd in E; injection E as E; subst k'.
  - destruct Hprev as [[Hs _]|(q & Hq & Eq)]; [|apply H7 in Hq as (? & ? & _); congruence].
    exists []. split_and!; [|done| |].
    + constructor. exists (lp_via p). by rewrite <- Hs.
    + destruct fuel; [done|]. cbn. by rewrite Hs, H2.
    + done.
  - destruct Hprev as [[_ ?]|(q & Hq & Eq)]; [done|]. destruct fuel as [|fuel]; [lia|].
    destruct (IH fuel (lp_prev p) q Hq Eq) as (mid & Hr & Hl & Hv & _); [lia|]. exists (mid ++ [lp_prev p]). split_and!.
    + eapply route_more; [done|]. by exists (lp_via p).
    + rewrite length_app. cbn. lia.
    + cbn [via_up]. rewrite Hq, rev_app_distr, Hv. unfold labels. rewrite omap_app. f_equal. cbn.
      by destruct (Nodes idx !! lp_prev p).
    + by rewrite last_snoc.
Qed.

Lemma omap_NoDup {A B} (f : A -> option B) (g : B -> A) l : NoDup l -> (forall a b, f a = Some b -> g b = a) -> NoDup (map g (omap f l)).
Proof.
  intros Hn Hg. induction Hn as [|a l Ha Hn IH]; [constructor|]. cbn. destruct (f a) as [b|] eqn:E; [|done]. cbn.
  constructor; [|done]. rewrite (Hg a b E). intros Hin. apply list_elem_of_fmap in Hin as (b' & -> & Hb').
  apply list_elem_of_omap in Hb' as (a' & Ha' & E'). apply Hg in E'. subst a'. done.
Qed.

(** The filters of the request. *)
Definition asked (kindFilter serviceFilter : string) (n : Node) : Prop :=
  (kindFilter = "" \/ n_Type n = kindFilter) /\ (serviceFilter = "" \/ n_Service n = serviceFilter).

Lemma link_row_spec idx start kindFilter serviceFilter parents id r :
  link_row idx start kindFilter serviceFilter parents id = Some r <->
  exists n p, Nodes idx !! id = Some n /\ parents !! id = Some p /\ asked kindFilter serviceFilter n /\
    r = mkLinkRow (n_ID n) (n_Label n) (n_Type n) (n_Service n) (n_File n) (n_Line n)
    (ed_ID (lp_via p)) (ed_Type (lp_via p)) (ed_Label (lp_via p)) (edgeChannel idx (lp_via p)) (crosses start n)
    (ed_Confidence (lp_via p)) (ed_VerificationState (lp_via p)) (str_eqb (meta_of n "synthetic") "true")
    (lp_depth p) (if (1 <? lp_depth p)%nat then linkViaPath idx parents id else []).
Proof.
  unfold link_row, asked. destruct (Nodes idx !! id) as [n|]; [|naive_solver]. destruct (parents !! id) as [p|]; [|naive_solver]. cbn.
  destruct (Stdlib.Strings.String.eqb_spec kindFilter ""), (Stdlib.Strings.String.eqb_spec (n_Type n) kindFilter),
    (Stdlib.Strings.String.eqb_spec serviceFilter ""), (Stdlib.Strings.String.eqb_spec (n_Service n) serviceFilter); cbn; naive_solver.
Qed.

Lemma page_spec {A} (rows : list A) offset limit : (0 <= offset)%Z -> (0 <= limit)%Z ->
  let total := Z.of_nat (length rows) in
  let offset := Z.min offset total in
  let end_ := Z.min (offset + limit) total in
  let page := take (Z.to_nat (end_ - offset)) (drop (Z.to_nat offset) rows) in
  exists before after, rows = before ++ page ++ after /\ Z.of_nat (length before) = offset /\
    (Z.of_nat (length page) <= limit)%Z /\ ((end_ <? total)%Z = true <-> after <> []).
Proof.
  intros Ho Hl total off end_ page. exists (take (Z.to_nat off) rows), (drop (Z.to_nat (end_ - off)) (drop (Z.to_nat off) rows)).
  assert (0 <= off <= total)%Z by lia. split_and!.
  - unfold page. by rewrite take_drop, take_drop.
  - rewrite length_take. lia.
  - unfold page. rewrite length_take. lia.
  - rewrite Z.ltb_lt, drop_drop, <- length_zero_iff_nil, length_drop. lia.
Qed.

(** C34: the rows are the nodes the filters ask for within the depth, each once,
    at its distance from the node and reached over an edge that ends a shortest
    way to it, whose inner nodes are those named; the page is cut out of all
    the rows, which the total counts, and is truncated when rows come after it. *)
Theorem LinkExplorer_exact idx nodeID start direction depth offset limit kindFilter serviceFilter :
  wf_index idx -> Nodes idx !! nodeID = Some start ->
  let res := LinkExplorerAdjacency idx nodeID direction depth offset limit kindFilter serviceFilter in
  let away := steps_away [nodeID] (adjacent idx direction) in
  exists rows, NoDup (map lr_NodeID rows) /\
    (forall x d, (exists r, r ∈ rows /\ lr_NodeID r = x /\ lr_Depth r = d) <->
       (0 < d)%nat /\ (Z.of_nat d <= clamp_depth depth)%Z /\ away x d /\
       exists n, Nodes idx !! x = Some n /\ asked kindFilter serviceFilter n) /\
    (forall r, r ∈ rows -> exists mid e, route idx direction nodeID mid (lr_NodeID r) /\ S (length mid) = lr_Depth r /\
       lr_Via r = labels idx mid /\ ed_ID e = lr_EdgeID r /\ far_end direction e = lr_NodeID r /\
       e ∈ sortedAdjacency idx direction (default nodeID (last mid))) /\
    le_Total res = Z.of_nat (length rows) /\
    (exists before after, rows = before ++ le_Rows res ++ after /\ Z.of_nat (length before) = le_Offset res /\
       (Z.of_nat (length (le_Rows res)) <= clamp_limit limit)%Z /\ (le_Truncated res = true <-> after <> [])).
Proof.
  intros Hwf Hs res away. unfold res, LinkExplorerAdjacency. rewrite Hs.
  set (k := clamp_depth depth). set (x := explore idx direction (Z.to_nat k) nodeID).
  set (f := link_row idx start kindFilter serviceFilter (ex_parents x)).
  destruct (explored idx direction nodeID (Z.to_nat k)) as [Hcert (d0 & queue & Hinv)]. fold x in Hcert, Hinv.
  assert (Hfound := walk_cert_exact _ _ _ _ (fun d d' Hle (Hlt : (d < Z.to_nat k)%nat) => Nat.le_lt_trans _ _ _ Hle Hlt) Hcert).
  assert (Hparent : forall y d, (0 < d)%nat -> found_in nodeID x y d <-> exists p, ex_parents x !! y = Some p /\ lp_depth p = d).
  { intros y d Hd. unfold found_in. split; [intros [[_ ?]|?]; [lia|done]|by right]. }
  assert (Hpos : forall y p, ex_parents x !! y = Some p -> (0 < lp_depth p)%nat).
  { intros y p Hp. apply (lv_parent _ _ _ _ _ _ _ Hinv) in Hp as (j & -> & _). lia. }
  assert (Hid : forall id r, f id = Some r -> lr_NodeID r = id).
  { intros id r (n & p & Hn & _ & _ & ->)%link_row_spec. by apply Hwf. }
  exists (omap f (ex_order x)). split; [apply omap_NoDup; [by apply Hinv|done]|]. split.
  { intros y d. split.
    - intros (r & Hr & Hy & Hd). apply list_elem_of_omap in Hr as (id & Hin & Hr). assert (id = y) as -> by (rewrite <- Hy; symmetry; by apply Hid).
      apply link_row_spec in Hr as (n & p & Hn & Hp & Ha & ->). cbn in Hd. subst d.
      assert (Hf : found_in nodeID x y (lp_depth p)) by (right; eauto). pose proof (Hpos y p Hp).
      apply Hfound in Hf as [Haw Hl]. split_and!; [done|lia|done|eauto].
    - intros (Hd & Hk & Haw & n & Hn & Ha). assert (Hf : found_in nodeID x y d) by (apply Hfound; split; [done|right; lia]).
      apply Hparent in Hf as (p & Hp & Ep); [|done].
      eexists. split; [apply list_elem_of_omap; exists y; split; [apply Hinv; eauto|apply link_row_spec; exists n, p; eauto]|].
      cbn. split; [by apply Hwf|done]. }
  split.
  { intros r Hr. apply list_elem_of_omap in Hr as (id & Hin & Hr). assert (E := Hid id r Hr).
    apply link_row_spec in Hr as (n & p & Hn & Hp & Ha & ->). cbn in *. rewrite E.
    destruct (lp_depth p) as [|j] eqn:Ej; [by apply Hpos in Hp; lia|].
    destruct (via_route _ _ _ _ _ _ _ Hinv j (S j) id p Hp Ej) as (mid & Hr & Hl & Hv & Hlast); [lia|].
    exists mid, (lp_via p). apply (lv_parent _ _ _ _ _ _ _ Hinv) in Hp as Hp'. destruct Hp' as (j' & _ & _ & Hvia & Hfar).
    rewrite Hlast. split_and!; [done|by rewrite Hl| |done..].
    unfold linkViaPath. rewrite Hp, Ej. destruct j as [|j]; [by destruct mid|exact Hv]. }
  split; [done|]. cbn [le_Rows le_Offset le_Truncated].
  apply page_spec; [destruct (offset <? 0)%Z eqn:Eo; [lia|by apply Z.ltb_ge]|unfold clamp_limit; repeat case_match; lia].
Qed.

(** ** Related files *)

Section neighbourhood.
Context (idx : AdjacencyIndex) (seeds : list Node) (maxDepth : Z).

Definition linked (a b : string) : Prop := exists e, (b, e) ∈ around idx a.
Definition seed_ids : list string := map n_ID seeds.
Definition expanded (d : nat) : Prop := (0 < maxDepth)%Z -> (Z.of_nat d < maxDepth)%Z.
Definition q_ids (l : list qitem) : list string := map q_id l.

(** What has left the queue, the queue, and the set of what was enqueued. *)
Record queue_inv (past queue : list qitem) (visited : gset string) : Prop := {
  qv_NoDup : NoDup (q_ids (past ++ queue));
  qv_visited y : y ∈ visited <-> y ∈ q_ids (past ++ queue);
  qv_seeds s : s ∈ seed_ids -> exists it, it ∈ past ++ queue /\ q_id it = s /\ q_depth it = 0;
  qv_hops it : it ∈ past ++ queue -> hops seed_ids linked (q_depth it) (q_id it);
  qv_lim it d : it ∈ past ++ queue -> q_depth it = S d -> expanded d;
  qv_sorted : StronglySorted le (map q_depth (past ++ queue));
  qv_bound cur rest it : queue = cur :: rest -> it ∈ queue -> q_depth it <= S (q_depth cur);
  qv_closed it y : it ∈ past -> expanded (q_depth it) -> linked (q_id it) y ->
    exists it', it' ∈ past ++ queue /\ q_id it' = y /\ q_depth it' <= S (q_depth it)
}.

Lemma enqueue_all cur l visited queue :
  let '(visited', queue') := fold_left (enqueue_far cur) l (visited, queue) in
  exists new, queue' = queue ++ new /\ NoDup (q_ids new) /\ (forall it, it ∈ new -> q_depth it = S (q_depth cur) /\
      q_id it ∉ visited /\ exists e, (q_id it, e) ∈ l) /\
    (forall y, y ∈ visited' <-> y ∈ visited \/ y ∈ q_ids new) /\ (forall y e, (y, e) ∈ l -> y ∈ visited').
Proof.
  induction l as [|p l IH] using rev_ind.
  { exists []. cbn. rewrite app_nil_r. split_and!; [done|apply NoDup_nil_2| | |]; intros; set_solver. }
  rewrite fold_left_app. cbn [fold_left]. destruct (fold_left _ l _) as [v q]. destruct IH as (new & -> & N1 & N2 & N3 & N4).
  unfold enqueue_far. case_decide as Hv.
  - exists new. split_and!; [done|done| |done|].
    + intros it Hit. destruct (N2 it Hit) as (? & ? & e & He). split_and!; [done..|]. exists e. apply elem_of_app. by left.
    + intros y e [Hy|Hy%list_elem_of_singleton]%elem_of_app; [by eapply N4|by subst].
  - exists (new ++ [mkQ (fst p) (Some (snd p)) (S (q_depth cur))]). split_and!.
    + by rewrite app_assoc.
    + unfold q_ids. rewrite map_app. apply NoDup_app. split_and!; [done| |apply NoDup_singleton].
      intros y Hy ->%list_elem_of_singleton. apply Hv, N3. by right.
    + intros it [Hit|Hit]%elem_of_app.
      * destruct (N2 it Hit) as (? & ? & e & He). split_and!; [done..|]. exists e. apply elem_of_app. by left.
      * apply list_elem_of_singleton in Hit as ->. cbn. split_and!; [done|intros H; apply Hv, N3; by left|].
        exists (snd p). apply elem_of_app. right. destruct p. by left.
    + intros y. unfold q_ids. rewrite map_app, elem_of_app, elem_of_union, elem_of_singleton, N3. cbn [map q_id].
      rewrite list_elem_of_singleton. unfold q_ids. tauto.
    + intros y e [Hy|Hy%list_elem_of_singleton]%elem_of_app; apply elem_of_union; [right; by eapply N4|left]. subst p. set_solver.
Qed.

Lemma stops_spec cur : stops maxDepth cur = false <-> expanded (q_depth cur).
Proof. unfold stops, expanded. rewrite andb_false_iff, Z.ltb_ge, Z.leb_gt. lia. Qed.

Lemma sorted_app_le l1 l2 : StronglySorted le l1 -> StronglySorted le l2 -> (forall a b, a ∈ l1 -> b ∈ l2 -> a <= b) ->
  StronglySorted le (l1 ++ l2).
Proof.
  intros H1 H2 H. induction H1 as [|a l1 Hs IH Ha]; [done|]. cbn. constructor.
  - apply IH. intros x y Hx Hy. apply H; [by right|done].
  - apply Forall_app. split; [done|]. apply Forall_forall. intros b Hb. apply H; [left|done].
Qed.

Lemma sorted_head_le l1 c l2 : StronglySorted le (l1 ++ c :: l2) -> forall a, a ∈ l1 -> a <= c.
Proof.
  induction l1 as [|b l1 IH]; intros Hs a Ha; [by apply elem_of_nil in Ha|]. cbn in Hs. apply StronglySorted_cons in Hs as [Hb Hs].
  apply elem_of_cons in Ha as [->|Ha]; [|by apply IH]. rewrite Forall_forall in Hb. apply Hb, elem_of_app. right. left.
Qed.

Lemma queue_step past cur queue visited : queue_inv past (cur :: queue) visited ->
  let '(visited', queue') := if stops maxDepth cur then (visited, queue)
    else fold_left (enqueue_far cur) (around idx (q_id cur)) (visited, queue) in
  queue_inv (past ++ [cur]) queue' visited'.
Proof.
  intros [H1 H2 H3 H4 H5 H6 H7 H8].
  assert (Happ : forall new, (past ++ [cur]) ++ queue ++ new = (past ++ cur :: queue) ++ new)
    by (intros; by rewrite <- !app_assoc).
  assert (Hcur : cur ∈ past ++ cur :: queue) by (apply elem_of_app; right; left).
  assert (Hqb : forall it, it ∈ queue -> q_depth cur <= q_depth it <= S (q_depth cur)).
  { intros it Hit. split; [|apply (H7 cur queue it); [done|by right]]. rewrite map_app in H6. cbn in H6.
    apply StronglySorted_app_1_r in H6. apply StronglySorted_cons in H6 as [Hf _]. rewrite Forall_forall in Hf.
    apply Hf. apply list_elem_of_fmap. by exists it. }
  assert (Hpb : forall it, it ∈ past -> q_depth it <= q_depth cur).
  { intros it Hit. rewrite map_app in H6. cbn in H6. eapply sorted_head_le; [exact H6|]. apply list_elem_of_fmap. by exists it. }
  assert (Hb : forall it, it ∈ past ++ cur :: queue -> q_depth it <= S (q_depth cur)).
  { intros it [Hit|[->|Hit]%elem_of_cons]%elem_of_app; [by apply Hpb in Hit; lia|lia|apply Hqb in Hit; lia]. }
  destruct (stops maxDepth cur) eqn:Es.
  - assert (Hx : (past ++ [cur]) ++ queue = past ++ cur :: queue) by (by rewrite <- app_assoc).
    split; rewrite ?Hx; try done.
    + intros c rest it -> Hit. assert (c ∈ c :: rest) as Hc%Hqb by left. apply Hqb in Hit. lia.
    + intros it y [Hit|Hit%list_elem_of_singleton]%elem_of_app He Hl; [by eapply H8|]. subst it.
      apply stops_spec in He. congruence.
  - pose proof (enqueue_all cur (around idx (q_id cur)) visited queue) as Hnew. destruct (fold_left _ _ _) as [v q].
    destruct Hnew as (new & -> & N1 & N2 & N3 & N4). apply stops_spec in Es. split; rewrite ?Happ.
    + unfold q_ids. rewrite map_app. apply NoDup_app. split_and!; [done| |done]. intros y Hy Hn.
      apply list_elem_of_fmap in Hn as (it & -> & Hit). apply N2 in Hit as (_ & Hv & _). by apply Hv, H2.
    + intros y. unfold q_ids. rewrite map_app, elem_of_app, N3, H2. done.
    + intros s Hs. destruct (H3 s Hs) as (it & ? & ?). exists it. split; [apply elem_of_app; by left|done].
    + intros it [Hit|Hit]%elem_of_app; [by apply H4|]. apply N2 in Hit as (-> & _ & e & He).
      eapply hops_next; [by apply H4|]. by exists e.
    + intros it d [Hit|Hit]%elem_of_app Hd; [by eapply H5|]. apply N2 in Hit as (E & _). rewrite E in Hd. injection Hd as <-. done.
    + rewrite map_app. apply sorted_app_le; [done| |].
      * clear -N2. induction new as [|it new IH]; [constructor|]. constructor.
        -- apply IH. intros it' Hit'. apply N2. by right.
        -- apply Forall_forall. intros d Hd. apply list_elem_of_fmap in Hd as (it' & -> & Hit').
           destruct (N2 it) as [-> _]; [left|]. destruct (N2 it') as [-> _]; [by right|done].
      * intros a b Ha Hb'. apply list_elem_of_fmap in Ha as (it & -> & Hit). apply list_elem_of_fmap in Hb' as (it' & -> & Hit').
        apply N2 in Hit' as [-> _]. by apply Hb.
    + intros c rest it Hq Hit. assert (Hc : q_depth cur <= q_depth c).
      { assert (c ∈ queue ++ new) as [Hc|Hc]%elem_of_app by (rewrite Hq; left); [apply Hqb in Hc; lia|]. apply N2 in Hc as [-> _]. lia. }
      apply elem_of_app in Hit as [Hit|Hit]; [apply Hqb in Hit; lia|]. apply N2 in Hit as [-> _]. lia.
    + intros it y [Hit|Hit%list_elem_of_singleton]%elem_of_app He Hl.
      * destruct (H8 it y Hit He Hl) as (it' & ? & ?). exists it'. split; [apply elem_of_app; by left|done].
      * subst it. destruct Hl as [e He']. apply N4 in He' as [Hv|Hn]%N3.
        -- apply H2, list_elem_of_fmap in Hv as (it' & -> & Hit'). exists it'. split_and!; [apply elem_of_app; by left|done|by apply Hb].
        -- apply list_elem_of_fmap in Hn as (it' & -> & Hit'). exists it'. split_and!; [apply elem_of_app; by right|done|].
           by apply N2 in Hit' as [-> _].
Qed.

(** The ids a walk can meet. *)
Definition universe : gset string :=
  list_to_set (seed_ids ++ map ed_To (concat (map snd (map_to_list (OutEdges idx)))) ++
    map ed_From (concat (map snd (map_to_list (InEdges idx))))).

Lemma universe_size : size universe <= related_fuel idx seeds.
Proof.
  unfold universe, related_fuel. etrans; [apply size_list_to_set_le|]. rewrite !length_app, !length_map. unfold seed_ids. rewrite length_map. lia.
Qed.

Lemma around_universe a b e : (b, e) ∈ around idx a -> b ∈ universe.
Proof.
  unfold around, universe. rewrite elem_of_list_to_set, !elem_of_app, !list_elem_of_fmap. unfold out_of, in_of.
  intros [(e' & [= -> ->] & He)|(e' & [= -> ->] & He)]; right; [left|right]; exists e'; (split; [done|]).
  - destruct (OutEdges idx !! a) as [l|] eqn:E; [|by apply elem_of_nil in He]. apply elem_of_concat_snd. exists (a, l).
    split; [by apply elem_of_map_to_list|done].
  - destruct (InEdges idx !! a) as [l|] eqn:E; [|by apply elem_of_nil in He]. apply elem_of_concat_snd. exists (a, l).
    split; [by apply elem_of_map_to_list|done].
Qed.

Lemma related_loop_spec seedSet fuel past queue visited m : queue_inv past queue visited -> visited ⊆ universe ->
  length queue + (size universe - size visited) <= fuel ->
  exists past', related_loop idx seedSet fuel maxDepth visited queue m = Some (fold_left (reach_item idx seedSet) past' m) /\
    exists v, queue_inv (past ++ past') [] v.
Proof.
  revert past queue visited m. induction fuel as [|fuel IH]; intros past queue visited m Hi Hu Hf.
  { destruct queue; [|cbn in Hf; lia]. exists []. split; [done|]. exists visited. by rewrite app_nil_r. }
  destruct queue as [|cur queue]; [exists []; split; [done|]; exists visited; by rewrite app_nil_r|].
  cbn [related_loop]. pose proof (queue_step past cur queue visited Hi) as Hstep.
  assert (Hrec : forall v q, queue_inv (past ++ [cur]) q v -> v ⊆ universe -> length q + (size universe - size v) <= fuel ->
    exists past', related_loop idx seedSet fuel maxDepth v q (reach_item idx seedSet m cur) = Some (fold_left (reach_item idx seedSet) past' m) /\
      exists v, queue_inv (past ++ past') [] v).
  { intros v q Hi' Hu' Hf'. destruct (IH _ q v (reach_item idx seedSet m cur) Hi' Hu' Hf') as (past' & E & v' & Hv').
    exists (cur :: past'). split; [exact E|]. exists v'. by rewrite <- app_assoc in Hv'. }
  destruct (stops maxDepth cur); [apply Hrec; [done..|cbn in Hf; lia]|].
  pose proof (enqueue_all cur (around idx (q_id cur)) visited queue) as Hnew. destruct (fold_left _ _ _) as [v q].
  destruct Hnew as (new & -> & N1 & N2 & N3 & N4).
  assert (Hv : v = list_to_set (q_ids new) ∪ visited) by (apply set_eq; intros y; rewrite N3, elem_of_union, elem_of_list_to_set; tauto).
  assert (Hu' : v ⊆ universe).
  { intros y [Hy|Hy]%N3; [by apply Hu|]. apply list_elem_of_fmap in Hy as (it & -> & Hit). apply N2 in Hit as (_ & _ & e & He).
    by eapply around_universe. }
  apply Hrec; [done..|]. pose proof (subseteq_size _ _ Hu') as Hle. subst v.
  rewrite size_union, size_list_to_set in * by (done || (intros y; rewrite elem_of_list_to_set; intros Hy Hy';
    apply list_elem_of_fmap in Hy as (it & -> & Hit); by apply N2 in Hit as (_ & ? & _))).
  rewrite length_app. unfold q_ids in *. rewrite length_map in *. cbn in Hf. lia.
Qed.
End neighbourhood.

Section counts.
Context (idx : AdjacencyIndex) (seedSet : gset string).
Abbreviation table := (gmap file_key RelatedFileEntry).

Definition refs_at (m : table) (k : file_key) : Z := match m !! k with Some e => rl_Refs e | None => 0%Z end.
Definition nodes_at (m : table) (k : file_key) : Z := match m !! k with Some e => rl_Nodes e | None => 0%Z end.

(** A node of the file [k], outside the seeds. *)
Definition file_node_at (k : file_key) (id : string) : Prop :=
  exists n, Nodes idx !! id = Some n /\ outside seedSet n = true /\ key_of n = k.
#[export] Instance file_node_at_dec k id : Decision (file_node_at k id).
Proof.
  unfold file_node_at. destruct (Nodes idx !! id) as [n|]; [|right; naive_solver].
  destruct (decide (outside seedSet n = true /\ key_of n = k)) as [H|H]; [left; naive_solver|right; naive_solver].
Defined.

(** The items that count for the file. *)
Definition reached_in (k : file_key) (l : list qitem) : list qitem :=
  List.filter (fun it => bool_decide ((0 < q_depth it)%nat /\ file_node_at k (q_id it))) l.

Lemma elem_of_counted_items k l it : it ∈ reached_in k l <-> it ∈ l /\ (0 < q_depth it)%nat /\ file_node_at k (q_id it).
Proof. unfold reached_in. by rewrite elem_of_bfilter, bool_decide_eq_true. Qed.

Record tally_inv (m0 m : table) (past : list qitem) : Prop := {
  ty_refs k : refs_at m k = refs_at m0 k;
  ty_nodes k : nodes_at m k = (nodes_at m0 k + Z.of_nat (length (reached_in k past)))%Z;
  ty_some k : is_Some (m !! k) <-> is_Some (m0 !! k) \/ reached_in k past <> [];
  ty_key k e : m !! k = Some e -> (rl_Service e, rl_File e) = k;
  ty_least k e : m !! k = Some e -> (forall it, it ∈ reached_in k past -> rl_MinDepth e <= q_depth it) /\
    (forall e0, m0 !! k = Some e0 -> rl_MinDepth e <= rl_MinDepth e0);
  ty_min k e : m !! k = Some e -> (exists it, it ∈ reached_in k past /\ q_depth it = rl_MinDepth e) \/
    (exists e0, m0 !! k = Some e0 /\ rl_MinDepth e = rl_MinDepth e0)
}.

Lemma reach_item_cases m it :
  (reach_item idx seedSet m it = m /\ forall k, ~ ((0 < q_depth it)%nat /\ file_node_at k (q_id it))) \/
  exists n e, Nodes idx !! q_id it = Some n /\ outside seedSet n = true /\ (0 < q_depth it)%nat /\
    reach_item idx seedSet m it = <[key_of n := e]> m /\
    let e0 := entry m n (q_depth it) in
    rl_Refs e = rl_Refs e0 /\ rl_Nodes e = (rl_Nodes e0 + 1)%Z /\ rl_MinDepth e = Nat.min (q_depth it) (rl_MinDepth e0) /\
    rl_File e = rl_File e0 /\ rl_Service e = rl_Service e0.
Proof.
  unfold reach_item. destruct (Nodes idx !! q_id it) as [n|] eqn:En; [|left; split; [done|]; intros k (_ & n & E & _); congruence].
  destruct (q_depth it =? 0)%nat eqn:Ed; [left; split; [done|]; apply Nat.eqb_eq in Ed; lia|].
  destruct (outside seedSet n) eqn:Eo; cbn [orb negb].
  - right. eexists n, _. apply Nat.eqb_neq in Ed. split_and!; [done|done|lia|reflexivity|done..].
  - left. split; [done|]. intros k (_ & n' & E & Ho & _). congruence.
Qed.

Lemma reach_tally m0 past : (forall k e, m0 !! k = Some e -> (rl_Service e, rl_File e) = k) ->
  tally_inv m0 (fold_left (reach_item idx seedSet) past m0) past.
Proof.
  intros Hkey. apply fold_left_inv_done.
  { split; cbn.
    - done.
    - intros k. lia.
    - intros k. naive_solver.
    - done.
    - intros k e He. split; [by intros ? ?%elem_of_nil|]. intros e0 He0. by simplify_eq.
    - intros k e He. right. eauto. }
  intros done m it [H1 H2 H3 H4 H5 H6].
  assert (Hsnoc : forall k, reached_in k (done ++ [it]) = reached_in k done ++
    (if decide ((0 < q_depth it)%nat /\ file_node_at k (q_id it)) then [it] else [])).
  { intros k. unfold reached_in. rewrite List.filter_app. cbn [List.filter]. case_decide as D; case_bool_decide; done. }
  destruct (reach_item_cases m it) as [[-> Hno]|(n & e & Hn & Ho & Hd & -> & Hrefs & Hnodes & Hmin & Hfile & Hsvc)].
  { assert (Hs : forall k, reached_in k (done ++ [it]) = reached_in k done).
    { intros k. rewrite Hsnoc, decide_False by apply Hno. apply app_nil_r. }
    split; try (intros k; rewrite ?Hs; auto); intros e He; rewrite ?Hs; auto. }
  assert (Hs : forall k, reached_in k (done ++ [it]) = reached_in k done ++ (if decide (k = key_of n) then [it] else [])).
  { intros k. rewrite Hsnoc. f_equal. assert (Hat : (0 < q_depth it)%nat /\ file_node_at k (q_id it) <-> k = key_of n).
    { split; [|intros ->; split; [done|by exists n]]. intros [_ (n' & En & _ & <-)]. congruence. }
    repeat case_decide; tauto. }
  clear Hsnoc.
  assert (He0 : (rl_Service (entry m n (q_depth it)), rl_File (entry m n (q_depth it))) = key_of n).
  { unfold entry. destruct (m !! key_of n) as [e0|] eqn:E; [by apply H4|done]. }
  assert (Hcount : rl_Refs (entry m n (q_depth it)) = refs_at m (key_of n) /\ rl_Nodes (entry m n (q_depth it)) = nodes_at m (key_of n)).
  { unfold entry, refs_at, nodes_at. by destruct (m !! key_of n). }
  destruct Hcount as [Hc1 Hc2].
  split.
  - intros k. unfold refs_at at 1. rewrite lookup_insert. case_decide as D; [subst k; by rewrite Hrefs, Hc1|apply H1].
  - intros k. rewrite Hs, length_app. unfold nodes_at at 1. rewrite lookup_insert. repeat case_decide; try congruence.
    + subst k. rewrite Hnodes, Hc2, H2. cbn. lia.
    + fold (nodes_at m k). rewrite H2. cbn. lia.
  - intros k. rewrite Hs, lookup_insert. repeat case_decide; try congruence; [|rewrite app_nil_r; apply H3].
    split; [intros _; right; intros E; by apply app_eq_nil in E as [_ ?]|by eexists].
  - intros k e'. rewrite lookup_insert. case_decide; [|apply H4]. intros [= <-]. subst k. by rewrite Hfile, Hsvc.
  - intros k e'. rewrite lookup_insert, Hs. repeat case_decide; try congruence; [|rewrite app_nil_r; apply H5]. intros [= <-]. subst k.
    rewrite Hmin. unfold entry. destruct (m !! key_of n) as [e0|] eqn:E; cbn.
    + destruct (H5 _ _ E) as [G1 G2]. split.
      * intros x [Hx%G1|Hx%list_elem_of_singleton]%elem_of_app; [lia|subst; lia].
      * intros e1 He1%G2. lia.
    + assert (Hnone : m0 !! key_of n = None /\ reached_in (key_of n) done = []).
      { split; [apply eq_None_not_Some|destruct (reached_in _ done) eqn:Er; [done|exfalso]]; [intros Hx|];
          (assert (Hy : is_Some (m !! key_of n)); [apply H3|rewrite E in Hy; by destruct Hy]); [by left|right; by rewrite Er]. }
      destruct Hnone as [-> ->]. split; [|done]. intros x Hx%list_elem_of_singleton. subst x. lia.
  - intros k e'. rewrite lookup_insert, Hs. repeat case_decide; try congruence; [|rewrite app_nil_r; apply H6]. intros [= <-]. subst k.
    rewrite Hmin. unfold entry. destruct (m !! key_of n) as [e0|] eqn:E; cbn.
    + destruct (Nat.min_spec (q_depth it) (rl_MinDepth e0)) as [[_ ->]|[_ ->]].
      * left. exists it. split; [apply elem_of_app; right; left|done].
      * destruct (H6 _ _ E) as [(x & Hx & ?)|?]; [left; exists x; split; [apply elem_of_app; by left|done]|by right].
    + left. exists it. split; [apply elem_of_app; right; left|lia].
Qed.

(** An edge of the list with its outer end in the file. *)
Definition refers (l : list (string * Edge)) (k : file_key) (i : string) : Prop :=
  exists other e, (other, e) ∈ l /\ file_node_at k other /\ ed_ID e = i.

Record direct_inv (l : list (string * Edge)) (seen : gset string) (m : table) : Prop := {
  dr_seen i : i ∈ seen <-> exists k, refers l k i;
  dr_count k : exists es, NoDup es /\ Z.of_nat (length es) = refs_at m k /\ (forall i, i ∈ es <-> refers l k i) /\
    (m !! k = None <-> es = []);
  dr_entry k e : m !! k = Some e -> rl_Nodes e = 0%Z /\ rl_MinDepth e = 1 /\ (rl_Service e, rl_File e) = k
}.

Lemma refers_snoc l other e k i : refers (l ++ [(other, e)]) k i <-> refers l k i \/ file_node_at k other /\ ed_ID e = i.
Proof.
  unfold refers. split.
  - intros (o & e' & [H|H%list_elem_of_singleton]%elem_of_app & Hf & Hi); [left; eauto|]. injection H as -> ->. by right.
  - intros [(o & e' & H & Hf & Hi)|[Hf Hi]]; [exists o, e'|exists other, e]; (split; [|done]); apply elem_of_app; [by left|right; by left].
Qed.

Lemma direct_spec l : (forall k k' i, refers l k i -> refers l k' i -> k = k') ->
  let '(seen, m) := fold_left (count_direct idx seedSet) l (∅, ∅) in direct_inv l seen m.
Proof.
  induction l as [|[other e] l IH] using rev_ind; intros Hone.
  { cbn. split.
    - intros i. split; [set_solver|]. by intros (k & o & e & ?%elem_of_nil & _).
    - intros k. exists []. unfold refs_at. rewrite lookup_empty. split_and!; [apply NoDup_nil_2|done| |done].
      intros i. rewrite elem_of_nil. split; [done|]. by intros (o & e & ?%elem_of_nil & _).
    - intros k e. by rewrite lookup_empty. }
  rewrite fold_left_app. cbn [fold_left]. destruct (fold_left _ l _) as [seen m].
  destruct IH as [H1 H2 H3]; [intros k k' i Hk Hk'; apply (Hone k k' i); apply refers_snoc; by left|].
  unfold count_direct. destruct (Nodes idx !! other) as [n|] eqn:En.
  2: { assert (Hs : forall k i, refers (l ++ [(other, e)]) k i <-> refers l k i).
       { intros k i. rewrite refers_snoc. split; [|by left]. intros [?|[(n' & En' & Ho' & _) _]]; [done|congruence]. }
       split; [intros; setoid_rewrite Hs; done|intros; setoid_rewrite Hs; done|done]. }
  destruct (outside seedSet n) eqn:Eo; cbn [negb orb].
  2: { assert (Hs : forall k i, refers (l ++ [(other, e)]) k i <-> refers l k i).
       { intros k i. rewrite refers_snoc. split; [|by left]. intros [?|[(n' & En' & Ho' & _) _]]; [done|congruence]. }
       split; [intros; setoid_rewrite Hs; done|intros; setoid_rewrite Hs; done|done]. }
  assert (Hat : forall k, file_node_at k other <-> k = key_of n).
  { intros k. unfold file_node_at. split; [naive_solver|]. intros ->. by exists n. }
  assert (Hs : forall k i, refers (l ++ [(other, e)]) k i <-> refers l k i \/ k = key_of n /\ ed_ID e = i).
  { intros k i. by rewrite refers_snoc, Hat. }
  destruct (bool_decide_reflect (ed_ID e ∈ seen)) as [Hin|Hin].
  - assert (Hold : refers l (key_of n) (ed_ID e)).
    { apply H1 in Hin as [k Hk]. assert (k = key_of n) as <-; [|done]. apply (Hone k (key_of n) (ed_ID e)); apply Hs; auto. }
    assert (Hs' : forall k i, refers (l ++ [(other, e)]) k i <-> refers l k i).
    { intros k i. rewrite Hs. split; [|by left]. by intros [?|[-> <-]]. }
    split; [intros; setoid_rewrite Hs'; done|intros; setoid_rewrite Hs'; done|done].
  - assert (Hent : rl_Nodes (entry m n 1) = 0%Z /\ rl_MinDepth (entry m n 1) = 1 /\
      (rl_Service (entry m n 1), rl_File (entry m n 1)) = key_of n /\ rl_Refs (entry m n 1) = refs_at m (key_of n)).
    { unfold entry, refs_at. destruct (m !! key_of n) as [e0|] eqn:E; [|done]. by destruct (H3 _ _ E) as (? & ? & ?). }
    destruct Hent as (E1 & E2 & E3 & E4). split.
    + intros i. rewrite elem_of_union, elem_of_singleton, H1. setoid_rewrite Hs. naive_solver.
    + intros k. setoid_rewrite Hs. destruct (H2 k) as (es & N1 & N2 & N3 & N4). unfold refs_at. rewrite lookup_insert. case_decide as D.
      * subst k. exists (es ++ [ed_ID e]). cbn [rl_Refs]. rewrite length_app, E4. split_and!.
        -- apply NoDup_app. split_and!; [done| |apply NoDup_singleton]. intros i Hi ->%list_elem_of_singleton.
           apply Hin, H1. exists (key_of n). by apply N3.
        -- cbn. lia.
        -- intros i. rewrite elem_of_app, list_elem_of_singleton, N3. naive_solver.
        -- split; [done|]. intros E. by apply app_eq_nil in E as [_ ?].
      * exists es. split_and!; [done|done| |done]. intros i. rewrite N3. naive_solver.
    + intros k e'. rewrite lookup_insert. case_decide; [|apply H3]. intros [= <-]. cbn. subst k. by rewrite E1, E2.
Qed.
End counts.

Lemma seeds_queue idx maxDepth seeds : let '(visited, queue) := fold_left enqueue_seed seeds (∅, []) in
  queue_inv idx seeds maxDepth [] queue visited /\ forall it, it ∈ queue -> q_id it ∈ seed_ids seeds.
Proof.
  assert (H : let '(visited, queue) := fold_left enqueue_seed seeds (∅, []) in
    NoDup (q_ids queue) /\ (forall y, y ∈ visited <-> y ∈ q_ids queue) /\
    (forall it, it ∈ queue -> q_depth it = 0 /\ q_id it ∈ seed_ids seeds) /\
    (forall s, s ∈ seed_ids seeds -> exists it, it ∈ queue /\ q_id it = s /\ q_depth it = 0)).
  { induction seeds as [|s l IH] using rev_ind.
    { cbn. split_and!; [apply NoDup_nil_2|set_solver|set_solver|set_solver]. }
    rewrite fold_left_app. cbn [fold_left]. destruct (fold_left _ l _) as [v q]. destruct IH as (H1 & H2 & H3 & H4).
    assert (Hids : forall y, y ∈ seed_ids (l ++ [s]) <-> y ∈ seed_ids l \/ y = n_ID s).
    { intros y. unfold seed_ids. rewrite map_app, elem_of_app. cbn [map]. by rewrite list_elem_of_singleton. }
    unfold enqueue_seed. case_decide as D.
    - split_and!; [done|done| |].
      + intros it Hit. rewrite Hids. split; [|left]; by apply H3.
      + intros y [Hy| ->]%Hids; [by apply H4|]. apply H2, list_elem_of_fmap in D as (it & E & Hit). exists it.
        split_and!; [done|done|by apply H3].
    - split_and!.
      + unfold q_ids. rewrite map_app. apply NoDup_app. split_and!; [done| |apply NoDup_singleton].
        intros y Hy ->%list_elem_of_singleton. apply D. by apply H2.
      + intros y. unfold q_ids. rewrite map_app, elem_of_app, elem_of_union, elem_of_singleton, H2. cbn [map q_id]. rewrite list_elem_of_singleton. unfold q_ids. tauto.
      + intros it [Hit|Hit%list_elem_of_singleton]%elem_of_app; rewrite Hids; [split; [|left]; by apply H3|]. subst it. cbn. auto.
      + intros y [Hy| ->]%Hids.
        * destruct (H4 y Hy) as (it & ? & ?). exists it. split; [apply elem_of_app; by left|done].
        * eexists. split; [apply elem_of_app; right; left|done]. }
  destruct (fold_left _ seeds _) as [v q]. destruct H as (H1 & H2 & H3 & H4).
  split; [|intros it Hit; by apply H3]. split; cbn [app]; try done.
  - intros it Hit. destruct (H3 it Hit) as [-> ?]. by apply hops_start.
  - intros it d Hit. destruct (H3 it Hit) as [-> _]. done.
  - clear -H3. induction q as [|it q IH]; [constructor|]. cbn. constructor; [apply IH; intros; apply H3; by right|].
    apply Forall_forall. intros d Hd. destruct (H3 it) as [-> _]; [left|]. lia.
  - intros cur rest it -> Hit. destruct (H3 it Hit) as [-> _]. lia.
  - by intros it y ?%elem_of_nil.
Qed.

Lemma queue_cert idx seeds maxDepth past v : queue_inv idx seeds maxDepth past [] v ->
  walk_cert (seed_ids seeds) (linked idx) (expanded maxDepth) (fun x d => exists it, it ∈ past /\ q_id it = x /\ q_depth it = d).
Proof.
  intros [H1 H2 H3 H4 H5 H6 H7 H8]. rewrite (app_nil_r past) in H1, H2, H3, H4, H5, H8. split.
  - intros s Hs. by apply H3.
  - intros x d (it & Hit & <- & <-). by apply H4.
  - intros x d d' (it & Hit & Ex & <-) (it' & Hit' & Ex' & <-). f_equal. rewrite <- Ex in Ex'.
    apply list_elem_of_lookup in Hit as [i Hi]. apply list_elem_of_lookup in Hit' as [j Hj].
    assert (i = j) as ->; [|congruence]. apply (NoDup_lookup (q_ids past) i j (q_id it)); [done| |]; unfold q_ids; rewrite list_lookup_fmap.
    + by rewrite Hi.
    + by rewrite Hj; cbn; rewrite Ex'.
  - intros x d (it & Hit & <- & E). by eapply H5.
  - intros x d y (it & Hit & <- & <-) Hl Hn. destruct (H8 it y Hit Hl Hn) as (it' & ? & ? & ?).
    exists (q_depth it'). split; [by exists it'|done].
Qed.

Lemma around_spec idx a o e : wf_index idx -> (o, e) ∈ around idx a <->
  has_edge idx e /\ (ed_From e = a /\ o = ed_To e \/ ed_To e = a /\ o = ed_From e).
Proof.
  intros Hwf. unfold around, has_edge. rewrite elem_of_app, !list_elem_of_fmap. split.
  - intros [(e' & [= -> ->] & He)|(e' & [= -> ->] & He)].
    + pose proof (wf_out _ Hwf _ _ He) as <-. auto.
    + pose proof (wf_in _ Hwf _ _ He) as <-. split; [by apply (wf_both _ Hwf)|auto].
  - intros [He [[<- ->]|[<- ->]]]; [left|right]; exists e; (split; [done|]); [done|by apply (wf_both _ Hwf)].
Qed.

Lemma add_seed_files l : let '(seedSet, _) := fold_left add_seed_file l (∅, []) in
  forall k, k ∈ seedSet <-> k ∈ map file_key2 l.
Proof.
  induction l as [|s l IH] using rev_ind.
  { cbn [fold_left]. intros k. cbn [map]. rewrite elem_of_nil. set_solver. }
  rewrite fold_left_app. cbn [fold_left].
  destruct (fold_left _ l _) as [S F]. unfold add_seed_file. case_decide as D; intros k; rewrite map_app, elem_of_app; cbn [map];
    rewrite list_elem_of_singleton; [|set_solver]. rewrite IH. split; [by left|]. intros [?| ->]; [done|]. by apply IH.
Qed.

Lemma expanded_down maxDepth d d' : d' <= d -> expanded maxDepth d -> expanded maxDepth d'.
Proof. unfold expanded. lia. Qed.

Lemma hops_none next d x : ~ hops [] next d x.
Proof. induction 1 as [s Hs|]; [by apply elem_of_nil in Hs|done]. Qed.

Lemma match_cons {A B} (l : list A) (x y : B) : l <> [] -> match l with [] => x | _ :: _ => y end = y.
Proof. by destruct l. Qed.

Lemma related_keys (rows : list RelatedFileEntry) (m : gmap file_key RelatedFileEntry) :
  rows ≡ₚ map (fun p => sort_types (snd p)) (map_to_list m) ->
  (forall k e, m !! k = Some e -> (rl_Service e, rl_File e) = k) ->
  map (fun r => (rl_Service r, rl_File r)) rows ≡ₚ map fst (map_to_list m).
Proof.
  intros -> Hk. rewrite map_map. erewrite map_ext_in; [reflexivity|]. intros [k e] He. apply list_elem_of_In, elem_of_map_to_list in He.
  cbn. by apply Hk.
Qed.

(** The seeds of the paths, and what counts as outside of them. *)
Definition seeds_of (nodes : list Node) (service : string) (paths : list string) : list Node :=
  concat (map (NodesInFile nodes service) paths).
Definition elsewhere (seeds : list Node) (n : Node) : Prop :=
  n_File n <> "" /\ forall s, s ∈ seeds -> file_key2 s <> file_key2 n.

(** A node of another file, within the depth. *)
Definition near (idx : AdjacencyIndex) (seeds : list Node) (maxDepth : Z) (k : file_key) (x : string) (d : nat) : Prop :=
  steps_away (seed_ids seeds) (linked idx) x d /\ ((0 < maxDepth)%Z -> (Z.of_nat d <= maxDepth)%Z) /\
  exists n, Nodes idx !! x = Some n /\ elsewhere seeds n /\ key_of n = k.

(** An edge between a seed and a node of another file. *)
Definition direct (idx : AdjacencyIndex) (seeds : list Node) (k : file_key) (i : string) : Prop :=
  exists s other e, s ∈ seeds /\ (other, e) ∈ around idx (n_ID s) /\ ed_ID e = i /\
    exists n, Nodes idx !! other = Some n /\ elsewhere seeds n /\ key_of n = k.

(** C33: the query always answers. A file is listed, once, exactly when one of its
    nodes is within the depth of a seed, walking edges both ways; its entry
    counts those nodes and the edges that join it to a seed, and gives the least
    of their distances. *)
Theorem RelatedFiles_exact idx nodes order service paths maxDepth :
  wf_index idx -> unique_ids idx -> (forall n, n ∈ nodes <-> Nodes idx !! n_ID n = Some n) -> (forall l, order l ≡ₚ l) ->
  let seeds := seeds_of nodes service paths in
  exists seedFiles rows missing, RelatedFiles idx nodes order service paths maxDepth = Some (seedFiles, rows, missing) /\
    NoDup (map (fun r => (rl_Service r, rl_File r)) rows) /\
    (forall k, (exists r, r ∈ rows /\ (rl_Service r, rl_File r) = k) <-> exists x d, near idx seeds maxDepth k x d) /\
    (forall r, r ∈ rows -> let k := (rl_Service r, rl_File r) in
      (exists ids, NoDup ids /\ Z.of_nat (length ids) = rl_Nodes r /\ forall x, x ∈ ids <-> exists d, near idx seeds maxDepth k x d) /\
      (exists es, NoDup es /\ Z.of_nat (length es) = rl_Refs r /\ forall i, i ∈ es <-> direct idx seeds k i) /\
      (exists x, near idx seeds maxDepth k x (rl_MinDepth r)) /\ (forall x d, near idx seeds maxDepth k x d -> rl_MinDepth r <= d)).
Proof.
  intros Hwf Hids Hnodes Horder seeds. unfold RelatedFiles. fold (seeds_of nodes service paths). fold seeds.
  pose proof (add_seed_files seeds) as Hset. destruct (fold_left add_seed_file seeds (∅, [])) as [seedSet seedFiles].
  assert (Hseed : forall s, s ∈ seeds -> Nodes idx !! n_ID s = Some s).
  { intros s Hs. apply Hnodes. unfold seeds, seeds_of in Hs. apply elem_of_concat_map_list in Hs as (p & _ & Hs).
    unfold NodesInFile in Hs. apply elem_of_sort_slice in Hs.
    destruct (List.filter (exact_match service p) nodes) eqn:E in Hs; [|rewrite <- E in Hs]; by apply elem_of_bfilter in Hs as [? _]. }
  assert (Hout : forall n, outside seedSet n = true <-> elsewhere seeds n).
  { intros n. unfold outside, elsewhere. rewrite andb_true_iff, !negb_true_iff, bool_decide_eq_false, Stdlib.Strings.String.eqb_neq, Hset.
    rewrite list_elem_of_fmap. split; intros [H1 H2]; (split; [done|]); [intros s Hs E; apply H2; eauto|intros (s & E & Hs); by apply (H2 s)]. }
  assert (Hat : forall k x, file_node_at idx seedSet k x <-> exists n, Nodes idx !! x = Some n /\ elsewhere seeds n /\ key_of n = k).
  { intros k x. unfold file_node_at. by setoid_rewrite Hout. }
  assert (Hdirect : forall k i, refers idx seedSet (concat (map (fun s => around idx (n_ID s)) seeds)) k i <-> direct idx seeds k i).
  { intros k i. unfold refers, direct. setoid_rewrite elem_of_concat_map_list. setoid_rewrite Hat. naive_solver. }
  assert (Hno : forall s, s ∈ seeds -> forall n, Nodes idx !! n_ID s = Some n -> ~ elsewhere seeds n).
  { intros s Hs n Hn [_ Hf]. rewrite (Hseed s Hs) in Hn. injection Hn as <-. by apply (Hf s). }
  assert (Hone : forall k k' i, refers idx seedSet (concat (map (fun s => around idx (n_ID s)) seeds)) k i ->
    refers idx seedSet (concat (map (fun s => around idx (n_ID s)) seeds)) k' i -> k = k').
  { intros k k' i (o & e & H & (n & Hn & He & <-)%Hat & <-) (o' & e' & H' & (n' & Hn' & He' & <-)%Hat & Ei).
    apply elem_of_concat_map_list in H as (s & Hs & H), H' as (s' & Hs' & H').
    apply around_spec in H as [Hh Hends]; [|done]. apply around_spec in H' as [Hh' Hends']; [|done].
    assert (e' = e) as -> by by apply Hids.
    assert (o = o') as ->; [|congruence].
    destruct Hends as [[F ->]|[F ->]], Hends' as [[F' ->]|[F' ->]]; try done; exfalso.
    - apply (Hno s' Hs' n); [|done]. by rewrite <- F'.
    - apply (Hno s' Hs' n); [|done]. by rewrite <- F'. }
  destruct (decide (seeds = [])) as [Hnil|Hne].
  { rewrite Hnil. eexists _, [], _. split; [reflexivity|]. split; [constructor|]. split; [|by intros r ?%elem_of_nil].
    intros k. split; [by intros (r & ?%elem_of_nil & _)|]. intros (x & d & [[Hh _] _]). by apply hops_none in Hh. }
  pose proof (direct_spec idx seedSet _ Hone) as Hd. fold (direct_refs idx seedSet seeds) in Hd.
  destruct (direct_refs idx seedSet seeds) as [seen m]. destruct Hd as [_ Hcount Hentry].
  pose proof (seeds_queue idx maxDepth seeds) as Hq. destruct (fold_left enqueue_seed seeds (∅, [])) as [visited queue].
  destruct Hq as [Hq Hqs].
  assert (Hvu : visited ⊆ universe idx seeds).
  { intros y Hy%(qv_visited _ _ _ _ _ _ Hq). apply list_elem_of_fmap in Hy as (it & -> & Hit).
    unfold universe. apply elem_of_list_to_set, elem_of_app. left. by apply Hqs. }
  destruct (related_loop_spec idx seeds maxDepth seedSet (related_fuel idx seeds) [] queue visited m Hq Hvu) as (past & Eloop & v & Hpast).
  { assert (Hv : visited = list_to_set (q_ids queue)) by (apply set_eq; intros y; rewrite elem_of_list_to_set; apply (qv_visited _ _ _ _ _ _ Hq)).
    pose proof (subseteq_size _ _ Hvu) as Hle. pose proof (universe_size idx seeds) as Hu.
    rewrite Hv, size_list_to_set in * by apply (qv_NoDup _ _ _ _ _ _ Hq). unfold q_ids in *. rewrite length_map in *. lia. }
  cbn [app] in Hpast. pose proof (walk_cert_exact _ _ _ _ (expanded_down maxDepth) (queue_cert idx seeds maxDepth past v Hpast)) as Hfound.
  assert (Hnear : forall k x d, near idx seeds maxDepth k x d <-> exists it, it ∈ reached_in idx seedSet k past /\ q_id it = x /\ q_depth it = d).
  { intros k x d. unfold near. rewrite <- Hat. transitivity (0 < d /\ (exists it, it ∈ past /\ q_id it = x /\ q_depth it = d) /\ file_node_at idx seedSet k x).
    - rewrite Hfound. unfold expanded. split.
      + intros (Haw & Hl & Hf). destruct d as [|d]; [|split_and!; [lia|done|right; cbn; lia|done]]. exfalso.
        destruct Haw as [Hh _]. inversion Hh as [s Hs|]. subst. apply list_elem_of_fmap in Hs as (s & -> & Hs).
        apply Hat in Hf as (n & Hn & He & _). by apply (Hno s Hs n).
      + intros (Hd & [Haw Hl] & Hf). split_and!; [done| |done]. destruct d; [lia|]. destruct Hl as [?|Hl]; [done|]. cbn in Hl. lia.
    - setoid_rewrite elem_of_counted_items. naive_solver. }
  assert (Hdn : forall k i, direct idx seeds k i -> exists x, near idx seeds maxDepth k x 1).
  { intros k i (s & o & e & Hs & He & _ & n & Hn & Hel & Hk). exists o. split; [|split; [intros; lia|by exists n]]. split.
    - eapply hops_next; [apply hops_start, list_elem_of_fmap; by exists s|by exists e].
    - intros [|d'] Hh; [exfalso|lia]. inversion Hh as [s' Hs'|]. subst. apply list_elem_of_fmap in Hs' as (s' & -> & Hs').
      by apply (Hno s' Hs' n). }
  assert (Hmkey : forall k e, m !! k = Some e -> (rl_Service e, rl_File e) = k) by (intros k e He; by apply Hentry in He as (_ & _ & ?)).
  destruct (reach_tally idx seedSet m past Hmkey) as [T1 T2 T3 T4 T5 T6].
  set (m' := fold_left (reach_item idx seedSet) past m) in *.
  assert (Hmdir : forall k, is_Some (m !! k) -> exists i, direct idx seeds k i).
  { intros k [e He]. destruct (Hcount k) as (es & _ & _ & Hes & Hnone). destruct es as [|i es].
    - by rewrite (proj2 Hnone eq_refl) in He.
    - exists i. apply Hdirect, Hes. left. }
  rewrite (match_cons seeds) by done. rewrite Eloop. cbn [mbind option_bind].
  set (rows := sort_slice related_less (map (fun p => sort_types (snd p)) (order (map_to_list m')))).
  assert (Hrows : forall r, r ∈ rows <-> exists k e, m' !! k = Some e /\ r = sort_types e).
  { intros r. unfold rows. rewrite elem_of_sort_slice, list_elem_of_fmap. setoid_rewrite Horder. split.
    - intros ([k e] & -> & He%elem_of_map_to_list). by exists k, e.
    - intros (k & e & He & ->). exists (k, e). by rewrite elem_of_map_to_list. }
  assert (Hreached : forall k, reached_in idx seedSet k past <> [] <-> exists x d, near idx seeds maxDepth k x d).
  { intros k. setoid_rewrite Hnear. split.
    - intros H. destruct (reached_in _ _ k past) as [|it l]; [done|]. exists (q_id it), (q_depth it), it. split; [left|done].
    - intros (x & d & it & Hit & _) E. rewrite E in Hit. by apply elem_of_nil in Hit. }
  assert (Hsome : forall k, is_Some (m' !! k) <-> exists x d, near idx seeds maxDepth k x d).
  { intros k. rewrite T3, Hreached. split; [|by right]. intros [Hm|?]; [|done]. apply Hmdir in Hm as [i Hi]. apply Hdn in Hi as [x Hx]. eauto. }
  eexists _, rows, _. split; [reflexivity|]. split.
  { rewrite (related_keys rows m'); [apply NoDup_fst_map_to_list| |]; [|done].
    unfold rows. rewrite sort_slice_perm. by rewrite Horder. }
  split.
  { intros k. rewrite <- Hsome. split.
    - intros (r & (k' & e & He & ->)%Hrows & <-). exists e. change (m' !! (rl_Service e, rl_File e) = Some e). by rewrite (T4 k' e He).
    - intros [e He]. exists (sort_types e). split; [apply Hrows; eauto|exact (T4 k e He)]. }
  intros r (k & e & He & ->)%Hrows. cbn zeta. change (rl_Service (sort_types e), rl_File (sort_types e)) with (rl_Service e, rl_File e).
  rewrite (T4 k e He). cbn [sort_types rl_Nodes rl_Refs rl_MinDepth]. split_and!.
  - exists (q_ids (reached_in idx seedSet k past)). split_and!.
    + pose proof (qv_NoDup _ _ _ _ _ _ Hpast) as Hnd. rewrite app_nil_r in Hnd. unfold q_ids, reached_in in *.
      clear -Hnd. induction past as [|it l IH]; [done|]. cbn in *. apply NoDup_cons in Hnd as [Hni Hnd]. case_bool_decide; [|by apply IH].
      cbn. constructor; [|by apply IH]. intros Hin. apply Hni. apply list_elem_of_fmap in Hin as (it' & E & Hit').
      apply elem_of_bfilter in Hit' as [Hit' _]. apply list_elem_of_fmap. by exists it'.
    + unfold q_ids. rewrite length_map. specialize (T2 k). unfold nodes_at in T2. rewrite He in T2.
      destruct (m !! k) as [e0|] eqn:E0; [apply Hentry in E0 as (Hz & _)|]; cbn in T2; lia.
    + intros x. setoid_rewrite Hnear. unfold q_ids. rewrite list_elem_of_fmap. naive_solver.
  - destruct (Hcount k) as (es & N1 & N2 & N3 & _). exists es. split_and!; [done| |intros i; by rewrite N3, Hdirect].
    rewrite N2, <- T1. unfold refs_at. by rewrite He.
  - destruct (T6 k e He) as [(it & Hit & E)|(e0 & He0 & E)].
    + exists (q_id it). apply Hnear. eauto.
    + rewrite E. destruct (Hentry _ _ He0) as (_ & -> & _). destruct (Hmdir k) as [i Hi]; [eauto|]. by apply (Hdn k i).
  - intros x d (it & Hit & _ & <-)%Hnear. by apply (T5 k e He).
Qed.

(** ** Channels between services *)

(** Of two states the one the other is no worse than; no state is no
    evidence. *)
Definition worst_of (states : list string) (w : string) : Prop :=
  (w = "" <-> forall s, s ∈ states -> s = "") /\ (w <> "" -> w ∈ states) /\
  (forall s, s ∈ states -> s <> "" -> (worse_rank w <= worse_rank s)%Z).

Lemma worst_snoc states w s : worst_of states w -> worst_of (states ++ [s]) (worseVerificationState w s).
Proof.
  intros (H1 & H2 & H3). unfold worst_of. setoid_rewrite elem_of_app. setoid_rewrite list_elem_of_singleton.
  unfold worseVerificationState.
  destruct (Stdlib.Strings.String.eqb_spec w "") as [Ew|Ew].
  - assert (Hall := proj1 H1 Ew). split_and!; [naive_solver|auto|]. intros x [Hx|Hx] Hne; [by apply Hall in Hx|by subst].
  - destruct (Stdlib.Strings.String.eqb_spec s "") as [->|Es].
    + split_and!; [naive_solver|auto|]. intros x [Hx|Hx] Hne; [by apply H3|done].
    + destruct (worse_rank s <? worse_rank w)%Z eqn:El; [apply Z.ltb_lt in El|apply Z.ltb_ge in El].
      * split_and!; [naive_solver|auto|]. intros x [Hx|Hx] Hne; [pose proof (H3 x Hx Hne); lia|by subst].
      * split_and!; [naive_solver|auto|]. intros x [Hx|Hx] Hne; [by apply H3|by subst].
Qed.

(** What a group says of the crossings filed under it. *)
Record sums_up (cs : list crossing) (g : channel_group) : Prop := {
  su_same c : c ∈ cs -> ed_Type (cr_edge c) = cg_kind g /\ cr_identity c = cg_channel g /\ cr_from c = cg_from g /\ cr_to c = cg_to g;
  su_id : cg_edgeID g ∈ map (fun c => ed_ID (cr_edge c)) cs;
  su_least c : c ∈ cs -> str_ltb (ed_ID (cr_edge c)) (cg_edgeID g) = false;
  su_state : worst_of (map (fun c => ed_VerificationState (cr_edge c)) cs) (cg_state g);
  su_producers x : x ∈ cg_producers g <-> exists c, c ∈ cs /\ ed_From (cr_edge c) = x;
  su_consumers x : x ∈ cg_consumers g <-> exists c, c ∈ cs /\ ed_To (cr_edge c) = x
}.

Lemma sums_up_snoc cs c g : sums_up cs g -> ed_Type (cr_edge c) = cg_kind g -> cr_identity c = cg_channel g ->
  cr_from c = cg_from g -> cr_to c = cg_to g -> sums_up (cs ++ [c]) (add_crossing (Some g) c).
Proof.
  intros [H1 H2 H3 H4 H5 H6] E1 E2 E3 E4.
  assert (Hsnoc : forall P : crossing -> Prop, (exists x, x ∈ cs ++ [c] /\ P x) <-> (exists x, x ∈ cs /\ P x) \/ P c).
  { intros P. setoid_rewrite elem_of_app. setoid_rewrite list_elem_of_singleton. naive_solver. }
  unfold add_crossing. cbn [default from_option id]. split; cbn [cg_kind cg_channel cg_edgeID cg_from cg_to cg_state cg_producers cg_consumers].
  - intros x [Hx|Hx%list_elem_of_singleton]%elem_of_app; [by apply H1|by subst].
  - rewrite map_app, elem_of_app. cbn [map]. rewrite list_elem_of_singleton. destruct (str_ltb _ _); auto.
  - intros x [Hx|Hx%list_elem_of_singleton]%elem_of_app.
    + specialize (H3 x Hx). destruct (str_ltb (ed_ID (cr_edge c)) (cg_edgeID g)) eqn:El; [|done].
      apply (less_negtrans (less := str_ltb) _ (cg_edgeID g)); [done|by apply less_asym].
    + subst x. destruct (str_ltb (ed_ID (cr_edge c)) (cg_edgeID g)) eqn:El; [apply str_ltb_irrefl|done].
  - rewrite map_app. cbn [map]. by apply worst_snoc.
  - intros x. rewrite Hsnoc, elem_of_union, elem_of_singleton, H5. naive_solver.
  - intros x. rewrite Hsnoc, elem_of_union, elem_of_singleton, H6. naive_solver.
Qed.

Lemma sums_up_one c : sums_up [c] (add_crossing None c).
Proof.
  unfold add_crossing. cbn [default from_option]. split; cbn [cg_kind cg_channel cg_edgeID cg_from cg_to cg_state cg_producers cg_consumers].
  - by intros x ->%list_elem_of_singleton.
  - cbn [map]. rewrite list_elem_of_singleton. by destruct (str_ltb _ _).
  - intros x ->%list_elem_of_singleton. rewrite str_ltb_irrefl. apply str_ltb_irrefl.
  - cbn [map]. apply (worst_snoc [] "" (ed_VerificationState (cr_edge c))). split_and!; [|done|by intros s ?%elem_of_nil].
    split; [by intros _ s ?%elem_of_nil|done].
  - intros x. rewrite elem_of_union, elem_of_singleton. setoid_rewrite list_elem_of_singleton. set_solver.
  - intros x. rewrite elem_of_union, elem_of_singleton. setoid_rewrite list_elem_of_singleton. set_solver.
Qed.

(** Keys without the separator inside their first parts. *)
Definition clean_crossing (c : crossing) : Prop := forallb nul_free [cr_from c; cr_to c; ed_Type (cr_edge c)] = true.

Lemma crossing_key_inj c c' : clean_crossing c -> clean_crossing c' -> crossing_key c = crossing_key c' ->
  cr_from c = cr_from c' /\ cr_to c = cr_to c' /\ ed_Type (cr_edge c) = ed_Type (cr_edge c') /\ cr_identity c = cr_identity c'.
Proof.
  unfold clean_crossing. cbn [forallb]. rewrite !andb_true_iff. intros (H1 & H2 & H3 & _) (H1' & H2' & H3' & _) E.
  apply nul_cut in E as [-> E]; [|done..]. apply nul_cut in E as [-> E]; [|done..]. by apply nul_cut in E as [-> ->].
Qed.

Lemma group_sums_up l k g : (forall c, c ∈ l -> clean_crossing c) -> group crossing_key add_crossing l !! k = Some g ->
  having crossing_key k l <> [] /\ sums_up (having crossing_key k l) g.
Proof.
  intros Hclean Hg.
  destruct (group_inv crossing_key add_crossing
    (fun cs g => (forall c, c ∈ cs -> clean_crossing c /\ crossing_key c = k) -> sums_up cs g)) with (l := l) (k := k) (e := g) as [H1 H2].
  - intros c _. apply sums_up_one.
  - clear. intros l c g IH Hall. assert (Hg : sums_up l g) by (apply IH; intros; apply Hall, elem_of_app; by left).
    destruct (Hall c) as [Hc Hk]; [apply elem_of_app; right; left|].
    pose proof (su_id _ _ Hg) as Hid. apply list_elem_of_fmap in Hid as (c' & _ & Hc').
    destruct (Hall c') as [Hcl Hk']; [apply elem_of_app; by left|].
    destruct (crossing_key_inj c' c) as (E1 & E2 & E3 & E4); [done|done|congruence|].
    destruct (su_same _ _ Hg c' Hc') as (F1 & F2 & F3 & F4). apply sums_up_snoc; congruence.
  - done.
  - split; [done|]. apply H2. intros c [Hc Hk]%elem_of_having. split; [by apply Hclean|done].
Qed.

(** The crossings of a pair that a row stands for. *)
Definition row_of (r : ServiceChannel) (c : crossing) : Prop :=
  cr_from c = sc_From r /\ cr_to c = sc_To r /\ ed_Type (cr_edge c) = sc_Kind r /\ cr_identity c = sc_Channel r.

(** A flow edge that crosses the pair, in either direction. *)
Definition crosses_pair (idx : AdjacencyIndex) (from to : string) (c : crossing) : Prop :=
  exists e, has_edge idx e /\ crossing_of idx from to e = Some c.

Lemma crossing_of_spec idx from to e c : crossing_of idx from to e = Some c <->
  cr_edge c = e /\ isFlowEdge (ed_Type e) = true /\ cr_identity c = channelIdentity idx e /\
  exists fn tn, Nodes idx !! ed_From e = Some fn /\ Nodes idx !! ed_To e = Some tn /\
    cr_from c = n_Service fn /\ cr_to c = n_Service tn /\
    (n_Service fn = from /\ n_Service tn = to \/ n_Service fn = to /\ n_Service tn = from).
Proof.
  unfold crossing_of. destruct (isFlowEdge (ed_Type e)); cbn [negb]; [|naive_solver].
  destruct (Nodes idx !! ed_From e) as [fn|]; cbn; [|naive_solver].
  destruct (Nodes idx !! ed_To e) as [tn|]; cbn; [|naive_solver].
  destruct (Stdlib.Strings.String.eqb_spec (n_Service fn) from), (Stdlib.Strings.String.eqb_spec (n_Service tn) to); cbn;
    [split; [intros [= <-]; cbn; naive_solver|destruct c; cbn; naive_solver]|..];
    destruct (Stdlib.Strings.String.eqb_spec (n_Service fn) to), (Stdlib.Strings.String.eqb_spec (n_Service tn) from); cbn;
    (split; [try done; intros [= <-]; cbn; naive_solver|destruct c; cbn; naive_solver]).
Qed.

(** The rows for a pair of services are its channels: every flow edge between
    the two, in either direction, is in exactly one row, with the edges of its
    type, direction and channel; the row counts their distinct ends, gives the
    least of their IDs and the worst state any of them has. *)
Theorem ServiceChannels_exact idx from to :
  wf_index idx -> unique_ids idx -> from <> "" -> to <> "" -> nul_free from = true -> nul_free to = true ->
  (forall e, has_edge idx e -> nul_free (ed_Type e) = true) ->
  exists rows, ServiceChannels idx from to = Ok rows /\
    (forall c, crosses_pair idx from to c -> exists r, r ∈ rows /\ row_of r c /\ forall r', r' ∈ rows -> row_of r' c -> r' = r) /\
    (forall r, r ∈ rows -> exists cs, cs <> [] /\ NoDup (map cr_edge cs) /\
       (forall c, c ∈ cs <-> crosses_pair idx from to c /\ row_of r c) /\
       sc_EdgeID r ∈ map (fun c => ed_ID (cr_edge c)) cs /\
       (forall c, c ∈ cs -> str_ltb (ed_ID (cr_edge c)) (sc_EdgeID r) = false) /\
       worst_of (map (fun c => ed_VerificationState (cr_edge c)) cs) (sc_VerificationState r) /\
       sc_ProducerCount r = size (list_to_set (map (fun c => ed_From (cr_edge c)) cs) : gset string) /\
       sc_ConsumerCount r = size (list_to_set (map (fun c => ed_To (cr_edge c)) cs) : gset string)).
Proof.
  intros Hwf Hids Hf Ht Hnf Hnt Hny. unfold ServiceChannels. apply Stdlib.Strings.String.eqb_neq in Hf, Ht. rewrite Hf, Ht. cbn [orb].
  destruct (AllEdges_spec idx Hwf Hids) as [Hnd Hall].
  set (l := omap (crossing_of idx from to) (AllEdges idx)). set (groups := group crossing_key add_crossing l).
  assert (Hl : forall c, c ∈ l <-> crosses_pair idx from to c).
  { intros c. unfold l, crosses_pair. rewrite list_elem_of_omap. by setoid_rewrite Hall. }
  assert (Hclean : forall c, c ∈ l -> clean_crossing c).
  { intros c (e & He & Hc)%Hl. apply crossing_of_spec in Hc as (Ee & _ & _ & fn & tn & _ & _ & Ef & Et & Hor).
    unfold clean_crossing. rewrite Ef, Et, Ee. cbn. rewrite (Hny e He). by destruct Hor as [[-> ->]|[-> ->]]; rewrite Hnf, Hnt. }
  assert (Hnde : NoDup (map cr_edge l)) by (apply omap_NoDup; [done|intros e c Hc; by apply crossing_of_spec in Hc as [? _]]).
  eexists. split; [reflexivity|].
  assert (Hrow : forall r, r ∈ omap (fun k => channel_row <$> groups !! k) (sort_strings (map fst (map_to_list groups))) <->
    exists k g, groups !! k = Some g /\ r = channel_row g).
  { intros r. rewrite list_elem_of_omap. setoid_rewrite elem_of_sort_strings. setoid_rewrite list_elem_of_fmap. split.
    - intros (k & _ & E). destruct (groups !! k) as [g|] eqn:Eg; [|done]. injection E as <-. eauto.
    - intros (k & g & Hg & ->). exists k. rewrite Hg. split; [|done]. exists (k, g). by rewrite elem_of_map_to_list. }
  assert (Hmem : forall k g c, groups !! k = Some g -> c ∈ l -> row_of (channel_row g) c <-> crossing_key c = k).
  { intros k g c Hg Hc. destruct (group_sums_up l k g Hclean Hg) as [Hne Hs].
    destruct (having crossing_key k l) as [|c0 cs] eqn:E; [done|]. assert (Hc0 : c0 ∈ having crossing_key k l) by (rewrite E; left).
    destruct (su_same _ _ Hs c0) as (F1 & F2 & F3 & F4); [left|]. apply elem_of_having in Hc0 as [Hc0 <-]. unfold row_of. cbn. split.
    - intros (G1 & G2 & G3 & G4). unfold crossing_key. congruence.
    - intros Ek. destruct (crossing_key_inj c c0) as (G1 & G2 & G3 & G4); [by apply Hclean..|done|]. split_and!; congruence. }
  split.
  - intros c Hc. apply Hl in Hc. destruct (proj2 (group_dom crossing_key add_crossing l (crossing_key c))) as [g Hg]; [by exists c|].
    exists (channel_row g). split; [apply Hrow; by exists (crossing_key c), g|]. split; [by apply (Hmem (crossing_key c) g c Hg)|].
    intros r' (k' & g' & Hg' & ->)%Hrow Hr'. apply (Hmem k' g' c Hg' Hc) in Hr' as <-. fold groups in Hg. congruence.
  - intros r (k & g & Hg & ->)%Hrow. destruct (group_sums_up l k g Hclean Hg) as [Hne Hs]. exists (having crossing_key k l). split_and!.
    + done.
    + unfold having. clear -Hnde. induction l as [|c l IH]; [done|]. cbn in *. apply NoDup_cons in Hnde as [Hni Hnd]. case_bool_decide; [|by apply IH].
      cbn. constructor; [|by apply IH]. intros Hin. apply Hni. apply list_elem_of_fmap in Hin as (c' & E & Hc').
      apply elem_of_bfilter in Hc' as [Hc' _]. apply list_elem_of_fmap. by exists c'.
    + intros c. rewrite elem_of_having, <- Hl. split; intros [Hc Hk]; (split; [done|]); by apply (Hmem k g c Hg Hc).
    + apply (su_id _ _ Hs).
    + apply (su_least _ _ Hs).
    + apply (su_state _ _ Hs).
    + cbn. f_equal. apply set_eq. intros x. rewrite (su_producers _ _ Hs), elem_of_list_to_set, list_elem_of_fmap. naive_solver.
    + cbn. f_equal. apply set_eq. intros x. rewrite (su_consumers _ _ Hs), elem_of_list_to_set, list_elem_of_fmap. naive_solver.
Qed.

(** ** What a path says *)

Lemma Split_app c a b : Split c (a +:+ String c b) = Split c a ++ Split c b.
Proof.
  induction a as [|d a IH].
  { change (Split c (String c b) = "" :: Split c b). cbn [Split]. by rewrite Ascii.eqb_refl. }
  change (String d a +:+ String c b) with (String d (a +:+ String c b)). cbn [Split]. rewrite IH.
  destruct (Ascii.eqb c d); [done|]. destruct (Split c a) as [|w ws] eqn:E; [|done].
  exfalso. clear -E. destruct a as [|x a]; cbn in E; [done|]. destruct (Ascii.eqb c x); [done|]. by destruct (Split c a).
Qed.

Lemma Split_free c s : has_byte c s = false -> Split c s = [s].
Proof.
  induction s as [|d s IH]; [done|]. cbn. intros [Hc Hs]%orb_false_iff. rewrite IH by done. by rewrite Hc.
Qed.

Lemma namespace_free c ns : (c = "/" \/ c = "*")%char -> isAPINamespaceSegment ns = true -> has_byte c ns = false.
Proof.
  intros Hc H. assert (Hl : has_byte c (ToLower ns) = false).
  { unfold isAPINamespaceSegment in H. rewrite !orb_true_iff in H.
    destruct H as [[H|H]|H]; [apply Stdlib.Strings.String.eqb_eq in H as ->; by destruct Hc as [-> | ->]..|].
    destruct (ToLower ns) as [|v rest]; [done|]. 
    assert (v = "v"%char /\ forallb is_digit (str_bytes rest) = true) as [-> Hd].
    { destruct v as [[] [] [] [] [] [] [] []]; try done. by destruct rest. }
    clear H. cbn. assert (Ascii.eqb c "v" = false) as -> by (by destruct Hc as [-> | ->]). cbn.
    induction rest as [|d rest IH]; [done|]. cbn in Hd |- *. apply andb_true_iff in Hd as [Hd Hr]. rewrite IH by done.
    rewrite orb_false_r. apply not_true_iff_false. intros ->%Ascii.eqb_eq. by destruct Hc as [-> | ->]. }
  rewrite <- Hl. clear -Hc. induction ns as [|d ns IH]; [done|]. cbn. rewrite IH. f_equal.
  destruct Hc as [-> | ->]; by destruct d as [[] [] [] [] [] [] [] []].
Qed.

(** A namespace segment, wherever it stands, changes nothing about what the path
    is worth as evidence. *)
Theorem PathEvidence_namespace a ns b : isAPINamespaceSegment ns = true ->
  PathEvidence (a +:+ "/" +:+ ns +:+ "/" +:+ b) = PathEvidence (a +:+ "/" +:+ b).
Proof.
  intros H. assert (Hs := namespace_free "/" ns (or_introl eq_refl) H). assert (Hstar := namespace_free "*" ns (or_intror eq_refl) H).
  unfold PathEvidence. rewrite !Contains_byte, !has_byte_app, Hstar.
  assert (Hsplit : List.filter literal_segment (Split "/" (a +:+ "/" +:+ ns +:+ "/" +:+ b)) =
    List.filter literal_segment (Split "/" (a +:+ "/" +:+ b))).
  { change ("/" +:+ ns +:+ "/" +:+ b) with (String "/" (ns +:+ String "/" b)). change ("/" +:+ b) with (String "/" b).
    rewrite !Split_app, (Split_free "/" ns Hs), !List.filter_app. cbn [List.filter]. unfold literal_segment at 2.
    by rewrite H, !orb_true_r. }
  by rewrite Hsplit.
Qed.

(** ** The trend of the ledger *)

Lemma first_of_each_spec {A K} `{EqDecision K} (key : A -> K) l :
  NoDup (map key (first_of_each key l)) /\ (forall x, x ∈ first_of_each key l -> x ∈ l) /\
  (forall x, x ∈ l -> key x ∈ map key (first_of_each key l)).
Proof.
  unfold first_of_each. induction l as [|x l (IH1 & IH2 & IH3)] using rev_ind; [split_and!; [apply NoDup_nil_2|done|by intros x ?%elem_of_nil]|].
  rewrite fold_left_app. cbn [fold_left]. set (out := fold_left _ l _) in *. unfold add_fresh. setoid_rewrite elem_of_app. setoid_rewrite list_elem_of_singleton.
  case_decide as D.
  - split_and!; [done|auto|]. intros y [Hy| ->]; [by apply IH3|done].
  - split_and!.
    + rewrite map_app. apply NoDup_app. split_and!; [done| |apply NoDup_singleton]. by intros y Hy ->%list_elem_of_singleton.
    + intros y [Hy|Hy]%elem_of_app; [auto|right]. by apply list_elem_of_singleton in Hy.
    + intros y Hy. rewrite map_app, elem_of_app. cbn [map]. rewrite list_elem_of_singleton. destruct Hy as [Hy| ->]; [left; by apply IH3|by right].
Qed.

(** The runs in which the pair has a row, newest first. *)
Definition runs_of (history : list UnresolvedHistoryRow) (k : string * string) : list UnresolvedHistoryRow :=
  first_of_each uh_RunAt (List.filter (fun r => bool_decide (pair_of r = k)) history).

Lemma pairs_lookup history k : get_all (index_all (fun r => Some (pair_of r)) (fun r => r) history) k =
  List.filter (fun r => bool_decide (pair_of r = k)) history.
Proof.
  rewrite get_all_lookup, map_id. unfold keyed_by. apply filter_ext. intros r. by apply bool_decide_ext; split; [intros [= ->]|intros ->].
Qed.

(** A trend is computed exactly when it looks back at least one run, and has
    one row for each pair of the history: its latest run that has one, against
    the run [nBack - 1] before it, or its oldest one. *)
Theorem ComputeTrend_exact history nBack :
  (ComputeTrend history nBack = None <-> history <> [] /\ (nBack <= 0)%Z) /\
  forall rows, ComputeTrend history nBack = Some rows ->
    NoDup (map (fun t => (tw_Service t, tw_Kind t)) rows) /\
    (forall k, (exists t, t ∈ rows /\ (tw_Service t, tw_Kind t) = k) <-> exists r, r ∈ history /\ pair_of r = k) /\
    (forall t, t ∈ rows -> let runs := runs_of history (tw_Service t, tw_Kind t) in
       exists latest baseline, head runs = Some latest /\
         runs !! (Nat.min (Z.to_nat (nBack - 1)) (length runs - 1))%nat = Some baseline /\
         tw_Latest t = uh_Count latest /\ tw_Baseline t = uh_Count baseline /\
         tw_Delta t = (tw_Latest t - tw_Baseline t)%Z /\ tw_Runs t = Z.of_nat (length runs)).
Proof.
  unfold ComputeTrend. set (pairs := index_all _ _ history). set (order := sort_slice _ _).
  assert (Horder : order ≡ₚ first_of_each (fun k => k) (map pair_of history)) by apply sort_slice_perm.
  destruct (first_of_each_spec (fun k : string * string => k) (map pair_of history)) as (F1 & F2 & F3). rewrite map_id in F1, F3.
  assert (Hin : forall k, k ∈ order <-> exists r, r ∈ history /\ pair_of r = k).
  { intros k. rewrite Horder. transitivity (k ∈ map pair_of history); [split; [apply F2|apply F3]|].
    rewrite list_elem_of_fmap. naive_solver. }
  assert (Hruns : forall k, first_of_each uh_RunAt (get_all pairs k) = runs_of history k).
  { intros k. unfold pairs. by rewrite pairs_lookup. }
  assert (Hne : forall k, k ∈ order -> runs_of history k <> []).
  { intros k (r & Hr & Hk)%Hin. destruct (first_of_each_spec uh_RunAt (List.filter (fun r => bool_decide (pair_of r = k)) history)) as (_ & _ & G).
    unfold runs_of. intros E. rewrite E in G. specialize (G r). cbn in G. apply not_elem_of_nil in G; [done|].
    apply elem_of_bfilter. by rewrite bool_decide_eq_true. }
  assert (Hrow : forall k, k ∈ order -> match trend_row pairs nBack k with
    | None => (nBack <= 0)%Z
    | Some t => (0 < nBack)%Z /\ (tw_Service t, tw_Kind t) = k /\
       exists latest baseline, head (runs_of history k) = Some latest /\
         runs_of history k !! (Nat.min (Z.to_nat (nBack - 1)) (length (runs_of history k) - 1))%nat = Some baseline /\
         tw_Latest t = uh_Count latest /\ tw_Baseline t = uh_Count baseline /\
         tw_Delta t = (tw_Latest t - tw_Baseline t)%Z /\ tw_Runs t = Z.of_nat (length (runs_of history k)) end).
  { intros k Hk%Hne. unfold trend_row. rewrite Hruns. destruct (runs_of history k) as [|r0 rs] eqn:Er; [done|].
    set (n := Z.of_nat (length (r0 :: rs))). assert (Hn : (0 < n)%Z) by (unfold n; cbn; lia).
    change (entry_at (r0 :: rs) 0) with (Some r0). cbn [mbind option_bind].
    unfold entry_at. destruct ((if (n <=? nBack - 1)%Z then (n - 1)%Z else (nBack - 1)%Z) <? 0)%Z eqn:El.
    - cbn [mbind option_bind]. apply Z.ltb_lt in El. revert El; destruct (Z.leb_spec n (nBack - 1)); lia.
    - assert (Hb : (0 < nBack)%Z) by (apply Z.ltb_ge in El; revert El; destruct (Z.leb_spec n (nBack - 1)); lia).
      assert (Hi : Z.to_nat (if (n <=? nBack - 1)%Z then n - 1 else nBack - 1)%Z = Nat.min (Z.to_nat (nBack - 1)) (length (r0 :: rs) - 1)).
      { unfold n. destruct (Z.of_nat (length (r0 :: rs)) <=? nBack - 1)%Z eqn:E; [apply Z.leb_le in E|apply Z.leb_gt in E]; lia. }
      rewrite Hi. destruct (lookup_lt_is_Some_2 (r0 :: rs) (Nat.min (Z.to_nat (nBack - 1)) (length (r0 :: rs) - 1))) as [bl Hbl]; [cbn; lia|].
      rewrite Hbl. cbn. split_and!; [done|by destruct k|]. exists r0, bl. done. }
  split.
  - rewrite mapM_None, Exists_exists. split.
    + intros (k & Hk & E). specialize (Hrow k Hk). rewrite E in Hrow. split; [|done]. apply Hin in Hk as (r & Hr & _).
      intros ->. by apply elem_of_nil in Hr.
    + intros [Hh Hb]. destruct history as [|r0 h]; [done|]. assert (Hk : pair_of r0 ∈ order) by (apply Hin; exists r0; split; [left|done]).
      exists (pair_of r0). split; [done|]. specialize (Hrow _ Hk). destruct (trend_row _ _ _); [destruct Hrow; lia|done].
  - intros rows Hrows. apply mapM_Some in Hrows.
    assert (Hmap : map (fun t => (tw_Service t, tw_Kind t)) rows = order).
    { clear Horder Hin Hne. induction Hrows as [|k t ks ts Ht Hts IH]; [done|]. cbn. f_equal.
      - specialize (Hrow k (list_elem_of_here _ _)). rewrite Ht in Hrow. by destruct Hrow as (_ & ? & _).
      - apply IH. intros k' Hk'. apply Hrow. by right. }
    split_and!.
    + rewrite Hmap, Horder. done.
    + intros k. rewrite <- Hin, <- Hmap, list_elem_of_fmap. naive_solver.
    + intros t Ht. apply list_elem_of_lookup in Ht as [i Hi]. destruct (Forall2_lookup_r _ _ _ _ _ Hrows Hi) as (k & Hk & Ek).
      apply list_elem_of_lookup_2 in Hk. specialize (Hrow k Hk). rewrite Ek in Hrow. by destruct Hrow as (_ & -> & ?).
Qed.

(** ** Examples *)

Definition x_node (id file : string) : Node := mkNode id NodeTypeFunction id "svc" file 1 0 "go" ∅ "".
Definition x_edge (from to : string) : Edge :=
  mkEdge (from +:+ to) from to EdgeTypeCalls "" "" "" "" ∅ [] "" "".
(** a calls b, b calls c, d calls b. *)
Definition x_index : AdjacencyIndex :=
  BuildIndex [x_node "a" "f.go"; x_node "b" "g.go"; x_node "c" "h.go"; x_node "d" "i.go"]
    [x_edge "a" "b"; x_edge "b" "c"; x_edge "d" "b"].
Definition x_nodes : list Node := map snd (map_to_list (Nodes x_index)).

Lemma elem_of_node_list idx n : wf_index idx -> n ∈ map snd (map_to_list (Nodes idx)) <-> Nodes idx !! n_ID n = Some n.
Proof.
  intros W. rewrite list_elem_of_fmap. split.
  - intros ([id n'] & -> & H%elem_of_map_to_list). cbn. by rewrite (wf_nodes _ W _ _ H).
  - intros H. exists (n_ID n, n). by rewrite elem_of_map_to_list.
Qed.

Example x_links : map (fun r => (lr_NodeID r, lr_Depth r, lr_Via r))
  (le_Rows (LinkExplorerAdjacency x_index "a" "downstream" 2 0 0 "" "")) = [("b", 1, []); ("c", 2, ["b"])].
Proof. vm_compute. reflexivity. Qed.

Lemma LinkExplorer_exact_witness : exists rows,
  NoDup (map lr_NodeID rows) /\ le_Total (LinkExplorerAdjacency x_index "a" "downstream" 2 0 0 "" "") = Z.of_nat (length rows).
Proof.
  destruct (LinkExplorer_exact x_index "a" (x_node "a" "f.go") "downstream" 2 0 0 "" "") as (rows & H1 & _ & _ & H2 & _).
  - apply wf_BuildIndex.
  - vm_compute. reflexivity.
  - exists rows. split; [exact H1|exact H2].
Defined.

Example x_related : match RelatedFiles x_index x_nodes (fun l => l) "" ["f.go"; "nowhere.go"] 0 with
  | Some (seedFiles, rows, missing) =>
      seedFiles = ["f.go"] /\ missing = ["nowhere.go"] /\
      map (fun r => (rl_File r, rl_Refs r, rl_Nodes r, rl_MinDepth r)) rows =
        [("g.go", 1%Z, 1%Z, 1); ("h.go", 0%Z, 1%Z, 2); ("i.go", 0%Z, 1%Z, 2)]
  | None => False
  end.
Proof. vm_compute. split_and!; reflexivity. Qed.

Lemma RelatedFiles_exact_witness : exists seedFiles rows missing,
  RelatedFiles x_index x_nodes (fun l => l) "" ["f.go"] 1 = Some (seedFiles, rows, missing) /\
  NoDup (map (fun r => (rl_Service r, rl_File r)) rows).
Proof.
  destruct (RelatedFiles_exact x_index x_nodes (fun l => l) "" ["f.go"] 1) as (sf & rows & missing & E & Hnd & _).
  - apply wf_BuildIndex.
  - apply unique_ids_by_eval; [vm_compute; reflexivity|apply wf_BuildIndex].
  - intros n. apply elem_of_node_list, wf_BuildIndex.
  - intros l. reflexivity.
  - exists sf, rows, missing. split; [exact E|exact Hnd].
Defined.

(** One run back is the latest run itself: the difference is always 0. *)
Example trend_one_back : option_map (map tw_Delta)
  (ComputeTrend [mkHistory 3 "s" "k" 30; mkHistory 2 "s" "k" 20] 1) = Some [0%Z].
Proof. reflexivity. Qed.

(** A kind whose references were all resolved has no row in the latest runs: its
    old counts still pass for the latest ones. *)
Example trend_stale : let history := [mkHistory 9 "s" "other" 1; mkHistory 3 "s" "k" 30; mkHistory 2 "s" "k" 20; mkHistory 1 "s" "k" 10] in
  DetectGrowth history 3 = ["s"] /\
  option_map (map (fun t => (tw_Kind t, tw_Latest t))) (ComputeTrend history 2) = Some [("k", 30%Z); ("other", 1%Z)].
Proof. vm_compute. split; reflexivity. Qed.
