(* ===== verification/LkRoutes.v ===== *)
(** Linking entry points to the code behind them (internal/linker/linker.go):
    routes to handlers, WebSocket upgrades to their routes, gRPC registrations
    to methods, client routes and templ components to their functions, event
    streams to their listeners. *)
From S2P Require Import Prelude GoStrings GrModel CtEngine GrVerdict LkIndex.

Definition NodeTypePublisher : NodeType := "publisher".
Definition EdgeTypeSSEEndpoint : EdgeType := "sse_endpoint".
Definition EdgeTypeHTTPCall : EdgeType := "http_call".

Definition is_type (n : Node) (t : NodeType) : bool := str_eqb (n_Type n) t.
Definition is_func (n : Node) : bool := is_type n NodeTypeFunction || is_type n NodeTypeMethod.

(** ** Handlers of routes *)

Definition label_key (n : Node) : string := key2 (n_Service n) (n_Label n).
Definition func_key (n : Node) : option string := if is_func n then Some (label_key n) else None.
Definition recv_key (n : Node) : option string :=
  if is_func n && has_meta n "receiver"
  then Some (key3 (n_Service n) (ToLower (meta_of n "receiver")) (n_Label n)) else None.

Record handlerIndexes : Type := mkHandlerIndexes {
  funcIndex : gmap string string; recvIndex : gmap string string; byLabel : gmap string (list Node)
}.

Definition buildHandlerFuncIndexes (nodes : list Node) : handlerIndexes :=
  mkHandlerIndexes (index_first func_key n_ID nodes) (index_first recv_key n_ID nodes)
    (index_all func_key id nodes).

(** A candidate whose receiver and the qualifier end one in the other. *)
Definition abbreviates (q : string) (c : Node) : bool :=
  let recv := ToLower (meta_of c "receiver") in
  negb (str_eqb recv "") && (HasSuffix recv q || HasSuffix q recv).

(** The loop of uniqueAbbreviatedReceiver; [found] is [""] until a candidate
    fits. *)
Fixpoint unique_loop (q found : string) (candidates : list Node) : option string :=
  match candidates with
  | [] => if str_eqb found "" then None else Some found
  | c :: rest =>
      if abbreviates q c then
        if str_eqb found "" then unique_loop q (n_ID c) rest else None
      else unique_loop q found rest
  end.

Definition uniqueAbbreviatedReceiver (candidates : list Node) (qualifier : string) : option string :=
  if (length candidates <? 2)%nat then None
  else unique_loop (ToLower qualifier) "" candidates.

(** The qualifier and the label of a handler reference. *)
Definition split_handler (handlerName : string) : string * string :=
  let '(qualifier, label) :=
    match cut_last "." handlerName with Some (q, l) => (q, l) | None => ("", handlerName) end in
  (match cut_last "." qualifier with Some (_, q) => q | None => qualifier end, label).

Definition or_else {A} (a b : option A) : option A := match a with Some _ => a | None => b end.

Definition resolveHandlerCallee (handlerName service : string) (ix : handlerIndexes) : option string :=
  let '(qualifier, label) := split_handler handlerName in
  let qualified :=
    if str_eqb qualifier "" then None
    else or_else (recvIndex ix !! key3 service (ToLower qualifier) label)
           (uniqueAbbreviatedReceiver (get_all (byLabel ix) (key2 service label)) qualifier) in
  or_else qualified (funcIndex ix !! key2 service label).

Definition calls_edge (from to : string) : Edge :=
  link_edge (arrow_id "calls" from to) from to EdgeTypeCalls "" ∅.

Definition route_edges (ix : handlerIndexes) (n : Node) : list Edge :=
  if negb (is_type n NodeTypeHTTPHandler) then []
  else if str_eqb (meta_of n "handler") "" then []
  else match resolveHandlerCallee (meta_of n "handler") (n_Service n) ix with
       | Some callee => [calls_edge (n_ID n) callee]
       | None => []
       end.

Definition LinkRouteHandlers (nodes : list Node) : list Edge :=
  concat (map (route_edges (buildHandlerFuncIndexes nodes)) nodes).

(** ** WebSocket upgrades *)

Definition ws_target (n : Node) : bool :=
  is_type n NodeTypeHTTPHandler && HasPrefix (meta_of n "pattern") "ws_upgrade" &&
  str_eqb (meta_of n "path") "".

Record funcSpan : Type := mkFuncSpan { fs_service : string; fs_file : string; fs_start : Z; fs_end : Z }.
Definition span_of (n : Node) : funcSpan := mkFuncSpan (n_Service n) (n_File n) (n_Line n) (n_EndLine n).
Definition func_id (n : Node) : option string := if is_func n then Some (n_ID n) else None.

Definition in_span (sp : funcSpan) (ws : Node) : bool :=
  str_eqb (n_Service ws) (fs_service sp) && str_eqb (n_File ws) (fs_file sp) &&
  negb ((n_Line ws <? fs_start sp)%Z || ((0 <? fs_end sp)%Z && (fs_end sp <? n_Line ws)%Z)).

Definition set_Meta (m : Meta) (n : Node) : Node :=
  mkNode (n_ID n) (n_Type n) (n_Label n) (n_Service n) (n_File n) (n_Line n) (n_EndLine n)
    (n_Language n) m (n_Snippet n).

Definition stamp_route (path method : string) (ws : Node) : Node :=
  let m := <["path" := path]> (n_Meta ws) in
  set_Meta (if str_eqb method "" then m else <["method" := method]> m) ws.

Definition ws_route (ix : handlerIndexes) (spans : gmap string funcSpan) (wsTargets : list Node)
    (n : Node) : list Node :=
  let path := meta_of n "path" in
  let handlerName := meta_of n "handler" in
  if negb (is_type n NodeTypeHTTPHandler) || str_eqb path "" || str_eqb handlerName "" then []
  else match resolveHandlerCallee handlerName (n_Service n) ix ≫= fun callee => spans !! callee with
       | Some sp => map (stamp_route path (meta_of n "method")) (List.filter (in_span sp) wsTargets)
       | None => []
       end.

Definition LinkWSUpgradeRoute (nodes : list Node) : list Node :=
  match List.filter ws_target nodes with
  | [] => []
  | wsTargets =>
      concat (map (ws_route (buildHandlerFuncIndexes nodes) (index_last func_id span_of nodes) wsTargets) nodes)
  end.

(** ** gRPC registrations *)

(** [i := strings.IndexAny(s, "{(")]: the text before and the byte found. *)
Fixpoint cut_open (s : string) : option (string * ascii) :=
  match s with
  | "" => None
  | String c s' =>
      if Ascii.eqb c "{" || Ascii.eqb c "(" then Some ("", c)
      else match cut_open s' with Some (a, d) => Some (String c a, d) | None => None end
  end.

Definition after_dot (s : string) : string := match cut_last "." s with Some (_, b) => b | None => s end.
Definition named (s : string) : option string := if str_eqb s "" then None else Some s.

Definition grpcImplTypeName (impl : string) : option string :=
  match cut_open (TrimPrefix (TrimSpace impl) "&") with
  | None | Some ("", _) => None
  | Some (head, c) =>
      if Ascii.eqb c "(" then
        if HasPrefix head "New" then named (after_dot (str_drop 3 head)) else None
      else named (after_dot head)
  end.

Definition grpc_key (n : Node) : option string :=
  if is_type n NodeTypeMethod && has_meta n "receiver"
  then Some (key2 (n_Service n) (ToLower (TrimPrefix (meta_of n "receiver") "*"))) else None.

Definition grpc_register (recvs : gmap string (list string)) (n : Node) : list Edge * list UnresolvedRef :=
  if negb (is_type n NodeTypeGRPCHandler) || negb (str_eqb (meta_of n "pattern") "grpc_server_register")
  then ([], [])
  else match grpcImplTypeName (meta_of n "impl") with
       | None => ([], [ledger n (meta_of n "impl") "grpc_impl_unresolved"])
       | Some implType =>
           match get_all recvs (key2 (n_Service n) (ToLower implType)) with
           | [] => ([], [ledger n implType "grpc_impl_unresolved"])
           | methodIDs => (map (calls_edge (n_ID n)) methodIDs, [])
           end
       end.

Definition LinkGRPCHandlers (nodes : list Node) : list Edge * list UnresolvedRef :=
  collect (grpc_register (index_all grpc_key n_ID nodes)) nodes.

(** ** Client routes *)

Definition component_key (n : Node) : option string :=
  if is_func n || is_type n NodeTypeComponent then Some (label_key n) else None.

Definition route_component (ix : gmap string string) (n : Node) : list Edge * list UnresolvedRef :=
  let component := meta_of n "component" in
  if negb (is_type n NodeTypeRoute) || str_eqb component "" then ([], [])
  else match ix !! key2 (n_Service n) component with
       | Some target =>
           ([link_edge (arrow_id "renders" (n_ID n) target) (n_ID n) target EdgeTypeRenders
               ConfidenceInferred ∅], [])
       | None => ([], [ledger n component "component_ref"])
       end.

Definition LinkRouteComponents (nodes : list Node) : list Edge * list UnresolvedRef :=
  collect (route_component (index_first component_key n_ID nodes)) nodes.

(** ** Templ components *)

Definition templGeneratedPath (templFile : string) : string :=
  if HasSuffix templFile ".templ"
  then str_take (str_len templFile - str_len ".templ") templFile +:+ "_templ.go" else "".

Definition generated_key (n : Node) : option string :=
  if is_type n NodeTypeFunction && str_eqb (n_Language n) "go" && HasSuffix (n_File n) "_templ.go"
  then Some (key2 (n_File n) (n_Label n)) else None.

Definition templ_edges (genFuncs : gmap string string) (n : Node) : list Edge :=
  if negb (is_type n NodeTypeComponent) || negb (str_eqb (n_Language n) "templ") then []
  else
    let genPath := templGeneratedPath (n_File n) in
    if str_eqb genPath "" then []
    else match genFuncs !! key2 genPath (n_Label n) with
         | Some funcID =>
             [link_edge (arrow_id EdgeTypeComponentImpl funcID (n_ID n)) funcID (n_ID n)
                EdgeTypeComponentImpl ConfidenceStatic {["via" := "templ_generated"]}]
         | None => []
         end.

Definition LinkTemplComponents (nodes : list Node) : list Edge :=
  let genFuncs := index_first generated_key n_ID nodes in
  if decide (genFuncs = ∅) then [] else concat (map (templ_edges genFuncs) nodes).

(** ** Event streams *)

Definition eventsource_key (n : Node) : option string :=
  if str_eqb (meta_of n "pattern") "eventsource_connect" then Some (n_File n) else None.

Definition sse_client (clientsByFile : gmap string (list string)) (n : Node) : list Edge :=
  let p := meta_of n "pattern" in
  if negb (is_type n NodeTypeSubscriber) then []
  else if negb (str_eqb p "ws_onmessage_assign") && negb (str_eqb p "ws_on_message") then []
  else map (fun clientID => link_edge (arrow_id "sse" clientID (n_ID n)) clientID (n_ID n)
              EdgeTypeSubscribes ConfidenceInferred {["via" := "eventsource"]})
         (get_all clientsByFile (n_File n)).

Definition LinkSSEClients (nodes : list Node) : list Edge :=
  let clientsByFile := index_all eventsource_key n_ID nodes in
  if decide (clientsByFile = ∅) then [] else concat (map (sse_client clientsByFile) nodes).

Definition node_pattern (n : Node) : string := meta_of n "pattern".
Definition sse_push (patternByID : gmap string string) (e : Edge) : list Edge :=
  if negb (str_eqb (ed_Type e) EdgeTypeHTTPCall) then []
  else if negb (str_eqb (default "" (patternByID !! ed_From e)) "eventsource_connect") then []
  else [link_edge (arrow_id "sse_push" (ed_To e) (ed_From e)) (ed_To e) (ed_From e)
          EdgeTypeSSEEndpoint ConfidenceInferred {["via" := "eventsource"]}].

Definition LinkSSEPush (nodes : list Node) (edges : list Edge) : list Edge :=
  concat (map (sse_push (index_last (fun n => Some (n_ID n)) node_pattern nodes)) edges).

(** * Theorems

    What the passes of LkRoutes link: a route to the one function its handler
    reference selects, a registration to all the methods of its type, and
    everything else to the ledger. *)

(** Services, labels and receivers hold no NUL byte, the separator of the
    indexes' keys, and no node is without ID. *)
Definition clean_func (n : Node) : Prop :=
  forallb nul_free [n_Service n; ToLower (meta_of n "receiver")] = true /\ n_ID n <> "".

(** ** The candidates of a reference *)

Section candidates.
Context (nodes : list Node).

(** The functions and methods of a service with a label, in node order. *)
Definition candidate (svc label : string) (n : Node) : bool :=
  is_func n && str_eqb (n_Service n) svc && str_eqb (n_Label n) label.
Definition candidates (svc label : string) : list Node := List.filter (candidate svc label) nodes.

(** The qualifier names the candidate's receiver, up to case. *)
Definition pins (q : string) (c : Node) : bool :=
  has_meta c "receiver" && EqualFold (meta_of c "receiver") q.

(** The function a reference with qualifier [q] selects: the first whose
    receiver it names; failing that, of at least two candidates, the only one
    whose receiver it abbreviates; failing that, the first of the label. *)
Inductive handler_of (svc q label : string) (c : Node) : Prop :=
| Pinned : q <> "" -> head (List.filter (pins q) (candidates svc label)) = Some c -> handler_of svc q label c
| Abbreviated : q <> "" -> (forall d, d ∈ candidates svc label -> pins q d = false) ->
    2 <= length (candidates svc label) ->
    List.filter (abbreviates (ToLower q)) (candidates svc label) = [c] -> handler_of svc q label c
| ByLabel : head (candidates svc label) = Some c ->
    (q <> "" -> (forall d, d ∈ candidates svc label -> pins q d = false) /\
       ~ (2 <= length (candidates svc label) /\
          length (List.filter (abbreviates (ToLower q)) (candidates svc label)) = 1)) ->
    handler_of svc q label c.

Hypothesis Hclean : forall n, n ∈ nodes -> clean_func n.

Lemma keyed_by_candidates svc label : nul_free svc = true ->
  keyed_by func_key (key2 svc label) nodes = candidates svc label.
Proof.
  intros Hs. unfold keyed_by, candidates. apply filter_ext_in. intros n Hn%list_elem_of_In.
  destruct (Hclean n Hn) as [Hc _]. cbn in Hc. apply andb_true_iff in Hc as [Hc _].
  unfold func_key, candidate, label_key. destruct (is_func n); cbn [andb].
  - apply eq_true_iff_eq. rewrite bool_decide_eq_true, andb_true_iff, !Stdlib.Strings.String.eqb_eq.
    split; [intros [= E]; by apply key2_inj in E|intros [-> ->]; done].
  - by rewrite bool_decide_eq_false_2.
Qed.

Lemma keyed_by_pinned svc q label : nul_free svc = true -> nul_free (ToLower q) = true ->
  keyed_by recv_key (key3 svc (ToLower q) label) nodes = List.filter (pins q) (candidates svc label).
Proof.
  intros Hs Hq. unfold keyed_by, candidates. rewrite bfilter_bfilter. apply filter_ext_in.
  intros n Hn%list_elem_of_In. destruct (Hclean n Hn) as [Hc _]. cbn in Hc.
  unfold recv_key, candidate, pins, EqualFold. apply eq_true_iff_eq.
  rewrite bool_decide_eq_true, !andb_true_iff, !Stdlib.Strings.String.eqb_eq.
  destruct (is_func n), (has_meta n "receiver"); cbn [andb];
    try (split; [intros H; discriminate H|intros H; exfalso; naive_solver]).
  split.
  - intros [= E]. apply key3_inj in E; [tauto|done|]. cbn. by rewrite Hs, Hq.
  - intros (((_ & <-) & <-) & (_ & <-)). done.
Qed.

Lemma unique_loop_spec q found l : (forall c, c ∈ l -> n_ID c <> "") ->
  unique_loop q found l =
  match found, List.filter (abbreviates q) l with
  | "", [c] => Some (n_ID c)
  | "", _ => None
  | _, [] => Some found
  | _, _ => None
  end.
Proof.
  revert found. induction l as [|c l IH]; intros found Hl; cbn [unique_loop List.filter].
  - by destruct found.
  - assert (Hl' : forall d, d ∈ l -> n_ID d <> "") by (intros d Hd; apply Hl; by right).
    assert (Hc : n_ID c <> "") by (apply Hl; left). destruct (abbreviates q c); [|by apply IH].
    destruct found as [|b found]; [|done]. cbn. rewrite IH by done.
    destruct (n_ID c) as [|b s]; [done|]. by destruct (List.filter _ l).
Qed.

Lemma uniqueAbbreviatedReceiver_spec q l : (forall c, c ∈ l -> n_ID c <> "") ->
  uniqueAbbreviatedReceiver l q =
  match List.filter (abbreviates (ToLower q)) l with
  | [c] => if (2 <=? length l)%nat then Some (n_ID c) else None
  | _ => None
  end.
Proof.
  intros Hl. unfold uniqueAbbreviatedReceiver. rewrite unique_loop_spec by done.
  destruct (Nat.ltb_spec (length l) 2), (Nat.leb_spec 2 (length l)); try lia;
    by destruct (List.filter _ l) as [|? []].
Qed.

(** A reference resolves to the function it selects, if there is one. *)
Lemma resolveHandlerCallee_spec handler svc :
  let '(q, label) := split_handler handler in
  nul_free svc = true -> nul_free (ToLower q) = true ->
  match resolveHandlerCallee handler svc (buildHandlerFuncIndexes nodes) with
  | Some callee => exists c, handler_of svc q label c /\ callee = n_ID c
  | None => candidates svc label = []
  end.
Proof.
  unfold resolveHandlerCallee. destruct (split_handler handler) as [q label]. intros Hs Hq.
  cbn [buildHandlerFuncIndexes funcIndex recvIndex byLabel].
  rewrite !index_first_lookup, get_all_lookup, map_id, keyed_by_candidates, keyed_by_pinned by done.
  assert (Hids : forall c, c ∈ candidates svc label -> n_ID c <> "").
  { intros c [Hc _]%elem_of_bfilter. by apply Hclean. }
  rewrite uniqueAbbreviatedReceiver_spec by done.
  assert (Hlabel : (q <> "" -> (forall d, d ∈ candidates svc label -> pins q d = false) /\
       ~ (2 <= length (candidates svc label) /\
          length (List.filter (abbreviates (ToLower q)) (candidates svc label)) = 1)) ->
    match n_ID <$> head (candidates svc label) with
    | Some callee => exists c, handler_of svc q label c /\ callee = n_ID c
    | None => candidates svc label = []
    end).
  { intros H. destruct (head (candidates svc label)) as [c|] eqn:E; cbn.
    - exists c. split; [|done]. by apply ByLabel.
    - by destruct (candidates svc label). }
  case (Stdlib.Strings.String.eqb_spec q ""); intros Hne; cbn [or_else]; [by apply Hlabel|].
  destruct (head (List.filter (pins q) _)) as [c|] eqn:Ep; cbn [fmap option_fmap option_map or_else].
  - exists c. split; [|done]. by apply Pinned.
  - rewrite head_bfilter_None in Ep. destruct (List.filter (abbreviates _) _) as [|c [|d r]] eqn:Ea.
    + apply Hlabel. intros _. split; [done|]. cbn. lia.
    + destruct (Nat.leb_spec 2 (length (candidates svc label))) as [Hl|Hl]; cbn [or_else].
      * exists c. split; [|done]. by apply Abbreviated.
      * apply Hlabel. intros _. split; [done|]. lia.
    + apply Hlabel. intros _. split; [done|]. cbn. lia.
Qed.

(** At most one function is selected. *)
Lemma handler_of_det svc q label c d : handler_of svc q label c -> handler_of svc q label d -> c = d.
Proof.
  assert (Hp : forall x, head (List.filter (pins q) (candidates svc label)) = Some x ->
    ~ forall y, y ∈ candidates svc label -> pins q y = false).
  { intros x Hx Hall. apply head_bfilter_None in Hall. by rewrite Hx in Hall. }
  destruct 1 as [H1 H2|H1 H2 H3 H4|H1 H2]; destruct 1 as [J1 J2|J1 J2 J3 J4|J1 J2];
    try (exfalso; by eapply Hp); try congruence.
  - exfalso. eapply Hp; [done|]. by apply J2.
  - exfalso. apply (proj2 (J2 H1)). by rewrite H4.
  - exfalso. eapply Hp; [done|]. by apply H2.
  - exfalso. apply (proj2 (H2 J1)). by rewrite J4.
Qed.
End candidates.

(** A route that names a handler. *)
Definition names_handler (r : Node) : Prop := n_Type r = NodeTypeHTTPHandler /\ meta_of r "handler" <> "".

Lemma elem_of_route_edges ix r e : e ∈ route_edges ix r <->
  names_handler r /\ exists callee, resolveHandlerCallee (meta_of r "handler") (n_Service r) ix = Some callee /\
    e = calls_edge (n_ID r) callee.
Proof.
  unfold route_edges, names_handler, is_type.
  destruct (Stdlib.Strings.String.eqb_spec (n_Type r) NodeTypeHTTPHandler); cbn [negb];
    [|split; [by intros H%elem_of_nil|tauto]].
  destruct (Stdlib.Strings.String.eqb_spec (meta_of r "handler") "");
    [split; [by intros H%elem_of_nil|tauto]|].
  destruct (resolveHandlerCallee _ _ _) as [callee|].
  - rewrite list_elem_of_singleton. naive_solver.
  - rewrite elem_of_nil. naive_solver.
Qed.

(** C22: The edges of LinkRouteHandlers lead from each route that names a
    handler to the function its reference selects: the one whose receiver the
    qualifier names; failing that, the only one of several whose receiver it
    abbreviates; failing that, the first function or method of the service
    with the label.  A route is left without an edge only when no function of
    its service has the label. *)
Theorem LinkRouteHandlers_exact (nodes : list Node) :
  (forall n, n ∈ nodes -> clean_func n /\ nul_free (ToLower (fst (split_handler (meta_of n "handler")))) = true) ->
  (forall e, e ∈ LinkRouteHandlers nodes <-> exists r c, r ∈ nodes /\ names_handler r /\
     (let '(q, label) := split_handler (meta_of r "handler") in handler_of nodes (n_Service r) q label c) /\
     e = calls_edge (n_ID r) (n_ID c)) /\
  (forall r, r ∈ nodes -> names_handler r ->
     (exists c, c ∈ candidates nodes (n_Service r) (snd (split_handler (meta_of r "handler")))) ->
     exists e, e ∈ LinkRouteHandlers nodes /\ ed_From e = n_ID r).
Proof.
  intros Hc.
  assert (Hres : forall r, r ∈ nodes -> let '(q, label) := split_handler (meta_of r "handler") in
    match resolveHandlerCallee (meta_of r "handler") (n_Service r) (buildHandlerFuncIndexes nodes) with
    | Some callee => exists c, handler_of nodes (n_Service r) q label c /\ callee = n_ID c
    | None => candidates nodes (n_Service r) label = []
    end).
  { intros r Hr. pose proof (resolveHandlerCallee_spec nodes (fun n Hn => proj1 (Hc n Hn))
      (meta_of r "handler") (n_Service r)) as H.
    destruct (Hc r Hr) as [[Hs _] Hq]. cbn in Hs. apply andb_true_iff in Hs as [Hs _].
    destruct (split_handler (meta_of r "handler")) as [q label]. cbn in Hq. by apply H. }
  unfold LinkRouteHandlers. split.
  - intros e. rewrite elem_of_concat_map_list. setoid_rewrite elem_of_route_edges. split.
    + intros (r & Hr & Hn & callee & E & ->). specialize (Hres r Hr).
      destruct (split_handler (meta_of r "handler")) as [q label] eqn:Es. rewrite E in Hres.
      destruct Hres as (c & Hh & ->). exists r, c. rewrite Es. done.
    + intros (r & c & Hr & Hn & Hh & ->). exists r. split; [done|]. split; [done|]. specialize (Hres r Hr).
      destruct (split_handler (meta_of r "handler")) as [q label].
      destruct (resolveHandlerCallee _ _ _) as [callee|].
      * destruct Hres as (d & Hd & ->). exists (n_ID d). split; [done|]. by rewrite (handler_of_det _ _ _ _ _ _ Hd Hh).
      * exfalso. destruct Hh as [_ H|_ _ H _|H _]; rewrite Hres in H; cbn in H; [done|lia|done].
  - intros r Hr Hn (c & Hcand). specialize (Hres r Hr).
    destruct (split_handler (meta_of r "handler")) as [q label] eqn:Es. cbn [snd] in Hcand.
    destruct (resolveHandlerCallee _ _ _) as [callee|] eqn:E.
    + exists (calls_edge (n_ID r) callee). split; [|done]. apply elem_of_concat_map_list. exists r.
      split; [done|]. apply elem_of_route_edges. split; [done|]. by exists callee.
    + rewrite Hres in Hcand. by apply elem_of_nil in Hcand.
Qed.

(** Two handler structs with the same method, one of them abbreviated by the
    route's variable. *)
Definition sample_node (id ty label : string) (meta : Meta) : Node :=
  mkNode id ty label "api" "h.go" 3 9 "go" meta "".
Definition sample_nodes : list Node :=
  [sample_node "r1" NodeTypeHTTPHandler "GET /a" {["handler" := "s.appController.Save"]};
   sample_node "m1" NodeTypeMethod "Save" {["receiver" := "ExecController"]};
   sample_node "m2" NodeTypeMethod "Save" {["receiver" := "UserAppController"]}].

Lemma LinkRouteHandlers_exact_witness :
  exists e, e ∈ LinkRouteHandlers sample_nodes /\ ed_From e = "r1" /\ ed_To e = "m2".
Proof.
  destruct (LinkRouteHandlers_exact sample_nodes) as [H _].
  - intros n [->|[->|[->|Hn]%elem_of_cons]%elem_of_cons]%elem_of_cons;
      [split; [split; [reflexivity|discriminate]|reflexivity]..|by apply elem_of_nil in Hn].
  - exists (calls_edge "r1" "m2"). split; [|done]. apply H. exists (nth 0 sample_nodes (mkNode "" "" "" "" "" 0 0 "" ∅ "")).
    exists (nth 2 sample_nodes (mkNode "" "" "" "" "" 0 0 "" ∅ "")).
    split; [left|]. split; [split; [reflexivity|discriminate]|]. split; [|reflexivity].
    apply Abbreviated; [discriminate| |cbv; lia|reflexivity].
    intros d [[->|[->|[->|Hd]%elem_of_cons]%elem_of_cons]%elem_of_cons Hc]%elem_of_bfilter;
      [discriminate Hc|reflexivity|reflexivity|by apply elem_of_nil in Hd].
Defined.

(** ** The other passes *)

(** A registration is linked to every method of its type, or is in the ledger. *)
Lemma LinkGRPCHandlers_accounts nodes n : n ∈ nodes -> n_Type n = NodeTypeGRPCHandler ->
  meta_of n "pattern" = "grpc_server_register" ->
  (exists name, ledger n name "grpc_impl_unresolved" ∈ snd (LinkGRPCHandlers nodes)) \/
  exists implType, grpcImplTypeName (meta_of n "impl") = Some implType /\
    (exists m, m ∈ nodes /\ grpc_key m = Some (key2 (n_Service n) (ToLower implType))) /\
    forall m, m ∈ nodes -> grpc_key m = Some (key2 (n_Service n) (ToLower implType)) ->
      calls_edge (n_ID n) (n_ID m) ∈ fst (LinkGRPCHandlers nodes).
Proof.
  intros Hn Ht Hp. unfold LinkGRPCHandlers.
  assert (Hreg : grpc_register (index_all grpc_key n_ID nodes) n =
    match grpcImplTypeName (meta_of n "impl") with
    | None => ([], [ledger n (meta_of n "impl") "grpc_impl_unresolved"])
    | Some implType =>
        match get_all (index_all grpc_key n_ID nodes) (key2 (n_Service n) (ToLower implType)) with
        | [] => ([], [ledger n implType "grpc_impl_unresolved"])
        | methodIDs => (map (calls_edge (n_ID n)) methodIDs, [])
        end
    end).
  { unfold grpc_register, is_type. by rewrite Ht, Hp. }
  destruct (grpcImplTypeName _) as [ty|]; cycle 1.
  { left. eexists. apply elem_of_collect_snd. exists n. split; [done|]. rewrite Hreg. left. }
  pose proof (elem_of_get_all grpc_key n_ID nodes (key2 (n_Service n) (ToLower ty))) as Hin.
  destruct (get_all _ _) as [|i ids] eqn:E.
  { left. eexists. apply elem_of_collect_snd. exists n. split; [done|]. rewrite Hreg. left. }
  right. exists ty. split; [done|]. split.
  - destruct (proj1 (Hin i)) as (m & Hm & Hk & _); [left|]. by exists m.
  - intros m Hm Hk. apply elem_of_collect_fst. exists n. split; [done|]. rewrite Hreg. cbn [fst].
    apply list_elem_of_fmap. exists (n_ID m). split; [done|]. apply Hin. by exists m.
Qed.

(** A stamped upgrade is a target in the body of the handler of a route whose
    path it takes. *)
Lemma LinkWSUpgradeRoute_sound nodes n : n ∈ LinkWSUpgradeRoute nodes ->
  exists ws r, ws ∈ nodes /\ ws_target ws = true /\ r ∈ nodes /\ meta_of r "path" <> "" /\
    n_ID n = n_ID ws /\ meta_of n "path" = meta_of r "path" /\
    exists callee sp, resolveHandlerCallee (meta_of r "handler") (n_Service r) (buildHandlerFuncIndexes nodes) =
      Some callee /\ index_last func_id span_of nodes !! callee = Some sp /\ in_span sp ws = true.
Proof.
  unfold LinkWSUpgradeRoute. intros Hn.
  assert (Hn' : n ∈ concat (map (ws_route (buildHandlerFuncIndexes nodes) (index_last func_id span_of nodes)
    (List.filter ws_target nodes)) nodes)).
  { destruct (List.filter ws_target nodes); [by apply elem_of_nil in Hn|exact Hn]. }
  clear Hn. apply elem_of_concat_map_list in Hn' as (r & Hr & Hn). unfold ws_route in Hn.
  destruct (_ || _) eqn:Ec in Hn; [by apply elem_of_nil in Hn|].
  apply orb_false_iff in Ec as [[_ Hp%Stdlib.Strings.String.eqb_neq]%orb_false_iff _].
  destruct (resolveHandlerCallee _ _ _) as [callee|] eqn:E1; [|by apply elem_of_nil in Hn].
  cbn [mbind option_bind] in Hn. destruct (_ !! callee) as [sp|] eqn:E2; [|by apply elem_of_nil in Hn].
  apply list_elem_of_fmap in Hn as (ws & -> & [[Hw Ht]%elem_of_bfilter Hs]%elem_of_bfilter).
  exists ws, r. split_and!; [done..| |by exists callee, sp].
  unfold stamp_route, meta_of. cbn [n_Meta set_Meta].
  destruct (str_eqb _ ""); cbn [n_Meta]; unfold meta_get at 1; rewrite ?lookup_insert_ne by done;
    by rewrite lookup_insert_eq.
Qed.

(** A generated function is joined to the component of the same label in the
    templ file it is generated from. *)
Lemma templ_edges_sound nodes e : e ∈ LinkTemplComponents nodes ->
  exists f c, f ∈ nodes /\ c ∈ nodes /\ n_Language c = "templ" /\ n_Type c = NodeTypeComponent /\
    generated_key f = Some (key2 (templGeneratedPath (n_File c)) (n_Label c)) /\
    ed_From e = n_ID f /\ ed_To e = n_ID c.
Proof.
  unfold LinkTemplComponents. case_decide; [by intros ?%elem_of_nil|].
  intros (c & Hc & He)%elem_of_concat_map_list. unfold templ_edges, is_type in He.
  destruct (_ || _) eqn:Et in He; [by apply elem_of_nil in He|].
  apply orb_false_iff in Et as [Ht%negb_false_iff%Stdlib.Strings.String.eqb_eq
    Hl%negb_false_iff%Stdlib.Strings.String.eqb_eq].
  destruct (str_eqb _ ""); [by apply elem_of_nil in He|].
  rewrite index_first_lookup in He. destruct (head (keyed_by _ _ _)) as [f|] eqn:Ef; [|by apply elem_of_nil in He].
  cbn in He. apply list_elem_of_singleton in He as ->.
  assert (Hf : f ∈ keyed_by generated_key (key2 (templGeneratedPath (n_File c)) (n_Label c)) nodes).
  { destruct (keyed_by _ _ _); [done|]. injection Ef as ->. left. }
  apply elem_of_keyed_by in Hf as [Hf Hk]. by exists f, c.
Qed.
