(* ===== verification/CtEnrich.v ===== *)
(** What internal/contract does to nodes before it links them: the routes of
    router groups get their full path (routegroup.go), and calls through aliases
    and wrappers get the address they stand for (alias.go). *)
From S2P Require Import Prelude GoStrings GrModel GrResolve CtEngine GrVerdict LkIndex LkRoutes.

Definition NodeTypeRouteGroup : NodeType := "route_group".

Definition set_meta (m : Meta) (n : Node) : Node :=
  mkNode (n_ID n) (n_Type n) (n_Label n) (n_Service n) (n_File n) (n_Line n) (n_EndLine n) (n_Language n) m (n_Snippet n).
Definition set_label (l : string) (n : Node) : Node :=
  mkNode (n_ID n) (n_Type n) l (n_Service n) (n_File n) (n_Line n) (n_EndLine n) (n_Language n) (n_Meta n) (n_Snippet n).
Definition set_type (t : NodeType) (n : Node) : Node :=
  mkNode (n_ID n) t (n_Label n) (n_Service n) (n_File n) (n_Line n) (n_EndLine n) (n_Language n) (n_Meta n) (n_Snippet n).

(** * Router groups *)

Record ginGroup : Type := mkGin { gg_varName : string; gg_prefix : string; gg_receiver : string; gg_line : Z }.
Record chiGroup : Type := mkChi { cg_prefix : string; cg_line : Z; cg_endLine : Z }.
Record registrarFunc : Type := mkFunc { rf_defFile : string; rf_param : string }.
Record registrarCall : Type := mkCall { rc_callee : string; rc_arg : string; rc_file : string; rc_line : Z }.

Record groupFacts : Type := mkFacts {
  ginGroupsByFile : gmap string (list ginGroup); chiGroupsByFile : gmap string (list chiGroup);
  registrarFuncs : gmap string registrarFunc; registrarCalls : list registrarCall
}.
Definition no_facts : groupFacts := mkFacts ∅ ∅ ∅ [].

(** stripQuotes: the same function as the linker's stripMeta. *)
Definition stripQuotes (s : string) : string := stripMeta s.

(** fmt.Sscanf(v, "%d", &n): blanks, a sign and the digits that follow; what
    comes after them is not read. On an error [n] stays 0. *)
Definition blank (c : ascii) : bool :=
  let n := N_of_ascii c in ((n =? 32) || (n =? 9) || (n =? 11) || (n =? 12) || (n =? 13))%N.
Fixpoint skip_blanks (s : string) : string :=
  match s with String c s' => if blank c then skip_blanks s' else s | "" => "" end.
Fixpoint leading_digits (s : string) : string :=
  match s with
  | String c s' => match digit_val c with Some _ => String c (leading_digits s') | None => "" end
  | "" => ""
  end.
Definition scan_int (s : string) : Z :=
  let s := skip_blanks s in
  let '(sign, s) := match s with
    | String "-" s' => ("-", s')
    | String "+" s' => ("", s')
    | _ => ("", s) end in
  let '(v, ok) := Atoi (sign +:+ leading_digits s) in if ok then v else 0%Z.

Definition registrar_func (funcs : gmap string registrarFunc) (n : Node) : gmap string registrarFunc :=
  let name := meta_of n "name" in
  let param := meta_of n "param" in
  if str_eqb name "" || str_eqb param "" then funcs
  else
    let keep := match funcs !! name with
      | Some existing => str_ltb (rf_defFile existing) (n_File n) ||
          str_eqb (n_File n) (rf_defFile existing) && negb (str_ltb param (rf_param existing))
      | None => false end in
    if keep then funcs else <[name := mkFunc (n_File n) param]> funcs.

Definition registrar_call (calls : list registrarCall) (n : Node) : list registrarCall :=
  let callee := meta_of n "callee" in
  let arg := meta_of n "arg" in
  if str_eqb callee "" || str_eqb arg "" || IsTestFilePath (n_File n) then calls
  else calls ++ [mkCall callee arg (n_File n) (n_Line n)].

(** [m[k] = append(m[k], v)] *)
Definition append_at {V} (m : gmap string (list V)) (k : string) (v : V) : gmap string (list V) :=
  <[k := get_all m k ++ [v]]> m.

Definition gin_group (n : Node) : option ginGroup :=
  match n_Meta n !! "prefix" with
  | Some pfx => if has_meta n "var_name"
      then Some (mkGin (meta_of n "var_name") (stripQuotes pfx) (meta_of n "receiver") (n_Line n)) else None
  | None => None
  end.

Definition chi_group (n : Node) : option chiGroup :=
  let pfx := stripQuotes (meta_of n "prefix") in
  if str_eqb pfx "" then None
  else Some (mkChi pfx (n_Line n) (if has_meta n "end_line" then scan_int (meta_of n "end_line") else 0)).

Definition is_gin (n : Node) : bool := HasPrefix (meta_of n "pattern") "gin_route_group".
Definition is_chi (n : Node) : bool := HasPrefix (meta_of n "pattern") "chi_route_group".

(** One node of the loop that collects the groups. *)
Definition collect_group (f : groupFacts) (n : Node) : groupFacts :=
  let pat := meta_of n "pattern" in
  if is_type n NodeTypeVariable then
    if str_eqb pat "gin_group_registrar_func"
    then mkFacts (ginGroupsByFile f) (chiGroupsByFile f) (registrar_func (registrarFuncs f) n) (registrarCalls f)
    else if str_eqb pat "gin_group_registrar_call"
    then mkFacts (ginGroupsByFile f) (chiGroupsByFile f) (registrarFuncs f) (registrar_call (registrarCalls f) n)
    else f
  else if negb (is_type n NodeTypeHTTPHandler) && negb (is_type n NodeTypeRouteGroup) then f
  else if is_gin n then
    match gin_group n with
    | Some g => mkFacts (append_at (ginGroupsByFile f) (n_File n) g) (chiGroupsByFile f) (registrarFuncs f) (registrarCalls f)
    | None => f
    end
  else if is_chi n then
    match chi_group n with
    | Some g => mkFacts (ginGroupsByFile f) (append_at (chiGroupsByFile f) (n_File n) g) (registrarFuncs f) (registrarCalls f)
    | None => f
    end
  else f.
Definition collect_groups (nodes : list Node) : groupFacts := fold_left collect_group nodes no_facts.

(** ** The prefixes of a file's groups *)

Section prefixes.
Context (groups : list ginGroup) (seed : gmap string string).

Definition knownVars : gset string := list_to_set (map gg_varName groups) ∪ dom seed.

(** One group of a round; the flag is [changed]. *)
Definition resolve_group (st : gmap string string * bool) (g : ginGroup) : gmap string string * bool :=
  let '(pm, changed) := st in
  match pm !! gg_varName g with
  | Some _ => st
  | None =>
      if decide (gg_receiver g ∈ knownVars) then
        match pm !! gg_receiver g with
        | Some parentPrefix => (<[gg_varName g := parentPrefix +:+ gg_prefix g]> pm, true)
        | None => st
        end
      else (<[gg_varName g := gg_prefix g]> pm, true)
  end.

Fixpoint resolve_rounds (iterations : nat) (pm : gmap string string) : gmap string string :=
  match iterations with
  | O => pm
  | S k => let '(pm', changed) := fold_left resolve_group groups (pm, false) in
           if changed then resolve_rounds k pm' else pm'
  end.

Definition resolveGinPrefixes : gmap string string := resolve_rounds (S (length groups)) seed.
End prefixes.

(** ** Prefixes passed to registrars *)

Definition call_before : registrarCall -> registrarCall -> bool :=
  less_by rc_file str_ltb (fun a b => (rc_line a <? rc_line b)%Z).

(** What a call passes: the file and the parameter it seeds, and the prefix. *)
Definition passes (ginPrefixByFile : gmap string (gmap string string)) (funcs : gmap string registrarFunc)
    (c : registrarCall) : option (string * string * string) :=
  callerPrefixes ← ginPrefixByFile !! rc_file c;
  fullPrefix ← callerPrefixes !! rc_arg c;
  rf ← funcs !! rc_callee c;
  Some (rf_defFile rf, rf_param rf, fullPrefix).

(** [prev <= fullPrefix] keeps the earlier prefix. *)
Definition add_seed (seeds : gmap string (gmap string string)) (p : string * string * string) :
    gmap string (gmap string string) :=
  let '(file, param, fullPrefix) := p in
  let seed := default ∅ (seeds !! file) in
  match seed !! param with
  | Some prev => if str_ltb fullPrefix prev then <[file := <[param := fullPrefix]> seed]> seeds else seeds
  | None => <[file := <[param := fullPrefix]> seed]> seeds
  end.

Definition seedByFile (f : groupFacts) (ginPrefixByFile : gmap string (gmap string string)) :
    gmap string (gmap string string) :=
  fold_left add_seed (omap (passes ginPrefixByFile (registrarFuncs f)) (sort_slice call_before (registrarCalls f))) ∅.

(** The prefixes of every file; the second loop replaces those of the files
    that got seeds. *)
Definition gin_prefixes (f : groupFacts) : gmap string (gmap string string) :=
  let ginPrefixByFile := (fun groups => resolveGinPrefixes groups ∅) <$> ginGroupsByFile f in
  map_imap (fun file seed => Some (resolveGinPrefixes (get_all (ginGroupsByFile f) file) seed)) (seedByFile f ginPrefixByFile)
    ∪ ginPrefixByFile.

(** ** Stamping *)

Definition setPath (n : Node) (path : string) : Node :=
  let old := meta_of n "path" in
  if str_eqb path old then n
  else
    let n' := set_meta (<["full_path" := path]> (<["path" := path]> (n_Meta n))) n in
    let method := meta_of n' "method" in
    if str_eqb (n_Label n') (method +:+ " " +:+ old) then set_label (method +:+ " " +:+ path) n' else n'.

Definition encloses (n : Node) (g : chiGroup) : bool :=
  (0 <? cg_endLine g)%Z && (cg_line g <? n_Line n)%Z && (n_Line n <=? cg_endLine g)%Z.

Definition composed_already (n : Node) : bool :=
  has_meta n "full_path" && str_eqb (meta_of n "full_path") (meta_of n "path").

(** The prefix the groups give a route, when they give one. *)
Definition route_prefix (gin : gmap string (gmap string string)) (chi : gmap string (list chiGroup)) (n : Node) : option string :=
  let router := meta_of n "router" in
  match pm ← gin !! n_File n; if str_eqb router "" then None else pm !! router with
  | Some fullPrefix => Some fullPrefix
  | None =>
      match List.filter (encloses n) (get_all chi (n_File n)) with
      | [] => None
      | containing => Some (fold_left (fun p g => p +:+ cg_prefix g)
          (sort_slice (fun a b => (cg_line a <? cg_line b)%Z) containing) "")
      end
  end.

Definition is_route (n : Node) : bool := is_type n NodeTypeHTTPHandler && negb (is_gin n || is_chi n).

Definition stamp (gin : gmap string (gmap string string)) (chi : gmap string (list chiGroup)) (n : Node) : Node :=
  if negb (is_route n) || composed_already n then n
  else match route_prefix gin chi n with
       | Some fullPrefix => setPath n (fullPrefix +:+ meta_of n "path")
       | None => n
       end.

Definition EnrichRouteGroups (nodes : list Node) : list Node :=
  let f := collect_groups nodes in map (stamp (gin_prefixes f) (chiGroupsByFile f)) nodes.

(** ** The prefixes are those of the chains *)

Section chains.
Context (groups : list ginGroup) (seed : gmap string string).
Notation known := (knownVars groups seed).

(** The full prefix of a variable: a parameter's is the one passed to it, a
    group on a router that is no group starts a chain, a group on another
    group extends its chain. *)
Inductive prefix_of : string -> string -> Prop :=
| Seeded v p : seed !! v = Some p -> prefix_of v p
| AtRoot g : g ∈ groups -> seed !! gg_varName g = None -> gg_receiver g ∉ known ->
    prefix_of (gg_varName g) (gg_prefix g)
| Nested g p : g ∈ groups -> seed !! gg_varName g = None -> prefix_of (gg_receiver g) p ->
    prefix_of (gg_varName g) (p +:+ gg_prefix g).

Lemma prefix_known v p : prefix_of v p -> v ∈ known.
Proof.
  unfold knownVars. rewrite elem_of_union, elem_of_list_to_set, list_elem_of_fmap.
  destruct 1; [right; by apply elem_of_dom_2 in H|left; by eexists..].
Qed.

(** Nothing can be said of the group yet, or it is done. *)
Definition settled (pm : gmap string string) (g : ginGroup) : Prop :=
  is_Some (pm !! gg_varName g) \/ gg_receiver g ∈ known /\ pm !! gg_receiver g = None.

Lemma round_spec l pm c pm' c' : fold_left (resolve_group groups seed) l (pm, c) = (pm', c') ->
  pm ⊆ pm' /\ (c' = false -> c = false /\ pm' = pm /\ forall g, g ∈ l -> settled pm g) /\
  (c = false -> c' = true -> exists g, g ∈ l /\ pm !! gg_varName g = None /\ is_Some (pm' !! gg_varName g)).
Proof.
  revert pm c. induction l as [|g l IH]; intros pm c; cbn [fold_left].
  { intros [= <- <-]. split_and!; [done| |by intros ->]. intros ->. split_and!; [done..|]. by intros g ?%elem_of_nil. }
  destruct (resolve_group groups seed (pm, c) g) as [pm1 c1] eqn:E. intros (H1 & H2 & H3)%IH.
  assert (Hg : pm1 = pm /\ c1 = c /\ settled pm g \/ c1 = true /\ pm !! gg_varName g = None /\ exists p, pm1 = <[gg_varName g := p]> pm).
  { revert E. unfold resolve_group, settled. destruct (pm !! gg_varName g) eqn:Ev; [intros [= <- <-]; left; eauto|].
    case_decide; [|intros [= <- <-]; right; eauto]. destruct (pm !! gg_receiver g) eqn:Er; intros [= <- <-]; [right|left]; eauto. }
  destruct Hg as [(-> & -> & Hs)|(-> & Hn & p & ->)].
  - split; [done|]. split.
    + intros Hc. destruct (H2 Hc) as (-> & -> & Hl). split_and!; [done..|]. intros g' [->|?]%elem_of_cons; auto.
    + intros Hc Hc'. destruct (H3 Hc Hc') as (g' & Hg' & ?). exists g'. split; [by right|done].
  - assert (Hsub : pm ⊆ <[gg_varName g := p]> pm) by by apply insert_subseteq.
    split; [by etrans|]. split; [intros Hc; by destruct (H2 Hc)|]. intros _ _. exists g. split; [left|]. split; [done|].
    eapply lookup_weaken_is_Some, H1. rewrite lookup_insert_eq. eauto.
Qed.

Definition pending (pm : gmap string string) : nat :=
  length (List.filter (fun g => bool_decide (pm !! gg_varName g = None)) groups).

Lemma pending_decreases pm pm' g : pm ⊆ pm' -> g ∈ groups -> pm !! gg_varName g = None -> is_Some (pm' !! gg_varName g) ->
  pending pm' < pending pm.
Proof.
  intros Hsub Hg Hn Hs. unfold pending. revert Hg. induction groups as [|x l IH]; [by intros ?%elem_of_nil|].
  assert (Hle : length (List.filter (fun g => bool_decide (pm' !! gg_varName g = None)) l) <=
    length (List.filter (fun g => bool_decide (pm !! gg_varName g = None)) l)).
  { clear -Hsub. induction l as [|x l IH]; [done|]. cbn. repeat case_bool_decide; cbn; [lia| |lia..].
    exfalso. apply H0. eapply lookup_weaken_None; done. }
  intros [->|Hl]%elem_of_cons; cbn.
  - rewrite (bool_decide_eq_true_2 _ Hn), bool_decide_eq_false_2 by (intros E; rewrite E in Hs; by destruct Hs). cbn. lia.
  - specialize (IH Hl). repeat case_bool_decide; cbn; [lia| |lia..]. exfalso. apply H0. by eapply lookup_weaken_None.
Qed.

Lemma rounds_settled n pm : pending pm < n ->
  pm ⊆ resolve_rounds groups seed n pm /\ forall g, g ∈ groups -> settled (resolve_rounds groups seed n pm) g.
Proof.
  revert pm. induction n as [|n IH]; intros pm Hn; [lia|]. cbn [resolve_rounds].
  destruct (fold_left _ groups (pm, false)) as [pm' c] eqn:E. apply round_spec in E as (H1 & H2 & H3).
  destruct c; [|by destruct (H2 eq_refl) as (_ & -> & H)].
  destruct (H3 eq_refl eq_refl) as (g & Hg & Hn1 & Hs). pose proof (pending_decreases pm pm' g H1 Hg Hn1 Hs).
  destruct (IH pm') as [H4 H5]; [lia|]. split; [by etrans|done].
Qed.

Definition sound_prefixes (pm : gmap string string) : Prop := forall v p, pm !! v = Some p -> prefix_of v p.

Lemma rounds_sound n pm : seed ⊆ pm -> sound_prefixes pm -> sound_prefixes (resolve_rounds groups seed n pm).
Proof.
  assert (Hround : forall l pm c, (forall g, g ∈ l -> g ∈ groups) -> seed ⊆ pm -> sound_prefixes pm ->
    seed ⊆ (fold_left (resolve_group groups seed) l (pm, c)).1 /\
    sound_prefixes (fold_left (resolve_group groups seed) l (pm, c)).1).
  { induction l as [|g l IH]; intros pm0 c Hl Hs Hp; [done|]. cbn [fold_left]. unfold resolve_group at 2 4.
    assert (Hg : g ∈ groups) by (apply Hl; left).
    assert (Hl' : forall g, g ∈ l -> g ∈ groups) by (intros; apply Hl; by right).
    destruct (pm0 !! gg_varName g) eqn:Ev; [by apply IH|].
    assert (Hseed : seed !! gg_varName g = None) by by eapply lookup_weaken_None.
    assert (Hins : forall p, prefix_of (gg_varName g) p ->
      seed ⊆ <[gg_varName g := p]> pm0 /\ sound_prefixes (<[gg_varName g := p]> pm0)).
    { intros p Hgp. split; [etrans; [done|by apply insert_subseteq]|]. intros v q. rewrite lookup_insert.
      case_decide; [|apply Hp]. intros [= <-]. by subst v. }
    case_decide as Hk.
    - destruct (pm0 !! gg_receiver g) eqn:Er; [|by apply IH]. destruct (Hins (s +:+ gg_prefix g)) as [? ?]; [|by apply IH].
      apply Nested; auto.
    - destruct (Hins (gg_prefix g)) as [? ?]; [by apply AtRoot|by apply IH]. }
  revert pm. induction n as [|n IH]; intros pm Hs Hp; [done|]. cbn [resolve_rounds].
  destruct (Hround groups pm false) as [H1 H2]; [done..|]. destruct (fold_left _ groups _) as [pm' []]; [by apply IH|done].
Qed.

(** Every prefix found is that of a chain, and every chain is found. *)
Lemma resolve_spec v :
  (forall p, resolveGinPrefixes groups seed !! v = Some p -> prefix_of v p) /\
  ((exists p, prefix_of v p) -> is_Some (resolveGinPrefixes groups seed !! v)).
Proof.
  assert (Hseed : sound_prefixes seed) by (intros w q; apply Seeded). split; [by apply rounds_sound|].
  intros [p Hp]. destruct (rounds_settled (S (length groups)) seed) as [Hsub Hset].
  { unfold pending. pose proof (List.filter_length_le (fun g => bool_decide (seed !! gg_varName g = None)) groups). lia. }
  fold (resolveGinPrefixes groups seed) in Hsub, Hset. induction Hp as [v p Hv|g Hg Hn Hk|g p Hg Hn Hp IH].
  - by eapply lookup_weaken_is_Some.
  - by destruct (Hset g Hg) as [?|[? _]].
  - destruct (Hset g Hg) as [?|[_ E]]; [done|]. rewrite E in IH. by destruct IH.
Qed.

(** Where no two groups share a variable, a variable has one prefix. *)
Lemma prefix_unique : (forall g g', g ∈ groups -> g' ∈ groups -> gg_varName g = gg_varName g' -> g = g') ->
  forall v p p', prefix_of v p -> prefix_of v p' -> p = p'.
Proof.
  intros Hu v p p' Hp. revert p'. induction Hp as [v p Hv|g Hg Hn Hk|g p Hg Hn Hp IH]; intros p' Hp'.
  - inversion Hp'; subst; congruence.
  - inversion Hp' as [? ? Hs|g' Hg' ? ? E|g' q Hg' ? Hq E]; subst; [congruence|by rewrite (Hu g' g Hg' Hg E)|].
    rewrite (Hu g' g Hg' Hg E) in Hq. by apply prefix_known in Hq.
  - inversion Hp' as [? ? Hs|g' Hg' ? Hk E|g' q Hg' ? Hq E]; subst; [congruence| |].
    + rewrite (Hu g' g Hg' Hg E) in Hk. by apply prefix_known in Hp.
    + rewrite (Hu g' g Hg' Hg E) in *. by rewrite (IH q).
Qed.
End chains.

(** A variable has, in the map the fixpoint computes, the prefix of its chain. *)
Theorem resolveGinPrefixes_exact groups seed :
  (forall g g', g ∈ groups -> g' ∈ groups -> gg_varName g = gg_varName g' -> g = g') ->
  forall v p, resolveGinPrefixes groups seed !! v = Some p <-> prefix_of groups seed v p.
Proof.
  intros Hu v p. destruct (resolve_spec groups seed v) as [H1 H2]. split; [apply H1|]. intros Hp.
  destruct H2 as [q Hq]; [by exists p|]. by rewrite Hq, (prefix_unique groups seed Hu v p q Hp (H1 q Hq)).
Qed.

Lemma resolveGinPrefixes_exact_witness :
  resolveGinPrefixes [mkGin "users" "/users" "api" 3; mkGin "api" "/v1" "r" 2] ∅ !! "users" = Some "/v1/users".
Proof.
  apply (resolveGinPrefixes_exact [mkGin "users" "/users" "api" 3; mkGin "api" "/v1" "r" 2] ∅).
  - intros g g' Hg Hg'. rewrite !elem_of_cons, elem_of_nil in Hg, Hg'. naive_solver.
  - apply (Nested _ _ (mkGin "users" "/users" "api" 3) "/v1"); [left|reflexivity|].
    apply (AtRoot _ _ (mkGin "api" "/v1" "r" 2)); [right; left|reflexivity|vm_compute; set_solver].
Defined.

(** Two functions of one file that give their groups the same name share the
    prefix of the first: the line of a group is recorded and never looked at. *)
Example same_name_groups :
  resolveGinPrefixes [mkGin "api" "/v1" "r" 2; mkGin "api" "/v2" "r" 10] ∅ !! "api" = Some "/v1".
Proof. reflexivity. Qed.

(** ** The prefixes passed to registrars *)

Definition seed_at (seeds : gmap string (gmap string string)) (file param : string) : option string :=
  default ∅ (seeds !! file) !! param.

(** The least prefix passed. *)
Definition least_passed (passed : string -> Prop) (o : option string) : Prop :=
  match o with
  | Some p => passed p /\ forall q, passed q -> str_ltb q p = false
  | None => forall q, ~ passed q
  end.

Lemma least_passed_ext (P Q : string -> Prop) o : (forall p, P p <-> Q p) -> least_passed P o <-> least_passed Q o.
Proof. intros H. destruct o; cbn; setoid_rewrite H; done. Qed.

Lemma add_seed_at seeds file param p file' param' :
  seed_at (add_seed seeds (file, param, p)) file' param' =
    if decide (file' = file /\ param' = param) then
      match seed_at seeds file param with
      | Some prev => if str_ltb p prev then Some p else Some prev
      | None => Some p
      end
    else seed_at seeds file' param'.
Proof.
  unfold add_seed, seed_at.
  assert (Hins : (default ∅ (<[file := <[param := p]> (default ∅ (seeds !! file))]> seeds !! file') : gmap string string) !! param' =
    if decide (file' = file /\ param' = param) then Some p else (default ∅ (seeds !! file') : gmap string string) !! param').
  { destruct (decide (file' = file)) as [->|Hf].
    - rewrite lookup_insert_eq. cbn [default from_option id]. rewrite lookup_insert. repeat case_decide; naive_solver.
    - rewrite lookup_insert_ne by done. case_decide; naive_solver. }
  destruct (_ !! param) as [prev|] eqn:E; [|by rewrite Hins].
  destruct (str_ltb p prev); [by rewrite Hins|]. case_decide as D; [|done]. destruct D as [-> ->]. by rewrite E.
Qed.

Lemma seeds_least l file param :
  least_passed (fun p => (file, param, p) ∈ l) (seed_at (fold_left add_seed l ∅) file param).
Proof.
  induction l as [|[[f a] p] l IH] using rev_ind.
  { cbn [fold_left]. unfold seed_at. rewrite lookup_empty. cbn. rewrite lookup_empty. by intros q ?%elem_of_nil. }
  rewrite fold_left_app. cbn [fold_left]. rewrite add_seed_at.
  apply (least_passed_ext (fun q => (file, param, q) ∈ l \/ (file, param, q) = (f, a, p)));
    [intros q; by rewrite elem_of_app, list_elem_of_singleton|].
  case_decide as D.
  - destruct D as [-> ->]. destruct (seed_at _ f a) as [prev|]; cbn in IH |- *.
    + destruct IH as [Hp Hl]. destruct (str_ltb p prev) eqn:E; cbn; (split; [auto|]).
      * intros q [Hq|[= ->]]; [|apply str_ltb_irrefl]. apply not_true_iff_false. intros Hlt.
        rewrite (less_negtrans (less := str_ltb) q prev p) in Hlt; [done|by apply Hl|by apply less_asym].
      * intros q [Hq|[= ->]]; auto.
    + split; [auto|]. intros q [Hq|[= ->]]; [by destruct (IH q)|apply str_ltb_irrefl].
  - eapply least_passed_ext, IH. intros q. split; [|by left]. by intros [H|[= -> -> _]]; [|destruct D].
Qed.

(** What the calls of a workspace pass to a parameter. *)
Definition passed_to (f : groupFacts) (gin : gmap string (gmap string string)) (file param p : string) : Prop :=
  exists c rf pm, c ∈ registrarCalls f /\ gin !! rc_file c = Some pm /\ pm !! rc_arg c = Some p /\
    registrarFuncs f !! rc_callee c = Some rf /\ rf_defFile rf = file /\ rf_param rf = param.

(** A registrar's parameter is seeded with the least of the prefixes its calls
    pass, whatever order the calls come in. *)
Theorem seedByFile_least f gin file param :
  least_passed (passed_to f gin file param) (seed_at (seedByFile f gin) file param).
Proof.
  assert (Hiff : forall p, (file, param, p) ∈ omap (passes gin (registrarFuncs f)) (sort_slice call_before (registrarCalls f)) <->
    passed_to f gin file param p).
  { intros p. rewrite list_elem_of_omap. unfold passed_to, passes. setoid_rewrite elem_of_sort_slice. split.
    - intros (c & Hc & E). apply bind_Some in E as (pm & Hpm & E). apply bind_Some in E as (q & Hq & E).
      apply bind_Some in E as (rf & Hrf & E). injection E as <- <- <-. by exists c, rf, pm.
    - intros (c & rf & pm & Hc & Hpm & Hq & Hrf & <- & <-). exists c. split; [done|]. by rewrite Hpm; cbn; rewrite Hq; cbn; rewrite Hrf. }
  eapply least_passed_ext, seeds_least. intros p. by rewrite Hiff.
Qed.

(** ** Stamping *)

Lemma setPath_meta n path k : k <> "path" -> k <> "full_path" -> meta_of (setPath n path) k = meta_of n k.
Proof.
  intros H1 H2. unfold setPath. destruct (str_eqb path _); [done|]. unfold meta_of, meta_get.
  destruct (str_eqb (n_Label _) _); cbn; by rewrite !lookup_insert_ne.
Qed.
Lemma setPath_path n path : meta_of (setPath n path) "path" = path.
Proof.
  unfold setPath. destruct (Stdlib.Strings.String.eqb_spec path (meta_of n "path")) as [->|E]; [done|].
  unfold meta_of, meta_get. destruct (str_eqb (n_Label _) _); cbn; by rewrite lookup_insert_ne, lookup_insert_eq.
Qed.
Lemma setPath_full n path : path <> meta_of n "path" -> meta_of (setPath n path) "full_path" = path.
Proof.
  intros H. unfold setPath. destruct (Stdlib.Strings.String.eqb_spec path (meta_of n "path")); [done|].
  unfold meta_of, meta_get. destruct (str_eqb (n_Label _) _); cbn; by rewrite lookup_insert_eq.
Qed.
Lemma setPath_rest n path : let n' := setPath n path in
  (n_ID n', n_Type n', n_Service n', n_File n', n_Line n', n_EndLine n', n_Language n', n_Snippet n') =
  (n_ID n, n_Type n, n_Service n, n_File n, n_Line n, n_EndLine n, n_Language n, n_Snippet n).
Proof. unfold setPath. destruct (str_eqb path _); [done|]. by destruct (str_eqb (n_Label _) _). Qed.

Lemma setPath_is_route n path : is_route (setPath n path) = is_route n.
Proof.
  unfold is_route, is_type, is_gin, is_chi. rewrite setPath_meta by done.
  pose proof (setPath_rest n path) as H. cbn in H. by injection H as _ -> _.
Qed.

Lemma stamp_is_route gin chi n : is_route (stamp gin chi n) = is_route n.
Proof.
  unfold stamp. destruct (negb (is_route n) || _); [done|]. destruct (route_prefix gin chi n); [|done].
  apply setPath_is_route.
Qed.

Lemma stamp_twice gin chi n : stamp gin chi (stamp gin chi n) = stamp gin chi n.
Proof.
  unfold stamp at 2 3. destruct (negb (is_route n) || composed_already n) eqn:E; [by unfold stamp; rewrite E|].
  destruct (route_prefix gin chi n) as [p|] eqn:Ep; [|by unfold stamp; rewrite E, Ep].
  destruct (decide (p +:+ meta_of n "path" = meta_of n "path")) as [Eq|Ne].
  - assert (Hn : setPath n (p +:+ meta_of n "path") = n).
    { unfold setPath. by rewrite Eq, (proj2 (Stdlib.Strings.String.eqb_eq _ _) eq_refl). }
    unfold stamp. rewrite Hn, E, Ep. done.
  - unfold stamp. assert (composed_already (setPath n (p +:+ meta_of n "path")) = true) as ->; [|by rewrite orb_true_r].
    unfold composed_already, has_meta. rewrite setPath_path, setPath_full by done.
    rewrite (proj2 (Stdlib.Strings.String.eqb_eq _ _) eq_refl), andb_true_r. apply negb_true_iff, Stdlib.Strings.String.eqb_neq.
    intros E0. apply Ne. destruct p; [by cbn|by cbn in E0].
Qed.

(** A route is no fact about groups, stamped or not. *)
Lemma collect_stamp gin chi f n : collect_group f (stamp gin chi n) = collect_group f n.
Proof.
  assert (Hroute : forall m, is_route m = true -> collect_group f m = f).
  { intros m [Ht Hg]%andb_true_iff. apply negb_true_iff, orb_false_iff in Hg as [Hg Hc]. unfold collect_group.
    apply Stdlib.Strings.String.eqb_eq in Ht. unfold is_type. rewrite Ht, Hg, Hc. done. }
  destruct (is_route n) eqn:E; [|by unfold stamp; rewrite E].
  by rewrite !Hroute by (rewrite ?stamp_is_route; done).
Qed.

Lemma collect_groups_stamp gin chi nodes : collect_groups (map (stamp gin chi) nodes) = collect_groups nodes.
Proof.
  unfold collect_groups. generalize no_facts. induction nodes as [|n l IH]; intros f; cbn; [done|]. by rewrite collect_stamp.
Qed.

(** The pass changes nothing when it is run over what it returned: no prefix is
    ever put before a path twice. *)
Theorem EnrichRouteGroups_idempotent nodes : EnrichRouteGroups (EnrichRouteGroups nodes) = EnrichRouteGroups nodes.
Proof.
  unfold EnrichRouteGroups. cbn zeta. rewrite collect_groups_stamp, map_map.
  apply map_ext. intros n. apply stamp_twice.
Qed.

(** The groups declared in a file. *)
Definition gin_groups_in (nodes : list Node) (file : string) : list ginGroup :=
  omap gin_group (List.filter (fun n => str_eqb (n_File n) file && is_gin n &&
    (is_type n NodeTypeHTTPHandler || is_type n NodeTypeRouteGroup)) nodes).

Lemma get_all_append_at {V} (m : gmap string (list V)) k v k' :
  get_all (append_at m k v) k' = get_all m k' ++ (if decide (k' = k) then [v] else []).
Proof.
  unfold append_at, get_all. case_decide as D; [subst; by rewrite lookup_insert_eq|].
  by rewrite lookup_insert_ne, app_nil_r.
Qed.

Lemma collect_gin nodes file : get_all (ginGroupsByFile (collect_groups nodes)) file = gin_groups_in nodes file.
Proof.
  unfold collect_groups. induction nodes as [|n l IH] using rev_ind; [done|]. rewrite fold_left_app. cbn [fold_left].
  unfold gin_groups_in. rewrite List.filter_app, omap_app. fold (gin_groups_in l file). rewrite <- IH.
  generalize (fold_left collect_group l no_facts). clear. intros f. cbn [List.filter]. unfold collect_group.
  destruct (is_type n NodeTypeVariable) eqn:Ev.
  { apply Stdlib.Strings.String.eqb_eq in Ev. unfold is_type. rewrite Ev, andb_false_r. cbn. rewrite app_nil_r.
    by repeat case_match. }
  destruct (is_type n NodeTypeHTTPHandler || is_type n NodeTypeRouteGroup) eqn:Et; rewrite <- negb_orb, Et; cbn [negb].
  2: { by rewrite andb_false_r, app_nil_r. }
  rewrite andb_true_r. destruct (is_gin n) eqn:Eg; [|rewrite andb_false_r; cbn; rewrite app_nil_r; by repeat case_match].
  rewrite andb_true_r. destruct (gin_group n) as [g|] eqn:Egg.
  - cbn [ginGroupsByFile]. rewrite get_all_append_at. f_equal.
    destruct (Stdlib.Strings.String.eqb_spec (n_File n) file) as [E|E]; case_decide; try congruence; cbn; by rewrite ?Egg.
  - destruct (str_eqb _ _); cbn; by rewrite ?Egg, app_nil_r.
Qed.

Definition seeds_in (nodes : list Node) (file : string) : gmap string string :=
  let f := collect_groups nodes in
  default ∅ (seedByFile f ((fun groups => resolveGinPrefixes groups ∅) <$> ginGroupsByFile f) !! file).

Lemma resolve_nothing : resolveGinPrefixes [] ∅ = ∅.
Proof. done. Qed.

Lemma gin_prefixes_lookup nodes file v :
  (pm ← gin_prefixes (collect_groups nodes) !! file; pm !! v) =
  resolveGinPrefixes (gin_groups_in nodes file) (seeds_in nodes file) !! v.
Proof.
  unfold gin_prefixes, seeds_in. set (f := collect_groups nodes). rewrite lookup_union, map_lookup_imap, lookup_fmap.
  rewrite <- collect_gin. fold f. destruct (seedByFile f _ !! file) as [seed|]; cbn.
  - by destruct (ginGroupsByFile f !! file).
  - unfold get_all. by destruct (ginGroupsByFile f !! file).
Qed.

Lemma append_prefixes cs p : fold_left (fun p g => p +:+ cg_prefix g) cs p = p +:+ Join "" (map cg_prefix cs).
Proof.
  revert p. induction cs as [|g cs IH]; intros p; cbn [fold_left map]; [cbn; by rewrite str_app_nil|].
  rewrite IH, str_app_assoc. f_equal. destruct cs; cbn; [by rewrite str_app_nil|done].
Qed.

(** The groups of functions declared in a file. *)
Definition chi_groups_in (nodes : list Node) (file : string) : list chiGroup :=
  omap chi_group (List.filter (fun n => str_eqb (n_File n) file && negb (is_gin n) && is_chi n &&
    (is_type n NodeTypeHTTPHandler || is_type n NodeTypeRouteGroup)) nodes).

Lemma collect_chi nodes file : get_all (chiGroupsByFile (collect_groups nodes)) file = chi_groups_in nodes file.
Proof.
  unfold collect_groups. induction nodes as [|n l IH] using rev_ind; [done|]. rewrite fold_left_app. cbn [fold_left].
  unfold chi_groups_in. rewrite List.filter_app, omap_app. fold (chi_groups_in l file). rewrite <- IH.
  generalize (fold_left collect_group l no_facts). clear. intros f. cbn [List.filter]. unfold collect_group.
  destruct (is_type n NodeTypeVariable) eqn:Ev.
  { apply Stdlib.Strings.String.eqb_eq in Ev. unfold is_type. rewrite Ev, andb_false_r. cbn. rewrite app_nil_r.
    by repeat case_match. }
  destruct (is_type n NodeTypeHTTPHandler || is_type n NodeTypeRouteGroup) eqn:Et; rewrite <- negb_orb, Et; cbn [negb].
  2: { by rewrite andb_false_r, app_nil_r. }
  rewrite andb_true_r. destruct (is_gin n) eqn:Eg; cbn [negb].
  { rewrite andb_false_r. cbn. rewrite app_nil_r. by destruct (gin_group n). }
  rewrite andb_true_r. destruct (is_chi n) eqn:Ec; [|rewrite andb_false_r; cbn; by rewrite app_nil_r].
  rewrite andb_true_r. destruct (chi_group n) as [g|] eqn:Egg.
  - cbn [chiGroupsByFile]. rewrite get_all_append_at. f_equal.
    destruct (Stdlib.Strings.String.eqb_spec (n_File n) file) as [E|E]; case_decide; try congruence; cbn; by rewrite ?Egg.
  - destruct (str_eqb _ _); cbn; by rewrite ?Egg, app_nil_r.
Qed.

(** A handler that is no group and carries no composed path. *)
Definition raw_route (n : Node) : Prop :=
  n_Type n = NodeTypeHTTPHandler /\ HasPrefix (meta_of n "pattern") "gin_route_group" = false /\
  HasPrefix (meta_of n "pattern") "chi_route_group" = false /\
  ~ (meta_of n "full_path" <> "" /\ meta_of n "full_path" = meta_of n "path").

(** The node with a prefix before its path: the path and its copy are
    rewritten, the label where it was made of the method and the old path, and
    nothing else; an empty prefix changes nothing at all. *)
Definition composed (prefix : string) (n : Node) : Node :=
  if decide (prefix = "") then n
  else
    let path := prefix +:+ meta_of n "path" in
    let label := if decide (n_Label n = meta_of n "method" +:+ " " +:+ meta_of n "path")
                 then meta_of n "method" +:+ " " +:+ path else n_Label n in
    mkNode (n_ID n) (n_Type n) label (n_Service n) (n_File n) (n_Line n) (n_EndLine n) (n_Language n)
      (<["full_path" := path]> (<["path" := path]> (n_Meta n))) (n_Snippet n).

Lemma app_own_nil (p s : string) : p +:+ s = s -> p = "".
Proof. intros H. pose proof (str_len_app p s) as Hl. rewrite H in Hl. destruct p; [done|]. cbn in Hl. lia. Qed.

Lemma setPath_composed p n : setPath n (p +:+ meta_of n "path") = composed p n.
Proof.
  unfold setPath, composed. destruct (Stdlib.Strings.String.eqb_spec (p +:+ meta_of n "path") (meta_of n "path")) as [E|E].
  { by rewrite decide_True by by eapply app_own_nil. }
  rewrite decide_False by (intros ->; by destruct E).
  assert (Hm : meta_of (set_meta (<["full_path":=p +:+ meta_of n "path"]> (<["path":=p +:+ meta_of n "path"]> (n_Meta n))) n) "method"
    = meta_of n "method") by (unfold meta_of, meta_get; cbn; by rewrite !lookup_insert_ne).
  rewrite Hm. cbn [n_Label set_meta].
  destruct (Stdlib.Strings.String.eqb_spec (n_Label n) (meta_of n "method" +:+ " " +:+ meta_of n "path")) as [El|El].
  - by rewrite decide_True.
  - by rewrite decide_False.
Qed.

Lemma raw_route_spec n : raw_route n <-> negb (is_route n) || composed_already n = false.
Proof.
  unfold raw_route, is_route, composed_already, has_meta, is_type, is_gin, is_chi.
  rewrite orb_false_iff, negb_false_iff, andb_true_iff, negb_true_iff, orb_false_iff, andb_false_iff, negb_false_iff.
  rewrite !Stdlib.Strings.String.eqb_eq, Stdlib.Strings.String.eqb_neq.
  destruct (decide (meta_of n "full_path" = "")); tauto.
Qed.

(** The prefix passed to a parameter of a file by the calls of the workspace:
    that of the group the call names, in the file of the call. *)
Definition passed_by (nodes : list Node) : string -> string -> string -> Prop :=
  let f := collect_groups nodes in
  passed_to f ((fun groups => resolveGinPrefixes groups ∅) <$> ginGroupsByFile f).

#[local] Instance cg_line_weak : WeakLess (fun a b => (cg_line a <? cg_line b)%Z).
Proof. split; intros; lia. Qed.

(** The functions a route lies in, outermost first, lines tied in any order. *)
Definition enclosing (nodes : list Node) (n : Node) (gs : list chiGroup) : Prop :=
  gs ≡ₚ List.filter (fun g => (0 <? cg_endLine g)%Z && (cg_line g <? n_Line n)%Z && (n_Line n <=? cg_endLine g)%Z)
          (chi_groups_in nodes (n_File n)) /\
  StronglySorted (fun a b => (cg_line a <= cg_line b)%Z) gs.

Lemma enclosing_sorted nodes n :
  enclosing nodes n (sort_slice (fun a b => (cg_line a <? cg_line b)%Z) (List.filter (encloses n) (chi_groups_in nodes (n_File n)))).
Proof.
  split; [apply sort_slice_perm|]. pose proof (sort_slice_sorted (fun a b => (cg_line a <? cg_line b)%Z)
    (List.filter (encloses n) (chi_groups_in nodes (n_File n)))) as H.
  induction H as [|g gs _ IH Hg]; constructor; [done|]. eapply Forall_impl; [exact Hg|].
  intros x Hx. unfold may_precede in Hx. lia.
Qed.

(** C21: the pass returns the nodes in order and run again changes nothing.  A
    node that is no route, a group, or a route composed already stays as it
    is.  Any other route whose router has a chain of groups in its file gets
    the prefix of a chain of its router before its path, of the only one where
    no two groups of the file share a variable; a chain starts at a router
    that is no group, or at a parameter with the least of the prefixes the
    calls of its function pass.  A route on no group gets those of the groups
    whose functions enclose it, outermost first, and stays as it is where
    there is none.  Nothing else of a route changes but its label, where that
    repeats the path. *)
Theorem EnrichRouteGroups_exact nodes :
  EnrichRouteGroups (EnrichRouteGroups nodes) = EnrichRouteGroups nodes /\
  length (EnrichRouteGroups nodes) = length nodes /\
  (forall file param, least_passed (passed_by nodes file param) (seeds_in nodes file !! param)) /\
  forall i n, nodes !! i = Some n -> exists n', EnrichRouteGroups nodes !! i = Some n' /\
    (~ raw_route n -> n' = n) /\
    let groups := gin_groups_in nodes (n_File n) in
    let router := meta_of n "router" in
    let chain := prefix_of groups (seeds_in nodes (n_File n)) router in
    (raw_route n -> router <> "" -> (exists p, chain p) ->
       exists p, chain p /\ n' = composed p n /\
         ((forall g g', g ∈ groups -> g' ∈ groups -> gg_varName g = gg_varName g' -> g = g') ->
          forall q, chain q -> q = p)) /\
    (raw_route n -> router = "" \/ (forall p, ~ chain p) ->
       exists around, enclosing nodes n around /\
         n' = match around with [] => n | _ => composed (Join "" (map cg_prefix around)) n end).
Proof.
  split; [apply EnrichRouteGroups_idempotent|]. split; [apply length_map|]. split.
  { intros file param. apply seedByFile_least. }
  intros i n Hi. set (f := collect_groups nodes).
  exists (stamp (gin_prefixes f) (chiGroupsByFile f) n).
  split; [unfold EnrichRouteGroups; by rewrite list_lookup_fmap, Hi|]. unfold stamp.
  split; [intros H; rewrite raw_route_spec in H; by destruct (negb _ || _)|].
  cbn zeta. set (groups := gin_groups_in nodes (n_File n)). set (router := meta_of n "router").
  set (seed := seeds_in nodes (n_File n)).
  assert (Hl : (pm ← gin_prefixes f !! n_File n; pm !! router) = resolveGinPrefixes groups seed !! router)
    by apply gin_prefixes_lookup.
  destruct (resolve_spec groups seed router) as [Hsound Hfound].
  pose proof (enclosing_sorted nodes n) as Henc.
  assert (Hroute : route_prefix (gin_prefixes f) (chiGroupsByFile f) n =
    match (if str_eqb router "" then None else resolveGinPrefixes groups seed !! router) with
    | Some p => Some p
    | None => match sort_slice (fun a b => (cg_line a <? cg_line b)%Z) (List.filter (encloses n) (chi_groups_in nodes (n_File n))) with
        | [] => None | gs => Some (Join "" (map cg_prefix gs)) end end).
  { rewrite <- Hl, <- collect_chi. fold f. unfold route_prefix. fold router.
    set (around := List.filter (encloses n) _).
    assert (Ha : match around with [] => None | containing => Some (fold_left (fun p g => p +:+ cg_prefix g)
        (sort_slice (fun a b => (cg_line a <? cg_line b)%Z) containing) "") end =
      match sort_slice (fun a b => (cg_line a <? cg_line b)%Z) around with [] => None | gs => Some (Join "" (map cg_prefix gs)) end).
    { pose proof (sort_slice_perm (fun a b => (cg_line a <? cg_line b)%Z) around) as Hperm. destruct around as [|g l]; [done|].
      destruct (sort_slice _ (g :: l)) as [|g' l'] eqn:Es; [by apply Permutation_nil_cons in Hperm|].
      by rewrite <- Es, append_prefixes, Es. }
    rewrite <- Ha. destruct (str_eqb router ""), (gin_prefixes f !! n_File n) as [pm|]; cbn; try done; by case_match. }
  rewrite Hroute. clear Hroute. rewrite raw_route_spec.
  destruct (Stdlib.Strings.String.eqb_spec router "") as [Er|Er].
  - split; [done|]. intros -> _. eexists. split; [exact Henc|].
    destruct (sort_slice _ _); [done|]. apply setPath_composed.
  - destruct (resolveGinPrefixes groups seed !! router) as [p|] eqn:E.
    + split; [|intros _ [?|Hno]; [done|]; by destruct (Hno p); apply Hsound].
      intros -> _ _. exists p. split; [by apply Hsound|]. split; [apply setPath_composed|].
      intros Hu q Hq. apply (prefix_unique groups seed Hu router); [done|by apply Hsound].
    + split; [intros _ _ H; by destruct (Hfound H)|]. intros -> _. eexists. split; [exact Henc|].
      destruct (sort_slice _ _); [done|]. apply setPath_composed.
Qed.

Definition demo_group (var prefix receiver : string) (line : Z) : Node :=
  mkNode (var +:+ itoa line) NodeTypeRouteGroup "" "svc" "main.go" line 0 "go"
    (<["pattern" := "gin_route_group"]> (<["var_name" := var]> (<["prefix" := prefix]> {["receiver" := receiver]}))) "".
Definition demo_route : Node :=
  mkNode "r" NodeTypeHTTPHandler "GET /:id" "svc" "main.go" 9 0 "go"
    (<["pattern" := "gin_route"]> (<["router" := "users"]> (<["path" := "/:id"]> {["method" := "GET"]}))) "".
Definition demo_nodes : list Node := [demo_route; demo_group "users" "/users" "api" 3; demo_group "api" "'/v1'" "r" 2].

Lemma EnrichRouteGroups_exact_witness : exists n' p, EnrichRouteGroups demo_nodes !! 0 = Some n' /\
  n' = composed p demo_route /\ p = "/v1/users".
Proof.
  destruct (EnrichRouteGroups_exact demo_nodes) as (_ & _ & _ & H).
  destruct (H 0 demo_route eq_refl) as (n' & Hn & _ & Hc & _).
  assert (Hgroups : gin_groups_in demo_nodes "main.go" = [mkGin "users" "/users" "api" 3; mkGin "api" "/v1" "r" 2])
    by (vm_compute; reflexivity).
  assert (Hchain : prefix_of (gin_groups_in demo_nodes "main.go") (seeds_in demo_nodes "main.go") "users" "/v1/users").
  { apply (Nested _ _ (mkGin "users" "/users" "api" 3) "/v1").
    - rewrite Hgroups. left.
    - vm_compute. reflexivity.
    - apply (AtRoot _ _ (mkGin "api" "/v1" "r" 2)); [rewrite Hgroups; right; left|vm_compute; reflexivity|].
      apply (bool_decide_unpack _); vm_compute; exact I. }
  destruct Hc as (p & _ & -> & Hu).
  - apply raw_route_spec. vm_compute. reflexivity.
  - discriminate.
  - exists "/v1/users". exact Hchain.
  - exists (composed p demo_route), p. split; [exact Hn|]. split; [reflexivity|]. symmetry. apply Hu; [|exact Hchain].
    intros g g' Hg Hg'.
    change (g ∈ [mkGin "users" "/users" "api" 3; mkGin "api" "/v1" "r" 2]) in Hg.
    change (g' ∈ [mkGin "users" "/users" "api" 3; mkGin "api" "/v1" "r" 2]) in Hg'.
    rewrite !elem_of_cons, elem_of_nil in Hg, Hg'.
    destruct Hg as [->|[->|[]]], Hg' as [->|[->|[]]]; intros E; try reflexivity; discriminate E.
Defined.

Example relabelled : map n_Label (EnrichRouteGroups demo_nodes) = ["GET /v1/users/:id"; ""; ""].
Proof. vm_compute. reflexivity. Qed.

(** * Aliases and wrappers *)

Record wrapperEntry : Type := mkWrapper {
  w_Kind : string; w_BaseURL : string; w_Service : string; w_File : string; w_Line : Z
}.
Record wrapperURLTarget : Type := mkTarget { ParamIndex : Z; ParamKey : string }.
Record aliasEntry : Type := mkAlias {
  SourceKind : string; SourceMethod : string; BaseURL : string;
  a_Service : string; a_File : string; a_Line : Z; Count : nat
}.

Definition NodeTypeHTTPClient : NodeType := "http_client".

Definition objCallPriority : list string := ["url"; "uri"; "path"; "endpoint"].

(** fmt.Sprintf("%s\x00%s\x00%d", …) *)
Definition spanKey (n : Node) : string := key3 (n_Service n) (n_File n) (itoa (n_Line n)).
Definition indirKey (service file name : string) : string := key3 service file name.
Definition indir_of (n : Node) (name : string) : string := indirKey (n_Service n) (n_File n) name.

Definition containsAny (s : string) (subs : list string) : bool :=
  existsb (fun sub => negb (str_eqb sub "") && Contains s sub) subs.

Definition inferSourceKindFromPattern (patternName : string) : string :=
  if containsAny patternName ["axios"; "fetch"; "faraday"; "resty"; "net_http"; "httparty"; "jquery"; "http"] then "http"
  else if containsAny patternName ["kafka"] then "kafka"
  else if containsAny patternName ["nats"] then "nats"
  else if containsAny patternName ["redis"] then "redis_pubsub"
  else if containsAny patternName ["amqp"; "bunny"] then "amqp"
  else if containsAny patternName ["pusher"] then "pusher"
  else "http".

Definition isLiteralURL (s : string) : bool :=
  negb (str_eqb s "") && (HasPrefix s "/" || ((4 <? str_len s)%nat && HasPrefix s "http")).

Definition kindToProducerNodeType (kind : string) : NodeType :=
  if bool_decide (kind ∈ ["kafka"; "nats"; "redis_pubsub"; "amqp"; "job"; "pusher"]) then NodeTypePublisher
  else NodeTypeHTTPClient.

Definition stripNodeMeta (n : Node) (key : string) : Node :=
  match n_Meta n !! key with
  | Some _ => set_meta (delete key (n_Meta n)) n
  | None => n
  end.

(** The address behind a base: [meta["url"]], or [meta["path"]] when it is
    empty, and the composition stored under both. *)
Definition compose_base (baseURL : string) (m : Meta) : Meta :=
  if str_eqb baseURL "" then m
  else
    let path := if str_eqb (meta_get m "url") "" then meta_get m "path" else meta_get m "url" in
    <["path" := baseURL +:+ path]> (<["url" := baseURL +:+ path]> m).

Definition applyAliasRes (n : Node) (sourceKind sourceMethod baseURL : string) : Node :=
  let m := compose_base baseURL (n_Meta n) in
  let m := if negb (str_eqb sourceMethod "") && str_eqb (meta_get m "method") "" then <["method" := sourceMethod]> m else m in
  set_meta (<["via" := "alias"]> (delete "via_alias" m)) (set_type (kindToProducerNodeType sourceKind) n).

Definition applyWrapperRes (n : Node) (w : wrapperEntry) : Node :=
  set_meta (<["via" := "wrapper"]> (delete "wrapper_name" (compose_base (w_BaseURL w) (n_Meta n))))
    (set_type (kindToProducerNodeType (w_Kind w)) n).

(** ** The candidates of one call *)

Section candidates.
Context (wrapperURLTable : gmap string wrapperURLTarget).

Definition with_value (key v : string) (group : list Node) : option Node :=
  List.find (fun n => str_eqb (meta_of n key) v) group.

(** What the wrapper a call names says of its parameters. *)
Definition target_of (n : Node) : option wrapperURLTarget :=
  if has_meta n "via_alias" then wrapperURLTable !! indir_of n (meta_of n "via_alias") else None.

(** resolveObjCallGroup on a group whose first node is [g0]. *)
Definition resolveObjCallGroup (g0 : Node) (rest : list Node) : Node * option UnresolvedRef :=
  let group := g0 :: rest in
  match rest with
  | [] => (g0, None)
  | _ =>
      let named := w ← target_of g0; if str_eqb (ParamKey w) "" then None else with_value "key" (ParamKey w) group in
      match or_else named (head (omap (fun want => with_value "key" want group) objCallPriority)) with
      | Some n => (n, None)
      | None => (g0, Some (ledger g0 (meta_of g0 "via_alias") "wrapper_key_ambiguous"))
      end
  end.

Definition resolveURLCallGroup (g0 : Node) (rest : list Node) : Node * option UnresolvedRef :=
  let group := g0 :: rest in
  match rest with
  | [] => (g0, None)
  | _ =>
      match w ← target_of g0; if (0 <=? ParamIndex w)%Z then with_value "arg_index" (itoa (ParamIndex w)) group else None with
      | Some n => (n, None)
      | None => (g0, Some (ledger g0 (meta_of g0 "via_alias") "wrapper_index_ambiguous"))
      end
  end.

(** The groups, each a first node and the others, with the order their spans
    were first seen in, and the nodes that are no candidates. *)
Record candidates : Type := mkCandidates {
  groups : gmap string (Node * list Node); order : list string; others : list Node
}.

Definition add_candidate (pattern : string) (c : candidates) (n : Node) : candidates :=
  if str_eqb (meta_of n "pattern") pattern then
    let k := spanKey n in
    match groups c !! k with
    | Some (g0, rest) => mkCandidates (<[k := (g0, rest ++ [n])]> (groups c)) (order c) (others c)
    | None => mkCandidates (<[k := (n, [])]> (groups c)) (order c ++ [k]) (others c)
    end
  else mkCandidates (groups c) (order c) (others c ++ [n]).

(** The common body of resolveObjCallCandidates and resolveURLCallCandidates. *)
Definition resolve_candidates (pattern key : string) (choose : Node -> list Node -> Node * option UnresolvedRef)
    (nodes : list Node) : list Node * list UnresolvedRef :=
  let c := fold_left (add_candidate pattern) nodes (mkCandidates ∅ [] []) in
  let winners := omap (fun k => p ← groups c !! k; Some (choose (fst p) (snd p))) (order c) in
  (others c ++ map (fun w => stripNodeMeta (fst w) key) winners, omap snd winners).

Definition resolveObjCallCandidates : list Node -> list Node * list UnresolvedRef :=
  resolve_candidates "producer_alias_obj_call" "key" resolveObjCallGroup.
Definition resolveURLCallCandidates : list Node -> list Node * list UnresolvedRef :=
  resolve_candidates "producer_alias_url_call" "arg_index" resolveURLCallGroup.
End candidates.

(** ** The tables *)

Definition is_wrapper_url (n : Node) : bool := HasPrefix (meta_of n "pattern") "wrapper_url_".

Definition url_target_key (n : Node) : option string :=
  if is_wrapper_url n && has_meta n "wrapper_name" then Some (indir_of n (meta_of n "wrapper_name")) else None.
Definition url_target (n : Node) : wrapperURLTarget :=
  let '(parsed, ok) := Atoi (meta_of n "param_index") in
  mkTarget (if has_meta n "param_index" && ok then parsed else -1) (meta_of n "url_key").

Definition with_count (c : nat) (e : aliasEntry) : aliasEntry :=
  mkAlias (SourceKind e) (SourceMethod e) (BaseURL e) (a_Service e) (a_File e) (a_Line e) c.

(** One binding of a name: the first makes the entry, the others count. *)
Definition bind (k : string) (e : aliasEntry) (t : gmap string aliasEntry) : gmap string aliasEntry :=
  match t !! k with
  | Some e0 => <[k := with_count (S (Count e0)) e0]> t
  | None => <[k := e]> t
  end.

Definition source_kind (n : Node) (key : string) : string :=
  if has_meta n key then meta_of n key else inferSourceKindFromPattern (meta_of n "pattern").

Definition alias_binding (n : Node) : aliasEntry :=
  mkAlias (source_kind n "alias_source_kind") (meta_of n "alias_source_method") (meta_of n "alias_base_url")
    (n_Service n) (n_File n) (n_Line n) 1.
Definition instance_binding (n : Node) : aliasEntry :=
  let baseURL := meta_of n "instance_base_url" in
  mkAlias (source_kind n "instance_source_kind") ""
    (if negb (str_eqb baseURL "") && negb (isLiteralURL baseURL) then "" else baseURL)
    (n_Service n) (n_File n) (n_Line n) 1.

Definition add_binding (t : gmap string aliasEntry) (n : Node) : gmap string aliasEntry :=
  let t := if has_meta n "alias_name" then bind (indir_of n (meta_of n "alias_name")) (alias_binding n) t else t in
  if has_meta n "instance_name" then bind (indir_of n (meta_of n "instance_name")) (instance_binding n) t else t.

Definition wrapper_key (n : Node) : option string :=
  if has_meta n "wrapper_for" then Some (indir_of n (n_Label n)) else None.
Definition wrapper_entry (n : Node) : wrapperEntry :=
  mkWrapper (meta_of n "wrapper_for") (meta_of n "wrapper_base_url") (n_Service n) (n_File n) (n_Line n).

Definition aliasTable (nodes : list Node) : gmap string aliasEntry := fold_left add_binding nodes ∅.
Definition wrapperTable : list Node -> gmap string wrapperEntry := index_first wrapper_key wrapper_entry.
Definition wrapperURLTable_of : list Node -> gmap string wrapperURLTarget := index_first url_target_key url_target.

(** ** The pass *)

Record aliasState : Type := mkAliasState {
  as_result : list Node; as_unresolved : list UnresolvedRef; ledgeredAlias : gset string
}.

Section pass.
Context (aliases : gmap string aliasEntry) (wrappers : gmap string wrapperEntry).

Definition keep (st : aliasState) (n : Node) : aliasState :=
  mkAliasState (as_result st ++ [n]) (as_unresolved st) (ledgeredAlias st).
Definition record_refusal (st : aliasState) (r : UnresolvedRef) : aliasState :=
  mkAliasState (as_result st) (as_unresolved st ++ [r]) (ledgeredAlias st).

Definition reassigned (n : Node) (alias : string) (e : aliasEntry) : UnresolvedRef :=
  mkUnresolvedRef (n_Service n) (n_File n) (a_Line e) alias "alias_reassigned" "".

(** One node of the second loop. *)
Definition enrich_step (st : aliasState) (n : Node) : aliasState :=
  if has_meta n "alias_name" || has_meta n "instance_name" then st
  else if is_wrapper_url n then keep st n
  else if str_eqb (meta_of n "factory_closure") "true" then record_refusal st (ledger n (n_Label n) "factory_dynamic")
  else if has_meta n "via_alias" then
    let alias := meta_of n "via_alias" in
    let k := indir_of n alias in
    match aliases !! k with
    | Some e =>
        if (1 <? Count e)%nat then
          if decide (k ∈ ledgeredAlias st) then st
          else mkAliasState (as_result st) (as_unresolved st ++ [reassigned n alias e]) ({[k]} ∪ ledgeredAlias st)
        else keep st (applyAliasRes n (SourceKind e) (SourceMethod e) (BaseURL e))
    | None => keep st (stripNodeMeta n "via_alias")
    end
  else if has_meta n "wrapper_name" then
    match wrappers !! indir_of n (meta_of n "wrapper_name") with
    | Some w => keep st (applyWrapperRes n w)
    | None => record_refusal st (ledger n (meta_of n "wrapper_name") "factory_dynamic")
    end
  else keep st n.
End pass.

Definition EnrichAliases (nodes : list Node) : list Node * list UnresolvedRef :=
  let urls := wrapperURLTable_of nodes in
  let '(nodes1, objCallUnresolved) := resolveObjCallCandidates urls nodes in
  let '(nodes2, urlCallUnresolved) := resolveURLCallCandidates urls nodes1 in
  let st := fold_left (enrich_step (aliasTable nodes) (wrapperTable nodes)) nodes2
    (mkAliasState [] (objCallUnresolved ++ urlCallUnresolved) ∅) in
  (as_result st, as_unresolved st).

(** ** One winner for each call *)

Section collapse.
Context (pattern : string).
Notation candidate n := (str_eqb (meta_of n "pattern") pattern).

(** The candidates of a span. *)
Definition candidates_at (nodes : list Node) (k : string) : list Node :=
  List.filter (fun n => candidate n && str_eqb (spanKey n) k) nodes.

Record candidates_inv (done : list Node) (c : candidates) : Prop := {
  cv_groups k : groups c !! k = match candidates_at done k with [] => None | g0 :: rest => Some (g0, rest) end;
  cv_order k : k ∈ order c <-> is_Some (groups c !! k);
  cv_NoDup : NoDup (order c);
  cv_others : others c = List.filter (fun n => negb (candidate n)) done
}.

Lemma collect_candidates nodes :
  candidates_inv nodes (fold_left (add_candidate pattern) nodes (mkCandidates ∅ [] [])).
Proof.
  apply fold_left_inv_done.
  { split; cbn; [done| |constructor|done]. intros k. rewrite lookup_empty, elem_of_nil. by split; [|intros []]. }
  intros done [gs os l] n [H1 H2 H3 H4]. cbn [groups order others] in *. unfold add_candidate. cbn [groups order others].
  destruct (candidate n) eqn:En; cbn [groups order others].
  2: { split; cbn [groups order others]; [|done..|].
       - intros k. rewrite H1. unfold candidates_at. rewrite List.filter_app. cbn [List.filter]. rewrite En. cbn. by rewrite app_nil_r.
       - rewrite List.filter_app, H4. cbn [List.filter]. by rewrite En. }
  assert (Hat : forall k, candidates_at (done ++ [n]) k = candidates_at done k ++ (if decide (k = spanKey n) then [n] else [])).
  { intros k. unfold candidates_at. rewrite List.filter_app. f_equal. cbn [List.filter]. rewrite En. cbn [andb].
    destruct (Stdlib.Strings.String.eqb_spec (spanKey n) k); case_decide; congruence. }
  assert (Ho : others (mkCandidates gs os l) = List.filter (fun n => negb (candidate n)) (done ++ [n])).
  { rewrite List.filter_app, <- H4. cbn [List.filter]. rewrite En. cbn. by rewrite app_nil_r. }
  specialize (H1 (spanKey n)) as Hn. destruct (gs !! spanKey n) as [[g0 rest]|] eqn:E.
  - split; cbn [groups order others]; [| |done|exact Ho].
    + intros k. rewrite Hat, lookup_insert, H1. repeat case_decide; try congruence; [|by rewrite app_nil_r]. subst k.
      destruct (candidates_at done (spanKey n)); [done|]. by injection Hn as -> ->.
    + intros k. rewrite H2, lookup_insert. case_decide; [|done]. subst k. rewrite E. split; eauto.
  - split; cbn [groups order others]; [| | |exact Ho].
    + intros k. rewrite Hat, lookup_insert, H1. repeat case_decide; try congruence; [|by rewrite app_nil_r]. subst k.
      by destruct (candidates_at done (spanKey n)).
    + intros k. rewrite elem_of_app, list_elem_of_singleton, H2, lookup_insert. case_decide; naive_solver.
    + apply NoDup_app. split_and!; [done| |apply NoDup_singleton]. intros k Hk ->%list_elem_of_singleton.
      apply H2 in Hk as [? Hk]. congruence.
Qed.

Context (key : string) (choose : Node -> list Node -> Node * option UnresolvedRef).

(** The winner of a span, and what it leaves in the ledger. *)
Definition wins (nodes : list Node) (w : Node * option UnresolvedRef) : Prop :=
  exists k g0 rest, candidates_at nodes k = g0 :: rest /\ w = choose g0 rest.

Lemma winners_spec nodes : exists winners, let c := fold_left (add_candidate pattern) nodes (mkCandidates ∅ [] []) in
  omap (fun k => p ← groups c !! k; Some (choose (fst p) (snd p))) (order c) = winners /\
  forall w, w ∈ winners <-> wins nodes w.
Proof.
  eexists. split; [done|]. destruct (collect_candidates nodes) as [H1 H2 _ _]. intros w. rewrite list_elem_of_omap. unfold wins. split.
  - intros (k & _ & E). apply bind_Some in E as ([g0 rest] & Hg & E). injection E as <-. exists k, g0, rest.
    rewrite H1 in Hg. destruct (candidates_at nodes k); [done|]. by injection Hg as -> ->.
  - intros (k & g0 & rest & Hk & ->). exists k. assert (Hg := H1 k). rewrite Hk in Hg. rewrite H2, Hg. split; [by eexists|done].
Qed.

Lemma elem_of_resolve_candidates nodes m : m ∈ fst (resolve_candidates pattern key choose nodes) <->
  m ∈ nodes /\ candidate m = false \/ exists w, wins nodes w /\ m = stripNodeMeta (fst w) key.
Proof.
  destruct (winners_spec nodes) as (winners & E & Hw). unfold resolve_candidates. cbn in E |- *. rewrite E.
  rewrite elem_of_app, (cv_others _ _ (collect_candidates nodes)), elem_of_bfilter, negb_true_iff, list_elem_of_fmap.
  setoid_rewrite Hw. naive_solver.
Qed.

Lemma resolve_candidates_refs nodes r : r ∈ snd (resolve_candidates pattern key choose nodes) <->
  exists w, wins nodes w /\ snd w = Some r.
Proof.
  destruct (winners_spec nodes) as (winners & E & Hw). unfold resolve_candidates. cbn in E |- *. rewrite E.
  rewrite list_elem_of_omap. setoid_rewrite Hw. done.
Qed.
End collapse.

Lemma with_value_elem key v l n : with_value key v l = Some n -> n ∈ l.
Proof. unfold with_value. intros [H _]%List.find_some. by apply list_elem_of_In. Qed.

Lemma resolveObjCallGroup_elem urls g0 rest : (resolveObjCallGroup urls g0 rest).1 ∈ g0 :: rest.
Proof.
  unfold resolveObjCallGroup. destruct rest as [|g1 rest]; [by left|].
  destruct (or_else _ _) as [n|] eqn:E; cbn; [|by left]. unfold or_else in E. case_match eqn:E1.
  - injection E as ->. apply bind_Some in E1 as (w & _ & E). destruct (str_eqb _ _); [done|]. by apply with_value_elem in E.
  - assert (Hn : n ∈ omap (fun want => with_value "key" want (g0 :: g1 :: rest)) objCallPriority)
      by (destruct (omap _ _); [done|]; injection E as ->; left).
    apply list_elem_of_omap in Hn as (v & _ & Hn). by apply with_value_elem in Hn.
Qed.

Lemma resolveURLCallGroup_elem urls g0 rest : (resolveURLCallGroup urls g0 rest).1 ∈ g0 :: rest.
Proof.
  unfold resolveURLCallGroup. destruct rest as [|g1 rest]; [by left|]. case_match eqn:E; cbn; [|by left].
  apply bind_Some in E as (w & _ & E). destruct (0 <=? _)%Z; [|done]. by apply with_value_elem in E.
Qed.

(** ** What a name is bound to *)

Definition bindings_of (n : Node) : list (string * aliasEntry) :=
  (if has_meta n "alias_name" then [(indir_of n (meta_of n "alias_name"), alias_binding n)] else []) ++
  (if has_meta n "instance_name" then [(indir_of n (meta_of n "instance_name"), instance_binding n)] else []).
Definition bindings (nodes : list Node) (k : string) : list aliasEntry :=
  map snd (List.filter (fun b => str_eqb (fst b) k) (concat (map bindings_of nodes))).

(** The entry of a name describes its first binding and counts them all. *)
Lemma aliasTable_spec nodes k : aliasTable nodes !! k =
  match bindings nodes k with [] => None | b :: rest => Some (with_count (S (length rest)) b) end.
Proof.
  assert (Hbind : forall t l k' e k, Count e = 1 ->
    t !! k = match l with [] => None | b :: rest => Some (with_count (S (length rest)) b) end ->
    bind k' e t !! k = match l ++ (if str_eqb k' k then [e] else []) with
      | [] => None | b :: rest => Some (with_count (S (length rest)) b) end).
  { clear. intros t l k' e k He Hl. unfold bind. destruct (Stdlib.Strings.String.eqb_spec k' k) as [->|Hk].
    - rewrite Hl. destruct l as [|b rest]; cbn; rewrite lookup_insert_eq; [by destruct e; cbn in *; subst|].
      by rewrite length_app, Nat.add_1_r.
    - rewrite app_nil_r, <- Hl. by destruct (t !! k'); rewrite lookup_insert_ne. }
  unfold aliasTable. revert k. induction nodes as [|n l IH] using rev_ind; [done|]. intros k. rewrite fold_left_app. cbn [fold_left].
  assert (E : bindings (l ++ [n]) k = bindings l k ++ map snd (List.filter (fun b => str_eqb (fst b) k) (bindings_of n))).
  { unfold bindings. rewrite map_app, concat_app, List.filter_app, map_app. cbn. by rewrite app_nil_r. }
  rewrite E. unfold add_binding, bindings_of.
  destruct (has_meta n "alias_name"), (has_meta n "instance_name"); cbn [app List.filter fst].
  - set (k1 := indir_of n (meta_of n "alias_name")). set (k2 := indir_of n (meta_of n "instance_name")).
    rewrite (Hbind _ (bindings l k ++ (if str_eqb k1 k then [alias_binding n] else []))); [|done|by apply Hbind].
    rewrite <- (assoc_L (++)). by destruct (str_eqb k1 k), (str_eqb k2 k).
  - erewrite Hbind; [|done|apply IH]. by destruct (str_eqb _ k).
  - erewrite Hbind; [|done|apply IH]. by destruct (str_eqb _ k).
  - cbn. by rewrite app_nil_r.
Qed.

(** ** What becomes of a node *)

Definition binds_name (n : Node) : bool := has_meta n "alias_name" || has_meta n "instance_name".
Definition is_closure (n : Node) : bool := str_eqb (meta_of n "factory_closure") "true".
Definition plain (n : Node) : Prop := binds_name n = false /\ is_wrapper_url n = false /\ is_closure n = false.
Definition via_key (n : Node) : string := indir_of n (meta_of n "via_alias").
Definition wrapper_of (n : Node) : string := indir_of n (meta_of n "wrapper_name").


(** What becomes of a node: it is kept, perhaps rewritten, or an entry stands
    for it, or, when it binds a name, neither. *)
Definition fate (nodes : list Node) (n : Node) : option (Node + UnresolvedRef) :=
  if binds_name n then None
  else if is_wrapper_url n then Some (inl n)
  else if is_closure n then Some (inr (ledger n (n_Label n) "factory_dynamic"))
  else if has_meta n "via_alias" then
    Some match bindings nodes (via_key n) with
      | [] => inl (stripNodeMeta n "via_alias")
      | [b] => inl (applyAliasRes n (SourceKind b) (SourceMethod b) (BaseURL b))
      | b :: _ => inr (reassigned n (meta_of n "via_alias") b)
      end
  else if has_meta n "wrapper_name" then
    Some match head (keyed_by wrapper_key (wrapper_of n) nodes) with
      | Some w => inl (applyWrapperRes n (wrapper_entry w))
      | None => inr (ledger n (meta_of n "wrapper_name") "factory_dynamic")
      end
  else Some (inl n).

Lemma fate_total nodes n : binds_name n = false -> is_Some (fate nodes n).
Proof. intros H. unfold fate. rewrite H. repeat case_match; by eexists. Qed.

Lemma enrich_step_fate nodes st n : enrich_step (aliasTable nodes) (wrapperTable nodes) st n =
  match fate nodes n with
  | None => st
  | Some (inl m) => keep st m
  | Some (inr r) =>
      if str_eqb (u_Kind r) "alias_reassigned"
      then if decide (via_key n ∈ ledgeredAlias st) then st
           else mkAliasState (as_result st) (as_unresolved st ++ [r]) ({[via_key n]} ∪ ledgeredAlias st)
      else record_refusal st r
  end.
Proof.
  unfold enrich_step, fate. fold (binds_name n) (is_closure n) (via_key n) (wrapper_of n).
  destruct (binds_name n); [done|]. destruct (is_wrapper_url n); [done|]. destruct (is_closure n); [done|].
  destruct (has_meta n "via_alias").
  - cbn zeta. fold (via_key n). rewrite aliasTable_spec. by destruct (bindings nodes (via_key n)) as [|b [|b' l]].
  - destruct (has_meta n "wrapper_name"); [|done]. unfold wrapperTable. rewrite index_first_lookup.
    by destruct (head _).
Qed.

Lemma fate_reassigned nodes n r : fate nodes n = Some (inr r) -> u_Kind r = "alias_reassigned" ->
  exists b l, bindings nodes (via_key n) = b :: l /\ r = reassigned n (meta_of n "via_alias") b.
Proof.
  unfold fate. repeat case_match; intros E Hk; try done; injection E as <-; try done. eauto.
Qed.

Definition clean_place (n : Node) : Prop := forallb nul_free [n_Service n; n_File n] = true.

(** Calls through one name leave one and the same entry. *)
Lemma same_reassigned nodes n r n' r' : clean_place n -> clean_place n' -> via_key n = via_key n' ->
  fate nodes n = Some (inr r) -> u_Kind r = "alias_reassigned" ->
  fate nodes n' = Some (inr r') -> u_Kind r' = "alias_reassigned" -> r = r'.
Proof.
  intros Hc Hc' Ek F K F' K'. apply fate_reassigned in F as (b & l & Hb & ->); [|done].
  apply fate_reassigned in F' as (b' & l' & Hb' & ->); [|done]. rewrite Ek, Hb' in Hb. injection Hb as -> _.
  apply key3_inj in Ek as (Es & Ef & Ea); [|done..]. unfold reassigned. by rewrite Es, Ef, Ea.
Qed.

Record pass_inv (nodes : list Node) (u0 : list UnresolvedRef) (done : list Node) (st : aliasState) : Prop := {
  pi_result : as_result st = omap (fun n => f ← fate nodes n; match f with inl m => Some m | inr _ => None end) done;
  pi_refs r : r ∈ as_unresolved st <-> r ∈ u0 \/ exists n, n ∈ done /\ fate nodes n = Some (inr r);
  pi_ledgered k : k ∈ ledgeredAlias st <->
    exists n, n ∈ done /\ exists r, fate nodes n = Some (inr r) /\ u_Kind r = "alias_reassigned" /\ via_key n = k
}.

Lemma pass_spec nodes u0 l : (forall n, n ∈ l -> clean_place n) ->
  pass_inv nodes u0 l (fold_left (enrich_step (aliasTable nodes) (wrapperTable nodes)) l (mkAliasState [] u0 ∅)).
Proof.
  intros Hclean. assert (Hsnoc : forall (P : Node -> Prop) done n,
    (exists m, m ∈ done ++ [n] /\ P m) <-> (exists m, m ∈ done /\ P m) \/ P n).
  { intros. setoid_rewrite elem_of_app. setoid_rewrite list_elem_of_singleton. naive_solver. }
  induction l as [|n l IH] using rev_ind.
  { split; cbn; [done| |]; intros; [|rewrite elem_of_empty]; setoid_rewrite elem_of_nil; naive_solver. }
  rewrite fold_left_app. cbn [fold_left]. set (st := fold_left _ l _) in *.
  destruct IH as [H1 H2 H3]; [intros; apply Hclean, elem_of_app; by left|]. rewrite enrich_step_fate.
  assert (Hres : forall o, fate nodes n = o -> omap (fun n => f ← fate nodes n; match f with inl m => Some m | inr _ => None end) (l ++ [n]) =
    as_result st ++ match o with Some (inl m) => [m] | _ => [] end).
  { intros o <-. rewrite omap_app, H1. f_equal. cbn. by destruct (fate nodes n) as [[]|]. }
  assert (Hrefs : forall o, fate nodes n = o -> forall r, (exists m, m ∈ l ++ [n] /\ fate nodes m = Some (inr r)) <->
    (exists m, m ∈ l /\ fate nodes m = Some (inr r)) \/ o = Some (inr r)) by (intros o <- r; by rewrite Hsnoc).
  assert (Hkeys : forall o, fate nodes n = o -> forall k,
    (exists m, m ∈ l ++ [n] /\ exists r, fate nodes m = Some (inr r) /\ u_Kind r = "alias_reassigned" /\ via_key m = k) <->
    k ∈ ledgeredAlias st \/ exists r, o = Some (inr r) /\ u_Kind r = "alias_reassigned" /\ via_key n = k).
  { intros o <- k. by rewrite H3, Hsnoc. }
  destruct (fate nodes n) as [[m|r]|] eqn:F; [| |]; specialize (Hres _ eq_refl); specialize (Hrefs _ eq_refl); specialize (Hkeys _ eq_refl).
  - split; cbn; [by rewrite Hres| |].
    + intros r. rewrite Hrefs, H2. naive_solver.
    + intros k. rewrite Hkeys. naive_solver.
  - destruct (Stdlib.Strings.String.eqb_spec (u_Kind r) "alias_reassigned") as [Hk|Hk].
    + case_decide as Hin.
      * split; [by rewrite Hres, app_nil_r| |].
        -- intros r'. rewrite Hrefs, H2. split; [naive_solver|]. intros [?|[?|[= <-]]]; [by left|by right|right].
           apply H3 in Hin as (n' & Hn' & r' & F' & K' & E'). exists n'. split; [done|].
           rewrite (same_reassigned nodes n r n' r'); [done|apply Hclean, elem_of_app; right; by left|apply Hclean, elem_of_app; by left|done..].
        -- intros k. rewrite Hkeys. naive_solver.
      * split; cbn; [by rewrite Hres, app_nil_r| |].
        -- intros r'. rewrite Hrefs, elem_of_app, list_elem_of_singleton, H2. naive_solver.
        -- intros k. rewrite Hkeys. set_solver.
    + split; cbn; [by rewrite Hres, app_nil_r| |].
      * intros r'. rewrite Hrefs, elem_of_app, list_elem_of_singleton, H2. naive_solver.
      * intros k. rewrite Hkeys. naive_solver.
  - split; [by rewrite Hres, app_nil_r| |].
    + intros r. rewrite Hrefs, H2. naive_solver.
    + intros k. rewrite Hkeys. naive_solver.
Qed.

(** ** The whole pass *)

Lemma strip_meta n key k : k <> key -> meta_of (stripNodeMeta n key) k = meta_of n k.
Proof. intros H. unfold stripNodeMeta. case_match; [|done]. unfold meta_of, meta_get. cbn. by rewrite lookup_delete_ne. Qed.
Lemma strip_place n key : n_Service (stripNodeMeta n key) = n_Service n /\ n_File (stripNodeMeta n key) = n_File n /\
  n_Line (stripNodeMeta n key) = n_Line n /\ n_ID (stripNodeMeta n key) = n_ID n.
Proof. unfold stripNodeMeta. by case_match. Qed.
Lemma strip_spanKey n key : spanKey (stripNodeMeta n key) = spanKey n.
Proof. unfold spanKey. by destruct (strip_place n key) as (-> & -> & -> & _). Qed.

Lemma bfilter_nil {A} (p : A -> bool) l : (forall x, x ∈ l -> p x = false) -> List.filter p l = [].
Proof.
  intros H. induction l as [|x l IH]; [done|]. cbn. rewrite H by left. apply IH. intros y Hy. apply H. by right.
Qed.

Definition pattern_obj : string := "producer_alias_obj_call".
Definition pattern_url : string := "producer_alias_url_call".
Notation has_pattern p n := (str_eqb (meta_of n "pattern") p).

Lemma elem_of_candidates_at p nodes k n :
  n ∈ candidates_at p nodes k <-> n ∈ nodes /\ meta_of n "pattern" = p /\ spanKey n = k.
Proof. unfold candidates_at. by rewrite elem_of_bfilter, andb_true_iff, !Stdlib.Strings.String.eqb_eq. Qed.

Section stages.
Context (p key : string) (choose : Node -> list Node -> Node * option UnresolvedRef).
Context (Hkey : "pattern" <> key) (Hchoose : forall g0 rest, (choose g0 rest).1 ∈ g0 :: rest).

Lemma wins_candidate nodes w : wins p choose nodes w -> w.1 ∈ nodes /\ meta_of w.1 "pattern" = p.
Proof.
  intros (k & g0 & rest & Hk & ->). specialize (Hchoose g0 rest). rewrite <- Hk in Hchoose.
  by apply elem_of_candidates_at in Hchoose as (? & ? & _).
Qed.

(** Every candidate has a winner in its span. *)
Lemma candidate_winner nodes n : n ∈ nodes -> meta_of n "pattern" = p ->
  exists w, wins p choose nodes w /\ w.1 ∈ nodes /\ spanKey w.1 = spanKey n.
Proof.
  intros Hn Hp. assert (Hc : n ∈ candidates_at p nodes (spanKey n)) by by apply elem_of_candidates_at.
  destruct (candidates_at p nodes (spanKey n)) as [|g0 rest] eqn:E; [by apply elem_of_nil in Hc|].
  exists (choose g0 rest). split; [by exists (spanKey n), g0, rest|]. specialize (Hchoose g0 rest). rewrite <- E in Hchoose.
  by apply elem_of_candidates_at in Hchoose as (? & _ & ?).
Qed.

(** Collapsing one pattern leaves the candidates of another alone. *)
Lemma candidates_at_other p' nodes k : p' <> p ->
  candidates_at p' (fst (resolve_candidates p key choose nodes)) k = candidates_at p' nodes k.
Proof.
  intros Hp. destruct (winners_spec p choose nodes) as (winners & E & Hw). unfold resolve_candidates. cbn in E |- *. rewrite E.
  unfold candidates_at at 1. rewrite List.filter_app, (cv_others _ _ _ (collect_candidates p nodes)), bfilter_bfilter.
  rewrite (bfilter_nil _ (map _ winners)).
  - rewrite app_nil_r. apply filter_ext. intros n. destruct (Stdlib.Strings.String.eqb_spec (meta_of n "pattern") p) as [En|En]; cbn; [|done].
    apply Stdlib.Strings.String.eqb_neq in Hp. rewrite <- En in Hp. by rewrite Stdlib.Strings.String.eqb_sym, Hp.
  - intros m Hm. apply list_elem_of_fmap in Hm as (w & -> & Hw'%Hw). apply wins_candidate in Hw' as [_ Hwp].
    rewrite strip_meta, Hwp by done. apply andb_false_iff. left. apply Stdlib.Strings.String.eqb_neq. congruence.
Qed.
End stages.

Section survivors.
Context (nodes : list Node).
Notation urls := (wrapperURLTable_of nodes).
Notation obj_wins := (wins pattern_obj (resolveObjCallGroup urls) nodes).
Notation url_wins := (wins pattern_url (resolveURLCallGroup urls) nodes).

(** The nodes left when each call has one candidate: of those that share a
    span, the one chosen. *)
Inductive survives : Node -> Prop :=
| NoCandidate n : n ∈ nodes -> meta_of n "pattern" <> pattern_obj -> meta_of n "pattern" <> pattern_url -> survives n
| ObjWinner w : obj_wins w -> survives (stripNodeMeta w.1 "key")
| UrlWinner w : url_wins w -> survives (stripNodeMeta w.1 "arg_index").

(** The entries for the calls whose candidate was a guess. *)
Definition guessed (r : UnresolvedRef) : Prop :=
  exists w, (obj_wins w \/ url_wins w) /\ w.2 = Some r.

Lemma url_wins_later w :
  wins pattern_url (resolveURLCallGroup urls) (fst (resolveObjCallCandidates urls nodes)) w <-> url_wins w.
Proof.
  assert (H : forall k, candidates_at pattern_url (fst (resolveObjCallCandidates urls nodes)) k = candidates_at pattern_url nodes k).
  { intros k. apply candidates_at_other; [done|intros; apply resolveObjCallGroup_elem|done]. }
  unfold wins. by setoid_rewrite H.
Qed.

Lemma elem_of_survivors n :
  n ∈ fst (resolveURLCallCandidates urls (fst (resolveObjCallCandidates urls nodes))) <-> survives n.
Proof.
  unfold resolveURLCallCandidates. rewrite elem_of_resolve_candidates. fold pattern_url. setoid_rewrite url_wins_later.
  unfold resolveObjCallCandidates. rewrite elem_of_resolve_candidates. fold pattern_obj.
  rewrite !Stdlib.Strings.String.eqb_neq. split.
  - intros [[[[? ?]|(w & Hw & ->)] ?]|(w & Hw & ->)]; [by apply NoCandidate|by apply ObjWinner|by apply UrlWinner].
  - destruct 1 as [n Hn H1 H2|w Hw|w Hw]; [by left; auto| |right; eauto]. left. split; [right; eauto|].
    rewrite strip_meta by done. apply wins_candidate in Hw as [_ ->]; [done|]. apply resolveObjCallGroup_elem.
Qed.

Lemma elem_of_guessed r : r ∈ snd (resolveObjCallCandidates urls nodes) ++
    snd (resolveURLCallCandidates urls (fst (resolveObjCallCandidates urls nodes))) <-> guessed r.
Proof.
  rewrite elem_of_app. unfold resolveObjCallCandidates at 1, resolveURLCallCandidates. rewrite !resolve_candidates_refs.
  setoid_rewrite url_wins_later. unfold guessed. naive_solver.
Qed.

Lemma survivor_origin n : survives n -> exists m, m ∈ nodes /\ n_Service n = n_Service m /\ n_File n = n_File m.
Proof.
  destruct 1 as [n Hn _ _|w Hw|w Hw]; [by exists n|exists w.1..].
  - apply wins_candidate in Hw as [? _]; [|intros; apply resolveObjCallGroup_elem]. by destruct (strip_place w.1 "key") as (? & ? & _).
  - apply wins_candidate in Hw as [? _]; [|intros; apply resolveURLCallGroup_elem]. by destruct (strip_place w.1 "arg_index") as (? & ? & _).
Qed.

(** Every node has a survivor that stands for it: itself, or the candidate
    chosen in its span. *)
Lemma has_survivor n : n ∈ nodes -> exists s, survives s /\
  (s = n \/ spanKey s = spanKey n /\ meta_of s "pattern" = meta_of n "pattern" /\
    exists w key, w ∈ nodes /\ (meta_of w "pattern" = pattern_obj \/ meta_of w "pattern" = pattern_url) /\
      (key = "key" \/ key = "arg_index") /\ s = stripNodeMeta w key).
Proof.
  intros Hn. destruct (decide (meta_of n "pattern" = pattern_obj)) as [E|E]; [|destruct (decide (meta_of n "pattern" = pattern_url)) as [E'|E']].
  - destruct (candidate_winner pattern_obj (resolveObjCallGroup urls) (resolveObjCallGroup_elem urls) nodes n) as (w & Hw & Hin & Hs); [done..|].
    assert (Hp := Hw). apply wins_candidate in Hp as [_ Hp]; [|intros; apply resolveObjCallGroup_elem].
    exists (stripNodeMeta w.1 "key"). split; [by apply ObjWinner|right]. rewrite strip_spanKey, strip_meta, E, Hp by done.
    split_and!; [done..|]. exists w.1, "key". naive_solver.
  - destruct (candidate_winner pattern_url (resolveURLCallGroup urls) (resolveURLCallGroup_elem urls) nodes n) as (w & Hw & Hin & Hs); [done..|].
    assert (Hp := Hw). apply wins_candidate in Hp as [_ Hp]; [|intros; apply resolveURLCallGroup_elem].
    exists (stripNodeMeta w.1 "arg_index"). split; [by apply UrlWinner|right]. rewrite strip_spanKey, strip_meta, E', Hp by done.
    split_and!; [done..|]. exists w.1, "arg_index". naive_solver.
  - exists n. split; [by apply NoCandidate|by left].
Qed.
End survivors.

(** C20: no call is lost and none is made up: what the pass returns is exactly what
    becomes of the survivors; a call through a name bound once is rewritten to
    what the binding says, one through a name bound more often is in the ledger;
    and every node that binds no name has a survivor at its call site that is
    either returned or has an entry. *)
Theorem EnrichAliases_exact nodes out refs :
  (forall n, n ∈ nodes -> clean_place n) ->
  EnrichAliases nodes = (out, refs) ->
  (forall m, m ∈ out <-> exists s, survives nodes s /\ fate nodes s = Some (inl m)) /\
  (forall r, r ∈ refs <-> guessed nodes r \/ exists s, survives nodes s /\ fate nodes s = Some (inr r)) /\
  ((forall c, c ∈ nodes -> meta_of c "pattern" = pattern_obj \/ meta_of c "pattern" = pattern_url -> binds_name c = false) ->
   forall n, n ∈ nodes -> binds_name n = false ->
   exists s, survives nodes s /\ spanKey s = spanKey n /\ meta_of s "pattern" = meta_of n "pattern" /\
     ((exists m, m ∈ out /\ fate nodes s = Some (inl m)) \/ (exists r, r ∈ refs /\ fate nodes s = Some (inr r)))).
Proof.
  intros Hclean. unfold EnrichAliases.
  pose proof (elem_of_survivors nodes) as Hsurv. pose proof (elem_of_guessed nodes) as Hguess.
  destruct (resolveObjCallCandidates _ nodes) as [nodes1 u1]. cbn [fst snd] in Hsurv, Hguess.
  destruct (resolveURLCallCandidates _ nodes1) as [nodes2 u2]. cbn [fst snd] in Hsurv, Hguess.
  destruct (pass_spec nodes (u1 ++ u2) nodes2) as [H1 H2 _].
  { intros n (m & Hm & Es & Ef)%Hsurv%survivor_origin. unfold clean_place. rewrite Es, Ef. by apply Hclean. }
  intros [= <- <-].
  assert (Hout : forall m, m ∈ as_result (fold_left (enrich_step (aliasTable nodes) (wrapperTable nodes)) nodes2
      (mkAliasState [] (u1 ++ u2) ∅)) <-> exists s, survives nodes s /\ fate nodes s = Some (inl m)).
  { intros m. rewrite H1, list_elem_of_omap. setoid_rewrite Hsurv. split; intros (s & Hs & E); exists s; split; try done.
    - by destruct (fate nodes s) as [[]|]; simplify_eq/=.
    - by rewrite E. }
  assert (Hrefs : forall r, r ∈ as_unresolved (fold_left (enrich_step (aliasTable nodes) (wrapperTable nodes)) nodes2
      (mkAliasState [] (u1 ++ u2) ∅)) <-> guessed nodes r \/ exists s, survives nodes s /\ fate nodes s = Some (inr r)).
  { intros r. rewrite H2, Hguess. by setoid_rewrite Hsurv. }
  split_and!; [done..|]. intros Hcand n Hn Hb. destruct (has_survivor nodes n Hn) as (s & Hs & Hfor).
  assert (Hsb : binds_name s = false /\ spanKey s = spanKey n /\ meta_of s "pattern" = meta_of n "pattern").
  { destruct Hfor as [->|(E1 & E2 & w & key & Hw & Ew & Hk & ->)]; [done|]. split; [|done].
    unfold binds_name, has_meta. rewrite !strip_meta by (by destruct Hk as [-> | ->]). by apply (Hcand w Hw). }
  destruct Hsb as (Hsb & Hsp & Hpat). exists s. split_and!; [done..|].
  destruct (fate_total nodes s Hsb) as [[m|r] F]; [left; exists m|right; exists r]; (split; [|done]).
  - apply Hout. eauto.
  - apply Hrefs. eauto.
Qed.

Definition demo_client (pattern : string) (line : Z) (m : Meta) : Node :=
  mkNode pattern NodeTypeHTTPClient "" "web" "api.js" line 0 "javascript" (<["pattern" := pattern]> m) "".
Definition demo_calls : list Node :=
  [demo_client "axios_create" 1 (<["alias_name" := "api"]> {["alias_base_url" := "/v1"]});
   demo_client pattern_obj 5 (<["via_alias" := "api"]> (<["key" := "data"]> {["url" := "x"]}));
   demo_client pattern_obj 5 (<["via_alias" := "api"]> (<["key" := "url"]> {["url" := "/users"]}))].

Lemma EnrichAliases_exact_witness : exists out refs m, EnrichAliases demo_calls = (out, refs) /\
  m ∈ out /\ meta_of m "url" = "/v1/users".
Proof.
  destruct (EnrichAliases demo_calls) as [out refs] eqn:E. exists out, refs.
  destruct (EnrichAliases_exact demo_calls out refs) as (Hout & _ & _); [|exact E|].
  { intros n Hn. unfold demo_calls in Hn. rewrite !elem_of_cons, elem_of_nil in Hn. by destruct Hn as [->|[->|[->|[]]]]. }
  eexists. split; [done|]. split.
  - apply Hout. exists (stripNodeMeta (demo_client pattern_obj 5 (<["via_alias" := "api"]> (<["key" := "url"]> {["url" := "/users"]}))) "key").
    split; [|vm_compute; reflexivity].
    eapply (ObjWinner demo_calls (_, None)). eexists (spanKey (demo_client pattern_obj 5 ∅)), _, _.
    split; vm_compute; reflexivity.
  - vm_compute. reflexivity.
Defined.

(** A name bound twice: its calls are dropped, with one entry for them all. *)
Example rebound : EnrichAliases (demo_client "axios_create" 1 {["alias_name" := "api"]} :: demo_calls ++
    [demo_client "fetch" 7 {["via_alias" := "api"]}]) =
  ([], [mkUnresolvedRef "web" "api.js" 1 "api" "alias_reassigned" ""]).
Proof. vm_compute. reflexivity. Qed.
