(* ===== verification/LkData.v ===== *)
(** Linking code to the data it touches (internal/linker/linker.go): call
    sites to the datastores of their service, SQL statements to their tables,
    fetches to the signals that hold their results. *)
From S2P Require Import Prelude GoStrings GrModel CtEngine GrVerdict LkIndex LkRoutes.

Definition NodeTypeHTTPClient : NodeType := "http_client".
Definition NodeTypeDatastore : NodeType := "datastore".
Definition NodeTypeTable : NodeType := "table".
Definition EdgeTypeQueries : EdgeType := "queries".
Definition EdgeTypePersists : EdgeType := "persists".
Definition EdgeTypeFlowsTo : EdgeType := "flows_to".

(** ** Strings *)

(** strings.Fields on bytes: [skip] bytes of white space are still to be
    passed over, [cur] is the field being read, last byte first. *)
Definition flush (cur : list N) (rest : list (list N)) : list (list N) :=
  match cur with [] => rest | _ => rev cur :: rest end.
Fixpoint fields_bytes (skip : nat) (cur l : list N) : list (list N) :=
  match l with
  | [] => flush cur []
  | b :: l' =>
      match skip with
      | S skip' => fields_bytes skip' cur l'
      | O =>
          match (length l - length (trim_left l))%nat with
          | S n => flush cur (fields_bytes n [] l')
          | O => fields_bytes 0 (b :: cur) l'
          end
      end
  end.
Definition Fields (s : string) : list string :=
  map (fun f => bytes_str (map ascii_of_N f)) (fields_bytes 0 [] (map N_of_ascii (str_bytes s))).

(** strings.ToUpper on ASCII letters. *)
Definition upper_byte (c : ascii) : ascii :=
  let n := N_of_ascii c in
  if ((97 <=? n) && (n <=? 122))%N then ascii_of_N (n - 32) else c.
Fixpoint ToUpper (s : string) : string :=
  match s with "" => "" | String c s' => String (upper_byte c) (ToUpper s') end.

(** strings.TrimRight and strings.Trim with a set of bytes. *)
Definition in_cutset (cutset : string) (c : ascii) : bool := existsb (Ascii.eqb c) (str_bytes cutset).
Fixpoint TrimLeft (s cutset : string) : string :=
  match s with String c s' => if in_cutset cutset c then TrimLeft s' cutset else s | "" => "" end.
Definition trim_right_step (cutset : string) (c : ascii) (acc : string) : string :=
  if in_cutset cutset c && str_eqb acc "" then "" else String c acc.
Definition TrimRight (s cutset : string) : string := foldr (trim_right_step cutset) "" (str_bytes s).
Definition Trim (s cutset : string) : string := TrimRight (TrimLeft s cutset) cutset.

(** [s[:i]] for [i := strings.IndexByte(s, c)] when it is found. *)
Definition before_byte (c : ascii) (s : string) : string :=
  match cut_first (String c "") s with Some (a, _) => a | None => s end.

(** ** The table of a statement *)

Definition quote_cutset : string := "`" +:+ String "034" "'[]".

Definition cleanTableToken (tok : string) : string :=
  TrimRight (Trim (before_byte "(" tok) quote_cutset) ",;".

Definition is_table_keyword (w : string) : bool :=
  let u := ToUpper w in str_eqb u "FROM" || str_eqb u "INTO" || str_eqb u "UPDATE".

(** The first keyword followed by a name. *)
Fixpoint table_scan (fields : list string) : string :=
  match fields with
  | w :: rest =>
      match rest with
      | next :: _ =>
          if is_table_keyword w && negb (str_eqb (cleanTableToken next) "") then cleanTableToken next
          else table_scan rest
      | [] => ""
      end
  | [] => ""
  end.

Definition parseSQLTable (rawSQL : string) : string :=
  let sql := stripMeta (TrimSpace rawSQL) in
  if str_eqb sql "" then "" else table_scan (Fields (before_byte ";" sql)).

Example parse_sql : map parseSQLTable
  ["'select * from users;'"; "SELECT a FROM ( select b from inner_t ) x"; "PRAGMA x"; "";
   "INSERT INTO `meta`(key,value) VALUES (1)"; "update"; "delete from [t],"] =
  ["users"; "inner_t"; ""; ""; "meta"; ""; "t]"].
Proof. reflexivity. Qed.

(** ** Datastores *)

Definition touches_store (e : Edge) : bool :=
  str_eqb (ed_Type e) EdgeTypeQueries || str_eqb (ed_Type e) EdgeTypePersists.

Definition table_ids (nodes : list Node) : gset string :=
  list_to_set (map n_ID (List.filter (fun n => is_type n NodeTypeTable) nodes)).

(** [hasTableEdge] *)
Definition has_table_edge (nodes : list Node) (existing : list Edge) : gset string :=
  let tables := table_ids nodes in
  list_to_set (map ed_From (List.filter (fun e => touches_store e && bool_decide (ed_To e ∈ tables)) existing)).

Definition is_store (n : Node) : bool := is_type n NodeTypeDatastore && str_eqb (meta_of n "kind") "store".
Definition is_call (n : Node) : bool := is_type n NodeTypeDatastore && str_eqb (meta_of n "kind") "call".
Definition store_key (n : Node) : option string := if is_store n then Some (n_Service n) else None.
Definition gorm_store_key (n : Node) : option string :=
  if is_store n && Contains (meta_of n "orm") "gorm" then Some (n_Service n) else None.

Definition is_gorm_call (n : Node) : bool :=
  str_eqb (meta_of n "package") "gorm.io/gorm" || HasPrefix (meta_of n "pattern") "gorm_".

(** The engines a call site can reach. *)
Definition stores_of (stores gormStores : gmap string (list string)) (n : Node) : list string :=
  if is_gorm_call n then
    match get_all gormStores (n_Service n) with [] => get_all stores (n_Service n) | g => g end
  else get_all stores (n_Service n).

Definition call_edge_type (n : Node) : EdgeType :=
  if str_eqb (meta_of n "op") "persist" then EdgeTypePersists else EdgeTypeQueries.

Definition store_edges (hasTable : gset string) (stores gormStores : gmap string (list string)) (n : Node) : list Edge :=
  if negb (is_call n) || bool_decide (n_ID n ∈ hasTable) then []
  else
    let targets := stores_of stores gormStores n in
    let ty := call_edge_type n in
    let conf := if (1 <? length targets)%nat then ConfidencePartial else ConfidenceInferred in
    map (fun s => link_edge (arrow_id ty (n_ID n) s) (n_ID n) s ty conf ∅) targets.

Definition LinkDatastores (nodes : list Node) (existing : list Edge) : list Edge :=
  concat (map (store_edges (has_table_edge nodes existing) (index_all store_key n_ID nodes)
    (index_all gorm_store_key n_ID nodes)) nodes).

(** ** Tables *)

Definition tableID (service name : string) : string := service +:+ ":table:" +:+ name.
Definition table_key (n : Node) : option string := if is_type n NodeTypeTable then Some (n_Label n) else None.

Definition synthetic_table (n : Node) (table : string) : Node :=
  mkNode (tableID (n_Service n) table) NodeTypeTable table (n_Service n) "" 0 0 (n_Language n)
    (<["name" := table]> (<["synthetic" := "true"]> {["schema" := "external"]})) "".

Record tableState : Type := mkTableState {
  ts_seen : gset string; ts_seenCollision : gset string;
  ts_newNodes : list Node; ts_edges : list Edge; ts_unresolved : list UnresolvedRef
}.

Definition table_edge (n : Node) (table tid : string) : Edge :=
  link_edge (arrow_id (call_edge_type n) (n_ID n) tid) (n_ID n) tid (call_edge_type n) ConfidenceStatic
    (<["via" := "sql_table"]> {["table" := table]}).

Definition add_table_edges (n : Node) (table : string) (targets : list string) (st : tableState) : tableState :=
  mkTableState (ts_seen st) (ts_seenCollision st) (ts_newNodes st)
    (ts_edges st ++ map (table_edge n table) targets) (ts_unresolved st).

(** No schema declares the table: a node is minted for it, once. *)
Definition mint_table (n : Node) (table : string) (st : tableState) : tableState :=
  let tid := tableID (n_Service n) table in
  if decide (tid ∈ ts_seen st) then st
  else mkTableState ({[tid]} ∪ ts_seen st) (ts_seenCollision st) (ts_newNodes st ++ [synthetic_table n table])
         (ts_edges st) (ts_unresolved st).

Definition note_collision (n : Node) (table : string) (st : tableState) : tableState :=
  let key := key2 table (n_ID n) in
  if decide (key ∈ ts_seenCollision st) then st
  else mkTableState (ts_seen st) ({[key]} ∪ ts_seenCollision st) (ts_newNodes st) (ts_edges st)
         (ts_unresolved st ++ [ledger n table "sql_table_query_collision"]).

Definition note_test_table (n : Node) (table : string) (st : tableState) : tableState :=
  mkTableState (ts_seen st) (ts_seenCollision st) (ts_newNodes st) (ts_edges st)
    (ts_unresolved st ++ [ledger n table "sql_table_test_unresolved"]).

Definition table_step (byName : gmap string (list string)) (st : tableState) (n : Node) : tableState :=
  if negb (is_call n) then st
  else
    let table := parseSQLTable (meta_of n "sql") in
    if str_eqb table "" then st
    else match get_all byName table with
         | [] =>
             if HasSuffix (n_File n) "_test.go" then note_test_table n table st
             else add_table_edges n table [tableID (n_Service n) table] (mint_table n table st)
         | [t] => add_table_edges n table [t] st
         | targets => add_table_edges n table targets (note_collision n table st)
         end.

Definition LinkTables (nodes : list Node) : tableState :=
  fold_left (table_step (index_all table_key n_ID nodes)) nodes (mkTableState ∅ ∅ [] [] []).

(** ** Signals *)

Definition fn_key (n : Node) : option string :=
  if is_func n then Some (key3 (n_Service n) (n_File n) (n_Label n)) else None.
Definition http_ids (nodes : list Node) : gset string :=
  list_to_set (map n_ID (List.filter (fun n => is_type n NodeTypeHTTPClient) nodes)).
Definition client_key (isHTTP : gset string) (e : Edge) : option string :=
  if str_eqb (ed_Type e) EdgeTypeCalls && bool_decide (ed_To e ∈ isHTTP) then Some (ed_From e) else None.

Definition signal_edge (n : Node) (hc : string) : Edge :=
  link_edge (arrow_id EdgeTypeFlowsTo hc (n_ID n)) hc (n_ID n) EdgeTypeFlowsTo ConfidenceInferred
    (<["via" := "resource"]> {["loader" := meta_of n "resource_fn"]}).

Definition signal_edges (fnByKey : gmap string string) (clientsByFn : gmap string (list string)) (n : Node) : list Edge :=
  let rf := meta_of n "resource_fn" in
  if str_eqb rf "" then []
  else
    let fnID := default "" (fnByKey !! key3 (n_Service n) (n_File n) rf) in
    if str_eqb fnID "" then [] else map (signal_edge n) (get_all clientsByFn fnID).

Definition LinkResourceSignals (nodes : list Node) (edges : list Edge) : list Edge :=
  let isHTTP := http_ids nodes in
  let clientsByFn := index_all (client_key isHTTP) ed_To edges in
  first_by_id (concat (map (signal_edges (index_first fn_key n_ID nodes) clientsByFn) nodes)).

(** * Theorems

    What the passes of LkData link: every statement that names a table is
    joined to the schema's tables of that name, to a table minted for it, or is
    in the ledger; a call site is joined to the engines it can reach. *)

(** ** Tables *)

(** The table a node's statement names. *)
Definition table_of (n : Node) (table : string) : Prop :=
  is_call n = true /\ parseSQLTable (meta_of n "sql") = table /\ table <> "".

(** The tables the workspace's schemas declare under a name. *)
Definition schema_tables (nodes : list Node) (table : string) : list string :=
  map n_ID (List.filter (fun n => is_type n NodeTypeTable && str_eqb (n_Label n) table) nodes).

Definition in_test (n : Node) : bool := HasSuffix (n_File n) "_test.go".

Lemma byName_schema nodes table : get_all (index_all table_key n_ID nodes) table = schema_tables nodes table.
Proof.
  rewrite get_all_lookup. unfold schema_tables, keyed_by. f_equal. apply filter_ext. intros n.
  unfold table_key. destruct (is_type n NodeTypeTable); cbn [andb]; apply eq_true_iff_eq;
    rewrite bool_decide_eq_true, ?Stdlib.Strings.String.eqb_eq; naive_solver.
Qed.

Section tables.
Context (byName : gmap string (list string)).
Notation schema := (get_all byName).

(** The edges a node contributes. *)
Definition table_edges_of (n : Node) : list Edge :=
  let table := parseSQLTable (meta_of n "sql") in
  if negb (is_call n) || str_eqb table "" then []
  else match schema table with
       | [] => if in_test n then [] else [table_edge n table (tableID (n_Service n) table)]
       | targets => map (table_edge n table) targets
       end.

(** A node whose statement names a table no schema declares, outside tests. *)
Definition mints (n : Node) (table : string) : Prop :=
  table_of n table /\ schema table = [] /\ in_test n = false.

Record table_inv (done : list Node) (st : tableState) : Prop := {
  ti_edges : ts_edges st = concat (map table_edges_of done);
  ti_seen x : x ∈ ts_seen st <-> x ∈ map n_ID (ts_newNodes st);
  ti_NoDup : NoDup (map n_ID (ts_newNodes st));
  ti_minted n table : n ∈ done -> mints n table -> tableID (n_Service n) table ∈ map n_ID (ts_newNodes st);
  ti_new m : m ∈ ts_newNodes st -> exists n table, n ∈ done /\ mints n table /\ m = synthetic_table n table;
  ti_coll key : key ∈ ts_seenCollision st -> exists n table, n ∈ done /\ table_of n table /\
    key = key2 table (n_ID n) /\ ledger n table "sql_table_query_collision" ∈ ts_unresolved st;
  ti_ambiguous n table : n ∈ done -> table_of n table -> 2 <= length (schema table) ->
    key2 table (n_ID n) ∈ ts_seenCollision st;
  ti_test n table : n ∈ done -> table_of n table -> schema table = [] -> in_test n = true ->
    ledger n table "sql_table_test_unresolved" ∈ ts_unresolved st
}.

(** A node that names no table changes nothing. *)
Lemma table_inv_skip done st n : table_inv done st -> table_edges_of n = [] -> (forall t, ~ table_of n t) ->
  table_inv (done ++ [n]) st.
Proof.
  intros [H1 H2 H3 H4 H5 H6 H7 H8] He Hn. split; [|done|done|..].
  - rewrite map_app, concat_app. cbn. by rewrite He, !app_nil_r.
  - intros m t [Hm|Hm%list_elem_of_singleton]%elem_of_app Ht; [by apply (H4 m)|]. subst. destruct Ht as [Ht _]. by apply Hn in Ht.
  - intros m (x & t & Hx & Hr)%H5. exists x, t. rewrite elem_of_app. tauto.
  - intros k (x & t & Hx & Hr)%H6. exists x, t. rewrite elem_of_app. tauto.
  - intros m t [Hm|Hm%list_elem_of_singleton]%elem_of_app Ht; [by apply (H7 m)|]. subst. by apply Hn in Ht.
  - intros m t [Hm|Hm%list_elem_of_singleton]%elem_of_app Ht; [by apply (H8 m)|]. subst. by apply Hn in Ht.
Qed.

(** A node that names one: what its step must establish. *)
Lemma table_inv_add done st st' n table : table_inv done st -> table_of n table ->
  ts_edges st' = ts_edges st ++ table_edges_of n ->
  (forall x, x ∈ ts_seen st' <-> x ∈ map n_ID (ts_newNodes st')) -> NoDup (map n_ID (ts_newNodes st')) ->
  (forall m, m ∈ ts_newNodes st -> m ∈ ts_newNodes st') ->
  (forall m, m ∈ ts_newNodes st' -> m ∈ ts_newNodes st \/ mints n table /\ m = synthetic_table n table) ->
  (mints n table -> tableID (n_Service n) table ∈ map n_ID (ts_newNodes st')) ->
  (forall u, u ∈ ts_unresolved st -> u ∈ ts_unresolved st') ->
  (forall k, k ∈ ts_seenCollision st -> k ∈ ts_seenCollision st') ->
  (forall k, k ∈ ts_seenCollision st' -> k ∈ ts_seenCollision st \/
     k = key2 table (n_ID n) /\ ledger n table "sql_table_query_collision" ∈ ts_unresolved st') ->
  (2 <= length (schema table) -> key2 table (n_ID n) ∈ ts_seenCollision st') ->
  (schema table = [] -> in_test n = true -> ledger n table "sql_table_test_unresolved" ∈ ts_unresolved st') ->
  table_inv (done ++ [n]) st'.
Proof.
  intros [H1 H2 H3 H4 H5 H6 H7 H8] Ht He J2 J3 J4 J5 J6 J7 J8 J9 J10 J11.
  assert (Hdet : forall t, table_of n t -> t = table) by (intros t (_ & <- & _); by destruct Ht as (_ & <- & _)).
  split; [|done|done|..].
  - rewrite map_app, concat_app. cbn. by rewrite app_nil_r, He, H1.
  - intros m t [Hm|Hm%list_elem_of_singleton]%elem_of_app Hmi; subst.
    + apply (H4 m t) in Hmi; [|done]. apply list_elem_of_fmap in Hmi as (x & -> & Hx).
      apply list_elem_of_fmap. exists x. auto.
    + pose proof (Hdet t (proj1 Hmi)) as ->. by apply J6.
  - intros m [(x & t & Hx & Hr)%H5|[Hm ->]]%J5; [exists x, t|exists n, table]; rewrite elem_of_app.
    + tauto.
    + split; [right; left|done].
  - intros k [(x & t & Hx & Hr & Hk & Hl)%H6|[-> Hl]]%J9; [exists x, t|exists n, table]; rewrite elem_of_app.
    + split_and!; auto; apply Hr.
    + split; [right; left|done].
  - intros m t [Hm|Hm%list_elem_of_singleton]%elem_of_app Hmt Hl; subst; [apply J8; by apply (H7 m t)|].
    apply Hdet in Hmt as ->. by apply J10.
  - intros m t [Hm|Hm%list_elem_of_singleton]%elem_of_app Hmt Hs Hi; subst; [apply J7; by apply (H8 m t)|].
    apply Hdet in Hmt as ->. by apply J11.
Qed.

Lemma table_step_inv done st n : table_inv done st -> table_inv (done ++ [n]) (table_step byName st n).
Proof.
  intros Hi. unfold table_step. pose proof (eq_refl (table_edges_of n)) as He. unfold table_edges_of at 2 in He.
  destruct (is_call n) eqn:Ec; cbn [negb orb] in *; [|apply table_inv_skip; [done..|by intros t (? & _); congruence]].
  set (table := parseSQLTable _) in *. case (Stdlib.Strings.String.eqb_spec table ""); intros Et.
  { rewrite Et in He. apply table_inv_skip; [done..|]. intros t (_ & <- & H). by apply H. }
  assert (Ht : table_of n table) by done. rewrite (proj2 (Stdlib.Strings.String.eqb_neq _ _) Et) in He.
  destruct Hi as [H1 H2 H3 H4 H5 H6 H7 H8]. pose proof (Build_table_inv _ _ H1 H2 H3 H4 H5 H6 H7 H8) as Hi.
  destruct (schema table) as [|t1 [|t2 ts]] eqn:Es.
  - unfold in_test in He. destruct (HasSuffix (n_File n) "_test.go") eqn:Ef.
    + eapply table_inv_add; try exact Hi; try exact Ht; cbn; try done; rewrite ?He, ?app_nil_r; auto.
      * intros (_ & _ & Hf). unfold in_test in Hf. congruence.
      * intros u Hu. apply elem_of_app. by left.
      * rewrite Es. cbn. lia.
      * intros _ _. apply elem_of_app. right. left.
    + assert (Hm : mints n table) by done. unfold mint_table.
      destruct (decide (tableID (n_Service n) table ∈ ts_seen st)) as [Hin|Hin];
        (eapply table_inv_add; [exact Hi|exact Ht|..]; cbn; auto; try done; rewrite ?He, ?Es; try done).
      * intros _. by apply H2.
      * cbn. lia.
      * intros _ Hf. unfold in_test in Hf. congruence.
      * intros x. rewrite map_app, elem_of_union, elem_of_app, H2. cbn. rewrite elem_of_singleton, list_elem_of_singleton. tauto.
      * rewrite map_app. apply NoDup_app. split_and!; [done| |apply NoDup_singleton].
        intros x Hx ->%list_elem_of_singleton. by apply Hin, H2.
      * intros m Hx. apply elem_of_app. by left.
      * intros m [Hx|Hx%list_elem_of_singleton]%elem_of_app; [by left|by right].
      * intros _. rewrite map_app. apply elem_of_app. right. left.
      * cbn. lia.
      * intros _ Hf. unfold in_test in Hf. congruence.
  - eapply table_inv_add; [exact Hi|exact Ht|..]; cbn; auto; try done; rewrite ?He, ?Es; try done.
    + intros (_ & Hs & _). by rewrite Es in Hs.
    + cbn. lia.
  - unfold note_collision.
    destruct (decide (key2 table (n_ID n) ∈ ts_seenCollision st)) as [Hin|Hin];
      (eapply table_inv_add; [exact Hi|exact Ht|..]; cbn; auto; try done; rewrite ?He, ?Es; try done;
       try (by intros (_ & Hs & _); rewrite Es in Hs)).
    + intros u Hu. apply elem_of_app. by left.
    + intros k Hk. apply elem_of_union. by right.
    + intros k [->%elem_of_singleton|Hk]%elem_of_union; [right|by left]. split; [done|].
      apply elem_of_app. right. left.
    + intros _. apply elem_of_union. left. by apply elem_of_singleton.
Qed.

Lemma LinkTables_inv nodes st0 done : table_inv done st0 ->
  table_inv (done ++ nodes) (fold_left (table_step byName) nodes st0).
Proof.
  revert done st0. induction nodes as [|n nodes IH]; intros done st0 Hi; [by rewrite app_nil_r|].
  cbn [fold_left]. rewrite cons_middle, app_assoc. apply IH. by apply table_step_inv.
Qed.
End tables.

(** C24: Every call site whose statement names a table is accounted for by
    LinkTables.  When schemas declare the table, the site is joined to every
    declaration, and is in the ledger as well when there are several; when
    none does, a site of a test is in the ledger, and any other is joined to
    the node minted for its service and table.  There are no other edges, a
    node is minted once, and only for a table no schema declares. *)
Theorem LinkTables_accounts (nodes : list Node) :
  NoDup (map n_ID nodes) -> (forall n, n ∈ nodes -> nul_free (parseSQLTable (meta_of n "sql")) = true) ->
  let st := LinkTables nodes in
  (forall n t, n ∈ nodes -> table_of n t ->
     (forall tid, tid ∈ schema_tables nodes t -> table_edge n t tid ∈ ts_edges st) /\
     (2 <= length (schema_tables nodes t) -> ledger n t "sql_table_query_collision" ∈ ts_unresolved st) /\
     (schema_tables nodes t = [] ->
        if in_test n then ledger n t "sql_table_test_unresolved" ∈ ts_unresolved st
        else table_edge n t (tableID (n_Service n) t) ∈ ts_edges st /\
             tableID (n_Service n) t ∈ map n_ID (ts_newNodes st))) /\
  (forall e, e ∈ ts_edges st -> exists n t tid, n ∈ nodes /\ table_of n t /\ e = table_edge n t tid /\
     (tid ∈ schema_tables nodes t \/
      schema_tables nodes t = [] /\ in_test n = false /\ tid = tableID (n_Service n) t)) /\
  NoDup (map n_ID (ts_newNodes st)) /\
  (forall m, m ∈ ts_newNodes st -> exists n t, n ∈ nodes /\ table_of n t /\ schema_tables nodes t = [] /\
     in_test n = false /\ m = synthetic_table n t).
Proof.
  intros Hids Hnul st. set (byName := index_all table_key n_ID nodes) in *.
  assert (Hsch : forall t, get_all byName t = schema_tables nodes t) by apply byName_schema.
  assert (Hi : table_inv byName nodes st).
  { apply (LinkTables_inv byName nodes _ []). split; cbn; try done; try (intros *; set_solver).
    apply NoDup_nil_2. }
  destruct Hi as [H1 H2 H3 H4 H5 H6 H7 H8]. split_and!; [| |done|].
  - intros n t Hn Ht.
    assert (He : table_edges_of byName n = match schema_tables nodes t with
      | [] => if in_test n then [] else [table_edge n t (tableID (n_Service n) t)]
      | targets => map (table_edge n t) targets end).
    { unfold table_edges_of. destruct Ht as (Hc & E & Hne). rewrite E, Hsch, Hc.
      by rewrite (proj2 (Stdlib.Strings.String.eqb_neq _ _) Hne). }
    assert (Hsub : forall e, e ∈ table_edges_of byName n -> e ∈ ts_edges st).
    { intros e Hin. rewrite H1. apply elem_of_concat_map_list. by exists n. }
    split_and!.
    + intros tid Hin. apply Hsub. rewrite He. destruct (schema_tables nodes t); [by apply elem_of_nil in Hin|].
      apply list_elem_of_fmap. by exists tid.
    + intros Hl. rewrite <- Hsch in Hl. apply (H7 n t Hn Ht) in Hl.
      apply H6 in Hl as (m & u & Hm & (Hc & E & Hne) & Hk & Hl). destruct Ht as (_ & Et & _).
      apply key2_inj in Hk as [<- Eid]; [|rewrite <- Et; by apply Hnul|rewrite <- E; by apply Hnul].
      assert (n = m) as ->; [|done]. clear -Hids Hn Hm Eid.
      apply list_elem_of_lookup in Hn as (i & Hn), Hm as (j & Hm).
      assert (i = j) as ->; [|congruence]. apply (NoDup_lookup (map n_ID nodes) i j (n_ID n) Hids);
        rewrite list_lookup_fmap, ?Hn, ?Hm; cbn; congruence.
    + intros Hs. destruct (in_test n) eqn:Ei.
      * apply H8; [done..|by rewrite Hsch|done].
      * split; [apply Hsub; rewrite He, Hs; left|]. apply H4; [done|]. split_and!; [done|by rewrite Hsch|done].
  - intros e. rewrite H1. intros (n & Hn & He)%elem_of_concat_map_list. unfold table_edges_of in He.
    destruct (_ || _) eqn:Ec in He; [by apply elem_of_nil in He|].
    apply orb_false_iff in Ec as [Hc%negb_false_iff Hne%Stdlib.Strings.String.eqb_neq]. rewrite Hsch in He.
    exists n, (parseSQLTable (meta_of n "sql")). destruct (schema_tables nodes _) as [|t1 ts] eqn:Es.
    + destruct (in_test n) eqn:Ei; [by apply elem_of_nil in He|]. apply list_elem_of_singleton in He as ->.
      eexists. split_and!; [done..|]. by right.
    + apply list_elem_of_fmap in He as (tid & -> & Hin). exists tid. split_and!; [done..|]. by left.
  - intros m (n & t & Hn & (Ht & Hs & Hi) & ->)%H5. exists n, t. rewrite <- Hsch. done.
Qed.

Definition sql_node (id file sql : string) : Node :=
  mkNode id NodeTypeDatastore id "api" file 1 1 "go"
    (<["kind" := "call"]> {["sql" := sql]}) "".
Definition sql_nodes : list Node :=
  [sql_node "c1" "a.go" "SELECT * FROM users"; sql_node "c2" "a.go" "DELETE FROM legacy";
   sql_node "c3" "a_test.go" "DELETE FROM legacy";
   mkNode "t1" NodeTypeTable "users" "db" "s.sql" 1 1 "sql" ∅ ""].

Lemma LinkTables_accounts_witness :
  NoDup (map n_ID (ts_newNodes (LinkTables sql_nodes))) /\
  table_edge (sql_node "c1" "a.go" "SELECT * FROM users") "users" "t1" ∈ ts_edges (LinkTables sql_nodes).
Proof.
  destruct (LinkTables_accounts sql_nodes) as (H1 & _ & H2 & _).
  - apply (bool_decide_eq_true_1 _). vm_compute. reflexivity.
  - intros n [->|[->|[->|[->|Hn]%elem_of_cons]%elem_of_cons]%elem_of_cons]%elem_of_cons;
      [reflexivity..|by apply elem_of_nil in Hn].
  - split; [exact H2|]. apply (H1 (sql_node "c1" "a.go" "SELECT * FROM users") "users"); [left| |].
    + split; [reflexivity|]. split; [reflexivity|discriminate].
    + vm_compute. left.
Defined.

(** ** Datastores and signals *)

(** A call site that no table explains reaches the engines of its service
    its library can drive, hedged when there are several. *)
Lemma LinkDatastores_exact nodes existing e : e ∈ LinkDatastores nodes existing <->
  exists n s, n ∈ nodes /\ is_call n = true /\ n_ID n ∉ has_table_edge nodes existing /\
    let targets := stores_of (index_all store_key n_ID nodes) (index_all gorm_store_key n_ID nodes) n in
    s ∈ targets /\ e = link_edge (arrow_id (call_edge_type n) (n_ID n) s) (n_ID n) s (call_edge_type n)
      (if (1 <? length targets)%nat then ConfidencePartial else ConfidenceInferred) ∅.
Proof.
  unfold LinkDatastores. rewrite elem_of_concat_map_list. split.
  - intros (n & Hn & He). unfold store_edges in He. destruct (_ || _) eqn:Ec in He; [by apply elem_of_nil in He|].
    apply orb_false_iff in Ec as [Hc%negb_false_iff Ht%bool_decide_eq_false].
    apply list_elem_of_fmap in He as (s & -> & Hs). by exists n, s.
  - intros (n & s & Hn & Hc & Ht & Hs & ->). exists n. split; [done|]. unfold store_edges.
    rewrite Hc, bool_decide_eq_false_2 by done. cbn [negb orb]. apply list_elem_of_fmap. by exists s.
Qed.

(** GORM calls only reach engines with a GORM driver, when the service has one. *)
Lemma gorm_targets nodes n s : is_gorm_call n = true ->
  (exists m, m ∈ nodes /\ gorm_store_key m = Some (n_Service n)) ->
  s ∈ stores_of (index_all store_key n_ID nodes) (index_all gorm_store_key n_ID nodes) n ->
  exists m, m ∈ nodes /\ gorm_store_key m = Some (n_Service n) /\ s = n_ID m.
Proof.
  unfold stores_of. intros -> (m & Hm & Hk) Hs.
  pose proof (proj2 (elem_of_get_all gorm_store_key n_ID nodes (n_Service n) (n_ID m)) ltac:(by exists m)) as Hin.
  destruct (get_all (index_all gorm_store_key _ _) _) as [|g gs] eqn:E; [by apply elem_of_nil in Hin|].
  rewrite <- E in Hs. by apply elem_of_get_all in Hs.
Qed.

(** A fetch flows to a signal exactly when the signal's loader is a function of
    its file that makes the fetch. *)
Lemma LinkResourceSignals_exact nodes edges hc sig :
  arrow_id EdgeTypeFlowsTo hc (n_ID sig) ∈ map ed_ID (LinkResourceSignals nodes edges) <->
  exists n hc' f, n ∈ nodes /\ arrow_id EdgeTypeFlowsTo hc (n_ID sig) = arrow_id EdgeTypeFlowsTo hc' (n_ID n) /\
    meta_of n "resource_fn" <> "" /\ f <> "" /\
    index_first fn_key n_ID nodes !! key3 (n_Service n) (n_File n) (meta_of n "resource_fn") = Some f /\
    exists e, e ∈ edges /\ ed_Type e = EdgeTypeCalls /\ ed_To e ∈ http_ids nodes /\ ed_From e = f /\ ed_To e = hc'.
Proof.
  unfold LinkResourceSignals. set (clients := index_all (client_key (http_ids nodes)) ed_To edges).
  set (l := concat _). destruct (first_by_id_spec l) as (_ & H2 & H3).
  assert (Hl : forall e, e ∈ l <-> exists n hc' f, n ∈ nodes /\ e = signal_edge n hc' /\
    meta_of n "resource_fn" <> "" /\ f <> "" /\
    index_first fn_key n_ID nodes !! key3 (n_Service n) (n_File n) (meta_of n "resource_fn") = Some f /\
    hc' ∈ get_all clients f).
  { intros e. unfold l. rewrite elem_of_concat_map_list. split.
    - intros (n & Hn & He). unfold signal_edges in He.
      destruct (Stdlib.Strings.String.eqb_spec (meta_of n "resource_fn") ""); [by apply elem_of_nil in He|].
      destruct (_ !! _) as [f|] eqn:Ef in He; cbn [default from_option] in He; [|by apply elem_of_nil in He].
      change (id f) with f in He.
      destruct (Stdlib.Strings.String.eqb_spec f "") as [E|E]; [by apply elem_of_nil in He|].
      apply list_elem_of_fmap in He as (hc' & -> & Hc). by exists n, hc', f.
    - intros (n & hc' & f & Hn & -> & Hr & Hf & Ef & Hc). exists n. split; [done|]. unfold signal_edges.
      rewrite (proj2 (Stdlib.Strings.String.eqb_neq _ _) Hr), Ef. cbn [default from_option]. change (id f) with f.
      rewrite (proj2 (Stdlib.Strings.String.eqb_neq _ _) Hf). apply list_elem_of_fmap. by exists hc'. }
  assert (Hcl : forall f hc', hc' ∈ get_all clients f <-> exists e, e ∈ edges /\ ed_Type e = EdgeTypeCalls /\
    ed_To e ∈ http_ids nodes /\ ed_From e = f /\ ed_To e = hc').
  { intros f hc'. unfold clients. rewrite elem_of_get_all. unfold client_key. split.
    - intros (e & He & Hk & ->). exists e. destruct (_ && _) eqn:E in Hk; [|done]. injection Hk as <-.
      apply andb_true_iff in E as [E1%Stdlib.Strings.String.eqb_eq E2%bool_decide_eq_true]. done.
    - intros (e & He & Ht & Hin & <- & <-). exists e. rewrite Ht, bool_decide_eq_true_2 by done. done. }
  split.
  - intros (e & Eid & He%H2)%list_elem_of_fmap. apply Hl in He as (n & hc' & f & Hn & -> & Hr & Hf & Ef & Hc).
    exists n, hc', f. split_and!; try done. by apply Hcl.
  - intros (n & hc' & f & Hn & -> & Hr & Hf & Ef & Hc). apply (H3 (signal_edge n hc')). apply Hl.
    exists n, hc', f. split_and!; try done. by apply Hcl.
Qed.
