(* ===== verification/LkBroker.v ===== *)
(** Broker hints (internal/linker/linker.go, LinkBrokerHints): the exchanges a
    workspace declares between two services, met by the publishers and
    consumers that name them. *)
From S2P Require Import Prelude GoStrings GrModel CtNormalize CtEngine GrVerdict LkIndex LkRoutes.

Definition EdgeTypePublishes : EdgeType := "publishes".

Definition is_rabbit (l : Link) : bool := str_eqb (l_Via l) "rabbitmq" && negb (str_eqb (l_Exchange l) "").

(** ** Evidence *)

(** [set[q][ex]] *)
Definition queue_step (m : gmap string (gset string)) (n : Node) : gmap string (gset string) :=
  if negb (is_type n NodeTypeChannel) then m
  else
    let q := stripMeta (meta_of n "queue_name") in
    let ex := stripMeta (meta_of n "exchange") in
    if str_eqb q "" || str_eqb ex "" then m
    else <[q := {[ex]} ∪ default ∅ (m !! q)]> m.

Definition queueExchangeIndex (nodes : list Node) : gmap string (list string) :=
  (fun exs => sort_strings (elements exs)) <$> fold_left queue_step nodes ∅.

(** The words of the matcher for an exchange it could not resolve. *)
Definition add_evidence (ev : gset string) (s : string) : gset string :=
  let s := TrimSpace (stripMeta s) in
  if str_eqb s "" || str_eqb s "dynamic" || str_eqb s "*" then ev else {[s]} ∪ ev.

Definition queue_exchanges (queueEx : gmap string (list string)) (n : Node) (field : string) : list string :=
  let q := TrimSpace (stripMeta (meta_of n field)) in
  if str_eqb q "" then [] else get_all queueEx q.

Definition nodeExchangeEvidence (queueEx : gmap string (list string)) (n : Node) : gset string :=
  fold_left add_evidence
    ([meta_of n "exchange"] ++ Split "," (meta_of n "exchange_candidates") ++
     queue_exchanges queueEx n "queue_name" ++ queue_exchanges queueEx n "queue") ∅.

(** ** Channels *)

Inductive Tier : Type := tierRendezvous | tierKeyed | tierOther.
#[export] Instance Tier_eq_dec : EqDecision Tier.
Proof. solve_decision. Defined.
Definition tier_num (t : Tier) : nat := match t with tierRendezvous => 0 | tierKeyed => 1 | tierOther => 2 end.

Definition channel_tier (n : Node) : Tier :=
  let ex := stripMeta (meta_of n "exchange") in
  if HasPrefix (n_ID n) (n_Service n +:+ ":channel:" +:+ ex) then
    if str_eqb (stripMeta (meta_of n "routing_key")) "" then tierRendezvous else tierKeyed
  else tierOther.

Definition tier_key (n : Node) : option (string * nat) :=
  let ex := stripMeta (meta_of n "exchange") in
  if negb (is_type n NodeTypeChannel) || str_eqb (meta_of n "hint") "true" then None
  else if str_eqb ex "" || str_eqb (n_Service n) "" then None
  else Some (key2 (n_Service n) ex, tier_num (channel_tier n)).

(** realChannelIndex, read at a service and an exchange: the first tier with a
    channel. *)
Abbreviation ChannelIndex := (gmap (string * nat) (list string)).
Definition realChannelIndex (nodes : list Node) : ChannelIndex := index_all tier_key n_ID nodes.
Definition real_channels (idx : ChannelIndex) (service exchange : string) : list string :=
  let at_tier t := get_all idx (key2 service exchange, tier_num t) in
  sort_strings
    match at_tier tierRendezvous, at_tier tierKeyed with
    | [], [] => at_tier tierOther
    | [], ids => ids
    | ids, _ => ids
    end.

(** ** The pass *)

Record hintState : Type := mkHintState {
  hs_minted : gset string; hs_seenEdge : gset string;
  hs_newNodes : list Node; hs_edges : list Edge; hs_unresolved : list UnresolvedRef
}.

Definition hint_channel_id (l : Link) : string := "broker:channel:" +:+ l_Exchange l.
Definition hint_channel (l : Link) : Node :=
  mkNode (hint_channel_id l) NodeTypeChannel (l_Exchange l) (l_From l) "" 0 0 ""
    (<["exchange" := l_Exchange l]> (<["hint" := "true"]> {["synthetic" := "true"]})) "".

(** channelsFor: the channels of the two services, or a channel minted once. *)
Definition channelsFor (chanIdx : ChannelIndex) (l : Link) (st : hintState) : hintState * list string :=
  match real_channels chanIdx (l_From l) (l_Exchange l), real_channels chanIdx (l_To l) (l_Exchange l) with
  | [], [] =>
      let id := hint_channel_id l in
      (if decide (id ∈ hs_minted st) then st
       else mkHintState ({[id]} ∪ hs_minted st) (hs_seenEdge st) (hs_newNodes st ++ [hint_channel l])
              (hs_edges st) (hs_unresolved st), [id])
  | [], real => (st, real)
  | real, _ => (st, real)
  end.

Definition is_pub (n : Node) : bool := is_type n NodeTypePublisher.

Definition hint_edge (n : Node) (conf : string) (fanout : Z) (via chanID : string) : Edge :=
  let m : Meta := {["via" := via]} in
  let meta := if (1 <? fanout)%Z then <["fanout" := itoa fanout]> m else m in
  if is_pub n then link_edge (arrow_id "publishes" (n_ID n) chanID) (n_ID n) chanID EdgeTypePublishes conf meta
  else link_edge (arrow_id "subscribes" chanID (n_ID n)) chanID (n_ID n) EdgeTypeSubscribes conf meta.

Definition add_hint_edge (n : Node) (conf : string) (fanout : Z) (via : string) (st : hintState) (chanID : string) :
    hintState :=
  if str_eqb chanID (n_ID n) then st
  else
    let e := hint_edge n conf fanout via chanID in
    if decide (ed_ID e ∈ hs_seenEdge st) then st
    else mkHintState (hs_minted st) ({[ed_ID e]} ∪ hs_seenEdge st) (hs_newNodes st) (hs_edges st ++ [e])
           (hs_unresolved st).

Definition emitHintEdges (n : Node) (channelIDs : list string) (conf : string) (fanout : Z) (via : string)
    (st : hintState) : hintState :=
  let many := (1 <? length channelIDs)%nat in
  let conf' := if many then ConfidencePartial else conf in
  let fanout' := if many then (fanout * Z.of_nat (length channelIDs))%Z else fanout in
  fold_left (add_hint_edge n conf' fanout' via) channelIDs st.

Definition isBrokerPattern (pattern : string) : bool :=
  if HasPrefix pattern "ws_" || HasPrefix pattern "hub_" || HasPrefix pattern "pusher_" then false
  else Contains pattern "publish" || Contains pattern "consume" || Contains pattern "subscribe".

Definition isDynamicKicksConsumer (n : Node) : bool :=
  is_type n NodeTypeChannel && str_eqb (meta_of n "pattern") "kicks_from_queue" &&
  str_eqb (stripMeta (meta_of n "queue_name")) "".

(** The nodes a hint can be for. *)
Definition broker_node (n : Node) : bool :=
  isDynamicKicksConsumer n ||
  ((is_type n NodeTypePublisher || is_type n NodeTypeSubscriber) && isBrokerPattern (meta_of n "pattern")).

(** A link the node could serve, by role and service. *)
Definition eligible (n : Node) (l : Link) : bool :=
  if is_pub n && str_eqb (n_Service n) (l_From l) then str_eqb (stripMeta (meta_of n "exchange")) ""
  else negb (is_pub n) && str_eqb (n_Service n) (l_To l).

Definition serve (chanIdx : ChannelIndex) (n : Node) (conf : string) (fanout : Z) (st : hintState) (l : Link) :
    hintState :=
  let '(st', ids) := channelsFor chanIdx l st in emitHintEdges n ids conf fanout "workspace_hint" st'.

Definition give_up_on (n : Node) (st : hintState) : hintState :=
  let name := if str_eqb (n_Label n) "" then n_ID n else n_Label n in
  mkHintState (hs_minted st) (hs_seenEdge st) (hs_newNodes st) (hs_edges st)
    (hs_unresolved st ++ [ledger n name "amqp_exchange_unresolved"]).

Definition hint_node (rabbit : list Link) (queueEx : gmap string (list string)) (chanIdx : ChannelIndex)
    (st : hintState) (n : Node) : hintState :=
  if negb (broker_node n) then st
  else match List.filter (eligible n) rabbit with
       | [] => st
       | elig =>
           let evidence := nodeExchangeEvidence queueEx n in
           match List.filter (fun l => bool_decide (l_Exchange l ∈ evidence)) elig with
           | [] =>
               match elig with
               | [l] => if decide (evidence = ∅) then serve chanIdx n ConfidenceStatic 1 st l else give_up_on n st
               | _ => give_up_on n st
               end
           | matched =>
               let conf := if (1 <? length matched)%nat then ConfidencePartial else ConfidenceStatic in
               fold_left (serve chanIdx n conf (Z.of_nat (length matched))) matched st
           end
       end.

Definition no_hints : hintState := mkHintState ∅ ∅ [] [] [].

Definition LinkBrokerHints (links : list Link) (nodes : list Node) : hintState :=
  match List.filter is_rabbit links with
  | [] => no_hints
  | rabbit => fold_left (hint_node rabbit (queueExchangeIndex nodes) (realChannelIndex nodes)) nodes no_hints
  end.

(** * Theorems

    What LinkBrokerHints attaches: a node meets a declared exchange only on
    evidence that it uses it, and never claims more than the evidence says. *)

Section hints.
Context (rabbit : list Link) (queueEx : gmap string (list string)) (chanIdx : ChannelIndex).

(** ** What each node asks for *)

Definition evidence_of (n : Node) : gset string := nodeExchangeEvidence queueEx n.
Definition named_links (n : Node) : list Link :=
  List.filter (fun l => bool_decide (l_Exchange l ∈ evidence_of n)) (List.filter (eligible n) rabbit).

(** The links a node is attached to: those it names, or the only one there is
    when it names nothing. *)
Definition served (n : Node) : list Link :=
  if negb (broker_node n) then []
  else match named_links n, List.filter (eligible n) rabbit with
       | [], [l] => if decide (evidence_of n = ∅) then [l] else []
       | matched, _ => matched
       end.

Definition abandoned (n : Node) : bool :=
  broker_node n && bool_decide (List.filter (eligible n) rabbit <> []) && bool_decide (served n = []).

(** Where a link's two sides meet. *)
Definition meets (l : Link) : list string :=
  match real_channels chanIdx (l_From l) (l_Exchange l), real_channels chanIdx (l_To l) (l_Exchange l) with
  | [], [] => [hint_channel_id l]
  | [], real => real
  | real, _ => real
  end.

Definition hedged (n : Node) (l : Link) : bool := (1 <? length (served n))%nat || (1 <? length (meets l))%nat.

(** The edges between a node and the channels of a link. *)
Definition meeting_edges (n : Node) (l : Link) : list Edge :=
  map (hint_edge n (if hedged n l then ConfidencePartial else ConfidenceStatic)
         (Z.of_nat (length (served n)) * Z.of_nat (length (meets l))) "workspace_hint")
    (List.filter (fun c => negb (str_eqb c (n_ID n))) (meets l)).

Definition node_hint_edges (n : Node) : list Edge := concat (map (meeting_edges n) (served n)).

(** ** The loops compute that *)

Lemma channelsFor_meets l st : snd (channelsFor chanIdx l st) = meets l /\
  hs_seenEdge (fst (channelsFor chanIdx l st)) = hs_seenEdge st /\
  hs_edges (fst (channelsFor chanIdx l st)) = hs_edges st /\
  hs_unresolved (fst (channelsFor chanIdx l st)) = hs_unresolved st.
Proof.
  unfold channelsFor, meets. destruct (real_channels chanIdx (l_From l) (l_Exchange l)), (real_channels chanIdx (l_To l) (l_Exchange l)); try done.
  by case_decide.
Qed.

Lemma add_hint_edges n conf fanout via ids st :
  let st' := fold_left (add_hint_edge n conf fanout via) ids st in
  (hs_seenEdge st', hs_edges st') =
    fold_left add_unseen (map (hint_edge n conf fanout via) (List.filter (fun c => negb (str_eqb c (n_ID n))) ids))
      (hs_seenEdge st, hs_edges st) /\
  hs_minted st' = hs_minted st /\ hs_newNodes st' = hs_newNodes st /\ hs_unresolved st' = hs_unresolved st.
Proof.
  revert st. induction ids as [|c ids IH]; intros st; [done|]. cbn [fold_left List.filter].
  specialize (IH (add_hint_edge n conf fanout via st c)). revert IH. cbv zeta.
  generalize (fold_left (add_hint_edge n conf fanout via) ids (add_hint_edge n conf fanout via st c)).
  intros st'. unfold add_hint_edge. destruct (str_eqb c (n_ID n)); cbn [negb]; [done|].
  cbn [map fold_left]. unfold add_unseen at 3. by case_decide.
Qed.

Lemma meeting_edges_serve n l st : l ∈ served n ->
  let st' := serve chanIdx n (if (1 <? length (served n))%nat then ConfidencePartial else ConfidenceStatic)
    (Z.of_nat (length (served n))) st l in
  (hs_seenEdge st', hs_edges st') = fold_left add_unseen (meeting_edges n l) (hs_seenEdge st, hs_edges st) /\
  hs_unresolved st' = hs_unresolved st /\
  hs_minted st' = hs_minted (fst (channelsFor chanIdx l st)) /\
  hs_newNodes st' = hs_newNodes (fst (channelsFor chanIdx l st)).
Proof.
  intros Hl. unfold serve. destruct (channelsFor_meets l st) as (H1 & H2 & H3 & H4).
  destruct (channelsFor chanIdx l st) as [st1 ids]. cbn [fst snd] in *. subst ids.
  unfold emitHintEdges. rewrite <- H2, <- H3, <- H4.
  pose proof (add_hint_edges n
    (if (1 <? length (meets l))%nat then ConfidencePartial
     else if (1 <? length (served n))%nat then ConfidencePartial else ConfidenceStatic)
    (if (1 <? length (meets l))%nat then (Z.of_nat (length (served n)) * Z.of_nat (length (meets l)))%Z
     else Z.of_nat (length (served n))) "workspace_hint" (meets l) st1) as (J1 & J2 & J3 & J4).
  split_and!; [|done..]. rewrite J1. f_equal. unfold meeting_edges, hedged.
  destruct (Nat.ltb_spec 1 (length (meets l))) as [Hm|Hm]; [by rewrite orb_true_r|]. rewrite orb_false_r.
  assert (Hone : length (meets l) = 1 \/ meets l = []) by (destruct (meets l) as [|? []]; cbn in *; auto; lia).
  destruct Hone as [-> | ->]; [by rewrite Z.mul_1_r|done].
Qed.

Lemma serve_links n ls st : (forall l, l ∈ ls -> l ∈ served n) ->
  let st' := fold_left (serve chanIdx n
    (if (1 <? length (served n))%nat then ConfidencePartial else ConfidenceStatic)
    (Z.of_nat (length (served n)))) ls st in
  (hs_seenEdge st', hs_edges st') =
    fold_left add_unseen (concat (map (meeting_edges n) ls)) (hs_seenEdge st, hs_edges st) /\
  hs_unresolved st' = hs_unresolved st.
Proof.
  revert st. induction ls as [|l ls IH]; intros st Hl; [done|]. cbn [fold_left map concat].
  destruct (meeting_edges_serve n l st) as (H1 & H2 & _); [apply Hl; left|].
  edestruct IH as [H3 H4]; [intros l' Hl'; apply Hl; by right|].
  rewrite fold_left_app, <- H1. split; [exact H3|]. by rewrite H4.
Qed.

(** A node is attached to the links it is served by, or abandoned. *)
Lemma hint_node_cases st n :
  hint_node rabbit queueEx chanIdx st n =
  if abandoned n then give_up_on n st
  else fold_left (serve chanIdx n
    (if (1 <? length (served n))%nat then ConfidencePartial else ConfidenceStatic)
    (Z.of_nat (length (served n)))) (served n) st.
Proof.
  unfold hint_node, abandoned, served, named_links. destruct (broker_node n); cbn [negb andb]; [|done].
  destruct (List.filter (eligible n) rabbit) as [|l ls] eqn:El; [done|].
  rewrite bool_decide_eq_true_2 by done. cbn [andb].
  change (nodeExchangeEvidence queueEx n) with (evidence_of n).
  destruct (List.filter _ (l :: ls)) as [|m ms] eqn:Em.
  - destruct ls as [|l2 ls]; [|done]. by case_decide.
  - by rewrite bool_decide_eq_false_2.
Qed.

Lemma hint_node_edges st n :
  let st' := hint_node rabbit queueEx chanIdx st n in
  (hs_seenEdge st', hs_edges st') = fold_left add_unseen (node_hint_edges n) (hs_seenEdge st, hs_edges st) /\
  hs_unresolved st' = hs_unresolved st ++
    (if abandoned n then [ledger n (if str_eqb (n_Label n) "" then n_ID n else n_Label n) "amqp_exchange_unresolved"]
     else []).
Proof.
  cbv zeta. rewrite hint_node_cases. destruct (abandoned n) eqn:Ea.
  - split; [|done]. unfold node_hint_edges. unfold abandoned in Ea.
    apply andb_true_iff in Ea as [_ ->%bool_decide_eq_true]. done.
  - destruct (serve_links n (served n) st) as [H1 H2]; [done|]. split; [exact H1|]. by rewrite H2, app_nil_r.
Qed.

Lemma hint_nodes_edges nodes st :
  let st' := fold_left (hint_node rabbit queueEx chanIdx) nodes st in
  (hs_seenEdge st', hs_edges st') =
    fold_left add_unseen (concat (map node_hint_edges nodes)) (hs_seenEdge st, hs_edges st) /\
  (forall u, u ∈ hs_unresolved st' <-> u ∈ hs_unresolved st \/ exists n, n ∈ nodes /\ abandoned n = true /\
     u = ledger n (if str_eqb (n_Label n) "" then n_ID n else n_Label n) "amqp_exchange_unresolved").
Proof.
  revert st. induction nodes as [|n nodes IH]; intros st.
  - split; [done|]. intros u. setoid_rewrite elem_of_nil. naive_solver.
  - cbn [fold_left map concat]. destruct (hint_node_edges st n) as [H1 H2].
    destruct (IH (hint_node rabbit queueEx chanIdx st n)) as [H3 H4].
    split; [by rewrite fold_left_app, <- H1|]. intros u. rewrite H4, H2, elem_of_app. setoid_rewrite elem_of_cons.
    destruct (abandoned n) eqn:Ea; rewrite ?list_elem_of_singleton, ?elem_of_nil; naive_solver congruence.
Qed.

(** *** Minted channels *)

Record minted_inv (st : hintState) : Prop := {
  mi_minted x : x ∈ hs_minted st <-> x ∈ map n_ID (hs_newNodes st);
  mi_NoDup : NoDup (map n_ID (hs_newNodes st));
  mi_new m : m ∈ hs_newNodes st -> exists l, l ∈ rabbit /\ m = hint_channel l /\ meets l = [hint_channel_id l]
}.

Definition channel_id (st : hintState) (c : string) : Prop :=
  c ∈ map n_ID (hs_newNodes st) \/ exists svc ex, c ∈ real_channels chanIdx svc ex.

Lemma channelsFor_minted l st : l ∈ rabbit -> minted_inv st ->
  minted_inv (fst (channelsFor chanIdx l st)) /\
  (forall m, m ∈ hs_newNodes st -> m ∈ hs_newNodes (fst (channelsFor chanIdx l st))) /\
  (forall c, c ∈ meets l -> channel_id (fst (channelsFor chanIdx l st)) c).
Proof.
  intros Hl Hi. pose proof Hi as [H1 H2 H3]. unfold channelsFor.
  assert (Hm : meets l = snd (channelsFor chanIdx l st)) by (symmetry; apply channelsFor_meets).
  unfold channel_id. destruct (real_channels chanIdx (l_From l) (l_Exchange l)) as [|a fs] eqn:Ef.
  - destruct (real_channels chanIdx (l_To l) (l_Exchange l)) as [|b ts] eqn:Et.
    + cbn [fst]. assert (Hml : meets l = [hint_channel_id l]) by (unfold meets; by rewrite Ef, Et).
      case_decide as Hin; cbn [hs_minted hs_newNodes].
      * split_and!; [done..|]. intros c. rewrite Hml. intros ->%list_elem_of_singleton. left. by apply H1.
      * split_and!; [split; cbn|..].
        -- intros x. rewrite map_app, elem_of_union, elem_of_app, H1, elem_of_singleton. cbn.
           rewrite list_elem_of_singleton. tauto.
        -- rewrite map_app. apply NoDup_app. split_and!; [done| |apply NoDup_singleton].
           intros x Hx ->%list_elem_of_singleton. by apply Hin, H1.
        -- intros m [Hm'|Hm'%list_elem_of_singleton]%elem_of_app; [by apply H3|]. by exists l.
        -- intros m Hm'. apply elem_of_app. by left.
        -- intros c. rewrite Hml. intros ->%list_elem_of_singleton. left. rewrite map_app. apply elem_of_app.
           right. left.
    + cbn [fst]. split_and!; [done..|]. intros c Hc. right. exists (l_To l), (l_Exchange l). rewrite Et.
      unfold meets in Hc. by rewrite Ef, Et in Hc.
  - cbn [fst]. split_and!; [done..|]. intros c Hc. right. exists (l_From l), (l_Exchange l). rewrite Ef.
    unfold meets in Hc. by rewrite Ef in Hc.
Qed.

Lemma minted_inv_eq st st' : hs_minted st' = hs_minted st -> hs_newNodes st' = hs_newNodes st ->
  minted_inv st -> minted_inv st'.
Proof. intros E1 E2 [H1 H2 H3]. split; rewrite ?E1, ?E2; done. Qed.

Lemma serve_links_minted n ls st : (forall l, l ∈ ls -> l ∈ served n /\ l ∈ rabbit) -> minted_inv st ->
  let st' := fold_left (serve chanIdx n
    (if (1 <? length (served n))%nat then ConfidencePartial else ConfidenceStatic)
    (Z.of_nat (length (served n)))) ls st in
  minted_inv st' /\ (forall m, m ∈ hs_newNodes st -> m ∈ hs_newNodes st') /\
  (forall l c, l ∈ ls -> c ∈ meets l -> channel_id st' c).
Proof.
  revert st. induction ls as [|l ls IH]; intros st Hl Hi; cbn [fold_left].
  { split_and!; [done..|]. intros l c Hx. by apply elem_of_nil in Hx. }
  destruct (Hl l) as [Hs Hr]; [left|].
  destruct (meeting_edges_serve n l st Hs) as (_ & _ & E1 & E2).
  destruct (channelsFor_minted l st Hr Hi) as (J1 & J2 & J3).
  apply (minted_inv_eq _ _ E1 E2) in J1.
  destruct (IH _ (fun l' Hl' => Hl l' (list_elem_of_further _ _ _ Hl')) J1) as (K1 & K2 & K3).
  split_and!; [done| |].
  - intros m Hm. apply K2. rewrite E2. by apply J2.
  - intros l' c [->|Hl']%elem_of_cons Hc; [|by apply (K3 l')].
    destruct (J3 c Hc) as [Hn|Hn]; [left|by right]. rewrite <- E2 in Hn.
    apply list_elem_of_fmap in Hn as (m & -> & Hm). apply list_elem_of_fmap. exists m. auto.
Qed.

Lemma served_spec n l : l ∈ served n <-> broker_node n = true /\ l ∈ rabbit /\ eligible n l = true /\
  (l_Exchange l ∈ evidence_of n \/
   evidence_of n = ∅ /\ List.filter (eligible n) rabbit = [l]).
Proof.
  unfold served. destruct (broker_node n); cbn [negb]; [|split; [by intros H%elem_of_nil|by intros [? _]]].
  assert (Hn : forall l, l ∈ named_links n <-> l ∈ rabbit /\ eligible n l = true /\ l_Exchange l ∈ evidence_of n).
  { intros l'. unfold named_links. rewrite !elem_of_bfilter, bool_decide_eq_true. tauto. }
  assert (Hnil : evidence_of n = ∅ -> named_links n = []).
  { intros He. destruct (named_links n) as [|x r] eqn:E; [done|]. exfalso.
    destruct (proj1 (Hn x)) as (_ & _ & Hx); [left|]. rewrite He in Hx. set_solver. }
  destruct (named_links n) as [|x r] eqn:En.
  - assert (Hno : forall l, l ∈ rabbit -> eligible n l = true -> l_Exchange l ∉ evidence_of n).
    { intros l' H1 H2 H3. apply (not_elem_of_nil l'). apply Hn. done. }
    destruct (List.filter (eligible n) rabbit) as [|l1 [|l2 ls]] eqn:El.
    + rewrite elem_of_nil. split; [done|]. intros (_ & H1 & H2 & H3).
      destruct H3 as [H3|[_ H3]]; [by destruct (Hno l H1 H2)|done].
    + case_decide as Hd.
      * rewrite list_elem_of_singleton. split; [intros ->|].
        -- assert (l1 ∈ List.filter (eligible n) rabbit) as [? ?]%elem_of_bfilter by (rewrite El; left).
           split_and!; [done..|]. by right.
        -- intros (_ & H1 & H2 & [H3|[_ H3]]); [by destruct (Hno l H1 H2)|by injection H3].
      * rewrite elem_of_nil. split; [done|]. intros (_ & H1 & H2 & [H3|[H3 _]]); [by destruct (Hno l H1 H2)|done].
    + rewrite elem_of_nil. split; [done|]. intros (_ & H1 & H2 & [H3|[_ H3]]); [by destruct (Hno l H1 H2)|done].
  - rewrite Hn. split; [tauto|]. intros (_ & H1 & H2 & [H3|[H3 _]]); [done|]. by apply Hnil in H3.
Qed.

Lemma hint_nodes_minted nodes st : minted_inv st ->
  let st' := fold_left (hint_node rabbit queueEx chanIdx) nodes st in
  minted_inv st' /\ (forall m, m ∈ hs_newNodes st -> m ∈ hs_newNodes st') /\
  (forall n l c, n ∈ nodes -> l ∈ served n -> c ∈ meets l -> channel_id st' c).
Proof.
  revert st. induction nodes as [|n nodes IH]; intros st Hi; cbn [fold_left].
  { split_and!; [done..|]. intros n l c Hx. by apply elem_of_nil in Hx. }
  assert (Hn : let st1 := hint_node rabbit queueEx chanIdx st n in minted_inv st1 /\
    (forall m, m ∈ hs_newNodes st -> m ∈ hs_newNodes st1) /\
    (forall l c, l ∈ served n -> c ∈ meets l -> channel_id st1 c)).
  { cbv zeta. rewrite hint_node_cases. destruct (abandoned n) eqn:Ea.
    - split_and!; [by apply (minted_inv_eq st)|done|]. intros l c Hl. unfold abandoned in Ea.
      apply andb_true_iff in Ea as [_ Ea%bool_decide_eq_true]. rewrite Ea in Hl. by apply elem_of_nil in Hl.
    - apply serve_links_minted; [|done]. intros l Hl. split; [done|]. by apply served_spec in Hl as (_ & ? & _). }
  cbv zeta in Hn. destruct Hn as (J1 & J2 & J3). destruct (IH _ J1) as (K1 & K2 & K3).
  split_and!; [done|auto|]. intros m l c [->|Hm]%elem_of_cons Hl Hc; [|by apply (K3 m l)].
  destruct (J3 l c Hl Hc) as [Hx|Hx]; [left|by right].
  apply list_elem_of_fmap in Hx as (x & -> & Hx). apply list_elem_of_fmap. exists x. auto.
Qed.
End hints.

(** A broker node some declared link could serve. *)
Definition hinted (rabbit : list Link) (n : Node) : Prop :=
  broker_node n = true /\ exists l, l ∈ rabbit /\ eligible n l = true.

Definition node_name (n : Node) : string := if str_eqb (n_Label n) "" then n_ID n else n_Label n.

(** C23: LinkBrokerHints attaches a publisher or a consumer to a declared
    exchange only if the node's own exchange, its candidates or the bindings of
    its queue name that exchange, or if it names none and the declaration is
    the only one its role and service could use; the edge is static only when
    one link and one channel answer, and partial otherwise.  Every broker node
    a declaration could serve is attached to all the channels of all the
    exchanges it names, or is in the ledger.  The channels are the real ones
    of the two services, or one minted once for the exchange where neither has
    any. *)
Theorem LinkBrokerHints_evidence (links : list Link) (nodes : list Node) :
  let rabbit := List.filter is_rabbit links in
  let queueEx := queueExchangeIndex nodes in
  let chanIdx := realChannelIndex nodes in
  let st := LinkBrokerHints links nodes in
  (forall e, e ∈ hs_edges st -> exists n l c, n ∈ nodes /\ broker_node n = true /\ l ∈ rabbit /\
     eligible n l = true /\
     (l_Exchange l ∈ evidence_of queueEx n \/
      evidence_of queueEx n = ∅ /\ List.filter (eligible n) rabbit = [l]) /\
     c ∈ meets chanIdx l /\ c <> n_ID n /\ channel_id chanIdx st c /\
     (if is_pub n then ed_From e = n_ID n /\ ed_To e = c else ed_From e = c /\ ed_To e = n_ID n) /\
     ed_Confidence e =
       if (1 <? length (served rabbit queueEx n))%nat || (1 <? length (meets chanIdx l))%nat
       then ConfidencePartial else ConfidenceStatic) /\
  (forall n, n ∈ nodes -> hinted rabbit n ->
     ledger n (node_name n) "amqp_exchange_unresolved" ∈ hs_unresolved st \/
     served rabbit queueEx n <> [] /\ forall l c, l ∈ served rabbit queueEx n -> c ∈ meets chanIdx l ->
       c <> n_ID n -> ed_ID (hint_edge n "" 0 "" c) ∈ map ed_ID (hs_edges st)) /\
  NoDup (map ed_ID (hs_edges st)) /\ NoDup (map n_ID (hs_newNodes st)) /\
  (forall m, m ∈ hs_newNodes st -> exists l, l ∈ rabbit /\ m = hint_channel l /\ meets chanIdx l = [n_ID m]).
Proof.
  intros rabbit queueEx chanIdx st.
  assert (Est : st = fold_left (hint_node rabbit queueEx chanIdx) nodes no_hints).
  { unfold st, LinkBrokerHints. fold rabbit. destruct rabbit as [|r rs] eqn:Er; [|done].
    clearbody queueEx chanIdx. clear. induction nodes as [|n ns IH]; [done|]. cbn [fold_left].
    replace (hint_node [] queueEx chanIdx no_hints n) with no_hints; [done|].
    unfold hint_node. cbn. by destruct (negb _). }
  assert (Hid : forall n a b c d e f x, ed_ID (hint_edge n a b c x) = ed_ID (hint_edge n d e f x)).
  { intros. unfold hint_edge. by destruct (is_pub n). }
  destruct (hint_nodes_edges rabbit queueEx chanIdx nodes no_hints) as [He Hu]. rewrite <- Est in He, Hu.
  assert (Hes : hs_edges st = first_by_id (concat (map (node_hint_edges rabbit queueEx chanIdx) nodes)))
    by exact (f_equal snd He).
  destruct (first_by_id_spec (concat (map (node_hint_edges rabbit queueEx chanIdx) nodes))) as (F1 & F2 & F3).
  rewrite <- Hes in F1, F2, F3.
  assert (Hmint : minted_inv rabbit chanIdx st /\ forall n l c, n ∈ nodes -> l ∈ served rabbit queueEx n ->
    c ∈ meets chanIdx l -> channel_id chanIdx st c).
  { rewrite Est. destruct (hint_nodes_minted rabbit queueEx chanIdx nodes no_hints) as (M1 & _ & M2); [|done].
    split; cbn; [set_solver|apply NoDup_nil_2|set_solver]. }
  destruct Hmint as [Hmint Hchan]. split_and!; [| |done|apply Hmint|].
  - intros e (n & Hn & He')%F2%elem_of_concat_map_list.
    apply elem_of_concat_map_list in He' as (l & Hl & He').
    unfold meeting_edges in He'. apply list_elem_of_fmap in He' as (c & -> & [Hc Hne]%elem_of_bfilter).
    pose proof (proj1 (served_spec _ _ _ _) Hl) as (H1 & H2 & H3 & H4). exists n, l, c.
    apply negb_true_iff, Stdlib.Strings.String.eqb_neq in Hne. split_and!; try done; [by eapply Hchan|..];
      unfold hint_edge; by destruct (is_pub n).
  - intros n Hn (Hb & l0 & Hl0 & Hel). destruct (abandoned rabbit queueEx n) eqn:Ea.
    + left. apply Hu. right. by exists n.
    + right. split.
      * intros Hs. unfold abandoned in Ea. rewrite Hb, Hs in Ea. cbn [andb] in Ea.
        rewrite (bool_decide_eq_true_2 ([] = [])) in Ea by done. rewrite andb_true_r in Ea.
        apply bool_decide_eq_false in Ea. apply Ea. intros Hnil.
        assert (l0 ∈ List.filter (eligible n) rabbit) as Hin by by apply elem_of_bfilter.
        rewrite Hnil in Hin. by apply elem_of_nil in Hin.
      * intros l c Hl Hc Hne. unfold meeting_edges in *.
        erewrite Hid. apply F3. apply elem_of_concat_map_list. exists n. split; [done|].
        apply elem_of_concat_map_list. exists l. split; [done|]. apply list_elem_of_fmap. exists c.
        split; [reflexivity|]. apply elem_of_bfilter. split; [done|].
        by apply negb_true_iff, Stdlib.Strings.String.eqb_neq.
  - intros m (l & Hl & -> & Hm)%(mi_new _ _ _ Hmint). exists l. done.
Qed.
