(* ===== verification/LkFiles.v ===== *)
(** The containment backbone (internal/linker/containment.go), the file nodes
    other passes need (file_nodes.go), the retraction of ledger entries a later
    pass resolved (amqp_ledger.go) and the registry of components
    (component_index.go). *)
From S2P Require Import Prelude GoStrings GrModel CtEngine GrVerdict LkIndex LkRoutes.

(** ** Containment *)

Definition containedTypes (t : NodeType) : bool :=
  str_eqb t NodeTypeFunction || str_eqb t NodeTypeMethod || str_eqb t NodeTypeStruct || str_eqb t NodeTypeComponent.

Definition stylesheetPattern (p : string) : bool :=
  str_eqb p "stylesheet_selector" || str_eqb p "font_face_src".
Definition isStylesheetDecl (n : Node) : bool := stylesheetPattern (meta_of n "pattern").

Definition markupElementPattern (p : string) : bool :=
  str_eqb p "html_element_id" || str_eqb p "html_element_class".
Definition isMarkupElement (n : Node) : bool :=
  is_type n NodeTypeElement && markupElementPattern (meta_of n "pattern").

Definition structKey (service file label : string) : string :=
  service +:+ nul +:+ path_Dir file +:+ nul +:+ label.

Definition containsEdge (from to : string) : Edge :=
  mkEdge (arrow_id "contains" from to) from to EdgeTypeContains EdgeTypeContains ConfidenceStatic "" "" ∅ [] "" "".

Definition struct_key (n : Node) : option string :=
  if is_type n NodeTypeStruct && negb (str_eqb (n_File n) "")
  then Some (structKey (n_Service n) (n_File n) (n_Label n)) else None.

Definition file_node_id (service file : string) : string := service +:+ ":" +:+ file +:+ ":" +:+ NodeTypeFile.
Definition service_node_id (service : string) : string := "service:" +:+ service.

Definition service_node (service : string) : Node :=
  mkNode (service_node_id service) NodeTypeService service service "" 0 0 "" {["kind" := "service"]} "".
Definition file_node (service file : string) : Node :=
  mkNode (file_node_id service file) NodeTypeFile file service file 0 0 (languageForFile file)
    {["basename" := path_Base file]} "".

Record containState : Type := mkContainState {
  cs_serviceID : gmap string string; cs_fileID : gmap string string; cs_svcFileSeen : gset string;
  cs_newNodes : list Node; cs_edges : list Edge
}.

Definition ensureService (service : string) (st : containState) : containState * string :=
  match cs_serviceID st !! service with
  | Some id => (st, id)
  | None =>
      let id := service_node_id service in
      (mkContainState (<[service := id]> (cs_serviceID st)) (cs_fileID st) (cs_svcFileSeen st)
         (cs_newNodes st ++ [service_node service]) (cs_edges st), id)
  end.

Definition add_contains (from to : string) (st : containState) : containState :=
  mkContainState (cs_serviceID st) (cs_fileID st) (cs_svcFileSeen st) (cs_newNodes st)
    (cs_edges st ++ [containsEdge from to]).

Definition ensureFile (service file : string) (st : containState) : containState * string :=
  let key := key2 service file in
  match cs_fileID st !! key with
  | Some id => (st, id)
  | None =>
      let id := file_node_id service file in
      let st1 := mkContainState (cs_serviceID st) (<[key := id]> (cs_fileID st)) (cs_svcFileSeen st)
                   (cs_newNodes st ++ [file_node service file]) (cs_edges st) in
      let '(st2, svcID) := ensureService service st1 in
      if decide (key ∈ cs_svcFileSeen st2) then (st2, id)
      else (add_contains svcID id (mkContainState (cs_serviceID st2) (cs_fileID st2) ({[key]} ∪ cs_svcFileSeen st2)
              (cs_newNodes st2) (cs_edges st2)), id)
  end.

Definition is_contained (n : Node) : bool :=
  negb (str_eqb (n_File n) "") && (containedTypes (n_Type n) || isStylesheetDecl n || isMarkupElement n).

(** The struct a method's receiver names, in the package of the method. *)
Definition receiver_struct (structByKey : gmap string string) (n : Node) : option string :=
  if negb (is_type n NodeTypeMethod) then None
  else
    let recv := TrimPrefix (meta_of n "receiver") "*" in
    if str_eqb recv "" then None else structByKey !! structKey (n_Service n) (n_File n) recv.

Definition contain_node (structByKey : gmap string string) (st : containState) (n : Node) : containState :=
  if negb (is_contained n) then st
  else
    let '(st1, fID) := ensureFile (n_Service n) (n_File n) st in
    let st2 := add_contains fID (n_ID n) st1 in
    match receiver_struct structByKey n with
    | Some sID => add_contains sID (n_ID n) st2
    | None => st2
    end.

Definition no_containment : containState := mkContainState ∅ ∅ ∅ [] [].
Definition LinkContainment (nodes : list Node) : list Node * list Edge :=
  let st := fold_left (contain_node (index_last struct_key n_ID nodes)) nodes no_containment in
  (cs_newNodes st, cs_edges st).

(** ** File nodes *)

Record fileNodeIndex : Type := mkFileNodeIndex {
  fx_id : gmap string string; fx_haveService : gset string; fx_minted : list Node; fx_mintedEdges : list Edge
}.

Definition is_file_key (n : Node) : option string :=
  if is_type n NodeTypeFile then Some (key2 (n_Service n) (n_File n)) else None.

Definition newFileNodeIndex (nodes : list Node) : fileNodeIndex :=
  mkFileNodeIndex (index_last is_file_key n_ID nodes)
    (list_to_set (map n_Label (List.filter (fun n => is_type n NodeTypeService) nodes))) [] [].

Section file_nodes.
(** patterns.RelativizeToCwd: the path seen from the working directory of the
    process, through its symbolic links. *)
Variable RelativizeToCwd : string -> string.

Definition ensure (service file : string) (x : fileNodeIndex) : fileNodeIndex * string :=
  let file := RelativizeToCwd file in
  let key := key2 service file in
  match fx_id x !! key with
  | Some id => (x, id)
  | None =>
      let id := file_node_id service file in
      (mkFileNodeIndex (<[key := id]> (fx_id x)) (fx_haveService x) (fx_minted x ++ [file_node service file])
         (if decide (service ∈ fx_haveService x)
          then fx_mintedEdges x ++ [containsEdge (service_node_id service) id] else fx_mintedEdges x), id)
  end.

Definition ensure_files (x : fileNodeIndex) (sf : string * list string) : fileNodeIndex :=
  fold_left (fun x f => fst (ensure (fst sf) f x)) (snd sf) x.

(** EnsureAllScannedFiles; [svcFiles] in the order the map yields it. *)
Definition EnsureAllScannedFiles (nodes : list Node) (svcFiles : list (string * list string)) :
    list Node * list Edge :=
  let x := fold_left ensure_files svcFiles (newFileNodeIndex nodes) in (fx_minted x, fx_mintedEdges x).
End file_nodes.

(** ** Resolved ledger entries *)

Definition HandshakeSiteKey (service file : string) (line : Z) : string := key3 service file (itoa line).

Definition handshakeRetractableKind (kind : string) : bool :=
  str_eqb kind "config_not_found" || str_eqb kind "dynamic_queue" || str_eqb kind "dynamic_url" ||
  str_eqb kind "amqp_handshake_unresolved".

Definition DropResolvedRefs (refs : list UnresolvedRef) (resolved : gset string) : list UnresolvedRef :=
  List.filter (fun r => negb (handshakeRetractableKind (u_Kind r) &&
    bool_decide (HandshakeSiteKey (u_Service r) (u_File r) (u_Line r) ∈ resolved))) refs.

(** ** Components by registered symbol *)

Definition in_services (svcs : list string) (n : Node) : bool :=
  match svcs with [] => true | _ => bool_decide (n_Service n ∈ svcs) end.
Definition indexed_component (svcs : list string) (n : Node) : bool :=
  in_services svcs n && negb (str_eqb (meta_of n "is_test") "true").

Definition impl_key (svcs : list string) (n : Node) : option string :=
  if indexed_component svcs n && (is_type n NodeTypeFunction || is_type n NodeTypeClass)
  then Some (key2 (n_File n) (n_Label n)) else None.
Definition is_registration (svcs : list string) (n : Node) : bool :=
  indexed_component svcs n && is_type n NodeTypeVariable && has_meta n "global_symbol" &&
  str_eqb (meta_of n "scope") "global".
Definition reg_key (svcs : list string) (n : Node) : option string :=
  if is_registration svcs n then Some (meta_of n "global_symbol") else None.
Definition var_key (svcs : list string) (n : Node) : option string :=
  if is_registration svcs n then Some (key2 (meta_of n "global_symbol") (n_File n)) else None.

(** The declaration a registration of [sym] in a file stands for. *)
Definition component_impl (implID varID : gmap string string) (sym f : string) : list string :=
  match implID !! key2 f sym with
  | Some id => [id]
  | None => match varID !! key2 sym f with Some id => [id] | None => [] end
  end.

(** newComponentIndex: bySymbol. *)
Definition newComponentIndex (nodes : list Node) (svcs : list string) : gmap string (list string) :=
  let implID := index_first (impl_key svcs) n_ID nodes in
  let varID := index_last (var_key svcs) n_ID nodes in
  map_imap (fun sym fs => Some (concat (map (component_impl implID varID sym) (sort_strings fs))))
    (index_all (reg_key svcs) n_File nodes).

(** * Theorems

    What LkFiles guarantees: the backbone of services, files and declarations
    is complete and holds nothing else; file nodes are found or minted once. *)

Section containment.
Context (structByKey : gmap string string).

(** The edges a contained node accounts for. *)
Inductive backbone (n : Node) : Edge -> Prop :=
| InFile : backbone n (containsEdge (file_node_id (n_Service n) (n_File n)) (n_ID n))
| InService : backbone n (containsEdge (service_node_id (n_Service n)) (file_node_id (n_Service n) (n_File n)))
| InStruct s : receiver_struct structByKey n = Some s -> backbone n (containsEdge s (n_ID n)).

Record contain_inv (done : list Node) (st : containState) : Prop := {
  ci_edges e : e ∈ cs_edges st <-> exists n, n ∈ done /\ is_contained n = true /\ backbone n e;
  ci_nodes m : m ∈ cs_newNodes st <-> exists n, n ∈ done /\ is_contained n = true /\
    (m = file_node (n_Service n) (n_File n) \/ m = service_node (n_Service n));
  ci_NoDup : NoDup (cs_newNodes st);
  ci_file k id : cs_fileID st !! k = Some id <-> exists n, n ∈ done /\ is_contained n = true /\
    k = key2 (n_Service n) (n_File n) /\ id = file_node_id (n_Service n) (n_File n);
  ci_seen k : k ∈ cs_svcFileSeen st <-> is_Some (cs_fileID st !! k);
  ci_service s id : cs_serviceID st !! s = Some id <-> exists n, n ∈ done /\ is_contained n = true /\
    s = n_Service n /\ id = service_node_id s
}.

Lemma file_not_service s f s' : file_node s f <> service_node s'.
Proof. intros E. by apply (f_equal n_Type) in E. Qed.

(** Contained nodes that extend what was done. *)
Lemma contained_snoc (P : Node -> Prop) done n :
  (exists m, m ∈ done ++ [n] /\ P m) <-> (exists m, m ∈ done /\ P m) \/ P n.
Proof. setoid_rewrite elem_of_app. setoid_rewrite list_elem_of_singleton. naive_solver. Qed.

(** The file of a node is there after ensureFile, and nothing else changes. *)
Record file_ensured (n : Node) (st st' : containState) : Prop := {
  fe_edges e : e ∈ cs_edges st' <-> e ∈ cs_edges st \/
    cs_fileID st !! key2 (n_Service n) (n_File n) = None /\
    e = containsEdge (service_node_id (n_Service n)) (file_node_id (n_Service n) (n_File n));
  fe_nodes m : m ∈ cs_newNodes st' <-> m ∈ cs_newNodes st \/
    cs_fileID st !! key2 (n_Service n) (n_File n) = None /\
      (m = file_node (n_Service n) (n_File n) \/ cs_serviceID st !! n_Service n = None /\ m = service_node (n_Service n));
  fe_NoDup : NoDup (cs_newNodes st');
  fe_file : cs_fileID st' = match cs_fileID st !! key2 (n_Service n) (n_File n) with
    | Some _ => cs_fileID st
    | None => <[key2 (n_Service n) (n_File n) := file_node_id (n_Service n) (n_File n)]> (cs_fileID st) end;
  fe_seen k : k ∈ cs_svcFileSeen st' <-> is_Some (cs_fileID st' !! k);
  fe_service s id : cs_serviceID st' !! s = Some id <-> cs_serviceID st !! s = Some id \/
    cs_fileID st !! key2 (n_Service n) (n_File n) = None /\ s = n_Service n /\ id = service_node_id s
}.

Lemma ensureFile_spec done st n : contain_inv done st ->
  (forall m, m ∈ done -> nul_free (n_Service m) = true) -> nul_free (n_Service n) = true ->
  file_ensured n st (fst (ensureFile (n_Service n) (n_File n) st)) /\
  snd (ensureFile (n_Service n) (n_File n) st) = file_node_id (n_Service n) (n_File n).
Proof.
  intros [H1 H2 H3 H4 H5 H6] Hd Hn. unfold ensureFile.
  destruct (cs_fileID st !! key2 (n_Service n) (n_File n)) as [id|] eqn:Ek; cbn [fst snd].
  - apply H4 in Ek as (m & Hm & Hc & E & ->).
    apply key2_inj in E as [Es Ef]; [|done|by apply Hd].
    assert (Hk : cs_fileID st !! key2 (n_Service n) (n_File n) = Some (file_node_id (n_Service m) (n_File m)))
      by (apply H4; exists m; by rewrite Es, Ef).
    split; [|by rewrite Es, Ef]. split; rewrite ?Hk; try done; naive_solver.
  - assert (Hnew : forall m, m ∈ done -> is_contained m = true -> key2 (n_Service m) (n_File m) <> key2 (n_Service n) (n_File n)).
    { intros m Hm Hc E. assert (is_Some (cs_fileID st !! key2 (n_Service n) (n_File n))) as [? Hs]; [|congruence].
      eexists. apply H4. exists m. rewrite E. done. }
    assert (Hseen : key2 (n_Service n) (n_File n) ∉ cs_svcFileSeen st) by (rewrite H5, Ek; by intros []).
    assert (Hfresh : file_node (n_Service n) (n_File n) ∉ cs_newNodes st).
    { intros (m & Hm & Hc & [E|E])%H2; [|by apply file_not_service in E].
      apply (Hnew m Hm Hc). pose proof (f_equal n_Service E) as E1. pose proof (f_equal n_File E) as E2. cbn in *. by rewrite E1, E2. }
    unfold ensureService. cbn [cs_serviceID cs_fileID cs_svcFileSeen cs_newNodes cs_edges].
    destruct (cs_serviceID st !! n_Service n) as [sid|] eqn:Es;
      rewrite decide_False by done; cbn [fst snd add_contains cs_serviceID cs_fileID cs_svcFileSeen cs_newNodes cs_edges].
    + assert (sid = service_node_id (n_Service n)) as -> by (apply H6 in Es; naive_solver).
      split; [|done]. split; cbn; rewrite ?Ek.
      * intros e. rewrite elem_of_app, list_elem_of_singleton. naive_solver.
      * intros m. rewrite elem_of_app, list_elem_of_singleton. naive_solver.
      * apply NoDup_app. split_and!; [done| |apply NoDup_singleton]. by intros x Hx ->%list_elem_of_singleton.
      * done.
      * intros k. rewrite elem_of_union, elem_of_singleton, H5, lookup_insert. case_decide; [subst; naive_solver|].
        naive_solver.
      * intros s id. naive_solver.
    + assert (Hsvc : service_node (n_Service n) ∉ cs_newNodes st).
      { intros (m & Hm & Hc & [E|E])%H2; [by apply eq_sym, file_not_service in E|].
        apply (f_equal n_Service) in E. cbn in E.
        assert (is_Some (cs_serviceID st !! n_Service n)) as [? Hs]; [|congruence].
        eexists. apply H6. exists m. done. }
      split; [|done]. split; cbn; rewrite ?Ek.
      * intros e. rewrite elem_of_app, list_elem_of_singleton. naive_solver.
      * intros m. rewrite !elem_of_app, !list_elem_of_singleton. naive_solver.
      * apply NoDup_app. split_and!; [| |apply NoDup_singleton].
        -- apply NoDup_app. split_and!; [done| |apply NoDup_singleton]. by intros x Hx ->%list_elem_of_singleton.
        -- intros x Hx ->%list_elem_of_singleton. apply elem_of_app in Hx as [Hx|Hx]; [done|].
           apply list_elem_of_singleton in Hx. by apply eq_sym, file_not_service in Hx.
      * done.
      * intros k. rewrite elem_of_union, elem_of_singleton, H5, lookup_insert. case_decide; [subst; naive_solver|].
        naive_solver.
      * intros s id. rewrite lookup_insert. case_decide; subst; naive_solver.
Qed.

(** One step adds the node's part of the backbone. *)
Lemma contain_node_inv done st n : contain_inv done st ->
  (forall m, m ∈ done -> nul_free (n_Service m) = true) -> nul_free (n_Service n) = true ->
  contain_inv (done ++ [n]) (contain_node structByKey st n).
Proof.
  intros Hi Hd Hn. unfold contain_node. destruct (is_contained n) eqn:Ec; cbn [negb]; cycle 1.
  { destruct Hi as [H1 H2 H3 H4 H5 H6]. split; try done; intros *; rewrite contained_snoc; rewrite ?H1, ?H2, ?H4, ?H6;
      naive_solver congruence. }
  destruct (ensureFile_spec done st n Hi Hd Hn) as [He Hid].
  destruct (ensureFile (n_Service n) (n_File n) st) as [st1 fID]. cbn [fst snd] in *. subst fID.
  destruct Hi as [H1 H2 H3 H4 H5 H6], He as [E1 E2 E3 E4 E5 E6].
  set (st2 := match receiver_struct structByKey n with
    | Some sID => add_contains sID (n_ID n) (add_contains (file_node_id (n_Service n) (n_File n)) (n_ID n) st1)
    | None => add_contains (file_node_id (n_Service n) (n_File n)) (n_ID n) st1 end).
  assert (Hst2 : cs_serviceID st2 = cs_serviceID st1 /\ cs_fileID st2 = cs_fileID st1 /\
    cs_svcFileSeen st2 = cs_svcFileSeen st1 /\ cs_newNodes st2 = cs_newNodes st1 /\
    forall e, e ∈ cs_edges st2 <-> e ∈ cs_edges st1 \/ e = containsEdge (file_node_id (n_Service n) (n_File n)) (n_ID n) \/
      exists s, receiver_struct structByKey n = Some s /\ e = containsEdge s (n_ID n)).
  { unfold st2. destruct (receiver_struct structByKey n) as [s|]; split_and!; try done; intros e; cbn;
      rewrite !elem_of_app, ?list_elem_of_singleton; naive_solver. }
  destruct Hst2 as (F1 & F2 & F3 & F4 & F5).
  assert (Hold : forall id, cs_fileID st !! key2 (n_Service n) (n_File n) = Some id ->
    exists m, m ∈ done /\ is_contained m = true /\ n_Service m = n_Service n /\ n_File m = n_File n).
  { intros id (m & Hm & Hc & E & _)%H4. apply key2_inj in E as [? ?]; [|done|by apply Hd]. by exists m. }
  split; rewrite ?F1, ?F2, ?F3, ?F4; try done.
  - intros e. rewrite F5, E1, H1, contained_snoc. split.
    + intros [[?|[_ ->]]|[->|(s & Hs & ->)]]; [by left|right..]; (split; [done|]); by constructor.
    + intros [?|[_ Hb]]; [auto|]. destruct Hb as [| |s Hs]; [auto| |eauto].
      destruct (cs_fileID st !! key2 (n_Service n) (n_File n)) as [id|] eqn:Ek; [|auto].
      destruct (Hold id eq_refl) as (m & Hm & Hc & Es & Ef). left. left. exists m. split_and!; [done..|].
      rewrite <- Es, <- Ef. constructor.
  - intros m. rewrite E2, H2, contained_snoc. split.
    + intros [?|[_ [->|[_ ->]]]]; auto.
    + intros [?|[_ Hm]]; [auto|].
      destruct (cs_fileID st !! key2 (n_Service n) (n_File n)) as [id|] eqn:Ek.
      * destruct (Hold id eq_refl) as (x & Hx & Hc & Es & Ef). left. exists x. by rewrite Es, Ef.
      * destruct Hm as [-> | ->]; [auto|]. destruct (cs_serviceID st !! n_Service n) as [sid|] eqn:Es; [|auto].
        apply H6 in Es as (x & Hx & Hc & Es & _). left. exists x. rewrite <- Es. auto.
  - intros k id. rewrite E4, contained_snoc. destruct (cs_fileID st !! key2 (n_Service n) (n_File n)) as [id'|] eqn:Ek.
    + rewrite H4. split; [by left|]. intros [?|[_ [-> ->]]]; [done|].
      destruct (Hold id' eq_refl) as (m & Hm & Hc & Es & Ef). exists m. by rewrite Es, Ef.
    + rewrite lookup_insert. case_decide as D.
      * subst k. split; [intros [= <-]; by right|]. intros [H|[_ [_ ->]]]; [|done].
        apply H4 in H. congruence.
      * rewrite H4. split; [by left|]. intros [?|[_ [-> _]]]; done.
  - intros s id. rewrite E6, H6, contained_snoc. split.
    + intros [?|(_ & -> & ->)]; auto.
    + intros [?|(_ & -> & ->)]; [auto|].
      destruct (cs_fileID st !! key2 (n_Service n) (n_File n)) as [id|] eqn:Ek; [|auto].
      destruct (Hold id eq_refl) as (m & Hm & Hc & Es & Ef). left. exists m. auto.
Qed.

Lemma containment_inv nodes done st : contain_inv done st ->
  (forall m, m ∈ done ++ nodes -> nul_free (n_Service m) = true) ->
  contain_inv (done ++ nodes) (fold_left (contain_node structByKey) nodes st).
Proof.
  revert done st. induction nodes as [|n nodes IH]; intros done st Hi Hn; [by rewrite app_nil_r|].
  cbn [fold_left]. rewrite cons_middle, app_assoc in *. apply IH; [|done]. apply contain_node_inv; [done|..].
  - intros m Hm. apply Hn. rewrite !elem_of_app. tauto.
  - apply Hn. rewrite !elem_of_app. left. right. left.
Qed.
End containment.

(** LinkContainment builds exactly the backbone: each declaration of a
    file hangs off the node of its file, each such file off the node of its
    service, each method whose receiver is a struct of its package off that
    struct; every file and service node this takes is minted, once, and there
    is no other node or edge. *)
Theorem LinkContainment_exact (nodes : list Node) :
  (forall n, n ∈ nodes -> nul_free (n_Service n) = true) ->
  let '(newNodes, edges) := LinkContainment nodes in
  (forall e, e ∈ edges <-> exists n, n ∈ nodes /\ is_contained n = true /\
     backbone (index_last struct_key n_ID nodes) n e) /\
  (forall m, m ∈ newNodes <-> exists n, n ∈ nodes /\ is_contained n = true /\
     (m = file_node (n_Service n) (n_File n) \/ m = service_node (n_Service n))) /\
  NoDup newNodes.
Proof.
  intros Hn. unfold LinkContainment.
  destruct (containment_inv (index_last struct_key n_ID nodes) nodes [] no_containment) as [H1 H2 H3 _ _ _]; [|done|done].
  split; unfold no_containment; cbn; try (intros *; rewrite ?lookup_empty; set_solver). apply NoDup_nil_2.
Qed.

Definition decl (id ty label file : string) (meta : Meta) : Node := mkNode id ty label "api" file 1 9 "go" meta "".
Definition decls : list Node :=
  [decl "s" NodeTypeStruct "T" "p/t.go" ∅; decl "m" NodeTypeMethod "Run" "p/m.go" {["receiver" := "*T"]}].

Lemma LinkContainment_exact_witness :
  containsEdge "s" "m" ∈ snd (LinkContainment decls) /\ NoDup (fst (LinkContainment decls)).
Proof.
  pose proof (LinkContainment_exact decls) as H. destruct (LinkContainment decls) as [ns es] eqn:E.
  destruct H as (H1 & H2 & H3).
  - intros n [->|[->|Hn]%elem_of_cons]%elem_of_cons; [reflexivity..|by apply elem_of_nil in Hn].
  - cbn [fst snd]. split; [|exact H3]. apply H1. exists (nth 1 decls (decl "" "" "" "" ∅)).
    split; [right; left|]. split; [reflexivity|]. apply InStruct. vm_compute. reflexivity.
Defined.

(** ** File nodes *)

Section file_nodes.
Context (RelativizeToCwd : string -> string).
Notation ensure := (ensure RelativizeToCwd).

(** ensure returns the ID filed under the file, and files it. *)
Lemma ensure_filed service file x :
  fx_id (fst (ensure service file x)) !! key2 service (RelativizeToCwd file) = Some (snd (ensure service file x)) /\
  (forall k id, fx_id x !! k = Some id -> fx_id (fst (ensure service file x)) !! k = Some id) /\
  fx_haveService (fst (ensure service file x)) = fx_haveService x.
Proof.
  unfold LkFiles.ensure. destruct (fx_id x !! _) as [id|] eqn:E; cbn [fst snd fx_id fx_haveService].
  - done.
  - split_and!; [by rewrite lookup_insert_eq| |done]. intros k id Hk. rewrite lookup_insert_ne; [done|congruence].
Qed.

(** Asking twice mints nothing. *)
Lemma ensure_idempotent service file x :
  ensure service file (fst (ensure service file x)) = ensure service file x.
Proof.
  destruct (ensure_filed service file x) as (H & _). unfold LkFiles.ensure at 1. rewrite H.
  by destruct (ensure service file x).
Qed.

(** The nodes minted are the files asked for that had none. *)
Lemma ensure_minted service file x m : m ∈ fx_minted (fst (ensure service file x)) <->
  m ∈ fx_minted x \/ fx_id x !! key2 service (RelativizeToCwd file) = None /\
    m = file_node service (RelativizeToCwd file).
Proof.
  unfold LkFiles.ensure. destruct (fx_id x !! _) as [id|]; cbn [fst fx_minted]; [naive_solver|].
  rewrite elem_of_app, list_elem_of_singleton. naive_solver.
Qed.
End file_nodes.

(** ** The retraction of resolved entries *)

Lemma DropResolvedRefs_exact refs resolved r : r ∈ DropResolvedRefs refs resolved <->
  r ∈ refs /\ ~ (handshakeRetractableKind (u_Kind r) = true /\
    HandshakeSiteKey (u_Service r) (u_File r) (u_Line r) ∈ resolved).
Proof.
  unfold DropResolvedRefs. rewrite elem_of_bfilter, negb_true_iff, andb_false_iff, bool_decide_eq_false.
  destruct (handshakeRetractableKind (u_Kind r)); naive_solver.
Qed.
