(* ===== verification/LkRuby.v ===== *)
(** Ruby calls that only the class hierarchy explains
    (internal/linker/ruby_mixin_methods.go, ruby_override_dispatch.go,
    ruby_sole_definer_calls.go): a bare name defined by an ancestor, by a
    descendant, or by nobody else in the service. *)
From S2P Require Import Prelude GoStrings Reach GrModel CtEngine GrVerdict LkIndex LkRoutes LkFiles.

(** ** The index *)

Record scopeSpan : Type := mkSpan { sp_id : string; sp_label : string; sp_svc : string; sp_start : Z; sp_end : Z }.

Definition is_ruby (n : Node) : bool := str_eqb (n_Language n) "ruby".
Definition end_line (n : Node) : Z :=
  let '(v, ok) := Atoi (meta_of n "end_line") in if ok && (n_Line n <? v)%Z then v else n_Line n.
Definition node_span (n : Node) : scopeSpan := mkSpan (n_ID n) (n_Label n) (n_Service n) (n_Line n) (end_line n).

Definition is_ruby_class (n : Node) : bool := is_ruby n && is_type n NodeTypeClass.
Definition is_ruby_func (n : Node) : bool := is_ruby n && is_type n NodeTypeFunction.
Definition is_ruby_const (n : Node) : bool :=
  is_ruby n && is_type n NodeTypeVariable && str_eqb (meta_of n "kind") "const".

Definition when {A} (b : bool) (a : A) : option A := if b then Some a else None.

Definition isRubyHelperFile (file : string) : bool :=
  isRubyFile file && (Contains file "/helpers/" || HasPrefix file "helpers/").

Definition span_less : scopeSpan -> scopeSpan -> bool :=
  less_by sp_start Z.ltb (less_by sp_end (fun a b => Z.ltb b a) (fun a b => str_ltb (sp_id a) (sp_id b))).
Definition sortSpans (spans : list scopeSpan) : list scopeSpan := sort_slice span_less spans.

(** [if i == 0 || v != in[i-1]] *)
Fixpoint drop_repeats (prev : option string) (l : list string) : list string :=
  match l with
  | [] => []
  | v :: l' =>
      if bool_decide (prev = Some v) then drop_repeats (Some v) l' else v :: drop_repeats (Some v) l'
  end.
Definition sortedUnique (l : list string) : list string := drop_repeats None (sort_strings l).

Record rubyMixinIndex : Type := mkMixinIndex {
  ix_classSpans : gmap string (list scopeSpan); ix_funcSpans : gmap string (list scopeSpan);
  ix_ancestors : gmap string (list string); ix_methods : gmap string (list string);
  ix_constants : gmap string (list string); ix_serviceOf : gmap string string;
  ix_helperMethods : gmap (string * string) (list string); ix_fileIdx : fileNodeIndex;
  ix_byNameService : gmap (string * string) (list string)
}.

(** The classes of the node's file with the label its ["class"] names whose
    lines hold the node, each with the node as a member. *)
Definition owners (classByFileLabel : gmap string (list scopeSpan)) (n : Node) : list (string * string) :=
  map (fun cls => (key2 (sp_id cls) (n_Label n), n_ID n))
    (List.filter (fun cls => negb ((n_Line n <? sp_start cls)%Z || (sp_end cls <? n_Line n)%Z))
       (get_all classByFileLabel (key2 (n_File n) (meta_of n "class")))).

Definition service_name (n : Node) : string * string := (n_Service n, n_Label n).
Definition member (n : Node) : bool := is_ruby_func n && has_meta n "class".

Definition inherits_key (serviceOf : gmap string string) (e : Edge) : option string :=
  when (str_eqb (ed_Type e) EdgeTypeInherits && bool_decide (is_Some (serviceOf !! ed_To e)) &&
        bool_decide (is_Some (serviceOf !! ed_From e))) (ed_From e).

Definition newRubyMixinIndex (nodes : list Node) (edges : list Edge) : rubyMixinIndex :=
  let spans (p : Node -> bool) := sortSpans <$> index_all (fun n => when (p n) (n_File n)) node_span nodes in
  let classByFileLabel :=
    index_all (fun n => when (is_ruby_class n) (key2 (n_File n) (n_Label n))) node_span nodes in
  let members (p : Node -> bool) :=
    sortedUnique <$> index_all (fun kv => Some (fst kv)) snd
      (concat (map (owners classByFileLabel) (List.filter p nodes))) in
  let serviceOf :=
    fold_left (last_step (fun n => when (is_ruby_const n) (n_ID n)) n_Service) nodes
      (index_last (fun n => when (is_ruby_class n || is_ruby_func n) (n_ID n)) n_Service nodes) in
  mkMixinIndex (spans is_ruby_class) (spans is_ruby_func)
    (sortedUnique <$> index_all (inherits_key serviceOf) ed_To edges)
    (members member) (members is_ruby_const) serviceOf
    (index_all (fun n => when (member n && isRubyHelperFile (n_File n)) (service_name n)) n_ID nodes)
    (newFileNodeIndex nodes)
    (sortedUnique <$> index_all (fun n => when (member n) (service_name n)) n_ID nodes).

Definition in_lines (line : Z) (s : scopeSpan) : bool := negb ((line <? sp_start s)%Z || (sp_end s <? line)%Z).
Definition tighter (s best : scopeSpan) : bool :=
  (sp_start best <? sp_start s)%Z || ((sp_start s =? sp_start best)%Z && (sp_end s <? sp_end best)%Z).
Definition innermost_step (line : Z) (best : option scopeSpan) (s : scopeSpan) : option scopeSpan :=
  if negb (in_lines line s) then best
  else match best with
       | None => Some s
       | Some b => if tighter s b then Some s else best
       end.
Definition innermost (spans : list scopeSpan) (line : Z) : option scopeSpan :=
  fold_left (innermost_step line) spans None.

Definition class_at (ix : rubyMixinIndex) (file : string) (line : Z) : option scopeSpan :=
  innermost (get_all (ix_classSpans ix) file) line.
Definition func_at (ix : rubyMixinIndex) (file : string) (line : Z) : option scopeSpan :=
  innermost (get_all (ix_funcSpans ix) file) line.

(** The method a reference is in, or else its class. *)
Definition caller_at (ix : rubyMixinIndex) (cls : scopeSpan) (file : string) (line : Z) : string :=
  match func_at ix file line with Some fn => sp_id fn | None => sp_id cls end.

(** ** The walk over ancestors *)

Definition rubyMixinMaxDepth : nat := 12.

(** The neighbours of a frontier not seen before, sorted. *)
Definition next_frontier (succ : string -> list string) (visited : gset string) (frontier : list string) :
    gset string * list string :=
  let '(visited', next) := fold_left enqueue (concat (map succ frontier)) (visited, []) in
  (visited', sort_strings next).

Section lookup.
Context (succ : string -> list string) (defs : string -> list string).

(** [fuel] more depths may be tried. *)
Fixpoint lookup_loop (fuel depth : nat) (visited : gset string) (frontier : list string) : list string * nat :=
  match fuel, frontier with
  | O, _ | _, [] => ([], 0)
  | S fuel', _ =>
      match concat (map defs frontier) with
      | [] => let '(visited', next) := next_frontier succ visited frontier in
              lookup_loop fuel' (S depth) visited' next
      | hits => (sortedUnique hits, depth)
      end
  end.
End lookup.

Definition ancestors_of (ix : rubyMixinIndex) (id : string) : list string := get_all (ix_ancestors ix) id.
Definition methods_of (ix : rubyMixinIndex) (name id : string) : list string := get_all (ix_methods ix) (key2 id name).
Definition constants_of (ix : rubyMixinIndex) (name id : string) : list string :=
  get_all (ix_constants ix) (key2 id name).

Definition lookup (ix : rubyMixinIndex) (classID name : string) : list string * nat :=
  lookup_loop (ancestors_of ix) (methods_of ix name) (S rubyMixinMaxDepth) 0 {[classID]} [classID].
Definition lookupConst (ix : rubyMixinIndex) (classID name : string) : list string * nat :=
  lookup_loop (ancestors_of ix) (constants_of ix name) (S rubyMixinMaxDepth) 0 {[classID]} [classID].

(** ** Edges of a reference *)

Definition service_of (ix : rubyMixinIndex) (id : string) : string := default "" (ix_serviceOf ix !! id).

(** The loop over targets: skipped when [ok] does not hold, or when the edge
    was already emitted. *)
Definition target_step (mk : string -> Edge) (ok : string -> bool) (st : gset string * list Edge) (to : string) :
    gset string * list Edge :=
  if ok to then add_unseen st (mk to) else st.
Definition emit_targets (mk : string -> Edge) (ok : string -> bool) (targets : list string) (seen : gset string) :
    gset string * list Edge :=
  fold_left (target_step mk ok) targets (seen, []).

Definition ambiguity (targets : list string) (m : Meta) : Meta :=
  if (1 <? length targets)%nat then <["ambiguous" := "true"]> m else m.

Definition calls (from to : string) (m : Meta) : Edge :=
  link_edge (arrow_id "calls" from to) from to EdgeTypeCalls ConfidenceInferred m.
Definition reads (from to : string) (m : Meta) : Edge :=
  link_edge (arrow_id "reads" from to) from to EdgeTypeReads ConfidenceInferred m.

Definition ref_entry (ref : UnresolvedRef) (kind : string) : UnresolvedRef :=
  mkUnresolvedRef (u_Service ref) (u_File ref) (u_Line ref) (u_Name ref) kind "".

Definition collision (ref : UnresolvedRef) (kind : string) (edges : list Edge) (targets : list string) :
    list UnresolvedRef :=
  match edges with
  | [] => []
  | _ => if (1 <? length targets)%nat then [ref_entry ref kind] else []
  end.

(** What a reference leads to: the edges already emitted, the file nodes, and
    the new edges and ledger entries. *)
Record emission : Type := mkEmission {
  em_seen : gset string; em_fileIdx : fileNodeIndex; em_edges : list Edge; em_unresolved : list UnresolvedRef
}.

Section emit.
Variable RelativizeToCwd : string -> string.
Context (ix : rubyMixinIndex).

Definition emitBareCallFallback (ref : UnresolvedRef) (fromID : string) (seen : gset string) :
    gset string * list Edge :=
  match get_all (ix_byNameService ix) (u_Service ref, u_Name ref) with
  | [to] =>
      emit_targets (fun to => calls fromID to {["via" := "bare_call_cross_class"]})
        (fun to => negb (str_eqb to fromID)) [to] seen
  | _ => (seen, [])
  end.

Definition view_meta (targets : list string) : Meta := ambiguity targets {["via" := "view_helper"]}.
Definition emitViewHelperCall (ref : UnresolvedRef) (seen : gset string) (fx : fileNodeIndex) : emission :=
  match get_all (ix_helperMethods ix) (u_Service ref, u_Name ref) with
  | [] => mkEmission seen fx [] []
  | targets =>
      let '(fx', fromID) := ensure RelativizeToCwd (u_Service ref) (u_File ref) fx in
      let '(seen', edges) :=
        emit_targets (fun to => calls fromID to (view_meta targets)) (fun _ => true) (sortedUnique targets) seen in
      mkEmission seen' fx' edges (collision ref "mixin_method_collision" edges targets)
  end.

Definition mixin_meta (via : string) (depth : nat) (targets : list string) : Meta :=
  ambiguity targets (<["via" := via]> {["depth" := itoa (Z.of_nat depth)]}).

Definition same_service (fromID to : string) : bool := str_eqb (service_of ix fromID) (service_of ix to).

Definition emit (ref : UnresolvedRef) (seen : gset string) (fx : fileNodeIndex) : emission :=
  match class_at ix (u_File ref) (u_Line ref) with
  | None =>
      if isERBFile (u_File ref) then emitViewHelperCall ref seen fx else mkEmission seen fx [] []
  | Some cls =>
      let fromID := caller_at ix cls (u_File ref) (u_Line ref) in
      match lookup ix (sp_id cls) (u_Name ref) with
      | ([], _) =>
          let '(seen', edges) := emitBareCallFallback ref fromID seen in mkEmission seen' fx edges []
      | (targets, depth) =>
          let '(seen', edges) :=
            emit_targets (fun to => calls fromID to (mixin_meta "mixin_method" depth targets))
              (same_service fromID) targets seen in
          mkEmission seen' fx edges (collision ref "mixin_method_collision" edges targets)
      end
  end.

Definition emitConst (ref : UnresolvedRef) (seen : gset string) (fx : fileNodeIndex) : emission :=
  match class_at ix (u_File ref) (u_Line ref) with
  | None => mkEmission seen fx [] []
  | Some cls =>
      let fromID := caller_at ix cls (u_File ref) (u_Line ref) in
      let '(targets, depth) := lookupConst ix (sp_id cls) (u_Name ref) in
      let '(seen', edges) :=
        emit_targets (fun to => reads fromID to (mixin_meta "mixin_const" depth targets))
          (same_service fromID) targets seen in
      mkEmission seen' fx edges (collision ref "mixin_const_collision" edges targets)
  end.
End emit.

(** ** The passes *)

Definition RubyCallRefKey (file : string) (line : Z) (name : string) : string := key3 file (itoa line) name.

Definition ref_less : UnresolvedRef -> UnresolvedRef -> bool :=
  less_by u_File str_ltb (less_by u_Line Z.ltb (fun a b => str_ltb (u_Name a) (u_Name b))).
Definition sorted_refs (p : UnresolvedRef -> bool) (refs : list UnresolvedRef) : list UnresolvedRef :=
  sort_slice ref_less (List.filter p refs).

Record passState : Type := mkPassState {
  ps_seen : gset string; ps_fileIdx : fileNodeIndex; ps_edges : list Edge; ps_resolved : gset string;
  ps_unresolved : list UnresolvedRef
}.

(** A reference without edges leaves no trace but the file node it may have
    minted. *)
Definition pass_step (em : UnresolvedRef -> gset string -> fileNodeIndex -> emission) (st : passState)
    (ref : UnresolvedRef) : passState :=
  let r := em ref (ps_seen st) (ps_fileIdx st) in
  match em_edges r with
  | [] => mkPassState (em_seen r) (em_fileIdx r) (ps_edges st) (ps_resolved st) (ps_unresolved st)
  | es => mkPassState (em_seen r) (em_fileIdx r) (ps_edges st ++ es)
            ({[RubyCallRefKey (u_File ref) (u_Line ref) (u_Name ref)]} ∪ ps_resolved st)
            (ps_unresolved st ++ em_unresolved r)
  end.

Record passResult : Type := mkPassResult {
  pr_edges : list Edge; pr_resolved : gset string; pr_unresolved : list UnresolvedRef; pr_newNodes : list Node
}.
Definition no_pass : passResult := mkPassResult [] ∅ [] [].

Definition is_call_ref (u : UnresolvedRef) : bool :=
  str_eqb (u_Kind u) "call_ref" && (isRubyFile (u_File u) || isERBFile (u_File u)).
Definition is_const_ref (u : UnresolvedRef) : bool := str_eqb (u_Kind u) "const_ref" && isRubyFile (u_File u).

Definition run_pass (ix : rubyMixinIndex) (em : UnresolvedRef -> gset string -> fileNodeIndex -> emission)
    (refs : list UnresolvedRef) : passState :=
  fold_left (pass_step em) refs (mkPassState ∅ (ix_fileIdx ix) [] ∅ []).

Definition LinkRubyMixinMethods (RelativizeToCwd : string -> string) (nodes : list Node) (edges : list Edge)
    (allUnresolved : list UnresolvedRef) : passResult :=
  let ix := newRubyMixinIndex nodes edges in
  if bool_decide (ix_ancestors ix = ∅) && bool_decide (ix_helperMethods ix = ∅) then no_pass
  else
    let st := run_pass ix (emit RelativizeToCwd ix) (sorted_refs is_call_ref allUnresolved) in
    mkPassResult (ps_edges st ++ fx_mintedEdges (ps_fileIdx st)) (ps_resolved st) (ps_unresolved st)
      (fx_minted (ps_fileIdx st)).

Definition LinkRubyMixinConstants (nodes : list Node) (edges : list Edge) (allUnresolved : list UnresolvedRef) :
    passResult :=
  let ix := newRubyMixinIndex nodes edges in
  if bool_decide (ix_ancestors ix = ∅) && bool_decide (ix_constants ix = ∅) then no_pass
  else
    let st := run_pass ix (emitConst ix) (sorted_refs is_const_ref allUnresolved) in
    mkPassResult (ps_edges st) (ps_resolved st) (ps_unresolved st) [].

(** ** Sole definers *)

Definition is_typed_call_ref (u : UnresolvedRef) : bool :=
  str_eqb (u_Kind u) "typed_call_ref" && isRubyFile (u_File u).

(** The method a line is in, or else its class, or else [""]. *)
Definition scope_at (ix : rubyMixinIndex) (file : string) (line : Z) : string :=
  match func_at ix file line with
  | Some fn => sp_id fn
  | None => match class_at ix file line with Some cls => sp_id cls | None => "" end
  end.

Definition emitSoleDefiner (ix : rubyMixinIndex) (ref : UnresolvedRef) (seen : gset string) (fx : fileNodeIndex) :
    emission :=
  match get_all (ix_byNameService ix) (u_Service ref, u_Name ref) with
  | [to] =>
      let fromID := scope_at ix (u_File ref) (u_Line ref) in
      let '(seen', edges) :=
        emit_targets (fun to => calls fromID to {["via" := "sole_definer"]})
          (fun to => negb (str_eqb fromID "") && negb (str_eqb fromID to) && same_service ix fromID to) [to] seen in
      mkEmission seen' fx edges []
  | _ => mkEmission seen fx [] []
  end.

Definition LinkRubySoleDefinerCalls (nodes : list Node) (edges : list Edge) (allUnresolved : list UnresolvedRef) :
    passResult :=
  let ix := newRubyMixinIndex nodes edges in
  if bool_decide (ix_byNameService ix = ∅) then no_pass
  else
    let st := run_pass ix (emitSoleDefiner ix) (sorted_refs is_typed_call_ref allUnresolved) in
    mkPassResult (ps_edges st) (ps_resolved st) [] [].

(** ** Overrides *)

Definition rubyOverrideFanoutCap : nat := 20.
Definition maxFanoutTargetsListed : nat := 15.

(** The edges of the hierarchy, child first, read off the map of ancestors. *)
Definition child_parent (entry : string * list string) : list (string * string) :=
  map (fun parent => (parent, fst entry)) (snd entry).

Definition newRubyOverrideIndex (ix : rubyMixinIndex) : gmap string (list string) :=
  sortedUnique <$> index_all (fun pc => Some (fst pc)) snd
    (concat (map child_parent (map_to_list (ix_ancestors ix)))).

Section overrides.
Context (succ : string -> list string) (overriding : string -> bool).

(** The children found at each depth, [fuel] more depths. *)
Fixpoint overrides_loop (fuel : nat) (visited : gset string) (frontier out : list string) : list string :=
  match fuel, frontier with
  | O, _ | _, [] => out
  | S fuel', _ =>
      let '(visited', fresh) := fold_left enqueue (concat (map succ frontier)) (visited, []) in
      overrides_loop fuel' visited' (sort_strings fresh) (out ++ List.filter overriding fresh)
  end.
End overrides.

Definition defines (ix : rubyMixinIndex) (name id : string) : bool :=
  bool_decide (methods_of ix name id <> []).

Definition overrides (ix : rubyMixinIndex) (descendants : gmap string (list string)) (classID name : string) :
    list string :=
  sortedUnique (overrides_loop (get_all descendants) (defines ix name) (S rubyMixinMaxDepth) {[classID]} [classID] []).

Definition formatOverrideFanoutTargets (classIDs : list string) : string :=
  let n := Nat.min (length classIDs) maxFanoutTargetsListed in
  let rest := (length classIDs - n)%nat in
  Join (String "010" "") (take n classIDs ++
    (if (0 <? rest)%nat then ["+" +:+ itoa (Z.of_nat rest) +:+ " more"] else [])).

Section override_emit.
Context (ix : rubyMixinIndex) (descendants : gmap string (list string)).

Definition emitOverride (fromID classID name svc file : string) (line : Z) (seen : gset string) :
    gset string * list Edge * list UnresolvedRef :=
  match overrides ix descendants classID name with
  | [] => (seen, [], [])
  | targets =>
      if (rubyOverrideFanoutCap <? length targets)%nat then
        (seen, [], [mkUnresolvedRef svc file line name "ruby_override_fanout_capped"
                      (formatOverrideFanoutTargets targets)])
      else
        (emit_targets (fun mID => calls fromID mID {["via" := "override_dispatch"]}) (same_service ix fromID)
           (concat (map (methods_of ix name) targets)) seen, [])
  end.

Record overrideState : Type := mkOverrideState {
  os_seen : gset string; os_edges : list Edge; os_resolved : gset string; os_unresolved : list UnresolvedRef
}.

Definition is_ruby_call_ref (u : UnresolvedRef) : bool := str_eqb (u_Kind u) "call_ref" && isRubyFile (u_File u).

Definition override_ref (st : overrideState) (ref : UnresolvedRef) : overrideState :=
  match class_at ix (u_File ref) (u_Line ref) with
  | None => st
  | Some cls =>
      let fromID := caller_at ix cls (u_File ref) (u_Line ref) in
      let '(seen', es, us) :=
        emitOverride fromID (sp_id cls) (u_Name ref) (sp_svc cls) (u_File ref) (u_Line ref) (os_seen st) in
      match es, us with
      | [], [] => mkOverrideState seen' (os_edges st) (os_resolved st) (os_unresolved st)
      | _, _ => mkOverrideState seen' (os_edges st ++ es)
                  ({[RubyCallRefKey (u_File ref) (u_Line ref) (u_Name ref)]} ∪ os_resolved st)
                  (os_unresolved st ++ us)
      end
  end.

Definition innermostClassID (file : string) (line : Z) : option string := sp_id <$> class_at ix file line.

(** A call resolved in its own file and class, without metadata. *)
Definition override_edge (byID : gmap string Node) (st : overrideState) (e : Edge) : overrideState :=
  if negb (str_eqb (ed_Type e) EdgeTypeCalls) || negb (bool_decide (ed_Meta e = ∅)) then st
  else match byID !! ed_From e, byID !! ed_To e with
       | Some fromNode, Some toNode =>
           if negb (is_ruby fromNode) || negb (is_ruby toNode) then st
           else match innermostClassID (n_File fromNode) (n_Line fromNode),
                      innermostClassID (n_File toNode) (n_Line toNode) with
                | Some callerClass, Some targetClass =>
                    if negb (str_eqb callerClass targetClass) then st
                    else
                      let '(seen', es, us) :=
                        emitOverride (ed_From e) targetClass (n_Label toNode) (n_Service fromNode)
                          (n_File fromNode) (n_Line fromNode) (os_seen st) in
                      mkOverrideState seen' (os_edges st ++ es) (os_resolved st) (os_unresolved st ++ us)
                | _, _ => st
                end
       | _, _ => st
       end.
End override_emit.

Definition LinkRubyOverrideDispatch (nodes : list Node) (edges : list Edge) (allUnresolved : list UnresolvedRef) :
    passResult :=
  let ix := newRubyMixinIndex nodes edges in
  if bool_decide (ix_ancestors ix = ∅) then no_pass
  else
    let descendants := newRubyOverrideIndex ix in
    let st1 := fold_left (override_ref ix descendants) (sorted_refs is_ruby_call_ref allUnresolved)
                 (mkOverrideState ∅ [] ∅ []) in
    let st2 := fold_left (override_edge ix descendants (by_id nodes)) edges st1 in
    mkPassResult (os_edges st2) (os_resolved st2) (os_unresolved st2) [].

(** * Theorems

    What the Ruby passes resolve: the walk over ancestors returns exactly the
    definitions of the nearest classes that have any, the walk over descendants
    all the overrides, and every edge emitted is one they justify. *)

(** ** Sorted sets of strings *)

Lemma elem_of_drop_repeats p l x : x ∈ l <-> x ∈ drop_repeats p l \/ p = Some x /\ x ∈ l.
Proof.
  revert p. induction l as [|v l IH]; intros p; cbn [drop_repeats].
  - rewrite elem_of_nil. tauto.
  - rewrite elem_of_cons. case_bool_decide as D.
    + subst p. rewrite (IH (Some v)). split; [|naive_solver]. intros [->|[?|[[= ->] ?]]]; auto.
    + rewrite elem_of_cons, (IH (Some v)). split; [|naive_solver]. intros [->|[?|[[= ->] ?]]]; auto.
Qed.

Lemma drop_repeats_sorted p l : StronglySorted String.le l -> (forall x, p = Some x -> Forall (String.le x) l) ->
  NoDup (drop_repeats p l) /\ (forall x, p = Some x -> x ∉ drop_repeats p l) /\
  StronglySorted String.le (drop_repeats p l).
Proof.
  revert p. induction l as [|v l IH]; intros p Hs Hp; cbn [drop_repeats].
  { split_and!; [apply NoDup_nil_2|intros x _ H; by apply elem_of_nil in H|constructor]. }
  apply StronglySorted_cons in Hs as [Hv Hs]. destruct (IH (Some v) Hs) as (H1 & H2 & H3); [by intros x [= <-]|].
  case_bool_decide as D.
  - subst p. split_and!; [done| |done]. intros x [= <-]. by apply H2.
  - split_and!.
    + constructor; [by apply H2|done].
    + intros x ->. rewrite elem_of_cons. intros [->|Hx]; [done|].
      assert (x ∈ l) as Hl by (apply (elem_of_drop_repeats (Some v)); by left).
      assert (v = x) as ->; [|done]. apply (anti_symm String.le).
      * rewrite Forall_forall in Hv. by apply Hv.
      * specialize (Hp x eq_refl). by apply Forall_cons in Hp as [? _].
    + constructor; [done|]. rewrite Forall_forall in *. intros y Hy. apply Hv.
      apply (elem_of_drop_repeats (Some v)). by left.
Qed.

Lemma elem_of_sortedUnique l x : x ∈ sortedUnique l <-> x ∈ l.
Proof.
  unfold sortedUnique. rewrite <- (elem_of_sort_strings x l).
  rewrite (elem_of_drop_repeats None (sort_strings l)). split; [by left|]. by intros [?|[[=] _]].
Qed.

Lemma sortedUnique_sorted l : NoDup (sortedUnique l) /\ StronglySorted String.le (sortedUnique l).
Proof.
  unfold sortedUnique, sort_strings.
  destruct (drop_repeats_sorted None (merge_sort String.le l)) as (H1 & _ & H2);
    [apply (StronglySorted_merge_sort String.le)|by intros ? [=]|done].
Qed.

(** ** The innermost span *)

Definition within (line : Z) (s : scopeSpan) : Prop := (sp_start s <= line <= sp_end s)%Z.

Lemma in_lines_within line s : in_lines line s = true <-> within line s.
Proof. unfold in_lines, within. rewrite negb_true_iff, orb_false_iff, !Z.ltb_ge. lia. Qed.

Lemma innermost_spec spans line :
  match innermost spans line with
  | Some s => s ∈ spans /\ within line s /\ forall t, t ∈ spans -> within line t -> tighter t s = false
  | None => forall t, t ∈ spans -> ~ within line t
  end.
Proof.
  unfold innermost. induction spans as [|s spans IH] using rev_ind; [intros t Ht; by apply elem_of_nil in Ht|].
  rewrite fold_left_app. cbn [fold_left]. unfold innermost_step at 1.
  destruct (in_lines line s) eqn:El; cbn [negb].
  - apply in_lines_within in El. destruct (fold_left _ spans None) as [b|].
    + destruct IH as (H1 & H2 & H3). destruct (tighter s b) eqn:Et.
      * split_and!; [apply elem_of_app; right; left|done|].
        intros t [Ht| ->%list_elem_of_singleton]%elem_of_app Hw; unfold tighter in *; [|lia].
        specialize (H3 t Ht Hw). lia.
      * split_and!; [apply elem_of_app; by left|done|].
        intros t [Ht| ->%list_elem_of_singleton]%elem_of_app Hw; [by apply H3|done].
    + split_and!; [apply elem_of_app; right; left|done|].
      intros t [Ht| ->%list_elem_of_singleton]%elem_of_app Hw; [by destruct (IH t Ht)|unfold tighter; lia].
  - assert (Hn : ~ within line s) by (rewrite <- in_lines_within; congruence).
    destruct (fold_left _ spans None) as [b|].
    + destruct IH as (H1 & H2 & H3). split_and!; [apply elem_of_app; by left|done|].
      intros t [Ht| ->%list_elem_of_singleton]%elem_of_app Hw; [by apply H3|done].
    + intros t [Ht| ->%list_elem_of_singleton]%elem_of_app; [by apply IH|done].
Qed.

(** ** Walks by depth *)

Section walk.
Context (succ : string -> list string) (root : string).
Notation R := (step succ).

(** [c] is [d] steps from the root, and no fewer. *)
Definition at_distance (d : nat) (c : string) : Prop :=
  nsteps R d root c /\ forall k, k < d -> ~ nsteps R k root c.

(** After depth [d]: what is visited, and what is on the frontier. *)
Record walk_inv (d : nat) (visited : gset string) (frontier : list string) : Prop := {
  wi_visited x : x ∈ visited <-> exists k, k <= d /\ nsteps R k root x;
  wi_frontier x : x ∈ frontier <-> at_distance d x;
  wi_split x : x ∈ visited -> x ∈ frontier \/ exists k, k < d /\ nsteps R k root x
}.

Lemma walk_start : walk_inv 0 {[root]} [root].
Proof.
  split; intros x; rewrite ?elem_of_singleton, ?list_elem_of_singleton.
  - split; [intros ->; exists 0; by split; [|constructor]|].
    intros (k & Hk & Hn). assert (k = 0) as -> by lia. by inversion Hn.
  - split; [intros ->; split; [constructor|lia]|]. intros [Hn _]. by inversion Hn.
  - by left.
Qed.

Lemma walk_next d visited frontier new : walk_inv d visited frontier ->
  (forall x, x ∈ new <-> x ∈ concat (map succ frontier) /\ x ∉ visited) ->
  walk_inv (S d) (list_to_set new ∪ visited) new.
Proof.
  intros [H1 H2 H3] Hnew.
  assert (Hs : forall x, nsteps R (S d) root x -> x ∉ visited -> x ∈ concat (map succ frontier)).
  { intros x (c & Hc & Hr)%nsteps_inv_r Hx. apply elem_of_concat_map_list. exists c. split; [|done].
    assert (Hv : c ∈ visited) by (apply H1; by exists d).
    apply H3 in Hv as [Hv|(k & Hk & Hv)]; [done|]. destruct Hx. apply H1. exists (S k). split; [lia|].
    by eapply nsteps_r. }
  assert (Hin : forall x, x ∈ new -> nsteps R (S d) root x).
  { intros x [Hx _]%Hnew. apply elem_of_concat_map_list in Hx as (c & [Hc _]%H2 & Hr). by eapply nsteps_r. }
  assert (Hd : forall x, nsteps R (S d) root x -> x ∈ new \/ x ∈ visited).
  { intros x Hx. destruct (decide (x ∈ visited)); [by right|]. left. apply Hnew. auto. }
  split.
  - intros x. rewrite elem_of_union, elem_of_list_to_set. split.
    + intros [Hx|(k & Hk & Hx)%H1]; [exists (S d)|exists k]; auto.
    + intros (k & Hk & Hx). destruct (decide (k = S d)) as [->|]; [by apply Hd|]. right. apply H1. exists k. split; [lia|done].
  - intros x. split.
    + intros Hx. split; [by apply Hin|]. intros k Hk Hn. apply Hnew in Hx as [_ Hx]. apply Hx, H1. exists k. split; [lia|done].
    + intros [Hx Hmin]. apply Hnew. split; [apply Hs; [done|]|]; intros (k & Hk & Hn)%H1; apply (Hmin k); auto; lia.
  - intros x. rewrite elem_of_union, elem_of_list_to_set. intros [Hx|(k & Hk & Hx)%H1]; [by left|].
    right. exists k. split; [lia|done].
Qed.

(** Nothing lies beyond an empty frontier. *)
Lemma walk_end d visited k x : walk_inv d visited [] -> nsteps R k root x -> exists j, j < d /\ nsteps R j root x.
Proof.
  intros [H1 H2 H3]. revert x. induction k as [|k IH]; intros x Hx.
  - destruct d as [|d].
    + exfalso. apply (not_elem_of_nil x). apply H2. split; [done|lia].
    + exists 0. split; [lia|done].
  - apply nsteps_inv_r in Hx as (c & Hc & Hr). destruct (IH c Hc) as (j & Hj & Hn).
    assert (Hv : x ∈ visited) by (apply H1; exists (S j); split; [lia|by eapply nsteps_r]).
    apply H3 in Hv as [Hv|Hv]; [by apply elem_of_nil in Hv|done].
Qed.

Lemma enqueue_frontier visited frontier visited' next :
  fold_left enqueue (concat (map succ frontier)) (visited, []) = (visited', next) ->
  visited' = list_to_set next ∪ visited /\
  forall x, x ∈ next <-> x ∈ concat (map succ frontier) /\ x ∉ visited.
Proof.
  intros E. destruct (enqueue_fold succ (concat (map succ frontier)) visited []) as (new & E' & H1 & H2 & H3).
  rewrite E in E'. injection E' as -> ->. cbn [app]. split; [done|]. intros x. specialize (H3 x).
  rewrite elem_of_union, elem_of_list_to_set in H3. split.
  - intros Hx. pose proof (H2 x Hx). tauto.
  - tauto.
Qed.

Lemma walk_inv_perm d V F F' : (forall x, x ∈ F <-> x ∈ F') -> walk_inv d V F -> walk_inv d V F'.
Proof.
  intros HF [H1 H2 H3]. split; [done|intros x; by rewrite <- HF|]. intros x Hx. rewrite <- HF. by apply H3.
Qed.

(** *** The nearest definitions *)

Context (defs : string -> list string).

(** No class fewer than [d] steps away has a definition. *)
Definition none_before (d : nat) : Prop := forall c k, k < d -> nsteps R k root c -> defs c = [].

Lemma lookup_loop_spec fuel d visited frontier : walk_inv d visited frontier -> none_before d ->
  match lookup_loop succ defs fuel d visited frontier with
  | ([], _) => none_before (d + fuel)
  | (ts, depth) => d <= depth < d + fuel /\ none_before depth /\
      (forall t, t ∈ ts <-> exists c, at_distance depth c /\ t ∈ defs c) /\
      NoDup ts /\ StronglySorted String.le ts
  end.
Proof.
  revert d visited frontier. induction fuel as [|fuel IH]; intros d visited frontier Hi Hb; cbn [lookup_loop].
  { by rewrite Nat.add_0_r. }
  destruct frontier as [|f fs] eqn:Ef.
  { intros c k _ Hn. destruct (walk_end _ _ _ _ Hi Hn) as (j & Hj & Hj'). by apply (Hb c j). }
  rewrite <- Ef in *. destruct (concat (map defs frontier)) as [|h hs] eqn:Eh.
  - assert (Hb' : none_before (S d)).
    { intros c k Hk Hn. destruct (decide (k < d)); [by apply (Hb c k)|].
      assert (Hv : c ∈ visited) by (apply (wi_visited _ _ _ Hi); exists k; split; [lia|done]).
      apply (wi_split _ _ _ Hi) in Hv as [Hv|(j & Hj & Hv)]; [|by apply (Hb c j)].
      destruct (defs c) as [|t ts] eqn:Ec; [done|]. exfalso. apply (not_elem_of_nil t). rewrite <- Eh.
      apply elem_of_concat_map_list. exists c. rewrite Ec. split; [done|left]. }
    unfold next_frontier. destruct (fold_left enqueue _ _) as [visited' next] eqn:En.
    apply enqueue_frontier in En as [-> Hnext].
    specialize (IH (S d) (list_to_set next ∪ visited) (sort_strings next)).
    replace (d + S fuel) with (S d + fuel) by lia.
    destruct (lookup_loop succ defs fuel (S d) _ _) as [[|t ts] depth] eqn:El.
    + apply IH; [|done]. eapply walk_inv_perm; [|by eapply walk_next]. intros x. by rewrite elem_of_sort_strings.
    + destruct IH as (Hd & IH); [|done|].
      { eapply walk_inv_perm; [|by eapply walk_next]. intros x. by rewrite elem_of_sort_strings. }
      split; [lia|exact IH].
  - rewrite <- Eh. destruct (sortedUnique_sorted (concat (map defs frontier))) as [S1 S2].
    assert (Hel : forall t, t ∈ sortedUnique (concat (map defs frontier)) <-> exists c, at_distance d c /\ t ∈ defs c).
    { intros t. rewrite elem_of_sortedUnique, elem_of_concat_map_list. by setoid_rewrite (wi_frontier _ _ _ Hi). }
    destruct (sortedUnique (concat (map defs frontier))) as [|t ts] eqn:Es.
    + exfalso. apply (not_elem_of_nil h). rewrite <- Es, elem_of_sortedUnique, Eh. left.
    + split_and!; try done; lia.
Qed.

(** *** All the overrides *)

Context (overriding : string -> bool).

Lemma overrides_loop_spec fuel d visited frontier out : walk_inv d visited frontier ->
  (forall x, x ∈ out <-> overriding x = true /\ x ∈ visited /\ x <> root) -> root ∈ visited ->
  forall x, x ∈ overrides_loop succ overriding fuel visited frontier out <->
    overriding x = true /\ x <> root /\ exists k, k <= d + fuel /\ nsteps R k root x.
Proof.
  revert d visited frontier out. induction fuel as [|fuel IH]; intros d visited frontier out Hi Ho Hr x; cbn [overrides_loop].
  { rewrite Ho, Nat.add_0_r. rewrite (wi_visited _ _ _ Hi). tauto. }
  destruct frontier as [|f fs] eqn:Ef.
  { rewrite Ho, (wi_visited _ _ _ Hi). split.
    - intros (H1 & (k & Hk & Hn) & H2). split_and!; [done..|]. exists k. split; [lia|done].
    - intros (H1 & H2 & k & Hk & Hn). split_and!; [done| |done].
      destruct (walk_end _ _ _ _ Hi Hn) as (j & Hj & Hj'). exists j. split; [lia|done]. }
  rewrite <- Ef in *. destruct (fold_left enqueue _ _) as [visited' fresh] eqn:En.
  apply enqueue_frontier in En as [-> Hnext]. replace (d + S fuel) with (S d + fuel) by lia. apply IH.
  - eapply walk_inv_perm; [|by eapply walk_next]. intros y. by rewrite elem_of_sort_strings.
  - intros y. rewrite elem_of_app, Ho, elem_of_bfilter, elem_of_union, elem_of_list_to_set.
    split; [|tauto]. intros [?|[Hy Hov]]; [tauto|]. split_and!; [done|by left|].
    intros ->. by apply Hnext in Hy as [_ Hy].
  - apply elem_of_union. by right.
Qed.
End walk.

(** ** Lookups *)

(** [to] is defined under [name] by a class [d] steps up, and by none nearer. *)
Definition nearest (ix : rubyMixinIndex) (defs : string -> list string) (classID : string) (d : nat) (to : string) : Prop :=
  d <= rubyMixinMaxDepth /\ none_before (ancestors_of ix) classID defs d /\
  exists c, at_distance (ancestors_of ix) classID d c /\ to ∈ defs c.

Lemma lookup_in_spec ix defs classID :
  match lookup_loop (ancestors_of ix) defs (S rubyMixinMaxDepth) 0 {[classID]} [classID] with
  | ([], _) => none_before (ancestors_of ix) classID defs (S rubyMixinMaxDepth)
  | (ts, depth) => depth <= rubyMixinMaxDepth /\ none_before (ancestors_of ix) classID defs depth /\
      (forall t, t ∈ ts <-> nearest ix defs classID depth t) /\ NoDup ts /\ StronglySorted String.le ts
  end.
Proof.
  pose proof (lookup_loop_spec (ancestors_of ix) classID defs (S rubyMixinMaxDepth) 0 _ _ (walk_start _ _)) as H.
  specialize (H ltac:(intros c k Hk; lia)). destruct (lookup_loop _ _ _ _ _ _) as [[|t ts] depth]; [exact H|].
  destruct H as (Hd & H1 & H2 & H3 & H4). split_and!; [lia|done| |done|done].
  intros x. rewrite H2. unfold nearest. split; [intros Hx; split_and!; [lia|done|done]|tauto].
Qed.

(** C25: A method looked up from a class is found in the nearest of its
    ancestors that define it, up to twelve steps away: the result is every
    definition at that distance, each once and in order, and it is empty only
    if no class within twelve steps has one.  Distances are those of the graph
    of inheritance, whatever cycles and shared ancestors it has. *)
Theorem lookup_nearest (ix : rubyMixinIndex) (classID name : string) :
  match lookup ix classID name with
  | ([], _) => none_before (ancestors_of ix) classID (methods_of ix name) (S rubyMixinMaxDepth)
  | (ts, depth) => depth <= rubyMixinMaxDepth /\
      none_before (ancestors_of ix) classID (methods_of ix name) depth /\
      (forall t, t ∈ ts <-> nearest ix (methods_of ix name) classID depth t) /\
      NoDup ts /\ StronglySorted String.le ts
  end.
Proof. exact (lookup_in_spec ix (methods_of ix name) classID). Qed.

Lemma nearest_depth ix defs classID d d' t t' :
  nearest ix defs classID d t -> nearest ix defs classID d' t' -> d = d'.
Proof.
  assert (Hlt : forall d d' t t', nearest ix defs classID d t -> nearest ix defs classID d' t' -> ~ d < d').
  { clear. intros d d' t t' (_ & _ & c & [Hc _] & Ht) (_ & Hb & _) Hlt. by rewrite (Hb c d Hlt Hc) in Ht; apply elem_of_nil in Ht. }
  intros H H'. pose proof (Hlt _ _ _ _ H H'). pose proof (Hlt _ _ _ _ H' H). lia.
Qed.

(** The overrides of a name are all the descendants that define it.  The walk
    enters thirteen levels, one more than its bound on depths says. *)
Lemma overrides_exact ix desc classID name x : x ∈ overrides ix desc classID name <->
  x <> classID /\ methods_of ix name x <> [] /\
  exists k, k <= S rubyMixinMaxDepth /\ nsteps (step (get_all desc)) k classID x.
Proof.
  unfold overrides. rewrite elem_of_sortedUnique.
  rewrite (overrides_loop_spec (get_all desc) classID (fun _ => []) (defines ix name) (S rubyMixinMaxDepth) 0).
  - unfold defines. rewrite bool_decide_eq_true. cbn [Nat.add]. tauto.
  - apply walk_start.
  - intros y. rewrite elem_of_nil, elem_of_singleton. tauto.
  - by apply elem_of_singleton.
Qed.

(** Descendants are ancestors read backwards. *)
Lemma newRubyOverrideIndex_inverts ix parent child :
  child ∈ get_all (newRubyOverrideIndex ix) parent <-> parent ∈ ancestors_of ix child.
Proof.
  unfold newRubyOverrideIndex, get_all at 1. rewrite lookup_fmap.
  assert (Hin : child ∈ get_all (index_all (fun pc : string * string => Some (fst pc)) snd
    (concat (map child_parent (map_to_list (ix_ancestors ix))))) parent <-> parent ∈ ancestors_of ix child).
  { rewrite elem_of_get_all. unfold ancestors_of, get_all. split.
    - intros ([p c] & Hin & [= ->] & ->). cbn. apply elem_of_concat_map_list in Hin as ([c' ps] & Hm & Hin).
      apply list_elem_of_fmap in Hin as (p & [= -> ->] & Hp). cbn in Hp. apply elem_of_map_to_list in Hm. by rewrite Hm.
    - intros Hp. destruct (ix_ancestors ix !! child) as [ps|] eqn:E; [|by apply elem_of_nil in Hp].
      exists (parent, child). split; [|done]. apply elem_of_concat_map_list. exists (child, ps).
      split; [by apply elem_of_map_to_list|]. apply list_elem_of_fmap. by exists parent. }
  rewrite <- Hin. unfold get_all. destruct (_ !! parent) as [cs|]; cbn; [apply elem_of_sortedUnique|done].
Qed.

(** ** The index *)

Lemma get_all_sortedUnique {K} `{Countable K} (m : gmap K (list string)) k x :
  x ∈ get_all (sortedUnique <$> m) k <-> x ∈ get_all m k.
Proof. unfold get_all. rewrite lookup_fmap. destruct (m !! k); cbn; [apply elem_of_sortedUnique|done]. Qed.

(** Ancestors are the inheritance edges between Ruby declarations. *)
Lemma ancestors_of_spec nodes edges c p : let ix := newRubyMixinIndex nodes edges in
  p ∈ ancestors_of ix c <-> exists e, e ∈ edges /\ ed_Type e = EdgeTypeInherits /\ ed_From e = c /\ ed_To e = p /\
    is_Some (ix_serviceOf ix !! c) /\ is_Some (ix_serviceOf ix !! p).
Proof.
  cbv zeta. unfold ancestors_of, newRubyMixinIndex at 1. cbn [ix_ancestors].
  rewrite get_all_sortedUnique, elem_of_get_all. split.
  - intros (e & He & Hk & ->). unfold inherits_key, when in Hk. destruct (_ && _) eqn:E in Hk; [|done].
    injection Hk as <-. apply andb_true_iff in E as [[E1%Stdlib.Strings.String.eqb_eq E2%bool_decide_eq_true]%andb_true_iff
      E3%bool_decide_eq_true]. by exists e.
  - intros (e & He & Ht & <- & <- & H1 & H2). exists e. split; [done|]. split; [|done]. unfold inherits_key, when.
    rewrite Ht. rewrite !bool_decide_eq_true_2; done.
Qed.

(** A class's methods are the functions of its file whose lines it holds and
    whose ["class"] is its label. *)
Lemma methods_of_spec nodes edges c name t : let ix := newRubyMixinIndex nodes edges in
  t ∈ methods_of ix name c <-> exists n cls, n ∈ nodes /\ cls ∈ nodes /\ member n = true /\ is_ruby_class cls = true /\
    key2 (n_File cls) (n_Label cls) = key2 (n_File n) (meta_of n "class") /\ within (n_Line n) (node_span cls) /\
    key2 (n_ID cls) (n_Label n) = key2 c name /\ t = n_ID n.
Proof.
  cbv zeta. unfold methods_of, newRubyMixinIndex. cbn [ix_methods]. rewrite get_all_sortedUnique, elem_of_get_all. split.
  - intros ([k v] & Hin & [= ->] & ->). cbn [snd]. apply elem_of_concat_map_list in Hin as (n & [Hn Hm]%elem_of_bfilter & Hin).
    unfold owners in Hin. apply list_elem_of_fmap in Hin as (s & [= Hk ->] & [Hs Hl]%elem_of_bfilter).
    apply elem_of_get_all in Hs as (cls & Hcls & Hkey & ->). unfold when in Hkey.
    destruct (is_ruby_class cls) eqn:Ec; [|done]. injection Hkey as Hkey.
    exists n, cls. split_and!; try done. by apply in_lines_within.
  - intros (n & cls & Hn & Hcls & Hm & Hc & Hkey & Hw & Hk & ->). exists (key2 (n_ID cls) (n_Label n), n_ID n).
    split; [|by rewrite <- Hk]. apply elem_of_concat_map_list. exists n. split; [by apply elem_of_bfilter|].
    unfold owners. apply list_elem_of_fmap. exists (node_span cls). split; [done|]. apply elem_of_bfilter.
    split; [|by apply in_lines_within]. apply elem_of_get_all. exists cls. split; [done|]. unfold when. by rewrite Hc, Hkey.
Qed.

(** ** Emission *)

Definition ids (es : list Edge) : list string := map ed_ID es.

(** New edges are new, and what is wanted is there afterwards. *)
Record emitted (J W : Edge -> Prop) (seen seen' : gset string) (es : list Edge) : Prop := {
  et_just e : e ∈ es -> J e;
  et_fresh e : e ∈ es -> ed_ID e ∉ seen;
  et_NoDup : NoDup (ids es);
  et_seen i : i ∈ seen' <-> i ∈ seen \/ i ∈ ids es;
  et_want e : W e -> ed_ID e ∈ seen'
}.

Lemma emitted_none (J W : Edge -> Prop) seen : (forall e, ~ W e) -> emitted J W seen seen [].
Proof.
  intros HW. split; cbn; try (intros e He; by apply elem_of_nil in He); [apply NoDup_nil_2| |].
  - intros i. rewrite elem_of_nil. tauto.
  - intros e He. by destruct (HW e).
Qed.

Lemma emitted_mono (J J' W W' : Edge -> Prop) seen seen' es :
  (forall e, J e -> J' e) -> (forall e, W' e -> W e) -> emitted J W seen seen' es -> emitted J' W' seen seen' es.
Proof. intros HJ HW [H1 H2 H3 H4 H5]. split; auto. Qed.

Lemma emit_targets_spec mk ok targets seen :
  emitted (fun e => exists to, to ∈ targets /\ ok to = true /\ e = mk to)
    (fun e => exists to, to ∈ targets /\ ok to = true /\ e = mk to)
    seen (fst (emit_targets mk ok targets seen)) (snd (emit_targets mk ok targets seen)).
Proof.
  unfold emit_targets. induction targets as [|to targets IH] using rev_ind.
  { apply emitted_none. intros e (to & Hto & _). by apply elem_of_nil in Hto. }
  rewrite fold_left_app. cbn [fold_left]. destruct (fold_left _ targets _) as [s es]. cbn [fst snd] in IH.
  destruct IH as [H1 H2 H3 H4 H5]. unfold target_step, add_unseen.
  assert (Hex : forall e, (exists t, t ∈ targets ++ [to] /\ ok t = true /\ e = mk t) <->
    (exists t, t ∈ targets /\ ok t = true /\ e = mk t) \/ ok to = true /\ e = mk to).
  { intros e. setoid_rewrite elem_of_app. setoid_rewrite list_elem_of_singleton. naive_solver. }
  destruct (ok to) eqn:Eo; [case_decide as Hd|]; cbn [fst snd].
  - split; [intros e He; apply Hex; by left; apply H1|done|done|done|].
    intros e [He|[_ ->]]%Hex; [by apply H5|done].
  - split.
    + intros e [He| ->%list_elem_of_singleton]%elem_of_app; apply Hex; [left; by apply H1|by right].
    + intros e [He| ->%list_elem_of_singleton]%elem_of_app; [by apply H2|]. intros Hs. apply Hd, H4. by left.
    + unfold ids. rewrite map_app. apply NoDup_app. split_and!; [done| |apply NoDup_singleton].
      intros i Hi ->%list_elem_of_singleton. apply Hd, H4. by right.
    + intros i. unfold ids. rewrite map_app, elem_of_union, elem_of_singleton, elem_of_app, H4. cbn.
      rewrite list_elem_of_singleton. unfold ids. tauto.
    + intros e [He|[_ ->]]%Hex; apply elem_of_union; [right; by apply H5|left; by apply elem_of_singleton].
  - split; [intros e He; apply Hex; by left; apply H1|done|done|done|].
    intros e [He|[? _]]%Hex; [by apply H5|congruence].
Qed.

(** *** A pass over references *)

Section pass.
Context (em : UnresolvedRef -> gset string -> fileNodeIndex -> emission).
Context (J W : UnresolvedRef -> Edge -> Prop) (P : fileNodeIndex -> Prop).
Hypothesis Hem : forall ref seen fx, P fx ->
  emitted (J ref) (W ref) seen (em_seen (em ref seen fx)) (em_edges (em ref seen fx)) /\
  P (em_fileIdx (em ref seen fx)).

Record pass_inv (done : list UnresolvedRef) (st : passState) : Prop := {
  pi_just e : e ∈ ps_edges st -> exists ref, ref ∈ done /\ J ref e;
  pi_seen i : i ∈ ps_seen st <-> i ∈ ids (ps_edges st);
  pi_NoDup : NoDup (ids (ps_edges st));
  pi_want ref e : ref ∈ done -> W ref e -> ed_ID e ∈ ids (ps_edges st);
  pi_resolved k : k ∈ ps_resolved st -> exists ref e, ref ∈ done /\ J ref e /\ e ∈ ps_edges st /\
    k = RubyCallRefKey (u_File ref) (u_Line ref) (u_Name ref);
  pi_files : P (ps_fileIdx st)
}.

Lemma pass_step_inv done st ref : pass_inv done st -> pass_inv (done ++ [ref]) (pass_step em st ref).
Proof.
  intros [H1 H2 H3 H4 H5 H6]. destruct (Hem ref (ps_seen st) (ps_fileIdx st) H6) as [[E1 E2 E3 E4 E5] E6].
  unfold pass_step. destruct (em ref (ps_seen st) (ps_fileIdx st)) as [seen' fx' es us].
  cbn [em_seen em_fileIdx em_edges em_unresolved] in *.
  destruct es as [|e0 es0] eqn:Ees; [|rewrite <- Ees in *].
  - split; cbn; try done.
    + intros e (r & Hr & Hj)%H1. exists r. rewrite elem_of_app. tauto.
    + intros i. rewrite E4, H2. cbn. rewrite elem_of_nil. tauto.
    + intros r e [Hr| ->%list_elem_of_singleton]%elem_of_app Hw; [by apply (H4 r)|].
      apply E5, E4 in Hw as [Hw|Hw]; [by apply H2|by apply elem_of_nil in Hw].
    + intros k (r & e & Hr & Hj & He & Hk)%H5. exists r, e. rewrite elem_of_app. tauto.
  - assert (Hids : forall i, i ∈ ids (ps_edges st ++ es) <-> i ∈ ids (ps_edges st) \/ i ∈ ids es).
    { intros i. unfold ids. by rewrite map_app, elem_of_app. }
    split; cbn; try done.
    + intros e [(r & Hr & Hj)%H1|He]%elem_of_app; [exists r|exists ref]; rewrite elem_of_app; [tauto|].
      split; [right; left|by apply E1].
    + intros i. by rewrite E4, H2, Hids.
    + unfold ids. rewrite map_app. apply NoDup_app. split_and!; [done| |done].
      intros i Hi (e & -> & He)%list_elem_of_fmap. by apply (E2 e He), H2.
    + intros r e [Hr| ->%list_elem_of_singleton]%elem_of_app Hw; apply Hids; [left; by apply (H4 r)|].
      apply E5, E4 in Hw as [Hw|Hw]; [left; by apply H2|by right].
    + intros k [->%elem_of_singleton|(r & e & Hr & Hj & He & Hk)%H5]%elem_of_union.
      * exists ref, e0. rewrite !elem_of_app. assert (e0 ∈ es) as He by (rewrite Ees; left).
        split_and!; [right; left|by apply E1|by right|done].
      * exists r, e. rewrite !elem_of_app. tauto.
Qed.

Lemma run_pass_inv ix refs : P (ix_fileIdx ix) -> pass_inv refs (run_pass ix em refs).
Proof.
  intros HP. unfold run_pass. apply (fold_left_inv_done pass_inv); [|intros; by apply pass_step_inv].
  split; cbn; try done; try (intros *; set_solver). apply NoDup_nil_2.
Qed.
End pass.

Lemma elem_of_sorted_refs p refs r : r ∈ sorted_refs p refs <-> r ∈ refs /\ p r = true.
Proof. unfold sorted_refs. by rewrite elem_of_sort_slice, elem_of_bfilter. Qed.

(** *** Bare calls *)

Section mixins.
Context (RelativizeToCwd : string -> string) (ix : rubyMixinIndex).

(** The one method of the reference's service with its name. *)
Definition sole_method (ref : UnresolvedRef) (to : string) : Prop :=
  get_all (ix_byNameService ix) (u_Service ref, u_Name ref) = [to].

(** What justifies an edge for a call inside a class: a nearest definition in
    the class's service, or, where there is none, the only method of the name. *)
Inductive in_class (ref : UnresolvedRef) : Edge -> Prop :=
| ByMixin cls d to m : class_at ix (u_File ref) (u_Line ref) = Some cls ->
    nearest ix (methods_of ix (u_Name ref)) (sp_id cls) d to ->
    service_of ix (caller_at ix cls (u_File ref) (u_Line ref)) = service_of ix to ->
    in_class ref (calls (caller_at ix cls (u_File ref) (u_Line ref)) to m)
| ByName cls to m : class_at ix (u_File ref) (u_Line ref) = Some cls ->
    none_before (ancestors_of ix) (sp_id cls) (methods_of ix (u_Name ref)) (S rubyMixinMaxDepth) ->
    sole_method ref to -> to <> caller_at ix cls (u_File ref) (u_Line ref) ->
    in_class ref (calls (caller_at ix cls (u_File ref) (u_Line ref)) to m).

(** For a call in a view: any helper of the service. *)
Definition in_view (ref : UnresolvedRef) (e : Edge) : Prop :=
  class_at ix (u_File ref) (u_Line ref) = None /\ isERBFile (u_File ref) = true /\
  exists from to m, to ∈ get_all (ix_helperMethods ix) (u_Service ref, u_Name ref) /\ e = calls from to m.

Lemma calls_id from to m m' : ed_ID (calls from to m) = ed_ID (calls from to m').
Proof. done. Qed.

Lemma bare_fallback_spec ref cls seen :
  let from := caller_at ix cls (u_File ref) (u_Line ref) in
  let r := emitBareCallFallback ix ref from seen in
  emitted (fun e => exists to m, sole_method ref to /\ to <> from /\ e = calls from to m)
    (fun e => exists to m, sole_method ref to /\ to <> from /\ e = calls from to m) seen (fst r) (snd r).
Proof.
  cbv zeta. unfold emitBareCallFallback, sole_method. set (from := caller_at ix cls _ _).
  destruct (get_all _ _) as [|to [|to2 tos]]; cbn [fst snd]; [apply emitted_none; naive_solver| |apply emitted_none; naive_solver].
  pose proof (emit_targets_spec (fun to => calls from to {["via" := "bare_call_cross_class"]})
    (fun to => negb (str_eqb to from)) [to] seen) as [H1 H2 H3 H4 H5]. split; try done.
  - intros e He. apply H1 in He as (t & ->%list_elem_of_singleton & Hn & ->).
    apply negb_true_iff, Stdlib.Strings.String.eqb_neq in Hn. by eexists _, _.
  - intros e (t & m & [= <-] & Hn & ->). rewrite (calls_id _ _ _ {["via" := "bare_call_cross_class"]}). apply H5.
    exists to. split; [left|]. split; [|done]. by apply negb_true_iff, Stdlib.Strings.String.eqb_neq.
Qed.

Lemma emit_spec ref seen fx :
  emitted (fun e => in_class ref e \/ in_view ref e) (in_class ref) seen
    (em_seen (emit RelativizeToCwd ix ref seen fx)) (em_edges (emit RelativizeToCwd ix ref seen fx)).
Proof.
  unfold emit. destruct (class_at ix (u_File ref) (u_Line ref)) as [cls|] eqn:Ec.
  - set (from := caller_at ix cls (u_File ref) (u_Line ref)).
    pose proof (lookup_nearest ix (sp_id cls) (u_Name ref)) as Hl.
    assert (Hnn : forall d t, nearest ix (methods_of ix (u_Name ref)) (sp_id cls) d t ->
      ~ none_before (ancestors_of ix) (sp_id cls) (methods_of ix (u_Name ref)) (S rubyMixinMaxDepth)).
    { intros d t (Hd & _ & c & [Hc _] & Ht) Hb. rewrite (Hb c d) in Ht; [by apply elem_of_nil in Ht|lia|done]. }
    destruct (lookup ix (sp_id cls) (u_Name ref)) as [[|t0 ts] depth].
    + pose proof (bare_fallback_spec ref cls seen) as Hb. cbv zeta in Hb. fold from in Hb.
      destruct (emitBareCallFallback ix ref from seen) as [seen' es]. cbn [em_seen em_edges fst snd] in *.
      eapply emitted_mono; [..|exact Hb].
      * intros e (to & m & Hs & Hn & ->). left. by eapply ByName.
      * intros e [cls' d to m Hc Hnear _|cls' to m Hc _ Hs Hn]; rewrite Ec in Hc; injection Hc as <-.
        -- by destruct (Hnn _ _ Hnear).
        -- by exists to, m.
    + destruct Hl as (Hd & Hb & Hin & _). set (targets := t0 :: ts) in *.
      pose proof (emit_targets_spec (fun to => calls from to (mixin_meta "mixin_method" depth targets))
        (same_service ix from) targets seen) as He.
      destruct (emit_targets _ _ targets seen) as [seen' es]. cbn [em_seen em_edges fst snd] in *.
      assert (Hss : forall to, same_service ix from to = true <-> service_of ix from = service_of ix to)
        by (intros to; apply Stdlib.Strings.String.eqb_eq).
      destruct He as [H1 H2 H3 H4 H5]. split; try done.
      * intros e (to & Hto & Hs & ->)%H1. left. apply (ByMixin _ cls depth); [done|by apply Hin|by apply Hss].
      * intros e [cls' d to m Hc Hnear Hs|cls' to m Hc Hnone _ _]; rewrite Ec in Hc; injection Hc as <-.
        -- rewrite (calls_id _ _ _ (mixin_meta "mixin_method" depth targets)). apply H5. exists to.
           assert (d = depth) as ->.
           { eapply nearest_depth; [exact Hnear|]. apply Hin. left. }
           split; [by apply Hin|]. split; [by apply Hss|done].
        -- exfalso. eapply Hnn; [|exact Hnone]. apply Hin. left.
  - assert (Hno : forall e, ~ in_class ref e) by (intros e []; congruence).
    destruct (isERBFile (u_File ref)) eqn:Eb; [|by apply emitted_none].
    unfold emitViewHelperCall. destruct (get_all _ _) as [|t0 ts] eqn:Eh; [by apply emitted_none|].
    set (targets := t0 :: ts) in *. destruct (ensure _ _ _ fx) as [fx' from].
    pose proof (emit_targets_spec (fun to => calls from to (view_meta targets)) (fun _ => true)
      (sortedUnique targets) seen) as He.
    destruct (emit_targets _ _ _ seen) as [seen' es]. cbn [em_seen em_edges fst snd] in *.
    destruct He as [H1 H2 H3 H4 H5]. split; try done.
    + intros e (to & Hto & _ & ->)%H1. right. split; [done|]. split; [done|]. exists from, to, (view_meta targets).
      split; [|done]. rewrite Eh. by apply elem_of_sortedUnique.
    + intros e Hw. by destruct (Hno e).
Qed.

(** Emitting mints nothing but containment edges. *)
Lemma emit_contains ref seen fx : (forall e, e ∈ fx_mintedEdges fx -> ed_Type e = EdgeTypeContains) ->
  forall e, e ∈ fx_mintedEdges (em_fileIdx (emit RelativizeToCwd ix ref seen fx)) -> ed_Type e = EdgeTypeContains.
Proof.
  intros Hfx. unfold emit. destruct (class_at _ _ _) as [cls|].
  - destruct (lookup _ _ _) as [[|t ts] d].
    + by destruct (emitBareCallFallback _ _ _ _).
    + by destruct (emit_targets _ _ _ _).
  - destruct (isERBFile _); [|done]. unfold emitViewHelperCall. destruct (get_all _ _); [done|].
    unfold ensure. destruct (fx_id fx !! _); destruct (emit_targets _ _ _ _); cbn; [done|].
    case_decide; [|done]. intros e [He| ->%list_elem_of_singleton]%elem_of_app; [by apply Hfx|done].
Qed.
End mixins.

(** Every call edge of LinkRubyMixinMethods comes from an unresolved call:
    out of the innermost method or class around it, to the nearest definition
    up its class's hierarchy within the same service, or, when no ancestor
    defines the name, to the service's only method of that name; a call in a
    view goes to a helper of the service.  Every such edge is emitted, once,
    whatever the order of the ledger, and no reference is struck from the
    ledger without an edge. *)
Theorem LinkRubyMixinMethods_justified (RelativizeToCwd : string -> string) (nodes : list Node) (edges : list Edge)
    (refs : list UnresolvedRef) :
  let ix := newRubyMixinIndex nodes edges in
  let r := LinkRubyMixinMethods RelativizeToCwd nodes edges refs in
  exists callEdges fileEdges, pr_edges r = callEdges ++ fileEdges /\ NoDup (ids callEdges) /\
  (forall e, e ∈ fileEdges -> ed_Type e = EdgeTypeContains) /\
  (forall e, e ∈ callEdges -> exists ref, ref ∈ refs /\ is_call_ref ref = true /\
     (in_class ix ref e \/ in_view ix ref e)) /\
  (ix_ancestors ix <> ∅ -> forall ref e, ref ∈ refs -> is_call_ref ref = true -> in_class ix ref e ->
     ed_ID e ∈ ids callEdges) /\
  (forall k, k ∈ pr_resolved r -> exists ref e, ref ∈ refs /\ e ∈ callEdges /\
     (in_class ix ref e \/ in_view ix ref e) /\ k = RubyCallRefKey (u_File ref) (u_Line ref) (u_Name ref)).
Proof.
  intros ix r. unfold r, LinkRubyMixinMethods. fold ix.
  destruct (_ && _) eqn:E.
  { exists [], []. cbn. split_and!; try done; try (intros *; set_solver); [apply NoDup_nil_2|].
    intros Ha. apply andb_true_iff in E as [E%bool_decide_eq_true _]. done. }
  set (P := fun fx => forall e, e ∈ fx_mintedEdges fx -> ed_Type e = EdgeTypeContains).
  pose proof (run_pass_inv (emit RelativizeToCwd ix) (fun ref e => in_class ix ref e \/ in_view ix ref e)
    (in_class ix) P) as H.
  destruct (H (fun ref seen fx HP => conj (emit_spec RelativizeToCwd ix ref seen fx)
    (emit_contains RelativizeToCwd ix ref seen fx HP)) ix (sorted_refs is_call_ref refs)) as [H1 H2 H3 H4 H5 H6].
  { intros e He. by apply elem_of_nil in He. }
  exists (ps_edges (run_pass ix (emit RelativizeToCwd ix) (sorted_refs is_call_ref refs))), (fx_mintedEdges
    (ps_fileIdx (run_pass ix (emit RelativizeToCwd ix) (sorted_refs is_call_ref refs)))).
  split; [done|]. split; [done|]. split; [exact H6|]. split_and!.
  - intros e (ref & [Hr Hc]%elem_of_sorted_refs & Hj)%H1. by exists ref.
  - intros _ ref e Hr Hc Hi. apply (H4 ref); [by apply elem_of_sorted_refs|done].
  - intros k (ref & e & [Hr _]%elem_of_sorted_refs & Hj & He & Hk)%H5. by exists ref, e.
Qed.

(** ** Sole definers *)

(** An edge out of the scope a reference is in, to the only method of its
    service with its name. *)
Definition to_sole (ix : rubyMixinIndex) (ref : UnresolvedRef) (e : Edge) : Prop :=
  let from := scope_at ix (u_File ref) (u_Line ref) in
  exists to, sole_method ix ref to /\ from <> "" /\ from <> to /\ service_of ix from = service_of ix to /\
    e = calls from to {["via" := "sole_definer"]}.

Lemma emitSoleDefiner_spec ix ref seen fx : let r := emitSoleDefiner ix ref seen fx in
  emitted (to_sole ix ref) (to_sole ix ref) seen (em_seen r) (em_edges r).
Proof.
  cbv zeta. unfold emitSoleDefiner, to_sole, sole_method. set (from := scope_at ix _ _).
  destruct (get_all _ _) as [|to [|to2 tos]];
    [apply emitted_none; intros e (t & Ht & _); discriminate Ht| |apply emitted_none; intros e (t & Ht & _); discriminate Ht].
  pose proof (emit_targets_spec (fun to => calls from to {["via" := "sole_definer"]})
    (fun to => negb (str_eqb from "") && negb (str_eqb from to) && same_service ix from to) [to] seen) as He.
  destruct (emit_targets _ _ _ _) as [seen' es]. cbn [em_seen em_edges fst snd] in *.
  eapply emitted_mono; [..|exact He].
  - intros e (t & ->%list_elem_of_singleton & Hok & ->). exists to.
    apply andb_true_iff in Hok as [[H1%negb_true_iff%Stdlib.Strings.String.eqb_neq
      H2%negb_true_iff%Stdlib.Strings.String.eqb_neq]%andb_true_iff H3%Stdlib.Strings.String.eqb_eq]. done.
  - intros e (t & [= <-] & H1 & H2 & H3 & ->). exists to. split; [left|]. split; [|done].
    rewrite !andb_true_iff, !negb_true_iff, !Stdlib.Strings.String.eqb_neq. split_and!; [done..|].
    by apply Stdlib.Strings.String.eqb_eq.
Qed.

(** A typed call resolves exactly when its name has one definer in the service
    other than the caller itself. *)
Lemma LinkRubySoleDefinerCalls_exact nodes edges refs :
  let ix := newRubyMixinIndex nodes edges in
  let r := LinkRubySoleDefinerCalls nodes edges refs in
  (forall e, e ∈ pr_edges r -> exists ref, ref ∈ refs /\ is_typed_call_ref ref = true /\ to_sole ix ref e) /\
  (forall ref e, ref ∈ refs -> is_typed_call_ref ref = true -> to_sole ix ref e -> ed_ID e ∈ ids (pr_edges r)).
Proof.
  intros ix r. unfold r, LinkRubySoleDefinerCalls. fold ix. case_bool_decide as Hb.
  - split; [intros e He; by apply elem_of_nil in He|]. intros ref e _ _ (to & Hs & _).
    unfold sole_method, get_all in Hs. by rewrite Hb, lookup_empty in Hs.
  - destruct (run_pass_inv (emitSoleDefiner ix) (to_sole ix) (to_sole ix) (fun _ => True)
      (fun ref seen fx _ => conj (emitSoleDefiner_spec ix ref seen fx) I) ix (sorted_refs is_typed_call_ref refs) I)
      as [H1 H2 H3 H4 H5 _]. split.
    + intros e (ref & [Hr Hc]%elem_of_sorted_refs & Hj)%H1. by exists ref.
    + intros ref e Hr Hc Hj. apply (H4 ref); [by apply elem_of_sorted_refs|done].
Qed.

(** ** Overrides *)

Lemma emitOverride_sound ix desc fromID classID name svc file line seen e :
  e ∈ snd (fst (emitOverride ix desc fromID classID name svc file line seen)) ->
  exists c mID, c ∈ overrides ix desc classID name /\ mID ∈ methods_of ix name c /\
    service_of ix fromID = service_of ix mID /\ e = calls fromID mID {["via" := "override_dispatch"]} /\
    length (overrides ix desc classID name) <= rubyOverrideFanoutCap.
Proof.
  unfold emitOverride. destruct (overrides ix desc classID name) as [|t ts] eqn:Eo; [intros He; by apply elem_of_nil in He|].
  destruct (Nat.ltb_spec rubyOverrideFanoutCap (length (t :: ts))) as [Hl|Hl]; [intros He; by apply elem_of_nil in He|].
  cbn [fst snd]. intros He.
  apply emit_targets_spec in He as (mID & [c [Hc Hm]]%elem_of_concat_map_list & Hs%Stdlib.Strings.String.eqb_eq & ->).
  by exists c, mID.
Qed.

(** A call site fans out to at most twenty overrides, or names them in the
    ledger instead. *)
Lemma emitOverride_capped ix desc fromID classID name svc file line seen :
  rubyOverrideFanoutCap < length (overrides ix desc classID name) ->
  emitOverride ix desc fromID classID name svc file line seen =
    (seen, [], [mkUnresolvedRef svc file line name "ruby_override_fanout_capped"
                  (formatOverrideFanoutTargets (overrides ix desc classID name))]).
Proof.
  intros H. unfold emitOverride. destruct (overrides ix desc classID name) as [|t ts]; [cbn in H; lia|].
  by rewrite (proj2 (Nat.ltb_lt _ _) H).
Qed.

(** ** A call no pass resolves *)

(** Without a mixin or a superclass anywhere in the workspace, a bare call to
    the only method of the name is left alone, although the fallback would
    resolve it. *)
Definition rb (id ty label file : string) (line : Z) (last cls : string) : Node :=
  mkNode id ty label "app" file line 0 "ruby" (<["class" := cls]> {["end_line" := last]}) "".
Definition rb_nodes : list Node :=
  [rb "A" NodeTypeClass "A" "a.rb" 1 "9" ""; rb "A.run" NodeTypeFunction "run" "a.rb" 2 "5" "A";
   rb "B" NodeTypeClass "B" "b.rb" 1 "9" ""; rb "B.help" NodeTypeFunction "help" "b.rb" 2 "5" "B"].
Definition rb_call : UnresolvedRef := mkUnresolvedRef "app" "a.rb" 3 "help" "call_ref" "".

Lemma bare_call_without_hierarchy :
  in_class (newRubyMixinIndex rb_nodes []) rb_call (calls "A.run" "B.help" ∅) /\
  pr_edges (LinkRubyMixinMethods id rb_nodes [] [rb_call]) = [].
Proof.
  split; [|reflexivity]. pose proof (lookup_nearest (newRubyMixinIndex rb_nodes []) "A" "help") as Hl.
  assert (E : lookup (newRubyMixinIndex rb_nodes []) "A" "help" = ([], 0)) by (vm_compute; reflexivity).
  rewrite E in Hl.
  change (calls "A.run" "B.help" ∅) with (calls (caller_at (newRubyMixinIndex rb_nodes [])
    (mkSpan "A" "A" "app" 1 9) (u_File rb_call) (u_Line rb_call)) "B.help" ∅).
  eapply (ByName _ _ (mkSpan "A" "A" "app" 1 9)); [vm_compute; reflexivity|exact Hl|..].
  - vm_compute. reflexivity.
  - by vm_compute.
Qed.

(** With one mixin in the workspace it is resolved. *)
Example bare_call_with_hierarchy :
  map (fun e => (ed_From e, ed_To e)) (pr_edges (LinkRubyMixinMethods id rb_nodes
    [link_edge "i" "B" "A" EdgeTypeInherits "" ∅] [rb_call])) = [("A.run", "B.help")].
Proof. vm_compute. reflexivity. Qed.
