(* ===== verification/LkDom.v ===== *)
(** Linking across the document (internal/linker/dom_contract.go,
    dom_declutter.go) and across the wire (response_shapes.go): selectors to
    the components that declare their attributes, selector nodes folded into
    the elements they name, response structs to the interfaces of their shape. *)
From Stdlib Require Import SpecFloat.
From S2P Require Import Prelude GoStrings GrModel CtEngine GrVerdict LkIndex LkRoutes LkData.

Definition EdgeTypeDefinedIn : EdgeType := "defined_in".
Definition EdgeTypeDOMRead : EdgeType := "dom_read".
Definition EdgeTypeDOMWrite : EdgeType := "dom_write".

(** ** Selectors *)

Definition quote : ascii := "034".

(** [\s], [[a-zA-Z]] and [[\w-]] of Go's regular expressions. *)
Definition is_space (c : ascii) : bool :=
  existsb (N.eqb (N_of_ascii c)) [9; 10; 12; 13; 32]%N.
Definition is_letter (c : ascii) : bool :=
  let n := N_of_ascii c in (((65 <=? n) && (n <=? 90)) || ((97 <=? n) && (n <=? 122)))%N.
Definition is_word (c : ascii) : bool :=
  is_letter c || Ascii.eqb c "_" || Ascii.eqb c "-" ||
  ((48 <=? N_of_ascii c) && (N_of_ascii c <=? 57))%N.

Fixpoint skip_while (p : ascii -> bool) (s : string) : string :=
  match s with String c s' => if p c then skip_while p s' else s | "" => "" end.
Fixpoint take_while (p : ascii -> bool) (s : string) : string :=
  match s with String c s' => if p c then String c (take_while p s') else "" | "" => "" end.
Definition expect (c : ascii) (s : string) : option string :=
  match s with String d s' => if Ascii.eqb c d then Some s' else None | "" => None end.

(** A match of reAttrSelectorToken at the start of [s]: the attribute, its
    value and what follows.  No part of the expression can be matched in two
    ways. *)
Definition attr_token (s : string) : option (string * string * string) :=
  s1 ← expect "[" s;
  let s2 := skip_while is_space s1 in
  match s2 with
  | String c _ =>
      if negb (is_letter c) then None
      else
        s3 ← expect "=" (skip_while is_space (skip_while is_word s2));
        s4 ← expect quote (skip_while is_space s3);
        let value := take_while (fun c => negb (Ascii.eqb c quote)) s4 in
        s5 ← expect quote (skip_while (fun c => negb (Ascii.eqb c quote)) s4);
        s6 ← expect "]" (skip_while is_space s5);
        Some (take_while is_word s2, value, s6)
  | "" => None
  end.

(** FindAllStringSubmatch: the leftmost match, then on after it. *)
Fixpoint find_tokens (fuel : nat) (s : string) : list (string * string) :=
  match fuel, s with
  | O, _ | _, "" => []
  | S fuel', String _ s' =>
      match attr_token s with
      | Some (attr, value, rest) => (attr, value) :: find_tokens fuel' rest
      | None => find_tokens fuel' s'
      end
  end.
Definition selector_tokens (raw : string) : list (string * string) := find_tokens (str_len raw) raw.

(** splitIDLine: the name; the callers modelled here ignore the line. *)
Definition splitIDLine (entry : string) : string :=
  match cut_last "@" entry with Some (name, _) => name | None => entry end.

Record attrDef : Type := mkAttrDef { ad_value : string; ad_isPrefix : bool; ad_compID : string }.

Definition splitAttrEntry (entry : string) : option (string * string * bool) :=
  match cut_first "=" entry with
  | None => None
  | Some (attr, rest) =>
      let v := splitIDLine rest in
      if str_eqb v "" then None
      else if HasSuffix v "*" then Some (attr, TrimSuffix v "*", true) else Some (attr, v, false)
  end.

Definition splitAtInterpolation (val : string) : string * bool :=
  match cut_first "${" val with Some (prefix, _) => (prefix, true) | None => (val, false) end.

Definition attrMatches (d : attrDef) (consumerVal : string) (consumerDynamic : bool) : bool :=
  if negb (ad_isPrefix d) && negb consumerDynamic then str_eqb (ad_value d) consumerVal
  else HasPrefix (ad_value d) consumerVal || HasPrefix consumerVal (ad_value d).

Definition newline : ascii := "010".

(** The attributes a templ component declares, by service and attribute. *)
Definition component_attrs (n : Node) : list (string * attrDef) :=
  if negb (is_type n NodeTypeComponent) || negb (str_eqb (n_Language n) "templ") then []
  else
    concat (map (fun entry =>
      match splitAttrEntry entry with
      | Some (attr, value, isPrefix) => [(key2 (n_Service n) attr, mkAttrDef value isPrefix (n_ID n))]
      | None => []
      end) (Split newline (meta_of n "dom_data_attrs"))) ++
    concat (map (fun entry =>
      let id := splitIDLine entry in
      if str_eqb id "" then [] else [(key2 (n_Service n) "id", mkAttrDef id false (n_ID n))])
      (Split newline (meta_of n "dom_ids"))).

Definition dom_edge (from to conf : string) : Edge :=
  link_edge (arrow_id EdgeTypeDOMContract from to) from to EdgeTypeDOMContract conf ∅.

(** The edges one token of a selector asks for. *)
Definition token_edges (attrDefs : gmap string (list attrDef)) (n : Node) (tok : string * string) : list Edge :=
  let attr := ToLower (fst tok) in
  let '(prefix, hasDynamic) := splitAtInterpolation (snd tok) in
  if str_eqb prefix "" && hasDynamic then []
  else
    map (fun d => dom_edge (ad_compID d) (n_ID n)
           (if negb (ad_isPrefix d) && negb hasDynamic then ConfidenceStatic else ConfidencePartial))
      (List.filter (fun d => attrMatches d prefix hasDynamic) (get_all attrDefs (key2 (n_Service n) attr))).

Definition target_tokens (n : Node) : list (string * string) :=
  let raw := meta_of n "selector" in
  if negb (is_type n NodeTypeDOMTarget) || str_eqb raw "" || negb (Contains raw "[") then []
  else selector_tokens raw.

(** All the edges a selector asks for; in the ledger when none. *)
Definition target_links (attrDefs : gmap string (list attrDef)) (n : Node) : list Edge * list UnresolvedRef :=
  match target_tokens n with
  | [] => ([], [])
  | toks =>
      let es := concat (map (token_edges attrDefs n) toks) in
      (es, match es with [] => [ledger n (stripMeta (meta_of n "selector")) "dom_contract_ref"] | _ => [] end)
  end.

Definition LinkDOMContracts (nodes : list Node) : list Edge * list UnresolvedRef :=
  let attrDefs := index_all (fun kv => Some (fst kv)) snd (concat (map component_attrs nodes)) in
  let '(es, us) := collect (target_links attrDefs) nodes in
  (first_by_id es, us).

(** ** Folding selectors *)

Definition isFoldableSelectorPattern (p : string) : bool :=
  HasPrefix p "jquery_selector" || HasPrefix p "dom_access" || HasPrefix p "query_selector" ||
  HasPrefix p "get_element".

Definition edge_is (t : EdgeType) (e : Edge) : bool := str_eqb (ed_Type e) t.
Definition touches_dom (e : Edge) : bool := edge_is EdgeTypeDOMRead e || edge_is EdgeTypeDOMWrite e.

Definition defined_key (e : Edge) : option string := if edge_is EdgeTypeDefinedIn e then Some (ed_From e) else None.
Definition inbound_key (e : Edge) : option string := if touches_dom e then Some (ed_To e) else None.
Definition listeners (edges : list Edge) : gset string :=
  list_to_set (concat (map (fun e => [ed_From e; ed_To e]) (List.filter (edge_is EdgeTypeDOMListen) edges))).

(** A selector node that says nothing of its own. *)
Definition foldable (byID : gmap string Node) (hasListen : gset string) (definedIn : gmap string (list string))
    (id : string) : option Node :=
  match byID !! id with
  | Some n =>
      if negb (is_type n NodeTypeDOMTarget) then None
      else if negb (isFoldableSelectorPattern (meta_of n "pattern")) then None
      else if has_meta n "handler_node" || has_meta n "event" || bool_decide (id ∈ hasListen) then None
      else match get_all definedIn id with [] => None | _ => Some n end
  | None => None
  end.

Definition fold_edge (n : Node) (e : Edge) (elemID : string) : Edge :=
  link_edge (arrow_id (ed_Type e) (ed_From e) elemID) (ed_From e) elemID (ed_Type e) ConfidenceStatic
    (<["via" := "dom_selector_fold"]> {["selector" := meta_of n "selector"]}).

Definition fold_target (byID : gmap string Node) (hasListen : gset string) (definedIn : gmap string (list string))
    (inbound : gmap string (list Edge)) (id : string) : list Edge * list string :=
  match foldable byID hasListen definedIn id with
  | Some n =>
      (concat (map (fun e => map (fold_edge n e) (sort_strings (get_all definedIn id))) (get_all inbound id)), [id])
  | None => ([], [])
  end.

Definition FoldDOMSelectors (nodes : list Node) (edges : list Edge) : list Edge * gset string :=
  let definedIn := index_all defined_key ed_To edges in
  let inbound := index_all inbound_key id edges in
  let ids := sort_strings (elements (dom inbound)) in
  let '(add, remove) := collect (fold_target (by_id nodes) (listeners edges) definedIn inbound) ids in
  (first_by_id add, list_to_set remove).

Definition PruneOrphanElements (nodes : list Node) (edges : list Edge) : gset string :=
  let touched : gset string := list_to_set (concat (map (fun e => [ed_From e; ed_To e]) edges)) in
  list_to_set (map n_ID (List.filter (fun n => is_type n NodeTypeElement && bool_decide (n_ID n ∉ touched)) nodes)).

(** ** Response shapes *)

(** jsonTagName *)
Definition json_tag : string := "json:" +:+ String quote "".
Definition jsonTagName (tag : string) : string :=
  match cut_first json_tag tag with
  | None => ""
  | Some (_, rest) =>
      match cut_first (String quote "") rest with
      | None => ""
      | Some (val, _) => before_byte "," val
      end
  end.

Section shapes.
(** json.Unmarshal of the fields of a struct node: the name and the tag of
    each, or an error. *)
Variable unmarshal_fields : string -> option (list (string * string)).

Definition wire_name (f : string * string) : list string :=
  let name := jsonTagName (snd f) in
  if str_eqb name "-" then []
  else
    let name := if str_eqb name "" then fst f else name in
    if str_eqb name "" then [] else [name].

Definition goStructJSONFields (raw : string) : gset string :=
  if str_eqb raw "" then ∅
  else match unmarshal_fields raw with
       | Some fields => list_to_set (concat (map wire_name fields))
       | None => ∅
       end.

Definition csvSet (s : string) : gset string :=
  if str_eqb s "" then ∅
  else list_to_set (List.filter (fun p => negb (str_eqb p "")) (map TrimSpace (Split "," s))).

(** setSimilarity: the shared members, the members of either. *)
Definition setSimilarity (a b : gset string) : Z * Z :=
  let shared := Z.of_nat (size (a ∩ b)) in
  (shared, (Z.of_nat (size a) + Z.of_nat (size b) - shared)%Z).

Definition ratio (a b : Z) : spec_float := SFdiv 53 1024 (float64 a) (float64 b).
Definition jaccard_below (shared union : Z) : bool :=
  if (union =? 0)%Z then true else SFltb (ratio shared union) (ratio 8 10).

Record shape : Type := mkShape { sh_id : string; sh_fields : gset string }.

Definition response_ids (edges : list Edge) : gset string :=
  list_to_set (map ed_To (List.filter (edge_is EdgeTypeReturns) edges)).

Definition go_shape (responseStructs : gset string) (n : Node) : list shape :=
  if negb (is_type n NodeTypeStruct) || negb (str_eqb (n_Language n) "go") || bool_decide (n_ID n ∉ responseStructs)
  then []
  else let fs := goStructJSONFields (meta_of n "fields") in
       if (2 <=? size fs)%nat then [mkShape (n_ID n) fs] else [].

Definition ts_shape (n : Node) : list shape :=
  if negb (is_type n NodeTypeInterface) || str_eqb (n_Language n) "go" then []
  else let fs := csvSet (meta_of n "methods") in
       if (2 <=? size fs)%nat then [mkShape (n_ID n) fs] else [].

Definition shape_edge (g t : shape) : list Edge :=
  let '(shared, union) := setSimilarity (sh_fields g) (sh_fields t) in
  if (shared <? 2)%Z || jaccard_below shared union then []
  else [link_edge (arrow_id "response_of" (sh_id g) (sh_id t)) (sh_id g) (sh_id t) EdgeTypeResponseOf ConfidenceStatic
          (<["match" := "shape"]> (<["shared" := itoa shared]> {["jaccard" := FormatRatio shared union]}))].

Definition LinkResponseShapes (nodes : list Node) (edges : list Edge) : list Edge :=
  let responseStructs := response_ids edges in
  if decide (responseStructs = ∅) then []
  else
    let goStructs := concat (map (go_shape responseStructs) nodes) in
    let tsIfaces := concat (map ts_shape nodes) in
    first_by_id (concat (map (fun g => concat (map (shape_edge g) tsIfaces)) goStructs)).
End shapes.

Example tokens_ex : selector_tokens (Join (String quote "") ["`[data-color="; "${c}"; "] [ id = "; "x"; " ] [a=b] [k="; "v"; "x]`"]) =
  [("data-color", "${c}"); ("id", "x")].
Proof. reflexivity. Qed.
Example tag_ex : jsonTagName (Join (String quote "") ["db:x json:"; "id,omitempty"; ""]) = "id".
Proof. reflexivity. Qed.

(** * Theorems

    What LkDom links: folding selector nodes loses no fact about the elements
    they name, pruning removes nothing an edge touches, and contracts join a
    selector to every component it can mean. *)

(** ** Folding *)

(** A selector node that carries no information of its own: its pattern only
    selects, nothing handles or listens on it, and its elements are known. *)
Definition mere_selector (nodes : list Node) (edges : list Edge) (id : string) (n : Node) : Prop :=
  by_id nodes !! id = Some n /\ n_Type n = NodeTypeDOMTarget /\
  isFoldableSelectorPattern (meta_of n "pattern") = true /\
  meta_of n "handler_node" = "" /\ meta_of n "event" = "" /\
  (forall e, e ∈ edges -> ed_Type e = EdgeTypeDOMListen -> ed_From e <> id /\ ed_To e <> id) /\
  exists e, e ∈ edges /\ ed_Type e = EdgeTypeDefinedIn /\ ed_From e = id.

Lemma elem_of_listeners edges id : id ∈ listeners edges <->
  exists e, e ∈ edges /\ ed_Type e = EdgeTypeDOMListen /\ (ed_From e = id \/ ed_To e = id).
Proof.
  unfold listeners. rewrite elem_of_list_to_set, elem_of_concat_map_list. setoid_rewrite elem_of_bfilter. unfold edge_is.
  setoid_rewrite Stdlib.Strings.String.eqb_eq. setoid_rewrite elem_of_cons. setoid_rewrite list_elem_of_singleton. naive_solver.
Qed.

Lemma elem_of_definedIn edges id elem : elem ∈ get_all (index_all defined_key ed_To edges) id <->
  exists e, e ∈ edges /\ ed_Type e = EdgeTypeDefinedIn /\ ed_From e = id /\ ed_To e = elem.
Proof.
  rewrite elem_of_get_all. unfold defined_key, edge_is. split.
  - intros (e & He & Hk & ->). exists e. destruct (str_eqb _ _) eqn:E; [|done]. injection Hk as <-.
    by apply Stdlib.Strings.String.eqb_eq in E.
  - intros (e & He & Ht & <- & <-). exists e. by rewrite Ht.
Qed.

Lemma elem_of_inbound edges id e : e ∈ get_all (index_all inbound_key (fun e => e) edges) id <->
  e ∈ edges /\ touches_dom e = true /\ ed_To e = id.
Proof.
  rewrite elem_of_get_all. unfold inbound_key. split.
  - intros (e' & He & Hk & ->). destruct (touches_dom e') eqn:E; [|done]. by injection Hk as <-.
  - intros (He & Ht & <-). exists e. by rewrite Ht.
Qed.

Lemma foldable_spec nodes edges id n :
  foldable (by_id nodes) (listeners edges) (index_all defined_key ed_To edges) id = Some n <->
  mere_selector nodes edges id n.
Proof.
  unfold foldable, mere_selector, is_type, has_meta. destruct (by_id nodes !! id) as [m|]; [|naive_solver].
  destruct (Stdlib.Strings.String.eqb_spec (n_Type m) NodeTypeDOMTarget) as [Et|Et]; cbn [negb]; [|naive_solver].
  destruct (isFoldableSelectorPattern _) eqn:Ep; cbn [negb]; [|naive_solver congruence].
  destruct (Stdlib.Strings.String.eqb_spec (meta_of m "handler_node") "") as [Eh|Eh]; cbn [negb orb]; [|naive_solver].
  destruct (Stdlib.Strings.String.eqb_spec (meta_of m "event") "") as [Ev|Ev]; cbn [negb orb]; [|naive_solver].
  case_bool_decide as El.
  { split; [done|]. intros (_ & _ & _ & _ & _ & Hl & _). apply elem_of_listeners in El as (e & He & Ht & Hor).
    destruct (Hl e He Ht). naive_solver. }
  assert (Hno : forall e, e ∈ edges -> ed_Type e = EdgeTypeDOMListen -> ed_From e <> id /\ ed_To e <> id).
  { intros e He Ht. split; intros E; apply El, elem_of_listeners; exists e; auto. }
  pose proof (elem_of_definedIn edges id) as Hd. destruct (get_all _ id) as [|x xs].
  - split; [done|]. intros (_ & _ & _ & _ & _ & _ & e & He & Ht & Hf). exfalso. apply (not_elem_of_nil (ed_To e)). apply Hd. by exists e.
  - destruct (proj1 (Hd x)) as (e & He & Ht & Hf & _); [left|]. split; [|naive_solver]. intros [= <-]. split_and!; try done. by exists e.
Qed.

(** FoldDOMSelectors removes exactly the selector nodes that carry nothing
    of their own and that something reads or writes, and for each of them
    joins every reader and writer directly to every element it names: nothing
    else is added, and no fact about an element is lost with its node. *)
Theorem FoldDOMSelectors_exact (nodes : list Node) (edges : list Edge) :
  let '(add, remove) := FoldDOMSelectors nodes edges in
  (forall id, id ∈ remove <-> (exists n, mere_selector nodes edges id n) /\
     exists e, e ∈ edges /\ touches_dom e = true /\ ed_To e = id) /\
  (forall f, f ∈ add -> exists e d n, e ∈ edges /\ touches_dom e = true /\ d ∈ edges /\
     ed_Type d = EdgeTypeDefinedIn /\ ed_From d = ed_To e /\ mere_selector nodes edges (ed_To e) n /\
     f = fold_edge n e (ed_To d)) /\
  (forall e d, e ∈ edges -> touches_dom e = true -> ed_To e ∈ remove -> d ∈ edges ->
     ed_Type d = EdgeTypeDefinedIn -> ed_From d = ed_To e ->
     arrow_id (ed_Type e) (ed_From e) (ed_To d) ∈ map ed_ID add) /\
  NoDup (map ed_ID add).
Proof.
  unfold FoldDOMSelectors.
  set (inbound := index_all inbound_key id edges).
  set (ids := sort_strings (elements (dom inbound))).
  set (f := fold_target _ _ _ _). destruct (collect f ids) as [add0 rm] eqn:Ec.
  assert (Hids : forall i, i ∈ ids <-> exists e, e ∈ edges /\ touches_dom e = true /\ ed_To e = i).
  { intros i. unfold ids. rewrite elem_of_sort_strings, elem_of_elements, elem_of_dom.
    setoid_rewrite <- elem_of_inbound. unfold get_all, inbound. pose proof (index_all_lookup inbound_key id edges i) as Hl.
    change (fun e => e) with (@id Edge). destruct (index_all inbound_key id edges !! i) as [l|] eqn:El; cbn.
    - destruct (keyed_by inbound_key i edges) as [|x xs]; [done|]. injection Hl as ->. split; [|by eexists].
      intros _. eexists. left.
    - split; [by intros []|]. intros (e & He). by apply elem_of_nil in He. }
  assert (Hadd : forall x, x ∈ add0 <-> exists i, i ∈ ids /\ x ∈ fst (f i))
    by (intros x; rewrite <- elem_of_collect_fst; by rewrite Ec).
  assert (Hrm : forall x, x ∈ rm <-> exists i, i ∈ ids /\ x ∈ snd (f i))
    by (intros x; rewrite <- elem_of_collect_snd; by rewrite Ec).
  assert (Hf : forall i, match foldable (by_id nodes) (listeners edges) (index_all defined_key ed_To edges) i with
    | Some n => f i = (concat (map (fun e => map (fold_edge n e)
        (sort_strings (get_all (index_all defined_key ed_To edges) i))) (get_all inbound i)), [i])
    | None => f i = ([], []) end) by (intros i; unfold f, fold_target; by destruct (foldable _ _ _ i)).
  assert (Hrm' : forall i, i ∈ rm <-> (exists n, mere_selector nodes edges i n) /\ i ∈ ids).
  { intros i. rewrite Hrm. setoid_rewrite <- foldable_spec. split.
    - intros (j & Hj & Hx). specialize (Hf j). destruct (foldable _ _ _ j) as [n|] eqn:En; rewrite Hf in Hx; cbn in Hx.
      + apply list_elem_of_singleton in Hx as ->. eauto.
      + by apply elem_of_nil in Hx.
    - intros ((n & Hn) & Hi). exists i. split; [done|]. specialize (Hf i). rewrite Hn in Hf. rewrite Hf. left. }
  assert (Hedge : forall x, x ∈ add0 <-> exists e d n, e ∈ edges /\ touches_dom e = true /\ d ∈ edges /\
     ed_Type d = EdgeTypeDefinedIn /\ ed_From d = ed_To e /\ mere_selector nodes edges (ed_To e) n /\
     x = fold_edge n e (ed_To d)).
  { intros x. rewrite Hadd. split.
    - intros (i & Hi & Hx). specialize (Hf i). destruct (foldable _ _ _ i) as [n|] eqn:En; rewrite Hf in Hx; cbn [fst] in Hx;
        [|by apply elem_of_nil in Hx].
      apply elem_of_concat_map_list in Hx as (e & (He & Ht & Hto)%elem_of_inbound & Hx).
      apply list_elem_of_fmap in Hx as (el & -> & Hel). apply elem_of_sort_strings, elem_of_definedIn in Hel
        as (d & Hd & Hdt & Hdf & <-). apply foldable_spec in En. exists e, d, n. rewrite Hto. done.
    - intros (e & d & n & He & Ht & Hd & Hdt & Hdf & Hn & ->). exists (ed_To e). split; [apply Hids; by exists e|].
      apply foldable_spec in Hn. specialize (Hf (ed_To e)). rewrite Hn in Hf. rewrite Hf. cbn [fst].
      apply elem_of_concat_map_list. exists e. split; [by apply elem_of_inbound|]. apply list_elem_of_fmap.
      exists (ed_To d). split; [done|]. apply elem_of_sort_strings, elem_of_definedIn. by exists d. }
  destruct (first_by_id_spec add0) as (F1 & F2 & F3). split_and!; [| | |done].
  - intros i. by rewrite elem_of_list_to_set, Hrm', Hids.
  - intros x Hx%F2. by apply Hedge.
  - intros e d He Ht Hr Hd Hdt Hdf. apply elem_of_list_to_set, Hrm' in Hr as [(n & Hn) _].
    apply (F3 (fold_edge n e (ed_To d))). apply Hedge. by exists e, d, n.
Qed.

(** ** Pruning *)

(** Only elements without an edge are pruned, and all of them. *)
Lemma PruneOrphanElements_exact nodes edges id : id ∈ PruneOrphanElements nodes edges <->
  exists n, n ∈ nodes /\ n_ID n = id /\ n_Type n = NodeTypeElement /\
    forall e, e ∈ edges -> ed_From e <> id /\ ed_To e <> id.
Proof.
  unfold PruneOrphanElements. rewrite elem_of_list_to_set, list_elem_of_fmap. setoid_rewrite elem_of_bfilter.
  assert (Ht : forall i, i ∈ (list_to_set (concat (map (fun e => [ed_From e; ed_To e]) edges)) : gset string) <->
    exists e, e ∈ edges /\ (ed_From e = i \/ ed_To e = i)).
  { intros i. rewrite elem_of_list_to_set, elem_of_concat_map_list. setoid_rewrite elem_of_cons.
    setoid_rewrite list_elem_of_singleton. naive_solver. }
  unfold is_type. setoid_rewrite andb_true_iff. setoid_rewrite Stdlib.Strings.String.eqb_eq.
  setoid_rewrite bool_decide_eq_true. setoid_rewrite Ht. split.
  - intros (n & -> & Hn & Hty & Hno). exists n. split_and!; try done. intros e He. split; intros E; apply Hno; exists e; auto.
  - intros (n & Hn & <- & Hty & Hno). exists n. split_and!; try done. intros (e & He & Hor). destruct (Hno e He). naive_solver.
Qed.

(** ** Contracts *)

(** A token of a selector can mean a declared attribute. *)
Definition token_means (n : Node) (tok : string * string) (key : string) (d : attrDef) : Prop :=
  let '(prefix, dynamic) := splitAtInterpolation (snd tok) in
  key = key2 (n_Service n) (ToLower (fst tok)) /\ ~ (prefix = "" /\ dynamic = true) /\
  attrMatches d prefix dynamic = true.

Lemma elem_of_token_edges attrDefs n tok e : e ∈ token_edges attrDefs n tok <->
  exists key d, d ∈ get_all attrDefs key /\ token_means n tok key d /\
    e = dom_edge (ad_compID d) (n_ID n)
      (if negb (ad_isPrefix d) && negb (snd (splitAtInterpolation (snd tok))) then ConfidenceStatic else ConfidencePartial).
Proof.
  unfold token_edges, token_means. destruct (splitAtInterpolation (snd tok)) as [prefix dyn]. cbn [snd].
  destruct (str_eqb prefix "" && dyn) eqn:E.
  - apply andb_true_iff in E as [E%Stdlib.Strings.String.eqb_eq ->]. rewrite elem_of_nil. naive_solver.
  - assert (Hn : ~ (prefix = "" /\ dyn = true)) by (intros [-> ->]; done).
    rewrite list_elem_of_fmap. setoid_rewrite elem_of_bfilter. naive_solver.
Qed.

(** A selector is in the ledger exactly when no component declares what one of
    its tokens can mean; otherwise it is joined to all that do. *)
Lemma target_links_spec attrDefs n : target_tokens n <> [] ->
  let '(es, us) := target_links attrDefs n in
  (forall e, e ∈ es <-> exists tok, tok ∈ target_tokens n /\ e ∈ token_edges attrDefs n tok) /\
  (us = [] <-> exists tok key d, tok ∈ target_tokens n /\ d ∈ get_all attrDefs key /\ token_means n tok key d).
Proof.
  intros Ht. unfold target_links. destruct (target_tokens n) as [|t ts] eqn:E; [done|]. rewrite <- E in *.
  assert (Hes : forall e, e ∈ concat (map (token_edges attrDefs n) (target_tokens n)) <->
    exists tok, tok ∈ target_tokens n /\ e ∈ token_edges attrDefs n tok) by (intros e; apply elem_of_concat_map_list).
  split; [done|]. destruct (concat _) as [|e0 es0].
  - split; [done|]. intros (tok & key & d & Htok & Hd & Hm). exfalso. eapply not_elem_of_nil. apply Hes.
    exists tok. split; [done|]. apply elem_of_token_edges. by exists key, d.
  - split; [|done]. intros _. destruct (proj1 (Hes e0)) as (tok & Htok & (key & d & Hd & Hm & _)%elem_of_token_edges); [left|].
    by exists tok, key, d.
Qed.

(** ** Shapes *)

(** Equal shapes of two fields or more are joined: their index is 1. *)
Lemma setSimilarity_bounds a b : let '(shared, union) := setSimilarity a b in
  (0 <= shared <= union)%Z /\ union = Z.of_nat (size (a ∪ b)).
Proof.
  unfold setSimilarity. pose proof (size_union_alt a b) as Hu. pose proof (subseteq_size (a ∩ b) a ltac:(set_solver)).
  pose proof (subseteq_size (a ∩ b) b ltac:(set_solver)).
  assert (Hd : size (b ∖ a) = size b - size (a ∩ b)).
  { rewrite size_difference_alt. f_equal. f_equal. set_solver. }
  rewrite Hd in Hu. lia.
Qed.
